(* ===== verification/_CoqProject ===== *)
-Q . S2P
Prelude.v
Coding.v
Status.v
Env.v
Crc32c.v
Log.v
Format.v
Comparator.v
Filename.v
Block.v
Iterators.v
Merger.v
TwoLevel.v
DbFormat.v
Arena.v
Random.v
SkipList.v
MemTable.v
DbIter.v
WriteBatch.v
VersionEdit.v
Version.v
VersionBuilder.v
Compaction.v
DbCompaction.v
VersionSet.v
DbImpl.v
DbHistory.v
DbFlush.v
DbRefinement.v
DbSteps.v
DbBackground.v
DbWork.v
DbPlan.v
DbRuns.v
Database.v
DbScan.v
DbOpen.v
DbReplay.v
Bloom.v
FilterBlock.v
TableBuilder.v
TableFile.v
MultiQueue.v
Links.v
LruCache.v
LruTable.v
LruSpec.v
LruRefines.v
ShardedCache.v
CachePins.v
MultiContainer.v
Table.v
TableRead.v
TableCache.v
