(* ===== verification/Prelude.v ===== *)
(** * RallyDB: a verification development

    RallyDB is a key-value store: a log-structured merge tree derived from LevelDB, in
    which the Bloom filters of a table consist of several units that are loaded and
    evicted as the access pattern changes.  This library models the C++ code under
    [src/] and proves what makes it correct.

    ** The program

    A write is a batch of operations ([WriteBatch]).  Writers queue up in the database
    ([DbImpl]); the one at the front numbers the operations of a group, appends them
    to the write-ahead log ([Log], with checksums from [Crc32c]) and inserts them into
    the memtable ([MemTable], a [SkipList] of encoded entries in an [Arena]).  A full
    memtable becomes immutable and is written by the background thread to a table
    file, a sequence of sorted blocks ([Block], [Format]) with filters ([Bloom],
    [FilterBlock]).  The files of the levels form a version ([Version]); flushes and
    compactions replace it by applying an edit ([VersionEdit], [VersionBuilder]),
    which is first logged in the manifest ([VersionSet]).  Compactions are chosen in
    [Compaction] and carried out in [DbCompaction].  A read looks at the memtable, the
    immutable memtable and the files of the current version, from new to old; a scan
    merges iterators over them ([Merger], [TwoLevel], [DbIter], [DbScan]).  Table files
    are written by [TableBuilder] and read by [Table].  Opening a database recovers the
    version from the manifest and replays the logs ([DbOpen]).  The units of the
    filters that are in memory are managed by [MultiQueue] or, for tables without it,
    by [MultiContainer]; blocks are cached in [ShardedCache], open tables in [TableCache].

    ** Files

    Each file models the sources that its own header names.
    - [Prelude]: bytes, machine integers with their wrap-around, tactics, shared lemmas.
    - [Coding], [Status], [Comparator], [Filename], [Random]: util/coding, util/status,
      util/comparator, db/filename with util/logging, util/random.
    - [Env]: the file interfaces of leveldb/env.h as classes with laws, and the
      in-memory files of helpers/memenv as an instance.
    - [Crc32c], [Log]: util/crc32c, db/log_writer and db/log_reader.
    - [Format], [Block]: table/format, table/block_builder and table/block.
    - [DbFormat]: internal keys of db/dbformat.
    - [Arena], [SkipList], [MemTable], [WriteBatch]: the files of the same names.
    - [VersionEdit], [Version], [VersionBuilder], [VersionSet], [Compaction]:
      db/version_edit and the classes of db/version_set.
    - [DbCompaction], [DbImpl]: db/db_impl with db/snapshot.h and db/builder.cc.
    - [DbOpen], [DbReplay]: opening, recovery and destruction of a database in
      db/db_impl, and what is recovered.
    - [Iterators], [Merger], [TwoLevel], [DbIter]: the iterator interface of
      leveldb/iterator.h with table/iterator_wrapper.h, table/merger,
      table/two_level_iterator, db/db_iter.
    - [DbScan]: the iterators of memtables, versions and databases.
    - [TableBuilder], [TableFile], [Table], [TableRead]: table/table_builder and
      table/table; the second and the fourth hold the proofs.
    - [Links], [LruCache], [LruTable], [LruSpec], [LruRefines], [ShardedCache]:
      util/cache.cc, its specification and the proofs; [CachePins] has what clients
      of the cache rely on.
    - [MultiContainer]: util/container and util/multi_container.
    - [TableCache]: db/table_cache and util/table_cache_lru, on top of both.
    - [Bloom], [FilterBlock], [MultiQueue]: util/hash, util/bloom,
      table/filter_block, util/multi_queue and util/mq_schedule.
    - [DbHistory], [DbFlush], [DbRefinement], [DbSteps], [DbBackground], [DbWork],
      [DbPlan], [DbRuns], [Database]: the proofs about the whole database.  [DbHistory]
      states the invariant [represents] and shows that the foreground operations keep
      it, [DbFlush] does so for flushes, [DbRefinement], [DbBackground] and [DbWork] for
      compactions and what happens inside them, [DbPlan] for the choice of compactions,
      [DbRuns] for runs of all of them; [Database] has the theorems.

    ** How the code is modelled

    An operation of the source is one definition with the same name (a loop of it is a
    fixpoint of its own).  An object is a record of its fields, passed and returned;
    objects that are shared and change ([FileMetaData] counters, versions, skip-list
    nodes, snapshots, handles) live in a store or list and are named by a number.  An
    integer is a [Z] with the wrap-around of its width written out ([u32], [u64],
    [i32], [i64]); a double is a [spec_float], which computes as the hardware does.
    A [Slice], a [std::string] and a [char] buffer are byte lists.  [Status] is the
    source's status value.  A result of type [option] is [None] where the source would
    read out of bounds or dereference null, or where fuel ran out; the theorems show
    that this does not happen.

    What the code gets from outside is an argument: what the operating system answers
    ([DbIO], [ManifestIO], [OutputIO], [CompactionIO]), lookups in tables ([cache_get]),
    compression, the memory allocator.  Where a theorem needs the outside to behave,
    the hypothesis is named: [ComparatorLaws] (a total order), [WritableFileLaws] and
    [SequentialFileLaws], [TableReads] (a lookup finds the first entry of a table at or
    behind a key), [table_written] (a table that was finished holds what was added),
    [merged] (the input iterator of a compaction yields the entries of the input files
    in order).  Instances show that they can hold.  That a lookup through the cache of
    open tables is a function of the file is [table_cache_is_transparent].

    Concurrency: the database is a step relation on the state that [mutex_] protects.
    A step is what happens between two points where the mutex is released.  A
    compaction releases it: [cio_between] is what the other threads do before each point
    where its loop looks at the state again, foreground steps in any number.  The loop
    itself flushes a memtable that is waiting ([flush_waiting]), takes a file number for
    an output when it opens it ([work_entry]) and installs the outputs in the version
    that is current at the end.  [DbWork] shows that these steps keep what the
    installation needs.  One case is excluded, because reads are wrong after it
    ([manual_compaction_hides_write]): a manual compaction that flushes a memtable whose
    keys lie between two of its inputs ([in_gap]).  Flushing a memtable is one step: the
    source releases the mutex while it writes the table, but only the background thread
    changes versions and the immutable memtable.  The skip list is also modelled as
    atomic steps of a writer beside a reader.

    ** What is proved

    - The database: [database_refines_history] (every read of every run returns the
      newest acknowledged write its snapshot sees), [database_iterator_shows_history]
      (so does every scan), [open_recovers_batches] (what a reopened database holds),
      [background_work_progresses], [group_commit], [obsolete_files_exact].
    - Tables and iterators: [table_roundtrip], [table_lookup_serves_version],
      [merging_iterator_merges], [db_iterator_shows_snapshot],
      [block_iterator_refines_cursor].
    - Caches: [table_cache_is_transparent], [cache_refines_spec], [cache_insert_bounded], [cache_deletes_once],
      [containers_stay_linked].
    - Reads of a version, its files and compactions: [version_get_newest],
      [compaction_preserves_reads], [compaction_inputs_complete], [base_level_exact],
      [overlapping_inputs_closure], [pick_level_is_safe], [version_builder_replay].
    - Durability: [log_roundtrip], [log_truncation], [log_detects_corruption],
      [log_reader_terminates], [manifest_recovery], [crc_stride_equivalence],
      [crc_detects_bursts], [read_block_detects_corruption].
    - The memtable: [skiplist_refines_sorted_list], [skiplist_concurrent_search],
      [memtable_multi_version], [batches_refine_history], [arena_pieces_disjoint].
    - Formats: round trips and decoding errors of integers, batches, edits, blocks,
      file names, keys.
    - Filters: no false negatives of Bloom filters and filter blocks, whatever units
      are loaded, and the accounting of the multi-queue.

    ** Fuel and bounds

    A loop that is not structural takes fuel computed from the data it works on: the
    length of the list it searches (skip list, blocks, binary searches), the length of
    the file (log, manifest), twice the number of files (overlapping inputs), the
    number of handles (hash chains, linked lists), the memory that is left (passes of
    an adjustment).  Iterators and recovery take the fuel as an argument; their
    theorems say how much is enough (more than the entries of the tables that a scan
    covers, more than the records and the bytes of a log).  The
    theorems about these loops show that the result is [Some].  File numbers are
    assumed below [2^31] (the binary search over files uses 32-bit indices), sequence
    numbers below [2^56 - 1], keys and values below [2^32] bytes, which the formats
    need; the calls of a cache below [2^31], as its counters have 32 bits.

    ** What is not modelled

    Code that only calls the operating system or a library (env_posix, env_windows,
    port, loggers), bindings and tools (db/c.cc, db/leveldbutil.cc, db/dumpfile.cc),
    benchmarks, ycsb-cpp with its vendored histogram library, the libtorch models and
    Python scripts, tests, third_party.  Of the store itself: repairing a database, the statistics
    of access times and the clustering of tables by access frequency, the estimates in
    double arithmetic, the double-checked locks and reference counts of file objects,
    text output (DebugString, GetProperty). *)

From Stdlib Require Import ZArith Lia.
From Stdlib Require Export Strings.Byte.
From stdpp Require Export base option list numbers countable relations.
From stdpp Require Import decidable.

#[global] Open Scope Z_scope.

(** ** Bytes and byte strings

    A [char] buffer, a [std::string] and a [Slice] are all finite byte
    sequences; a [Slice] that is advanced ([remove_prefix]) is a suffix. *)

Abbreviation bytes := (list byte).

Declare Scope rally_scope.
Delimit Scope rally_scope with rally.

(** [uint8_t] reading of a byte and the narrowing store [uint8_t b = z]. *)
Definition b2z (b : byte) : Z := Z.of_N (Byte.to_N b).

Definition z2b (z : Z) : byte :=
  match Byte.of_N (Z.to_N (z mod 256)) with
  | Some b => b
  | None => x00
  end.

(** Signed reading of a byte, as [char] on the supported targets. *)
Definition b2sz (b : byte) : Z := if b2z b <? 128 then b2z b else b2z b - 256.

#[export] Instance byte_eq_decision : EqDecision byte := Byte.byte_eq_dec.

#[export] Instance byte_inhabited : Inhabited byte := populate x00.

#[export] Instance byte_countable : Countable byte :=
  inj_countable Byte.to_N Byte.of_N Byte.of_to_N.

(** ** Machine integers

    A value of a [w]-bit unsigned type is an integer in [0, 2^w); every
    operation that can leave the range is followed by the wrap-around. *)

Definition u8 (z : Z) : Z := z mod 2 ^ 8.
Definition u16 (z : Z) : Z := z mod 2 ^ 16.
Definition u32 (z : Z) : Z := z mod 2 ^ 32.
Definition u64 (z : Z) : Z := z mod 2 ^ 64.

(** Two's complement reading of the low [w] bits. *)
Definition signed (w z : Z) : Z :=
  let r := z mod 2 ^ w in if r <? 2 ^ (w - 1) then r else r - 2 ^ w.
Definition i32 (z : Z) : Z := signed 32 z.
Definition i64 (z : Z) : Z := signed 64 z.

Definition is_u8 (z : Z) : Prop := 0 <= z < 2 ^ 8.
Definition is_u16 (z : Z) : Prop := 0 <= z < 2 ^ 16.
Definition is_u32 (z : Z) : Prop := 0 <= z < 2 ^ 32.
Definition is_u64 (z : Z) : Prop := 0 <= z < 2 ^ 64.

(** [size()] of a string, slice or vector. *)
Definition size {A} (l : list A) : Z := Z.of_nat (length l).

(** [p[i]] with an integer index: [None] when it is out of range. *)
Definition nth_z {A} (l : list A) (i : Z) : option A :=
  if i <? 0 then None else l !! Z.to_nat i.

(** Sub-range [Slice(p + off, n)]. *)
Definition take_z {A} (n : Z) (l : list A) : list A := take (Z.to_nat n) l.
Definition drop_z {A} (n : Z) (l : list A) : list A := drop (Z.to_nat n) l.
Definition sub_z {A} (off n : Z) (l : list A) : list A := take_z n (drop_z off l).

(** [std::string::resize(n)]: truncates, or pads with zero bytes. *)
Definition resize (n : Z) (l : bytes) : bytes :=
  take_z n l ++ replicate (Z.to_nat (n - size l)) x00.

Create HintDb rally.

#[export] Hint Unfold is_u8 is_u16 is_u32 is_u64 : rally.

(** ** Tactics *)

(** Unfolds the machine ranges and calls [lia]. *)
Ltac range_lia :=
  unfold is_u8, is_u16, is_u32, is_u64 in *; lia.

(** Splits every boolean comparison on [Z] in the context and the goal. *)
Ltac zcases :=
  repeat match goal with
  | |- context [?a <? ?b] => destruct (Z.ltb_spec a b)
  | |- context [?a <=? ?b] => destruct (Z.leb_spec a b)
  | |- context [?a =? ?b] => destruct (Z.eqb_spec a b)
  | H : context [?a <? ?b] |- _ => destruct (Z.ltb_spec a b)
  | H : context [?a <=? ?b] |- _ => destruct (Z.leb_spec a b)
  | H : context [?a =? ?b] |- _ => destruct (Z.eqb_spec a b)
  end.

(** ** Lemmas on bytes *)

Lemma b2z_range b : 0 <= b2z b < 256.
Proof.
  unfold b2z. pose proof (Byte.to_N_bounded b). lia.
Qed.

Lemma b2z_z2b z : b2z (z2b z) = z mod 256.
Proof.
  unfold b2z, z2b.
  assert (0 <= z mod 256 < 256) as Hr by (apply Z.mod_pos_bound; lia).
  destruct (Byte.of_N (Z.to_N (z mod 256))) as [b|] eqn:E.
  - apply Byte.to_of_N in E. rewrite E. lia.
  - apply Byte.of_N_None_iff in E. lia.
Qed.

Lemma b2z_z2b_small z : 0 <= z < 256 → b2z (z2b z) = z.
Proof. intros H. rewrite b2z_z2b. apply Z.mod_small. lia. Qed.

Lemma z2b_b2z b : z2b (b2z b) = b.
Proof.
  unfold z2b. rewrite Z.mod_small by apply b2z_range.
  unfold b2z. rewrite N2Z.id, Byte.of_to_N. done.
Qed.

Lemma b2z_inj b1 b2 : b2z b1 = b2z b2 → b1 = b2.
Proof. intros H. rewrite <-(z2b_b2z b1), <-(z2b_b2z b2), H. done. Qed.

Lemma z2b_mod z : z2b (z mod 256) = z2b z.
Proof. unfold z2b. rewrite Z.mod_mod by lia. done. Qed.

Lemma z2b_eq z1 z2 : z1 mod 256 = z2 mod 256 → z2b z1 = z2b z2.
Proof. unfold z2b. intros ->. done. Qed.

(** ** Lemmas on machine integers *)

Lemma u32_range z : is_u32 (u32 z).
Proof. apply Z.mod_pos_bound. lia. Qed.

Lemma u64_range z : is_u64 (u64 z).
Proof. apply Z.mod_pos_bound. lia. Qed.

Lemma u32_small z : is_u32 z → u32 z = z.
Proof. apply Z.mod_small. Qed.

Lemma u64_small z : is_u64 z → u64 z = z.
Proof. apply Z.mod_small. Qed.

Lemma u32_idem z : u32 (u32 z) = u32 z.
Proof. apply u32_small, u32_range. Qed.

Lemma u64_idem z : u64 (u64 z) = u64 z.
Proof. apply u64_small, u64_range. Qed.

Lemma signed_range w z : 0 < w → - 2 ^ (w - 1) <= signed w z < 2 ^ (w - 1).
Proof.
  intros Hw. unfold signed.
  assert (2 ^ w = 2 * 2 ^ (w - 1)) as E.
  { rewrite <-Z.pow_succ_r by lia. f_equal. lia. }
  pose proof (Z.mod_pos_bound z (2 ^ w) ltac:(lia)).
  zcases; lia.
Qed.

(** Bits of a value below [2 ^ k] at or above position [k] are zero. *)
Lemma testbit_high a k i : 0 <= a < 2 ^ k → k <= i → Z.testbit a i = false.
Proof.
  intros Ha Hi. destruct (Z.lt_ge_cases k 0) as [Hk|Hk].
  { rewrite Z.pow_neg_r in Ha by done. lia. }
  apply (Z.bounded_iff_bits_nonneg k a); lia.
Qed.

(** Bitwise or of operands with disjoint bits is their sum. *)
Lemma lor_shift_add a b k :
  0 <= k → 0 <= a < 2 ^ k → Z.lor a (Z.shiftl b k) = a + b * 2 ^ k.
Proof.
  intros Hk Ha. rewrite <-Z.shiftl_mul_pow2 by done.
  rewrite <-Z.add_lor_land.
  enough (Z.land a (Z.shiftl b k) = 0) as -> by lia.
  apply Z.bits_inj'. intros i Hi. rewrite Z.land_spec, Z.bits_0.
  destruct (Z.lt_ge_cases i k).
  - rewrite Z.shiftl_spec_low by lia. apply andb_false_r.
  - rewrite (testbit_high a k) by lia. done.
Qed.

(** [v | 128] stored in a byte: seven low bits and the continuation bit. *)
Lemma b2z_lor_128 v : b2z (z2b (Z.lor v 128)) = v mod 128 + 128.
Proof.
  rewrite b2z_z2b. change 256 with (2 ^ 8). rewrite <-Z.land_ones by lia.
  rewrite Z.land_lor_distr_l. change (Z.land 128 (Z.ones 8)) with 128.
  rewrite Z.land_ones by lia.
  replace (v mod 2 ^ 8) with (v mod 128 + (v / 128 mod 2) * 2 ^ 7).
  2: { change (2 ^ 8) with (128 * 2). rewrite Z.rem_mul_r by lia. lia. }
  rewrite <-lor_shift_add by (pose proof (Z.mod_pos_bound v 128); lia).
  rewrite <-Z.lor_assoc.
  replace (Z.lor (Z.shiftl (v / 128 mod 2) 7) 128) with (Z.shiftl 1 7).
  - apply lor_shift_add; [lia|]. apply Z.mod_pos_bound. lia.
  - pose proof (Z.mod_pos_bound (v / 128) 2).
    assert (v / 128 mod 2 = 0 \/ v / 128 mod 2 = 1) as [-> | ->] by lia; done.
Qed.

Lemma land_127 z : Z.land z 127 = z mod 128.
Proof. change 127 with (Z.ones 7). rewrite Z.land_ones by lia. done. Qed.

Lemma land_255 z : Z.land z 255 = z mod 256.
Proof. change 255 with (Z.ones 8). rewrite Z.land_ones by lia. done. Qed.

(** The test [byte & 128] on a byte value. *)
Lemma land_128 z : 0 <= z < 256 → (Z.land z 128 =? 0) = (z <? 128).
Proof.
  intros Hz. change 128 with (2 ^ 7) at 1.
  destruct (Z.ltb_spec z 128) as [H|H].
  - apply Z.eqb_eq. apply Z.bits_inj'. intros i Hi.
    rewrite Z.land_spec, Z.bits_0, Z.pow2_bits_eqb by lia.
    destruct (Z.eqb_spec 7 i) as [<-|]; [|apply andb_false_r].
    rewrite (testbit_high z 7) by lia. done.
  - apply Z.eqb_neq. intros E.
    assert (Z.testbit (Z.land z (2 ^ 7)) 7 = false) as Hb by (rewrite E; apply Z.bits_0).
    rewrite Z.land_spec, Z.pow2_bits_eqb, andb_true_r in Hb by lia.
    rewrite Z.testbit_false in Hb by lia.
    assert (z / 2 ^ 7 = 1) as E1; [|rewrite E1 in Hb; discriminate].
    symmetry. apply (Z.div_unique _ _ _ (z - 128)); lia.
Qed.

Lemma lor_range a b k : 0 <= k → 0 <= a < 2 ^ k → 0 <= b < 2 ^ k → 0 <= Z.lor a b < 2 ^ k.
Proof.
  intros Hk Ha Hb. assert (0 <= Z.lor a b) as H0 by (apply Z.lor_nonneg; lia).
  split; [done|]. apply (Z.bounded_iff_bits_nonneg k); [done..|].
  intros i Hi. rewrite Z.lor_spec, (testbit_high a k), (testbit_high b k) by lia. done.
Qed.

Lemma lor_range_inv a b k : 0 <= k → 0 <= a → 0 <= b → Z.lor a b < 2 ^ k → a < 2 ^ k ∧ b < 2 ^ k.
Proof.
  intros Hk Ha Hb Hl. assert (0 <= Z.lor a b) as H0 by (by apply Z.lor_nonneg).
  split; apply (Z.bounded_iff_bits_nonneg k); try done; intros i Hi;
    pose proof (testbit_high (Z.lor a b) k i ltac:(lia) Hi) as E; rewrite Z.lor_spec in E;
    apply orb_false_iff in E as [??]; done.
Qed.

Lemma lxor_range a b k : 0 <= k → 0 <= a < 2 ^ k → 0 <= b < 2 ^ k → 0 <= Z.lxor a b < 2 ^ k.
Proof.
  intros Hk Ha Hb. assert (0 <= Z.lxor a b) as H0 by (apply Z.lxor_nonneg; lia).
  split; [done|]. apply (Z.bounded_iff_bits_nonneg k); [done..|].
  intros i Hi. rewrite Z.lxor_spec, (testbit_high a k), (testbit_high b k) by lia. done.
Qed.

Lemma shiftr_range a k j : 0 <= j → 0 <= a < 2 ^ k → 0 <= Z.shiftr a j < 2 ^ k.
Proof.
  intros Hj Ha. rewrite Z.shiftr_div_pow2 by done.
  assert (0 < 2 ^ j) by lia.
  split; [apply Z.div_pos; lia|].
  apply Z.le_lt_trans with a; [|lia]. apply Z.div_le_upper_bound; [lia|]. nia.
Qed.

(** ** Lemmas on lists with integer sizes *)

Lemma size_nonneg {A} (l : list A) : 0 <= size l.
Proof. unfold size. lia. Qed.

Lemma size_app {A} (l1 l2 : list A) : size (l1 ++ l2) = size l1 + size l2.
Proof. unfold size. rewrite length_app. lia. Qed.

Lemma size_cons {A} (x : A) l : size (x :: l) = 1 + size l.
Proof. unfold size. simpl. lia. Qed.

Lemma size_nil {A} : size (@nil A) = 0.
Proof. done. Qed.

Lemma take_z_app {A} (l1 l2 : list A) n : n = size l1 → take_z n (l1 ++ l2) = l1.
Proof. intros ->. unfold take_z, size. rewrite Nat2Z.id. apply take_app_length. Qed.

Lemma drop_z_app {A} (l1 l2 : list A) n : n = size l1 → drop_z n (l1 ++ l2) = l2.
Proof. intros ->. unfold drop_z, size. rewrite Nat2Z.id. apply drop_app_length. Qed.

Lemma take_z_snoc {A} (l r : list A) x n : n = size l + 1 → take_z n (l ++ x :: r) = l ++ [x].
Proof.
  intros ->. rewrite cons_middle, app_assoc. apply take_z_app.
  rewrite size_app, size_cons. unfold size. simpl. lia.
Qed.

Lemma drop_z_snoc {A} (l r : list A) x n : n = size l + 1 → drop_z n (l ++ x :: r) = r.
Proof.
  intros ->. rewrite cons_middle, app_assoc. apply drop_z_app.
  rewrite size_app, size_cons. unfold size. simpl. lia.
Qed.

Lemma size_take_z {A} (l : list A) n : 0 <= n <= size l → size (take_z n l) = n.
Proof. unfold size, take_z. rewrite length_take. lia. Qed.

Lemma size_drop_z {A} (l : list A) n : 0 <= n <= size l → size (drop_z n l) = size l - n.
Proof. unfold size, drop_z. rewrite length_drop. lia. Qed.

Lemma take_drop_z {A} (l : list A) n : take_z n l ++ drop_z n l = l.
Proof. apply take_drop. Qed.

Lemma nth_z_Some {A} (l : list A) i x : nth_z l i = Some x → 0 <= i < size l.
Proof.
  unfold nth_z, size. zcases; [done|]. intros Hl%lookup_lt_Some. lia.
Qed.

Lemma nth_z_is_Some {A} (l : list A) i : 0 <= i < size l → is_Some (nth_z l i).
Proof.
  unfold nth_z, size. intros Hi. zcases; [lia|]. apply lookup_lt_is_Some. lia.
Qed.

Lemma take_z_add {A} n m (l : list A) : 0 <= n → 0 <= m → take_z (n + m) l = take_z n l ++ take_z m (drop_z n l).
Proof.
  intros. unfold take_z, drop_z. rewrite Z2Nat.inj_add by done.
  rewrite <-(take_drop (Z.to_nat n) l) at 1. rewrite take_app.
  f_equal; [by rewrite take_take, Nat.min_r by lia|].
  rewrite length_take. destruct (Nat.le_gt_cases (Z.to_nat n) (length l)).
  - f_equal. lia.
  - rewrite drop_ge by lia. by rewrite !take_nil.
Qed.

Lemma drop_z_add {A} n m (l : list A) : 0 <= n → 0 <= m → drop_z (n + m) l = drop_z m (drop_z n l).
Proof. intros. unfold drop_z. rewrite Z2Nat.inj_add, drop_drop by done. done. Qed.

Lemma take_z_app_le {A} n (l k : list A) : n <= size l → take_z n (l ++ k) = take_z n l.
Proof. intros. unfold take_z, size in *. rewrite take_app_le by lia. done. Qed.

Lemma drop_z_app_le {A} n (l k : list A) : n <= size l → drop_z n (l ++ k) = drop_z n l ++ k.
Proof. intros. unfold drop_z, size in *. rewrite drop_app_le by lia. done. Qed.

Lemma sub_take {A} o n m (l : list A) : 0 <= o → 0 <= n → o + n <= m → sub_z o n (take_z m l) = sub_z o n l.
Proof.
  intros. unfold sub_z, take_z, drop_z. rewrite skipn_firstn_comm, take_take. f_equal. lia.
Qed.

Lemma size_sub_z {A} o n (l : list A) : 0 <= o <= size l → 0 <= n → size (sub_z o n l) = Z.min n (size l - o).
Proof. intros. unfold sub_z, size, take_z, drop_z in *. rewrite length_take, length_drop. lia. Qed.

Lemma drop_z_min {A} n m (l : list A) : m = size l → drop_z (Z.min n m) l = drop_z n l.
Proof.
  intros ->. destruct (Z.le_gt_cases n (size l)); [f_equal; lia|].
  unfold drop_z, size in *. rewrite !drop_ge by lia. done.
Qed.

Lemma take_z_all {A} (l : list A) : take_z (size l) l = l.
Proof. unfold take_z, size. rewrite Nat2Z.id. by apply take_ge. Qed.

Lemma take_z_ge {A} n (l : list A) : size l <= n → take_z n l = l.
Proof. intros. unfold take_z, size in *. apply take_ge. lia. Qed.

Lemma drop_z_ge {A} n (l : list A) : size l <= n → drop_z n l = [].
Proof. intros. unfold drop_z, size in *. apply drop_ge. lia. Qed.

Lemma size_take_z_le {A} n (l : list A) : 0 <= n → size (take_z n l) <= n.
Proof. intros. unfold take_z, size. rewrite length_take. lia. Qed.

Lemma drop_z_short {A} n (l : list A) : size (take_z n l) < n → drop_z n l = [].
Proof. unfold take_z, drop_z, size. rewrite length_take. intros. apply drop_ge. lia. Qed.

Create Rewrite HintDb rally_size.
#[export] Hint Rewrite @size_app @size_cons @size_nil : rally_size.
#[export] Hint Resolve size_nonneg u32_range u64_range b2z_range : rally.
