(* ===== verification/Coding.v ===== *)
(** * Integer and slice encodings (src/util/coding.h, src/util/coding.cc)

    Fixed-width little-endian integers, base-128 varints and length-prefixed
    slices.  A pointer pair [p, limit) is the list of the bytes between them;
    a [Put...] routine appends to its string; a [Get...] routine that can fail
    returns [None] where the source returns [nullptr] or [false]. *)

From S2P Require Import Prelude.

Module Coding.

(** ** Fixed-width integers *)

Definition EncodeFixed32 (value : Z) : bytes :=
  [z2b value; z2b (Z.shiftr value 8); z2b (Z.shiftr value 16); z2b (Z.shiftr value 24)].

Definition EncodeFixed64 (value : Z) : bytes :=
  [z2b value; z2b (Z.shiftr value 8); z2b (Z.shiftr value 16); z2b (Z.shiftr value 24);
   z2b (Z.shiftr value 32); z2b (Z.shiftr value 40); z2b (Z.shiftr value 48);
   z2b (Z.shiftr value 56)].

(** Reading past the end of the buffer is undefined in the source: [None]. *)
Definition DecodeFixed32 (ptr : bytes) : option Z :=
  match ptr with
  | b0 :: b1 :: b2 :: b3 :: _ =>
      Some (Z.lor (Z.lor (Z.lor (b2z b0) (u32 (Z.shiftl (b2z b1) 8)))
                         (u32 (Z.shiftl (b2z b2) 16)))
                  (u32 (Z.shiftl (b2z b3) 24)))
  | _ => None
  end.

Definition DecodeFixed64 (ptr : bytes) : option Z :=
  match ptr with
  | b0 :: b1 :: b2 :: b3 :: b4 :: b5 :: b6 :: b7 :: _ =>
      let r := Z.lor (b2z b0) (u64 (Z.shiftl (b2z b1) 8)) in
      let r := Z.lor r (u64 (Z.shiftl (b2z b2) 16)) in
      let r := Z.lor r (u64 (Z.shiftl (b2z b3) 24)) in
      let r := Z.lor r (u64 (Z.shiftl (b2z b4) 32)) in
      let r := Z.lor r (u64 (Z.shiftl (b2z b5) 40)) in
      let r := Z.lor r (u64 (Z.shiftl (b2z b6) 48)) in
      Some (Z.lor r (u64 (Z.shiftl (b2z b7) 56)))
  | _ => None
  end.

Definition PutFixed32 (dst : bytes) (value : Z) : bytes := dst ++ EncodeFixed32 value.
Definition PutFixed64 (dst : bytes) (value : Z) : bytes := dst ++ EncodeFixed64 value.

(** ** Varints *)

(** The unrolled 32-bit encoder. *)
Definition EncodeVarint32 (v : Z) : bytes :=
  let B := 128 in
  if v <? Z.shiftl 1 7 then [z2b v]
  else if v <? Z.shiftl 1 14 then
    [z2b (Z.lor v B); z2b (Z.shiftr v 7)]
  else if v <? Z.shiftl 1 21 then
    [z2b (Z.lor v B); z2b (Z.lor (Z.shiftr v 7) B); z2b (Z.shiftr v 14)]
  else if v <? Z.shiftl 1 28 then
    [z2b (Z.lor v B); z2b (Z.lor (Z.shiftr v 7) B); z2b (Z.lor (Z.shiftr v 14) B);
     z2b (Z.shiftr v 21)]
  else
    [z2b (Z.lor v B); z2b (Z.lor (Z.shiftr v 7) B); z2b (Z.lor (Z.shiftr v 14) B);
     z2b (Z.lor (Z.shiftr v 21) B); z2b (Z.shiftr v 28)].

(** [while (v >= B)]: a 64-bit value leaves the loop within nine rounds
    ([EncodeVarint64_eq] below), so ten rounds of fuel never run out. *)
Fixpoint EncodeVarint64_loop (fuel : nat) (v : Z) : bytes :=
  match fuel with
  | O => []
  | S fuel' =>
      if v >=? 128 then z2b (Z.lor v 128) :: EncodeVarint64_loop fuel' (Z.shiftr v 7)
      else [z2b v]
  end.

Definition EncodeVarint64 (v : Z) : bytes := EncodeVarint64_loop 10 v.

Definition PutVarint32 (dst : bytes) (v : Z) : bytes := dst ++ EncodeVarint32 v.
Definition PutVarint64 (dst : bytes) (v : Z) : bytes := dst ++ EncodeVarint64 v.

Fixpoint VarintLength_loop (fuel : nat) (v len : Z) : Z :=
  match fuel with
  | O => len
  | S fuel' => if v >=? 128 then VarintLength_loop fuel' (Z.shiftr v 7) (len + 1) else len
  end.

Definition VarintLength (v : Z) : Z := VarintLength_loop 10 v 1.

(** The loop body [GetVarint32PtrFallback] and [GetVarint64Ptr] share, for a
    result of [w] bits and a last shift of [max_shift].  It advances [p], so
    the recursion is on the remaining bytes. *)
Fixpoint GetVarintPtr_loop (w max_shift shift result : Z) (p : bytes) : option (Z * bytes) :=
  if shift <=? max_shift then
    match p with
    | [] => None
    | c :: p' =>
        let byte := b2z c in
        if negb (Z.land byte 128 =? 0) then
          GetVarintPtr_loop w max_shift (shift + 7)
            (Z.lor result ((Z.shiftl (Z.land byte 127) shift) mod 2 ^ w)) p'
        else Some (Z.lor result ((Z.shiftl byte shift) mod 2 ^ w), p')
    end
  else None.

Definition GetVarint32PtrFallback (p : bytes) : option (Z * bytes) :=
  GetVarintPtr_loop 32 28 0 0 p.

Definition GetVarint32Ptr (p : bytes) : option (Z * bytes) :=
  match p with
  | c :: p' =>
      let result := b2z c in
      if Z.land result 128 =? 0 then Some (result, p') else GetVarint32PtrFallback p
  | [] => GetVarint32PtrFallback p
  end.

(** On failure the source leaves [*input] as it was; the callers give up. *)
Definition GetVarint32 (input : bytes) : option (Z * bytes) := GetVarint32Ptr input.

Definition GetVarint64Ptr (p : bytes) : option (Z * bytes) := GetVarintPtr_loop 64 63 0 0 p.

Definition GetVarint64 (input : bytes) : option (Z * bytes) := GetVarint64Ptr input.

(** ** Length-prefixed slices

    [PutVarint32(dst, value.size())] narrows [size_t] to 32 bits. *)
Definition PutLengthPrefixedSlice (dst value : bytes) : bytes :=
  PutVarint32 dst (u32 (size value)) ++ value.

Definition GetLengthPrefixedSlice (input : bytes) : option (bytes * bytes) :=
  '(len, input') ← GetVarint32 input;
  if size input' >=? len then Some (take_z len input', drop_z len input') else None.

(** ** Lemmas: fixed-width integers *)

Lemma lor_u32_shift a b k :
  0 <= k <= 24 → 0 <= a < 2 ^ k →
  Z.lor a (u32 (Z.shiftl (b2z b) k)) = a + b2z b * 2 ^ k.
Proof.
  intros Hk Ha. rewrite u32_small; [apply lor_shift_add; lia|].
  pose proof (b2z_range b). rewrite Z.shiftl_mul_pow2 by lia.
  assert (2 ^ k <= 2 ^ 24) by (apply Z.pow_le_mono_r; lia).
  unfold is_u32. nia.
Qed.

Lemma lor_u64_shift a b k :
  0 <= k <= 56 → 0 <= a < 2 ^ k →
  Z.lor a (u64 (Z.shiftl (b2z b) k)) = a + b2z b * 2 ^ k.
Proof.
  intros Hk Ha. rewrite u64_small; [apply lor_shift_add; lia|].
  pose proof (b2z_range b). rewrite Z.shiftl_mul_pow2 by lia.
  assert (2 ^ k <= 2 ^ 56) by (apply Z.pow_le_mono_r; lia).
  unfold is_u64. nia.
Qed.

(** [DecodeFixed32] is the little-endian value of the first four bytes. *)
Lemma DecodeFixed32_value b0 b1 b2 b3 rest :
  DecodeFixed32 (b0 :: b1 :: b2 :: b3 :: rest) =
    Some (b2z b0 + b2z b1 * 2 ^ 8 + b2z b2 * 2 ^ 16 + b2z b3 * 2 ^ 24).
Proof.
  pose proof (b2z_range b0). pose proof (b2z_range b1). pose proof (b2z_range b2).
  unfold DecodeFixed32.
  rewrite (lor_u32_shift _ b1), (lor_u32_shift _ b2), (lor_u32_shift _ b3) by lia. done.
Qed.

Lemma DecodeFixed64_value b0 b1 b2 b3 b4 b5 b6 b7 rest :
  DecodeFixed64 (b0 :: b1 :: b2 :: b3 :: b4 :: b5 :: b6 :: b7 :: rest) =
    Some (b2z b0 + b2z b1 * 2 ^ 8 + b2z b2 * 2 ^ 16 + b2z b3 * 2 ^ 24
          + b2z b4 * 2 ^ 32 + b2z b5 * 2 ^ 40 + b2z b6 * 2 ^ 48 + b2z b7 * 2 ^ 56).
Proof.
  pose proof (b2z_range b0). pose proof (b2z_range b1). pose proof (b2z_range b2).
  pose proof (b2z_range b3). pose proof (b2z_range b4). pose proof (b2z_range b5).
  pose proof (b2z_range b6).
  unfold DecodeFixed64. cbv zeta.
  rewrite (lor_u64_shift _ b1), (lor_u64_shift _ b2), (lor_u64_shift _ b3),
    (lor_u64_shift _ b4), (lor_u64_shift _ b5), (lor_u64_shift _ b6),
    (lor_u64_shift _ b7) by lia. done.
Qed.

(** One byte of a little-endian expansion. *)
Lemma b2z_shiftr v k : 0 <= k → b2z (z2b (Z.shiftr v k)) = v / 2 ^ k mod 256.
Proof. intros Hk. rewrite b2z_z2b, Z.shiftr_div_pow2 by lia. done. Qed.

Lemma div_step v k k' :
  0 <= k → k' = k + 8 → v / 2 ^ k = v / 2 ^ k mod 256 + 256 * (v / 2 ^ k').
Proof.
  intros Hk ->. rewrite Z.pow_add_r, <-Z.div_div by lia. change (2 ^ 8) with 256.
  rewrite (Z.div_mod (v / 2 ^ k) 256) at 1 by lia. lia.
Qed.

Lemma DecodeFixed32_Encode v rest :
  is_u32 v → DecodeFixed32 (EncodeFixed32 v ++ rest) = Some v.
Proof.
  intros Hv. unfold EncodeFixed32. cbn [app]. rewrite DecodeFixed32_value.
  rewrite b2z_z2b, !b2z_shiftr by lia. f_equal.
  pose proof (div_step v 0 8 ltac:(lia) eq_refl) as H0. pose proof (div_step v 8 16 ltac:(lia) eq_refl) as H1.
  pose proof (div_step v 16 24 ltac:(lia) eq_refl) as H2. pose proof (div_step v 24 32 ltac:(lia) eq_refl) as H3.
  change (2 ^ 0) with 1 in H0. rewrite Z.div_1_r in H0.
  rewrite (Z.div_small v (2 ^ 32)) in H3 by (unfold is_u32 in Hv; lia). lia.
Qed.

Lemma DecodeFixed64_Encode v rest :
  is_u64 v → DecodeFixed64 (EncodeFixed64 v ++ rest) = Some v.
Proof.
  intros Hv. unfold EncodeFixed64. cbn [app]. rewrite DecodeFixed64_value.
  rewrite b2z_z2b, !b2z_shiftr by lia. f_equal.
  pose proof (div_step v 0 8 ltac:(lia) eq_refl) as H0. pose proof (div_step v 8 16 ltac:(lia) eq_refl) as H1.
  pose proof (div_step v 16 24 ltac:(lia) eq_refl) as H2. pose proof (div_step v 24 32 ltac:(lia) eq_refl) as H3.
  pose proof (div_step v 32 40 ltac:(lia) eq_refl) as H4. pose proof (div_step v 40 48 ltac:(lia) eq_refl) as H5.
  pose proof (div_step v 48 56 ltac:(lia) eq_refl) as H6. pose proof (div_step v 56 64 ltac:(lia) eq_refl) as H7.
  change (2 ^ 0) with 1 in H0. rewrite Z.div_1_r in H0.
  rewrite (Z.div_small v (2 ^ 64)) in H7 by (unfold is_u64 in Hv; lia). lia.
Qed.

Lemma size_EncodeFixed32 v : size (EncodeFixed32 v) = 4.
Proof. done. Qed.

Lemma size_EncodeFixed64 v : size (EncodeFixed64 v) = 8.
Proof. done. Qed.

(** A sequence of fixed-width integers appended to a buffer. *)
Lemma foldl_PutFixed32 l : ∀ acc, foldl PutFixed32 acc l = acc ++ concat (EncodeFixed32 <$> l).
Proof.
  induction l as [|x l IH]; intros acc; simpl; [by rewrite app_nil_r|].
  rewrite IH. unfold PutFixed32. by rewrite <-app_assoc.
Qed.

Lemma size_fixed32s l : size (concat (EncodeFixed32 <$> l)) = 4 * size l.
Proof.
  induction l as [|x l IH]; [done|]. rewrite fmap_cons. cbn [concat].
  rewrite size_app, IH, size_EncodeFixed32, size_cons. lia.
Qed.

(** ** Lemmas: varints *)

(** More fuel than the value needs does not change the encoding. *)
Lemma EncodeVarint64_loop_fuel n m v :
  0 <= v < 2 ^ (7 * Z.of_nat n) → (0 < n)%nat → (n <= m)%nat →
  EncodeVarint64_loop m v = EncodeVarint64_loop n v.
Proof.
  revert m v. induction n as [|n IH]; intros m v Hv Hn Hm; [lia|].
  destruct m as [|m]; [lia|]. cbn [EncodeVarint64_loop].
  rewrite Z.geb_leb. destruct (Z.leb_spec 128 v); [|done].
  f_equal. rewrite Z.shiftr_div_pow2 by lia.
  assert (0 < n)%nat by (destruct n; [simpl in Hv|]; lia).
  apply IH; [|lia..]. split; [apply Z.div_pos; lia|].
  apply Z.div_lt_upper_bound; [lia|]. rewrite <-Z.pow_add_r by lia.
  replace (7 + 7 * Z.of_nat n) with (7 * Z.of_nat (S n)) by lia. lia.
Qed.

(** The loop equation of [EncodeVarint64]: the fuel is enough. *)
Lemma EncodeVarint64_eq v :
  is_u64 v →
  EncodeVarint64 v =
    if v >=? 128 then z2b (Z.lor v 128) :: EncodeVarint64 (Z.shiftr v 7) else [z2b v].
Proof.
  intros Hv. unfold EncodeVarint64 at 1. cbn [EncodeVarint64_loop].
  rewrite Z.geb_leb. destruct (Z.leb_spec 128 v); [|done]. f_equal.
  symmetry. apply (EncodeVarint64_loop_fuel 9 10); [|lia..].
  rewrite Z.shiftr_div_pow2 by lia. unfold is_u64 in Hv.
  split; [apply Z.div_pos; lia|]. apply Z.div_lt_upper_bound; lia.
Qed.

Lemma is_u64_shiftr v k : 0 <= k → is_u64 v → is_u64 (Z.shiftr v k).
Proof. intros. apply shiftr_range; done. Qed.

Lemma EncodeVarint64_last v : 0 <= v < 128 → EncodeVarint64 v = [z2b v].
Proof.
  intros Hv. rewrite EncodeVarint64_eq, Z.geb_leb by (unfold is_u64; lia).
  zcases; [lia|done].
Qed.

Lemma EncodeVarint64_more v :
  is_u64 v → 128 <= v → EncodeVarint64 v = z2b (Z.lor v 128) :: EncodeVarint64 (Z.shiftr v 7).
Proof.
  intros Hv ?. rewrite EncodeVarint64_eq, Z.geb_leb by done. zcases; [done|lia].
Qed.

Lemma shiftr_lt_128 v k k' : 0 <= k → k' = k + 7 → Z.shiftr v k < 128 ↔ v < 2 ^ k'.
Proof.
  intros Hk ->. rewrite Z.shiftr_div_pow2, Z.pow_add_r by lia. change (2 ^ 7) with 128.
  assert (0 < 2 ^ k) by lia. split; intros.
  - pose proof (Z.mul_succ_div_gt v (2 ^ k)). nia.
  - apply Z.div_lt_upper_bound; lia.
Qed.

(** The unrolled encoder computes what the loop computes. *)
Lemma EncodeVarint32_loop v : is_u32 v → EncodeVarint32 v = EncodeVarint64 v.
Proof.
  intros Hv. unfold EncodeVarint32, is_u32 in *.
  assert (∀ k, 0 <= k → is_u64 (Z.shiftr v k)) as Hu.
  { intros. apply is_u64_shiftr; [done|]. unfold is_u64. lia. }
  pose proof (shiftr_lt_128 v 7 14 ltac:(lia) eq_refl).
  pose proof (shiftr_lt_128 v 14 21 ltac:(lia) eq_refl).
  pose proof (shiftr_lt_128 v 21 28 ltac:(lia) eq_refl).
  pose proof (shiftr_lt_128 v 28 35 ltac:(lia) eq_refl).
  assert (Z.shiftr (Z.shiftr v 7) 7 = Z.shiftr v 14) as E1 by (rewrite Z.shiftr_shiftr by lia; done).
  assert (Z.shiftr (Z.shiftr v 14) 7 = Z.shiftr v 21) as E2 by (rewrite Z.shiftr_shiftr by lia; done).
  assert (Z.shiftr (Z.shiftr v 21) 7 = Z.shiftr v 28) as E3 by (rewrite Z.shiftr_shiftr by lia; done).
  pose proof (Hu 7 ltac:(lia)). pose proof (Hu 14 ltac:(lia)).
  pose proof (Hu 21 ltac:(lia)). pose proof (Hu 28 ltac:(lia)).
  change (Z.shiftl 1 7) with 128. change (Z.shiftl 1 14) with (2 ^ 14).
  change (Z.shiftl 1 21) with (2 ^ 21). change (Z.shiftl 1 28) with (2 ^ 28).
  destruct (Z.ltb_spec v 128); [by rewrite EncodeVarint64_last by lia|].
  rewrite (EncodeVarint64_more v) by (unfold is_u64; lia).
  destruct (Z.ltb_spec v (2 ^ 14)); [by rewrite EncodeVarint64_last by range_lia|].
  rewrite (EncodeVarint64_more (Z.shiftr v 7)), E1 by (done || lia).
  destruct (Z.ltb_spec v (2 ^ 21)); [by rewrite EncodeVarint64_last by range_lia|].
  rewrite (EncodeVarint64_more (Z.shiftr v 14)), E2 by (done || lia).
  destruct (Z.ltb_spec v (2 ^ 28)); [by rewrite EncodeVarint64_last by range_lia|].
  rewrite (EncodeVarint64_more (Z.shiftr v 21)), E3 by (done || lia).
  by rewrite EncodeVarint64_last by range_lia.
Qed.

Lemma VarintLength_loop_size n v len :
  0 <= v < 2 ^ (7 * Z.of_nat n) → (0 < n)%nat →
  VarintLength_loop n v len + 1 = len + size (EncodeVarint64_loop n v).
Proof.
  revert v len. induction n as [|n IH]; intros v len Hv Hn; [lia|].
  cbn [VarintLength_loop EncodeVarint64_loop]. rewrite Z.geb_leb.
  destruct (Z.leb_spec 128 v); [|done]. rewrite size_cons.
  assert (0 < n)%nat by (destruct n; [simpl in Hv|]; lia).
  rewrite IH; [lia| |lia]. rewrite Z.shiftr_div_pow2 by lia.
  split; [apply Z.div_pos; lia|].
  apply Z.div_lt_upper_bound; [lia|]. rewrite <-Z.pow_add_r by lia.
  replace (7 + 7 * Z.of_nat n) with (7 * Z.of_nat (S n)) by lia. lia.
Qed.

Lemma VarintLength_size v : is_u64 v → VarintLength v = size (EncodeVarint64 v).
Proof.
  intros Hv. pose proof (VarintLength_loop_size 10 v 1) as H.
  unfold VarintLength, EncodeVarint64. unfold is_u64 in Hv.
  rewrite <-(Z.add_cancel_r _ _ 1), H; lia.
Qed.

Lemma size_EncodeVarint64_loop n v : size (EncodeVarint64_loop n v) <= Z.of_nat n.
Proof.
  revert v. induction n as [|n IH]; intros v; [done|].
  cbn [EncodeVarint64_loop]. destruct (v >=? 128); rewrite size_cons; [|rewrite size_nil; lia].
  specialize (IH (Z.shiftr v 7)). lia.
Qed.

(** One loop iteration of a decoder on the low seven bits of [v]. *)
Lemma lor_low7 w result v shift :
  0 <= shift → 0 <= result < 2 ^ shift → 0 <= v → result + v * 2 ^ shift < 2 ^ w →
  Z.lor result ((Z.shiftl (v mod 128) shift) mod 2 ^ w) = result + (v mod 128) * 2 ^ shift.
Proof.
  intros Hs Hr Hv Hw. pose proof (Z.mod_pos_bound v 128 ltac:(lia)).
  pose proof (Z.mod_le v 128 ltac:(lia) ltac:(lia)).
  rewrite Z.mod_small; [apply lor_shift_add; lia|].
  rewrite Z.shiftl_mul_pow2 by lia. nia.
Qed.

(** Arithmetic of one round: the low part is absorbed, the rest shifts on. *)
Lemma varint_split result v shift :
  0 <= shift → result + v * 2 ^ shift =
    (result + (v mod 128) * 2 ^ shift) + Z.shiftr v 7 * 2 ^ (shift + 7).
Proof.
  intros Hs. rewrite Z.shiftr_div_pow2, Z.pow_add_r by lia. change (2 ^ 7) with 128.
  rewrite (Z.div_mod v 128) at 1 by lia. lia.
Qed.

Lemma varint_acc_range result v shift :
  0 <= shift → 0 <= result < 2 ^ shift →
  0 <= result + (v mod 128) * 2 ^ shift < 2 ^ (shift + 7).
Proof.
  intros Hs Hr. pose proof (Z.mod_pos_bound v 128 ltac:(lia)).
  rewrite Z.pow_add_r by lia. change (2 ^ 7) with 128. nia.
Qed.

(** Decoding the encoding of [v], with [result] already accumulated. *)
Lemma GetVarintPtr_loop_Encode w max n : ∀ v shift result rest,
  0 <= v < 2 ^ (7 * Z.of_nat n) → (0 < n)%nat → 0 <= shift →
  shift + 7 * (Z.of_nat n - 1) <= max →
  0 <= result < 2 ^ shift → result + v * 2 ^ shift < 2 ^ w →
  GetVarintPtr_loop w max shift result (EncodeVarint64_loop n v ++ rest) =
    Some (result + v * 2 ^ shift, rest).
Proof.
  induction n as [|n IH]; intros v shift result rest Hv Hn Hs Hmax Hr Hw; [lia|].
  cbn [EncodeVarint64_loop]. rewrite Z.geb_leb.
  destruct (Z.leb_spec 128 v) as [Hge|Hlt]; cbn [app GetVarintPtr_loop].
  - assert (0 < n)%nat as Hn' by (destruct n; [simpl in Hv|]; lia).
    destruct (Z.leb_spec shift max); [|lia].
    rewrite land_128, b2z_lor_128 by apply b2z_range.
    pose proof (Z.mod_pos_bound v 128 ltac:(lia)).
    destruct (Z.ltb_spec (v mod 128 + 128) 128); [lia|]. cbn [negb].
    rewrite land_127. replace ((v mod 128 + 128) mod 128) with (v mod 128).
    2: { rewrite <-Z.add_mod_idemp_r, Z.mod_same, Z.add_0_r, Z.mod_mod by lia. done. }
    rewrite lor_low7 by lia. rewrite IH; [| |lia..| |].
    + f_equal. f_equal. symmetry. apply varint_split. lia.
    + rewrite Z.shiftr_div_pow2 by lia. split; [apply Z.div_pos; lia|].
      apply Z.div_lt_upper_bound; [lia|]. rewrite <-Z.pow_add_r by lia.
      replace (7 + 7 * Z.of_nat n) with (7 * Z.of_nat (S n)) by lia. lia.
    + apply varint_acc_range; lia.
    + rewrite <-varint_split by lia. done.
  - destruct (Z.leb_spec shift max); [|lia].
    rewrite land_128 by apply b2z_range. rewrite b2z_z2b_small by lia.
    destruct (Z.ltb_spec v 128); [|lia]. cbn [negb].
    pose proof (lor_low7 w result v shift) as Hl. rewrite (Z.mod_small v 128) in Hl by lia.
    rewrite Hl by lia. done.
Qed.

Lemma GetVarint64_Encode v rest :
  is_u64 v → GetVarint64 (EncodeVarint64 v ++ rest) = Some (v, rest).
Proof.
  intros Hv. unfold GetVarint64, GetVarint64Ptr, EncodeVarint64. unfold is_u64 in Hv.
  rewrite GetVarintPtr_loop_Encode by (simpl; lia). f_equal. f_equal. lia.
Qed.

(** The inlined one-byte fast path agrees with the loop. *)
Lemma GetVarint32Ptr_fallback p : GetVarint32Ptr p = GetVarint32PtrFallback p.
Proof.
  unfold GetVarint32Ptr, GetVarint32PtrFallback. destruct p as [|c p']; [done|].
  cbn [GetVarintPtr_loop]. destruct (Z.land (b2z c) 128 =? 0); [|done].
  pose proof (b2z_range c). cbn [negb]. rewrite Z.shiftl_0_r, Z.mod_small, Z.lor_0_l by lia. done.
Qed.

Lemma GetVarint32_Encode v rest :
  is_u32 v → GetVarint32 (EncodeVarint32 v ++ rest) = Some (v, rest).
Proof.
  intros Hv. unfold GetVarint32. rewrite GetVarint32Ptr_fallback, EncodeVarint32_loop by done.
  unfold GetVarint32PtrFallback, EncodeVarint64. unfold is_u32 in Hv.
  rewrite (EncodeVarint64_loop_fuel 5 10) by lia.
  rewrite GetVarintPtr_loop_Encode by (simpl; lia). f_equal. f_equal. lia.
Qed.

(** A buffer that ends inside a varint is rejected. *)
Lemma GetVarintPtr_loop_continue w max p : ∀ shift result,
  Forall (λ c, 128 <= b2z c) p → GetVarintPtr_loop w max shift result p = None.
Proof.
  induction p as [|c p IH]; intros shift result Hp; simpl; [by destruct (shift <=? max)|].
  apply Forall_cons_1 in Hp as [Hc Hp]. destruct (shift <=? max); [|done].
  rewrite land_128 by apply b2z_range. destruct (Z.ltb_spec (b2z c) 128); [lia|].
  apply IH, Hp.
Qed.

Lemma EncodeVarint64_loop_prefix n k : ∀ v,
  (k < length (EncodeVarint64_loop n v))%nat →
  Forall (λ c, 128 <= b2z c) (take k (EncodeVarint64_loop n v)).
Proof.
  revert k. induction n as [|n IH]; intros k v Hk; simpl in *; [lia|].
  destruct (v >=? 128); destruct k as [|k]; simpl in *; try constructor.
  - rewrite b2z_lor_128. pose proof (Z.mod_pos_bound v 128). lia.
  - apply IH. lia.
  - lia.
  - lia.
Qed.

(** The decoded value always fits the result type. *)
Lemma GetVarintPtr_loop_range w max p : ∀ shift result v rest,
  0 <= w → 0 <= result < 2 ^ w →
  GetVarintPtr_loop w max shift result p = Some (v, rest) → 0 <= v < 2 ^ w.
Proof.
  induction p as [|c p IH]; intros shift result v rest Hw Hr; simpl;
    destruct (shift <=? max); try done.
  destruct (negb _).
  - apply IH; [done|]. apply lor_range; [done..|]. apply Z.mod_pos_bound. lia.
  - intros [= <- <-]. apply lor_range; [done..|]. apply Z.mod_pos_bound. lia.
Qed.

Lemma GetVarint64_range p v rest : GetVarint64 p = Some (v, rest) → is_u64 v.
Proof. apply GetVarintPtr_loop_range; lia. Qed.

Lemma GetVarint32_range p v rest : GetVarint32 p = Some (v, rest) → is_u32 v.
Proof.
  unfold GetVarint32. rewrite GetVarint32Ptr_fallback. apply GetVarintPtr_loop_range; lia.
Qed.

(** A successful decode consumes at least one byte and leaves a suffix. *)
Lemma GetVarintPtr_loop_suffix w max p : ∀ shift result v rest,
  GetVarintPtr_loop w max shift result p = Some (v, rest) →
  ∃ used, p = used ++ rest ∧ (0 < length used)%nat ∧ shift + 7 * (size used - 1) <= max.
Proof.
  induction p as [|c p IH]; intros shift result v rest; simpl;
    destruct (Z.leb_spec shift max); try done.
  destruct (negb _).
  - intros (used & -> & ? & ?)%IH. exists (c :: used). rewrite size_cons. simpl.
    split_and!; [done|lia|lia].
  - intros [= <- <-]. exists [c]. change (size [c]) with 1. simpl. split_and!; [done|lia|lia].
Qed.

Lemma GetVarint64_suffix p v rest :
  GetVarint64 p = Some (v, rest) → ∃ used, p = used ++ rest ∧ 1 <= size used <= 10.
Proof.
  intros (used & -> & ? & ?)%GetVarintPtr_loop_suffix. exists used. unfold size in *.
  split; [done|lia].
Qed.

Lemma GetVarint32_suffix p v rest :
  GetVarint32 p = Some (v, rest) → ∃ used, p = used ++ rest ∧ 1 <= size used <= 5.
Proof.
  unfold GetVarint32. rewrite GetVarint32Ptr_fallback.
  intros (used & -> & ? & ?)%GetVarintPtr_loop_suffix. exists used. unfold size in *.
  split; [done|lia].
Qed.

Lemma size_EncodeVarint64 v : is_u64 v → 1 <= size (EncodeVarint64 v) <= 10.
Proof.
  intros Hv. split; [|apply size_EncodeVarint64_loop].
  rewrite EncodeVarint64_eq by done. destruct (v >=? 128); rewrite size_cons.
  - pose proof (size_nonneg (EncodeVarint64 (Z.shiftr v 7))). lia.
  - done.
Qed.

Lemma size_EncodeVarint32 v : is_u32 v → 1 <= size (EncodeVarint32 v) <= 5.
Proof. intros Hv. unfold EncodeVarint32. by repeat destruct (_ <? _). Qed.

(** ** Lemmas: length-prefixed slices *)

Lemma GetLengthPrefixedSlice_Put s rest :
  is_u32 (size s) →
  GetLengthPrefixedSlice (PutLengthPrefixedSlice [] s ++ rest) = Some (s, rest).
Proof.
  intros Hs. unfold GetLengthPrefixedSlice, PutLengthPrefixedSlice, PutVarint32.
  rewrite u32_small by done. cbn [app]. rewrite <-app_assoc, GetVarint32_Encode by done. simpl.
  rewrite Z.geb_leb, size_app. pose proof (size_nonneg rest).
  destruct (Z.leb_spec (size s) (size s + size rest)); [|lia].
  rewrite take_z_app, drop_z_app by done. done.
Qed.

Lemma PutLengthPrefixedSlice_app dst s :
  PutLengthPrefixedSlice dst s = dst ++ PutLengthPrefixedSlice [] s.
Proof. unfold PutLengthPrefixedSlice, PutVarint32. rewrite <-!app_assoc. done. Qed.

Lemma GetLengthPrefixedSlice_suffix p s rest :
  GetLengthPrefixedSlice p = Some (s, rest) →
  ∃ used, p = used ++ s ++ rest ∧ 1 <= size used <= 5 ∧ is_u32 (size s).
Proof.
  unfold GetLengthPrefixedSlice. destruct (GetVarint32 p) as [[len p']|] eqn:E; [simpl|done].
  rewrite Z.geb_leb. destruct (Z.leb_spec len (size p')) as [Hl|]; [|done]. intros [= <- <-].
  pose proof (GetVarint32_range _ _ _ E). apply GetVarint32_suffix in E as (used & -> & Hu).
  exists used. rewrite take_drop_z. split_and!; [done|lia..|].
  rewrite size_take_z by range_lia. done.
Qed.

Lemma GetVarint64_truncated v k :
  (k < length (EncodeVarint64 v))%nat → GetVarint64 (take k (EncodeVarint64 v)) = None.
Proof. intros Hk. by apply GetVarintPtr_loop_continue, EncodeVarint64_loop_prefix. Qed.

Lemma GetVarint32_truncated v k :
  is_u32 v → (k < length (EncodeVarint32 v))%nat → GetVarint32 (take k (EncodeVarint32 v)) = None.
Proof.
  intros Hv. rewrite EncodeVarint32_loop by done. intros Hk. unfold GetVarint32.
  rewrite GetVarint32Ptr_fallback. by apply GetVarintPtr_loop_continue, EncodeVarint64_loop_prefix.
Qed.

Lemma GetLengthPrefixedSlice_truncated s k :
  is_u32 (size s) → (k < length (PutLengthPrefixedSlice [] s))%nat →
  GetLengthPrefixedSlice (take k (PutLengthPrefixedSlice [] s)) = None.
Proof.
  intros Hs. unfold PutLengthPrefixedSlice, PutVarint32, GetLengthPrefixedSlice.
  rewrite u32_small by done. cbn [app]. rewrite length_app. intros Hk.
  destruct (decide (k < length (EncodeVarint32 (size s)))%nat) as [Hlt|Hge].
  - rewrite take_app_le by lia. rewrite GetVarint32_truncated by done. done.
  - rewrite take_app_ge by lia. rewrite GetVarint32_Encode by done. simpl.
    rewrite Z.geb_leb. destruct (Z.leb_spec (size s) (size (take (k - length (EncodeVarint32 (size s))) s)));
      [|done]. unfold size in *. rewrite length_take in *. lia.
Qed.

(** ** Properties *)

(** Reading back a fixed32 or fixed64 value yields the value that was
    written, whatever follows it in the buffer. *)
Theorem fixed_roundtrip (v : Z) (rest : bytes) :
  (is_u32 v → DecodeFixed32 (PutFixed32 [] v ++ rest) = Some v) ∧
  (is_u64 v → DecodeFixed64 (PutFixed64 [] v ++ rest) = Some v).
Proof. split; [apply DecodeFixed32_Encode|apply DecodeFixed64_Encode]. Qed.

Lemma fixed_roundtrip_witness :
  is_u32 3735928559 ∧ DecodeFixed32 (PutFixed32 [] 3735928559 ++ [x01]) = Some 3735928559.
Proof.
  split; [vm_compute; by split|].
  apply (proj1 (fixed_roundtrip 3735928559 [x01])). vm_compute. by split.
Defined.

(** a varint decodes to the value that was encoded and the reader stops
    exactly behind it; [VarintLength] is the number of bytes written, between
    one and ten (five for 32-bit values). *)
Theorem varint_roundtrip (v : Z) (rest : bytes) :
  is_u64 v →
  GetVarint64 (PutVarint64 [] v ++ rest) = Some (v, rest) ∧
  VarintLength v = size (PutVarint64 [] v) ∧ 1 <= VarintLength v <= 10 ∧
  (is_u32 v →
     GetVarint32 (PutVarint32 [] v ++ rest) = Some (v, rest) ∧
     VarintLength v = size (PutVarint32 [] v) ∧ VarintLength v <= 5).
Proof.
  intros Hv. unfold PutVarint64, PutVarint32. cbn [app].
  pose proof (size_EncodeVarint64 v Hv). rewrite VarintLength_size by done.
  split_and!; [by apply GetVarint64_Encode|done|lia..|].
  intros Hv32. rewrite <-EncodeVarint32_loop by done.
  split_and!; [by apply GetVarint32_Encode|done|by apply size_EncodeVarint32].
Qed.

Lemma varint_roundtrip_witness :
  is_u64 300 ∧ GetVarint64 (PutVarint64 [] 300 ++ [xff]) = Some (300, [xff]).
Proof.
  split; [vm_compute; by split|].
  refine (proj1 (varint_roundtrip 300 [xff] _)). vm_compute. by split.
Defined.

(** the unrolled 32-bit encoder writes the bytes the generic base-128 loop
    writes, and the inlined one-byte decoder path agrees with the decoder loop. *)
Theorem varint32_equivalence (v : Z) (p : bytes) :
  (is_u32 v → EncodeVarint32 v = EncodeVarint64 v) ∧
  GetVarint32Ptr p = GetVarint32PtrFallback p.
Proof. split; [apply EncodeVarint32_loop|apply GetVarint32Ptr_fallback]. Qed.

Lemma varint32_equivalence_witness :
  is_u32 70000 ∧ EncodeVarint32 70000 = EncodeVarint64 70000.
Proof.
  split; [vm_compute; by split|].
  apply (proj1 (varint32_equivalence 70000 [])). vm_compute. by split.
Defined.

(** a length-prefixed slice is read back with the rest of the input intact,
    and every proper prefix of its encoding is rejected. *)
Theorem length_prefixed_slice_roundtrip (s rest : bytes) (k : nat) :
  is_u32 (size s) →
  GetLengthPrefixedSlice (PutLengthPrefixedSlice [] s ++ rest) = Some (s, rest) ∧
  ((k < length (PutLengthPrefixedSlice [] s))%nat →
     GetLengthPrefixedSlice (take k (PutLengthPrefixedSlice [] s)) = None).
Proof.
  intros Hs. split; [by apply GetLengthPrefixedSlice_Put|by apply GetLengthPrefixedSlice_truncated].
Qed.

Lemma length_prefixed_slice_roundtrip_witness :
  is_u32 (size [x61; x62]) ∧
  GetLengthPrefixedSlice (PutLengthPrefixedSlice [] [x61; x62] ++ [x63]) = Some ([x61; x62], [x63]).
Proof.
  split; [vm_compute; by split|].
  refine (proj1 (length_prefixed_slice_roundtrip [x61; x62] [x63] 0 _)). vm_compute. by split.
Defined.

(** A varint cut short by the end of the buffer is rejected, and a decoded
    value always fits the result type, with at most ten (five) bytes consumed. *)
Theorem varint_error_paths (v : Z) (k : nat) (p rest : bytes) (r : Z) :
  ((k < length (EncodeVarint64 v))%nat → GetVarint64 (take k (EncodeVarint64 v)) = None) ∧
  (GetVarint64 p = Some (r, rest) → is_u64 r ∧ ∃ used, p = used ++ rest ∧ 1 <= size used <= 10) ∧
  (GetVarint32 p = Some (r, rest) → is_u32 r ∧ ∃ used, p = used ++ rest ∧ 1 <= size used <= 5).
Proof.
  split_and!; [apply GetVarint64_truncated| |]; intros E; split;
    eauto using GetVarint64_range, GetVarint32_range, GetVarint64_suffix, GetVarint32_suffix.
Qed.

Lemma varint_error_paths_witness :
  (1 < length (EncodeVarint64 300))%nat ∧ GetVarint64 (take 1 (EncodeVarint64 300)) = None.
Proof.
  split; [vm_compute; lia|].
  apply (proj1 (varint_error_paths 300 1 [] [] 0)). vm_compute. lia.
Defined.

End Coding.
