(* ===== verification/Status.v ===== *)
(** * Status values (src/include/leveldb/status.h, src/util/status.cc)

    A [Status] is its [state_] pointer: null for success, otherwise an array
    holding a length, a code and a message.  Fallible operations with an output
    return [result]: the output, or the failing status. *)

From Stdlib Require Import String DecimalString DecimalN.
From S2P Require Import Prelude Coding.
Import Coding.

(** C string literals as byte strings. *)
Definition bs (s : string) : bytes := list_byte_of_string s.

(** The decimal digits that [%u] and [%llu] print. *)
Definition decimal (z : Z) : bytes := bs (DecimalString.NilZero.string_of_uint (N.to_uint (Z.to_N z))).

Inductive Code := kOk | kNotFound | kCorruption | kNotSupported | kInvalidArgument | kIOError.

#[export] Instance Code_eq_dec : EqDecision Code.
Proof. solve_decision. Defined.

Definition Code_to_Z (c : Code) : Z :=
  match c with
  | kOk => 0 | kNotFound => 1 | kCorruption => 2 | kNotSupported => 3
  | kInvalidArgument => 4 | kIOError => 5
  end.

(** The value of [state_]. *)
Definition Status : Type := option bytes.

Definition Status_OK : Status := None.

(** The constructor [Status(code, msg, msg2)]; [size] is copied in host
    (little-endian) order. *)
Definition Status_make (code : Code) (msg msg2 : bytes) : Status :=
  let len1 := u32 (size msg) in
  let len2 := u32 (size msg2) in
  let sz := u32 (len1 + (if len2 =? 0 then 0 else u32 (2 + len2))) in
  Some (EncodeFixed32 sz ++ [z2b (Code_to_Z code)] ++ take_z len1 msg ++
        (if len2 =? 0 then [] else bs ": " ++ take_z len2 msg2)).

Definition NotFound (msg msg2 : bytes) : Status := Status_make kNotFound msg msg2.
Definition Corruption (msg msg2 : bytes) : Status := Status_make kCorruption msg msg2.
Definition NotSupported (msg msg2 : bytes) : Status := Status_make kNotSupported msg msg2.
Definition InvalidArgument (msg msg2 : bytes) : Status := Status_make kInvalidArgument msg msg2.
Definition IOError (msg msg2 : bytes) : Status := Status_make kIOError msg msg2.

Definition ok (s : Status) : bool := match s with None => true | Some _ => false end.

(** [static_cast<Code>(state_[4])]; the constructor only stores enumerators. *)
Definition code (s : Status) : Code :=
  match s with
  | None => kOk
  | Some st =>
      match default 0 (b2z <$> st !! 4%nat) with
      | 1 => kNotFound | 2 => kCorruption | 3 => kNotSupported
      | 4 => kInvalidArgument | 5 => kIOError | _ => kOk
      end
  end.

Definition IsNotFound (s : Status) : bool := bool_decide (code s = kNotFound).
Definition IsCorruption (s : Status) : bool := bool_decide (code s = kCorruption).
Definition IsIOError (s : Status) : bool := bool_decide (code s = kIOError).
Definition IsNotSupportedError (s : Status) : bool := bool_decide (code s = kNotSupported).
Definition IsInvalidArgument (s : Status) : bool := bool_decide (code s = kInvalidArgument).

Definition ToString (s : Status) : bytes :=
  match s with
  | None => bs "OK"
  | Some st =>
      let type := match code s with
                  | kOk => bs "OK"
                  | kNotFound => bs "NotFound: "
                  | kCorruption => bs "Corruption: "
                  | kNotSupported => bs "Not implemented: "
                  | kInvalidArgument => bs "Invalid argument: "
                  | kIOError => bs "IO error: "
                  end in
      let length := default 0 (DecodeFixed32 st) in
      type ++ take_z length (drop_z 5 st)
  end.

(** [CopyState]: the copy has the recorded length plus the five header bytes. *)
Definition CopyState (st : bytes) : bytes :=
  let sz := default 0 (DecodeFixed32 st) in take_z (sz + 5) st.

Definition Status_copy (rhs : Status) : Status := CopyState <$> rhs.

(** ** Results *)

Inductive result (A : Type) :=
  | Ok (a : A)
  | Fail (s : Status).
Arguments Ok {_} _.
Arguments Fail {_} _.

#[export] Instance result_ret : MRet result := λ A a, Ok a.
#[export] Instance result_bind : MBind result :=
  λ A B f m, match m with Ok a => f a | Fail s => Fail s end.

(** The status a caller observes. *)
Definition result_status {A} (r : result A) : Status :=
  match r with Ok _ => Status_OK | Fail s => s end.

(** ** Lemmas *)

(** A message whose assembled length fits the 32-bit length field. *)
Definition msg_fits (msg msg2 : bytes) : Prop := size msg + size msg2 + 2 < 2 ^ 32.

(** The text after the code: [msg] and, when [msg2] is not empty, ": " and [msg2]. *)
Definition msg_text (msg msg2 : bytes) : bytes :=
  msg ++ match msg2 with [] => [] | _ => bs ": " ++ msg2 end.

Lemma msg_text_u32 msg msg2 : msg_fits msg msg2 → is_u32 (size (msg_text msg msg2)).
Proof.
  unfold msg_fits, msg_text, is_u32. intros Hf.
  pose proof (size_nonneg msg). pose proof (size_nonneg msg2). rewrite size_app.
  destruct msg2 as [|b m2]; [change (size []) with 0; lia|].
  rewrite (size_app (bs ": ")). change (size (bs ": ")) with 2. lia.
Qed.

Lemma Status_make_state c msg msg2 :
  msg_fits msg msg2 →
  Status_make c msg msg2 =
    Some (EncodeFixed32 (size (msg_text msg msg2)) ++ z2b (Code_to_Z c) :: msg_text msg msg2).
Proof.
  unfold msg_fits, Status_make, msg_text. intros Hf.
  pose proof (size_nonneg msg). pose proof (size_nonneg msg2).
  rewrite (u32_small (size msg)), (u32_small (size msg2)), (u32_small (2 + size msg2)) by range_lia.
  rewrite u32_small by (zcases; range_lia).
  rewrite !take_z_all. destruct msg2 as [|b msg2].
  { change (size []) with 0. simpl. rewrite Z.add_0_r, app_nil_r. done. }
  rewrite size_cons in *. pose proof (size_nonneg msg2).
  destruct (Z.eqb_spec (1 + size msg2) 0); [lia|].
  rewrite size_app. rewrite (size_app (bs ": ")). rewrite size_cons. done.
Qed.

Lemma code_make c msg msg2 : code (Status_make c msg msg2) = c.
Proof. unfold code, Status_make. by destruct c. Qed.

Lemma ok_make c msg msg2 : ok (Status_make c msg msg2) = false.
Proof. done. Qed.

Lemma ToString_make c msg msg2 :
  msg_fits msg msg2 →
  ToString (Status_make c msg msg2) =
    match c with
    | kOk => bs "OK" | kNotFound => bs "NotFound: " | kCorruption => bs "Corruption: "
    | kNotSupported => bs "Not implemented: " | kInvalidArgument => bs "Invalid argument: "
    | kIOError => bs "IO error: "
    end ++ msg_text msg msg2.
Proof.
  intros Hf. unfold ToString. pose proof (code_make c msg msg2) as Hc.
  rewrite Status_make_state in * by done. rewrite Hc. f_equal.
  pose proof (msg_text_u32 msg msg2 Hf) as Hu.
  rewrite DecodeFixed32_Encode by done. cbn [default]. unfold drop_z. simpl.
  apply take_z_all.
Qed.

Lemma Status_copy_make c msg msg2 :
  msg_fits msg msg2 → Status_copy (Status_make c msg msg2) = Status_make c msg msg2.
Proof.
  intros Hf. rewrite Status_make_state by done. unfold Status_copy, CopyState. cbn [fmap option_fmap option_map].
  pose proof (msg_text_u32 msg msg2 Hf) as Hu.
  rewrite DecodeFixed32_Encode by done. cbn [default]. f_equal.
  apply take_ge. rewrite length_app. simpl. unfold size. lia.
Qed.

(** ** Properties *)

(** An error status carries the code and the message it was made with, in
    every observer (the [Is...] tests, [ToString], a copy), and is never [ok]. *)
Theorem status_observers (c : Code) (msg msg2 : bytes) :
  c ≠ kOk → msg_fits msg msg2 →
  let s := Status_make c msg msg2 in
  ok s = false ∧ code s = c ∧ Status_copy s = s ∧
  (IsNotFound s = true ↔ c = kNotFound) ∧ (IsCorruption s = true ↔ c = kCorruption) ∧
  ∃ prefix, ToString s = prefix ++ msg_text msg msg2.
Proof.
  intros Hc Hf s. unfold IsNotFound, IsCorruption. subst s. rewrite code_make.
  split_and!; [done..|by apply Status_copy_make|apply bool_decide_eq_true|apply bool_decide_eq_true|].
  eexists. by apply ToString_make.
Qed.

Lemma status_observers_witness :
  ok (Corruption (bs "bad block") (bs "x")) = false ∧
  ToString (Corruption (bs "bad block") (bs "x")) = bs "Corruption: bad block: x".
Proof.
  split; [|vm_compute; done].
  refine (proj1 (status_observers kCorruption (bs "bad block") (bs "x") _ _)); done.
Defined.
