(* ===== verification/Env.v ===== *)
(** * Files and the in-memory environment
    (the file interfaces of src/include/leveldb/env.h; src/helpers/memenv/memenv.cc)

    [WritableFile] and [SequentialFile] are the interfaces the log writer and
    reader use, with the laws of a file that does not fail.  [FileState] is the
    block-structured file of the in-memory environment, and its writable and
    sequential handles satisfy the laws.  A handle holds the file it was opened
    on; a sequential handle also holds its position. *)

From Stdlib Require Import String.
From stdpp Require Import gmap.
From S2P Require Import Prelude Coding Status.

(** ** Interfaces *)

Class WritableFile := {
  wfile : Type;
  Append : bytes → wfile → Status * wfile;
  Flush : wfile → Status * wfile;
}.

Class SequentialFile := {
  sfile : Type;
  SRead : Z → sfile → result bytes * sfile;
  Skip : Z → sfile → Status * sfile;
}.

(** A writable file on which every call succeeds: it holds what was appended. *)
Class WritableFileLaws (W : WritableFile) := {
  wvalid : wfile → Prop;
  wcontents : wfile → bytes;
  Append_law d f : wvalid f → ∃ f', Append d f = (Status_OK, f') ∧ wvalid f' ∧ wcontents f' = wcontents f ++ d;
  Flush_law f : wvalid f → ∃ f', Flush f = (Status_OK, f') ∧ wvalid f' ∧ wcontents f' = wcontents f;
}.

(** A sequential file on which every call succeeds: a read returns the next [n]
    bytes, fewer only at the end of the file. *)
Class SequentialFileLaws (F : SequentialFile) := {
  svalid : sfile → Prop;
  remaining : sfile → bytes;
  SRead_law n f : svalid f → 0 <= n →
    ∃ f', SRead n f = (Ok (take_z n (remaining f)), f') ∧ svalid f' ∧ remaining f' = drop_z n (remaining f);
  Skip_law n f : svalid f → 0 <= n →
    ∃ f', Skip n f = (Status_OK, f') ∧ svalid f' ∧ remaining f' = drop_z n (remaining f);
}.

(** ** FileState *)

Module FileState.

Definition kBlockSize : Z := 8 * 1024.

(** [refs_] counts the owners; the bytes of a new block are not initialised
    (zero here) and lie past [size_] until they are written. *)
Record FileState := MkFileState { refs_ : Z; blocks_ : list bytes; size_ : Z }.

Definition NewFileState : FileState := MkFileState 0 [] 0.

Definition new_block : bytes := replicate (Z.to_nat kBlockSize) x00.

Definition Truncate (f : FileState) : FileState := MkFileState (refs_ f) [] 0.

(** The copy loop of [Read]; [None] is an access past the last block. *)
Fixpoint Read_loop (fuel : nat) (blocks : list bytes) (block block_offset bytes_to_copy : Z) : option bytes :=
  match fuel with
  | O => None
  | S fuel =>
      if bytes_to_copy >? 0 then
        let avail := kBlockSize - block_offset in
        let avail := if avail >? bytes_to_copy then bytes_to_copy else avail in
        b ← nth_z blocks block;
        rest ← Read_loop fuel blocks (block + 1) 0 (bytes_to_copy - avail);
        Some (sub_z block_offset avail b ++ rest)
      else Some []
  end.

Definition Read (f : FileState) (offset n : Z) : option (result bytes) :=
  if offset >? size_ f then Some (Fail (IOError (bs "Offset greater than file size.") []))
  else
    let available := size_ f - offset in
    let n := if n >? available then available else n in
    if n =? 0 then Some (Ok [])
    else
      let block := offset / kBlockSize in
      let block_offset := offset mod kBlockSize in
      data ← Read_loop (S (Z.to_nat n)) (blocks_ f) block block_offset n;
      Some (Ok data).

(** [memcpy(blocks_.back() + offset, src, avail)]. *)
Definition copy_back (blocks : list bytes) (offset : Z) (src : bytes) : list bytes :=
  match reverse blocks with
  | [] => blocks
  | b :: rest => reverse rest ++ [take_z offset b ++ src ++ drop_z (offset + size src) b]
  end.

Fixpoint Append_loop (fuel : nat) (src : bytes) (blocks : list bytes) (sz : Z) : option (list bytes * Z) :=
  match fuel with
  | O => None
  | S fuel =>
      if size src >? 0 then
        let offset := sz mod kBlockSize in
        let '(blocks, avail) :=
          if negb (offset =? 0) then (blocks, kBlockSize - offset)
          else (blocks ++ [new_block], kBlockSize) in
        let avail := if avail >? size src then size src else avail in
        let blocks := copy_back blocks offset (take_z avail src) in
        Append_loop fuel (drop_z avail src) blocks (sz + avail)
      else Some (blocks, sz)
  end.

Definition Append (f : FileState) (data : bytes) : option FileState :=
  '(blocks, sz) ← Append_loop (S (length data)) data (blocks_ f) (size_ f);
  Some (MkFileState (refs_ f) blocks sz).

(** *** The file as a byte string *)

Definition contents (f : FileState) : bytes := take_z (size_ f) (concat (blocks_ f)).

Definition blocks_ok (blocks : list bytes) (sz : Z) : Prop :=
  Forall (λ b, size b = kBlockSize) blocks ∧ 0 <= sz ∧ size blocks = (sz + (kBlockSize - 1)) / kBlockSize.

Definition file_ok (f : FileState) : Prop := blocks_ok (blocks_ f) (size_ f).

Lemma size_concat blocks : Forall (λ b : bytes, size b = kBlockSize) blocks →
  size (concat blocks) = kBlockSize * size blocks.
Proof.
  induction 1 as [|b blocks Hb _ IH]; [done|]. simpl. rewrite size_app, size_cons, Hb, IH. lia.
Qed.

(** Blocks split at the current end: full ones and the one being filled. *)
Lemma blocks_split blocks sz : blocks_ok blocks sz → sz mod kBlockSize ≠ 0 →
  ∃ full b, blocks = full ++ [b] ∧ Forall (λ b, size b = kBlockSize) full ∧ size b = kBlockSize ∧
            kBlockSize * size full + sz mod kBlockSize = sz.
Proof.
  intros (Hf & H0 & Hn) Hm. unfold kBlockSize in *.
  pose proof (Z.div_mod sz (8 * 1024) ltac:(lia)). pose proof (Z.mod_pos_bound sz (8 * 1024) ltac:(lia)).
  assert ((sz + (8 * 1024 - 1)) / (8 * 1024) = sz / (8 * 1024) + 1) as E.
  { symmetry. apply (Z.div_unique _ _ _ (sz mod (8 * 1024) - 1)); lia. }
  rewrite E in Hn. destruct blocks as [|b full _] using rev_ind.
  { change (size []) with 0 in Hn. pose proof (Z.div_pos sz (8 * 1024)). lia. }
  apply Forall_app in Hf as [Hf Hb]. apply Forall_cons in Hb as [Hb _].
  exists full, b. rewrite size_app, size_cons in Hn. change (size []) with 0 in Hn. split_and!; [done..|lia].
Qed.

Lemma blocks_full blocks sz : blocks_ok blocks sz → sz mod kBlockSize = 0 → kBlockSize * size blocks = sz.
Proof.
  intros (Hf & H0 & Hn) Hm. unfold kBlockSize in *.
  pose proof (Z.div_mod sz (8 * 1024) ltac:(lia)).
  assert ((sz + (8 * 1024 - 1)) / (8 * 1024) = sz / (8 * 1024)) as E.
  { symmetry. apply (Z.div_unique _ _ _ (8 * 1024 - 1)); lia. }
  lia.
Qed.

Lemma copy_back_snoc full b offset src :
  copy_back (full ++ [b]) offset src = full ++ [take_z offset b ++ src ++ drop_z (offset + size src) b].
Proof. unfold copy_back. rewrite reverse_snoc, reverse_involutive. done. Qed.

(** One copy step appends to the contents. *)
Lemma copy_step full b sz src :
  Forall (λ b, size b = kBlockSize) full → size b = kBlockSize →
  kBlockSize * size full + sz mod kBlockSize = sz → 0 <= sz →
  0 < size src <= kBlockSize - sz mod kBlockSize →
  blocks_ok (copy_back (full ++ [b]) (sz mod kBlockSize) src) (sz + size src) ∧
  take_z (sz + size src) (concat (copy_back (full ++ [b]) (sz mod kBlockSize) src)) =
    take_z sz (concat (full ++ [b])) ++ src.
Proof.
  intros Hf Hb Hsz H0 Hsrc. set (o := sz mod kBlockSize) in *.
  assert (0 <= o < kBlockSize) as Ho by (apply Z.mod_pos_bound; unfold kBlockSize; lia).
  rewrite copy_back_snoc. pose proof (size_concat _ Hf) as Hc. split.
  - split; [|split; [lia|]].
    + apply Forall_app. split; [done|]. apply Forall_singleton.
      rewrite !size_app, size_take_z, size_drop_z by lia. lia.
    + rewrite size_app, size_cons. change (size []) with 0. unfold kBlockSize in *.
      apply (Z.div_unique _ _ _ (o + size src - 1)); lia.
  - rewrite !concat_app. simpl. rewrite !app_nil_r.
    rewrite <-(take_drop_z b o) at 3. rewrite !app_assoc.
    rewrite (take_z_app (concat full ++ take_z o b)).
    2: { rewrite size_app, size_take_z by lia. lia. }
    apply take_z_app. rewrite !size_app, size_take_z by lia. lia.
Qed.

Lemma Append_loop_spec fuel : ∀ src blocks sz,
  blocks_ok blocks sz → (length src < fuel)%nat →
  ∃ blocks' sz', Append_loop fuel src blocks sz = Some (blocks', sz') ∧ blocks_ok blocks' sz' ∧
    take_z sz' (concat blocks') = take_z sz (concat blocks) ++ src.
Proof.
  induction fuel as [|fuel IH]; intros src blocks sz Hok Hfuel; [lia|]. cbn [Append_loop].
  destruct (Z.gtb_spec (size src) 0) as [Hs|Hs].
  2: { destruct src; [|rewrite size_cons in Hs; pose proof (size_nonneg src); lia].
       exists blocks, sz. rewrite app_nil_r. done. }
  set (o := sz mod kBlockSize).
  assert (0 <= o < kBlockSize) as Ho by (apply Z.mod_pos_bound; unfold kBlockSize; lia).
  set (av := if kBlockSize - o >? size src then size src else kBlockSize - o).
  assert (0 < av <= size src ∧ av <= kBlockSize - o) as Hav
    by (unfold av; destruct (Z.gtb_spec (kBlockSize - o) (size src)); lia).
  assert (∃ full b, (if negb (o =? 0) then blocks else blocks ++ [new_block]) = full ++ [b] ∧
    Forall (λ b, size b = kBlockSize) full ∧ size b = kBlockSize ∧ kBlockSize * size full + o = sz ∧
    take_z sz (concat (full ++ [b])) = take_z sz (concat blocks)) as (full & b & E & Hf & Hb & Hsz & Ht).
  { destruct (Z.eqb_spec o 0) as [E0|E0]; simpl.
    - exists blocks, new_block. pose proof (blocks_full _ _ Hok E0) as Hfl. destruct Hok as (Hf & _ & _).
      split_and!; [done|done|by unfold size, new_block; rewrite length_replicate|lia|].
      rewrite concat_app, take_z_app by (rewrite size_concat by done; lia).
      replace sz with (size (concat blocks)) by (rewrite size_concat by done; lia). by rewrite take_z_all.
    - destruct (blocks_split _ _ Hok E0) as (full & b & -> & ? & ? & ?). exists full, b. done. }
  assert (0 <= sz) as H0 by apply Hok.
  destruct (copy_step full b sz (take_z av src) Hf Hb Hsz H0) as [Hok' Htk].
  { rewrite size_take_z by lia. fold o. lia. }
  rewrite size_take_z in Hok', Htk by lia. fold o in Hok', Htk.
  destruct (IH (drop_z av src) _ _ Hok') as (bs' & sz' & E' & Hbs' & Hc').
  { unfold drop_z. rewrite length_drop. unfold size in *. lia. }
  exists bs', sz'. split_and!; [|done|].
  - rewrite <-E'. destruct (o =? 0) eqn:Ez; simpl in E |- *; rewrite E; [|done].
    apply Z.eqb_eq in Ez. subst av. by rewrite Ez, Z.sub_0_r.
  - rewrite Hc', Htk, Ht, <-app_assoc, take_drop_z. done.
Qed.

Lemma Append_spec f data : file_ok f →
  ∃ f', Append f data = Some f' ∧ file_ok f' ∧ contents f' = contents f ++ data ∧ refs_ f' = refs_ f.
Proof.
  intros Hok. unfold Append.
  destruct (Append_loop_spec (S (length data)) data _ _ Hok ltac:(lia)) as (b & sz & -> & H1 & H2).
  simpl. eexists. split; [done|]. done.
Qed.

(** The read loop copies a range of the flat file. *)
Lemma concat_at (blocks : list bytes) i b : Forall (λ b, size b = kBlockSize) blocks → nth_z blocks i = Some b →
  drop_z (kBlockSize * i) (concat blocks) = b ++ drop_z (kBlockSize * (i + 1)) (concat blocks).
Proof.
  intros Hf Hi. pose proof (nth_z_Some _ _ _ Hi) as Hr. unfold nth_z in Hi.
  destruct (Z.ltb_spec i 0); [done|]. apply take_drop_middle in Hi.
  set (pre := take (Z.to_nat i) blocks) in *. set (post := drop (S (Z.to_nat i)) blocks) in *.
  assert (size (concat pre) = kBlockSize * i) as Hp.
  { rewrite size_concat by (rewrite <-Hi in Hf; by apply Forall_app in Hf as [? _]).
    unfold pre, size in *. rewrite length_take. f_equal. lia. }
  assert (size b = kBlockSize) as Hb.
  { rewrite <-Hi in Hf. by apply Forall_app in Hf as [_ [? _]%Forall_cons]. }
  rewrite <-Hi, concat_app, concat_cons, drop_z_app by lia. f_equal. symmetry.
  rewrite app_assoc. apply drop_z_app. rewrite size_app. lia.
Qed.

Lemma Read_loop_spec fuel : ∀ blocks block o n,
  Forall (λ b, size b = kBlockSize) blocks → 0 <= block → 0 <= o < kBlockSize → 0 <= n →
  kBlockSize * block + o + n <= kBlockSize * size blocks → (Z.to_nat n < fuel)%nat →
  Read_loop fuel blocks block o n = Some (sub_z (kBlockSize * block + o) n (concat blocks)).
Proof.
  induction fuel as [|fuel IH]; intros blocks block o n Hf Hb Ho Hn Hlt Hfuel; [lia|]. cbn [Read_loop].
  destruct (Z.gtb_spec n 0) as [Hn0|Hn0].
  2: { assert (n = 0) as -> by lia. done. }
  set (av := if kBlockSize - o >? n then n else kBlockSize - o).
  assert (0 < av <= n ∧ av <= kBlockSize - o ∧ (av = n ∨ av = kBlockSize - o)) as (Hav & Hav' & Hc)
    by (unfold av; destruct (Z.gtb_spec (kBlockSize - o) n); lia).
  destruct (nth_z_is_Some blocks block) as [b Eb]; [unfold kBlockSize in *; nia|].
  rewrite Eb. cbn [mbind option_bind].
  pose proof (concat_at _ _ _ Hf Eb) as Hcat.
  assert (size b = kBlockSize) as Hsb.
  { unfold nth_z in Eb. destruct (block <? 0); [done|]. by eapply Forall_lookup_1 in Hf. }
  assert (sub_z (kBlockSize * block + o) n (concat blocks) =
    sub_z o av b ++ take_z (n - av) (drop_z (kBlockSize * (block + 1)) (concat blocks))) as ->.
  { unfold sub_z. rewrite drop_z_add, Hcat, drop_z_app_le by (unfold kBlockSize in *; lia).
    replace n with (av + (n - av)) at 1 by lia. rewrite take_z_add by lia.
    rewrite take_z_app_le by (rewrite size_drop_z by lia; lia). f_equal.
    destruct Hc as [E1|E1]; rewrite E1; [by rewrite Z.sub_diag|].
    rewrite drop_z_app by (rewrite size_drop_z; lia). done. }
  destruct (Z.eq_dec (n - av) 0) as [E0|E0].
  - rewrite E0. destruct fuel; [lia|]. done.
  - destruct Hc as [?|Hc]; [lia|].
    rewrite IH; [simpl; unfold sub_z; by rewrite Z.add_0_r|done|lia|unfold kBlockSize; lia|lia| |lia].
    unfold kBlockSize in *. lia.
Qed.

Lemma size_contents f : file_ok f → size (contents f) = size_ f.
Proof.
  intros (Hf & H0 & Hn). unfold contents. apply size_take_z. rewrite size_concat by done.
  unfold kBlockSize in *. pose proof (Z.div_mod (size_ f + (8 * 1024 - 1)) (8 * 1024) ltac:(lia)).
  pose proof (Z.mod_pos_bound (size_ f + (8 * 1024 - 1)) (8 * 1024) ltac:(lia)). lia.
Qed.

Lemma Read_spec f offset n : file_ok f → 0 <= offset <= size_ f → 0 <= n →
  Read f offset n = Some (Ok (sub_z offset n (contents f))).
Proof.
  intros Hok Ho Hn. pose proof (size_contents f Hok) as Hsz. unfold Read.
  destruct (Z.gtb_spec offset (size_ f)); [lia|].
  set (n' := if n >? size_ f - offset then size_ f - offset else n).
  assert (sub_z offset n (contents f) = sub_z offset n' (contents f) ∧ 0 <= n' <= size_ f - offset) as [-> Hn'].
  { unfold n'. destruct (Z.gtb_spec n (size_ f - offset)); [|split; [done|lia]]. split; [|lia].
    unfold sub_z. assert (size (drop_z offset (contents f)) = size_ f - offset) as E by (rewrite size_drop_z; lia).
    rewrite <-E, take_z_all. unfold take_z. apply take_ge. unfold size in *. lia. }
  destruct (Z.eqb_spec n' 0) as [->|Hn0]; [done|].
  pose proof (Z.div_mod offset kBlockSize ltac:(unfold kBlockSize; lia)) as Hdm.
  destruct Hok as (Hf & H0 & Hnb).
  rewrite Read_loop_spec; [cbn [mbind option_bind]|done| | | | |lia].
  - do 2 f_equal. rewrite <-Hdm. unfold contents. rewrite sub_take; [done|lia..].
  - apply Z.div_pos; unfold kBlockSize; lia.
  - apply Z.mod_pos_bound. unfold kBlockSize. lia.
  - lia.
  - rewrite <-Hdm, <-size_concat by done. rewrite size_concat by done.
    unfold contents in Hsz. unfold size, take_z in Hsz. rewrite length_take in Hsz.
    pose proof (size_concat _ Hf) as Hsc. unfold size in Hsc |- *. lia.
Qed.

End FileState.

(** ** The handles of the in-memory environment *)

Import FileState(FileState, NewFileState, refs_, blocks_, size_, contents, file_ok, size_contents, Append_spec, Read_spec).

(** [WritableFileImpl]; the fuel of the append loop is never exhausted. *)
Definition WritableFileImpl_Append (data : bytes) (f : FileState) : Status * FileState :=
  (Status_OK, default f (FileState.Append f data)).

Definition WritableFileImpl_Flush (f : FileState) : Status * FileState := (Status_OK, f).

#[export] Instance WritableFileImpl : WritableFile := {|
  wfile := FileState; Append := WritableFileImpl_Append; Flush := WritableFileImpl_Flush |}.

#[export, refine] Instance WritableFileImpl_laws : WritableFileLaws WritableFileImpl := {|
  wvalid := file_ok; wcontents := contents |}.
Proof.
  - intros d f Hok. simpl. unfold WritableFileImpl_Append.
    destruct (Append_spec f d Hok) as (f' & -> & ? & ? & _). simpl. eauto.
  - intros f Hok. simpl. unfold WritableFileImpl_Flush. eauto.
Defined.

Record SequentialFileImpl := MkSequential { file_ : FileState; pos_ : Z }.

Definition NewSequentialFileImpl (f : FileState) : SequentialFileImpl := MkSequential f 0.

Definition SequentialFileImpl_Read (n : Z) (s : SequentialFileImpl) : result bytes * SequentialFileImpl :=
  match FileState.Read (file_ s) (pos_ s) n with
  | Some (Ok data) => (Ok data, MkSequential (file_ s) (pos_ s + size data))
  | Some (Fail e) => (Fail e, s)
  | None => (Fail (IOError [] []), s)
  end.

Definition SequentialFileImpl_Skip (n : Z) (s : SequentialFileImpl) : Status * SequentialFileImpl :=
  if pos_ s >? size_ (file_ s) then (IOError (bs "pos_ > file_->Size()") [], s)
  else
    let available := size_ (file_ s) - pos_ s in
    let n := if n >? available then available else n in
    (Status_OK, MkSequential (file_ s) (pos_ s + n)).

#[export] Instance SequentialFileImpl_file : SequentialFile := {|
  sfile := SequentialFileImpl; SRead := SequentialFileImpl_Read; Skip := SequentialFileImpl_Skip |}.

#[export, refine] Instance SequentialFileImpl_laws : SequentialFileLaws SequentialFileImpl_file := {|
  svalid s := file_ok (file_ s) ∧ 0 <= pos_ s <= size_ (file_ s);
  remaining s := drop_z (pos_ s) (contents (file_ s)) |}.
Proof.
  - intros n s [Hok Hp] Hn. simpl. unfold SequentialFileImpl_Read. rewrite Read_spec by done.
    pose proof (size_contents _ Hok) as Hs. eexists. split; [done|]. simpl.
    rewrite size_sub_z by lia. split; [split; [done|lia]|].
    rewrite drop_z_add by lia. apply drop_z_min. rewrite size_drop_z by lia. lia.
  - intros n s [Hok Hp] Hn. simpl. unfold SequentialFileImpl_Skip.
    pose proof (size_contents _ Hok) as Hs.
    destruct (Z.gtb_spec (pos_ s) (size_ (file_ s))); [lia|]. eexists. split; [done|]. simpl.
    destruct (Z.gtb_spec n (size_ (file_ s) - pos_ s)).
    + split; [split; [done|lia]|]. rewrite <-drop_z_add by lia. unfold drop_z, size in *. rewrite !drop_ge by lia. done.
    + split; [split; [done|lia]|]. by rewrite drop_z_add by lia.
Defined.

(** ** Properties *)

(** the block-structured in-memory file is a byte string: appending extends
    it whatever the block boundaries crossed, a read in range returns exactly the
    requested part (shortened at the end of the file) and a read past the end is
    an error. *)
Theorem memfile_is_byte_string (f : FileState) (data : bytes) (offset n : Z) :
  file_ok f → 0 <= offset → 0 <= n →
  ∃ f', FileState.Append f data = Some f' ∧ file_ok f' ∧ contents f' = contents f ++ data ∧
    FileState.Read f' offset n =
      Some (if offset <=? size (contents f' ) then Ok (sub_z offset n (contents f ++ data))
            else Fail (IOError (bs "Offset greater than file size.") [])).
Proof.
  intros Hok Ho Hn. destruct (Append_spec f data Hok) as (f' & E & Hok' & Hc & _).
  exists f'. split_and!; [done..|]. rewrite size_contents by done.
  destruct (Z.leb_spec offset (size_ f')); [rewrite <-Hc; by apply Read_spec|].
  unfold FileState.Read. destruct (Z.gtb_spec offset (size_ f')); [done|lia].
Qed.

Lemma NewFileState_ok : file_ok NewFileState.
Proof. split_and!; [constructor|done|done]. Qed.

Lemma memfile_is_byte_string_witness :
  let data := replicate 8190 x61 ++ [x62; x63; x64] in
  ∃ f', FileState.Append NewFileState data = Some f' ∧
        FileState.Read f' 8190 100 = Some (Ok [x62; x63; x64]) ∧ file_ok f'.
Proof.
  destruct (memfile_is_byte_string NewFileState (replicate 8190 x61 ++ [x62; x63; x64]) 8190 100)
    as (f' & E & Hok & Hc & Hr); [apply NewFileState_ok|lia|lia|].
  exists f'. split; [exact E|]. split; [|exact Hok]. rewrite Hr, Hc. vm_compute. reflexivity.
Defined.
