(* ===== verification/Crc32c.v ===== *)
(** * CRC-32C checksums (src/util/crc32c.h, src/util/crc32c.cc)

    The portable implementation with its five tables: a byte-wise path for the
    unaligned head and the tail, and a 16-byte stride path with four partial
    results in between.  The stride path is proved equal to the byte-wise
    recurrence, for every alignment of the buffer. *)

From Stdlib Require Import Btauto.
From S2P Require Import Prelude Coding.
Import Coding.

Module crc32c.

Definition kByteExtensionTable : list Z := [
  0x00000000; 0xf26b8303; 0xe13b70f7; 0x1350f3f4; 0xc79a971f; 0x35f1141c;
  0x26a1e7e8; 0xd4ca64eb; 0x8ad958cf; 0x78b2dbcc; 0x6be22838; 0x9989ab3b;
  0x4d43cfd0; 0xbf284cd3; 0xac78bf27; 0x5e133c24; 0x105ec76f; 0xe235446c;
  0xf165b798; 0x030e349b; 0xd7c45070; 0x25afd373; 0x36ff2087; 0xc494a384;
  0x9a879fa0; 0x68ec1ca3; 0x7bbcef57; 0x89d76c54; 0x5d1d08bf; 0xaf768bbc;
  0xbc267848; 0x4e4dfb4b; 0x20bd8ede; 0xd2d60ddd; 0xc186fe29; 0x33ed7d2a;
  0xe72719c1; 0x154c9ac2; 0x061c6936; 0xf477ea35; 0xaa64d611; 0x580f5512;
  0x4b5fa6e6; 0xb93425e5; 0x6dfe410e; 0x9f95c20d; 0x8cc531f9; 0x7eaeb2fa;
  0x30e349b1; 0xc288cab2; 0xd1d83946; 0x23b3ba45; 0xf779deae; 0x05125dad;
  0x1642ae59; 0xe4292d5a; 0xba3a117e; 0x4851927d; 0x5b016189; 0xa96ae28a;
  0x7da08661; 0x8fcb0562; 0x9c9bf696; 0x6ef07595; 0x417b1dbc; 0xb3109ebf;
  0xa0406d4b; 0x522bee48; 0x86e18aa3; 0x748a09a0; 0x67dafa54; 0x95b17957;
  0xcba24573; 0x39c9c670; 0x2a993584; 0xd8f2b687; 0x0c38d26c; 0xfe53516f;
  0xed03a29b; 0x1f682198; 0x5125dad3; 0xa34e59d0; 0xb01eaa24; 0x42752927;
  0x96bf4dcc; 0x64d4cecf; 0x77843d3b; 0x85efbe38; 0xdbfc821c; 0x2997011f;
  0x3ac7f2eb; 0xc8ac71e8; 0x1c661503; 0xee0d9600; 0xfd5d65f4; 0x0f36e6f7;
  0x61c69362; 0x93ad1061; 0x80fde395; 0x72966096; 0xa65c047d; 0x5437877e;
  0x4767748a; 0xb50cf789; 0xeb1fcbad; 0x197448ae; 0x0a24bb5a; 0xf84f3859;
  0x2c855cb2; 0xdeeedfb1; 0xcdbe2c45; 0x3fd5af46; 0x7198540d; 0x83f3d70e;
  0x90a324fa; 0x62c8a7f9; 0xb602c312; 0x44694011; 0x5739b3e5; 0xa55230e6;
  0xfb410cc2; 0x092a8fc1; 0x1a7a7c35; 0xe811ff36; 0x3cdb9bdd; 0xceb018de;
  0xdde0eb2a; 0x2f8b6829; 0x82f63b78; 0x709db87b; 0x63cd4b8f; 0x91a6c88c;
  0x456cac67; 0xb7072f64; 0xa457dc90; 0x563c5f93; 0x082f63b7; 0xfa44e0b4;
  0xe9141340; 0x1b7f9043; 0xcfb5f4a8; 0x3dde77ab; 0x2e8e845f; 0xdce5075c;
  0x92a8fc17; 0x60c37f14; 0x73938ce0; 0x81f80fe3; 0x55326b08; 0xa759e80b;
  0xb4091bff; 0x466298fc; 0x1871a4d8; 0xea1a27db; 0xf94ad42f; 0x0b21572c;
  0xdfeb33c7; 0x2d80b0c4; 0x3ed04330; 0xccbbc033; 0xa24bb5a6; 0x502036a5;
  0x4370c551; 0xb11b4652; 0x65d122b9; 0x97baa1ba; 0x84ea524e; 0x7681d14d;
  0x2892ed69; 0xdaf96e6a; 0xc9a99d9e; 0x3bc21e9d; 0xef087a76; 0x1d63f975;
  0x0e330a81; 0xfc588982; 0xb21572c9; 0x407ef1ca; 0x532e023e; 0xa145813d;
  0x758fe5d6; 0x87e466d5; 0x94b49521; 0x66df1622; 0x38cc2a06; 0xcaa7a905;
  0xd9f75af1; 0x2b9cd9f2; 0xff56bd19; 0x0d3d3e1a; 0x1e6dcdee; 0xec064eed;
  0xc38d26c4; 0x31e6a5c7; 0x22b65633; 0xd0ddd530; 0x0417b1db; 0xf67c32d8;
  0xe52cc12c; 0x1747422f; 0x49547e0b; 0xbb3ffd08; 0xa86f0efc; 0x5a048dff;
  0x8ecee914; 0x7ca56a17; 0x6ff599e3; 0x9d9e1ae0; 0xd3d3e1ab; 0x21b862a8;
  0x32e8915c; 0xc083125f; 0x144976b4; 0xe622f5b7; 0xf5720643; 0x07198540;
  0x590ab964; 0xab613a67; 0xb831c993; 0x4a5a4a90; 0x9e902e7b; 0x6cfbad78;
  0x7fab5e8c; 0x8dc0dd8f; 0xe330a81a; 0x115b2b19; 0x020bd8ed; 0xf0605bee;
  0x24aa3f05; 0xd6c1bc06; 0xc5914ff2; 0x37faccf1; 0x69e9f0d5; 0x9b8273d6;
  0x88d28022; 0x7ab90321; 0xae7367ca; 0x5c18e4c9; 0x4f48173d; 0xbd23943e;
  0xf36e6f75; 0x0105ec76; 0x12551f82; 0xe03e9c81; 0x34f4f86a; 0xc69f7b69;
  0xd5cf889d; 0x27a40b9e; 0x79b737ba; 0x8bdcb4b9; 0x988c474d; 0x6ae7c44e;
  0xbe2da0a5; 0x4c4623a6; 0x5f16d052; 0xad7d5351].

Definition kStrideExtensionTable0 : list Z := [
  0x00000000; 0x30d23865; 0x61a470ca; 0x517648af; 0xc348e194; 0xf39ad9f1;
  0xa2ec915e; 0x923ea93b; 0x837db5d9; 0xb3af8dbc; 0xe2d9c513; 0xd20bfd76;
  0x4035544d; 0x70e76c28; 0x21912487; 0x11431ce2; 0x03171d43; 0x33c52526;
  0x62b36d89; 0x526155ec; 0xc05ffcd7; 0xf08dc4b2; 0xa1fb8c1d; 0x9129b478;
  0x806aa89a; 0xb0b890ff; 0xe1ced850; 0xd11ce035; 0x4322490e; 0x73f0716b;
  0x228639c4; 0x125401a1; 0x062e3a86; 0x36fc02e3; 0x678a4a4c; 0x57587229;
  0xc566db12; 0xf5b4e377; 0xa4c2abd8; 0x941093bd; 0x85538f5f; 0xb581b73a;
  0xe4f7ff95; 0xd425c7f0; 0x461b6ecb; 0x76c956ae; 0x27bf1e01; 0x176d2664;
  0x053927c5; 0x35eb1fa0; 0x649d570f; 0x544f6f6a; 0xc671c651; 0xf6a3fe34;
  0xa7d5b69b; 0x97078efe; 0x8644921c; 0xb696aa79; 0xe7e0e2d6; 0xd732dab3;
  0x450c7388; 0x75de4bed; 0x24a80342; 0x147a3b27; 0x0c5c750c; 0x3c8e4d69;
  0x6df805c6; 0x5d2a3da3; 0xcf149498; 0xffc6acfd; 0xaeb0e452; 0x9e62dc37;
  0x8f21c0d5; 0xbff3f8b0; 0xee85b01f; 0xde57887a; 0x4c692141; 0x7cbb1924;
  0x2dcd518b; 0x1d1f69ee; 0x0f4b684f; 0x3f99502a; 0x6eef1885; 0x5e3d20e0;
  0xcc0389db; 0xfcd1b1be; 0xada7f911; 0x9d75c174; 0x8c36dd96; 0xbce4e5f3;
  0xed92ad5c; 0xdd409539; 0x4f7e3c02; 0x7fac0467; 0x2eda4cc8; 0x1e0874ad;
  0x0a724f8a; 0x3aa077ef; 0x6bd63f40; 0x5b040725; 0xc93aae1e; 0xf9e8967b;
  0xa89eded4; 0x984ce6b1; 0x890ffa53; 0xb9ddc236; 0xe8ab8a99; 0xd879b2fc;
  0x4a471bc7; 0x7a9523a2; 0x2be36b0d; 0x1b315368; 0x096552c9; 0x39b76aac;
  0x68c12203; 0x58131a66; 0xca2db35d; 0xfaff8b38; 0xab89c397; 0x9b5bfbf2;
  0x8a18e710; 0xbacadf75; 0xebbc97da; 0xdb6eafbf; 0x49500684; 0x79823ee1;
  0x28f4764e; 0x18264e2b; 0x18b8ea18; 0x286ad27d; 0x791c9ad2; 0x49cea2b7;
  0xdbf00b8c; 0xeb2233e9; 0xba547b46; 0x8a864323; 0x9bc55fc1; 0xab1767a4;
  0xfa612f0b; 0xcab3176e; 0x588dbe55; 0x685f8630; 0x3929ce9f; 0x09fbf6fa;
  0x1baff75b; 0x2b7dcf3e; 0x7a0b8791; 0x4ad9bff4; 0xd8e716cf; 0xe8352eaa;
  0xb9436605; 0x89915e60; 0x98d24282; 0xa8007ae7; 0xf9763248; 0xc9a40a2d;
  0x5b9aa316; 0x6b489b73; 0x3a3ed3dc; 0x0aecebb9; 0x1e96d09e; 0x2e44e8fb;
  0x7f32a054; 0x4fe09831; 0xddde310a; 0xed0c096f; 0xbc7a41c0; 0x8ca879a5;
  0x9deb6547; 0xad395d22; 0xfc4f158d; 0xcc9d2de8; 0x5ea384d3; 0x6e71bcb6;
  0x3f07f419; 0x0fd5cc7c; 0x1d81cddd; 0x2d53f5b8; 0x7c25bd17; 0x4cf78572;
  0xdec92c49; 0xee1b142c; 0xbf6d5c83; 0x8fbf64e6; 0x9efc7804; 0xae2e4061;
  0xff5808ce; 0xcf8a30ab; 0x5db49990; 0x6d66a1f5; 0x3c10e95a; 0x0cc2d13f;
  0x14e49f14; 0x2436a771; 0x7540efde; 0x4592d7bb; 0xd7ac7e80; 0xe77e46e5;
  0xb6080e4a; 0x86da362f; 0x97992acd; 0xa74b12a8; 0xf63d5a07; 0xc6ef6262;
  0x54d1cb59; 0x6403f33c; 0x3575bb93; 0x05a783f6; 0x17f38257; 0x2721ba32;
  0x7657f29d; 0x4685caf8; 0xd4bb63c3; 0xe4695ba6; 0xb51f1309; 0x85cd2b6c;
  0x948e378e; 0xa45c0feb; 0xf52a4744; 0xc5f87f21; 0x57c6d61a; 0x6714ee7f;
  0x3662a6d0; 0x06b09eb5; 0x12caa592; 0x22189df7; 0x736ed558; 0x43bced3d;
  0xd1824406; 0xe1507c63; 0xb02634cc; 0x80f40ca9; 0x91b7104b; 0xa165282e;
  0xf0136081; 0xc0c158e4; 0x52fff1df; 0x622dc9ba; 0x335b8115; 0x0389b970;
  0x11ddb8d1; 0x210f80b4; 0x7079c81b; 0x40abf07e; 0xd2955945; 0xe2476120;
  0xb331298f; 0x83e311ea; 0x92a00d08; 0xa272356d; 0xf3047dc2; 0xc3d645a7;
  0x51e8ec9c; 0x613ad4f9; 0x304c9c56; 0x009ea433].

Definition kStrideExtensionTable1 : list Z := [
  0x00000000; 0x54075546; 0xa80eaa8c; 0xfc09ffca; 0x55f123e9; 0x01f676af;
  0xfdff8965; 0xa9f8dc23; 0xabe247d2; 0xffe51294; 0x03eced5e; 0x57ebb818;
  0xfe13643b; 0xaa14317d; 0x561dceb7; 0x021a9bf1; 0x5228f955; 0x062fac13;
  0xfa2653d9; 0xae21069f; 0x07d9dabc; 0x53de8ffa; 0xafd77030; 0xfbd02576;
  0xf9cabe87; 0xadcdebc1; 0x51c4140b; 0x05c3414d; 0xac3b9d6e; 0xf83cc828;
  0x043537e2; 0x503262a4; 0xa451f2aa; 0xf056a7ec; 0x0c5f5826; 0x58580d60;
  0xf1a0d143; 0xa5a78405; 0x59ae7bcf; 0x0da92e89; 0x0fb3b578; 0x5bb4e03e;
  0xa7bd1ff4; 0xf3ba4ab2; 0x5a429691; 0x0e45c3d7; 0xf24c3c1d; 0xa64b695b;
  0xf6790bff; 0xa27e5eb9; 0x5e77a173; 0x0a70f435; 0xa3882816; 0xf78f7d50;
  0x0b86829a; 0x5f81d7dc; 0x5d9b4c2d; 0x099c196b; 0xf595e6a1; 0xa192b3e7;
  0x086a6fc4; 0x5c6d3a82; 0xa064c548; 0xf463900e; 0x4d4f93a5; 0x1948c6e3;
  0xe5413929; 0xb1466c6f; 0x18beb04c; 0x4cb9e50a; 0xb0b01ac0; 0xe4b74f86;
  0xe6add477; 0xb2aa8131; 0x4ea37efb; 0x1aa42bbd; 0xb35cf79e; 0xe75ba2d8;
  0x1b525d12; 0x4f550854; 0x1f676af0; 0x4b603fb6; 0xb769c07c; 0xe36e953a;
  0x4a964919; 0x1e911c5f; 0xe298e395; 0xb69fb6d3; 0xb4852d22; 0xe0827864;
  0x1c8b87ae; 0x488cd2e8; 0xe1740ecb; 0xb5735b8d; 0x497aa447; 0x1d7df101;
  0xe91e610f; 0xbd193449; 0x4110cb83; 0x15179ec5; 0xbcef42e6; 0xe8e817a0;
  0x14e1e86a; 0x40e6bd2c; 0x42fc26dd; 0x16fb739b; 0xeaf28c51; 0xbef5d917;
  0x170d0534; 0x430a5072; 0xbf03afb8; 0xeb04fafe; 0xbb36985a; 0xef31cd1c;
  0x133832d6; 0x473f6790; 0xeec7bbb3; 0xbac0eef5; 0x46c9113f; 0x12ce4479;
  0x10d4df88; 0x44d38ace; 0xb8da7504; 0xecdd2042; 0x4525fc61; 0x1122a927;
  0xed2b56ed; 0xb92c03ab; 0x9a9f274a; 0xce98720c; 0x32918dc6; 0x6696d880;
  0xcf6e04a3; 0x9b6951e5; 0x6760ae2f; 0x3367fb69; 0x317d6098; 0x657a35de;
  0x9973ca14; 0xcd749f52; 0x648c4371; 0x308b1637; 0xcc82e9fd; 0x9885bcbb;
  0xc8b7de1f; 0x9cb08b59; 0x60b97493; 0x34be21d5; 0x9d46fdf6; 0xc941a8b0;
  0x3548577a; 0x614f023c; 0x635599cd; 0x3752cc8b; 0xcb5b3341; 0x9f5c6607;
  0x36a4ba24; 0x62a3ef62; 0x9eaa10a8; 0xcaad45ee; 0x3eced5e0; 0x6ac980a6;
  0x96c07f6c; 0xc2c72a2a; 0x6b3ff609; 0x3f38a34f; 0xc3315c85; 0x973609c3;
  0x952c9232; 0xc12bc774; 0x3d2238be; 0x69256df8; 0xc0ddb1db; 0x94dae49d;
  0x68d31b57; 0x3cd44e11; 0x6ce62cb5; 0x38e179f3; 0xc4e88639; 0x90efd37f;
  0x39170f5c; 0x6d105a1a; 0x9119a5d0; 0xc51ef096; 0xc7046b67; 0x93033e21;
  0x6f0ac1eb; 0x3b0d94ad; 0x92f5488e; 0xc6f21dc8; 0x3afbe202; 0x6efcb744;
  0xd7d0b4ef; 0x83d7e1a9; 0x7fde1e63; 0x2bd94b25; 0x82219706; 0xd626c240;
  0x2a2f3d8a; 0x7e2868cc; 0x7c32f33d; 0x2835a67b; 0xd43c59b1; 0x803b0cf7;
  0x29c3d0d4; 0x7dc48592; 0x81cd7a58; 0xd5ca2f1e; 0x85f84dba; 0xd1ff18fc;
  0x2df6e736; 0x79f1b270; 0xd0096e53; 0x840e3b15; 0x7807c4df; 0x2c009199;
  0x2e1a0a68; 0x7a1d5f2e; 0x8614a0e4; 0xd213f5a2; 0x7beb2981; 0x2fec7cc7;
  0xd3e5830d; 0x87e2d64b; 0x73814645; 0x27861303; 0xdb8fecc9; 0x8f88b98f;
  0x267065ac; 0x727730ea; 0x8e7ecf20; 0xda799a66; 0xd8630197; 0x8c6454d1;
  0x706dab1b; 0x246afe5d; 0x8d92227e; 0xd9957738; 0x259c88f2; 0x719bddb4;
  0x21a9bf10; 0x75aeea56; 0x89a7159c; 0xdda040da; 0x74589cf9; 0x205fc9bf;
  0xdc563675; 0x88516333; 0x8a4bf8c2; 0xde4cad84; 0x2245524e; 0x76420708;
  0xdfbadb2b; 0x8bbd8e6d; 0x77b471a7; 0x23b324e1].

Definition kStrideExtensionTable2 : list Z := [
  0x00000000; 0x678efd01; 0xcf1dfa02; 0xa8930703; 0x9bd782f5; 0xfc597ff4;
  0x54ca78f7; 0x334485f6; 0x3243731b; 0x55cd8e1a; 0xfd5e8919; 0x9ad07418;
  0xa994f1ee; 0xce1a0cef; 0x66890bec; 0x0107f6ed; 0x6486e636; 0x03081b37;
  0xab9b1c34; 0xcc15e135; 0xff5164c3; 0x98df99c2; 0x304c9ec1; 0x57c263c0;
  0x56c5952d; 0x314b682c; 0x99d86f2f; 0xfe56922e; 0xcd1217d8; 0xaa9cead9;
  0x020fedda; 0x658110db; 0xc90dcc6c; 0xae83316d; 0x0610366e; 0x619ecb6f;
  0x52da4e99; 0x3554b398; 0x9dc7b49b; 0xfa49499a; 0xfb4ebf77; 0x9cc04276;
  0x34534575; 0x53ddb874; 0x60993d82; 0x0717c083; 0xaf84c780; 0xc80a3a81;
  0xad8b2a5a; 0xca05d75b; 0x6296d058; 0x05182d59; 0x365ca8af; 0x51d255ae;
  0xf94152ad; 0x9ecfafac; 0x9fc85941; 0xf846a440; 0x50d5a343; 0x375b5e42;
  0x041fdbb4; 0x639126b5; 0xcb0221b6; 0xac8cdcb7; 0x97f7ee29; 0xf0791328;
  0x58ea142b; 0x3f64e92a; 0x0c206cdc; 0x6bae91dd; 0xc33d96de; 0xa4b36bdf;
  0xa5b49d32; 0xc23a6033; 0x6aa96730; 0x0d279a31; 0x3e631fc7; 0x59ede2c6;
  0xf17ee5c5; 0x96f018c4; 0xf371081f; 0x94fff51e; 0x3c6cf21d; 0x5be20f1c;
  0x68a68aea; 0x0f2877eb; 0xa7bb70e8; 0xc0358de9; 0xc1327b04; 0xa6bc8605;
  0x0e2f8106; 0x69a17c07; 0x5ae5f9f1; 0x3d6b04f0; 0x95f803f3; 0xf276fef2;
  0x5efa2245; 0x3974df44; 0x91e7d847; 0xf6692546; 0xc52da0b0; 0xa2a35db1;
  0x0a305ab2; 0x6dbea7b3; 0x6cb9515e; 0x0b37ac5f; 0xa3a4ab5c; 0xc42a565d;
  0xf76ed3ab; 0x90e02eaa; 0x387329a9; 0x5ffdd4a8; 0x3a7cc473; 0x5df23972;
  0xf5613e71; 0x92efc370; 0xa1ab4686; 0xc625bb87; 0x6eb6bc84; 0x09384185;
  0x083fb768; 0x6fb14a69; 0xc7224d6a; 0xa0acb06b; 0x93e8359d; 0xf466c89c;
  0x5cf5cf9f; 0x3b7b329e; 0x2a03aaa3; 0x4d8d57a2; 0xe51e50a1; 0x8290ada0;
  0xb1d42856; 0xd65ad557; 0x7ec9d254; 0x19472f55; 0x1840d9b8; 0x7fce24b9;
  0xd75d23ba; 0xb0d3debb; 0x83975b4d; 0xe419a64c; 0x4c8aa14f; 0x2b045c4e;
  0x4e854c95; 0x290bb194; 0x8198b697; 0xe6164b96; 0xd552ce60; 0xb2dc3361;
  0x1a4f3462; 0x7dc1c963; 0x7cc63f8e; 0x1b48c28f; 0xb3dbc58c; 0xd455388d;
  0xe711bd7b; 0x809f407a; 0x280c4779; 0x4f82ba78; 0xe30e66cf; 0x84809bce;
  0x2c139ccd; 0x4b9d61cc; 0x78d9e43a; 0x1f57193b; 0xb7c41e38; 0xd04ae339;
  0xd14d15d4; 0xb6c3e8d5; 0x1e50efd6; 0x79de12d7; 0x4a9a9721; 0x2d146a20;
  0x85876d23; 0xe2099022; 0x878880f9; 0xe0067df8; 0x48957afb; 0x2f1b87fa;
  0x1c5f020c; 0x7bd1ff0d; 0xd342f80e; 0xb4cc050f; 0xb5cbf3e2; 0xd2450ee3;
  0x7ad609e0; 0x1d58f4e1; 0x2e1c7117; 0x49928c16; 0xe1018b15; 0x868f7614;
  0xbdf4448a; 0xda7ab98b; 0x72e9be88; 0x15674389; 0x2623c67f; 0x41ad3b7e;
  0xe93e3c7d; 0x8eb0c17c; 0x8fb73791; 0xe839ca90; 0x40aacd93; 0x27243092;
  0x1460b564; 0x73ee4865; 0xdb7d4f66; 0xbcf3b267; 0xd972a2bc; 0xbefc5fbd;
  0x166f58be; 0x71e1a5bf; 0x42a52049; 0x252bdd48; 0x8db8da4b; 0xea36274a;
  0xeb31d1a7; 0x8cbf2ca6; 0x242c2ba5; 0x43a2d6a4; 0x70e65352; 0x1768ae53;
  0xbffba950; 0xd8755451; 0x74f988e6; 0x137775e7; 0xbbe472e4; 0xdc6a8fe5;
  0xef2e0a13; 0x88a0f712; 0x2033f011; 0x47bd0d10; 0x46bafbfd; 0x213406fc;
  0x89a701ff; 0xee29fcfe; 0xdd6d7908; 0xbae38409; 0x1270830a; 0x75fe7e0b;
  0x107f6ed0; 0x77f193d1; 0xdf6294d2; 0xb8ec69d3; 0x8ba8ec25; 0xec261124;
  0x44b51627; 0x233beb26; 0x223c1dcb; 0x45b2e0ca; 0xed21e7c9; 0x8aaf1ac8;
  0xb9eb9f3e; 0xde65623f; 0x76f6653c; 0x1178983d].

Definition kStrideExtensionTable3 : list Z := [
  0x00000000; 0xf20c0dfe; 0xe1f46d0d; 0x13f860f3; 0xc604aceb; 0x3408a115;
  0x27f0c1e6; 0xd5fccc18; 0x89e52f27; 0x7be922d9; 0x6811422a; 0x9a1d4fd4;
  0x4fe183cc; 0xbded8e32; 0xae15eec1; 0x5c19e33f; 0x162628bf; 0xe42a2541;
  0xf7d245b2; 0x05de484c; 0xd0228454; 0x222e89aa; 0x31d6e959; 0xc3dae4a7;
  0x9fc30798; 0x6dcf0a66; 0x7e376a95; 0x8c3b676b; 0x59c7ab73; 0xabcba68d;
  0xb833c67e; 0x4a3fcb80; 0x2c4c517e; 0xde405c80; 0xcdb83c73; 0x3fb4318d;
  0xea48fd95; 0x1844f06b; 0x0bbc9098; 0xf9b09d66; 0xa5a97e59; 0x57a573a7;
  0x445d1354; 0xb6511eaa; 0x63add2b2; 0x91a1df4c; 0x8259bfbf; 0x7055b241;
  0x3a6a79c1; 0xc866743f; 0xdb9e14cc; 0x29921932; 0xfc6ed52a; 0x0e62d8d4;
  0x1d9ab827; 0xef96b5d9; 0xb38f56e6; 0x41835b18; 0x527b3beb; 0xa0773615;
  0x758bfa0d; 0x8787f7f3; 0x947f9700; 0x66739afe; 0x5898a2fc; 0xaa94af02;
  0xb96ccff1; 0x4b60c20f; 0x9e9c0e17; 0x6c9003e9; 0x7f68631a; 0x8d646ee4;
  0xd17d8ddb; 0x23718025; 0x3089e0d6; 0xc285ed28; 0x17792130; 0xe5752cce;
  0xf68d4c3d; 0x048141c3; 0x4ebe8a43; 0xbcb287bd; 0xaf4ae74e; 0x5d46eab0;
  0x88ba26a8; 0x7ab62b56; 0x694e4ba5; 0x9b42465b; 0xc75ba564; 0x3557a89a;
  0x26afc869; 0xd4a3c597; 0x015f098f; 0xf3530471; 0xe0ab6482; 0x12a7697c;
  0x74d4f382; 0x86d8fe7c; 0x95209e8f; 0x672c9371; 0xb2d05f69; 0x40dc5297;
  0x53243264; 0xa1283f9a; 0xfd31dca5; 0x0f3dd15b; 0x1cc5b1a8; 0xeec9bc56;
  0x3b35704e; 0xc9397db0; 0xdac11d43; 0x28cd10bd; 0x62f2db3d; 0x90fed6c3;
  0x8306b630; 0x710abbce; 0xa4f677d6; 0x56fa7a28; 0x45021adb; 0xb70e1725;
  0xeb17f41a; 0x191bf9e4; 0x0ae39917; 0xf8ef94e9; 0x2d1358f1; 0xdf1f550f;
  0xcce735fc; 0x3eeb3802; 0xb13145f8; 0x433d4806; 0x50c528f5; 0xa2c9250b;
  0x7735e913; 0x8539e4ed; 0x96c1841e; 0x64cd89e0; 0x38d46adf; 0xcad86721;
  0xd92007d2; 0x2b2c0a2c; 0xfed0c634; 0x0cdccbca; 0x1f24ab39; 0xed28a6c7;
  0xa7176d47; 0x551b60b9; 0x46e3004a; 0xb4ef0db4; 0x6113c1ac; 0x931fcc52;
  0x80e7aca1; 0x72eba15f; 0x2ef24260; 0xdcfe4f9e; 0xcf062f6d; 0x3d0a2293;
  0xe8f6ee8b; 0x1afae375; 0x09028386; 0xfb0e8e78; 0x9d7d1486; 0x6f711978;
  0x7c89798b; 0x8e857475; 0x5b79b86d; 0xa975b593; 0xba8dd560; 0x4881d89e;
  0x14983ba1; 0xe694365f; 0xf56c56ac; 0x07605b52; 0xd29c974a; 0x20909ab4;
  0x3368fa47; 0xc164f7b9; 0x8b5b3c39; 0x795731c7; 0x6aaf5134; 0x98a35cca;
  0x4d5f90d2; 0xbf539d2c; 0xacabfddf; 0x5ea7f021; 0x02be131e; 0xf0b21ee0;
  0xe34a7e13; 0x114673ed; 0xc4babff5; 0x36b6b20b; 0x254ed2f8; 0xd742df06;
  0xe9a9e704; 0x1ba5eafa; 0x085d8a09; 0xfa5187f7; 0x2fad4bef; 0xdda14611;
  0xce5926e2; 0x3c552b1c; 0x604cc823; 0x9240c5dd; 0x81b8a52e; 0x73b4a8d0;
  0xa64864c8; 0x54446936; 0x47bc09c5; 0xb5b0043b; 0xff8fcfbb; 0x0d83c245;
  0x1e7ba2b6; 0xec77af48; 0x398b6350; 0xcb876eae; 0xd87f0e5d; 0x2a7303a3;
  0x766ae09c; 0x8466ed62; 0x979e8d91; 0x6592806f; 0xb06e4c77; 0x42624189;
  0x519a217a; 0xa3962c84; 0xc5e5b67a; 0x37e9bb84; 0x2411db77; 0xd61dd689;
  0x03e11a91; 0xf1ed176f; 0xe215779c; 0x10197a62; 0x4c00995d; 0xbe0c94a3;
  0xadf4f450; 0x5ff8f9ae; 0x8a0435b6; 0x78083848; 0x6bf058bb; 0x99fc5545;
  0xd3c39ec5; 0x21cf933b; 0x3237f3c8; 0xc03bfe36; 0x15c7322e; 0xe7cb3fd0;
  0xf4335f23; 0x063f52dd; 0x5a26b1e2; 0xa82abc1c; 0xbbd2dcef; 0x49ded111;
  0x9c221d09; 0x6e2e10f7; 0x7dd67004; 0x8fda7dfa].

Definition kCRC32Xor : Z := 0xffffffff.
Definition kMaskDelta : Z := 0xa282ead8.

(** [table[i]] for an index the callers keep below 256. *)
Definition at_ (table : list Z) (i : Z) : Z := nth (Z.to_nat i) table 0.

Definition ReadUint32LE (buffer : bytes) : Z := default 0 (DecodeFixed32 buffer).

(** [STEP1]: one byte. *)
Definition STEP1 (l : Z) (b : byte) : Z :=
  let c := Z.lxor (Z.land l 0xff) (b2z b) in
  Z.lxor (at_ kByteExtensionTable c) (Z.shiftr l 8).

(** [STEP4(s)]: one stride, given the word read at [p + s * 4]. *)
Definition STEP4 (word crc : Z) : Z :=
  Z.lxor (Z.lxor (Z.lxor (Z.lxor word (at_ kStrideExtensionTable3 (Z.land crc 0xff)))
    (at_ kStrideExtensionTable2 (Z.land (Z.shiftr crc 8) 0xff)))
    (at_ kStrideExtensionTable1 (Z.land (Z.shiftr crc 16) 0xff)))
    (at_ kStrideExtensionTable0 (Z.shiftr crc 24)).

(** [STEP4W(w)]: four bytes already loaded into a word. *)
Definition STEP4W (l w : Z) : Z :=
  let w := Z.lxor w l in
  let step w := Z.lxor (Z.shiftr w 8) (at_ kByteExtensionTable (Z.land w 0xff)) in
  step (step (step (step w))).

(** The four partial stride results. *)
Record strides := MkStrides { crc0 : Z; crc1 : Z; crc2 : Z; crc3 : Z }.

(** [STEP16] with [p] at the 16 bytes read. *)
Definition STEP16 (s : strides) (p : bytes) : strides :=
  {| crc0 := STEP4 (ReadUint32LE p) (crc0 s);
     crc1 := STEP4 (ReadUint32LE (drop 4 p)) (crc1 s);
     crc2 := STEP4 (ReadUint32LE (drop 8 p)) (crc2 s);
     crc3 := STEP4 (ReadUint32LE (drop 12 p)) (crc3 s) |}.

(** [while (e - p >= 16) STEP16]: recursion on the bytes in [p, e). *)
Fixpoint stride_loop (s : strides) (p : bytes) : strides * bytes :=
  match p with
  | a0 :: a1 :: a2 :: a3 :: a4 :: a5 :: a6 :: a7 ::
    a8 :: a9 :: a10 :: a11 :: a12 :: a13 :: a14 :: a15 :: p' =>
      stride_loop (STEP16 s [a0; a1; a2; a3; a4; a5; a6; a7; a8; a9; a10; a11; a12; a13; a14; a15]) p'
  | _ => (s, p)
  end.

(** [while (e - p >= 4)]: a word at a time, rotating the partial results. *)
Fixpoint word_loop (s : strides) (p : bytes) : strides * bytes :=
  match p with
  | a0 :: a1 :: a2 :: a3 :: p' =>
      word_loop {| crc0 := crc1 s; crc1 := crc2 s; crc2 := crc3 s;
                   crc3 := STEP4 (ReadUint32LE [a0; a1; a2; a3]) (crc0 s) |} p'
  | _ => (s, p)
  end.

(** The block guarded by [(e - p) >= 16]; returns [l] and the bytes left. *)
Definition stride_block (l : Z) (p : bytes) : Z * bytes :=
  if size p >=? 16 then
    let s := {| crc0 := Z.lxor (ReadUint32LE p) l; crc1 := ReadUint32LE (drop 4 p);
                crc2 := ReadUint32LE (drop 8 p); crc3 := ReadUint32LE (drop 12 p) |} in
    let '(s, p) := stride_loop s (drop 16 p) in
    let '(s, p) := word_loop s p in
    (STEP4W (STEP4W (STEP4W (STEP4W 0 (crc0 s)) (crc1 s)) (crc2 s)) (crc3 s), p)
  else (l, p).

(** Bytes between [p] and [RoundUp<4>(p)] for a buffer at address [addr]. *)
Definition unaligned (addr : Z) : Z := Z.land (addr + 3) (Z.lnot 3) - addr.

(** [port::AcceleratedCRC32C] of a build without the crc32c library, so that
    [CanAccelerateCRC32C] is false and the portable code below runs. *)
Definition AcceleratedCRC32C (crc : Z) (buf : bytes) : Z := 0.

Definition kTestCRCBuffer : bytes :=
  [x54; x65; x73; x74; x43; x52; x43; x42; x75; x66; x66; x65; x72].

Definition CanAccelerateCRC32C : bool := AcceleratedCRC32C 0 kTestCRCBuffer =? 0xdcbc59fa.

(** [Extend] on a buffer at address [addr]. *)
Definition Extend_at (addr crc : Z) (data : bytes) : Z :=
  if CanAccelerateCRC32C then AcceleratedCRC32C crc data
  else
    let l := Z.lxor crc kCRC32Xor in
    let k := unaligned addr in
    let '(l, p) := if k <=? size data then (foldl STEP1 l (take_z k data), drop_z k data)
                   else (l, data) in
    let '(l, p) := stride_block l p in
    Z.lxor (foldl STEP1 l p) kCRC32Xor.

(** The result does not depend on the address ([Extend_at_spec]), so callers
    use an aligned one. *)
Definition Extend (crc : Z) (data : bytes) : Z := Extend_at 0 crc data.

Definition Value (data : bytes) : Z := Extend 0 data.

Definition Mask (crc : Z) : Z :=
  u32 (Z.lor (Z.shiftr crc 15) (u32 (Z.shiftl crc 17)) + kMaskDelta).

Definition Unmask (masked_crc : Z) : Z :=
  let rot := u32 (masked_crc - kMaskDelta) in
  Z.lor (Z.shiftr rot 17) (u32 (Z.shiftl rot 15)).

(** ** Exclusive-or algebra *)

(** Equalities of exclusive ors, bit by bit. *)
Ltac xor_solve :=
  apply Z.bits_inj'; intros;
  repeat first [rewrite Z.lxor_spec | rewrite Z.land_spec | rewrite Z.bits_0]; btauto.

Lemma lor_shift_lxor a b k :
  0 <= k → 0 <= a < 2 ^ k → Z.lor a (Z.shiftl b k) = Z.lxor a (Z.shiftl b k).
Proof.
  intros Hk Ha. symmetry. apply Z.lxor_lor, Z.bits_inj'. intros i Hi.
  rewrite Z.land_spec, Z.bits_0. destruct (Z.lt_ge_cases i k).
  - rewrite Z.shiftl_spec_low by lia. apply andb_false_r.
  - rewrite (testbit_high a k) by lia. done.
Qed.

(** The value of a linear map on the byte [i], from its values on the bits. *)
Definition lin (v : Z → Z) (i : Z) : Z :=
  foldr (λ k acc, Z.lxor (if Z.testbit i k then v k else 0) acc) 0 (seqZ 0 8).

Lemma if_xorb (a b : bool) v :
  (if xorb a b then v else 0) = Z.lxor (if a then v else 0) (if b then v else 0).
Proof. destruct a, b; cbn [xorb]; rewrite ?Z.lxor_nilpotent, ?Z.lxor_0_r, ?Z.lxor_0_l; done. Qed.

Lemma lin_lxor v a b : lin v (Z.lxor a b) = Z.lxor (lin v a) (lin v b).
Proof.
  unfold lin. induction (seqZ 0 8) as [|k l IH]; simpl; [done|].
  rewrite IH, Z.lxor_spec, if_xorb. xor_solve.
Qed.

Lemma lin_ext v v' i : (∀ k, 0 <= k < 8 → v k = v' k) → lin v i = lin v' i.
Proof.
  intros Hv. unfold lin. assert (Forall (λ k, v k = v' k) (seqZ 0 8)) as Hl.
  { apply Forall_lookup. intros j k [-> Hj]%lookup_seqZ. apply Hv. lia. }
  induction Hl as [|k l Hk Hl IH]; simpl; [done|]. by rewrite Hk, IH.
Qed.

(** A check on all byte values by evaluation. *)
Definition all_bytes (p : Z → bool) : bool := forallb p (seqZ 0 256).

Lemma all_bytes_spec p : all_bytes p = true → ∀ i, 0 <= i < 256 → p i = true.
Proof.
  unfold all_bytes. rewrite forallb_forall. intros H i Hi. apply H.
  apply list_elem_of_In, elem_of_seqZ. lia.
Qed.

Lemma byte_lin i : 0 <= i < 256 → lin (λ k, 2 ^ k) i = i.
Proof.
  intros Hi. apply Z.eqb_eq. revert i Hi. apply all_bytes_spec. vm_compute. done.
Qed.

Section additive.
  Context (f : Z → Z) (f_lxor : ∀ a b, f (Z.lxor a b) = Z.lxor (f a) (f b)).

Lemma additive_0 : f 0 = 0.
Proof.
  pose proof (f_lxor 0 0) as H. rewrite Z.lxor_nilpotent in H at 1.
  rewrite Z.lxor_nilpotent in H. done.
Qed.

Lemma additive_lin v i : f (lin v i) = lin (λ k, f (v k)) i.
Proof.
  unfold lin. induction (seqZ 0 8) as [|k l IH]; simpl; [apply additive_0|].
  rewrite f_lxor, IH. f_equal. destruct (Z.testbit i k); [done|apply additive_0].
Qed.

End additive.

(** A table is linear when each entry is determined by its powers of two. *)
Definition table_linear (T : list Z) : bool :=
  all_bytes (λ i, at_ T i =? lin (λ k, at_ T (2 ^ k)) i).

Lemma table_lin T i :
  table_linear T = true → 0 <= i < 256 → at_ T i = lin (λ k, at_ T (2 ^ k)) i.
Proof. intros H Hi. apply Z.eqb_eq. by apply (all_bytes_spec _ H). Qed.

Lemma kByteExtensionTable_linear : table_linear kByteExtensionTable = true.
Proof. vm_compute. done. Qed.

Lemma kStrideExtensionTables_linear :
  table_linear kStrideExtensionTable0 = true ∧ table_linear kStrideExtensionTable1 = true ∧
  table_linear kStrideExtensionTable2 = true ∧ table_linear kStrideExtensionTable3 = true.
Proof. vm_compute. done. Qed.

Lemma land_255_range z : 0 <= Z.land z 255 < 256.
Proof. rewrite land_255. apply Z.mod_pos_bound. lia. Qed.

(** ** The byte recurrence as a linear map *)

(** The register after one zero byte. *)
Definition adv1 (l : Z) : Z := Z.lxor (at_ kByteExtensionTable (Z.land l 255)) (Z.shiftr l 8).

Definition adv (n : nat) (l : Z) : Z := Nat.iter n adv1 l.

Lemma table_lxor a b :
  0 <= a < 256 → 0 <= b < 256 → at_ kByteExtensionTable (Z.lxor a b) =
    Z.lxor (at_ kByteExtensionTable a) (at_ kByteExtensionTable b).
Proof.
  intros Ha Hb. pose proof kByteExtensionTable_linear as L.
  assert (0 <= Z.lxor a b < 256) as Hab by (apply (lxor_range a b 8); lia).
  rewrite (table_lin _ (Z.lxor a b) L Hab), (table_lin _ a L Ha), (table_lin _ b L Hb).
  apply lin_lxor.
Qed.

Lemma adv1_lxor a b : adv1 (Z.lxor a b) = Z.lxor (adv1 a) (adv1 b).
Proof.
  unfold adv1. replace (Z.land (Z.lxor a b) 255) with (Z.lxor (Z.land a 255) (Z.land b 255)) by xor_solve.
  rewrite table_lxor by apply land_255_range. rewrite Z.shiftr_lxor. xor_solve.
Qed.

Lemma adv_lxor n a b : adv n (Z.lxor a b) = Z.lxor (adv n a) (adv n b).
Proof. induction n as [|n IH]; simpl; [done|]. rewrite IH. apply adv1_lxor. Qed.

Lemma adv_adv n m l : adv n (adv m l) = adv (n + m) l.
Proof. induction n as [|n IH]; simpl; [done|]. by rewrite IH. Qed.

(** A byte above the lowest one just moves down. *)
Lemma adv1_shiftl y k : 8 <= k → adv1 (Z.shiftl y k) = Z.shiftl y (k - 8).
Proof.
  intros Hk. unfold adv1. rewrite land_255, Z.shiftl_mul_pow2 by lia.
  replace (2 ^ k) with (2 ^ (k - 8) * 256).
  2: { change 256 with (2 ^ 8). rewrite <-Z.pow_add_r by lia. f_equal. lia. }
  rewrite Z.mul_assoc, Z.mod_mul, Z.shiftr_div_pow2, Z.div_mul by lia.
  rewrite Z.shiftl_mul_pow2 by lia. done.
Qed.

Lemma adv_shiftl n y : adv n (Z.shiftl y (8 * Z.of_nat n)) = y.
Proof.
  induction n as [|n IH]; [apply Z.shiftl_0_r|]. unfold adv. rewrite Nat.iter_succ_r.
  rewrite adv1_shiftl by lia. rewrite <-IH at 2. unfold adv. do 2 f_equal. lia.
Qed.

Lemma STEP1_adv l b : STEP1 l b = adv1 (Z.lxor l (b2z b)).
Proof.
  unfold STEP1, adv1. pose proof (b2z_range b).
  replace (Z.land (Z.lxor l (b2z b)) 255) with (Z.lxor (Z.land l 255) (b2z b)).
  2: { replace (Z.land (Z.lxor l (b2z b)) 255)
         with (Z.lxor (Z.land l 255) (Z.land (b2z b) 255)) by xor_solve.
       rewrite (land_255 (b2z b)), Z.mod_small by lia. done. }
  rewrite Z.shiftr_lxor. replace (Z.shiftr (b2z b) 8) with 0; [by rewrite Z.lxor_0_r|].
  rewrite Z.shiftr_div_pow2, Z.div_small by lia. done.
Qed.

Lemma ReadUint32LE_lxor a0 a1 a2 a3 p :
  ReadUint32LE (a0 :: a1 :: a2 :: a3 :: p) =
    Z.lxor (Z.lxor (Z.lxor (b2z a0) (Z.shiftl (b2z a1) 8)) (Z.shiftl (b2z a2) 16)) (Z.shiftl (b2z a3) 24).
Proof.
  unfold ReadUint32LE. rewrite DecodeFixed32_value. cbn [default].
  pose proof (b2z_range a0). pose proof (b2z_range a1). pose proof (b2z_range a2).
  rewrite <-(lor_shift_lxor (b2z a0)), (lor_shift_add (b2z a0)) by lia.
  rewrite <-(lor_shift_lxor _ (b2z a2)), (lor_shift_add _ (b2z a2)) by lia.
  rewrite <-(lor_shift_lxor _ (b2z a3)), (lor_shift_add _ (b2z a3)) by lia. done.
Qed.

Lemma ReadUint32LE_u32 p : is_u32 (ReadUint32LE p).
Proof.
  unfold ReadUint32LE. destruct p as [|a0 [|a1 [|a2 [|a3 p]]]]; cbn [DecodeFixed32 default];
    [range_lia..|].
  change (is_u32 (default 0 (DecodeFixed32 (a0 :: a1 :: a2 :: a3 :: p)))).
  rewrite DecodeFixed32_value. unfold from_option, id.
  pose proof (b2z_range a0). pose proof (b2z_range a1). pose proof (b2z_range a2).
  pose proof (b2z_range a3). unfold is_u32. lia.
Qed.

(** Four bytes at once. *)
Lemma STEP1_word l a0 a1 a2 a3 :
  foldl STEP1 l [a0; a1; a2; a3] = adv 4 (Z.lxor l (ReadUint32LE [a0; a1; a2; a3])).
Proof.
  simpl. rewrite !STEP1_adv, ReadUint32LE_lxor.
  assert (adv1 (Z.shiftl (b2z a1) 8) = b2z a1) as H1 by apply (adv_shiftl 1).
  assert (adv1 (adv1 (Z.shiftl (b2z a2) 16)) = b2z a2) as H2 by apply (adv_shiftl 2).
  assert (adv1 (adv1 (adv1 (Z.shiftl (b2z a3) 24))) = b2z a3) as H3 by apply (adv_shiftl 3).
  rewrite !adv1_lxor, H1, H2, H3. xor_solve.
Qed.

Lemma STEP4W_adv l w : STEP4W l w = adv 4 (Z.lxor l w).
Proof.
  unfold STEP4W, adv. cbn [Nat.iter nat_rect]. unfold adv1.
  rewrite (Z.lxor_comm w l). rewrite !(Z.lxor_comm (Z.shiftr _ 8)). done.
Qed.

(** ** Ranges *)

Definition table_u32 (T : list Z) : bool := all_bytes (λ i, (0 <=? at_ T i) && (at_ T i <? 2 ^ 32)).

Lemma kByteExtensionTable_u32 i : 0 <= i < 256 → is_u32 (at_ kByteExtensionTable i).
Proof.
  intros Hi. pose proof (all_bytes_spec _ (eq_refl : table_u32 kByteExtensionTable = true) i Hi) as H.
  apply andb_true_iff in H as [H1%Z.leb_le H2%Z.ltb_lt]. done.
Qed.

Lemma adv1_u32 l : is_u32 l → is_u32 (adv1 l).
Proof.
  intros Hl. apply (lxor_range _ _ 32); [lia|apply kByteExtensionTable_u32, land_255_range|].
  apply shiftr_range; [lia|done].
Qed.

Lemma adv_u32 n l : is_u32 l → is_u32 (adv n l).
Proof. intros Hl. induction n as [|n IH]; simpl; [done|]. by apply adv1_u32. Qed.

Lemma lxor_u32 a b : is_u32 a → is_u32 b → is_u32 (Z.lxor a b).
Proof. intros. apply (lxor_range _ _ 32); [lia|done..]. Qed.

Lemma b2z_u32 b : is_u32 (b2z b).
Proof. pose proof (b2z_range b). unfold is_u32. lia. Qed.

Lemma STEP1_u32 l b : is_u32 l → is_u32 (STEP1 l b).
Proof. intros. rewrite STEP1_adv. apply adv1_u32, lxor_u32; [done|apply b2z_u32]. Qed.

Lemma foldl_STEP1_u32 data : ∀ l, is_u32 l → is_u32 (foldl STEP1 l data).
Proof. induction data as [|b data IH]; intros l Hl; simpl; [done|]. by apply IH, STEP1_u32. Qed.

(** ** The stride path *)

(** A stride table agrees with the advance over sixteen bytes on single bits. *)
Definition stride_basis (T : list Z) (sh : Z) : bool :=
  forallb (λ k, at_ T (2 ^ k) =? adv 16 (Z.shiftl (2 ^ k) sh)) (seqZ 0 8).

Lemma stride_basis_ok :
  stride_basis kStrideExtensionTable3 0 = true ∧ stride_basis kStrideExtensionTable2 8 = true ∧
  stride_basis kStrideExtensionTable1 16 = true ∧ stride_basis kStrideExtensionTable0 24 = true.
Proof. vm_compute. done. Qed.

(** A stride table is the advance over sixteen bytes of one byte of the word. *)
Lemma stride_table_adv T sh i :
  table_linear T = true → 0 <= sh →
  stride_basis T sh = true → 0 <= i < 256 → at_ T i = adv 16 (Z.shiftl i sh).
Proof.
  intros HT Hs Hb Hi. rewrite (table_lin T i HT Hi).
  rewrite <-(byte_lin i Hi) at 2.
  rewrite (additive_lin (λ x, adv 16 (Z.shiftl x sh)))
    by (intros a b; rewrite Z.shiftl_lxor; apply adv_lxor).
  apply lin_ext. intros k Hk. unfold stride_basis in Hb. rewrite forallb_forall in Hb.
  apply Z.eqb_eq, Hb, list_elem_of_In, elem_of_seqZ. lia.
Qed.

(** A word is the exclusive or of its bytes in place. *)
Lemma word_bytes c :
  is_u32 c →
  c = Z.lxor (Z.lxor (Z.lxor (Z.land c 255) (Z.shiftl (Z.land (Z.shiftr c 8) 255) 8))
        (Z.shiftl (Z.land (Z.shiftr c 16) 255) 16)) (Z.shiftl (Z.shiftr c 24) 24).
Proof.
  intros Hc.
  pose proof (land_255_range c). pose proof (land_255_range (Z.shiftr c 8)).
  pose proof (land_255_range (Z.shiftr c 16)).
  rewrite <-(lor_shift_lxor (Z.land c 255)), (lor_shift_add (Z.land c 255)) by lia.
  rewrite <-(lor_shift_lxor _ (Z.land (Z.shiftr c 16) 255)),
    (lor_shift_add _ (Z.land (Z.shiftr c 16) 255)) by lia.
  rewrite <-(lor_shift_lxor _ (Z.shiftr c 24)), (lor_shift_add _ (Z.shiftr c 24)) by lia.
  rewrite !land_255, !Z.shiftr_div_pow2 by lia.
  pose proof (div_step c 0 8 ltac:(lia) eq_refl) as Hd0. pose proof (div_step c 8 16 ltac:(lia) eq_refl).
  pose proof (div_step c 16 24 ltac:(lia) eq_refl).
  change (2 ^ 0) with 1 in Hd0. rewrite Z.div_1_r in Hd0. lia.
Qed.

Lemma STEP4_adv word crc : is_u32 crc → STEP4 word crc = Z.lxor word (adv 16 crc).
Proof.
  intros Hc. unfold STEP4. pose proof kStrideExtensionTables_linear as (L0 & L1 & L2 & L3).
  pose proof stride_basis_ok as (B3 & B2 & B1 & B0).
  assert (0 <= Z.shiftr crc 24 < 256) as Hr.
  { rewrite Z.shiftr_div_pow2 by lia. unfold is_u32 in Hc.
    split; [apply Z.div_pos; lia|apply Z.div_lt_upper_bound; lia]. }
  rewrite (stride_table_adv _ 0 (Z.land crc 255) L3 ltac:(lia) B3 (land_255_range _)).
  rewrite (stride_table_adv _ 8 (Z.land (Z.shiftr crc 8) 255) L2 ltac:(lia) B2 (land_255_range _)).
  rewrite (stride_table_adv _ 16 (Z.land (Z.shiftr crc 16) 255) L1 ltac:(lia) B1 (land_255_range _)).
  rewrite (stride_table_adv _ 24 (Z.shiftr crc 24) L0 ltac:(lia) B0 Hr).
  rewrite (word_bytes crc Hc) at 5. rewrite !adv_lxor, Z.shiftl_0_r. xor_solve.
Qed.

(** What the four partial results stand for. *)
Definition comb (s : strides) : Z :=
  adv 4 (Z.lxor (adv 4 (Z.lxor (adv 4 (Z.lxor (adv 4 (crc0 s)) (crc1 s))) (crc2 s))) (crc3 s)).

Lemma comb_STEP4W s :
  STEP4W (STEP4W (STEP4W (STEP4W 0 (crc0 s)) (crc1 s)) (crc2 s)) (crc3 s) = comb s.
Proof. unfold comb. rewrite !STEP4W_adv, Z.lxor_0_l. reflexivity. Qed.

Definition strides_u32 (s : strides) : Prop :=
  is_u32 (crc0 s) ∧ is_u32 (crc1 s) ∧ is_u32 (crc2 s) ∧ is_u32 (crc3 s).

(** The rotation step of [word_loop]. *)
Definition rot (s : strides) (w : Z) : strides :=
  {| crc0 := crc1 s; crc1 := crc2 s; crc2 := crc3 s; crc3 := STEP4 w (crc0 s) |}.

Lemma comb_rot s w : strides_u32 s → comb (rot s w) = adv 4 (Z.lxor (comb s) w).
Proof.
  intros (H0 & _). unfold comb, rot. cbn [crc0 crc1 crc2 crc3]. rewrite STEP4_adv by done.
  rewrite !adv_lxor, !adv_adv. cbn [Nat.add]. xor_solve.
Qed.

Lemma rot_u32 s w : strides_u32 s → is_u32 w → strides_u32 (rot s w).
Proof.
  intros (H0 & H1 & H2 & H3) Hw. unfold rot, strides_u32. cbn [crc0 crc1 crc2 crc3].
  split_and!; [done..|]. rewrite STEP4_adv by done. by apply lxor_u32, adv_u32.
Qed.

Lemma word_loop_comb s p :
  strides_u32 s →
  foldl STEP1 (comb (word_loop s p).1) (word_loop s p).2 = foldl STEP1 (comb s) p.
Proof.
  remember (length p) as n eqn:Hn. revert s p Hn.
  induction (lt_wf n) as [n _ IH]. intros s p -> Hs.
  destruct p as [|a0 [|a1 [|a2 [|a3 p]]]]; [done..|]. cbn [word_loop].
  etrans; [apply (IH (length p) ltac:(simpl; lia) (rot s (ReadUint32LE [a0; a1; a2; a3])) p eq_refl);
    apply rot_u32; [done|apply ReadUint32LE_u32]|].
  rewrite comb_rot by done. rewrite <-STEP1_word. done.
Qed.

Lemma STEP16_rot s a0 a1 a2 a3 a4 a5 a6 a7 a8 a9 a10 a11 a12 a13 a14 a15 :
  STEP16 s [a0; a1; a2; a3; a4; a5; a6; a7; a8; a9; a10; a11; a12; a13; a14; a15] =
    rot (rot (rot (rot s (ReadUint32LE [a0; a1; a2; a3])) (ReadUint32LE [a4; a5; a6; a7]))
      (ReadUint32LE [a8; a9; a10; a11])) (ReadUint32LE [a12; a13; a14; a15]).
Proof. done. Qed.

Lemma stride_loop_comb s p :
  strides_u32 s →
  strides_u32 (stride_loop s p).1 ∧
  foldl STEP1 (comb (stride_loop s p).1) (stride_loop s p).2 = foldl STEP1 (comb s) p.
Proof.
  remember (length p) as n eqn:Hn. revert s p Hn.
  induction (lt_wf n) as [n _ IH]. intros s p -> Hs.
  destruct p as [|a0 [|a1 [|a2 [|a3 [|a4 [|a5 [|a6 [|a7 [|a8 [|a9 [|a10 [|a11 [|a12 [|a13 [|a14 [|a15 p]]]]]]]]]]]]]]]];
    [done..|]. cbn [stride_loop]. rewrite STEP16_rot.
  set (w0 := ReadUint32LE [a0; a1; a2; a3]). set (w1 := ReadUint32LE [a4; a5; a6; a7]).
  set (w2 := ReadUint32LE [a8; a9; a10; a11]). set (w3 := ReadUint32LE [a12; a13; a14; a15]).
  assert (strides_u32 (rot s w0)) as S0 by (apply rot_u32; [done|apply ReadUint32LE_u32]).
  assert (strides_u32 (rot (rot s w0) w1)) as S1 by (apply rot_u32; [done|apply ReadUint32LE_u32]).
  assert (strides_u32 (rot (rot (rot s w0) w1) w2)) as S2 by (apply rot_u32; [done|apply ReadUint32LE_u32]).
  destruct (IH (length p) ltac:(simpl; lia) (rot (rot (rot (rot s w0) w1) w2) w3) p eq_refl) as [Hu E];
    [apply rot_u32; [done|apply ReadUint32LE_u32]|]. split; [done|]. rewrite E.
  rewrite !comb_rot by done. subst w0 w1 w2 w3. rewrite <-!STEP1_word. done.
Qed.

Lemma stride_block_spec l p :
  is_u32 l → foldl STEP1 (stride_block l p).1 (stride_block l p).2 = foldl STEP1 l p.
Proof.
  intros Hl. unfold stride_block. rewrite Z.geb_leb. destruct (Z.leb_spec 16 (size p)) as [Hp|]; [|done].
  destruct p as [|a0 [|a1 [|a2 [|a3 [|a4 [|a5 [|a6 [|a7 [|a8 [|a9 [|a10 [|a11 [|a12 [|a13 [|a14 [|a15 p]]]]]]]]]]]]]]]];
    try (unfold size in Hp; simpl in Hp; lia). cbn [drop]. rewrite ?drop_0.
  set (s := MkStrides _ _ _ _).
  assert (strides_u32 s) as Hs.
  { unfold s, strides_u32. cbn [crc0 crc1 crc2 crc3].
    split_and!; try apply ReadUint32LE_u32. apply lxor_u32; [apply ReadUint32LE_u32|done]. }
  destruct (stride_loop_comb s p Hs) as [Hu E]. destruct (stride_loop s p) as [s1 p1]. cbn [fst snd] in *.
  pose proof (word_loop_comb s1 p1 Hu) as E2. destruct (word_loop s1 p1) as [s2 p2]. cbn [fst snd] in *.
  rewrite comb_STEP4W, E2, E.
  rewrite (eq_refl : a0 :: a1 :: a2 :: a3 :: a4 :: a5 :: a6 :: a7 :: a8 :: a9 :: a10 :: a11 ::
    a12 :: a13 :: a14 :: a15 :: p = [a0; a1; a2; a3] ++ [a4; a5; a6; a7] ++ [a8; a9; a10; a11] ++
    [a12; a13; a14; a15] ++ p) in *.
  rewrite !foldl_app.
  rewrite !STEP1_word. f_equal. unfold comb, s. cbn [crc0 crc1 crc2 crc3].
  rewrite (Z.lxor_comm _ l). done.
Qed.

(** ** Extend *)

Lemma CanAccelerateCRC32C_false : CanAccelerateCRC32C = false.
Proof. done. Qed.

(** The whole routine is the byte-wise recurrence, at any alignment. *)
Lemma Extend_at_spec addr crc data :
  is_u32 crc →
  Extend_at addr crc data = Z.lxor (foldl STEP1 (Z.lxor crc kCRC32Xor) data) kCRC32Xor.
Proof.
  intros Hc. unfold Extend_at. rewrite CanAccelerateCRC32C_false.
  assert (is_u32 (Z.lxor crc kCRC32Xor)) as Hx by (apply lxor_u32; [done|vm_compute; by split]).
  set (k := unaligned addr). destruct (k <=? size data).
  - pose proof (stride_block_spec (foldl STEP1 (Z.lxor crc kCRC32Xor) (take_z k data)) (drop_z k data)
      (foldl_STEP1_u32 _ _ Hx)) as E.
    destruct (stride_block _ _) as [l p]. cbn [fst snd] in E. rewrite E, <-foldl_app, take_drop_z. done.
  - pose proof (stride_block_spec _ data Hx) as E.
    destruct (stride_block _ _) as [l p]. cbn [fst snd] in E. by rewrite E.
Qed.

Lemma Extend_spec crc data :
  is_u32 crc → Extend crc data = Z.lxor (foldl STEP1 (Z.lxor crc kCRC32Xor) data) kCRC32Xor.
Proof. apply Extend_at_spec. Qed.

Lemma kCRC32Xor_u32 : is_u32 kCRC32Xor.
Proof. vm_compute. by split. Qed.

Lemma Extend_u32 crc data : is_u32 crc → is_u32 (Extend crc data).
Proof.
  intros Hc. rewrite Extend_spec by done. apply lxor_u32; [|apply kCRC32Xor_u32].
  apply foldl_STEP1_u32, lxor_u32; [done|apply kCRC32Xor_u32].
Qed.

Lemma Value_u32 data : is_u32 (Value data).
Proof. apply Extend_u32. vm_compute. by split. Qed.

Lemma Extend_app crc a b : is_u32 crc → Extend (Extend crc a) b = Extend crc (a ++ b).
Proof.
  intros Hc. rewrite (Extend_spec (Extend crc a)) by by apply Extend_u32.
  rewrite !Extend_spec by done. rewrite foldl_app. do 2 f_equal. xor_solve.
Qed.

(** ** Error detection *)

Lemma table_top_byte i : 0 <= i < 256 → at_ kByteExtensionTable i < 2 ^ 24 → i = 0.
Proof.
  intros Hi. pose proof (all_bytes_spec (λ i, (i =? 0) || (2 ^ 24 <=? at_ kByteExtensionTable i)) eq_refl i Hi) as H.
  apply orb_true_iff in H as [H%Z.eqb_eq|H%Z.leb_le]; lia.
Qed.

Lemma adv1_zero z : is_u32 z → adv1 z = 0 → z = 0.
Proof.
  intros Hz E. apply Z.lxor_eq in E. pose proof (land_255_range z) as Hr.
  assert (Z.shiftr z 8 < 2 ^ 24) as Hs.
  { rewrite Z.shiftr_div_pow2 by lia. apply Z.div_lt_upper_bound; unfold is_u32 in Hz; lia. }
  rewrite <-E in Hs. apply table_top_byte in Hs; [|done]. rewrite Hs in E.
  change (at_ kByteExtensionTable 0) with 0 in E.
  rewrite land_255 in Hs. rewrite Z.shiftr_div_pow2 in E by lia.
  pose proof (Z.div_mod z 256 ltac:(lia)). change (2 ^ 8) with 256 in E. lia.
Qed.

Lemma adv_inj n x y : is_u32 x → is_u32 y → adv n x = adv n y → x = y.
Proof.
  intros Hx Hy. induction n as [|n IH]; simpl; [done|]. intros E. apply IH.
  apply Z.lxor_eq, adv1_zero.
  - apply lxor_u32; by apply adv_u32.
  - rewrite adv1_lxor, E. apply Z.lxor_nilpotent.
Qed.

Lemma lxor_cancel_r a b c : Z.lxor a c = Z.lxor b c → a = b.
Proof.
  intros E. assert (Z.lxor (Z.lxor a c) c = Z.lxor (Z.lxor b c) c) as H by (by rewrite E).
  rewrite !Z.lxor_assoc, Z.lxor_nilpotent, !Z.lxor_0_r in H. done.
Qed.

Lemma foldl_STEP1_inj data : ∀ x y,
  is_u32 x → is_u32 y → foldl STEP1 x data = foldl STEP1 y data → x = y.
Proof.
  induction data as [|b data IH]; intros x y Hx Hy; simpl; [done|]. intros E.
  apply IH in E; [|by apply STEP1_u32..]. rewrite !STEP1_adv in E.
  apply (adv_inj 1) in E; [by apply lxor_cancel_r in E|apply lxor_u32; [done|apply b2z_u32]..].
Qed.

Lemma ReadUint32LE_inj a0 a1 a2 a3 b0 b1 b2 b3 :
  ReadUint32LE [a0; a1; a2; a3] = ReadUint32LE [b0; b1; b2; b3] →
  [a0; a1; a2; a3] = [b0; b1; b2; b3].
Proof.
  unfold ReadUint32LE. rewrite !DecodeFixed32_value. unfold from_option, id. intros E.
  pose proof (b2z_range a0). pose proof (b2z_range a1). pose proof (b2z_range a2). pose proof (b2z_range a3).
  pose proof (b2z_range b0). pose proof (b2z_range b1). pose proof (b2z_range b2). pose proof (b2z_range b3).
  f_equal; [|f_equal; [|f_equal; [|f_equal]]]; apply b2z_inj; lia.
Qed.

Lemma Value_burst a w w' b :
  length w = 4%nat → length w' = 4%nat → Value (a ++ w ++ b) = Value (a ++ w' ++ b) → w = w'.
Proof.
  intros Hw Hw'. unfold Value. rewrite !Extend_spec by (vm_compute; by split).
  rewrite !foldl_app. intros E%lxor_cancel_r.
  set (l := foldl STEP1 _ a) in *.
  assert (is_u32 l) as Hl by (apply foldl_STEP1_u32; vm_compute; by split).
  apply foldl_STEP1_inj in E; [|by apply foldl_STEP1_u32..].
  destruct w as [|a0 [|a1 [|a2 [|a3 [|? w]]]]]; try done.
  destruct w' as [|b0 [|b1 [|b2 [|b3 [|? w']]]]]; try done.
  rewrite !STEP1_word in E. apply adv_inj in E; [|apply lxor_u32; [done|apply ReadUint32LE_u32]..].
  rewrite !(Z.lxor_comm l) in E. apply lxor_cancel_r in E. by apply ReadUint32LE_inj.
Qed.

(** ** Masking *)

Lemma rotate_split c k :
  0 <= k <= 32 → is_u32 c →
  Z.lor (Z.shiftr c k) (u32 (Z.shiftl c (32 - k))) = c / 2 ^ k + (c mod 2 ^ k) * 2 ^ (32 - k).
Proof.
  intros Hk Hc. unfold is_u32 in Hc. rewrite Z.shiftr_div_pow2, Z.shiftl_mul_pow2 by lia. unfold u32.
  replace (2 ^ 32) with (2 ^ k * 2 ^ (32 - k)) by (rewrite <-Z.pow_add_r by lia; f_equal; lia).
  rewrite Zmult_mod_distr_r, <-Z.shiftl_mul_pow2 by lia.
  rewrite lor_shift_add; [by rewrite Z.shiftl_mul_pow2 by lia|lia|].
  split; [apply Z.div_pos; lia|]. apply Z.div_lt_upper_bound; [lia|].
  rewrite <-Z.pow_add_r by lia. replace (k + (32 - k)) with 32 by lia. lia.
Qed.

Lemma Unmask_Mask crc : is_u32 crc → Unmask (Mask crc) = crc.
Proof.
  intros Hc. unfold Mask, Unmask. 
  pose proof (rotate_split crc 15 ltac:(lia) Hc) as H1. change (32 - 15) with 17 in H1. rewrite H1.
  set (r := crc / 2 ^ 15 + crc mod 2 ^ 15 * 2 ^ 17).
  pose proof (Z.mod_pos_bound crc (2 ^ 15) ltac:(lia)) as Hm. pose proof (Z.div_mod crc (2 ^ 15) ltac:(lia)) as Hd.
  assert (0 <= crc / 2 ^ 15 < 2 ^ 17) as Hq.
  { unfold is_u32 in Hc. split; [apply Z.div_pos; lia|apply Z.div_lt_upper_bound; lia]. }
  assert (is_u32 r) as Hr by (unfold r, is_u32; lia).
  replace (u32 (u32 (r + kMaskDelta) - kMaskDelta)) with r.
  2: { unfold u32. rewrite Zminus_mod_idemp_l, Z.add_simpl_r. symmetry. apply u32_small. done. }
  pose proof (rotate_split r 17 ltac:(lia) Hr) as H2. change (32 - 17) with 15 in H2. rewrite H2.
  assert (r / 2 ^ 17 = crc mod 2 ^ 15 ∧ r mod 2 ^ 17 = crc / 2 ^ 15) as [-> ->].
  { split; symmetry.
    - apply (Z.div_unique _ _ _ (crc / 2 ^ 15)); unfold r; lia.
    - apply (Z.mod_unique _ _ (crc mod 2 ^ 15)); unfold r; lia. }
  lia.
Qed.

Lemma Mask_u32 crc : is_u32 (Mask crc).
Proof. apply u32_range. Qed.

(** The values the repository's checksum test expects (RFC 3720). *)
Example Value_vectors :
  Value (replicate 32 x00) = 0x8a9136aa ∧ Value (replicate 32 xff) = 0x62a8ab43 ∧
  Value (z2b <$> seqZ 0 32) = 0x46dd794e.
Proof. vm_compute. done. Qed.

(** ** Properties *)

(** C38: for a buffer at any address, the aligned 16-byte stride routine computes
    the byte-at-a-time CRC recurrence, and extending a checksum by a second
    buffer is the checksum of the concatenation. *)
Theorem crc_stride_equivalence (addr crc : Z) (data more : bytes) :
  is_u32 crc →
  Extend_at addr crc data = Z.lxor (foldl STEP1 (Z.lxor crc kCRC32Xor) data) kCRC32Xor ∧
  Extend (Extend_at addr crc data) more = Extend crc (data ++ more) ∧ is_u32 (Extend crc data).
Proof.
  intros Hc. split_and!; [by apply Extend_at_spec| |by apply Extend_u32].
  rewrite Extend_at_spec, <-Extend_spec by done. by apply Extend_app.
Qed.

Lemma crc_stride_equivalence_witness :
  Extend (Extend_at 3 0 (replicate 20 x61)) (replicate 17 x62)
    = Extend 0 (replicate 20 x61 ++ replicate 17 x62).
Proof.
  refine (proj1 (proj2 (crc_stride_equivalence 3 0 (replicate 20 x61) (replicate 17 x62) _))).
  vm_compute. by split.
Defined.

(** the checksum detects every corruption confined to four consecutive
    bytes, wherever they lie in the buffer. *)
Theorem crc_detects_bursts (prefix w w' suffix : bytes) :
  length w = 4%nat → length w' = 4%nat → w ≠ w' →
  Value (prefix ++ w ++ suffix) ≠ Value (prefix ++ w' ++ suffix).
Proof. intros Hw Hw' Hne E. by apply Hne, (Value_burst prefix w w' suffix). Qed.

Lemma crc_detects_bursts_witness :
  Value ([x01] ++ [x02; x03; x04; x05] ++ [x06]) ≠ Value ([x01] ++ [x02; xff; x04; x05] ++ [x06]).
Proof. apply (crc_detects_bursts [x01] [x02; x03; x04; x05] [x02; xff; x04; x05] [x06]); done. Defined.

(** unmasking a masked checksum gives the checksum back, for all 32-bit
    values, also when masking is applied twice. *)
Theorem crc_mask_roundtrip (crc : Z) :
  is_u32 crc → Unmask (Mask crc) = crc ∧ Unmask (Unmask (Mask (Mask crc))) = crc.
Proof. intros Hc. rewrite (Unmask_Mask (Mask crc)) by apply Mask_u32. by rewrite Unmask_Mask. Qed.

Lemma crc_mask_roundtrip_witness : Unmask (Mask (Value [x66; x6f; x6f])) = Value [x66; x6f; x6f].
Proof. apply (crc_mask_roundtrip (Value [x66; x6f; x6f])). vm_compute. by split. Defined.

End crc32c.
