(* ===== verification/Log.v ===== *)
(** * The write-ahead log
    (src/db/log_format.h, src/db/log_writer.cc, src/db/log_reader.cc)

    A log file is a sequence of 32 KiB blocks of physical records; a logical
    record is cut into fragments that do not cross block boundaries.  The writer
    and the reader work on files of the [Env] interfaces.  The reader's reporter
    is the list of reported drops.  The loops of [AddRecord] and [ReadRecord]
    take fuel; [None] means that it ran out, and the theorems show that it does
    not. *)

From Stdlib Require Import String.
From S2P Require Import Prelude Coding Status Crc32c Env.
Import Coding.

(** ** Format *)

Inductive RecordType := kZeroType | kFullType | kFirstType | kMiddleType | kLastType.

Definition RecordType_to_Z (t : RecordType) : Z :=
  match t with kZeroType => 0 | kFullType => 1 | kFirstType => 2 | kMiddleType => 3 | kLastType => 4 end.

Definition kMaxRecordType : Z := 4.
Definition kBlockSize : Z := 32768.
Definition kHeaderSize : Z := 4 + 2 + 1.

(** ** Writer *)

Section Writer.
  Context {W : WritableFile}.

Record Writer := MkWriter { dest_ : wfile; block_offset_ : Z; type_crc_ : list Z }.

Definition InitTypeCrc : list Z :=
  (λ i, crc32c.Value [z2b i]) <$> seqZ 0 (kMaxRecordType + 1).

Definition NewWriter (dest : wfile) : Writer := MkWriter dest 0 InitTypeCrc.

(** The writer on a file that already holds [dest_length] bytes. *)
Definition NewWriterAt (dest : wfile) (dest_length : Z) : Writer :=
  MkWriter dest (dest_length mod kBlockSize) InitTypeCrc.

Definition physical_header (w : Writer) (t : RecordType) (ptr : bytes) : bytes :=
  let length := size ptr in
  let crc := crc32c.Extend (nth (Z.to_nat (RecordType_to_Z t)) (type_crc_ w) 0) ptr in
  let crc := crc32c.Mask crc in
  EncodeFixed32 crc ++
  [z2b (Z.land length 255); z2b (Z.shiftr length 8); z2b (RecordType_to_Z t)].

Definition EmitPhysicalRecord (w : Writer) (t : RecordType) (ptr : bytes) : Status * Writer :=
  let '(s, dest) := Append (physical_header w t ptr) (dest_ w) in
  let '(s, dest) :=
    if ok s then
      let '(s, dest) := Append ptr dest in
      if ok s then Flush dest else (s, dest)
    else (s, dest) in
  (s, MkWriter dest (block_offset_ w + (kHeaderSize + size ptr)) (type_crc_ w)).

(** One pass of the loop of [AddRecord]: the switch to a new block (the status of
    the filler's append is dropped), and the fragment's type and length. *)
Definition switch_block (w : Writer) : Writer :=
  let leftover := kBlockSize - block_offset_ w in
  if leftover <? kHeaderSize then
    let dest :=
      if leftover >? 0 then (Append (take_z leftover (replicate 6 x00)) (dest_ w)).2 else dest_ w in
    MkWriter dest 0 (type_crc_ w)
  else w.

Definition fragment_type (begin end_ : bool) : RecordType :=
  match begin, end_ with
  | true, true => kFullType
  | true, false => kFirstType
  | false, true => kLastType
  | false, false => kMiddleType
  end.

Fixpoint AddRecord_loop (fuel : nat) (w : Writer) (ptr : bytes) (begin : bool) : option (Status * Writer) :=
  match fuel with
  | O => None
  | S fuel =>
      let w := switch_block w in
      let avail := kBlockSize - block_offset_ w - kHeaderSize in
      let fragment_length := if size ptr <? avail then size ptr else avail in
      let type := fragment_type begin (size ptr =? fragment_length) in
      let '(s, w) := EmitPhysicalRecord w type (take_z fragment_length ptr) in
      let left := drop_z fragment_length ptr in
      if ok s && (size left >? 0) then AddRecord_loop fuel w left false else Some (s, w)
  end.

(** At most one pass writes no payload byte: the first one. *)
Definition AddRecord (w : Writer) (slice : bytes) : option (Status * Writer) :=
  AddRecord_loop (S (S (length slice))) w slice true.

(** The callers' loop over a list of records, up to the first failure. *)
Fixpoint AddRecords (w : Writer) (records : list bytes) : option (Status * Writer) :=
  match records with
  | [] => Some (Status_OK, w)
  | r :: records =>
      '(s, w) ← AddRecord w r;
      if ok s then AddRecords w records else Some (s, w)
  end.

End Writer.

(** ** Reader *)

Definition kEof : Z := kMaxRecordType + 1.
Definition kBadRecord : Z := kMaxRecordType + 2.

Section Reader.
  Context {F : SequentialFile}.

(** [reporter_] says whether there is a reporter, [reports] what it was told. *)
Record Reader := MkReader {
  file_ : sfile;
  reporter_ : bool;
  reports : list (Z * Status);
  checksum_ : bool;
  buffer_ : bytes;
  eof_ : bool;
  last_record_offset_ : Z;
  end_of_buffer_offset_ : Z;
  initial_offset_ : Z;
  resyncing_ : bool;
}.

Definition NewReader (file : sfile) (reporter checksum : bool) (initial_offset : Z) : Reader :=
  MkReader file reporter [] checksum [] false 0 0 initial_offset (initial_offset >? 0).

Definition set_buffer (r : Reader) (b : bytes) : Reader :=
  MkReader (file_ r) (reporter_ r) (reports r) (checksum_ r) b (eof_ r) (last_record_offset_ r)
    (end_of_buffer_offset_ r) (initial_offset_ r) (resyncing_ r).
Definition set_eof (r : Reader) : Reader :=
  MkReader (file_ r) (reporter_ r) (reports r) (checksum_ r) (buffer_ r) true (last_record_offset_ r)
    (end_of_buffer_offset_ r) (initial_offset_ r) (resyncing_ r).
Definition set_last (r : Reader) (o : Z) : Reader :=
  MkReader (file_ r) (reporter_ r) (reports r) (checksum_ r) (buffer_ r) (eof_ r) o
    (end_of_buffer_offset_ r) (initial_offset_ r) (resyncing_ r).
Definition set_resyncing (r : Reader) (b : bool) : Reader :=
  MkReader (file_ r) (reporter_ r) (reports r) (checksum_ r) (buffer_ r) (eof_ r) (last_record_offset_ r)
    (end_of_buffer_offset_ r) (initial_offset_ r) b.
Definition set_file (r : Reader) (f : sfile) (b : bytes) (e : Z) : Reader :=
  MkReader f (reporter_ r) (reports r) (checksum_ r) b (eof_ r) (last_record_offset_ r)
    e (initial_offset_ r) (resyncing_ r).

Definition ReportDrop (r : Reader) (n : Z) (reason : Status) : Reader :=
  if reporter_ r && (u64 (end_of_buffer_offset_ r - size (buffer_ r) - n) >=? initial_offset_ r)
  then MkReader (file_ r) (reporter_ r) (reports r ++ [(n, reason)]) (checksum_ r) (buffer_ r) (eof_ r)
         (last_record_offset_ r) (end_of_buffer_offset_ r) (initial_offset_ r) (resyncing_ r)
  else r.

Definition ReportCorruption (r : Reader) (n : Z) (reason : bytes) : Reader :=
  ReportDrop r n (Corruption reason []).

Definition SkipToInitialBlock (r : Reader) : bool * Reader :=
  let offset_in_block := initial_offset_ r mod kBlockSize in
  let block_start_location := u64 (initial_offset_ r - offset_in_block) in
  let block_start_location :=
    if offset_in_block >? kBlockSize - 6 then u64 (block_start_location + kBlockSize) else block_start_location in
  let r := set_file r (file_ r) (buffer_ r) block_start_location in
  if block_start_location >? 0 then
    let '(skip_status, f) := Skip block_start_location (file_ r) in
    let r := set_file r f (buffer_ r) (end_of_buffer_offset_ r) in
    if negb (ok skip_status) then (false, ReportDrop r block_start_location skip_status) else (true, r)
  else (true, r).

(** The parsing of a record at the start of a buffer of at least a header:
    record type, fragment and the state after it. *)
Definition ParsePhysicalRecord (r : Reader) : Z * bytes * Reader :=
  let header := buffer_ r in
  let a := b2z (nth 4 header x00) in
  let b := b2z (nth 5 header x00) in
  let type := u32 (b2sz (nth 6 header x00)) in
  let length := Z.lor a (Z.shiftl b 8) in
  if kHeaderSize + length >? size (buffer_ r) then
    let drop_size := size (buffer_ r) in
    let r := set_buffer r [] in
    if negb (eof_ r) then (kBadRecord, [], ReportCorruption r drop_size (bs "bad record length"))
    else (kEof, [], r)
  else if (type =? RecordType_to_Z kZeroType) && (length =? 0) then (kBadRecord, [], set_buffer r [])
  else if checksum_ r &&
          negb (crc32c.Value (take_z (1 + length) (drop_z 6 header)) =?
                crc32c.Unmask (default 0 (DecodeFixed32 header))) then
    let drop_size := size (buffer_ r) in
    let r := set_buffer r [] in
    (kBadRecord, [], ReportCorruption r drop_size (bs "checksum mismatch"))
  else
    let r := set_buffer r (drop_z (kHeaderSize + length) (buffer_ r)) in
    if u64 (end_of_buffer_offset_ r - size (buffer_ r) - kHeaderSize - length) <? initial_offset_ r
    then (kBadRecord, [], r)
    else (type, take_z length (drop_z kHeaderSize header), r).

(** A refill either fills the buffer with a block or sets [eof_], so the loop
    makes at most two passes.  A failing read delivers no bytes. *)
Fixpoint ReadPhysicalRecord_loop (fuel : nat) (r : Reader) : option (Z * bytes * Reader) :=
  match fuel with
  | O => None
  | S fuel =>
      if size (buffer_ r) <? kHeaderSize then
        if negb (eof_ r) then
          match SRead kBlockSize (file_ r) with
          | (Ok b, f) =>
              let r := set_file r f b (u64 (end_of_buffer_offset_ r + size b)) in
              let r := if size b <? kBlockSize then set_eof r else r in
              ReadPhysicalRecord_loop fuel r
          | (Fail status, f) =>
              let r := set_file r f [] (end_of_buffer_offset_ r) in
              Some (kEof, [], set_eof (ReportDrop r kBlockSize status))
          end
        else Some (kEof, [], set_buffer r [])
      else Some (ParsePhysicalRecord r)
  end.

Definition ReadPhysicalRecord (r : Reader) : option (Z * bytes * Reader) := ReadPhysicalRecord_loop 2 r.

(** The loop of [ReadRecord]; the result is the record, [None] at the end. *)
Fixpoint ReadRecord_loop (fuel : nat) (r : Reader) (scratch : bytes) (in_fragmented_record : bool)
    (prospective_record_offset : Z) : option (option bytes * Reader) :=
  match fuel with
  | O => None
  | S fuel =>
      '(record_type, fragment, r) ← ReadPhysicalRecord r;
      let physical_record_offset :=
        u64 (end_of_buffer_offset_ r - size (buffer_ r) - kHeaderSize - size fragment) in
      if resyncing_ r && (record_type =? RecordType_to_Z kMiddleType) then
        ReadRecord_loop fuel r scratch in_fragmented_record prospective_record_offset
      else if resyncing_ r && (record_type =? RecordType_to_Z kLastType) then
        ReadRecord_loop fuel (set_resyncing r false) scratch in_fragmented_record prospective_record_offset
      else
        let r := if resyncing_ r then set_resyncing r false else r in
        if record_type =? RecordType_to_Z kFullType then
          let r := if in_fragmented_record && negb (size scratch =? 0)
                   then ReportCorruption r (size scratch) (bs "partial record without end(1)") else r in
          Some (Some fragment, set_last r physical_record_offset)
        else if record_type =? RecordType_to_Z kFirstType then
          let r := if in_fragmented_record && negb (size scratch =? 0)
                   then ReportCorruption r (size scratch) (bs "partial record without end(2)") else r in
          ReadRecord_loop fuel r fragment true physical_record_offset
        else if record_type =? RecordType_to_Z kMiddleType then
          if negb in_fragmented_record then
            ReadRecord_loop fuel
              (ReportCorruption r (size fragment) (bs "missing start of fragmented record(1)"))
              scratch in_fragmented_record prospective_record_offset
          else ReadRecord_loop fuel r (scratch ++ fragment) in_fragmented_record prospective_record_offset
        else if record_type =? RecordType_to_Z kLastType then
          if negb in_fragmented_record then
            ReadRecord_loop fuel
              (ReportCorruption r (size fragment) (bs "missing start of fragmented record(2)"))
              scratch in_fragmented_record prospective_record_offset
          else Some (Some (scratch ++ fragment), set_last r prospective_record_offset)
        else if record_type =? kEof then Some (None, r)
        else if record_type =? kBadRecord then
          if in_fragmented_record then
            ReadRecord_loop fuel (ReportCorruption r (size scratch) (bs "error in middle of record"))
              [] false prospective_record_offset
          else ReadRecord_loop fuel r scratch in_fragmented_record prospective_record_offset
        else
          ReadRecord_loop fuel
            (ReportCorruption r (size fragment + (if in_fragmented_record then size scratch else 0))
               (bs "unknown record type " ++ decimal record_type))
            [] false prospective_record_offset
  end.

Definition ReadRecord (fuel : nat) (r : Reader) : option (option bytes * Reader) :=
  let '(go, r) :=
    if last_record_offset_ r <? initial_offset_ r then SkipToInitialBlock r else (true, r) in
  if negb go then Some (None, r) else ReadRecord_loop fuel r [] false 0.

(** The recovery loop: records up to the first unsuccessful read. *)
Fixpoint ReadRecords (n fuel : nat) (r : Reader) : option (list bytes * Reader) :=
  match n with
  | O => None
  | S n =>
      '(o, r) ← ReadRecord fuel r;
      match o with
      | None => Some ([], r)
      | Some record => '(records, r) ← ReadRecords n fuel r; Some (record :: records, r)
      end
  end.

End Reader.

(** ** Layout of a log

    The bytes of a sequence of fragments written from offset [o] of a block. *)

Definition fragment : Type := RecordType * bytes.

Definition header_of (t : RecordType) (p : bytes) : bytes :=
  EncodeFixed32 (crc32c.Mask (crc32c.Value (z2b (RecordType_to_Z t) :: p))) ++
  [z2b (Z.land (size p) 255); z2b (Z.shiftr (size p) 8); z2b (RecordType_to_Z t)].

Definition start (o : Z) : Z := if kBlockSize - o <? kHeaderSize then 0 else o.
Definition pad (o : Z) : bytes :=
  if kBlockSize - o <? kHeaderSize then replicate (Z.to_nat (kBlockSize - o)) x00 else [].
Definition next (o : Z) (p : bytes) : Z := start o + kHeaderSize + size p.

Fixpoint layout (o : Z) (fs : list fragment) : bytes :=
  match fs with
  | [] => []
  | (t, p) :: fs => pad o ++ header_of t p ++ p ++ layout (next o p) fs
  end.

Fixpoint layout_end (o : Z) (fs : list fragment) : Z :=
  match fs with [] => o | (t, p) :: fs => layout_end (next o p) fs end.

Fixpoint fragments_ok (o : Z) (fs : list fragment) : Prop :=
  match fs with
  | [] => True
  | (t, p) :: fs => t ≠ kZeroType ∧ next o p <= kBlockSize ∧ fragments_ok (next o p) fs
  end.

(** The fragments of one logical record. *)
Inductive record_fragments : bool → bytes → list fragment → Prop :=
  | rf_end begin p : record_fragments begin p [(fragment_type begin true, p)]
  | rf_more begin p rest fs :
      record_fragments false rest fs →
      record_fragments begin (p ++ rest) ((fragment_type begin false, p) :: fs).

Lemma layout_app o fs gs : layout o (fs ++ gs) = layout o fs ++ layout (layout_end o fs) gs.
Proof.
  revert o. induction fs as [|[t p] fs IH]; intros o; [done|].
  cbn [app layout layout_end]. rewrite IH, <-!app_assoc. done.
Qed.

Lemma layout_end_app o fs gs : layout_end o (fs ++ gs) = layout_end (layout_end o fs) gs.
Proof. revert o. induction fs as [|[t p] fs IH]; intros o; [done|]. simpl. apply IH. Qed.

Lemma fragments_ok_app o fs gs :
  fragments_ok o (fs ++ gs) ↔ fragments_ok o fs ∧ fragments_ok (layout_end o fs) gs.
Proof.
  revert o. induction fs as [|[t p] fs IH]; intros o; simpl; [tauto|]. rewrite IH. tauto.
Qed.

Lemma start_range o : 0 <= o <= kBlockSize → 0 <= start o <= kBlockSize - kHeaderSize.
Proof. unfold start, kBlockSize, kHeaderSize. zcases; lia. Qed.

Lemma size_pad o : o <= kBlockSize →
  size (pad o) = if kBlockSize - o <? kHeaderSize then kBlockSize - o else 0.
Proof.
  intros Ho. unfold pad. zcases; [|done]. unfold size. rewrite length_replicate. lia.
Qed.

Lemma size_header_of t p : size (header_of t p) = kHeaderSize.
Proof. unfold header_of. rewrite size_app, size_EncodeFixed32. done. Qed.

(** ** The writer writes the layout *)

Section WriterFacts.
  Context {W : WritableFile} {L : WritableFileLaws W}.

Definition writer_at (w : Writer) (c : bytes) : Prop :=
  wvalid (dest_ w) ∧ wcontents (dest_ w) = c ∧ type_crc_ w = InitTypeCrc.

Lemma physical_header_of w c t p : writer_at w c → physical_header w t p = header_of t p.
Proof.
  intros (_ & _ & Ht). unfold physical_header, header_of. rewrite Ht. do 3 f_equal.
  change (z2b (RecordType_to_Z t) :: p) with ([z2b (RecordType_to_Z t)] ++ p).
  unfold crc32c.Value at 1. rewrite <-(crc32c.Extend_app 0) by (unfold is_u32; lia).
  fold (crc32c.Value [z2b (RecordType_to_Z t)]). f_equal.
  unfold InitTypeCrc. by destruct t.
Qed.

Lemma EmitPhysicalRecord_spec w c t p : writer_at w c →
  ∃ w', EmitPhysicalRecord w t p = (Status_OK, w') ∧ writer_at w' (c ++ header_of t p ++ p) ∧
        block_offset_ w' = block_offset_ w + (kHeaderSize + size p).
Proof.
  intros Hw. unfold EmitPhysicalRecord. rewrite (physical_header_of w c) by done.
  destruct Hw as (Hv & Hc & Ht).
  destruct (Append_law (header_of t p) _ Hv) as (f1 & -> & Hv1 & Hc1).
  destruct (Append_law p _ Hv1) as (f2 & E2 & Hv2 & Hc2). cbn [ok Status_OK]. rewrite E2.
  destruct (Flush_law _ Hv2) as (f3 & E3 & Hv3 & Hc3). cbn [ok Status_OK]. rewrite E3.
  eexists. split; [done|]. split; [|done].
  split; [exact Hv3|split; [|exact Ht]]. cbn [dest_]. rewrite Hc3, Hc2, Hc1, Hc, app_assoc. done.
Qed.

Lemma switch_block_spec w c : writer_at w c → 0 <= block_offset_ w <= kBlockSize →
  writer_at (switch_block w) (c ++ pad (block_offset_ w)) ∧
  block_offset_ (switch_block w) = start (block_offset_ w).
Proof.
  intros (Hv & Hc & Ht) Ho. unfold switch_block, pad, start.
  destruct (Z.ltb_spec (kBlockSize - block_offset_ w) kHeaderSize) as [Hlt|Hge].
  2: { rewrite app_nil_r. done. }
  split; [|done]. unfold kHeaderSize in Hlt.
  destruct (Z.gtb_spec (kBlockSize - block_offset_ w) 0) as [Hg|Hg].
  - destruct (Append_law (take_z (kBlockSize - block_offset_ w) (replicate 6 x00)) _ Hv) as (f & E & Hv' & Hc').
    rewrite E. split; [done|split; [|done]]. simpl. rewrite Hc', Hc. f_equal.
    unfold take_z. rewrite take_replicate. f_equal. lia.
  - replace (kBlockSize - block_offset_ w) with 0 by lia. rewrite app_nil_r. done.
Qed.

Lemma fragment_type_nonzero b e : fragment_type b e ≠ kZeroType.
Proof. by destruct b, e. Qed.

(** One more pass is needed when no room is left behind the header. *)
Lemma AddRecord_loop_spec fuel : ∀ w c ptr begin,
  writer_at w c → 0 <= block_offset_ w <= kBlockSize →
  size ptr + (if start (block_offset_ w) =? kBlockSize - kHeaderSize then 1 else 0) < Z.of_nat fuel →
  ∃ fs w', AddRecord_loop fuel w ptr begin = Some (Status_OK, w') ∧
    writer_at w' (c ++ layout (block_offset_ w) fs) ∧ block_offset_ w' = layout_end (block_offset_ w) fs ∧
    fragments_ok (block_offset_ w) fs ∧ record_fragments begin ptr fs ∧ block_offset_ w' <= kBlockSize.
Proof.
  induction fuel as [|fuel IH]; intros w c ptr begin Hw Ho Hfuel.
  { pose proof (size_nonneg ptr). destruct (_ =? _); lia. }
  cbn [AddRecord_loop]. destruct (switch_block_spec w c Hw Ho) as [Hw1 Ho1].
  pose proof (start_range _ Ho) as Hs. set (w1 := switch_block w) in *. rewrite Ho1.
  set (s := start (block_offset_ w)) in *. pose proof (size_nonneg ptr) as Hp0.
  set (n := if size ptr <? kBlockSize - s - kHeaderSize then size ptr else kBlockSize - s - kHeaderSize).
  assert (0 <= n <= size ptr ∧ n <= kBlockSize - s - kHeaderSize) as (Hn & Hn')
    by (unfold n; destruct (Z.ltb_spec (size ptr) (kBlockSize - s - kHeaderSize)); lia).
  assert (size (take_z n ptr) = n) as Hsz by (apply size_take_z; lia).
  destruct (EmitPhysicalRecord_spec w1 _ (fragment_type begin (size ptr =? n)) (take_z n ptr) Hw1)
    as (w2 & -> & Hw2 & Ho2). cbn [ok Status_OK andb].
  rewrite Hsz in Ho2. rewrite Ho1 in Ho2. rewrite size_drop_z by lia.
  assert (next (block_offset_ w) (take_z n ptr) = block_offset_ w2) as Hnx
    by (unfold next; rewrite Hsz; fold s; lia).
  destruct (Z.gtb_spec (size ptr - n) 0) as [Hl|Hl].
  - rewrite (proj2 (Z.eqb_neq (size ptr) n)) in * by lia.
    assert (n = kBlockSize - s - kHeaderSize) as En
      by (unfold n in *; destruct (Z.ltb_spec (size ptr) (kBlockSize - s - kHeaderSize)); lia).
    assert (block_offset_ w2 = kBlockSize) as Eo2 by lia.
    destruct (IH w2 _ (drop_z n ptr) false Hw2) as (fs & w' & E & Hw' & Ho' & Hok & Hrf & Hb).
    { unfold kBlockSize in *; lia. }
    { rewrite size_drop_z by lia. rewrite Eo2.
      change (start kBlockSize =? kBlockSize - kHeaderSize) with false.
      destruct (Z.eqb_spec s (kBlockSize - kHeaderSize)); lia. }
    exists ((fragment_type begin false, take_z n ptr) :: fs), w'.
    split; [exact E|]. cbn [layout layout_end fragments_ok]. rewrite Hnx.
    split; [|split; [exact Ho'|split; [split; [apply fragment_type_nonzero|split; [lia|exact Hok]]|split; [|exact Hb]]]].
    + rewrite !app_assoc in *. exact Hw'.
    + rewrite <-(take_drop_z ptr n) at 1. constructor. exact Hrf.
  - assert (n = size ptr) as En by lia. clearbody n. subst n. rewrite take_z_all in *.
    rewrite Z.eqb_refl in *.
    exists [(fragment_type begin true, ptr)], w2. split; [done|]. cbn [layout layout_end fragments_ok].
    rewrite Hnx, app_nil_r. split; [rewrite app_assoc; exact Hw2|].
    split; [done|]. split; [split; [apply fragment_type_nonzero|split; [lia|done]]|]. split; [constructor|lia].
Qed.

Lemma AddRecord_spec w c r : writer_at w c → 0 <= block_offset_ w <= kBlockSize →
  ∃ fs w', AddRecord w r = Some (Status_OK, w') ∧
    writer_at w' (c ++ layout (block_offset_ w) fs) ∧ block_offset_ w' = layout_end (block_offset_ w) fs ∧
    fragments_ok (block_offset_ w) fs ∧ record_fragments true r fs ∧ block_offset_ w' <= kBlockSize.
Proof.
  intros Hw Ho. apply AddRecord_loop_spec; [done|done|]. unfold size. destruct (_ =? _); lia.
Qed.

(** Whatever the file answers, the call returns. *)
Lemma AddRecord_loop_total fuel : ∀ w ptr begin, 0 <= block_offset_ w <= kBlockSize →
  size ptr + (if start (block_offset_ w) =? kBlockSize - kHeaderSize then 1 else 0) < Z.of_nat fuel →
  ∃ s w', AddRecord_loop fuel w ptr begin = Some (s, w') ∧ 0 <= block_offset_ w' <= kBlockSize.
Proof.
  induction fuel as [|fuel IH]; intros w ptr begin Ho Hfuel.
  { pose proof (size_nonneg ptr). destruct (_ =? _); lia. }
  cbn [AddRecord_loop]. pose proof (start_range _ Ho) as Hs. pose proof (size_nonneg ptr) as Hp0.
  assert (block_offset_ (switch_block w) = start (block_offset_ w)) as Ho1 by (unfold switch_block, start; by destruct (_ <? _)).
  rewrite Ho1. set (s := start (block_offset_ w)) in *.
  set (n := if size ptr <? kBlockSize - s - kHeaderSize then size ptr else kBlockSize - s - kHeaderSize).
  assert (0 <= n <= size ptr ∧ n <= kBlockSize - s - kHeaderSize) as (Hn & Hn')
    by (unfold n; destruct (Z.ltb_spec (size ptr) (kBlockSize - s - kHeaderSize)); lia).
  destruct (EmitPhysicalRecord _ _ (take_z n ptr)) as [st w2] eqn:E.
  assert (block_offset_ w2 = s + kHeaderSize + n) as Ho2.
  { unfold EmitPhysicalRecord in E. destruct (Append _ _) as [s1 d1]. destruct (if ok s1 then _ else _) as [s2 d2].
    injection E as <- <-. cbn [block_offset_]. rewrite Ho1, size_take_z by lia. lia. }
  destruct (ok st && _) eqn:Eg; [|exists st, w2; split; [done|unfold kHeaderSize in *; lia]]. apply andb_true_iff in Eg as [_ Eg]. rewrite size_drop_z in Eg by lia.
  apply Z.gtb_lt in Eg. assert (n = kBlockSize - s - kHeaderSize) as En by (unfold n in *; destruct (Z.ltb_spec (size ptr) (kBlockSize - s - kHeaderSize)); lia).
  apply IH; [unfold kBlockSize in *; lia|]. rewrite size_drop_z by lia. replace (block_offset_ w2) with kBlockSize by lia.
  change (start kBlockSize =? kBlockSize - kHeaderSize) with false. destruct (Z.eqb_spec s (kBlockSize - kHeaderSize)); lia.
Qed.

Lemma AddRecord_total w r : 0 <= block_offset_ w <= kBlockSize → ∃ s w', AddRecord w r = Some (s, w') ∧ 0 <= block_offset_ w' <= kBlockSize.
Proof. intros Ho. apply AddRecord_loop_total; [done|]. unfold size. destruct (_ =? _); lia. Qed.

Lemma layout_end_nonneg o fs : 0 <= o <= kBlockSize → 0 <= layout_end o fs.
Proof.
  intros [Ho _]. revert o Ho. induction fs as [|[t p] fs IH]; intros o Ho; [done|]. apply IH.
  unfold next, start, kHeaderSize. pose proof (size_nonneg p). zcases; lia.
Qed.

Lemma AddRecords_spec rs : ∀ w c, writer_at w c → 0 <= block_offset_ w <= kBlockSize →
  ∃ fss, Forall2 (record_fragments true) rs fss ∧ fragments_ok (block_offset_ w) (concat fss) ∧
    ∀ n, ∃ w', AddRecords w (take n rs) = Some (Status_OK, w') ∧
      writer_at w' (c ++ layout (block_offset_ w) (concat (take n fss))).
Proof.
  induction rs as [|r rs IH]; intros w c Hw Ho.
  { exists []. split; [constructor|]. split; [done|]. intros n. exists w. rewrite !take_nil. simpl.
    rewrite app_nil_r. done. }
  destruct (AddRecord_spec w c r Hw Ho) as (fs & w1 & E1 & Hw1 & Ho1 & Hok1 & Hrf & Hb).
  destruct (IH w1 _ Hw1) as (fss & Hf2 & Hok2 & Hn).
  { split; [rewrite Ho1; by apply layout_end_nonneg|done]. }
  exists (fs :: fss). split; [by constructor|]. cbn [concat]. rewrite fragments_ok_app, <-Ho1. split; [done|].
  intros [|n]; [exists w; simpl; by rewrite app_nil_r|].
  destruct (Hn n) as (w' & E' & Hw'). exists w'. cbn [take AddRecords concat]. rewrite E1.
  cbn [mbind option_bind ok Status_OK]. split; [exact E'|].
  rewrite layout_app, <-Ho1, app_assoc. exact Hw'.
Qed.

End WriterFacts.

(** ** The reader reads the layout *)

(** A prefix of [a ++ b] that covers [a], and one that does not. *)
Lemma prefix_app_cases {A} (st a b : list A) : st `prefix_of` a ++ b →
  (∃ st', st = a ++ st' ∧ st' `prefix_of` b) ∨ (size st < size a ∧ st `prefix_of` a).
Proof.
  intros [k E]. apply app_eq_inv in E as [(k' & -> & ->)|(k' & -> & ->)].
  - destruct k' as [|x k'].
    + left. exists []. rewrite !app_nil_r. split; [done|apply prefix_nil].
    + right. rewrite size_app, size_cons. pose proof (size_nonneg k'). split; [lia|by exists (x :: k')].
  - left. exists k'. split; [done|by exists k].
Qed.

Section ReaderFacts.
  Context {F : SequentialFile} {L : SequentialFileLaws F}.

(** The reader (from the start of the file, checking checksums) is at offset [o]
    of a block with [st] still to be parsed, and has reported [reps]. *)
Record reading (r : Reader) (o : Z) (st : bytes) (reps : list (Z * Status)) : Prop := {
  rd_valid : svalid (file_ r);
  rd_stream : buffer_ r ++ remaining (file_ r) = st;
  rd_offset : 0 <= o <= kBlockSize;
  rd_eof : if eof_ r then remaining (file_ r) = [] ∧ size (buffer_ r) <= kBlockSize - o
           else size (buffer_ r) = kBlockSize - o;
  rd_initial : initial_offset_ r = 0;
  rd_last : 0 <= last_record_offset_ r;
  rd_resyncing : resyncing_ r = false;
  rd_reports : reports r = reps;
}.

Lemma NewReader_reading f reporter checksum : svalid f →
  reading (NewReader f reporter checksum 0) kBlockSize (remaining f) [].
Proof. intros Hv. split; try done. Qed.

Lemma refill r o st reps f b :
  reading r o st reps → eof_ r = false → SRead kBlockSize (file_ r) = (Ok b, f) →
  size (buffer_ r) < kHeaderSize →
  let r1 := set_file r f b (u64 (end_of_buffer_offset_ r + size b)) in
  reading (if size b <? kBlockSize then set_eof r1 else r1) (start o) (drop_z (size (pad o)) st) reps.
Proof.
  intros [Hv Hst Ho He Hi Hl Hrs Hrp] Heof E Hlt r1. rewrite Heof in He.
  destruct (SRead_law kBlockSize (file_ r) Hv) as (f' & E' & Hv' & Hr'); [unfold kBlockSize; lia|].
  rewrite E in E'. injection E' as -> <-.
  assert (start o = 0 ∧ size (pad o) = size (buffer_ r)) as [-> ->].
  { rewrite size_pad by lia. unfold start. rewrite He in *. rewrite (proj2 (Z.ltb_lt _ _) Hlt). done. }
  rewrite <-Hst, drop_z_app by done. set (b := take_z kBlockSize (remaining (file_ r))) in *.
  assert (b ++ remaining f = remaining (file_ r)) as Hb by (unfold b; rewrite Hr'; apply take_drop_z).
  destruct (Z.ltb_spec (size b) kBlockSize) as [Hs|Hs]; split; simpl; try done.
  - split; [|lia]. rewrite Hr'. by apply drop_z_short.
  - rewrite Heof. assert (size b <= kBlockSize) by (apply size_take_z_le; unfold kBlockSize; lia). lia.
Qed.

(** The physical read either parses a record at the (padded) position or meets
    the end of the file inside a header. *)
Lemma ReadPhysicalRecord_cases r o st reps : reading r o st reps →
  (∃ r1, ReadPhysicalRecord r = Some (ParsePhysicalRecord r1) ∧ kHeaderSize <= size (buffer_ r1) ∧
         reading r1 (start o) (drop_z (size (pad o)) st) reps ∧ checksum_ r1 = checksum_ r) ∨
  (∃ r1, ReadPhysicalRecord r = Some (kEof, [], r1) ∧ reports r1 = reps ∧ resyncing_ r1 = false ∧
         size st < size (pad o) + kHeaderSize).
Proof.
  intros Hr. pose proof Hr as [Hv Hst Ho He Hi Hl Hrs Hrp]. unfold ReadPhysicalRecord. cbn [ReadPhysicalRecord_loop].
  destruct (Z.ltb_spec (size (buffer_ r)) kHeaderSize) as [Hlt|Hge].
  2: { left. exists r. split; [done|]. split; [done|]. split; [|done].
       assert (start o = o ∧ pad o = []) as [-> ->]; [|done]. unfold start, pad.
       destruct (eof_ r); zcases; try done; unfold kHeaderSize in *; lia. }
  destruct (eof_ r) eqn:Heof; simpl.
  { right. eexists. split; [done|]. split; [done|]. split; [done|].
    rewrite <-Hst. destruct He as [-> _]. rewrite app_nil_r. pose proof (size_nonneg (pad o)). lia. }
  destruct (SRead_law kBlockSize (file_ r) Hv) as (f & E & _ & _); [unfold kBlockSize; lia|].
  pose proof (refill r o st reps f _ Hr Heof E Hlt) as H1. cbv zeta in H1. rewrite E.
  set (r1 := if _ <? _ then _ else _) in *.
  destruct (Z.ltb_spec (size (buffer_ r1)) kHeaderSize) as [Hlt1|Hge1].
  - right. assert (eof_ r1 = true) as Heof1.
    { pose proof (rd_eof _ _ _ _ H1) as He1. destruct (eof_ r1); [done|].
      assert (start o = 0) as E0 by (unfold start; rewrite (proj2 (Z.ltb_lt _ _)); lia).
      rewrite E0 in He1. unfold kHeaderSize, kBlockSize in *. lia. }
    rewrite Heof1. simpl. eexists. split; [done|]. split; [apply H1|]. split; [apply H1|].
    pose proof (rd_stream _ _ _ _ H1) as Hs1. pose proof (rd_eof _ _ _ _ H1) as He1. rewrite Heof1 in He1.
    destruct He1 as [He1 _]. rewrite He1, app_nil_r in Hs1. rewrite Hs1 in Hlt1.
    destruct (Z.le_gt_cases (size (pad o)) (size st)).
    + rewrite size_drop_z in Hlt1; [lia|]. split; [apply size_nonneg|done].
    + unfold kHeaderSize in *. lia.
  - left. exists r1. split; [done|]. split; [done|]. split; [done|]. unfold r1. destruct (_ <? _); done.
Qed.

Lemma header_length (p : bytes) : size p < 2 ^ 16 →
  Z.lor (b2z (z2b (Z.land (size p) 255))) (Z.shiftl (b2z (z2b (Z.shiftr (size p) 8))) 8) = size p.
Proof.
  intros Hp. pose proof (size_nonneg p). rewrite land_255, Z.shiftr_div_pow2 by lia.
  rewrite b2z_z2b, Z.mod_mod by lia. change (2 ^ 8) with 256.
  assert (0 <= size p / 256 < 256) by (split; [apply Z.div_pos; lia|apply Z.div_lt_upper_bound; lia]).
  rewrite b2z_z2b_small by done. rewrite lor_shift_add by (pose proof (Z.mod_pos_bound (size p) 256); lia).
  pose proof (Z.div_mod (size p) 256). lia.
Qed.

Lemma type_byte t : u32 (b2sz (z2b (RecordType_to_Z t))) = RecordType_to_Z t.
Proof. by destruct t. Qed.

(** The bytes of the header of a record at the start of a buffer. *)
Lemma header_fields t p rest : size p < 2 ^ 16 →
  let h := header_of t p ++ rest in
  Z.lor (b2z (nth 4 h x00)) (Z.shiftl (b2z (nth 5 h x00)) 8) = size p ∧
  u32 (b2sz (nth 6 h x00)) = RecordType_to_Z t ∧
  crc32c.Unmask (default 0 (DecodeFixed32 h)) = crc32c.Value (z2b (RecordType_to_Z t) :: p) ∧
  drop_z 6 h = z2b (RecordType_to_Z t) :: rest ∧ drop_z kHeaderSize h = rest.
Proof.
  intros Hp h. split; [by apply header_length|]. split; [apply type_byte|]. split; [|done].
  unfold h, header_of. rewrite <-app_assoc, DecodeFixed32_Encode by apply crc32c.Mask_u32.
  apply crc32c.Unmask_Mask, crc32c.Value_u32.
Qed.

Lemma ParsePhysicalRecord_whole r o st reps t p rest :
  reading r o (header_of t p ++ p ++ st) reps → st `prefix_of` rest → t ≠ kZeroType →
  o + kHeaderSize + size p <= kBlockSize → kHeaderSize <= size (buffer_ r) →
  ∃ r', ParsePhysicalRecord r = (RecordType_to_Z t, p, r') ∧
        reading r' (o + kHeaderSize + size p) st reps.
Proof.
  intros Hr Hst Ht Hfit Hbuf. pose proof Hr as [Hv Hs Ho He Hi Hl Hrs Hrp].
  pose proof (size_nonneg p) as Hp0.
  assert (∃ b', buffer_ r = header_of t p ++ p ++ b' ∧ st = b' ++ remaining (file_ r)) as (b' & Hb & Hst').
  { assert (kHeaderSize + size p <= size (buffer_ r)).
    { destruct (eof_ r); [|lia]. destruct He as [Hrem _]. rewrite Hrem, app_nil_r in Hs.
      rewrite Hs, !size_app, size_header_of. pose proof (size_nonneg st). lia. }
    rewrite app_assoc in Hs. apply app_eq_inv in Hs as [(k & E1 & E2)|(k & E1 & E2)].
    { exists k. rewrite app_assoc. done. }
    - assert (k = []) as ->.
      { assert (size (header_of t p ++ p) = size (buffer_ r) + size k) as E by (rewrite E1, size_app; done).
        rewrite size_app, size_header_of in E. destruct k as [|x k]; [done|]. rewrite size_cons in E.
        pose proof (size_nonneg k). lia. }
      exists []. rewrite app_nil_r in E1 |- *. split; [exact (eq_sym E1)|exact (eq_sym E2)]. }
  assert (size p < 2 ^ 16) as Hp by (unfold kBlockSize, kHeaderSize in *; lia).
  unfold ParsePhysicalRecord. rewrite Hb.
  destruct (header_fields t p (p ++ b') Hp) as (E1 & E2 & E3 & E4 & E5). rewrite E1, E2, E3, E4, E5.
  assert (size (header_of t p ++ p ++ b') = kHeaderSize + size p + size b') as Esz
    by (rewrite !size_app, size_header_of; lia).
  pose proof (size_nonneg b') as Hb0. rewrite Esz. destruct (Z.gtb_spec (kHeaderSize + size p) (kHeaderSize + size p + size b')); [lia|].
  assert ((RecordType_to_Z t =? RecordType_to_Z kZeroType) = false) as -> by (by destruct t). cbn [andb].
  replace (take_z (1 + size p) (z2b (RecordType_to_Z t) :: p ++ b')) with (z2b (RecordType_to_Z t) :: p).
  2: { change (z2b (RecordType_to_Z t) :: p ++ b') with ((z2b (RecordType_to_Z t) :: p) ++ b').
       symmetry. apply take_z_app. rewrite size_cons. done. }
  rewrite Z.eqb_refl. cbn [negb]. rewrite andb_false_r.
  cbn [set_buffer buffer_ end_of_buffer_offset_ initial_offset_]. rewrite Hi.
  destruct (Z.ltb_spec (u64 (end_of_buffer_offset_ r - size (drop_z (kHeaderSize + size p) (header_of t p ++ p ++ b')) -
    kHeaderSize - size p)) 0) as [Hneg|_].
  { pose proof (u64_range (end_of_buffer_offset_ r - size (drop_z (kHeaderSize + size p) (header_of t p ++ p ++ b')) -
    kHeaderSize - size p)). range_lia. }
  eexists. split; [rewrite take_z_app by done; reflexivity|].
  rewrite app_assoc, drop_z_app by (rewrite size_app, size_header_of; done).
  split; simpl; try done.
  - pose proof (size_nonneg (pad o)). unfold kHeaderSize, kBlockSize in *. lia.
  - rewrite Hb, Esz in He. destruct (eof_ r); [split; [apply He|]|]; lia.
Qed.

(** A record cut off by the end of the file. *)
Lemma ParsePhysicalRecord_cut r o st reps t p :
  reading r o st reps → st `prefix_of` header_of t p ++ p → size st < kHeaderSize + size p →
  o + kHeaderSize + size p <= kBlockSize → kHeaderSize <= size (buffer_ r) →
  ∃ r', ParsePhysicalRecord r = (kEof, [], r') ∧ reports r' = reps ∧ resyncing_ r' = false.
Proof.
  intros Hr Hpre Hlt Hfit Hbuf. pose proof Hr as [Hv Hs Ho He Hi Hl Hrs Hrp].
  destruct (eof_ r) eqn:Heof.
  2: { rewrite <-Hs, size_app in Hlt. pose proof (size_nonneg (remaining (file_ r))). lia. }
  destruct He as [Hrem _]. rewrite Hrem, app_nil_r in Hs. rewrite Hs in Hbuf.
  apply prefix_app_cases in Hpre as [(b' & Eb & _)|[? _]]; [|rewrite size_header_of in *; lia].
  assert (size p < 2 ^ 16) as Hp by (unfold kBlockSize, kHeaderSize in *; lia).
  unfold ParsePhysicalRecord. rewrite Hs, Eb.
  destruct (header_fields t p b' Hp) as (-> & _).
  rewrite <-Eb. destruct (Z.gtb_spec (kHeaderSize + size p) (size st)); [|lia].
  cbn [set_buffer eof_]. rewrite Heof. eexists. split; [done|]. done.
Qed.

Lemma ReadPhysicalRecord_next r o st reps t p fs :
  reading r o st reps → st `prefix_of` layout o ((t, p) :: fs) → fragments_ok o ((t, p) :: fs) →
  (∃ st' r', st = (pad o ++ header_of t p ++ p) ++ st' ∧ st' `prefix_of` layout (next o p) fs ∧
     ReadPhysicalRecord r = Some (RecordType_to_Z t, p, r') ∧ reading r' (next o p) st' reps) ∨
  (size st < size (pad o ++ header_of t p ++ p) ∧
   ∃ r', ReadPhysicalRecord r = Some (kEof, [], r') ∧ reports r' = reps ∧ resyncing_ r' = false).
Proof.
  intros Hr Hpre (Ht & Hfit & Hok). cbn [layout] in Hpre. rewrite !size_app, size_header_of.
  pose proof (size_nonneg p) as Hp0. unfold next in Hfit.
  destruct (ReadPhysicalRecord_cases _ _ _ _ Hr) as [(r1 & E1 & Hb & Hr1 & _)|(r1 & E1 & Hrp & Hrs & Hlt)].
  2: { right. split; [lia|]. eauto. }
  apply prefix_app_cases in Hpre as [(st1 & -> & Hpre)|[Hlt _]].
  2: { rewrite drop_z_ge in Hr1 by lia. pose proof (rd_stream _ _ _ _ Hr1) as Hs1.
       apply app_eq_nil in Hs1 as [Hnil _]. rewrite Hnil in Hb. unfold kHeaderSize in Hb. change (size []) with 0 in Hb. lia. }
  rewrite drop_z_app in Hr1 by done. rewrite app_assoc in Hpre.
  apply prefix_app_cases in Hpre as [(st' & -> & Hpre)|[Hlt Hpre]].
  - left. rewrite <-app_assoc in Hr1.
    destruct (ParsePhysicalRecord_whole r1 _ st' reps t p _ Hr1 Hpre Ht Hfit Hb) as (r' & E2 & Hr').
    exists st', r'. split; [by rewrite <-!app_assoc|]. split; [done|]. rewrite E1, E2. done.
  - right. rewrite size_app, size_header_of in Hlt. split; [rewrite size_app; lia|].
    destruct (ParsePhysicalRecord_cut r1 _ st1 reps t p Hr1 Hpre Hlt Hfit Hb) as (r' & E2 & H2).
    exists r'. rewrite E1, E2. done.
Qed.

Lemma reading_set_last r o st reps n : 0 <= n → reading r o st reps → reading (set_last r n) o st reps.
Proof. intros Hn [? ? ? ? ? ? ? ?]. by split. Qed.

(** Reading the fragments of one record: all of them are in the stream, or the
    stream ends within them. *)
Lemma ReadRecord_loop_record begin rec fs : record_fragments begin rec fs → ∀ fuel r o st reps more scratch po,
  reading r o st reps → st `prefix_of` layout o (fs ++ more) → fragments_ok o (fs ++ more) →
  (length fs < fuel)%nat → 0 <= po →
  (∃ st' r', st = layout o fs ++ st' ∧ st' `prefix_of` layout (layout_end o fs) more ∧
     ReadRecord_loop fuel r scratch (negb begin) po = Some (Some ((if begin then [] else scratch) ++ rec), r') ∧
     reading r' (layout_end o fs) st' reps) ∨
  (size st < size (layout o fs) ∧
   ∃ r', ReadRecord_loop fuel r scratch (negb begin) po = Some (None, r') ∧ reports r' = reps).
Proof.
  induction 1 as [begin p|begin p rest fs Hrf IH];
    intros fuel r o st reps more scratch po Hr Hpre Hok Hfuel Hpo; (destruct fuel as [|fuel]; [simpl in Hfuel; lia|]);
    cbn [app ReadRecord_loop]; pose proof Hok as (_ & _ & Hok');
    destruct (ReadPhysicalRecord_next _ _ _ _ _ _ _ Hr Hpre Hok)
      as [(st1 & r1 & -> & Hpre1 & E1 & Hr1)|(Hlt & r1 & E1 & Hrp & Hrs)];
    rewrite E1; cbn [mbind option_bind].
  - left. exists st1. rewrite (rd_resyncing _ _ _ _ Hr1). cbn [andb layout layout_end]. rewrite app_nil_r.
    destruct begin; cbn [fragment_type negb andb]; eexists; (split; [done|split; [done|split; [reflexivity|]]]);
      apply reading_set_last; try done. apply u64_range.
  - right. cbn [layout]. rewrite app_nil_r. split; [done|]. rewrite Hrs. eexists. split; [reflexivity|done].
  - rewrite (rd_resyncing _ _ _ _ Hr1). cbn [andb].
    assert (0 <= u64 (end_of_buffer_offset_ r1 - size (buffer_ r1) - kHeaderSize - size p)) as Hpo' by apply u64_range.
    cbn [length] in Hfuel.
    destruct begin; cbn [fragment_type negb andb layout layout_end].
    + destruct (IH fuel r1 _ _ _ more p _ Hr1 Hpre1 Hok' ltac:(lia) Hpo') as [(st' & r' & -> & Hp' & E' & Hr')|(Hlt & r' & E' & Hrp)].
      * left. exists st', r'. rewrite <-!app_assoc. done.
      * right. split; [rewrite !size_app in *; lia|]. exists r'. done.
    + destruct (IH fuel r1 _ _ _ more (scratch ++ p) po Hr1 Hpre1 Hok' ltac:(lia) Hpo) as [(st' & r' & -> & Hp' & E' & Hr')|(Hlt & r' & E' & Hrp)].
      * left. exists st', r'. rewrite <-!app_assoc in *. done.
      * right. split; [rewrite !size_app in *; lia|]. exists r'. done.
  - right. cbn [layout]. split; [rewrite !size_app in *; pose proof (size_nonneg (layout (next o p) fs)); lia|].
    rewrite Hrs. eexists. split; [reflexivity|done].
Qed.

Lemma ReadRecord_start fuel r o st reps : reading r o st reps → ReadRecord fuel r = ReadRecord_loop fuel r [] false 0.
Proof.
  intros Hr. unfold ReadRecord. rewrite (rd_initial _ _ _ _ Hr).
  pose proof (rd_last _ _ _ _ Hr). destruct (Z.ltb_spec (last_record_offset_ r) 0); [lia|done].
Qed.

Lemma ReadRecord_end fuel r o reps : reading r o [] reps → (0 < fuel)%nat →
  ∃ r', ReadRecord fuel r = Some (None, r') ∧ reports r' = reps.
Proof.
  intros Hr Hfuel. rewrite (ReadRecord_start _ _ _ _ _ Hr). destruct fuel as [|fuel]; [lia|]. cbn [ReadRecord_loop].
  destruct (ReadPhysicalRecord_cases _ _ _ _ Hr) as [(r1 & E1 & Hb & Hr1 & _)|(r1 & E1 & Hrp & Hrs & Hlt)].
  - pose proof (rd_stream _ _ _ _ Hr1) as Hs1. rewrite drop_z_ge in Hs1 by apply size_nonneg.
    apply app_eq_nil in Hs1 as [Hnil _]. rewrite Hnil in Hb. unfold kHeaderSize in Hb. change (size []) with 0 in Hb. lia.
  - rewrite E1. cbn [mbind option_bind]. rewrite Hrs. eexists. split; [reflexivity|done].
Qed.

(** The whole stream: the records that are complete in it, then the end. *)
Lemma ReadRecords_stream fuel rs fss : Forall2 (record_fragments true) rs fss → ∀ n r o st reps,
  reading r o st reps → st `prefix_of` layout o (concat fss) → fragments_ok o (concat fss) →
  (∀ fs, fs ∈ fss → (length fs < fuel)%nat) → (0 < fuel)%nat → (length rs < n)%nat →
  ∃ k r', ReadRecords n fuel r = Some (take k rs, r') ∧ reports r' = reps ∧ (k <= length rs)%nat ∧
    size (layout o (concat (take k fss))) <= size st ∧
    ((k < length rs)%nat → size st < size (layout o (concat (take (S k) fss)))).
Proof.
  induction 1 as [|rec fs rs fss Hrf Hf IH]; intros n r o st reps Hr Hpre Hok Hfuel Hf0 Hn;
    (destruct n as [|n]; [simpl in Hn; lia|]); cbn [ReadRecords].
  - destruct (ReadRecord_end fuel r o reps) as (r' & E & Hrp); [|done|].
    { apply prefix_nil_inv in Hpre. by rewrite Hpre in Hr. }
    rewrite E. cbn [mbind option_bind]. exists 0%nat, r'. simpl. split_and!; try done; [apply size_nonneg|lia].
  - rewrite (ReadRecord_start _ _ _ _ _ Hr). cbn [concat] in *.
    destruct (ReadRecord_loop_record _ _ _ Hrf fuel r o st reps (concat fss) [] 0 Hr Hpre Hok)
      as [(st' & r1 & -> & Hp' & E' & Hr')|(Hlt & r1 & E' & Hrp)]; [apply Hfuel; left|done| |];
      cbn [negb] in E'; rewrite E'; cbn [mbind option_bind].
    + apply fragments_ok_app in Hok as [_ Hok].
      destruct (IH n r1 _ st' reps Hr' Hp' Hok) as (k & r2 & E2 & Hrp & Hk & Hge & Hlt);
        [intros; apply Hfuel; by right|done|simpl in Hn; lia|].
      rewrite E2. cbn [mbind option_bind]. exists (S k), r2. cbn [take concat length]. rewrite !layout_app, !size_app.
      split_and!; [done|done|lia|lia|]. intros Hk'. assert (k < length rs)%nat as Hk2 by lia. specialize (Hlt Hk2).
      cbn [take] in Hlt. lia.
    + exists 0%nat, r1. cbn [take concat length layout]. rewrite app_nil_r. split_and!; [done|done|lia|apply size_nonneg|done].
Qed.

End ReaderFacts.

(** ** Logs *)

Lemma layout_block fs : layout kBlockSize fs = layout 0 fs ∧ layout_end 0 fs <= layout_end kBlockSize fs ∧
  (fragments_ok kBlockSize fs ↔ fragments_ok 0 fs) ∧ (fs ≠ [] → layout_end kBlockSize fs = layout_end 0 fs).
Proof. destruct fs as [|[t p] fs]; done. Qed.

(** Fragments take up room. *)
Lemma length_fragments fs : ∀ o, Z.of_nat (length fs) <= size (layout o fs).
Proof.
  induction fs as [|[t p] fs IH]; intros o; [done|]. cbn [layout length]. rewrite !size_app, size_header_of.
  specialize (IH (next o p)). unfold kHeaderSize. pose proof (size_nonneg (pad o)). pose proof (size_nonneg p). lia.
Qed.

(** The contents of a log file that holds these records. *)
Definition logged (c : bytes) (rs : list bytes) (fss : list (list fragment)) : Prop :=
  Forall2 (record_fragments true) rs fss ∧ fragments_ok 0 (concat fss) ∧ c = layout 0 (concat fss).

(** The offset in the block is the size of the file modulo the block size. *)
Lemma layout_end_mod fs : ∀ o, 0 <= o <= kBlockSize → fragments_ok o fs →
  (o + size (layout o fs)) mod kBlockSize = layout_end o fs mod kBlockSize ∧ 0 <= layout_end o fs <= kBlockSize.
Proof.
  induction fs as [|[t p] fs IH]; intros o Ho Hok; [cbn [layout layout_end]; change (size []) with 0; by rewrite Z.add_0_r|].
  destruct Hok as (_ & Hfit & Hok). cbn [layout layout_end].
  destruct (IH (next o p)) as [E Hr]; [|done|].
  { split; [|done]. unfold next. pose proof (start_range _ Ho). pose proof (size_nonneg p). unfold kHeaderSize. lia. }
  split; [|done]. rewrite <-E, !size_app, size_header_of, size_pad by lia. unfold next, start.
  destruct (kBlockSize - o <? kHeaderSize); [|f_equal; lia].
  rewrite <-(Z_mod_plus_full (0 + kHeaderSize + size p + _) 1). f_equal. lia.
Qed.

Lemma layout_mod fs gs : fragments_ok 0 fs →
  let o := size (layout 0 fs) mod kBlockSize in
  layout o gs = layout (layout_end 0 fs) gs ∧ (fragments_ok o gs ↔ fragments_ok (layout_end 0 fs) gs).
Proof.
  intros Hok o. destruct (layout_end_mod fs 0) as [E Hr]; [unfold kBlockSize; lia|done|].
  unfold o. rewrite Z.add_0_l in E. rewrite E.
  destruct (Z.eq_dec (layout_end 0 fs) kBlockSize) as [->|Hne].
  - rewrite Z.mod_same by done. pose proof (layout_block gs) as (-> & _ & -> & _). done.
  - rewrite Z.mod_small by lia. done.
Qed.

Section Logs.
  Context {W : WritableFile} {LW : WritableFileLaws W} {F : SequentialFile} {LF : SequentialFileLaws F}.

(** A writing session on an existing log, and a sequence of sessions. *)
Definition write_session (f : wfile) (records : list bytes) : option (Status * wfile) :=
  '(s, w) ← AddRecords (NewWriterAt f (size (wcontents f))) records; Some (s, dest_ w).

Fixpoint write_sessions (f : wfile) (sessions : list (list bytes)) : option wfile :=
  match sessions with
  | [] => Some f
  | records :: sessions => '(_, f) ← write_session f records; write_sessions f sessions
  end.

Lemma write_session_spec f c rs fss records : wvalid f → wcontents f = c → logged c rs fss →
  ∃ f' gss, write_session f records = Some (Status_OK, f') ∧ wvalid f' ∧
    logged (wcontents f') (rs ++ records) (fss ++ gss).
Proof.
  intros Hv Hc (Hf & Hok & Hl). unfold write_session. rewrite Hc.
  destruct (AddRecords_spec records (NewWriterAt f (size c)) c) as (gss & Hg & Hgok & Hn).
  { done. }
  { simpl. pose proof (Z.mod_pos_bound (size c) kBlockSize eq_refl). lia. }
  destruct (Hn (length records)) as (w' & E & Hv' & Hc' & _). rewrite firstn_all in E. rewrite E.
  rewrite (Forall2_length _ _ _ Hg), firstn_all in Hc'. cbn [mbind option_bind NewWriterAt block_offset_] in *.
  pose proof (layout_mod (concat fss) (concat gss) Hok) as [E1 E2]. rewrite <-Hl in E1, E2.
  exists (dest_ w'), gss. split; [done|]. split; [done|]. split; [by apply Forall2_app|].
  rewrite concat_app, fragments_ok_app, layout_app, <-E1, <-E2, <-Hl. done.
Qed.

Lemma write_sessions_spec sessions : ∀ f c rs fss, wvalid f → wcontents f = c → logged c rs fss →
  ∃ f' gss, write_sessions f sessions = Some f' ∧ wvalid f' ∧
    logged (wcontents f') (rs ++ concat sessions) gss.
Proof.
  induction sessions as [|records sessions IH]; intros f c rs fss Hv Hc Hl.
  { exists f, fss. rewrite app_nil_r. subst c. done. }
  destruct (write_session_spec f c rs fss records Hv Hc Hl) as (f1 & gss & E1 & Hv1 & Hl1).
  destruct (IH f1 _ _ _ Hv1 eq_refl Hl1) as (f2 & hss & E2 & Hv2 & Hl2).
  exists f2, hss. cbn [write_sessions concat]. rewrite E1. cbn [mbind option_bind]. rewrite app_assoc. done.
Qed.

(** Reading a prefix of a log. *)
Lemma read_logged c rs fss f reporter checksum (n fuel : nat) :
  logged c rs fss → svalid f → remaining f `prefix_of` c → (length rs < n)%nat → (length c < fuel)%nat →
  ∃ k r, ReadRecords n fuel (NewReader f reporter checksum 0) = Some (take k rs, r) ∧ reports r = [] ∧
    (k <= length rs)%nat ∧ size (layout 0 (concat (take k fss))) <= size (remaining f) ∧
    ((k < length rs)%nat → size (remaining f) < size (layout 0 (concat (take (S k) fss)))).
Proof.
  intros (Hf & Hok & Hc) Hv Hpre Hn Hfuel.
  destruct (ReadRecords_stream fuel rs fss Hf n (NewReader f reporter checksum 0) kBlockSize (remaining f) [])
    as (k & r & H); [by apply NewReader_reading| | | |lia|done|].
  - pose proof (layout_block (concat fss)) as (-> & _). by rewrite <-Hc.
  - by apply layout_block.
  - intros fs Hin. apply list_elem_of_lookup_1 in Hin as [i Hi].
    apply take_drop_middle in Hi. assert (length fs <= length (concat fss))%nat.
    { rewrite <-Hi, concat_app, concat_cons, !length_app. lia. }
    pose proof (length_fragments (concat fss) 0) as Hlen. rewrite <-Hc in Hlen. unfold size in Hlen. lia.
  - exists k, r. rewrite <-!(proj1 (layout_block _)). exact H.
Qed.

End Logs.

(** ** Reading arbitrary bytes *)

Section Total.
  Context {F : SequentialFile} {L : SequentialFileLaws F}.

(** What is left to parse. *)
Definition unread (r : Reader) : Z := size (buffer_ r) + size (remaining (file_ r)).

Lemma ReportDrop_unread r n s :
  unread (ReportDrop r n s) = unread r ∧ file_ (ReportDrop r n s) = file_ r ∧ buffer_ (ReportDrop r n s) = buffer_ r.
Proof. unfold ReportDrop. by destruct (_ && _). Qed.

Lemma ParsePhysicalRecord_consumes r t p r' :
  ParsePhysicalRecord r = (t, p, r') → kHeaderSize <= size (buffer_ r) →
  unread r' < unread r ∧ file_ r' = file_ r.
Proof.
  unfold ParsePhysicalRecord. intros E Hb. set (len := Z.lor _ _) in E.
  assert (0 <= len) as Hlen.
  { apply Z.lor_nonneg. split; [apply b2z_range|apply Z.shiftl_nonneg, b2z_range]. }
  unfold kHeaderSize in *. revert E.
  destruct (Z.gtb_spec (4 + 2 + 1 + len) (size (buffer_ r))) as [Hgt|Hle].
  { destruct (negb _); intros [= <- <- <-]; unfold ReportCorruption;
      rewrite ?(proj1 (ReportDrop_unread _ _ _)), ?(proj1 (proj2 (ReportDrop_unread _ _ _)));
      unfold unread; simpl; (split; [|done]); change (size []) with 0; lia. }
  destruct (_ && (len =? 0)).
  { intros [= <- <- <-]. unfold unread. simpl. split; [|done]. change (size []) with 0. lia. }
  destruct (checksum_ r && _).
  { intros [= <- <- <-]. unfold ReportCorruption.
    rewrite (proj1 (ReportDrop_unread _ _ _)), (proj1 (proj2 (ReportDrop_unread _ _ _))).
    unfold unread. simpl. split; [|done]. change (size []) with 0. lia. }
  assert (unread (set_buffer r (drop_z (4 + 2 + 1 + len) (buffer_ r))) < unread r).
  { unfold unread. simpl. rewrite size_drop_z by lia. lia. }
  destruct (_ <? initial_offset_ _); intros [= <- <- <-]; done.
Qed.

Lemma ReadPhysicalRecord_total r : svalid (file_ r) →
  ∃ t p r', ReadPhysicalRecord r = Some (t, p, r') ∧ svalid (file_ r') ∧ (t = kEof ∨ unread r' < unread r).
Proof.
  intros Hv. unfold ReadPhysicalRecord. cbn [ReadPhysicalRecord_loop].
  destruct (Z.ltb_spec (size (buffer_ r)) kHeaderSize) as [Hlt|Hge].
  2: { destruct (ParsePhysicalRecord r) as [[t p] r'] eqn:E. exists t, p, r'. split; [done|].
       destruct (ParsePhysicalRecord_consumes _ _ _ _ E Hge) as [? ->]. auto. }
  destruct (eof_ r) eqn:He; simpl; [eexists _, _, _; split; [done|]; auto|].
  destruct (SRead_law kBlockSize (file_ r) Hv) as (f & E & Hv' & Hr'); [unfold kBlockSize; lia|]. rewrite E.
  set (b := take_z kBlockSize (remaining (file_ r))) in *.
  set (r1 := if size b <? kBlockSize then _ else _).
  assert (svalid (file_ r1) ∧ buffer_ r1 = b ∧ remaining (file_ r1) = drop_z kBlockSize (remaining (file_ r)) ∧
    (size b < kBlockSize → eof_ r1 = true)) as (Hv1 & Hb1 & Hr1 & He1).
  { unfold r1. destruct (Z.ltb_spec (size b) kBlockSize); simpl; (split; [done|]); (split; [done|]); (split; [done|]); [done|lia]. }
  assert (unread r1 <= unread r) as Hu.
  { unfold unread. rewrite Hb1, Hr1. pose proof (size_nonneg (buffer_ r)).
    rewrite <-(take_drop_z (remaining (file_ r)) kBlockSize) at 2. rewrite size_app. fold b. lia. }
  destruct (Z.ltb_spec (size (buffer_ r1)) kHeaderSize) as [Hlt1|Hge1].
  - rewrite He1 by (rewrite <-Hb1; unfold kHeaderSize, kBlockSize in *; lia). simpl.
    eexists _, _, _. split; [done|]. auto.
  - destruct (ParsePhysicalRecord r1) as [[t p] r'] eqn:Ep. exists t, p, r'. split; [done|].
    destruct (ParsePhysicalRecord_consumes _ _ _ _ Ep Hge1) as [? ->]. split; [done|right; lia].
Qed.

Lemma unread_nonneg r : 0 <= unread r.
Proof. unfold unread. pose proof (size_nonneg (buffer_ r)). pose proof (size_nonneg (remaining (file_ r))). lia. Qed.

(** Updates that keep the stream. *)
Definition same_stream (r r' : Reader) : Prop := file_ r' = file_ r ∧ buffer_ r' = buffer_ r.

Lemma same_ReportCorruption r0 r n s : same_stream r0 r → same_stream r0 (ReportCorruption r n s).
Proof.
  intros [Ef Eb]. unfold ReportCorruption. destruct (ReportDrop_unread r n (Corruption s [])) as (_ & E1 & E2).
  split; congruence.
Qed.

Lemma ReadRecord_loop_total fuel : ∀ r scratch frag po, svalid (file_ r) → unread r < Z.of_nat fuel →
  is_Some (ReadRecord_loop fuel r scratch frag po).
Proof.
  induction fuel as [|fuel IH]; intros r scratch frag po Hv Hfuel; [pose proof (unread_nonneg r); lia|].
  cbn [ReadRecord_loop]. destruct (ReadPhysicalRecord_total r Hv) as (t & p & r1 & -> & Hv1 & Ht).
  cbn [mbind option_bind].
  assert (t ≠ kEof → ∀ r2 s f o, same_stream r1 r2 → is_Some (ReadRecord_loop fuel r2 s f o)) as Hgo.
  { intros Hne r2 s f o [Ef Eb]. apply IH; [by rewrite Ef|]. destruct Ht as [Ht|Ht]; [done|].
    unfold unread in *. rewrite Ef, Eb. lia. }
  destruct (Z.eqb_spec t (RecordType_to_Z kMiddleType)) as [->|H3];
    [|destruct (Z.eqb_spec t (RecordType_to_Z kLastType)) as [->|H4];
    [|destruct (Z.eqb_spec t (RecordType_to_Z kFullType)) as [->|H1];
    [|destruct (Z.eqb_spec t (RecordType_to_Z kFirstType)) as [->|H2];
    [|destruct (Z.eqb_spec t kEof) as [->|H5]]]]].
  all: destruct (resyncing_ r1); simpl; try (by eauto);
    repeat case_match; try (by eauto); try (apply Hgo; [done|]); try done; by apply same_ReportCorruption.
Qed.

End Total.

(** ** Properties *)

(** C27: what is written to a log is read back: after any number of writing
    sessions on a file that was empty at first (each opened at the end of the
    file), the reader returns all records of all sessions in order and then the
    end, with or without checksum verification, and reports no corruption. *)
Theorem log_roundtrip (W : WritableFile) (LW : WritableFileLaws W) (F : SequentialFile) (LF : SequentialFileLaws F)
    (f : wfile) (sessions : list (list bytes)) (reporter checksum : bool) :
  wvalid f → wcontents f = [] →
  ∃ f', write_sessions f sessions = Some f' ∧
    ∀ sf, svalid sf → remaining sf = wcontents f' →
    ∃ r, ReadRecords (S (length (concat sessions))) (S (length (wcontents f')))
           (NewReader sf reporter checksum 0) = Some (concat sessions, r) ∧ reports r = [].
Proof.
  intros Hv Hc. destruct (write_sessions_spec sessions f [] [] [] Hv Hc) as (f' & fss & E & _ & Hl).
  { split; [constructor|done]. }
  exists f'. split; [exact E|]. intros sf Hsv Hrem. cbn [app] in Hl.
  destruct (read_logged _ _ _ sf reporter checksum (S (length (concat sessions))) (S (length (wcontents f'))) Hl Hsv)
    as (k & r & Er & Hrp & Hk & _ & Hlt); [by rewrite Hrem|lia|lia|].
  exists r. split; [|exact Hrp]. rewrite Er. rewrite take_ge; [done|].
  destruct (Nat.lt_ge_cases k (length (concat sessions))) as [Hlt'|]; [|done]. specialize (Hlt Hlt').
  destruct Hl as (_ & _ & Hc'). rewrite Hrem, Hc' in Hlt.
  rewrite <-(take_drop (S k) fss) in Hlt at 1. rewrite concat_app, layout_app, size_app in Hlt.
  pose proof (size_nonneg (layout (layout_end 0 (concat (take (S k) fss))) (concat (drop (S k) fss)))). lia.
Qed.

Lemma log_roundtrip_witness :
  ∃ f', write_sessions FileState.NewFileState [[[x61]; []]; [[x62; x63]]] = Some f' ∧
    ∃ r, ReadRecords 4 (S (length (FileState.contents f'))) (NewReader (NewSequentialFileImpl f') true true 0)
         = Some ([[x61]; []; [x62; x63]], r) ∧ reports r = [].
Proof.
  destruct (log_roundtrip WritableFileImpl WritableFileImpl_laws SequentialFileImpl_file SequentialFileImpl_laws FileState.NewFileState
    [[[x61]; []]; [[x62; x63]]] true true NewFileState_ok eq_refl) as (f' & E & H).
  exists f'. split; [exact E|]. assert (FileState.file_ok f') as Hok.
  { destruct (write_sessions_spec (W := WritableFileImpl) (LW := WritableFileImpl_laws) [[[x61]; []]; [[x62; x63]]] FileState.NewFileState [] [] []
      NewFileState_ok eq_refl) as (f2 & fss & E2 & Hok & _); [split; [constructor|done]|].
    rewrite E in E2. injection E2 as ->. exact Hok. }
  apply (H (NewSequentialFileImpl f')); [|done]. split; [exact Hok|]. cbn [pos_ NewSequentialFileImpl Env.file_].
  split; [lia|apply Hok].
Defined.

(** C26: a log cut off at any byte (a crash of the writer) loses only the records
    that were not complete: the reader returns exactly the records whose writing
    had ended within the first [k] bytes, and reports no corruption. *)
Theorem log_truncation (W : WritableFile) (LW : WritableFileLaws W) (F : SequentialFile) (LF : SequentialFileLaws F)
    (f : wfile) (records : list bytes) (k : Z) (reporter checksum : bool) :
  wvalid f → wcontents f = [] → 0 <= k →
  ∃ w, AddRecords (NewWriter f) records = Some (Status_OK, w) ∧
    ∀ sf, svalid sf → remaining sf = take_z k (wcontents (dest_ w)) →
    ∃ n r, ReadRecords (S (length records)) (S (length (wcontents (dest_ w)))) (NewReader sf reporter checksum 0)
             = Some (take n records, r) ∧ reports r = [] ∧ (n <= length records)%nat ∧
      (∃ w1, AddRecords (NewWriter f) (take n records) = Some (Status_OK, w1) ∧ size (wcontents (dest_ w1)) <= k) ∧
      ((n < length records)%nat →
       ∃ w2, AddRecords (NewWriter f) (take (S n) records) = Some (Status_OK, w2) ∧ k < size (wcontents (dest_ w2))).
Proof.
  intros Hv Hc Hk0.
  destruct (AddRecords_spec records (NewWriter f) []) as (fss & Hf & Hok & Hn); [done|simpl; unfold kBlockSize; lia|].
  destruct (Hn (length records)) as (w & E & _ & Hw & _). rewrite firstn_all in E.
  rewrite (Forall2_length _ _ _ Hf), firstn_all in Hw. cbn [app NewWriter block_offset_] in *.
  exists w. split; [exact E|]. intros sf Hsv Hrem.
  assert (remaining sf `prefix_of` wcontents (dest_ w)) as Hpre by (rewrite Hrem; apply prefix_take).
  destruct (read_logged (wcontents (dest_ w)) records fss sf reporter checksum (S (length records))
    (S (length (wcontents (dest_ w)))) ltac:(done) Hsv Hpre) as (n & r & Er & Hrp & Hnl & Hge & Hlt); [lia|lia|].
  exists n, r. split; [exact Er|]. split; [exact Hrp|]. split; [exact Hnl|]. rewrite Hrem in Hge, Hlt. split.
  - destruct (Hn n) as (w1 & E1 & _ & Hw1 & _). exists w1. split; [exact E1|]. rewrite Hw1.
    pose proof (size_take_z_le k (wcontents (dest_ w)) Hk0). lia.
  - intros Hlt'. specialize (Hlt Hlt'). destruct (Hn (S n)) as (w2 & E2 & _ & Hw2 & _). exists w2.
    split; [exact E2|]. rewrite Hw2.
    destruct (Z.le_gt_cases k (size (wcontents (dest_ w)))); [rewrite size_take_z in Hlt by lia; lia|].
    rewrite take_z_ge in Hlt by lia. exfalso. rewrite Hw in Hlt.
    rewrite <-(take_drop (S n) fss) in Hlt at 1. rewrite concat_app, layout_app, size_app in Hlt.
    pose proof (size_nonneg (layout (layout_end 0 (concat (take (S n) fss))) (concat (drop (S n) fss)))). lia.
Qed.

Lemma log_truncation_witness :
  ∃ w, AddRecords (NewWriter FileState.NewFileState) [[x61]; [x62; x63]] = Some (Status_OK, w) ∧
    ∀ sf : sfile, svalid sf → remaining sf = take_z 10 (FileState.contents (dest_ w)) →
    ∃ n r, ReadRecords 3 (S (length (FileState.contents (dest_ w)))) (NewReader sf true true 0)
             = Some (take n [[x61]; [x62; x63]], r) ∧ reports r = [].
Proof.
  destruct (log_truncation WritableFileImpl WritableFileImpl_laws SequentialFileImpl_file SequentialFileImpl_laws FileState.NewFileState
    [[x61]; [x62; x63]] 10 true true NewFileState_ok eq_refl ltac:(lia)) as (w & E & H).
  exists w. split; [exact E|]. intros sf Hv Hr. destruct (H sf Hv Hr) as (n & r & H1 & H2 & _). eauto.
Defined.

(** C29: a record whose payload was altered within four consecutive bytes is never
    returned by a checking reader: the physical read yields a bad record, drops
    the rest of the block and reports the dropped bytes as a checksum mismatch. *)
Theorem log_detects_corruption (F : SequentialFile) (r : Reader) (t : RecordType) (a w w' z rest : bytes) :
  checksum_ r = true → t ≠ kZeroType → length w = 4%nat → length w' = 4%nat → w ≠ w' →
  size (a ++ w ++ z) < 2 ^ 16 →
  buffer_ r = header_of t (a ++ w ++ z) ++ a ++ w' ++ z ++ rest →
  ReadPhysicalRecord r =
    Some (kBadRecord, [], ReportDrop (set_buffer r []) (size (buffer_ r)) (Corruption (bs "checksum mismatch") [])).
Proof.
  intros Hck Ht Hw Hw' Hne Hsz Hb. unfold ReadPhysicalRecord. cbn [ReadPhysicalRecord_loop].
  assert (size w = size w') as Eww by (unfold size; lia).
  assert (kHeaderSize + size (a ++ w ++ z) <= size (buffer_ r)) as Hlen.
  { rewrite Hb, !size_app, size_header_of, Eww. pose proof (size_nonneg rest). lia. }
  pose proof (size_nonneg (a ++ w ++ z)) as Hp0.
  destruct (Z.ltb_spec (size (buffer_ r)) kHeaderSize); [lia|].
  unfold ParsePhysicalRecord. set (n := size (buffer_ r)) in *. rewrite Hb.
  destruct (header_fields t (a ++ w ++ z) (a ++ w' ++ z ++ rest) Hsz) as (E1 & E2 & E3 & E4 & _).
  rewrite E1, E2, E3, E4. destruct (Z.gtb_spec (kHeaderSize + size (a ++ w ++ z)) n); [lia|].
  assert ((RecordType_to_Z t =? RecordType_to_Z kZeroType) = false) as -> by (by destruct t).
  rewrite Hck. cbn [andb].
  replace (take_z (1 + size (a ++ w ++ z)) (z2b (RecordType_to_Z t) :: a ++ w' ++ z ++ rest))
    with ((z2b (RecordType_to_Z t) :: a) ++ w' ++ z).
  2: { replace (z2b (RecordType_to_Z t) :: a ++ w' ++ z ++ rest)
         with (((z2b (RecordType_to_Z t) :: a) ++ w' ++ z) ++ rest) by (cbn [app]; by rewrite <-!app_assoc).
       symmetry. apply take_z_app. rewrite !size_app, size_cons. lia. }
  destruct (Z.eqb_spec (crc32c.Value ((z2b (RecordType_to_Z t) :: a) ++ w' ++ z))
    (crc32c.Value (z2b (RecordType_to_Z t) :: a ++ w ++ z))) as [E|_]; [|reflexivity].
  exfalso. apply Hne. symmetry. by apply (crc32c.Value_burst (z2b (RecordType_to_Z t) :: a) w' w z).
Qed.

Definition corrupted_reader : @Reader SequentialFileImpl_file :=
  set_buffer (NewReader (NewSequentialFileImpl FileState.NewFileState) true true 0)
    (header_of kFullType [x61; x62; x63; x64] ++ [x61; x62; x00; x64]).

Lemma log_detects_corruption_witness :
  ReadPhysicalRecord corrupted_reader = Some (kBadRecord, [],
    ReportDrop (set_buffer corrupted_reader []) 11 (Corruption (bs "checksum mismatch") [])).
Proof.
  apply (log_detects_corruption SequentialFileImpl_file corrupted_reader kFullType [] [x61; x62; x63; x64]
    [x61; x62; x00; x64] [] []); done.
Defined.

(** C30: reading ends on every input: whatever bytes the file holds and whatever
    the reader's state, [ReadRecord] returns when its loop may run once more than
    there are unread bytes. *)
Theorem log_reader_terminates (F : SequentialFile) (L : SequentialFileLaws F) (r : Reader) (fuel : nat) :
  svalid (file_ r) → unread r < Z.of_nat fuel → is_Some (ReadRecord fuel r).
Proof.
  intros Hv Hfuel. unfold ReadRecord.
  destruct (_ <? _); [|by apply ReadRecord_loop_total]. unfold SkipToInitialBlock.
  set (loc := if _ >? kBlockSize - 6 then _ else _). simpl. destruct (Z.gtb_spec loc 0) as [Hl|Hl].
  2: { by apply ReadRecord_loop_total. }
  destruct (Skip_law loc (file_ r) Hv) as (f & E & Hv' & Hr'); [lia|]. rewrite E. simpl.
  apply ReadRecord_loop_total; [done|]. unfold unread in *. simpl. rewrite Hr'.
  assert (size (drop_z loc (remaining (file_ r))) <= size (remaining (file_ r))); [|lia].
  unfold drop_z, size. rewrite length_drop. lia.
Qed.

Lemma log_reader_terminates_witness : is_Some (ReadRecord 12 corrupted_reader).
Proof.
  apply (log_reader_terminates SequentialFileImpl_file SequentialFileImpl_laws corrupted_reader 12); [|vm_compute; done].
  split; [apply NewFileState_ok|vm_compute; done].
Defined.
