(* ===== verification/Format.v ===== *)
(** * On-disk blocks (src/table/format.h, src/table/format.cc, and the files
    they are read from: src/util/file_impl.cc)

    Block handles, the table footer, the 5-byte block trailer and [ReadBlock].
    A random access file is an object with a [Read] method; the in-memory
    [StringSource] of the repository is the instance used for end-to-end
    statements. *)

From Stdlib Require Import String.
From S2P Require Import Prelude Coding Status Crc32c.
Import Coding.


(** ** Block handles *)

Record BlockHandle := MkHandle { bh_offset : Z; bh_size : Z }.

#[export] Instance BlockHandle_eq_dec : EqDecision BlockHandle.
Proof. solve_decision. Defined.

(** The default constructor: all bits set. *)
Definition BlockHandle_default : BlockHandle := MkHandle (2 ^ 64 - 1) (2 ^ 64 - 1).

Definition kMaxEncodedLength : Z := 10 + 10.

Definition BlockHandle_EncodeTo (h : BlockHandle) (dst : bytes) : bytes :=
  PutVarint64 (PutVarint64 dst (bh_offset h)) (bh_size h).

Definition BlockHandle_DecodeFrom (input : bytes) : result (BlockHandle * bytes) :=
  match GetVarint64 input with
  | Some (offset, input) =>
      match GetVarint64 input with
      | Some (sz, input) => Ok (MkHandle offset sz, input)
      | None => Fail (Corruption (bs "bad block handle") [])
      end
  | None => Fail (Corruption (bs "bad block handle") [])
  end.

(** ** The footer *)

Record Footer := MkFooter { metaindex_handle : BlockHandle; index_handle : BlockHandle }.

Definition kEncodedLength : Z := 2 * kMaxEncodedLength + 8.
Definition kTableMagicNumber : Z := 0xdb4775248b80fb57.

(** [dst->resize] sets the absolute length, so the routine is meant for an
    empty [dst] (the source asserts the resulting length). *)
Definition Footer_EncodeTo (f : Footer) (dst : bytes) : bytes :=
  let dst := BlockHandle_EncodeTo (metaindex_handle f) dst in
  let dst := BlockHandle_EncodeTo (index_handle f) dst in
  let dst := resize (2 * kMaxEncodedLength) dst in
  let dst := PutFixed32 dst (u32 (Z.land kTableMagicNumber 0xffffffff)) in
  PutFixed32 dst (u32 (Z.shiftr kTableMagicNumber 32)).

Definition Footer_DecodeFrom (input : bytes) : result (Footer * bytes) :=
  if size input <? kEncodedLength then Fail (Corruption (bs "not an sstable (footer too short)") [])
  else
    let magic_ptr := drop_z (kEncodedLength - 8) input in
    let magic_lo := default 0 (DecodeFixed32 magic_ptr) in
    let magic_hi := default 0 (DecodeFixed32 (drop 4 magic_ptr)) in
    let magic := Z.lor (u64 (Z.shiftl magic_hi 32)) magic_lo in
    if negb (magic =? kTableMagicNumber)
    then Fail (Corruption (bs "not an sstable (bad magic number)") [])
    else
      '(meta, input') ← BlockHandle_DecodeFrom input;
      '(index, _) ← BlockHandle_DecodeFrom input';
      Ok (MkFooter meta index, drop_z kEncodedLength input).

(** ** Files *)

(** [Read offset n] returns the bytes read and whether the read buffer owns
    memory (a memory-mapped file returns a pointer into the mapping). *)
Record RandomAccessFile := { Read : Z → Z → result (bytes * bool) }.

Definition StringSource_Read (contents : bytes) (offset n : Z) : result (bytes * bool) :=
  if offset >=? size contents then Fail (InvalidArgument (bs "invalid Read offset") [])
  else
    let n := if u64 (offset + n) >? size contents then size contents - offset else n in
    Ok (sub_z offset n contents, true).

Definition StringSource (contents : bytes) : RandomAccessFile := {| Read := StringSource_Read contents |}.

(** ** Compression libraries

    Snappy and zstd are external: the two steps [ReadBlock] performs with them
    and the compressors [TableBuilder] calls. *)
Class Port := {
  Snappy_GetUncompressedLength : bytes → option Z;
  Snappy_Uncompress : bytes → Z → option bytes;
  Snappy_Compress : bytes → option bytes;
  Zstd_GetUncompressedLength : bytes → option Z;
  Zstd_Uncompress : bytes → Z → option bytes;
  Zstd_Compress : Z → bytes → option bytes;
}.

(** A build without either library: every call reports failure. *)
Definition PortNone : Port := {|
  Snappy_GetUncompressedLength _ := None; Snappy_Uncompress _ _ := None; Snappy_Compress _ := None;
  Zstd_GetUncompressedLength _ := None; Zstd_Uncompress _ _ := None; Zstd_Compress _ _ := None;
|}.

Definition kNoCompression : Z := 0.
Definition kSnappyCompression : Z := 1.
Definition kZstdCompression : Z := 2.

Definition kBlockTrailerSize : Z := 5.

Record BlockContents := { data : bytes; cachale : bool }.

(** ** ReadBlock *)

Section ReadBlock.
  Context {P : Port}.

(** The [switch] on the type byte. *)
Definition decode_block_type (type : Z) (raw : bytes) (owned : bool) : result BlockContents :=
  if type =? kNoCompression then Ok {| data := raw; cachale := owned |}
  else if type =? kSnappyCompression then
    match Snappy_GetUncompressedLength raw with
    | None => Fail (Corruption (bs "corrupted snappy compressed block length") [])
    | Some ulength =>
        match Snappy_Uncompress raw ulength with
        | None => Fail (Corruption (bs "corrupted snappy compressed block contents") [])
        | Some ubuf => Ok {| data := ubuf; cachale := false |}
        end
    end
  else if type =? kZstdCompression then
    match Zstd_GetUncompressedLength raw with
    | None => Fail (Corruption (bs "corrupted zstd compressed block length") [])
    | Some ulength =>
        match Zstd_Uncompress raw ulength with
        | None => Fail (Corruption (bs "corrupted zstd compressed block contents") [])
        | Some ubuf => Ok {| data := ubuf; cachale := false |}
        end
    end
  else Fail (Corruption (bs "bad block type") []).

Definition ReadBlock (file : RandomAccessFile) (verify_checksums : bool) (handle : BlockHandle)
    : result BlockContents :=
  let n := bh_size handle in
  '(contents, owned) ← Read file (bh_offset handle) (u64 (n + kBlockTrailerSize));
  if negb (size contents =? u64 (n + kBlockTrailerSize))
  then Fail (Corruption (bs "truncated block read") [])
  else
    let crc := crc32c.Unmask (default 0 (DecodeFixed32 (drop_z (n + 1) contents))) in
    let actual := crc32c.Value (take_z (n + 1) contents) in
    if verify_checksums && negb (actual =? crc)
    then Fail (Corruption (bs "block checksum mismatch") [])
    else decode_block_type (default 0 (b2sz <$> nth_z contents n)) (take_z n contents) owned.

End ReadBlock.

(** The trailer written behind a block (TableBuilder::WriteRawBlock). *)
Definition block_trailer (contents : bytes) (type : Z) : bytes :=
  let crc := crc32c.Value contents in
  let crc := crc32c.Extend crc [z2b type] in
  z2b type :: EncodeFixed32 (crc32c.Mask crc).

Definition raw_block (contents : bytes) (type : Z) : bytes :=
  contents ++ block_trailer contents type.

(** ** Lemmas *)

Definition handle_ok (h : BlockHandle) : Prop := is_u64 (bh_offset h) ∧ is_u64 (bh_size h).

Lemma BlockHandle_EncodeTo_app h dst :
  BlockHandle_EncodeTo h dst = dst ++ BlockHandle_EncodeTo h [].
Proof. unfold BlockHandle_EncodeTo, PutVarint64. rewrite <-!app_assoc. done. Qed.

Lemma BlockHandle_Decode_Encode h rest :
  handle_ok h → BlockHandle_DecodeFrom (BlockHandle_EncodeTo h [] ++ rest) = Ok (h, rest).
Proof.
  intros [Ho Hs]. unfold BlockHandle_DecodeFrom, BlockHandle_EncodeTo, PutVarint64. cbn [app].
  rewrite <-app_assoc, !GetVarint64_Encode by done. by destruct h.
Qed.

Lemma size_BlockHandle_EncodeTo h :
  handle_ok h → 2 <= size (BlockHandle_EncodeTo h []) <= kMaxEncodedLength.
Proof.
  intros [Ho Hs]. unfold BlockHandle_EncodeTo, PutVarint64, kMaxEncodedLength. cbn [app].
  rewrite size_app. pose proof (size_EncodeVarint64 _ Ho). pose proof (size_EncodeVarint64 _ Hs). lia.
Qed.

Lemma BlockHandle_DecodeFrom_sound input h rest :
  BlockHandle_DecodeFrom input = Ok (h, rest) → handle_ok h.
Proof.
  unfold BlockHandle_DecodeFrom. destruct (GetVarint64 input) as [[o i]|] eqn:E1; [|done].
  destruct (GetVarint64 i) as [[sz i']|] eqn:E2; [|done]. intros [= <- _].
  split; by eapply GetVarint64_range.
Qed.

Lemma size_resize n l : 0 <= n → size (resize n l) = n.
Proof.
  intros Hn. unfold resize, size, take_z. rewrite length_app, length_take, length_replicate. lia.
Qed.

Lemma resize_pad n l : size l <= n → resize n l = l ++ replicate (Z.to_nat (n - size l)) x00.
Proof.
  intros Hn. unfold resize. f_equal. unfold take_z. apply take_ge. unfold size in Hn. lia.
Qed.

(** The magic number is stored as two fixed32 halves. *)
Lemma magic_halves :
  Z.lor (u64 (Z.shiftl (u32 (Z.shiftr kTableMagicNumber 32)) 32))
    (u32 (Z.land kTableMagicNumber 0xffffffff)) = kTableMagicNumber.
Proof. done. Qed.

Lemma Footer_EncodeTo_layout f :
  handle_ok (metaindex_handle f) → handle_ok (index_handle f) →
  ∃ pad, Footer_EncodeTo f [] =
    BlockHandle_EncodeTo (metaindex_handle f) [] ++ BlockHandle_EncodeTo (index_handle f) [] ++ pad ++
    EncodeFixed32 (u32 (Z.land kTableMagicNumber 0xffffffff)) ++
    EncodeFixed32 (u32 (Z.shiftr kTableMagicNumber 32)) ∧
    size (BlockHandle_EncodeTo (metaindex_handle f) [] ++ BlockHandle_EncodeTo (index_handle f) [] ++ pad)
      = 2 * kMaxEncodedLength.
Proof.
  intros Hm Hi. pose proof (size_BlockHandle_EncodeTo _ Hm). pose proof (size_BlockHandle_EncodeTo _ Hi).
  unfold Footer_EncodeTo. rewrite (BlockHandle_EncodeTo_app (index_handle f)).
  rewrite resize_pad by (rewrite size_app; unfold kMaxEncodedLength in *; lia).
  set (pad := replicate _ _). exists pad. unfold PutFixed32. split; [by rewrite <-!app_assoc|].
  rewrite app_assoc. rewrite <-(size_resize (2 * kMaxEncodedLength)
    (BlockHandle_EncodeTo (metaindex_handle f) [] ++ BlockHandle_EncodeTo (index_handle f) [])) by done.
  rewrite resize_pad by (rewrite size_app; unfold kMaxEncodedLength in *; lia). done.
Qed.

Lemma size_Footer_EncodeTo f :
  handle_ok (metaindex_handle f) → handle_ok (index_handle f) →
  size (Footer_EncodeTo f []) = kEncodedLength.
Proof.
  intros Hm Hi. destruct (Footer_EncodeTo_layout f Hm Hi) as (pad & -> & Hs).
  rewrite !app_assoc, <-(app_assoc _ _ pad), 2!size_app, Hs, !size_EncodeFixed32. done.
Qed.

Lemma Footer_Decode_Encode f rest :
  handle_ok (metaindex_handle f) → handle_ok (index_handle f) →
  Footer_DecodeFrom (Footer_EncodeTo f [] ++ rest) = Ok (f, rest).
Proof.
  intros Hm Hi. pose proof (size_Footer_EncodeTo f Hm Hi) as Hsz.
  unfold Footer_DecodeFrom. rewrite size_app, Hsz. pose proof (size_nonneg rest).
  destruct (Z.ltb_spec (kEncodedLength + size rest) kEncodedLength); [lia|].
  assert (drop_z (kEncodedLength - 8) (Footer_EncodeTo f [] ++ rest) =
    EncodeFixed32 (u32 (Z.land kTableMagicNumber 0xffffffff)) ++
    EncodeFixed32 (u32 (Z.shiftr kTableMagicNumber 32)) ++ rest) as ->.
  { destruct (Footer_EncodeTo_layout f Hm Hi) as (pad & -> & Hs).
    rewrite !app_assoc, <-(app_assoc _ _ pad), <-!(app_assoc (_ ++ (_ ++ pad))).
    apply drop_z_app. rewrite Hs. done. }
  rewrite DecodeFixed32_Encode by apply u32_range.
  change (drop 4 (EncodeFixed32 (u32 (Z.land kTableMagicNumber 0xffffffff)) ++ ?x)) with x.
  rewrite DecodeFixed32_Encode by apply u32_range. cbn [from_option].
  unfold id. rewrite magic_halves, Z.eqb_refl. cbn [negb].
  rewrite (drop_z_app (Footer_EncodeTo f [])) by done.
  destruct (Footer_EncodeTo_layout f Hm Hi) as (pad & -> & Hs).
  rewrite <-!app_assoc, !BlockHandle_Decode_Encode by done. cbn [mbind result_bind].
  rewrite BlockHandle_Decode_Encode by done. by destruct f.
Qed.

(** ** Reading written blocks *)

Lemma size_block_trailer c t : size (block_trailer c t) = kBlockTrailerSize.
Proof. done. Qed.

Lemma size_raw_block c t : size (raw_block c t) = size c + kBlockTrailerSize.
Proof. unfold raw_block. rewrite size_app, size_block_trailer. done. Qed.

Lemma Value_snoc c b : crc32c.Extend (crc32c.Value c) [b] = crc32c.Value (c ++ [b]).
Proof. apply crc32c.Extend_app. vm_compute. by split. Qed.

(** The slice a file returns for a range that lies inside it. *)
Lemma StringSource_Read_inside pre block post :
  size (pre ++ block ++ post) < 2 ^ 64 → 0 < size block →
  StringSource_Read (pre ++ block ++ post) (size pre) (size block) = Ok (block, true).
Proof.
  intros Hs Hb. unfold StringSource_Read. autorewrite with rally_size in *.
  pose proof (size_nonneg pre). pose proof (size_nonneg post). rewrite Z.geb_leb.
  destruct (Z.leb_spec (size pre + (size block + size post)) (size pre)); [lia|].
  rewrite u64_small by (unfold is_u64; lia). rewrite Z.gtb_ltb.
  destruct (Z.ltb_spec (size pre + (size block + size post)) (size pre + size block)); [lia|].
  unfold sub_z. rewrite drop_z_app, take_z_app by done. done.
Qed.

Section reads.
  Context {P : Port}.

(** A block as the file returned it: contents, type byte, checksum. *)
Lemma ReadBlock_contents file v h c t owned :
  Read file (bh_offset h) (bh_size h + kBlockTrailerSize) = Ok (raw_block c t, owned) →
  bh_size h = size c → size c + kBlockTrailerSize < 2 ^ 64 → 0 <= t < 128 →
  ReadBlock file v h = decode_block_type t c owned.
Proof.
  intros HR Hh Hc Ht. unfold ReadBlock. pose proof (size_nonneg c).
  rewrite u64_small by (unfold is_u64, kBlockTrailerSize in *; lia).
  rewrite HR. cbn [mbind result_bind]. rewrite size_raw_block, Hh, Z.eqb_refl. cbn [negb].
  unfold raw_block, block_trailer. rewrite Value_snoc.
  rewrite drop_z_snoc, take_z_snoc by done.
  rewrite <-(app_nil_r (EncodeFixed32 _)), DecodeFixed32_Encode by apply crc32c.Mask_u32.
  cbn [from_option]. unfold id. rewrite crc32c.Unmask_Mask by apply crc32c.Value_u32.
  rewrite Z.eqb_refl, andb_false_r.
  rewrite take_z_app by done. unfold nth_z, size.
  destruct (Z.ltb_spec (Z.of_nat (length c)) 0); [lia|].
  rewrite Nat2Z.id, list_lookup_middle by done. simpl. unfold b2sz.
  rewrite b2z_z2b_small by lia. destruct (Z.ltb_spec t 128); [done|lia].
Qed.

(** With checksums on, a block changed within four consecutive bytes of its
    contents and type is never accepted. *)
Lemma ReadBlock_detects file h c t owned a w w' z :
  Read file (bh_offset h) (bh_size h + kBlockTrailerSize) =
    Ok (a ++ w' ++ z ++ EncodeFixed32 (crc32c.Mask (crc32c.Value (c ++ [z2b t]))), owned) →
  c ++ [z2b t] = a ++ w ++ z → length w = 4%nat → length w' = 4%nat → w ≠ w' →
  bh_size h = size c → size c + kBlockTrailerSize < 2 ^ 64 →
  ReadBlock file true h = Fail (Corruption (bs "block checksum mismatch") []).
Proof.
  intros HR Hc Hw Hw' Hne Hh Hs. unfold ReadBlock. pose proof (size_nonneg c).
  rewrite u64_small by (unfold is_u64, kBlockTrailerSize in *; lia).
  rewrite HR. cbn [mbind result_bind].
  assert (size a + 4 + size z = size c + 1) as Hsz.
  { pose proof (f_equal size Hc) as E. autorewrite with rally_size in E.
    unfold size in *. rewrite Hw in E. lia. }
  assert (size w' = 4) as Hsw by (unfold size; rewrite Hw'; done).
  set (enc := EncodeFixed32 _).
  assert (size enc = 4) as Henc by done.
  replace (size (a ++ w' ++ z ++ enc)) with (bh_size h + kBlockTrailerSize).
  2: { autorewrite with rally_size. rewrite Henc, Hsw, Hh. unfold kBlockTrailerSize. lia. }
  rewrite Z.eqb_refl. cbn [negb]. rewrite Hh. rewrite !app_assoc, <-(app_assoc a w' z).
  rewrite take_z_app by (autorewrite with rally_size; lia).
  rewrite drop_z_app by (autorewrite with rally_size; lia).
  unfold enc. rewrite <-(app_nil_r (EncodeFixed32 _)), DecodeFixed32_Encode by apply crc32c.Mask_u32.
  cbn [from_option]. unfold id. rewrite crc32c.Unmask_Mask, Hc by apply crc32c.Value_u32.
  destruct (Z.eqb_spec (crc32c.Value (a ++ w' ++ z)) (crc32c.Value (a ++ w ++ z))) as [E|E]; [|done].
  exfalso. apply Hne. symmetry. by apply (crc32c.Value_burst a w' w z).
Qed.

End reads.

(** ** Properties *)

(** a footer is 48 bytes and decodes to the two handles it was built from,
    skipping the padding; anything shorter is rejected as corruption. *)
Theorem footer_roundtrip (f : Footer) (rest short : bytes) :
  handle_ok (metaindex_handle f) → handle_ok (index_handle f) →
  Footer_DecodeFrom (Footer_EncodeTo f [] ++ rest) = Ok (f, rest) ∧
  size (Footer_EncodeTo f []) = kEncodedLength ∧
  (size short < kEncodedLength → IsCorruption (result_status (Footer_DecodeFrom short)) = true).
Proof.
  intros Hm Hi. split_and!; [by apply Footer_Decode_Encode|by apply size_Footer_EncodeTo|].
  intros Hs. unfold Footer_DecodeFrom. destruct (Z.ltb_spec (size short) kEncodedLength); [done|lia].
Qed.

Lemma footer_roundtrip_witness :
  Footer_DecodeFrom (Footer_EncodeTo (MkFooter (MkHandle 100 50) (MkHandle 155 3000)) [])
    = Ok (MkFooter (MkHandle 100 50) (MkHandle 155 3000), []).
Proof.
  rewrite <-(app_nil_r (Footer_EncodeTo _ [])).
  refine (proj1 (footer_roundtrip (MkFooter (MkHandle 100 50) (MkHandle 155 3000)) [] [] _ _));
    vm_compute; by repeat split.
Defined.

(** a block written with its trailer anywhere in a file is read back exactly,
    checksum verification on or off. *)
Theorem read_block_roundtrip (P : Port) (pre c post : bytes) (verify : bool) :
  size (pre ++ raw_block c kNoCompression ++ post) < 2 ^ 64 →
  ReadBlock (StringSource (pre ++ raw_block c kNoCompression ++ post)) verify
    (MkHandle (size pre) (size c)) = Ok {| data := c; cachale := true |}.
Proof.
  intros Hs. pose proof (size_nonneg c). pose proof (size_nonneg pre). pose proof (size_nonneg post).
  rewrite (ReadBlock_contents _ verify _ c kNoCompression true); [done| |done| |].
  - simpl. rewrite <-(size_raw_block c kNoCompression). apply StringSource_Read_inside; [done|].
    rewrite size_raw_block. unfold kBlockTrailerSize. lia.
  - rewrite !size_app, size_raw_block in Hs. lia.
  - unfold kNoCompression. lia.
Qed.

Lemma read_block_roundtrip_witness :
  ReadBlock (P := PortNone) (StringSource ([x01; x02] ++ raw_block [x61; x62; x63] kNoCompression ++ [x09])) true
    (MkHandle 2 3) = Ok {| data := [x61; x62; x63]; cachale := true |}.
Proof. apply (read_block_roundtrip PortNone [x01; x02] [x61; x62; x63] [x09] true). vm_compute. done. Defined.

(** with checksum verification on, a stored block whose contents or type byte
    were altered within four consecutive bytes is reported as corruption. *)
Theorem read_block_detects_corruption
    (P : Port) (pre a w w' z post : bytes) (c : bytes) (t : Z) :
  c ++ [z2b t] = a ++ w ++ z → length w = 4%nat → length w' = 4%nat → w ≠ w' →
  let stored := a ++ w' ++ z ++ EncodeFixed32 (crc32c.Mask (crc32c.Value (c ++ [z2b t]))) in
  size (pre ++ stored ++ post) < 2 ^ 64 →
  ReadBlock (StringSource (pre ++ stored ++ post)) true (MkHandle (size pre) (size c))
    = Fail (Corruption (bs "block checksum mismatch") []).
Proof.
  intros Hc Hw Hw' Hne stored Hs.
  assert (size c + kBlockTrailerSize = size stored) as Hsz.
  { pose proof (f_equal size Hc) as E. subst stored. rewrite !size_app in *.
    assert (size w = 4 ∧ size w' = 4) as [Es Es'] by (unfold size; rewrite Hw, Hw'; done).
    rewrite size_EncodeFixed32, Es'. rewrite Es in E. change (size [z2b t]) with 1 in E.
    unfold kBlockTrailerSize. lia. }
  pose proof (size_nonneg c). pose proof (size_nonneg pre). pose proof (size_nonneg post).
  eapply (ReadBlock_detects _ _ c t true a w w' z); [|done..|].
  - simpl. rewrite Hsz. apply (StringSource_Read_inside pre stored post); [done|].
    unfold kBlockTrailerSize in Hsz. lia.
  - rewrite !size_app in Hs. unfold kBlockTrailerSize in *. lia.
Qed.

Lemma read_block_detects_corruption_witness :
  let c := [x61; x62; x63; x64] in
  let stored := [] ++ [x61; xff; x63; x64] ++ [x00] ++
    EncodeFixed32 (crc32c.Mask (crc32c.Value (c ++ [z2b 0]))) in
  ReadBlock (P := PortNone) (StringSource ([x07] ++ stored ++ [])) true (MkHandle 1 4)
    = Fail (Corruption (bs "block checksum mismatch") []).
Proof.
  apply (read_block_detects_corruption PortNone [x07] [] [x61; x62; x63; x64] [x61; xff; x63; x64] [x00] []
    [x61; x62; x63; x64] 0); vm_compute; done.
Defined.
