(* ===== verification/Comparator.v ===== *)
(** * Slices as keys and comparators
    (src/include/leveldb/slice.h, src/include/leveldb/comparator.h,
     src/util/comparator.cc)

    The comparison operations of [Slice], the [Comparator] interface with the
    contract its clients rely on, and the bytewise implementation. *)

From Stdlib Require Import String.
From S2P Require Import Prelude Coding Status.

Module Slice.

(** [memcmp]: the sign of the first difference among the first [n] bytes,
    read as unsigned characters.  Callers only look at the sign. *)
Fixpoint memcmp (a b : bytes) (n : nat) : Z :=
  match n, a, b with
  | S n', x :: a', y :: b' =>
      if b2z x <? b2z y then -1 else if b2z y <? b2z x then 1 else memcmp a' b' n'
  | _, _, _ => 0
  end.

Definition compare (a b : bytes) : Z :=
  let min_len := if size a <? size b then size a else size b in
  let r := memcmp a b (Z.to_nat min_len) in
  if r =? 0 then
    if size a <? size b then -1 else if size a >? size b then 1 else r
  else r.

Definition starts_with (a x : bytes) : bool :=
  (size a >=? size x) && (memcmp a x (Z.to_nat (size x)) =? 0).

Definition eqb (x y : bytes) : bool :=
  (size x =? size y) && (memcmp x y (Z.to_nat (size x)) =? 0).

(** Reference definition: lexicographic order on unsigned bytes. *)
Fixpoint lex (a b : bytes) : Z :=
  match a, b with
  | [], [] => 0
  | [], _ :: _ => -1
  | _ :: _, [] => 1
  | x :: a', y :: b' => if b2z x <? b2z y then -1 else if b2z y <? b2z x then 1 else lex a' b'
  end.

Lemma compare_lex a b : compare a b = lex a b.
Proof.
  unfold compare. revert b. induction a as [|x a IH]; intros [|y b]; [done..|].
  specialize (IH b). rewrite !size_cons. cbn [lex]. rewrite Z.gtb_ltb in *.
  replace (Z.to_nat (if 1 + size a <? 1 + size b then 1 + size a else 1 + size b))
    with (S (Z.to_nat (if size a <? size b then size a else size b)))
    by (pose proof (size_nonneg a); pose proof (size_nonneg b); zcases; lia).
  cbn [memcmp]. destruct (b2z x <? b2z y); [done|]. destruct (b2z y <? b2z x); [done|].
  rewrite <-IH. destruct (memcmp a b _ =? 0); [|done].
  zcases; done || lia.
Qed.

Lemma lex_refl a : lex a a = 0.
Proof. induction a as [|x a IH]; simpl; [done|]. zcases; lia. Qed.

Lemma lex_antisym a b : lex b a = - lex a b.
Proof. revert b. induction a as [|x a IH]; intros [|y b]; simpl; try done. zcases; try lia. apply IH. Qed.

Lemma lex_eq a b : lex a b = 0 ↔ a = b.
Proof.
  split; [|intros ->; apply lex_refl].
  revert b. induction a as [|x a IH]; intros [|y b]; simpl; try done.
  zcases; try lia. intros E%IH. f_equal; [apply b2z_inj; lia|done].
Qed.

Lemma lex_trans a b c : lex a b <= 0 → lex b c <= 0 → lex a c <= 0.
Proof.
  revert b c. induction a as [|x a IH]; intros [|y b] [|z c]; simpl; try lia.
  zcases; try lia. apply IH.
Qed.

Lemma lex_app p a b : lex (p ++ a) (p ++ b) = lex a b.
Proof. induction p as [|x p IH]; simpl; [done|]. zcases; try lia. Qed.

Lemma lex_range a b : -1 <= lex a b <= 1.
Proof. revert b. induction a as [|x a IH]; intros [|y b]; simpl; zcases; try lia. apply IH. Qed.

Lemma memcmp_eq a b n :
  (n <= length a)%nat → (n <= length b)%nat → memcmp a b n = 0 ↔ take n a = take n b.
Proof.
  revert a b. induction n as [|n IH]; intros [|x a] [|y b] Ha Hb; simpl in *; try (done || lia).
  specialize (IH a b ltac:(lia) ltac:(lia)). zcases.
  - split; [lia|]. intros [= -> _]. lia.
  - split; [lia|]. intros [= -> _]. lia.
  - rewrite IH. split; [intros ->; f_equal; apply b2z_inj; lia|by intros [= -> ->]].
Qed.

Lemma eqb_eq x y : eqb x y = true ↔ x = y.
Proof.
  unfold eqb. rewrite andb_true_iff, !Z.eqb_eq. unfold size. rewrite !Nat2Z.id. split.
  - intros [Hl Hm]. rewrite memcmp_eq in Hm by lia.
    rewrite (take_ge x), (take_ge y) in Hm by lia. done.
  - intros ->. split; [done|]. by apply memcmp_eq.
Qed.

Lemma starts_with_spec a x : starts_with a x = true ↔ ∃ r, a = x ++ r.
Proof.
  unfold starts_with. rewrite andb_true_iff, Z.geb_leb, Z.leb_le, Z.eqb_eq.
  unfold size. rewrite Nat2Z.id. split.
  - intros [Hl Hm]. rewrite memcmp_eq, (take_ge x) in Hm by lia.
    exists (drop (length x) a). rewrite <-Hm at 1. symmetry. apply take_drop.
  - intros [r ->]. rewrite length_app. split; [lia|].
    apply memcmp_eq; rewrite ?length_app; [lia..|].
    rewrite take_app_length, take_ge; done.
Qed.

End Slice.

(** ** The comparator interface

    [Compare] and the two key-shortening hooks, with the contract stated in
    include/leveldb/comparator.h: a total preorder; a separator of
    [start < limit] lies in [start, limit); a successor is not smaller. *)

Class Comparator := {
  Name : bytes;
  Compare : bytes → bytes → Z;
  FindShortestSeparator : bytes → bytes → bytes;
  FindShortSuccessor : bytes → bytes;
}.

Class ComparatorLaws (C : Comparator) : Prop := {
  Compare_refl a : Compare a a = 0;
  Compare_antisym a b : Z.sgn (Compare b a) = - Z.sgn (Compare a b);
  Compare_trans a b c : Compare a b <= 0 → Compare b c <= 0 → Compare a c <= 0;
  separator_ge start limit :
    Compare start limit <= 0 → Compare start (FindShortestSeparator start limit) <= 0;
  separator_le start limit :
    Compare start limit <= 0 → Compare (FindShortestSeparator start limit) limit <= 0;
  separator_lt start limit :
    Compare start limit < 0 → Compare (FindShortestSeparator start limit) limit < 0;
  successor_ge key : Compare key (FindShortSuccessor key) <= 0;
}.

Section comparator_facts.
  Context {C : Comparator} {L : ComparatorLaws C}.

Lemma Compare_lt_gt a b : Compare a b < 0 ↔ 0 < Compare b a.
Proof. pose proof (Compare_antisym a b). lia. Qed.

Lemma Compare_eq_sym a b : Compare a b = 0 ↔ Compare b a = 0.
Proof. pose proof (Compare_antisym a b). lia. Qed.

Lemma Compare_le_ge a b : Compare a b <= 0 ↔ 0 <= Compare b a.
Proof. pose proof (Compare_antisym a b). lia. Qed.

Lemma Compare_lt_le_trans a b c : Compare a b < 0 → Compare b c <= 0 → Compare a c < 0.
Proof.
  intros H1 H2. destruct (Z.lt_ge_cases (Compare a c) 0) as [|H3]; [done|].
  apply Compare_le_ge in H3. pose proof (Compare_trans b c a H2 H3) as H4.
  apply Compare_lt_gt in H1. lia.
Qed.

Lemma Compare_le_lt_trans a b c : Compare a b <= 0 → Compare b c < 0 → Compare a c < 0.
Proof.
  intros H1 H2. destruct (Z.lt_ge_cases (Compare a c) 0) as [|H3]; [done|].
  apply Compare_le_ge in H3. pose proof (Compare_trans c a b H3 H1) as H4.
  apply Compare_lt_gt in H2. lia.
Qed.

Lemma Compare_lt_trans a b c : Compare a b < 0 → Compare b c < 0 → Compare a c < 0.
Proof. intros. apply (Compare_lt_le_trans a b c); lia. Qed.

Lemma Compare_eq_l a b c : Compare a b = 0 → Z.sgn (Compare a c) = Z.sgn (Compare b c).
Proof.
  intros E. pose proof (proj1 (Compare_eq_sym a b) E) as E'.
  destruct (Z.lt_trichotomy (Compare a c) 0) as [H|[H|H]].
  - pose proof (Compare_le_lt_trans b a c). lia.
  - pose proof (Compare_trans b a c). pose proof (proj1 (Compare_eq_sym a c) H).
    pose proof (Compare_trans c a b). pose proof (Compare_le_ge c b). lia.
  - pose proof (proj2 (Compare_lt_gt c a) H). pose proof (Compare_lt_le_trans c a b).
    pose proof (Compare_lt_gt c b). lia.
Qed.

Lemma Compare_eq_r a b c : Compare b c = 0 → Z.sgn (Compare a b) = Z.sgn (Compare a c).
Proof.
  intros E. pose proof (Compare_eq_l b c a E). pose proof (Compare_antisym a b).
  pose proof (Compare_antisym a c). lia.
Qed.

End comparator_facts.

#[export] Hint Resolve Compare_refl Compare_trans Compare_lt_trans Compare_lt_le_trans
  Compare_le_lt_trans : rally.

(** ** The bytewise comparator *)

Module Bytewise.

Definition Name : bytes := bs "leveldb.BytewiseComparator".

Definition Compare (a b : bytes) : Z := Slice.compare a b.

(** [while (diff_index < min_length && start[diff_index] == limit[diff_index])]. *)
Fixpoint diff_index_loop (start limit : bytes) (diff_index : Z) : Z :=
  match start, limit with
  | x :: start', y :: limit' =>
      if decide (x = y) then diff_index_loop start' limit' (diff_index + 1) else diff_index
  | _, _ => diff_index
  end.

Definition FindShortestSeparator (start limit : bytes) : bytes :=
  let min_length := Z.min (size start) (size limit) in
  let diff_index := diff_index_loop start limit 0 in
  if diff_index >=? min_length then start
  else
    match nth_z start diff_index, nth_z limit diff_index with
    | Some s, Some l =>
        let diff_byte := b2z s in
        if (diff_byte <? 255) && (diff_byte + 1 <? b2z l)
        then take_z (diff_index + 1) (<[Z.to_nat diff_index := z2b (diff_byte + 1)]> start)
        else start
    | _, _ => start
    end.

(** The [for] loop over [key]: the first byte that is not 0xff is incremented
    and the key is cut behind it; a run of 0xff bytes is left alone. *)
Fixpoint FindShortSuccessor_loop (key : bytes) (i : Z) (rest : bytes) : bytes :=
  match rest with
  | [] => key
  | c :: rest' =>
      let byte := b2z c in
      if negb (byte =? 255)
      then take_z (i + 1) (<[Z.to_nat i := z2b (byte + 1)]> key)
      else FindShortSuccessor_loop key (i + 1) rest'
  end.

Definition FindShortSuccessor (key : bytes) : bytes := FindShortSuccessor_loop key 0 key.

Lemma diff_index_loop_spec start limit i :
  ∃ p s l, start = p ++ s ∧ limit = p ++ l ∧ diff_index_loop start limit i = i + size p ∧
    match s, l with x :: _, y :: _ => x ≠ y | _, _ => True end.
Proof.
  revert limit i. induction start as [|x start IH]; intros limit i.
  { exists [], [], limit. rewrite size_nil. simpl. split_and!; [done..|lia|done]. }
  destruct limit as [|y limit].
  { exists [], (x :: start), []. rewrite size_nil. simpl. split_and!; [done..|lia|done]. }
  simpl. case_decide as E.
  - subst y. destruct (IH limit (i + 1)) as (p & s & l & -> & -> & Ei & H).
    exists (x :: p), s, l. rewrite size_cons. split_and!; [done..|lia|done].
  - exists [], (x :: start), (y :: limit). rewrite size_nil. split_and!; [done..|lia|done].
Qed.

(** What the separator is: the key itself, or the common prefix with its next
    byte incremented and still below the limit's byte. *)
Lemma FindShortestSeparator_cases start limit :
  FindShortestSeparator start limit = start ∨
  ∃ p s st l lt, start = p ++ s :: st ∧ limit = p ++ l :: lt ∧ b2z s + 1 < b2z l ∧
    FindShortestSeparator start limit = p ++ [z2b (b2z s + 1)].
Proof.
  unfold FindShortestSeparator.
  destruct (diff_index_loop_spec start limit 0) as (p & s & l & Es & El & -> & H).
  rewrite Z.add_0_l, Z.geb_leb. zcases; [by left|].
  subst start limit. rewrite !size_app in *.
  destruct s as [|s st]; [rewrite size_nil in *; pose proof (size_nonneg l); lia|].
  destruct l as [|l lt]; [rewrite size_nil, size_cons in *; pose proof (size_nonneg st); lia|].
  assert (∀ c t, nth_z (p ++ c :: t) (size p) = Some c) as Hn.
  { intros c t. unfold nth_z, size. destruct (Z.ltb_spec (Z.of_nat (length p)) 0); [lia|].
    rewrite Nat2Z.id. apply list_lookup_middle. done. }
  rewrite !Hn. destruct (Z.ltb_spec (b2z s) 255); [|by left].
  destruct (Z.ltb_spec (b2z s + 1) (b2z l)); [|by left]. right.
  exists p, s, st, l, lt. split_and!; [done..|]. cbn [andb].
  unfold size. rewrite Nat2Z.id, insert_app_r_alt by lia. rewrite Nat.sub_diag.
  cbn. unfold take_z. rewrite (app_assoc p [_] st : _ ++ _ :: _ = _).
  rewrite take_app_length' by (rewrite length_app; simpl; lia). done.
Qed.

Lemma FindShortSuccessor_loop_cases key rest : ∀ p i,
  key = p ++ rest → i = size p →
  FindShortSuccessor_loop key i rest = key ∨
  ∃ p' c t, key = p' ++ c :: t ∧ b2z c < 255 ∧
    FindShortSuccessor_loop key i rest = p' ++ [z2b (b2z c + 1)].
Proof.
  induction rest as [|c rest IH]; intros p i Hk Hi; simpl; [by left|].
  destruct (Z.eqb_spec (b2z c) 255) as [E|E]; cbn [negb].
  - apply (IH (p ++ [c])); [by rewrite <-app_assoc|].
    rewrite size_app, size_cons, size_nil. lia.
  - right. exists p, c, rest. pose proof (b2z_range c). split_and!; [done|lia|].
    subst key i. unfold size, take_z. rewrite Nat2Z.id, insert_app_r_alt by lia.
    rewrite Nat.sub_diag. cbn. rewrite (app_assoc p [_] rest : _ ++ _ :: _ = _).
    rewrite take_app_length' by (rewrite length_app; simpl; lia). done.
Qed.

Lemma lex_bump_gt p s st : b2z s < 255 → Slice.lex (p ++ s :: st) (p ++ [z2b (b2z s + 1)]) < 0.
Proof.
  intros H. rewrite Slice.lex_app. simpl. pose proof (b2z_range s).
  rewrite b2z_z2b_small by lia. zcases; lia.
Qed.

Lemma lex_bump_lt p s l lt :
  b2z s + 1 < b2z l → Slice.lex (p ++ [z2b (b2z s + 1)]) (p ++ l :: lt) < 0.
Proof.
  intros H. rewrite Slice.lex_app. simpl. pose proof (b2z_range s). pose proof (b2z_range l).
  rewrite b2z_z2b_small by lia. zcases; lia.
Qed.

End Bytewise.

(** [BytewiseComparator()]. *)
Definition BytewiseComparator : Comparator := {|
  Name := Bytewise.Name;
  Compare := Bytewise.Compare;
  FindShortestSeparator := Bytewise.FindShortestSeparator;
  FindShortSuccessor := Bytewise.FindShortSuccessor;
|}.

#[export] Instance BytewiseComparator_laws : ComparatorLaws BytewiseComparator.
Proof.
  split; simpl; unfold Bytewise.Compare; intros; rewrite ?Slice.compare_lex in *.
  - apply Slice.lex_refl.
  - rewrite Slice.lex_antisym. lia.
  - by eapply Slice.lex_trans.
  - destruct (Bytewise.FindShortestSeparator_cases start limit)
      as [->|(p & s & st & l & lt & -> & -> & Hb & ->)]; [rewrite Slice.lex_refl; lia|].
    pose proof (b2z_range l). apply Z.lt_le_incl, Bytewise.lex_bump_gt. lia.
  - destruct (Bytewise.FindShortestSeparator_cases start limit)
      as [->|(p & s & st & l & lt & -> & -> & Hb & ->)]; [done|].
    by apply Z.lt_le_incl, Bytewise.lex_bump_lt.
  - destruct (Bytewise.FindShortestSeparator_cases start limit)
      as [->|(p & s & st & l & lt & -> & -> & Hb & ->)]; [done|].
    by apply Bytewise.lex_bump_lt.
  - unfold Bytewise.FindShortSuccessor.
    destruct (Bytewise.FindShortSuccessor_loop_cases key key [] 0)
      as [->|(p & c & t & -> & Hc & ->)]; [done..|rewrite Slice.lex_refl; lia|].
    by apply Z.lt_le_incl, Bytewise.lex_bump_gt.
Qed.

(** The bytewise order identifies equal keys only. *)
Lemma Bytewise_Compare_eq a b : Bytewise.Compare a b = 0 ↔ a = b.
Proof. unfold Bytewise.Compare. rewrite Slice.compare_lex. apply Slice.lex_eq. Qed.

Lemma FindShortestSeparator_size start limit :
  size (Bytewise.FindShortestSeparator start limit) <= size start.
Proof.
  destruct (Bytewise.FindShortestSeparator_cases start limit)
    as [->|(p & s & st & l & lt & -> & -> & Hb & ->)]; [done|].
  autorewrite with rally_size. pose proof (size_nonneg st). lia.
Qed.

Lemma FindShortSuccessor_size key : size (Bytewise.FindShortSuccessor key) <= size key.
Proof.
  unfold Bytewise.FindShortSuccessor.
  destruct (Bytewise.FindShortSuccessor_loop_cases key key [] 0)
    as [->|(p & c & t & -> & Hc & ->)]; [done..|].
  autorewrite with rally_size. pose proof (size_nonneg t). lia.
Qed.

(** [Slice::compare], with its [memcmp] over the common length, is the
    lexicographic order on unsigned bytes, [operator==] is equality and
    [starts_with] the prefix test. *)
Theorem slice_compare_is_lex (a b : bytes) :
  Slice.compare a b = Slice.lex a b ∧ (Slice.compare a b = 0 ↔ a = b) ∧
  (Slice.eqb a b = true ↔ a = b) ∧ (Slice.starts_with a b = true ↔ ∃ r, a = b ++ r).
Proof.
  rewrite Slice.compare_lex.
  split_and!; [done|apply Slice.lex_eq|apply Slice.eqb_eq|apply Slice.starts_with_spec].
Qed.

(** a shortened index key produced for [start < limit] stays in
    [start, limit) and a short successor is not below its key; neither is ever
    longer than the key it replaces. *)
Theorem bytewise_shortening (start limit key : bytes) :
  Bytewise.Compare start limit < 0 →
  let sep := Bytewise.FindShortestSeparator start limit in
  let succ := Bytewise.FindShortSuccessor key in
  Bytewise.Compare start sep <= 0 ∧ Bytewise.Compare sep limit < 0 ∧ size sep <= size start ∧
  Bytewise.Compare key succ <= 0 ∧ size succ <= size key.
Proof.
  intros H sep succ. split_and!.
  - apply (@separator_ge BytewiseComparator _). simpl. lia.
  - by apply (@separator_lt BytewiseComparator _).
  - apply FindShortestSeparator_size.
  - apply (@successor_ge BytewiseComparator _).
  - apply FindShortSuccessor_size.
Qed.

Lemma bytewise_shortening_witness :
  Bytewise.Compare [x61; x62; x63; x64] [x61; x66] < 0 ∧
  Bytewise.FindShortestSeparator [x61; x62; x63; x64] [x61; x66] = [x61; x63] ∧
  Bytewise.Compare [x61; x63] [x61; x66] < 0.
Proof.
  split; [vm_compute; done|]. split; [vm_compute; done|].
  pose proof (bytewise_shortening [x61; x62; x63; x64] [x61; x66] [xff] ltac:(vm_compute; done)) as H.
  exact (proj1 (proj2 H)).
Defined.
