(* ===== verification/Filename.v ===== *)
(** * Numbers as text and file names (src/util/logging.cc, src/db/filename.cc)

    Directory contents are a map from names to contents; the statuses of the
    operations on files are arguments. *)

From Stdlib Require Import String DecimalString DecimalN DecimalPos.
From stdpp Require Import gmap.
From S2P Require Import Prelude Coding Status Comparator.

(** ** Logging helpers *)

Definition AppendNumberTo (str : bytes) (num : Z) : bytes := str ++ decimal num.

Definition NumberToString (num : Z) : bytes := AppendNumberTo [] num.

(** One lower case hexadecimal digit. *)
Definition hex_digit (z : Z) : byte := z2b (if z <? 10 then 48 + z else 87 + z).

(** [char] is signed: the printable range excludes the negative values. *)
Definition escape_char (c : byte) : bytes :=
  if (b2sz c >=? 32) && (b2sz c <=? 126) then [c]
  else bs "\x" ++ [hex_digit (b2z c / 16); hex_digit (b2z c mod 16)].

Definition AppendEscapedStringTo (str value : bytes) : bytes := foldl (λ str c, str ++ escape_char c) str value.

Definition EscapeString (value : bytes) : bytes := AppendEscapedStringTo [] value.

Definition kMaxUint64 : Z := 2 ^ 64 - 1.
Definition kLastDigitOfMaxUint64 : Z := 48 + kMaxUint64 mod 10.

(** The [for] loop: the value and the digits consumed; [None] is the early return. *)
Fixpoint consume_loop (value digits : Z) (rest : bytes) : option (Z * Z * bytes) :=
  match rest with
  | [] => Some (value, digits, [])
  | c :: rest' =>
      let ch := b2z c in
      if (ch <? 48) || (ch >? 57) then Some (value, digits, rest)
      else if (value >? kMaxUint64 / 10) || ((value =? kMaxUint64 / 10) && (ch >? kLastDigitOfMaxUint64)) then None
      else consume_loop (u64 (u64 (value * 10) + (ch - 48))) (digits + 1) rest'
  end.

(** The value and the rest of the input, if the call returns true. *)
Definition ConsumeDecimalNumber (input : bytes) : option (Z * bytes) :=
  '(value, digits_consumed, rest) ← consume_loop 0 0 input;
  if digits_consumed =? 0 then None else Some (value, rest).

(** ** File names *)

Inductive FileType := kLogFile | kDBLockFile | kTableFile | kDescriptorFile | kCurrentFile | kTempFile | kInfoLogFile.

#[export] Instance FileType_eq_dec : EqDecision FileType.
Proof. solve_decision. Defined.

(** [%06llu]. *)
Definition decimal6 (number : Z) : bytes := replicate (6 - length (decimal number)) x30 ++ decimal number.

Definition MakeFileName (dbname : bytes) (number : Z) (suffix : bytes) : bytes :=
  dbname ++ bs "/" ++ decimal6 number ++ bs "." ++ suffix.

Definition LogFileName (dbname : bytes) (number : Z) : bytes := MakeFileName dbname number (bs "log").
Definition TableFileName (dbname : bytes) (number : Z) : bytes := MakeFileName dbname number (bs "ldb").
Definition SSTTableFileName (dbname : bytes) (number : Z) : bytes := MakeFileName dbname number (bs "sst").
Definition DescriptorFileName (dbname : bytes) (number : Z) : bytes := dbname ++ bs "/MANIFEST-" ++ decimal6 number.
Definition CurrentFileName (dbname : bytes) : bytes := dbname ++ bs "/CURRENT".
Definition LockFileName (dbname : bytes) : bytes := dbname ++ bs "/LOCK".
Definition TempFileName (dbname : bytes) (number : Z) : bytes := MakeFileName dbname number (bs "dbtmp").
Definition InfoLogFileName (dbname : bytes) : bytes := dbname ++ bs "/LOG".
Definition OldInfoLogFileName (dbname : bytes) : bytes := dbname ++ bs "/LOG.old".

Definition parse_numbered (rest : bytes) : option (Z * FileType) :=
  '(num, suffix) ← ConsumeDecimalNumber rest;
  if Slice.eqb suffix (bs ".log") then Some (num, kLogFile)
  else if Slice.eqb suffix (bs ".sst") || Slice.eqb suffix (bs ".ldb") then Some (num, kTableFile)
  else if Slice.eqb suffix (bs ".dbtmp") then Some (num, kTempFile)
  else None.

Definition ParseFileName (filename : bytes) : option (Z * FileType) :=
  let rest := filename in
  if Slice.eqb rest (bs "CURRENT") then Some (0, kCurrentFile)
  else if Slice.eqb rest (bs "LOCK") then Some (0, kDBLockFile)
  else if Slice.eqb rest (bs "LOG") || Slice.eqb rest (bs "LOG.old") then Some (0, kInfoLogFile)
  else if Slice.starts_with rest (bs "MANIFEST-") then
    '(num, rest) ← ConsumeDecimalNumber (drop_z (size (bs "MANIFEST-")) rest);
    if decide (rest = []) then Some (num, kDescriptorFile) else None
  else parse_numbered rest.

(** [write] and [rename] are the statuses of [WriteStringToFileSync] (which leaves no
    file behind when it fails) and of [RenameFile]. *)
Definition SetCurrentFile (write rename : Status) (files : gmap bytes bytes) (dbname : bytes) (descriptor_number : Z)
    : Status * gmap bytes bytes :=
  let manifest := DescriptorFileName dbname descriptor_number in
  let contents := drop_z (size dbname + 1) manifest in
  let tmp := TempFileName dbname descriptor_number in
  let files := if ok write then <[tmp := contents ++ [x0a]]> files else delete tmp files in
  let s := if ok write then rename else write in
  if ok s then (s, <[CurrentFileName dbname := contents ++ [x0a]]> (delete tmp files))
  else (s, delete tmp files).

(** ** Decimal numbers *)

Definition is_digit (c : byte) : bool := (48 <=? b2z c) && (b2z c <=? 57).

(** The leading digits, as numbers, and the rest. *)
Fixpoint split_digits (l : bytes) : list Z * bytes :=
  match l with
  | [] => ([], [])
  | c :: l' => if is_digit c then let '(ds, rest) := split_digits l' in (b2z c - 48 :: ds, rest) else ([], l)
  end.

Definition value_from (acc : Z) (ds : list Z) : Z := foldl (λ v d, v * 10 + d) acc ds.

Lemma value_from_cons acc d ds : value_from acc (d :: ds) = value_from (acc * 10 + d) ds.
Proof. done. Qed.

Lemma value_from_ge ds : Forall (λ d, 0 <= d) ds → ∀ acc, 0 <= acc → acc <= value_from acc ds.
Proof.
  induction 1 as [|d ds Hd _ IH]; intros acc Hacc; [simpl; lia|]. unfold value_from in *. cbn [foldl]. specialize (IH (acc * 10 + d)). lia.
Qed.

Lemma split_digits_nonneg l : Forall (λ d, 0 <= d) (split_digits l).1.
Proof.
  induction l as [|c l IH]; [constructor|]. cbn. unfold is_digit. destruct (Z.leb_spec 48 (b2z c)); [|constructor].
  destruct (b2z c <=? 57); [|constructor]. cbn. destruct (split_digits l). constructor; [lia|done].
Qed.

Lemma consume_loop_spec l : ∀ value n, is_u64 value →
  consume_loop value n l =
    let '(ds, rest) := split_digits l in
    if value_from value ds <? 2 ^ 64 then Some (value_from value ds, n + size ds, rest) else None.
Proof.
  induction l as [|c l IH]; intros value n Hv; cbn [consume_loop split_digits].
  { cbn. rewrite size_nil, Z.add_0_r. destruct (Z.ltb_spec value (2 ^ 64)); [done|range_lia]. }
  unfold is_digit. rewrite Z.gtb_ltb. rewrite (Z.leb_antisym (b2z c) 48), (Z.leb_antisym 57 (b2z c)), <-negb_orb.
  destruct ((b2z c <? 48) || (57 <? b2z c)) eqn:Ed; cbn [negb].
  - cbn [value_from foldl]. change (size []) with 0. rewrite Z.add_0_r. destruct (Z.ltb_spec value (2 ^ 64)); [done|range_lia].
  - apply orb_false_iff in Ed as [E1%Z.ltb_ge E2%Z.ltb_ge]. pose proof (split_digits_nonneg l) as Hnn.
    destruct (split_digits l) as [ds rest]. cbn [fst] in Hnn. rewrite value_from_cons.
    change (kMaxUint64 / 10) with 1844674407370955161. change kLastDigitOfMaxUint64 with 53. rewrite !Z.gtb_ltb.
    pose proof (value_from_ge ds Hnn (value * 10 + (b2z c - 48)) ltac:(range_lia)) as Hge.
    destruct (_ || _) eqn:Eo.
    + destruct (Z.ltb_spec (value_from (value * 10 + (b2z c - 48)) ds) (2 ^ 64)); [|done].
      apply orb_true_iff in Eo as [Eo%Z.ltb_lt|[Eo%Z.eqb_eq Eo'%Z.ltb_lt]%andb_true_iff]; lia.
    + apply orb_false_iff in Eo as [E3%Z.ltb_ge E4]. assert (value * 10 + (b2z c - 48) < 2 ^ 64) as Hlt.
      { apply andb_false_iff in E4 as [E4%Z.eqb_neq|E4%Z.ltb_ge]; lia. }
      rewrite (u64_small (value * 10)) by range_lia. rewrite u64_small by range_lia. rewrite IH by range_lia.
      rewrite size_cons. by replace (n + 1 + size ds) with (n + (1 + size ds)) by lia.
Qed.

Lemma ConsumeDecimalNumber_spec input :
  ConsumeDecimalNumber input =
    let '(ds, rest) := split_digits input in
    if decide (ds = []) then None else if value_from 0 ds <? 2 ^ 64 then Some (value_from 0 ds, rest) else None.
Proof.
  unfold ConsumeDecimalNumber. rewrite consume_loop_spec by range_lia. destruct (split_digits input) as [ds rest].
  destruct (decide (ds = [])) as [->|Hne].
  - cbn. done.
  - destruct (value_from 0 ds <? 2 ^ 64); [|done]. cbn [mbind option_bind]. destruct ds as [|d ds]; [done|]. rewrite size_cons.
    pose proof (size_nonneg ds). destruct (Z.eqb_spec (0 + (1 + size ds)) 0); [lia|done].
Qed.

(** *** What [decimal] prints *)

Fixpoint uint_digits (d : Decimal.uint) : list Z :=
  match d with
  | Decimal.Nil => []
  | Decimal.D0 d => 0 :: uint_digits d | Decimal.D1 d => 1 :: uint_digits d | Decimal.D2 d => 2 :: uint_digits d
  | Decimal.D3 d => 3 :: uint_digits d | Decimal.D4 d => 4 :: uint_digits d | Decimal.D5 d => 5 :: uint_digits d
  | Decimal.D6 d => 6 :: uint_digits d | Decimal.D7 d => 7 :: uint_digits d | Decimal.D8 d => 8 :: uint_digits d
  | Decimal.D9 d => 9 :: uint_digits d
  end.

Lemma bs_cons a s : bs (String a s) = Ascii.byte_of_ascii a :: bs s.
Proof. done. Qed.

Lemma split_uint d rest : split_digits (bs (NilEmpty.string_of_uint d) ++ rest) =
  (uint_digits d ++ (split_digits rest).1, (split_digits rest).2).
Proof.
  induction d as [|d IH|d IH|d IH|d IH|d IH|d IH|d IH|d IH|d IH|d IH]; [cbn; by destruct (split_digits rest)|..];
    cbn [NilEmpty.string_of_uint uint_digits]; rewrite bs_cons; cbn [app split_digits]; rewrite IH; reflexivity.
Qed.

Lemma of_uint_acc_value d : ∀ acc, Zpos (Pos.of_uint_acc d acc) = value_from (Zpos acc) (uint_digits d).
Proof.
  unfold value_from. induction d as [|d IH|d IH|d IH|d IH|d IH|d IH|d IH|d IH|d IH|d IH]; intros acc; [done|..];
    cbn [Pos.of_uint_acc uint_digits foldl]; rewrite IH; f_equal; lia.
Qed.

Lemma of_uint_value d : Z.of_N (Pos.of_uint d) = value_from 0 (uint_digits d).
Proof.
  unfold value_from. induction d as [|d IH|d IH|d IH|d IH|d IH|d IH|d IH|d IH|d IH|d IH]; [done|exact IH|..];
    cbn [Pos.of_uint Z.of_N uint_digits foldl]; rewrite of_uint_acc_value; done.
Qed.

Lemma decimal_digits z rest : 0 <= z → ∃ ds, ds ≠ [] ∧ value_from 0 ds = z ∧
  split_digits (decimal z ++ rest) = (ds ++ (split_digits rest).1, (split_digits rest).2).
Proof.
  intros Hz. unfold decimal, NilZero.string_of_uint. set (d := N.to_uint (Z.to_N z)).
  assert (value_from 0 (uint_digits d) = z) as Hv.
  { rewrite <-of_uint_value. change (Pos.of_uint d) with (N.of_uint d). unfold d. rewrite DecimalN.Unsigned.of_to. lia. }
  assert (d ≠ Decimal.Nil) as Hd.
  { unfold d. destruct (Z.to_N z); [done|]. apply DecimalPos.Unsigned.to_uint_nonnil. }
  exists (uint_digits d). split; [by destruct d|]. split; [done|]. rewrite <-split_uint. by destruct d.
Qed.

(** ** Names are parsed back *)

Lemma value_zeros n ds : value_from 0 (replicate n 0 ++ ds) = value_from 0 ds.
Proof. induction n as [|n IH]; [done|]. exact IH. Qed.

Lemma decimal6_digits z rest : 0 <= z → ∃ ds, ds ≠ [] ∧ value_from 0 ds = z ∧
  split_digits (decimal6 z ++ rest) = (ds ++ (split_digits rest).1, (split_digits rest).2).
Proof.
  intros Hz. unfold decimal6. destruct (decimal_digits z rest Hz) as (ds & Hne & Hv & Hs). rewrite <-app_assoc.
  exists (replicate (6 - length (decimal z)) 0 ++ ds). split; [by intros [_ ?]%app_nil|]. split; [by rewrite value_zeros|].
  rewrite <-app_assoc. generalize (6 - length (decimal z))%nat as n. induction n as [|n IH]; [done|]. cbn [replicate app split_digits is_digit].
  rewrite IH. done.
Qed.

Lemma ConsumeDecimalNumber_decimal6 z rest : is_u64 z → (split_digits rest).1 = [] →
  ConsumeDecimalNumber (decimal6 z ++ rest) = Some (z, rest).
Proof.
  intros Hz Hr. rewrite ConsumeDecimalNumber_spec. destruct (decimal6_digits z rest) as (ds & Hne & Hv & ->); [range_lia|].
  rewrite Hr, app_nil_r. assert ((split_digits rest).2 = rest) as ->.
  { destruct rest as [|c rest]; [done|]. cbn in *. destruct (is_digit c); [|done]. by destruct (split_digits rest). }
  rewrite decide_False by done. rewrite Hv. destruct (Z.ltb_spec z (2 ^ 64)); [done|range_lia].
Qed.

(** A name that starts with a digit is none of the fixed ones. *)
Lemma decimal6_head z : ∃ c l, decimal6 z = c :: l ∧ is_digit c = true.
Proof.
  assert (∃ c l, decimal z = c :: l ∧ is_digit c = true) as (c & l & E & H).
  { unfold decimal, NilZero.string_of_uint. set (d := N.to_uint _). destruct d; eexists _, _; (split; [reflexivity|done]). }
  unfold decimal6. rewrite E. destruct (6 - length (c :: l))%nat; [by exists c, l|]. by eexists x30, _.
Qed.

Lemma Slice_eqb_neq a b : a ≠ b → Slice.eqb a b = false.
Proof. intros H. apply not_true_iff_false. by rewrite Slice.eqb_eq. Qed.

Lemma ParseFileName_numbered z suffix : ParseFileName (decimal6 z ++ suffix) = parse_numbered (decimal6 z ++ suffix).
Proof.
  destruct (decimal6_head z) as (c & l & -> & Hc). cbn [app]. unfold ParseFileName.
  assert (∀ c' l', is_digit c' = false → Slice.eqb (c :: l ++ suffix) (c' :: l') = false) as Hne
    by (intros c' l' Hc'; apply Slice_eqb_neq; intros [= -> _]; congruence).
  assert (Slice.starts_with (c :: l ++ suffix) (bs "MANIFEST-") = false) as Hst.
  { apply not_true_iff_false. rewrite Slice.starts_with_spec. intros (r & E). injection E as -> _. done. }
  change (bs "CURRENT") with (x43 :: bs "URRENT"). change (bs "LOCK") with (x4c :: bs "OCK"). change (bs "LOG") with (x4c :: bs "OG").
  change (bs "LOG.old") with (x4c :: bs "OG.old"). rewrite !Hne by done. cbn [orb]. by rewrite Hst.
Qed.

Lemma drop_dbname (dbname rest : bytes) : drop_z (size dbname + 1) (dbname ++ bs "/" ++ rest) = rest.
Proof. rewrite app_assoc. apply drop_z_app. by rewrite size_app. Qed.

Lemma parse_descriptor z : is_u64 z → ParseFileName (bs "MANIFEST-" ++ decimal6 z) = Some (z, kDescriptorFile).
Proof.
  intros Hz. unfold ParseFileName.
  assert (∀ s, head s ≠ Some x4d → Slice.eqb (bs "MANIFEST-" ++ decimal6 z) s = false) as Hne
    by (intros s Hs; apply Slice_eqb_neq; by intros <-).
  rewrite !Hne by done. cbn [orb]. assert (Slice.starts_with (bs "MANIFEST-" ++ decimal6 z) (bs "MANIFEST-") = true) as ->
    by (apply Slice.starts_with_spec; eauto).
  rewrite drop_z_app by done. rewrite <-(app_nil_r (decimal6 z)). rewrite ConsumeDecimalNumber_decimal6 by done. done.
Qed.

(** ** Properties *)

(** File names are parsed back.  For every 64-bit number, the base name of a log,
    table, old table, temporary or descriptor file parses to that number and type;
    the number is read exactly up to the largest 64-bit value, and digits whose value
    is larger are rejected instead of wrapping around.  When [SetCurrentFile] succeeds,
    CURRENT holds a line that names the descriptor, and no temporary file is left in
    any case. *)
Theorem file_names_roundtrip (dbname : bytes) (n : Z) (files : gmap bytes bytes) (write rename : Status) : is_u64 n →
  let base := λ name, drop_z (size dbname + 1) name in
  ParseFileName (base (LogFileName dbname n)) = Some (n, kLogFile) ∧
  ParseFileName (base (TableFileName dbname n)) = Some (n, kTableFile) ∧
  ParseFileName (base (SSTTableFileName dbname n)) = Some (n, kTableFile) ∧
  ParseFileName (base (TempFileName dbname n)) = Some (n, kTempFile) ∧
  ParseFileName (base (DescriptorFileName dbname n)) = Some (n, kDescriptorFile) ∧
  (∀ input, ConsumeDecimalNumber input =
     let '(ds, rest) := split_digits input in
     if decide (ds = []) then None else if value_from 0 ds <? 2 ^ 64 then Some (value_from 0 ds, rest) else None) ∧
  let '(s, files') := SetCurrentFile write rename files dbname n in
  files' !! TempFileName dbname n = None ∧
  (if ok s then ∃ line, files' !! CurrentFileName dbname = Some (line ++ [x0a]) ∧ ParseFileName line = Some (n, kDescriptorFile)
   else files' !! CurrentFileName dbname = files !! CurrentFileName dbname).
Proof.
  intros Hn base. unfold base, LogFileName, TableFileName, SSTTableFileName, TempFileName, MakeFileName. rewrite !drop_dbname.
  assert (∀ c l, is_digit c = false → ConsumeDecimalNumber (decimal6 n ++ c :: l) = Some (n, c :: l)) as Hc.
  { intros c l H. apply ConsumeDecimalNumber_decimal6; [done|]. cbn. by rewrite H. }
  assert (∀ suffix, ParseFileName (decimal6 n ++ bs "." ++ suffix) =
    (if Slice.eqb (bs "." ++ suffix) (bs ".log") then Some (n, kLogFile)
     else if Slice.eqb (bs "." ++ suffix) (bs ".sst") || Slice.eqb (bs "." ++ suffix) (bs ".ldb") then Some (n, kTableFile)
     else if Slice.eqb (bs "." ++ suffix) (bs ".dbtmp") then Some (n, kTempFile) else None)) as Hp.
  { intros suffix. rewrite ParseFileName_numbered. unfold parse_numbered. change (bs "." ++ suffix) with (x2e :: suffix). by rewrite Hc. }
  rewrite !Hp. split; [done|]. split; [done|]. split; [done|]. split; [done|]. split; [|split; [apply ConsumeDecimalNumber_spec|]].
  { unfold DescriptorFileName. change (bs "/MANIFEST-" ++ decimal6 n) with (bs "/" ++ (bs "MANIFEST-" ++ decimal6 n)). rewrite drop_dbname. by apply parse_descriptor. }
  assert (TempFileName dbname n ≠ CurrentFileName dbname) as Hne.
  { unfold TempFileName, CurrentFileName, MakeFileName. intros E%app_inv_head. injection E as E. destruct (decimal6_head n) as (c & l & Hd & Hdig).
    rewrite Hd in E. injection E as -> _. done. }
  fold (MakeFileName dbname n (bs "dbtmp")). change (MakeFileName dbname n (bs "dbtmp")) with (TempFileName dbname n).
  unfold SetCurrentFile. destruct (ok (if ok write then rename else write)) eqn:E; rewrite E.
  - rewrite lookup_insert_ne, lookup_delete_eq by done. split; [done|]. eexists. rewrite lookup_insert_eq. split; [done|].
    unfold DescriptorFileName. change (bs "/MANIFEST-" ++ decimal6 n) with (bs "/" ++ (bs "MANIFEST-" ++ decimal6 n)). rewrite drop_dbname. by apply parse_descriptor.
  - rewrite lookup_delete_eq, lookup_delete_ne by done. split; [done|]. destruct (ok write); [by rewrite lookup_insert_ne|by rewrite lookup_delete_ne].
Qed.

Lemma file_names_roundtrip_witness :
  is_u64 (2 ^ 64 - 1) ∧ ParseFileName (drop_z (size (bs "db") + 1) (LogFileName (bs "db") (2 ^ 64 - 1))) = Some (2 ^ 64 - 1, kLogFile) ∧
  LogFileName (bs "db") 7 = bs "db/000007.log" ∧ ParseFileName (bs "18446744073709551616.log") = None.
Proof.
  split; [range_lia|]. split; [|split; vm_compute; reflexivity].
  apply (file_names_roundtrip (bs "db") (2 ^ 64 - 1) ∅ Status_OK Status_OK). range_lia.
Defined.
