(* ===== verification/Block.v ===== *)
(** * Blocks of sorted entries
    (src/table/block_builder.h, src/table/block_builder.cc, src/table/block.h,
     src/table/block.cc)

    A block stores entries with prefix-compressed keys, restart points at which
    a full key is stored, and the array of restart offsets.  [BlockBuilder]
    writes one; [Block] and its iterator read it.

    A pointer into the block is an offset.  Operations of the iterator return
    [None] for an access outside the block contents, and when the fuel of a loop
    runs out; for a block made by the builder neither happens. *)

From Stdlib Require Import String.
From S2P Require Import Prelude Coding Status Comparator.
Import Coding.

(** ** BlockBuilder *)

Record BlockBuilder := MkBuilder {
  buffer_ : bytes;
  restarts_ : list Z;
  counter_ : Z;
  finished_ : bool;
  last_key_ : bytes;
}.

Definition NewBlockBuilder : BlockBuilder := MkBuilder [] [0] 0 false [].

Definition Reset (b : BlockBuilder) : BlockBuilder := MkBuilder [] [0] 0 false [].

Definition CurrentSizeEstimate (b : BlockBuilder) : Z :=
  size (buffer_ b) + size (restarts_ b) * 4 + 4.

Definition empty (b : BlockBuilder) : bool := size (buffer_ b) =? 0.

(** The restart array and its length are appended to the buffer. *)
Definition Finish (b : BlockBuilder) : bytes * BlockBuilder :=
  let buffer := foldl PutFixed32 (buffer_ b) (restarts_ b) in
  let buffer := PutFixed32 buffer (u32 (size (restarts_ b))) in
  (buffer, MkBuilder buffer (restarts_ b) (counter_ b) true (last_key_ b)).

(** The loop that counts the bytes shared with the previous key. *)
Fixpoint shared_bytes (last_key_piece key : bytes) : Z :=
  match last_key_piece, key with
  | x :: last, y :: key => if bool_decide (x = y) then 1 + shared_bytes last key else 0
  | _, _ => 0
  end.

Definition Add (block_restart_interval : Z) (key value : bytes) (b : BlockBuilder) : BlockBuilder :=
  let '(shared, restarts, counter) :=
    if counter_ b <? block_restart_interval
    then (shared_bytes (last_key_ b) key, restarts_ b, counter_ b)
    else (0, restarts_ b ++ [u32 (size (buffer_ b))], 0) in
  let non_shared := size key - shared in
  let buffer := PutVarint32 (buffer_ b) (u32 shared) in
  let buffer := PutVarint32 buffer (u32 non_shared) in
  let buffer := PutVarint32 buffer (u32 (size value)) in
  let buffer := buffer ++ take_z non_shared (drop_z shared key) in
  let buffer := buffer ++ value in
  let last_key := resize shared (last_key_ b) ++ take_z non_shared (drop_z shared key) in
  MkBuilder buffer restarts (counter + 1) (finished_ b) last_key.

(** ** Block *)

Record Block := MkBlock { data_ : bytes; size_ : Z; restart_offset_ : Z }.

Definition DecodeFixed32_at (data : bytes) (offset : Z) : option Z :=
  if offset <? 0 then None else DecodeFixed32 (drop_z offset data).

Definition NumRestarts (data : bytes) (size : Z) : Z := default 0 (DecodeFixed32_at data (size - 4)).

(** [size_ = 0] marks an error. *)
Definition NewBlock (contents : bytes) : Block :=
  let sz := size contents in
  if sz <? 4 then MkBlock contents 0 0
  else
    let max_restarts_allowed := (sz - 4) / 4 in
    if NumRestarts contents sz >? max_restarts_allowed then MkBlock contents 0 0
    else MkBlock contents sz (u32 (sz - u32 (1 + NumRestarts contents sz) * 4)).

(** Decodes the header of the entry that starts at [p] (the bytes up to the limit):
    shared, non-shared and value lengths, and what follows. *)
Definition DecodeEntry (p : bytes) : option (Z * Z * Z * bytes) :=
  if size p <? 3 then None
  else
    let shared := b2z (nth 0 p x00) in
    let non_shared := b2z (nth 1 p x00) in
    let value_length := b2z (nth 2 p x00) in
    '(shared, non_shared, value_length, p) ←
      (if Z.lor (Z.lor shared non_shared) value_length <? 128
       then Some (shared, non_shared, value_length, drop_z 3 p)
       else
         '(shared, p) ← GetVarint32Ptr p;
         '(non_shared, p) ← GetVarint32Ptr p;
         '(value_length, p) ← GetVarint32Ptr p;
         Some (shared, non_shared, value_length, p));
    if u32 (size p) <? u32 (non_shared + value_length) then None
    else Some (shared, non_shared, value_length, p).

(** ** Block::Iter *)

(** [value_] is a range of the block: its offset and its length. *)
Record Iter := MkIter {
  it_data : bytes;
  it_restarts : Z;
  num_restarts_ : Z;
  current_ : Z;
  restart_index_ : Z;
  key_ : bytes;
  value_pos : Z;
  value_len : Z;
  status_ : Status;
}.

Definition NewIter (data : bytes) (restarts num_restarts : Z) : Iter :=
  MkIter data restarts num_restarts restarts num_restarts [] 0 0 Status_OK.

Definition Valid (it : Iter) : bool := current_ it <? it_restarts it.

Definition key (it : Iter) : bytes := key_ it.
Definition value (it : Iter) : bytes := sub_z (value_pos it) (value_len it) (it_data it).

Definition NextEntryOffset (it : Iter) : Z := u32 (value_pos it + value_len it).

Definition GetRestartPoint (it : Iter) (index : Z) : option Z :=
  DecodeFixed32_at (it_data it) (it_restarts it + u32 index * 4).

Definition SeekToRestartPoint (it : Iter) (index : Z) : option Iter :=
  offset ← GetRestartPoint it index;
  Some (MkIter (it_data it) (it_restarts it) (num_restarts_ it) (current_ it) index [] offset 0 (status_ it)).

Definition invalidate (it : Iter) : Iter :=
  MkIter (it_data it) (it_restarts it) (num_restarts_ it) (it_restarts it) (num_restarts_ it)
    (key_ it) (value_pos it) (value_len it) (status_ it).

Definition CorruptionError (it : Iter) : Iter :=
  MkIter (it_data it) (it_restarts it) (num_restarts_ it) (it_restarts it) (num_restarts_ it)
    [] 0 0 (Corruption (bs "bad entry in block") []).

(** [while (restart_index_ + 1 < num_restarts_ && GetRestartPoint(restart_index_ + 1) < current_)]. *)
Fixpoint advance_restart (fuel : nat) (it : Iter) (index current : Z) : option Z :=
  match fuel with
  | O => None
  | S fuel =>
      if u32 (index + 1) <? num_restarts_ it then
        p ← GetRestartPoint it (index + 1);
        if p <? current then advance_restart fuel it (u32 (index + 1)) current else Some index
      else Some index
  end.

Definition entry_bytes (it : Iter) (offset : Z) : bytes :=
  sub_z offset (it_restarts it - offset) (it_data it).

Definition ParseNextKey (it : Iter) : option (bool * Iter) :=
  let current := NextEntryOffset it in
  if current >=? it_restarts it then Some (false, invalidate it)
  else
    match DecodeEntry (entry_bytes it current) with
    | None => Some (false, CorruptionError it)
    | Some (shared, non_shared, value_length, p) =>
        if size (key_ it) <? shared then Some (false, CorruptionError it)
        else if size p <? non_shared then None
        else
          let key := resize shared (key_ it) ++ take_z non_shared p in
          let pos := it_restarts it - size p + non_shared in
          index ← advance_restart (S (Z.to_nat (num_restarts_ it))) it (restart_index_ it) current;
          Some (true, MkIter (it_data it) (it_restarts it) (num_restarts_ it) current index key pos value_length (status_ it))
    end.

Definition Next (it : Iter) : option Iter := snd <$> ParseNextKey it.

(** The backward scan over the restart array: [None] inside is "no more entries". *)
Fixpoint Prev_restart (fuel : nat) (it : Iter) (index original : Z) : option (option Z) :=
  match fuel with
  | O => None
  | S fuel =>
      p ← GetRestartPoint it index;
      if p >=? original then
        if index =? 0 then Some None else Prev_restart fuel it (index - 1) original
      else Some (Some index)
  end.

(** [do {} while (ParseNextKey() && NextEntryOffset() < bound)]. *)
Fixpoint parse_until (fuel : nat) (it : Iter) (bound : Z) : option Iter :=
  match fuel with
  | O => None
  | S fuel =>
      '(more, it) ← ParseNextKey it;
      if (more : bool) && (NextEntryOffset it <? bound) then parse_until fuel it bound else Some it
  end.

Definition Prev (it : Iter) : option Iter :=
  let original := current_ it in
  r ← Prev_restart (S (Z.to_nat (restart_index_ it))) it (restart_index_ it) original;
  match r with
  | None => Some (invalidate it)
  | Some index =>
      it ← SeekToRestartPoint it index;
      parse_until (S (Z.to_nat (it_restarts it))) it original
  end.

Definition SeekToFirst (it : Iter) : option Iter :=
  it ← SeekToRestartPoint it 0;
  snd <$> ParseNextKey it.

Definition SeekToLast (it : Iter) : option Iter :=
  it ← SeekToRestartPoint it (u32 (num_restarts_ it - 1));
  parse_until (S (Z.to_nat (it_restarts it))) it (it_restarts it).

Section Seek.
  Context {C : Comparator}.

(** The binary search over the restart points; [None] inside is a bad entry. *)
Fixpoint Seek_binary (fuel : nat) (it : Iter) (target : bytes) (left right : Z) : option (option Z) :=
  match fuel with
  | O => None
  | S fuel =>
      if left <? right then
        let mid := u32 (left + right + 1) / 2 in
        region_offset ← GetRestartPoint it mid;
        match DecodeEntry (entry_bytes it region_offset) with
        | None => Some None
        | Some (shared, non_shared, value_length, key_ptr) =>
            if negb (shared =? 0) then Some None
            else if size key_ptr <? non_shared then None
            else if Compare (take_z non_shared key_ptr) target <? 0
            then Seek_binary fuel it target mid right
            else Seek_binary fuel it target left (u32 (mid - 1))
        end
      else Some (Some left)
  end.

(** The linear search for the first key that is not smaller. *)
Fixpoint Seek_linear (fuel : nat) (it : Iter) (target : bytes) : option Iter :=
  match fuel with
  | O => None
  | S fuel =>
      '(more, it) ← ParseNextKey it;
      if negb more then Some it
      else if Compare (key_ it) target >=? 0 then Some it
      else Seek_linear fuel it target
  end.

Definition Seek (it : Iter) (target : bytes) : option Iter :=
  let current_key_compare := if Valid it then Compare (key_ it) target else 0 in
  if Valid it && (current_key_compare =? 0) then Some it
  else
    let left := if Valid it && (current_key_compare <? 0) then restart_index_ it else 0 in
    let right := if Valid it && (current_key_compare >? 0) then restart_index_ it else u32 (num_restarts_ it - 1) in
    r ← Seek_binary (S (Z.to_nat (num_restarts_ it))) it target left right;
    match r with
    | None => Some (CorruptionError it)
    | Some left_ =>
        let skip_seek := (left_ =? restart_index_ it) && (current_key_compare <? 0) in
        it ← (if skip_seek then Some it else SeekToRestartPoint it left_);
        Seek_linear (S (Z.to_nat (it_restarts it))) it target
    end.

End Seek.

(** [Block::NewIterator]. *)
Inductive BlockIterator :=
  | ErrorIterator (s : Status)
  | EmptyIterator
  | BlockIter (it : Iter).

Definition NewIterator (b : Block) : BlockIterator :=
  if size_ b <? 4 then ErrorIterator (Corruption (bs "bad block contents") [])
  else
    let num_restarts := NumRestarts (data_ b) (size_ b) in
    if num_restarts =? 0 then EmptyIterator
    else BlockIter (NewIter (data_ b) (restart_offset_ b) num_restarts).

(** ** Entries and their encoding *)

(** An entry with the number of key bytes it shares with the previous key. *)
Definition entry : Type := Z * bytes * bytes.
Definition e_shared (e : entry) : Z := e.1.1.
Definition e_key (e : entry) : bytes := e.1.2.
Definition e_value (e : entry) : bytes := e.2.

Definition enc (e : entry) : bytes :=
  EncodeVarint32 (e_shared e) ++ EncodeVarint32 (size (e_key e) - e_shared e) ++
  EncodeVarint32 (size (e_value e)) ++ drop_z (e_shared e) (e_key e) ++ e_value e.

Definition enc_all (es : list entry) : bytes := concat (enc <$> es).

(** Offset of the entry with index [i]. *)
Definition off (es : list entry) (i : nat) : Z := size (enc_all (take i es)).

Definition prev_key (es : list entry) (i : nat) : bytes :=
  match i with O => [] | S i => default [] (e_key <$> es !! i) end.

Definition entries_ok (es : list entry) : Prop := ∀ i e, es !! i = Some e →
  0 <= e_shared e <= size (e_key e) ∧ e_shared e <= size (prev_key es i) ∧
  take_z (e_shared e) (prev_key es i) = take_z (e_shared e) (e_key e).

Lemma enc_all_app es fs : enc_all (es ++ fs) = enc_all es ++ enc_all fs.
Proof. unfold enc_all. by rewrite fmap_app, concat_app. Qed.

Lemma enc_all_single e : enc_all [e] = enc e.
Proof. unfold enc_all. cbn [fmap list_fmap concat]. apply app_nil_r. Qed.

Lemma off_S es i e : es !! i = Some e → off es (S i) = off es i + size (enc e).
Proof.
  intros Hi. unfold off. rewrite (take_S_r _ _ _ Hi), enc_all_app, size_app, enc_all_single. done.
Qed.

Lemma enc_all_split es i e : es !! i = Some e →
  enc_all es = enc_all (take i es) ++ enc e ++ enc_all (drop (S i) es).
Proof. intros Hi. rewrite <-(take_drop_middle _ _ _ Hi) at 1. by rewrite enc_all_app. Qed.

Lemma off_0 es : off es 0 = 0.
Proof. done. Qed.

Lemma off_nonneg es i : 0 <= off es i.
Proof. apply size_nonneg. Qed.

Lemma off_ge es i : (length es <= i)%nat → off es i = size (enc_all es).
Proof. intros. unfold off. by rewrite take_ge. Qed.

(** Sizes of the parts of an entry, under a bound on the whole. *)
Lemma size_enc e : 0 <= e_shared e <= size (e_key e) → size (e_key e) < 2 ^ 32 → size (e_value e) < 2 ^ 32 →
  3 + (size (e_key e) - e_shared e) + size (e_value e) <= size (enc e).
Proof.
  intros Hs Hk Hv. unfold enc. rewrite !size_app, size_drop_z by lia. pose proof (size_nonneg (e_value e)).
  pose proof (size_EncodeVarint32 (e_shared e)). pose proof (size_EncodeVarint32 (size (e_value e))).
  pose proof (size_EncodeVarint32 (size (e_key e) - e_shared e)). range_lia.
Qed.

(** The one-byte fast path agrees with the varint decoder. *)
Lemma GetVarint32Ptr_byte c p : b2z c < 128 → GetVarint32Ptr (c :: p) = Some (b2z c, p).
Proof.
  intros Hc. unfold GetVarint32Ptr. rewrite land_128 by apply b2z_range.
  rewrite (proj2 (Z.ltb_lt _ _) Hc). done.
Qed.

Lemma DecodeEntry_slow p : DecodeEntry p =
  if size p <? 3 then None
  else
    '(shared, p) ← GetVarint32Ptr p;
    '(non_shared, p) ← GetVarint32Ptr p;
    '(value_length, p) ← GetVarint32Ptr p;
    if u32 (size p) <? u32 (non_shared + value_length) then None
    else Some (shared, non_shared, value_length, p).
Proof.
  unfold DecodeEntry. destruct (Z.ltb_spec (size p) 3) as [|Hp]; [done|].
  destruct p as [|a [|b [|c p]]]; try (unfold size in Hp; simpl in Hp; lia). cbn [nth].
  destruct (Z.ltb_spec (Z.lor (Z.lor (b2z a) (b2z b)) (b2z c)) 128) as [Hlt|Hge].
  - pose proof (b2z_range a). pose proof (b2z_range b). pose proof (b2z_range c).
    assert (0 <= Z.lor (b2z a) (b2z b)) by (apply Z.lor_nonneg; lia).
    destruct (lor_range_inv (Z.lor (b2z a) (b2z b)) (b2z c) 7) as [Hab Hc]; [lia|lia|lia|done|].
    destruct (lor_range_inv (b2z a) (b2z b) 7) as [Ha Hb]; [lia|lia|lia|done|].
    rewrite GetVarint32Ptr_byte by done. cbn [mbind option_bind]. rewrite GetVarint32Ptr_byte by done.
    cbn [mbind option_bind]. rewrite GetVarint32Ptr_byte by done. done.
  - destruct (GetVarint32Ptr (a :: b :: c :: p)) as [[s1 p1]|]; [|done]. cbn [mbind option_bind].
    destruct (GetVarint32Ptr p1) as [[s2 p2]|]; [|done]. cbn [mbind option_bind].
    destruct (GetVarint32Ptr p2) as [[s3 p3]|]; done.
Qed.

Lemma DecodeEntry_enc e rest : 0 <= e_shared e <= size (e_key e) → size (enc e ++ rest) < 2 ^ 32 →
  size (e_key e) < 2 ^ 32 → size (e_value e) < 2 ^ 32 →
  DecodeEntry (enc e ++ rest) =
    Some (e_shared e, size (e_key e) - e_shared e, size (e_value e),
          drop_z (e_shared e) (e_key e) ++ e_value e ++ rest).
Proof.
  intros Hs Hsz Hk Hv. pose proof (size_enc e Hs Hk Hv) as Hn. pose proof (size_nonneg rest) as Hr.
  pose proof (size_nonneg (e_value e)) as Hv0. rewrite size_app in Hsz. rewrite DecodeEntry_slow, size_app.
  destruct (Z.ltb_spec (size (enc e) + size rest) 3); [lia|].
  unfold enc. rewrite <-!app_assoc. fold (GetVarint32 : bytes → _).
  do 3 (rewrite GetVarint32_Encode by range_lia; cbn [mbind option_bind]).
  rewrite !size_app, size_drop_z by lia. rewrite !u32_small by range_lia.
  destruct (Z.ltb_spec (size (e_key e) - e_shared e + (size (e_value e) + size rest))
    (size (e_key e) - e_shared e + size (e_value e))); [lia|done].
Qed.

(** ** What the builder builds *)

Lemma shared_bytes_spec last key :
  0 <= shared_bytes last key <= size key ∧ shared_bytes last key <= size last ∧
  take_z (shared_bytes last key) last = take_z (shared_bytes last key) key.
Proof.
  revert key. induction last as [|x last IH]; intros [|y key]; cbn [shared_bytes]; rewrite ?size_cons.
  - done.
  - pose proof (size_nonneg key). split_and!; done || lia.
  - pose proof (size_nonneg last). change (size []) with 0. split_and!; done || lia.
  - pose proof (size_nonneg key). pose proof (size_nonneg last).
    destruct (bool_decide_reflect (x = y)) as [->|]; [|split_and!; done || lia].
    destruct (IH key) as (H1 & H2 & H3). split_and!; try lia.
    unfold take_z in *. rewrite Z2Nat.inj_add by lia. simpl. by rewrite H3.
Qed.

(** The entries in a builder, and the indices of its restart points. *)
Record built (es : list entry) (ridx : list nat) (b : BlockBuilder) : Prop := {
  bt_buffer : buffer_ b = enc_all es;
  bt_restarts : restarts_ b = (λ i, u32 (off es i)) <$> ridx;
  bt_last : last_key_ b = prev_key es (length es);
  bt_ok : entries_ok es;
  bt_head : ridx !! 0%nat = Some 0%nat;
  bt_sorted : ∀ j i i', ridx !! j = Some i → ridx !! S j = Some i' → (i < i')%nat;
  bt_entry : ∀ i, i ∈ ridx → (∃ e, es !! i = Some e ∧ e_shared e = 0) ∨ (i = 0%nat ∧ es = []);
  bt_counter : 0 <= counter_ b ∧ (es = [] → counter_ b = 0);
}.

Lemma built_new : built [] [0%nat] NewBlockBuilder.
Proof.
  split; try done.
  - intros i ->%list_elem_of_singleton. by right.
Qed.

Lemma off_app es fs i : (i <= length es)%nat → off (es ++ fs) i = off es i.
Proof. intros Hi. unfold off. rewrite take_app_le by done. done. Qed.

Lemma prev_key_app es fs i : (i <= length es)%nat → prev_key (es ++ fs) i = prev_key es i.
Proof. intros Hi. destruct i as [|i]; [done|]. simpl. rewrite lookup_app_l by lia. done. Qed.

Lemma resize_le n l : 0 <= n <= size l → resize n l = take_z n l.
Proof.
  intros Hn. unfold resize. replace (Z.to_nat (n - size l)) with 0%nat by lia. by rewrite app_nil_r.
Qed.

Lemma entries_ok_snoc es e : entries_ok es →
  0 <= e_shared e <= size (e_key e) → e_shared e <= size (prev_key es (length es)) →
  take_z (e_shared e) (prev_key es (length es)) = take_z (e_shared e) (e_key e) →
  entries_ok (es ++ [e]).
Proof.
  intros Hok H1 H2 H3 i e' [Hi|[Hi He]]%lookup_app_Some.
  - rewrite prev_key_app by (apply lookup_lt_Some in Hi; lia). by apply Hok.
  - apply list_lookup_singleton_Some in He as [Hi0 <-]. assert (i = length es) as -> by lia.
    rewrite prev_key_app by lia. done.
Qed.

(** The data part of [Add] for [s] shared bytes. *)
Lemma built_add_data es b s k v : buffer_ b = enc_all es → last_key_ b = prev_key es (length es) →
  0 <= s <= size k → s <= size (last_key_ b) → take_z s (last_key_ b) = take_z s k →
  size k < 2 ^ 32 → size v < 2 ^ 32 →
  ((PutVarint32 (PutVarint32 (PutVarint32 (buffer_ b) (u32 s)) (u32 (size k - s))) (u32 (size v)) ++
    take_z (size k - s) (drop_z s k)) ++ v) = enc_all (es ++ [(s, k, v)]) ∧
  resize s (last_key_ b) ++ take_z (size k - s) (drop_z s k) = k.
Proof.
  intros Hb Hl Hs Hsl Ht Hk Hv. pose proof (size_nonneg v).
  rewrite !u32_small by range_lia. rewrite (take_z_ge (size k - s)) by (rewrite size_drop_z; lia).
  rewrite resize_le by lia. split; [|by rewrite Ht, take_drop_z].
  rewrite Hb, enc_all_app, enc_all_single. unfold PutVarint32, enc, e_shared, e_key, e_value.
  cbn [fst snd]. rewrite <-!app_assoc. done.
Qed.

Lemma built_add es ridx b interval k v : built es ridx b → 1 <= interval →
  size k < 2 ^ 32 → size v < 2 ^ 32 →
  ∃ s ridx', built (es ++ [(s, k, v)]) ridx' (Add interval k v b).
Proof.
  intros [Hb Hr Hl Hok Hh Hso He [Hc Hc0]] Hi Hk Hv. unfold Add.
  assert (∀ i, i ∈ ridx → (i <= length es)%nat) as Hle.
  { intros i [(e & Hi' & _)|[-> _]]%He; [apply lookup_lt_Some in Hi'|]; lia. }
  destruct (Z.ltb_spec (counter_ b) interval) as [Hlt|Hge].
  - destruct (shared_bytes_spec (last_key_ b) k) as (H1 & H2 & H3).
    set (s := shared_bytes (last_key_ b) k) in *. exists s, ridx.
    destruct (built_add_data es b s k v Hb Hl H1 H2 H3 Hk Hv) as [-> ->]. rewrite Hl in H2, H3.
    split; cbn [buffer_ restarts_ last_key_ counter_]; try done.
    + rewrite Hr. apply list_fmap_ext. intros j i Hj. f_equal. rewrite off_app; [done|].
      apply Hle. by apply list_elem_of_lookup_2 in Hj.
    + rewrite length_app, Nat.add_1_r. simpl. by rewrite lookup_app_r, Nat.sub_diag by lia.
    + apply entries_ok_snoc; done.
    + intros i Hin. left. destruct (He i Hin) as [(e & Hi' & Hs')|[-> ->]].
      * exists e. split; [by apply lookup_app_l_Some|done].
      * exists (s, k, v). split; [done|]. unfold e_shared. simpl in *.
        change (size []) with 0 in H2. lia.
    + split; [lia|]. by destruct es.
  - assert (es ≠ []) as Hne by (intros Hes; rewrite Hc0 in Hge by done; lia).
    assert (∀ i, i ∈ ridx → (i < length es)%nat) as Hlt.
    { intros i [(e & Hi' & _)|[-> ?]]%He; [by apply lookup_lt_Some in Hi'|done]. }
    exists 0, (ridx ++ [length es]).
    pose proof (size_nonneg k). pose proof (size_nonneg (last_key_ b)).
    destruct (built_add_data es b 0 k v Hb Hl ltac:(lia) ltac:(lia) eq_refl Hk Hv) as [-> ->].
    split; cbn [buffer_ restarts_ last_key_ counter_].
    + done.
    + rewrite Hr, fmap_app. f_equal.
      * apply list_fmap_ext. intros j i Hj. f_equal. rewrite off_app; [done|].
        apply Hle. by apply list_elem_of_lookup_2 in Hj.
      * simpl. by rewrite off_app, off_ge, Hb by lia.
    + rewrite length_app, Nat.add_1_r. simpl. by rewrite lookup_app_r, Nat.sub_diag by lia.
    + apply entries_ok_snoc; try done; unfold e_shared; simpl; try apply size_nonneg; lia.
    + by apply lookup_app_l_Some.
    + intros j i i' [Hj|[Hj _]]%lookup_app_Some Hj'.
      * apply lookup_app_Some in Hj' as [Hj'|[_ [_ <-]%list_lookup_singleton_Some]]; [by eapply Hso|].
        apply Hlt. by apply list_elem_of_lookup_2 in Hj.
      * apply lookup_lt_Some in Hj'. rewrite length_app in Hj'. simpl in Hj'. lia.
    + intros i [Hin| ->%list_elem_of_singleton]%elem_of_app; left.
      * destruct (He i Hin) as [(e & Hi' & Hs')|[_ ?]]; [|done].
        exists e. split; [by apply lookup_app_l_Some|done].
      * exists (0, k, v). split; [|done]. by rewrite lookup_app_r, Nat.sub_diag by lia.
    + split; [lia|]. by destruct es.
Qed.

Definition pairs (es : list entry) : list (bytes * bytes) := (λ e, (e_key e, e_value e)) <$> es.

(** The block contents for a list of keys and values. *)
Definition build_block (interval : Z) (kvs : list (bytes * bytes)) : bytes :=
  (Finish (foldl (λ b kv, Add interval kv.1 kv.2 b) NewBlockBuilder kvs)).1.

Lemma built_all interval kvs : 1 <= interval →
  (∀ kv, kv ∈ kvs → size kv.1 < 2 ^ 32 ∧ size kv.2 < 2 ^ 32) →
  ∃ es ridx, built es ridx (foldl (λ b kv, Add interval kv.1 kv.2 b) NewBlockBuilder kvs) ∧ pairs es = kvs.
Proof.
  intros Hi. induction kvs as [|[k v] kvs IH] using rev_ind; intros Hsz.
  - exists [], [0%nat]. split; [apply built_new|done].
  - destruct IH as (es & ridx & Hb & Hp). { intros kv Hkv. apply Hsz, elem_of_app. by left. }
    rewrite foldl_app. simpl.
    destruct (Hsz (k, v)) as [Hk Hv]. { apply elem_of_app. right. by left. }
    destruct (built_add es ridx _ interval k v Hb Hi Hk Hv) as (s & ridx' & Hb').
    exists (es ++ [(s, k, v)]), ridx'. split; [done|]. unfold pairs in *. rewrite fmap_app, Hp. done.
Qed.

(** ** Reading a block *)

Section Reading.
  Context (es : list entry) (ridx : list nat).

Definition restart_array : bytes := concat ((λ i, EncodeFixed32 (off es i)) <$> ridx).

Definition block_data : bytes := enc_all es ++ restart_array ++ EncodeFixed32 (size ridx).

(** A well-formed block of 32-bit size. *)
Record block_ok : Prop := {
  bo_entries : entries_ok es;
  bo_sizes e : e ∈ es → size (e_key e) < 2 ^ 32 ∧ size (e_value e) < 2 ^ 32;
  bo_head : ridx !! 0%nat = Some 0%nat;
  bo_sorted j i i' : ridx !! j = Some i → ridx !! S j = Some i' → (i < i')%nat;
  bo_entry i : i ∈ ridx → (∃ e, es !! i = Some e ∧ e_shared e = 0) ∨ (i = 0%nat ∧ es = []);
  bo_size : size block_data < 2 ^ 32;
}.

Context (B : block_ok).

Lemma size_restart_array : size restart_array = 4 * size ridx.
Proof.
  unfold restart_array. induction ridx as [|i l IH]; [done|].
  rewrite fmap_cons, concat_cons, size_app, size_EncodeFixed32, IH, size_cons. lia.
Qed.

Lemma size_block_data : size block_data = size (enc_all es) + 4 * size ridx + 4.
Proof. unfold block_data. rewrite !size_app, size_restart_array, size_EncodeFixed32. lia. Qed.

Lemma size_parts : 0 <= size (enc_all es) < 2 ^ 32 ∧ 0 < size ridx < 2 ^ 30.
Proof.
  pose proof (bo_size B) as Hs. rewrite size_block_data in Hs. pose proof (size_nonneg (enc_all es)).
  pose proof (bo_head B) as Hh. apply lookup_lt_Some in Hh. unfold size in *. lia.
Qed.

Lemma off_lt i e : es !! i = Some e → off es i + 3 <= off es (S i).
Proof.
  intros Hi. rewrite (off_S _ _ _ Hi). destruct (bo_sizes B e) as [Hk Hv].
  { by apply list_elem_of_lookup_2 in Hi. }
  destruct (bo_entries B i e Hi) as (Hs & _). pose proof (size_enc e Hs Hk Hv). pose proof (size_nonneg (e_value e)). lia.
Qed.

Lemma off_mono i j : (i < j)%nat → (j <= length es)%nat → off es i < off es j.
Proof.
  intros Hij Hj. induction Hij as [|j Hij IH].
  - destruct (lookup_lt_is_Some_2 es i) as [e He]; [lia|]. pose proof (off_lt i e He). lia.
  - destruct (lookup_lt_is_Some_2 es j) as [e He]; [lia|]. pose proof (off_lt j e He). specialize (IH ltac:(lia)). lia.
Qed.

Lemma off_le_iff i j : (i <= length es)%nat → (j <= length es)%nat → off es i <= off es j ↔ (i <= j)%nat.
Proof.
  intros Hi Hj. split; intros H.
  - destruct (Nat.le_gt_cases i j) as [|Hlt]; [done|]. pose proof (off_mono j i Hlt Hi). lia.
  - apply Nat.lt_eq_cases in H as [H| ->]; [|lia]. pose proof (off_mono i j H Hj). lia.
Qed.

Lemma off_end : off es (length es) = size (enc_all es).
Proof. by apply off_ge. Qed.

Lemma off_range i : (i <= length es)%nat → 0 <= off es i <= size (enc_all es).
Proof. intros Hi. split; [apply off_nonneg|]. rewrite <-off_end. by apply off_le_iff. Qed.

Lemma ridx_le j i : ridx !! j = Some i → (i <= length es)%nat.
Proof.
  intros Hj. destruct (bo_entry B i) as [(e & Hi & _)|[-> _]]; [by apply list_elem_of_lookup_2 in Hj| |lia].
  apply lookup_lt_Some in Hi. lia.
Qed.

Lemma ridx_mono j j' i i' : ridx !! j = Some i → ridx !! j' = Some i' → (j < j')%nat → (i < i')%nat.
Proof.
  intros Hj Hj' Hlt. revert i' Hj'. induction Hlt as [|j' Hlt IH]; intros i' Hj'; [by eapply (bo_sorted B)|].
  destruct (lookup_lt_is_Some_2 ridx j') as [x Hx]; [apply lookup_lt_Some in Hj'; lia|].
  specialize (IH x Hx). pose proof (bo_sorted B _ _ _ Hx Hj'). lia.
Qed.

(** *** Iterators on the block *)

Definition iter_ok (it : Iter) : Prop :=
  it_data it = block_data ∧ it_restarts it = size (enc_all es) ∧ num_restarts_ it = size ridx ∧
  status_ it = Status_OK.

Lemma restart_point it j i : iter_ok it → ridx !! j = Some i →
  GetRestartPoint it (Z.of_nat j) = Some (off es i).
Proof.
  intros (Hd & Hr & _) Hj. pose proof size_parts as [Hp1 Hp2]. pose proof (lookup_lt_Some _ _ _ Hj) as Hlt.
  unfold GetRestartPoint, DecodeFixed32_at. rewrite Hd, Hr, u32_small by (unfold size in *; range_lia).
  destruct (Z.ltb_spec (size (enc_all es) + Z.of_nat j * 4) 0); [lia|].
  assert (block_data = (enc_all es ++ concat ((λ i, EncodeFixed32 (off es i)) <$> take j ridx)) ++
    EncodeFixed32 (off es i) ++ concat ((λ i, EncodeFixed32 (off es i)) <$> drop (S j) ridx) ++ EncodeFixed32 (size ridx)) as E.
  { unfold block_data, restart_array. rewrite <-(take_drop_middle _ _ _ Hj) at 1.
    rewrite fmap_app, fmap_cons, concat_app, concat_cons, <-!app_assoc. done. }
  assert (size (concat ((λ i, EncodeFixed32 (off es i)) <$> take j ridx)) = 4 * Z.of_nat j) as Ej.
  { assert (∀ l, size (concat ((λ i, EncodeFixed32 (off es i)) <$> l)) = 4 * Z.of_nat (length l)) as Hl.
    { induction l as [|x l IH]; [done|]. rewrite fmap_cons, concat_cons, size_app, IH, size_EncodeFixed32. simpl. lia. }
    rewrite Hl, length_take. lia. }
  rewrite E, drop_z_app by (rewrite size_app, Ej; lia).
  apply DecodeFixed32_Encode. pose proof (off_range i (ridx_le _ _ Hj)). range_lia.
Qed.

Lemma entry_at it i e : iter_ok it → es !! i = Some e →
  entry_bytes it (off es i) = enc e ++ enc_all (drop (S i) es).
Proof.
  intros (Hd & Hr & _) Hi. unfold entry_bytes, sub_z. rewrite Hd, Hr. unfold block_data.
  rewrite (enc_all_split es i e Hi) at 1 2. unfold off. rewrite <-!app_assoc, drop_z_app by done.
  rewrite (app_assoc (enc e)), size_app. apply take_z_app. lia.
Qed.

(** The iterator shows entry [i]. *)
Definition at_entry (it : Iter) (i : nat) : Prop :=
  iter_ok it ∧ ∃ e j r, es !! i = Some e ∧ current_ it = off es i ∧ key_ it = e_key e ∧
    value_pos it = off es (S i) - size (e_value e) ∧ value_len it = size (e_value e) ∧
    restart_index_ it = Z.of_nat j ∧ ridx !! j = Some r ∧ (r <= i)%nat ∧
    (∀ r', ridx !! S j = Some r' → (i <= r')%nat).

(** The next entry to be parsed is entry [i]. *)
Definition before (it : Iter) (i : nat) : Prop :=
  iter_ok it ∧ (i <= length es)%nat ∧ value_pos it + value_len it = off es i ∧
  (∀ e, es !! i = Some e → e_shared e <= size (key_ it) ∧
     take_z (e_shared e) (key_ it) = take_z (e_shared e) (e_key e)) ∧
  ∃ j r, restart_index_ it = Z.of_nat j ∧ ridx !! j = Some r ∧ (r <= i)%nat.

(** The iterator is past the end. *)
Definition at_end (it : Iter) : Prop := iter_ok it ∧ current_ it = size (enc_all es).

Lemma at_before it i : at_entry it i → before it (S i).
Proof.
  intros (Hit & e & j & r & Hi & Hc & Hk & Hp & Hl & Hri & Hj & Hr & _).
  split; [done|]. split; [apply lookup_lt_Some in Hi; lia|]. split; [lia|]. split.
  - intros e' He'. destruct (bo_entries B (S i) e' He') as (_ & H2 & H3). simpl in H2, H3.
    rewrite Hi in H2, H3. simpl in H2, H3. rewrite Hk. done.
  - exists j, r. split_and!; [done..|lia].
Qed.

Lemma SeekToRestartPoint_spec it j r : iter_ok it → ridx !! j = Some r →
  ∃ it', SeekToRestartPoint it (Z.of_nat j) = Some it' ∧ before it' r.
Proof.
  intros Hit Hj. unfold SeekToRestartPoint. rewrite (restart_point it j r Hit Hj). cbn [mbind option_bind].
  eexists. split; [done|]. split; [done|]. simpl. split; [by eapply ridx_le|]. split; [lia|]. split.
  - intros e He. destruct (bo_entry B r) as [(e' & He' & Hs)|[_ ->]]; [by apply list_elem_of_lookup_2 in Hj| |done].
    rewrite He in He'. injection He' as <-. rewrite Hs. done.
  - exists j, r. done.
Qed.

Lemma advance_restart_spec it m fuel : ∀ j r, iter_ok it → ridx !! j = Some r → (r <= m)%nat → (m <= length es)%nat →
  (length ridx < fuel + j)%nat →
  ∃ j' r', advance_restart fuel it (Z.of_nat j) (off es m) = Some (Z.of_nat j') ∧ ridx !! j' = Some r' ∧
    (r' <= m)%nat ∧ ∀ r'', ridx !! S j' = Some r'' → (m <= r'')%nat.
Proof.
  induction fuel as [|fuel IH]; intros j r Hit Hj Hr Hm Hf; [apply lookup_lt_Some in Hj; lia|].
  pose proof size_parts as [_ Hp]. pose proof (lookup_lt_Some _ _ _ Hj) as Hlt. cbn [advance_restart].
  assert (Z.of_nat j + 1 = Z.of_nat (S j)) as E1 by lia. rewrite E1.
  rewrite u32_small by (unfold size in Hp; range_lia).
  destruct Hit as (Hd & Hrs & Hn & Hst). rewrite Hn.
  destruct (Z.ltb_spec (Z.of_nat (S j)) (size ridx)) as [Hlt'|Hge].
  - destruct (lookup_lt_is_Some_2 ridx (S j)) as [r1 Hr1]; [unfold size in Hlt'; lia|].
    rewrite (restart_point it (S j) r1) by done. cbn [mbind option_bind].
    destruct (Z.ltb_spec (off es r1) (off es m)) as [Hlt1|Hge1].
    + apply (IH (S j) r1); try done; [|lia]. apply off_le_iff; [by eapply ridx_le|done|lia].
    + exists j, r. split_and!; try done. intros r'' Hr''. rewrite Hr1 in Hr''. injection Hr'' as <-.
      apply off_le_iff; [done|by eapply ridx_le|lia].
  - exists j, r. split_and!; try done. intros r'' Hr''. apply lookup_lt_Some in Hr''. unfold size in Hge. lia.
Qed.

Lemma ParseNextKey_entry it i e : before it i → es !! i = Some e →
  ∃ it', ParseNextKey it = Some (true, it') ∧ at_entry it' i.
Proof.
  intros (Hit & Hle & Hend & Hpre & j & r & Hri & Hj & Hr) Hi. pose proof Hit as (Hd & Hrs & Hn & Hst).
  pose proof size_parts as [Hp1 Hp2]. pose proof (lookup_lt_Some _ _ _ Hi) as Hlt.
  pose proof (off_range i Hle) as Ho. pose proof (off_mono i (length es) Hlt ltac:(lia)) as Ho'. rewrite off_end in Ho'.
  destruct (bo_entries B i e Hi) as (Hs & _ & _). destruct (Hpre e Hi) as [Hks Hkt].
  destruct (bo_sizes B e) as [Hk Hv]. { by apply list_elem_of_lookup_2 in Hi. }
  unfold ParseNextKey, NextEntryOffset. rewrite Hend, u32_small by range_lia.
  rewrite Z.geb_leb, Hrs. destruct (Z.leb_spec (size (enc_all es)) (off es i)); [lia|].
  rewrite (entry_at it i e Hit Hi).
  assert (size (enc e ++ enc_all (drop (S i) es)) <= size (enc_all es)) as Hsz.
  { rewrite (enc_all_split es i e Hi), !size_app. pose proof (size_nonneg (enc_all (take i es))). lia. }
  rewrite DecodeEntry_enc; [|done|lia|done|done].
  destruct (Z.ltb_spec (size (key_ it)) (e_shared e)); [lia|].
  set (ns := size (e_key e) - e_shared e). set (rest := enc_all (drop (S i) es)).
  assert (size (drop_z (e_shared e) (e_key e)) = ns) as Hns by (rewrite size_drop_z by lia; done).
  pose proof (size_nonneg (e_value e)) as Hv0. pose proof (size_nonneg rest) as Hr0.
  destruct (Z.ltb_spec (size (drop_z (e_shared e) (e_key e) ++ e_value e ++ rest)) ns) as [Hbad|_];
    [rewrite !size_app in Hbad; lia|].
  rewrite Hri, Hn. destruct (advance_restart_spec it i (S (Z.to_nat (size ridx))) j r Hit Hj Hr Hle) as
    (j' & r' & -> & Hj' & Hr' & Hnx); [unfold size; lia|]. cbn [mbind option_bind].
  eexists. split; [done|]. split; [done|]. exists e, j', r'. cbn [current_ key_ value_pos value_len restart_index_].
  split_and!; try done.
  - rewrite take_z_app by done. rewrite resize_le by lia. rewrite Hkt. apply take_drop_z.
  - rewrite !size_app, Hns. rewrite (off_S es i e Hi). rewrite (enc_all_split es i e Hi), !size_app.
    fold rest. unfold off. lia.
Qed.

Lemma ParseNextKey_end it : before it (length es) → ∃ it', ParseNextKey it = Some (false, it') ∧ at_end it'.
Proof.
  intros (Hit & _ & Hend & _). pose proof Hit as (Hd & Hrs & Hn & Hst). pose proof size_parts as [Hp1 Hp2].
  unfold ParseNextKey, NextEntryOffset. rewrite Hend, off_end, u32_small by range_lia.
  rewrite Z.geb_leb, Hrs, Z.leb_refl. eexists. split; [done|]. split; done.
Qed.

(** The abstract cursor: an index, or past the end. *)
Definition shows (it : Iter) (c : option nat) : Prop :=
  match c with Some i => at_entry it i | None => at_end it end.

Definition from_index (i : nat) : option nat := if decide (i < length es)%nat then Some i else None.

Lemma Parse_before it i : before it i →
  ∃ b it', ParseNextKey it = Some (b, it') ∧ shows it' (from_index i) ∧ b = bool_decide (i < length es)%nat.
Proof.
  intros Hb. unfold from_index. destruct (decide (i < length es)%nat) as [Hlt|Hge].
  - destruct (lookup_lt_is_Some_2 es i Hlt) as [e He]. destruct (ParseNextKey_entry it i e Hb He) as (it' & E & H).
    exists true, it'. split_and!; [done|done|]. by rewrite bool_decide_eq_true_2.
  - pose proof Hb as (_ & Hle & _). assert (i = length es) as -> by lia.
    destruct (ParseNextKey_end it Hb) as (it' & E & H). exists false, it'.
    split_and!; [done|done|]. by rewrite bool_decide_eq_false_2.
Qed.

Lemma shows_iter_ok it c : shows it c → iter_ok it.
Proof. by destruct c; intros [? _]. Qed.

Lemma Next_spec it i : at_entry it i → ∃ it', Next it = Some it' ∧ shows it' (from_index (S i)).
Proof.
  intros Hat. destruct (Parse_before it (S i) (at_before _ _ Hat)) as (b & it' & E & Hs & _).
  exists it'. unfold Next. rewrite E. done.
Qed.

Lemma SeekToFirst_spec it c : shows it c → ∃ it', SeekToFirst it = Some it' ∧ shows it' (from_index 0).
Proof.
  intros Hs%shows_iter_ok. destruct (SeekToRestartPoint_spec it 0 0 Hs (bo_head B)) as (it1 & E1 & Hb).
  destruct (Parse_before it1 0 Hb) as (b & it' & E & Hs' & _).
  exists it'. unfold SeekToFirst. change 0 with (Z.of_nat 0). rewrite E1. cbn [mbind option_bind]. by rewrite E.
Qed.

(** Parsing up to the entry that ends at the offset of entry [m]. *)
Lemma parse_until_spec m fuel : (m <= length es)%nat → ∀ it i, before it i → (i < m)%nat → (m - i <= fuel)%nat →
  ∃ it', parse_until fuel it (off es m) = Some it' ∧ at_entry it' (pred m).
Proof.
  intros Hm. induction fuel as [|fuel IH]; intros it i Hb Hi Hf; [lia|]. cbn [parse_until].
  destruct (lookup_lt_is_Some_2 es i) as [e He]; [lia|].
  destruct (ParseNextKey_entry it i e Hb He) as (it1 & -> & Hat). cbn [mbind option_bind].
  pose proof (at_before it1 i Hat) as Hb1. pose proof Hb1 as (_ & Hle1 & Hend & _).
  pose proof size_parts as [Hp1 _]. pose proof (off_range (S i) Hle1).
  unfold NextEntryOffset at 1. rewrite Hend, u32_small by range_lia. cbn [andb].
  destruct (Z.ltb_spec (off es (S i)) (off es m)) as [Hlt|Hge].
  - apply (IH it1 (S i) Hb1); [|lia]. destruct (Nat.lt_ge_cases (S i) m) as [|Hge]; [done|].
    assert (m = S i) as -> by lia. lia.
  - exists it1. split; [done|]. assert (m = S i) as ->; [|done].
    destruct (Nat.lt_ge_cases (S i) m) as [Hlt|]; [|lia]. pose proof (off_mono (S i) m Hlt Hm). lia.
Qed.

Lemma length_le_size : Z.of_nat (length es) <= size (enc_all es).
Proof.
  rewrite <-off_end. assert (∀ i, (i <= length es)%nat → Z.of_nat i <= off es i) as H; [|by apply H].
  induction i as [|i IH]; intros Hi; [done|]. destruct (lookup_lt_is_Some_2 es i) as [e He]; [lia|].
  pose proof (off_lt i e He). specialize (IH ltac:(lia)). lia.
Qed.

Lemma SeekToLast_spec it c : shows it c →
  ∃ it', SeekToLast it = Some it' ∧ shows it' (match es with [] => None | _ => Some (pred (length es)) end).
Proof.
  intros Hs%shows_iter_ok. pose proof Hs as (Hd & Hrs & Hn & Hst). pose proof size_parts as [Hp1 Hp2].
  unfold SeekToLast. rewrite Hn, u32_small by (unfold size in *; range_lia).
  destruct (lookup_lt_is_Some_2 ridx (pred (length ridx))) as [r Hr]; [unfold size in Hp2; lia|].
  replace (size ridx - 1) with (Z.of_nat (pred (length ridx))) by (unfold size in *; lia).
  destruct (SeekToRestartPoint_spec it _ r Hs Hr) as (it1 & -> & Hb). cbn [mbind option_bind].
  pose proof Hb as ((_ & Hrs1 & _) & _). rewrite Hrs1, <-off_end.
  destruct (bo_entry B r) as [(e & He & _)|[-> Hes]]; [by apply list_elem_of_lookup_2 in Hr| |].
  - assert (es ≠ []) as Hne by (intros ->; done). pose proof (lookup_lt_Some _ _ _ He).
    destruct (parse_until_spec (length es) (S (Z.to_nat (off es (length es)))) ltac:(lia) it1 r Hb) as (it' & -> & Hat);
      [lia|pose proof length_le_size; rewrite off_end; lia|].
    exists it'. split; [done|]. by destruct es.
  - destruct (Parse_before it1 0 Hb) as (b & it' & E & Hs' & Hbd). cbn [parse_until]. rewrite E. cbn [mbind option_bind].
    rewrite Hbd. unfold from_index in Hs'. rewrite Hes in *. cbn [length bool_decide andb decide] in *.
    exists it'. split; done.
Qed.

Lemma Prev_restart_spec it m fuel : (m <= length es)%nat → ∀ j r, iter_ok it → ridx !! j = Some r → (j < fuel)%nat →
  (m = 0%nat → Prev_restart fuel it (Z.of_nat j) (off es m) = Some None) ∧
  ((0 < m)%nat → ∃ j' r', Prev_restart fuel it (Z.of_nat j) (off es m) = Some (Some (Z.of_nat j')) ∧
     ridx !! j' = Some r' ∧ (r' < m)%nat).
Proof.
  intros Hm. induction fuel as [|fuel IH]; intros j r Hit Hj Hf; [lia|]. cbn [Prev_restart].
  rewrite (restart_point it j r Hit Hj). cbn [mbind option_bind]. rewrite Z.geb_leb.
  pose proof (ridx_le _ _ Hj) as Hrl.
  destruct (Z.leb_spec (off es m) (off es r)) as [Hle|Hgt].
  - apply off_le_iff in Hle; [|done|done]. destruct (Z.eqb_spec (Z.of_nat j) 0) as [E0|E0].
    + assert (j = 0%nat) as -> by lia. rewrite (bo_head B) in Hj. injection Hj as <-.
      split; [done|lia].
    + destruct j as [|j]; [lia|]. replace (Z.of_nat (S j) - 1) with (Z.of_nat j) by lia.
      destruct (lookup_lt_is_Some_2 ridx j) as [r0 Hr0]; [apply lookup_lt_Some in Hj; lia|].
      apply (IH j r0 Hit Hr0). lia.
  - split.
    + intros ->. rewrite off_0 in Hgt. pose proof (off_nonneg es r). lia.
    + intros _. exists j, r. split_and!; [done|done|].
      destruct (Nat.lt_ge_cases r m) as [|Hge]; [done|]. apply off_le_iff in Hge; [lia|done|done].
Qed.

Lemma Prev_spec it i : at_entry it i →
  ∃ it', Prev it = Some it' ∧ shows it' (match i with O => None | S i' => Some i' end).
Proof.
  intros Hat. pose proof Hat as (Hit & e & j & r & Hi & Hc & Hk & Hp & Hl & Hri & Hj & Hr & _).
  pose proof (lookup_lt_Some _ _ _ Hi) as Hlt. unfold Prev. rewrite Hc, Hri.
  destruct (Prev_restart_spec it i (S (Z.to_nat (Z.of_nat j))) ltac:(lia) j r Hit Hj ltac:(lia)) as [H0 H1].
  destruct i as [|i].
  - rewrite H0 by done. cbn [mbind option_bind]. eexists. split; [done|].
    destruct Hit as (Hd & Hrs & Hn & Hst). split; done.
  - destruct H1 as (j' & r' & -> & Hj' & Hr'); [lia|]. cbn [mbind option_bind].
    destruct (SeekToRestartPoint_spec it j' r' Hit Hj') as (it1 & -> & Hb). cbn [mbind option_bind].
    destruct (parse_until_spec (S i) (S (Z.to_nat (it_restarts it1))) ltac:(lia) it1 r' Hb) as (it' & -> & Hat');
      [lia| |by exists it'].
    pose proof Hb as ((_ & Hrs1 & _) & _). pose proof length_le_size. rewrite Hrs1. lia.
Qed.

(** *** Seek *)

Section SeekFacts.
  Context {C : Comparator} {L : ComparatorLaws C}.
  Context (Hsorted : ∀ i j e f, (i < j)%nat → es !! i = Some e → es !! j = Some f →
             Compare (e_key e) (e_key f) < 0).

(** Index of the first entry whose key is not smaller than the target. *)
Definition lower_bound (target : bytes) (m : nat) : Prop :=
  (m <= length es)%nat ∧
  (∀ i e, es !! i = Some e → (i < m)%nat → Compare (e_key e) target < 0) ∧
  (∀ i e, es !! i = Some e → (m <= i)%nat → 0 <= Compare (e_key e) target).

Definition all_smaller (target : bytes) (m : nat) : Prop :=
  ∀ i e, es !! i = Some e → (i < m)%nat → Compare (e_key e) target < 0.

Lemma all_smaller_le target m e : es !! m = Some e → Compare (e_key e) target <= 0 → all_smaller target m.
Proof. intros Hm Hc i f Hi Hlt. by apply (Compare_lt_le_trans _ (e_key e)); [eapply Hsorted|]. Qed.

Lemma lower_bound_at target m e : es !! m = Some e → 0 <= Compare (e_key e) target → all_smaller target m →
  lower_bound target m.
Proof.
  intros Hm Hc Ha. split; [apply lookup_lt_Some in Hm; lia|]. split; [done|].
  intros i f Hi Hle. apply Nat.lt_eq_cases in Hle as [Hlt|<-]; [|by simplify_eq].
  apply Compare_le_ge. apply Compare_le_ge in Hc. pose proof (Hsorted _ _ _ _ Hlt Hm Hi).
  assert (Compare target (e_key f) < 0); [by apply (Compare_le_lt_trans _ (e_key e))|lia].
Qed.

Lemma Seek_linear_spec target fuel : ∀ it i, before it i → all_smaller target i → (length es - i < fuel)%nat →
  ∃ it' m, Seek_linear fuel it target = Some it' ∧ lower_bound target m ∧ shows it' (from_index m).
Proof.
  induction fuel as [|fuel IH]; intros it i Hb Ha Hf; [lia|]. cbn [Seek_linear].
  destruct (Parse_before it i Hb) as (b & it1 & -> & Hs & ->). cbn [mbind option_bind]. unfold from_index in Hs.
  destruct (decide (i < length es)%nat) as [Hlt|Hge].
  - rewrite bool_decide_eq_true_2 by done. simpl in Hs |- *.
    pose proof Hs as (_ & e & _ & _ & Hi & _ & Hk & _). rewrite Hk, Z.geb_leb.
    destruct (Z.leb_spec 0 (Compare (e_key e) target)) as [Hc|Hc].
    + exists it1, i. split; [done|]. split; [by eapply lower_bound_at|]. unfold from_index. by rewrite decide_True by done.
    + apply (IH it1 (S i) (at_before _ _ Hs)); [|lia]. intros i' e' Hi' Hlt'.
      destruct (decide (i' = i)) as [->|]; [by simplify_eq|]. apply (Ha i' e' Hi'). lia.
  - rewrite bool_decide_eq_false_2 by done. simpl. pose proof Hb as (_ & Hle & _).
    assert (i = length es) as -> by lia. exists it1, (length es). split; [done|]. split.
    + split; [lia|]. split; [exact Ha|]. intros i' e' Hi' Hle'. apply lookup_lt_Some in Hi'. lia.
    + unfold from_index. by rewrite decide_False by lia.
Qed.

Definition restart_smaller (target : bytes) (j : nat) : Prop :=
  (j < length ridx)%nat ∧ ∀ r, ridx !! j = Some r → all_smaller target r.

Lemma restart_smaller_0 target : restart_smaller target 0.
Proof.
  split; [pose proof (bo_head B) as H; by apply lookup_lt_Some in H|].
  intros r. rewrite (bo_head B). intros [= <-] i e _ Hlt. lia.
Qed.

Lemma Seek_binary_spec it target fuel : iter_ok it → ∀ jl jr, (jl <= jr)%nat → (jr < length ridx)%nat →
  (jr - jl < fuel)%nat → restart_smaller target jl →
  ∃ j, Seek_binary fuel it target (Z.of_nat jl) (Z.of_nat jr) = Some (Some (Z.of_nat j)) ∧ restart_smaller target j.
Proof.
  intros Hit. pose proof size_parts as [Hp1 Hp2].
  induction fuel as [|fuel IH]; intros jl jr Hle Hr Hf Hg; [lia|]. cbn [Seek_binary].
  destruct (Z.ltb_spec (Z.of_nat jl) (Z.of_nat jr)) as [Hlt|Hge].
  2: { exists jl. done. }
  rewrite u32_small by (unfold size in *; range_lia).
  pose proof (Z.div_mod (Z.of_nat jl + Z.of_nat jr + 1) 2 ltac:(lia)) as Hdm.
  pose proof (Z.mod_pos_bound (Z.of_nat jl + Z.of_nat jr + 1) 2 ltac:(lia)) as Hmb.
  set (mid := (Z.of_nat jl + Z.of_nat jr + 1) / 2) in *.
  assert (∃ jm, mid = Z.of_nat jm ∧ (jl < jm <= jr)%nat) as (jm & -> & Hjm) by (exists (Z.to_nat mid); lia).
  destruct (lookup_lt_is_Some_2 ridx jm) as [r Hrm]; [lia|].
  rewrite (restart_point it jm r Hit Hrm). cbn [mbind option_bind].
  destruct (bo_entry B r) as [(e & He & Hs)|[-> _]]; [by apply list_elem_of_lookup_2 in Hrm| |].
  2: { pose proof (ridx_mono 0 jm 0 0 (bo_head B) Hrm ltac:(lia)). lia. }
  rewrite (entry_at it r e Hit He). destruct (bo_entries B r e He) as (Hsh & _).
  destruct (bo_sizes B e) as [Hk Hv]. { by apply list_elem_of_lookup_2 in He. }
  rewrite DecodeEntry_enc; [|done| |done|done].
  2: { assert (size (enc e ++ enc_all (drop (S r) es)) <= size (enc_all es)); [|lia].
       rewrite (enc_all_split es r e He), !size_app. pose proof (size_nonneg (enc_all (take r es))). lia. }
  rewrite Hs. cbn [negb Z.eqb]. rewrite Z.sub_0_r. change (drop_z 0 (e_key e)) with (e_key e).
  pose proof (size_nonneg (e_value e ++ enc_all (drop (S r) es))).
  destruct (Z.ltb_spec (size (e_key e ++ e_value e ++ enc_all (drop (S r) es))) (size (e_key e))) as [Hbad|_];
    [rewrite size_app in Hbad; lia|].
  rewrite take_z_app by done. destruct (Z.ltb_spec (Compare (e_key e) target) 0) as [Hc|Hc].
  - apply IH; [lia|done|lia|]. split; [lia|]. intros r' Hr'. rewrite Hrm in Hr'. injection Hr' as <-.
    eapply all_smaller_le; [done|lia].
  - rewrite u32_small by (unfold size in *; range_lia).
    replace (Z.of_nat jm - 1) with (Z.of_nat (pred jm)) by lia. apply IH; [lia|lia|lia|done].
Qed.

Lemma Valid_shows it c : shows it c → Valid it = bool_decide (is_Some c).
Proof.
  pose proof size_parts as [Hp1 _]. unfold Valid. destruct c as [i|]; cbn [shows].
  - intros ((_ & Hrs & _) & e & _ & _ & Hi & -> & _). rewrite Hrs, bool_decide_eq_true_2 by done.
    apply Z.ltb_lt. rewrite <-off_end. apply off_mono; [by apply lookup_lt_Some in Hi|lia].
  - intros ((_ & Hrs & _) & ->). rewrite Hrs, bool_decide_eq_false_2 by (by intros []). apply Z.ltb_irrefl.
Qed.

(** The position from which the linear search starts. *)
Lemma Seek_finish it target j : iter_ok it → restart_smaller target j →
  ∃ it' m, (it ← SeekToRestartPoint it (Z.of_nat j); Seek_linear (S (Z.to_nat (it_restarts it))) it target) = Some it' ∧
    lower_bound target m ∧ shows it' (from_index m).
Proof.
  intros Hit [Hj Hr]. destruct (lookup_lt_is_Some_2 ridx j Hj) as [r Hrj].
  destruct (SeekToRestartPoint_spec it j r Hit Hrj) as (it1 & -> & Hb). cbn [mbind option_bind].
  apply (Seek_linear_spec target _ it1 r Hb (Hr r Hrj)).
  pose proof Hb as ((_ & Hrs & _) & _). rewrite Hrs. pose proof length_le_size. lia.
Qed.

Lemma Seek_spec it c target : shows it c →
  ∃ it' m, Seek it target = Some it' ∧ lower_bound target m ∧ shows it' (from_index m).
Proof.
  intros Hs. pose proof (shows_iter_ok _ _ Hs) as Hit. pose proof Hit as (_ & Hrs & Hn & _).
  pose proof size_parts as [Hp1 Hp2]. unfold Seek. rewrite (Valid_shows it c Hs), Hn.
  rewrite u32_small by (unfold size in *; range_lia).
  replace (size ridx - 1) with (Z.of_nat (pred (length ridx))) by (unfold size in *; lia).
  assert (pred (length ridx) < length ridx)%nat as Hpr by (unfold size in *; lia).
  assert (S (Z.to_nat (size ridx)) = S (length ridx)) as -> by (unfold size; lia).
  destruct c as [i|].
  - rewrite bool_decide_eq_true_2 by done. cbn [andb].
    pose proof Hs as (_ & e & j & r & Hi & _ & Hk & _ & _ & Hri & Hj & Hr & _). rewrite Hk, Hri, Z.gtb_ltb.
    pose proof (lookup_lt_Some _ _ _ Hj) as Hjl.
    destruct (Z.eqb_spec (Compare (e_key e) target) 0) as [E0|E0].
    { exists it, i. split; [done|]. split; [eapply lower_bound_at; [done|lia|eapply all_smaller_le; [done|lia]]|].
      unfold from_index. rewrite decide_True by (by apply lookup_lt_Some in Hi). done. }
    destruct (Z.ltb_spec (Compare (e_key e) target) 0) as [Hlt|Hge].
    + rewrite (proj2 (Z.ltb_ge _ _)) by lia.
      assert (all_smaller target (S i)) as Ha.
      { intros i' e' Hi' Hlt'. destruct (decide (i' = i)) as [->|]; [by simplify_eq|].
        eapply (all_smaller_le target i e); [done|lia|done|lia]. }
      destruct (Seek_binary_spec it target (S (length ridx)) Hit j (pred (length ridx))) as (j' & -> & Hg'); [lia|done|lia| |].
      { split; [done|]. intros r' Hr'. rewrite Hj in Hr'. injection Hr' as <-. intros i' e' Hi' Hlt'. apply (Ha i'); [done|lia]. }
      cbn [mbind option_bind]. destruct (Z.eqb_spec (Z.of_nat j') (Z.of_nat j)); cbn [andb].
      * apply (Seek_linear_spec target _ it (S i) (at_before _ _ Hs) Ha). rewrite Hrs. pose proof length_le_size. lia.
      * by apply Seek_finish.
    + rewrite (proj2 (Z.ltb_lt _ _)) by lia.
      destruct (Seek_binary_spec it target (S (length ridx)) Hit 0 j) as (j' & E & Hg');
        [lia|done|lia|apply restart_smaller_0|]. change (Z.of_nat 0) with 0 in E. rewrite E.
      cbn [mbind option_bind]. rewrite andb_false_r. by apply Seek_finish.
  - rewrite bool_decide_eq_false_2 by (by intros []). cbn [andb].
    destruct (Seek_binary_spec it target (S (length ridx)) Hit 0 (pred (length ridx))) as (j' & E & Hg');
      [lia|done|lia|apply restart_smaller_0|]. change (Z.of_nat 0) with 0 in E. rewrite E.
    cbn [mbind option_bind Z.ltb Z.compare]. rewrite andb_false_r. by apply Seek_finish.
Qed.

End SeekFacts.
End Reading.

(** ** A finished block *)

Lemma Finish_spec es ridx b : built es ridx b → size (Finish b).1 < 2 ^ 32 →
  (Finish b).1 = block_data es ridx.
Proof.
  intros Hb. unfold Finish. cbn [fst]. rewrite foldl_PutFixed32. unfold PutFixed32.
  rewrite (bt_buffer _ _ _ Hb), (bt_restarts _ _ _ Hb), <-list_fmap_compose. intros Hsz.
  rewrite !size_app, size_EncodeFixed32 in Hsz.
  assert (size ridx <= size (concat (EncodeFixed32 ∘ (λ i, u32 (off es i)) <$> ridx))) as Hr.
  { clear. induction ridx as [|i l IH]; [done|]. rewrite fmap_cons, concat_cons, size_app, size_cons. simpl.
    rewrite size_EncodeFixed32. lia. }
  pose proof (size_nonneg (enc_all es)). pose proof (size_nonneg ridx).
  assert (size ((λ i, u32 (off es i)) <$> ridx) = size ridx) as Es by (unfold size; by rewrite length_fmap).
  unfold block_data, restart_array. rewrite Es, u32_small by range_lia. rewrite <-app_assoc. do 3 f_equal.
  apply list_fmap_ext. intros j i Hj. simpl. f_equal. apply u32_small.
  assert (off es i <= size (enc_all es)).
  { unfold off. rewrite <-(take_drop i es) at 2. rewrite enc_all_app, size_app. pose proof (size_nonneg (enc_all (drop i es))). lia. }
  pose proof (off_nonneg es i). range_lia.
Qed.

Lemma NumRestarts_data es ridx : block_ok es ridx →
  NumRestarts (block_data es ridx) (size (block_data es ridx)) = size ridx.
Proof.
  intros B. unfold NumRestarts, DecodeFixed32_at.
  pose proof (size_parts _ _ B) as [Hp1 Hp2]. pose proof (size_block_data es ridx) as Hs.
  destruct (Z.ltb_spec (size (block_data es ridx) - 4) 0); [lia|].
  unfold block_data at 2. rewrite app_assoc, drop_z_app.
  2: { rewrite Hs, size_app, size_restart_array. lia. }
  rewrite <-(app_nil_r (EncodeFixed32 _)), DecodeFixed32_Encode by range_lia. done.
Qed.

Lemma NewIterator_data es ridx : block_ok es ridx →
  NewIterator (NewBlock (block_data es ridx)) =
    BlockIter (NewIter (block_data es ridx) (size (enc_all es)) (size ridx)).
Proof.
  intros B. pose proof (size_parts _ _ B) as [Hp1 Hp2]. pose proof (bo_size _ _ B) as Hb.
  unfold NewBlock. rewrite NumRestarts_data by done.
  assert (¬ size (block_data es ridx) < 4) as H4 by (rewrite size_block_data; lia).
  destruct (Z.ltb_spec (size (block_data es ridx)) 4); [lia|].
  destruct (Z.gtb_spec (size ridx) ((size (block_data es ridx) - 4) / 4)) as [Hgt|_].
  { exfalso. assert (size ridx <= (size (block_data es ridx) - 4) / 4); [|lia].
    apply Z.div_le_lower_bound; [lia|]. rewrite size_block_data. lia. }
  unfold NewIterator. cbn [size_ data_ restart_offset_].
  destruct (Z.ltb_spec (size (block_data es ridx)) 4); [lia|]. rewrite NumRestarts_data by done.
  destruct (Z.eqb_spec (size ridx) 0); [lia|]. do 2 f_equal.
  rewrite (u32_small (1 + size ridx)) by range_lia. rewrite size_block_data.
  replace (size (enc_all es) + 4 * size ridx + 4 - (1 + size ridx) * 4) with (size (enc_all es)) by lia.
  apply u32_small. range_lia.
Qed.

Lemma NewIter_shows es ridx : block_ok es ridx →
  shows es ridx (NewIter (block_data es ridx) (size (enc_all es)) (size ridx)) None.
Proof. by intros B. Qed.

Lemma value_at es ridx it i : block_ok es ridx → at_entry es ridx it i →
  ∃ e, es !! i = Some e ∧ key it = e_key e ∧ value it = e_value e.
Proof.
  intros B ((Hd & _) & e & j & r & Hi & _ & Hk & Hp & Hl & _). exists e. split; [done|]. split; [done|].
  unfold value, sub_z. rewrite Hp, Hl, Hd. unfold block_data. rewrite (enc_all_split es i e Hi).
  rewrite (off_S es i e Hi). unfold off.
  assert (∃ h, enc e = h ++ e_value e) as (h & ->).
  { eexists. unfold enc. rewrite !(app_assoc _ _ (e_value e)). reflexivity. }
  replace ((enc_all (take i es) ++ (h ++ e_value e) ++ enc_all (drop (S i) es)) ++ restart_array es ridx ++ EncodeFixed32 (size ridx))
    with ((enc_all (take i es) ++ h) ++ e_value e ++ enc_all (drop (S i) es) ++ restart_array es ridx ++ EncodeFixed32 (size ridx))
    by (by rewrite <-!app_assoc).
  rewrite drop_z_app by (rewrite !size_app; lia). by apply take_z_app.
Qed.

(** ** Properties *)

(** What a client sees of a sorted map iterator over a list of entries: a cursor
    that is on entry [i], or past the end. *)
Definition cursor (kvs : list (bytes * bytes)) (i : nat) : option nat :=
  if decide (i < length kvs)%nat then Some i else None.

Definition is_lower_bound {C : Comparator} (kvs : list (bytes * bytes)) (target : bytes) (m : nat) : Prop :=
  (m <= length kvs)%nat ∧
  (∀ i kv, kvs !! i = Some kv → (i < m)%nat → Compare kv.1 target < 0) ∧
  (∀ i kv, kvs !! i = Some kv → (m <= i)%nat → 0 <= Compare kv.1 target).

Record cursor_refinement {C : Comparator} (kvs : list (bytes * bytes)) (R : Iter → option nat → Prop) : Prop := {
  cr_valid it c : R it c → Valid it = bool_decide (is_Some c) ∧ status_ it = Status_OK;
  cr_entry it i : R it (Some i) → kvs !! i = Some (key it, value it);
  cr_first it c : R it c → ∃ it', SeekToFirst it = Some it' ∧ R it' (cursor kvs 0);
  cr_last it c : R it c →
    ∃ it', SeekToLast it = Some it' ∧ R it' (match kvs with [] => None | _ => Some (pred (length kvs)) end);
  cr_next it i : R it (Some i) → ∃ it', Next it = Some it' ∧ R it' (cursor kvs (S i));
  cr_prev it i : R it (Some i) → ∃ it', Prev it = Some it' ∧ R it' (match i with O => None | S i => Some i end);
  cr_seek it c target : R it c →
    ∃ it' m, Seek it target = Some it' ∧ is_lower_bound kvs target m ∧ R it' (cursor kvs m);
}.

Definition keys_sorted {C : Comparator} (kvs : list (bytes * bytes)) : Prop :=
  ∀ i j kv kv', (i < j)%nat → kvs !! i = Some kv → kvs !! j = Some kv' → Compare kv.1 kv'.1 < 0.

Lemma built_block_ok es ridx b : built es ridx b → size (Finish b).1 < 2 ^ 32 →
  (∀ kv, kv ∈ pairs es → size kv.1 < 2 ^ 32 ∧ size kv.2 < 2 ^ 32) → block_ok es ridx.
Proof.
  intros Hb Hsz Hkv. pose proof (Finish_spec _ _ _ Hb Hsz) as E. split.
  - apply Hb.
  - intros e He. apply (Hkv (e_key e, e_value e)). unfold pairs. by apply list_elem_of_fmap_2' with e.
  - apply Hb.
  - apply Hb.
  - apply Hb.
  - by rewrite <-E.
Qed.

Lemma shows_refinement {C : Comparator} {L : ComparatorLaws C} es ridx : block_ok es ridx → keys_sorted (pairs es) →
  cursor_refinement (pairs es) (shows es ridx).
Proof.
  intros B Hs.
  assert (∀ i e, es !! i = Some e → pairs es !! i = Some (e_key e, e_value e)) as Hl.
  { intros i e Hi. unfold pairs. by rewrite list_lookup_fmap, Hi. }
  assert (∀ i j e f, (i < j)%nat → es !! i = Some e → es !! j = Some f → Compare (e_key e) (e_key f) < 0) as Hs'.
  { intros i j e f Hij Hi Hj. by apply (Hs i j (e_key e, e_value e) (e_key f, e_value f) Hij (Hl _ _ Hi)), Hl. }
  assert (length (pairs es) = length es) as Hlen by (unfold pairs; apply length_fmap).
  assert (∀ i, cursor (pairs es) i = from_index es i) as Hc by (intros; unfold cursor, from_index; by rewrite Hlen).
  split.
  - intros it c Hsh. split; [by eapply Valid_shows|]. by apply shows_iter_ok in Hsh as (_ & _ & _ & ?).
  - intros it i Hat. destruct (value_at _ _ _ _ B Hat) as (e & Hi & -> & ->). by apply Hl.
  - intros it c Hsh. rewrite Hc. by eapply SeekToFirst_spec.
  - intros it c Hsh. destruct (SeekToLast_spec es ridx B it c Hsh) as (it' & E & H). exists it'. split; [done|].
    rewrite Hlen. by destruct es.
  - intros it i Hat. rewrite Hc. by apply Next_spec.
  - intros it i Hat. by apply Prev_spec.
  - intros it c target Hsh. destruct (Seek_spec es ridx B Hs' it c target Hsh) as (it' & m & E & (Hm & H1 & H2) & Hsh').
    exists it', m. rewrite Hc. split; [done|]. split; [|done]. split; [lia|].
    split; intros i kv Hi; unfold pairs in Hi; rewrite list_lookup_fmap in Hi;
      apply fmap_Some in Hi as (e & Hi & ->); [by apply H1|by apply H2].
Qed.

(** C28: the iterator over a block made by the builder is a cursor over the added
    entries: for strictly increasing keys, any restart interval and a block below
    4 GiB, its moves (first, last, next, previous and seeking the first key that
    is not smaller than a target, from any position) end on the entry the sorted
    list prescribes, with its full key and value and an ok status, and no move
    reads outside the block or fails to end. *)
Theorem block_iterator_refines_cursor (C : Comparator) (L : ComparatorLaws C)
    (interval : Z) (kvs : list (bytes * bytes)) :
  1 <= interval → keys_sorted kvs →
  (∀ kv, kv ∈ kvs → size kv.1 < 2 ^ 32 ∧ size kv.2 < 2 ^ 32) →
  size (build_block interval kvs) < 2 ^ 32 →
  ∃ it R, NewIterator (NewBlock (build_block interval kvs)) = BlockIter it ∧ R it None ∧ cursor_refinement kvs R.
Proof.
  intros Hi Hs Hkv Hsz. destruct (built_all interval kvs Hi Hkv) as (es & ridx & Hb & <-).
  pose proof (built_block_ok es ridx _ Hb Hsz Hkv) as B. unfold build_block in *.
  rewrite (Finish_spec _ _ _ Hb Hsz). exists (NewIter (block_data es ridx) (size (enc_all es)) (size ridx)), (shows es ridx).
  split; [by apply NewIterator_data|]. split; [by apply NewIter_shows|]. by apply shows_refinement.
Qed.

Definition example_kvs : list (bytes * bytes) :=
  [([x61], [x01]); ([x61; x62], [x02]); ([x61; x62; x63], []); ([x62], [x03; x04]); ([x63; x64], [])].

Lemma example_kvs_sorted : keys_sorted (C := BytewiseComparator) example_kvs.
Proof.
  intros i j kv kv' Hij Hi Hj.
  do 5 (destruct i as [|i]; [do 6 (destruct j as [|j]; [first [lia|injection Hi as <-; injection Hj as <-; vm_compute; reflexivity|discriminate Hj]|]); discriminate Hj|]).
  discriminate Hi.
Qed.

Lemma block_iterator_refines_cursor_witness :
  ∃ it R, NewIterator (NewBlock (build_block 2 example_kvs)) = BlockIter it ∧ R it None ∧
    cursor_refinement (C := BytewiseComparator) example_kvs R.
Proof.
  apply (block_iterator_refines_cursor BytewiseComparator _ 2 example_kvs); [lia|apply example_kvs_sorted| |vm_compute; reflexivity].
  intros kv Hkv. repeat (apply elem_of_cons in Hkv as [->|Hkv]; [vm_compute; split; reflexivity|]).
  by apply not_elem_of_nil in Hkv.
Defined.

(** the entry decoder stays within the block when the two lengths of an entry
    add up within 32 bits; their sum wraps otherwise, and a block with an entry of
    [2 ^ 32 - 1] key bytes and one value byte is accepted although both lie past
    its end. *)
Theorem decode_entry_bounds :
  (∀ p s ns vl rest, DecodeEntry p = Some (s, ns, vl, rest) → size p < 2 ^ 32 → ns + vl < 2 ^ 32 →
     0 <= ns → 0 <= vl → ns + vl <= size rest ∧ size rest <= size p) ∧
  (∃ p s ns vl rest, DecodeEntry p = Some (s, ns, vl, rest) ∧ size rest < ns).
Proof.
  split.
  - intros p s ns vl rest. rewrite DecodeEntry_slow. destruct (size p <? 3); [done|].
    destruct (GetVarint32Ptr p) as [[s1 p1]|] eqn:E1; [cbn [mbind option_bind]|done].
    destruct (GetVarint32Ptr p1) as [[s2 p2]|] eqn:E2; [cbn [mbind option_bind]|done].
    destruct (GetVarint32Ptr p2) as [[s3 p3]|] eqn:E3; [cbn [mbind option_bind]|done].
    apply GetVarint32_suffix in E1 as (x1 & E1 & _). apply GetVarint32_suffix in E2 as (x2 & E2 & _).
    apply GetVarint32_suffix in E3 as (x3 & E3 & _).
    intros E Hp Hs H1 H2.
    assert (size p3 <= size p) as Hle.
    { rewrite E1, E2, E3, !size_app. pose proof (size_nonneg x1). pose proof (size_nonneg x2). pose proof (size_nonneg x3). lia. }
    destruct (Z.ltb_spec (u32 (size p3)) (u32 (s2 + s3))) as [|Hge]; [done|]. injection E as <- <- <- <-.
    rewrite !u32_small in Hge by (pose proof (size_nonneg p3); range_lia). lia.
  - exists [x00; xff; xff; xff; xff; x0f; x01; x61], 0, (2 ^ 32 - 1), 1, [x61]. vm_compute. done.
Qed.
