(* ===== verification/Iterators.v ===== *)
(** * The iterator interface (src/include/leveldb/iterator.h, src/table/iterator.cc,
    src/table/iterator_wrapper.h)

    The interface is a class of operations; a move is [None] where the source
    asserts or reads outside its data.  [cursor_over] is its contract: the
    iterator behaves like a cursor over a list of entries.  The file gives the
    operations of block iterators, of the empty iterator and of a two-way choice
    of iterators, the clean-up list every iterator carries, and the wrapper that
    caches [Valid] and [key]. *)

From S2P Require Import Prelude Coding Status Comparator Block.
Import Coding.

(** ** The interface *)

Class IteratorOps (I : Type) := {
  iValid : I → bool;
  iKey : I → option bytes;
  iValue : I → option bytes;
  iStatus : I → Status;
  iSeekToFirst : I → option I;
  iSeekToLast : I → option I;
  iSeek : I → bytes → option I;
  iNext : I → option I;
  iPrev : I → option I;
}.

Definition last_pos (n : nat) : option nat := match n with O => None | S k => Some k end.

(** The contract of iterator.h over the entries [kvs], for the states [R] relates
    to a position and targets of less than [B] bytes. *)
Record cursor_over {I} `{IteratorOps I} (B : Z) (C : Comparator) (kvs : list (bytes * bytes)) (R : I → option nat → Prop) : Prop := {
  co_valid it c : R it c → iValid it = bool_decide (is_Some c);
  co_status it c : R it c → iStatus it = Status_OK;
  co_entry it i : R it (Some i) → ∃ kv, kvs !! i = Some kv ∧ iKey it = Some kv.1 ∧ iValue it = Some kv.2;
  co_first it c : R it c → ∃ it', iSeekToFirst it = Some it' ∧ R it' (cursor kvs 0);
  co_last it c : R it c → ∃ it', iSeekToLast it = Some it' ∧ R it' (last_pos (length kvs));
  co_next it i : R it (Some i) → ∃ it', iNext it = Some it' ∧ R it' (cursor kvs (S i));
  co_prev it i : R it (Some i) → ∃ it', iPrev it = Some it' ∧ R it' (last_pos i);
  co_seek it c target : size target < B → R it c →
    ∃ it' m, iSeek it target = Some it' ∧ is_lower_bound (C := C) kvs target m ∧ R it' (cursor kvs m);
}.

(** The iterator [it] is over [kvs] and stands at [c]. *)
Definition reads {I} `{IteratorOps I} (B : Z) (C : Comparator) (kvs : list (bytes * bytes)) (it : I) (c : option nat) : Prop :=
  ∃ R, cursor_over B C kvs R ∧ R it c.

(** ** The empty iterator: it only has its status *)

Record Empty := MkEmpty { empty_status : Status }.

Definition NewEmptyIterator : Empty := MkEmpty Status_OK.
Definition NewErrorIterator (s : Status) : Empty := MkEmpty s.

#[export] Instance Empty_ops : IteratorOps Empty := {|
  iValid _ := false;
  iKey _ := None;
  iValue _ := None;
  iStatus := empty_status;
  iSeekToFirst it := Some it;
  iSeekToLast it := Some it;
  iSeek it _ := Some it;
  iNext _ := None;
  iPrev _ := None;
|}.

(** ** Block iterators: [assert(Valid())] guards [key], [value], [Next], [Prev] *)

Definition guarded {A} (b : bool) (o : option A) : option A := if b then o else None.

Section Block.
  Context (C : Comparator).

Definition BlockIter_ops : IteratorOps Iter := {|
  iValid := Valid;
  iKey it := guarded (Valid it) (Some (key it));
  iValue it := guarded (Valid it) (Some (value it));
  iStatus := status_;
  iSeekToFirst := SeekToFirst;
  iSeekToLast := SeekToLast;
  iSeek := Seek (C := C);
  iNext it := guarded (Valid it) (Next it);
  iPrev it := guarded (Valid it) (Prev it);
|}.

End Block.

(** ** A choice of two kinds of iterators: dynamic dispatch *)

#[export] Instance sum_ops {I J} `{IteratorOps I} `{IteratorOps J} : IteratorOps (I + J) := {|
  iValid it := match it with inl i => iValid i | inr j => iValid j end;
  iKey it := match it with inl i => iKey i | inr j => iKey j end;
  iValue it := match it with inl i => iValue i | inr j => iValue j end;
  iStatus it := match it with inl i => iStatus i | inr j => iStatus j end;
  iSeekToFirst it := match it with inl i => inl <$> iSeekToFirst i | inr j => inr <$> iSeekToFirst j end;
  iSeekToLast it := match it with inl i => inl <$> iSeekToLast i | inr j => inr <$> iSeekToLast j end;
  iSeek it t := match it with inl i => inl <$> iSeek i t | inr j => inr <$> iSeek j t end;
  iNext it := match it with inl i => inl <$> iNext i | inr j => inr <$> iNext j end;
  iPrev it := match it with inl i => inl <$> iPrev i | inr j => inr <$> iPrev j end;
|}.

(** ** Clean-up functions

    The list from [cleanup_head_] on; a function stands for the closure of its two
    arguments. *)
Section Cleanup.
  Context {F : Type}.

Definition RegisterCleanup (nodes : list F) (func : F) : list F :=
  match nodes with
  | [] => [func]
  | head :: rest => head :: func :: rest
  end.

(** The functions the destructor runs, in order. *)
Definition RunCleanups (nodes : list F) : list F :=
  match nodes with
  | [] => []
  | head :: rest => head :: rest
  end.

Lemma RegisterCleanup_perm fs : RunCleanups (foldl RegisterCleanup [] fs) ≡ₚ fs.
Proof.
  assert (∀ nodes, foldl RegisterCleanup nodes fs ≡ₚ nodes ++ fs) as H.
  { induction fs as [|f fs IH]; intros nodes; simpl; [by rewrite app_nil_r|]. rewrite IH.
    destruct nodes as [|h t]; simpl; [done|]. by rewrite Permutation_middle. }
  specialize (H []). simpl in H. rewrite <-H at 2. by destruct (foldl _ _ _).
Qed.

End Cleanup.

(** ** IteratorWrapper *)

Record IteratorWrapper (I : Type) := MkWrapper { w_iter : option I; w_valid : bool; w_key : bytes }.
Arguments MkWrapper {I} _ _ _.
Arguments w_iter {I} _.
Arguments w_valid {I} _.
Arguments w_key {I} _.

Section Wrapper.
  Context {I : Type} `{IteratorOps I}.

(** [Update]: [key_] keeps its old bytes when the iterator is not valid. *)
Definition Update (w : IteratorWrapper I) : option (IteratorWrapper I) :=
  it ← w_iter w;
  if iValid it then k ← iKey it; Some (MkWrapper (Some it) true k)
  else Some (MkWrapper (Some it) false (w_key w)).

Definition EmptyWrapper : IteratorWrapper I := MkWrapper None false [].

Definition WSet (w : IteratorWrapper I) (iter : option I) : option (IteratorWrapper I) :=
  match iter with
  | None => Some (MkWrapper None false (w_key w))
  | Some it => Update (MkWrapper (Some it) (w_valid w) (w_key w))
  end.

Definition wKey (w : IteratorWrapper I) : option bytes := guarded (w_valid w) (Some (w_key w)).
Definition wValue (w : IteratorWrapper I) : option bytes := guarded (w_valid w) (it ← w_iter w; iValue it).
Definition wStatus (w : IteratorWrapper I) : option Status := iStatus <$> w_iter w.

(** Move the iterator, then [Update]. *)
Definition moved (w : IteratorWrapper I) (move : I → option I) : option (IteratorWrapper I) :=
  it ← w_iter w;
  it' ← move it;
  Update (MkWrapper (Some it') (w_valid w) (w_key w)).

Definition wNext (w : IteratorWrapper I) := moved w iNext.
Definition wPrev (w : IteratorWrapper I) := moved w iPrev.
Definition wSeek (w : IteratorWrapper I) (k : bytes) := moved w (λ it, iSeek it k).
Definition wSeekToFirst (w : IteratorWrapper I) := moved w iSeekToFirst.
Definition wSeekToLast (w : IteratorWrapper I) := moved w iSeekToLast.

End Wrapper.

(** The wrapper as an iterator, for its contract. *)
#[export] Instance Wrapper_ops {I} `{IteratorOps I} : IteratorOps (IteratorWrapper I) := {|
  iValid := w_valid;
  iKey := wKey;
  iValue := wValue;
  iStatus w := default Status_OK (wStatus w);
  iSeekToFirst := wSeekToFirst;
  iSeekToLast := wSeekToLast;
  iSeek := wSeek;
  iNext := wNext;
  iPrev := wPrev;
|}.

(** ** Lemmas *)

Lemma elem_of_concat {A} (x : A) (ls : list (list A)) : x ∈ concat ls ↔ ∃ l, x ∈ l ∧ l ∈ ls.
Proof. rewrite list_elem_of_In, in_concat. split; intros (l & ? & ?); exists l; rewrite ?list_elem_of_In in *; done. Qed.

(** A check of [keys_sorted] by evaluation. *)
Fixpoint sortedb (C : Comparator) (kvs : list (bytes * bytes)) : bool :=
  match kvs with
  | [] => true
  | kv :: kvs' => forallb (λ kv', @Compare C kv.1 kv'.1 <? 0) kvs' && sortedb C kvs'
  end.

Lemma sortedb_sorted C kvs : sortedb C kvs = true → keys_sorted (C := C) kvs.
Proof.
  induction kvs as [|kv kvs IH]; intros Hs i j a b Hij Hi Hj; [done|]. apply andb_true_iff in Hs as [Hf Hs].
  destruct i as [|i], j as [|j]; simpl in *; simplify_eq; try lia.
  - rewrite forallb_forall in Hf. apply Z.ltb_lt, Hf, list_elem_of_In. by eapply list_elem_of_lookup_2.
  - apply (IH Hs i j a b); [lia|done|done].
Qed.

Lemma lower_bound_exists (C : Comparator) {L : ComparatorLaws C} kvs target : keys_sorted (C := C) kvs →
  ∃ n, is_lower_bound (C := C) kvs target n.
Proof.
  intros Hs. assert (∀ k, (k <= length kvs)%nat → ∃ n, (n <= k)%nat ∧
    (∀ i kv, kvs !! i = Some kv → (i < n)%nat → @Compare C kv.1 target < 0) ∧
    (∀ i kv, kvs !! i = Some kv → (n <= i < k)%nat → 0 <= @Compare C kv.1 target)) as H.
  { induction k as [|k IH]; intros Hk.
    - exists 0%nat. split_and!; [lia|intros; lia|intros; lia].
    - destruct IH as (n & Hn & H1 & H2); [lia|]. destruct (lookup_lt_is_Some_2 kvs k ltac:(lia)) as [kv Hkv].
      destruct (Z.lt_ge_cases (@Compare C kv.1 target) 0) as [Hlt|Hge].
      + exists (S k). split_and!; [done| |intros; lia]. intros i kvi Hi Hik.
        destruct (decide (i = k)) as [->|]; [congruence|]. apply (Compare_lt_trans _ kv.1); [apply (Hs i k); [lia|done|done]|done].
      + exists n. split_and!; [lia|done|]. intros i kvi Hi Hik. destruct (decide (i = k)) as [->|]; [congruence|].
        apply (H2 i); [done|lia]. }
  destruct (H (length kvs) ltac:(done)) as (n & Hn & H1 & H2). exists n. split_and!; [done|done|].
  intros i kv Hi Hni. apply (H2 i kv Hi). apply lookup_lt_Some in Hi. lia.
Qed.

Lemma cursor_Some kvs i : (i < length kvs)%nat → cursor kvs i = Some i.
Proof. intros. unfold cursor. by rewrite decide_True. Qed.

Lemma cursor_None kvs i : (length kvs <= i)%nat → cursor kvs i = None.
Proof. intros. unfold cursor. rewrite decide_False by lia. done. Qed.

Lemma cursor_inv kvs i j : cursor kvs i = Some j → i = j ∧ (j < length kvs)%nat.
Proof. unfold cursor. case_decide; intros [=]; subst; done. Qed.

Section Contract.
  Context {I : Type} `{IteratorOps I} (B : Z) (C : Comparator).

Lemma reads_cursor kvs : cursor_over B C kvs (reads B C kvs).
Proof.
  split.
  - intros it c (R & HR & Hc). by eapply co_valid.
  - intros it c (R & HR & Hc). by eapply co_status.
  - intros it i (R & HR & Hc). by eapply co_entry.
  - intros it c (R & HR & Hc). edestruct co_first as (it' & ? & ?); [done..|]. exists it'. split; [done|by exists R].
  - intros it c (R & HR & Hc). edestruct co_last as (it' & ? & ?); [done..|]. exists it'. split; [done|by exists R].
  - intros it i (R & HR & Hc). edestruct co_next as (it' & ? & ?); [done..|]. exists it'. split; [done|by exists R].
  - intros it i (R & HR & Hc). edestruct co_prev as (it' & ? & ?); [done..|]. exists it'. split; [done|by exists R].
  - intros it c t Ht (R & HR & Hc). destruct (co_seek _ _ _ _ HR it c t Ht Hc) as (it' & m & ? & ? & ?). exists it', m.
    split; [done|]. split; [done|by exists R].
Qed.

Lemma reads_lookup kvs it i : reads B C kvs it (Some i) →
  ∃ kv, kvs !! i = Some kv ∧ iValid it = true ∧ iKey it = Some kv.1 ∧ iValue it = Some kv.2.
Proof.
  intros Hr. destruct (co_entry _ _ _ _ (reads_cursor kvs) _ _ Hr) as (kv & ? & ? & ?).
  exists kv. split_and!; try done. by rewrite (co_valid _ _ _ _ (reads_cursor kvs) _ _ Hr).
Qed.

(** The wrapper shows its iterator. *)
Definition wraps (w : IteratorWrapper I) (kvs : list (bytes * bytes)) (c : option nat) : Prop :=
  ∃ it, w_iter w = Some it ∧ reads B C kvs it c ∧ w_valid w = bool_decide (is_Some c) ∧
    (∀ i, c = Some i → iKey it = Some (w_key w)).

Lemma Update_wraps it v k kvs c : reads B C kvs it c →
  ∃ w, Update (MkWrapper (Some it) v k) = Some w ∧ wraps w kvs c.
Proof.
  intros Hr. unfold Update. cbn [w_iter mbind option_bind].
  pose proof (co_valid _ _ _ _ (reads_cursor kvs) _ _ Hr) as E. rewrite E. destruct c as [i|].
  - destruct (reads_lookup kvs it i Hr) as (kv & _ & _ & Ek & _). rewrite bool_decide_eq_true_2 by done.
    rewrite Ek. eexists. split; [done|]. by exists it.
  - rewrite bool_decide_eq_false_2 by (by intros []). eexists. split; [done|]. exists it. split_and!; try done.
Qed.

Lemma moved_wraps w kvs c c' (move : I → option I) : wraps w kvs c →
  (∀ it, reads B C kvs it c → ∃ it', move it = Some it' ∧ reads B C kvs it' c') →
  ∃ w', moved w move = Some w' ∧ wraps w' kvs c'.
Proof.
  intros (it & E & Hr & _) Hm. destruct (Hm it Hr) as (it' & E' & Hr'). unfold moved. rewrite E. cbn [mbind option_bind].
  rewrite E'. cbn [mbind option_bind]. by apply Update_wraps.
Qed.

(** Caching [Valid] and [key] does not change what the iterator shows. *)
Lemma wraps_cursor kvs : cursor_over B C kvs (λ w c, wraps w kvs c).
Proof.
  pose proof (reads_cursor kvs) as HR. split.
  - by intros w c (it & _ & _ & Hv & _).
  - intros w c (it & E & Hr & _). cbn. unfold wStatus. rewrite E. cbn. by eapply co_status.
  - intros w i (it & E & Hr & Hv & Hk). destruct (co_entry _ _ _ _ HR _ _ Hr) as (kv & ? & Ek & Ev). exists kv.
    split; [done|]. cbn. unfold wKey, wValue. rewrite Hv, bool_decide_eq_true_2 by done. cbn.
    rewrite E. cbn. rewrite (Hk i eq_refl) in Ek. by split.
  - intros w c Hw. apply (moved_wraps w kvs c); [done|]. intros it Hr. by eapply co_first.
  - intros w c Hw. apply (moved_wraps w kvs c); [done|]. intros it Hr. by eapply co_last.
  - intros w i Hw. apply (moved_wraps w kvs (Some i)); [done|]. intros it Hr. by eapply co_next.
  - intros w i Hw. apply (moved_wraps w kvs (Some i)); [done|]. intros it Hr. by eapply co_prev.
  - intros w c t Ht Hw. destruct Hw as (it & E & Hr & _). destruct (co_seek _ _ _ _ HR it c t Ht Hr) as (it' & m & E' & Hb & Hr').
    cbn. unfold wSeek, moved. rewrite E. cbn [mbind option_bind]. rewrite E'. cbn [mbind option_bind].
    destruct (Update_wraps it' (w_valid w) (w_key w) kvs _ Hr') as (w' & Ew & Hw'). by exists w', m.
Qed.

Lemma WSet_wraps w it kvs c : reads B C kvs it c → ∃ w', WSet w (Some it) = Some w' ∧ wraps w' kvs c.
Proof. apply Update_wraps. Qed.

Lemma wraps_entry w kvs i : wraps w kvs (Some i) → ∃ kv, kvs !! i = Some kv ∧
  w_valid w = true ∧ wKey w = Some kv.1 ∧ wValue w = Some kv.2.
Proof.
  intros Hw. destruct (co_entry _ _ _ _ (wraps_cursor kvs) _ _ Hw) as (kv & ? & ? & ?). exists kv. split_and!; try done.
  destruct Hw as (it & _ & _ & -> & _). done.
Qed.

Lemma wraps_None w kvs : wraps w kvs None → w_valid w = false.
Proof. intros (it & _ & _ & -> & _). done. Qed.

End Contract.

Lemma sum_inl_cursor {I J} `{IteratorOps I} `{IteratorOps J} B C kvs (R : I → option nat → Prop) : cursor_over B C kvs R →
  cursor_over (I := I + J) B C kvs (λ it c, ∃ i, it = inl i ∧ R i c).
Proof.
  intros HR. split; cbn.
  - intros it c (i & -> & Hr). by eapply co_valid.
  - intros it c (i & -> & Hr). by eapply co_status.
  - intros it c (i & -> & Hr). by eapply co_entry.
  - intros it c (i & -> & Hr). destruct (co_first _ _ _ _ HR i c Hr) as (i' & -> & ?). naive_solver.
  - intros it c (i & -> & Hr). destruct (co_last _ _ _ _ HR i c Hr) as (i' & -> & ?). naive_solver.
  - intros it c (i & -> & Hr). destruct (co_next _ _ _ _ HR i c Hr) as (i' & -> & ?). naive_solver.
  - intros it c (i & -> & Hr). destruct (co_prev _ _ _ _ HR i c Hr) as (i' & -> & ?). naive_solver.
  - intros it c t Ht (i & -> & Hr). destruct (co_seek _ _ _ _ HR i c t Ht Hr) as (i' & m & -> & ? & ?). naive_solver.
Qed.

Lemma sum_inr_cursor {I J} `{IteratorOps I} `{IteratorOps J} B C kvs (R : J → option nat → Prop) : cursor_over B C kvs R →
  cursor_over (I := I + J) B C kvs (λ it c, ∃ j, it = inr j ∧ R j c).
Proof.
  intros HR. split; cbn.
  - intros it c (i & -> & Hr). by eapply co_valid.
  - intros it c (i & -> & Hr). by eapply co_status.
  - intros it c (i & -> & Hr). by eapply co_entry.
  - intros it c (i & -> & Hr). destruct (co_first _ _ _ _ HR i c Hr) as (i' & -> & ?). naive_solver.
  - intros it c (i & -> & Hr). destruct (co_last _ _ _ _ HR i c Hr) as (i' & -> & ?). naive_solver.
  - intros it c (i & -> & Hr). destruct (co_next _ _ _ _ HR i c Hr) as (i' & -> & ?). naive_solver.
  - intros it c (i & -> & Hr). destruct (co_prev _ _ _ _ HR i c Hr) as (i' & -> & ?). naive_solver.
  - intros it c t Ht (i & -> & Hr). destruct (co_seek _ _ _ _ HR i c t Ht Hr) as (i' & m & -> & ? & ?). naive_solver.
Qed.

Lemma reads_inl {I J} `{IteratorOps I} `{IteratorOps J} B C kvs (it : I) c : reads B C kvs it c →
  reads (I := I + J) B C kvs (inl it) c.
Proof. intros (R & HR & Hr). eexists. split; [by apply sum_inl_cursor|]. by exists it. Qed.

Lemma reads_inr {I J} `{IteratorOps I} `{IteratorOps J} B C kvs (it : J) c : reads B C kvs it c →
  reads (I := I + J) B C kvs (inr it) c.
Proof. intros (R & HR & Hr). eexists. split; [by apply sum_inr_cursor|]. by exists it. Qed.

Lemma empty_reads B C : reads B C [] NewEmptyIterator None.
Proof.
  exists (λ it c, it = NewEmptyIterator ∧ c = None). split; [|done]. split; cbn.
  - by intros it c [-> ->].
  - by intros it c [-> ->].
  - by intros it i [_ ?].
  - intros it c [-> ->]. by exists NewEmptyIterator.
  - intros it c [-> ->]. by exists NewEmptyIterator.
  - by intros it i [_ ?].
  - by intros it i [_ ?].
  - intros it c t _ [-> ->]. exists NewEmptyIterator, 0%nat. split_and!; try done.
Qed.

(** A block iterator that refines a cursor fulfils the contract. *)
Lemma block_reads B C kvs R (it : Iter) c : cursor_refinement (C := C) kvs R → R it c →
  @reads _ (BlockIter_ops C) B C kvs it c.
Proof.
  intros HR Hr. exists R. split; [|done]. split; cbn.
  - intros i p Hp. by destruct (cr_valid _ _ HR i p Hp).
  - intros i p Hp. by destruct (cr_valid _ _ HR i p Hp).
  - intros i p Hp. pose proof (cr_entry _ _ HR i p Hp). destruct (cr_valid _ _ HR i _ Hp) as [E _].
    exists (key i, value i). rewrite E. by split_and!.
  - intros i p Hp. by apply (cr_first _ _ HR i p).
  - intros i p Hp. destruct (cr_last _ _ HR i p Hp) as (i' & ? & ?). exists i'. split; [done|]. by destruct kvs.
  - intros i p Hp. destruct (cr_valid _ _ HR i _ Hp) as [E _]. rewrite E. by apply (cr_next _ _ HR i p).
  - intros i p Hp. destruct (cr_valid _ _ HR i _ Hp) as [E _]. rewrite E. by apply (cr_prev _ _ HR i p).
  - intros i p t _ Hp. destruct (cr_seek _ _ HR i p t Hp) as (i' & m & ? & ? & ?). by exists i', m.
Qed.

(** The iterator over a block the builder made. *)
Lemma build_block_reads B (C : Comparator) {L : ComparatorLaws C} interval kvs : 1 <= interval → keys_sorted (C := C) kvs →
  (∀ kv, kv ∈ kvs → size kv.1 < 2 ^ 32 ∧ size kv.2 < 2 ^ 32) → size (build_block interval kvs) < 2 ^ 32 →
  ∃ it, NewIterator (NewBlock (build_block interval kvs)) = BlockIter it ∧ @reads _ (BlockIter_ops C) B C kvs it None.
Proof.
  intros Hi Hs Hkv Hsz. destruct (built_all interval kvs Hi Hkv) as (es & ridx & Hb & <-).
  pose proof (built_block_ok es ridx _ Hb Hsz Hkv) as HB. unfold build_block in *. rewrite (Finish_spec _ _ _ Hb Hsz).
  eexists. split; [by apply NewIterator_data|]. eapply block_reads; [by apply shows_refinement|]. by apply NewIter_shows.
Qed.
