(* ===== verification/Merger.v ===== *)
(** * The merging iterator (src/table/merger.cc)

    [MergingIterator] shows the entries of its children as one sorted sequence.
    The file models its moves, the two searches for the current child and
    [NewMergingIterator], and proves that it is a cursor over the merge of the
    children's entries. *)

From stdpp Require Import sorting.
From S2P Require Import Prelude Coding Status Comparator Block Iterators.
Import Coding.

Inductive Direction := kForward | kReverse.

Record MergingIterator (I : Type) := MkMerging {
  children_ : list (IteratorWrapper I);
  current_child : option nat;
  direction_ : Direction;
}.
Arguments MkMerging {I} _ _ _.
Arguments children_ {I} _.
Arguments current_child {I} _.
Arguments direction_ {I} _.

Section Merger.
  Context {I : Type} `{IteratorOps I} (C : Comparator).

(** The loops of [FindSmallest] and [FindLargest]: the first valid child, then any
    child whose comparison with the best one so far is [better]. *)
Fixpoint Find_loop (better : Z → bool) (cs : list (nat * IteratorWrapper I)) (best : option (nat * IteratorWrapper I)) :
    option (option (nat * IteratorWrapper I)) :=
  match cs with
  | [] => Some best
  | (i, child) :: cs' =>
      best' ← (if w_valid child then
                 match best with
                 | None => Some (Some (i, child))
                 | Some (_, b) =>
                     k ← wKey child;
                     kb ← wKey b;
                     Some (if better (@Compare C k kb) then Some (i, child) else best)
                 end
               else Some best);
      Find_loop better cs' best'
  end.

Definition FindSmallest (children : list (IteratorWrapper I)) : option (option nat) :=
  smallest ← Find_loop (λ r, r <? 0) (imap pair children) None;
  Some (option_map fst smallest).

Definition FindLargest (children : list (IteratorWrapper I)) : option (option nat) :=
  largest ← Find_loop (λ r, 0 <? r) (reverse (imap pair children)) None;
  Some (option_map fst largest).

Definition NewMerging (children : list I) : option (MergingIterator I) :=
  cs ← mapM (λ it, WSet EmptyWrapper (Some it)) children;
  Some (MkMerging cs None kForward).

Definition MergingValid (mi : MergingIterator I) : bool := bool_decide (is_Some (current_child mi)).

Definition current_ (mi : MergingIterator I) : option (IteratorWrapper I) :=
  i ← current_child mi;
  children_ mi !! i.

Definition MergingKey (mi : MergingIterator I) : option bytes := c ← current_ mi; wKey c.
Definition MergingValue (mi : MergingIterator I) : option bytes := c ← current_ mi; wValue c.

(** The first child status that is not ok; the last child's status otherwise. *)
Fixpoint status_loop (cs : list (IteratorWrapper I)) (status : Status) : Status :=
  match cs with
  | [] => status
  | child :: cs' =>
      let status := default Status_OK (wStatus child) in
      if negb (ok status) then status else status_loop cs' status
  end.

Definition MergingStatus (mi : MergingIterator I) : Status := status_loop (children_ mi) Status_OK.

Definition MergingSeekToFirst (mi : MergingIterator I) : option (MergingIterator I) :=
  cs ← mapM wSeekToFirst (children_ mi);
  current ← FindSmallest cs;
  Some (MkMerging cs current kForward).

Definition MergingSeekToLast (mi : MergingIterator I) : option (MergingIterator I) :=
  cs ← mapM wSeekToLast (children_ mi);
  current ← FindLargest cs;
  Some (MkMerging cs current kReverse).

Definition MergingSeek (mi : MergingIterator I) (target : bytes) : option (MergingIterator I) :=
  cs ← mapM (λ c, wSeek c target) (children_ mi);
  current ← FindSmallest cs;
  Some (MkMerging cs current kForward).

(** A loop over the children by index. *)
Fixpoint over_children (f : nat → IteratorWrapper I → option (IteratorWrapper I)) (i : nat)
    (cs : list (IteratorWrapper I)) : option (list (IteratorWrapper I)) :=
  match cs with
  | [] => Some []
  | child :: cs' =>
      child' ← f i child;
      rest ← over_children f (S i) cs';
      Some (child' :: rest)
  end.

(** The bodies of the two loops that turn the other children around. *)
Definition turn_forward (cur : nat) (k : bytes) (i : nat) (child : IteratorWrapper I) : option (IteratorWrapper I) :=
  if decide (i = cur) then Some child
  else
    child ← wSeek child k;
    if w_valid child then
      k' ← wKey child;
      if @Compare C k k' =? 0 then wNext child else Some child
    else Some child.

Definition turn_reverse (cur : nat) (k : bytes) (i : nat) (child : IteratorWrapper I) : option (IteratorWrapper I) :=
  if decide (i = cur) then Some child
  else
    child ← wSeek child k;
    if w_valid child then wPrev child else wSeekToLast child.

(** [current_->Next()] and [current_->Prev()]. *)
Definition move_current (cur : nat) (move : IteratorWrapper I → option (IteratorWrapper I))
    (cs : list (IteratorWrapper I)) : option (list (IteratorWrapper I)) :=
  c ← cs !! cur;
  c' ← move c;
  Some (<[cur := c']> cs).

Definition MergingNext (mi : MergingIterator I) : option (MergingIterator I) :=
  cur ← current_child mi;
  cs ← (match direction_ mi with
        | kForward => Some (children_ mi)
        | kReverse => k ← MergingKey mi; over_children (turn_forward cur k) 0 (children_ mi)
        end);
  cs ← move_current cur wNext cs;
  current ← FindSmallest cs;
  Some (MkMerging cs current kForward).

Definition MergingPrev (mi : MergingIterator I) : option (MergingIterator I) :=
  cur ← current_child mi;
  cs ← (match direction_ mi with
        | kReverse => Some (children_ mi)
        | kForward => k ← MergingKey mi; over_children (turn_reverse cur k) 0 (children_ mi)
        end);
  cs ← move_current cur wPrev cs;
  current ← FindLargest cs;
  Some (MkMerging cs current kReverse).

Definition Merging_ops : IteratorOps (MergingIterator I) := {|
  iValid := MergingValid;
  iKey := MergingKey;
  iValue := MergingValue;
  iStatus := MergingStatus;
  iSeekToFirst := MergingSeekToFirst;
  iSeekToLast := MergingSeekToLast;
  iSeek := MergingSeek;
  iNext := MergingNext;
  iPrev := MergingPrev;
|}.

(** [NewMergingIterator]: no iterator, the only child, or a merging iterator. *)
Definition NewMergingIterator (children : list I) : option (Empty + (I + MergingIterator I)) :=
  match children with
  | [] => Some (inl NewEmptyIterator)
  | [child] => Some (inr (inl child))
  | _ => mi ← NewMerging children; Some (inr (inr mi))
  end.

End Merger.

(** ** The merge *)

(** [m] is the strictly sorted merge of the sorted lists [ls]. *)
Definition merge_of (C : Comparator) (ls : list (list (bytes * bytes))) (m : list (bytes * bytes)) : Prop :=
  m ≡ₚ concat ls ∧ keys_sorted (C := C) m ∧ Forall (keys_sorted (C := C)) ls.

Lemma NoDup_concat_once {A} (ls : list (list A)) i j l l' x : NoDup (concat ls) → ls !! i = Some l → ls !! j = Some l' →
  x ∈ l → x ∈ l' → i = j.
Proof.
  assert (∀ (ls : list (list A)) k l', ls !! k = Some l' → x ∈ l' → x ∈ concat ls) as Hin.
  { intros ls' k l0 Hk Hx. apply elem_of_concat. exists l0. split; [done|by eapply list_elem_of_lookup_2]. }
  revert i j. induction ls as [|l0 ls IH]; intros i j Hnd Hi Hj Hx Hx'; [done|].
  simpl in Hnd. apply NoDup_app in Hnd as (_ & Hd & Hnd).
  destruct i as [|i], j as [|j]; simpl in *; simplify_eq; try done.
  - destruct (Hd x Hx). by eapply Hin.
  - destruct (Hd x Hx'). by eapply Hin.
  - f_equal. by eapply IH.
Qed.

Section Merged.
  Context {I : Type} `{IteratorOps I} (B : Z) (C : Comparator) {L : ComparatorLaws C}.
  Context (ls : list (list (bytes * bytes))) (m : list (bytes * bytes)) (M : merge_of C ls m) (HB : Forall (λ kv : bytes * bytes, size kv.1 < B) m).

Lemma sorted_NoDup l : keys_sorted (C := C) l → NoDup l.
Proof using L.
  intros Hs. apply NoDup_alt. intros i j kv Hi Hj. destruct (Nat.lt_trichotomy i j) as [Hlt|[|Hlt]]; [|done|].
  - pose proof (Hs i j kv kv Hlt Hi Hj). pose proof (Compare_refl kv.1). lia.
  - pose proof (Hs j i kv kv Hlt Hj Hi). pose proof (Compare_refl kv.1). lia.
Qed.

Lemma child_sorted i l : ls !! i = Some l → keys_sorted (C := C) l.
Proof using M. intros Hi. destruct M as (_ & _ & Hf). by eapply Forall_lookup_1. Qed.

Lemma child_in_merge i l p kv : ls !! i = Some l → l !! p = Some kv → ∃ j, m !! j = Some kv.
Proof using M.
  intros Hi Hp. destruct M as (Hperm & _). apply list_elem_of_lookup_1. rewrite Hperm.
  apply elem_of_concat. exists l. split; by eapply list_elem_of_lookup_2.
Qed.

Lemma merge_in_child j kv : m !! j = Some kv → ∃ i l p, ls !! i = Some l ∧ l !! p = Some kv.
Proof using M.
  intros Hj. destruct M as (Hperm & _). apply list_elem_of_lookup_2 in Hj. rewrite Hperm in Hj.
  apply elem_of_concat in Hj as (l & Hl & Hls). apply list_elem_of_lookup_1 in Hls as [i Hi].
  apply list_elem_of_lookup_1 in Hl as [p Hp]. by exists i, l, p.
Qed.

Lemma one_child i i' l l' p p' kv : ls !! i = Some l → ls !! i' = Some l' → l !! p = Some kv → l' !! p' = Some kv → i = i'.
Proof using L M.
  intros Hi Hi' Hp Hp'. destruct M as (Hperm & Hs & _).
  eapply NoDup_concat_once; [|exact Hi|exact Hi'|by eapply list_elem_of_lookup_2|by eapply list_elem_of_lookup_2].
  rewrite <-Hperm. by apply sorted_NoDup.
Qed.

(** [kv] is one of the first [j] entries of the merge. *)
Definition bef (j : nat) (kv : bytes * bytes) : Prop := ∃ j', (j' < j)%nat ∧ m !! j' = Some kv.

Lemma bef_at j j' kv : m !! j' = Some kv → bef j kv ↔ (j' < j)%nat.
Proof using L M.
  intros Hj'. split; [|intros; by exists j']. intros (j'' & Hlt & Hj''). destruct M as (_ & Hs & _).
  assert (j'' = j') as <-; [|done]. by eapply (proj1 (NoDup_alt m) (sorted_NoDup m Hs)).
Qed.

Lemma merge_lt j j' kv kv' : m !! j = Some kv → m !! j' = Some kv' → @Compare C kv.1 kv'.1 < 0 ↔ (j < j')%nat.
Proof using L M.
  intros Hj Hj'. destruct M as (_ & Hs & _). split; [|intros Hlt; by apply (Hs j j')]. intros Hlt.
  destruct (Nat.lt_trichotomy j j') as [|[->|Hgt]]; [done| |].
  - assert (kv = kv') as -> by congruence. rewrite Compare_refl in Hlt. lia.
  - pose proof (Hs j' j kv' kv Hgt Hj' Hj) as H'. apply Compare_lt_gt in H'. lia.
Qed.

Lemma merge_le j j' kv kv' : m !! j = Some kv → m !! j' = Some kv' → @Compare C kv.1 kv'.1 <= 0 ↔ (j <= j')%nat.
Proof using L M.
  intros Hj Hj'. rewrite Compare_le_ge. pose proof (merge_lt j' j kv' kv Hj' Hj). lia.
Qed.

(** The first [n] entries of [l] are the ones among the first [j] of the merge. *)
Definition splits (l : list (bytes * bytes)) (j n : nat) : Prop :=
  (n <= length l)%nat ∧ ∀ p kv, l !! p = Some kv → (p < n)%nat ↔ bef j kv.

Lemma splits_bound i l j kv n : ls !! i = Some l → m !! j = Some kv →
  is_lower_bound (C := C) l kv.1 n → splits l j n.
Proof using L M.
  intros Hi Hj (Hn & Hlt & Hge). split; [done|]. intros p kvp Hp. destruct (child_in_merge i l p kvp Hi Hp) as [j' Hj'].
  rewrite (bef_at j j' kvp Hj'), <-(merge_lt j' j kvp kv Hj' Hj). split; [by apply Hlt|].
  intros Hc. destruct (Nat.lt_ge_cases p n) as [|Hpn]; [done|]. specialize (Hge p kvp Hp Hpn). lia.
Qed.

Lemma splits_0 l : splits l 0 0.
Proof. split; [lia|]. intros p kv Hp. split; [lia|]. intros (? & ? & _). lia. Qed.

Lemma splits_all i l : ls !! i = Some l → splits l (length m) (length l).
Proof using M.
  intros Hi. split; [done|]. intros p kv Hp. split; intros _.
  - destruct (child_in_merge i l p kv Hi Hp) as [j Hj]. exists j. split; [by eapply lookup_lt_Some|done].
  - by eapply lookup_lt_Some.
Qed.

(** Where the [j]-th entry of the merge is in its child. *)
Lemma splits_here i l j kv n p : ls !! i = Some l → m !! j = Some kv → l !! p = Some kv → splits l j n ↔ n = p.
Proof using L M.
  intros Hi Hj Hp. assert (∀ n, splits l j n → n = p) as Hu.
  { intros n' (Hn & Hb). destruct (Nat.lt_trichotomy n' p) as [Hlt|[|Hgt]]; [exfalso|done|exfalso].
    - destruct (lookup_lt_is_Some_2 l n') as [kv' Hkv']; [apply lookup_lt_Some in Hp; lia|].
      pose proof (child_sorted i l Hi n' p kv' kv Hlt Hkv' Hp) as Hc.
      destruct (child_in_merge i l n' kv' Hi Hkv') as [j' Hj'].
      pose proof (proj1 (merge_lt j' j kv' kv Hj' Hj) Hc) as Hjj.
      pose proof (proj2 (Hb n' kv' Hkv') (ex_intro _ j' (conj Hjj Hj'))). lia.
    - apply (Hb p kv Hp) in Hgt. apply (bef_at j j kv Hj) in Hgt. lia. }
  split; [apply Hu|]. intros ->. split; [apply lookup_lt_Some in Hp; lia|]. intros q kvq Hq.
  destruct (child_in_merge i l q kvq Hi Hq) as [jq Hjq]. rewrite (bef_at j jq kvq Hjq), <-(merge_lt jq j kvq kv Hjq Hj).
  split; [intros; by apply (child_sorted i l Hi q p)|]. intros Hc.
  destruct (Nat.lt_trichotomy q p) as [|[->|Hgt]]; [done| |].
  - assert (kvq = kv) as -> by congruence. rewrite Compare_refl in Hc. lia.
  - pose proof (child_sorted i l Hi p q kv kvq Hgt Hp Hq) as Hc'. apply Compare_lt_gt in Hc'. lia.
Qed.

Lemma bef_S j kv0 kv : m !! j = Some kv0 → bef (S j) kv ↔ bef j kv ∨ kv = kv0.
Proof.
  intros Hj. unfold bef. split.
  - intros (j' & Hlt & Hj'). destruct (decide (j' = j)) as [->|]; [right; congruence|left; exists j'; split; [lia|done]].
  - intros [(j' & ? & ?)| ->]; [exists j'; split; [lia|done]|exists j; split; [lia|done]].
Qed.

(** Passing an entry of another child moves no bound. *)
Lemma splits_other l j n kv : m !! j = Some kv → kv ∉ l → splits l (S j) n ↔ splits l j n.
Proof.
  intros Hj Hnot. unfold splits. apply and_iff_compat_l.
  assert (∀ p kvp, l !! p = Some kvp → bef (S j) kvp ↔ bef j kvp) as E.
  { intros p kvp Hp. rewrite (bef_S j kv kvp Hj). split; [|by left]. intros [?|Hd]; [done|]. subst kvp.
    destruct Hnot. by eapply list_elem_of_lookup_2. }
  split; intros Hb p kvp Hp; rewrite (Hb p kvp Hp); [|symmetry]; by eapply E.
Qed.

Lemma splits_pass i l j kv p : ls !! i = Some l → m !! j = Some kv → l !! p = Some kv → splits l (S j) (S p).
Proof using L M.
  intros Hi Hj Hp. pose proof (proj2 (splits_here i l j kv p p Hi Hj Hp) eq_refl) as (Hn & Hb).
  split; [apply lookup_lt_Some in Hp; lia|]. intros q kvq Hq. rewrite (bef_S j kv kvq Hj), <-(Hb q kvq Hq). split.
  - intros Hlt. destruct (decide (q = p)) as [->|]; [right; congruence|left; lia].
  - intros [?| ->]; [lia|]. pose proof (child_sorted i l Hi) as Hs. apply sorted_NoDup in Hs.
    assert (q = p) as -> by (by eapply (proj1 (NoDup_alt l) Hs)). lia.
Qed.

Lemma splits_pass_unique i l j kv p n : ls !! i = Some l → m !! j = Some kv → l !! p = Some kv → splits l (S j) n → n = S p.
Proof using L M.
  intros Hi Hj Hp (Hn & Hb). pose proof (splits_pass i l j kv p Hi Hj Hp) as (Hn' & Hb').
  pose proof (proj1 (Hb' p kv Hp) ltac:(lia)) as Hbef. pose proof (proj2 (Hb p kv Hp) Hbef).
  destruct (Nat.lt_ge_cases (S p) n) as [Hlt|]; [|lia]. destruct (lookup_lt_is_Some_2 l (S p) ltac:(lia)) as [kv' Hkv'].
  pose proof (proj2 (Hb' _ _ Hkv') (proj1 (Hb _ _ Hkv') Hlt)). lia.
Qed.

(** ** The searches *)

Lemma Find_loop_best (better : Z → bool) i0 (w0 : IteratorWrapper I) : better 0 = false → w_valid w0 = true → ∀ cs best,
  (∀ i w, (i, w) ∈ cs ∨ best = Some (i, w) → w_valid w = true → (i, w) = (i0, w0) ∨
     better (@Compare C (w_key w) (w_key w0)) = false ∧ better (@Compare C (w_key w0) (w_key w)) = true) →
  (∀ i w, best = Some (i, w) → w_valid w = true) →
  (i0, w0) ∈ cs ∨ best = Some (i0, w0) →
  Find_loop C better cs best = Some (Some (i0, w0)).
Proof using L.
  intros Hb Hv. induction cs as [|[i w] cs IH]; intros best Hall Hbest Hin; simpl.
  { destruct Hin as [Hin%not_elem_of_nil|]; [done|by f_equal]. }
  assert (∀ best', (best' = best ∨ best' = Some (i, w) ∧ w_valid w = true) → ((i0, w0) ∈ cs ∨ best' = Some (i0, w0)) →
    Find_loop C better cs best' = Some (Some (i0, w0))) as Hgo.
  { intros best' [->|[-> Hw]] Hin'; apply IH; try done.
    - intros i1 w1 [H1|H1]; apply Hall; [left; by right|by right].
    - intros i1 w1 [H1|H1]; apply Hall; [left; by right|left]. injection H1 as <- <-. by left.
    - by intros i1 w1 [= <- <-]. }
  assert ((i0, w0) ∈ cs ∨ (i, w) = (i0, w0) ∨ best = Some (i0, w0)) as Hin'.
  { destruct Hin as [[Heq|Hin]%elem_of_cons|]; [right; left; by symmetry|by left|by right; right]. }
  destruct (w_valid w) eqn:Ew; cbn [mbind option_bind].
  2: { apply Hgo; [by left|]. destruct Hin' as [?|[Heq|?]]; [by left| |by right]. injection Heq as -> ->. congruence. }
  destruct best as [[ib b]|]; cbn [mbind option_bind].
  2: { apply Hgo; [by right|]. destruct Hin' as [?|[Heq|?]]; [by left|right; by f_equal|done]. }
  unfold wKey. rewrite Ew, (Hbest ib b eq_refl). cbn [guarded mbind option_bind].
  pose proof (Hall i w (or_introl (list_elem_of_here _ _)) Ew) as Hw.
  pose proof (Hall ib b (or_intror eq_refl) (Hbest ib b eq_refl)) as Hbb.
  destruct (better (@Compare C (w_key w) (w_key b))) eqn:E.
  - apply Hgo; [right; by split|]. destruct Hin' as [?|[Heq|[= -> ->]]]; [by left|right; by f_equal|right].
    destruct Hw as [Hw|[Hw _]]; [by f_equal|congruence].
  - apply Hgo; [by left|]. destruct Hin' as [?|[[= -> ->]|?]]; [by left|right|by right].
    destruct Hbb as [Hbb|[_ Hbb]]; [by f_equal|congruence].
Qed.

Lemma Find_loop_none better (cs : list (nat * IteratorWrapper I)) : (∀ i w, (i, w) ∈ cs → w_valid w = false) →
  Find_loop C better cs None = Some None.
Proof.
  induction cs as [|[i w] cs IH]; intros Hall; simpl; [done|].
  rewrite (Hall i w) by apply list_elem_of_here. cbn [mbind option_bind]. apply IH. intros i' w' Hin. apply (Hall i'). by right.
Qed.

(** The current child is the one that stands on [o]. *)
Definition stands (cs : list (IteratorWrapper I)) (cur : option nat) (o : option (bytes * bytes)) : Prop :=
  match o with
  | None => cur = None
  | Some kv => ∃ i w l p, cur = Some i ∧ cs !! i = Some w ∧ ls !! i = Some l ∧ wraps B C w l (Some p) ∧ l !! p = Some kv
  end.

(** Every child stands at the first entry from the [j]-th of the merge on. *)
Definition ahead (j : nat) (cs : list (IteratorWrapper I)) : Prop :=
  Forall2 (λ w l, ∃ n, splits l j n ∧ wraps B C w l (cursor l n)) cs ls.

(** Every child stands at its last entry among the first [j]. *)
Definition behind (j : nat) (cs : list (IteratorWrapper I)) : Prop :=
  Forall2 (λ w l, ∃ n, splits l j n ∧ wraps B C w l (last_pos n)) cs ls.

Lemma imap_elem (cs : list (IteratorWrapper I)) i w : (i, w) ∈ imap pair cs ↔ cs !! i = Some w.
Proof.
  rewrite elem_of_lookup_imap. split; [by intros (j & x & [= -> ->] & ?)|]. intros Hi. by exists i, w.
Qed.

(** The search finds the child on [kv] when its key is better than all others. *)
Lemma Find_stands better (cs : list (IteratorWrapper I)) order kv i0 w0 l0 p0 : better 0 = false →
  (∀ i w, (i, w) ∈ order ↔ cs !! i = Some w) →
  cs !! i0 = Some w0 → ls !! i0 = Some l0 → wraps B C w0 l0 (Some p0) → l0 !! p0 = Some kv →
  (∀ i w, cs !! i = Some w → i ≠ i0 → ∃ l c, wraps B C w l c ∧ match c with None => True | Some p => ∃ kv', l !! p = Some kv' ∧
     better (@Compare C kv'.1 kv.1) = false ∧ better (@Compare C kv.1 kv'.1) = true end) →
  ∃ b, Find_loop C better order None = Some b ∧ stands cs (option_map fst b) (Some kv).
Proof using L.
  intros Hb Hord Hc0 Hl0 Hw0 Hp0 Hbest. exists (Some (i0, w0)).
  assert (∀ w l p kv, wraps B C w l (Some p) → l !! p = Some kv → w_valid w = true ∧ w_key w = kv.1) as Hkey.
  { intros w l p kv' Hw Hp. destruct (wraps_entry B C w l p Hw) as (kv'' & Hl & Hv & Hk & _). split; [done|].
    unfold wKey in Hk. rewrite Hv in Hk. injection Hk as ->. congruence. }
  destruct (Hkey w0 l0 p0 kv Hw0 Hp0) as [Hv0 Hk0]. split.
  2: { by exists i0, w0, l0, p0. }
  apply Find_loop_best; [done|done| |done|left; by apply Hord]. intros i w [Hi|?]; [|done]. intros Hv. apply Hord in Hi.
  destruct (decide (i = i0)) as [->|Hne]; [left; congruence|right].
  destruct (Hbest i w Hi Hne) as (l & [p|] & Hw & Hc).
  - destruct Hc as (kv' & Hp & ?). destruct (Hkey w l p kv' Hw Hp) as [_ ->]. by rewrite Hk0.
  - apply wraps_None in Hw. congruence.
Qed.

Lemma FindSmallest_ahead j cs : ahead j cs → ∃ cur, FindSmallest C cs = Some cur ∧ stands cs cur (m !! j).
Proof using L M.
  intros Ha. unfold FindSmallest. destruct (m !! j) as [kv|] eqn:Hj.
  - destruct (merge_in_child j kv Hj) as (i0 & l0 & p0 & Hl0 & Hp0).
    destruct (Forall2_lookup_r _ _ _ _ _ Ha Hl0) as (w0 & Hw0 & n & Hn & Hr).
    apply (splits_here i0 l0 j kv n p0 Hl0 Hj Hp0) in Hn as ->. rewrite cursor_Some in Hr by by eapply lookup_lt_Some.
    destruct (Find_stands (λ r, r <? 0) cs (imap pair cs) kv i0 w0 l0 p0) as (b & -> & Hb); try done.
    { intros. apply imap_elem. }
    { intros i w Hi Hne. destruct (Forall2_lookup_l _ _ _ _ _ Ha Hi) as (l & Hl & n & Hn & Hw). exists l, (cursor l n).
      split; [done|]. destruct (cursor l n) as [p|] eqn:Ec; [|done]. apply cursor_inv in Ec as [-> Hp].
      apply lookup_lt_is_Some_2 in Hp as [kv' Hkv']. exists kv'. split; [done|].
      destruct (child_in_merge i l p kv' Hl Hkv') as [j' Hj']. destruct Hn as (_ & Hn). specialize (Hn p kv' Hkv').
      rewrite (bef_at j j' kv' Hj') in Hn. assert (j' ≠ j) as Hjj.
      { intros ->. assert (kv' = kv) as -> by congruence. destruct Hne. by eapply (one_child i i0 l l0 p p0 kv). }
      pose proof (merge_lt j' j kv' kv Hj' Hj). pose proof (merge_lt j j' kv kv' Hj Hj').
      rewrite Z.ltb_ge, Z.ltb_lt. lia. }
    cbn [mbind option_bind]. by eexists.
  - rewrite Find_loop_none; [by exists None|]. intros i w Hi%imap_elem.
    destruct (Forall2_lookup_l _ _ _ _ _ Ha Hi) as (l & Hl & n & (Hn & Hb) & Hw).
    rewrite cursor_None in Hw; [by apply wraps_None in Hw|]. destruct (Nat.lt_ge_cases n (length l)) as [Hlt|]; [|done].
    apply lookup_lt_is_Some_2 in Hlt as [kv' Hkv']. destruct (child_in_merge i l n kv' Hl Hkv') as [j' Hj'].
    pose proof (proj2 (Hb n kv' Hkv')). rewrite (bef_at j j' kv' Hj') in H0. apply lookup_lt_Some in Hj'. apply lookup_ge_None in Hj. lia.
Qed.

Lemma FindLargest_behind j cs : behind (S j) cs → (j < length m)%nat →
  ∃ cur, FindLargest C cs = Some cur ∧ stands cs cur (m !! j).
Proof using L M.
  intros Ha Hlt. unfold FindLargest. apply lookup_lt_is_Some_2 in Hlt as [kv Hj]. rewrite Hj.
  destruct (merge_in_child j kv Hj) as (i0 & l0 & p0 & Hl0 & Hp0).
  destruct (Forall2_lookup_r _ _ _ _ _ Ha Hl0) as (w0 & Hw0 & n & Hn & Hr).
  assert (n = S p0) as -> by (eapply (splits_pass_unique i0 l0 j kv p0 n); done).
  destruct (Find_stands (λ r, 0 <? r) cs (reverse (imap pair cs)) kv i0 w0 l0 p0) as (b & -> & Hst); try done.
  { intros. rewrite elem_of_reverse. apply imap_elem. }
  { intros i w Hi Hne. destruct (Forall2_lookup_l _ _ _ _ _ Ha Hi) as (l & Hl & n & (Hn2 & Hb2) & Hw). exists l, (last_pos n).
    split; [done|]. destruct n as [|p]; [done|]. destruct (lookup_lt_is_Some_2 l p ltac:(lia)) as [kv' Hkv'].
    exists kv'. split; [done|]. destruct (child_in_merge i l p kv' Hl Hkv') as [j' Hj'].
    pose proof (proj1 (Hb2 p kv' Hkv') ltac:(lia)) as Hj2. apply (bef_at (S j) j' kv' Hj') in Hj2. assert (j' ≠ j) as Hjj.
    { intros ->. assert (kv' = kv) as -> by congruence. destruct Hne. by eapply (one_child i i0 l l0 p p0 kv). }
    pose proof (merge_lt j' j kv' kv Hj' Hj) as H1. apply proj2 in H1. specialize (H1 ltac:(lia)).
    pose proof (proj1 (Compare_lt_gt _ _) H1). rewrite Z.ltb_ge, Z.ltb_lt. lia. }
  cbn [mbind option_bind]. by eexists.
Qed.

Lemma FindLargest_start cs : behind 0 cs → FindLargest C cs = Some None.
Proof.
  intros Ha. unfold FindLargest. rewrite Find_loop_none; [done|]. intros i w Hi. rewrite elem_of_reverse, imap_elem in Hi.
  destruct (Forall2_lookup_l _ _ _ _ _ Ha Hi) as (l & Hl & n & (Hn & Hb) & Hw). destruct n as [|n]; [by apply wraps_None in Hw|].
  destruct (lookup_lt_is_Some_2 l 0 ltac:(lia)) as [kv Hkv]. destruct (proj1 (Hb 0%nat kv Hkv) ltac:(lia)) as (? & ? & _). lia.
Qed.

(** ** The moves *)

Lemma mapM_Forall2 {A A' T} (f : A → option A') (P : A → T → Prop) (Q : A' → T → Prop) (ks : list T) cs :
  (∀ w l, l ∈ ks → P w l → ∃ w', f w = Some w' ∧ Q w' l) → Forall2 P cs ks → ∃ cs', mapM f cs = Some cs' ∧ Forall2 Q cs' ks.
Proof.
  intros Hf Ha. induction Ha as [|w l cs ks' Hp Ha IH]; [by exists []|].
  destruct (Hf w l ltac:(left) Hp) as (w' & Ew & Hq).
  destruct IH as (cs' & E & Hq'); [intros; apply Hf; [by right|done]|]. exists (w' :: cs'). simpl. rewrite Ew. simpl. rewrite E. by split; [|constructor].
Qed.

Lemma over_children_spec (f : nat → IteratorWrapper I → option (IteratorWrapper I)) (P Q : IteratorWrapper I → list (bytes * bytes) → Prop)
    cs ks : ∀ i0, Forall2 P cs ks →
  (∀ i w l, cs !! i = Some w → ks !! i = Some l → P w l → ∃ w', f (i0 + i)%nat w = Some w' ∧ Q w' l) →
  ∃ cs', over_children f i0 cs = Some cs' ∧ Forall2 Q cs' ks.
Proof.
  intros i0 Ha. revert i0. induction Ha as [|w l cs ks' Hp Ha IH]; intros i0 Hf; [by exists []|].
  destruct (Hf 0%nat w l eq_refl eq_refl Hp) as (w' & Ew & Hq). rewrite Nat.add_0_r in Ew.
  destruct (IH (S i0)) as (cs' & E & Hq').
  { intros i w1 l1 Hw Hl. rewrite Nat.add_succ_comm. by apply (Hf (S i)). }
  exists (w' :: cs'). simpl. rewrite Ew. simpl. rewrite E. by split; [|constructor].
Qed.

Section current.
  Context (j : nat) (kv : bytes * bytes) (Hj : m !! j = Some kv).
  Context (cur : nat) (l0 : list (bytes * bytes)) (p0 : nat) (Hl0 : ls !! cur = Some l0) (Hp0 : l0 !! p0 = Some kv).

Lemma not_here i l : ls !! i = Some l → i ≠ cur → kv ∉ l.
Proof using All.
  intros Hl Hne [p Hp]%list_elem_of_lookup_1. destruct Hne. by eapply (one_child i cur l l0 p p0 kv).
Qed.

(** Moving the current child passes the entry. *)
Lemma move_next cs : ahead j cs → ∃ cs', move_current cur wNext cs = Some cs' ∧ ahead (S j) cs'.
Proof using All.
  intros Ha. destruct (Forall2_lookup_r _ _ _ _ _ Ha Hl0) as (w & Hw & n & Hn & Hr).
  apply (splits_here cur l0 j kv n p0 Hl0 Hj Hp0) in Hn as ->. rewrite cursor_Some in Hr by by eapply lookup_lt_Some.
  destruct (co_next _ _ _ _ (wraps_cursor B C l0) w p0 Hr) as (w' & E & Hr'). cbn in E.
  unfold move_current. rewrite Hw. cbn [mbind option_bind]. rewrite E. cbn [mbind option_bind]. eexists. split; [done|].
  apply Forall2_same_length_lookup_2; [rewrite length_insert; by eapply Forall2_length|]. intros i w1 l1 Hw1 Hl1.
  destruct (decide (i = cur)) as [->|Hne].
  - rewrite list_lookup_insert_eq in Hw1 by by eapply lookup_lt_Some. injection Hw1 as <-. assert (l1 = l0) as -> by congruence.
    exists (S p0). split; [|done]. by eapply splits_pass.
  - rewrite list_lookup_insert_ne in Hw1 by done. destruct (Forall2_lookup_lr _ _ _ _ _ _ Ha Hw1 Hl1) as (n1 & Hn1 & Hw2).
    exists n1. split; [|done]. apply (splits_other l1 j n1 kv Hj); [by eapply not_here|done].
Qed.

Lemma move_prev cs : behind (S j) cs → ∃ cs', move_current cur wPrev cs = Some cs' ∧ behind j cs'.
Proof using All.
  intros Ha. destruct (Forall2_lookup_r _ _ _ _ _ Ha Hl0) as (w & Hw & n & Hn & Hr).
  assert (n = S p0) as -> by (eapply (splits_pass_unique cur l0 j kv p0 n); done).
  destruct (co_prev _ _ _ _ (wraps_cursor B C l0) w p0 Hr) as (w' & E & Hr'). cbn in E.
  unfold move_current. rewrite Hw. cbn [mbind option_bind]. rewrite E. cbn [mbind option_bind]. eexists. split; [done|].
  apply Forall2_same_length_lookup_2; [rewrite length_insert; by eapply Forall2_length|]. intros i w1 l1 Hw1 Hl1.
  destruct (decide (i = cur)) as [->|Hne].
  - rewrite list_lookup_insert_eq in Hw1 by by eapply lookup_lt_Some. injection Hw1 as <-. assert (l1 = l0) as -> by congruence.
    exists p0. split; [|done]. by apply (splits_here cur l0 j kv p0 p0).
  - rewrite list_lookup_insert_ne in Hw1 by done. destruct (Forall2_lookup_lr _ _ _ _ _ _ Ha Hw1 Hl1) as (n1 & Hn1 & Hw2).
    exists n1. split; [|done]. apply (splits_other l1 j n1 kv Hj); [by eapply not_here|done].
Qed.

(** Turning the other children around. *)
Lemma turn_forward_spec cs w0 : Forall2 (λ w l, ∃ c, wraps B C w l c) cs ls → cs !! cur = Some w0 → wraps B C w0 l0 (Some p0) →
  ∃ cs', over_children (turn_forward C cur kv.1) 0 cs = Some cs' ∧ ahead j cs'.
Proof using All.
  intros Ha Hw0 Hr0. eapply over_children_spec; [exact Ha|]. intros i w l Hw Hl (c & Hr). cbn [Nat.add]. unfold turn_forward.
  case_decide as Hi.
  { subst i. assert (w = w0) as -> by congruence. assert (l = l0) as -> by congruence.
    exists w0. split; [done|]. exists p0. rewrite cursor_Some by by eapply lookup_lt_Some.
    split; [|done]. by apply (splits_here cur l0 j kv p0 p0). }
  destruct (co_seek _ _ _ _ (wraps_cursor B C l) w c kv.1 (Forall_lookup_1 _ _ _ _ HB Hj) Hr) as (w' & n & E & Hb & Hr'). cbn in E. rewrite E. cbn [mbind option_bind].
  pose proof (splits_bound i l j kv n Hl Hj Hb) as Hn. destruct (cursor l n) as [p|] eqn:Ec.
  - destruct (wraps_entry B C w' l p Hr') as (kv' & Hkv' & -> & -> & _). cbn [mbind option_bind].
    destruct (Z.eqb_spec (@Compare C kv.1 kv'.1) 0) as [Heq|Hne]; [exfalso|].
    2: { exists w'. split; [done|]. exists n. rewrite Ec. done. }
    destruct (child_in_merge i l p kv' Hl Hkv') as [j' Hj'].
    pose proof (merge_lt j j' kv kv' Hj Hj'). pose proof (merge_lt j' j kv' kv Hj' Hj).
    pose proof (proj1 (Compare_eq_sym _ _) Heq). assert (j' = j) as -> by lia. assert (kv' = kv) as -> by congruence.
    destruct (not_here i l Hl Hi). by eapply list_elem_of_lookup_2.
  - rewrite (wraps_None _ _ _ _ Hr'). exists w'. split; [done|]. exists n. rewrite Ec. done.
Qed.

Lemma turn_reverse_spec cs w0 : Forall2 (λ w l, ∃ c, wraps B C w l c) cs ls → cs !! cur = Some w0 → wraps B C w0 l0 (Some p0) →
  ∃ cs', over_children (turn_reverse cur kv.1) 0 cs = Some cs' ∧ behind (S j) cs'.
Proof using All.
  intros Ha Hw0 Hr0. eapply over_children_spec; [exact Ha|]. intros i w l Hw Hl (c & Hr). cbn [Nat.add]. unfold turn_reverse.
  case_decide as Hi.
  { subst i. assert (w = w0) as -> by congruence. assert (l = l0) as -> by congruence.
    exists w0. split; [done|]. exists (S p0). split; [|done]. by eapply splits_pass. }
  destruct (co_seek _ _ _ _ (wraps_cursor B C l) w c kv.1 (Forall_lookup_1 _ _ _ _ HB Hj) Hr) as (w' & n & E & Hb & Hr'). cbn in E. rewrite E. cbn [mbind option_bind].
  pose proof (splits_bound i l j kv n Hl Hj Hb) as Hn.
  assert (splits l (S j) n) as Hn' by (apply (splits_other l j n kv Hj); [by eapply not_here|done]).
  destruct (Nat.lt_ge_cases n (length l)) as [Hlt|Hge].
  - rewrite cursor_Some in Hr' by done. destruct (wraps_entry B C w' l n Hr') as (_ & _ & -> & _).
    destruct (co_prev _ _ _ _ (wraps_cursor B C l) w' n Hr') as (w2 & E2 & Hr2). exists w2. split; [done|]. by exists n.
  - rewrite cursor_None in Hr' by done. rewrite (wraps_None _ _ _ _ Hr').
    destruct (co_last _ _ _ _ (wraps_cursor B C l) w' None Hr') as (w2 & E2 & Hr2). exists w2. split; [done|]. exists n.
    split; [done|]. destruct Hn as [Hn _]. by replace n with (length l) by lia.
Qed.

End current.

(** ** The contract *)

Definition placed (cs : list (IteratorWrapper I)) : Prop := Forall2 (λ w l, ∃ c, wraps B C w l c) cs ls.

(** The merging iterator stands at [c]. *)
Definition merging_at (mi : MergingIterator I) (c : option nat) : Prop :=
  placed (children_ mi) ∧
  match c with
  | None => current_child mi = None
  | Some j => (j < length m)%nat ∧ stands (children_ mi) (current_child mi) (m !! j) ∧
      match direction_ mi with
      | kForward => ahead j (children_ mi)
      | kReverse => behind (S j) (children_ mi)
      end
  end.

Lemma ahead_placed j cs : ahead j cs → placed cs.
Proof. intros Ha. eapply Forall2_impl; [exact Ha|]. intros w l (n & _ & Hw). by eexists. Qed.

Lemma behind_placed j cs : behind j cs → placed cs.
Proof. intros Ha. eapply Forall2_impl; [exact Ha|]. intros w l (n & _ & Hw). by eexists. Qed.

Lemma find_forward j cs : ahead j cs →
  ∃ cur, FindSmallest C cs = Some cur ∧ merging_at (MkMerging cs cur kForward) (cursor m j).
Proof using L M.
  intros Ha. destruct (FindSmallest_ahead j cs Ha) as (cur & E & Hst). exists cur. split; [done|].
  split; [by eapply ahead_placed|]. destruct (Nat.lt_ge_cases j (length m)) as [Hlt|Hge].
  - rewrite cursor_Some by done. done.
  - rewrite cursor_None by done. rewrite (lookup_ge_None_2 m j Hge) in Hst. done.
Qed.

Lemma find_reverse j cs : (j <= length m)%nat → behind j cs →
  ∃ cur, FindLargest C cs = Some cur ∧ merging_at (MkMerging cs cur kReverse) (last_pos j).
Proof using L M.
  intros Hle Ha. destruct j as [|j].
  - exists None. split; [by apply FindLargest_start|]. split; [by eapply behind_placed|done].
  - destruct (FindLargest_behind j cs Ha Hle) as (cur & E & Hst). exists cur. split; [done|].
    split; [by eapply behind_placed|]. done.
Qed.

Lemma merging_current mi j : merging_at mi (Some j) → ∃ i w l p kv, current_child mi = Some i ∧ children_ mi !! i = Some w ∧
  ls !! i = Some l ∧ wraps B C w l (Some p) ∧ l !! p = Some kv ∧ m !! j = Some kv.
Proof.
  intros (_ & Hlt & Hst & _). apply lookup_lt_is_Some_2 in Hlt as [kv Hj]. rewrite Hj in Hst.
  destruct Hst as (i & w & l & p & ? & ? & ? & ? & ?). by exists i, w, l, p, kv.
Qed.

Lemma MergingNext_spec mi j : merging_at mi (Some j) → ∃ mi', MergingNext C mi = Some mi' ∧ merging_at mi' (cursor m (S j)).
Proof using L M HB.
  intros Hm. destruct (merging_current mi j Hm) as (i & w & l & p & kv & Ei & Hw & Hl & Hr & Hp & Hj).
  destruct Hm as (Hpl & _ & _ & Hdir). unfold MergingNext. rewrite Ei. cbn [mbind option_bind].
  assert (∃ cs, match direction_ mi with kForward => Some (children_ mi)
    | kReverse => k ← MergingKey mi; over_children (turn_forward C i k) 0 (children_ mi) end = Some cs ∧ ahead j cs) as (cs & -> & Ha).
  { destruct (direction_ mi); [by eexists|]. unfold MergingKey, current_. rewrite Ei. cbn [mbind option_bind]. rewrite Hw. cbn [mbind option_bind].
    destruct (wraps_entry B C w l p Hr) as (kv' & Hkv' & _ & -> & _). assert (kv' = kv) as -> by congruence. cbn [mbind option_bind].
    by apply (turn_forward_spec j kv Hj i l p Hl Hp (children_ mi) w). }
  cbn [mbind option_bind]. destruct (move_next j kv Hj i l p Hl Hp cs Ha) as (cs' & -> & Ha'). cbn [mbind option_bind].
  destruct (find_forward (S j) cs' Ha') as (cur & -> & Hm'). cbn [mbind option_bind]. by eexists.
Qed.

Lemma MergingPrev_spec mi j : merging_at mi (Some j) → ∃ mi', MergingPrev C mi = Some mi' ∧ merging_at mi' (last_pos j).
Proof using L M HB.
  intros Hm. destruct (merging_current mi j Hm) as (i & w & l & p & kv & Ei & Hw & Hl & Hr & Hp & Hj).
  destruct Hm as (Hpl & Hlt & _ & Hdir). unfold MergingPrev. rewrite Ei. cbn [mbind option_bind].
  assert (∃ cs, match direction_ mi with kReverse => Some (children_ mi)
    | kForward => k ← MergingKey mi; over_children (turn_reverse i k) 0 (children_ mi) end = Some cs ∧ behind (S j) cs) as (cs & -> & Ha).
  { destruct (direction_ mi); [|by eexists]. unfold MergingKey, current_. rewrite Ei. cbn [mbind option_bind]. rewrite Hw. cbn [mbind option_bind].
    destruct (wraps_entry B C w l p Hr) as (kv' & Hkv' & _ & -> & _). assert (kv' = kv) as -> by congruence. cbn [mbind option_bind].
    by apply (turn_reverse_spec j kv Hj i l p Hl Hp (children_ mi) w). }
  cbn [mbind option_bind]. destruct (move_prev j kv Hj i l p Hl Hp cs Ha) as (cs' & -> & Ha'). cbn [mbind option_bind].
  destruct (find_reverse j cs' ltac:(lia) Ha') as (cur & -> & Hm'). cbn [mbind option_bind]. by eexists.
Qed.

Lemma status_loop_ok cs : placed cs → status_loop cs Status_OK = Status_OK.
Proof.
  clear M. intros Hp. induction Hp as [|w l cs ks (c & Hw) _ IH]; [done|]. simpl.
  pose proof (co_status _ _ _ _ (wraps_cursor B C l) w c Hw) as E. cbn in E. rewrite E. exact IH.
Qed.

Lemma seek_children (f : IteratorWrapper I → option (IteratorWrapper I)) (Q : IteratorWrapper I → list (bytes * bytes) → Prop) cs : placed cs →
  (∀ i w l c, ls !! i = Some l → wraps B C w l c → ∃ w', f w = Some w' ∧ Q w' l) → ∃ cs', mapM f cs = Some cs' ∧ Forall2 Q cs' ls.
Proof.
  intros Hp Hf. apply (mapM_Forall2 f (λ w l, ∃ c, wraps B C w l c) Q ls cs); [|done].
  intros w l [i Hi]%list_elem_of_lookup_1 (c & Hw). by apply (Hf i w l c).
Qed.

Lemma merging_cursor : @cursor_over _ (Merging_ops C) B C m merging_at.
Proof using L M HB.
  split; cbn [Merging_ops iValid iKey iValue iStatus iSeekToFirst iSeekToLast iSeek iNext iPrev].
  - intros mi [j|] Hm; unfold MergingValid.
    + destruct (merging_current mi j Hm) as (i & _ & _ & _ & _ & -> & _). done.
    + destruct Hm as (_ & ->). done.
  - intros mi c (Hp & _). by apply status_loop_ok.
  - intros mi j Hm. destruct (merging_current mi j Hm) as (i & w & l & p & kv & Ei & Hw & Hl & Hr & Hp & Hj). exists kv.
    destruct (wraps_entry B C w l p Hr) as (kv' & Hkv' & _ & Ek & Ev). assert (kv' = kv) as -> by congruence.
    unfold MergingKey, MergingValue, current_. rewrite Ei. cbn [mbind option_bind]. rewrite Hw. done.
  - intros mi c (Hp & _). destruct (seek_children wSeekToFirst (λ w l, ∃ n, splits l 0 n ∧ wraps B C w l (cursor l n)) _ Hp) as (cs & E & Ha).
    { intros i w l c' Hi Hw. destruct (co_first _ _ _ _ (wraps_cursor B C l) w c' Hw) as (w' & E & Hw'). exists w'.
      split; [done|]. exists 0%nat. split; [apply splits_0|done]. }
    unfold MergingSeekToFirst. rewrite E. cbn [mbind option_bind].
    destruct (find_forward 0 cs Ha) as (cur & -> & Hm'). cbn [mbind option_bind]. by eexists.
  - intros mi c (Hp & _). destruct (seek_children wSeekToLast (λ w l, ∃ n, splits l (length m) n ∧ wraps B C w l (last_pos n)) _ Hp) as (cs & E & Ha).
    { intros i w l c' Hi Hw. destruct (co_last _ _ _ _ (wraps_cursor B C l) w c' Hw) as (w' & E & Hw'). exists w'.
      split; [done|]. exists (length l). split; [by eapply splits_all|done]. }
    unfold MergingSeekToLast. rewrite E. cbn [mbind option_bind].
    destruct (find_reverse (length m) cs ltac:(done) Ha) as (cur & -> & Hm'). cbn [mbind option_bind]. by eexists.
  - apply MergingNext_spec.
  - apply MergingPrev_spec.
  - intros mi c t Ht (Hp & _). destruct (lower_bound_exists C m t ltac:(apply M)) as (j & Hb).
    destruct (seek_children (λ w, wSeek w t) (λ w l, ∃ n, splits l j n ∧ wraps B C w l (cursor l n)) _ Hp) as (cs & E & Ha).
    { intros i w l c' Hi Hw. destruct (co_seek _ _ _ _ (wraps_cursor B C l) w c' t Ht Hw) as (w' & n & E & Hbn & Hw').
      exists w'. split; [done|]. exists n. split; [|done]. destruct Hb as (Hjl & Hlt & Hge), Hbn as (Hn & Hltn & Hgen). split; [done|].
      intros p kv Hkv. destruct (child_in_merge i l p kv Hi Hkv) as [j' Hj']. rewrite (bef_at j j' kv Hj').
      specialize (Hlt j' kv Hj'). specialize (Hge j' kv Hj'). specialize (Hltn p kv Hkv). specialize (Hgen p kv Hkv). lia. }
    unfold MergingSeek. rewrite E. cbn [mbind option_bind].
    destruct (find_forward j cs Ha) as (cur & -> & Hm'). cbn [mbind option_bind]. by exists (MkMerging cs cur kForward), j.
Qed.

Lemma NewMerging_at (its : list I) : Forall2 (λ it l, ∃ c, reads B C l it c) its ls →
  ∃ mi, NewMerging its = Some mi ∧ merging_at mi None.
Proof.
  intros Ha. unfold NewMerging.
  destruct (mapM_Forall2 (λ it, WSet EmptyWrapper (Some it)) (λ it l, ∃ c, reads B C l it c) (λ w l, ∃ c, wraps B C w l c) ls its)
    as (cs & -> & Hp); [|done|].
  { intros it l _ (c & Hr). destruct (WSet_wraps B C EmptyWrapper it l c Hr) as (w & Ew & Hw). exists w. split; [done|by exists c]. }
  cbn [mbind option_bind]. eexists. split; [done|]. by split.
Qed.

End Merged.

Lemma sorted_perm_eq (C : Comparator) {L : ComparatorLaws C} l m :
  keys_sorted (C := C) l → keys_sorted (C := C) m → m ≡ₚ l → m = l.
Proof.
  assert (∀ l, keys_sorted (C := C) l → Sorted (λ kv kv', @Compare C kv.1 kv'.1 < 0) l) as Hs.
  { induction l0 as [|kv l0 IH]; intros Hs; constructor.
    - apply IH. intros i j a b Hij Hi Hj. apply (Hs (S i) (S j)); [lia|done|done].
    - destruct l0 as [|kv' l0]; constructor. by apply (Hs 0%nat 1%nat); [lia|..]. }
  set (R := λ kv kv' : bytes * bytes, @Compare C kv.1 kv'.1 < 0) in *.
  assert (Transitive R) by (intros a b c; apply Compare_lt_trans).
  assert (AntiSymm (=) R) by (intros a b Ha Hb; apply Compare_lt_gt in Hb; unfold R in Ha; lia).
  intros Hl Hm. by apply (Sorted_unique R); apply Hs.
Qed.

(** The iterator [NewMergingIterator] returns, through its dynamic type. *)
Definition Merged_ops {I} `{IteratorOps I} (C : Comparator) : IteratorOps (Empty + (I + MergingIterator I)) :=
  @sum_ops _ _ Empty_ops (@sum_ops _ _ _ (Merging_ops C)).

(** ** Properties *)

(** The iterator made from iterators over sorted sources. *)
Lemma merged_reads {I} `{IteratorOps I} (B : Z) (C : Comparator) {L : ComparatorLaws C} (its : list I) ls m :
  merge_of C ls m → Forall (λ kv : bytes * bytes, size kv.1 < B) m → Forall2 (λ it l, ∃ c, reads B C l it c) its ls →
  ∃ it c, NewMergingIterator its = Some it ∧ @reads _ (Merged_ops C) B C m it c.
Proof.
  intros M HB Ha. destruct its as [|it its]; [|destruct its as [|it' its]].
  - inversion Ha; subst. destruct M as (Hp & _). apply Permutation_nil_r in Hp as ->.
    exists (inl NewEmptyIterator), None. split; [done|]. apply (@reads_inl _ _ Empty_ops). apply empty_reads.
  - inversion Ha as [|? l ? ls' (c & Hr) Ha']; subst. inversion Ha'; subst. destruct M as (Hp & Hs & Hf).
    inversion Hf as [|? ? Hf' _]; subst. simpl in Hp. rewrite app_nil_r in Hp. apply (sorted_perm_eq C l m Hf' Hs) in Hp as ->.
    exists (inr (inl it)), c. split; [done|]. by apply (@reads_inr _ _ Empty_ops), reads_inl.
  - destruct (NewMerging_at B C ls m (it :: it' :: its) Ha) as (mi & E & Hm). exists (inr (inr mi)), None. split.
    + unfold NewMergingIterator. by rewrite E.
    + apply (@reads_inr _ _ Empty_ops), (@reads_inr _ _ _ (Merging_ops C)). exists (merging_at B C ls m). split; [|done]. by apply merging_cursor.
Qed.

(** C15: the iterator made from iterators over sorted sources with distinct keys
    is a cursor over the sorted merge of the sources: whatever its number of
    children and in whatever order it is moved (first, last, next, previous and
    seeks, turning around at any point), it stands on the entry the merged list
    prescribes, with its key and value and an ok status, and no move fails.  The
    bound on seek targets of the sources ([B], which their keys respect) is that of
    the merged iterator. *)
Theorem merging_iterator_merges (B : Z) (C : Comparator) (L : ComparatorLaws C) (I : Type) (ops : IteratorOps I)
    (its : list I) (ls : list (list (bytes * bytes))) (m : list (bytes * bytes)) :
  merge_of C ls m → Forall (λ kv : bytes * bytes, size kv.1 < B) m → Forall2 (λ it l, ∃ c, reads B C l it c) its ls →
  ∃ it c, NewMergingIterator its = Some it ∧ @reads _ (Merged_ops C) B C m it c.
Proof. intros M HB Ha. by apply (merged_reads B C its ls). Qed.

Definition odd_kvs : list (bytes * bytes) := [([x61], [x01]); ([x62], [x02; x03])].
Definition even_kvs : list (bytes * bytes) := [([x61; x61], []); ([x61; x63], [x04])].
Definition all_kvs : list (bytes * bytes) := [([x61], [x01]); ([x61; x61], []); ([x61; x63], [x04]); ([x62], [x02; x03])].

Lemma all_kvs_merge : merge_of BytewiseComparator [odd_kvs; even_kvs] all_kvs.
Proof.
  split_and!.
  - simpl. constructor. symmetry. apply (Permutation_cons_append [_; _]).
  - by apply sortedb_sorted.
  - repeat constructor; by apply sortedb_sorted.
Qed.

Lemma merging_iterator_merges_witness : ∃ i1 i2 it c,
  NewIterator (NewBlock (build_block 1 odd_kvs)) = BlockIter i1 ∧ NewIterator (NewBlock (build_block 2 even_kvs)) = BlockIter i2 ∧
  NewMergingIterator (H := BlockIter_ops BytewiseComparator) [i1; i2] = Some it ∧
  @reads _ (@Merged_ops _ (BlockIter_ops BytewiseComparator) BytewiseComparator) 100 BytewiseComparator all_kvs it c.
Proof.
  assert (∀ l, l ∈ [odd_kvs; even_kvs] → ∀ kv, kv ∈ l → size kv.1 < 2 ^ 32 ∧ size kv.2 < 2 ^ 32) as Hsz.
  { intros l Hl kv Hkv. repeat (apply elem_of_cons in Hl as [->|Hl]; [repeat (apply elem_of_cons in Hkv as [->|Hkv]; [vm_compute; split; reflexivity|]); by apply not_elem_of_nil in Hkv|]).
    by apply not_elem_of_nil in Hl. }
  destruct (build_block_reads 100 BytewiseComparator 1 odd_kvs) as (i1 & E1 & H1); [lia|by apply sortedb_sorted|apply Hsz; by left|vm_compute; reflexivity|].
  destruct (build_block_reads 100 BytewiseComparator 2 even_kvs) as (i2 & E2 & H2); [lia|by apply sortedb_sorted|apply Hsz; right; by left|vm_compute; reflexivity|].
  exists i1, i2.
  destruct (merging_iterator_merges 100 BytewiseComparator _ Iter (BlockIter_ops BytewiseComparator) [i1; i2] [odd_kvs; even_kvs] all_kvs all_kvs_merge) as (it & c & E & Hr).
  { repeat (constructor; [vm_compute; reflexivity|]). constructor. }
  { constructor; [by eexists|]. constructor; [by eexists|constructor]. }
  by exists it, c.
Defined.
