(* ===== verification/TwoLevel.v ===== *)
(** * The two-level iterator (src/table/two_level_iterator.cc)

    [TwoLevelIterator] walks an index whose values name blocks and shows the
    entries of the blocks one after the other.  The file models its moves and
    proves that it is a cursor over the concatenation of the blocks. *)

From S2P Require Import Prelude Coding Status Comparator Block Iterators.
Import Coding.

Record TwoLevelIterator (I J : Type) := MkTwoLevel {
  tl_status : Status;
  index_iter_ : IteratorWrapper I;
  data_iter_ : IteratorWrapper J;
  data_block_handle_ : bytes;
}.
Arguments MkTwoLevel {I J} _ _ _ _.
Arguments tl_status {I J} _.
Arguments index_iter_ {I J} _.
Arguments data_iter_ {I J} _.
Arguments data_block_handle_ {I J} _.

Section TwoLevel.
  Context {I J : Type} `{IteratorOps I} `{IteratorOps J}.

(** [block_function_] with its argument: the iterator for an index value. *)
  Context (block_function : bytes → option J).

Definition NewTwoLevelIterator (index_iter : I) : option (TwoLevelIterator I J) :=
  index ← WSet EmptyWrapper (Some index_iter);
  Some (MkTwoLevel Status_OK index EmptyWrapper []).

Definition TwoLevelValid (t : TwoLevelIterator I J) : bool := w_valid (data_iter_ t).
Definition TwoLevelKey (t : TwoLevelIterator I J) : option bytes := wKey (data_iter_ t).
Definition TwoLevelValue (t : TwoLevelIterator I J) : option bytes := wValue (data_iter_ t).

Definition TwoLevelStatus (t : TwoLevelIterator I J) : Status :=
  let index_status := default Status_OK (wStatus (index_iter_ t)) in
  if negb (ok index_status) then index_status
  else
    match wStatus (data_iter_ t) with
    | Some s => if negb (ok s) then s else tl_status t
    | None => tl_status t
    end.

Definition SaveError (t : TwoLevelIterator I J) (s : Status) : TwoLevelIterator I J :=
  if ok (tl_status t) && negb (ok s) then MkTwoLevel s (index_iter_ t) (data_iter_ t) (data_block_handle_ t) else t.

Definition SetDataIterator (t : TwoLevelIterator I J) (data_iter : option J) : option (TwoLevelIterator I J) :=
  let t := match wStatus (data_iter_ t) with Some s => SaveError t s | None => t end in
  data ← WSet (data_iter_ t) data_iter;
  Some (MkTwoLevel (tl_status t) (index_iter_ t) data (data_block_handle_ t)).

Definition InitDataBlock (t : TwoLevelIterator I J) : option (TwoLevelIterator I J) :=
  if negb (w_valid (index_iter_ t)) then SetDataIterator t None
  else
    handle ← wValue (index_iter_ t);
    if bool_decide (is_Some (w_iter (data_iter_ t))) && (Slice.compare handle (data_block_handle_ t) =? 0) then Some t
    else
      iter ← block_function handle;
      SetDataIterator (MkTwoLevel (tl_status t) (index_iter_ t) (data_iter_ t) handle) (Some iter).

(** [if (data_iter_.iter() != nullptr) data_iter_.move()]. *)
Definition move_data (move : IteratorWrapper J → option (IteratorWrapper J)) (t : TwoLevelIterator I J) : option (TwoLevelIterator I J) :=
  match w_iter (data_iter_ t) with
  | None => Some t
  | Some _ =>
      data ← move (data_iter_ t);
      Some (MkTwoLevel (tl_status t) (index_iter_ t) data (data_block_handle_ t))
  end.

Definition move_index (move : IteratorWrapper I → option (IteratorWrapper I)) (t : TwoLevelIterator I J) : option (TwoLevelIterator I J) :=
  index ← move (index_iter_ t);
  Some (MkTwoLevel (tl_status t) index (data_iter_ t) (data_block_handle_ t)).

(** [data_iter_.iter() == nullptr || !data_iter_.Valid()]. *)
Definition no_data (t : TwoLevelIterator I J) : bool :=
  negb (bool_decide (is_Some (w_iter (data_iter_ t)))) || negb (w_valid (data_iter_ t)).

Fixpoint SkipEmptyDataBlocksForward (fuel : nat) (t : TwoLevelIterator I J) : option (TwoLevelIterator I J) :=
  if no_data t then
    if negb (w_valid (index_iter_ t)) then SetDataIterator t None
    else
      match fuel with
      | O => None
      | S fuel =>
          t ← move_index wNext t;
          t ← InitDataBlock t;
          t ← move_data wSeekToFirst t;
          SkipEmptyDataBlocksForward fuel t
      end
  else Some t.

Fixpoint SkipEmptyDataBlocksBackward (fuel : nat) (t : TwoLevelIterator I J) : option (TwoLevelIterator I J) :=
  if no_data t then
    if negb (w_valid (index_iter_ t)) then SetDataIterator t None
    else
      match fuel with
      | O => None
      | S fuel =>
          t ← move_index wPrev t;
          t ← InitDataBlock t;
          t ← move_data wSeekToLast t;
          SkipEmptyDataBlocksBackward fuel t
      end
  else Some t.

Definition TwoLevelSeek (fuel : nat) (t : TwoLevelIterator I J) (target : bytes) : option (TwoLevelIterator I J) :=
  t ← move_index (λ w, wSeek w target) t;
  t ← InitDataBlock t;
  t ← move_data (λ w, wSeek w target) t;
  SkipEmptyDataBlocksForward fuel t.

Definition TwoLevelSeekToFirst (fuel : nat) (t : TwoLevelIterator I J) : option (TwoLevelIterator I J) :=
  t ← move_index wSeekToFirst t;
  t ← InitDataBlock t;
  t ← move_data wSeekToFirst t;
  SkipEmptyDataBlocksForward fuel t.

Definition TwoLevelSeekToLast (fuel : nat) (t : TwoLevelIterator I J) : option (TwoLevelIterator I J) :=
  t ← move_index wSeekToLast t;
  t ← InitDataBlock t;
  t ← move_data wSeekToLast t;
  SkipEmptyDataBlocksBackward fuel t.

Definition TwoLevelNext (fuel : nat) (t : TwoLevelIterator I J) : option (TwoLevelIterator I J) :=
  guarded (TwoLevelValid t)
    (data ← wNext (data_iter_ t);
     SkipEmptyDataBlocksForward fuel (MkTwoLevel (tl_status t) (index_iter_ t) data (data_block_handle_ t))).

Definition TwoLevelPrev (fuel : nat) (t : TwoLevelIterator I J) : option (TwoLevelIterator I J) :=
  guarded (TwoLevelValid t)
    (data ← wPrev (data_iter_ t);
     SkipEmptyDataBlocksBackward fuel (MkTwoLevel (tl_status t) (index_iter_ t) data (data_block_handle_ t))).

(** [fuel] bounds the index entries that a move can pass. *)
Definition TwoLevel_ops (fuel : nat) : IteratorOps (TwoLevelIterator I J) := {|
  iValid := TwoLevelValid;
  iKey := TwoLevelKey;
  iValue := TwoLevelValue;
  iStatus := TwoLevelStatus;
  iSeekToFirst := TwoLevelSeekToFirst fuel;
  iSeekToLast := TwoLevelSeekToLast fuel;
  iSeek := TwoLevelSeek fuel;
  iNext := TwoLevelNext fuel;
  iPrev := TwoLevelPrev fuel;
|}.

End TwoLevel.

(** ** The contract *)

(** Each index key is not below the keys of its block and below those of later ones. *)
Definition separates (C : Comparator) (index : list (bytes * bytes)) (blocks : list (list (bytes * bytes))) : Prop :=
  ∀ i sep handle block, index !! i = Some (sep, handle) → blocks !! i = Some block →
    (∀ kv, kv ∈ block → @Compare C kv.1 sep <= 0) ∧
    (∀ j block' kv, (i < j)%nat → blocks !! j = Some block' → kv ∈ block' → @Compare C sep kv.1 < 0).

(** The position of the first entry of block [b]. *)
Definition offset (blocks : list (list (bytes * bytes))) (b : nat) : nat := length (concat (take b blocks)).

Lemma offset_S blocks b block : blocks !! b = Some block → offset blocks (S b) = (offset blocks b + length block)%nat.
Proof. intros Hb. unfold offset. rewrite (take_S_r _ _ _ Hb), concat_app, length_app. simpl. by rewrite app_nil_r. Qed.

Lemma offset_end blocks b : (length blocks <= b)%nat → offset blocks b = length (concat blocks).
Proof. intros. unfold offset. by rewrite take_ge. Qed.

Lemma offset_at blocks b block i : blocks !! b = Some block → (i < length block)%nat → concat blocks !! (offset blocks b + i)%nat = block !! i.
Proof.
  intros Hb Hi. assert (concat blocks = concat (take b blocks) ++ block ++ concat (drop (S b) blocks)) as ->.
  { rewrite <-(take_drop_middle blocks b block Hb) at 1. by rewrite concat_app. }
  unfold offset. rewrite lookup_app_r by lia. rewrite Nat.add_comm, Nat.add_sub. by rewrite lookup_app_l by done.
Qed.

Lemma offset_inv blocks g kv : concat blocks !! g = Some kv → ∃ b block i, blocks !! b = Some block ∧ block !! i = Some kv ∧ g = (offset blocks b + i)%nat.
Proof.
  revert g. induction blocks as [|block blocks IH]; intros g Hg; [done|]. simpl in Hg. apply lookup_app_Some in Hg as [Hg|[Hge Hg]].
  - by exists 0%nat, block, g.
  - apply IH in Hg as (b & block' & i & Hb & Hi & E). exists (S b), block', i. split_and!; try done. unfold offset in *. simpl.
    rewrite length_app. lia.
Qed.

Lemma offset_le blocks b b' : (b <= b')%nat → (offset blocks b <= offset blocks b')%nat.
Proof.
  intros Hle. unfold offset. assert (take b' blocks = take b blocks ++ drop b (take b' blocks)) as ->.
  { rewrite <-(take_drop b (take b' blocks)) at 1. by rewrite take_take, Nat.min_l by lia. }
  rewrite concat_app, length_app. lia.
Qed.

Section Contract.
  Context {I J : Type} `{IteratorOps I} `{IteratorOps J} (B : Z) (C : Comparator) {L : ComparatorLaws C}.
  Context (block_function : bytes → option J) (index : list (bytes * bytes)) (blk : bytes → list (bytes * bytes)).
  Context (Hfun : ∀ sep handle, (sep, handle) ∈ index → ∃ it c, block_function handle = Some it ∧ reads B C (blk handle) it c).

Definition blocks_of : list (list (bytes * bytes)) := (λ e, blk e.2) <$> index.
Abbreviation kvs := (concat blocks_of).

Lemma blocks_at b sep h : index !! b = Some (sep, h) → blocks_of !! b = Some (blk h).
Proof. intros Hb. unfold blocks_of. by rewrite list_lookup_fmap, Hb. Qed.

(** The data iterator is absent, or over the block that its handle names. *)
Definition data_ok (t : TwoLevelIterator I J) : Prop :=
  w_iter (data_iter_ t) = None ∧ w_valid (data_iter_ t) = false ∨ ∃ c, wraps B C (data_iter_ t) (blk (data_block_handle_ t)) c.

Definition tl_base (t : TwoLevelIterator I J) (ci : option nat) : Prop :=
  tl_status t = Status_OK ∧ wraps B C (index_iter_ t) index ci ∧ data_ok t.

(** The iterator is in block [b], the data iterator at [c]. *)
Definition in_block (t : TwoLevelIterator I J) (b : nat) (c : option nat) : Prop :=
  tl_status t = Status_OK ∧ wraps B C (index_iter_ t) index (Some b) ∧
  ∃ sep, index !! b = Some (sep, data_block_handle_ t) ∧ wraps B C (data_iter_ t) (blk (data_block_handle_ t)) c.

Definition no_block (t : TwoLevelIterator I J) (ci : option nat) : Prop :=
  tl_status t = Status_OK ∧ wraps B C (index_iter_ t) index ci ∧ w_iter (data_iter_ t) = None ∧ w_valid (data_iter_ t) = false.

Lemma in_block_base t b c : in_block t b c → tl_base t (Some b).
Proof. intros (? & ? & sep & ? & ?). split_and!; try done. right. by exists c. Qed.

Lemma no_block_base t ci : no_block t ci → tl_base t ci.
Proof. intros (? & ? & ? & ?). split_and!; try done. by left. Qed.

Lemma wStatus_wraps {K} `{IteratorOps K} (w : IteratorWrapper K) l c : wraps B C w l c → wStatus w = Some Status_OK.
Proof. intros (it & E & Hr & _). unfold wStatus. rewrite E. cbn. f_equal. by apply (co_status _ _ _ _ (reads_cursor B C l) _ _ Hr). Qed.

(** No error is saved when the block changes. *)
Lemma SetDataIterator_eq t data : tl_status t = Status_OK → data_ok t →
  SetDataIterator t data = (d ← WSet (data_iter_ t) data; Some (MkTwoLevel Status_OK (index_iter_ t) d (data_block_handle_ t))).
Proof.
  intros Hs [[Hn _]|[c Hw]]; unfold SetDataIterator.
  - unfold wStatus. rewrite Hn. cbn. by rewrite Hs.
  - rewrite (wStatus_wraps _ _ _ Hw). unfold SaveError. cbn. rewrite andb_false_r. by rewrite Hs.
Qed.

Lemma InitDataBlock_in t b : tl_base t (Some b) → ∃ t' c, InitDataBlock block_function t = Some t' ∧ in_block t' b c.
Proof using Hfun.
  intros (Hs & Hi & Hd). destruct (wraps_entry B C _ _ _ Hi) as ([sep h] & Hb & Hv & _ & Ev). unfold InitDataBlock. rewrite Hv. cbn [negb].
  rewrite Ev. cbn [mbind option_bind snd]. destruct (bool_decide _ && _) eqn:Ec.
  - apply andb_true_iff in Ec as [[it Hit]%bool_decide_eq_true Heq%Z.eqb_eq]. rewrite Slice.compare_lex in Heq. apply Slice.lex_eq in Heq as ->.
    destruct Hd as [[Hn _]|[c Hw]]; [congruence|]. exists t, c. split; [done|]. split_and!; try done. by exists sep.
  - destruct (Hfun sep h) as (it & c & -> & Hr); [by eapply list_elem_of_lookup_2|]. cbn [mbind option_bind].
    unfold SetDataIterator at 1. cbn [data_iter_ tl_status index_iter_ data_block_handle_].
    assert (∃ t1, match wStatus (data_iter_ t) with Some s => SaveError (MkTwoLevel (tl_status t) (index_iter_ t) (data_iter_ t) h) s
      | None => MkTwoLevel (tl_status t) (index_iter_ t) (data_iter_ t) h end = t1 ∧ t1 = MkTwoLevel Status_OK (index_iter_ t) (data_iter_ t) h) as (t1 & -> & ->).
    { eexists. split; [done|]. destruct Hd as [[Hn _]|[c' Hw]].
      - unfold wStatus. rewrite Hn. cbn. by rewrite Hs.
      - rewrite (wStatus_wraps _ _ _ Hw). unfold SaveError. cbn. by rewrite andb_false_r, Hs. }
    cbn [data_iter_ tl_status index_iter_ data_block_handle_].
    destruct (WSet_wraps B C (data_iter_ t) it (blk h) c Hr) as (d & -> & Hd'). cbn [mbind option_bind]. eexists _, c. split; [done|].
    split_and!; try done. by exists sep.
Qed.

Lemma SetData_none t ci : tl_base t ci → ∃ t', SetDataIterator t None = Some t' ∧ no_block t' ci.
Proof. intros (Hs & Hi & Hd). rewrite SetDataIterator_eq by done. cbn. eexists. split; [done|]. by split_and!. Qed.

(** Entering the block the index is on, with a move of its iterator. *)
Lemma enter t ci (move : IteratorWrapper J → option (IteratorWrapper J)) (P : list (bytes * bytes) → option nat → Prop) : tl_base t ci →
  (∀ block w c, wraps B C w block c → ∃ w' c', move w = Some w' ∧ wraps B C w' block c' ∧ P block c') →
  ∃ t', (t ← InitDataBlock block_function t; move_data move t) = Some t' ∧
    match ci with
    | Some b => ∃ c', in_block t' b c' ∧ P (blk (data_block_handle_ t')) c'
    | None => no_block t' None
    end.
Proof using Hfun.
  intros Hb Hm. destruct ci as [b|].
  - destruct (InitDataBlock_in t b Hb) as (t1 & c & -> & Hs & Hi & sep & Hidx & Hw). cbn [mbind option_bind].
    destruct (Hm _ _ _ Hw) as (w' & c' & E & Hw' & HP). unfold move_data. destruct Hw as (it & -> & _). rewrite E. cbn [mbind option_bind].
    eexists. split; [done|]. exists c'. split; [|done]. split_and!; try done. by exists sep.
  - unfold InitDataBlock. pose proof Hb as (Hs & Hi & _). rewrite (wraps_None _ _ _ _ Hi). cbn [negb].
    destruct (SetData_none t None Hb) as (t1 & -> & Hn). cbn [mbind option_bind]. exists t1. split; [|done]. unfold move_data.
    by destruct Hn as (_ & _ & -> & _).
Qed.

(** ** Skipping *)

Lemma kvs_length : offset blocks_of (length index) = length kvs.
Proof. apply offset_end. unfold blocks_of. by rewrite length_fmap. Qed.

(** The iterator stands at [g]. *)
Definition tl_at (t : TwoLevelIterator I J) (g : option nat) : Prop :=
  match g with
  | None => ∃ ci, no_block t ci
  | Some g => ∃ b i, in_block t b (Some i) ∧ g = (offset blocks_of b + i)%nat
  end.

Lemma tl_at_base t g : tl_at t g → ∃ ci, tl_base t ci.
Proof. destruct g as [g|]; [intros (b & i & Hb & _); eexists; by eapply in_block_base|intros (ci & Hn); eexists; by apply no_block_base]. Qed.

Lemma in_block_lt t b i : in_block t b (Some i) → ∃ sep block, index !! b = Some (sep, data_block_handle_ t) ∧
  block = blk (data_block_handle_ t) ∧ blocks_of !! b = Some block ∧ (i < length block)%nat ∧ no_data t = false.
Proof.
  intros (_ & _ & sep & Hb & Hw). exists sep, (blk (data_block_handle_ t)). split_and!; try done; [by eapply blocks_at| |].
  - destruct (wraps_entry B C _ _ _ Hw) as (kv & Hkv & _). by eapply lookup_lt_Some.
  - unfold no_data. destruct (wraps_entry B C _ _ _ Hw) as (_ & _ & -> & _). destruct Hw as (it & -> & _). done.
Qed.

Lemma in_block_done t b : in_block t b None → no_data t = true ∧ w_valid (index_iter_ t) = true.
Proof.
  intros (_ & Hi & sep & Hb & Hw). unfold no_data. rewrite (wraps_None _ _ _ _ Hw), orb_true_r.
  by destruct (wraps_entry B C _ _ _ Hi) as (_ & _ & -> & _).
Qed.

Lemma no_block_end t : no_block t None → no_data t = true ∧ w_valid (index_iter_ t) = false.
Proof. intros (_ & Hi & Hn & Hv). unfold no_data. rewrite Hn. split; [done|by apply wraps_None in Hi]. Qed.

Lemma skip_end_forward fuel t : no_block t None → ∃ t', SkipEmptyDataBlocksForward block_function fuel t = Some t' ∧ tl_at t' None.
Proof.
  intros Hn. destruct (no_block_end t Hn) as [E1 E2]. destruct (SetData_none t None (no_block_base _ _ Hn)) as (t' & E & Hn').
  exists t'. split; [|by exists None]. destruct fuel; simpl; by rewrite E1, E2.
Qed.

Lemma skip_end_backward fuel t : no_block t None → ∃ t', SkipEmptyDataBlocksBackward block_function fuel t = Some t' ∧ tl_at t' None.
Proof.
  intros Hn. destruct (no_block_end t Hn) as [E1 E2]. destruct (SetData_none t None (no_block_base _ _ Hn)) as (t' & E & Hn').
  exists t'. split; [|by exists None]. destruct fuel; simpl; by rewrite E1, E2.
Qed.

Lemma move_index_base t ci ci' (move : IteratorWrapper I → option (IteratorWrapper I)) : tl_base t ci →
  (∀ w, wraps B C w index ci → ∃ w', move w = Some w' ∧ wraps B C w' index ci') → ∃ t', move_index move t = Some t' ∧ tl_base t' ci'.
Proof.
  intros (Hs & Hi & Hd) Hm. destruct (Hm _ Hi) as (w' & E & Hw'). unfold move_index. rewrite E. cbn. eexists. split; [done|]. by split_and!.
Qed.

Lemma SkipForward_spec : ∀ fuel t b i, in_block t b (cursor (blk (data_block_handle_ t)) i) → (i <= length (blk (data_block_handle_ t)))%nat →
  (length index - b <= fuel)%nat →
  ∃ t', SkipEmptyDataBlocksForward block_function fuel t = Some t' ∧ tl_at t' (cursor kvs (offset blocks_of b + i)).
Proof using Hfun.
  induction fuel as [|fuel IH]; intros t b i Hin Hi Hf.
  { pose proof Hin as (_ & _ & sep & Hb & _). apply lookup_lt_Some in Hb. lia. }
  pose proof Hin as (_ & _ & sep & Hb & _). pose proof (blocks_at _ _ _ Hb) as Hbl.
  destruct (decide (i < length (blk (data_block_handle_ t)))%nat) as [Hlt|Hge].
  - rewrite cursor_Some in Hin by done. destruct (in_block_lt t b i Hin) as (_ & _ & _ & _ & _ & _ & Hnd).
    exists t. split; [cbn [SkipEmptyDataBlocksForward]; by rewrite Hnd|]. rewrite cursor_Some.
    + by exists b, i.
    + apply lookup_lt_is_Some_1. rewrite (offset_at _ _ _ _ Hbl Hlt). by apply lookup_lt_is_Some_2.
  - rewrite cursor_None in Hin by lia. destruct (in_block_done t b Hin) as [E1 E2]. cbn [SkipEmptyDataBlocksForward]. rewrite E1, E2. cbn [negb].
    destruct (move_index_base t (Some b) (cursor index (S b)) wNext (in_block_base _ _ _ Hin)) as (t1 & -> & Hb1).
    { intros w Hw. by apply (co_next _ _ _ _ (wraps_cursor B C index)). }
    cbn [mbind option_bind]. destruct (enter t1 _ wSeekToFirst (λ block c, c = cursor block 0) Hb1) as (t2 & E & Hm).
    { intros block w c Hw. destruct (co_first _ _ _ _ (wraps_cursor B C block) w c Hw) as (w' & ? & ?). by exists w', (cursor block 0). }
    destruct (InitDataBlock block_function t1) as [t1'|]; [|done]. cbn [mbind option_bind] in E |- *. rewrite E. cbn [mbind option_bind].
    replace (offset blocks_of b + i)%nat with (offset blocks_of (S b) + 0)%nat by (rewrite (offset_S _ _ _ Hbl); lia).
    destruct (decide (S b < length index)%nat) as [Hlt'|Hge'].
    + rewrite cursor_Some in Hm by done. destruct Hm as (c' & Hin' & ->). apply IH; [done|lia|lia].
    + rewrite cursor_None in Hm by lia. rewrite Nat.add_0_r, offset_end by (unfold blocks_of; rewrite length_fmap; lia).
      rewrite cursor_None by done. by apply skip_end_forward.
Qed.

Lemma SkipBackward_spec : ∀ fuel t b i, in_block t b (last_pos i) → (i <= length (blk (data_block_handle_ t)))%nat → (b < fuel)%nat →
  ∃ t', SkipEmptyDataBlocksBackward block_function fuel t = Some t' ∧ tl_at t' (last_pos (offset blocks_of b + i)).
Proof using Hfun.
  induction fuel as [|fuel IH]; intros t b i Hin Hi Hf; [lia|].
  pose proof Hin as (_ & _ & sep & Hb & _). pose proof (blocks_at _ _ _ Hb) as Hbl. destruct i as [|i].
  - destruct (in_block_done t b Hin) as [E1 E2]. cbn [SkipEmptyDataBlocksBackward]. rewrite E1, E2. cbn [negb].
    destruct (move_index_base t (Some b) (last_pos b) wPrev (in_block_base _ _ _ Hin)) as (t1 & -> & Hb1).
    { intros w Hw. by apply (co_prev _ _ _ _ (wraps_cursor B C index)). }
    cbn [mbind option_bind]. destruct (enter t1 _ wSeekToLast (λ block c, c = last_pos (length block)) Hb1) as (t2 & E & Hm).
    { intros block w c Hw. destruct (co_last _ _ _ _ (wraps_cursor B C block) w c Hw) as (w' & ? & ?). by exists w', (last_pos (length block)). }
    destruct (InitDataBlock block_function t1) as [t1'|]; [|done]. cbn [mbind option_bind] in E |- *. rewrite E. cbn [mbind option_bind].
    rewrite Nat.add_0_r. destruct b as [|b]; cbn [last_pos] in Hm.
    + by apply skip_end_backward.
    + destruct Hm as (c' & Hin' & ->). pose proof Hin' as (_ & _ & sep' & Hb' & _). pose proof (blocks_at _ _ _ Hb') as Hbl'.
      rewrite (offset_S _ _ _ Hbl'). apply IH; [done|done|lia].
  - cbn [last_pos] in Hin. destruct (in_block_lt t b i Hin) as (_ & _ & _ & _ & _ & _ & Hnd). exists t.
    split; [cbn [SkipEmptyDataBlocksBackward]; by rewrite Hnd|]. rewrite Nat.add_succ_r. cbn [last_pos]. by exists b, i.
Qed.

(** ** The moves *)

Context (Hsep : separates C index blocks_of) (fuel : nat) (Hfuel : (length index <= fuel)%nat).

(** Move the index, enter the block, move within it. *)
Lemma reposition t g (mi : IteratorWrapper I → option (IteratorWrapper I)) (Pi : option nat → Prop)
    (md : IteratorWrapper J → option (IteratorWrapper J)) (P : list (bytes * bytes) → option nat → Prop)
    (next : TwoLevelIterator I J → option (TwoLevelIterator I J)) (Q : TwoLevelIterator I J → Prop) : tl_at t g →
  (∀ w c, wraps B C w index c → ∃ w' c', mi w = Some w' ∧ wraps B C w' index c' ∧ Pi c') →
  (∀ block w c, wraps B C w block c → ∃ w' c', md w = Some w' ∧ wraps B C w' block c' ∧ P block c') →
  (∀ t' b c', Pi (Some b) → in_block t' b c' → P (blk (data_block_handle_ t')) c' → ∃ t'', next t' = Some t'' ∧ Q t'') →
  (∀ t', Pi None → no_block t' None → ∃ t'', next t' = Some t'' ∧ Q t'') →
  ∃ t'', (t ← move_index mi t; t ← InitDataBlock block_function t; t ← move_data md t; next t) = Some t'' ∧ Q t''.
Proof using Hfun.
  clear Hfuel. intros Hat Hmi Hmd Hin Hno. destruct (tl_at_base t g Hat) as (ci & Hs & Hi & Hd). destruct (Hmi _ _ Hi) as (w' & ci' & E & Hw' & HPi).
  unfold move_index. rewrite E. cbn [mbind option_bind]. set (t1 := MkTwoLevel _ w' _ _).
  assert (tl_base t1 ci') as Hb1 by (by split_and!). destruct (enter t1 ci' md P Hb1 Hmd) as (t2 & E2 & Hm).
  destruct (InitDataBlock block_function t1) as [t1'|]; [|done]. cbn [mbind option_bind] in E2 |- *. rewrite E2. cbn [mbind option_bind].
  destruct ci' as [b|]; [|by apply Hno]. destruct Hm as (c' & Hb & HP). by eapply Hin.
Qed.

Lemma TwoLevelSeekToFirst_spec t g : tl_at t g → ∃ t', TwoLevelSeekToFirst block_function fuel t = Some t' ∧ tl_at t' (cursor kvs 0).
Proof using All.
  intros Hat. unfold TwoLevelSeekToFirst.
  apply (reposition t g wSeekToFirst (λ c, c = cursor index 0) wSeekToFirst (λ block c, c = cursor block 0) _ _ Hat).
  - intros w c Hw. destruct (co_first _ _ _ _ (wraps_cursor B C index) w c Hw) as (w' & ? & ?). by exists w', (cursor index 0).
  - intros block w c Hw. destruct (co_first _ _ _ _ (wraps_cursor B C block) w c Hw) as (w' & ? & ?). by exists w', (cursor block 0).
  - intros t' b c' Eb Hin ->. symmetry in Eb. apply cursor_inv in Eb as [<- _]. apply (SkipForward_spec fuel t' 0 0); [done|lia|lia].
  - intros t' Eb Hn. assert (index = []) as E by (destruct index; [done|]; rewrite cursor_Some in Eb by (simpl; lia); done).
    assert (kvs = []) as -> by (unfold blocks_of; by rewrite E). rewrite cursor_None by (simpl; lia). by apply skip_end_forward.
Qed.

Lemma TwoLevelSeekToLast_spec t g : tl_at t g → ∃ t', TwoLevelSeekToLast block_function fuel t = Some t' ∧ tl_at t' (last_pos (length kvs)).
Proof using All.
  intros Hat. unfold TwoLevelSeekToLast.
  apply (reposition t g wSeekToLast (λ c, c = last_pos (length index)) wSeekToLast (λ block c, c = last_pos (length block)) _ _ Hat).
  - intros w c Hw. destruct (co_last _ _ _ _ (wraps_cursor B C index) w c Hw) as (w' & ? & ?). by exists w', (last_pos (length index)).
  - intros block w c Hw. destruct (co_last _ _ _ _ (wraps_cursor B C block) w c Hw) as (w' & ? & ?). by exists w', (last_pos (length block)).
  - intros t' b c' Eb Hin ->. pose proof Hin as (_ & _ & sep & Hb & _). pose proof (blocks_at _ _ _ Hb) as Hbl.
    assert (length index = S b) as El by (destruct (length index); simpl in Eb; congruence).
    rewrite <-kvs_length, El, (offset_S _ _ _ Hbl). apply (SkipBackward_spec fuel); [done|done|lia].
  - intros t' Eb Hn. assert (length index = 0%nat) as El by (destruct (length index); [done|simpl in Eb; congruence]).
    rewrite <-kvs_length, El. by apply skip_end_backward.
Qed.

Lemma block_bound b sep h block kv : index !! b = Some (sep, h) → blocks_of !! b = Some block → kv ∈ block → @Compare C kv.1 sep <= 0.
Proof using Hsep. clear Hfuel. intros Hb Hbl. by apply (Hsep b sep h block Hb Hbl). Qed.

Lemma TwoLevelSeek_spec t g target : size target < B → tl_at t g → ∃ t' m, TwoLevelSeek block_function fuel t target = Some t' ∧
  is_lower_bound (C := C) kvs target m ∧ tl_at t' (cursor kvs m).
Proof using L Hfun Hsep Hfuel.
  intros Ht Hat. unfold TwoLevelSeek.
  destruct (reposition t g (λ w, wSeek w target) (λ c, ∃ n, is_lower_bound (C := C) index target n ∧ c = cursor index n)
    (λ w, wSeek w target) (λ block c, ∃ n, is_lower_bound (C := C) block target n ∧ c = cursor block n)
    (SkipEmptyDataBlocksForward block_function fuel) (λ t', ∃ m, is_lower_bound (C := C) kvs target m ∧ tl_at t' (cursor kvs m)) Hat)
    as (t'' & E & m & Hm & Hat').
  - intros w c Hw. destruct (co_seek _ _ _ _ (wraps_cursor B C index) w c target Ht Hw) as (w' & n & ? & ? & ?). exists w', (cursor index n). naive_solver.
  - intros block w c Hw. destruct (co_seek _ _ _ _ (wraps_cursor B C block) w c target Ht Hw) as (w' & n & ? & ? & ?). exists w', (cursor block n). naive_solver.
  - intros t' b c' (n & (Hn & Hlt & Hge) & Eb) Hin (i & (Hi & Hlti & Hgei) & ->). symmetry in Eb. apply cursor_inv in Eb as [-> Hbl].
    pose proof Hin as (_ & _ & sep & Hb & _). pose proof (blocks_at _ _ _ Hb) as Hblk.
    destruct (SkipForward_spec fuel t' b i Hin Hi ltac:(lia)) as (t'' & E & Hat'). exists t''. split; [done|].
    exists (offset blocks_of b + i)%nat. split; [|done]. split.
    { rewrite <-kvs_length. pose proof (offset_le blocks_of (S b) (length index) ltac:(lia)) as Ho. rewrite (offset_S _ _ _ Hblk) in Ho. lia. }
    specialize (Hge b _ Hb ltac:(lia)). simpl in Hge.
    split; intros p kv Hp Hpm; apply offset_inv in Hp as (b' & block' & i' & Hb' & Hi' & ->); pose proof (list_elem_of_lookup_2 _ _ _ Hi') as Hin';
      unfold blocks_of in Hb'; rewrite list_lookup_fmap in Hb'; destruct (index !! b') as [[sep' h']|] eqn:Hidx; try done; injection Hb' as <-;
      pose proof (blocks_at _ _ _ Hidx) as Hb'; cbn [snd] in *.
    + destruct (Nat.lt_trichotomy b' b) as [Hbb|[->|Hbb]].
      * apply (Compare_le_lt_trans _ sep'); [by eapply block_bound|]. by apply (Hlt b' _ Hidx).
      * assert (h' = data_block_handle_ t') as -> by congruence. apply (Hlti i'); [done|lia].
      * pose proof (offset_le blocks_of (S b) b' Hbb) as Ho. rewrite (offset_S _ _ _ Hblk) in Ho. lia.
    + destruct (Nat.lt_trichotomy b' b) as [Hbb|[->|Hbb]].
      * pose proof (offset_le blocks_of (S b') b Hbb) as Ho. rewrite (offset_S _ _ _ Hb') in Ho. apply lookup_lt_Some in Hi'. lia.
      * assert (h' = data_block_handle_ t') as -> by congruence. apply (Hgei i'); [done|lia].
      * destruct (Hsep b sep _ _ Hb Hblk) as [_ Hl]. specialize (Hl b' _ kv Hbb Hb' Hin'). apply Compare_le_ge. apply Compare_le_ge in Hge.
        apply Z.lt_le_incl. by eapply Compare_le_lt_trans.
  - intros t' (n & (Hn & Hlt & Hge) & Eb) Hno. destruct (skip_end_forward fuel t' Hno) as (t'' & E & Hat'). exists t''. split; [done|].
    assert (n = length index) as -> by (destruct (decide (n < length index)%nat); [by rewrite cursor_Some in Eb|lia]).
    exists (length kvs). rewrite cursor_None by done. split; [|done]. split; [done|].
    split; intros p kv Hp Hpm; [|apply lookup_lt_Some in Hp; lia]. apply offset_inv in Hp as (b' & block' & i' & Hb' & Hi' & ->).
    unfold blocks_of in Hb'; rewrite list_lookup_fmap in Hb'; destruct (index !! b') as [[sep' h']|] eqn:Hidx; try done; injection Hb' as <-.
    pose proof (blocks_at _ _ _ Hidx) as Hb'. apply (Compare_le_lt_trans _ sep').
    + eapply block_bound; [done|done|by eapply list_elem_of_lookup_2].
    + apply (Hlt b' _ Hidx). by eapply lookup_lt_Some.
  - exists t'', m. by split_and!.
Qed.

Lemma TwoLevelNext_spec t g : tl_at t (Some g) → ∃ t', TwoLevelNext block_function fuel t = Some t' ∧ tl_at t' (cursor kvs (S g)).
Proof using Hfun Hfuel.
  intros (b & i & (Hs & Hi & sep & Hb & Hw) & ->). unfold TwoLevelNext, TwoLevelValid.
  destruct (wraps_entry B C _ _ _ Hw) as (kv & Hkv & -> & _). cbn [guarded].
  destruct (co_next _ _ _ _ (wraps_cursor B C _) _ _ Hw) as (d & E & Hd). cbn in E. rewrite E. cbn [mbind option_bind].
  rewrite <-Nat.add_succ_r. apply SkipForward_spec; [|apply lookup_lt_Some in Hkv; simpl; lia|lia]. split_and!; try done. by exists sep.
Qed.

Lemma TwoLevelPrev_spec t g : tl_at t (Some g) → ∃ t', TwoLevelPrev block_function fuel t = Some t' ∧ tl_at t' (last_pos g).
Proof using Hfun Hfuel.
  intros (b & i & (Hs & Hi & sep & Hb & Hw) & ->). unfold TwoLevelPrev, TwoLevelValid.
  destruct (wraps_entry B C _ _ _ Hw) as (kv & Hkv & -> & _). cbn [guarded].
  destruct (co_prev _ _ _ _ (wraps_cursor B C _) _ _ Hw) as (d & E & Hd). cbn in E. rewrite E. cbn [mbind option_bind].
  apply SkipBackward_spec; [|apply lookup_lt_Some in Hkv; simpl; lia|apply lookup_lt_Some in Hb; lia]. split_and!; try done. by exists sep.
Qed.

Lemma two_level_cursor : @cursor_over _ (TwoLevel_ops block_function fuel) B C kvs tl_at.
Proof using All.
  split; cbn [TwoLevel_ops iValid iKey iValue iStatus iSeekToFirst iSeekToLast iSeek iNext iPrev].
  - intros t [g|]; [intros (b & i & (_ & _ & sep & _ & Hw) & _)|intros (ci & _ & _ & _ & Hv)]; unfold TwoLevelValid; [|done].
    by destruct (wraps_entry B C _ _ _ Hw) as (_ & _ & -> & _).
  - intros t g Hat. destruct (tl_at_base t g Hat) as (ci & Hs & Hi & Hd). unfold TwoLevelStatus.
    rewrite (wStatus_wraps _ _ _ Hi). cbn. destruct Hd as [[Hn _]|[c Hw]].
    + unfold wStatus. rewrite Hn. done.
    + by rewrite (wStatus_wraps _ _ _ Hw).
  - intros t g (b & i & Hin & ->). destruct (in_block_lt t b i Hin) as (sep & block & Hb & -> & Hbl & Hlt & _).
    destruct Hin as (_ & _ & sep' & _ & Hw). destruct (wraps_entry B C _ _ _ Hw) as (kv & Hkv & _ & ? & ?). exists kv.
    rewrite (offset_at _ _ _ _ Hbl Hlt). by split_and!.
  - intros t g. apply TwoLevelSeekToFirst_spec.
  - intros t g. apply TwoLevelSeekToLast_spec.
  - apply TwoLevelNext_spec.
  - apply TwoLevelPrev_spec.
  - intros t g target. apply TwoLevelSeek_spec.
Qed.

Lemma two_level_reads (index_iter : I) c : reads B C index index_iter c →
  ∃ t, NewTwoLevelIterator index_iter = Some t ∧ @reads _ (TwoLevel_ops block_function fuel) B C kvs t None.
Proof using All.
  intros Hr. unfold NewTwoLevelIterator. destruct (WSet_wraps B C EmptyWrapper index_iter index c Hr) as (w & -> & Hw). cbn [mbind option_bind].
  eexists. split; [done|]. exists tl_at. split; [apply two_level_cursor|]. exists c. by split_and!.
Qed.

End Contract.
