(* ===== verification/DbFormat.v ===== *)
(** * Internal keys (src/db/dbformat.h, src/db/dbformat.cc)

    An internal key is a user key followed by an 8-byte tag that packs a
    sequence number and a value type.  The file models the packing, the
    comparator on internal keys and the lookup keys built for reads. *)

From Stdlib Require Import String.
From S2P Require Import Prelude Coding Status Comparator.
Import Coding.

Definition kNumLevels : Z := 7.
Definition kL0_CompactionTrigger : Z := 4.
Definition kL0_SlowdownWritesTrigger : Z := 8.
Definition kL0_StopWritesTrigger : Z := 12.
Definition kMaxMemCompactLevel : Z := 2.

Inductive ValueType := kTypeDeletion | kTypeValue.

#[export] Instance ValueType_eq_dec : EqDecision ValueType.
Proof. solve_decision. Defined.

(** The enumerator's numeric value. *)
Definition ValueType_to_Z (t : ValueType) : Z :=
  match t with kTypeDeletion => 0 | kTypeValue => 1 end.

Definition ValueType_of_Z (c : Z) : option ValueType :=
  if c =? 0 then Some kTypeDeletion else if c =? 1 then Some kTypeValue else None.

Definition kValueTypeForSeek : ValueType := kTypeValue.

Definition kMaxSequenceNumber : Z := Z.shiftl 1 56 - 1.

Record ParsedInternalKey := MkParsed {
  user_key : bytes;
  sequence : Z;
  type : ValueType;
}.

#[export] Instance ParsedInternalKey_eq_dec : EqDecision ParsedInternalKey.
Proof. solve_decision. Defined.

Definition InternalKeyEncodingLength (key : ParsedInternalKey) : Z := size (user_key key) + 8.

Definition PackSequenceAndType (seq : Z) (t : ValueType) : Z :=
  Z.lor (u64 (Z.shiftl seq 8)) (ValueType_to_Z t).

Definition AppendInternalKey (result : bytes) (key : ParsedInternalKey) : bytes :=
  PutFixed64 (result ++ user_key key) (PackSequenceAndType (sequence key) (type key)).

(** [assert(internal_key.size() >= 8)]: callers only pass longer keys. *)
Definition ExtractUserKey (internal_key : bytes) : bytes :=
  take_z (size internal_key - 8) internal_key.

(** [DecodeFixed64(key.data() + key.size() - 8)]; outside the precondition
    above the source reads out of bounds and the model returns 0. *)
Definition ExtractTag (internal_key : bytes) : Z :=
  default 0 (DecodeFixed64 (drop_z (size internal_key - 8) internal_key)).

(** [None] is the [false] return; the type byte must be a known enumerator. *)
Definition ParseInternalKey (internal_key : bytes) : option ParsedInternalKey :=
  let n := size internal_key in
  if n <? 8 then None
  else
    num ← DecodeFixed64 (drop_z (n - 8) internal_key);
    let c := Z.land num 255 in
    if c <=? ValueType_to_Z kTypeValue then
      t ← ValueType_of_Z c;
      Some (MkParsed (take_z (n - 8) internal_key) (Z.shiftr num 8) t)
    else None.

(** ** InternalKeyComparator *)

Definition InternalKeyName : bytes := bs "leveldb.InternalKeyComparator".

Section InternalKeyComparator.
  Context (user_comparator : Comparator).

Definition InternalKeyCompare (akey bkey : bytes) : Z :=
  let r := @Compare user_comparator (ExtractUserKey akey) (ExtractUserKey bkey) in
  if r =? 0 then
    let anum := ExtractTag akey in
    let bnum := ExtractTag bkey in
    if anum >? bnum then -1 else if anum <? bnum then 1 else r
  else r.

Definition InternalFindShortestSeparator (start limit : bytes) : bytes :=
  let user_start := ExtractUserKey start in
  let user_limit := ExtractUserKey limit in
  let tmp := @FindShortestSeparator user_comparator user_start user_limit in
  if (size tmp <? size user_start) && (@Compare user_comparator user_start tmp <? 0)
  then PutFixed64 tmp (PackSequenceAndType kMaxSequenceNumber kValueTypeForSeek)
  else start.

Definition InternalFindShortSuccessor (key : bytes) : bytes :=
  let ukey := ExtractUserKey key in
  let tmp := @FindShortSuccessor user_comparator ukey in
  if (size tmp <? size ukey) && (@Compare user_comparator ukey tmp <? 0)
  then PutFixed64 tmp (PackSequenceAndType kMaxSequenceNumber kValueTypeForSeek)
  else key.

Definition InternalKeyComparator : Comparator := {|
  Name := InternalKeyName;
  Compare := InternalKeyCompare;
  FindShortestSeparator := InternalFindShortestSeparator;
  FindShortSuccessor := InternalFindShortSuccessor;
|}.

End InternalKeyComparator.

(** ** LookupKey

    The three slices into the buffer: [start_, end_), [kstart_, end_) and
    [kstart_, end_ - 8).  [usize + 8] is narrowed to 32 bits. *)
Record LookupKey := MkLookupKey {
  lookup_prefix : bytes;      (* [start_, kstart_) *)
  lookup_internal : bytes;    (* [kstart_, end_) *)
}.

Definition NewLookupKey (ukey : bytes) (s : Z) : LookupKey :=
  let usize := size ukey in
  MkLookupKey (EncodeVarint32 (u32 (usize + 8)))
              (ukey ++ EncodeFixed64 (PackSequenceAndType s kValueTypeForSeek)).

Definition memtable_key (k : LookupKey) : bytes := lookup_prefix k ++ lookup_internal k.
Definition internal_key (k : LookupKey) : bytes := lookup_internal k.
Definition lookup_user_key (k : LookupKey) : bytes :=
  take_z (size (lookup_internal k) - 8) (lookup_internal k).

(** ** Lemmas *)

Definition valid_seq (s : Z) : Prop := 0 <= s <= kMaxSequenceNumber.

(** The internal key of a user key, a sequence number and a type. *)
Definition ikey (u : bytes) (s : Z) (t : ValueType) : bytes :=
  AppendInternalKey [] (MkParsed u s t).

Lemma PackSequenceAndType_value s t :
  valid_seq s → PackSequenceAndType s t = s * 256 + ValueType_to_Z t.
Proof.
  unfold valid_seq, PackSequenceAndType. change kMaxSequenceNumber with (2 ^ 56 - 1). intros Hs.
  rewrite u64_small, Z.lor_comm, lor_shift_add by (rewrite ?Z.shiftl_mul_pow2 by lia; unfold is_u64; destruct t; simpl; lia).
  lia.
Qed.

Lemma PackSequenceAndType_u64 s t : valid_seq s → is_u64 (PackSequenceAndType s t).
Proof.
  intros Hs. rewrite PackSequenceAndType_value by done. revert Hs. unfold valid_seq, is_u64.
  change kMaxSequenceNumber with (2 ^ 56 - 1). destruct t; simpl; lia.
Qed.

Lemma ikey_app u s t : ikey u s t = u ++ EncodeFixed64 (PackSequenceAndType s t).
Proof. done. Qed.

Lemma size_ikey u s t : size (ikey u s t) = size u + 8.
Proof. rewrite ikey_app, size_app, size_EncodeFixed64. done. Qed.

Lemma tag_split (l tag : bytes) :
  size tag = 8 → ExtractUserKey (l ++ tag) = l ∧ drop_z (size (l ++ tag) - 8) (l ++ tag) = tag.
Proof.
  intros Ht. unfold ExtractUserKey. rewrite size_app, Ht.
  split; [apply take_z_app|apply drop_z_app]; lia.
Qed.

Lemma ExtractUserKey_ikey u s t : ExtractUserKey (ikey u s t) = u.
Proof. apply tag_split. done. Qed.

Lemma ExtractTag_ikey u s t : valid_seq s → ExtractTag (ikey u s t) = PackSequenceAndType s t.
Proof.
  intros Hs. unfold ExtractTag. rewrite ikey_app. rewrite (proj2 (tag_split u _ (size_EncodeFixed64 _))).
  rewrite <-(app_nil_r (EncodeFixed64 _)), DecodeFixed64_Encode by by apply PackSequenceAndType_u64.
  done.
Qed.

Lemma land_pack s t : valid_seq s → Z.land (PackSequenceAndType s t) 255 = ValueType_to_Z t.
Proof.
  intros Hs. rewrite land_255, PackSequenceAndType_value, Z.add_comm by done.
  rewrite Z.mod_add by lia. by destruct t.
Qed.

Lemma shiftr_pack s t : valid_seq s → Z.shiftr (PackSequenceAndType s t) 8 = s.
Proof.
  intros Hs. rewrite PackSequenceAndType_value, Z.shiftr_div_pow2, Z.add_comm by (done || lia).
  change (2 ^ 8) with 256. rewrite Z.div_add by lia.
  replace (ValueType_to_Z t / 256) with 0 by (by destruct t). lia.
Qed.

Lemma ParseInternalKey_ikey u s t :
  valid_seq s → ParseInternalKey (ikey u s t) = Some (MkParsed u s t).
Proof.
  intros Hs. unfold ParseInternalKey. rewrite size_ikey. pose proof (size_nonneg u).
  destruct (Z.ltb_spec (size u + 8) 8); [lia|].
  replace (drop_z (size u + 8 - 8) (ikey u s t)) with (EncodeFixed64 (PackSequenceAndType s t)).
  2: { rewrite ikey_app, drop_z_app by lia. done. }
  replace (take_z (size u + 8 - 8) (ikey u s t)) with u.
  2: { rewrite ikey_app, take_z_app by lia. done. }
  rewrite <-(app_nil_r (EncodeFixed64 _)), DecodeFixed64_Encode by by apply PackSequenceAndType_u64.
  cbn [mbind option_bind]. rewrite land_pack, shiftr_pack by done.
  destruct t; done.
Qed.

(** Parsing succeeds only on the encoding of its result. *)
Lemma ParseInternalKey_sound k p :
  ParseInternalKey k = Some p →
  size k = size (user_key p) + 8 ∧ user_key p = ExtractUserKey k ∧
  sequence p = Z.shiftr (ExtractTag k) 8 ∧ ValueType_to_Z (type p) = Z.land (ExtractTag k) 255.
Proof.
  unfold ParseInternalKey, ExtractTag, ExtractUserKey. destruct (Z.ltb_spec (size k) 8); [done|].
  destruct (DecodeFixed64 _) as [num|]; [cbn [mbind option_bind default]|done].
  destruct (Z.land num 255 <=? _) eqn:El; [|done]. unfold ValueType_of_Z.
  destruct (Z.eqb_spec (Z.land num 255) 0) as [E|E].
  { intros [= <-]. simpl. rewrite size_take_z by (pose proof (size_nonneg k); lia). split_and!; lia || done. }
  destruct (Z.eqb_spec (Z.land num 255) 1) as [E1|E1]; [|done].
  intros [= <-]. simpl. rewrite size_take_z by (pose proof (size_nonneg k); lia). split_and!; lia || done.
Qed.

Section laws.
  Context (C : Comparator) {L : ComparatorLaws C}.

Lemma InternalKeyCompare_user a b :
  InternalKeyCompare C a b <= 0 → @Compare C (ExtractUserKey a) (ExtractUserKey b) <= 0.
Proof. unfold InternalKeyCompare. destruct (Z.eqb_spec (@Compare C (ExtractUserKey a) (ExtractUserKey b)) 0); lia. Qed.

Lemma InternalKeyCompare_of_user a b :
  @Compare C (ExtractUserKey a) (ExtractUserKey b) < 0 → InternalKeyCompare C a b < 0.
Proof. unfold InternalKeyCompare. destruct (Z.eqb_spec (@Compare C (ExtractUserKey a) (ExtractUserKey b)) 0); lia. Qed.

(** The order as a disjunction: user keys first, then tags downwards. *)
Lemma InternalKeyCompare_le a b :
  InternalKeyCompare C a b <= 0 ↔
  @Compare C (ExtractUserKey a) (ExtractUserKey b) < 0 ∨
  @Compare C (ExtractUserKey a) (ExtractUserKey b) = 0 ∧ ExtractTag b <= ExtractTag a.
Proof.
  unfold InternalKeyCompare. rewrite Z.gtb_ltb.
  destruct (Z.eqb_spec (@Compare C (ExtractUserKey a) (ExtractUserKey b)) 0); zcases; lia.
Qed.

Lemma InternalKeyCompare_lt a b :
  InternalKeyCompare C a b < 0 ↔
  @Compare C (ExtractUserKey a) (ExtractUserKey b) < 0 ∨
  @Compare C (ExtractUserKey a) (ExtractUserKey b) = 0 ∧ ExtractTag b < ExtractTag a.
Proof.
  unfold InternalKeyCompare. rewrite Z.gtb_ltb.
  destruct (Z.eqb_spec (@Compare C (ExtractUserKey a) (ExtractUserKey b)) 0); zcases; lia.
Qed.

Lemma InternalFindShortestSeparator_cases start limit :
  InternalFindShortestSeparator C start limit = start ∨
  let tmp := @FindShortestSeparator C (ExtractUserKey start) (ExtractUserKey limit) in
  ExtractUserKey (InternalFindShortestSeparator C start limit) = tmp ∧
  @Compare C (ExtractUserKey start) tmp < 0.
Proof.
  unfold InternalFindShortestSeparator. destruct (_ && _) eqn:E; [right|by left].
  apply andb_true_iff in E as [_ E%Z.ltb_lt]. split; [|done]. apply tag_split. done.
Qed.

Lemma InternalFindShortSuccessor_cases key :
  InternalFindShortSuccessor C key = key ∨
  let tmp := @FindShortSuccessor C (ExtractUserKey key) in
  ExtractUserKey (InternalFindShortSuccessor C key) = tmp ∧
  @Compare C (ExtractUserKey key) tmp < 0.
Proof.
  unfold InternalFindShortSuccessor. destruct (_ && _) eqn:E; [right|by left].
  apply andb_true_iff in E as [_ E%Z.ltb_lt]. split; [|done]. apply tag_split. done.
Qed.

Lemma InternalSeparator_lt start limit :
  InternalKeyCompare C start limit <= 0 →
  InternalFindShortestSeparator C start limit = start ∨
  InternalKeyCompare C (InternalFindShortestSeparator C start limit) limit < 0.
Proof.
  intros H. destruct (InternalFindShortestSeparator_cases start limit) as [E|[E Hlt]]; [by left|right].
  apply InternalKeyCompare_user in H. apply InternalKeyCompare_of_user. rewrite E.
  destruct (Z.lt_ge_cases (@Compare C (ExtractUserKey start) (ExtractUserKey limit)) 0) as [|Hge].
  - by apply separator_lt.
  - exfalso. pose proof (separator_le _ _ H). pose proof (Compare_lt_le_trans _ _ _ Hlt H0). lia.
Qed.

#[export] Instance InternalKeyComparator_laws : ComparatorLaws (InternalKeyComparator C).
Proof.
  split; cbn [Compare FindShortestSeparator FindShortSuccessor InternalKeyComparator].
  - intros a. unfold InternalKeyCompare. rewrite Compare_refl. cbn. rewrite Z.gtb_ltb. zcases; lia.
  - intros a b. unfold InternalKeyCompare. rewrite !Z.gtb_ltb.
    pose proof (Compare_antisym (ExtractUserKey a) (ExtractUserKey b)). zcases; lia.
  - intros a b c. rewrite !InternalKeyCompare_le.
    intros [H1|[H1 T1]] [H2|[H2 T2]].
    + left. eauto using Compare_lt_trans.
    + left. apply (Compare_lt_le_trans _ (ExtractUserKey b)); [done|lia].
    + left. apply (Compare_le_lt_trans _ (ExtractUserKey b)); [lia|done].
    + right. pose proof (Compare_eq_l _ _ (ExtractUserKey c) H1). lia.
  - intros start limit _. destruct (InternalFindShortestSeparator_cases start limit) as [->|[E Hlt]].
    + apply InternalKeyCompare_le. right. rewrite Compare_refl. lia.
    + apply Z.lt_le_incl, InternalKeyCompare_of_user. rewrite E. done.
  - intros start limit H. destruct (InternalSeparator_lt start limit H) as [->|]; [done|lia].
  - intros start limit H. destruct (InternalSeparator_lt start limit) as [->|]; [lia|done..].
  - intros key. destruct (InternalFindShortSuccessor_cases key) as [->|[E Hlt]].
    + apply InternalKeyCompare_le. right. rewrite Compare_refl. lia.
    + apply Z.lt_le_incl, InternalKeyCompare_of_user. rewrite E. done.
Qed.

(** Comparison of two encoded keys in terms of their parts. *)
Lemma InternalKeyCompare_ikey_same u s1 t1 s2 t2 :
  valid_seq s1 → valid_seq s2 →
  InternalKeyCompare C (ikey u s1 t1) (ikey u s2 t2) <= 0 ↔
  s2 < s1 ∨ s2 = s1 ∧ ValueType_to_Z t2 <= ValueType_to_Z t1.
Proof.
  intros H1 H2. rewrite InternalKeyCompare_le, !ExtractUserKey_ikey, !ExtractTag_ikey, Compare_refl,
    !PackSequenceAndType_value by done.
  destruct t1, t2; simpl; lia.
Qed.

End laws.

Lemma lookup_internal_ikey u s : internal_key (NewLookupKey u s) = ikey u s kValueTypeForSeek.
Proof. done. Qed.

(** ** Properties *)

(** an internal key parses back to the user key, sequence number and type
    it was built from, [InternalKeyEncodingLength] is its length, and a key
    shorter than eight bytes is rejected. *)
Theorem internal_key_roundtrip (p : ParsedInternalKey) (k : bytes) :
  valid_seq (sequence p) →
  ParseInternalKey (AppendInternalKey [] p) = Some p ∧
  size (AppendInternalKey [] p) = InternalKeyEncodingLength p ∧
  ExtractUserKey (AppendInternalKey [] p) = user_key p ∧
  (size k < 8 → ParseInternalKey k = None).
Proof.
  destruct p as [u s t]. cbn [sequence user_key]. intros Hs. split_and!.
  - by apply ParseInternalKey_ikey.
  - apply size_ikey.
  - apply ExtractUserKey_ikey.
  - intros Hk. unfold ParseInternalKey. zcases; [done|lia].
Qed.

Lemma internal_key_roundtrip_witness :
  valid_seq 100 ∧
  ParseInternalKey (AppendInternalKey [] (MkParsed [x61] 100 kTypeValue))
    = Some (MkParsed [x61] 100 kTypeValue).
Proof.
  split; [vm_compute; by split|].
  refine (proj1 (internal_key_roundtrip (MkParsed [x61] 100 kTypeValue) [] _)).
  vm_compute. by split.
Defined.

(** over any lawful user comparator the internal key comparator is again a
    lawful comparator (total preorder, separators in [start, limit), successors
    not smaller), and it orders by user key, then newer sequence number first,
    then larger type first. *)
Theorem internal_key_order (C : Comparator) (u1 u2 : bytes) (s1 s2 : Z) (t1 t2 : ValueType) :
  ComparatorLaws C → valid_seq s1 → valid_seq s2 →
  ComparatorLaws (InternalKeyComparator C) ∧
  (@Compare C u1 u2 ≠ 0 →
     InternalKeyCompare C (ikey u1 s1 t1) (ikey u2 s2 t2) = @Compare C u1 u2) ∧
  (InternalKeyCompare C (ikey u1 s1 t1) (ikey u1 s2 t2) <= 0 ↔
     s2 < s1 ∨ s2 = s1 ∧ ValueType_to_Z t2 <= ValueType_to_Z t1).
Proof.
  intros L H1 H2. split_and!; [apply _| |by apply InternalKeyCompare_ikey_same].
  intros Hne. unfold InternalKeyCompare. rewrite !ExtractUserKey_ikey. zcases; done.
Qed.

Lemma internal_key_order_witness :
  InternalKeyCompare BytewiseComparator (ikey [x61] 7 kTypeValue) (ikey [x61] 5 kTypeDeletion) <= 0.
Proof.
  destruct (internal_key_order BytewiseComparator [x61] [x61] 7 5 kTypeValue kTypeDeletion)
    as (_ & _ & H); [apply _|vm_compute; by split|vm_compute; by split|].
  apply H. left. lia.
Defined.

(** the lookup key for user key [u] at snapshot [s] sorts at or before
    exactly those entries of [u] that the snapshot can see, so a seek to it
    lands on the newest visible entry; the key also contains [u] and its
    length-prefixed form reads back as the internal key. *)
Theorem lookup_key_seeks_visible (C : Comparator) (u : bytes) (s s' : Z) (t : ValueType) (rest : bytes) :
  ComparatorLaws C → valid_seq s → valid_seq s' → is_u32 (size u + 8) →
  let k := NewLookupKey u s in
  (InternalKeyCompare C (internal_key k) (ikey u s' t) <= 0 ↔ s' <= s) ∧
  lookup_user_key k = u ∧
  GetLengthPrefixedSlice (memtable_key k ++ rest) = Some (internal_key k, rest).
Proof.
  intros L Hs Hs' Hu k. subst k. split_and!.
  - rewrite lookup_internal_ikey, InternalKeyCompare_ikey_same by done.
    destruct t; simpl; lia.
  - apply (ExtractUserKey_ikey u s kValueTypeForSeek).
  - unfold memtable_key. cbn [NewLookupKey lookup_prefix lookup_internal internal_key].
    pose proof (GetLengthPrefixedSlice_Put (ikey u s kValueTypeForSeek) rest) as H.
    unfold PutLengthPrefixedSlice, PutVarint32 in H. rewrite size_ikey in H. by apply H.
Qed.

Lemma lookup_key_seeks_visible_witness :
  InternalKeyCompare BytewiseComparator
    (internal_key (NewLookupKey [x61] 9)) (ikey [x61] 4 kTypeDeletion) <= 0.
Proof.
  apply (lookup_key_seeks_visible BytewiseComparator [x61] 9 4 kTypeDeletion []);
    [apply _|vm_compute; by split|vm_compute; by split|vm_compute; by split|lia].
Defined.
