(* ===== verification/Arena.v ===== *)
(** * The arena (src/util/arena.h, src/util/arena.cc)

    An arena hands out pieces of blocks that it gets from [new char[]].  A pointer
    is the index of its block in [blocks_] and an offset; the state of an arena
    keeps the size of every block.  Sizes and addresses are [size_t] and [uintptr_t],
    which wrap around at 64 bits. *)

From S2P Require Import Prelude.

Definition kBlockSize : Z := 4096.
Definition sizeof_pointer : Z := 8.

Definition Ptr : Type := nat * Z.

(** [None] is the null pointer of a new arena. *)
Record Arena := MkArena {
  alloc_ptr_ : option Ptr;
  alloc_bytes_remaining_ : Z;
  blocks_ : list Z;
  memory_usage_ : Z;
}.

Definition NewArena : Arena := MkArena None 0 [] 0.

Definition MemoryUsage (a : Arena) : Z := memory_usage_ a.

(** The block is new, so the pointer is to its first byte. *)
Definition AllocateNewBlock (a : Arena) (block_bytes : Z) : Arena * Ptr :=
  (MkArena (alloc_ptr_ a) (alloc_bytes_remaining_ a) (blocks_ a ++ [block_bytes])
     (u64 (memory_usage_ a + u64 (block_bytes + sizeof_pointer))),
   (length (blocks_ a), 0)).

Definition AllocateFallback (a : Arena) (bytes : Z) : Arena * Ptr :=
  if bytes >? kBlockSize / 4 then AllocateNewBlock a bytes
  else
    let '(a, ptr) := AllocateNewBlock a kBlockSize in
    (MkArena (Some (ptr.1, ptr.2 + bytes)) (u64 (kBlockSize - bytes)) (blocks_ a) (memory_usage_ a), ptr).

(** [assert(bytes > 0)]: with it the null pointer of a new arena is never returned,
    because no bytes remain then. *)
Definition Allocate (a : Arena) (bytes : Z) : Arena * Ptr :=
  match alloc_ptr_ a with
  | Some ptr =>
      if bytes <=? alloc_bytes_remaining_ a then
        (MkArena (Some (ptr.1, ptr.2 + bytes)) (u64 (alloc_bytes_remaining_ a - bytes)) (blocks_ a) (memory_usage_ a), ptr)
      else AllocateFallback a bytes
  | None => AllocateFallback a bytes
  end.

Section Aligned.
  (** The address of a block. *)
  Context (base : nat → Z).

Definition address (p : Ptr) : Z := u64 (base p.1 + p.2).

Definition align : Z := 8.

Definition AllocateAligned (a : Arena) (bytes : Z) : Arena * Ptr :=
  match alloc_ptr_ a with
  | Some ptr =>
      let current_mod := Z.land (address ptr) (align - 1) in
      let slop := if current_mod =? 0 then 0 else align - current_mod in
      let needed := u64 (bytes + slop) in
      if needed <=? alloc_bytes_remaining_ a then
        (MkArena (Some (ptr.1, ptr.2 + needed)) (u64 (alloc_bytes_remaining_ a - needed)) (blocks_ a) (memory_usage_ a),
         (ptr.1, ptr.2 + slop))
      else AllocateFallback a bytes
  | None => AllocateFallback a bytes
  end.

(** ** Sequences of allocations *)

Inductive Request := Plain (bytes : Z) | Aligned (bytes : Z).

Definition request_size (r : Request) : Z := match r with Plain n | Aligned n => n end.

Definition request (a : Arena) (r : Request) : Arena * Ptr :=
  match r with Plain n => Allocate a n | Aligned n => AllocateAligned a n end.

Fixpoint requests (a : Arena) (rs : list Request) : Arena * list Ptr :=
  match rs with
  | [] => (a, [])
  | r :: rs => let '(a, p) := request a r in let '(a, ps) := requests a rs in (a, p :: ps)
  end.

(** A piece of memory: a pointer and a length. *)
Definition piece : Type := Ptr * Z.

Definition apart (p q : piece) : Prop :=
  p.1.1 ≠ q.1.1 ∨ p.1.2 + p.2 <= q.1.2 ∨ q.1.2 + q.2 <= p.1.2.

Definition piece_inside (blocks : list Z) (p : piece) : Prop :=
  ∃ n, blocks !! p.1.1 = Some n ∧ 0 <= p.1.2 ∧ p.1.2 + p.2 <= n.

(** Everything handed out lies before the allocation pointer. *)
Definition used (a : Arena) (p : piece) : Prop :=
  piece_inside (blocks_ a) p ∧ ∀ b off, alloc_ptr_ a = Some (b, off) → p.1.1 = b → p.1.2 + p.2 <= off.

Record arena_inv (a : Arena) : Prop := {
  ai_ptr b off : alloc_ptr_ a = Some (b, off) →
    0 <= off ∧ blocks_ a !! b = Some (off + alloc_bytes_remaining_ a) ∧ 0 <= alloc_bytes_remaining_ a <= kBlockSize;
  ai_usage : memory_usage_ a = u64 $ foldr Z.add 0 ((λ n, n + sizeof_pointer) <$> blocks_ a);
}.

(** What one allocation does. *)
Record allocated (a a' : Arena) (p : piece) : Prop := {
  al_inv : arena_inv a';
  al_used : used a' p;
  al_keep q : used a q → used a' q;
  al_apart q : used a q → apart q p;
}.

(** The sizes whose rounding up to the alignment is still a [size_t]. *)
Definition fits (n : Z) : Prop := 0 < n ∧ n + align <= 2 ^ 64.

Lemma NewArena_inv : arena_inv NewArena.
Proof. by split. Qed.

Lemma usage_app (l : list Z) n :
  foldr Z.add 0 ((λ n, n + sizeof_pointer) <$> (l ++ [n])) = foldr Z.add 0 ((λ n, n + sizeof_pointer) <$> l) + (n + sizeof_pointer).
Proof. induction l as [|x l IH]; [simpl; lia|]. cbn [app]. rewrite !fmap_cons. cbn [foldr]. rewrite IH. lia. Qed.

Lemma usage_step (l : list Z) n u : u = u64 (foldr Z.add 0 ((λ n, n + sizeof_pointer) <$> l)) →
  u64 (u + u64 (n + sizeof_pointer)) = u64 (foldr Z.add 0 ((λ n, n + sizeof_pointer) <$> (l ++ [n]))).
Proof. intros ->. rewrite usage_app. unfold u64. by rewrite <-Zplus_mod. Qed.

(** What is left of a block fits a [size_t]. *)
Lemma left_small m n : 0 <= n <= m → m <= kBlockSize → u64 (m - n) = m - n.
Proof. unfold kBlockSize. intros ? ?. apply u64_small. split; lia. Qed.

Lemma piece_inside_app blocks n p : piece_inside blocks p → piece_inside (blocks ++ [n]) p.
Proof. intros (m & Hm & H). exists m. split; [by apply lookup_app_l_Some|done]. Qed.

Lemma piece_inside_lt blocks p : piece_inside blocks p → (p.1.1 < length blocks)%nat.
Proof. intros (m & Hm & _). by apply lookup_lt_Some in Hm. Qed.

Lemma lookup_last_block (blocks : list Z) n : (blocks ++ [n]) !! length blocks = Some n.
Proof. rewrite lookup_app_r, Nat.sub_diag by done. done. Qed.

Lemma AllocateFallback_ok a n : arena_inv a → 0 < n →
  let '(a', p) := AllocateFallback a n in allocated a a' (p, n) ∧ p.2 = 0.
Proof.
  intros [Hp Hu] Hn. unfold AllocateFallback, AllocateNewBlock, kBlockSize.
  destruct (Z.gtb_spec n (4096 / 4)) as [Hg|Hg]; (split; [|done]); split; cbn [fst snd alloc_ptr_ blocks_ memory_usage_ alloc_bytes_remaining_].
  - split; cbn [alloc_ptr_ alloc_bytes_remaining_ blocks_ memory_usage_].
    + intros b off E. destruct (Hp b off E) as (? & Hb & ?). split; [done|]. split; [by apply lookup_app_l_Some|done].
    + by apply usage_step.
  - split; [exists n; split; [apply lookup_last_block|cbn [fst snd]; lia]|]. cbn [fst snd alloc_ptr_ blocks_].
    intros b off E <-. destruct (Hp _ _ E) as (_ & Hb%lookup_lt_Some & _). lia.
  - intros q [Hi Hb]. split; [by apply piece_inside_app|done].
  - intros q [Hi%piece_inside_lt _]. left. simpl. lia.
  - change (4096 / 4) with 1024 in Hg. rewrite left_small by (unfold kBlockSize; lia).
    split; cbn [alloc_ptr_ alloc_bytes_remaining_ blocks_ memory_usage_].
    + intros b off [= <- <-]. unfold kBlockSize. split; [lia|]. split; [rewrite lookup_last_block; f_equal; lia|lia].
    + by apply usage_step.
  - change (4096 / 4) with 1024 in Hg. split; [exists 4096; split; [apply lookup_last_block|cbn [fst snd]; lia]|].
    cbn [fst snd alloc_ptr_]. intros b off [= <- <-] _. lia.
  - intros q [Hi Hb]. split; [by apply piece_inside_app|]. cbn [alloc_ptr_]. intros b off [= <- <-] E.
    apply piece_inside_lt in Hi. lia.
  - intros q [Hi%piece_inside_lt _]. left. simpl. lia.
Qed.

(** Taking [skip] bytes and then [n] from the current block. *)
Lemma bump_ok a b off skip n : arena_inv a → alloc_ptr_ a = Some (b, off) → 0 <= skip → 0 < n →
  n + skip <= alloc_bytes_remaining_ a →
  allocated a (MkArena (Some (b, off + (n + skip))) (u64 (alloc_bytes_remaining_ a - (n + skip))) (blocks_ a) (memory_usage_ a))
    (b, off + skip, n).
Proof.
  intros [Hp Hu] E Hs Hn Hr. destruct (Hp b off E) as (Ho & Hb & Hz & Hz'). rewrite left_small by lia.
  split; cbn [fst snd alloc_ptr_ blocks_ memory_usage_ alloc_bytes_remaining_].
  - split; [|done]. cbn [alloc_ptr_ blocks_ alloc_bytes_remaining_]. intros b' off' [= <- <-].
    split; [lia|]. split; [rewrite Hb; f_equal; lia|lia].
  - split; cbn [fst snd alloc_ptr_ blocks_]; [eexists; split; [done|cbn [fst snd]; lia]|]. intros b' off' [= <- <-] _. lia.
  - intros q [Hi Hq]. split; [done|]. cbn [alloc_ptr_]. intros b' off' [= <- <-] Eb. specialize (Hq b off E Eb). lia.
  - intros q [Hi Hq]. destruct (decide (q.1.1 = b)) as [Eb|Hne]; [|by left]. right. left. cbn [fst snd].
    specialize (Hq b off E Eb). lia.
Qed.

Lemma Allocate_ok a n : arena_inv a → 0 < n → let '(a', p) := Allocate a n in allocated a a' (p, n).
Proof.
  intros I Hn. pose proof (AllocateFallback_ok a n I Hn) as Hf. unfold Allocate.
  destruct (AllocateFallback a n) as [a' p]. destruct Hf as [Hf _].
  destruct (alloc_ptr_ a) as [[b off]|] eqn:E; [|done]. destruct (Z.leb_spec n (alloc_bytes_remaining_ a)); [|done].
  cbn [fst snd]. pose proof (bump_ok a b off 0 n I E ltac:(lia) Hn ltac:(lia)) as Hb.
  by rewrite !Z.add_0_r in Hb.
Qed.

Lemma land_align x : Z.land x (align - 1) = x mod 8.
Proof. unfold align. change (8 - 1) with (Z.ones 3). by rewrite Z.land_ones by lia. Qed.

Lemma address_mod p : address p mod 8 = (base p.1 + p.2) mod 8.
Proof. unfold address, u64. change (2 ^ 64) with (8 * 2 ^ 61). apply Z.mod_mod_divide. by exists (2 ^ 61). Qed.

Lemma AllocateAligned_ok a n : (∀ i, base i mod 8 = 0) → arena_inv a → fits n →
  let '(a', p) := AllocateAligned a n in allocated a a' (p, n) ∧ address p mod 8 = 0.
Proof.
  intros Hbase I [Hn Hmax]. pose proof (AllocateFallback_ok a n I Hn) as Hf. unfold AllocateAligned.
  destruct (AllocateFallback a n) as [a' [pb po]]. destruct Hf as [Hf H0]. cbn [snd] in H0. subst po.
  assert (address (pb, 0) mod 8 = 0) as Ha by (rewrite address_mod; cbn [fst snd]; rewrite Z.add_0_r; apply Hbase).
  destruct (alloc_ptr_ a) as [[b off]|] eqn:E; [|done]. rewrite land_align.
  set (m := address (b, off) mod 8). set (slop := if m =? 0 then 0 else align - m).
  pose proof (Z.mod_pos_bound (address (b, off)) 8 ltac:(lia)) as Hm. fold m in Hm.
  assert (0 <= slop < 8 ∧ (address (b, off) + slop) mod 8 = 0) as [Hs Hd].
  { unfold slop, align. destruct (Z.eqb_spec m 0) as [Em|Em].
    - split; [lia|]. rewrite Z.add_0_r. done.
    - split; [lia|]. rewrite <-Zplus_mod_idemp_l. fold m. replace (m + (8 - m)) with 8 by lia. done. }
  unfold align in Hmax. rewrite (u64_small (n + slop)) by (split; lia).
  destruct (Z.leb_spec (n + slop) (alloc_bytes_remaining_ a)); [|done]. cbn [fst snd].
  split; [apply bump_ok; [done|done|lia|done|done]|]. rewrite address_mod. cbn [fst snd]. rewrite Z.add_assoc, <-Zplus_mod_idemp_l.
  change (base b + off) with (base (b, off).1 + (b, off).2). by rewrite <-address_mod, Zplus_mod_idemp_l.
Qed.

Lemma request_ok a r : (∀ i, base i mod 8 = 0) → arena_inv a → fits (request_size r) →
  let '(a', p) := request a r in allocated a a' (p, request_size r) ∧
    (∀ n, r = Aligned n → address p mod 8 = 0).
Proof.
  intros Hb I Hn. destruct r as [n|n]; cbn [request request_size] in *.
  - pose proof (Allocate_ok a n I (proj1 Hn)) as H. destruct (Allocate a n). by split.
  - pose proof (AllocateAligned_ok a n Hb I Hn) as H. destruct (AllocateAligned a n). destruct H. by split.
Qed.

Definition pieces (ps : list Ptr) (rs : list Request) : list piece := zip ps (request_size <$> rs).

Lemma requests_ok rs : (∀ i, base i mod 8 = 0) → ∀ a, arena_inv a → Forall (λ r, fits (request_size r)) rs →
  let '(a', ps) := requests a rs in
  arena_inv a' ∧ (∀ q, used a q → used a' q) ∧ length ps = length rs ∧ Forall (used a') (pieces ps rs) ∧
  (∀ q, used a q → Forall (apart q) (pieces ps rs)) ∧
  (∀ i j p q, (i < j)%nat → pieces ps rs !! i = Some p → pieces ps rs !! j = Some q → apart p q) ∧
  (∀ i n p, rs !! i = Some (Aligned n) → ps !! i = Some p → address p mod 8 = 0).
Proof.
  intros Hb. induction rs as [|r rs IH]; intros a I Hrs; cbn [requests].
  { by split_and!. }
  apply Forall_cons in Hrs as [Hr Hrs]. pose proof (request_ok a r Hb I Hr) as H1.
  destruct (request a r) as [a1 p1]. destruct H1 as [[I1 U1 K1 A1] Al1]. specialize (IH a1 I1 Hrs).
  destruct (requests a1 rs) as [a2 ps]. destruct IH as (I2 & K2 & Hl & U2 & A2 & P2 & Al2).
  change (pieces (p1 :: ps) (r :: rs)) with ((p1, request_size r) :: pieces ps rs). split_and!; [done|auto|simpl; lia| | | |].
  - constructor; [auto|done].
  - intros q Hq. constructor; [auto|by apply A2, K1].
  - intros [|i] [|j] p q Hij Hi Hj; simpl in Hi, Hj; [lia| |lia|apply (P2 i j p q); [lia|done|done]].
    injection Hi as <-. eapply (Forall_lookup_1 _ _ _ _ (A2 _ U1) Hj).
  - intros [|i] n p; simpl; [intros [= ->] [= <-]; by eapply Al1|by apply Al2].
Qed.

(** C35: For any sequence of plain and aligned requests of between 1 and 2^64 - 8 bytes
    each (a larger aligned request makes [bytes + slop] wrap around in the code), the
    arena hands out pieces that lie inside a block it owns and never overlap an earlier
    piece; aligned requests get aligned addresses, given that [new] succeeds and returns
    blocks at multiples of 8; the memory usage is the size of all blocks plus a pointer
    for each, modulo 2^64, so it is exact as long as that sum is a [size_t]. *)
Theorem arena_pieces_disjoint (rs : list Request) :
  (∀ i, base i mod 8 = 0) → Forall (λ r, fits (request_size r)) rs →
  let '(a, ps) := requests NewArena rs in
  let total := foldr Z.add 0 ((λ n, n + sizeof_pointer) <$> blocks_ a) in
  length ps = length rs ∧
  (∀ i p, pieces ps rs !! i = Some p → piece_inside (blocks_ a) p) ∧
  (∀ i j p q, (i < j)%nat → pieces ps rs !! i = Some p → pieces ps rs !! j = Some q → apart p q) ∧
  (∀ i n p, rs !! i = Some (Aligned n) → ps !! i = Some p → address p mod 8 = 0) ∧
  MemoryUsage a = u64 total.
Proof.
  intros Hb Hrs. pose proof (requests_ok rs Hb NewArena NewArena_inv Hrs) as H.
  destruct (requests NewArena rs) as [a ps]. destruct H as ([_ Hu] & _ & Hl & U & _ & P & Al).
  split_and!; [done| |done|done|done]. intros i p Hp. by destruct (Forall_lookup_1 _ _ _ _ U Hp).
Qed.

End Aligned.

(** Why the size of an aligned request is bounded: after one byte, a request of
    2^64 - 1 bytes gets a piece of the first block. *)
Example aligned_request_wraps :
  let rs := [Plain 1; Aligned (2 ^ 64 - 1)] in
  let '(a, ps) := requests (λ _, 65536) NewArena rs in
  ps = [(0%nat, 0); (0%nat, 8)] ∧ blocks_ a = [4096].
Proof. by vm_compute. Qed.

(** Blocks at multiples of 65536; a plain, an aligned, a large and an aligned piece. *)
Lemma arena_pieces_disjoint_witness :
  let base := λ i, 65536 * (Z.of_nat i + 1) in
  let rs := [Plain 3; Aligned 16; Plain 5000; Aligned 8] in
  (requests base NewArena rs).2 = [(0%nat, 0); (0%nat, 8); (1%nat, 0); (0%nat, 24)] ∧
  MemoryUsage (requests base NewArena rs).1 = 4096 + 8 + (5000 + 8) ∧
  (∀ i j p q, (i < j)%nat → pieces (requests base NewArena rs).2 rs !! i = Some p →
     pieces (requests base NewArena rs).2 rs !! j = Some q → apart p q).
Proof.
  intros base rs. split; [by vm_compute|]. split; [by vm_compute|].
  assert (∀ i, base i mod 8 = 0) as Hb.
  { intros i. unfold base. replace (65536 * (Z.of_nat i + 1)) with (0 + 8192 * (Z.of_nat i + 1) * 8) by lia.
    by rewrite Z_mod_plus_full. }
  pose proof (arena_pieces_disjoint base rs Hb ltac:(repeat constructor; done)) as H.
  destruct (requests base NewArena rs) as [a ps]. by destruct H as (_ & _ & H & _).
Defined.
