(* ===== verification/Random.v ===== *)
(** * The random number generator (src/util/random.h)

    The Lehmer generator that draws the heights of skip-list nodes; its state is
    the seed. *)

From S2P Require Import Prelude.

Definition M : Z := 2147483647.
Definition A : Z := 16807.

(** [seed_] is the whole state. *)
Definition NewRandom (s : Z) : Z :=
  let seed := Z.land s 0x7fffffff in
  if (seed =? 0) || (seed =? 2147483647) then 1 else seed.

Definition Next (seed : Z) : Z :=
  let product := u64 (seed * A) in
  let seed := u32 (Z.shiftr product 31 + Z.land product M) in
  if seed >? M then seed - M else seed.

(** The generator is returned with the value. *)
Definition Uniform (n seed : Z) : Z * Z := (Next seed mod n, Next seed).

Definition OneIn (n seed : Z) : bool * Z := (Next seed mod n =? 0, Next seed).

Definition Skewed (max_log seed : Z) : Z * Z :=
  let '(k, seed) := Uniform (max_log + 1) seed in Uniform (Z.shiftl 1 k) seed.

(** The reduction computes the product modulo the Mersenne prime. *)
Lemma Next_mod seed : 0 < seed < M → Next seed = (seed * A) mod M ∧ 0 < Next seed < M.
Proof.
  intros Hs. unfold Next, M, A in *. cbv zeta.
  set (p := seed * 16807). assert (0 < p < 2 ^ 31 * 16807) as Hp by lia.
  rewrite (u64_small p) by range_lia. rewrite Z.shiftr_div_pow2 by lia.
  replace (Z.land p 2147483647) with (p mod 2 ^ 31) by (symmetry; apply (Z.land_ones p 31); lia).
  pose proof (Z.div_mod p (2 ^ 31) ltac:(lia)) as Hdm. pose proof (Z.mod_pos_bound p (2 ^ 31) ltac:(lia)) as Hm.
  assert (0 <= p / 2 ^ 31 < 16807) as Hd.
  { split; [apply Z.div_pos; lia|apply Z.div_lt_upper_bound; lia]. }
  rewrite u32_small by range_lia. set (q := p / 2 ^ 31) in *. set (r := p mod 2 ^ 31) in *.
  assert (p mod 2147483647 = (q + r) mod 2147483647) as E.
  { replace p with ((q + r) + q * 2147483647) by lia. apply Z_mod_plus_full. }
  assert (0 < p mod 2147483647) as Hpos.
  { assert (0 <= p mod 2147483647) by (apply Z.mod_pos_bound; lia).
    destruct (Z.eq_dec (p mod 2147483647) 0) as [E0|]; [|lia]. exfalso.
    apply Z.mod_divide in E0; [|lia]. unfold p in E0. rewrite Z.mul_comm in E0.
    apply Z.gauss in E0; [|done]. apply Z.divide_pos_le in E0; lia. }
  destruct (Z.gtb_spec (q + r) 2147483647) as [Hg|Hg].
  - assert ((q + r) mod 2147483647 = q + r - 2147483647) as E'.
    { symmetry. apply (Z.mod_unique _ _ 1); lia. }
    split; lia.
  - destruct (Z.eq_dec (q + r) 2147483647) as [Eq|].
    + rewrite E, Eq, Z.mod_same in Hpos by lia. lia.
    + rewrite E, Z.mod_small by lia. split; [done|]. rewrite E, Z.mod_small in Hpos by lia. lia.
Qed.
