(* ===== verification/SkipList.v ===== *)
(** * The skip list (src/db/skiplist.h)

    A skip list is a heap of nodes; a node holds a key and the array of its
    links, one per level below its height.  [None] as a link is the null pointer;
    an operation returns [None] when it reads a link that does not exist or when
    the fuel of its loop runs out, which the theorems exclude.

    The writer is serialised; readers run concurrently with it.  [Insert] is
    therefore also given as a sequence of atomic stores, and the search as a
    sequence of loads, so that their interleavings can be stated. *)

From stdpp Require Import gmap.
From S2P Require Import Prelude Random.

(** ** SkipList *)

Section SkipList.
  Context {K : Type} (compare_ : K → K → Z).

Definition kMaxHeight : nat := 12.
Definition kBranching : Z := 4.

(** The head's key is never read. *)
Record Node := MkNode { nkey : option K; next_ : list (option nat) }.

Record SkipList := MkSkipList {
  nodes : gmap nat Node;
  max_height_ : nat;
  rnd_ : Z;
  fresh : nat;     (* next address *)
}.

Definition head_ : nat := 0.

Definition NewSkipList : SkipList :=
  MkSkipList {[ head_ := MkNode None (replicate kMaxHeight None) ]} 1 (Random.NewRandom 0xdeadbeef) 1.

(** [x->Next(n)]. *)
Definition Next (s : SkipList) (x n : nat) : option (option nat) :=
  node ← nodes s !! x; next_ node !! n.

Definition SetNext (s : SkipList) (x n : nat) (y : option nat) : SkipList :=
  MkSkipList (alter (λ node, MkNode (nkey node) (<[n := y]> (next_ node))) x (nodes s))
    (max_height_ s) (rnd_ s) (fresh s).

Definition key_of (s : SkipList) (x : nat) : option K := nodes s !! x ≫= nkey.

(** [while (height < kMaxHeight && rnd_.OneIn(kBranching))]. *)
Fixpoint RandomHeight_loop (room : nat) (height : nat) (seed : Z) : nat * Z :=
  match room with
  | O => (height, seed)
  | S room =>
      let '(one, seed) := Random.OneIn kBranching seed in
      if (one : bool) then RandomHeight_loop room (S height) seed else (height, seed)
  end.

Definition RandomHeight (seed : Z) : nat * Z := RandomHeight_loop (kMaxHeight - 1) 1 seed.

Definition KeyIsAfterNode (s : SkipList) (key : K) (n : option nat) : bool :=
  match n with
  | Some n => match key_of s n with Some k => compare_ k key <? 0 | None => false end
  | None => false
  end.

(** One pass of the loop of [FindGreaterOrEqual]: the search goes on at a node and
    a level, or ends with the node it returns. *)
Inductive Search := At (x level : nat) | Found (next : option nat).

Definition search_step (s : SkipList) (key : K) (x level : nat) : option Search :=
  next ← Next s x level;
  if KeyIsAfterNode s key next then
    match next with Some n => Some (At n level) | None => None end
  else
    match level with
    | O => Some (Found next)
    | S level' => Some (At x level')
    end.

(** [prev] gets the node at which the search leaves a level. *)
Fixpoint FindGreaterOrEqual_loop (fuel : nat) (s : SkipList) (key : K) (x level : nat) (prev : list nat)
    : option (option nat * list nat) :=
  match fuel with
  | O => None
  | S fuel =>
      next ← Next s x level;
      if KeyIsAfterNode s key next then
        match next with
        | Some n => FindGreaterOrEqual_loop fuel s key n level prev
        | None => None
        end
      else
        let prev := <[level := x]> prev in
        match level with
        | O => Some (next, prev)
        | S level' => FindGreaterOrEqual_loop fuel s key x level' prev
        end
  end.

Definition search_fuel (s : SkipList) : nat := fresh s + max_height_ s.

Definition FindGreaterOrEqual (s : SkipList) (key : K) : option (option nat * list nat) :=
  FindGreaterOrEqual_loop (search_fuel s) s key head_ (max_height_ s - 1) (replicate kMaxHeight head_).

Fixpoint FindLessThan_loop (fuel : nat) (s : SkipList) (key : K) (x level : nat) : option nat :=
  match fuel with
  | O => None
  | S fuel =>
      next ← Next s x level;
      match next with
      | Some n =>
          k ← key_of s n;
          if compare_ k key >=? 0 then
            match level with O => Some x | S level' => FindLessThan_loop fuel s key x level' end
          else FindLessThan_loop fuel s key n level
      | None => match level with O => Some x | S level' => FindLessThan_loop fuel s key x level' end
      end
  end.

Definition FindLessThan (s : SkipList) (key : K) : option nat :=
  FindLessThan_loop (search_fuel s) s key head_ (max_height_ s - 1).

Fixpoint FindLast_loop (fuel : nat) (s : SkipList) (x level : nat) : option nat :=
  match fuel with
  | O => None
  | S fuel =>
      next ← Next s x level;
      match next with
      | Some n => FindLast_loop fuel s n level
      | None => match level with O => Some x | S level' => FindLast_loop fuel s x level' end
      end
  end.

Definition FindLast (s : SkipList) : option nat :=
  FindLast_loop (search_fuel s) s head_ (max_height_ s - 1).

(** The part of [Insert] before the new node is linked: the search, the height,
    the new maximum height and the node. *)
Definition insert_begin (s : SkipList) (key : K) : option (SkipList * nat * nat * list nat) :=
  '(_, prev) ← FindGreaterOrEqual s key;
  let '(height, rnd) := RandomHeight (rnd_ s) in
  let prev :=
    if (max_height_ s <? height)%nat
    then imap (λ i p, if ((max_height_ s <=? i) && (i <? height))%nat then head_ else p) prev else prev in
  let max_height := if (max_height_ s <? height)%nat then height else max_height_ s in
  let x := fresh s in
  Some (MkSkipList (<[x := MkNode (Some key) (replicate height None)]> (nodes s)) max_height rnd (S x), x, height, prev).

(** The body of the linking loop: the node takes over the link of [prev[i]], which
    then points to the node. *)
Definition link_level (s : SkipList) (x : nat) (prev : list nat) (i : nat) : option SkipList :=
  p ← prev !! i;
  n ← Next s p i;
  Some (SetNext (SetNext s x i n) p i (Some x)).

Fixpoint link_levels (s : SkipList) (x : nat) (prev : list nat) (levels : list nat) : option SkipList :=
  match levels with
  | [] => Some s
  | i :: levels => s ← link_level s x prev i; link_levels s x prev levels
  end.

Definition Insert (s : SkipList) (key : K) : option SkipList :=
  '(s, x, height, prev) ← insert_begin s key;
  link_levels s x prev (seq 0 height).

Definition Contains (s : SkipList) (key : K) : option bool :=
  '(x, _) ← FindGreaterOrEqual s key;
  match x with
  | Some x => k ← key_of s x; Some (compare_ key k =? 0)
  | None => Some false
  end.

(** ** SkipList::Iterator *)

(** The iterator is its [node_]. *)
Definition Iterator : Type := option nat.

Definition IterValid (it : Iterator) : bool := match it with Some _ => true | None => false end.

Definition IterKey (s : SkipList) (it : Iterator) : option K := x ← it; key_of s x.

Definition IterNext (s : SkipList) (it : Iterator) : option Iterator := x ← it; Next s x 0.

Definition IterPrev (s : SkipList) (it : Iterator) : option Iterator :=
  x ← it;
  k ← key_of s x;
  p ← FindLessThan s k;
  Some (if decide (p = head_) then None else Some p).

Definition IterSeek (s : SkipList) (target : K) : option Iterator := fst <$> FindGreaterOrEqual s target.

Definition IterSeekToFirst (s : SkipList) : option Iterator := Next s head_ 0.

Definition IterSeekToLast (s : SkipList) : option Iterator :=
  p ← FindLast s;
  Some (if decide (p = head_) then None else Some p).

End SkipList.

(** ** Facts *)

(** The order a skip list needs. *)
Class KeyOrder {K} (compare_ : K → K → Z) : Prop := {
  ko_antisym a b : Z.sgn (compare_ b a) = - Z.sgn (compare_ a b);
  ko_trans a b c : compare_ a b <= 0 → compare_ b c <= 0 → compare_ a c <= 0;
}.

Section Facts.
  Context {K : Type} {compare_ : K → K → Z} {KO : KeyOrder compare_}.

Lemma ko_lt_trans a b c : compare_ a b < 0 → compare_ b c < 0 → compare_ a c < 0.
Proof.
  intros H1 H2. destruct (Z.lt_ge_cases (compare_ a c) 0) as [|H3]; [done|]. pose proof (ko_antisym a c).
  pose proof (ko_antisym a b). pose proof (ko_trans b c a). lia.
Qed.

(** [o] is the first node after position [k] of [N] that is linked above level [l]. *)
Definition is_next (hl : nat → nat) (N : list nat) (l k : nat) (o : option nat) : Prop :=
  match o with
  | Some id => ∃ j, (k < j)%nat ∧ N !! j = Some id ∧ (l < hl id)%nat ∧
                    ∀ m y, (k < m < j)%nat → N !! m = Some y → (hl y <= l)%nat
  | None => ∀ m y, (k < m)%nat → N !! m = Some y → (hl y <= l)%nat
  end.

(** The nodes in key order are [L]; node [x] is linked at the levels below [hl x]
    (0 for a node that is not linked yet). *)
Record sl_inv (s : SkipList) (L : list nat) (hl : nat → nat) : Prop := {
  si_nodup : NoDup (head_ :: L);
  si_height : (1 <= max_height_ s <= kMaxHeight)%nat;
  si_head : hl head_ = kMaxHeight;
  si_le x : x ∈ L → (hl x <= max_height_ s)%nat;
  si_key x : x ∈ L → is_Some (key_of (K := K) s x);
  si_sorted i j x y kx ky : (i < j)%nat → L !! i = Some x → L !! j = Some y →
    key_of s x = Some kx → key_of s y = Some ky → compare_ kx ky < 0;
  si_next k x l : (head_ :: L) !! k = Some x → (l < hl x)%nat →
    ∃ o, Next s x l = Some o ∧ is_next hl (head_ :: L) l k o;
  si_fresh x : x ∈ head_ :: L → (x < fresh s)%nat;
  si_count : (length L < fresh s)%nat;
}.

Lemma NewSkipList_inv : sl_inv NewSkipList [] (λ x, if decide (x = head_) then kMaxHeight else 0%nat).
Proof.
  split; try done.
  - apply NoDup_singleton.
  - unfold kMaxHeight. simpl. lia.
  - by intros x ?%not_elem_of_nil.
  - by intros x ?%not_elem_of_nil.
  - intros k x l Hk Hl. apply list_lookup_singleton_Some in Hk as [-> <-].
    exists None. split.
    + unfold Next, NewSkipList. cbn [nodes]. rewrite lookup_singleton_eq. cbn [mbind option_bind next_].
      apply lookup_replicate_2. by rewrite decide_True in Hl.
    + intros m y Hm Hy. apply list_lookup_singleton_Some in Hy as [-> _]. lia.
  - intros x ->%list_elem_of_singleton. simpl. unfold head_. lia.
  - simpl. lia.
Qed.

(** *** The search *)

(** Every node at positions 1 to [k] has a smaller key. *)
Definition smaller_upto (s : SkipList) (L : list nat) (key : K) (k : nat) : Prop :=
  ∀ j y ky, (1 <= j <= k)%nat → (head_ :: L) !! j = Some y → key_of s y = Some ky → compare_ ky key < 0.

(** No node after [k] that is linked above [l] has a smaller key. *)
Definition not_smaller_after (s : SkipList) (L : list nat) (hl : nat → nat) (key : K) (l k : nat) : Prop :=
  ∀ j y ky, (k < j)%nat → (head_ :: L) !! j = Some y → (l < hl y)%nat → key_of s y = Some ky → 0 <= compare_ ky key.

Lemma smaller_upto_0 s L key : smaller_upto s L key 0.
Proof. intros j y ky Hj. lia. Qed.

Lemma N_elem L k x : (head_ :: L) !! k = Some x → (0 < k)%nat → x ∈ L.
Proof. destruct k as [|k]; [lia|]. intros Hk _. by apply (list_elem_of_lookup_2 L k). Qed.

Lemma node_key s L hl k x : sl_inv s L hl → (head_ :: L) !! k = Some x → (0 < k)%nat → ∃ kx, key_of s x = Some kx.
Proof.
  intros I Hk H0. by eapply (si_key _ _ _ I), N_elem.
Qed.

Lemma sorted_N s L hl i j x y kx ky : sl_inv s L hl → (0 < i < j)%nat →
  (head_ :: L) !! i = Some x → (head_ :: L) !! j = Some y → key_of s x = Some kx → key_of s y = Some ky →
  compare_ kx ky < 0.
Proof.
  intros I Hij Hi Hj. destruct i as [|i]; [lia|]. destruct j as [|j]; [lia|]. simpl in Hi, Hj.
  apply (si_sorted _ _ _ I i j); [lia|done|done].
Qed.

Lemma step_cases s L hl key k x l : sl_inv s L hl → (head_ :: L) !! k = Some x → smaller_upto s L key k →
  (l < hl x)%nat →
  ∃ o, Next s x l = Some o ∧ is_next hl (head_ :: L) l k o ∧
    ((KeyIsAfterNode compare_ s key o = true ∧ ∃ n k', o = Some n ∧ (k < k')%nat ∧ (head_ :: L) !! k' = Some n ∧
        smaller_upto s L key k' ∧ (l < hl n)%nat) ∨
     (KeyIsAfterNode compare_ s key o = false ∧ not_smaller_after s L hl key l k)).
Proof.
  intros I Hk Hsm Hl. destruct (si_next _ _ _ I k x l Hk Hl) as (o & Ho & Hn). exists o. split; [done|]. split; [done|].
  destruct o as [n|]; simpl in Hn |- *.
  - destruct Hn as (k' & Hkk & Hk' & Hln & Hmid). destruct (node_key _ _ _ _ _ I Hk' ltac:(lia)) as [kn Ekn].
    rewrite Ekn. destruct (Z.ltb_spec (compare_ kn key) 0) as [Hlt|Hge].
    + left. split; [done|]. exists n, k'. split_and!; try done. intros j y ky Hj Hy Eky.
      destruct (decide (j = k')) as [->|]; [congruence|].
      destruct (decide (j <= k)%nat); [apply (Hsm j y ky); [lia|done|done]|].
      eapply ko_lt_trans; [eapply (sorted_N s L hl j k'); [done|lia|done|done|done|done]|done].
    + right. split; [done|]. intros j y ky Hj Hy Hhy Eky.
      destruct (decide (j < k')%nat) as [Hlt|].
      { specialize (Hmid j y ltac:(lia) Hy). lia. }
      destruct (decide (j = k')) as [->|]; [congruence|].
      assert (compare_ kn ky < 0) as Hky by (eapply (sorted_N s L hl k' j); [done|lia|done|done|done|done]).
      destruct (Z.le_gt_cases 0 (compare_ ky key)) as [|Hlt]; [done|].
      pose proof (ko_lt_trans _ _ _ Hky Hlt). lia.
  - right. split; [done|]. intros j y ky Hj Hy Hhy. specialize (Hn j y Hj Hy). lia.
Qed.

(** A node at which the search may leave level [l]. *)
Definition prev_ok (s : SkipList) (L : list nat) (hl : nat → nat) (key : K) (l y : nat) : Prop :=
  ∃ k, (head_ :: L) !! k = Some y ∧ smaller_upto s L key k ∧ (l < hl y)%nat ∧ not_smaller_after s L hl key l k.

(** The node before the place of the key, as far as linked nodes go. *)
Definition found (s : SkipList) (L : list nat) (hl : nat → nat) (key : K) (o : option nat) (k : nat) : Prop :=
  (k < length (head_ :: L))%nat ∧ smaller_upto s L key k ∧ not_smaller_after s L hl key 0 k ∧ is_next hl (head_ :: L) 0 k o.

Lemma FindGreaterOrEqual_loop_spec s L hl key : sl_inv s L hl → ∀ fuel x l k prev,
  (head_ :: L) !! k = Some x → smaller_upto s L key k → (l < hl x)%nat → (l < length prev)%nat →
  (l + length (head_ :: L) - k <= fuel)%nat →
  ∃ o prev' k', FindGreaterOrEqual_loop compare_ fuel s key x l prev = Some (o, prev') ∧
    length prev' = length prev ∧ found s L hl key o k' ∧
    (∀ i, (i <= l)%nat → ∃ y, prev' !! i = Some y ∧ prev_ok s L hl key i y) ∧
    (∀ i, (l < i)%nat → prev' !! i = prev !! i).
Proof.
  intros I. induction fuel as [|fuel IH]; intros x l k prev Hk Hsm Hl Hp Hf.
  { apply lookup_lt_Some in Hk. lia. }
  cbn [FindGreaterOrEqual_loop]. pose proof (lookup_lt_Some _ _ _ Hk) as Hkl.
  destruct (step_cases s L hl key k x l I Hk Hsm Hl) as (o & Eo & Hn & [(Ek & n & k' & -> & Hkk & Hk' & Hsm' & Hln)|(Ek & Hns)]);
    rewrite Eo; cbn [mbind option_bind]; rewrite Ek.
  - apply (IH n l k' prev); try done. lia.
  - assert (prev_ok s L hl key l x) as Hpx by (by exists k). destruct l as [|l].
    + exists o, (<[0%nat := x]> prev), k. split; [done|]. split; [apply length_insert|]. split; [done|]. split.
      * intros i Hi. assert (i = 0%nat) as -> by lia. exists x. split; [by apply list_lookup_insert_eq|done].
      * intros i Hi. apply list_lookup_insert_ne. lia.
    + destruct (IH x l k (<[S l := x]> prev)) as (o' & prev' & k' & E & Hlen & Hfd & Hpr & Hpr'); try done; [lia|by rewrite length_insert; lia|lia|].
      exists o', prev', k'. rewrite length_insert in Hlen. split_and!; try done.
      * intros i Hi. destruct (decide (i = S l)) as [->|]; [|apply Hpr; lia].
        exists x. split; [|done]. rewrite Hpr' by lia. by apply list_lookup_insert_eq.
      * intros i Hi. rewrite Hpr' by lia. apply list_lookup_insert_ne. lia.
Qed.

Lemma FindGreaterOrEqual_spec s L hl key : sl_inv s L hl →
  ∃ o prev k, FindGreaterOrEqual compare_ s key = Some (o, prev) ∧ length prev = kMaxHeight ∧ found s L hl key o k ∧
    (∀ i, (i < max_height_ s)%nat → ∃ y, prev !! i = Some y ∧ prev_ok s L hl key i y).
Proof.
  intros I. unfold FindGreaterOrEqual. pose proof (si_height _ _ _ I) as Hh. pose proof (si_count _ _ _ I) as Hc.
  destruct (FindGreaterOrEqual_loop_spec s L hl key I (search_fuel s) head_ (max_height_ s - 1) 0 (replicate kMaxHeight head_))
    as (o & prev & k & E & Hlen & Hfd & Hpr & _).
  - done.
  - apply smaller_upto_0.
  - rewrite (si_head _ _ _ I). lia.
  - rewrite length_replicate. lia.
  - unfold search_fuel. simpl. lia.
  - exists o, prev, k. rewrite length_replicate in Hlen. split_and!; try done. intros i Hi. apply Hpr. lia.
Qed.

(** *** Insertion *)

Definition insert_after (L : list nat) (a z : nat) : list nat := take a L ++ z :: drop a L.

Lemma lookup_insert_after L a z j : (a <= length L)%nat →
  (head_ :: insert_after L a z) !! j =
    if decide (j <= a)%nat then (head_ :: L) !! j else if decide (j = S a) then Some z else (head_ :: L) !! pred j.
Proof.
  intros Ha. unfold insert_after. destruct j as [|j]; [by rewrite decide_True by lia|].
  rewrite !lookup_cons. destruct (decide (S j <= a)%nat).
  - rewrite lookup_app_l, lookup_take by (rewrite ?length_take; lia). by rewrite decide_True by lia.
  - rewrite lookup_app_r, length_take, Nat.min_l by (rewrite ?length_take; lia).
    destruct (decide (S j = S a)) as [E|E].
    + replace (j - a)%nat with 0%nat by lia. done.
    + destruct (j - a)%nat as [|m] eqn:Em; [lia|]. rewrite lookup_cons, lookup_drop.
      destruct j as [|j]; [lia|]. cbn [pred]. f_equal. lia.
Qed.

Lemma elem_insert_after L a z x : x ∈ insert_after L a z ↔ x = z ∨ x ∈ L.
Proof.
  unfold insert_after. rewrite elem_of_app, elem_of_cons. rewrite <-(take_drop a L) at 3. rewrite elem_of_app. tauto.
Qed.

Lemma insert_after_pos L a z j : (a <= length L)%nat → z ∉ head_ :: L →
  (head_ :: insert_after L a z) !! j = Some z → j = S a.
Proof.
  intros Ha Hz. rewrite lookup_insert_after by done.
  destruct (decide (j <= a)%nat); [by intros ?%list_elem_of_lookup_2|].
  destruct (decide (j = S a)); [done|]. by intros ?%list_elem_of_lookup_2.
Qed.

Definition upd (hl : nat → nat) (z i x : nat) : nat := if decide (x = z) then i else hl x.

Lemma Next_SetNext s x n o x' n' :
  Next (SetNext s x n o) x' n' =
    if decide (x' = x ∧ n' = n) then (if decide (is_Some (Next (K := K) s x n)) then Some o else None) else Next s x' n'.
Proof.
  unfold Next, SetNext. cbn [nodes]. rewrite lookup_alter.
  destruct (decide (x' = x)) as [->|Hx].
  - rewrite decide_True by done. destruct (nodes s !! x) as [node|] eqn:E; simpl.
    + destruct (decide (n' = n)) as [->|Hn].
      * rewrite decide_True by done. destruct (decide (is_Some (next_ node !! n))) as [Hs|Hs].
        -- apply list_lookup_insert_eq. by apply lookup_lt_is_Some.
        -- apply eq_None_not_Some in Hs. apply lookup_ge_None in Hs. apply lookup_ge_None. by rewrite length_insert.
      * rewrite decide_False by naive_solver. by apply list_lookup_insert_ne.
    + by destruct (decide (x = x ∧ n' = n)).
  - rewrite (decide_False (P := x' = x ∧ n' = n)) by naive_solver. rewrite decide_False by naive_solver. done.
Qed.

Lemma key_of_SetNext s x n o y : key_of (K := K) (SetNext s x n o) y = key_of s y.
Proof.
  unfold key_of, SetNext. cbn [nodes]. rewrite lookup_alter. destruct (decide (y = x)) as [->|]; [|by rewrite decide_False by done].
  rewrite decide_True by done. by destruct (nodes s !! x).
Qed.

Lemma N_inj s L hl i j x : sl_inv s L hl → (head_ :: L) !! i = Some x → (head_ :: L) !! j = Some x → i = j.
Proof. intros I. apply NoDup_lookup, I. Qed.

(** The new node is allocated and has a place in the order, but no link leads to it. *)
Lemma alloc_inv s L hl a key h mh rnd : sl_inv s L hl → (a <= length L)%nat →
  smaller_upto s L key a →
  (∀ j y ky, (a < j)%nat → (head_ :: L) !! j = Some y → key_of s y = Some ky → 0 < compare_ ky key) →
  (max_height_ s <= mh <= kMaxHeight)%nat →
  let z := fresh s in
  let s1 := MkSkipList (<[z := MkNode (Some key) (replicate h None)]> (nodes s)) mh rnd (S z) in
  sl_inv s1 (insert_after L a z) (upd hl z 0) ∧ key_of s1 z = Some key ∧
  (∀ i, (i < h)%nat → is_Some (Next s1 z i)) ∧ (∀ x, x ∈ head_ :: L → x ≠ z ∧ key_of s1 x = key_of s x).
Proof.
  intros I Ha Hsm Hgt Hmh z s1.
  assert (∀ x, x ∈ head_ :: L → x ≠ z) as Hne by (intros x Hx ->; apply (si_fresh _ _ _ I) in Hx; unfold z in Hx; lia).
  assert (∀ x, x ≠ z → nodes s1 !! x = nodes s !! x) as Hnd by (intros x Hx; simpl; by rewrite lookup_insert_ne).
  assert (∀ x, x ≠ z → key_of s1 x = key_of s x) as Hky by (intros x Hx; unfold key_of; by rewrite Hnd).
  assert (key_of s1 z = Some key) as Hkz by (unfold key_of; simpl; by rewrite lookup_insert_eq).
  assert (∀ x, x ∈ insert_after L a z → x = z ∨ x ∈ L) as Hin.
  { intros x. unfold insert_after. rewrite elem_of_app, elem_of_cons. intros [Hx|[->|Hx]]; [|by left|].
    - right. rewrite <-(take_drop a L). apply elem_of_app. by left.
    - right. rewrite <-(take_drop a L). apply elem_of_app. by right. }
  assert (∀ j, (head_ :: insert_after L a z) !! (if decide (j <= a)%nat then j else S j) = (head_ :: L) !! j) as Hphi.
  { intros j. rewrite lookup_insert_after by done. destruct (decide (j <= a)%nat); [by rewrite decide_True|].
    rewrite decide_False by lia. rewrite decide_False by lia. done. }
  assert (∀ j x, (head_ :: insert_after L a z) !! j = Some x → x ≠ z →
    ∃ j0, j = (if decide (j0 <= a)%nat then j0 else S j0) ∧ (head_ :: L) !! j0 = Some x) as Hinv.
  { intros j x. rewrite lookup_insert_after by done. destruct (decide (j <= a)%nat).
    - intros Hj _. exists j. by rewrite decide_True.
    - destruct (decide (j = S a)) as [->|]; [by intros [= ->]|]. intros Hj _. exists (pred j).
      rewrite decide_False by lia. split; [lia|done]. }
  assert (∀ j, (head_ :: insert_after L a z) !! j = Some z → j = S a) as Hpz.
  { intros j. apply insert_after_pos; [done|]. intros Hz. by apply (Hne z). }
  split; [split|split; [done|split]].
  - apply NoDup_cons. split.
    + intros [E|Hx]%Hin; [by apply (Hne head_); [left|]|]. pose proof (si_nodup _ _ _ I) as Hd.
      apply NoDup_cons in Hd as [Hd _]. done.
    + unfold insert_after. rewrite <-Permutation_middle, take_drop. apply NoDup_cons. split.
      * intros Hz. by apply (Hne z); [right|].
      * pose proof (si_nodup _ _ _ I) as Hd. by apply NoDup_cons in Hd as [_ Hd].
  - simpl. pose proof (si_height _ _ _ I). lia.
  - unfold upd. rewrite decide_False by (apply Hne; left). apply I.
  - intros x [->|Hx]%Hin; unfold upd; [rewrite decide_True by done; lia|].
    rewrite decide_False by (apply Hne; by right). pose proof (si_le _ _ _ I x Hx). simpl. lia.
  - intros x [->|Hx]%Hin; [by rewrite Hkz|]. rewrite Hky by (apply Hne; by right). by apply (si_key _ _ _ I).
  - intros i j x y kx ky Hij Hi Hj Hkx Hky'.
    assert ((head_ :: insert_after L a z) !! S i = Some x) as Hi' by done.
    assert ((head_ :: insert_after L a z) !! S j = Some y) as Hj' by done.
    destruct (decide (x = z)) as [->|Hxz]; destruct (decide (y = z)) as [->|Hyz].
    + apply Hpz in Hi', Hj'. lia.
    + destruct (Hinv _ _ Hj' Hyz) as (j0 & Ej & Hj0). rewrite Hky in Hky' by done.
      rewrite Hkz in Hkx. injection Hkx as <-.
      apply Hpz in Hi'.
      assert (a < j0)%nat by (destruct (decide (j0 <= a)%nat); lia).
      pose proof (Hgt j0 y ky ltac:(lia) Hj0 Hky'). pose proof (ko_antisym key ky). lia.
    + destruct (Hinv _ _ Hi' Hxz) as (i0 & Ei & Hi0). rewrite Hky in Hkx by done.
      rewrite Hkz in Hky'. injection Hky' as <-.
      apply Hpz in Hj'.
      apply (Hsm i0 x kx); [|done|done]. destruct (decide (i0 <= a)%nat); lia.
    + destruct (Hinv _ _ Hi' Hxz) as (i0 & Ei & Hi0). destruct (Hinv _ _ Hj' Hyz) as (j0 & Ej & Hj0).
      rewrite Hky in Hkx, Hky' by done. apply (sorted_N s L hl i0 j0 x y kx ky I); try done.
      destruct (decide (i0 <= a)%nat), (decide (j0 <= a)%nat); lia.
  - intros k x l Hk Hl. unfold upd in Hl. destruct (decide (x = z)) as [->|Hxz]; [lia|].
    destruct (Hinv _ _ Hk Hxz) as (k0 & -> & Hk0). destruct (si_next _ _ _ I k0 x l Hk0 Hl) as (o & Ho & Hn).
    exists o. split; [unfold Next; by rewrite Hnd|]. destruct o as [id|]; simpl in Hn |- *.
    + destruct Hn as (j & Hkj & Hj & Hlj & Hmid). exists (if decide (j <= a)%nat then j else S j).
      assert (id ≠ z) as Hidz by (apply Hne; by apply list_elem_of_lookup_2 in Hj).
      split_and!; [destruct (decide (k0 <= a)%nat), (decide (j <= a)%nat); lia|by rewrite Hphi|
                   unfold upd; by rewrite decide_False|].
      intros m y Hm Hy. unfold upd. destruct (decide (y = z)) as [->|Hyz]; [lia|].
      destruct (Hinv _ _ Hy Hyz) as (m0 & -> & Hm0). apply (Hmid m0 y); [|done].
      destruct (decide (k0 <= a)%nat), (decide (j <= a)%nat), (decide (m0 <= a)%nat); lia.
    + intros m y Hm Hy. unfold upd. destruct (decide (y = z)) as [->|Hyz]; [lia|].
      destruct (Hinv _ _ Hy Hyz) as (m0 & -> & Hm0). apply (Hn m0 y); [|done].
      destruct (decide (k0 <= a)%nat), (decide (m0 <= a)%nat); lia.
  - intros x [->|[->|Hx]%Hin]%elem_of_cons; simpl; [|lia|].
    + pose proof (si_fresh _ _ _ I head_ ltac:(left)). unfold z. lia.
    + pose proof (si_fresh _ _ _ I x ltac:(by right)). unfold z. lia.
  - unfold insert_after. rewrite length_app. cbn [length]. rewrite length_take, length_drop. simpl.
    pose proof (si_count _ _ _ I). unfold z. lia.
  - intros i Hi. unfold Next. simpl. rewrite lookup_insert_eq. simpl. apply lookup_lt_is_Some. by rewrite length_replicate.
  - intros x Hx. split; [by apply Hne|]. apply Hky. by apply Hne.
Qed.

(** The link of level [i] is taken over from the last node before the new one that
    reaches above level [i]. *)
Definition link_from (L : list nat) (hl : nat → nat) (a i y : nat) : Prop :=
  ∃ k, (head_ :: L) !! k = Some y ∧ (k <= a)%nat ∧ (i < hl y)%nat ∧
    ∀ m x, (k < m <= a)%nat → (head_ :: L) !! m = Some x → (hl x <= i)%nat.

Lemma is_next_ext hl hl' N l k o : (∀ x, (l < hl x)%nat ↔ (l < hl' x)%nat) → is_next hl N l k o → is_next hl' N l k o.
Proof.
  intros H. destruct o as [id|]; simpl.
  - intros (j & H1 & H2 & H3 & H4). exists j. split_and!; [done|done|by apply H|].
    intros m y Hm Hy. specialize (H4 m y Hm Hy). pose proof (H y). lia.
  - intros Hn m y Hm Hy. specialize (Hn m y Hm Hy). pose proof (H y). lia.
Qed.

(** The level-[i] successors after the link. *)
Lemma link_next s L hl a z i y n k x : sl_inv s L hl → (head_ :: L) !! S a = Some z → hl z = i →
  (∃ ky, (head_ :: L) !! ky = Some y ∧ (ky <= a)%nat ∧ (i < hl y)%nat ∧
    (∀ m x, (ky < m <= a)%nat → (head_ :: L) !! m = Some x → (hl x <= i)%nat) ∧ is_next hl (head_ :: L) i ky n) →
  (head_ :: L) !! k = Some x → (i < upd hl z (S i) x)%nat →
  (x = z → is_next (upd hl z (S i)) (head_ :: L) i k n) ∧
  (x = y → is_next (upd hl z (S i)) (head_ :: L) i k (Some z)) ∧
  (x ≠ z → x ≠ y → ∀ o, is_next hl (head_ :: L) i k o → is_next (upd hl z (S i)) (head_ :: L) i k o).
Proof.
  intros I Hz Hi (ky & Hky & Hkya & Hiy & Hmid & Hn) Hk Hl.
  assert (∀ m x, (head_ :: L) !! m = Some x → m ≠ S a → upd hl z (S i) x = hl x) as Hupd.
  { intros m x' Hm Hne. unfold upd. rewrite decide_False; [done|]. intros ->. apply Hne. by eapply N_inj. }
  split; [|split].
  - intros ->. assert (k = S a) as -> by (by eapply N_inj). destruct n as [id|]; simpl in Hn |- *.
    + destruct Hn as (j & Hj1 & Hj2 & Hj3 & Hj4). assert (S a < j)%nat as Hlt.
      { destruct (decide (j <= a)%nat); [specialize (Hmid j id ltac:(lia) Hj2); lia|].
        destruct (decide (j = S a)) as [->|]; [|lia]. rewrite Hz in Hj2. injection Hj2 as <-. lia. }
      exists j. split_and!; [done|done|by rewrite (Hupd j) by (done || lia)|].
      intros m y' Hm Hy'. rewrite (Hupd m) by (done || lia). apply (Hj4 m); [lia|done].
    + intros m y' Hm Hy'. rewrite (Hupd m) by (done || lia). apply (Hn m); [lia|done].
  - intros ->. assert (k = ky) as -> by (by eapply N_inj). simpl. exists (S a). split_and!; [lia|done| |].
    + unfold upd. rewrite decide_True by done. lia.
    + intros m y' Hm Hy'. rewrite (Hupd m) by (done || lia). apply (Hmid m); [lia|done].
  - intros Hxz Hxy o Ho. assert (k ≠ S a) as Hka by (intros ->; congruence).
    assert (k ≠ ky) as Hkk by (intros ->; congruence).
    rewrite (Hupd k) in Hl by done.
    destruct (decide (S a < k)%nat) as [Hgt|Hle].
    + destruct o as [id|]; simpl in Ho |- *.
      * destruct Ho as (j & Hj1 & Hj2 & Hj3 & Hj4). exists j.
        split_and!; [done|done|by rewrite (Hupd j) by (done || lia)|].
        intros m y' Hm Hy'. rewrite (Hupd m) by (done || lia). by apply (Hj4 m).
      * intros m y' Hm Hy'. rewrite (Hupd m) by (done || lia). by apply (Ho m).
    + destruct (decide (ky < k)%nat) as [Hgt'|]; [specialize (Hmid k x ltac:(lia) Hk); lia|].
      destruct o as [id|]; simpl in Ho |- *; [|specialize (Ho ky y ltac:(lia) Hky); lia].
      destruct Ho as (j & Hj1 & Hj2 & Hj3 & Hj4).
      assert (j <= ky)%nat by (destruct (decide (ky < j)%nat); [specialize (Hj4 ky y ltac:(lia) Hky); lia|lia]).
      exists j. split_and!; [done|done|by rewrite (Hupd j) by (done || lia)|].
      intros m y' Hm Hy'. rewrite (Hupd m) by (done || lia). by apply (Hj4 m).
Qed.

Lemma link_inv s L hl a z i y prev : sl_inv s L hl → (head_ :: L) !! S a = Some z → hl z = i →
  is_Some (Next s z i) → link_from L hl a i y → prev !! i = Some y → (i < max_height_ s)%nat →
  ∃ s', link_level s z prev i = Some s' ∧ sl_inv s' L (upd hl z (S i)) ∧
    (∀ x, key_of s' x = key_of s x) ∧ max_height_ s' = max_height_ s ∧ (∀ l, is_Some (Next s z l) → is_Some (Next s' z l)).
Proof.
  intros I Hz Hi Hnz (ky & Hky & Hkya & Hiy & Hmid) Hp Hmh. unfold link_level. rewrite Hp. cbn [mbind option_bind].
  destruct (si_next _ _ _ I ky y i Hky Hiy) as (n & En & Hn). rewrite En. cbn [mbind option_bind].
  assert (y ≠ z) as Hyz by (intros ->; assert (ky = S a) by (by eapply N_inj); lia).
  eexists. split; [done|]. set (s' := SetNext _ y i (Some z)).
  assert (∀ x l, Next s' x l = if decide (x = y ∧ l = i) then Some (Some z)
                              else if decide (x = z ∧ l = i) then Some n else Next s x l) as HN.
  { intros x l. unfold s'. rewrite !Next_SetNext. destruct (decide (x = y ∧ l = i)) as [[-> ->]|Hne].
    - rewrite (decide_False (P := y = z ∧ i = i)) by naive_solver. rewrite decide_True; [done|]. by rewrite En.
    - destruct (decide (x = z ∧ l = i)); [|done]. by rewrite decide_True. }
  assert (∀ x, key_of s' x = key_of s x) as Hk by (intros x; unfold s'; by rewrite !key_of_SetNext).
  split_and!; [split|done|done|].
  - apply I.
  - apply I.
  - unfold upd. rewrite decide_False; [apply I|]. intros <-. assert (S a = 0)%nat by (by eapply N_inj). lia.
  - intros x Hx. unfold upd. destruct (decide (x = z)); [simpl; lia|]. by apply I.
  - intros x Hx. rewrite Hk. by apply I.
  - intros i' j x x' kx ky' Hij Hxi Hxj. rewrite !Hk. by apply (si_sorted _ _ _ I i' j).
  - intros k x l Hkx Hl. rewrite HN. destruct (decide (l = i)) as [->|Hli].
    + destruct (link_next s L hl a z i y n k x I Hz Hi) as (H1 & H2 & H3); [by exists ky|done|done|].
      destruct (decide (x = y)) as [->|Hxy]; [rewrite decide_True by done; eauto|].
      rewrite decide_False by naive_solver. destruct (decide (x = z)) as [->|Hxz]; [rewrite decide_True by done; eauto|].
      rewrite decide_False by naive_solver. unfold upd in Hl. rewrite decide_False in Hl by done.
      destruct (si_next _ _ _ I k x i Hkx Hl) as (o & Eo & Ho). exists o. split; [done|]. by apply H3.
    + rewrite !decide_False by naive_solver.
      assert (l < hl x)%nat as Hl' by (unfold upd in Hl; destruct (decide (x = z)) as [->|]; lia).
      destruct (si_next _ _ _ I k x l Hkx Hl') as (o & Eo & Ho). exists o. split; [done|].
      eapply is_next_ext; [|done]. intros x'. unfold upd. destruct (decide (x' = z)) as [->|]; [lia|done].
  - exact (si_fresh _ _ _ I).
  - exact (si_count _ _ _ I).
  - intros l [o Hl]. rewrite HN. destruct (decide (z = y ∧ l = i)); [done|]. destruct (decide (z = z ∧ l = i)); [done|]. by rewrite Hl.
Qed.

Lemma RandomHeight_loop_range room : ∀ height seed,
  (height <= (RandomHeight_loop room height seed).1 <= height + room)%nat.
Proof.
  induction room as [|room IH]; intros height seed; cbn [RandomHeight_loop]; [simpl; lia|].
  destruct (Random.OneIn kBranching seed) as [[] seed']; [|simpl; lia]. specialize (IH (S height) seed'). lia.
Qed.

Lemma RandomHeight_range seed : (1 <= (RandomHeight seed).1 <= kMaxHeight)%nat.
Proof. unfold RandomHeight. pose proof (RandomHeight_loop_range (kMaxHeight - 1) 1 seed). unfold kMaxHeight in *. lia. Qed.

(** A node that is allocated with [h] levels of which [i] are linked; [prev] has the
    nodes to link from. *)
Definition linking (s : SkipList) (L : list nat) (hl : nat → nat) (z h : nat) (prev : list nat) (i : nat) : Prop :=
  sl_inv s L hl ∧ hl z = i ∧ (h <= max_height_ s)%nat ∧
  ∃ a, (head_ :: L) !! S a = Some z ∧
    ∀ l, (i <= l < h)%nat → is_Some (Next s z l) ∧ ∃ y, prev !! l = Some y ∧ link_from L hl a l y.

Lemma link_from_upd L hl a l y z i : NoDup (head_ :: L) → (head_ :: L) !! S a = Some z →
  link_from L hl a l y → link_from L (upd hl z i) a l y.
Proof.
  intros Hd Hz (k & Hk & Hka & Hl & Hm).
  assert (∀ m x, (m <= a)%nat → (head_ :: L) !! m = Some x → upd hl z i x = hl x) as Hu.
  { intros m x Hma Hx. unfold upd. rewrite decide_False; [done|]. intros ->.
    assert (m = S a) by (by eapply NoDup_lookup). lia. }
  exists k. split_and!; [done|done|by rewrite (Hu k)|]. intros m x Hma Hx. rewrite (Hu m) by (done || lia). by apply (Hm m).
Qed.

Lemma link_step s L hl z h prev i : linking s L hl z h prev i → (i < h)%nat →
  ∃ s', link_level s z prev i = Some s' ∧ linking s' L (upd hl z (S i)) z h prev (S i) ∧
    ∀ x, key_of s' x = key_of s x.
Proof.
  intros (I & Hi & Hh & a & Hz & Hl) Hlt. destruct (Hl i ltac:(lia)) as [Hn (y & Hp & Hf)].
  destruct (link_inv s L hl a z i y prev I Hz Hi Hn Hf Hp ltac:(lia)) as (s' & E & I' & Hk & Hm & Hn').
  exists s'. split; [done|]. split; [|done]. split; [done|]. split; [unfold upd; by rewrite decide_True|].
  split; [lia|]. exists a. split; [done|]. intros l Hll. destruct (Hl l ltac:(lia)) as [Hnl (y' & Hp' & Hf')].
  split; [by apply Hn'|]. exists y'. split; [done|]. apply link_from_upd; [apply I|done|done].
Qed.

(** No linked node has an equal key. *)
Definition absent (s : SkipList) (L : list nat) (key : K) : Prop :=
  ∀ x kx, x ∈ L → key_of s x = Some kx → compare_ kx key ≠ 0.

Lemma begin_spec s L hl key : sl_inv s L hl → (∀ x, x ∈ L → (0 < hl x)%nat) → absent s L key →
  ∃ s1 h prev a, insert_begin compare_ s key = Some (s1, fresh s, h, prev) ∧ (1 <= h)%nat ∧ (a <= length L)%nat ∧
    linking s1 (insert_after L a (fresh s)) (upd hl (fresh s) 0) (fresh s) h prev 0 ∧
    key_of s1 (fresh s) = Some key ∧ (∀ x, x ∈ head_ :: L → x ≠ fresh s ∧ key_of s1 x = key_of s x).
Proof.
  intros I Hpos Habs. unfold insert_begin.
  destruct (FindGreaterOrEqual_spec s L hl key I) as (o & prev & a & -> & Hlen & (Hal & Hsm & Hns & _) & Hpr).
  cbn [mbind option_bind]. pose proof (RandomHeight_range (rnd_ s)) as Hh. pose proof (si_height _ _ _ I) as Hmh.
  destruct (RandomHeight (rnd_ s)) as [h rnd]. cbn [fst] in Hh.
  set (mh := if (max_height_ s <? h)%nat then h else max_height_ s).
  assert (max_height_ s <= mh <= kMaxHeight ∧ h <= mh)%nat as [Hm1 Hm2].
  { unfold mh. destruct (Nat.ltb_spec (max_height_ s) h); lia. }
  set (prev' := if (max_height_ s <? h)%nat then _ else _). simpl in Hal.
  assert (∀ j y ky, (a < j)%nat → (head_ :: L) !! j = Some y → key_of s y = Some ky → 0 < compare_ ky key) as Hgt.
  { intros j y ky Hj Hy Hky. assert (y ∈ L) as HyL by (eapply N_elem; [done|lia]).
    pose proof (Hns j y ky Hj Hy (Hpos y HyL) Hky). pose proof (Habs y ky HyL Hky). lia. }
  destruct (alloc_inv s L hl a key h mh rnd I ltac:(lia) Hsm Hgt Hm1) as (I1 & Hkz & Hnz & Hold).
  eexists _, h, prev', a. split; [done|]. split; [lia|]. split; [lia|].
  split; [|split; [done|exact Hold]].
  split; [done|]. split; [unfold upd; by rewrite decide_True|]. split; [done|]. exists a.
  assert ((head_ :: insert_after L a (fresh s)) !! S a = Some (fresh s)) as Hz.
  { rewrite lookup_insert_after by lia. rewrite decide_False by lia. by rewrite decide_True. }
  split; [done|]. intros l Hl. split; [apply Hnz; lia|].
  assert (∃ y k, prev' !! l = Some y ∧ (head_ :: L) !! k = Some y ∧ (k <= a)%nat ∧ (l < hl y)%nat ∧
    ∀ m x, (k < m <= a)%nat → (head_ :: L) !! m = Some x → (hl x <= l)%nat) as (y & k & Hp & Hk & Hka & Hly & Hmid).
  { destruct (Nat.lt_ge_cases l (max_height_ s)) as [Hlt|Hge].
    - destruct (Hpr l Hlt) as (y & Hp & k & Hk & Hsk & Hly & Hnk). exists y, k. split_and!; try done.
      + unfold prev'. destruct (max_height_ s <? h)%nat; [|done]. rewrite list_lookup_imap, Hp. simpl.
        destruct (Nat.leb_spec (max_height_ s) l); [lia|done].
      + destruct (decide (k <= a)%nat) as [|Hgt']; [done|]. destruct (node_key _ _ _ _ _ I Hk ltac:(lia)) as [ky Hky].
        pose proof (Hgt k y ky ltac:(lia) Hk Hky). pose proof (Hsk k y ky ltac:(lia) Hk Hky). lia.
      + intros m x Hm Hx. destruct (node_key _ _ _ _ _ I Hx ltac:(lia)) as [kx Hkx].
        pose proof (Hsm m x kx ltac:(lia) Hx Hkx) as Hs1.
        destruct (Nat.le_gt_cases (hl x) l) as [|Hg]; [done|]. pose proof (Hnk m x kx ltac:(lia) Hx Hg Hkx). lia.
    - exists head_, 0%nat. split_and!; [|done|lia|rewrite (si_head _ _ _ I); lia|].
      + unfold prev'. destruct (Nat.ltb_spec (max_height_ s) h); [|lia]. rewrite list_lookup_imap.
        destruct (lookup_lt_is_Some_2 prev l) as [p ->]; [lia|]. simpl.
        destruct (Nat.leb_spec (max_height_ s) l); [|lia]. destruct (Nat.ltb_spec l h); [done|lia].
      + intros m x Hm Hx. assert (x ∈ L) as HxL by (eapply N_elem; [done|lia]).
        pose proof (si_le _ _ _ I x HxL). lia. }
  assert (∀ m x, (m <= a)%nat → (head_ :: insert_after L a (fresh s)) !! m = Some x → (head_ :: L) !! m = Some x ∧ upd hl (fresh s) 0 x = hl x) as Hu.
  { intros m x Hm. rewrite lookup_insert_after by lia. rewrite decide_True by done. intros Hx. split; [done|].
    unfold upd. rewrite decide_False; [done|]. apply Hold. by apply list_elem_of_lookup_2 in Hx. }
  exists y. split; [done|]. exists k.
  assert ((head_ :: insert_after L a (fresh s)) !! k = Some y) as Hk'.
  { rewrite lookup_insert_after by lia. by rewrite decide_True. }
  destruct (Hu k y Hka Hk') as [_ Huy]. split_and!; [done|done|by rewrite Huy|].
  intros m x Hm Hx. destruct (Hu m x ltac:(lia) Hx) as [Hx' ->]. by apply (Hmid m).
Qed.

Lemma sl_inv_ext s L hl hl' : (∀ x, hl x = hl' x) → sl_inv s L hl → sl_inv s L hl'.
Proof.
  intros Hu [H1 H2 H3 H4 H5 H6 H7 H8 H9]. split; try done; [by rewrite <-Hu|intros x Hx; rewrite <-Hu; by apply H4|].
  intros k x l Hk Hlx. rewrite <-Hu in Hlx. destruct (H7 k x l Hk Hlx) as (o & Eo & Ho). exists o. split; [done|].
  eapply is_next_ext; [|done]. intros x'. by rewrite Hu.
Qed.

Lemma upd_same hl z h : hl z = h → ∀ x, hl x = upd hl z h x.
Proof. intros Hz x. unfold upd. destruct (decide (x = z)) as [->|]; done. Qed.

Lemma upd_upd hl z i h x : upd (upd hl z i) z h x = upd hl z h x.
Proof. unfold upd. destruct (decide (x = z)); done. Qed.

Lemma link_levels_spec z h prev : ∀ n i s L hl, linking s L hl z h prev i → (i + n = h)%nat →
  ∃ s', link_levels s z prev (seq i n) = Some s' ∧ linking s' L (upd hl z h) z h prev h ∧ ∀ x, key_of s' x = key_of s x.
Proof.
  induction n as [|n IH]; intros i s L hl Hl Hn.
  - assert (i = h) as -> by lia. exists s. split; [done|]. split; [|done].
    destruct Hl as (I & Hz & Hh & a & Ha & Hr). split; [by eapply sl_inv_ext, I; apply upd_same|].
    split; [unfold upd; by rewrite decide_True|]. split; [done|]. exists a. split; [done|]. intros l Hll. lia.
  - destruct (link_step _ _ _ _ _ _ _ Hl ltac:(lia)) as (s1 & E1 & Hl1 & Hk1).
    destruct (IH (S i) s1 L _ Hl1 ltac:(lia)) as (s2 & E2 & (I2 & H2) & Hk2).
    exists s2. cbn [seq link_levels]. rewrite E1. cbn [mbind option_bind]. split; [done|]. split; [|intros x; by rewrite Hk2].
    destruct H2 as (H2 & H3 & a & Ha & Hr). split; [eapply sl_inv_ext, I2; apply upd_upd|].
    split; [unfold upd; by rewrite decide_True|]. split; [done|]. exists a. split; [done|]. intros l Hll. lia.
Qed.

Lemma FindLessThan_loop_spec s L hl key : sl_inv s L hl → ∀ fuel x l k,
  (head_ :: L) !! k = Some x → smaller_upto s L key k → (l < hl x)%nat → (l + length (head_ :: L) - k <= fuel)%nat →
  ∃ y k', FindLessThan_loop compare_ fuel s key x l = Some y ∧ (head_ :: L) !! k' = Some y ∧
    smaller_upto s L key k' ∧ not_smaller_after s L hl key 0 k'.
Proof.
  intros I. induction fuel as [|fuel IH]; intros x l k Hk Hsm Hl Hf; [apply lookup_lt_Some in Hk; lia|].
  cbn [FindLessThan_loop]. pose proof (lookup_lt_Some _ _ _ Hk) as Hkl.
  destruct (step_cases s L hl key k x l I Hk Hsm Hl) as (o & Eo & Hn & [(Ek & n & k' & -> & Hkk & Hk' & Hsm' & Hln)|(Ek & Hns)]);
    rewrite Eo; cbn [mbind option_bind].
  - simpl in Ek. destruct (key_of s n) as [kn|]; [cbn [mbind option_bind]|done].
    apply Z.ltb_lt in Ek. destruct (Z.geb_spec (compare_ kn key) 0); [lia|]. apply (IH n l k'); try done. lia.
  - destruct o as [n|].
    + destruct Hn as (j & Hkj & Hj & _). destruct (node_key _ _ _ _ _ I Hj ltac:(lia)) as [kn Hkn].
      simpl in Ek. rewrite Hkn in *. cbn [mbind option_bind]. apply Z.ltb_ge in Ek.
      destruct (Z.geb_spec (compare_ kn key) 0); [|lia].
      destruct l as [|l]; [by exists x, k|]. apply (IH x l k); try done; lia.
    + destruct l as [|l]; [by exists x, k|]. apply (IH x l k); try done; lia.
Qed.

Lemma FindLessThan_spec s L hl key : sl_inv s L hl →
  ∃ y k, FindLessThan compare_ s key = Some y ∧ (head_ :: L) !! k = Some y ∧
    smaller_upto s L key k ∧ not_smaller_after s L hl key 0 k.
Proof.
  intros I. unfold FindLessThan. pose proof (si_height _ _ _ I). pose proof (si_count _ _ _ I).
  apply (FindLessThan_loop_spec s L hl key I _ head_ _ 0); [done|apply smaller_upto_0|rewrite (si_head _ _ _ I); lia|].
  unfold search_fuel. simpl. lia.
Qed.

Lemma FindLast_loop_spec s L hl : sl_inv s L hl → (∀ x, x ∈ L → (0 < hl x)%nat) → ∀ fuel x l k,
  (head_ :: L) !! k = Some x → (l < hl x)%nat → (l + length (head_ :: L) - k <= fuel)%nat →
  ∃ y, FindLast_loop fuel s x l = Some y ∧ (head_ :: L) !! length L = Some y.
Proof.
  intros I Hpos. induction fuel as [|fuel IH]; intros x l k Hk Hl Hf; [apply lookup_lt_Some in Hk; lia|].
  cbn [FindLast_loop]. pose proof (lookup_lt_Some _ _ _ Hk) as Hkl.
  destruct (si_next _ _ _ I k x l Hk Hl) as ([n|] & Eo & Hn); rewrite Eo; cbn [mbind option_bind]; simpl in Hn.
  - destruct Hn as (j & Hkj & Hj & Hlj & _). apply (IH n l j); try done. lia.
  - destruct l as [|l]; [|apply (IH x l k); try done; lia]. exists x. split; [done|].
    simpl in Hkl. destruct (decide (k = length L)) as [->|Hne]; [done|].
    destruct (lookup_lt_is_Some_2 (head_ :: L) (S k)) as [y Hy]; [simpl; lia|].
    pose proof (Hn (S k) y ltac:(lia) Hy). pose proof (Hpos y (N_elem _ _ _ Hy ltac:(lia))). lia.
Qed.

(** ** Lists of keys *)

(** The list holds exactly these keys, in order, and no insertion is under way. *)
Definition holds (s : SkipList) (ks : list K) (L : list nat) : Prop :=
  (∃ hl, sl_inv s L hl ∧ ∀ x, x ∈ L → (0 < hl x)%nat) ∧ Forall2 (λ x k, key_of s x = Some k) L ks.

Definition keys_sorted (ks : list K) : Prop :=
  ∀ i j a b, (i < j)%nat → ks !! i = Some a → ks !! j = Some b → compare_ a b < 0.

Lemma holds_sorted s ks L : holds s ks L → keys_sorted ks.
Proof.
  intros [(hl & I & _) HF] i j a b Hij Hi Hj.
  destruct (Forall2_lookup_r _ _ _ _ _ HF Hi) as (x & Hx & Hkx).
  destruct (Forall2_lookup_r _ _ _ _ _ HF Hj) as (y & Hy & Hky). by apply (si_sorted _ _ _ I i j x y).
Qed.

Lemma NewSkipList_holds : holds NewSkipList [] [].
Proof.
  split; [|constructor]. exists (λ x, if decide (x = head_) then kMaxHeight else 0%nat).
  split; [apply NewSkipList_inv|]. by intros x ?%not_elem_of_nil.
Qed.

Lemma Insert_holds s ks L key : holds s ks L → (∀ k, k ∈ ks → compare_ k key ≠ 0) →
  ∃ s' a, Insert compare_ s key = Some s' ∧ (a <= length ks)%nat ∧
    holds s' (take a ks ++ key :: drop a ks) (insert_after L a (fresh s)).
Proof.
  intros [(hl & I & Hpos) HF] Hne.
  assert (absent s L key) as Habs.
  { intros x kx Hx Hkx. apply list_elem_of_lookup_1 in Hx as [i Hi].
    destruct (Forall2_lookup_l _ _ _ _ _ HF Hi) as (k & Hk & Hkk). rewrite Hkk in Hkx. injection Hkx as <-.
    apply Hne. by apply list_elem_of_lookup_2 in Hk. }
  destruct (begin_spec s L hl key I Hpos Habs) as (s1 & h & prev & a & Eb & Hh & Ha & Hl & Hkz & Hold).
  destruct (link_levels_spec (fresh s) h prev h 0 s1 _ _ Hl ltac:(lia)) as (s2 & E2 & (I2 & _) & Hk2).
  pose proof (Forall2_length _ _ _ HF) as Hlen.
  exists s2, a. unfold Insert. rewrite Eb. cbn [mbind option_bind]. split; [done|]. split; [lia|]. split.
  - eexists. split; [done|]. intros x Hx. unfold upd. destruct (decide (x = fresh s)); [lia|].
    apply Hpos. by apply elem_insert_after in Hx as [|].
  - assert (Forall2 (λ x k, key_of s2 x = Some k) L ks) as HF2.
    { apply Forall2_same_length_lookup_2; [done|]. intros i x k Hx Hk. rewrite Hk2.
      rewrite (proj2 (Hold x (list_elem_of_further _ _ _ (list_elem_of_lookup_2 _ _ _ Hx)))).
      destruct (Forall2_lookup_l _ _ _ _ _ HF Hx) as (k' & Hk' & E). congruence. }
    unfold insert_after. apply Forall2_app; [by apply Forall2_take|]. constructor; [by rewrite Hk2|by apply Forall2_drop].
Qed.

(** ** Iteration *)

Lemma Next_0 s L hl k x : sl_inv s L hl → (∀ x, x ∈ L → (0 < hl x)%nat) → (head_ :: L) !! k = Some x →
  Next s x 0 = Some (L !! k).
Proof.
  intros I Hpos Hk. assert (0 < hl x)%nat as Hx.
  { destruct k as [|k]; [simpl in Hk; injection Hk as <-; rewrite (si_head _ _ _ I); unfold kMaxHeight; lia|].
    apply Hpos, (N_elem L (S k)); [done|lia]. }
  destruct (si_next _ _ _ I k x 0%nat Hk Hx) as (o & -> & Hn). f_equal. destruct o as [n|]; simpl in Hn.
  - destruct Hn as (j & Hkj & Hj & _ & Hmid). destruct (decide (j = S k)) as [->|]; [done|].
    destruct (lookup_lt_is_Some_2 (head_ :: L) (S k)) as [y Hy]; [apply lookup_lt_Some in Hj; lia|].
    pose proof (Hmid (S k) y ltac:(lia) Hy). pose proof (Hpos y (N_elem _ _ _ Hy ltac:(lia))). lia.
  - destruct (L !! k) as [y|] eqn:Hy; [|done].
    pose proof (Hn (S k) y ltac:(lia) Hy). pose proof (Hpos y (N_elem L (S k) y Hy ltac:(lia))). lia.
Qed.

Definition is_lower_bound (ks : list K) (target : K) (m : nat) : Prop :=
  (m <= length ks)%nat ∧ (∀ i k, ks !! i = Some k → (i < m)%nat → compare_ k target < 0) ∧
  (∀ i k, ks !! i = Some k → (m <= i)%nat → 0 <= compare_ k target).

(** What the iterator shows of a list: [node i] is the iterator on the [i]-th key. *)
Record iterates (s : SkipList) (ks : list K) (node : nat → Iterator) : Prop := {
  it_valid i : IterValid (node i) = bool_decide (i < length ks)%nat;
  it_key i : IterKey s (node i) = ks !! i;
  it_first : IterSeekToFirst s = Some (node 0%nat);
  it_last : IterSeekToLast s = Some (node (pred (length ks)));
  it_next i : (i < length ks)%nat → IterNext s (node i) = Some (node (S i));
  it_prev i : (i < length ks)%nat → IterPrev compare_ s (node i) = Some (match i with O => None | S i => node i end);
  it_seek target : ∃ m, is_lower_bound ks target m ∧ IterSeek compare_ s target = Some (node m);
}.

Lemma key_at s (ks : list K) L k x : Forall2 (λ x k, key_of s x = Some k) L ks → (head_ :: L) !! S k = Some x →
  ∃ kx, key_of s x = Some kx ∧ ks !! k = Some kx.
Proof. intros HF Hx. destruct (Forall2_lookup_l _ _ _ _ _ HF Hx) as (kx & ? & ?). eauto. Qed.

Lemma keys_at s (ks : list K) L k kx : Forall2 (λ x k, key_of s x = Some k) L ks → ks !! k = Some kx →
  ∃ x, (head_ :: L) !! S k = Some x ∧ key_of s x = Some kx.
Proof. intros HF Hx. destruct (Forall2_lookup_r _ _ _ _ _ HF Hx) as (x & ? & ?). eauto. Qed.

Lemma head_not_in s L hl k x : sl_inv s L hl → (head_ :: L) !! S k = Some x → x ≠ head_.
Proof. intros I Hx ->. assert (S k = 0%nat) by (eapply N_inj; [done|done|done]). lia. Qed.

(** The place the searches find is the lower bound. *)
Lemma found_lower_bound s ks L hl target k : sl_inv s L hl → (∀ x, x ∈ L → (0 < hl x)%nat) →
  Forall2 (λ x k, key_of s x = Some k) L ks → (k <= length L)%nat →
  smaller_upto s L target k → not_smaller_after s L hl target 0 k → is_lower_bound ks target k.
Proof.
  intros I Hpos HF Hk Hsm Hns. split; [by rewrite <-(Forall2_length _ _ _ HF)|]. split; intros i kx Hi Hlt.
  - destruct (keys_at s ks L i kx HF Hi) as (x & Hx & Hkx). apply (Hsm (S i) x kx); [lia|done|done].
  - destruct (keys_at s ks L i kx HF Hi) as (x & Hx & Hkx).
    apply (Hns (S i) x kx); [lia|done|apply Hpos, (N_elem L (S i)); [done|lia]|done].
Qed.

Lemma holds_iterates s ks L : holds s ks L → iterates s ks (λ i, L !! i).
Proof.
  intros [(hl & I & Hpos) HF]. pose proof (Forall2_length _ _ _ HF) as Hlen. split.
  - intros i. destruct (L !! i) as [x|] eqn:E; simpl.
    + rewrite bool_decide_eq_true_2; [done|]. apply lookup_lt_Some in E. lia.
    + rewrite bool_decide_eq_false_2; [done|]. apply lookup_ge_None in E. lia.
  - intros i. unfold IterKey. destruct (L !! i) as [x|] eqn:E; cbn [mbind option_bind].
    + destruct (Forall2_lookup_l _ _ _ _ _ HF E) as (k & -> & ->). done.
    + symmetry. apply lookup_ge_None. apply lookup_ge_None in E. lia.
  - unfold IterSeekToFirst. by eapply Next_0.
  - unfold IterSeekToLast, FindLast. pose proof (si_height _ _ _ I). pose proof (si_count _ _ _ I).
    destruct (FindLast_loop_spec s L hl I Hpos (search_fuel s) head_ (max_height_ s - 1) 0) as (y & -> & Hy);
      [done|rewrite (si_head _ _ _ I); lia|unfold search_fuel; simpl; lia|].
    cbn [mbind option_bind]. rewrite <-Hlen. destruct L as [|x L'].
    + simpl in Hy. injection Hy as <-. by rewrite decide_True.
    + rewrite decide_False; [|by eapply (head_not_in s _ hl (length L'))]. simpl in Hy |- *. by rewrite Hy.
  - intros i Hi. unfold IterNext. destruct (lookup_lt_is_Some_2 L i) as [x Hx]; [lia|]. rewrite Hx. cbn [mbind option_bind].
    by apply (Next_0 s L hl (S i)).
  - intros i Hi. unfold IterPrev. destruct (lookup_lt_is_Some_2 L i) as [x Hx]; [lia|]. rewrite Hx. cbn [mbind option_bind].
    destruct (Forall2_lookup_l _ _ _ _ _ HF Hx) as (kx & Hkx & ->). cbn [mbind option_bind].
    destruct (FindLessThan_spec s L hl kx I) as (y & k & -> & Hy & Hsm & Hns). cbn [mbind option_bind].
    assert (k = i) as ->.
    { pose proof (lookup_lt_Some _ _ _ Hy) as Hkl. simpl in Hkl.
      destruct (found_lower_bound s ks L hl kx k I Hpos HF ltac:(lia) Hsm Hns) as (_ & H1 & H2).
      pose proof (ko_antisym kx kx).
      destruct (Nat.lt_trichotomy k i) as [Hlt|[->|Hgt]]; [|done|].
      - destruct (lookup_lt_is_Some_2 ks k) as [kk Hkk]; [lia|]. pose proof (H2 k kk Hkk ltac:(lia)).
        destruct (keys_at s ks L k kk HF Hkk) as (x1 & Hx1 & Hkx1). destruct (keys_at s ks L i kx HF Hkx) as (x2 & Hx2 & Hkx2).
        pose proof (sorted_N s L hl (S k) (S i) x1 x2 kk kx I ltac:(lia) Hx1 Hx2 Hkx1 Hkx2). lia.
      - pose proof (H1 i kx Hkx ltac:(lia)). lia. }
    destruct i as [|i]; [simpl in Hy; injection Hy as <-; by rewrite decide_True|].
    rewrite decide_False by (by eapply head_not_in). by rewrite <-Hy.
  - intros target. unfold IterSeek.
    destruct (FindGreaterOrEqual_spec s L hl target I) as (o & prev & k & -> & _ & (Hkl & Hsm & Hns & Hn) & _).
    simpl in Hkl. exists k. split; [apply (found_lower_bound s ks L hl); try done; lia|]. simpl. f_equal.
    destruct (lookup_lt_is_Some_2 (head_ :: L) k) as [x Hx]; [simpl; lia|].
    pose proof (Next_0 s L hl k x I Hpos Hx) as E0.
    destruct o as [n|]; simpl in Hn.
    + destruct Hn as (j & Hkj & Hj & _ & Hmid). destruct (decide (j = S k)) as [->|]; [done|].
      destruct (lookup_lt_is_Some_2 (head_ :: L) (S k)) as [y Hy]; [apply lookup_lt_Some in Hj; lia|].
      pose proof (Hmid (S k) y ltac:(lia) Hy). pose proof (Hpos y (N_elem _ _ _ Hy ltac:(lia))). lia.
    + symmetry. apply lookup_ge_None. destruct (Nat.le_gt_cases (length L) k) as [|Hlt]; [done|].
      destruct (lookup_lt_is_Some_2 (head_ :: L) (S k)) as [y Hy]; [simpl; lia|].
      pose proof (Hn (S k) y ltac:(lia) Hy). pose proof (Hpos y (N_elem _ _ _ Hy ltac:(lia))). lia.
Qed.

Lemma Contains_holds s ks L key : holds s ks L →
  ∃ b, Contains compare_ s key = Some b ∧ (b = true ↔ ∃ k, k ∈ ks ∧ compare_ key k = 0).
Proof.
  intros Hh. pose proof (holds_iterates s ks L Hh) as It. destruct (it_seek _ _ _ It key) as (m & (Hm & Hlt & Hge) & Hs).
  unfold IterSeek in Hs. unfold Contains. destruct (FindGreaterOrEqual compare_ s key) as [[o prev]|]; [|done].
  injection Hs as ->. cbn [mbind option_bind]. pose proof (it_key _ _ _ It m) as Hk. unfold IterKey in Hk.
  assert (∀ k, k ∈ ks → compare_ key k = 0 → ∃ km, ks !! m = Some km ∧ compare_ key km = 0) as Heq.
  { intros k [i Hi]%list_elem_of_lookup_1 Hc. pose proof (ko_antisym key k).
    destruct (Nat.lt_trichotomy i m) as [H1|[->|H1]]; [|by exists k|].
    - pose proof (Hlt i k Hi H1). lia.
    - destruct (lookup_lt_is_Some_2 ks m) as [km Hkm]; [apply lookup_lt_Some in Hi; lia|].
      pose proof (Hge m km Hkm ltac:(lia)) as H2. pose proof (holds_sorted s ks L Hh m i km k H1 Hkm Hi) as H3.
      pose proof (ko_trans k key km). pose proof (ko_antisym km key). pose proof (ko_antisym km k). lia. }
  destruct (L !! m) as [x|] eqn:Ex; cbn [mbind option_bind] in Hk |- *.
  - destruct (key_of s x) as [km|].
    + cbn [mbind option_bind]. exists (compare_ key km =? 0). split; [done|]. rewrite Z.eqb_eq. symmetry in Hk. split.
      * intros Hc. exists km. split; [by apply list_elem_of_lookup_2 in Hk|done].
      * intros (k & Hin & Hc). destruct (Heq k Hin Hc) as (km' & Hkm' & Hc'). congruence.
    + exfalso. apply lookup_lt_Some in Ex. destruct Hh as [_ HF]. rewrite (Forall2_length _ _ _ HF) in Ex.
      symmetry in Hk. apply lookup_ge_None in Hk. lia.
  - exists false. split; [done|]. split; [done|]. intros (k & Hin & Hc). destruct (Heq k Hin Hc) as (km & Hkm & _). congruence.
Qed.

Fixpoint inserts (s : SkipList) (ks : list K) : option SkipList :=
  match ks with
  | [] => Some s
  | k :: ks => s ← Insert compare_ s k; inserts s ks
  end.

Definition distinct (ks : list K) : Prop :=
  ∀ i j a b, (i < j)%nat → ks !! i = Some a → ks !! j = Some b → compare_ a b ≠ 0.

Lemma inserts_holds ks : ∀ s old L, holds s old L → distinct ks → (∀ x k, x ∈ old → k ∈ ks → compare_ x k ≠ 0) →
  ∃ s' sorted L', inserts s ks = Some s' ∧ sorted ≡ₚ old ++ ks ∧ holds s' sorted L'.
Proof.
  induction ks as [|k ks IH]; intros s old L Hh Hd Hne.
  { exists s, old, L. by rewrite app_nil_r. }
  destruct (Insert_holds s old L k Hh) as (s1 & a & E1 & Ha & Hh1).
  { intros x Hx. apply Hne; [done|left]. }
  assert (take a old ++ k :: drop a old ≡ₚ k :: old) as Hp by (by rewrite <-Permutation_middle, take_drop).
  destruct (IH s1 _ _ Hh1) as (s2 & sorted & L2 & E2 & Hp2 & Hh2).
  - intros i j x y Hij Hi Hj. apply (Hd (S i) (S j)); [lia|done|done].
  - intros x y Hx Hy. rewrite Hp in Hx. apply elem_of_cons in Hx as [->|Hx]; [|apply Hne; [done|by right]].
    apply list_elem_of_lookup_1 in Hy as [j Hj]. apply (Hd 0%nat (S j)); [lia|done|done].
  - exists s2, sorted, L2. cbn [inserts]. rewrite E1. cbn [mbind option_bind]. split_and!; [done| |done].
    rewrite Hp2, Hp. apply Permutation_middle.
Qed.

End Facts.

(** ** A search that runs while keys are inserted *)

Section Concurrent.
  Context {K : Type} {compare_ : K → K → Z} {KO : KeyOrder compare_}.

(** What the writer is doing: nothing, or linking a node at its levels. *)
Inductive Writer := Idle | Linking (z height : nat) (prev : list nat) (i : nat).

(** The keys that a traversal of the bottom level meets. *)
Definition inserted (s : SkipList) (key : K) : Prop :=
  ∃ x, rtc (λ x y, Next s x 0 = Some (Some y)) head_ x ∧ key_of s x = Some key.

(** The writer's atomic steps: it starts an insertion of a key that is not in the
    list, links one level, or is done. *)
Inductive write_step : SkipList * Writer → SkipList * Writer → Prop :=
  | step_begin s k s' z h prev :
      (∀ k', inserted s k' → compare_ k' k ≠ 0) →
      insert_begin compare_ s k = Some (s', z, h, prev) → write_step (s, Idle) (s', Linking z h prev 0)
  | step_link s z h prev i s' :
      (i < h)%nat → link_level s z prev i = Some s' →
      write_step (s, Linking z h prev i) (s', Linking z h prev (S i))
  | step_end s z h prev : write_step (s, Linking z h prev h) (s, Idle).

(** A reader that searches [key] beside the writer: the writer steps, or the reader
    makes one pass of its loop. *)
Inductive step (key : K) : SkipList * Writer * Search → SkipList * Writer * Search → Prop :=
  | step_write c c' r : write_step c c' → step key (c, r) (c', r)
  | step_read s w x l r : search_step compare_ s key x l = Some r → step key (s, w, At x l) (s, w, r).

(** The bottom level chains the linked nodes. *)
Lemma chain_linked (s : SkipList) L hl x : sl_inv (compare_ := compare_) s L hl →
  rtc (λ x y, Next s x 0 = Some (Some y)) head_ x ↔ x ∈ head_ :: L ∧ (0 < hl x)%nat.
Proof.
  intros I. assert (0 < hl head_)%nat as Hh by (rewrite (si_head _ _ _ I); unfold kMaxHeight; lia). split.
  - intros Hr. apply rtc_ind_r with (P := λ x, x ∈ head_ :: L ∧ (0 < hl x)%nat) in Hr; [done|split; [left|done]|].
    intros y z _ Hn [Hy Hl]. apply list_elem_of_lookup_1 in Hy as [k Hk].
    destruct (si_next _ _ _ I k y 0%nat Hk Hl) as (o & E & Ho). rewrite Hn in E. injection E as <-.
    destruct Ho as (j & _ & Hj & Hlj & _). split; [by apply list_elem_of_lookup_2 in Hj|done].
  - intros [Hx Hl]. apply list_elem_of_lookup_1 in Hx as [k Hk].
    assert (∀ k, (k < length (head_ :: L))%nat → ∃ j y, (j <= k)%nat ∧ (head_ :: L) !! j = Some y ∧ (0 < hl y)%nat ∧
      rtc (λ x y, Next s x 0 = Some (Some y)) head_ y ∧
      ∀ m z, (j < m <= k)%nat → (head_ :: L) !! m = Some z → hl z = 0%nat) as Hall.
    { clear k x Hk Hl. induction k as [|k IH]; intros Hk.
      - exists 0%nat, head_. split_and!; [done|done|done|apply rtc_refl|lia].
      - destruct IH as (j & y & Hj & Hy & Hly & Hr & Hz); [lia|].
        destruct (lookup_lt_is_Some_2 (head_ :: L) (S k) Hk) as [x Hx].
        destruct (decide (hl x = 0%nat)) as [E0|E0].
        + exists j, y. split_and!; try done; [lia|]. intros m z Hm Hzm.
          destruct (decide (m = S k)) as [->|]; [congruence|]. apply (Hz m); [lia|done].
        + exists (S k), x. split_and!; try done; [lia| |lia]. eapply rtc_r; [done|].
          destruct (si_next _ _ _ I j y 0%nat Hy Hly) as (o & -> & Ho). destruct o as [n|]; simpl in Ho.
          * destruct Ho as (j' & Hjj & Hj' & Hl' & Hmid). destruct (Nat.lt_trichotomy j' (S k)) as [Hlt|[->|Hgt]].
            -- pose proof (Hz j' n ltac:(lia) Hj'). lia.
            -- congruence.
            -- pose proof (Hmid (S k) x ltac:(lia) Hx). lia.
          * pose proof (Ho (S k) x ltac:(lia) Hx). lia. }
    destruct (Hall k) as (j & y & Hj & Hy & _ & Hr & Hz); [by apply lookup_lt_Some in Hk|].
    destruct (decide (j = k)) as [->|]; [congruence|]. pose proof (Hz k x ltac:(lia) Hk). lia.
Qed.

Lemma inserted_iff s L hl k : sl_inv (compare_ := compare_) s L hl → key_of s head_ = None →
  inserted s k ↔ ∃ x, x ∈ L ∧ (0 < hl x)%nat ∧ key_of s x = Some k.
Proof.
  intros I Hh. split.
  - intros (x & Hr & Hk). apply (chain_linked s L hl) in Hr as [Hx Hl]; [|done].
    apply elem_of_cons in Hx as [->|Hx]; [congruence|]. eauto.
  - intros (x & Hx & Hl & Hk). exists x. split; [|done]. apply (chain_linked s L hl); [done|]. split; [by right|done].
Qed.

Definition writer_inv (s : SkipList) (w : Writer) (L : list nat) (hl : nat → nat) : Prop :=
  sl_inv (compare_ := compare_) s L hl ∧ key_of s head_ = None ∧
  match w with
  | Idle => ∀ x, x ∈ L → (0 < hl x)%nat
  | Linking z h prev i => linking (compare_ := compare_) s L hl z h prev i ∧ (1 <= h)%nat ∧
      ∀ x, x ∈ L → x ≠ z → (0 < hl x)%nat
  end.

Definition reader_inv (s : SkipList) (key : K) (r : Search) (L : list nat) (hl : nat → nat) : Prop :=
  match r with
  | At x l => x ∈ head_ :: L ∧ (l < hl x)%nat ∧ (x = head_ ∨ ∃ kx, key_of s x = Some kx ∧ compare_ kx key < 0)
  | Found _ => True
  end.

(** What a step of the writer keeps for readers. *)
Definition grows (s : SkipList) (L : list nat) (hl : nat → nat) (s' : SkipList) (L' : list nat) (hl' : nat → nat) : Prop :=
  ∀ x, x ∈ head_ :: L → x ∈ head_ :: L' ∧ (hl x <= hl' x)%nat ∧ key_of (K := K) s' x = key_of s x.

Lemma grows_refl s L hl : grows s L hl s L hl.
Proof. by intros x Hx. Qed.

Lemma grows_reader s key r L hl s' L' hl' : grows s L hl s' L' hl' → reader_inv s key r L hl → reader_inv s' key r L' hl'.
Proof.
  intros Hg. destruct r as [x l|]; [|done]. intros (Hx & Hl & Hk). destruct (Hg x Hx) as (Hx' & Hl' & Hk').
  split; [done|]. split; [lia|]. destruct Hk as [->|(kx & Hkx & Hc)]; [by left|right]. exists kx. by rewrite Hk'.
Qed.

Lemma reader_smaller s key x l L hl : sl_inv (compare_ := compare_) s L hl → reader_inv s key (At x l) L hl →
  ∃ k, (head_ :: L) !! k = Some x ∧ smaller_upto (compare_ := compare_) s L key k ∧ (l < hl x)%nat.
Proof.
  intros I (Hx & Hl & Hk). apply list_elem_of_lookup_1 in Hx as [k Hkx]. exists k. split; [done|]. split; [|done].
  destruct Hk as [->|(kx & Ek & Hc)].
  - assert (k = 0%nat) as -> by (by eapply N_inj). apply smaller_upto_0.
  - intros j y ky Hj Hy Hky. destruct (decide (j = k)) as [->|]; [congruence|].
    eapply ko_lt_trans; [|done]. apply (sorted_N s L hl j k y x ky kx I); [lia|done..].
Qed.

(** The answer of a search: the least key that is not smaller. *)
Definition answers (s : SkipList) (key : K) (o : option nat) : Prop :=
  match o with
  | Some n => ∃ kn, key_of s n = Some kn ∧ inserted s kn ∧ 0 <= compare_ kn key ∧
      ∀ k, inserted s k → compare_ k key < 0 ∨ compare_ kn k <= 0
  | None => ∀ k, inserted s k → compare_ k key < 0
  end.

Lemma reader_step s key x l L hl : sl_inv (compare_ := compare_) s L hl → key_of s head_ = None →
  reader_inv s key (At x l) L hl →
  ∃ r, search_step compare_ s key x l = Some r ∧ reader_inv s key r L hl ∧
    (∀ o, r = Found o → answers s key o).
Proof.
  intros I Hhd Hr. destruct (reader_smaller s key x l L hl I Hr) as (k & Hk & Hsm & Hl). destruct Hr as (Hx & _ & Hxk).
  unfold search_step.
  destruct (step_cases s L hl key k x l I Hk Hsm Hl) as (o & Eo & Hn & [(Ek & n & k' & -> & Hkk & Hk' & Hsm' & Hln)|(Ek & Hns)]);
    rewrite Eo; cbn [mbind option_bind]; rewrite Ek.
  - exists (At n l). split; [done|]. split; [|done]. split; [by apply list_elem_of_lookup_2 in Hk'|]. split; [done|].
    right. destruct (node_key _ _ _ _ _ I Hk' ltac:(lia)) as [kn Hkn]. exists kn. split; [done|].
    apply (Hsm' k' n kn); [lia|done|done].
  - destruct l as [|l].
    + exists (Found o). split; [done|]. split; [done|]. intros o' [= <-].
      assert (∀ k', inserted s k' → compare_ k' key < 0 ∨ ∃ j y, (k < j)%nat ∧ (head_ :: L) !! j = Some y ∧
        (0 < hl y)%nat ∧ key_of s y = Some k') as Hcases.
      { intros k' (y & Hy & Hly & Hky)%(inserted_iff s L hl); [|done|done].
        apply list_elem_of_lookup_1 in Hy as [j Hj]. destruct (decide (S j <= k)%nat) as [Hle|Hgt].
        - left. apply (Hsm (S j) y k'); [lia|done|done].
        - right. exists (S j), y. split_and!; [lia|done..]. }
      destruct o as [n|]; simpl in Hn |- *.
      * destruct Hn as (j & Hkj & Hj & Hlj & Hmid). destruct (node_key _ _ _ _ _ I Hj ltac:(lia)) as [kn Hkn].
        exists kn. split; [done|]. split; [apply (inserted_iff s L hl); [done|done|]; exists n; split_and!; [eapply N_elem; [done|lia]|done|done]|].
        split; [by apply (Hns j n kn)|]. intros k' Hk'. destruct (Hcases k' Hk') as [|(j' & y & Hj' & Hy & Hly & Hky)]; [by left|right].
        destruct (Nat.lt_trichotomy j' j) as [Hlt|[->|Hgt]].
        -- pose proof (Hmid j' y ltac:(lia) Hy). lia.
        -- assert (k' = kn) as -> by congruence. pose proof (ko_antisym kn kn). lia.
        -- pose proof (sorted_N s L hl j j' n y kn k' I ltac:(lia) Hj Hy Hkn Hky). lia.
      * intros k' Hk'. destruct (Hcases k' Hk') as [|(j' & y & Hj' & Hy & Hly & _)]; [done|].
        pose proof (Hn j' y Hj' Hy). lia.
    + exists (At x l). split; [done|]. split; [|done]. split; [done|]. split; [lia|done].
Qed.

(** *** The writer *)

Lemma begin_step s L hl k s' z h prev : writer_inv s Idle L hl → (∀ k', inserted s k' → compare_ k' k ≠ 0) →
  insert_begin compare_ s k = Some (s', z, h, prev) →
  ∃ L' hl', writer_inv s' (Linking z h prev 0) L' hl' ∧ grows s L hl s' L' hl'.
Proof.
  intros (I & Hhd & Hpos) Habs E.
  destruct (begin_spec s L hl k I Hpos) as (s1 & h1 & prev1 & a & Eb & Hh & Ha & Hl & Hkz & Hold).
  { intros x kx Hx Hkx. apply Habs, (inserted_iff s L hl); [done|done|]. eauto. }
  rewrite E in Eb. injection Eb as -> -> -> ->. eexists _, _. split; [split; [apply Hl|split]|].
  - rewrite (proj2 (Hold head_ ltac:(left))). done.
  - split; [done|]. split; [done|]. intros x [->|Hx]%elem_insert_after Hne; [done|].
    unfold upd. rewrite decide_False by done. by apply Hpos.
  - intros x Hx. destruct (Hold x Hx) as [Hne Hkx]. split_and!; [|unfold upd; by rewrite decide_False|done].
    apply elem_of_cons in Hx as [->|Hx]; [left|right; apply elem_insert_after; by right].
Qed.

Lemma level_step s L hl z h prev i s' : writer_inv s (Linking z h prev i) L hl → (i < h)%nat →
  link_level s z prev i = Some s' →
  ∃ L' hl', writer_inv s' (Linking z h prev (S i)) L' hl' ∧ grows s L hl s' L' hl'.
Proof.
  intros (I & Hhd & Hl & Hh & Hpos) Hi E.
  destruct (link_step s L hl z h prev i Hl Hi) as (s1 & E1 & Hl1 & Hk). rewrite E in E1. injection E1 as <-.
  assert (∀ x, hl x <= upd hl z (S i) x)%nat as Hup.
  { intros x. unfold upd. destruct (decide (x = z)) as [->|]; [|done]. destruct Hl as (_ & -> & _). lia. }
  eexists L, _. split; [split; [apply Hl1|split; [by rewrite Hk|]]|].
  - split; [done|]. split; [done|]. intros x Hx Hne. pose proof (Hup x). pose proof (Hpos x Hx Hne). lia.
  - intros x Hx. done.
Qed.

Lemma end_step s L hl z h prev : writer_inv s (Linking z h prev h) L hl → writer_inv s Idle L hl.
Proof.
  intros (I & Hhd & (_ & Hz & _) & Hh & Hpos). split; [done|]. split; [done|]. intros x Hx.
  destruct (decide (x = z)) as [->|Hne]; [lia|by apply Hpos].
Qed.

Lemma write_step_inv s w s' w' L hl : write_step (s, w) (s', w') → writer_inv s w L hl →
  ∃ L' hl', writer_inv s' w' L' hl' ∧ grows s L hl s' L' hl'.
Proof.
  inversion 1; subst; intros I; [by eapply begin_step|by eapply level_step|]. exists L, hl.
  split; [by eapply end_step|apply grows_refl].
Qed.

Lemma writer_reaches s0 w0 s w L0 hl0 : rtc write_step (s0, w0) (s, w) → writer_inv s0 w0 L0 hl0 →
  ∃ L hl, writer_inv s w L hl.
Proof.
  intros Hr. remember (s0, w0) as c0 eqn:E0. remember (s, w) as c eqn:E. revert s0 w0 L0 hl0 E0.
  induction Hr as [c|c [s1 w1] c' Hs _ IH]; intros s0 w0 L0 hl0 -> I.
  - injection E as -> ->. eauto.
  - destruct (write_step_inv _ _ _ _ _ _ Hs I) as (L1 & hl1 & I1 & _). by eapply IH.
Qed.

Lemma grows_inserted s w L hl s' w' L' hl' k : writer_inv s w L hl → writer_inv s' w' L' hl' →
  grows s L hl s' L' hl' → inserted s k → inserted s' k.
Proof.
  intros (I & Hh & _) (I' & Hh' & _) Hg (x & Hx & Hl & Hk)%(inserted_iff s L hl); [|done|done].
  destruct (Hg x (list_elem_of_further _ _ _ Hx)) as (Hx' & Hl' & Hk').
  apply (inserted_iff s' L' hl'); [done|done|]. exists x. split_and!; [|lia|congruence].
  apply elem_of_cons in Hx' as [->|]; [congruence|done].
Qed.

(** What an interleaving keeps. *)
Definition run_inv (key : K) (s0 : SkipList) (c : SkipList * Writer * Search) : Prop :=
  ∃ L hl, writer_inv c.1.1 c.1.2 L hl ∧ reader_inv c.1.1 key c.2 L hl ∧
    ∀ k, inserted s0 k → inserted c.1.1 k.

Lemma step_run_inv key s0 c c' : step key c c' → run_inv key s0 c → run_inv key s0 c'.
Proof.
  destruct 1 as [[s w] [s' w'] r Hw|s w x l r Hr]; intros (L & hl & I & R & Hi); cbn [fst snd] in *.
  - destruct (write_step_inv _ _ _ _ _ _ Hw I) as (L' & hl' & I' & Hg). exists L', hl'. split_and!; [done| |].
    + by eapply grows_reader.
    + intros k Hk. by eapply grows_inserted, Hi.
  - destruct I as (I & Hh & Hw). destruct (reader_step s key x l L hl I Hh R) as (r' & E & R' & _).
    rewrite Hr in E. injection E as <-. exists L, hl. by split_and!.
Qed.

Lemma run_inv_rtc key s0 c c' : rtc (step key) c c' → run_inv key s0 c → run_inv key s0 c'.
Proof. induction 1; eauto using step_run_inv. Qed.

(** C18: A search is correct beside the writer.  Start from any state that the writer
    can reach from the empty list, in the middle of an insertion or not, and let a
    reader begin its search at the head, at any level (it may load an old or a new
    maximum height).  Under every interleaving of the writer's atomic steps with the
    passes of the reader's loop, the next pass of the loop can run: it never reads a
    missing link.  When the loop ends, the node it returns holds the least key not
    smaller than the searched one among all keys in the list at that moment (or
    there is none), and the keys present when the search began are still there.  The
    writer is never stuck either. *)
Theorem skiplist_concurrent_search (key : K) s0 w0 l0 s w x l :
  rtc write_step (NewSkipList, Idle) (s0, w0) → (l0 < kMaxHeight)%nat →
  rtc (step key) (s0, w0, At head_ l0) (s, w, At x l) →
  (∃ r, search_step compare_ s key x l = Some r ∧ ∀ o, r = Found o → answers s key o) ∧
  (∀ k, inserted s0 k → inserted s k) ∧
  (∀ z h prev i, w = Linking z h prev i → (i < h)%nat → is_Some (link_level s z prev i)).
Proof.
  intros H0 Hl0 Hr.
  destruct (writer_reaches _ _ _ _ [] (λ x, if decide (x = head_) then kMaxHeight else 0%nat) H0) as (L0 & hl0 & I0).
  { split; [apply NewSkipList_inv|]. split; [done|]. by intros y ?%not_elem_of_nil. }
  assert (run_inv key s0 (s0, w0, At head_ l0)) as R0.
  { exists L0, hl0. split; [done|]. split; [|done]. split; [left|]. destruct I0 as (I0 & _).
    rewrite (si_head _ _ _ I0). auto. }
  destruct (run_inv_rtc _ _ _ _ Hr R0) as (L & hl & (I & Hh & Hw) & R & Hi). cbn [fst snd] in *. split; [|split; [done|]].
  - destruct (reader_step s key x l L hl I Hh R) as (r & E & _ & Ha). eauto.
  - intros z h prev i -> Hlt. destruct Hw as (Hl & _). destruct (link_step s L hl z h prev i Hl Hlt) as (s' & -> & _). eauto.
Qed.

End Concurrent.

Section Contract.
  Context {K : Type} (compare_ : K → K → Z) {KO : KeyOrder compare_}.

(** C19: The skip list implements a sorted list.  Inserting any keys that differ
    pairwise into the empty list never fails, whatever heights the random generator
    draws; the result holds exactly these keys, and its iterator shows them in
    order: first, last, next, previous, seek to the least key not smaller than a
    target, and [Contains] agree with the sorted list. *)
Theorem skiplist_refines_sorted_list (ks : list K) : distinct (compare_ := compare_) ks →
  ∃ s sorted node, inserts (compare_ := compare_) NewSkipList ks = Some s ∧ sorted ≡ₚ ks ∧
    keys_sorted (compare_ := compare_) sorted ∧ iterates (compare_ := compare_) s sorted node ∧
    (∀ k, ∃ b, Contains compare_ s k = Some b ∧ (b = true ↔ ∃ k', k' ∈ ks ∧ compare_ k k' = 0)).
Proof.
  intros Hd. destruct (inserts_holds ks NewSkipList [] [] NewSkipList_holds Hd) as (s & sorted & L & E & Hp & Hh).
  { by intros x k ?%not_elem_of_nil. }
  exists s, sorted, (λ i, L !! i). split_and!; [done|done|by eapply holds_sorted|by apply holds_iterates|].
  intros k. destruct (Contains_holds s sorted L k Hh) as (b & Eb & Hb). exists b. split; [done|].
  rewrite Hb. split; intros (k' & Hk' & Hc); exists k'; (split; [|done]).
  - by rewrite Hp in Hk'.
  - by rewrite Hp.
Qed.

End Contract.

#[export] Instance Z_key_order : KeyOrder Z.sub.
Proof. split; intros; lia. Defined.

Lemma skiplist_refines_sorted_list_witness :
  distinct (compare_ := Z.sub) [3; 1; 2] ∧
  ∃ s sorted node, inserts (compare_ := Z.sub) NewSkipList [3; 1; 2] = Some s ∧ sorted ≡ₚ [3; 1; 2] ∧
    keys_sorted (compare_ := Z.sub) sorted ∧ iterates (compare_ := Z.sub) s sorted node ∧
    (∀ k, ∃ b, Contains Z.sub s k = Some b ∧ (b = true ↔ ∃ k', k' ∈ [3; 1; 2] ∧ k - k' = 0)).
Proof.
  assert (distinct (compare_ := Z.sub) [3; 1; 2]) as Hd.
  { intros [|[|[|i]]] [|[|[|j]]] a b Hij Ha Hb; simpl in *; try lia; simplify_eq; lia. }
  split; [done|]. exact (skiplist_refines_sorted_list Z.sub [3; 1; 2] Hd).
Defined.

(** A search of 5 that starts while 7 is being linked. *)
Lemma skiplist_concurrent_search_witness :
  ∃ s w, rtc (write_step (compare_ := Z.sub)) (NewSkipList, Idle) (s, w) ∧
    (∃ r, search_step Z.sub s 5 head_ 0 = Some r ∧ ∀ o, r = Found o → answers (compare_ := Z.sub) s 5 o).
Proof.
  destruct (insert_begin Z.sub NewSkipList 7) as [[[[s z] h] prev]|] eqn:E; [|exfalso; by vm_compute in E].
  assert (rtc (write_step (compare_ := Z.sub)) (NewSkipList, Idle) (s, Linking z h prev 0)) as Hr.
  { apply rtc_once. apply step_begin with (k := 7); [|done]. intros k' Hk.
    apply (inserted_iff (compare_ := Z.sub) NewSkipList [] _ k' NewSkipList_inv eq_refl) in Hk as (x & Hx & _).
    by apply not_elem_of_nil in Hx. }
  exists s, (Linking z h prev 0). split; [done|].
  exact (proj1 (skiplist_concurrent_search 5 s (Linking z h prev 0) 0 s (Linking z h prev 0) head_ 0 Hr
    ltac:(unfold kMaxHeight; lia) (rtc_refl _ _))).
Defined.
