(* ===== verification/MemTable.v ===== *)
(** * The memtable (src/db/memtable.h, src/db/memtable.cc)

    A memtable is a skip list of encoded entries and the arena that holds them.  A
    [const char*] into an entry is modelled as the bytes from the pointer to the
    end of the entry.

    The abstract value of a memtable is the list of writes that were added to it;
    [newest] is the write that a read at a snapshot must see. *)

From S2P Require Import Prelude Coding Status Comparator DbFormat Arena Random SkipList.
Import Coding.

Section MemTable.
  Context (C : Comparator) (base : nat → Z).

(** [GetVarint32Ptr(p, p + 5, &len)] and the pointer behind the varint. *)
Definition GetVarint32At (data : bytes) : option (Z * bytes) :=
  '(len, rest) ← GetVarint32Ptr (take_z 5 data);
  Some (len, drop_z (size (take_z 5 data) - size rest) data).

(** The static function of the file, not the one of coding.cc; a corrupt entry,
    which the source does not expect, reads as the empty slice. *)
Definition EntrySlice (data : bytes) : bytes :=
  match GetVarint32At data with
  | Some (len, p) => take_z len p
  | None => []
  end.

Definition KeyComparator (aptr bptr : bytes) : Z :=
  InternalKeyCompare C (EntrySlice aptr) (EntrySlice bptr).

Definition EncodeKey (target : bytes) : bytes := PutVarint32 [] (u32 (size target)) ++ target.

Record MemTable := MkMemTable {
  refs_ : Z;
  arena_ : Arena;
  table_ : SkipList (K := bytes);
}.

(** [sizeof(Node) + sizeof(std::atomic<Node* >) * (height - 1)] of [NewNode]. *)
Definition NewNode_bytes (height : nat) : Z := 16 + 8 * (Z.of_nat height - 1).

Definition NewMemTable : MemTable :=
  MkMemTable 0 (AllocateAligned base NewArena (NewNode_bytes kMaxHeight)).1 NewSkipList.

Definition Ref (m : MemTable) : MemTable := MkMemTable (refs_ m + 1) (arena_ m) (table_ m).

(** [None]: the table is deleted. *)
Definition Unref (m : MemTable) : option MemTable :=
  if refs_ m - 1 <=? 0 then None else Some (MkMemTable (refs_ m - 1) (arena_ m) (table_ m)).

Definition ApproximateMemoryUsage (m : MemTable) : Z := MemoryUsage (arena_ m).

(** [table_.Insert(buf)], whose [NewNode] takes memory from the arena. *)
Definition table_Insert (arena : Arena) (table : SkipList) (buf : bytes) : option (Arena * SkipList) :=
  '(table, x, height, prev) ← insert_begin KeyComparator table buf;
  let arena := (AllocateAligned base arena (NewNode_bytes height)).1 in
  table ← link_levels table x prev (seq 0 height);
  Some (arena, table).

(** What [Add] writes into [buf]. *)
Definition encode_entry (s : Z) (type : ValueType) (key value : bytes) : bytes :=
  EncodeVarint32 (u32 (size key + 8)) ++ key ++
  EncodeFixed64 (Z.lor (u64 (Z.shiftl s 8)) (ValueType_to_Z type)) ++
  EncodeVarint32 (u32 (size value)) ++ value.

Definition encoded_len (key value : bytes) : Z :=
  let internal_key_size := size key + 8 in
  VarintLength internal_key_size + internal_key_size + VarintLength (size value) + size value.

Definition Add (m : MemTable) (s : Z) (type : ValueType) (key value : bytes) : option MemTable :=
  let arena := (Allocate (arena_ m) (encoded_len key value)).1 in
  '(arena, table) ← table_Insert arena (table_ m) (encode_entry s type key value);
  Some (MkMemTable (refs_ m) arena table).

(** [*value] and [*s] are passed in and returned; [None] only if the search of the
    skip list fails. *)
Definition Get (m : MemTable) (key : LookupKey) (value : bytes) (s : Status) : option (bool * bytes * Status) :=
  iter ← IterSeek KeyComparator (table_ m) (memtable_key key);
  if IterValid iter then
    entry ← IterKey (table_ m) iter;
    '(key_length, key_ptr) ← GetVarint32At entry;
    if @Compare C (take_z (u32 (key_length - 8)) key_ptr) (lookup_user_key key) =? 0 then
      tag ← DecodeFixed64 (drop_z (key_length - 8) key_ptr);
      match ValueType_of_Z (Z.land tag 0xff) with
      | Some kTypeValue => Some (true, EntrySlice (drop_z key_length key_ptr), s)
      | Some kTypeDeletion => Some (true, value, NotFound [] [])
      | None => Some (false, value, s)
      end
    else Some (false, value, s)
  else Some (false, value, s).

(** ** MemTableIterator *)

Definition MemIterSeek (m : MemTable) (k : bytes) : option Iterator :=
  IterSeek KeyComparator (table_ m) (EncodeKey k).
Definition MemIterSeekToFirst (m : MemTable) : option Iterator := IterSeekToFirst (table_ m).
Definition MemIterSeekToLast (m : MemTable) : option Iterator := IterSeekToLast (table_ m).
Definition MemIterNext (m : MemTable) (it : Iterator) : option Iterator := IterNext (table_ m) it.
Definition MemIterPrev (m : MemTable) (it : Iterator) : option Iterator := IterPrev KeyComparator (table_ m) it.

Definition MemIterKey (m : MemTable) (it : Iterator) : option bytes :=
  entry ← IterKey (table_ m) it; Some (EntrySlice entry).

Definition MemIterValue (m : MemTable) (it : Iterator) : option bytes :=
  entry ← IterKey (table_ m) it;
  '(len, p) ← GetVarint32At entry;
  Some (EntrySlice (drop_z len p)).

End MemTable.

(** ** Entries *)

(** One call of [Add]. *)
Record Write := MkWrite { wseq : Z; wtype : ValueType; wkey : bytes; wvalue : bytes }.

Definition entry_of (w : Write) : bytes := encode_entry (wseq w) (wtype w) (wkey w) (wvalue w).
Definition ikey_of (w : Write) : bytes := ikey (wkey w) (wseq w) (wtype w).

Definition write_ok (w : Write) : Prop :=
  valid_seq (wseq w) ∧ is_u32 (size (wkey w) + 8) ∧ is_u32 (size (wvalue w)).

Lemma GetVarint32At_Encode v rest : is_u32 v → GetVarint32At (EncodeVarint32 v ++ rest) = Some (v, rest).
Proof.
  intros Hv. unfold GetVarint32At. pose proof (size_EncodeVarint32 v Hv) as Hs.
  assert (take_z 5 (EncodeVarint32 v ++ rest) = EncodeVarint32 v ++ take_z (5 - size (EncodeVarint32 v)) rest) as E.
  { replace 5 with (size (EncodeVarint32 v) + (5 - size (EncodeVarint32 v))) at 1 by lia.
    rewrite take_z_add by (pose proof (size_nonneg (EncodeVarint32 v)); lia).
    by rewrite take_z_app, drop_z_app by done. }
  rewrite E. pose proof (GetVarint32_Encode v (take_z (5 - size (EncodeVarint32 v)) rest) Hv) as G.
  unfold GetVarint32 in G. rewrite G. cbn [mbind option_bind]. f_equal. f_equal. rewrite size_app.
  apply drop_z_app. lia.
Qed.

Lemma EntrySlice_Encode (s rest : bytes) : is_u32 (size s) → EntrySlice (EncodeVarint32 (u32 (size s)) ++ s ++ rest) = s.
Proof.
  intros Hs. unfold EntrySlice. rewrite u32_small, GetVarint32At_Encode by done. by apply take_z_app.
Qed.

Lemma entry_shape w : entry_of w =
  EncodeVarint32 (u32 (size (ikey_of w))) ++ ikey_of w ++ EncodeVarint32 (u32 (size (wvalue w))) ++ wvalue w.
Proof.
  unfold entry_of, encode_entry, ikey_of. rewrite size_ikey, ikey_app, <-!app_assoc. done.
Qed.

Lemma size_ikey_of w : size (ikey_of w) = size (wkey w) + 8.
Proof. apply size_ikey. Qed.

Lemma EntrySlice_entry w : write_ok w → EntrySlice (entry_of w) = ikey_of w.
Proof. intros (_ & Hk & _). rewrite entry_shape. apply EntrySlice_Encode. by rewrite size_ikey_of. Qed.

Lemma entry_split w : write_ok w →
  GetVarint32At (entry_of w) =
    Some (size (wkey w) + 8, ikey_of w ++ EncodeVarint32 (u32 (size (wvalue w))) ++ wvalue w).
Proof.
  intros (_ & Hk & _). rewrite entry_shape, size_ikey_of, u32_small, GetVarint32At_Encode by done. done.
Qed.

Lemma entry_value w : write_ok w →
  EntrySlice (drop_z (size (wkey w) + 8) (ikey_of w ++ EncodeVarint32 (u32 (size (wvalue w))) ++ wvalue w)) = wvalue w.
Proof.
  intros (_ & _ & Hv). rewrite drop_z_app by (by rewrite size_ikey_of).
  rewrite <-(app_nil_r (wvalue w)) at 2. by apply EntrySlice_Encode.
Qed.

(** The [assert] at the end of [Add]: exactly the allocated bytes are written. *)
Lemma size_encode_entry s t k v : is_u32 (size k + 8) → is_u32 (size v) →
  size (encode_entry s t k v) = encoded_len k v.
Proof.
  intros Hk Hv. unfold encode_entry, encoded_len.
  rewrite !size_app, size_EncodeFixed64, !u32_small, !EncodeVarint32_loop, !VarintLength_size by (done || range_lia). lia.
Qed.

(** ** The order of entries *)

Section order.
  Context (C : Comparator) {L : ComparatorLaws C}.

#[export] Instance KeyComparator_order : KeyOrder (KeyComparator C).
Proof.
  split; unfold KeyComparator; intros.
  - apply (Compare_antisym (C := InternalKeyComparator C)).
  - by eapply (Compare_trans (C := InternalKeyComparator C)).
Qed.

(** Two writes with the same internal key up to the comparator. *)
Definition clash (w1 w2 : Write) : Prop := @Compare C (wkey w1) (wkey w2) = 0 ∧ wseq w1 = wseq w2 ∧ wtype w1 = wtype w2.

Lemma tag_of w : valid_seq (wseq w) →
  ExtractTag (ikey_of w) = wseq w * 256 + ValueType_to_Z (wtype w).
Proof. intros H. unfold ikey_of. by rewrite ExtractTag_ikey, PackSequenceAndType_value. Qed.

Lemma KeyComparator_le w1 w2 : write_ok w1 → write_ok w2 →
  KeyComparator C (entry_of w1) (entry_of w2) <= 0 ↔
  @Compare C (wkey w1) (wkey w2) < 0 ∨
  @Compare C (wkey w1) (wkey w2) = 0 ∧ ExtractTag (ikey_of w2) <= ExtractTag (ikey_of w1).
Proof.
  intros H1 H2. unfold KeyComparator. rewrite !EntrySlice_entry by done. rewrite InternalKeyCompare_le.
  unfold ikey_of. by rewrite !ExtractUserKey_ikey.
Qed.

Lemma KeyComparator_eq w1 w2 : write_ok w1 → write_ok w2 →
  KeyComparator C (entry_of w1) (entry_of w2) = 0 ↔ clash w1 w2.
Proof.
  intros H1 H2. pose proof (KeyComparator_le w1 w2 H1 H2) as E1. pose proof (KeyComparator_le w2 w1 H2 H1) as E2.
  pose proof (ko_antisym (entry_of w1) (entry_of w2)) as A. pose proof (Compare_antisym (wkey w1) (wkey w2)) as B.
  rewrite !tag_of in E1, E2 by (apply H1 || apply H2). unfold clash.
  destruct (wtype w1), (wtype w2); simpl in *; (split; [intros E; split_and!; [..|try done]; try lia|intros (? & ? & ?); try done; lia]).
Qed.

(** The key a read at snapshot [s] seeks compared with an entry. *)
Lemma lookup_entry_le u s w : write_ok w → valid_seq s → is_u32 (size u + 8) →
  0 <= KeyComparator C (entry_of w) (memtable_key (NewLookupKey u s)) ↔
  @Compare C u (wkey w) < 0 ∨ @Compare C u (wkey w) = 0 ∧ wseq w <= s.
Proof.
  intros Hw Hs Hu.
  assert (EntrySlice (memtable_key (NewLookupKey u s)) = ikey u s kValueTypeForSeek) as E.
  { pose proof (EntrySlice_Encode (ikey u s kValueTypeForSeek) []) as E. rewrite size_ikey, app_nil_r in E. by apply E. }
  pose proof (ko_antisym (entry_of w) (memtable_key (NewLookupKey u s))) as A.
  assert (KeyComparator C (memtable_key (NewLookupKey u s)) (entry_of w) <= 0 ↔
    @Compare C u (wkey w) < 0 ∨ @Compare C u (wkey w) = 0 ∧ wseq w <= s) as <-; [|lia].
  unfold KeyComparator. rewrite E, EntrySlice_entry, InternalKeyCompare_le, tag_of by (done || apply Hw).
  unfold ikey_of. rewrite !ExtractUserKey_ikey, ExtractTag_ikey, PackSequenceAndType_value by done.
  destruct (wtype w); simpl; lia.
Qed.

(** ** What a read sees *)

Definition visible (u : bytes) (s : Z) (w : Write) : bool := (@Compare C u (wkey w) =? 0) && (wseq w <=? s).

Definition later (best : option Write) (w : Write) : bool :=
  match best with Some b => ExtractTag (ikey_of b) <? ExtractTag (ikey_of w) | None => true end.

(** The write a read of [u] at snapshot [s] must return: the visible one with the
    largest tag. *)
Definition newest (ws : list Write) (u : bytes) (s : Z) : option Write :=
  foldl (λ best w, if visible u s w && later best w then Some w else best) None ws.

Definition is_newest (ws : list Write) (u : bytes) (s : Z) (o : option Write) : Prop :=
  match o with
  | Some b => b ∈ ws ∧ visible u s b = true ∧
      ∀ w, w ∈ ws → visible u s w = true → ExtractTag (ikey_of w) <= ExtractTag (ikey_of b)
  | None => ∀ w, w ∈ ws → visible u s w = false
  end.

Lemma newest_spec ws u s : is_newest ws u s (newest ws u s).
Proof.
  induction ws as [|w ws IH] using rev_ind; [by intros w ?%not_elem_of_nil|].
  unfold newest in *. rewrite foldl_app. cbn [foldl]. set (b := foldl _ None ws) in *.
  destruct (visible u s w) eqn:Ev; cbn [andb].
  - destruct (later b w) eqn:El.
    + split; [apply elem_of_app; right; left|]. split; [done|]. intros w' [Hw'|Hw']%elem_of_app Hv.
      * destruct b as [b|]; simpl in *; [|by rewrite IH in Hv]. destruct IH as (_ & _ & IH).
        specialize (IH w' Hw' Hv). apply Z.ltb_lt in El. lia.
      * apply list_elem_of_singleton in Hw' as ->. done.
    + destruct b as [b|]; [|done]. destruct IH as (Hb & Hvb & IH). simpl in El. apply Z.ltb_ge in El.
      split; [apply elem_of_app; by left|]. split; [done|]. intros w' [Hw'|Hw']%elem_of_app Hv; [by apply IH|].
      apply list_elem_of_singleton in Hw' as ->. lia.
  - destruct b as [b|].
    + destruct IH as (Hb & Hvb & IH). split; [apply elem_of_app; by left|]. split; [done|].
      intros w' [Hw'|Hw']%elem_of_app Hv; [by apply IH|]. apply list_elem_of_singleton in Hw' as ->. congruence.
    + intros w' [Hw'|Hw']%elem_of_app; [by apply IH|]. by apply list_elem_of_singleton in Hw' as ->.
Qed.

(** What [Get] reports for it. *)
Definition report (o : option Write) (value : bytes) (st : Status) : bool * bytes * Status :=
  match o with
  | None => (false, value, st)
  | Some w => match wtype w with kTypeValue => (true, wvalue w, st) | kTypeDeletion => (true, value, NotFound [] []) end
  end.

(** No two writes clash. *)
Definition fresh_writes (ws : list Write) : Prop :=
  ∀ i j w1 w2, (i < j)%nat → ws !! i = Some w1 → ws !! j = Some w2 → ¬ clash w1 w2.

(** The memtable holds these writes. *)
Definition contains_writes (m : MemTable) (ws : list Write) : Prop :=
  ∃ sorted node, sorted ≡ₚ ws ∧ keys_sorted (compare_ := KeyComparator C) (entry_of <$> sorted) ∧
    iterates (compare_ := KeyComparator C) (table_ m) (entry_of <$> sorted) node.

(** Decoding the entry that the seek found. *)
Lemma Get_entry m u s value st node w : valid_seq s → is_u32 (size u + 8) → write_ok w →
  IterSeek (KeyComparator C) (table_ m) (memtable_key (NewLookupKey u s)) = Some node →
  IterValid node = true → IterKey (table_ m) node = Some (entry_of w) →
  Get C m (NewLookupKey u s) value st =
    Some (report (if @Compare C (wkey w) u =? 0 then Some w else None) value st).
Proof.
  intros Hs Hu Hw E1 E2 E3. unfold Get. rewrite E1. cbn [mbind option_bind]. rewrite E2, E3. cbn [mbind option_bind].
  rewrite entry_split by done. cbn [mbind option_bind]. destruct Hw as (Hq & Hk & Hv). pose proof (size_nonneg (wkey w)).
  rewrite Z.add_simpl_r, (u32_small (size (wkey w))) by range_lia.
  unfold lookup_user_key. cbn [lookup_internal NewLookupKey].
  replace (take_z (size (u ++ EncodeFixed64 (PackSequenceAndType s kValueTypeForSeek)) - 8) _) with u
    by (symmetry; apply take_z_app; rewrite size_app, size_EncodeFixed64; lia).
  replace (take_z (size (wkey w)) _) with (wkey w)
    by (unfold ikey_of; rewrite ikey_app, <-app_assoc; symmetry; by apply take_z_app).
  destruct (@Compare C (wkey w) u =? 0); [|done].
  replace (drop_z (size (wkey w)) (ikey_of w ++ EncodeVarint32 (u32 (size (wvalue w))) ++ wvalue w)) with
    (EncodeFixed64 (PackSequenceAndType (wseq w) (wtype w)) ++ EncodeVarint32 (u32 (size (wvalue w))) ++ wvalue w)
    by (unfold ikey_of; rewrite ikey_app, <-app_assoc; symmetry; by apply drop_z_app).
  rewrite DecodeFixed64_Encode by by apply PackSequenceAndType_u64. cbn [mbind option_bind].
  rewrite land_pack, entry_value by (done || split_and!; done).
  unfold report. by destruct (wtype w).
Qed.

Section seek.
  Context (ws sorted : list Write) (u : bytes) (s : Z) (i : nat).
  Hypotheses (Hp : sorted ≡ₚ ws) (Hok : Forall write_ok ws) (Hs : valid_seq s) (Hu : is_u32 (size u + 8)).
  Hypothesis Hsort : keys_sorted (compare_ := KeyComparator C) (entry_of <$> sorted).
  Hypothesis Hlb : is_lower_bound (compare_ := KeyComparator C) (entry_of <$> sorted) (memtable_key (NewLookupKey u s)) i.

Lemma sorted_ok j w : sorted !! j = Some w → write_ok w.
Proof using Hp Hok. intros Hw%list_elem_of_lookup_2. rewrite Hp in Hw. by apply (proj1 (Forall_forall _ _) Hok). Qed.

Lemma sorted_lt j k w1 w2 : (j < k)%nat → sorted !! j = Some w1 → sorted !! k = Some w2 →
  KeyComparator C (entry_of w1) (entry_of w2) < 0.
Proof using Hsort. intros Hjk H1 H2. apply (Hsort j k); [lia|by rewrite list_lookup_fmap, H1|by rewrite list_lookup_fmap, H2]. Qed.

Lemma bound_below j w : sorted !! j = Some w → (j < i)%nat → ¬ (@Compare C u (wkey w) = 0 ∧ wseq w <= s).
Proof using All.
  intros Hj Hji Hv. destruct Hlb as (_ & Hlt & _). specialize (Hlt j (entry_of w)).
  rewrite list_lookup_fmap, Hj in Hlt. specialize (Hlt eq_refl Hji).
  pose proof (proj2 (lookup_entry_le u s w (sorted_ok j w Hj) Hs Hu)). lia.
Qed.

Lemma bound_above w : sorted !! i = Some w → @Compare C u (wkey w) < 0 ∨ @Compare C u (wkey w) = 0 ∧ wseq w <= s.
Proof using All.
  intros Hi. destruct Hlb as (_ & _ & Hge). specialize (Hge i (entry_of w)). rewrite list_lookup_fmap, Hi in Hge.
  apply lookup_entry_le; [by eapply sorted_ok|done|done|]. by apply Hge.
Qed.

(** When a visible write exists, the entry at the bound is visible. *)
Lemma visible_at_bound j w : sorted !! j = Some w → visible u s w = true →
  ∃ wi, sorted !! i = Some wi ∧ (i <= j)%nat ∧ visible u s wi = true.
Proof using All.
  intros Hj Hv. apply andb_true_iff in Hv as [Hc%Z.eqb_eq Hq%Z.leb_le].
  assert (i <= j)%nat as Hij.
  { destruct (Nat.lt_ge_cases j i) as [Hji|]; [|done]. by destruct (bound_below j w Hj Hji). }
  destruct (lookup_lt_is_Some_2 sorted i) as [wi Hwi]; [apply lookup_lt_Some in Hj; lia|]. exists wi. split_and!; [done|done|].
  assert (@Compare C (wkey wi) (wkey w) <= 0) as Hle.
  { destruct (decide (i = j)) as [->|]; [assert (wi = w) as -> by congruence; rewrite Compare_refl; lia|].
    pose proof (sorted_lt i j wi w ltac:(lia) Hwi Hj).
    pose proof (proj1 (KeyComparator_le wi w (sorted_ok i wi Hwi) (sorted_ok j w Hj))). lia. }
  unfold visible. apply andb_true_iff. rewrite Z.eqb_eq, Z.leb_le.
  destruct (bound_above wi Hwi) as [Hlt'|[? ?]]; [|done]. pose proof (Compare_lt_le_trans _ _ _ Hlt' Hle). lia.
Qed.

(** The entry at the bound belongs to the newest write, if one is visible. *)
Lemma seek_newest :
  match sorted !! i with
  | Some w => write_ok w ∧ newest ws u s = if @Compare C (wkey w) u =? 0 then Some w else None
  | None => newest ws u s = None
  end.
Proof using All.
  pose proof (newest_spec ws u s) as Hn. destruct (newest ws u s) as [b|].
  - destruct Hn as (Hb & Hvb & Hmax). rewrite <-Hp in Hb. apply list_elem_of_lookup_1 in Hb as [j Hj].
    destruct (visible_at_bound j b Hj Hvb) as (wi & Hwi & Hij & Hvi). rewrite Hwi. split; [by eapply sorted_ok|].
    pose proof Hvi as [Hc%Z.eqb_eq _]%andb_true_iff. pose proof Hvb as [Hcb%Z.eqb_eq _]%andb_true_iff.
    rewrite (proj1 (Compare_eq_sym u (wkey wi)) Hc). cbn.
    destruct (decide (i = j)) as [->|Hne]; [congruence|]. exfalso.
    pose proof (sorted_lt i j wi b ltac:(lia) Hwi Hj). pose proof (ko_antisym (entry_of wi) (entry_of b)).
    assert (KeyComparator C (entry_of b) (entry_of wi) <= 0); [|lia].
    apply KeyComparator_le; [by eapply sorted_ok|by eapply sorted_ok|]. right. split.
    + pose proof (Compare_eq_l _ _ (wkey wi) Hcb). lia.
    + apply Hmax; [rewrite <-Hp; by eapply list_elem_of_lookup_2|done].
  - destruct (sorted !! i) as [wi|] eqn:Hwi; [|done]. split; [by eapply sorted_ok|].
    destruct (Z.eqb_spec (@Compare C (wkey wi) u) 0) as [Hc%Compare_eq_sym|]; [|done].
    pose proof (Hn wi ltac:(rewrite <-Hp; by eapply list_elem_of_lookup_2)) as Hv.
    unfold visible in Hv. rewrite Hc in Hv. cbn in Hv. apply Z.leb_gt in Hv.
    destruct (bound_above wi Hwi) as [|[]]; lia.
Qed.

End seek.

Lemma Get_newest m ws u s value st : contains_writes m ws → Forall write_ok ws → valid_seq s → is_u32 (size u + 8) →
  Get C m (NewLookupKey u s) value st = Some (report (newest ws u s) value st).
Proof.
  intros (sorted & node & Hp & Hsort & It) Hok Hs Hu.
  destruct (it_seek _ _ _ It (memtable_key (NewLookupKey u s))) as (i & Hlb & Hseek).
  pose proof (seek_newest ws sorted u s i Hp Hok Hs Hu Hsort Hlb) as Hn.
  pose proof (it_valid _ _ _ It i) as Hv. pose proof (it_key _ _ _ It i) as Hk. rewrite list_lookup_fmap in Hk.
  rewrite length_fmap in Hv. destruct (sorted !! i) as [w|] eqn:Hw.
  - destruct Hn as [Hwok ->]. apply (Get_entry m u s value st (node i) w); try done.
    rewrite Hv. apply bool_decide_eq_true_2. by apply lookup_lt_Some in Hw.
  - rewrite Hn. unfold Get. rewrite Hseek. cbn [mbind option_bind]. rewrite Hv, bool_decide_eq_false_2; [done|].
    apply lookup_ge_None in Hw. lia.
Qed.

(** ** Adding *)

Section add.
  Context (base : nat → Z).

(** The memtable was filled with exactly these writes. *)
Definition filled (m : MemTable) (ws : list Write) : Prop :=
  ∃ sorted L, sorted ≡ₚ ws ∧ holds (compare_ := KeyComparator C) (table_ m) (entry_of <$> sorted) L.

Lemma filled_contains m ws : filled m ws → contains_writes m ws.
Proof.
  intros (sorted & L' & Hp & Hh). exists sorted, (λ i, L' !! i).
  split; [done|]. split; [by eapply holds_sorted|by apply holds_iterates].
Qed.

Lemma NewMemTable_filled : filled (NewMemTable base) [].
Proof. exists [], []. split; [done|]. apply NewSkipList_holds. Qed.

Lemma table_Insert_Insert arena table buf :
  snd <$> table_Insert C base arena table buf = Insert (KeyComparator C) table buf.
Proof.
  unfold table_Insert, Insert. destruct (insert_begin _ _ _) as [[[[t x] h] prev]|]; [|done].
  cbn [mbind option_bind]. by destruct (link_levels t x prev (seq 0 h)).
Qed.

Lemma Add_filled m ws w : filled m ws → Forall write_ok ws → write_ok w → (∀ w', w' ∈ ws → ¬ clash w' w) →
  ∃ m', Add C base m (wseq w) (wtype w) (wkey w) (wvalue w) = Some m' ∧ refs_ m' = refs_ m ∧ filled m' (ws ++ [w]).
Proof.
  intros (sorted & L' & Hp & Hh) Hok Hw Hfresh. unfold Add. fold (entry_of w).
  destruct (Insert_holds (table_ m) _ L' (entry_of w) Hh) as (t & a & Et & Ha & Hh').
  { intros k (w' & -> & Hw')%list_elem_of_fmap. rewrite Hp in Hw'. rewrite KeyComparator_eq; [by apply Hfresh| |done].
    by apply (proj1 (Forall_forall _ _) Hok). }
  set (arena := (Allocate _ _).1). pose proof (table_Insert_Insert arena (table_ m) (entry_of w)) as E. rewrite Et in E.
  destruct (table_Insert C base arena (table_ m) (entry_of w)) as [[arena' t']|]; [|done]. injection E as ->.
  cbn [mbind option_bind]. eexists. split; [done|]. split; [done|]. exists (take a sorted ++ w :: drop a sorted), (insert_after L' a (SkipList.fresh (table_ m))).
  split; [rewrite <-Permutation_middle, take_drop, Hp; apply Permutation_cons_append|].
  rewrite fmap_app, fmap_cons, fmap_take, fmap_drop. done.
Qed.

Fixpoint adds (m : MemTable) (ws : list Write) : option MemTable :=
  match ws with
  | [] => Some m
  | w :: ws => m ← Add C base m (wseq w) (wtype w) (wkey w) (wvalue w); adds m ws
  end.

Lemma adds_app ws1 : ∀ m ws2, adds m (ws1 ++ ws2) = m ← adds m ws1; adds m ws2.
Proof.
  induction ws1 as [|w ws1 IH]; intros m ws2; [done|]. cbn [app adds]. destruct (Add C base m _ _ _ _) as [m'|]; [|done].
  cbn [mbind option_bind]. apply IH.
Qed.

Lemma adds_filled ws : ∀ m old, filled m old → Forall write_ok (old ++ ws) → fresh_writes (old ++ ws) →
  ∃ m', adds m ws = Some m' ∧ filled m' (old ++ ws).
Proof.
  induction ws as [|w ws IH]; intros m old Hm Hok Hf; [exists m; by rewrite app_nil_r|].
  pose proof Hok as [Hold [Hw _]%Forall_cons]%Forall_app.
  destruct (Add_filled m old w Hm Hold Hw) as (m' & E & _ & Hm').
  { intros w' [i Hi]%list_elem_of_lookup_1. apply (Hf i (length old)).
    - by apply lookup_lt_Some in Hi.
    - by apply lookup_app_l_Some.
    - by rewrite lookup_app_r, Nat.sub_diag. }
  cbn [adds]. rewrite E. cbn [mbind option_bind]. specialize (IH m' (old ++ [w]) Hm').
  rewrite <-!app_assoc in IH. by apply IH.
Qed.

(** ** Properties *)

(** C32: The memtable is a multi-version map.  Any writes whose internal keys differ
    can be added, in any order, whatever heights the skip list draws; afterwards a
    read of a user key at a snapshot returns the visible write of that key with the
    largest sequence number: its value, a NotFound status if it is a deletion, or
    false with both outputs untouched if no write is visible.  The memtable's
    iterator yields the internal keys in order, each with its value. *)
Theorem memtable_multi_version (ws : list Write) (u : bytes) (s : Z) (value : bytes) (st : Status) :
  Forall write_ok ws → fresh_writes ws → valid_seq s → is_u32 (size u + 8) →
  ∃ m sorted node, adds (NewMemTable base) ws = Some m ∧ sorted ≡ₚ ws ∧
    Get C m (NewLookupKey u s) value st = Some (report (newest ws u s) value st) ∧
    is_newest ws u s (newest ws u s) ∧
    (∀ i j w1 w2, (i < j)%nat → sorted !! i = Some w1 → sorted !! j = Some w2 →
       InternalKeyCompare C (ikey_of w1) (ikey_of w2) < 0) ∧
    MemIterSeekToFirst m = Some (node 0%nat) ∧
    (∀ i w, sorted !! i = Some w → MemIterKey m (node i) = Some (ikey_of w) ∧
       MemIterValue m (node i) = Some (wvalue w) ∧ MemIterNext m (node i) = Some (node (S i))) ∧
    IterValid (node (length ws)) = false.
Proof.
  intros Hok Hf Hs Hu. destruct (adds_filled ws (NewMemTable base) [] NewMemTable_filled Hok Hf) as (m & E & Hm).
  pose proof (filled_contains _ _ Hm) as Hc. pose proof Hc as (sorted & node & Hp & Hsort & It).
  assert (∀ i w, sorted !! i = Some w → write_ok w) as Hoks by (intros i w; by eapply sorted_ok).
  exists m, sorted, node. split_and!; [done|done|by apply Get_newest|apply newest_spec| |apply It| |].
  - intros i j w1 w2 Hij H1 H2. pose proof (sorted_lt sorted Hsort i j w1 w2 Hij H1 H2) as Hlt.
    unfold KeyComparator in Hlt. by rewrite !EntrySlice_entry in Hlt by eauto.
  - intros i w Hi. pose proof (it_key _ _ _ It i) as Hk. rewrite list_lookup_fmap, Hi in Hk. cbn [fmap option_fmap option_map] in Hk.
    unfold MemIterKey, MemIterValue, MemIterNext. rewrite Hk. cbn [mbind option_bind]. rewrite entry_split by eauto.
    cbn [mbind option_bind]. rewrite EntrySlice_entry, entry_value by eauto. split_and!; [done|done|].
    apply (it_next _ _ _ It). rewrite length_fmap. by apply lookup_lt_Some in Hi.
  - rewrite (it_valid _ _ _ It), length_fmap. apply bool_decide_eq_false_2. rewrite (Permutation_length Hp). apply Nat.lt_irrefl.
Qed.

End add.

End order.

(** Three versions of a key read at snapshot 8. *)
Lemma memtable_multi_version_witness :
  let ws := [MkWrite 5 kTypeValue [x61] [x31]; MkWrite 9 kTypeDeletion [x61] []; MkWrite 7 kTypeValue [x61] [x32]] in
  ∃ m, adds BytewiseComparator (λ i, 4096 * Z.of_nat i) (NewMemTable (λ i, 4096 * Z.of_nat i)) ws = Some m ∧
    Get BytewiseComparator m (NewLookupKey [x61] 8) [] Status_OK = Some (true, [x32], Status_OK).
Proof.
  intros ws.
  destruct (memtable_multi_version BytewiseComparator (λ i, 4096 * Z.of_nat i) ws [x61] 8 [] Status_OK)
    as (m & sorted & node & E & _ & G & _).
  - repeat constructor; vm_compute; done.
  - intros [|[|[|i]]] [|[|[|j]]] w1 w2 Hij H1 H2; simpl in *; try lia; simplify_eq; intros (_ & ? & _); simpl in *; lia.
  - vm_compute. done.
  - vm_compute. done.
  - exists m. split; [exact E|]. rewrite G. by vm_compute.
Defined.
