(* ===== verification/DbIter.v ===== *)
(** * The user-level iterator (src/db/db_iter.cc, src/db/db_iter.h)

    [DBIter] turns an iterator over internal entries (user key, sequence number,
    type) into an iterator over the user keys and values that a sequence number
    can see.  The file models all of its moves, with the sampling of the bytes it
    reads, and proves that it is a cursor over the contents of the snapshot. *)

From Stdlib Require Import String.
From S2P Require Import Prelude Coding Status Comparator Block Iterators Merger DbFormat Random MemTable.
Import Coding.

(** ** What the iterator asks of the database: [DBImpl::RecordReadSample] *)

Class Sampler (D : Type) := { sample : bytes → D → option D }.

Definition kReadBytesPeriod : Z := 1048576.

Record DBIter (I : Type) := MkDBIter {
  iter_ : I;
  sequence_ : Z;
  iter_status : Status;
  saved_key_ : bytes;
  saved_value_ : bytes;
  iter_direction : Direction;
  valid_ : bool;
  rnd_ : Z;
  bytes_until_read_sampling_ : Z;
}.
Arguments MkDBIter {I} _ _ _ _ _ _ _ _ _.
Arguments iter_ {I} _.
Arguments sequence_ {I} _.
Arguments iter_status {I} _.
Arguments saved_key_ {I} _.
Arguments saved_value_ {I} _.
Arguments iter_direction {I} _.
Arguments valid_ {I} _.
Arguments rnd_ {I} _.
Arguments bytes_until_read_sampling_ {I} _.

Section DbIter.
  Context {D I : Type} `{Sampler D} `{IteratorOps I} (C : Comparator).

Definition with_iter (it : DBIter I) (i : I) : DBIter I :=
  MkDBIter i (sequence_ it) (iter_status it) (saved_key_ it) (saved_value_ it) (iter_direction it) (valid_ it) (rnd_ it) (bytes_until_read_sampling_ it).

Definition with_saved (it : DBIter I) (k v : bytes) : DBIter I :=
  MkDBIter (iter_ it) (sequence_ it) (iter_status it) k v (iter_direction it) (valid_ it) (rnd_ it) (bytes_until_read_sampling_ it).

Definition with_direction (it : DBIter I) (d : Direction) : DBIter I :=
  MkDBIter (iter_ it) (sequence_ it) (iter_status it) (saved_key_ it) (saved_value_ it) d (valid_ it) (rnd_ it) (bytes_until_read_sampling_ it).

Definition with_valid (it : DBIter I) (b : bool) : DBIter I :=
  MkDBIter (iter_ it) (sequence_ it) (iter_status it) (saved_key_ it) (saved_value_ it) (iter_direction it) b (rnd_ it) (bytes_until_read_sampling_ it).

Definition with_status (it : DBIter I) (s : Status) : DBIter I :=
  MkDBIter (iter_ it) (sequence_ it) s (saved_key_ it) (saved_value_ it) (iter_direction it) (valid_ it) (rnd_ it) (bytes_until_read_sampling_ it).

Definition with_sampling (it : DBIter I) (rnd remaining : Z) : DBIter I :=
  MkDBIter (iter_ it) (sequence_ it) (iter_status it) (saved_key_ it) (saved_value_ it) (iter_direction it) (valid_ it) rnd remaining.

(** [RandomCompactionPeriod]: the draw and the generator after it. *)
Definition RandomCompactionPeriod (rnd : Z) : Z * Z := Uniform (2 * kReadBytesPeriod) rnd.

(** The constructor; [rnd_] is initialised before the counter. *)
Definition NewDBIterator (internal_iter : I) (sequence seed : Z) : DBIter I :=
  let '(period, rnd) := RandomCompactionPeriod (NewRandom seed) in
  MkDBIter internal_iter sequence Status_OK [] [] kForward false rnd period.

(** [while (bytes_until_read_sampling_ < bytes_read)]. *)
Fixpoint sampling_loop (fuel : nat) (k : bytes) (bytes_read : Z) (db : D) (rnd remaining : Z) : option (D * Z * Z) :=
  if remaining <? bytes_read then
    match fuel with
    | O => None
    | S fuel =>
        let '(period, rnd) := RandomCompactionPeriod rnd in
        db ← sample k db;
        sampling_loop fuel k bytes_read db rnd (u64 (remaining + period))
    end
  else Some (db, rnd, remaining).

(** Two draws add at least one byte, so this many rounds end the loop. *)
Definition sampling_fuel (bytes_read : Z) : nat := Z.to_nat (2 * bytes_read + 2).

(** [ParseKey]: the parsed key is [None] on the [false] return. *)
Definition ParseKey (db : D) (it : DBIter I) : option (D * DBIter I * option ParsedInternalKey) :=
  k ← iKey (iter_ it);
  v ← iValue (iter_ it);
  let bytes_read := u64 (size k + size v) in
  '(db, rnd, remaining) ← sampling_loop (sampling_fuel bytes_read) k bytes_read db (rnd_ it) (bytes_until_read_sampling_ it);
  let it := with_sampling it rnd (u64 (remaining - bytes_read)) in
  match ParseInternalKey k with
  | None => Some (db, with_status it (Corruption (bs "corrupted internal key in DBIter") []), None)
  | Some ikey => Some (db, it, Some ikey)
  end.

(** The loop of [FindNextUserEntry]; [skip] is [&saved_key_] in every call. *)
Fixpoint FindNextUserEntry (fuel : nat) (db : D) (it : DBIter I) (skipping : bool) : option (D * DBIter I) :=
  match fuel with
  | O => None
  | S fuel =>
      '(db, it, parsed) ← ParseKey db it;
      let next it skipping :=
        inner ← iNext (iter_ it);
        let it := with_iter it inner in
        if iValid inner then FindNextUserEntry fuel db it skipping
        else Some (db, with_valid (with_saved it [] (saved_value_ it)) false) in
      match parsed with
      | Some ikey =>
          if sequence ikey <=? sequence_ it then
            match type ikey with
            | kTypeDeletion => next (with_saved it (user_key ikey) (saved_value_ it)) true
            | kTypeValue =>
                if skipping && (@Compare C (user_key ikey) (saved_key_ it) <=? 0) then next it skipping
                else Some (db, with_saved (with_valid it true) [] (saved_value_ it))
            end
          else next it skipping
      | None => next it skipping
      end
  end.

(** The loop of [FindPrevUserEntry], entered with a valid internal iterator. *)
Fixpoint FindPrev_loop (fuel : nat) (db : D) (it : DBIter I) (value_type : ValueType) : option (D * DBIter I * ValueType) :=
  match fuel with
  | O => None
  | S fuel =>
      '(db, it, parsed) ← ParseKey db it;
      let prev it value_type :=
        inner ← iPrev (iter_ it);
        let it := with_iter it inner in
        if iValid inner then FindPrev_loop fuel db it value_type else Some (db, it, value_type) in
      match parsed with
      | Some ikey =>
          if sequence ikey <=? sequence_ it then
            if negb (bool_decide (value_type = kTypeDeletion)) && (@Compare C (user_key ikey) (saved_key_ it) <? 0)
            then Some (db, it, value_type)
            else
              match type ikey with
              | kTypeDeletion => prev (with_saved it [] []) kTypeDeletion
              | kTypeValue =>
                  raw_value ← iValue (iter_ it);
                  k ← iKey (iter_ it);
                  prev (with_saved it (ExtractUserKey k) raw_value) kTypeValue
              end
          else prev it value_type
      | None => prev it value_type
      end
  end.

Definition FindPrevUserEntry (fuel : nat) (db : D) (it : DBIter I) : option (D * DBIter I) :=
  '(db, it, value_type) ←
    (if iValid (iter_ it) then FindPrev_loop fuel db it kTypeDeletion else Some (db, it, kTypeDeletion));
  match value_type with
  | kTypeDeletion => Some (db, with_direction (with_saved (with_valid it false) [] []) kForward)
  | kTypeValue => Some (db, with_valid it true)
  end.

Definition DbIterValid (s : D * DBIter I) : bool := valid_ s.2.

Definition DbIterKey (s : D * DBIter I) : option bytes :=
  guarded (valid_ s.2)
    (match iter_direction s.2 with
     | kForward => k ← iKey (iter_ s.2); Some (ExtractUserKey k)
     | kReverse => Some (saved_key_ s.2)
     end).

Definition DbIterValue (s : D * DBIter I) : option bytes :=
  guarded (valid_ s.2)
    (match iter_direction s.2 with
     | kForward => iValue (iter_ s.2)
     | kReverse => Some (saved_value_ s.2)
     end).

Definition DbIterStatus (s : D * DBIter I) : Status :=
  if ok (iter_status s.2) then iStatus (iter_ s.2) else iter_status s.2.

Definition DbIterNext (fuel : nat) (s : D * DBIter I) : option (D * DBIter I) :=
  let '(db, it) := s in
  guarded (valid_ it)
    (it ← (match iter_direction it with
           | kReverse =>
               inner ← (if negb (iValid (iter_ it)) then iSeekToFirst (iter_ it) else iNext (iter_ it));
               Some (with_iter (with_direction it kForward) inner)
           | kForward =>
               k ← iKey (iter_ it);
               inner ← iNext (iter_ it);
               Some (with_iter (with_saved it (ExtractUserKey k) (saved_value_ it)) inner)
           end);
     if negb (iValid (iter_ it)) then Some (db, with_saved (with_valid it false) [] (saved_value_ it))
     else FindNextUserEntry fuel db it true).

(** The scan of [Prev] back to the first smaller user key; [None] in the inner
    option when the internal iterator runs off the front. *)
Fixpoint Prev_scan (fuel : nat) (inner : I) (saved_key : bytes) : option (I * bool) :=
  match fuel with
  | O => None
  | S fuel =>
      inner ← iPrev inner;
      if negb (iValid inner) then Some (inner, false)
      else
        k ← iKey inner;
        if @Compare C (ExtractUserKey k) saved_key <? 0 then Some (inner, true) else Prev_scan fuel inner saved_key
  end.

Definition DbIterPrev (fuel : nat) (s : D * DBIter I) : option (D * DBIter I) :=
  let '(db, it) := s in
  guarded (valid_ it)
    (match iter_direction it with
     | kForward =>
         k ← iKey (iter_ it);
         let saved := ExtractUserKey k in
         '(inner, found) ← Prev_scan fuel (iter_ it) saved;
         let it := with_iter it inner in
         if found : bool then FindPrevUserEntry fuel db (with_direction (with_saved it saved (saved_value_ it)) kReverse)
         else Some (db, with_saved (with_valid it false) [] [])
     | kReverse => FindPrevUserEntry fuel db it
     end).

Definition DbIterSeek (fuel : nat) (s : D * DBIter I) (target : bytes) : option (D * DBIter I) :=
  let '(db, it) := s in
  let saved := AppendInternalKey [] (MkParsed target (sequence_ it) kValueTypeForSeek) in
  let it := with_saved (with_direction it kForward) saved [] in
  inner ← iSeek (iter_ it) saved;
  let it := with_iter it inner in
  if iValid inner then FindNextUserEntry fuel db it false else Some (db, with_valid it false).

Definition DbIterSeekToFirst (fuel : nat) (s : D * DBIter I) : option (D * DBIter I) :=
  let '(db, it) := s in
  let it := with_saved (with_direction it kForward) (saved_key_ it) [] in
  inner ← iSeekToFirst (iter_ it);
  let it := with_iter it inner in
  if iValid inner then FindNextUserEntry fuel db it false else Some (db, with_valid it false).

Definition DbIterSeekToLast (fuel : nat) (s : D * DBIter I) : option (D * DBIter I) :=
  let '(db, it) := s in
  let it := with_saved (with_direction it kReverse) (saved_key_ it) [] in
  inner ← iSeekToLast (iter_ it);
  FindPrevUserEntry fuel db (with_iter it inner).

(** The iterator as the interface shows it: its state is the database it samples
    and itself; [fuel] bounds the scans over internal entries. *)
Definition DbIter_ops (fuel : nat) : IteratorOps (D * DBIter I) := {|
  iValid := DbIterValid;
  iKey := DbIterKey;
  iValue := DbIterValue;
  iStatus := DbIterStatus;
  iSeekToFirst := DbIterSeekToFirst fuel;
  iSeekToLast := DbIterSeekToLast fuel;
  iSeek := DbIterSeek fuel;
  iNext := DbIterNext fuel;
  iPrev := DbIterPrev fuel;
|}.

End DbIter.

(** What the database promises: sampling never fails and keeps [inv]. *)
Class SamplerLaws (D : Type) `{Sampler D} (inv : D → Prop) : Prop := {
  sample_ok k db : inv db → ∃ db', sample k db = Some db' ∧ inv db'
}.

(** ** Sampling *)

(** Two draws in a row are not both zero. *)
Lemma period_nonzero seed : 0 < seed < M → Next seed mod (2 * kReadBytesPeriod) = 0 →
  Next (Next seed) mod (2 * kReadBytesPeriod) ≠ 0.
Proof.
  intros Hs E. destruct (Next_mod seed Hs) as [_ Hn]. set (x := Next seed) in *.
  assert (forallb (λ k, negb (Next (Z.of_nat k * (2 * kReadBytesPeriod)) mod (2 * kReadBytesPeriod) =? 0)) (seq 1 1023) = true) as Hall
    by (vm_compute; reflexivity).
  rewrite forallb_forall in Hall. apply Z.mod_divide in E as [k Hk]; [|done]. unfold M, kReadBytesPeriod in *.
  specialize (Hall (Z.to_nat k)). rewrite Z2Nat.id, <-Hk in Hall by lia.
  assert (In (Z.to_nat k) (seq 1 1023)) as Hin by (apply in_seq; lia).
  apply Hall in Hin. apply negb_true_iff, Z.eqb_neq in Hin. done.
Qed.

Section sampling.
  Context {D : Type} `{Sampler D} (inv : D → Prop) {SL : SamplerLaws D inv}.

Lemma sampling_loop_ok k bytes_read : bytes_read < 2 ^ 63 → ∀ fuel db rnd remaining,
  inv db → 0 < rnd < M → 0 <= remaining < 2 ^ 64 →
  2 * (bytes_read - remaining) <= Z.of_nat fuel ∨
  2 * (bytes_read - remaining) <= Z.of_nat fuel + 1 ∧ Next rnd mod (2 * kReadBytesPeriod) ≠ 0 →
  ∃ db' rnd' remaining', sampling_loop fuel k bytes_read db rnd remaining = Some (db', rnd', remaining') ∧
    inv db' ∧ 0 < rnd' < M ∧ bytes_read <= remaining' < 2 ^ 64.
Proof using SL.
  intros Hb. induction fuel as [|fuel IH]; intros db rnd remaining Hi Hr Hrem Hf; simpl;
    destruct (Z.ltb_spec remaining bytes_read) as [Hlt|Hge]; try (eexists db, rnd, remaining; split_and!; (done || lia)).
  unfold Uniform. destruct (Next_mod rnd Hr) as [_ Hn].
  pose proof (Z.mod_pos_bound (Next rnd) (2 * kReadBytesPeriod) ltac:(done)) as Hp. unfold kReadBytesPeriod in Hp.
  set (p := Next rnd mod _) in *. destruct (sample_ok k db Hi) as (db' & -> & Hi'). cbn [mbind option_bind].
  rewrite u64_small by range_lia.
  destruct (IH db' (Next rnd) (remaining + p) Hi' Hn ltac:(lia)) as (db2 & rnd2 & r2 & E & ? & ? & ?).
  { destruct (Z.eq_dec p 0) as [Ez|]; [|left; lia]. right. split; [lia|]. by apply period_nonzero. }
  by exists db2, rnd2, r2.
Qed.

Lemma sampling_ok k bytes_read db rnd remaining : 0 <= bytes_read < 2 ^ 63 → inv db → 0 < rnd < M → 0 <= remaining < 2 ^ 64 →
  ∃ db' rnd' remaining', sampling_loop (sampling_fuel bytes_read) k bytes_read db rnd remaining = Some (db', rnd', remaining') ∧
    inv db' ∧ 0 < rnd' < M ∧ bytes_read <= remaining' < 2 ^ 64.
Proof using SL.
  intros Hb Hi Hr Hrem. destruct (sampling_loop_ok k bytes_read ltac:(lia) (sampling_fuel bytes_read) db rnd remaining Hi Hr Hrem)
    as (db' & rnd' & r' & ? & ? & ? & ?); [left; unfold sampling_fuel; lia|]. by exists db', rnd', r'.
Qed.

End sampling.

(** ** The snapshot

    [ws] are the writes the internal iterator shows, sorted by internal key. *)

Definition entry_kv (w : Write) : bytes * bytes := (ikey_of w, wvalue w).
Definition user_kv (w : Write) : bytes * bytes := (wkey w, wvalue w).

Section Snapshot.
  Context (C : Comparator) (s : Z) (ws : list Write).

(** An earlier write that the snapshot sees has the user key. *)
Definition shadowed (i : nat) (u : bytes) : bool :=
  existsb (λ w, (wseq w <=? s) && (@Compare C (wkey w) u =? 0)) (take i ws).

Definition shown (w : Write) : bool := wseq w <=? s.

(** The [i]-th write is what the snapshot holds for its user key. *)
Definition emits (i : nat) : bool :=
  match ws !! i with
  | Some w => shown w && bool_decide (wtype w = kTypeValue) && negb (shadowed i (wkey w))
  | None => false
  end.

Fixpoint view (i : nat) : list (bytes * bytes) :=
  match i with
  | O => []
  | S i => view i ++ (if emits i then user_kv <$> take 1 (drop i ws) else [])
  end.

(** The user keys and values of the snapshot, in order. *)
Definition snapshot_view : list (bytes * bytes) := view (length ws).

Definition rank (i : nat) : nat := length (view i).

Lemma view_S i w : ws !! i = Some w → view (S i) = view i ++ (if emits i then [user_kv w] else []).
Proof. intros Hi. simpl. rewrite (drop_S ws w i Hi). simpl. by destruct (emits i). Qed.

Lemma rank_S i : rank (S i) = if emits i then S (rank i) else rank i.
Proof.
  unfold rank. destruct (ws !! i) as [w|] eqn:Hi.
  - rewrite (view_S i w Hi), length_app. destruct (emits i); simpl; lia.
  - simpl. unfold emits. rewrite Hi. by rewrite app_nil_r.
Qed.

Lemma rank_same i j : (i <= j)%nat → (∀ q, (i <= q < j)%nat → emits q = false) → rank j = rank i.
Proof.
  intros Hij. induction Hij as [|j Hij IH]; intros Hno; [done|]. rewrite rank_S, (Hno j) by lia. apply IH. intros; apply Hno; lia.
Qed.

Lemma view_prefix i j : (i <= j)%nat → ∃ r, view j = view i ++ r.
Proof.
  induction 1 as [|j Hij (r & IH)]; [exists []; by rewrite app_nil_r|]. simpl. rewrite IH. eexists. by rewrite <-app_assoc.
Qed.

Lemma emits_lt q : emits q = true → (q < length ws)%nat.
Proof. unfold emits. destruct (ws !! q) eqn:E; [|done]. intros _. by eapply lookup_lt_Some. Qed.

Lemma view_at q w : emits q = true → ws !! q = Some w → snapshot_view !! rank q = Some (user_kv w).
Proof.
  intros He Hq. destruct (view_prefix (S q) (length ws)) as [r Hr]; [by apply emits_lt|]. unfold snapshot_view. rewrite Hr, (view_S q w Hq), He.
  rewrite <-app_assoc. rewrite lookup_app_r by done. unfold rank. by rewrite Nat.sub_diag.
Qed.

Lemma emits_write q : emits q = true → ∃ w, ws !! q = Some w ∧ wseq w <= s ∧ wtype w = kTypeValue ∧ shadowed q (wkey w) = false.
Proof.
  unfold emits. destruct (ws !! q) as [w|] eqn:Hq; [|done]. rewrite !andb_true_iff, negb_true_iff, bool_decide_eq_true.
  unfold shown. rewrite Z.leb_le. intros [[? ?] ?]. by exists w.
Qed.

Lemma emits_intro q w : ws !! q = Some w → wseq w <= s → wtype w = kTypeValue → shadowed q (wkey w) = false → emits q = true.
Proof.
  intros Hq ? ? Hs. unfold emits. rewrite Hq, !andb_true_iff, negb_true_iff, bool_decide_eq_true. unfold shown. by rewrite Z.leb_le.
Qed.

Lemma shadowed_true i u : shadowed i u = true ↔ ∃ q w, (q < i)%nat ∧ ws !! q = Some w ∧ wseq w <= s ∧ @Compare C (wkey w) u = 0.
Proof.
  unfold shadowed. rewrite existsb_exists. split.
  - intros (w & [q Hq]%list_elem_of_In%list_elem_of_lookup_1 & E). apply lookup_take_Some in Hq as [Hq Hlt].
    rewrite andb_true_iff, Z.leb_le, Z.eqb_eq in E. by exists q, w.
  - intros (q & w & Hlt & Hq & E). exists w. split; [|by rewrite andb_true_iff, Z.leb_le, Z.eqb_eq].
    apply list_elem_of_In, list_elem_of_lookup_2 with q. by apply lookup_take_Some.
Qed.

Lemma shadowed_false i u : shadowed i u = false ↔ ∀ q w, (q < i)%nat → ws !! q = Some w → wseq w <= s → @Compare C (wkey w) u ≠ 0.
Proof.
  split.
  - intros E q w Hlt Hq Hs Hc. assert (shadowed i u = true); [|congruence]. apply shadowed_true. by exists q, w.
  - intros Hno. destruct (shadowed i u) eqn:E; [|done]. apply shadowed_true in E as (q & w & Hlt & Hq & Hs & Hc). by destruct (Hno q w).
Qed.

End Snapshot.

(** ** The moves *)

Section Moves.
  Context {D I : Type} `{Sampler D} `{IteratorOps I} (B : Z) (C : Comparator) {L : ComparatorLaws C}.
  Context (inv : D → Prop) {SL : SamplerLaws D inv} (s : Z) (ws : list Write).
  Context (Hok : Forall write_ok ws) (Hsort : keys_sorted (C := InternalKeyComparator C) (entry_kv <$> ws)).

Abbreviation emits := (emits C s ws).
Abbreviation rank := (rank C s ws).
Abbreviation shadowed := (shadowed C s ws).
Abbreviation kvs := (snapshot_view C s ws).
Abbreviation entries := (entry_kv <$> ws).

Lemma ws_ok i w : ws !! i = Some w → write_ok w.
Proof using Hok. intros Hi. by eapply Forall_lookup_1. Qed.

Lemma order i j wi wj : (i < j)%nat → ws !! i = Some wi → ws !! j = Some wj →
  @Compare C (wkey wi) (wkey wj) < 0 ∨ @Compare C (wkey wi) (wkey wj) = 0 ∧ wseq wj <= wseq wi.
Proof using Hok Hsort.
  intros Hij Hi Hj. pose proof (Hsort i j (entry_kv wi) (entry_kv wj) Hij) as Hc. rewrite !list_lookup_fmap, Hi, Hj in Hc.
  specialize (Hc eq_refl eq_refl). destruct (ws_ok i wi Hi) as (Hsi & _), (ws_ok j wj Hj) as (Hsj & _).
  change (InternalKeyCompare C (ikey_of wi) (ikey_of wj) < 0) in Hc.
  apply InternalKeyCompare_lt in Hc. unfold ikey_of in Hc. rewrite !ExtractUserKey_ikey, !ExtractTag_ikey, !PackSequenceAndType_value in Hc by done.
  destruct (wtype wi), (wtype wj); simpl in Hc; lia.
Qed.

Lemma order_le i j wi wj : (i <= j)%nat → ws !! i = Some wi → ws !! j = Some wj → @Compare C (wkey wi) (wkey wj) <= 0.
Proof using Hok Hsort L.
  intros Hij Hi Hj. destruct (decide (i = j)) as [->|]; [assert (wi = wj) as -> by congruence; rewrite Compare_refl; lia|].
  destruct (order i j wi wj ltac:(lia) Hi Hj); lia.
Qed.

(** The iterator's own state, with the internal iterator at [c]. *)
Definition iter_base (st : D * DBIter I) (c : option nat) : Prop :=
  inv st.1 ∧ sequence_ st.2 = s ∧ iter_status st.2 = Status_OK ∧ 0 < rnd_ st.2 < M ∧
  0 <= bytes_until_read_sampling_ st.2 < 2 ^ 64 ∧ reads (B + 8) (InternalKeyComparator C) entries (iter_ st.2) c.

Lemma ParseKey_ok db it i w : iter_base (db, it) (Some i) → ws !! i = Some w →
  ∃ db' r l, ParseKey db it = Some (db', with_sampling it r l, Some (MkParsed (wkey w) (wseq w) (wtype w))) ∧
    iter_base (db', with_sampling it r l) (Some i).
Proof using Hok SL.
  intros (Hi & Hs & Hst & Hr & Hb & Hrd) Hw. destruct (reads_lookup _ _ _ _ _ Hrd) as (kv & Hkv & _ & Ek & Ev).
  rewrite list_lookup_fmap, Hw in Hkv. injection Hkv as <-. cbn [entry_kv fst snd] in *. unfold ParseKey. cbn [snd] in *. rewrite Ek, Ev.
  cbn [mbind option_bind]. destruct (ws_ok i w Hw) as (Hsq & Hk & Hv).
  pose proof (size_nonneg (wvalue w)). pose proof (size_nonneg (wkey w)).
  assert (size (ikey_of w) = size (wkey w) + 8) as Esz by apply size_ikey.
  rewrite (u64_small (size (ikey_of w) + _)) by range_lia.
  destruct (sampling_ok inv (ikey_of w) (size (ikey_of w) + size (wvalue w)) db (rnd_ it) (bytes_until_read_sampling_ it))
    as (db' & rnd' & r' & -> & Hi' & Hr' & Hb'); [range_lia|done..|]. cbn [mbind option_bind].
  rewrite u64_small by range_lia. replace (ParseInternalKey (ikey_of w)) with (Some (MkParsed (wkey w) (wseq w) (wtype w)))
    by (symmetry; by apply ParseInternalKey_ikey). eexists db', _, _. split; [done|].
  unfold iter_base, with_sampling.
  cbn [fst snd iter_ sequence_ iter_status rnd_ bytes_until_read_sampling_]. split_and!; try done; try lia; range_lia.
Qed.

(** ** Moving forward *)

(** The iterator stands at [c]. *)
Definition dbiter_at (st : D * DBIter I) (c : option nat) : Prop :=
  (∃ p, iter_base st p) ∧
  match c with
  | None => valid_ st.2 = false
  | Some j => valid_ st.2 = true ∧ ∃ q w, emits q = true ∧ ws !! q = Some w ∧ j = rank q ∧
      match iter_direction st.2 with
      | kForward => iter_base st (Some q)
      | kReverse => saved_key_ st.2 = wkey w ∧ saved_value_ st.2 = wvalue w ∧ ∃ p, iter_base st p ∧
          (match p with None => 0 | Some p => S p end <= q)%nat ∧
          (∀ i wi, (match p with None => 0 | Some p => S p end <= i < q)%nat → ws !! i = Some wi → s < wseq wi)
      end
  end.

Lemma rank_end : rank (length ws) = length kvs.
Proof. done. Qed.

Lemma cursor_emits q : emits q = true → cursor kvs (rank q) = Some (rank q).
Proof.
  intros He. destruct (emits_write _ _ _ _ He) as (w & Hw & _). apply cursor_Some. eapply lookup_lt_Some. by eapply view_at.
Qed.

Lemma not_emits_hidden i w : ws !! i = Some w → s < wseq w → emits i = false.
Proof.
  intros Hi Hlt. destruct (emits i) eqn:E; [|done]. apply emits_write in E as (w' & Hw' & ? & _). assert (w' = w) as -> by congruence. lia.
Qed.

(** What [skipping] and [saved_key_] stand for at internal position [i], when the
    entries before [b] have been shown: they hide what is shadowed so far or shown,
    and nothing else. *)
Definition skips (i b : nat) (skipping : bool) (skip : bytes) : Prop :=
  ∀ q w, (i <= q)%nat → ws !! q = Some w → wseq w <= s →
    let hides := skipping = true ∧ @Compare C (wkey w) skip <= 0 in
    (shadowed i (wkey w) = true ∨ (q < b)%nat → hides) ∧ (hides → shadowed q (wkey w) = true ∨ (q < b)%nat).

Lemma shadowed_S i w u : ws !! i = Some w →
  shadowed (S i) u = true ↔ shadowed i u = true ∨ (wseq w <= s ∧ @Compare C (wkey w) u = 0).
Proof.
  intros Hi. rewrite !shadowed_true. split.
  - intros (q & w' & Hlt & Hq & ? & ?). destruct (decide (q = i)) as [->|]; [right; assert (w' = w) as -> by congruence; done|].
    left. exists q, w'. split_and!; (done || lia).
  - intros [(q & w' & Hlt & Hq & ? & ?)|[? ?]]; [exists q, w'; split_and!; (done || lia)|]. exists i, w. split_and!; (done || lia).
Qed.

Lemma skips_hidden i b skipping skip w : ws !! i = Some w → s < wseq w → skips i b skipping skip → skips (S i) b skipping skip.
Proof.
  intros Hi Hlt Hk q wq Hq Hw Hs. destruct (Hk q wq ltac:(lia) Hw Hs) as [H1 H2]. split; [|done]. rewrite (shadowed_S i w _ Hi).
  intros [[Hd|[? _]]|Hd]; [tauto|lia|tauto].
Qed.

Lemma skips_value i b skipping skip w : ws !! i = Some w → skipping = true → @Compare C (wkey w) skip <= 0 →
  skips i b skipping skip → skips (S i) b skipping skip.
Proof using L.
  intros Hi Hsk Hle Hk q wq Hq Hw Hs. destruct (Hk q wq ltac:(lia) Hw Hs) as [H1 H2]. split; [|done]. rewrite (shadowed_S i w _ Hi).
  intros [[Hd|[_ Hc]]|Hd]; [tauto| |tauto]. split; [done|]. pose proof (Compare_eq_l _ _ skip Hc). lia.
Qed.

Lemma skips_after i b w : ws !! i = Some w → wseq w <= s → (b <= S i)%nat → skips (S i) b true (wkey w).
Proof using L Hok Hsort.
  intros Hi Hs0 Hbi q wq Hq Hw Hs. pose proof (order_le i q w wq ltac:(lia) Hi Hw) as Hle. split.
  - rewrite (shadowed_S i w _ Hi). intros Hd. split; [done|]. destruct Hd as [[Hd|[_ Hc]]|Hd]; [|apply Compare_eq_sym in Hc; lia|lia].
    apply shadowed_true in Hd as (q' & w' & Hlt & Hq' & _ & Hc). pose proof (order_le q' i w' w ltac:(lia) Hq' Hi).
    pose proof (Compare_eq_l _ _ (wkey w) Hc). lia.
  - intros [_ Hc]. left. apply shadowed_true. exists i, w. split_and!; try done. apply Compare_le_ge in Hc. lia.
Qed.

Lemma rank_max_S i b : rank (Nat.max i b) = rank b → ((b <= i)%nat → emits i = false) → rank (Nat.max (S i) b) = rank b.
Proof.
  intros E Hno. destruct (Nat.le_gt_cases (S i) b); [by rewrite Nat.max_r by lia|].
  rewrite Nat.max_l in E |- * by lia. by rewrite rank_S, Hno by lia.
Qed.

Lemma iter_base_next db it i : iter_base (db, it) (Some i) → ∃ inner, iNext (iter_ it) = Some inner ∧
  iValid inner = bool_decide (S i < length ws)%nat ∧ iter_base (db, with_iter it inner) (cursor entries (S i)).
Proof.
  intros (Hi & Hs & Hst & Hr & Hb & Hrd). destruct (co_next _ _ _ _ (reads_cursor _ _ _) _ _ Hrd) as (inner & E & Hrd').
  exists inner. split; [done|]. split; [|exact (conj Hi (conj Hs (conj Hst (conj Hr (conj Hb Hrd')))))]. rewrite (co_valid _ _ _ _ (reads_cursor _ _ _) _ _ Hrd').
  apply bool_decide_ext. unfold cursor. rewrite length_fmap. case_decide; split; try done.
Qed.

Lemma emits_exact i b w skipping skip : ws !! i = Some w → wseq w <= s → wtype w = kTypeValue → skips i b skipping skip →
  (b <= i)%nat → emits i = negb (skipping && (@Compare C (wkey w) skip <=? 0)).
Proof.
  intros Hi Hs Ht Hk Hbi. destruct (Hk i w ltac:(lia) Hi Hs) as [H1 H2]. destruct (skipping && _) eqn:E; simpl.
  - apply andb_true_iff in E as [E1 E2%Z.leb_le]. destruct (H2 (conj E1 E2)) as [Hsh|]; [|lia].
    destruct (emits i) eqn:Ee; [|done]. apply emits_write in Ee as (w' & Hw' & _ & _ & Hns). congruence.
  - eapply emits_intro; [done..|]. destruct (shadowed i (wkey w)) eqn:Esh; [|done].
    destruct (H1 (or_introl eq_refl)) as [E1 E2%Z.leb_le]. rewrite E1, E2 in E. done.
Qed.

Lemma FindNext_spec b fuel : (b <= length ws)%nat → ∀ i db it skipping, iter_base (db, it) (Some i) → iter_direction it = kForward →
  skips i b skipping (saved_key_ it) → rank (Nat.max i b) = rank b →
  (∀ q w, (i <= q < b)%nat → ws !! q = Some w → wseq w <= s → wtype w = kTypeValue) → (length ws - i <= fuel)%nat →
  ∃ st, FindNextUserEntry C fuel db it skipping = Some st ∧ dbiter_at st (cursor kvs (rank b)).
Proof using L SL Hok Hsort.
  intros Hb. induction fuel as [|fuel IH]; intros i db it skipping Hbase Hdir Hk Hrank Hval Hfuel.
  { destruct Hbase as (_ & _ & _ & _ & _ & Hrd). destruct (reads_lookup _ _ _ _ _ Hrd) as (kv & Hkv & _).
    apply lookup_lt_Some in Hkv. rewrite length_fmap in Hkv. lia. }
  assert (∃ w, ws !! i = Some w) as [w Hw].
  { destruct Hbase as (_ & _ & _ & _ & _ & Hrd). destruct (reads_lookup _ _ _ _ _ Hrd) as (kv & Hkv & _).
    rewrite list_lookup_fmap in Hkv. destruct (ws !! i); [by eexists|done]. }
  destruct (ParseKey_ok db it i w Hbase Hw) as (db' & r & l & E & Hbase'). cbn [FindNextUserEntry]. rewrite E. cbn [mbind option_bind].
  set (it1 := with_sampling it r l) in *.
  assert (∀ it2 skipping', iter_base (db', it2) (Some i) → iter_direction it2 = kForward → skips (S i) b skipping' (saved_key_ it2) →
    ((b <= i)%nat → emits i = false) → ∃ st, (inner ← iNext (iter_ it2);
        if iValid inner then FindNextUserEntry C fuel db' (with_iter it2 inner) skipping'
        else Some (db', with_valid (with_saved (with_iter it2 inner) [] (saved_value_ (with_iter it2 inner))) false)) = Some st ∧
      dbiter_at st (cursor kvs (rank b))) as Hnext.
  { intros it2 skipping' Hb2 Hd2 Hk2 Hno. destruct (iter_base_next db' it2 i Hb2) as (inner & -> & Hv & Hb3). cbn [mbind option_bind].
    rewrite Hv. pose proof (rank_max_S i b Hrank Hno) as Hrank'. destruct (decide (S i < length ws)%nat) as [Hlt|Hge].
    - rewrite bool_decide_eq_true_2 by done. rewrite cursor_Some in Hb3 by by rewrite length_fmap.
      apply (IH (S i)); try done; [|lia]. intros q wq Hq. apply Hval. lia.
    - rewrite bool_decide_eq_false_2 by done. eexists. split; [done|].
      apply lookup_lt_Some in Hw. rewrite Nat.max_l in Hrank' by lia. replace (S i) with (length ws) in Hrank' by lia.
      rewrite <-Hrank', rank_end, cursor_None by done. split; [|done]. eexists. exact Hb3. }
  cbn [sequence type user_key]. replace (sequence_ it1) with s by (symmetry; apply Hbase').
  destruct (Z.leb_spec (wseq w) s) as [Hsh|Hhid].
  2: { apply Hnext; try done; [by apply (skips_hidden i b _ _ w)|]. intros _. by eapply not_emits_hidden. }
  destruct (wtype w) eqn:Et.
  - destruct (Nat.le_gt_cases b i) as [Hbi|Hib].
    + apply Hnext; try done; [apply (skips_after i b w Hw Hsh); lia|]. intros _. destruct (emits i) eqn:Ee; [|done].
      apply emits_write in Ee as (w' & Hw' & _ & Ht' & _). congruence.
    + rewrite (Hval i w ltac:(lia) Hw Hsh) in Et. done.
  - change (saved_key_ it1) with (saved_key_ it). destruct (Nat.le_gt_cases b i) as [Hbi|Hib].
    + pose proof (emits_exact i b w skipping (saved_key_ it) Hw Hsh Et Hk Hbi) as Ee. destruct (skipping && _) eqn:Esk.
      * apply andb_true_iff in Esk as [E1 E2%Z.leb_le]. apply Hnext; try done. by apply (skips_value i b _ _ w).
      * eexists. split; [done|]. simpl in Ee. rewrite Nat.max_l in Hrank by done. rewrite <-Hrank, (cursor_emits i Ee).
        split; [by exists (Some i)|]. split; [done|]. exists i, w. split_and!; try done. unfold it1. cbn [snd iter_direction with_saved with_valid with_sampling]. rewrite Hdir. exact Hbase'.
    + destruct (proj1 (Hk i w ltac:(lia) Hw Hsh) (or_intror Hib)) as [E1 E2].
      rewrite E1, (proj2 (Z.leb_le _ _) E2). cbn [andb]. apply Hnext; try done; [|lia]. rewrite E1 in Hk. by apply (skips_value i b _ _ w).
Qed.

Context (fuel : nat) (Hfuel : (length ws <= fuel)%nat).

Lemma iter_base_any (st st' : D * DBIter I) c c' : iter_base st c → inv st'.1 → sequence_ st'.2 = sequence_ st.2 →
  iter_status st'.2 = iter_status st.2 → rnd_ st'.2 = rnd_ st.2 → bytes_until_read_sampling_ st'.2 = bytes_until_read_sampling_ st.2 →
  reads (B + 8) (InternalKeyComparator C) entries (iter_ st'.2) c' → iter_base st' c'.
Proof. clear Hfuel. intros (Hi & Hs & Hst & Hr & Hb & Hrd) ? E1 E2 E3 E4 ?. unfold iter_base. by rewrite E1, E2, E3, E4. Qed.

Lemma valid_at (inner : I) i : (i <= length ws)%nat → reads (B + 8) (InternalKeyComparator C) entries inner (cursor entries i) →
  iValid inner = bool_decide (i < length ws)%nat.
Proof.
  clear Hfuel. intros Hi Hrd. rewrite (co_valid _ _ _ _ (reads_cursor _ _ _) _ _ Hrd). apply bool_decide_ext. unfold cursor. rewrite length_fmap.
  case_decide; split; try done.
Qed.

(** A search from internal position [i] that begins with [b] entries shown. *)
Lemma search_forward i b db it skipping : (i <= b)%nat → (b <= length ws)%nat → iter_base (db, it) (cursor entries i) → (i < length ws)%nat →
  iter_direction it = kForward → skips i b skipping (saved_key_ it) →
  (∀ q w, (i <= q < b)%nat → ws !! q = Some w → wseq w <= s → wtype w = kTypeValue) →
  ∃ st, FindNextUserEntry C fuel db it skipping = Some st ∧ dbiter_at st (cursor kvs (rank b)).
Proof using L SL Hok Hsort Hfuel.
  intros Hib Hb Hbase Hlt Hdir Hk Hval. rewrite cursor_Some in Hbase by by rewrite length_fmap.
  apply (FindNext_spec b fuel Hb i); try done; [by rewrite Nat.max_r by lia|lia].
Qed.

Lemma DbIterSeekToFirst_spec st c : dbiter_at st c → ∃ st', DbIterSeekToFirst C fuel st = Some st' ∧ dbiter_at st' (cursor kvs 0).
Proof using L SL Hok Hsort Hfuel.
  intros ((p & Hb) & _). destruct st as [db it]. unfold DbIterSeekToFirst. cbn [iter_ with_saved with_direction].
  destruct (co_first _ _ _ _ (reads_cursor _ _ _) _ _ (proj2 (proj2 (proj2 (proj2 (proj2 Hb)))))) as (inner & E & Hrd). cbn [snd] in E.
  rewrite E. cbn [mbind option_bind]. rewrite (valid_at inner 0 ltac:(lia) Hrd).
  assert (iter_base (db, with_iter (with_saved (with_direction it kForward) (saved_key_ it) []) inner) (cursor entries 0)) as Hb'
    by (eapply iter_base_any; [exact Hb|apply Hb|done..]).
  case_bool_decide as Hlt.
  - apply (search_forward 0 0); [lia|lia|done|done|done| |intros; lia]. intros q w _ _ _. split; [intros [Hd|Hd]; [done|lia]|by intros [? _]].
  - eexists. split; [done|]. assert (ws = []) as Ews by (destruct ws; [done|simpl in Hlt; lia]).
    rewrite cursor_None by by rewrite Ews. split; [|done]. eexists. exact Hb'.
Qed.

Lemma emits_shown q : emits q = true → ∃ w, ws !! q = Some w ∧ wseq w <= s ∧ wtype w = kTypeValue ∧ snapshot_view C s ws !! rank q = Some (user_kv w).
Proof. clear Hfuel. intros He. destruct (emits_write _ _ _ _ He) as (w & Hw & ? & ? & _). exists w. split_and!; try done. by eapply view_at. Qed.

(** Every entry of the view comes from a write that emits it. *)
Lemma view_inv j kv : kvs !! j = Some kv → ∃ q w, emits q = true ∧ ws !! q = Some w ∧ rank q = j ∧ kv = user_kv w.
Proof.
  clear Hfuel. assert (∀ n, (n <= length ws)%nat → ∀ j kv, view C s ws n !! j = Some kv →
    ∃ q w, emits q = true ∧ ws !! q = Some w ∧ rank q = j ∧ kv = user_kv w) as Hn; [|by apply Hn].
  induction n as [|n IH]; intros Hle k kv' Hk; [done|]. destruct (lookup_lt_is_Some_2 ws n ltac:(lia)) as [w Hw].
  rewrite (view_S _ _ _ n w Hw) in Hk. apply lookup_app_Some in Hk as [Hk|[Hge Hk]]; [apply (IH ltac:(lia) _ _ Hk)|].
  destruct (emits n) eqn:He; [|done]. apply list_lookup_singleton_Some in Hk as [Hk <-]. exists n, w. split_and!; try done.
  unfold DbIter.rank. lia.
Qed.

Lemma rank_le i j : (i <= j)%nat → (rank i <= rank j)%nat.
Proof. clear Hfuel. intros Hij. destruct (view_prefix C s ws i j Hij) as [r E]. unfold DbIter.rank. rewrite E, length_app. lia. Qed.

Lemma rank_lt q b : emits q = true → (rank q < rank b)%nat ↔ (q < b)%nat.
Proof.
  clear Hfuel. intros He. split; intros Hlt.
  - destruct (Nat.lt_ge_cases q b) as [|Hge]; [done|]. pose proof (rank_le b q Hge). lia.
  - pose proof (rank_le (S q) b Hlt) as Hle. rewrite rank_S, He in Hle. lia.
Qed.

Lemma seek_compare i w target : valid_seq s → ws !! i = Some w →
  (InternalKeyCompare C (ikey_of w) (ikey target s kValueTypeForSeek) < 0 →
     @Compare C (wkey w) target < 0 ∨ @Compare C (wkey w) target = 0 ∧ s < wseq w) ∧
  (0 <= InternalKeyCompare C (ikey_of w) (ikey target s kValueTypeForSeek) → 0 <= @Compare C (wkey w) target).
Proof using Hok.
  clear Hfuel. intros Hs Hw. destruct (ws_ok i w Hw) as (Hq & _).
  pose proof (InternalKeyCompare_lt C (ikey_of w) (ikey target s kValueTypeForSeek)) as Hlt. unfold ikey_of in *.
  rewrite !ExtractUserKey_ikey, !ExtractTag_ikey, !PackSequenceAndType_value in Hlt by done. split; intros Hc.
  - apply Hlt in Hc. destruct (wtype w); simpl in Hc; lia.
  - destruct (Z.lt_ge_cases (@Compare C (wkey w) target) 0); lia.
Qed.

Lemma DbIterSeek_spec st c target : valid_seq s → size target < B → dbiter_at st c →
  ∃ st' m, DbIterSeek C fuel st target = Some st' ∧ is_lower_bound (C := C) kvs target m ∧ dbiter_at st' (cursor kvs m).
Proof using L SL Hok Hsort Hfuel.
  intros Hs Htgt ((p & Hb) & _). destruct st as [db it]. unfold DbIterSeek. cbn [iter_ with_saved with_direction].
  replace (sequence_ it) with s by (symmetry; apply Hb). change (AppendInternalKey [] _) with (ikey target s kValueTypeForSeek).
  destruct (co_seek _ _ _ _ (reads_cursor (B + 8) (InternalKeyComparator C) _) _ _ (ikey target s kValueTypeForSeek) ltac:(rewrite ikey_app, size_app, size_EncodeFixed64; lia) (proj2 (proj2 (proj2 (proj2 (proj2 Hb))))))
    as (inner & n & E & (Hn & Hlt & Hge) & Hrd). cbn [snd] in E. rewrite length_fmap in Hn. rewrite E. cbn [mbind option_bind].
  set (it' := with_iter _ inner). assert (iter_base (db, it') (cursor entries n)) as Hb' by (eapply iter_base_any; [exact Hb|apply Hb|done..]).
  assert (∀ q w, ws !! q = Some w → (q < n)%nat → @Compare C (wkey w) target < 0 ∨ @Compare C (wkey w) target = 0 ∧ s < wseq w) as Hlt'.
  { intros q w Hw Hq. apply (seek_compare q w target Hs Hw). apply (Hlt q (entry_kv w)); [by rewrite list_lookup_fmap, Hw|done]. }
  assert (∀ q w, ws !! q = Some w → (n <= q)%nat → 0 <= @Compare C (wkey w) target) as Hge'.
  { intros q w Hw Hq. apply (seek_compare q w target Hs Hw). apply (Hge q (entry_kv w)); [by rewrite list_lookup_fmap, Hw|done]. }
  assert (is_lower_bound (C := C) kvs target (rank n)) as Hbound.
  { split; [rewrite <-rank_end; by apply rank_le|]. split; intros j kv Hj Hjn; apply view_inv in Hj as (q & w & He & Hw & <- & ->).
    - apply (rank_lt q n He) in Hjn. destruct (emits_shown q He) as (w' & Hw' & Hsh & _). destruct (Hlt' q w Hw Hjn) as [|[_ Hc]]; [done|].
      assert (w' = w) as -> by congruence. lia.
    - destruct (Nat.lt_ge_cases q n) as [Hqn|Hqn]; [apply (rank_lt q n He) in Hqn; lia|]. by apply (Hge' q w). }
  rewrite (valid_at inner n Hn Hrd). case_bool_decide as Hlen.
  - destruct (search_forward n n db it' false) as (st' & E' & Hat); try done.
    + intros q w Hq Hw Hsh. split; [|by intros [? _]]. intros [Hd|Hd]; [|lia]. exfalso.
      apply shadowed_true in Hd as (q' & w' & Hq' & Hw' & Hsh' & Hc). specialize (Hge' q w Hw Hq). pose proof (Compare_eq_l _ _ target Hc).
      destruct (Hlt' q' w' Hw' Hq') as [|[_ ?]]; lia.
    + intros; lia.
    + by exists st', (rank n).
  - eexists _, (rank n). split; [done|]. split; [done|]. replace n with (length ws) by lia. rewrite rank_end, cursor_None by done.
    split; [|done]. eexists. exact Hb'.
Qed.

(** The position after [p]. *)
Definition after (p : option nat) : nat := match p with None => 0 | Some p => S p end.

Lemma skips_reverse lo q w : emits q = true → ws !! q = Some w → (lo <= q)%nat →
  (∀ i wi, (lo <= i < q)%nat → ws !! i = Some wi → s < wseq wi) → skips lo (S q) true (wkey w).
Proof using L Hok Hsort.
  clear Hfuel. intros He Hw Hlo Hhid q' w' Hq' Hw' Hs'. destruct (emits_shown q He) as (w1 & Hw1 & Hsh & _). assert (w1 = w) as -> by congruence.
  assert (q <= q')%nat as Hqq.
  { destruct (Nat.lt_ge_cases q' q) as [Hlt|]; [|done]. pose proof (Hhid q' w' ltac:(lia) Hw'). lia. }
  pose proof (order_le q q' w w' Hqq Hw Hw') as Hle. split.
  - intros Hd. split; [done|]. destruct Hd as [(q2 & w2 & Hlt & Hw2 & _ & Hc)%shadowed_true|Hd].
    + pose proof (order_le q2 q w2 w ltac:(lia) Hw2 Hw). pose proof (Compare_eq_l _ _ (wkey w) Hc). lia.
    + assert (q' = q) as -> by lia. assert (w' = w) as -> by congruence. rewrite Compare_refl. lia.
  - intros [_ Hc]. destruct (decide (q' = q)) as [->|]; [right; lia|]. left. apply shadowed_true. exists q, w.
    split_and!; try done; [lia|]. apply Compare_le_ge in Hc. lia.
Qed.

Lemma DbIterNext_spec st j : dbiter_at st (Some j) → ∃ st', DbIterNext C fuel st = Some st' ∧ dbiter_at st' (cursor kvs (S j)).
Proof using L SL Hok Hsort Hfuel.
  destruct st as [db it]. intros ((p0 & Hb0) & Hv & q & w & He & Hw & -> & Hd). cbn [snd] in *. unfold DbIterNext. rewrite Hv. cbn [guarded].
  pose proof (emits_lt _ _ _ _ He) as Hq. assert (S (rank q) = rank (S q)) as -> by (by rewrite rank_S, He).
  destruct (emits_shown q He) as (w1 & Hw1 & Hsh & Ht & _). assert (w1 = w) as -> by congruence. destruct (iter_direction it) eqn:Ed.
  - destruct (iter_base_next db it q Hd) as (inner & E & Hvi & Hb'). rewrite E.
    destruct (reads_lookup _ _ _ _ _ (proj2 (proj2 (proj2 (proj2 (proj2 Hd)))))) as (kv & Hkv & _ & Ek & _). cbn [snd] in Ek.
    rewrite list_lookup_fmap, Hw in Hkv. injection Hkv as <-. rewrite Ek. cbn [mbind option_bind entry_kv fst].
    assert (ExtractUserKey (ikey_of w) = wkey w) as -> by apply ExtractUserKey_ikey.
    cbn [iter_ with_iter]. rewrite Hvi. case_bool_decide as Hlt; cbn [negb].
    + apply (search_forward (S q) (S q)); [lia|lia|exact Hb'|done|done| |intros; lia]. by apply skips_after.
    + eexists. split; [done|]. replace (S q) with (length ws) by lia. rewrite rank_end, cursor_None by done.
      split; [|done]. eexists. exact Hb'.
  - destruct Hd as (Ek & Ev & p & Hb & Hlo & Hhid).
    assert (∃ inner, (if negb (iValid (iter_ it)) then iSeekToFirst (iter_ it) else iNext (iter_ it)) = Some inner ∧
      iter_base (db, with_iter (with_direction it kForward) inner) (cursor entries (after p))) as (inner & -> & Hb').
    { destruct p as [p|].
      - destruct (iter_base_next db it p Hb) as (inner & E & _ & Hb'). exists inner.
        destruct (reads_lookup _ _ _ _ _ (proj2 (proj2 (proj2 (proj2 (proj2 Hb)))))) as (_ & _ & Hvi & _). cbn [snd] in Hvi. by rewrite Hvi.
      - destruct Hb as (H1 & H2 & H3 & H4 & H5 & Hrd). cbn [snd] in Hrd.
        rewrite (co_valid _ _ _ _ (reads_cursor _ _ _) _ _ Hrd), bool_decide_eq_false_2 by (by intros []). cbn [negb].
        destruct (co_first _ _ _ _ (reads_cursor _ _ _) _ _ Hrd) as (inner & E & Hrd'). exists inner. split; [done|].
        exact (conj H1 (conj H2 (conj H3 (conj H4 (conj H5 Hrd'))))). }
    cbn [mbind option_bind iter_ with_iter]. rewrite (valid_at inner (after p)); [|unfold after; lia|apply Hb'].
    rewrite bool_decide_eq_true_2 by (unfold after; lia). cbn [negb].
    apply (search_forward (after p) (S q)); [unfold after; lia|lia|exact Hb'|unfold after; lia|done| |].
    + cbn [saved_key_ with_iter with_direction]. rewrite Ek. by apply skips_reverse.
    + intros q' w' Hq' Hw' Hs'. destruct (decide (q' = q)) as [->|]; [congruence|]. pose proof (Hhid q' w' ltac:(unfold after in Hq'; lia) Hw'). lia.
Qed.

(** ** Moving backwards *)

Lemma iter_base_prev db it i : iter_base (db, it) (Some i) → ∃ inner, iPrev (iter_ it) = Some inner ∧
  iValid inner = bool_decide (0 < i)%nat ∧ iter_base (db, with_iter it inner) (last_pos i).
Proof.
  clear Hfuel. intros (Hi & Hs & Hst & Hr & Hb & Hrd). destruct (co_prev _ _ _ _ (reads_cursor _ _ _) _ _ Hrd) as (inner & E & Hrd').
  exists inner. split; [done|]. split; [|exact (conj Hi (conj Hs (conj Hst (conj Hr (conj Hb Hrd')))))].
  rewrite (co_valid _ _ _ _ (reads_cursor _ _ _) _ _ Hrd'). apply bool_decide_ext. destruct i; simpl; split; try done; lia.
Qed.

(** A write that the snapshot sees, saved, with only hidden ones after [p] before it. *)
Definition holds_back (it : DBIter I) (p : option nat) (cur : nat) (w : Write) : Prop :=
  ws !! cur = Some w ∧ wseq w <= s ∧ wtype w = kTypeValue ∧ saved_key_ it = wkey w ∧ saved_value_ it = wvalue w ∧
  (after p <= cur)%nat ∧ ∀ i wi, (after p <= i < cur)%nat → ws !! i = Some wi → s < wseq wi.

(** The state of the loop at internal position [p], begun at [p0]. *)
Definition scanned (it : DBIter I) (p : option nat) (p0 : nat) (value_type : ValueType) : Prop :=
  match value_type with
  | kTypeDeletion => ∀ q, emits q = true → (q <= p0)%nat → (q < after p)%nat
  | kTypeValue => ∃ cur w, holds_back it p cur w ∧ (cur <= p0)%nat ∧
      ∀ q, emits q = true → (q <= p0)%nat → (q < after p)%nat ∨ q = cur
  end.

Lemma holds_emits it p cur w : holds_back it p cur w →
  (∀ i wi, (i < after p)%nat → ws !! i = Some wi → wseq wi <= s → @Compare C (wkey wi) (wkey w) ≠ 0) → emits cur = true.
Proof.
  clear Hfuel. intros (Hw & Hs & Ht & _ & _ & Hle & Hhid) Hno. eapply emits_intro; [done..|]. apply shadowed_false. intros q wq Hq Hwq Hsq.
  destruct (Nat.lt_ge_cases q (after p)); [by apply (Hno q wq)|]. pose proof (Hhid q wq ltac:(lia) Hwq). lia.
Qed.

(** Going on past a write that the snapshot does not see. *)
Lemma scanned_hidden it it' p p0 vt w : saved_key_ it' = saved_key_ it → saved_value_ it' = saved_value_ it →
  ws !! p = Some w → s < wseq w → scanned it (Some p) p0 vt → scanned it' (last_pos p) p0 vt.
Proof.
  clear Hfuel. intros Ek Ev Hw Hlt. assert (after (last_pos p) = p) as Ea by (by destruct p).
  assert (∀ q, emits q = true → (q < S p)%nat → (q < p)%nat) as Hq.
  { intros q He Hq. destruct (decide (q = p)) as [->|]; [|lia]. pose proof (not_emits_hidden p w Hw Hlt). congruence. }
  destruct vt; unfold scanned, holds_back; rewrite Ea; cbn [after].
  - intros Hsc q He Hqp. auto.
  - intros (cur & wc & (H1 & H2 & H3 & H4 & H5 & H6 & H7) & Hcur & Hsc). exists cur, wc. split_and!; try congruence; try done; try lia.
    + intros i wi Hi Hwi. destruct (decide (i = p)) as [->|]; [congruence|]. apply (H7 i); [lia|done].
    + intros q He Hqp. destruct (Hsc q He Hqp) as [Hlt'|]; [left; by apply Hq|by right].
Qed.

Lemma scanned_seen it it' p p0 vt w : ws !! p = Some w → wseq w <= s → (p <= p0)%nat → scanned it (Some p) p0 vt →
  (vt = kTypeValue → 0 <= @Compare C (wkey w) (saved_key_ it)) →
  (wtype w = kTypeValue → saved_key_ it' = wkey w ∧ saved_value_ it' = wvalue w) →
  scanned it' (last_pos p) p0 (wtype w).
Proof using L Hok Hsort.
  clear Hfuel. intros Hw Hs Hp Hsc Hge Hsave. assert (after (last_pos p) = p) as Ea by (by destruct p).
  assert (∀ q, emits q = true → (q <= p0)%nat → (q <= p)%nat) as Hq.
  { intros q He Hq. destruct vt; [specialize (Hsc q He Hq); cbn [after] in Hsc; lia|].
    destruct Hsc as (cur & wc & (H1 & H2 & H3 & H4 & H5 & H6 & H7) & Hcur & Hsc). destruct (Hsc q He Hq) as [Hlt| ->]; [cbn [after] in Hlt; lia|].
    cbn [after] in H6. destruct (emits_write _ _ _ _ He) as (w' & Hw' & _ & _ & Hns). assert (w' = wc) as -> by congruence.
    destruct (proj1 (shadowed_false _ _ _ _ _) Hns p w ltac:(lia) Hw Hs). specialize (Hge eq_refl). rewrite H4 in Hge.
    pose proof (order_le p cur w wc ltac:(lia) Hw H1). lia. }
  destruct (wtype w) eqn:Et; unfold scanned, holds_back; rewrite Ea.
  - intros q He Hqp. specialize (Hq q He Hqp). destruct (decide (q = p)) as [->|]; [|lia].
    destruct (emits_write _ _ _ _ He) as (w' & Hw' & _ & ? & _). congruence.
  - destruct (Hsave eq_refl) as [E1 E2]. exists p, w. split_and!; try done; try lia. intros q He Hqp. specialize (Hq q He Hqp). lia.
Qed.

Definition same_frame (it it' : DBIter I) : Prop := iter_direction it' = iter_direction it.

Lemma FindPrev_spec p0 : ∀ fuel' p db it vt, iter_base (db, it) (Some p) → (p <= p0)%nat → (p < fuel')%nat → scanned it (Some p) p0 vt →
  ∃ db' it' vt' pf, FindPrev_loop C fuel' db it vt = Some (db', it', vt') ∧ iter_base (db', it') pf ∧ same_frame it it' ∧
    match vt' with
    | kTypeDeletion => ∀ q, emits q = true → (p0 < q)%nat
    | kTypeValue => ∃ cur w, holds_back it' pf cur w ∧ emits cur = true ∧ (cur <= p0)%nat ∧ ∀ q, emits q = true → (q <= p0)%nat → (q <= cur)%nat
    end.
Proof using L SL Hok Hsort.
  clear Hfuel. induction fuel' as [|fuel' IH]; intros p db it vt Hbase Hp Hf Hsc; [lia|].
  assert (∃ w, ws !! p = Some w) as [w Hw].
  { destruct Hbase as (_ & _ & _ & _ & _ & Hrd). destruct (reads_lookup _ _ _ _ _ Hrd) as (kv & Hkv & _).
    rewrite list_lookup_fmap in Hkv. destruct (ws !! p); [by eexists|done]. }
  destruct (ParseKey_ok db it p w Hbase Hw) as (db' & r & l & E & Hbase'). cbn [FindPrev_loop]. rewrite E. cbn [mbind option_bind].
  set (it1 := with_sampling it r l) in *.
  assert (∀ it2 vt2, iter_base (db', it2) (Some p) → same_frame it it2 →
    (∀ it3, saved_key_ it3 = saved_key_ it2 → saved_value_ it3 = saved_value_ it2 → scanned it3 (last_pos p) p0 vt2) →
    ∃ db'' it' vt' pf, (inner ← iPrev (iter_ it2); if iValid inner then FindPrev_loop C fuel' db' (with_iter it2 inner) vt2
        else Some (db', with_iter it2 inner, vt2)) = Some (db'', it', vt') ∧ iter_base (db'', it') pf ∧ same_frame it it' ∧
      match vt' with
      | kTypeDeletion => ∀ q, emits q = true → (p0 < q)%nat
      | kTypeValue => ∃ cur w, holds_back it' pf cur w ∧ emits cur = true ∧ (cur <= p0)%nat ∧ ∀ q, emits q = true → (q <= p0)%nat → (q <= cur)%nat
      end) as Hprev.
  { intros it2 vt2 Hb2 Hfr Hsc2. destruct (iter_base_prev db' it2 p Hb2) as (inner & -> & Hv & Hb3). cbn [mbind option_bind]. rewrite Hv.
    specialize (Hsc2 (with_iter it2 inner) eq_refl eq_refl). destruct p as [|p]; simpl last_pos in *.
    - rewrite bool_decide_eq_false_2 by lia. eexists db', _, vt2, None. split; [done|]. split; [done|]. split; [done|]. destruct vt2.
      + intros q He. destruct (Nat.lt_ge_cases p0 q) as [|Hle]; [done|]. specialize (Hsc2 q He Hle). simpl in Hsc2. lia.
      + destruct Hsc2 as (cur & wc & Hh & Hcur & Hq). exists cur, wc. split_and!; try done.
        * eapply holds_emits; [exact Hh|]. simpl. lia.
        * intros q He Hqp. destruct (Hq q He Hqp) as [Hc| ->]; simpl in *; lia.
    - rewrite bool_decide_eq_true_2 by lia. destruct (IH p db' (with_iter it2 inner) vt2 Hb3 ltac:(lia) ltac:(lia) Hsc2)
        as (db'' & it' & vt' & pf & E' & Hb4 & Hfr' & Hm). exists db'', it', vt', pf. split_and!; try done. unfold same_frame in *; by rewrite Hfr'. }
  cbn [sequence type user_key]. replace (sequence_ it1) with s by (symmetry; apply Hbase').
  destruct (Z.leb_spec (wseq w) s) as [Hsh|Hhid].
  2: { apply Hprev; [done|done|]. intros it3 E1 E2. by apply (scanned_hidden it it3 p p0 vt w). }
  change (saved_key_ it1) with (saved_key_ it). destruct (negb (bool_decide (vt = kTypeDeletion)) && _) eqn:Ebr.
  { apply andb_true_iff in Ebr as [Hvt Hlt%Z.ltb_lt]. destruct vt; [done|]. destruct Hsc as (cur & wc & Hh & Hcur & Hq).
    exists db', it1, kTypeValue, (Some p). split_and!; try done. exists cur, wc. split_and!; try done.
    - apply (holds_emits it (Some p) cur wc Hh). intros i wi Hi Hwi Hsi Heq. destruct Hh as (_ & _ & _ & Ek & _). rewrite Ek in Hlt.
      pose proof (order_le i p wi w ltac:(cbn [after] in Hi; lia) Hwi Hw). pose proof (Compare_le_lt_trans _ _ _ H1 Hlt). lia.
    - intros q He Hqp. destruct Hh as (_ & _ & _ & _ & _ & H6 & _). destruct (Hq q He Hqp) as [Hc| ->]; cbn [after] in *; lia. }
  assert (vt = kTypeValue → 0 <= @Compare C (wkey w) (saved_key_ it)) as Hge.
  { intros ->. simpl in Ebr. by apply Z.ltb_ge in Ebr. }
  destruct (wtype w) eqn:Et.
  - apply Hprev; [done|done|]. intros it3 _ _. rewrite <-Et. by apply (scanned_seen it it3 p p0 vt w); [..|congruence].
  - destruct (reads_lookup _ _ _ _ _ (proj2 (proj2 (proj2 (proj2 (proj2 Hbase')))))) as (kv & Hkv & _ & Ek & Ev). cbn [snd] in Ek, Ev.
    rewrite list_lookup_fmap, Hw in Hkv. injection Hkv as <-. rewrite Ek, Ev. cbn [mbind option_bind entry_kv fst snd].
    assert (ExtractUserKey (ikey_of w) = wkey w) as -> by apply ExtractUserKey_ikey.
    apply Hprev; [done|done|]. intros it3 E1 E2. rewrite <-Et. apply (scanned_seen it it3 p p0 vt w); try done.
Qed.

Lemma rank_0 : rank 0 = 0%nat.
Proof. done. Qed.

(** The search for the previous entry from internal position [c]. *)
Lemma search_backward db it c : iter_base (db, it) c → (after c <= length ws)%nat → iter_direction it = kReverse →
  ∃ st, FindPrevUserEntry C fuel db it = Some st ∧ dbiter_at st (last_pos (rank (after c))).
Proof using L SL Hok Hsort Hfuel.
  intros Hb Hc Hd. unfold FindPrevUserEntry. destruct c as [p0|].
  - destruct (reads_lookup _ _ _ _ _ (proj2 (proj2 (proj2 (proj2 (proj2 Hb)))))) as (_ & _ & Hv & _). cbn [snd] in Hv. rewrite Hv.
    destruct (FindPrev_spec p0 fuel p0 db it kTypeDeletion Hb ltac:(done) ltac:(simpl in Hc; lia)) as (db' & it' & vt & pf & -> & Hb' & Hfr & Hm).
    { intros q He Hq. simpl. lia. }
    cbn [mbind option_bind]. destruct vt.
    + eexists. split; [done|]. rewrite (rank_same C s ws 0 (after (Some p0))); [|lia|].
      * split; [|done]. eexists. exact Hb'.
      * intros q Hq. destruct (emits q) eqn:He; [|done]. specialize (Hm q He). simpl in Hq. lia.
    + destruct Hm as (cur & w & Hh & He & Hcur & Hq). eexists. split; [done|].
      rewrite (rank_same C s ws (S cur) (after (Some p0))); [|simpl; lia|].
      * rewrite rank_S, He. cbn [last_pos]. split; [by exists pf|]. split; [done|]. exists cur, w.
        destruct Hh as (H1 & H2 & H3 & H4 & H5 & H6 & H7). split_and!; try done. cbn [snd iter_direction with_valid]. rewrite Hfr, Hd.
        split_and!; try done. exists pf. split_and!; try done.
      * intros q Hqc. destruct (emits q) eqn:Heq; [|done]. simpl in Hqc. specialize (Hq q Heq). lia.
  - destruct Hb as (H1 & H2 & H3 & H4 & H5 & Hrd). cbn [snd] in Hrd.
    rewrite (co_valid _ _ _ _ (reads_cursor _ _ _) _ _ Hrd), bool_decide_eq_false_2 by (by intros []). cbn [mbind option_bind].
    eexists. split; [done|]. split; [|done]. exists None. exact (conj H1 (conj H2 (conj H3 (conj H4 (conj H5 Hrd))))).
Qed.

Lemma DbIterSeekToLast_spec st c : dbiter_at st c → ∃ st', DbIterSeekToLast C fuel st = Some st' ∧ dbiter_at st' (last_pos (length kvs)).
Proof using L SL Hok Hsort Hfuel.
  intros ((p & Hb) & _). destruct st as [db it]. unfold DbIterSeekToLast. cbn [iter_ with_saved with_direction].
  destruct (co_last _ _ _ _ (reads_cursor _ _ _) _ _ (proj2 (proj2 (proj2 (proj2 (proj2 Hb)))))) as (inner & E & Hrd). cbn [snd] in E.
  rewrite E. cbn [mbind option_bind]. rewrite length_fmap in Hrd.
  assert (after (last_pos (length ws)) = length ws) as Ea by (by destruct (length ws)).
  rewrite <-rank_end. replace (rank (length ws)) with (rank (after (last_pos (length ws)))) by (by rewrite Ea). apply search_backward; [|lia|done]. eapply iter_base_any; [exact Hb|apply Hb|done..].
Qed.

Lemma Prev_scan_spec q w : ws !! q = Some w → ∀ fuel' p inner, reads (B + 8) (InternalKeyComparator C) entries inner (Some p) →
  (p <= q)%nat → (p < fuel')%nat → (∀ i wi, (p <= i < q)%nat → ws !! i = Some wi → 0 <= @Compare C (wkey wi) (wkey w)) →
  ∃ inner' found c, Prev_scan C fuel' inner (wkey w) = Some (inner', found) ∧ reads (B + 8) (InternalKeyComparator C) entries inner' c ∧
    (if found : bool then ∃ p', c = Some p' else c = None) ∧ (after c <= q)%nat ∧
    (∀ i wi, (after c <= i < q)%nat → ws !! i = Some wi → 0 <= @Compare C (wkey wi) (wkey w)).
Proof.
  clear Hfuel. intros Hw. induction fuel' as [|fuel' IH]; intros p inner Hrd Hp Hf Hge; [lia|]. cbn [Prev_scan].
  destruct (co_prev _ _ _ _ (reads_cursor _ _ _) _ _ Hrd) as (inner' & -> & Hrd'). cbn [mbind option_bind].
  rewrite (co_valid _ _ _ _ (reads_cursor _ _ _) _ _ Hrd'). destruct p as [|p]; cbn [last_pos] in *.
  - rewrite bool_decide_eq_false_2 by (by intros []). cbn [negb]. exists inner', false, None. split_and!; try done; simpl; try lia;
      intros i wi Hi; apply Hge; lia.
  - rewrite bool_decide_eq_true_2 by done. cbn [negb]. destruct (reads_lookup _ _ _ _ _ Hrd') as (kv & Hkv & _ & -> & _).
    rewrite list_lookup_fmap in Hkv. destruct (ws !! p) as [wp|] eqn:Hwp; [|done]. injection Hkv as <-. cbn [mbind option_bind entry_kv fst].
    assert (ExtractUserKey (ikey_of wp) = wkey wp) as -> by apply ExtractUserKey_ikey.
    destruct (Z.ltb_spec (@Compare C (wkey wp) (wkey w)) 0) as [Hlt|Hge'].
    + exists inner', true, (Some p). split_and!; try done. by eexists.
    + apply (IH p inner' Hrd'); [lia|lia|]. intros i wi Hi Hwi. destruct (decide (i = p)) as [->|]; [congruence|]. apply (Hge i); [lia|done].
Qed.

Lemma DbIterPrev_spec st j : dbiter_at st (Some j) → ∃ st', DbIterPrev C fuel st = Some st' ∧ dbiter_at st' (last_pos j).
Proof using L SL Hok Hsort Hfuel.
  destruct st as [db it]. intros ((p0 & Hb0) & Hv & q & w & He & Hw & -> & Hd). cbn [snd] in *. unfold DbIterPrev. rewrite Hv. cbn [guarded].
  pose proof (emits_lt _ _ _ _ He) as Hq. destruct (iter_direction it) eqn:Ed.
  - destruct Hd as (H1 & H2 & H3 & H4 & H5 & Hrd). destruct (reads_lookup _ _ _ _ _ Hrd) as (kv & Hkv & _ & Ek & _). cbn [snd] in *.
    rewrite list_lookup_fmap, Hw in Hkv. injection Hkv as <-. rewrite Ek. cbn [mbind option_bind entry_kv fst].
    assert (ExtractUserKey (ikey_of w) = wkey w) as -> by apply ExtractUserKey_ikey.
    destruct (Prev_scan_spec q w Hw fuel q (iter_ it) Hrd ltac:(done) ltac:(lia)) as (inner & found & c & -> & Hrd' & Hc & Hle & Hge); [intros; lia|].
    cbn [mbind option_bind]. assert (rank q = rank (after c)) as ->.
    { apply rank_same; [done|]. intros i Hi. destruct (emits i) eqn:Hei; [|done]. exfalso. destruct (emits_shown i Hei) as (wi & Hwi & Hsi & _).
      destruct (emits_write _ _ _ _ He) as (w' & Hw' & _ & _ & Hns). assert (w' = w) as -> by congruence.
      destruct (proj1 (shadowed_false _ _ _ _ _) Hns i wi ltac:(lia) Hwi Hsi).
      pose proof (order_le i q wi w ltac:(lia) Hwi Hw). pose proof (Hge i wi ltac:(lia) Hwi). lia. }
    assert (iter_base (db, with_iter it inner) c) as Hb' by exact (conj H1 (conj H2 (conj H3 (conj H4 (conj H5 Hrd'))))).
    destruct found.
    + apply search_backward; [exact Hb'|lia|done].
    + subst c. eexists. split; [done|]. split; [|done]. eexists. exact Hb'.
  - destruct Hd as (Ek & Ev & p & Hb & Hlo & Hhid). fold (after p) in Hlo, Hhid. assert (rank q = rank (after p)) as ->.
    { apply rank_same; [done|]. intros i Hi. destruct (lookup_lt_is_Some_2 ws i ltac:(lia)) as [wi Hwi].
      apply (not_emits_hidden i wi Hwi). by apply (Hhid i). }
    apply search_backward; [done|lia|done].
Qed.

(** ** What the view holds *)

Lemma tag_order i j wi wj : (i < j)%nat → ws !! i = Some wi → ws !! j = Some wj → @Compare C (wkey wi) (wkey wj) = 0 →
  ExtractTag (ikey_of wj) < ExtractTag (ikey_of wi).
Proof using Hsort.
  clear Hfuel. intros Hij Hi Hj Hc. pose proof (Hsort i j (entry_kv wi) (entry_kv wj) Hij) as Hlt. rewrite !list_lookup_fmap, Hi, Hj in Hlt.
  specialize (Hlt eq_refl eq_refl). change (InternalKeyCompare C (ikey_of wi) (ikey_of wj) < 0) in Hlt. apply InternalKeyCompare_lt in Hlt.
  assert (ExtractUserKey (ikey_of wi) = wkey wi) as E1 by apply ExtractUserKey_ikey.
  assert (ExtractUserKey (ikey_of wj) = wkey wj) as E2 by apply ExtractUserKey_ikey. rewrite E1, E2 in Hlt. lia.
Qed.

Lemma view_newest kv : kv ∈ kvs ↔ ∃ w, kv = user_kv w ∧ wtype w = kTypeValue ∧ is_newest C ws (wkey w) s (Some w).
Proof using L Hsort.
  clear Hfuel. unfold is_newest, visible. split.
  - intros [j Hj]%list_elem_of_lookup_1. apply view_inv in Hj as (q & w & He & Hw & _ & ->). exists w.
    destruct (emits_write _ _ _ _ He) as (w' & Hw' & Hs & Ht & Hns). assert (w' = w) as -> by congruence. split_and!; try done.
    + by eapply list_elem_of_lookup_2.
    + by rewrite Compare_refl, andb_true_iff, Z.leb_le.
    + intros w2 [q2 Hq2]%list_elem_of_lookup_1 [Hc%Z.eqb_eq%Compare_eq_sym Hs2%Z.leb_le]%andb_true_iff.
      destruct (Nat.lt_trichotomy q q2) as [Hlt|[->|Hlt]]; [|assert (w2 = w) as -> by congruence; done|].
      * apply Z.lt_le_incl, (tag_order q q2); try done. by apply Compare_eq_sym.
      * by destruct (proj1 (shadowed_false _ _ _ _ _) Hns q2 w2 Hlt Hq2 Hs2).
  - intros (w & -> & Ht & [q Hq]%list_elem_of_lookup_1 & [_ Hs%Z.leb_le]%andb_true_iff & Hmax).
    eapply list_elem_of_lookup_2, view_at; [|exact Hq]. eapply emits_intro; try done. apply shadowed_false.
    intros q2 w2 Hlt Hq2 Hs2 Hc. pose proof (tag_order q2 q w2 w Hlt Hq2 Hq Hc).
    pose proof (Hmax w2 (list_elem_of_lookup_2 _ _ _ Hq2)) as Hle. rewrite (proj1 (Compare_eq_sym _ _) Hc) in Hle. simpl in Hle.
    specialize (Hle (proj2 (Z.leb_le _ _) Hs2)). lia.
Qed.

Lemma view_sorted : keys_sorted (C := C) kvs.
Proof using L Hok Hsort.
  clear Hfuel. intros i j kv kv' Hij Hi Hj. apply view_inv in Hi as (q & w & He & Hw & <- & ->).
  apply view_inv in Hj as (q' & w' & He' & Hw' & <- & ->). apply (rank_lt q q' He) in Hij. simpl.
  destruct (emits_write _ _ _ _ He) as (w1 & Hw1 & Hs & _). assert (w1 = w) as -> by congruence.
  destruct (emits_write _ _ _ _ He') as (w2 & Hw2 & _ & _ & Hns). assert (w2 = w') as -> by congruence.
  pose proof (proj1 (shadowed_false _ _ _ _ _) Hns q w Hij Hw Hs). pose proof (order_le q q' w w' ltac:(lia) Hw Hw'). lia.
Qed.

(** ** The contract *)

Lemma dbiter_cursor : valid_seq s → @cursor_over _ (DbIter_ops C fuel) B C kvs dbiter_at.
Proof using L SL Hok Hsort Hfuel.
  intros Hs. split; cbn [DbIter_ops iValid iKey iValue iStatus iSeekToFirst iSeekToLast iSeek iNext iPrev].
  - intros st [j|] Hat; unfold DbIterValid; [by destruct Hat as (_ & -> & _)|by destruct Hat as (_ & ->)].
  - intros st c ((p & Hb) & _). unfold DbIterStatus. destruct Hb as (H1 & H2 & H3 & H4 & H5 & Hrd). rewrite H3.
    by apply (co_status _ _ _ _ (reads_cursor _ _ _) _ _ Hrd).
  - intros st j (_ & Hv & q & w & He & Hw & -> & Hd). exists (user_kv w). split; [by apply view_at|].
    unfold DbIterKey, DbIterValue. rewrite Hv. cbn [guarded]. destruct (iter_direction st.2).
    + destruct (reads_lookup _ _ _ _ _ (proj2 (proj2 (proj2 (proj2 (proj2 Hd)))))) as (kv & Hkv & _ & Ek & Ev).
      rewrite list_lookup_fmap, Hw in Hkv. injection Hkv as <-. rewrite Ek, Ev. cbn [mbind option_bind entry_kv fst snd].
      split; [|done]. f_equal. apply ExtractUserKey_ikey.
    + by destruct Hd as (-> & -> & _).
  - intros st c. apply DbIterSeekToFirst_spec.
  - intros st c. apply DbIterSeekToLast_spec.
  - apply DbIterNext_spec.
  - apply DbIterPrev_spec.
  - intros st c t. by apply DbIterSeek_spec.
Qed.

Lemma NewDBIterator_at db inner c seed : inv db → reads (B + 8) (InternalKeyComparator C) entries inner c →
  dbiter_at (db, NewDBIterator inner s seed) None.
Proof.
  clear Hfuel. intros Hi Hrd. split; [|done]. exists c. unfold iter_base, NewDBIterator, RandomCompactionPeriod, Uniform.
  cbn [fst snd iter_ sequence_ iter_status rnd_ bytes_until_read_sampling_].
  assert (0 < NewRandom seed < M) as Hr.
  { unfold NewRandom, M. pose proof (Z.land_ones seed 31 ltac:(lia)) as E. change (Z.ones 31) with 0x7fffffff in E.
    pose proof (Z.mod_pos_bound seed (2 ^ 31) ltac:(lia)). rewrite E.
    destruct (Z.eqb_spec (seed mod 2 ^ 31) 0), (Z.eqb_spec (seed mod 2 ^ 31) 2147483647); simpl; lia. }
  destruct (Next_mod _ Hr) as [_ Hn]. pose proof (Z.mod_pos_bound (Next (NewRandom seed)) (2 * kReadBytesPeriod) ltac:(done)) as Hp.
  unfold kReadBytesPeriod in *. split_and!; try done; lia.
Qed.

End Moves.

(** ** Properties *)

(** C14: the user-level iterator over sorted internal entries is a cursor over the
    snapshot: the strictly increasing list that holds, for exactly the user keys
    whose newest write visible at the sequence number is a value, that key and that
    value.  Deleted, overwritten and too recent entries never show, in either
    direction and across turns, seeks end on the first user key not below the
    target, the status stays ok, and every move ends (sampling included) with a
    scan bound of the number of internal entries.  Seeks are for targets 8 bytes
    shorter than those the inner iterator can seek. *)
Theorem db_iterator_shows_snapshot (B : Z) (C : Comparator) (L : ComparatorLaws C) (D I : Type) (samp : Sampler D) (ops : IteratorOps I)
    (inv : D → Prop) (SL : SamplerLaws D inv) (ws : list Write) (s seed : Z) (fuel : nat) (db : D) (inner : I) (c : option nat) :
  valid_seq s → Forall write_ok ws → keys_sorted (C := InternalKeyComparator C) (entry_kv <$> ws) → (length ws <= fuel)%nat →
  inv db → reads (B + 8) (InternalKeyComparator C) (entry_kv <$> ws) inner c →
  @reads _ (DbIter_ops C fuel) B C (snapshot_view C s ws) (db, NewDBIterator inner s seed) None ∧
  keys_sorted (C := C) (snapshot_view C s ws) ∧
  ∀ kv, kv ∈ snapshot_view C s ws ↔ ∃ w, kv = user_kv w ∧ wtype w = kTypeValue ∧ is_newest C ws (wkey w) s (Some w).
Proof.
  intros Hs Hok Hsort Hfuel Hi Hrd. split; [|split; [by apply view_sorted|by apply view_newest]].
  exists (dbiter_at B C inv s ws). split; [by apply dbiter_cursor|]. by eapply NewDBIterator_at.
Qed.

(** A database whose samples change nothing. *)
Definition NoSampler : Sampler unit := {| sample _ db := Some db |}.

Lemma NoSampler_laws : @SamplerLaws unit NoSampler (λ _, True).
Proof. split. intros k db _. by exists db. Qed.

Definition example_writes : list Write :=
  [ MkWrite 5 kTypeValue [x61] [x01]; MkWrite 3 kTypeValue [x61] [x02]; MkWrite 7 kTypeDeletion [x62] []; MkWrite 2 kTypeValue [x62] [x03];
    MkWrite 9 kTypeValue [x63] [x04]; MkWrite 4 kTypeValue [x63] [x05; x06] ].

Lemma db_iterator_shows_snapshot_witness : ∃ it,
  NewIterator (NewBlock (build_block 2 (entry_kv <$> example_writes))) = BlockIter it ∧
  @reads _ (@DbIter_ops unit Iter NoSampler (BlockIter_ops (InternalKeyComparator BytewiseComparator)) BytewiseComparator 6)
    100 BytewiseComparator [([x61], [x01]); ([x63], [x05; x06])] (tt, NewDBIterator it 8 301) None.
Proof.
  assert (Forall write_ok example_writes) as Hok by (repeat constructor; vm_compute; congruence).
  assert (keys_sorted (C := InternalKeyComparator BytewiseComparator) (entry_kv <$> example_writes)) as Hs
    by (apply sortedb_sorted; vm_compute; reflexivity).
  destruct (build_block_reads (100 + 8) (InternalKeyComparator BytewiseComparator) 2 (entry_kv <$> example_writes)) as (it & E & Hr);
    [lia|done| |vm_compute; reflexivity|].
  { intros kv (w & -> & Hw)%list_elem_of_fmap. repeat (apply elem_of_cons in Hw as [->|Hw]; [vm_compute; split; reflexivity|]).
    by apply not_elem_of_nil in Hw. }
  exists it. split; [done|].
  refine (proj1 (db_iterator_shows_snapshot 100 BytewiseComparator _ unit Iter NoSampler _ _ NoSampler_laws example_writes 8 301 6 tt it None _ Hok Hs _ _ Hr));
    [vm_compute; split; congruence|vm_compute; lia|done].
Defined.
