(* ===== verification/WriteBatch.v ===== *)
(** * Write batches (src/db/write_batch.cc, src/db/write_batch_internal.h)

    A batch is its [rep_] string: a sequence number, a count and the records.  The
    handler that [Iterate] calls is a record of functions on a state; the
    [MemTableInserter] is the handler whose state is a memtable and the next
    sequence number. *)

From Stdlib Require Import String.
From S2P Require Import Prelude Coding Status Comparator DbFormat Arena Random SkipList MemTable.
Import Coding.

Definition kHeader : Z := 12.

(** A batch is [rep_]. *)
Definition WriteBatch : Type := bytes.

Definition Clear : WriteBatch := resize kHeader [].
Definition NewWriteBatch : WriteBatch := Clear.
Definition ApproximateSize (b : WriteBatch) : Z := size b.
Definition Contents (b : WriteBatch) : bytes := b.
Definition ByteSize (b : WriteBatch) : Z := size b.

(** Every batch has the twelve header bytes, so the reads succeed. *)
Definition Count (b : WriteBatch) : Z := i32 (default 0 (DecodeFixed32 (drop_z 8 b))).
Definition SetCount (b : WriteBatch) (n : Z) : WriteBatch := take_z 8 b ++ EncodeFixed32 (u32 n) ++ drop_z 12 b.
Definition Sequence (b : WriteBatch) : Z := default 0 (DecodeFixed64 b).
Definition SetSequence (b : WriteBatch) (seq : Z) : WriteBatch := EncodeFixed64 seq ++ drop_z 8 b.
Definition SetContents (b : WriteBatch) (contents : bytes) : WriteBatch := contents.

Definition Put (b : WriteBatch) (key value : bytes) : WriteBatch :=
  let b := SetCount b (Count b + 1) in
  let b := b ++ [z2b (ValueType_to_Z kTypeValue)] in
  let b := PutLengthPrefixedSlice b key in
  PutLengthPrefixedSlice b value.

Definition Delete (b : WriteBatch) (key : bytes) : WriteBatch :=
  let b := SetCount b (Count b + 1) in
  let b := b ++ [z2b (ValueType_to_Z kTypeDeletion)] in
  PutLengthPrefixedSlice b key.

Definition Append (dst src : WriteBatch) : WriteBatch :=
  let dst := SetCount dst (Count dst + Count src) in
  dst ++ drop_z kHeader src.

(** [WriteBatch::Handler]. *)
Record Handler (S : Type) := MkHandler { hPut : S → bytes → bytes → S; hDelete : S → bytes → S }.
Arguments MkHandler {S} _ _.
Arguments hPut {S} _ _ _ _.
Arguments hDelete {S} _ _ _.

(** The loop of [Iterate]; every pass removes at least the tag from [input]. *)
Fixpoint Iterate_loop {S} (fuel : nat) (h : Handler S) (count found : Z) (input : bytes) (st : S) : option (S * Status) :=
  match fuel with
  | O => None
  | Datatypes.S fuel =>
      match input with
      | [] =>
          Some (st, if negb (found =? count) then Corruption (bs "WriteBatch has wrong count") [] else Status_OK)
      | tag :: input =>
          let found := found + 1 in
          match ValueType_of_Z (b2z tag) with
          | Some kTypeValue =>
              match GetLengthPrefixedSlice input with
              | Some (key, input) =>
                  match GetLengthPrefixedSlice input with
                  | Some (value, input) => Iterate_loop fuel h count found input (hPut h st key value)
                  | None => Some (st, Corruption (bs "bad WriteBatch Put") [])
                  end
              | None => Some (st, Corruption (bs "bad WriteBatch Put") [])
              end
          | Some kTypeDeletion =>
              match GetLengthPrefixedSlice input with
              | Some (key, input) => Iterate_loop fuel h count found input (hDelete h st key)
              | None => Some (st, Corruption (bs "bad WriteBatch Delete") [])
              end
          | None => Some (st, Corruption (bs "unknown WriteBatch tag") [])
          end
      end
  end.

Definition Iterate {S} (h : Handler S) (b : WriteBatch) (st : S) : option (S * Status) :=
  if size b <? kHeader then Some (st, Corruption (bs "malformed WriteBatch (too small)") [])
  else let input := drop_z kHeader b in Iterate_loop (Datatypes.S (length input)) h (Count b) 0 input st.

(** ** MemTableInserter *)

Section Inserter.
  Context (C : Comparator) (base : nat → Z).

(** [mem_] and [sequence_]; [None] if an [Add] failed. *)
Definition Inserter : Type := option (MemTable * Z).

Definition inserter_add (st : Inserter) (type : ValueType) (key value : bytes) : Inserter :=
  '(mem, sequence) ← st;
  mem ← Add C base mem sequence type key value;
  Some (mem, u64 (sequence + 1)).

Definition MemTableInserter : Handler Inserter :=
  MkHandler (λ st key value, inserter_add st kTypeValue key value)
            (λ st key, inserter_add st kTypeDeletion key []).

Definition InsertInto (b : WriteBatch) (memtable : MemTable) : option (Inserter * Status) :=
  Iterate MemTableInserter b (Some (memtable, Sequence b)).

End Inserter.

(** ** Operations of a batch *)

Inductive Op := OpPut (key value : bytes) | OpDelete (key : bytes).

Definition apply_op (b : WriteBatch) (op : Op) : WriteBatch :=
  match op with OpPut k v => Put b k v | OpDelete k => Delete b k end.

Definition build (ops : list Op) : WriteBatch := foldl apply_op NewWriteBatch ops.

Definition handle {S} (h : Handler S) (st : S) (op : Op) : S :=
  match op with OpPut k v => hPut h st k v | OpDelete k => hDelete h st k end.

Definition op_ok (op : Op) : Prop :=
  match op with OpPut k v => is_u32 (size k + 8) ∧ is_u32 (size v) | OpDelete k => is_u32 (size k + 8) end.

Definition op_bytes (op : Op) : bytes :=
  match op with
  | OpPut k v => z2b 1 :: PutLengthPrefixedSlice [] k ++ PutLengthPrefixedSlice [] v
  | OpDelete k => z2b 0 :: PutLengthPrefixedSlice [] k
  end.

Definition records (ops : list Op) : bytes := concat (op_bytes <$> ops).

(** The representation of a batch. *)
Definition rep (seq : Z) (ops : list Op) : bytes :=
  EncodeFixed64 seq ++ EncodeFixed32 (u32 (Z.of_nat (length ops))) ++ records ops.

Lemma rep_nil : NewWriteBatch = rep 0 [].
Proof. vm_compute. done. Qed.

Lemma records_app ops1 ops2 : records (ops1 ++ ops2) = records ops1 ++ records ops2.
Proof. unfold records. by rewrite fmap_app, concat_app. Qed.

Lemma records_snoc ops op : records (ops ++ [op]) = records ops ++ op_bytes op.
Proof. rewrite records_app. f_equal. unfold records. simpl. apply app_nil_r. Qed.

Lemma drop_header (h1 h2 r : bytes) : size h1 = 8 → size h2 = 4 → drop_z 12 (h1 ++ h2 ++ r) = r.
Proof. intros E1 E2. rewrite app_assoc. apply drop_z_app. rewrite size_app. lia. Qed.

Lemma drop_rep seq ops : drop_z kHeader (rep seq ops) = records ops.
Proof. apply drop_header; [apply size_EncodeFixed64|apply size_EncodeFixed32]. Qed.

Lemma i32_small z : 0 <= z < 2 ^ 31 → i32 (u32 z) = z.
Proof.
  intros Hz. rewrite u32_small by range_lia. unfold i32, signed. rewrite Z.mod_small by lia.
  destruct (Z.ltb_spec z (2 ^ (32 - 1))) as [|H]; [done|]. change (2 ^ (32 - 1)) with (2 ^ 31) in H. lia.
Qed.

Lemma Count_rep seq ops : Z.of_nat (length ops) < 2 ^ 31 → Count (rep seq ops) = Z.of_nat (length ops).
Proof.
  intros Hl. unfold Count, rep. rewrite drop_z_app by (by rewrite size_EncodeFixed64).
  rewrite DecodeFixed32_Encode by apply u32_range. cbn [default]. apply i32_small. lia.
Qed.

Lemma Sequence_rep seq ops : is_u64 seq → Sequence (rep seq ops) = seq.
Proof. intros H. unfold Sequence, rep. by rewrite DecodeFixed64_Encode. Qed.

Lemma SetSequence_rep seq seq' ops : SetSequence (rep seq ops) seq' = rep seq' ops.
Proof. done. Qed.

Lemma SetCount_rep seq ops n : SetCount (rep seq ops) n = EncodeFixed64 seq ++ EncodeFixed32 (u32 n) ++ records ops.
Proof.
  unfold SetCount. change 12 with kHeader. rewrite drop_rep. unfold rep. by rewrite take_z_app by (by rewrite size_EncodeFixed64).
Qed.

Lemma apply_op_rep seq ops op : Z.of_nat (length ops) < 2 ^ 31 → apply_op (rep seq ops) op = rep seq (ops ++ [op]).
Proof.
  intros Hl. unfold rep at 2. rewrite length_app, records_snoc, Nat2Z.inj_add.
  destruct op as [k v|k]; cbn [apply_op op_bytes]; unfold Put, Delete; cbv zeta; rewrite SetCount_rep, Count_rep by done.
  - rewrite PutLengthPrefixedSlice_app, (PutLengthPrefixedSlice_app _ k), <-!app_assoc. done.
  - rewrite PutLengthPrefixedSlice_app, <-!app_assoc. done.
Qed.

Lemma build_rep ops : Z.of_nat (length ops) < 2 ^ 31 → build ops = rep 0 ops.
Proof.
  induction ops as [|op ops IH] using rev_ind; [intros; apply rep_nil|]. rewrite length_app. cbn [length]. intros Hl.
  unfold build. rewrite foldl_app. cbn [foldl]. fold (build ops). rewrite IH by lia. apply apply_op_rep. lia.
Qed.

(** ** Replaying a batch *)

Lemma key_u32 (k : bytes) : is_u32 (size k + 8) → is_u32 (size k).
Proof. pose proof (size_nonneg k). range_lia. Qed.

Lemma slice_shorter p s rest : GetLengthPrefixedSlice p = Some (s, rest) → (length rest < length p)%nat.
Proof.
  intros (used & -> & Hu & _)%GetLengthPrefixedSlice_suffix. rewrite !length_app. unfold size in Hu. lia.
Qed.

Section iterate.
  Context {S : Type} (h : Handler S).

Lemma Iterate_op fuel count found op rest st : op_ok op →
  Iterate_loop (Datatypes.S fuel) h count found (op_bytes op ++ rest) st =
  Iterate_loop fuel h count (found + 1) rest (handle h st op).
Proof.
  destruct op as [k v|k]; cbn [op_ok op_bytes]; intros H.
  - cbn [app Iterate_loop]. change (ValueType_of_Z (b2z (z2b 1))) with (Some kTypeValue). rewrite <-app_assoc.
    rewrite GetLengthPrefixedSlice_Put by apply key_u32, H. by rewrite GetLengthPrefixedSlice_Put by apply H.
  - cbn [app Iterate_loop]. change (ValueType_of_Z (b2z (z2b 0))) with (Some kTypeDeletion).
    by rewrite GetLengthPrefixedSlice_Put by apply key_u32, H.
Qed.

Lemma Iterate_ops ops : ∀ fuel count found rest st, Forall op_ok ops →
  Iterate_loop (length ops + fuel) h count found (records ops ++ rest) st =
  Iterate_loop fuel h count (found + Z.of_nat (length ops)) rest (foldl (handle h) st ops).
Proof.
  induction ops as [|op ops IH]; intros fuel count found rest st Hok; [by rewrite Z.add_0_r|].
  apply Forall_cons in Hok as [Hop Hok]. change (records (op :: ops)) with (op_bytes op ++ records ops).
  cbn [length Nat.add]. rewrite <-app_assoc, Iterate_op, IH by done. f_equal. lia.
Qed.

(** More fuel than bytes is enough, and the amount does not matter. *)
Lemma Iterate_loop_fuel fuel : ∀ fuel' count found input st, (length input < fuel)%nat → (length input < fuel')%nat →
  Iterate_loop fuel h count found input st = Iterate_loop fuel' h count found input st ∧
  is_Some (Iterate_loop fuel h count found input st).
Proof.
  induction fuel as [|fuel IH]; intros fuel' count found input st H1 H2; [lia|].
  destruct fuel' as [|fuel']; [lia|]. cbn [Iterate_loop]. destruct input as [|tag input]; [eauto|]. simpl in H1, H2.
  destruct (ValueType_of_Z (b2z tag)) as [[]|]; [| |eauto].
  - destruct (GetLengthPrefixedSlice input) as [[key input1]|] eqn:E1; [|eauto].
    apply slice_shorter in E1. apply IH; lia.
  - destruct (GetLengthPrefixedSlice input) as [[key input1]|] eqn:E1; [|eauto].
    destruct (GetLengthPrefixedSlice input1) as [[value input2]|] eqn:E2; [|eauto].
    apply slice_shorter in E1, E2. apply IH; lia.
Qed.

Lemma Iterate_rep seq ops st : Forall op_ok ops → Z.of_nat (length ops) < 2 ^ 31 →
  Iterate h (rep seq ops) st = Some (foldl (handle h) st ops, Status_OK).
Proof.
  intros Hok Hl. unfold Iterate. rewrite drop_rep, Count_rep by done.
  assert (kHeader <= size (rep seq ops)).
  { unfold rep, kHeader. rewrite !size_app, size_EncodeFixed64, size_EncodeFixed32. pose proof (size_nonneg (records ops)). lia. }
  destruct (Z.ltb_spec (size (rep seq ops)) kHeader); [lia|]. cbv zeta.
  destruct (Iterate_loop_fuel (Datatypes.S (length (records ops))) (length ops + Datatypes.S (length (records ops)))
    (Z.of_nat (length ops)) 0 (records ops) st) as [-> _]; [lia|lia|].
  rewrite <-(app_nil_r (records ops)) at 2. rewrite Iterate_ops by done. cbn [Iterate_loop].
  by rewrite Z.add_0_l, Z.eqb_refl.
Qed.

(** A record that is cut short is not mistaken for another one. *)
Lemma Iterate_cut_op fuel count found op k st : op_ok op → (0 < k < length (op_bytes op))%nat →
  ∃ e, Iterate_loop (Datatypes.S fuel) h count found (take k (op_bytes op)) st = Some (st, e) ∧ IsCorruption e = true.
Proof.
  destruct op as [key v|key]; cbn [op_ok op_bytes length]; intros Hop Hk; (destruct k as [|k]; [lia|]); cbn [take Iterate_loop].
  - change (ValueType_of_Z (b2z (z2b 1))) with (Some kTypeValue). rewrite length_app in Hk. destruct Hop as [Hkey Hv].
    set (A := PutLengthPrefixedSlice [] key) in *. set (B := PutLengthPrefixedSlice [] v) in *.
    destruct (Nat.lt_ge_cases k (length A)) as [Hlt|Hge].
    + rewrite take_app_le by lia. unfold A. rewrite GetLengthPrefixedSlice_truncated by (by apply key_u32 || done). eauto.
    + rewrite take_app_ge by lia. unfold A at 1. rewrite GetLengthPrefixedSlice_Put by by apply key_u32.
      unfold B. rewrite GetLengthPrefixedSlice_truncated by (done || unfold B in Hk; lia). eauto.
  - change (ValueType_of_Z (b2z (z2b 0))) with (Some kTypeDeletion).
    rewrite GetLengthPrefixedSlice_truncated by (by apply key_u32 || lia). eauto.
Qed.

Lemma Iterate_cut ops : ∀ fuel found k st, Forall op_ok ops → (k < length (records ops))%nat → (k < fuel)%nat →
  ∃ j e, (j < length ops)%nat ∧ IsCorruption e = true ∧
    Iterate_loop fuel h (found + Z.of_nat (length ops)) found (take k (records ops)) st = Some (foldl (handle h) st (take j ops), e).
Proof.
  induction ops as [|op ops IH]; intros fuel found k st Hok Hk Hf; [simpl in Hk; lia|].
  apply Forall_cons in Hok as [Hop Hok]. change (records (op :: ops)) with (op_bytes op ++ records ops) in *.
  rewrite length_app in Hk. destruct fuel as [|fuel]; [lia|].
  destruct (Nat.lt_ge_cases k (length (op_bytes op))) as [Hlt|Hge].
  - exists 0%nat. rewrite take_app_le by lia. destruct k as [|k].
    + cbn [take Iterate_loop]. destruct (Z.eqb_spec found (found + Z.of_nat (length (op :: ops)))) as [E|]; [simpl in E; lia|].
      eexists. split; [simpl; lia|]. split; [|done]. by vm_compute.
    + destruct (Iterate_cut_op fuel (found + Z.of_nat (length (op :: ops))) found op (Datatypes.S k) st Hop ltac:(lia)) as (e & E & He).
      exists e. split; [simpl; lia|]. by split.
  - rewrite take_app_ge, Iterate_op by done.
    assert (0 < length (op_bytes op))%nat by (destruct op; simpl; lia).
    destruct (IH fuel (found + 1) (k - length (op_bytes op))%nat (handle h st op) Hok ltac:(lia) ltac:(lia)) as (j & e & Hj & He & E).
    exists (Datatypes.S j), e. split; [simpl; lia|]. split; [done|]. cbn [take foldl].
    rewrite <-E. f_equal. simpl. lia.
Qed.

End iterate.

(** ** Batches and the memtable *)

Section history.
  Context (C : Comparator) {L : ComparatorLaws C} (base : nat → Z).

Definition write_of (seq : Z) (op : Op) : Write :=
  match op with OpPut k v => MkWrite seq kTypeValue k v | OpDelete k => MkWrite seq kTypeDeletion k [] end.

Definition op_key (op : Op) : bytes := match op with OpPut k _ | OpDelete k => k end.

(** The writes of a batch: its operations get consecutive sequence numbers. *)
Fixpoint number (seq : Z) (ops : list Op) : list Write :=
  match ops with [] => [] | op :: ops => write_of seq op :: number (seq + 1) ops end.

Lemma number_app ops1 : ∀ seq ops2, number seq (ops1 ++ ops2) = number seq ops1 ++ number (seq + Z.of_nat (length ops1)) ops2.
Proof.
  induction ops1 as [|op ops1 IH]; intros seq ops2; [by rewrite Z.add_0_r|]. cbn [app number]. rewrite IH.
  cbn [app]. do 3 f_equal. simpl. lia.
Qed.

Lemma number_lookup ops : ∀ seq i w, number seq ops !! i = Some w → ∃ op, ops !! i = Some op ∧ w = write_of (seq + Z.of_nat i) op.
Proof.
  induction ops as [|op ops IH]; intros seq [|i] w; simpl; try done.
  - intros [= <-]. exists op. by rewrite Z.add_0_r.
  - intros (op' & Hop & ->)%IH. exists op'. split; [done|]. f_equal. lia.
Qed.

Lemma wseq_write_of seq op : wseq (write_of seq op) = seq.
Proof. by destruct op. Qed.

Lemma wkey_write_of seq op : wkey (write_of seq op) = op_key op.
Proof. by destruct op. Qed.

Lemma inserter_adds ops : ∀ m seq, valid_seq seq → seq + Z.of_nat (length ops) <= kMaxSequenceNumber →
  foldl (handle (MemTableInserter C base)) (Some (m, seq)) ops =
  (λ m', (m', seq + Z.of_nat (length ops))) <$> adds C base m (number seq ops).
Proof.
  induction ops as [|op ops IH]; intros m seq Hs Hl; [simpl; by rewrite Z.add_0_r|]. cbn [foldl number adds].
  assert (handle (MemTableInserter C base) (Some (m, seq)) op = (λ m', (m', seq + 1)) <$>
    Add C base m seq (wtype (write_of seq op)) (wkey (write_of seq op)) (wvalue (write_of seq op))) as ->.
  { unfold valid_seq, kMaxSequenceNumber in *. change (Z.shiftl 1 56) with (2 ^ 56) in *. cbn [length] in Hl.
    assert (u64 (seq + 1) = seq + 1) as Eu by (apply u64_small; range_lia).
    destruct op as [k v|k]; unfold handle, MemTableInserter, inserter_add; cbn [hPut hDelete mbind option_bind write_of wtype wkey wvalue];
      destruct (Add C base m seq _ _ _); cbn [mbind option_bind fmap option_fmap option_map]; by rewrite ?Eu. }
  rewrite wseq_write_of. destruct (Add C base m seq _ _ _) as [m'|]; cbn [fmap option_fmap option_map mbind option_bind].
  - cbn [length] in Hl. rewrite IH by (unfold valid_seq in *; lia). replace (seq + 1 + Z.of_nat (length ops)) with (seq + Z.of_nat (length (op :: ops))) by (cbn [length]; lia).
    done.
  - clear. induction ops as [|op' ops IH]; [done|]. cbn [foldl]. by destruct op'.
Qed.

(** The last operation on a key. *)
Definition last_op (ops : list Op) (u : bytes) : option Op :=
  last (filter (λ op, @Compare C u (op_key op) = 0) ops).

Definition answer (o : option Op) (value : bytes) (st : Status) : bool * bytes * Status :=
  match o with
  | None => (false, value, st)
  | Some (OpPut _ v) => (true, v, st)
  | Some (OpDelete _) => (true, value, NotFound [] [])
  end.

Lemma last_op_snoc ops op u : last_op (ops ++ [op]) u = if decide (@Compare C u (op_key op) = 0) then Some op else last_op ops u.
Proof.
  unfold last_op. rewrite filter_app, filter_cons, filter_nil.
  destruct (decide _); [by rewrite last_snoc|by rewrite app_nil_r].
Qed.

Lemma newest_snoc ws w u s : newest C (ws ++ [w]) u s = if visible C u s w && later (newest C ws u s) w then Some w else newest C ws u s.
Proof. unfold newest. by rewrite foldl_app. Qed.

Lemma write_of_ok seq op : op_ok op → valid_seq seq → write_ok (write_of seq op).
Proof. intros H Hs. destruct op as [k v|k]; split_and!; try done; simpl in *; try apply H; vm_compute; done. Qed.

(** With increasing sequence numbers the newest visible write is the last visible
    operation. *)
Lemma newest_number seq ops u (j : nat) : 0 <= seq → seq + Z.of_nat (length ops) <= kMaxSequenceNumber →
  ∃ q, newest C (number seq ops) u (seq - 1 + Z.of_nat j) = write_of q <$> last_op (take j ops) u.
Proof.
  intros Hs. induction ops as [|op ops IH] using rev_ind; intros Hl; [exists 0; by rewrite take_nil|].
  rewrite length_app in Hl. cbn [length] in Hl. destruct IH as (q & IH); [lia|].
  rewrite number_app. cbn [number]. rewrite newest_snoc. set (w := write_of (seq + Z.of_nat (length ops)) op).
  assert (later (newest C (number seq ops) u (seq - 1 + Z.of_nat j)) w = true) as ->.
  { pose proof (newest_spec C (number seq ops) u (seq - 1 + Z.of_nat j)) as Hn.
    destruct (newest C _ u _) as [b|]; [|done]. destruct Hn as ([i Hi]%list_elem_of_lookup_1 & _).
    destruct (number_lookup _ _ _ _ Hi) as (op' & Hop' & ->). apply lookup_lt_Some in Hop'.
    cbn [later]. apply Z.ltb_lt. subst w. unfold valid_seq in *.
    rewrite !tag_of, !wseq_write_of by (rewrite wseq_write_of; unfold valid_seq; lia). destruct (wtype _), (wtype _); simpl; lia. }
  rewrite andb_true_r. unfold visible, w. rewrite wkey_write_of, wseq_write_of.
  destruct (Nat.lt_ge_cases (length ops) j) as [Hlt|Hge].
  - rewrite take_ge by (rewrite length_app; simpl; lia). rewrite last_op_snoc. rewrite take_ge in IH by lia.
    destruct (Z.leb_spec (seq + Z.of_nat (length ops)) (seq - 1 + Z.of_nat j)); [|lia]. rewrite andb_true_r.
    destruct (Z.eqb_spec (@Compare C u (op_key op)) 0) as [E|E]; [|rewrite decide_False by done; eauto].
    rewrite decide_True by done. eexists. done.
  - destruct (Z.leb_spec (seq + Z.of_nat (length ops)) (seq - 1 + Z.of_nat j)); [lia|]. rewrite andb_false_r.
    rewrite take_app_le by done. eauto.
Qed.

Lemma report_write q o value st : report (write_of q <$> o) value st = answer o value st.
Proof. by destruct o as [[]|]. Qed.

Lemma number_ok seq ops : Forall op_ok ops → 0 <= seq → seq + Z.of_nat (length ops) <= kMaxSequenceNumber →
  Forall write_ok (number seq ops).
Proof.
  intros Hok Hs Hl. apply Forall_lookup. intros i w Hi. destruct (number_lookup _ _ _ _ Hi) as (op & Hop & ->).
  pose proof (lookup_lt_Some _ _ _ Hop). apply write_of_ok; [by apply (Forall_lookup_1 _ _ _ _ Hok Hop)|]. unfold valid_seq. lia.
Qed.

Lemma number_fresh seq ops : fresh_writes C (number seq ops).
Proof.
  intros i j w1 w2 Hij H1 H2 (_ & E & _). destruct (number_lookup _ _ _ _ H1) as (op1 & _ & ->).
  destruct (number_lookup _ _ _ _ H2) as (op2 & _ & ->). rewrite !wseq_write_of in E. lia.
Qed.

(** Numbered operations go into a memtable of older writes. *)
Lemma adds_number ops : ∀ m old seq, filled C m old → Forall write_ok old → Forall (λ w, wseq w < seq) old → Forall op_ok ops →
  0 <= seq → seq + Z.of_nat (length ops) <= kMaxSequenceNumber →
  ∃ m', adds C base m (number seq ops) = Some m' ∧ filled C m' (old ++ number seq ops).
Proof.
  induction ops as [|op ops IH]; intros m old seq Hm Hold Hlt Hok Hs Hl; [exists m; by rewrite app_nil_r|].
  apply Forall_cons in Hok as [Hop Hok]. cbn [length] in Hl. cbn [number adds].
  assert (write_ok (write_of seq op)) as Hw by (apply write_of_ok; [done|unfold valid_seq; lia]).
  destruct (Add_filled C base m old (write_of seq op) Hm Hold Hw) as (m' & E & _ & Hm').
  { intros w' Hw' (_ & Eq & _). rewrite wseq_write_of in Eq. pose proof (proj1 (Forall_forall _ _) Hlt w' Hw'). cbn in *. lia. }
  rewrite E. cbn [mbind option_bind]. destruct (IH m' (old ++ [write_of seq op]) (seq + 1)) as (m2 & E2 & H2); [done| | |done|lia|lia|].
  - apply Forall_app. split; [done|by apply Forall_singleton].
  - apply Forall_app. split; [eapply Forall_impl; [exact Hlt|]; intros w Hw'; cbn in *; lia|]. apply Forall_singleton. rewrite wseq_write_of. lia.
  - exists m2. split; [done|]. by rewrite <-app_assoc in H2.
Qed.

Lemma InsertInto_rep m old seq ops : filled C m old → Forall write_ok old → Forall (λ w, wseq w < seq) old → Forall op_ok ops →
  0 <= seq → Z.of_nat (length ops) < 2 ^ 31 → seq + Z.of_nat (length ops) <= kMaxSequenceNumber →
  ∃ m', InsertInto C base (rep seq ops) m = Some (Some (m', seq + Z.of_nat (length ops)), Status_OK) ∧ filled C m' (old ++ number seq ops).
Proof.
  intros Hm Hold Hlt Hok Hs Hl Hmax. unfold InsertInto. rewrite Iterate_rep by done.
  rewrite Sequence_rep by (unfold kMaxSequenceNumber in *; change (Z.shiftl 1 56) with (2 ^ 56) in *; range_lia).
  destruct (adds_number ops m old seq Hm Hold Hlt Hok Hs Hmax) as (m' & E & Hm').
  rewrite inserter_adds, E by (unfold valid_seq; lia). by exists m'.
Qed.

(** Batches are given sequence numbers one after the other and inserted. *)
Fixpoint insert_batches (m : MemTable) (last_sequence : Z) (batches : list (list Op)) : option (MemTable * Z) :=
  match batches with
  | [] => Some (m, last_sequence)
  | ops :: batches =>
      let b := SetSequence (build ops) (last_sequence + 1) in
      '(st, status) ← InsertInto C base b m;
      if ok status then '(m, _) ← st; insert_batches m (last_sequence + Count b) batches else None
  end.

Lemma insert_batches_adds batches : ∀ m last, 0 <= last →
  Forall op_ok (concat batches) → Z.of_nat (length (concat batches)) < 2 ^ 31 →
  last + Z.of_nat (length (concat batches)) < kMaxSequenceNumber →
  insert_batches m last batches =
  (λ m', (m', last + Z.of_nat (length (concat batches)))) <$> adds C base m (number (last + 1) (concat batches)).
Proof.
  induction batches as [|ops batches IH]; intros m last Hs Hok Hl Hm; [simpl; by rewrite Z.add_0_r|].
  cbn [concat] in *. apply Forall_app in Hok as [Hok1 Hok2]. rewrite length_app, Nat2Z.inj_add in Hl, Hm.
  cbn [insert_batches]. rewrite build_rep, SetSequence_rep by lia. unfold InsertInto.
  rewrite Iterate_rep by (done || lia). cbn [mbind option_bind]. change (ok Status_OK) with true. cbv iota.
  assert (valid_seq (last + 1)) as Hv by (unfold valid_seq; lia).
  rewrite Sequence_rep by (unfold valid_seq, kMaxSequenceNumber in *; change (Z.shiftl 1 56) with (2 ^ 56) in *; range_lia).
  rewrite inserter_adds by (done || lia). rewrite Count_rep by lia.
  rewrite number_app, adds_app, length_app, Nat2Z.inj_add.
  destruct (adds C base m (number (last + 1) ops)) as [m'|]; [|done]. cbn [fmap option_fmap option_map mbind option_bind].
  rewrite IH by (done || lia). replace (last + Z.of_nat (length ops) + 1) with (last + 1 + Z.of_nat (length ops)) by lia.
  replace (last + Z.of_nat (length ops) + Z.of_nat (length (concat batches))) with (last + (Z.of_nat (length ops) + Z.of_nat (length (concat batches)))) by lia.
  done.
Qed.

(** C5: Writes go through batches into the memtable and come back.  Any batches built
    with [Put] and [Delete], numbered one after the other from a last sequence
    number and inserted with [InsertInto], are all applied without an error; a read
    of a key at the snapshot of the first [j] operations then returns what the last
    of these operations on the key did: the value put, NotFound after a deletion, and
    false with the outputs untouched when there is none. *)
Theorem batches_refine_history (batches : list (list Op)) (last : Z) (u : bytes) (j : nat) (value : bytes) (st : Status) :
  Forall op_ok (concat batches) → 0 <= last → Z.of_nat (length (concat batches)) < 2 ^ 31 →
  last + Z.of_nat (length (concat batches)) < kMaxSequenceNumber →
  (j <= length (concat batches))%nat → is_u32 (size u + 8) →
  ∃ m, insert_batches (NewMemTable base) last batches = Some (m, last + Z.of_nat (length (concat batches))) ∧
    Get C m (NewLookupKey u (last + Z.of_nat j)) value st = Some (answer (last_op (take j (concat batches)) u) value st).
Proof.
  intros Hok Hs Hl Hm Hj Hu. rewrite insert_batches_adds by done.
  pose proof (number_ok (last + 1) _ Hok ltac:(lia) ltac:(lia)) as Hw.
  destruct (adds_filled C base (number (last + 1) (concat batches)) (NewMemTable base) [] (NewMemTable_filled C base) Hw
    (number_fresh _ _)) as (m & -> & Hf).
  exists m. split; [done|]. rewrite (Get_newest C m _ u _ value st (filled_contains _ _ _ Hf)) by (done || unfold valid_seq; lia).
  destruct (newest_number (last + 1) (concat batches) u j ltac:(lia) ltac:(lia)) as (q & E).
  replace (last + 1 - 1 + Z.of_nat j) with (last + Z.of_nat j) in E by lia. cbn [app]. by rewrite E, report_write.
Qed.

End history.

(** Two batches; the key is overwritten, then deleted; read at the second write. *)
Lemma batches_refine_history_witness :
  let batches := [[OpPut [x61] [x31]; OpPut [x61] [x32]]; [OpDelete [x61]]] in
  ∃ m, insert_batches BytewiseComparator (λ i, 4096 * Z.of_nat i) (NewMemTable (λ i, 4096 * Z.of_nat i)) 100 batches = Some (m, 103) ∧
    Get BytewiseComparator m (NewLookupKey [x61] 102) [] Status_OK = Some (true, [x32], Status_OK).
Proof.
  intros batches.
  destruct (batches_refine_history BytewiseComparator (λ i, 4096 * Z.of_nat i) batches 100 [x61] 2 [] Status_OK) as (m & E & G);
    [repeat constructor; vm_compute; done|lia|vm_compute; done|vm_compute; done|simpl; lia|vm_compute; done|].
  exists m. split; [exact E|]. change (100 + Z.of_nat 2) with 102 in G. rewrite G. by vm_compute.
Defined.

(** ** Properties of batches *)

(** C34: A batch replays exactly what was put into it.  The batch built by a sequence
    of [Put] and [Delete] calls hands any handler the same calls in the same order
    and reports success; its count is their number, its sequence number is the one
    last set, and appending one batch to another gives the batch of both sequences. *)
Theorem write_batch_roundtrip {S} (h : Handler S) (st : S) (ops ops2 : list Op) (seq : Z) :
  Forall op_ok ops → Z.of_nat (length (ops ++ ops2)) < 2 ^ 31 → is_u64 seq →
  Iterate h (SetSequence (build ops) seq) st = Some (foldl (handle h) st ops, Status_OK) ∧
  Count (SetSequence (build ops) seq) = Z.of_nat (length ops) ∧
  Sequence (SetSequence (build ops) seq) = seq ∧
  Append (build ops) (build ops2) = build (ops ++ ops2).
Proof.
  intros Hok Hl Hs. rewrite length_app in Hl. rewrite !build_rep by (rewrite ?length_app; lia). rewrite SetSequence_rep. split_and!.
  - apply Iterate_rep; [done|lia].
  - apply Count_rep. lia.
  - by apply Sequence_rep.
  - unfold Append. rewrite SetCount_rep, !Count_rep, drop_rep by lia. unfold rep.
    by rewrite length_app, Nat2Z.inj_add, records_app, <-!app_assoc.
Qed.

Lemma write_batch_roundtrip_witness :
  Count (SetSequence (build [OpPut [x61] [x62]; OpDelete [x63]]) 7) = 2 ∧
  Append (build [OpPut [x61] [x62]; OpDelete [x63]]) (build [OpDelete [x64]]) = build [OpPut [x61] [x62]; OpDelete [x63]; OpDelete [x64]].
Proof.
  destruct (write_batch_roundtrip (MkHandler (λ n _ _, n + 1) (λ n _, n - 1)) 0 [OpPut [x61] [x62]; OpDelete [x63]] [OpDelete [x64]] 7)
    as (_ & H1 & _ & H2); [repeat constructor; vm_compute; done|vm_compute; done|vm_compute; done|].
  split; [exact H1|exact H2].
Defined.

(** C33: A truncated batch is always detected.  [Iterate] returns on every input; a
    batch cut anywhere, in the header or in the records, gives a corruption status,
    and the handler has then seen only a proper prefix of the batch's operations. *)
Theorem write_batch_truncation {S} (h : Handler S) (st : S) (ops : list Op) (seq : Z) (k : nat) (b : WriteBatch) :
  Forall op_ok ops → Z.of_nat (length ops) < 2 ^ 31 → (k < length (rep seq ops))%nat →
  is_Some (Iterate h b st) ∧
  ∃ j e, Iterate h (take k (rep seq ops)) st = Some (foldl (handle h) st (take j ops), e) ∧
    IsCorruption e = true ∧ (j = 0 ∨ j < length ops)%nat.
Proof.
  intros Hok Hl Hk. split.
  { unfold Iterate. destruct (size b <? kHeader); [eauto|]. cbv zeta.
    apply (Iterate_loop_fuel h _ (Datatypes.S (length (drop_z kHeader b)))); lia. }
  assert (length (rep seq ops) = 12 + length (records ops))%nat as Hr.
  { unfold rep. rewrite !length_app. done. }
  unfold Iterate, size. rewrite length_take_le by lia. unfold kHeader.
  destruct (Z.ltb_spec (Z.of_nat k) 12) as [Hlt|Hge].
  { exists 0%nat. eexists. split; [done|]. split; [by vm_compute|by left]. }
  assert (take k (rep seq ops) = EncodeFixed64 seq ++ EncodeFixed32 (u32 (Z.of_nat (length ops))) ++ take (k - 12) (records ops)) as ->.
  { unfold rep. rewrite app_assoc, take_app_ge by (rewrite length_app; simpl; lia). rewrite <-app_assoc. done. }
  assert (Count (EncodeFixed64 seq ++ EncodeFixed32 (u32 (Z.of_nat (length ops))) ++ take (k - 12) (records ops)) = 0 + Z.of_nat (length ops)) as ->.
  { unfold Count. rewrite drop_z_app by done. rewrite DecodeFixed32_Encode by apply u32_range. cbn [default]. rewrite Z.add_0_l. apply i32_small. lia. }
  rewrite drop_header by done. cbv zeta. rewrite length_take_le by lia.
  destruct (Iterate_cut h ops (Datatypes.S (k - 12)) 0 (k - 12) st Hok ltac:(lia) ltac:(lia)) as (j & e & Hj & He & E).
  exists j, e. split; [done|]. split; [done|]. by right.
Qed.

Lemma write_batch_truncation_witness :
  ∃ j e, Iterate (MkHandler (λ n _ _, n + 1) (λ n _, n - 1)) (take 20 (rep 3 [OpPut [x61] [x62]; OpPut [x63] [x64]])) 0 =
      Some (foldl (handle (MkHandler (λ n _ _, n + 1) (λ n _, n - 1))) 0 (take j [OpPut [x61] [x62]; OpPut [x63] [x64]]), e) ∧
    IsCorruption e = true.
Proof.
  destruct (write_batch_truncation (MkHandler (λ n _ _, n + 1) (λ n _, n - 1)) 0 [OpPut [x61] [x62]; OpPut [x63] [x64]] 3 20 [])
    as (_ & j & e & H & He & _); [repeat constructor; vm_compute; done|vm_compute; done|vm_compute; lia|].
  exists j, e. split; [exact H|exact He].
Defined.
