(* ===== verification/VersionEdit.v ===== *)
(** * Version edits (src/db/version_edit.h, src/db/version_edit.cc)

    A version edit is the record of the descriptor log that describes how a
    version differs from the previous one: scalar fields, compaction pointers,
    deleted and new files, written as tagged fields.

    An [InternalKey] is its representation [rep_]; the set of deleted files is
    the ordered sequence of its elements. *)

From Stdlib Require Import String.
From S2P Require Import Prelude Coding Status DbFormat.
Import Coding.

(** ** Data *)

Inductive Tag := kComparator | kLogNumber | kNextFileNumber | kLastSequence | kCompactPointer
  | kDeletedFile | kNewFile | kPrevLogNumber.

Definition Tag_to_Z (t : Tag) : Z :=
  match t with
  | kComparator => 1 | kLogNumber => 2 | kNextFileNumber => 3 | kLastSequence => 4
  | kCompactPointer => 5 | kDeletedFile => 6 | kNewFile => 7 | kPrevLogNumber => 9
  end.

(** The [case] labels of the decoder. *)
Definition Tag_of_Z (z : Z) : option Tag :=
  if z =? 1 then Some kComparator else if z =? 2 then Some kLogNumber
  else if z =? 3 then Some kNextFileNumber else if z =? 4 then Some kLastSequence
  else if z =? 5 then Some kCompactPointer else if z =? 6 then Some kDeletedFile
  else if z =? 7 then Some kNewFile else if z =? 9 then Some kPrevLogNumber else None.

Record FileMetaData := MkFile {
  refs : Z;
  allowed_seeks : Z;
  point_query_time : Z;
  point_query_time_all : Z;
  history_time : list (Z * Z);
  number : Z;
  file_size : Z;
  smallest : bytes;
  largest : bytes;
}.

#[export] Instance FileMetaData_eq_dec : EqDecision FileMetaData.
Proof. solve_decision. Defined.

(** A default-constructed file description with the four fields set. *)
Definition NewFileMetaData (num sz : Z) (small large : bytes) : FileMetaData :=
  MkFile 0 (2 ^ 30) 0 0 [] num sz small large.

Record VersionEdit := MkEdit {
  comparator_ : bytes;
  log_number_ : Z;
  prev_log_number_ : Z;
  next_file_number_ : Z;
  last_sequence_ : Z;
  has_comparator_ : bool;
  has_log_number_ : bool;
  has_prev_log_number_ : bool;
  has_next_file_number_ : bool;
  has_last_sequence_ : bool;
  compact_pointers_ : list (Z * bytes);
  deleted_files_ : list (Z * Z);
  new_files_ : list (Z * FileMetaData);
}.

Definition Clear : VersionEdit :=
  MkEdit [] 0 0 0 0 false false false false false [] [] [].

(** ** Setters *)

Definition SetComparatorName (name : bytes) (e : VersionEdit) : VersionEdit :=
  MkEdit name (log_number_ e) (prev_log_number_ e) (next_file_number_ e) (last_sequence_ e)
    true (has_log_number_ e) (has_prev_log_number_ e) (has_next_file_number_ e) (has_last_sequence_ e)
    (compact_pointers_ e) (deleted_files_ e) (new_files_ e).

Definition SetLogNumber (num : Z) (e : VersionEdit) : VersionEdit :=
  MkEdit (comparator_ e) num (prev_log_number_ e) (next_file_number_ e) (last_sequence_ e)
    (has_comparator_ e) true (has_prev_log_number_ e) (has_next_file_number_ e) (has_last_sequence_ e)
    (compact_pointers_ e) (deleted_files_ e) (new_files_ e).

Definition SetPrevLogNumber (num : Z) (e : VersionEdit) : VersionEdit :=
  MkEdit (comparator_ e) (log_number_ e) num (next_file_number_ e) (last_sequence_ e)
    (has_comparator_ e) (has_log_number_ e) true (has_next_file_number_ e) (has_last_sequence_ e)
    (compact_pointers_ e) (deleted_files_ e) (new_files_ e).

Definition SetNextFile (num : Z) (e : VersionEdit) : VersionEdit :=
  MkEdit (comparator_ e) (log_number_ e) (prev_log_number_ e) num (last_sequence_ e)
    (has_comparator_ e) (has_log_number_ e) (has_prev_log_number_ e) true (has_last_sequence_ e)
    (compact_pointers_ e) (deleted_files_ e) (new_files_ e).

Definition SetLastSequence (seq : Z) (e : VersionEdit) : VersionEdit :=
  MkEdit (comparator_ e) (log_number_ e) (prev_log_number_ e) (next_file_number_ e) seq
    (has_comparator_ e) (has_log_number_ e) (has_prev_log_number_ e) (has_next_file_number_ e) true
    (compact_pointers_ e) (deleted_files_ e) (new_files_ e).

Definition SetCompactPointer (level : Z) (key : bytes) (e : VersionEdit) : VersionEdit :=
  MkEdit (comparator_ e) (log_number_ e) (prev_log_number_ e) (next_file_number_ e) (last_sequence_ e)
    (has_comparator_ e) (has_log_number_ e) (has_prev_log_number_ e) (has_next_file_number_ e) (has_last_sequence_ e)
    (compact_pointers_ e ++ [(level, key)]) (deleted_files_ e) (new_files_ e).

Definition push_new_file (level : Z) (f : FileMetaData) (e : VersionEdit) : VersionEdit :=
  MkEdit (comparator_ e) (log_number_ e) (prev_log_number_ e) (next_file_number_ e) (last_sequence_ e)
    (has_comparator_ e) (has_log_number_ e) (has_prev_log_number_ e) (has_next_file_number_ e) (has_last_sequence_ e)
    (compact_pointers_ e) (deleted_files_ e) (new_files_ e ++ [(level, f)]).

Definition AddFile (level file file_size : Z) (smallest largest : bytes) (e : VersionEdit) : VersionEdit :=
  push_new_file level (NewFileMetaData file file_size smallest largest) e.

(** [std::set<std::pair<int, uint64_t>>::insert]. *)
Definition pair_lt (p q : Z * Z) : bool := (p.1 <? q.1) || ((p.1 =? q.1) && (p.2 <? q.2)).

Fixpoint set_insert (p : Z * Z) (l : list (Z * Z)) : list (Z * Z) :=
  match l with
  | [] => [p]
  | q :: l' => if pair_lt p q then p :: l else if pair_lt q p then q :: set_insert p l' else l
  end.

Definition RemoveFile (level file : Z) (e : VersionEdit) : VersionEdit :=
  MkEdit (comparator_ e) (log_number_ e) (prev_log_number_ e) (next_file_number_ e) (last_sequence_ e)
    (has_comparator_ e) (has_log_number_ e) (has_prev_log_number_ e) (has_next_file_number_ e) (has_last_sequence_ e)
    (compact_pointers_ e) (set_insert (level, file) (deleted_files_ e)) (new_files_ e).

(** ** Encoding *)

Definition PutTag (dst : bytes) (t : Tag) : bytes := PutVarint32 dst (Tag_to_Z t).

(** A level is an [int] that is passed as a 32-bit unsigned number. *)
Definition put_compact_pointer (dst : bytes) (p : Z * bytes) : bytes :=
  let dst := PutTag dst kCompactPointer in
  let dst := PutVarint32 dst (u32 p.1) in
  PutLengthPrefixedSlice dst p.2.

Definition put_deleted_file (dst : bytes) (p : Z * Z) : bytes :=
  let dst := PutTag dst kDeletedFile in
  let dst := PutVarint32 dst (u32 p.1) in
  PutVarint64 dst p.2.

Definition put_new_file (dst : bytes) (p : Z * FileMetaData) : bytes :=
  let f := p.2 in
  let dst := PutTag dst kNewFile in
  let dst := PutVarint32 dst (u32 p.1) in
  let dst := PutVarint64 dst (number f) in
  let dst := PutVarint64 dst (file_size f) in
  let dst := PutLengthPrefixedSlice dst (smallest f) in
  PutLengthPrefixedSlice dst (largest f).

Definition EncodeTo (e : VersionEdit) (dst : bytes) : bytes :=
  let dst := if has_comparator_ e then PutLengthPrefixedSlice (PutTag dst kComparator) (comparator_ e) else dst in
  let dst := if has_log_number_ e then PutVarint64 (PutTag dst kLogNumber) (log_number_ e) else dst in
  let dst := if has_prev_log_number_ e then PutVarint64 (PutTag dst kPrevLogNumber) (prev_log_number_ e) else dst in
  let dst := if has_next_file_number_ e then PutVarint64 (PutTag dst kNextFileNumber) (next_file_number_ e) else dst in
  let dst := if has_last_sequence_ e then PutVarint64 (PutTag dst kLastSequence) (last_sequence_ e) else dst in
  let dst := foldl put_compact_pointer dst (compact_pointers_ e) in
  let dst := foldl put_deleted_file dst (deleted_files_ e) in
  foldl put_new_file dst (new_files_ e).

(** ** Decoding *)

(** [InternalKey::DecodeFrom] rejects the empty key. *)
Definition GetInternalKey (input : bytes) : option (bytes * bytes) :=
  '(str, input) ← GetLengthPrefixedSlice input;
  if size str =? 0 then None else Some (str, input).

Definition GetLevel (input : bytes) : option (Z * bytes) :=
  '(v, input) ← GetVarint32 input;
  if v <? kNumLevels then Some (v, input) else None.

(** The body of the [switch]: the edit and the rest of the input, or the message. *)
Definition decode_field (tag : Z) (input : bytes) (e : VersionEdit) : (VersionEdit * bytes) + bytes :=
  match Tag_of_Z tag with
  | Some kComparator =>
      match GetLengthPrefixedSlice input with
      | Some (str, input) => inl (SetComparatorName str e, input)
      | None => inr (bs "comparator name")
      end
  | Some kLogNumber =>
      match GetVarint64 input with
      | Some (n, input) => inl (SetLogNumber n e, input)
      | None => inr (bs "log number")
      end
  | Some kPrevLogNumber =>
      match GetVarint64 input with
      | Some (n, input) => inl (SetPrevLogNumber n e, input)
      | None => inr (bs "previous log number")
      end
  | Some kNextFileNumber =>
      match GetVarint64 input with
      | Some (n, input) => inl (SetNextFile n e, input)
      | None => inr (bs "next file number")
      end
  | Some kLastSequence =>
      match GetVarint64 input with
      | Some (n, input) => inl (SetLastSequence n e, input)
      | None => inr (bs "last sequence number")
      end
  | Some kCompactPointer =>
      match ('(level, input) ← GetLevel input; '(key, input) ← GetInternalKey input; Some (level, key, input)) with
      | Some (level, key, input) => inl (SetCompactPointer level key e, input)
      | None => inr (bs "compaction pointer")
      end
  | Some kDeletedFile =>
      match ('(level, input) ← GetLevel input; '(n, input) ← GetVarint64 input; Some (level, n, input)) with
      | Some (level, n, input) => inl (RemoveFile level n e, input)
      | None => inr (bs "deleted file")
      end
  | Some kNewFile =>
      match ('(level, input) ← GetLevel input; '(n, input) ← GetVarint64 input; '(sz, input) ← GetVarint64 input;
             '(small, input) ← GetInternalKey input; '(large, input) ← GetInternalKey input;
             Some (level, n, sz, small, large, input)) with
      | Some (level, n, sz, small, large, input) =>
          inl (push_new_file level (NewFileMetaData n sz small large) e, input)
      | None => inr (bs "new-file entry")
      end
  | None => inr (bs "unknown tag")
  end.

(** The loop: [None] when the fuel runs out. *)
Fixpoint DecodeFrom_loop (fuel : nat) (input : bytes) (e : VersionEdit) : option (Status * VersionEdit) :=
  match fuel with
  | O => None
  | S fuel =>
      match GetVarint32 input with
      | Some (tag, input) =>
          match decode_field tag input e with
          | inl (e, input) => DecodeFrom_loop fuel input e
          | inr msg => Some (Corruption (bs "VersionEdit") msg, e)
          end
      | None =>
          if size input =? 0 then Some (Status_OK, e)
          else Some (Corruption (bs "VersionEdit") (bs "invalid tag"), e)
      end
  end.

Definition DecodeFrom (src : bytes) : option (Status * VersionEdit) :=
  DecodeFrom_loop (S (length src)) src Clear.

(** ** Fields

    An edit is written as a sequence of fields; decoding applies them in order. *)

Inductive field :=
  | FComparator (name : bytes)
  | FLogNumber (n : Z)
  | FPrevLogNumber (n : Z)
  | FNextFile (n : Z)
  | FLastSequence (n : Z)
  | FCompactPointer (level : Z) (key : bytes)
  | FDeletedFile (level n : Z)
  | FNewFile (level n sz : Z) (small large : bytes).

Definition field_tag (f : field) : Tag :=
  match f with
  | FComparator _ => kComparator | FLogNumber _ => kLogNumber | FPrevLogNumber _ => kPrevLogNumber
  | FNextFile _ => kNextFileNumber | FLastSequence _ => kLastSequence
  | FCompactPointer _ _ => kCompactPointer | FDeletedFile _ _ => kDeletedFile | FNewFile _ _ _ _ _ => kNewFile
  end.

Definition prefixed (s : bytes) : bytes := PutLengthPrefixedSlice [] s.

Definition field_body (f : field) : bytes :=
  match f with
  | FComparator s => prefixed s
  | FLogNumber n | FPrevLogNumber n | FNextFile n | FLastSequence n => EncodeVarint64 n
  | FCompactPointer l k => EncodeVarint32 (u32 l) ++ prefixed k
  | FDeletedFile l n => EncodeVarint32 (u32 l) ++ EncodeVarint64 n
  | FNewFile l n sz s k => EncodeVarint32 (u32 l) ++ EncodeVarint64 n ++ EncodeVarint64 sz ++ prefixed s ++ prefixed k
  end.

Definition enc_field (f : field) : bytes := EncodeVarint32 (Tag_to_Z (field_tag f)) ++ field_body f.

Definition apply_field (e : VersionEdit) (f : field) : VersionEdit :=
  match f with
  | FComparator s => SetComparatorName s e
  | FLogNumber n => SetLogNumber n e
  | FPrevLogNumber n => SetPrevLogNumber n e
  | FNextFile n => SetNextFile n e
  | FLastSequence n => SetLastSequence n e
  | FCompactPointer l k => SetCompactPointer l k e
  | FDeletedFile l n => RemoveFile l n e
  | FNewFile l n sz s k => AddFile l n sz s k e
  end.

Definition level_ok (l : Z) : Prop := 0 <= l < kNumLevels.
Definition key_ok (k : bytes) : Prop := k ≠ [] ∧ is_u32 (size k).

Definition field_ok (f : field) : Prop :=
  match f with
  | FComparator s => is_u32 (size s)
  | FLogNumber n | FPrevLogNumber n | FNextFile n | FLastSequence n => is_u64 n
  | FCompactPointer l k => level_ok l ∧ key_ok k
  | FDeletedFile l n => level_ok l ∧ is_u64 n
  | FNewFile l n sz s k => level_ok l ∧ is_u64 n ∧ is_u64 sz ∧ key_ok s ∧ key_ok k
  end.

Definition flag (b : bool) (f : field) : list field := if b then [f] else [].

Definition fields_of (e : VersionEdit) : list field :=
  flag (has_comparator_ e) (FComparator (comparator_ e)) ++
  flag (has_log_number_ e) (FLogNumber (log_number_ e)) ++
  flag (has_prev_log_number_ e) (FPrevLogNumber (prev_log_number_ e)) ++
  flag (has_next_file_number_ e) (FNextFile (next_file_number_ e)) ++
  flag (has_last_sequence_ e) (FLastSequence (last_sequence_ e)) ++
  ((λ p, FCompactPointer p.1 p.2) <$> compact_pointers_ e) ++
  ((λ p, FDeletedFile p.1 p.2) <$> deleted_files_ e) ++
  ((λ p, FNewFile p.1 (number p.2) (file_size p.2) (smallest p.2) (largest p.2)) <$> new_files_ e).

(** Folding one of the three loops over a list. *)
Lemma foldl_put {A} (put : bytes → A → bytes) (mk : A → field) (l : list A) dst :
  (∀ dst x, put dst x = dst ++ enc_field (mk x)) →
  foldl put dst l = dst ++ concat (enc_field <$> (mk <$> l)).
Proof.
  intros H. revert dst. induction l as [|x l IH]; intros dst; [by rewrite app_nil_r|].
  cbn [foldl]. rewrite IH, H, !fmap_cons, concat_cons, app_assoc. done.
Qed.

Lemma flag_put (b : bool) dst dst' f : dst' = dst ++ enc_field f →
  (if b then dst' else dst) = dst ++ concat (enc_field <$> flag b f).
Proof.
  intros ->. destruct b; cbn [flag]; [|by rewrite app_nil_r].
  rewrite fmap_cons, concat_cons. cbn [fmap list_fmap concat]. by rewrite app_nil_r.
Qed.

Lemma EncodeTo_fields e dst : EncodeTo e dst = dst ++ concat (enc_field <$> fields_of e).
Proof.
  unfold EncodeTo, fields_of. rewrite !fmap_app, !concat_app, !app_assoc.
  rewrite (foldl_put put_new_file (λ p, FNewFile p.1 (number p.2) (file_size p.2) (smallest p.2) (largest p.2))).
  2: { intros d p. unfold put_new_file, PutTag, PutVarint32, PutVarint64, enc_field, field_body, prefixed.
       rewrite (PutLengthPrefixedSlice_app _ (largest p.2)), (PutLengthPrefixedSlice_app _ (smallest p.2)).
       rewrite <-!app_assoc. done. }
  rewrite (foldl_put put_deleted_file (λ p, FDeletedFile p.1 p.2)).
  2: { intros d p. unfold put_deleted_file, PutTag, PutVarint32, PutVarint64, enc_field, field_body.
       rewrite <-!app_assoc. done. }
  rewrite (foldl_put put_compact_pointer (λ p, FCompactPointer p.1 p.2)).
  2: { intros d p. unfold put_compact_pointer, PutTag, PutVarint32, enc_field, field_body, prefixed.
       rewrite (PutLengthPrefixedSlice_app _ p.2), <-!app_assoc. done. }
  do 3 f_equal. unfold PutTag, PutVarint32, PutVarint64.
  rewrite (flag_put (has_last_sequence_ e) _ _ (FLastSequence (last_sequence_ e))) by (symmetry; apply app_assoc).
  rewrite (flag_put (has_next_file_number_ e) _ _ (FNextFile (next_file_number_ e))) by (symmetry; apply app_assoc).
  rewrite (flag_put (has_prev_log_number_ e) _ _ (FPrevLogNumber (prev_log_number_ e))) by (symmetry; apply app_assoc).
  rewrite (flag_put (has_log_number_ e) _ _ (FLogNumber (log_number_ e))) by (symmetry; apply app_assoc).
  rewrite (flag_put (has_comparator_ e) _ _ (FComparator (comparator_ e))).
  2: { unfold enc_field, field_body, prefixed. rewrite PutLengthPrefixedSlice_app. symmetry. apply app_assoc. }
  done.
Qed.

(** ** Decoding a sequence of fields *)

Lemma Tag_of_to t : Tag_of_Z (Tag_to_Z t) = Some t.
Proof. by destruct t. Qed.

Lemma Tag_u32 t : is_u32 (Tag_to_Z t).
Proof. destruct t; done. Qed.

Lemma GetLevel_Encode l rest : level_ok l → GetLevel (EncodeVarint32 (u32 l) ++ rest) = Some (l, rest).
Proof.
  intros [H0 H1]. unfold kNumLevels in H1. unfold GetLevel. rewrite u32_small by range_lia.
  rewrite GetVarint32_Encode by range_lia. cbn [mbind option_bind].
  destruct (Z.ltb_spec l kNumLevels); [done|unfold kNumLevels in *; lia].
Qed.

Lemma GetInternalKey_Put k rest : key_ok k → GetInternalKey (prefixed k ++ rest) = Some (k, rest).
Proof.
  intros [Hne Hk]. unfold GetInternalKey, prefixed. rewrite GetLengthPrefixedSlice_Put by done. cbn [mbind option_bind].
  destruct (Z.eqb_spec (size k) 0) as [E|]; [|done]. destruct k; [done|]. rewrite size_cons in E.
  pose proof (size_nonneg k). lia.
Qed.

Lemma decode_field_enc f rest e : field_ok f →
  decode_field (Tag_to_Z (field_tag f)) (field_body f ++ rest) e = inl (apply_field e f, rest).
Proof.
  unfold decode_field. rewrite Tag_of_to.
  destruct f; cbn [field_tag field_body field_ok apply_field]; intros H; rewrite <-?app_assoc;
    repeat match goal with
    | H : _ ∧ _ |- _ => destruct H
    | |- context [GetLengthPrefixedSlice (prefixed _ ++ _)] => unfold prefixed at 1; rewrite GetLengthPrefixedSlice_Put by done
    | |- context [GetVarint64 (EncodeVarint64 _ ++ _)] => rewrite GetVarint64_Encode by done
    | |- context [GetLevel (EncodeVarint32 _ ++ _)] => rewrite GetLevel_Encode by done
    | |- context [GetInternalKey (prefixed _ ++ _)] => rewrite GetInternalKey_Put by done
    | _ => progress cbn [mbind option_bind]
    end; done.
Qed.

Lemma DecodeFrom_loop_fields fs : ∀ fuel e, Forall field_ok fs → (length fs < fuel)%nat →
  DecodeFrom_loop fuel (concat (enc_field <$> fs)) e = Some (Status_OK, foldl apply_field e fs).
Proof.
  induction fs as [|f fs IH]; intros fuel e Hok Hf; (destruct fuel as [|fuel]; [simpl in Hf; lia|]).
  - done.
  - apply Forall_cons in Hok as [Hf1 Hok]. cbn [DecodeFrom_loop]. rewrite fmap_cons, concat_cons.
    unfold enc_field at 1. rewrite <-app_assoc, GetVarint32_Encode by apply Tag_u32.
    rewrite decode_field_enc by done. cbn [foldl]. apply IH; [done|]. simpl in Hf. lia.
Qed.

(** ** Well-formed edits *)

Fixpoint set_sorted (l : list (Z * Z)) : Prop :=
  match l with
  | [] => True
  | p :: l' => (∀ q, q ∈ l' → pair_lt p q = true) ∧ set_sorted l'
  end.

Definition plain_file (f : FileMetaData) : Prop :=
  f = NewFileMetaData (number f) (file_size f) (smallest f) (largest f).

(** The fields can be encoded, absent ones have their cleared value, the set is
    ordered and a new file carries only what is written. *)
Record edit_ok (e : VersionEdit) : Prop := {
  eo_fields : Forall field_ok (fields_of e);
  eo_comparator : has_comparator_ e = false → comparator_ e = [];
  eo_log : has_log_number_ e = false → log_number_ e = 0;
  eo_prev : has_prev_log_number_ e = false → prev_log_number_ e = 0;
  eo_next : has_next_file_number_ e = false → next_file_number_ e = 0;
  eo_last : has_last_sequence_ e = false → last_sequence_ e = 0;
  eo_deleted : set_sorted (deleted_files_ e);
  eo_new : Forall (λ p, plain_file p.2) (new_files_ e);
}.

Lemma pair_lt_irrefl_sym p q : pair_lt p q = true → pair_lt q p = false.
Proof. unfold pair_lt. intros H. apply orb_true_iff in H. apply orb_false_iff. rewrite andb_true_iff in H. rewrite andb_false_iff. lia. Qed.

Lemma set_insert_snoc l p : (∀ q, q ∈ l → pair_lt q p = true) → set_insert p l = l ++ [p].
Proof.
  induction l as [|q l IH]; intros H; [done|]. cbn [set_insert app].
  assert (pair_lt q p = true) as E by (apply H; left). rewrite (pair_lt_irrefl_sym q p E), E, IH; [done|].
  intros q' Hq'. apply H. by right.
Qed.

Lemma set_sorted_app l p : set_sorted (l ++ [p]) → set_sorted l ∧ ∀ q, q ∈ l → pair_lt q p = true.
Proof.
  induction l as [|q l IH]; intros H; [split; [done|by intros q ?%not_elem_of_nil]|]. destruct H as [H1 H2].
  destruct (IH H2) as [H3 H4]. split; [split; [|done]|].
  - intros q' Hq'. apply H1, elem_of_app. by left.
  - intros q' [->|Hq']%elem_of_cons; [apply H1, elem_of_app; right; by left|by apply H4].
Qed.

Lemma apply_deleted l : ∀ e, deleted_files_ e = [] → set_sorted l →
  foldl apply_field e ((λ p, FDeletedFile p.1 p.2) <$> l) =
  MkEdit (comparator_ e) (log_number_ e) (prev_log_number_ e) (next_file_number_ e) (last_sequence_ e)
    (has_comparator_ e) (has_log_number_ e) (has_prev_log_number_ e) (has_next_file_number_ e) (has_last_sequence_ e)
    (compact_pointers_ e) l (new_files_ e).
Proof.
  induction l as [|p l IH] using rev_ind; intros e Hd Hs.
  - destruct e; simpl in *; by rewrite Hd.
  - apply set_sorted_app in Hs as [Hs Hp]. rewrite fmap_app, foldl_app, IH by done. simpl. unfold RemoveFile. simpl.
    destruct p as [a b]. by rewrite set_insert_snoc.
Qed.

Lemma apply_pointers l : ∀ e, foldl apply_field e ((λ p, FCompactPointer p.1 p.2) <$> l) =
  MkEdit (comparator_ e) (log_number_ e) (prev_log_number_ e) (next_file_number_ e) (last_sequence_ e)
    (has_comparator_ e) (has_log_number_ e) (has_prev_log_number_ e) (has_next_file_number_ e) (has_last_sequence_ e)
    (compact_pointers_ e ++ l) (deleted_files_ e) (new_files_ e).
Proof.
  induction l as [|[a k] l IH]; intros e; [rewrite app_nil_r; by destruct e|].
  rewrite fmap_cons. cbn [foldl]. rewrite IH. simpl. by rewrite <-app_assoc.
Qed.

Lemma apply_new l : ∀ e, Forall (λ p, plain_file p.2) l →
  foldl apply_field e ((λ p, FNewFile p.1 (number p.2) (file_size p.2) (smallest p.2) (largest p.2)) <$> l) =
  MkEdit (comparator_ e) (log_number_ e) (prev_log_number_ e) (next_file_number_ e) (last_sequence_ e)
    (has_comparator_ e) (has_log_number_ e) (has_prev_log_number_ e) (has_next_file_number_ e) (has_last_sequence_ e)
    (compact_pointers_ e) (deleted_files_ e) (new_files_ e ++ l).
Proof.
  induction l as [|[a f] l IH]; intros e Hp; [rewrite app_nil_r; by destruct e|].
  apply Forall_cons in Hp as [Hf Hp]. rewrite fmap_cons. cbn [foldl]. rewrite IH by done. simpl.
  rewrite <-app_assoc. simpl. by rewrite <-Hf.
Qed.

Lemma apply_fields_of e : edit_ok e → foldl apply_field Clear (fields_of e) = e.
Proof.
  intros [_ H1 H2 H3 H4 H5 H6 H7]. destruct e as [cmp ln pl nf ls hc hl hp hn hs cp df fs]. simpl in *.
  unfold fields_of. cbn [comparator_ log_number_ prev_log_number_ next_file_number_ last_sequence_ has_comparator_
    has_log_number_ has_prev_log_number_ has_next_file_number_ has_last_sequence_ compact_pointers_ deleted_files_ new_files_].
  rewrite !foldl_app, apply_new by done. rewrite apply_deleted, apply_pointers; [| |done].
  - destruct hc, hl, hp, hn, hs; simpl; rewrite ?H1, ?H2, ?H3, ?H4, ?H5 by done; done.
  - rewrite apply_pointers. by destruct hc, hl, hp, hn, hs.
Qed.

Lemma length_enc_fields fs : (length fs <= length (concat (enc_field <$> fs)))%nat.
Proof.
  induction fs as [|f fs IH]; [done|]. rewrite fmap_cons, concat_cons, length_app. simpl.
  pose proof (size_EncodeVarint32 (Tag_to_Z (field_tag f)) (Tag_u32 _)) as Hs. unfold size in Hs.
  unfold enc_field at 1. rewrite length_app. lia.
Qed.

Lemma DecodeFrom_EncodeTo e : edit_ok e → DecodeFrom (EncodeTo e []) = Some (Status_OK, e).
Proof.
  intros He. unfold DecodeFrom. rewrite EncodeTo_fields. cbn [app].
  rewrite DecodeFrom_loop_fields; [by rewrite apply_fields_of|apply He|].
  pose proof (length_enc_fields (fields_of e)). lia.
Qed.

(** ** Every way to fill an edit keeps it well formed *)

Lemma set_insert_elem p l q : q ∈ set_insert p l → q = p ∨ q ∈ l.
Proof.
  induction l as [|r l IH]; cbn [set_insert]; [intros ->%list_elem_of_singleton; by left|].
  destruct (pair_lt p r); [intros [->|?]%elem_of_cons; by auto|].
  destruct (pair_lt r p); [|by right]. intros [->|[->|?]%IH]%elem_of_cons; [right; by left|by left|right; by right].
Qed.

Lemma pair_lt_trans p q r : pair_lt p q = true → pair_lt q r = true → pair_lt p r = true.
Proof. unfold pair_lt. rewrite !orb_true_iff, !andb_true_iff. lia. Qed.

Lemma pair_lt_total p q : pair_lt p q = false → pair_lt q p = false → p = q.
Proof. unfold pair_lt. rewrite !orb_false_iff, !andb_false_iff. destruct p, q; simpl. intros. f_equal; lia. Qed.

Lemma pair_lt_tie p q : pair_lt p q = false → pair_lt q p = false → p = q.
Proof.
  destruct p as [a b], q as [c d]. unfold pair_lt. cbn [fst snd]. rewrite !orb_false_iff, !andb_false_iff, !Z.ltb_ge, !Z.eqb_neq. intros [H1 H2] [H3 H4].
  assert (a = c) as -> by lia. f_equal. lia.
Qed.

Lemma elem_set_insert p l q : q ∈ set_insert p l ↔ q = p ∨ q ∈ l.
Proof.
  induction l as [|r l IH]; cbn [set_insert]; [rewrite list_elem_of_singleton; split; [by left|intros [?|?%not_elem_of_nil]; done]|].
  destruct (pair_lt p r) eqn:E1; [by rewrite elem_of_cons|]. destruct (pair_lt r p) eqn:E2; [rewrite !elem_of_cons, IH; tauto|].
  rewrite (pair_lt_tie p r E1 E2), elem_of_cons. tauto.
Qed.

Lemma set_insert_sorted p l : set_sorted l → set_sorted (set_insert p l).
Proof.
  induction l as [|q l IH]; cbn [set_insert set_sorted]; [split; [by intros ? ?%not_elem_of_nil|done]|].
  intros [H1 H2]. destruct (pair_lt p q) eqn:E1; [|destruct (pair_lt q p) eqn:E2].
  - split; [|done]. intros r [->|Hr]%elem_of_cons; [done|]. by eapply pair_lt_trans; [|apply H1].
  - split; [|by apply IH]. intros r [->|Hr]%set_insert_elem; [done|by apply H1].
  - done.
Qed.

Lemma Clear_ok : edit_ok Clear.
Proof. split; done. Qed.

Lemma fields_ok_iff e : Forall field_ok (fields_of e) ↔
  (has_comparator_ e = true → field_ok (FComparator (comparator_ e))) ∧
  (has_log_number_ e = true → field_ok (FLogNumber (log_number_ e))) ∧
  (has_prev_log_number_ e = true → field_ok (FPrevLogNumber (prev_log_number_ e))) ∧
  (has_next_file_number_ e = true → field_ok (FNextFile (next_file_number_ e))) ∧
  (has_last_sequence_ e = true → field_ok (FLastSequence (last_sequence_ e))) ∧
  (∀ l k, (l, k) ∈ compact_pointers_ e → field_ok (FCompactPointer l k)) ∧
  (∀ l n, (l, n) ∈ deleted_files_ e → field_ok (FDeletedFile l n)) ∧
  (∀ l f, (l, f) ∈ new_files_ e → field_ok (FNewFile l (number f) (file_size f) (smallest f) (largest f))).
Proof.
  assert (∀ (b : bool) f, Forall field_ok (flag b f) ↔ (b = true → field_ok f)) as Hf.
  { intros [] f; simpl; [rewrite Forall_singleton|]; split; try done; auto. }
  unfold fields_of. rewrite !Forall_app, !Hf, !Forall_fmap, !Forall_forall. simpl.
  split; intros (F1 & F2 & F3 & F4 & F5 & F6 & F7 & F8); (split_and!; [done..| | |]).
  - intros l k. apply (F6 (l, k)).
  - intros l k. apply (F7 (l, k)).
  - intros l k. apply (F8 (l, k)).
  - intros [l k]. apply F6.
  - intros [l k]. apply F7.
  - intros [l k]. apply F8.
Qed.

Lemma apply_field_ok e f : edit_ok e → field_ok f → edit_ok (apply_field e f).
Proof.
  intros [Hf H1 H2 H3 H4 H5 H6 H7] Ho. apply fields_ok_iff in Hf as (F1 & F2 & F3 & F4 & F5 & F6 & F7 & F8).
  split; [apply fields_ok_iff; destruct f; simpl in *; split_and!; try done|destruct f; simpl in *; try done..].
  - intros l k [?|[= -> ->]%list_elem_of_singleton]%elem_of_app; [by apply F6|done].
  - intros l k [[= -> ->]|?]%set_insert_elem; [done|by apply F7].
  - intros l k [?|[= -> ->]%list_elem_of_singleton]%elem_of_app; [by apply F8|done].
  - by apply set_insert_sorted.
  - apply Forall_app. split; [done|]. by apply Forall_singleton.
Qed.

Lemma apply_fields_ok fs : ∀ e, edit_ok e → Forall field_ok fs → edit_ok (foldl apply_field e fs).
Proof.
  induction fs as [|f fs IH]; intros e He Hfs; [done|]. apply Forall_cons in Hfs as [Hf Hfs].
  apply IH; [by apply apply_field_ok|done].
Qed.

(** ** Decoding arbitrary bytes *)

Lemma GetLevel_sound p l rest : GetLevel p = Some (l, rest) → level_ok l ∧ (length rest <= length p)%nat.
Proof.
  unfold GetLevel. destruct (GetVarint32 p) as [[v r]|] eqn:E; [cbn [mbind option_bind]|done].
  destruct (Z.ltb_spec v kNumLevels); [|done]. intros [= <- <-]. pose proof (GetVarint32_range _ _ _ E) as [? _].
  apply GetVarint32_suffix in E as (used & -> & _). split; [done|]. rewrite length_app. lia.
Qed.

Lemma GetInternalKey_sound p k rest : GetInternalKey p = Some (k, rest) → key_ok k ∧ (length rest <= length p)%nat.
Proof.
  unfold GetInternalKey. destruct (GetLengthPrefixedSlice p) as [[s r]|] eqn:E; [cbn [mbind option_bind]|done].
  destruct (Z.eqb_spec (size s) 0) as [|Hne]; [done|]. intros [= <- <-].
  apply GetLengthPrefixedSlice_suffix in E as (used & -> & _ & Hs). split; [split; [by intros ->|done]|].
  rewrite !length_app. lia.
Qed.

Lemma GetVarint64_sound p n rest : GetVarint64 p = Some (n, rest) → is_u64 n ∧ (length rest <= length p)%nat.
Proof.
  intros E. split; [by eapply GetVarint64_range|]. apply GetVarint64_suffix in E as (used & -> & _).
  rewrite length_app. lia.
Qed.

Lemma decode_field_sound tag input e e' rest : decode_field tag input e = inl (e', rest) →
  ∃ f, field_ok f ∧ e' = apply_field e f ∧ (length rest <= length input)%nat.
Proof.
  unfold decode_field. destruct (Tag_of_Z tag) as [[]|]; [..|done].
  all: repeat match goal with
    | |- context [GetLengthPrefixedSlice ?p] => destruct (GetLengthPrefixedSlice p) as [[? ?]|] eqn:?; cbn [mbind option_bind]
    | |- context [GetVarint64 ?p] => destruct (GetVarint64 p) as [[? ?]|] eqn:?; cbn [mbind option_bind]
    | |- context [GetLevel ?p] => destruct (GetLevel p) as [[? ?]|] eqn:?; cbn [mbind option_bind]
    | |- context [GetInternalKey ?p] => destruct (GetInternalKey p) as [[? ?]|] eqn:?; cbn [mbind option_bind]
    end; try done; intros [= <- <-];
    repeat match goal with
    | H : GetVarint64 _ = Some _ |- _ => apply GetVarint64_sound in H as [? ?]
    | H : GetLevel _ = Some _ |- _ => apply GetLevel_sound in H as [? ?]
    | H : GetInternalKey _ = Some _ |- _ => apply GetInternalKey_sound in H as [? ?]
    end.
  - match goal with H : GetLengthPrefixedSlice _ = Some (?s, ?r) |- _ =>
      apply GetLengthPrefixedSlice_suffix in H as (used & -> & _ & Hs); exists (FComparator s) end.
    split_and!; [done|done|rewrite !length_app; lia].
  - eexists (FLogNumber _). split_and!; [|reflexivity|]; done.
  - eexists (FNextFile _). split_and!; [|reflexivity|]; done.
  - eexists (FLastSequence _). split_and!; [|reflexivity|]; done.
  - eexists (FCompactPointer _ _). split_and!; [split|reflexivity|]; done || lia.
  - eexists (FDeletedFile _ _). split_and!; [split|reflexivity|]; done || lia.
  - eexists (FNewFile _ _ _ _ _). split_and!; [split_and!|reflexivity|]; done || lia.
  - eexists (FPrevLogNumber _). split_and!; [|reflexivity|]; done.
Qed.

Lemma DecodeFrom_loop_total fuel : ∀ input e, edit_ok e → (length input < fuel)%nat →
  ∃ s e', DecodeFrom_loop fuel input e = Some (s, e') ∧ edit_ok e' ∧
    (s = Status_OK ∨ ∃ msg, s = Corruption (bs "VersionEdit") msg).
Proof.
  induction fuel as [|fuel IH]; intros input e He Hf; [lia|]. cbn [DecodeFrom_loop].
  destruct (GetVarint32 input) as [[tag rest]|] eqn:E.
  - apply GetVarint32_suffix in E as (used & -> & Hu). rewrite length_app in Hf. unfold size in Hu.
    destruct (decode_field tag rest e) as [[e' rest']|msg] eqn:Ed.
    + apply decode_field_sound in Ed as (f & Hfo & -> & Hl). apply IH; [by apply apply_field_ok|lia].
    + eexists _, e. split; [done|]. split; [done|]. eauto.
  - destruct (size input =? 0); eexists _, e; (split; [done|]; split; [done|]; eauto).
Qed.

(** ** Properties *)

(** C36: a version edit survives the descriptor log: for every sequence of setter
    calls with levels below the number of levels, 64-bit numbers and non-empty
    keys, decoding what the edit encodes to succeeds and yields the same edit:
    every field, the compaction pointers and new files in order and the set of
    deleted files. *)
Theorem version_edit_roundtrip (calls : list field) :
  Forall field_ok calls →
  let e := foldl apply_field Clear calls in
  DecodeFrom (EncodeTo e []) = Some (Status_OK, e).
Proof. intros Hc e. by apply DecodeFrom_EncodeTo, apply_fields_ok; [apply Clear_ok|]. Qed.

Definition example_calls : list field :=
  [FComparator (bs "leveldb.BytewiseComparator"); FLogNumber 9; FNextFile 300; FLastSequence (2 ^ 40);
   FDeletedFile 2 77; FNewFile 1 88 4096 (ikey [x61] 5 kTypeValue) (ikey [x7a] 1 kTypeDeletion);
   FDeletedFile 0 12; FCompactPointer 3 (ikey [x6d] 2 kTypeValue)].

Lemma version_edit_roundtrip_witness :
  let e := foldl apply_field Clear example_calls in
  DecodeFrom (EncodeTo e []) = Some (Status_OK, e) ∧ deleted_files_ e = [(0, 12); (2, 77)].
Proof.
  split; [|reflexivity]. apply (version_edit_roundtrip example_calls).
  repeat (apply Forall_cons; split; [vm_compute; repeat split; discriminate|]). apply Forall_nil. exact I.
Defined.

(** C37: decoding any bytes ends, with success or with a corruption status of the
    edit, and whatever it has filled in is well formed (levels in range, keys not
    empty, set ordered): a successfully decoded edit is written and read back
    unchanged. *)
Theorem version_edit_decode_total (src : bytes) :
  ∃ s e, DecodeFrom src = Some (s, e) ∧ edit_ok e ∧
    (s = Status_OK ∨ ∃ msg, s = Corruption (bs "VersionEdit") msg) ∧
    DecodeFrom (EncodeTo e []) = Some (Status_OK, e).
Proof.
  destruct (DecodeFrom_loop_total (S (length src)) src Clear Clear_ok ltac:(lia)) as (s & e & E & He & Hs).
  exists s, e. split_and!; [done..|by apply DecodeFrom_EncodeTo].
Qed.
