(* ===== verification/Version.v ===== *)
(** * Versions (src/db/version_set.cc: class Version and its helpers)

    A version lists the table files of each level.  A [FileMetaData] object is
    identified by its file number; the fields of it that change while it is shared
    by versions (reference count, seek allowance, query counts) live in a store
    keyed by the number, the others never change and are read from the record.

    The table cache is an argument: [cache_get f level k] is the status that
    [TableCache::Get] returns and the entry, if any, that it hands to the saver.
    The class [TableReads] states what the cache promises. *)

From Stdlib Require Import String.
From stdpp Require Import gmap.
From Stdlib Require Import SpecFloat Sorted.
From S2P Require Import Prelude Coding Status Comparator DbFormat VersionEdit Arena Random SkipList MemTable.
Import Coding.

(** ** Sizes *)

Section Sizes.
  (** [options->max_file_size]. *)
  Context (max_file_size : Z).

Definition TargetFileSize : Z := max_file_size.
Definition MaxGrandParentOverlapBytes : Z := i64 (u64 (10 * TargetFileSize)).
Definition ExpandedCompactionByteSizeLimit : Z := i64 (u64 (25 * TargetFileSize)).
Definition MaxFileSizeForLevel : Z := TargetFileSize.

End Sizes.

Definition TotalFileSize (files : list FileMetaData) : Z :=
  foldl (λ sum f, i64 (sum + file_size f)) 0 files.

(** ** The changing fields of files *)

Record FileStats := MkStats {
  fs_refs : Z;
  fs_allowed_seeks : Z;
  fs_point_query_time : Z;
  fs_point_query_time_all : Z;
}.

Definition Store : Type := gmap Z FileStats.

(** ** Version *)

Record Version := MkVersion {
  v_refs_ : Z;
  files_ : list (list FileMetaData);
  file_to_compact_ : option FileMetaData;
  file_to_compact_level_ : Z;
  compaction_score_ : spec_float;
  compaction_level_ : Z;
}.

Definition num_levels : nat := Z.to_nat kNumLevels.

Definition minus_one : spec_float := S754_finite true 4503599627370496 (-52).

Definition NewVersion : Version := MkVersion 0 (replicate num_levels []) None (-1) minus_one (-1).

(** [files_[level]]; the level is in range. *)
Definition level_files (v : Version) (level : nat) : list FileMetaData := default [] (files_ v !! level).

Definition NumFiles (v : Version) (level : nat) : Z := size (level_files v level).

Section Version.
  Context (C : Comparator).

(** [left] and [right] are 32-bit; a pass of the loop narrows the interval. *)
Fixpoint FindFile_loop (fuel : nat) (files : list FileMetaData) (key : bytes) (left right : Z) : option Z :=
  match fuel with
  | O => None
  | S fuel =>
      if left <? right then
        let mid := u32 (left + right) / 2 in
        f ← nth_z files mid;
        if InternalKeyCompare C (largest f) key <? 0 then FindFile_loop fuel files key (mid + 1) right
        else FindFile_loop fuel files key left mid
      else Some right
  end.

Definition FindFile (files : list FileMetaData) (key : bytes) : option Z :=
  FindFile_loop (S (length files)) files key 0 (u32 (size files)).

Definition file_start (f : FileMetaData) : bytes := ExtractUserKey (smallest f).
Definition file_limit (f : FileMetaData) : bytes := ExtractUserKey (largest f).

(** A null [user_key] is [None]. *)
Definition AfterFile (user_key : option bytes) (f : FileMetaData) : bool :=
  match user_key with Some k => @Compare C k (file_limit f) >? 0 | None => false end.

Definition BeforeFile (user_key : option bytes) (f : FileMetaData) : bool :=
  match user_key with Some k => @Compare C k (file_start f) <? 0 | None => false end.

Definition SomeFileOverlapsRange (disjoint_sorted_files : bool) (files : list FileMetaData)
    (smallest_user_key largest_user_key : option bytes) : option bool :=
  if negb disjoint_sorted_files then
    Some (existsb (λ f, negb (AfterFile smallest_user_key f || BeforeFile largest_user_key f)) files)
  else
    index ← match smallest_user_key with
            | Some k => FindFile files (ikey k kMaxSequenceNumber kValueTypeForSeek)
            | None => Some 0
            end;
    if index >=? size files then Some false
    else f ← nth_z files index; Some (negb (BeforeFile largest_user_key f)).

Definition OverlapInLevel (v : Version) (level : nat) (smallest_user_key largest_user_key : option bytes) : option bool :=
  SomeFileOverlapsRange (0 <? level)%nat (level_files v level) smallest_user_key largest_user_key.

(** ** LevelFileNumIterator

    The iterator is its [index_], 32 bits wide. *)

Section LevelFileNumIterator.
  Context (flist : list FileMetaData) (level : Z).

Definition NewLevelIter : Z := u32 (size flist).
Definition LevelValid (index : Z) : bool := index <? size flist.
Definition LevelSeek (target : bytes) : option Z := FindFile flist target.
Definition LevelSeekToFirst : Z := 0.
Definition LevelSeekToLast : Z := if decide (flist = []) then 0 else u32 (size flist - 1).
Definition LevelNext (index : Z) : Z := u32 (index + 1).
Definition LevelPrev (index : Z) : Z := if index =? 0 then u32 (size flist) else index - 1.
Definition LevelKey (index : Z) : option bytes := f ← nth_z flist index; Some (largest f).
Definition LevelValue (index : Z) : option bytes :=
  f ← nth_z flist index; Some (EncodeFixed64 (number f) ++ EncodeFixed64 (file_size f) ++ EncodeFixed64 level).

End LevelFileNumIterator.

(** ** Reads *)

Inductive SaverState := SaverNotFound | SaverFound | SaverDeleted | SaverCorrupt.

Record Saver := MkSaver { sv_state : SaverState; sv_user_key : bytes; sv_value : bytes }.

Definition SaveValue (s : Saver) (ikey v : bytes) : Saver :=
  match ParseInternalKey ikey with
  | None => MkSaver SaverCorrupt (sv_user_key s) (sv_value s)
  | Some parsed_key =>
      if @Compare C (user_key parsed_key) (sv_user_key s) =? 0 then
        if decide (type parsed_key = kTypeValue) then MkSaver SaverFound (sv_user_key s) v
        else MkSaver SaverDeleted (sv_user_key s) (sv_value s)
      else s
  end.

Definition NewestFirst (a b : FileMetaData) : bool := number a >? number b.

(** [std::sort] by [NewestFirst]. *)
Fixpoint insert_newest (f : FileMetaData) (l : list FileMetaData) : list FileMetaData :=
  match l with
  | [] => [f]
  | g :: l' => if NewestFirst g f then g :: insert_newest f l' else f :: l
  end.

Definition sort_newest (l : list FileMetaData) : list FileMetaData := foldr insert_newest [] l.

Section ForEach.
  Context {S : Type} (func : S → nat → FileMetaData → S * bool).

(** The calls for the files of one level; [false] stops the search. *)
Fixpoint visit (st : S) (level : nat) (files : list FileMetaData) : S * bool :=
  match files with
  | [] => (st, true)
  | f :: files => let '(st, go_on) := func st level f in if go_on : bool then visit st level files else (st, false)
  end.

(** The file of a level above 0 that may hold the key. *)
Definition candidate (v : Version) (user_key internal_key : bytes) (level : nat) : option (list FileMetaData) :=
  let files := level_files v level in
  if size files =? 0 then Some []
  else
    index ← FindFile files internal_key;
    if index <? size files then
      f ← nth_z files index;
      Some (if @Compare C user_key (file_start f) <? 0 then [] else [f])
    else Some [].

Fixpoint visit_levels (v : Version) (user_key internal_key : bytes) (st : S) (levels : list nat) : option S :=
  match levels with
  | [] => Some st
  | level :: levels =>
      files ← candidate v user_key internal_key level;
      let '(st, go_on) := visit st level files in
      if go_on : bool then visit_levels v user_key internal_key st levels else Some st
  end.

Definition level0_candidates (v : Version) (user_key : bytes) : list FileMetaData :=
  sort_newest (filter (λ f, (@Compare C user_key (file_start f) >=? 0) && (@Compare C user_key (file_limit f) <=? 0))
    (level_files v 0)).

Definition ForEachOverlapping (v : Version) (user_key internal_key : bytes) (st : S) : option S :=
  let '(st, go_on) := visit st 0 (level0_candidates v user_key) in
  if go_on : bool then visit_levels v user_key internal_key st (seq 1 (num_levels - 1)) else Some st.

End ForEach.

(** [GetStats]: the file to charge for a seek and its level. *)
Record GetStats := MkGetStats { seek_file : option FileMetaData; seek_file_level : Z }.

Section Get.
  Context (cache_get : FileMetaData → nat → bytes → Status * option (bytes * bytes)).

Record GetState := MkGetState {
  g_saver : Saver;
  g_stats : GetStats;
  g_last_file_read : option FileMetaData;
  g_last_file_read_level : Z;
  g_s : Status;
  g_found : bool;
  g_store : Store;
}.

(** [f->point_query_time++; f->point_query_time_all++]. *)
Definition touch (f : FileMetaData) (store : Store) : Store :=
  alter (λ s, MkStats (fs_refs s) (fs_allowed_seeks s) (i32 (fs_point_query_time s + 1)) (i32 (fs_point_query_time_all s + 1)))
    (number f) store.

Definition Match (ikey : bytes) (state : GetState) (level : nat) (f : FileMetaData) : GetState * bool :=
  let store := touch f (g_store state) in
  let stats :=
    match seek_file (g_stats state), g_last_file_read state with
    | None, Some last => MkGetStats (Some last) (g_last_file_read_level state)
    | _, _ => g_stats state
    end in
  let '(s, call) := cache_get f level ikey in
  let saver := match call with Some (k, v) => SaveValue (g_saver state) k v | None => g_saver state end in
  let next := λ s found, MkGetState saver stats (Some f) (Z.of_nat level) s found store in
  if negb (ok s) then (next s true, false)
  else
    match sv_state saver with
    | SaverNotFound => (next s (g_found state), true)
    | SaverFound => (next s true, false)
    | SaverDeleted => (next s (g_found state), false)
    | SaverCorrupt => (next (Corruption (bs "corrupted key for ") (sv_user_key saver)) true, false)
    end.

(** The status, [*value], [*stats] and the counters of the files. *)
Definition Get (v : Version) (k : LookupKey) (value : bytes) (store : Store) : option (Status * bytes * GetStats * Store) :=
  let init := MkGetState (MkSaver SaverNotFound (lookup_user_key k) value) (MkGetStats None (-1)) None (-1) Status_OK false store in
  state ← ForEachOverlapping (Match (internal_key k)) v (lookup_user_key k) (internal_key k) init;
  Some (if g_found state then g_s state else NotFound [] [], sv_value (g_saver state), g_stats state, g_store state).

End Get.

Definition UpdateStats (v : Version) (store : Store) (stats : GetStats) : Version * Store * bool :=
  match seek_file stats with
  | Some f =>
      let store := alter (λ s, MkStats (fs_refs s) (i32 (fs_allowed_seeks s - 1)) (fs_point_query_time s) (fs_point_query_time_all s))
                     (number f) store in
      if (default 1 (fs_allowed_seeks <$> store !! number f) <=? 0) && bool_decide (file_to_compact_ v = None) then
        (MkVersion (v_refs_ v) (files_ v) (Some f) (seek_file_level stats) (compaction_score_ v) (compaction_level_ v), store, true)
      else (v, store, false)
  | None => (v, store, false)
  end.

(** The state of the second local [Match]: the first matching file and the count. *)
Definition SampleMatch (state : GetStats * Z) (level : nat) (f : FileMetaData) : GetStats * Z * bool :=
  let '(stats, matches) := state in
  let matches := matches + 1 in
  let stats := if matches =? 1 then MkGetStats (Some f) (Z.of_nat level) else stats in
  (stats, matches, matches <? 2).

Definition RecordReadSample (v : Version) (store : Store) (internal_key : bytes) : option (Version * Store * bool) :=
  match ParseInternalKey internal_key with
  | None => Some (v, store, false)
  | Some ikey =>
      '(stats, matches) ← ForEachOverlapping SampleMatch v (user_key ikey) internal_key (MkGetStats None (-1), 0);
      Some (if matches >=? 2 then UpdateStats v store stats else (v, store, false))
  end.

Definition GetAccessTimeFromNewSSTable (v : Version) (store : Store) (level : nat) : Z :=
  let metas := level_files v level in
  if decide (metas = []) then 0
  else
    let sum := foldl (λ sum f, i32 (sum + default 0 (fs_point_query_time_all <$> store !! number f))) 0 metas in
    i32 (u64 sum / size metas).

(** ** Overlapping inputs *)

(** What one pass over the files finds: the overlapping files, or a wider range with
    which the search starts again. *)
Inductive Scan := Scanned (inputs : list FileMetaData) | Restart (user_begin user_end : option bytes).

Fixpoint scan (level0 : bool) (user_begin user_end : option bytes) (files : list FileMetaData) : Scan :=
  match files with
  | [] => Scanned []
  | f :: files =>
      if match user_begin with Some b => @Compare C (file_limit f) b <? 0 | None => false end
      then scan level0 user_begin user_end files
      else if match user_end with Some e => @Compare C (file_start f) e >? 0 | None => false end
      then scan level0 user_begin user_end files
      else if level0 && match user_begin with Some b => @Compare C (file_start f) b <? 0 | None => false end
      then Restart (Some (file_start f)) user_end
      else if level0 && match user_end with Some e => @Compare C (file_limit f) e >? 0 | None => false end
      then Restart user_begin (Some (file_limit f))
      else
        match scan level0 user_begin user_end files with
        | Scanned inputs => Scanned (f :: inputs)
        | restart => restart
        end
  end.

Fixpoint overlapping_loop (fuel : nat) (level0 : bool) (user_begin user_end : option bytes) (files : list FileMetaData)
    : option (list FileMetaData) :=
  match fuel with
  | O => None
  | S fuel =>
      match scan level0 user_begin user_end files with
      | Scanned inputs => Some inputs
      | Restart user_begin user_end => overlapping_loop fuel level0 user_begin user_end files
      end
  end.

(** [begin] and [end] are internal keys; a restart moves one end of the range to the
    end of a file, which happens at most twice per file. *)
Definition GetOverlappingInputs (v : Version) (level : nat) (kbegin kend : option bytes) : option (list FileMetaData) :=
  let files := level_files v level in
  overlapping_loop (S (2 * length files)) (level =? 0)%nat (ExtractUserKey <$> kbegin) (ExtractUserKey <$> kend) files.

Section PickLevel.
  Context (max_file_size : Z).

(** [while (level < config::kMaxMemCompactLevel)]. *)
Fixpoint pick_level_loop (room : nat) (v : Version) (smallest_user_key largest_user_key : bytes) (level : nat) : option nat :=
  match room with
  | O => Some level
  | S room =>
      overlap ← OverlapInLevel v (level + 1) (Some smallest_user_key) (Some largest_user_key);
      if overlap : bool then Some level
      else
        too_much ←
          (if (level + 2 <? num_levels)%nat then
             overlaps ← GetOverlappingInputs v (level + 2) (Some (ikey smallest_user_key kMaxSequenceNumber kValueTypeForSeek))
                          (Some (ikey largest_user_key 0 kTypeDeletion));
             Some (TotalFileSize overlaps >? MaxGrandParentOverlapBytes max_file_size)
           else Some false);
        if too_much : bool then Some level
        else pick_level_loop room v smallest_user_key largest_user_key (S level)
  end.

Definition PickLevelForMemTableOutput (v : Version) (smallest_user_key largest_user_key : bytes) : option nat :=
  overlap ← OverlapInLevel v 0 (Some smallest_user_key) (Some largest_user_key);
  if overlap : bool then Some 0%nat
  else pick_level_loop (Z.to_nat kMaxMemCompactLevel) v smallest_user_key largest_user_key 0.

End PickLevel.

End Version.

(** ** Searching files *)

Section search.
  Context (C : Comparator) {L : ComparatorLaws C}.

(** The largest keys increase. *)
Definition largest_sorted (files : list FileMetaData) : Prop :=
  ∀ i j f g, (i < j)%nat → files !! i = Some f → files !! j = Some g → InternalKeyCompare C (largest f) (largest g) <= 0.

(** [i] is the first file whose largest key is not smaller. *)
Definition first_file (files : list FileMetaData) (key : bytes) (i : nat) : Prop :=
  (i <= length files)%nat ∧
  (∀ j f, (j < i)%nat → files !! j = Some f → InternalKeyCompare C (largest f) key < 0) ∧
  (∀ j f, (i <= j)%nat → files !! j = Some f → 0 <= InternalKeyCompare C (largest f) key).

Lemma icmp_trans a b c : InternalKeyCompare C a b <= 0 → InternalKeyCompare C b c <= 0 → InternalKeyCompare C a c <= 0.
Proof. apply (Compare_trans (C := InternalKeyComparator C)). Qed.

Lemma icmp_lt_le_trans a b c : InternalKeyCompare C a b < 0 → InternalKeyCompare C b c <= 0 → InternalKeyCompare C a c < 0.
Proof. apply (Compare_lt_le_trans (C := InternalKeyComparator C)). Qed.

Lemma icmp_le_lt_trans a b c : InternalKeyCompare C a b <= 0 → InternalKeyCompare C b c < 0 → InternalKeyCompare C a c < 0.
Proof. apply (Compare_le_lt_trans (C := InternalKeyComparator C)). Qed.

Lemma icmp_antisym a b : Z.sgn (InternalKeyCompare C b a) = - Z.sgn (InternalKeyCompare C a b).
Proof. apply (Compare_antisym (C := InternalKeyComparator C)). Qed.

Lemma icmp_refl a : InternalKeyCompare C a a = 0.
Proof. apply (Compare_refl (C := InternalKeyComparator C)). Qed.

Lemma nth_z_lookup {A} (l : list A) (i : nat) : nth_z l (Z.of_nat i) = l !! i.
Proof. unfold nth_z. destruct (Z.ltb_spec (Z.of_nat i) 0); [lia|]. by rewrite Nat2Z.id. Qed.

Lemma FindFile_loop_spec files key : largest_sorted files → size files < 2 ^ 31 → ∀ fuel (l r : nat),
  (l <= r <= length files)%nat → (r - l < fuel)%nat →
  (∀ j f, (j < l)%nat → files !! j = Some f → InternalKeyCompare C (largest f) key < 0) →
  (∀ j f, (r <= j)%nat → files !! j = Some f → 0 <= InternalKeyCompare C (largest f) key) →
  ∃ i, FindFile_loop C fuel files key (Z.of_nat l) (Z.of_nat r) = Some (Z.of_nat i) ∧ first_file files key i.
Proof.
  intros Hs Hn. induction fuel as [|fuel IH]; intros l r Hlr Hf Hl Hr; [lia|]. cbn [FindFile_loop]. unfold size in Hn.
  destruct (Z.ltb_spec (Z.of_nat l) (Z.of_nat r)) as [Hlt|Hge].
  - rewrite u32_small by range_lia. set (m := ((l + r) / 2)%nat).
    assert ((Z.of_nat l + Z.of_nat r) / 2 = Z.of_nat m) as -> by (unfold m; rewrite Nat2Z.inj_div, Nat2Z.inj_add; done).
    assert (l <= m < r)%nat as Hm.
    { split; [apply Nat.div_le_lower_bound; lia|apply Nat.Div0.div_lt_upper_bound; lia]. }
    rewrite nth_z_lookup. destruct (lookup_lt_is_Some_2 files m) as [f Hfm]; [lia|]. rewrite Hfm. cbn [mbind option_bind].
    destruct (Z.ltb_spec (InternalKeyCompare C (largest f) key) 0) as [Hc|Hc].
    + replace (Z.of_nat m + 1) with (Z.of_nat (S m)) by lia. apply IH; [lia|lia| |done].
      intros j g Hj Hg. destruct (decide (j = m)) as [->|]; [congruence|].
      eapply icmp_le_lt_trans; [|done]. apply (Hs j m g f); [lia|done|done].
    + apply IH; [lia|lia|done|]. intros j g Hj Hg. destruct (decide (j = m)) as [->|]; [congruence|].
      pose proof (Hs m j f g ltac:(lia) Hfm Hg) as H1. pose proof (icmp_antisym (largest f) key).
      pose proof (icmp_antisym (largest g) key). pose proof (icmp_trans key (largest f) (largest g)). lia.
  - assert (l = r) as -> by lia. exists r. split; [done|]. split; [lia|]. by split.
Qed.

Lemma FindFile_spec files key : largest_sorted files → size files < 2 ^ 31 →
  ∃ i, FindFile C files key = Some (Z.of_nat i) ∧ first_file files key i.
Proof.
  intros Hs Hn. unfold FindFile. rewrite u32_small by (pose proof (size_nonneg files); range_lia).
  apply (FindFile_loop_spec files key Hs Hn _ 0 (length files)); [lia|lia|lia|].
  intros j f Hj Hf%lookup_lt_Some. lia.
Qed.

(** ** The order of files in a level *)

(** Bounds that an internal key can have. *)
Definition key_ok (k : bytes) : Prop := ∃ u s t, k = ikey u s t ∧ valid_seq s.

Record file_ok (f : FileMetaData) : Prop := {
  fo_smallest : key_ok (smallest f);
  fo_largest : key_ok (largest f);
  fo_order : InternalKeyCompare C (smallest f) (largest f) <= 0;
}.

(** The files of a level above 0: each ends before the next begins. *)
Record level_sorted (files : list FileMetaData) : Prop := {
  lv_ok : Forall file_ok files;
  lv_disjoint i j f g : (i < j)%nat → files !! i = Some f → files !! j = Some g →
    InternalKeyCompare C (largest f) (smallest g) < 0;
}.

Lemma level_largest_sorted files : level_sorted files → largest_sorted files.
Proof.
  intros [Hok Hd] i j f g Hij Hf Hg. pose proof (Hd i j f g Hij Hf Hg). pose proof (Forall_lookup_1 _ _ _ _ Hok Hg) as [_ _ Ho].
  pose proof (icmp_lt_le_trans _ _ _ H Ho). lia.
Qed.

Lemma file_ok_user f : file_ok f → @Compare C (file_start f) (file_limit f) <= 0.
Proof. intros [_ _ H]. by apply InternalKeyCompare_user. Qed.

(** The earliest internal key of a user key. *)
Lemma earliest_key u k : key_ok k →
  InternalKeyCompare C k (ikey u kMaxSequenceNumber kValueTypeForSeek) < 0 ↔ @Compare C (ExtractUserKey k) u < 0.
Proof.
  intros (u' & s & t & -> & Hs). rewrite InternalKeyCompare_lt, !ExtractUserKey_ikey.
  assert (valid_seq kMaxSequenceNumber) as Hm by (split; [done|lia]).
  rewrite !ExtractTag_ikey, !PackSequenceAndType_value by done.
  split; [|by left]. intros [H|[_ H]]; [done|]. exfalso. unfold valid_seq in Hs. destruct t; simpl in H; lia.
Qed.

(** A file whose user keys meet a range; a missing bound is infinite. *)
Definition overlaps (lo hi : option bytes) (f : FileMetaData) : Prop :=
  (∀ k, lo = Some k → @Compare C k (file_limit f) <= 0) ∧ (∀ k, hi = Some k → 0 <= @Compare C k (file_start f)).

Lemma overlaps_negb lo hi f : overlaps lo hi f ↔ negb (AfterFile C lo f || BeforeFile C hi f) = true.
Proof.
  unfold overlaps, AfterFile, BeforeFile. rewrite negb_true_iff, orb_false_iff. rewrite <-?Z.leb_antisym. split.
  - intros [H1 H2]. destruct lo as [l|], hi as [h|]; rewrite ?Z.gtb_ltb, ?Z.ltb_ge;
      repeat match goal with H : ∀ k, Some ?x = Some k → _ |- _ => specialize (H x eq_refl) end; done.
  - intros [H1 H2]. split; intros k ->; [rewrite Z.gtb_ltb, Z.ltb_ge in H1|rewrite Z.ltb_ge in H2]; done.
Qed.

Lemma overlaps_scan files lo hi :
  ∃ b, SomeFileOverlapsRange C false files lo hi = Some b ∧ (b = true ↔ ∃ f, f ∈ files ∧ overlaps lo hi f).
Proof.
  eexists. split; [done|]. cbn. rewrite existsb_exists. split.
  - intros (f & Hf%list_elem_of_In & H%overlaps_negb). eauto.
  - intros (f & Hf%list_elem_of_In & H%overlaps_negb). eauto.
Qed.

Lemma overlaps_search files lo hi : level_sorted files → size files < 2 ^ 31 →
  ∃ b, SomeFileOverlapsRange C true files lo hi = Some b ∧ (b = true ↔ ∃ f, f ∈ files ∧ overlaps lo hi f).
Proof.
  intros Hl Hn. unfold SomeFileOverlapsRange. cbn [negb].
  assert (∃ i : nat, match lo with Some k => FindFile C files (ikey k kMaxSequenceNumber kValueTypeForSeek) | None => Some 0 end = Some (Z.of_nat i) ∧
    (∀ j f, (j < i)%nat → files !! j = Some f → ¬ overlaps lo hi f) ∧
    (∀ f k, files !! i = Some f → lo = Some k → @Compare C k (file_limit f) <= 0)) as (i & -> & Hlt & Hge).
  { destruct lo as [k|]; [|exists 0%nat; split_and!; [done|lia|done]].
    destruct (FindFile_spec files (ikey k kMaxSequenceNumber kValueTypeForSeek) (level_largest_sorted files Hl) Hn) as (i & Ei & _ & H1 & H2).
    exists i. split; [done|]. pose proof (lv_ok _ Hl) as Hok. split.
    - intros j f Hj Hf [Ho _]. specialize (Ho k eq_refl). specialize (H1 j f Hj Hf).
      apply earliest_key in H1; [|by apply (Forall_lookup_1 _ _ _ _ Hok Hf)]. unfold file_limit in Ho.
      pose proof (Compare_antisym k (ExtractUserKey (largest f))). lia.
    - intros f k' Hf [= <-]. specialize (H2 i f ltac:(lia) Hf).
      pose proof (earliest_key k (largest f) ltac:(by apply (Forall_lookup_1 _ _ _ _ Hok Hf))).
      unfold file_limit. pose proof (Compare_antisym k (ExtractUserKey (largest f))). lia. }
  cbn [mbind option_bind]. destruct (Z.geb_spec (Z.of_nat i) (size files)) as [Hi|Hi]; unfold size in Hi.
  - eexists. split; [done|]. split; [done|]. intros (f & [j Hj]%list_elem_of_lookup_1 & Ho).
    exfalso. apply (Hlt j f); [apply lookup_lt_Some in Hj; lia|done|done].
  - rewrite nth_z_lookup. destruct (lookup_lt_is_Some_2 files i) as [f Hf]; [lia|]. rewrite Hf. cbn [mbind option_bind].
    eexists. split; [done|]. rewrite negb_true_iff. split.
    + intros Hb. exists f. split; [by apply list_elem_of_lookup_2 in Hf|]. split; [intros k; by apply Hge|].
      intros k ->. cbn in Hb. by apply Z.ltb_ge in Hb.
    + intros (g & [j Hj]%list_elem_of_lookup_1 & Ho). destruct (Nat.lt_ge_cases j i) as [Hji|Hji]; [by destruct (Hlt j g Hji Hj)|].
      destruct hi as [h|]; [|done]. cbn. apply Z.ltb_ge. destruct Ho as [_ Ho]. specialize (Ho h eq_refl).
      destruct (decide (i = j)) as [->|]; [congruence|].
      pose proof (lv_disjoint _ Hl i j f g ltac:(lia) Hf Hj) as Hd. pose proof (lv_ok _ Hl) as Hok.
      pose proof (fo_order _ (Forall_lookup_1 _ _ _ _ Hok Hf)) as Hfo.
      assert (@Compare C (file_start f) (file_start g) <= 0) as Hfg.
      { apply InternalKeyCompare_user. pose proof (icmp_le_lt_trans _ _ _ Hfo Hd). lia. }
      pose proof (Compare_antisym h (file_start f)). pose proof (Compare_antisym h (file_start g)).
      pose proof (Compare_trans (file_start f) (file_start g) h). lia.
Qed.

End search.

(** ** Overlapping inputs *)

Section overlapping.
  Context (C : Comparator) {L : ComparatorLaws C}.

Definition overlapsb (lo hi : option bytes) (f : FileMetaData) : bool := negb (AfterFile C lo f || BeforeFile C hi f).

(** The file lies inside the range. *)
Definition inside (lo hi : option bytes) (f : FileMetaData) : Prop :=
  (∀ k, lo = Some k → @Compare C k (file_start f) <= 0) ∧ (∀ k, hi = Some k → @Compare C (file_limit f) k <= 0).

(** Two files that share user keys. *)
Definition touches (f g : FileMetaData) : Prop :=
  @Compare C (file_start f) (file_limit g) <= 0 ∧ @Compare C (file_start g) (file_limit f) <= 0.

(** The range of a restart: an overlapping file has moved one bound. *)
Definition widened (files : list FileMetaData) (lo hi lo' hi' : option bytes) : Prop :=
  ∃ f, f ∈ files ∧ overlaps C lo hi f ∧
    ((∃ k, lo = Some k ∧ @Compare C (file_start f) k < 0 ∧ lo' = Some (file_start f) ∧ hi' = hi) ∨
     (∃ k, hi = Some k ∧ 0 < @Compare C (file_limit f) k ∧ hi' = Some (file_limit f) ∧ lo' = lo)).

Definition bound_lt (a : bytes) (b : option bytes) : bool := match b with Some b => @Compare C a b <? 0 | None => false end.
Definition bound_gt (a : bytes) (b : option bytes) : bool := match b with Some b => @Compare C a b >? 0 | None => false end.

Lemma overlapsb_bounds lo hi f : overlapsb lo hi f = negb (bound_lt (file_limit f) lo || bound_gt (file_start f) hi).
Proof.
  unfold overlapsb, AfterFile, BeforeFile, bound_lt, bound_gt. f_equal. f_equal.
  - destruct lo as [k|]; [|done]. rewrite Z.gtb_ltb. pose proof (Compare_antisym k (file_limit f)). zcases; lia.
  - destruct hi as [k|]; [|done]. rewrite Z.gtb_ltb. pose proof (Compare_antisym k (file_start f)). zcases; lia.
Qed.

Lemma scan_spec level0 lo hi files :
  match scan C level0 lo hi files with
  | Scanned inputs => inputs = filter (λ f, overlapsb lo hi f) files ∧ (level0 = true → Forall (inside lo hi) inputs)
  | Restart lo' hi' => level0 = true ∧ widened files lo hi lo' hi'
  end.
Proof.
  induction files as [|f files IH]; [split; [done|constructor]|]. cbn [scan]. rewrite filter_cons.
  fold (bound_lt (file_limit f) lo) (bound_gt (file_start f) hi) (bound_lt (file_start f) lo) (bound_gt (file_limit f) hi).
  assert (∀ r, match scan C level0 lo hi files with Scanned i => True | Restart lo' hi' => r = Restart lo' hi' → level0 = true ∧ widened (f :: files) lo hi lo' hi' end) as Hr.
  { intros r. destruct (scan C level0 lo hi files); [done|]. intros _. destruct IH as [E (g & Hg & H)]. split; [done|].
    exists g. split; [by right|done]. }
  pose proof (overlapsb_bounds lo hi f) as Hov.
  destruct (bound_lt (file_limit f) lo) eqn:E1; [|destruct (bound_gt (file_start f) hi) eqn:E2].
  1,2: rewrite decide_False by (rewrite Hov; cbn; auto);
       destruct (scan C level0 lo hi files) as [inputs|lo' hi']; [done|by apply (Hr (Restart lo' hi'))].
  cbn in Hov. rewrite decide_True by (by rewrite Hov).
  assert (overlaps C lo hi f) as Hof by (apply overlaps_negb; exact Hov).
  destruct (level0 && bound_lt (file_start f) lo) eqn:E3.
  { apply andb_true_iff in E3 as [-> E3]. split; [done|]. exists f. split; [left|]. split; [done|]. left.
    destruct lo as [k|]; [|done]. apply Z.ltb_lt in E3. eauto 10. }
  destruct (level0 && bound_gt (file_limit f) hi) eqn:E4.
  { apply andb_true_iff in E4 as [-> E4]. split; [done|]. exists f. split; [left|]. split; [done|]. right.
    destruct hi as [k|]; [|done]. unfold bound_gt in E4. rewrite Z.gtb_ltb in E4. apply Z.ltb_lt in E4. eauto 10. }
  destruct (scan C level0 lo hi files) as [inputs|lo' hi']; [|by apply (Hr (Restart lo' hi'))].
  destruct IH as [-> IH]. split; [done|]. intros ->. constructor; [|by apply IH]. cbn in E3, E4. split.
  - intros k ->. unfold bound_lt in E3. apply Z.ltb_ge in E3. pose proof (Compare_antisym k (file_start f)). lia.
  - intros k ->. unfold bound_gt in E4. rewrite Z.gtb_ltb in E4. by apply Z.ltb_ge in E4.
Qed.

(** How many more times the range can grow. *)
Definition slack (lo hi : option bytes) (files : list FileMetaData) : nat :=
  length (filter (λ f, bound_lt (file_start f) lo) files) + length (filter (λ f, bound_gt (file_limit f) hi) files).

Lemma filter_shrinks (p q : FileMetaData → bool) f files : (∀ x, p x = true → q x = true) → f ∈ files → p f = false → q f = true →
  (length (filter p files) < length (filter q files))%nat.
Proof.
  intros Hpq. assert (∀ l, length (filter p l) <= length (filter q l))%nat as Hle.
  { intros l. induction l as [|x l IH]; [done|]. rewrite !filter_cons.
    destruct (decide (p x)) as [H|H]; destruct (decide (q x)) as [H'|H']; simpl; try lia.
    exfalso. apply H', Is_true_true, Hpq, Is_true_true, H. }
  induction files as [|x files IH]; [by intros ?%not_elem_of_nil|]. rewrite !filter_cons. intros [->|Hf]%elem_of_cons Hp Hq.
  - rewrite decide_False by (rewrite Hp; auto). rewrite decide_True by (by rewrite Hq). simpl. specialize (Hle files). lia.
  - specialize (IH Hf Hp Hq). destruct (decide (p x)) as [H|H]; destruct (decide (q x)) as [H'|H']; simpl; try lia.
    exfalso. apply H', Is_true_true, Hpq, Is_true_true, H.
Qed.

Lemma widened_slack files lo hi lo' hi' : widened files lo hi lo' hi' → (slack lo' hi' files < slack lo hi files)%nat.
Proof.
  intros (f & Hf & _ & [(k & -> & Hk & -> & ->)|(k & -> & Hk & -> & ->)]); unfold slack.
  - apply Nat.add_lt_mono_r. apply (filter_shrinks _ _ f); [|done| |].
    + intros x. unfold bound_lt. rewrite !Z.ltb_lt. intros Hx. by eapply Compare_lt_trans.
    + unfold bound_lt. by rewrite Compare_refl.
    + by apply Z.ltb_lt.
  - apply Nat.add_lt_mono_l. apply (filter_shrinks _ _ f); [|done| |].
    + intros x. unfold bound_gt. rewrite !Z.gtb_ltb, !Z.ltb_lt. intros Hx.
      pose proof (Compare_antisym (file_limit x) (file_limit f)). pose proof (Compare_antisym (file_limit f) k).
      pose proof (Compare_antisym (file_limit x) k). pose proof (Compare_lt_trans k (file_limit f) (file_limit x)). lia.
    + unfold bound_gt. by rewrite Compare_refl.
    + unfold bound_gt. rewrite Z.gtb_ltb. by apply Z.ltb_lt.
Qed.

(** Sets of files that contain what overlaps the range and are closed under sharing
    user keys. *)
Definition closed_over (files : list FileMetaData) (lo hi : option bytes) (X : FileMetaData → Prop) : Prop :=
  (∀ f, f ∈ files → overlaps C lo hi f → X f) ∧ (∀ f g, f ∈ files → g ∈ files → X f → touches f g → X g).

Lemma widened_closed files lo hi lo' hi' X : Forall (file_ok C) files → widened files lo hi lo' hi' →
  closed_over files lo hi X → closed_over files lo' hi' X.
Proof.
  intros Hok (f & Hf & Hof & Hw) [H1 H2]. split; [|done]. intros g Hg [Hl Hh].
  pose proof (file_ok_user C g (proj1 (Forall_forall _ _) Hok g Hg)) as Hgo. pose proof (H1 f Hf Hof) as HXf. destruct Hof as [Hfl Hfh].
  destruct Hw as [(k & -> & Hk & -> & ->)|(k & -> & Hk & -> & ->)].
  - destruct (Z.le_gt_cases (@Compare C k (file_limit g)) 0) as [Hle|Hgt]; [apply H1; [done|]; split; [by intros ? [= <-]|done]|].
    apply (H2 f g); [done|done|done|]. split; [by apply Hl|]. specialize (Hfl k eq_refl).
    pose proof (Compare_antisym k (file_limit g)). pose proof (Compare_trans (file_start g) (file_limit g) k).
    pose proof (Compare_trans (file_start g) k (file_limit f)). lia.
  - specialize (Hfh k eq_refl).
    destruct (Z.le_gt_cases 0 (@Compare C k (file_start g))) as [Hle|Hgt]; [apply H1; [done|]; split; [done|by intros ? [= <-]]|].
    apply (H2 f g); [done|done|done|]. specialize (Hh _ eq_refl). pose proof (Compare_antisym (file_limit f) (file_start g)).
    split; [|lia]. pose proof (Compare_antisym k (file_start f)).
    pose proof (Compare_trans (file_start f) k (file_start g)). pose proof (Compare_trans (file_start f) (file_start g) (file_limit g)). lia.
Qed.

Lemma widened_overlaps files lo hi lo' hi' g : widened files lo hi lo' hi' → overlaps C lo hi g → overlaps C lo' hi' g.
Proof.
  intros (f & _ & _ & Hw) [Hl Hh]. destruct Hw as [(k & -> & Hk & -> & ->)|(k & -> & Hk & -> & ->)]; (split; [try done|try done]).
  - intros ? [= <-]. specialize (Hl k eq_refl). pose proof (Compare_lt_le_trans _ _ _ Hk Hl). lia.
  - intros ? [= <-]. specialize (Hh k eq_refl). pose proof (Compare_antisym (file_limit f) k).
    pose proof (Compare_antisym (file_limit f) (file_start g)). pose proof (Compare_antisym k (file_start g)).
    pose proof (Compare_trans (file_start g) k (file_limit f)). lia.
Qed.

(** The result: overlapping files, inside the final range, and no more than closure
    demands. *)
Lemma overlapping_loop_spec level0 files : Forall (file_ok C) files → ∀ fuel lo hi, (slack lo hi files < fuel)%nat →
  ∃ inputs, overlapping_loop C fuel level0 lo hi files = Some inputs ∧
    (∀ f, f ∈ files → overlaps C lo hi f → f ∈ inputs) ∧ (∀ f, f ∈ inputs → f ∈ files) ∧
    (level0 = true → ∀ f g, f ∈ inputs → g ∈ files → touches f g → g ∈ inputs) ∧
    (∀ X, closed_over files lo hi X → ∀ f, f ∈ inputs → X f) ∧
    (level0 = false → inputs = filter (λ f, overlapsb lo hi f) files).
Proof.
  intros Hok. induction fuel as [|fuel IH]; intros lo hi Hs; [lia|]. cbn [overlapping_loop].
  pose proof (scan_spec level0 lo hi files) as Hsc. destruct (scan C level0 lo hi files) as [inputs|lo' hi'].
  - destruct Hsc as [-> Hin]. eexists. split; [done|].
    assert (∀ f, f ∈ filter (λ f, overlapsb lo hi f) files ↔ f ∈ files ∧ overlaps C lo hi f) as Helem.
    { intros f. rewrite list_elem_of_filter, overlaps_negb, Is_true_true. tauto. }
    split_and!.
    + intros f Hf Ho. by apply Helem.
    + intros f Hf. by apply Helem in Hf as [? _].
    + intros E f g Hf Hg [T1 T2]. apply Helem. split; [done|]. specialize (Hin E).
      destruct (proj1 (Forall_forall _ _) Hin f Hf) as [I1 I2]. split.
      * intros k ->. specialize (I1 k eq_refl). pose proof (Compare_trans k (file_start f) (file_limit g)). lia.
      * intros k ->. specialize (I2 k eq_refl). pose proof (Compare_trans (file_start g) (file_limit f) k).
        pose proof (Compare_antisym k (file_start g)). lia.
    + intros X [HX _] f [Hf Ho]%Helem. by apply HX.
    + done.
  - destruct Hsc as [E Hw]. pose proof (widened_slack _ _ _ _ _ Hw).
    destruct (IH lo' hi' ltac:(lia)) as (inputs & Ei & H1 & H2 & H3 & H4 & H5). exists inputs. split_and!; [done| |done|done| |].
    + intros f Hf Ho. apply H1; [done|by eapply widened_overlaps].
    + intros X HX. apply H4. by eapply widened_closed.
    + intros E'. congruence.
Qed.

Lemma slack_bound lo hi files : (slack lo hi files <= 2 * length files)%nat.
Proof.
  unfold slack. pose proof (length_filter (λ f, bound_lt (file_start f) lo) files).
  pose proof (length_filter (λ f, bound_gt (file_limit f) hi) files). lia.
Qed.

End overlapping.

(** ** Reading through the levels *)

Section reads.
  Context (C : Comparator) {L : ComparatorLaws C}.
  Context (cache_get : FileMetaData → nat → bytes → Status * option (bytes * bytes)).
  Context (contents : FileMetaData → list Write).

(** What the table cache promises for a file: the read succeeds; it hands over the
    first entry not smaller than the key, or nothing when the file holds no visible
    entry of the user key (a filter may tell). *)
Class TableReads (f : FileMetaData) : Prop := {
  tr_ok level u s : valid_seq s → (cache_get f level (ikey u s kValueTypeForSeek)).1 = Status_OK;
  tr_call level u s k v : valid_seq s → (cache_get f level (ikey u s kValueTypeForSeek)).2 = Some (k, v) →
    ∃ w, w ∈ contents f ∧ k = ikey_of w ∧ v = wvalue w ∧
      InternalKeyCompare C (ikey u s kValueTypeForSeek) (ikey_of w) <= 0 ∧
      ∀ w', w' ∈ contents f → InternalKeyCompare C (ikey u s kValueTypeForSeek) (ikey_of w') <= 0 →
        InternalKeyCompare C (ikey_of w) (ikey_of w') <= 0;
  tr_none level u s : valid_seq s → (cache_get f level (ikey u s kValueTypeForSeek)).2 = None →
    ∀ w, w ∈ contents f → visible C u s w = false;
}.

(** The bounds of a file hold for its entries, and the upper one is an entry. *)
Definition bounded (f : FileMetaData) : Prop :=
  (∀ w, w ∈ contents f → write_ok w ∧ InternalKeyCompare C (smallest f) (ikey_of w) <= 0 ∧
     InternalKeyCompare C (ikey_of w) (largest f) <= 0) ∧
  ∃ w, w ∈ contents f ∧ ikey_of w = largest f.

(** Writes of the same user key are newer in [ws1]. *)
Definition newer (ws1 ws2 : list Write) : Prop :=
  ∀ w1 w2, w1 ∈ ws1 → w2 ∈ ws2 → @Compare C (wkey w1) (wkey w2) = 0 → ExtractTag (ikey_of w2) < ExtractTag (ikey_of w1).

(** The invariant of a version. *)
Record version_ok (v : Version) : Prop := {
  vo_file level f : f ∈ level_files v level → file_ok C f ∧ bounded f ∧ TableReads f;
  vo_size level : size (level_files v level) < 2 ^ 31;
  vo_sorted level : (0 < level)%nat → level_sorted C (level_files v level);
  vo_numbers : NoDup (number <$> level_files v 0);
  vo_newer0 f g : f ∈ level_files v 0 → g ∈ level_files v 0 → number g < number f → newer (contents f) (contents g);
  vo_newer i j f g : (i < j)%nat → f ∈ level_files v i → g ∈ level_files v j → newer (contents f) (contents g);
}.

Definition writes_of (files : list FileMetaData) : list Write := concat (contents <$> files).

Definition version_writes (v : Version) : list Write := concat (writes_of <$> (level_files v <$> seq 0 num_levels)).

Lemma elem_writes_of w files : w ∈ writes_of files ↔ ∃ f, f ∈ files ∧ w ∈ contents f.
Proof.
  unfold writes_of. rewrite list_elem_of_In, in_concat. split.
  - intros (l & Hl%list_elem_of_In & Hw%list_elem_of_In). apply list_elem_of_fmap in Hl as (f & -> & Hf). eauto.
  - intros (f & Hf & Hw). exists (contents f). split; [apply list_elem_of_In, list_elem_of_fmap; eauto|by apply list_elem_of_In].
Qed.

Lemma is_newest_None ws1 ws2 u s o : is_newest C ws1 u s None → is_newest C ws2 u s o → is_newest C (ws1 ++ ws2) u s o.
Proof.
  intros H1 H2. destruct o as [w|].
  - destruct H2 as (Hw & Hv & Hm). split; [apply elem_of_app; by right|]. split; [done|].
    intros w' [Hw'|Hw']%elem_of_app Hv'; [rewrite H1 in Hv' by done; done|by apply Hm].
  - intros w' [Hw'|Hw']%elem_of_app; [by apply H1|by apply H2].
Qed.

Lemma visible_same u s w1 w2 : visible C u s w1 = true → visible C u s w2 = true → @Compare C (wkey w1) (wkey w2) = 0.
Proof.
  unfold visible. rewrite !andb_true_iff, !Z.eqb_eq. intros [H1 _] [H2 _]. apply Compare_eq_sym in H1.
  pose proof (Compare_eq_l _ _ (wkey w2) H1). lia.
Qed.

Lemma is_newest_Some ws1 ws2 u s w : newer ws1 ws2 → is_newest C ws1 u s (Some w) → is_newest C (ws1 ++ ws2) u s (Some w).
Proof.
  intros Hn (Hw & Hv & Hm). split; [apply elem_of_app; by left|]. split; [done|].
  intros w' [Hw'|Hw']%elem_of_app Hv'; [by apply Hm|]. pose proof (Hn w w' Hw Hw' (visible_same _ _ _ _ Hv Hv')). lia.
Qed.

Lemma is_newest_ext ws1 ws2 u s o : (∀ w, visible C u s w = true → w ∈ ws1 ↔ w ∈ ws2) → is_newest C ws1 u s o → is_newest C ws2 u s o.
Proof.
  intros H. destruct o as [w|]; cbn.
  - intros (Hw & Hv & Hm). split; [by apply (H w Hv)|]. split; [done|]. intros w' Hw' Hv'. apply Hm; [by apply (H w' Hv')|done].
  - intros Hn w Hw. destruct (visible C u s w) eqn:Hv; [|done]. rewrite <-Hv. apply Hn. by apply (H w Hv).
Qed.

(** A visible write and the key that is sought. *)
Lemma visible_le u s w : valid_seq s → write_ok w →
  InternalKeyCompare C (ikey u s kValueTypeForSeek) (ikey_of w) <= 0 ↔
  @Compare C u (wkey w) < 0 ∨ visible C u s w = true.
Proof.
  intros Hs Hw. rewrite InternalKeyCompare_le. unfold visible. rewrite andb_true_iff, Z.eqb_eq, Z.leb_le, tag_of by apply Hw.
  unfold ikey_of. rewrite !ExtractUserKey_ikey, ExtractTag_ikey, PackSequenceAndType_value by done.
  destruct (wtype w); simpl; lia.
Qed.

Lemma ikey_of_le w1 w2 : InternalKeyCompare C (ikey_of w1) (ikey_of w2) <= 0 ↔
  @Compare C (wkey w1) (wkey w2) < 0 ∨ @Compare C (wkey w1) (wkey w2) = 0 ∧ ExtractTag (ikey_of w2) <= ExtractTag (ikey_of w1).
Proof. rewrite InternalKeyCompare_le. unfold ikey_of. by rewrite !ExtractUserKey_ikey. Qed.

Lemma ikey_of_lt w1 w2 : InternalKeyCompare C (ikey_of w1) (ikey_of w2) < 0 ↔
  @Compare C (wkey w1) (wkey w2) < 0 ∨ @Compare C (wkey w1) (wkey w2) = 0 ∧ ExtractTag (ikey_of w2) < ExtractTag (ikey_of w1).
Proof. rewrite InternalKeyCompare_lt. unfold ikey_of. by rewrite !ExtractUserKey_ikey. Qed.

(** The entry that a file hands over decides the read of that file. *)
Definition call_matches (u : bytes) (call : option (bytes * bytes)) (o : option Write) : Prop :=
  match o with
  | Some w => call = Some (ikey_of w, wvalue w) ∧ write_ok w ∧ @Compare C (wkey w) u = 0
  | None => ∀ k v, call = Some (k, v) → ∃ w, k = ikey_of w ∧ write_ok w ∧ @Compare C (wkey w) u ≠ 0
  end.

Lemma table_newest f level u s : TableReads f → bounded f → valid_seq s →
  ∃ o, is_newest C (contents f) u s o ∧ call_matches u (cache_get f level (ikey u s kValueTypeForSeek)).2 o.
Proof.
  intros T [Hb _] Hs. destruct (cache_get f level _).2 as [[k v]|] eqn:Ec.
  - destruct (tr_call level u s k v Hs Ec) as (w & Hw & -> & -> & Hle & Hmin). destruct (Hb w Hw) as (Hok & _ & _).
    pose proof (proj1 (visible_le u s w Hs Hok) Hle) as Hcase. destruct (Z.eq_dec (@Compare C (wkey w) u) 0) as [E|E].
    + exists (Some w). split; [|done]. pose proof (proj1 (Compare_eq_sym _ _) E) as E'. split; [done|]. split; [destruct Hcase; [lia|done]|].
      intros w' Hw' Hv'. destruct (Hb w' Hw') as (Hok' & _ & _).
      pose proof (proj1 (ikey_of_le w w') (Hmin w' Hw' (proj2 (visible_le u s w' Hs Hok') (or_intror Hv')))) as Hww.
      pose proof Hv' as [Hu'%Z.eqb_eq _]%andb_true_iff. pose proof (Compare_eq_l _ _ (wkey w') E). lia.
    + exists None. split; [|intros k v [= <- <-]; eauto]. intros w' Hw'. destruct (visible C u s w') eqn:Hv'; [|done]. exfalso.
      destruct (Hb w' Hw') as (Hok' & _ & _).
      pose proof (proj1 (ikey_of_le w w') (Hmin w' Hw' (proj2 (visible_le u s w' Hs Hok') (or_intror Hv')))) as Hww.
      pose proof Hv' as [Hu'%Z.eqb_eq _]%andb_true_iff. apply E.
      pose proof (Compare_antisym u (wkey w)). pose proof (Compare_antisym u (wkey w')).
      pose proof (Compare_trans (wkey w) (wkey w') u). destruct Hcase as [|[?%Z.eqb_eq _]%andb_true_iff]; lia.
  - exists None. split; [|done]. intros w Hw. by apply (tr_none level u s Hs Ec).
Qed.

(** ** The search *)

Section search.
  Context (u : bytes) (s : Z) (value : bytes) (Hs : valid_seq s).

(** The state before anything is found, and the state that ends the search. *)
Definition searching (st : GetState) : Prop :=
  g_saver st = MkSaver SaverNotFound u value ∧ g_found st = false.

Definition settled (w : Write) (st : GetState) : Prop :=
  match wtype w with
  | kTypeValue => g_found st = true ∧ g_s st = Status_OK ∧ sv_value (g_saver st) = wvalue w
  | kTypeDeletion => g_found st = false ∧ sv_value (g_saver st) = value
  end.

Definition outcome (o : option Write) (r : GetState * bool) : Prop :=
  match o with Some w => r.2 = false ∧ settled w r.1 | None => r.2 = true ∧ searching r.1 end.

Lemma SaveValue_entry w st v : write_ok w → sv_user_key st = u →
  SaveValue C st (ikey_of w) v =
  if @Compare C (wkey w) u =? 0 then
    match wtype w with
    | kTypeValue => MkSaver SaverFound u v
    | kTypeDeletion => MkSaver SaverDeleted u (sv_value st)
    end
  else st.
Proof.
  intros (Hq & _) Hu. unfold SaveValue, ikey_of. rewrite ParseInternalKey_ikey by done. cbn [user_key type]. rewrite Hu.
  destruct (@Compare C (wkey w) u =? 0); [|done]. by destruct (wtype w).
Qed.

Lemma Match_spec st level f : TableReads f → bounded f → searching st →
  ∃ o, is_newest C (contents f) u s o ∧ outcome o (Match C cache_get (ikey u s kValueTypeForSeek) st level f).
Proof using Hs L.
  intros T Hb [Hsv Hf]. destruct (table_newest f level u s T Hb Hs) as (o & Hn & Hm). exists o. split; [done|].
  unfold Match. pose proof (tr_ok level u s Hs) as Hok.
  destruct (cache_get f level (ikey u s kValueTypeForSeek)) as [st' call]. cbn [fst snd] in *. subst st'.
  change (ok Status_OK) with true. cbn [negb]. rewrite Hsv, Hf. destruct o as [w|]; cbn [call_matches] in Hm.
  - destruct Hm as (-> & Hw & E). rewrite SaveValue_entry by done. rewrite E. cbn [Z.eqb].
    unfold outcome, settled. destruct (wtype w); cbn; done.
  - destruct call as [[k v]|]; [|by split].
    destruct (Hm k v eq_refl) as (w & -> & Hw & E). rewrite SaveValue_entry by done. apply Z.eqb_neq in E. rewrite E. by split.
Qed.

(** Files that are visited from the newest to the oldest. *)
Definition newest_first (files : list FileMetaData) : Prop :=
  ∀ i j f g, (i < j)%nat → files !! i = Some f → files !! j = Some g → newer (contents f) (contents g).

Lemma newest_first_cons f files : newest_first (f :: files) → newer (contents f) (writes_of files) ∧ newest_first files.
Proof.
  intros H. split.
  - intros w1 w2 H1 (g & [j Hj]%list_elem_of_lookup_1 & H2)%elem_writes_of. apply (H 0%nat (S j) f g); [lia|done..].
  - intros i j g h Hij Hg Hh. apply (H (S i) (S j)); [lia|done|done].
Qed.

Lemma visit_spec files level : ∀ st, Forall (λ f, TableReads f ∧ bounded f) files → newest_first files → searching st →
  ∃ o, is_newest C (writes_of files) u s o ∧ outcome o (visit (Match C cache_get (ikey u s kValueTypeForSeek)) st level files).
Proof using Hs L.
  induction files as [|f files IH]; intros st Hok Hn Hst; [exists None; split; [by intros w ?%not_elem_of_nil|by split]|].
  apply Forall_cons in Hok as [[Hf Hb] Hok]. apply newest_first_cons in Hn as [Hnf Hn].
  destruct (Match_spec st level f Hf Hb Hst) as (o & Ho & Hout). cbn [visit].
  destruct (Match C cache_get _ st level f) as [st1 go]. change (writes_of (f :: files)) with (contents f ++ writes_of files).
  destruct o as [w|]; destruct Hout as [E H1]; cbn [fst snd] in *; subst go; cbv iota.
  - exists (Some w). split; [by apply is_newest_Some|by split].
  - destruct (IH st1 Hok Hn H1) as (o & Ho' & Hout'). exists o. split; [by apply is_newest_None|done].
Qed.

(** *** A sorted level *)

Section level.
  Context (v : Version) (level i : nat) (f : FileMetaData).
  Hypotheses (Hv : version_ok v) (Hlev : (0 < level)%nat).
  Hypothesis Hfirst : first_file C (level_files v level) (ikey u s kValueTypeForSeek) i.

(** A visible write is in file [i] or behind it. *)
Lemma visible_behind w : visible C u s w = true → w ∈ writes_of (level_files v level) →
  ∃ j g, (i <= j)%nat ∧ level_files v level !! j = Some g ∧ w ∈ contents g.
Proof using Hs L Hv Hlev Hfirst.
  intros Hvw (g & Hg & Hw)%elem_writes_of. pose proof (vo_file v Hv level g Hg) as (_ & [Hb _] & _).
  destruct (Hb w Hw) as (Hwok & _ & Hla). apply list_elem_of_lookup_1 in Hg as [j Hj]. exists j, g. split_and!; [|done..].
  destruct Hfirst as (_ & Hlo & _). destruct (Nat.lt_ge_cases j i) as [Hji|]; [|done]. specialize (Hlo j g Hji Hj).
  pose proof (icmp_le_lt_trans C _ _ _ Hla Hlo). pose proof (proj2 (visible_le u s w Hs Hwok) (or_intror Hvw)).
  pose proof (icmp_antisym C (ikey_of w) (ikey u s kValueTypeForSeek)). lia.
Qed.

Hypothesis Hf : level_files v level !! i = Some f.

Lemma starts_before w : visible C u s w = true → w ∈ contents f → 0 <= @Compare C u (file_start f).
Proof using L Hv Hf. clear Hlev Hfirst.
  intros [Hwu%Z.eqb_eq _]%andb_true_iff Hw. destruct (vo_file v Hv level f (list_elem_of_lookup_2 _ _ _ Hf)) as (_ & [Hb _] & _).
  destruct (Hb w Hw) as (_ & Hsm & _). apply InternalKeyCompare_user in Hsm. unfold ikey_of in Hsm. rewrite ExtractUserKey_ikey in Hsm.
  fold (file_start f) in Hsm. pose proof (Compare_antisym u (file_start f)). pose proof (Compare_antisym u (wkey w)).
  pose proof (Compare_lt_le_trans u (file_start f) (wkey w)). lia.
Qed.

(** If a visible write lies behind file [i], the last entry of file [i] is visible
    and newer. *)
Lemma last_entry_newer w j g : visible C u s w = true → (i < j)%nat → level_files v level !! j = Some g → w ∈ contents g →
  ∃ w', w' ∈ contents f ∧ visible C u s w' = true ∧ ExtractTag (ikey_of w) < ExtractTag (ikey_of w').
Proof using Hs L Hv Hlev Hfirst Hf.
  intros Hvw Hij Hg Hw. destruct (vo_file v Hv level f (list_elem_of_lookup_2 _ _ _ Hf)) as (_ & [Hb (wl & Hwl & Ewl)] & _).
  destruct (vo_file v Hv level g (list_elem_of_lookup_2 _ _ _ Hg)) as (_ & [Hbg _] & _). destruct (Hbg w Hw) as (_ & Hgw & _).
  pose proof (lv_disjoint C _ (vo_sorted v Hv level Hlev) i j f g Hij Hf Hg) as Hd. rewrite <-Ewl in Hd.
  pose proof (proj1 (ikey_of_lt wl w) (icmp_lt_le_trans C _ _ _ Hd Hgw)) as Hcase.
  destruct Hfirst as (_ & _ & Hhi). pose proof (Hhi i f ltac:(lia) Hf) as Hge. rewrite <-Ewl in Hge.
  pose proof (icmp_antisym C (ikey_of wl) (ikey u s kValueTypeForSeek)). destruct (Hb wl Hwl) as (Hwlok & _ & _).
  pose proof (proj1 (visible_le u s wl Hs Hwlok) ltac:(lia)) as Hwlv.
  pose proof Hvw as [Hwu%Z.eqb_eq _]%andb_true_iff. pose proof (Compare_eq_l _ _ (wkey wl) Hwu).
  pose proof (Compare_antisym (wkey w) (wkey wl)). exists wl. split; [done|].
  destruct Hwlv as [Hwlv|Hwlv]; [lia|]. split; [done|]. pose proof Hwlv as [Hz%Z.eqb_eq _]%andb_true_iff. lia.
Qed.

End level.

(** One file of a sorted level decides the read of the level. *)
Lemma candidate_spec v level : version_ok v → (0 < level)%nat →
  ∃ files, candidate C v u (ikey u s kValueTypeForSeek) level = Some files ∧
    (∀ f, f ∈ files → f ∈ level_files v level) ∧ newest_first files ∧
    (∀ w, visible C u s w = true → w ∈ writes_of (level_files v level) → w ∈ writes_of files ∨ ∃ w', w' ∈ writes_of files ∧
       visible C u s w' = true ∧ ExtractTag (ikey_of w) < ExtractTag (ikey_of w')).
Proof using Hs L.
  intros Hv Hlev. unfold candidate. pose proof (vo_sorted v Hv level Hlev) as Hsort.
  assert (∀ (P : Prop), P → P ∧ (∀ f : FileMetaData, f ∈ [] → f ∈ level_files v level) ∧ newest_first []) as Hnil.
  { intros P HP. split; [done|]. split; [by intros f ?%not_elem_of_nil|by intros i j f g]. }
  destruct (Z.eqb_spec (size (level_files v level)) 0) as [E0|E0].
  { exists []. destruct (Hnil True I) as (_ & H1 & H2). split_and!; [done|done|done|]. intros w _ Hw.
    destruct (level_files v level) as [|f fs]; [by left|]. rewrite size_cons in E0. pose proof (size_nonneg fs). lia. }
  destruct (FindFile_spec C _ (ikey u s kValueTypeForSeek) (level_largest_sorted C _ Hsort) (vo_size v Hv level)) as (i & -> & Hfirst).
  cbn [mbind option_bind]. unfold size. destruct (Z.ltb_spec (Z.of_nat i) (Z.of_nat (length (level_files v level)))) as [Hlt|Hge].
  - rewrite nth_z_lookup. destruct (lookup_lt_is_Some_2 (level_files v level) i) as [f Hf]; [lia|]. rewrite Hf. cbn [mbind option_bind].
    eexists. split; [done|]. split; [|split].
    + intros g Hg. destruct (_ <? 0); [by apply not_elem_of_nil in Hg|]. apply list_elem_of_singleton in Hg as ->. by eapply list_elem_of_lookup_2.
    + intros a b g h Hab Hg Hh. destruct (_ <? 0); [done|]. destruct a, b; simpl in *; try lia; done.
    + intros w Hvw Hw. destruct (visible_behind v level i Hv Hlev Hfirst w Hvw Hw) as (j & g & Hij & Hg & Hwg).
      assert (∀ w', w' ∈ contents f → visible C u s w' = true → w' ∈ writes_of (if @Compare C u (file_start f) <? 0 then [] else [f])) as Hin.
      { intros w' Hw' Hv'. pose proof (starts_before v level i f Hv Hf w' Hv' Hw'). destruct (Z.ltb_spec (@Compare C u (file_start f)) 0); [lia|].
        apply elem_writes_of. exists f. split; [by left|done]. }
      destruct (decide (i = j)) as [->|Hne]; [assert (g = f) as -> by congruence; left; by apply Hin|right].
      destruct (last_entry_newer v level i f Hv Hlev Hfirst Hf w j g Hvw ltac:(lia) Hg Hwg) as (w' & Hw' & Hv' & Ht). eauto.
  - exists []. destruct (Hnil True I) as (_ & H1 & H2). split_and!; [done|done|done|]. intros w Hvw Hw.
    destruct (visible_behind v level i Hv Hlev Hfirst w Hvw Hw) as (j & g & Hij & Hg & _). apply lookup_lt_Some in Hg. lia.
Qed.

(** *** All levels *)

(** A read of part of some writes that decides the read of all. *)
Lemma is_newest_part ws1 ws2 o : (∀ w, w ∈ ws1 → w ∈ ws2) →
  (∀ w, visible C u s w = true → w ∈ ws2 → w ∈ ws1 ∨ ∃ w', w' ∈ ws1 ∧ visible C u s w' = true ∧ ExtractTag (ikey_of w) < ExtractTag (ikey_of w')) →
  is_newest C ws1 u s o → is_newest C ws2 u s o.
Proof.
  intros H12 H21. destruct o as [w|]; cbn [is_newest].
  - intros (Hw & Hvw & Hm). split; [by apply H12|]. split; [done|]. intros w' Hw' Hv'.
    destruct (H21 w' Hv' Hw') as [H|(w2 & H2 & Hv2 & Ht)]; [by apply Hm|]. pose proof (Hm w2 H2 Hv2). lia.
  - intros Hn w Hw. destruct (visible C u s w) eqn:Hvw; [|done].
    destruct (H21 w Hvw Hw) as [H|(w2 & H2 & Hv2 & _)]; [by rewrite Hn in Hvw|by rewrite Hn in Hv2].
Qed.

Lemma level_reads v level files : version_ok v → (∀ f, f ∈ files → f ∈ level_files v level) → Forall (λ f, TableReads f ∧ bounded f) files.
Proof. intros Hv H. apply Forall_forall. intros f Hf. destruct (vo_file v Hv level f (H f Hf)) as (_ & ? & ?). done. Qed.

Definition levels_writes (v : Version) (levels : list nat) : list Write := concat (writes_of <$> (level_files v <$> levels)).

Lemma newer_levels v level levels : version_ok v → Forall (λ l, (level < l)%nat) levels →
  newer (writes_of (level_files v level)) (levels_writes v levels).
Proof.
  intros Hv Hl w1 w2 (f & Hf & H1)%elem_writes_of H2. unfold levels_writes in H2. apply list_elem_of_In, in_concat in H2 as (ws & Hws%list_elem_of_In & H2%list_elem_of_In).
  apply list_elem_of_fmap in Hws as (fs & -> & Hfs). apply list_elem_of_fmap in Hfs as (l & -> & Hlv).
  apply elem_writes_of in H2 as (g & Hg & H2). apply (vo_newer v Hv level l f g); try done. by apply (proj1 (Forall_forall _ _) Hl).
Qed.

(** Levels in ascending order. *)
Fixpoint ascending (levels : list nat) : Prop :=
  match levels with [] => True | l :: levels => Forall (λ l', (l < l')%nat) levels ∧ ascending levels end.

Definition finished (o : option Write) (st : GetState) : Prop :=
  match o with Some w => settled w st | None => searching st end.

Lemma visit_levels_spec v levels : version_ok v → Forall (λ l, (0 < l)%nat) levels → ascending levels → ∀ st, searching st →
  ∃ o st', is_newest C (levels_writes v levels) u s o ∧
    visit_levels C (Match C cache_get (ikey u s kValueTypeForSeek)) v u (ikey u s kValueTypeForSeek) st levels = Some st' ∧ finished o st'.
Proof using Hs L.
  intros Hv. induction levels as [|level levels IH]; intros Hpos Hasc st Hst.
  { exists None, st. split; [by intros w ?%not_elem_of_nil|]. by split. }
  apply Forall_cons in Hpos as [Hl Hpos]. destruct Hasc as [Hal Hasc]. cbn [visit_levels].
  destruct (candidate_spec v level Hv Hl) as (files & -> & Hin & Hnf & Hdec). cbn [mbind option_bind].
  destruct (visit_spec files level st (level_reads v level files Hv Hin) Hnf Hst) as (o & Ho & Hout).
  assert (is_newest C (writes_of (level_files v level)) u s o) as Ho'.
  { eapply is_newest_part; [|exact Hdec|exact Ho]. intros w (f & Hf & Hw)%elem_writes_of. apply elem_writes_of. eauto. }
  change (levels_writes v (level :: levels)) with (writes_of (level_files v level) ++ levels_writes v levels).
  destruct (visit _ st level files) as [st1 go]. destruct o as [w|]; destruct Hout as [E H1]; cbn [fst snd] in *; subst go; cbv iota.
  - exists (Some w), st1. split; [|done]. apply is_newest_Some; [by apply newer_levels|done].
  - destruct (IH Hpos Hasc st1 H1) as (o & st' & Ho2 & E2 & H2). exists o, st'. split; [by apply is_newest_None|done].
Qed.

(** Level 0 is searched from the newest file. *)
Lemma insert_newest_perm f l : insert_newest f l ≡ₚ f :: l.
Proof. induction l as [|g l IH]; [done|]. cbn [insert_newest]. destruct (NewestFirst g f); [|done]. rewrite IH. apply Permutation_swap. Qed.

Lemma sort_newest_perm l : sort_newest l ≡ₚ l.
Proof. induction l as [|f l IH]; [done|]. cbn [sort_newest foldr]. fold (sort_newest l). by rewrite insert_newest_perm, IH. Qed.

Definition descending (l : list FileMetaData) : Prop := StronglySorted (λ f g, number g <= number f) l.

Lemma insert_newest_desc f l : descending l → descending (insert_newest f l).
Proof.
  unfold descending. induction 1 as [|g l Hl IH Hg]; cbn [insert_newest]; [by repeat constructor|]. unfold NewestFirst. rewrite Z.gtb_ltb.
  destruct (Z.ltb_spec (number f) (number g)) as [H|H].
  - constructor; [done|]. rewrite insert_newest_perm. constructor; [lia|done].
  - constructor; [by constructor|]. constructor; [lia|]. eapply Forall_impl; [done|]. intros x Hx. simpl in Hx. lia.
Qed.

Lemma sort_newest_desc l : descending (sort_newest l).
Proof. induction l as [|f l IH]; [constructor|]. by apply insert_newest_desc. Qed.

Lemma descending_lookup l i j f g : descending l → (i < j)%nat → l !! i = Some f → l !! j = Some g → number g <= number f.
Proof.
  intros H. revert i j. induction H as [|h l Hl IH Hh]; intros [|i] [|j] Hij Hf Hg; simpl in *; try done; try lia.
  - injection Hf as ->. by apply (Forall_lookup_1 _ _ _ _ Hh Hg).
  - apply (IH i j); [lia|done|done].
Qed.

Lemma level0_spec v : version_ok v →
  (∀ f, f ∈ level0_candidates C v u → f ∈ level_files v 0) ∧ newest_first (level0_candidates C v u) ∧
  (∀ w, visible C u s w = true → w ∈ writes_of (level_files v 0) → w ∈ writes_of (level0_candidates C v u)).
Proof using L.
  intros Hv. unfold level0_candidates. set (fs := filter _ (level_files v 0)).
  set (p := λ f : FileMetaData, (@Compare C u (file_start f) >=? 0) && (@Compare C u (file_limit f) <=? 0)).
  assert (∀ f, f ∈ sort_newest fs ↔ f ∈ level_files v 0 ∧ p f = true) as Hel.
  { intros f. rewrite (sort_newest_perm fs). unfold fs. rewrite list_elem_of_filter, Is_true_true. tauto. }
  assert (NoDup (number <$> sort_newest fs)) as Hnd.
  { rewrite sort_newest_perm. unfold fs. eapply sublist_NoDup; [apply (vo_numbers v Hv)|]. apply fmap_sublist, sublist_filter. }
  split_and!.
  - intros f Hf. by apply Hel in Hf as [? _].
  - intros i j f g Hij Hf Hg. apply (vo_newer0 v Hv); [by apply Hel; eapply list_elem_of_lookup_2|by apply Hel; eapply list_elem_of_lookup_2|].
    pose proof (descending_lookup _ i j f g (sort_newest_desc fs) Hij Hf Hg).
    assert (number g ≠ number f); [|lia]. intros E. assert (i = j); [|lia]. eapply (NoDup_lookup (number <$> sort_newest fs) i j (number f) Hnd).
    + by rewrite list_lookup_fmap, Hf.
    + rewrite list_lookup_fmap, Hg. simpl. congruence.
  - intros w Hvw (f & Hf & Hw)%elem_writes_of. apply elem_writes_of. exists f. split; [|done]. apply Hel. split; [done|].
    destruct (vo_file v Hv 0%nat f Hf) as (_ & [Hb _] & _). destruct (Hb w Hw) as (_ & Hsm & Hla).
    apply InternalKeyCompare_user in Hsm, Hla. unfold ikey_of in Hsm, Hla. rewrite ExtractUserKey_ikey in Hsm, Hla.
    pose proof Hvw as [Hwu%Z.eqb_eq _]%andb_true_iff. unfold p, file_start, file_limit. rewrite andb_true_iff, Z.geb_le, Z.leb_le.
    pose proof (Compare_eq_l _ _ (ExtractUserKey (largest f)) Hwu). pose proof (Compare_antisym u (ExtractUserKey (smallest f))).
    pose proof (Compare_eq_l _ _ (ExtractUserKey (smallest f)) Hwu). pose proof (Compare_antisym (wkey w) (ExtractUserKey (smallest f))). lia.
Qed.

End search.

(** The whole read. *)
Lemma Get_spec v u s value store : version_ok v → valid_seq s →
  ∃ o stats store', is_newest C (version_writes v) u s o ∧
    Get C cache_get v (NewLookupKey u s) value store =
      Some (match o with Some w => match wtype w with kTypeValue => (Status_OK, wvalue w) | kTypeDeletion => (NotFound [] [], value) end
            | None => (NotFound [] [], value) end, stats, store').
Proof using L.
  intros Hv Hs. unfold Get.
  replace (lookup_user_key (NewLookupKey u s)) with u by (symmetry; apply (ExtractUserKey_ikey u s kValueTypeForSeek)).
  change (internal_key (NewLookupKey u s)) with (ikey u s kValueTypeForSeek).
  set (init := MkGetState _ _ _ _ _ _ _). assert (searching u value init) as Hinit by done.
  unfold ForEachOverlapping. destruct (level0_spec u s v Hv) as (Hin & Hnf & Hall).
  destruct (visit_spec u s value Hs (level0_candidates C v u) 0 init (level_reads v 0 _ Hv Hin) Hnf Hinit) as (o & Ho & Hout).
  assert (is_newest C (writes_of (level_files v 0)) u s o) as Ho'.
  { eapply is_newest_ext; [|done]. intros w Hw. split; [|by apply Hall]. intros (f & Hf & Hwf)%elem_writes_of. apply elem_writes_of. eauto. }
  change (version_writes v) with (writes_of (level_files v 0) ++ levels_writes v (seq 1 (num_levels - 1))).
  assert (∃ o' st, is_newest C (writes_of (level_files v 0) ++ levels_writes v (seq 1 (num_levels - 1))) u s o' ∧
    (let '(st, go_on) := visit (Match C cache_get (ikey u s kValueTypeForSeek)) init 0 (level0_candidates C v u) in
     if go_on : bool then visit_levels C (Match C cache_get (ikey u s kValueTypeForSeek)) v u (ikey u s kValueTypeForSeek) st (seq 1 (num_levels - 1)) else Some st) = Some st ∧
    finished u value o' st) as (o' & st & Hn & -> & Hfin).
  { destruct (visit _ init 0 _) as [st1 go]. destruct o as [w|]; destruct Hout as [E H1]; cbn [fst snd] in *; subst go; cbv iota.
    - exists (Some w), st1. split; [|done]. apply is_newest_Some; [|done]. apply newer_levels; [done|]. repeat (constructor; [lia|]). constructor.
    - destruct (visit_levels_spec u s value Hs v (seq 1 (num_levels - 1)) Hv) with (st := st1) as (o & st' & Ho2 & E2 & H2);
        [repeat (constructor; [lia|]); constructor|cbn; repeat split; repeat (constructor; [lia|]); constructor|done|].
      exists o, st'. split; [by apply is_newest_None|done]. }
  cbn [mbind option_bind]. exists o', (g_stats st), (g_store st). split; [done|]. f_equal. f_equal. f_equal.
  destruct o' as [w|]; cbn [finished] in Hfin.
  - unfold settled in Hfin. destruct (wtype w).
    + destruct Hfin as (-> & ->). done.
    + destruct Hfin as (-> & -> & ->). done.
  - destruct Hfin as (-> & ->). done.
Qed.

(** C7: A read of a version finds the newest visible write.  In a version whose levels
    above 0 are sorted and disjoint and whose writes of a key get older from level to
    level (and from newer to older files in level 0), [Version::Get] ends and returns,
    for every user key and snapshot, the newest write of the key in any file that the
    snapshot sees: its value with OK, or NotFound when it is a deletion or there is
    none, although it opens at most one file per level above 0. *)
Theorem version_get_newest v u s value store : version_ok v → valid_seq s →
  ∃ o stats store', is_newest C (version_writes v) u s o ∧
    Get C cache_get v (NewLookupKey u s) value store =
      Some (match o with Some w => match wtype w with kTypeValue => (Status_OK, wvalue w) | kTypeDeletion => (NotFound [] [], value) end
            | None => (NotFound [] [], value) end, stats, store').
Proof using L. apply Get_spec. Qed.

End reads.

(** A cache that reads the entries of a file in order. *)
Section reference.
  Context (C : Comparator) {L : ComparatorLaws C} (contents : FileMetaData → list Write).

Definition scan_get (f : FileMetaData) (level : nat) (k : bytes) : Status * option (bytes * bytes) :=
  (Status_OK, (λ w, (ikey_of w, wvalue w)) <$> List.find (λ w, InternalKeyCompare C k (ikey_of w) <=? 0) (contents f)).

Lemma scan_get_reads f : Forall write_ok (contents f) →
  StronglySorted (λ w1 w2, InternalKeyCompare C (ikey_of w1) (ikey_of w2) <= 0) (contents f) →
  TableReads C scan_get contents f.
Proof.
  intros Hok Hs. split.
  - done.
  - intros level u s k v Hv. unfold scan_get. cbn [snd]. induction Hs as [|w ws Hws IH Hall]; [done|]. apply Forall_cons in Hok as [Hw Hok].
    cbn [List.find]. destruct (Z.leb_spec (InternalKeyCompare C (ikey u s kValueTypeForSeek) (ikey_of w)) 0) as [Hle|Hgt].
    + intros [= <- <-]. exists w. split; [left|]. split_and!; [done|done|done|]. intros w' [->|Hw']%elem_of_cons _; [rewrite icmp_refl; [lia|done]|].
      by apply (proj1 (Forall_forall _ _) Hall).
    + intros E. destruct (IH Hok E) as (w' & Hw' & -> & -> & Hle & Hmin). exists w'. split; [by right|]. split_and!; [done|done|done|].
      intros w2 [->|Hw2]%elem_of_cons H2; [lia|by apply Hmin].
  - intros level u s Hv. unfold scan_get. cbn [snd]. intros E w Hw. destruct (visible C u s w) eqn:Hvw; [|done]. exfalso.
    destruct (List.find _ (contents f)) eqn:Ef; [done|]. pose proof (List.find_none _ _ Ef w (proj1 (list_elem_of_In _ _) Hw)) as Hn.
    cbv beta in Hn. apply Z.leb_gt in Hn. pose proof (proj2 (visible_le C u s w Hv (proj1 (Forall_forall _ _) Hok w Hw)) (or_intror Hvw)). lia.
Qed.

End reference.

Module Example.
Definition w0 : Write := MkWrite 9 kTypeDeletion [x61] [].
Definition w1 : Write := MkWrite 5 kTypeValue [x61] [x31].
Definition f0 : FileMetaData := NewFileMetaData 8 100 (ikey_of w0) (ikey_of w0).
Definition f1 : FileMetaData := NewFileMetaData 4 100 (ikey_of w1) (ikey_of w1).
Definition contents (f : FileMetaData) : list Write := if number f =? 8 then [w0] else if number f =? 4 then [w1] else [].
Definition version : Version := MkVersion 1 [[f0]; [f1]; []; []; []; []; []] None (-1) minus_one (-1).

Lemma file_cases level f : f ∈ level_files version level → (level = 0%nat ∧ f = f0) ∨ (level = 1%nat ∧ f = f1).
Proof.
  destruct level as [|[|[|[|[|[|[|level]]]]]]]; intros H;
    first [change (f ∈ [f0]) in H|change (f ∈ [f1]) in H|change (f ∈ []) in H];
    first [apply list_elem_of_singleton in H as ->; by auto|by apply not_elem_of_nil in H].
Qed.

Lemma w_ok : write_ok w0 ∧ write_ok w1.
Proof. split; vm_compute; done. Qed.

Lemma file_fine f w : contents f = [w] → write_ok w → smallest f = ikey_of w → largest f = ikey_of w →
  file_ok BytewiseComparator f ∧ bounded BytewiseComparator contents f ∧
  TableReads BytewiseComparator (scan_get BytewiseComparator contents) contents f.
Proof.
  intros Ec Hw Es El. pose proof (icmp_refl BytewiseComparator (ikey_of w)) as Hr.
  assert (key_ok (ikey_of w)) as Hk by (exists (wkey w), (wseq w), (wtype w); split; [done|apply Hw]). split_and!.
  - split; rewrite ?Es, ?El; [done|done|lia].
  - split; [|exists w; rewrite Ec, El; split; [left|done]]. intros w' Hw'. rewrite Ec in Hw'. apply list_elem_of_singleton in Hw' as ->.
    rewrite Es, El. split_and!; [done|lia|lia].
  - apply (scan_get_reads BytewiseComparator contents f); rewrite Ec; [by apply Forall_singleton|by repeat constructor].
Qed.

Lemma example_ok : version_ok BytewiseComparator (scan_get BytewiseComparator contents) contents version.
Proof.
  split.
  - intros level f [[-> ->]|[-> ->]]%file_cases; [by apply (file_fine f0 w0); [|apply w_ok| |]|by apply (file_fine f1 w1); [|apply w_ok| |]].
  - intros [|[|[|[|[|[|[|level]]]]]]]; by vm_compute.
  - intros level Hl. split.
    + apply Forall_forall. intros f [[-> ->]|[-> ->]]%file_cases; [by apply (file_fine f0 w0); [|apply w_ok| |]|by apply (file_fine f1 w1); [|apply w_ok| |]].
    + intros i j f g Hij Hf Hg. destruct level as [|[|[|[|[|[|[|level]]]]]]]; try done; destruct i, j; done || lia.
  - by apply NoDup_singleton.
  - intros f g [[_ ->]|[? _]]%file_cases [[_ ->]|[? _]]%file_cases; done || (simpl; lia).
  - intros i j f g Hij [[-> ->]|[-> ->]]%file_cases [[-> ->]|[-> ->]]%file_cases; try lia.
    intros a b Ha Hb _. change (contents f0) with [w0] in Ha. change (contents f1) with [w1] in Hb.
    apply list_elem_of_singleton in Ha as ->, Hb as ->. by vm_compute.
Qed.
End Example.

Lemma version_get_newest_witness :
  ∃ stats store',
    Get BytewiseComparator (scan_get BytewiseComparator Example.contents) Example.version (NewLookupKey [x61] 7) [] ∅ =
      Some (Status_OK, [x31], stats, store').
Proof.
  destruct (version_get_newest BytewiseComparator (scan_get BytewiseComparator Example.contents) Example.contents
    Example.version [x61] 7 [] ∅ Example.example_ok ltac:(vm_compute; done)) as (o & stats & store' & Hn & E).
  exists stats, store'. rewrite E. destruct o as [w|].
  - destruct Hn as (Hw & Hvw & _).
    assert (w = Example.w0 ∨ w = Example.w1) as [Ew|Ew].
    { change (version_writes Example.contents Example.version) with [Example.w0; Example.w1] in Hw.
      apply elem_of_cons in Hw as [->|Hw]; [by left|]. apply list_elem_of_singleton in Hw as ->. by right. }
    + subst w. vm_compute in Hvw. done.
    + subst w. done.
  - exfalso. cbn [is_newest] in Hn. specialize (Hn Example.w1). discriminate Hn.
    change (version_writes Example.contents Example.version) with [Example.w0; Example.w1]. right. left.
Defined.

(** ** Properties of the searches *)

Section range_properties.
  Context (C : Comparator) {L : ComparatorLaws C}.

(** The searches in a sorted level agree with their plain definitions.  [FindFile]
    ends and returns the first file whose largest key is not smaller than the key;
    [SomeFileOverlapsRange] by binary search gives the same answer as by checking
    every file, namely whether some file's user keys meet the range, also when a
    bound is missing. *)
Theorem level_search_equivalence (files : list FileMetaData) (key : bytes) (lo hi : option bytes) :
  level_sorted C files → size files < 2 ^ 31 →
  (∃ i, FindFile C files key = Some (Z.of_nat i) ∧ first_file C files key i) ∧
  SomeFileOverlapsRange C true files lo hi = SomeFileOverlapsRange C false files lo hi ∧
  (SomeFileOverlapsRange C true files lo hi = Some true ↔ ∃ f, f ∈ files ∧ overlaps C lo hi f).
Proof using L.
  intros Hl Hn. split; [exact (FindFile_spec C files key (level_largest_sorted C files Hl) Hn)|].
  destruct (overlaps_search C files lo hi Hl Hn) as (b1 & -> & H1). destruct (overlaps_scan C files lo hi) as (b2 & -> & H2). split.
  - f_equal. destruct b1, b2; try done; [symmetry; by apply H2, H1|by apply H1, H2].
  - rewrite <-H1. split; [by intros [= ->]|by intros ->].
Qed.

Lemma GetOverlappingInputs_spec (v : Version) (level : nat) (kbegin kend : option bytes) :
  Forall (file_ok C) (level_files v level) →
  let lo := ExtractUserKey <$> kbegin in let hi := ExtractUserKey <$> kend in
  ∃ inputs, GetOverlappingInputs C v level kbegin kend = Some inputs ∧
    (∀ f, f ∈ level_files v level → overlaps C lo hi f → f ∈ inputs) ∧
    (∀ f, f ∈ inputs → f ∈ level_files v level) ∧
    (level = 0%nat → ∀ f g, f ∈ inputs → g ∈ level_files v level → touches C f g → g ∈ inputs) ∧
    (∀ X, closed_over C (level_files v level) lo hi X → ∀ f, f ∈ inputs → X f) ∧
    (level ≠ 0%nat → ∀ f, f ∈ inputs → overlaps C lo hi f).
Proof using L.
  intros Hok lo hi. pose proof (slack_bound C lo hi (level_files v level)).
  destruct (overlapping_loop_spec C (level =? 0)%nat (level_files v level) Hok (S (2 * length (level_files v level))) lo hi ltac:(lia))
    as (inputs & E & H1 & H2 & H3 & H4 & H5).
  exists inputs. split_and!; [done|done|done| |done|].
  - intros ->. by apply H3.
  - intros Hne f Hf. rewrite H5 in Hf by (by apply Nat.eqb_neq). apply list_elem_of_filter in Hf as [Ho _]. by apply overlaps_negb, Is_true_true.
Qed.

(** [GetOverlappingInputs] ends, although level 0 restarts the search whenever a
    file widens the range, and it returns the right files: in a sorted level exactly
    those that meet the range; in level 0 the least set of files that contains those
    and is closed under sharing user keys, so that no file that overlaps a chosen
    one is left behind. *)
Theorem overlapping_inputs_closure (v : Version) (level : nat) (kbegin kend : option bytes) :
  Forall (file_ok C) (level_files v level) →
  let lo := ExtractUserKey <$> kbegin in let hi := ExtractUserKey <$> kend in
  ∃ inputs, GetOverlappingInputs C v level kbegin kend = Some inputs ∧
    (∀ f, f ∈ level_files v level → overlaps C lo hi f → f ∈ inputs) ∧
    (∀ f, f ∈ inputs → f ∈ level_files v level) ∧
    (level = 0%nat → ∀ f g, f ∈ inputs → g ∈ level_files v level → touches C f g → g ∈ inputs) ∧
    (∀ X, closed_over C (level_files v level) lo hi X → ∀ f, f ∈ inputs → X f) ∧
    (level ≠ 0%nat → ∀ f, f ∈ inputs → overlaps C lo hi f).
Proof using L. apply GetOverlappingInputs_spec. Qed.

(** No file of the level meets the range. *)
Definition clear_of (v : Version) (lo hi : bytes) (level : nat) : Prop :=
  ∀ f, f ∈ level_files v level → ¬ overlaps C (Some lo) (Some hi) f.

(** Levels that can be searched. *)
Definition searchable (v : Version) : Prop :=
  ∀ level, Forall (file_ok C) (level_files v level) ∧ size (level_files v level) < 2 ^ 31 ∧
    ((0 < level)%nat → level_sorted C (level_files v level)).

Lemma OverlapInLevel_spec v level lo hi : searchable v →
  ∃ b, OverlapInLevel C v level (Some lo) (Some hi) = Some b ∧ (b = false → clear_of v lo hi level).
Proof using L.
  intros Hv. destruct (Hv level) as (_ & Hn & Hs). unfold OverlapInLevel.
  assert (∃ b, SomeFileOverlapsRange C (0 <? level)%nat (level_files v level) (Some lo) (Some hi) = Some b ∧
    (b = true ↔ ∃ f, f ∈ level_files v level ∧ overlaps C (Some lo) (Some hi) f)) as (b & E & Hb).
  { destruct (Nat.ltb_spec 0 level); [exact (overlaps_search C _ _ _ (Hs H) Hn)|apply overlaps_scan]. }
  exists b. split; [done|]. intros -> f Hf Ho. assert (false = true); [|done]. apply Hb. eauto.
Qed.

Lemma pick_level_loop_spec max v lo hi : searchable v → ∀ room level, (∀ k, (k <= level)%nat → clear_of v lo hi k) →
  ∃ l, pick_level_loop C max room v lo hi level = Some l ∧ (level <= l <= level + room)%nat ∧ ∀ k, (k <= l)%nat → clear_of v lo hi k.
Proof using L.
  intros Hv. induction room as [|room IH]; intros level Hc; [exists level; split; [done|]; split; [lia|done]|]. cbn [pick_level_loop].
  destruct (OverlapInLevel_spec v (level + 1) lo hi Hv) as (b & -> & Hb). cbn [mbind option_bind]. destruct b.
  { exists level. split; [done|]. split; [lia|done]. }
  match goal with |- context [@mbind option option_bind bool nat ?k ?x] => assert (is_Some x) as [t ->] end.
  { destruct (level + 2 <? num_levels)%nat; [|eauto].
    destruct (GetOverlappingInputs_spec v (level + 2) (Some (ikey lo kMaxSequenceNumber kValueTypeForSeek)) (Some (ikey hi 0 kTypeDeletion))
      (proj1 (Hv _))) as (inputs & -> & _). simpl. eauto. }
  cbn [mbind option_bind]. destruct t; [exists level; split; [done|]; split; [lia|done]|].
  destruct (IH (S level)) as (l & E & Hl & Hall).
  { intros k Hk. destruct (decide (k = S level)) as [->|]; [|apply Hc; lia]. replace (S level) with (level + 1)%nat by lia. by apply Hb. }
  exists l. split; [done|]. split; [lia|done].
Qed.

Lemma PickLevel_spec (max_file_size : Z) (v : Version) (lo hi : bytes) : searchable v →
  ∃ l, PickLevelForMemTableOutput C max_file_size v lo hi = Some l ∧ Z.of_nat l <= kMaxMemCompactLevel ∧
    (l = 0%nat ∨ ∀ k, (k <= l)%nat → clear_of v lo hi k).
Proof using L.
  intros Hv. unfold PickLevelForMemTableOutput. destruct (OverlapInLevel_spec v 0 lo hi Hv) as (b & -> & Hb). cbn [mbind option_bind].
  destruct b; [exists 0%nat; split; [done|]; split; [done|by left]|].
  destruct (pick_level_loop_spec max_file_size v lo hi Hv (Z.to_nat kMaxMemCompactLevel) 0) as (l & -> & Hl & Hall).
  { intros k Hk. assert (k = 0%nat) as -> by lia. by apply Hb. }
  exists l. split; [done|]. split; [unfold kMaxMemCompactLevel in *; lia|by right].
Qed.

(** A memtable can be written to the level that is picked for it: the choice ends
    with a level of at most [kMaxMemCompactLevel], and if that is not level 0 then no
    file in it or in any level above it overlaps the memtable's key range, so newer
    data is never put below older data. *)
Theorem pick_level_is_safe (max_file_size : Z) (v : Version) (lo hi : bytes) : searchable v →
  ∃ l, PickLevelForMemTableOutput C max_file_size v lo hi = Some l ∧ Z.of_nat l <= kMaxMemCompactLevel ∧
    (l = 0%nat ∨ ∀ k, (k <= l)%nat → clear_of v lo hi k).
Proof using L. apply PickLevel_spec. Qed.

End range_properties.

Lemma example_searchable : searchable BytewiseComparator Example.version.
Proof.
  pose proof Example.example_ok as Hv. intros level. split; [|split; [apply (vo_size _ _ _ _ Hv)|apply (vo_sorted _ _ _ _ Hv)]].
  apply Forall_forall. intros f Hf. by apply (vo_file _ _ _ _ Hv level f).
Qed.

Lemma level_search_equivalence_witness :
  SomeFileOverlapsRange BytewiseComparator true [Example.f1] (Some [x60]) (Some [x62]) =
  SomeFileOverlapsRange BytewiseComparator false [Example.f1] (Some [x60]) (Some [x62]).
Proof.
  exact (proj1 (proj2 (level_search_equivalence BytewiseComparator [Example.f1] [] (Some [x60]) (Some [x62])
    (vo_sorted _ _ _ _ Example.example_ok 1%nat ltac:(lia)) ltac:(by vm_compute)))).
Defined.

Lemma overlapping_inputs_closure_witness :
  ∃ inputs, GetOverlappingInputs BytewiseComparator Example.version 0 (Some (ikey [x60] 1 kTypeValue)) (Some (ikey [x63] 1 kTypeValue)) = Some inputs ∧
    Example.f0 ∈ inputs.
Proof.
  destruct (overlapping_inputs_closure BytewiseComparator Example.version 0 (Some (ikey [x60] 1 kTypeValue)) (Some (ikey [x63] 1 kTypeValue))
    (proj1 (example_searchable 0%nat))) as (inputs & E & H & _).
  exists inputs. split; [exact E|]. apply H; [left|]. by split; intros k [= <-]; vm_compute.
Defined.

Lemma pick_level_is_safe_witness :
  ∃ l, PickLevelForMemTableOutput BytewiseComparator 2097152 Example.version [x70] [x71] = Some l ∧ Z.of_nat l <= kMaxMemCompactLevel.
Proof.
  destruct (pick_level_is_safe BytewiseComparator 2097152 Example.version [x70] [x71] example_searchable) as (l & E & H & _).
  exists l. split; [exact E|exact H].
Defined.
