(* ===== verification/VersionBuilder.v ===== *)
(** * Building versions (src/db/version_set.cc: class VersionSet::Builder)

    A builder collects, level by level, the files that edits delete and add, and
    then merges them with the files of its base version.  A [std::set] ordered by
    [BySmallestKey] is the sorted list of its elements; the set of deleted numbers
    is a finite set. *)

From stdpp Require Import gmap.
From Stdlib Require Import SpecFloat Sorted.
From S2P Require Import Prelude Coding Status Comparator DbFormat VersionEdit Arena Random SkipList MemTable Version.

Section Builder.
  Context (C : Comparator).

Definition BySmallestKey (f1 f2 : FileMetaData) : bool :=
  let r := InternalKeyCompare C (smallest f1) (smallest f2) in
  if negb (r =? 0) then r <? 0 else number f1 <? number f2.

Record LevelState := MkLevelState { deleted_files : gset Z; added_files : list FileMetaData }.

(** The base version, the state of each level, and what [Apply] changes outside the
    builder: the compaction pointers and the counters of files. *)
Record Builder := MkBuilder {
  base_ : Version;
  levels_ : list LevelState;
  b_compact_pointer : list bytes;
  b_store : Store;
}.

Definition NewBuilder (base : Version) (compact_pointer : list bytes) (store : Store) : Builder :=
  MkBuilder (MkVersion (v_refs_ base + 1) (files_ base) (file_to_compact_ base) (file_to_compact_level_ base)
               (compaction_score_ base) (compaction_level_ base))
    (replicate num_levels (MkLevelState ∅ [])) compact_pointer store.

(** [FileSet::insert]: an element that is equivalent to one in the set is not added. *)
Fixpoint FileSet_insert (f : FileMetaData) (l : list FileMetaData) : list FileMetaData :=
  match l with
  | [] => [f]
  | g :: l' => if BySmallestKey f g then f :: l else if BySmallestKey g f then g :: FileSet_insert f l' else l
  end.

(** [f->allowed_seeks]: one seek for every 16KB, at least 100. *)
Definition seeks_for (file_size : Z) : Z :=
  let seeks := i32 (file_size / 16384) in if seeks <? 100 then 100 else seeks.

(** The new object: a copy of the edit's description. *)
Definition new_file (f : FileMetaData) : FileMetaData :=
  MkFile 1 (seeks_for (file_size f)) (point_query_time f) (point_query_time_all f) (history_time f)
    (number f) (file_size f) (smallest f) (largest f).

(** Levels outside the array are not modelled: the source writes out of bounds. *)
Definition set_compact_pointer (b : Builder) (p : Z * bytes) : Builder :=
  MkBuilder (base_ b) (levels_ b) (<[Z.to_nat p.1 := p.2]> (b_compact_pointer b)) (b_store b).

Definition delete_file (b : Builder) (p : Z * Z) : Builder :=
  MkBuilder (base_ b)
    (alter (λ l, MkLevelState ({[p.2]} ∪ deleted_files l) (added_files l)) (Z.to_nat p.1) (levels_ b))
    (b_compact_pointer b) (b_store b).

Definition add_file (b : Builder) (p : Z * FileMetaData) : Builder :=
  let f := new_file p.2 in
  MkBuilder (base_ b)
    (alter (λ l, MkLevelState (deleted_files l ∖ {[number f]}) (FileSet_insert f (added_files l))) (Z.to_nat p.1) (levels_ b))
    (b_compact_pointer b)
    (<[number f := MkStats (refs f) (allowed_seeks f) (point_query_time f) (point_query_time_all f)]> (b_store b)).

Definition Apply (b : Builder) (edit : VersionEdit) : Builder :=
  let b := foldl set_compact_pointer b (compact_pointers_ edit) in
  let b := foldl delete_file b (deleted_files_ edit) in
  foldl add_file b (new_files_ edit).

(** The files that [std::upper_bound] leaves before the added file, and the rest. *)
Fixpoint upper_bound (a : FileMetaData) (base : list FileMetaData) : list FileMetaData * list FileMetaData :=
  match base with
  | [] => ([], [])
  | b :: base' =>
      if BySmallestKey a b then ([], base)
      else let '(before, rest) := upper_bound a base' in (b :: before, rest)
  end.

Fixpoint merge_files (added base : list FileMetaData) : list FileMetaData :=
  match added with
  | [] => base
  | a :: added => let '(before, rest) := upper_bound a base in before ++ a :: merge_files added rest
  end.

(** [MaybeAddFile]: a file that is not deleted gets a reference and is pushed.  The
    definitions are the release build: with assertions, [MaybeAddFile] stops when a
    file of a deeper level overlaps its predecessor, and [SaveTo] (under [!NDEBUG])
    aborts then.  [version_builder_replay] says when the levels are in order. *)
Definition kept (l : LevelState) (f : FileMetaData) : bool := bool_decide (number f ∉ deleted_files l).

Definition MaybeAddFile (l : LevelState) (acc : list FileMetaData * Store) (f : FileMetaData) : list FileMetaData * Store :=
  if kept l f then
    (acc.1 ++ [f],
     alter (λ s, MkStats (fs_refs s + 1) (fs_allowed_seeks s) (fs_point_query_time s) (fs_point_query_time_all s)) (number f) acc.2)
  else acc.

Definition save_level (l : LevelState) (base : list FileMetaData) (store : Store) : list FileMetaData * Store :=
  foldl (MaybeAddFile l) ([], store) (merge_files (added_files l) base).

Fixpoint save_levels (ls : list LevelState) (bases : list (list FileMetaData)) (store : Store) : list (list FileMetaData) * Store :=
  match ls with
  | [] => ([], store)
  | l :: ls =>
      let '(files, store) := save_level l (default [] (head bases)) store in
      let '(rest, store) := save_levels ls (tail bases) store in
      (files :: rest, store)
  end.

(** [SaveTo] into a new version. *)
Definition SaveTo (b : Builder) : Version * Store :=
  let '(files, store) := save_levels (levels_ b) (files_ (base_ b)) (b_store b) in
  (MkVersion 0 files None (-1) minus_one (-1), store).

(** [f->refs--], and the object is deleted when nothing refers to it. *)
Definition unref_file (store : Store) (f : FileMetaData) : Store :=
  match store !! number f with
  | Some s =>
      if fs_refs s - 1 <=? 0 then delete (number f) store
      else <[number f := MkStats (fs_refs s - 1) (fs_allowed_seeks s) (fs_point_query_time s) (fs_point_query_time_all s)]> store
  | None => store
  end.

(** [~Builder] and [~Version]. *)
Definition DestroyBuilder (b : Builder) (store : Store) : Store :=
  foldl unref_file store (concat (added_files <$> levels_ b)).

Definition DestroyVersion (v : Version) (store : Store) : Store :=
  foldl unref_file store (concat (files_ v)).

End Builder.

(** ** Lemmas *)

Section facts.
  Context (C : Comparator) {L : ComparatorLaws C}.

Lemma BySmallestKey_lt f g : BySmallestKey C f g = true ↔
  InternalKeyCompare C (smallest f) (smallest g) < 0 ∨
  InternalKeyCompare C (smallest f) (smallest g) = 0 ∧ number f < number g.
Proof.
  unfold BySmallestKey. destruct (Z.eqb_spec (InternalKeyCompare C (smallest f) (smallest g)) 0) as [E|E]; cbn [negb].
  - rewrite Z.ltb_lt. lia.
  - rewrite Z.ltb_lt. lia.
Qed.

Lemma BySmallestKey_irrefl f : BySmallestKey C f f = false.
Proof using L. apply not_true_iff_false. rewrite BySmallestKey_lt. pose proof (icmp_refl C (smallest f)). lia. Qed.

Lemma BySmallestKey_trans f g h : BySmallestKey C f g = true → BySmallestKey C g h = true → BySmallestKey C f h = true.
Proof using L.
  rewrite !BySmallestKey_lt. intros H1 H2. pose proof (icmp_trans C (smallest f) (smallest g) (smallest h)).
  pose proof (icmp_lt_le_trans C (smallest f) (smallest g) (smallest h)).
  pose proof (icmp_le_lt_trans C (smallest f) (smallest g) (smallest h)). lia.
Qed.

(** Neither before the other: the same smallest key and the same number. *)
Lemma BySmallestKey_tie f g : BySmallestKey C f g = false → BySmallestKey C g f = false → number f = number g.
Proof using L.
  rewrite <-!not_true_iff_false, !BySmallestKey_lt. pose proof (icmp_antisym C (smallest f) (smallest g)). lia.
Qed.

Lemma BySmallestKey_total f g : BySmallestKey C f g = false → BySmallestKey C g f = true ∨ number f = number g.
Proof using L. intros H. destruct (BySmallestKey C g f) eqn:E; [by left|right; by apply BySmallestKey_tie]. Qed.

(** Files in the order of a level; equivalent ones may follow each other. *)
Definition in_order (l : list FileMetaData) : Prop := StronglySorted (λ f g, BySmallestKey C g f = false) l.

Lemma elem_FileSet_insert f g l : g ∈ FileSet_insert C f l → g = f ∨ g ∈ l.
Proof.
  induction l as [|h l IH]; cbn [FileSet_insert]; [intros ->%list_elem_of_singleton; by left|].
  destruct (BySmallestKey C f h); [intros [->|]%elem_of_cons; auto|]. destruct (BySmallestKey C h f); [|auto].
  intros [->|[]%IH]%elem_of_cons; [right; left|by left|right; by right].
Qed.

Lemma FileSet_insert_keeps f g l : g ∈ l → g ∈ FileSet_insert C f l.
Proof.
  induction l as [|h l IH]; cbn [FileSet_insert]; [by intros ?%not_elem_of_nil|].
  destruct (BySmallestKey C f h); [by right|]. destruct (BySmallestKey C h f); [|done].
  intros [->|]%elem_of_cons; [left|right; by apply IH].
Qed.

(** Afterwards the set has a file with that number. *)
Lemma FileSet_insert_has f l : ∃ g, g ∈ FileSet_insert C f l ∧ number g = number f.
Proof using L.
  induction l as [|h l (g & Hg & En)]; cbn [FileSet_insert]; [exists f; split; [left|done]|].
  destruct (BySmallestKey C f h) eqn:E1; [exists f; split; [left|done]|].
  destruct (BySmallestKey C h f) eqn:E2; [exists g; split; [by right|done]|].
  exists h. split; [left|]. symmetry. by apply BySmallestKey_tie.
Qed.

Lemma FileSet_insert_sorted f l : StronglySorted (λ f g, BySmallestKey C f g = true) l →
  StronglySorted (λ f g, BySmallestKey C f g = true) (FileSet_insert C f l).
Proof using L.
  induction 1 as [|g l Hl IH Hg]; cbn [FileSet_insert]; [by repeat constructor|].
  destruct (BySmallestKey C f g) eqn:E1.
  - constructor; [by constructor|]. constructor; [done|]. eapply Forall_impl; [done|]. intros h Hh. by eapply BySmallestKey_trans.
  - destruct (BySmallestKey C g f) eqn:E2; [|by constructor]. constructor; [done|]. apply Forall_forall.
    intros h [->|Hh]%elem_FileSet_insert; [done|]. by apply (proj1 (Forall_forall _ _) Hg).
Qed.

Lemma upper_bound_app a base : let '(before, rest) := upper_bound C a base in base = before ++ rest.
Proof. induction base as [|b base IH]; [done|]. cbn [upper_bound]. destruct (BySmallestKey C a b); [done|]. destruct (upper_bound C a base). by rewrite IH. Qed.

Lemma merge_files_perm added : ∀ base, merge_files C added base ≡ₚ added ++ base.
Proof.
  induction added as [|a added IH]; intros base; [done|]. cbn [merge_files]. pose proof (upper_bound_app a base) as E.
  destruct (upper_bound C a base) as [before rest]. rewrite E, IH, <-Permutation_middle. cbn [app]. f_equiv. solve_Permutation.
Qed.

(** Everything before the bound is not behind [a], everything behind it is. *)
Lemma upper_bound_order a base : in_order base → let '(before, rest) := upper_bound C a base in
  Forall (λ b, BySmallestKey C a b = false) before ∧ Forall (λ b, BySmallestKey C a b = true) rest.
Proof using L.
  induction 1 as [|b base Hb IH Hall]; [by split|]. cbn [upper_bound]. destruct (BySmallestKey C a b) eqn:E.
  - split; [done|]. constructor; [done|]. eapply Forall_impl; [done|]. intros c Hc. cbv beta in Hc.
    destruct (BySmallestKey_total _ _ Hc) as [H|H]; [by eapply BySmallestKey_trans|].
    apply BySmallestKey_lt in E. apply BySmallestKey_lt. rewrite <-not_true_iff_false, BySmallestKey_lt in Hc.
    pose proof (icmp_antisym C (smallest b) (smallest c)). pose proof (icmp_lt_le_trans C (smallest a) (smallest b) (smallest c)).
    pose proof (icmp_trans C (smallest a) (smallest b) (smallest c)). lia.
  - destruct (upper_bound C a base) as [before rest]. destruct IH as [H1 H2]. split; [by constructor|done].
Qed.

Lemma sorted_app {A} (R : A → A → Prop) l1 l2 : StronglySorted R (l1 ++ l2) ↔
  StronglySorted R l1 ∧ StronglySorted R l2 ∧ Forall (λ x, Forall (R x) l2) l1.
Proof.
  induction l1 as [|x l1 IH]; cbn [app]; [split; [intros; split_and!; [constructor|done|constructor]|by intros (_ & ? & _)]|]. split.
  - intros [H1 H2]%StronglySorted_inv. apply IH in H1 as (H1 & H3 & H4). apply Forall_app in H2 as [H2 H5].
    split_and!; [by constructor|done|by constructor].
  - intros ([H1 H2]%StronglySorted_inv & H3 & [H4 H5]%Forall_cons). constructor; [by apply IH|]. apply Forall_app. by split.
Qed.

Lemma merge_files_order added : ∀ base, StronglySorted (λ f g, BySmallestKey C f g = true) added → in_order base →
  in_order (merge_files C added base).
Proof using L.
  induction added as [|a added IH]; intros base Ha Hb; [done|]. cbn [merge_files].
  apply StronglySorted_inv in Ha as [Ha Hall]. pose proof (upper_bound_order a base Hb) as Ho. pose proof (upper_bound_app a base) as E.
  destruct (upper_bound C a base) as [before rest]. subst base. destruct Ho as [Ho1 Ho2]. apply sorted_app in Hb as (Hb1 & Hb2 & Hb3).
  assert (∀ x y, BySmallestKey C x y = true → BySmallestKey C y x = false) as Hasym.
  { intros x y Hxy. destruct (BySmallestKey C y x) eqn:Eyx; [|done]. pose proof (BySmallestKey_trans _ _ _ Hxy Eyx) as Hc. by rewrite BySmallestKey_irrefl in Hc. }
  assert (Forall (λ y, BySmallestKey C y a = false) (merge_files C added rest)) as Hma.
  { rewrite merge_files_perm. apply Forall_app. split; (eapply Forall_impl; [done|]); intros y Hy; by apply Hasym. }
  unfold in_order. apply sorted_app. split_and!; [done|constructor; [by apply IH|done]|].
  apply Forall_forall. intros x Hx. pose proof (proj1 (Forall_forall _ _) Ho1 x Hx) as Hxa. cbv beta in Hxa. constructor; [done|].
  rewrite merge_files_perm. apply Forall_app. split; [|by apply (proj1 (Forall_forall _ _) Hb3)].
  eapply Forall_impl; [exact Hall|]. intros y Hy. cbv beta in Hy |- *. apply not_true_iff_false. intros Hyx.
  rewrite (BySmallestKey_trans a y x Hy Hyx) in Hxa. done.
Qed.

Lemma save_level_files l base store : (save_level C l base store).1 = filter (λ f, kept l f) (merge_files C (added_files l) base).
Proof.
  unfold save_level. assert (∀ fs acc, (foldl (MaybeAddFile l) acc fs).1 = acc.1 ++ filter (λ f, kept l f) fs) as H; [|by rewrite H].
  induction fs as [|f fs IH]; intros acc; cbn [foldl]; [by rewrite app_nil_r|]. rewrite IH, filter_cons. unfold MaybeAddFile.
  destruct (kept l f); [|by rewrite decide_False by auto]. rewrite decide_True by done. cbn [fst]. by rewrite <-app_assoc.
Qed.

(** ** Replaying edits *)

(** Edits name levels that exist, as [DecodeFrom] checks. *)
Definition edit_levels_ok (e : VersionEdit) : Prop :=
  Forall (λ p, 0 <= p.1 < kNumLevels) (deleted_files_ e) ∧ Forall (λ p, 0 <= p.1 < kNumLevels) (new_files_ e).

(** The meaning of an edit for one level: files leave, then files enter. *)
Definition after_edit (level : nat) (live : FileMetaData → Prop) (e : VersionEdit) : FileMetaData → Prop :=
  λ f, (live f ∧ (Z.of_nat level, number f) ∉ deleted_files_ e) ∨ ∃ f0, (Z.of_nat level, f0) ∈ new_files_ e ∧ f = new_file f0.

Section replay.
  (** The files of the level in the base version, and a set of files in which the
      number tells the file. *)
  Context (level : nat) (B : list FileMetaData) (U : FileMetaData → Prop).
  Hypothesis Hlevel : (level < num_levels)%nat.
  Hypothesis HU : ∀ f g, U f → U g → number f = number g → f = g.
  Hypothesis HB : ∀ f, f ∈ B → U f.

Record tracks (l : LevelState) (live : FileMetaData → Prop) : Prop := {
  tk_live f : live f → U f;
  tk_added f : f ∈ added_files l → U f;
  tk_iff f : live f ↔ (f ∈ B ∨ f ∈ added_files l) ∧ number f ∉ deleted_files l;
  tk_sorted : StronglySorted (λ f g, BySmallestKey C f g = true) (added_files l);
}.

Definition add_level (l : LevelState) (f : FileMetaData) : LevelState :=
  MkLevelState (deleted_files l ∖ {[number f]}) (FileSet_insert C f (added_files l)).

Definition delete_level (l : LevelState) (n : Z) : LevelState := MkLevelState ({[n]} ∪ deleted_files l) (added_files l).

Lemma delete_tracks l live n : tracks l live → tracks (delete_level l n) (λ f, live f ∧ number f ≠ n).
Proof using All.
  intros [H1 H2 H3 H4]. split; cbn [added_files deleted_files delete_level]; [by intros f [? _]; apply H1|done| |done].
  intros f. rewrite H3. set_solver.
Qed.

Lemma add_tracks l live f0 : U f0 → tracks l live → tracks (add_level l f0) (λ f, live f ∨ f = f0).
Proof using All.
  intros Hf0 [H1 H2 H3 H4]. split; cbn [added_files deleted_files add_level].
  - intros f [?| ->]; [by apply H1|done].
  - intros f [->|?]%elem_FileSet_insert; [done|by apply H2].
  - intros f. split.
    + intros [Hl| ->].
      * pose proof (H1 f Hl). apply H3 in Hl as [[Hl|Hl] Hd]; (split; [|set_solver]); [by left|right; by apply FileSet_insert_keeps].
      * split; [right|set_solver]. destruct (FileSet_insert_has f0 (added_files l)) as (g & Hg & En).
        assert (U g) as Ug by (destruct (elem_FileSet_insert _ _ _ Hg) as [->|Hg']; [done|by apply H2]). by rewrite (HU g f0 Ug Hf0 En) in Hg.
    + intros [Hin Hd]. assert (U f) as Uf by (destruct Hin as [?|[->|?]%elem_FileSet_insert]; [by apply HB|done|by apply H2]).
      destruct (decide (number f = number f0)) as [En|Hne]; [right; by apply HU|]. left. apply H3. split; [|set_solver].
      destruct Hin as [?|[->|?]%elem_FileSet_insert]; [by left|done|by right].
  - by apply FileSet_insert_sorted.
Qed.

(** A fold of updates of an array, seen at one index. *)
Lemma foldl_alter {A X} (g : X → nat) (h : X → A → A) (xs : list X) (i : nat) : ∀ ls : list A,
  foldl (λ ls x, alter (h x) (g x) ls) ls xs !! i = (λ l, foldl (λ l x, h x l) l (filter (λ x, g x = i) xs)) <$> ls !! i.
Proof.
  induction xs as [|x xs IH]; intros ls; cbn [foldl]; [rewrite filter_nil; by destruct (ls !! i)|]. rewrite IH, filter_cons.
  destruct (decide (g x = i)) as [<-|Hne]; [rewrite list_lookup_alter_eq|rewrite list_lookup_alter_ne by done]; by destruct (ls !! _).
Qed.

Definition level_dels (e : VersionEdit) : list (Z * Z) := filter (λ p, Z.to_nat p.1 = level) (deleted_files_ e).
Definition level_adds (e : VersionEdit) : list (Z * FileMetaData) := filter (λ p, Z.to_nat p.1 = level) (new_files_ e).

Definition apply_level (l : LevelState) (e : VersionEdit) : LevelState :=
  foldl (λ l p, add_level l (new_file p.2)) (foldl (λ l p, delete_level l p.2) l (level_dels e)) (level_adds e).

Lemma Apply_level b e : levels_ (Apply C b e) !! level = (λ l, apply_level l e) <$> levels_ b !! level.
Proof.
  unfold Apply.
  assert (∀ ps b, levels_ (foldl (add_file C) b ps) =
    foldl (λ ls p, alter (λ l, add_level l (new_file p.2)) (Z.to_nat p.1) ls) (levels_ b) ps) as ->.
  { induction ps as [|p ps IH]; intros b'; [done|]. cbn [foldl]. by rewrite IH. }
  assert (∀ ps b, levels_ (foldl delete_file b ps) =
    foldl (λ ls p, alter (λ l, delete_level l p.2) (Z.to_nat p.1) ls) (levels_ b) ps) as ->.
  { induction ps as [|p ps IH]; intros b'; [done|]. cbn [foldl]. by rewrite IH. }
  assert (∀ ps b, levels_ (foldl set_compact_pointer b ps) = levels_ b) as ->.
  { induction ps as [|p ps IH]; intros b'; [done|]. cbn [foldl]. by rewrite IH. }
  rewrite (foldl_alter (λ p : Z * FileMetaData, Z.to_nat p.1) (λ p l, add_level l (new_file p.2))).
  rewrite (foldl_alter (λ p : Z * Z, Z.to_nat p.1) (λ p l, delete_level l p.2)). by destruct (levels_ b !! level).
Qed.

Lemma Apply_base b e : base_ (Apply C b e) = base_ b.
Proof.
  unfold Apply.
  assert (∀ ps b, base_ (foldl (add_file C) b ps) = base_ b) as -> by (induction ps as [|p ps IH]; intros b'; [done|]; cbn [foldl]; by rewrite IH).
  assert (∀ ps b, base_ (foldl delete_file b ps) = base_ b) as -> by (induction ps as [|p ps IH]; intros b'; [done|]; cbn [foldl]; by rewrite IH).
  by induction (compact_pointers_ e) as [|p ps IH] using rev_ind; [done|]; rewrite foldl_app.
Qed.

Lemma tracks_ext l live live' : (∀ f, live f ↔ live' f) → tracks l live → tracks l live'.
Proof. intros E [H1 H2 H3 H4]. split; [intros f Hf; by apply H1, E|done|intros f; by rewrite <-E|done]. Qed.

Lemma deletes_tracks ps : ∀ l live, tracks l live →
  tracks (foldl (λ l p, delete_level l p.2) l ps) (λ f, live f ∧ Forall (λ p : Z * Z, p.2 ≠ number f) ps).
Proof using All.
  induction ps as [|p ps IH]; intros l live Ht; cbn [foldl]; [eapply tracks_ext; [|done]; intros f; split; [intros ?; by split|by intros [? _]]|].
  eapply tracks_ext; [|exact (IH _ _ (delete_tracks _ _ p.2 Ht))]. intros f. cbv beta. rewrite Forall_cons. naive_solver.
Qed.

Lemma adds_tracks (ps : list (Z * FileMetaData)) : ∀ l live, Forall (λ p, U (new_file p.2)) ps → tracks l live →
  tracks (foldl (λ l p, add_level l (new_file p.2)) l ps) (λ f, live f ∨ ∃ p, p ∈ ps ∧ f = new_file p.2).
Proof using All.
  induction ps as [|p ps IH]; intros l live Hu Ht; cbn [foldl].
  - eapply tracks_ext; [|done]. intros f. split; [by left|]. intros [?|(p & ?%not_elem_of_nil & _)]; done.
  - apply Forall_cons in Hu as [Hp Hu]. eapply tracks_ext; [|exact (IH _ _ Hu (add_tracks _ _ _ Hp Ht))]. intros f. cbv beta.
    setoid_rewrite elem_of_cons. naive_solver.
Qed.

Lemma edit_tracks l live e : edit_levels_ok e → (∀ f, (Z.of_nat level, f) ∈ new_files_ e → U (new_file f)) → tracks l live →
  tracks (apply_level l e) (after_edit level live e).
Proof using All.
  intros [Hd Ha] Hu Ht. unfold apply_level.
  assert (∀ {X} (p : Z * X), 0 <= p.1 < kNumLevels → Z.to_nat p.1 = level ↔ p.1 = Z.of_nat level) as Hl by (intros X p Hp; lia).
  eapply tracks_ext; [|apply adds_tracks, deletes_tracks, Ht].
  - intros f. unfold after_edit. f_equiv.
    + f_equiv. rewrite Forall_forall. split.
      * intros H Hin. apply (H (Z.of_nat level, number f)); [|done]. unfold level_dels. apply list_elem_of_filter. split; [cbn; lia|done].
      * intros H p [Hp Hin]%list_elem_of_filter E. apply H. apply Hl in Hp; [|by apply (proj1 (Forall_forall _ _) Hd)].
        rewrite <-Hp, <-E. by destruct p.
    + split.
      * intros (p & [Hp Hin]%list_elem_of_filter & ->). exists p.2. split; [|done].
        apply Hl in Hp; [|by apply (proj1 (Forall_forall _ _) Ha)]. rewrite <-Hp. by destruct p.
      * intros (f0 & Hin & ->). exists (Z.of_nat level, f0). split; [|done]. apply list_elem_of_filter. split; [cbn; lia|done].
  - apply Forall_forall. intros p [Hp Hin]%list_elem_of_filter. apply Hu. apply Hl in Hp; [|by apply (proj1 (Forall_forall _ _) Ha)].
    rewrite <-Hp. by destruct p.
Qed.

Lemma edits_track es : ∀ b l live, Forall edit_levels_ok es →
  Forall (λ e, ∀ f, (Z.of_nat level, f) ∈ new_files_ e → U (new_file f)) es → levels_ b !! level = Some l → tracks l live →
  ∃ l', levels_ (foldl (Apply C) b es) !! level = Some l' ∧ tracks l' (foldl (after_edit level) live es).
Proof using All.
  induction es as [|e es IH]; intros b l live Hok Hu Hl Ht; [eauto|]. apply Forall_cons in Hok as [He Hok]. apply Forall_cons in Hu as [Hue Hu].
  cbn [foldl]. apply (IH _ (apply_level l e) _ Hok Hu); [by rewrite Apply_level, Hl|by apply edit_tracks].
Qed.

End replay.

Lemma save_levels_lookup level : ∀ ls bases store l, ls !! level = Some l →
  ∃ store', (save_levels C ls bases store).1 !! level = Some (save_level C l (default [] (bases !! level)) store').1.
Proof.
  induction level as [|level IH]; intros [|l0 ls] bases store l Hl; try done; cbn [save_levels].
  - injection Hl as ->. exists store. destruct (save_level C l (default [] (head bases)) store) as [files st] eqn:E.
    destruct (save_levels C ls (tail bases) st). cbn [fst]. destruct bases; cbn in *; by rewrite E.
  - destruct (save_level C l0 (default [] (head bases)) store) as [files st]. destruct (IH ls (tail bases) st l Hl) as (st' & Hs).
    destruct (save_levels C ls (tail bases) st) as [rest st2]. cbn [fst] in *. exists st'. rewrite lookup_cons_ne_0 by done. cbn [pred]. rewrite Hs.
    by destruct bases.
Qed.

Lemma SaveTo_level b level l : levels_ b !! level = Some l →
  level_files (SaveTo C b).1 level = filter (λ f, kept l f) (merge_files C (added_files l) (level_files (base_ b) level)).
Proof.
  intros Hl. unfold SaveTo, level_files. destruct (save_levels_lookup level (levels_ b) (files_ (base_ b)) (b_store b) l Hl) as (st & E).
  destruct (save_levels C (levels_ b) (files_ (base_ b)) (b_store b)) as [files store]. cbn [fst files_] in *. rewrite E. cbn [default].
  apply save_level_files.
Qed.

Lemma StronglySorted_filter {A} (R : A → A → Prop) (p : A → bool) l : StronglySorted R l → StronglySorted R (filter (λ x, p x) l).
Proof.
  induction 1 as [|x l Hl IH Hx]; [constructor|]. rewrite filter_cons. destruct (decide (p x)); [|done]. constructor; [done|].
  apply Forall_forall. intros y [_ Hy]%list_elem_of_filter. by apply (proj1 (Forall_forall _ _) Hx).
Qed.

Lemma in_order_lookup l i j f g : in_order l → (i < j)%nat → l !! i = Some f → l !! j = Some g → BySmallestKey C g f = false.
Proof.
  intros H. revert i j. induction H as [|h l Hl IH Hh]; intros [|i] [|j] Hij Hf Hg; simpl in *; try done; try lia.
  - injection Hf as ->. by apply (Forall_lookup_1 _ _ _ _ Hh Hg).
  - apply (IH i j); [lia|done|done].
Qed.

(** Files whose key ranges do not meet. *)
Definition ranges_apart (f g : FileMetaData) : Prop :=
  InternalKeyCompare C (largest f) (smallest g) < 0 ∨ InternalKeyCompare C (largest g) (smallest f) < 0.

Lemma in_order_level_sorted l : in_order l → NoDup l → Forall (file_ok C) l →
  (∀ f g, f ∈ l → g ∈ l → f ≠ g → ranges_apart f g) → level_sorted C l.
Proof using L.
  intros Ho Hnd Hok Hap. split; [done|]. intros i j f g Hij Hf Hg.
  assert (f ≠ g) as Hne by (intros ->; assert (i = j) by (by eapply NoDup_lookup); lia).
  destruct (Hap f g (list_elem_of_lookup_2 _ _ _ Hf) (list_elem_of_lookup_2 _ _ _ Hg) Hne) as [|H]; [done|]. exfalso.
  pose proof (in_order_lookup l i j f g Ho Hij Hf Hg) as Hb. rewrite <-not_true_iff_false, BySmallestKey_lt in Hb.
  pose proof (fo_order C g (Forall_lookup_1 _ _ _ _ Hok Hg)). pose proof (icmp_antisym C (smallest f) (smallest g)).
  pose proof (icmp_le_lt_trans C (smallest g) (largest g) (smallest f)). lia.
Qed.

(** Added files come from the edits. *)
Lemma apply_level_added level l e f : f ∈ added_files (apply_level level l e) →
  f ∈ added_files l ∨ ∃ p, p ∈ new_files_ e ∧ Z.to_nat p.1 = level ∧ f = new_file p.2.
Proof.
  unfold apply_level.
  assert (added_files (foldl (λ l p, delete_level l p.2) l (level_dels level e)) = added_files l) as E.
  { generalize (level_dels level e) as ps. intros ps. revert l. induction ps as [|p ps IH]; intros l; [done|]. cbn [foldl]. by rewrite IH. }
  rewrite <-E. generalize (foldl (λ l p, delete_level l p.2) l (level_dels level e)) as l0. clear E. intros l0.
  assert (∀ p, p ∈ level_adds level e → p ∈ new_files_ e ∧ Z.to_nat p.1 = level) as Hps by (intros p [? ?]%list_elem_of_filter; done).
  revert Hps l0. generalize (level_adds level e) as ps. induction ps as [|p ps IH]; intros Hps l0; cbn [foldl]; [by left|].
  intros [Hf|Hf]%(IH (λ q Hq, Hps q (list_elem_of_further _ _ _ Hq))); [|by right]. cbn [add_level added_files] in Hf.
  apply elem_FileSet_insert in Hf as [->|Hf]; [right|by left]. exists p. destruct (Hps p) as [? ?]; [left|]. done.
Qed.

Lemma edits_added level es : ∀ b l l' f, levels_ b !! level = Some l → levels_ (foldl (Apply C) b es) !! level = Some l' → f ∈ added_files l' →
  f ∈ added_files l ∨ ∃ e p, e ∈ es ∧ p ∈ new_files_ e ∧ Z.to_nat p.1 = level ∧ f = new_file p.2.
Proof.
  induction es as [|e es IH]; intros b l l' f Hl Hl' Hf; cbn [foldl] in Hl'; [left; congruence|].
  destruct (IH _ (apply_level level l e) l' f ltac:(by rewrite Apply_level, Hl) Hl' Hf) as [H|(e' & p & He & Hp)].
  - destruct (apply_level_added _ _ _ _ H) as [|(p & ? & ? & ?)]; [by left|right]. exists e, p. split; [left|done].
  - right. exists e', p. split; [by right|done].
Qed.

Lemma strict_NoDup l : StronglySorted (λ f g, BySmallestKey C f g = true) l → NoDup l.
Proof using L.
  induction 1 as [|f l Hl IH Hf]; constructor; [|done]. intros Hin. pose proof (proj1 (Forall_forall _ _) Hf f Hin) as H.
  cbv beta in H. by rewrite BySmallestKey_irrefl in H.
Qed.

(** ** Replaying edits *)

Lemma builder_replay (base : Version) (cp : list bytes) (store : Store) (es : list VersionEdit) (level : nat)
    (U : FileMetaData → Prop) :
  (level < num_levels)%nat → (∀ f g, U f → U g → number f = number g → f = g) →
  (∀ f, f ∈ level_files base level → U f) → Forall edit_levels_ok es →
  Forall (λ e, ∀ f, (Z.of_nat level, f) ∈ new_files_ e → U (new_file f)) es → in_order (level_files base level) →
  let live := foldl (after_edit level) (λ f, f ∈ level_files base level) es in
  let files := level_files (SaveTo C (foldl (Apply C) (NewBuilder base cp store) es)).1 level in
  (∀ f, f ∈ files ↔ live f) ∧ in_order files ∧
  (NoDup (level_files base level) → Forall (λ e, ∀ f, (Z.of_nat level, f) ∈ new_files_ e → new_file f ∉ level_files base level) es →
   NoDup files ∧ (Forall (file_ok C) files → (∀ f g, live f → live g → f ≠ g → ranges_apart f g) → level_sorted C files)).
Proof using L.
  intros Hlev HU HB Hok Hadd Hord live files.
  assert (levels_ (NewBuilder base cp store) !! level = Some (MkLevelState ∅ [])) as Hl0 by (by apply lookup_replicate_2).
  destruct (edits_track level (level_files base level) U Hlev HU HB es (NewBuilder base cp store) _ (λ f, f ∈ level_files base level) Hok Hadd Hl0)
    as (l & Hl & [_ _ Hiff Hsort]).
  { split; cbn; [done|by intros f ?%not_elem_of_nil| |constructor]. intros f. split; [intros Hf; split; [by left|set_solver]|].
    intros [[?|?%not_elem_of_nil] _]; done. }
  assert (files = filter (λ f, kept l f) (merge_files C (added_files l) (level_files base level))) as Ef.
  { unfold files. rewrite (SaveTo_level _ level l Hl). do 2 f_equal.
    assert (∀ es b, base_ (foldl (Apply C) b es) = base_ b) as ->; [|done].
    clear. induction es as [|e es IH]; intros b; [done|]. cbn [foldl]. by rewrite IH, Apply_base. }
  assert (∀ f, f ∈ files ↔ live f) as Hmem.
  { intros f. pose proof (Hiff f) as Hi. fold live in Hi. rewrite Hi, Ef, list_elem_of_filter, merge_files_perm, elem_of_app.
    unfold kept. rewrite Is_true_true, bool_decide_eq_true. tauto. }
  assert (in_order files) as Hord' by (rewrite Ef; apply StronglySorted_filter; by apply merge_files_order).
  split; [done|]. split; [done|]. intros Hnd Hfresh.
  assert (NoDup files) as Hnd'.
  { rewrite Ef. apply NoDup_filter. rewrite merge_files_perm. apply NoDup_app. split_and!; [by apply strict_NoDup| |done].
    intros f Hf Hb. destruct (edits_added level es _ _ l f Hl0 Hl Hf) as [?%not_elem_of_nil|(e & p & He & Hp & Hpl & ->)]; [done|].
    apply (proj1 (Forall_forall _ _) Hfresh e He p.2); [|done].
    pose proof (proj1 (Forall_forall _ _) (proj2 (proj1 (Forall_forall _ _) Hok e He)) p Hp) as Hr. cbv beta in Hr.
    replace (Z.of_nat level) with p.1 by lia. by destruct p. }
  split; [done|]. intros Hfok Hap. apply in_order_level_sorted; [done|done|done|].
  intros f g Hf Hg. apply Hap; by apply Hmem.
Qed.

(** ** Properties *)

(** C20: One builder replays a whole sequence of edits.  Whatever edits are applied to a
    builder over a base version, the version it saves has in every level exactly the
    files that are live when the edits are applied one after the other (an edit's
    deletions before its additions), in the order of their smallest keys and then
    numbers; this needs only that a number names one file.  If no added file is
    already in the base level, no file is listed twice, and if the live files of the
    level have disjoint ranges the level is sorted and disjoint, so the overlap check
    of [SaveTo] does not abort. *)
Theorem version_builder_replay (base : Version) (cp : list bytes) (store : Store) (es : list VersionEdit) (level : nat)
    (U : FileMetaData → Prop) :
  (level < num_levels)%nat → (∀ f g, U f → U g → number f = number g → f = g) →
  (∀ f, f ∈ level_files base level → U f) → Forall edit_levels_ok es →
  Forall (λ e, ∀ f, (Z.of_nat level, f) ∈ new_files_ e → U (new_file f)) es → in_order (level_files base level) →
  let live := foldl (after_edit level) (λ f, f ∈ level_files base level) es in
  let files := level_files (SaveTo C (foldl (Apply C) (NewBuilder base cp store) es)).1 level in
  (∀ f, f ∈ files ↔ live f) ∧ in_order files ∧
  (NoDup (level_files base level) → Forall (λ e, ∀ f, (Z.of_nat level, f) ∈ new_files_ e → new_file f ∉ level_files base level) es →
   NoDup files ∧ (Forall (file_ok C) files → (∀ f g, live f → live g → f ≠ g → ranges_apart f g) → level_sorted C files)).
Proof using L. apply builder_replay. Qed.

End facts.

(** A base file is deleted and two files are added by two edits. *)
Module BuilderExample.
Definition file (n : Z) (k : byte) : FileMetaData := NewFileMetaData n 1000 (ikey [k] 1 kTypeValue) (ikey [k] 1 kTypeValue).
Definition base : Version := MkVersion 1 [[]; [new_file (file 4 x61)]; []; []; []; []; []] None (-1) minus_one (-1).
Definition es : list VersionEdit := [RemoveFile 1 4 (push_new_file 1 (file 6 x63) Clear); push_new_file 1 (file 5 x62) Clear].
Definition U (f : FileMetaData) : Prop := f = new_file (file 4 x61) ∨ f = new_file (file 5 x62) ∨ f = new_file (file 6 x63).
Definition files : list FileMetaData := level_files (SaveTo BytewiseComparator (foldl (Apply BytewiseComparator) (NewBuilder base [] ∅) es)).1 1.
End BuilderExample.

Lemma version_builder_replay_witness :
  number <$> BuilderExample.files = [5; 6] ∧
  (new_file (BuilderExample.file 5 x62) ∈ BuilderExample.files ↔
   foldl (after_edit 1) (λ f, f ∈ level_files BuilderExample.base 1) BuilderExample.es (new_file (BuilderExample.file 5 x62))).
Proof.
  split; [by vm_compute|].
  refine (proj1 (version_builder_replay BytewiseComparator BuilderExample.base [] ∅ BuilderExample.es 1 BuilderExample.U _ _ _ _ _ _) _).
  - unfold num_levels. vm_compute. lia.
  - intros f g [->|[->| ->]] [->|[->| ->]] E; try done; vm_compute in E; discriminate E.
  - intros f Hf. change (f ∈ [new_file (BuilderExample.file 4 x61)]) in Hf. apply list_elem_of_singleton in Hf as ->. by left.
  - repeat constructor; cbn; lia || done.
  - constructor; [|constructor; [|constructor]]; intros f Hf.
    + change ((1, f) ∈ [(1, BuilderExample.file 6 x63)]) in Hf. apply list_elem_of_singleton in Hf as [= ->]. right. by right.
    + change ((1, f) ∈ [(1, BuilderExample.file 5 x62)]) in Hf. apply list_elem_of_singleton in Hf as [= ->]. right. by left.
  - change (in_order BytewiseComparator [new_file (BuilderExample.file 4 x61)]). repeat constructor.
Defined.
