(* ===== verification/Compaction.v ===== *)
(** * Choosing what to compact (src/db/version_set.cc: class Compaction and the
      compaction part of VersionSet)

    The choice of inputs reads the current version and the compaction pointers.
    Scores are doubles, which the Standard Library's [SpecFloat] computes exactly as
    the hardware does (53 bits of precision, exponents up to 1024). *)

From Stdlib Require Import String.
From stdpp Require Import gmap.
From Stdlib Require Import SpecFloat.
From S2P Require Import Prelude Coding Status Comparator DbFormat VersionEdit Arena Random SkipList MemTable Version.

(** ** Scores *)

Definition double_of_Z (z : Z) : spec_float := binary_normalize 53 1024 z 0 false.
Definition double_div : spec_float → spec_float → spec_float := SFdiv 53 1024.
Definition double_mul : spec_float → spec_float → spec_float := SFmul 53 1024.
Definition double_gt (a b : spec_float) : bool := match SFcompare a b with Some Gt => true | _ => false end.
Definition double_ge (a b : spec_float) : bool := match SFcompare a b with Some Gt | Some Eq => true | _ => false end.

Fixpoint times_ten (n : nat) (x : spec_float) : spec_float :=
  match n with O => x | S n => times_ten n (double_mul x (double_of_Z 10)) end.

(** 10 MB for levels 0 and 1, ten times as much for each level below. *)
Definition MaxBytesForLevel (level : nat) : spec_float :=
  times_ten (level - 1) (double_mul (double_of_Z 10) (double_of_Z 1048576)).

Definition level_score (v : Version) (level : nat) : spec_float :=
  if (level =? 0)%nat then double_div (double_of_Z (size (level_files v level))) (double_of_Z kL0_CompactionTrigger)
  else double_div (double_of_Z (u64 (TotalFileSize (level_files v level)))) (MaxBytesForLevel level).

(** The levels but the last; the first of the largest scores is kept. *)
Definition best_score (v : Version) : Z * spec_float :=
  foldl (λ best level, let score := level_score v level in if double_gt score best.2 then (Z.of_nat level, score) else best)
    (-1, minus_one) (seq 0 (num_levels - 1)).

Definition Finalize (v : Version) : Version :=
  let '(best_level, score) := best_score v in
  MkVersion (v_refs_ v) (files_ v) (file_to_compact_ v) (file_to_compact_level_ v) score best_level.

Definition NeedsCompaction (v : Version) : bool :=
  double_ge (compaction_score_ v) (double_of_Z 1) || bool_decide (is_Some (file_to_compact_ v)).

(** ** Compaction *)

Record Compaction := MkCompaction {
  level_ : nat;
  max_output_file_size_ : Z;
  input_version_ : option Version;
  edit_ : VersionEdit;
  inputs_0 : list FileMetaData;
  inputs_1 : list FileMetaData;
  access_times_0 : list Z;
  access_times_1 : list Z;
  grandparents_ : list FileMetaData;
  grandparent_index_ : nat;
  seen_key_ : bool;
  overlapped_bytes_ : Z;
  level_ptrs_ : list nat;
}.

Definition NewCompaction (max_file_size : Z) (level : nat) (input_version : option Version) (inputs0 : list FileMetaData) : Compaction :=
  MkCompaction level (MaxFileSizeForLevel max_file_size) input_version Clear inputs0 [] [] [] [] 0 false 0 (replicate num_levels 0%nat).

Section Inputs.
  Context (C : Comparator) (max_file_size : Z).

(** ** Ranges *)

Definition widen (range : bytes * bytes) (f : FileMetaData) : bytes * bytes :=
  (if InternalKeyCompare C (smallest f) range.1 <? 0 then smallest f else range.1,
   if InternalKeyCompare C (largest f) range.2 >? 0 then largest f else range.2).

(** The inputs are not empty. *)
Definition GetRange (inputs : list FileMetaData) : bytes * bytes :=
  match inputs with
  | [] => ([], [])
  | f :: inputs => foldl widen (smallest f, largest f) inputs
  end.

Definition GetRange2 (inputs1 inputs2 : list FileMetaData) : bytes * bytes := GetRange (inputs1 ++ inputs2).

(** ** Boundary files *)

Definition FindLargestKey (files : list FileMetaData) : option bytes :=
  match files with
  | [] => None
  | f :: files => Some (foldl (λ k g, if InternalKeyCompare C (largest g) k >? 0 then largest g else k) (largest f) files)
  end.

Definition is_boundary (largest_key : bytes) (f : FileMetaData) : bool :=
  (InternalKeyCompare C (smallest f) largest_key >? 0) &&
  (@Compare C (file_start f) (ExtractUserKey largest_key) =? 0).

Definition FindSmallestBoundaryFile (level_files : list FileMetaData) (largest_key : bytes) : option FileMetaData :=
  foldl (λ best f,
    if is_boundary largest_key f then
      match best with
      | None => Some f
      | Some b => if InternalKeyCompare C (smallest f) (smallest b) <? 0 then Some f else best
      end
    else best) None level_files.

(** [while (continue_searching)]: a file is found at most once. *)
Fixpoint boundary_loop (fuel : nat) (level_files compaction_files : list FileMetaData) (largest_key : bytes)
    : option (list FileMetaData) :=
  match fuel with
  | O => None
  | S fuel =>
      match FindSmallestBoundaryFile level_files largest_key with
      | Some f => boundary_loop fuel level_files (compaction_files ++ [f]) (largest f)
      | None => Some compaction_files
      end
  end.

Definition AddBoundaryInputs (level_files compaction_files : list FileMetaData) : option (list FileMetaData) :=
  match FindLargestKey compaction_files with
  | None => Some compaction_files
  | Some largest_key => boundary_loop (S (length level_files)) level_files compaction_files largest_key
  end.

(** ** The other inputs *)

(** [GetOverlappingInputs] followed by [AddBoundaryInputs]. *)
Definition overlapping_with_boundary (v : Version) (level : nat) (range : bytes * bytes) : option (list FileMetaData) :=
  files ← GetOverlappingInputs C v level (Some range.1) (Some range.2);
  AddBoundaryInputs (level_files v level) files.

(** The attempt to take more files of the level without taking more of the next:
    the new inputs of both levels and the new range, if it succeeds. *)
Definition expand_inputs (v : Version) (level : nat) (inputs0 inputs1 : list FileMetaData) (all : bytes * bytes)
    : option (option (list FileMetaData * list FileMetaData * (bytes * bytes))) :=
  expanded0 ← overlapping_with_boundary v level all;
  if (length inputs0 <? length expanded0)%nat &&
     (i64 (TotalFileSize inputs1 + TotalFileSize expanded0) <? ExpandedCompactionByteSizeLimit max_file_size)
  then
    let new_range := GetRange expanded0 in
    expanded1 ← overlapping_with_boundary v (level + 1) new_range;
    Some (if (length expanded1 =? length inputs1)%nat then Some (expanded0, expanded1, new_range) else None)
  else Some None.

(** The compaction with its inputs and grandparents, and the new compaction
    pointers. *)
Definition SetupOtherInputs (v : Version) (compact_pointer : list bytes) (c : Compaction) : option (Compaction * list bytes) :=
  let level := level_ c in
  inputs0 ← AddBoundaryInputs (level_files v level) (inputs_0 c);
  let range := GetRange inputs0 in
  inputs1 ← overlapping_with_boundary v (level + 1) range;
  let all := GetRange2 inputs0 inputs1 in
  expanded ← (if decide (inputs1 = []) then Some None else expand_inputs v level inputs0 inputs1 all);
  let '(inputs0, inputs1, range) := default (inputs0, inputs1, range) expanded in
  let all := match expanded with Some _ => GetRange2 inputs0 inputs1 | None => all end in
  grandparents ← (if (level + 2 <? num_levels)%nat then GetOverlappingInputs C v (level + 2) (Some all.1) (Some all.2)
                  else Some (grandparents_ c));
  Some (MkCompaction level (max_output_file_size_ c) (input_version_ c) (SetCompactPointer (Z.of_nat level) range.2 (edit_ c))
          inputs0 inputs1 (access_times_0 c) (access_times_1 c) grandparents (grandparent_index_ c) (seen_key_ c)
          (overlapped_bytes_ c) (level_ptrs_ c),
        <[level := range.2]> compact_pointer).

(** The first file behind the compaction pointer, or the first one. *)
Definition next_to_compact (v : Version) (compact_pointer : bytes) (level : nat) : option FileMetaData :=
  match List.find (λ f, bool_decide (compact_pointer = []) || (InternalKeyCompare C (largest f) compact_pointer >? 0)) (level_files v level) with
  | Some f => Some f
  | None => head (level_files v level)
  end.

(** [None] inside: no compaction is needed. *)
Definition PickCompaction (v : Version) (compact_pointer : list bytes) : option (option (Compaction * list bytes)) :=
  let pick := λ level f,
    inputs0 ← (if (level =? 0)%nat then
                 let range := GetRange [f] in GetOverlappingInputs C v 0 (Some range.1) (Some range.2)
               else Some [f]);
    r ← SetupOtherInputs v compact_pointer (NewCompaction max_file_size level (Some v) inputs0);
    Some (Some r) in
  if double_ge (compaction_score_ v) (double_of_Z 1) then
    let level := Z.to_nat (compaction_level_ v) in
    f ← next_to_compact v (default [] (compact_pointer !! level)) level;
    pick level f
  else
    match file_to_compact_ v with
    | Some f => pick (Z.to_nat (file_to_compact_level_ v)) f
    | None => Some None
    end.

(** The first files whose sizes reach the limit; [total] is 64 bits wide. *)
Fixpoint limit_inputs (limit total : Z) (inputs : list FileMetaData) : list FileMetaData :=
  match inputs with
  | [] => []
  | f :: inputs =>
      let total := u64 (total + file_size f) in
      if total >=? limit then [f] else f :: limit_inputs limit total inputs
  end.

Definition CompactRange (v : Version) (compact_pointer : list bytes) (level : nat) (kbegin kend : option bytes)
    : option (option (Compaction * list bytes)) :=
  inputs ← GetOverlappingInputs C v level kbegin kend;
  if decide (inputs = []) then Some None
  else
    let inputs := if (0 <? level)%nat then limit_inputs (MaxFileSizeForLevel max_file_size) 0 inputs else inputs in
    r ← SetupOtherInputs v compact_pointer (NewCompaction max_file_size level (Some v) inputs);
    Some (Some r).

(** ** Operations of a compaction *)

Definition IsTrivialMove (c : Compaction) : bool :=
  (length (inputs_0 c) =? 1)%nat && (length (inputs_1 c) =? 0)%nat &&
  (TotalFileSize (grandparents_ c) <=? MaxGrandParentOverlapBytes max_file_size).

Definition AddInputDeletions (c : Compaction) (edit : VersionEdit) : VersionEdit :=
  let edit := foldl (λ e f, RemoveFile (Z.of_nat (level_ c)) (number f) e) edit (inputs_0 c) in
  foldl (λ e f, RemoveFile (Z.of_nat (level_ c + 1)) (number f) e) edit (inputs_1 c).

(** The [while] loop of one level: whether the key is in the range of a file, and
    where the pointer stops; [files] are the files from the pointer on. *)
Fixpoint base_level_scan (user_key : bytes) (files : list FileMetaData) (ptr : nat) : bool * nat :=
  match files with
  | [] => (false, ptr)
  | f :: files =>
      if @Compare C user_key (file_limit f) <=? 0 then (@Compare C user_key (file_start f) >=? 0, ptr)
      else base_level_scan user_key files (S ptr)
  end.

Fixpoint base_level_loop (v : Version) (user_key : bytes) (ptrs : list nat) (levels : list nat) : bool * list nat :=
  match levels with
  | [] => (true, ptrs)
  | lvl :: levels =>
      let ptr := default 0%nat (ptrs !! lvl) in
      let '(hit, ptr) := base_level_scan user_key (drop ptr (level_files v lvl)) ptr in
      let ptrs := <[lvl := ptr]> ptrs in
      if hit : bool then (false, ptrs) else base_level_loop v user_key ptrs levels
  end.

Definition set_level_ptrs (c : Compaction) (ptrs : list nat) : Compaction :=
  MkCompaction (level_ c) (max_output_file_size_ c) (input_version_ c) (edit_ c) (inputs_0 c) (inputs_1 c)
    (access_times_0 c) (access_times_1 c) (grandparents_ c) (grandparent_index_ c) (seen_key_ c) (overlapped_bytes_ c) ptrs.

Definition IsBaseLevelForKey (v : Version) (c : Compaction) (user_key : bytes) : bool * Compaction :=
  let '(r, ptrs) := base_level_loop v user_key (level_ptrs_ c) (seq (level_ c + 2) (num_levels - (level_ c + 2))) in
  (r, set_level_ptrs c ptrs).

(** The [while] loop over the grandparents from the index on. *)
Fixpoint grandparent_scan (internal_key : bytes) (seen : bool) (files : list FileMetaData) (index : nat) (bytes : Z) : nat * Z :=
  match files with
  | [] => (index, bytes)
  | f :: files =>
      if InternalKeyCompare C internal_key (largest f) >? 0
      then grandparent_scan internal_key seen files (S index) (if seen then i64 (bytes + file_size f) else bytes)
      else (index, bytes)
  end.

Definition ShouldStopBefore (c : Compaction) (internal_key : bytes) : bool * Compaction :=
  let '(index, bytes) := grandparent_scan internal_key (seen_key_ c) (drop (grandparent_index_ c) (grandparents_ c))
                           (grandparent_index_ c) (overlapped_bytes_ c) in
  let stop := bytes >? MaxGrandParentOverlapBytes max_file_size in
  (stop, MkCompaction (level_ c) (max_output_file_size_ c) (input_version_ c) (edit_ c) (inputs_0 c) (inputs_1 c)
           (access_times_0 c) (access_times_1 c) (grandparents_ c) index true (if stop then 0 else bytes) (level_ptrs_ c)).

Definition ReleaseInputs (c : Compaction) : Compaction :=
  MkCompaction (level_ c) (max_output_file_size_ c) None (edit_ c) (inputs_0 c) (inputs_1 c)
    (access_times_0 c) (access_times_1 c) (grandparents_ c) (grandparent_index_ c) (seen_key_ c) (overlapped_bytes_ c) (level_ptrs_ c).

(** ** Access times *)

(** [Compare] and [IsOverlapping] on user keys. *)
Definition IsOverlapping (input_smallest input_largest output_smallest output_largest : bytes) : bool :=
  negb ((@Compare C (ExtractUserKey output_largest) (ExtractUserKey input_smallest) <? 0) ||
        (@Compare C (ExtractUserKey input_largest) (ExtractUserKey output_smallest) <? 0)).

(** The sum of access times and the number of overlapping inputs. *)
Definition add_access (smallest_key largest_key : bytes) (acc : Z * Z) (p : FileMetaData * Z) : Z * Z :=
  if IsOverlapping (smallest p.1) (largest p.1) smallest_key largest_key then (u64 (acc.1 + p.2), u64 (acc.2 + 1)) else acc.

Definition GetNewTableAccessTime (c : Compaction) (smallest_key largest_key : bytes) : Z :=
  let acc := foldl (add_access smallest_key largest_key) (0, 0)
               (zip (inputs_0 c) (access_times_0 c) ++ zip (inputs_1 c) (access_times_1 c)) in
  if acc.2 =? 0 then 0 else acc.1 / acc.2.

Definition GetInputTableAccessTime (access_time : Z → Z) (c : Compaction) : Compaction :=
  MkCompaction (level_ c) (max_output_file_size_ c) (input_version_ c) (edit_ c) (inputs_0 c) (inputs_1 c)
    (access_times_0 c ++ ((λ f, access_time (number f)) <$> inputs_0 c))
    (access_times_1 c ++ ((λ f, access_time (number f)) <$> inputs_1 c))
    (grandparents_ c) (grandparent_index_ c) (seen_key_ c) (overlapped_bytes_ c) (level_ptrs_ c).

End Inputs.

(** ** Boundary files *)

Section boundary.
  Context (C : Comparator) {L : ComparatorLaws C}.

Lemma FindLargestKey_snoc files f k : FindLargestKey C files = Some k →
  FindLargestKey C (files ++ [f]) = Some (if InternalKeyCompare C (largest f) k >? 0 then largest f else k).
Proof. destruct files as [|g files]; [done|]. cbn [FindLargestKey app]. rewrite foldl_app. by intros [= ->]. Qed.

Lemma FindSmallestBoundaryFile_spec files k :
  match FindSmallestBoundaryFile C files k with
  | Some f => f ∈ files ∧ is_boundary C k f = true
  | None => ∀ f, f ∈ files → is_boundary C k f = false
  end.
Proof.
  unfold FindSmallestBoundaryFile. induction files as [|f files IH] using rev_ind; [by intros f ?%not_elem_of_nil|]. rewrite foldl_app. cbn [foldl].
  set (best := foldl _ None files) in *. destruct (is_boundary C k f) eqn:E.
  - destruct best as [b|]; [|split; [apply elem_of_app; right; left|done]].
    destruct (InternalKeyCompare C (smallest f) (smallest b) <? 0); [split; [apply elem_of_app; right; left|done]|].
    destruct IH. split; [apply elem_of_app; by left|done].
  - destruct best as [b|]; [destruct IH; split; [apply elem_of_app; by left|done]|].
    intros g [Hg|Hg]%elem_of_app; [by apply IH|]. by apply list_elem_of_singleton in Hg as ->.
Qed.

(** Files that lie behind a key. *)
Definition behind (k : bytes) (files : list FileMetaData) : nat := length (filter (λ f, InternalKeyCompare C (smallest f) k >? 0) files).

Lemma behind_lt files f k : file_ok C f → f ∈ files → is_boundary C k f = true → (behind (largest f) files < behind k files)%nat.
Proof using L.
  intros Hok Hf Hb. apply andb_true_iff in Hb as [Hb _]. rewrite Z.gtb_ltb in Hb. apply Z.ltb_lt in Hb. pose proof (fo_order C f Hok) as Ho.
  unfold behind. apply (filter_shrinks (λ g, InternalKeyCompare C (smallest g) (largest f) >? 0) (λ g, InternalKeyCompare C (smallest g) k >? 0) f).
  - intros g. rewrite !Z.gtb_ltb, !Z.ltb_lt. intros Hg. pose proof (icmp_antisym C (smallest g) (largest f)). pose proof (icmp_antisym C (smallest f) k).
    pose proof (icmp_antisym C (smallest g) k). pose proof (icmp_lt_le_trans C k (smallest f) (largest f)). pose proof (icmp_lt_le_trans C k (largest f) (smallest g)). lia.
  - done.
  - rewrite Z.gtb_ltb. apply Z.ltb_ge. lia.
  - rewrite Z.gtb_ltb. by apply Z.ltb_lt.
Qed.

Lemma boundary_loop_spec level_files : Forall (file_ok C) level_files → ∀ fuel files k,
  FindLargestKey C files = Some k → (behind k level_files < fuel)%nat →
  ∃ extra k', boundary_loop C fuel level_files files k = Some (files ++ extra) ∧ (∀ f, f ∈ extra → f ∈ level_files) ∧
    FindLargestKey C (files ++ extra) = Some k' ∧ ∀ f, f ∈ level_files → is_boundary C k' f = false.
Proof using L.
  intros Hok. induction fuel as [|fuel IH]; intros files k Hk Hf; [lia|]. cbn [boundary_loop].
  pose proof (FindSmallestBoundaryFile_spec level_files k) as Hs. destruct (FindSmallestBoundaryFile C level_files k) as [f|].
  - destruct Hs as [Hin Hb]. pose proof (proj1 (Forall_forall _ _) Hok f Hin) as Hfok. pose proof (behind_lt _ _ _ Hfok Hin Hb).
    destruct (IH (files ++ [f]) (largest f)) as (extra & k' & E & H1 & H2 & H3); [|lia|].
    + rewrite (FindLargestKey_snoc files f k Hk). apply andb_true_iff in Hb as [Hb _]. rewrite Z.gtb_ltb in Hb |- *. apply Z.ltb_lt in Hb.
      destruct (Z.ltb_spec 0 (InternalKeyCompare C (largest f) k)); [done|]. pose proof (fo_order C f Hfok).
      pose proof (icmp_trans C (smallest f) (largest f) k). lia.
    + exists (f :: extra), k'. rewrite <-!app_assoc in E, H2. split_and!; [done| |done|done].
      intros g [->|Hg]%elem_of_cons; [done|by apply H1].
  - exists [], k. rewrite app_nil_r. split_and!; [done|by intros f ?%not_elem_of_nil|done|done].
Qed.

Lemma AddBoundaryInputs_spec level_files files : Forall (file_ok C) level_files →
  ∃ extra, AddBoundaryInputs C level_files files = Some (files ++ extra) ∧ (∀ f, f ∈ extra → f ∈ level_files) ∧
    ∀ k, FindLargestKey C (files ++ extra) = Some k → ∀ f, f ∈ level_files → is_boundary C k f = false.
Proof using L.
  intros Hok. unfold AddBoundaryInputs. destruct (FindLargestKey C files) as [k|] eqn:Ek.
  - destruct (boundary_loop_spec level_files Hok (S (length level_files)) files k Ek) as (extra & k' & E & H1 & H2 & H3).
    { unfold behind. pose proof (length_filter (λ f, InternalKeyCompare C (smallest f) k >? 0) level_files). lia. }
    exists extra. split_and!; [done|done|]. rewrite H2. by intros ? [= <-].
  - exists []. rewrite app_nil_r. split_and!; [done|by intros f ?%not_elem_of_nil|]. by rewrite Ek.
Qed.

(** ** Ranges *)

Definition covers (range : bytes * bytes) (f : FileMetaData) : Prop :=
  InternalKeyCompare C range.1 (smallest f) <= 0 ∧ InternalKeyCompare C (largest f) range.2 <= 0.

Lemma widen_covers range f : covers (widen C range f) f ∧ ∀ g, covers range g → covers (widen C range f) g.
Proof using L.
  pose proof (icmp_refl C (smallest f)) as R1. pose proof (icmp_refl C (largest f)) as R2. pose proof (icmp_antisym C (smallest f) range.1) as A1.
  pose proof (icmp_antisym C (largest f) range.2) as A2. unfold covers, widen. cbn [fst snd]. rewrite Z.gtb_ltb. split.
  - zcases; lia.
  - intros g [G1 G2]. split.
    + destruct (Z.ltb_spec (InternalKeyCompare C (smallest f) range.1) 0) as [H1|H1]; [|done]. pose proof (icmp_lt_le_trans C _ _ _ H1 G1). lia.
    + destruct (Z.ltb_spec 0 (InternalKeyCompare C (largest f) range.2)) as [H2|H2]; [|done]. pose proof (icmp_trans C (largest g) range.2 (largest f)). lia.
Qed.

Lemma GetRange_covers inputs f : f ∈ inputs → covers (GetRange C inputs) f.
Proof using L.
  destruct inputs as [|f0 inputs]; [by intros ?%not_elem_of_nil|]. cbn [GetRange]. intros Hf.
  assert (∀ l r, (∀ g, covers r g → covers (foldl (widen C) r l) g) ∧ ∀ g, g ∈ l → covers (foldl (widen C) r l) g) as H.
  { clear f Hf. induction l as [|h l IH]; intros r; [split; [done|by intros g ?%not_elem_of_nil]|]. cbn [foldl]. destruct (IH (widen C r h)) as [I1 I2].
    destruct (widen_covers r h) as [W1 W2]. split; [auto|]. intros g [->|Hg]%elem_of_cons; auto. }
  destruct (H inputs (smallest f0, largest f0)) as [H1 H2]. apply elem_of_cons in Hf as [->|Hf]; [|by apply H2].
  apply H1. unfold covers. cbn. by rewrite !icmp_refl.
Qed.

Lemma GetRange_bounds inputs f : f ∈ inputs →
  (∃ g, g ∈ inputs ∧ (GetRange C inputs).1 = smallest g) ∧ (∃ g, g ∈ inputs ∧ (GetRange C inputs).2 = largest g).
Proof.
  destruct inputs as [|f0 inputs]; [by intros ?%not_elem_of_nil|]. intros _. cbn [GetRange].
  assert (∀ l r, ((foldl (widen C) r l).1 = r.1 ∨ ∃ g, g ∈ l ∧ (foldl (widen C) r l).1 = smallest g) ∧
    ((foldl (widen C) r l).2 = r.2 ∨ ∃ g, g ∈ l ∧ (foldl (widen C) r l).2 = largest g)) as H.
  { clear. induction l as [|h l IH]; intros r; [by split; left|]. cbn [foldl]. destruct (IH (widen C r h)) as [I1 I2].
    assert ((widen C r h).1 = r.1 ∨ (widen C r h).1 = smallest h) as W1 by (unfold widen; cbn [fst]; destruct (_ <? 0); auto).
    assert ((widen C r h).2 = r.2 ∨ (widen C r h).2 = largest h) as W2 by (unfold widen; cbn [snd]; destruct (_ >? 0); auto).
    split.
    - destruct I1 as [I1|(g & Hg & I1)]; [|right; exists g; split; [by right|done]].
      destruct W1 as [W1|W1]; [left; congruence|right]. exists h. split; [left|congruence].
    - destruct I2 as [I2|(g & Hg & I2)]; [|right; exists g; split; [by right|done]].
      destruct W2 as [W2|W2]; [left; congruence|right]. exists h. split; [left|congruence]. }
  destruct (H inputs (smallest f0, largest f0)) as [[H1|(g & Hg & H1)] [H2|(g' & Hg' & H2)]]; rewrite H1, H2; cbn [fst snd]; split; eexists; (split; [|done]); try (by left); by right.
Qed.

Lemma covers_overlaps range f : covers range f → file_ok C f → overlaps C (Some (ExtractUserKey range.1)) (Some (ExtractUserKey range.2)) f.
Proof using L.
  intros [H1 H2] Hok. pose proof (fo_order C f Hok) as Ho. split; intros k [= <-].
  - apply InternalKeyCompare_user. by eapply icmp_trans.
  - pose proof (InternalKeyCompare_user C _ _ (icmp_trans C _ _ _ Ho H2)). unfold file_start.
    pose proof (Compare_antisym (ExtractUserKey (smallest f)) (ExtractUserKey range.2)). lia.
Qed.

(** The largest key is the largest of some file, and of all. *)
Lemma FindLargestKey_max files k : FindLargestKey C files = Some k →
  (∃ f, f ∈ files ∧ largest f = k) ∧ ∀ f, f ∈ files → InternalKeyCompare C (largest f) k <= 0.
Proof using L.
  revert k. induction files as [|f files IH] using rev_ind; intros k; [done|]. destruct (FindLargestKey C files) as [k0|] eqn:E.
  - rewrite (FindLargestKey_snoc files f k0 E). destruct (IH k0 eq_refl) as [(g & Hg & Eg) Hmax]. rewrite Z.gtb_ltb. intros [= <-].
    destruct (Z.ltb_spec 0 (InternalKeyCompare C (largest f) k0)) as [Hlt|Hge]; split.
    + exists f. split; [apply elem_of_app; right; left|done].
    + intros h [Hh|Hh]%elem_of_app; [|apply list_elem_of_singleton in Hh as ->; rewrite (icmp_refl C); lia].
      pose proof (Hmax h Hh). pose proof (icmp_antisym C (largest f) k0). pose proof (icmp_trans C (largest h) k0 (largest f)). lia.
    + exists g. split; [apply elem_of_app; by left|done].
    + intros h [Hh|Hh]%elem_of_app; [by apply Hmax|]. by apply list_elem_of_singleton in Hh as ->.
  - destruct files; [|done]. cbn. intros [= <-]. split; [exists f; split; [left|done]|].
    intros h Hh. apply list_elem_of_singleton in Hh as ->. rewrite (icmp_refl C). lia.
Qed.

(** A set of level-0 files that is closed under sharing user keys has no boundary. *)
Definition closed_in (level_files files : list FileMetaData) : Prop :=
  ∀ f g, f ∈ files → g ∈ level_files → touches C f g → g ∈ files.

Lemma closed_no_boundary level_files files : Forall (file_ok C) level_files → (∀ f, f ∈ files → f ∈ level_files) → closed_in level_files files →
  AddBoundaryInputs C level_files files = Some files.
Proof using L.
  intros Hok Hsub Hc. unfold AddBoundaryInputs. destruct (FindLargestKey C files) as [k|] eqn:Ek; [|done]. cbn [boundary_loop].
  pose proof (FindSmallestBoundaryFile_spec level_files k) as Hs. destruct (FindSmallestBoundaryFile C level_files k) as [f|]; [exfalso|done].
  destruct Hs as [Hf Hb]. apply andb_true_iff in Hb as [Hb He%Z.eqb_eq]. rewrite Z.gtb_ltb in Hb. apply Z.ltb_lt in Hb.
  destruct (FindLargestKey_max files k Ek) as [(g & Hg & Eg) Hmax]. subst k. fold (file_limit g) in He.
  pose proof (proj1 (Forall_forall _ _) Hok f Hf) as Hfok. pose proof (proj1 (Forall_forall _ _) Hok g (Hsub g Hg)) as Hgok.
  pose proof (file_ok_user C f Hfok). pose proof (file_ok_user C g Hgok). pose proof (fo_order C f Hfok).
  pose proof (Compare_antisym (file_start f) (file_limit g)).
  assert (f ∈ files) as Hin.
  { apply (Hc g f Hg Hf). split; [|lia]. pose proof (Compare_trans (file_limit g) (file_start f) (file_limit f)).
    pose proof (Compare_trans (file_start g) (file_limit g) (file_limit f)). lia. }
  pose proof (Hmax f Hin). pose proof (icmp_trans C (smallest f) (largest f) (largest g)). lia.
Qed.

(** ** All inputs *)

(** The user keys between the bounds of some files. *)
Definition in_range (files : list FileMetaData) (f : FileMetaData) : Prop :=
  overlaps C (Some (ExtractUserKey (GetRange C files).1)) (Some (ExtractUserKey (GetRange C files).2)) f.

Definition no_boundary (level_files files : list FileMetaData) : Prop :=
  ∀ k, FindLargestKey C files = Some k → ∀ f, f ∈ level_files → is_boundary C k f = false.

(** *** Inputs without gaps *)

(** The file ends before the other begins. *)
Definition file_lt (f g : FileMetaData) : Prop := InternalKeyCompare C (largest f) (smallest g) < 0.

(** A file of the level that is not among the files lies before all of them or
    behind all of them. *)
Definition splits (level_files files : list FileMetaData) : Prop :=
  ∀ g, g ∈ level_files → g ∉ files → (∀ h, h ∈ files → file_lt g h) ∨ (∀ h, h ∈ files → file_lt h g).

Lemma sorted_file_lt lf f g : level_sorted C lf → f ∈ lf → g ∈ lf → f ≠ g → file_lt f g ∨ file_lt g f.
Proof.
  intros Hs [i Hi]%list_elem_of_lookup_1 [j Hj]%list_elem_of_lookup_1 Hne.
  destruct (Nat.lt_trichotomy i j) as [Hij|[->|Hij]]; [left|congruence|right]; by eapply lv_disjoint.
Qed.

Lemma file_lt_user f g : file_lt f g → @Compare C (file_limit f) (file_start g) <= 0.
Proof using L. intros H. apply InternalKeyCompare_user. unfold file_lt in H. lia. Qed.

Lemma user_file_lt f g : @Compare C (file_limit f) (file_start g) < 0 → file_lt f g.
Proof using L. intros H. apply InternalKeyCompare_lt. by left. Qed.

Lemma FindSmallestBoundaryFile_min files k f : FindSmallestBoundaryFile C files k = Some f →
  ∀ g, g ∈ files → is_boundary C k g = true → InternalKeyCompare C (smallest f) (smallest g) <= 0.
Proof using L.
  revert f. induction files as [|x files IH] using rev_ind; intros f; [done|]. unfold FindSmallestBoundaryFile in *. rewrite foldl_app. cbn [foldl].
  pose proof (FindSmallestBoundaryFile_spec files k) as Hs. unfold FindSmallestBoundaryFile in Hs. set (best := foldl _ None files) in *.
  intros E g [Hg|Hg]%elem_of_app Hb; [|apply list_elem_of_singleton in Hg as ->; rewrite Hb in E]; destruct (is_boundary C k x) eqn:Ex.
  - destruct best as [b|]; [|rewrite (Hs g Hg) in Hb; done]. pose proof (IH b eq_refl g Hg Hb) as Hle.
    destruct (Z.ltb_spec (InternalKeyCompare C (smallest x) (smallest b)) 0); injection E as E; subst f; [|exact Hle]. eapply (icmp_trans C); [|exact Hle]. lia.
  - by apply (IH f E).
  - destruct best as [b|]; [|injection E as <-; rewrite (icmp_refl C); lia]. pose proof (icmp_antisym C (smallest x) (smallest b)).
    destruct (Z.ltb_spec (InternalKeyCompare C (smallest x) (smallest b)) 0); injection E as <-; [rewrite (icmp_refl C); lia|lia].
  - congruence.
Qed.

(** A boundary file that is added leaves no gap. *)
Lemma splits_boundary lf files k f : level_sorted C lf → (∀ g, g ∈ files → g ∈ lf) → FindLargestKey C files = Some k →
  FindSmallestBoundaryFile C lf k = Some f → splits lf files → splits lf (files ++ [f]).
Proof using L.
  intros Hs Hsub Hk Hf Hsp g Hg Hnot. rewrite not_elem_of_app, list_elem_of_singleton in Hnot. destruct Hnot as [Hg1 Hne].
  pose proof (FindSmallestBoundaryFile_spec lf k) as Hspec. rewrite Hf in Hspec. destruct Hspec as [Hfin Hb].
  destruct (FindLargestKey_max files k Hk) as [(p & Hp & Ep) Hmax]. apply andb_true_iff in Hb as [Hgt Heq%Z.eqb_eq]. rewrite Z.gtb_ltb in Hgt. apply Z.ltb_lt in Hgt.
  pose proof (lv_ok C lf Hs) as Hok. rewrite Forall_forall in Hok. pose proof (icmp_antisym C (smallest f) k) as Has.
  destruct (Hsp g Hg Hg1) as [Hl|Hr]; [left|right]; intros h [Hh|Hh]%elem_of_app; auto; apply list_elem_of_singleton in Hh as ->.
  - pose proof (Hl p Hp) as Hgp. unfold file_lt in *. pose proof (fo_order C p (Hok p (Hsub p Hp))) as Hpo. rewrite Ep in Hpo.
    pose proof (icmp_lt_le_trans C _ _ _ Hgp Hpo). pose proof (icmp_lt_le_trans C (largest g) k (smallest f)). lia.
  - destruct (sorted_file_lt lf f g Hs Hfin Hg ltac:(congruence)) as [|Hgf]; [done|]. exfalso.
    pose proof (Hr p Hp) as Hpg. unfold file_lt in Hpg, Hgf. rewrite Ep in Hpg. pose proof (fo_order C g (Hok g Hg)) as Hgo.
    pose proof (icmp_le_lt_trans C _ _ _ Hgo Hgf) as Hgf'.
    assert (is_boundary C k g = true) as Hbg.
    { apply andb_true_iff. split; [rewrite Z.gtb_ltb; apply Z.ltb_lt; pose proof (icmp_antisym C k (smallest g)); lia|]. apply Z.eqb_eq.
      assert (@Compare C (ExtractUserKey k) (file_start g) <= 0) as U1 by (apply InternalKeyCompare_user; lia).
      assert (@Compare C (file_start g) (file_start f) <= 0) as U2 by (apply InternalKeyCompare_user; lia).
      pose proof (Compare_eq_sym (file_start f) (ExtractUserKey k)) as [Hsym _]. specialize (Hsym Heq).
      pose proof (Compare_trans (file_start g) (file_start f) (ExtractUserKey k)). pose proof (Compare_antisym (file_start g) (ExtractUserKey k)). lia. }
    pose proof (FindSmallestBoundaryFile_min lf k f Hf g Hg Hbg). pose proof (icmp_antisym C (smallest g) (smallest f)). lia.
Qed.

Lemma boundary_loop_splits lf : level_sorted C lf → ∀ fuel files k r, (∀ g, g ∈ files → g ∈ lf) → FindLargestKey C files = Some k → splits lf files →
  boundary_loop C fuel lf files k = Some r → splits lf r.
Proof using L.
  intros Hs. induction fuel as [|fuel IH]; intros files k r Hsub Hk Hsp; [done|]. cbn [boundary_loop].
  pose proof (FindSmallestBoundaryFile_spec lf k) as Hspec. destruct (FindSmallestBoundaryFile C lf k) as [f|] eqn:Ef; [|by intros [= <-]]. destruct Hspec as [Hf Hb].
  apply IH.
  - intros g [Hg|Hg]%elem_of_app; [auto|]. by apply list_elem_of_singleton in Hg as ->.
  - rewrite (FindLargestKey_snoc files f k Hk). apply andb_true_iff in Hb as [Hb _]. rewrite Z.gtb_ltb in Hb |- *. apply Z.ltb_lt in Hb.
    pose proof (lv_ok C lf Hs) as Hok. rewrite Forall_forall in Hok. pose proof (fo_order C f (Hok f Hf)).
    destruct (Z.ltb_spec 0 (InternalKeyCompare C (largest f) k)); [done|]. pose proof (icmp_trans C (smallest f) (largest f) k). lia.
  - by apply (splits_boundary lf files k f).
Qed.

Lemma AddBoundaryInputs_splits lf files r : level_sorted C lf → (∀ g, g ∈ files → g ∈ lf) → splits lf files → AddBoundaryInputs C lf files = Some r → splits lf r.
Proof using L.
  intros Hs Hsub Hsp. unfold AddBoundaryInputs. destruct (FindLargestKey C files) as [k|] eqn:Ek; [|by intros [= <-]]. by apply boundary_loop_splits.
Qed.

(** On which side of a range a file lies that does not meet it. *)
Lemma not_overlaps_side lo hi f : ¬ overlaps C (Some lo) (Some hi) f → @Compare C (file_limit f) lo < 0 ∨ @Compare C hi (file_start f) < 0.
Proof using L.
  intros Hn. destruct (decide (@Compare C (file_limit f) lo < 0)); [by left|]. destruct (decide (@Compare C hi (file_start f) < 0)); [by right|].
  exfalso. apply Hn. pose proof (Compare_antisym (file_limit f) lo). split; intros k [= <-]; lia.
Qed.

(** Where a file lies that does not meet the range that another one meets. *)
Lemma side_of lf lo hi g h : level_sorted C lf → g ∈ lf → h ∈ lf → overlaps C (Some lo) (Some hi) h →
  (@Compare C (file_limit g) lo < 0 → file_lt g h) ∧ (@Compare C hi (file_start g) < 0 → file_lt h g).
Proof using L.
  intros Hs Hg Hh [H1 H2]. specialize (H1 lo eq_refl). specialize (H2 hi eq_refl). pose proof (lv_ok C lf Hs) as Hok. rewrite Forall_forall in Hok.
  pose proof (file_ok_user C g (Hok g Hg)) as Ug. pose proof (file_ok_user C h (Hok h Hh)) as Uh. split; intros Hside.
  - destruct (decide (g = h)) as [->|Hne]; [pose proof (Compare_antisym (file_limit h) lo); lia|].
    destruct (sorted_file_lt lf g h Hs Hg Hh Hne) as [|Hlt%file_lt_user]; [done|]. exfalso.
    pose proof (Compare_trans _ _ _ Hlt Ug). pose proof (Compare_lt_le_trans (file_limit g) lo (file_limit h) Hside H1). pose proof (Compare_antisym (file_limit g) (file_limit h)). lia.
  - destruct (decide (g = h)) as [->|Hne]; [lia|].
    destruct (sorted_file_lt lf g h Hs Hg Hh Hne) as [Hlt%file_lt_user|]; [|done]. exfalso.
    pose proof (Compare_antisym hi (file_start h)). pose proof (Compare_trans _ _ _ Ug Hlt) as Ugh.
    pose proof (Compare_lt_le_trans hi (file_start g) (file_start h) Hside Ugh). lia.
Qed.

Lemma overlapping_with_boundary_spec v level range : searchable C v →
  ∃ files, overlapping_with_boundary C v level range = Some files ∧ (∀ f, f ∈ files → f ∈ level_files v level) ∧
    (∀ f, f ∈ level_files v level → overlaps C (Some (ExtractUserKey range.1)) (Some (ExtractUserKey range.2)) f → f ∈ files) ∧
    no_boundary (level_files v level) files ∧ (level = 0%nat → closed_in (level_files v level) files).
Proof using L.
  intros Hv. destruct (Hv level) as (Hok & _ & _). unfold overlapping_with_boundary.
  destruct (GetOverlappingInputs_spec C v level (Some range.1) (Some range.2) Hok) as (inputs & -> & H1 & H2 & H3 & _).
  cbn [mbind option_bind]. destruct (AddBoundaryInputs_spec (level_files v level) inputs Hok) as (extra & E & H4 & H5).
  exists (inputs ++ extra). split_and!; [done| | |done|].
  - intros f [Hf|Hf]%elem_of_app; auto.
  - intros f Hf Ho. apply elem_of_app. left. by apply H1.
  - intros ->. specialize (H3 eq_refl). rewrite (closed_no_boundary _ _ Hok H2) in E by (intros f g; apply H3).
    injection E as E. rewrite <-E. intros f g. apply H3.
Qed.

(** No file of the level lies between files that the range covers and the files that
    meet it, with their boundary files. *)
Definition convex (level_files inputs0 files : list FileMetaData) : Prop :=
  ∀ g, g ∈ level_files → g ∉ files → (∀ f, f ∈ inputs0 ++ files → file_lt g f) ∨ (∀ f, f ∈ inputs0 ++ files → file_lt f g).

Lemma overlapping_with_boundary_convex v level range inputs0 files : searchable C v → (0 < level)%nat → overlapping_with_boundary C v level range = Some files →
  (∀ f, f ∈ inputs0 → covers range f) → convex (level_files v level) inputs0 files.
Proof using L.
  intros Hv Hlev E Hcov g Hg Hnot. destruct (Hv level) as (Hok & _ & Hs). specialize (Hs Hlev). unfold overlapping_with_boundary in E.
  destruct (GetOverlappingInputs_spec C v level (Some range.1) (Some range.2) Hok) as (base & Eb & B1 & B2 & _ & _ & B5). rewrite Eb in E. cbn [mbind option_bind] in E.
  cbn [fmap option_fmap option_map] in B1, B5. set (lo := ExtractUserKey range.1) in *. set (hi := ExtractUserKey range.2) in *.
  assert (∀ f, f ∈ base → overlaps C (Some lo) (Some hi) f) as Ho by (intros f; apply B5; lia).
  destruct (AddBoundaryInputs_spec (level_files v level) base Hok) as (extra & E' & _). rewrite E in E'. injection E' as ->.
  assert (¬ overlaps C (Some lo) (Some hi) g) as Hno by (intros H; apply Hnot, elem_of_app; left; by apply B1).
  assert (splits (level_files v level) base) as Hsb.
  { intros x Hx Hxn. assert (¬ overlaps C (Some lo) (Some hi) x) as Hxo by (intros H; by apply Hxn, B1).
    destruct (not_overlaps_side lo hi x Hxo) as [Hside|Hside]; [left|right]; intros h Hh; by apply (side_of (level_files v level) lo hi x h Hs Hx (B2 h Hh) (Ho h Hh)). }
  pose proof (AddBoundaryInputs_splits _ _ _ Hs B2 Hsb E) as Hsp.
  assert (base = [] → base ++ extra = []) as Hemp by (intros ->; unfold AddBoundaryInputs in E; cbn in E; by injection E).
  destruct (not_overlaps_side lo hi g Hno) as [Hside|Hside]; [left|right].
  - assert (∀ f, f ∈ base ++ extra → file_lt g f) as H1.
    { destruct (Hsp g Hg Hnot) as [H|H]; [done|]. destruct base as [|h0 base']; [rewrite Hemp by done; by intros f ?%not_elem_of_nil|]. exfalso.
      destruct (side_of _ lo hi g h0 Hs Hg (B2 h0 ltac:(left)) (Ho h0 ltac:(left))) as [Hs1 _]. specialize (Hs1 Hside).
      pose proof (H h0 ltac:(left)) as Hs2. unfold file_lt in Hs1, Hs2. rewrite Forall_forall in Hok. pose proof (fo_order C h0 (Hok h0 (B2 h0 ltac:(left)))). pose proof (fo_order C g (Hok g Hg)).
      pose proof (icmp_lt_le_trans C _ _ (largest h0) Hs1 ltac:(lia)) as H3. pose proof (icmp_lt_le_trans C _ _ (largest g) Hs2 ltac:(lia)). pose proof (icmp_antisym C (largest g) (largest h0)). lia. }
    intros f [Hf|Hf]%elem_of_app; [|by apply H1]. apply user_file_lt. destruct (Hcov f Hf) as [Hc%InternalKeyCompare_user _].
    exact (Compare_lt_le_trans (file_limit g) lo (file_start f) Hside Hc).
  - assert (∀ f, f ∈ base ++ extra → file_lt f g) as H1.
    { destruct (Hsp g Hg Hnot) as [H|H]; [|done]. destruct base as [|h0 base']; [rewrite Hemp by done; by intros f ?%not_elem_of_nil|]. exfalso.
      destruct (side_of _ lo hi g h0 Hs Hg (B2 h0 ltac:(left)) (Ho h0 ltac:(left))) as [_ Hs1]. specialize (Hs1 Hside).
      pose proof (H h0 ltac:(left)) as Hs2. unfold file_lt in Hs1, Hs2. rewrite Forall_forall in Hok. pose proof (fo_order C h0 (Hok h0 (B2 h0 ltac:(left)))). pose proof (fo_order C g (Hok g Hg)).
      pose proof (icmp_lt_le_trans C _ _ (largest g) Hs1 ltac:(lia)) as H3. pose proof (icmp_lt_le_trans C _ _ (largest h0) Hs2 ltac:(lia)). pose proof (icmp_antisym C (largest h0) (largest g)). lia. }
    intros f [Hf|Hf]%elem_of_app; [|by apply H1]. apply user_file_lt. destruct (Hcov f Hf) as [_ Hc%InternalKeyCompare_user].
    exact (Compare_le_lt_trans (file_limit f) hi (file_start g) Hc Hside).
Qed.

Lemma convex_splits lf files : convex lf [] files → splits lf files.
Proof. done. Qed.

(** *** Inputs that hang together *)

(** A set of files that contains every file of the two levels that meets the range
    between two of its files. *)
Definition grown (v : Version) (level : nat) (P : FileMetaData → Prop) : Prop :=
  ∀ p q f, f ∈ level_files v level ∨ f ∈ level_files v (level + 1) → P p → P q →
    @Compare C (file_start f) (file_limit p) <= 0 → @Compare C (file_start q) (file_limit f) <= 0 → P f.

Section grown.
  Context (v : Version) (level lvl : nat) (P : FileMetaData → Prop).
  Hypothesis Hv : searchable C v.
  Hypothesis Hlvl : lvl = level ∨ lvl = (level + 1)%nat.
  Hypothesis HP : grown v level P.

Lemma level_grown f : f ∈ level_files v lvl → f ∈ level_files v level ∨ f ∈ level_files v (level + 1).
Proof using Hlvl. intros Hf. destruct Hlvl as [E|E]; rewrite E in Hf; [by left|by right]. Qed.

Lemma boundary_loop_grown fuel : ∀ files k r, (∀ g, g ∈ files → g ∈ level_files v lvl ∧ P g) → FindLargestKey C files = Some k →
  boundary_loop C fuel (level_files v lvl) files k = Some r → ∀ f, f ∈ r → P f.
Proof using All.
  induction fuel as [|fuel IH]; intros files k r Hfiles Hk; [done|]. cbn [boundary_loop].
  pose proof (FindSmallestBoundaryFile_spec (level_files v lvl) k) as Hspec. destruct (FindSmallestBoundaryFile C (level_files v lvl) k) as [f|]; [|intros [= <-] f Hf; by apply Hfiles].
  destruct Hspec as [Hf Hb]. destruct (Hv lvl) as (Hok & _). rewrite Forall_forall in Hok. pose proof Hb as [Hgt Heq%Z.eqb_eq]%andb_true_iff.
  destruct (FindLargestKey_max files k Hk) as [(g & Hg & <-) _]. destruct (Hfiles g Hg) as [Hgl HPg]. fold (file_limit g) in Heq.
  apply IH.
  - intros h [Hh|Hh]%elem_of_app; [by apply Hfiles|]. apply list_elem_of_singleton in Hh as ->. split; [done|].
    apply (HP g g f); [by apply level_grown|done|done|lia|].
    pose proof (file_ok_user C g (Hok g Hgl)). pose proof (file_ok_user C f (Hok f Hf)). pose proof (Compare_antisym (file_start f) (file_limit g)).
    pose proof (Compare_trans (file_start g) (file_limit g) (file_start f)). pose proof (Compare_trans (file_start g) (file_start f) (file_limit f)). lia.
  - rewrite (FindLargestKey_snoc files f (largest g) Hk). rewrite Z.gtb_ltb in Hgt |- *. apply Z.ltb_lt in Hgt.
    pose proof (fo_order C f (Hok f Hf)). destruct (Z.ltb_spec 0 (InternalKeyCompare C (largest f) (largest g))); [done|]. pose proof (icmp_trans C (smallest f) (largest f) (largest g)). lia.
Qed.

Lemma AddBoundaryInputs_grown files r : (∀ g, g ∈ files → g ∈ level_files v lvl) → (∀ g, g ∈ files → P g) →
  AddBoundaryInputs C (level_files v lvl) files = Some r → ∀ f, f ∈ r → P f.
Proof using All.
  intros Hsub Hfiles. unfold AddBoundaryInputs. destruct (FindLargestKey C files) as [k|] eqn:Ek; [|by intros [= <-]]. apply boundary_loop_grown; [auto|done].
Qed.

Lemma GetOverlappingInputs_grown files r : files ≠ [] → (∀ g, g ∈ files → P g) →
  GetOverlappingInputs C v lvl (Some (GetRange C files).1) (Some (GetRange C files).2) = Some r → ∀ f, f ∈ r → P f.
Proof using All.
  intros Hne Hfiles E. destruct (Hv lvl) as (Hok & _).
  destruct (GetOverlappingInputs_spec C v lvl (Some (GetRange C files).1) (Some (GetRange C files).2) Hok) as (inputs & E' & _ & _ & _ & Hmin & _).
  rewrite E in E'. injection E' as <-. apply Hmin. destruct files as [|f0 files]; [done|].
  destruct (GetRange_bounds (f0 :: files) f0 ltac:(left)) as [(q & Hq & Eq) (p & Hp & Ep)]. rewrite Eq, Ep. cbn [fmap option_fmap option_map].
  fold (file_start q) (file_limit p). split.
  - intros f Hf [H1 H2]. specialize (H1 _ eq_refl). specialize (H2 _ eq_refl). pose proof (Compare_antisym (file_limit p) (file_start f)).
    apply (HP p q f); [by apply level_grown|auto|auto|lia|done].
  - intros f g Hf Hg HPf [T1 T2]. apply (HP f f g); [by apply level_grown|done..].
Qed.

Lemma overlapping_with_boundary_grown files r : files ≠ [] → (∀ g, g ∈ files → P g) →
  overlapping_with_boundary C v lvl (GetRange C files) = Some r → ∀ f, f ∈ r → P f.
Proof using All.
  intros Hne Hfiles. unfold overlapping_with_boundary. destruct (Hv lvl) as (Hok & _).
  destruct (GetOverlappingInputs_spec C v lvl (Some (GetRange C files).1) (Some (GetRange C files).2) Hok) as (inputs & E & _ & Hsub & _).
  rewrite E. cbn [mbind option_bind]. apply AddBoundaryInputs_grown; [done|]. by apply (GetOverlappingInputs_grown files).
Qed.

End grown.

(** What the chosen inputs satisfy. *)
Record inputs_ok (v : Version) (level : nat) (start inputs0 inputs1 : list FileMetaData) : Prop := {
  io_keep f : f ∈ start → f ∈ inputs0;
  io_sub0 f : f ∈ inputs0 → f ∈ level_files v level;
  io_sub1 f : f ∈ inputs1 → f ∈ level_files v (level + 1);
  io_next f : f ∈ level_files v (level + 1) → in_range inputs0 f → f ∈ inputs1;
  io_boundary0 : no_boundary (level_files v level) inputs0;
  io_boundary1 : no_boundary (level_files v (level + 1)) inputs1;
  io_closed : level = 0%nat → closed_in (level_files v level) start → closed_in (level_files v level) inputs0;
  io_splits : (0 < level)%nat → splits (level_files v level) start → splits (level_files v level) inputs0;
  io_convex : convex (level_files v (level + 1)) inputs0 inputs1;
  io_grown P : grown v level P → (∀ f, f ∈ start → P f) → ∀ f, f ∈ inputs0 ++ inputs1 → P f;
}.

Lemma expand_inputs_spec max v level start inputs0 inputs1 : searchable C v → inputs0 ≠ [] → inputs_ok v level start inputs0 inputs1 →
  ∃ r, expand_inputs C max v level inputs0 inputs1 (GetRange2 C inputs0 inputs1) = Some r ∧
    match r with Some (e0, e1, range) => inputs_ok v level start e0 e1 ∧ range = GetRange C e0 | None => True end.
Proof using L.
  intros Hv Hne Hio. unfold expand_inputs. destruct (overlapping_with_boundary_spec v level (GetRange2 C inputs0 inputs1) Hv) as (e0 & E0 & S0 & O0 & B0 & C0).
  rewrite E0. cbn [mbind option_bind]. destruct (_ && _) eqn:Elen; [|by exists None]. apply andb_true_iff in Elen as [Elen%Nat.ltb_lt _].
  destruct (overlapping_with_boundary_spec v (level + 1) (GetRange C e0) Hv) as (e1 & E1 & S1 & O1 & B1 & _). rewrite E1. cbn [mbind option_bind].
  eexists. split; [done|]. destruct (length e1 =? length inputs1)%nat; [|done]. split; [|done].
  split; try done; [|intros E _; by apply C0|intros Hl _; apply convex_splits; eapply overlapping_with_boundary_convex; [done|done|exact E0|by intros f ?%not_elem_of_nil]
    |eapply overlapping_with_boundary_convex; [done|lia|exact E1|intros f Hf; by apply GetRange_covers]|].
  2: { intros P HP Hstart. pose proof (io_grown _ _ _ _ _ Hio P HP Hstart) as Hall.
    assert (∀ f, f ∈ e0 → P f) as H0 by (eapply (overlapping_with_boundary_grown v level level P Hv ltac:(by left) HP (inputs0 ++ inputs1)); [by destruct inputs0|done|exact E0]).
    intros f [Hf|Hf]%elem_of_app; [by apply H0|]. revert f Hf.
    eapply (overlapping_with_boundary_grown v level (level + 1) P Hv ltac:(by right) HP e0); [intros ->; cbn in Elen; lia|done|exact E1]. }
  intros f Hf. apply (io_keep _ _ _ _ _ Hio) in Hf. apply O0; [by apply (io_sub0 _ _ _ _ _ Hio)|].
  destruct (Hv level) as (Hok & _). apply covers_overlaps; [|by apply (proj1 (Forall_forall _ _) Hok), (io_sub0 _ _ _ _ _ Hio)].
  apply GetRange_covers. apply elem_of_app. by left.
Qed.

End boundary.

(** ** Base levels *)

Section base_level.
  Context (C : Comparator) {L : ComparatorLaws C}.

(** The user key lies in the range of the file. *)
Definition in_file (u : bytes) (f : FileMetaData) : Prop :=
  @Compare C (file_start f) u <= 0 ∧ @Compare C u (file_limit f) <= 0.

(** Some file below the output level may hold the key. *)
Definition deeper (v : Version) (level : nat) (u : bytes) : Prop :=
  ∃ lvl f, (level + 2 <= lvl < num_levels)%nat ∧ f ∈ level_files v lvl ∧ in_file u f.

(** The files that the pointer has passed end before the key. *)
Definition passed (u : bytes) (ptr : nat) (files : list FileMetaData) : Prop :=
  ∀ i f, (i < ptr)%nat → files !! i = Some f → 0 < @Compare C u (file_limit f).

Lemma passed_mono u u' ptr files : @Compare C u u' <= 0 → passed u ptr files → passed u' ptr files.
Proof using L.
  intros Hle Hp i f Hi Hf. specialize (Hp i f Hi Hf). pose proof (Compare_antisym u (file_limit f)). pose proof (Compare_antisym u' (file_limit f)).
  pose proof (Compare_lt_le_trans (file_limit f) u u'). lia.
Qed.

Lemma base_level_scan_spec u files : level_sorted C files → ∀ fuel ptr, (length files - ptr = fuel)%nat → passed u ptr files →
  let '(hit, ptr') := base_level_scan C u (drop ptr files) ptr in
  passed u ptr' files ∧ (hit = true ↔ ∃ f, f ∈ files ∧ in_file u f).
Proof using L.
  intros Hs. induction fuel as [|fuel IH]; intros ptr Hf Hp.
  - rewrite drop_ge by lia. cbn [base_level_scan]. split; [done|]. split; [done|].
    intros (f & [i Hi]%list_elem_of_lookup_1 & _ & Hle). pose proof (lookup_lt_Some _ _ _ Hi). specialize (Hp i f ltac:(lia) Hi). lia.
  - destruct (lookup_lt_is_Some_2 files ptr) as [f Hfp]; [lia|]. rewrite (drop_S _ f) by done. cbn [base_level_scan].
    destruct (Z.leb_spec (@Compare C u (file_limit f)) 0) as [Hle|Hgt].
    + split; [done|]. rewrite Z.geb_le. pose proof (Compare_antisym u (file_start f)) as Ha. split.
      * intros Hge. exists f. split; [by eapply list_elem_of_lookup_2|]. split; lia.
      * intros (g & [j Hj]%list_elem_of_lookup_1 & Hg1 & Hg2). destruct (Nat.lt_trichotomy j ptr) as [Hlt|[->|Hgt]].
        -- specialize (Hp j g Hlt Hj). lia.
        -- assert (g = f) as -> by congruence. lia.
        -- pose proof (lv_disjoint C files Hs ptr j f g Hgt Hfp Hj) as Hd.
           assert (@Compare C (file_limit f) (file_start g) <= 0) as Hd' by (apply InternalKeyCompare_user; lia).
           pose proof (file_ok_user C f (Forall_lookup_1 _ _ _ _ (lv_ok C files Hs) Hfp)).
           pose proof (Compare_trans (file_start f) (file_limit f) (file_start g)). pose proof (Compare_trans (file_start f) (file_start g) u). lia.
    + apply IH; [lia|]. intros i g Hi Hg. destruct (decide (i = ptr)) as [->|]; [assert (g = f) as -> by congruence; lia|]. apply (Hp i g); [lia|done].
Qed.

Definition ptrs_ok (v : Version) (u : bytes) (ptrs : list nat) : Prop :=
  length ptrs = num_levels ∧ ∀ lvl ptr, ptrs !! lvl = Some ptr → passed u ptr (level_files v lvl).

Lemma base_level_loop_spec v u levels : (∀ lvl, (0 < lvl)%nat → level_sorted C (level_files v lvl)) → Forall (λ l, (0 < l < num_levels)%nat) levels →
  ∀ ptrs, ptrs_ok v u ptrs →
  let '(r, ptrs') := base_level_loop C v u ptrs levels in
  ptrs_ok v u ptrs' ∧ (r = true ↔ ¬ ∃ lvl f, lvl ∈ levels ∧ f ∈ level_files v lvl ∧ in_file u f).
Proof using L.
  intros Hv. induction levels as [|lvl levels IH]; intros Hl ptrs Hp; cbn [base_level_loop].
  { split; [done|]. split; [|done]. intros _ (l & f & ?%not_elem_of_nil & _). done. }
  apply Forall_cons in Hl as [Hlvl Hl]. destruct Hp as [Hlen Hp]. destruct (lookup_lt_is_Some_2 ptrs lvl) as [ptr Hptr]; [lia|].
  rewrite Hptr. cbn [default]. pose proof (base_level_scan_spec u (level_files v lvl) (Hv lvl ltac:(lia)) _ ptr eq_refl (Hp lvl ptr Hptr)) as Hs.
  cbn [from_option id]. unfold id. destruct (base_level_scan C u _ ptr) as [hit ptr']. destruct Hs as [Hpass Hhit].
  assert (ptrs_ok v u (<[lvl := ptr']> ptrs)) as Hp'.
  { split; [by rewrite length_insert|]. intros l p Hlp. destruct (decide (l = lvl)) as [->|Hne].
    - rewrite list_lookup_insert_eq in Hlp by lia. by injection Hlp as <-.
    - rewrite list_lookup_insert_ne in Hlp by done. by apply Hp. }
  destruct hit.
  - split; [done|]. split; [done|]. intros Hn. exfalso. apply Hn. destruct (proj1 Hhit eq_refl) as (f & Hf & Hin). exists lvl, f. split_and!; [left|done|done].
  - specialize (IH Hl _ Hp'). destruct (base_level_loop C v u _ levels) as [r ptrs']. destruct IH as [IH1 IH2]. split; [done|]. rewrite IH2. split.
    + intros Hn (l & f & [->|Hlin]%elem_of_cons & Hf & Hin); [|apply Hn; eauto]. assert (false = true); [|done]. apply Hhit. eauto.
    + intros Hn (l & f & Hlin & Hf & Hin). apply Hn. exists l, f. split_and!; [by right|done|done].
Qed.

(** The answers to a sequence of questions. *)
Fixpoint base_queries (v : Version) (c : Compaction) (keys : list bytes) : list bool :=
  match keys with
  | [] => []
  | k :: keys => let '(b, c) := IsBaseLevelForKey C v c k in b :: base_queries v c keys
  end.

End base_level.

(** ** Properties *)

Section properties.
  Context (C : Comparator) {L : ComparatorLaws C}.

Lemma SetupOtherInputs_spec (max_file_size : Z) (v : Version) (cp : list bytes) (c : Compaction) :
  searchable C v → inputs_0 c ≠ [] → (∀ f, f ∈ inputs_0 c → f ∈ level_files v (level_ c)) →
  ∃ c' cp', SetupOtherInputs C max_file_size v cp c = Some (c', cp') ∧ level_ c' = level_ c ∧ level_ptrs_ c' = level_ptrs_ c ∧ deleted_files_ (edit_ c') = deleted_files_ (edit_ c) ∧ new_files_ (edit_ c') = new_files_ (edit_ c) ∧
    inputs_ok C v (level_ c) (inputs_0 c) (inputs_0 c') (inputs_1 c') ∧
    cp' = <[level_ c := (GetRange C (inputs_0 c')).2]> cp.
Proof using L.
  intros Hv Hne Hsub. destruct (Hv (level_ c)) as (Hok & _). unfold SetupOtherInputs.
  destruct (AddBoundaryInputs_spec C (level_files v (level_ c)) (inputs_0 c) Hok) as (extra & E & H1 & H2). rewrite E. cbn [mbind option_bind].
  destruct (overlapping_with_boundary_spec C v (level_ c + 1) (GetRange C (inputs_0 c ++ extra)) Hv) as (inputs1 & E1 & S1 & O1 & B1 & _). rewrite E1. cbn [mbind option_bind].
  assert (inputs_ok C v (level_ c) (inputs_0 c) (inputs_0 c ++ extra) inputs1) as Hio.
  { split; try done; [intros f Hf; apply elem_of_app; by left|intros f [?|?]%elem_of_app; auto|..].
    - intros _ Hc. rewrite (closed_no_boundary C _ _ Hok Hsub Hc) in E. injection E as E. by rewrite <-E.
    - intros Hl Hsp. eapply (AddBoundaryInputs_splits C); [by apply Hv| |exact Hsp|exact E]. done.
    - eapply (overlapping_with_boundary_convex C); [done|lia|exact E1|]. intros f Hf. by apply (GetRange_covers C).
    - intros P HP Hstart. assert (∀ f, f ∈ inputs_0 c ++ extra → P f) as H0 by (by eapply (AddBoundaryInputs_grown C v (level_ c) (level_ c) P Hv ltac:(by left) HP (inputs_0 c))).
      intros f [Hf|Hf]%elem_of_app; [by apply H0|]. revert f Hf.
      eapply (overlapping_with_boundary_grown C v (level_ c) (level_ c + 1) P Hv ltac:(by right) HP (inputs_0 c ++ extra)); [by destruct (inputs_0 c)|done|exact E1]. }
  assert (∃ r, (if decide (inputs1 = []) then Some None
     else expand_inputs C max_file_size v (level_ c) (inputs_0 c ++ extra) inputs1 (GetRange2 C (inputs_0 c ++ extra) inputs1)) = Some r ∧
    match r with Some (e0, e1, range) => inputs_ok C v (level_ c) (inputs_0 c) e0 e1 ∧ range = GetRange C e0 | None => True end) as (r & -> & Hr).
  { destruct (decide (inputs1 = [])); [by exists None|]. apply (expand_inputs_spec C); [done|by destruct (inputs_0 c)|done]. }
  cbn [mbind option_bind].
  assert (∀ all, is_Some (if (level_ c + 2 <? num_levels)%nat then GetOverlappingInputs C v (level_ c + 2) (Some (fst all)) (Some (snd all)) else Some (grandparents_ c))) as Hgp.
  { intros all. destruct (level_ c + 2 <? num_levels)%nat; [|eauto].
    destruct (GetOverlappingInputs_spec C v (level_ c + 2) (Some (fst all)) (Some (snd all)) (proj1 (Hv _))) as (inputs & -> & _). eauto. }
  destruct r as [[[e0 e1] range]|]; cbv beta iota zeta delta [from_option id].
  - destruct (Hgp (GetRange2 C e0 e1)) as [gp ->]. cbn [mbind option_bind]. destruct Hr as [Hr ->]. eexists _, _. by split_and!.
  - destruct (Hgp (GetRange2 C (inputs_0 c ++ extra) inputs1)) as [gp ->]. cbn [mbind option_bind]. eexists _, _. by split_and!.
Qed.

(** C21: The inputs of a compaction are complete.  Starting from some files of a level,
    the setup ends and keeps them; it takes every file of the next level whose user
    keys meet the range of the inputs, so that the output can replace them; in both
    levels no boundary file is left behind, that is, no file that continues the user
    key at which the inputs end; a closed choice of level-0 files stays closed; no file
    of the next level lies in a gap between inputs of that level, and a choice that
    splits its level into what is before and behind it keeps doing so.  Nothing is
    taken without reason: the inputs are in every set of files that holds the chosen
    files and all files of the two levels that meet a range between two of its files.
    Growing the inputs does not break any of this, and the next compaction of the level
    will start behind the largest input key. *)
Theorem compaction_inputs_complete (max_file_size : Z) (v : Version) (cp : list bytes) (c : Compaction) :
  searchable C v → inputs_0 c ≠ [] → (∀ f, f ∈ inputs_0 c → f ∈ level_files v (level_ c)) →
  ∃ c' cp', SetupOtherInputs C max_file_size v cp c = Some (c', cp') ∧ level_ c' = level_ c ∧
    inputs_ok C v (level_ c) (inputs_0 c) (inputs_0 c') (inputs_1 c') ∧
    cp' = <[level_ c := (GetRange C (inputs_0 c')).2]> cp.
Proof using L.
  intros Hv Hne Hsub. destruct (SetupOtherInputs_spec max_file_size v cp c Hv Hne Hsub) as (c' & cp' & E & H1 & _ & _ & _ & H2 & H3). eauto 10.
Qed.

(** C40: [IsBaseLevelForKey] keeps a pointer per level instead of searching, and is
    still exact: asked for user keys in ascending order, as a compaction meets them,
    it answers true precisely when no file of a level below the output level has the
    key in its range, so that a deletion marker may be dropped. *)
Theorem base_level_exact (v : Version) (c : Compaction) (keys : list bytes) :
  (∀ lvl, (0 < lvl)%nat → level_sorted C (level_files v lvl)) → level_ptrs_ c = replicate num_levels 0%nat →
  (∀ i j a b, (i < j)%nat → keys !! i = Some a → keys !! j = Some b → @Compare C a b <= 0) →
  ∀ i k, keys !! i = Some k → ∃ b, base_queries C v c keys !! i = Some b ∧ (b = true ↔ ¬ deeper C v (level_ c) k).
Proof using L.
  intros Hv Hptrs Hsort.
  assert (∀ j k, keys !! j = Some k → ptrs_ok C v k (level_ptrs_ c)) as Hok.
  { intros j k _. rewrite Hptrs. split; [by rewrite length_replicate|]. intros lvl ptr [-> _]%lookup_replicate. intros i f Hi. lia. }
  clear Hptrs. revert c Hok Hsort. induction keys as [|k0 keys IH]; intros c Hok Hsort i k; [done|].
  assert (∀ j b, keys !! j = Some b → @Compare C k0 b <= 0) as Hk0 by (intros j b Hj; apply (Hsort 0%nat (S j)); [lia|done|done]).
  cbn [base_queries]. unfold IsBaseLevelForKey.
  pose proof (base_level_loop_spec C v k0 (seq (level_ c + 2) (num_levels - (level_ c + 2))) Hv) as Hs.
  specialize (Hs ltac:(apply Forall_forall; intros l Hl%elem_of_seq; lia) (level_ptrs_ c) (Hok 0%nat k0 eq_refl)).
  destruct (base_level_loop C v k0 (level_ptrs_ c) _) as [r ptrs]. destruct Hs as [Hp Hr]. destruct i as [|i].
  - intros [= <-]. exists r. split; [done|]. rewrite Hr. unfold deeper. setoid_rewrite elem_of_seq.
    split; intros Hn (l & f & Hl & H); apply Hn; exists l, f; (split; [lia|done]).
  - intros Hi. apply (IH (set_level_ptrs c ptrs)); [| |done].
    + intros j b Hj. destruct Hp as [Hlen Hp]. split; [done|]. intros lvl ptr Hptr. eapply (passed_mono C k0); [by eapply Hk0|by apply Hp].
    + intros a b x y Hab Hx Hy. apply (Hsort (S a) (S b)); [lia|done|done].
Qed.

End properties.

Lemma compaction_inputs_complete_witness :
  ∃ c' cp', SetupOtherInputs BytewiseComparator 2097152 Example.version (replicate num_levels [])
      (NewCompaction 2097152 0 (Some Example.version) [Example.f0]) = Some (c', cp') ∧ Example.f1 ∈ inputs_1 c'.
Proof.
  destruct (compaction_inputs_complete BytewiseComparator 2097152 Example.version (replicate num_levels [])
    (NewCompaction 2097152 0 (Some Example.version) [Example.f0]) example_searchable ltac:(done)) as (c' & cp' & E & _ & Hio & _).
  { intros f Hf. apply list_elem_of_singleton in Hf as ->. left. }
  exists c', cp'. split; [exact E|]. apply (io_next _ _ _ _ _ _ Hio); [left|].
  assert (Example.f0 ∈ inputs_0 c') as H0 by (apply (io_keep _ _ _ _ _ _ Hio); left).
  pose proof (GetRange_covers BytewiseComparator _ _ H0) as [Hc1 Hc2].
  split; intros k [= <-].
  - exact (InternalKeyCompare_user BytewiseComparator _ _ Hc1).
  - pose proof (InternalKeyCompare_user BytewiseComparator _ _ Hc2) as Hu.
    pose proof (Compare_antisym (C := BytewiseComparator) (ExtractUserKey (largest Example.f0)) (ExtractUserKey (GetRange BytewiseComparator (inputs_0 c')).2)) as Ha.
    change (file_start Example.f1) with (ExtractUserKey (largest Example.f0)). lia.
Defined.

(** Level 2 holds a file for [a]. *)
Lemma base_level_exact_witness :
  let v := MkVersion 1 [[]; []; [Example.f1]; []; []; []; []] None (-1) minus_one (-1) in
  base_queries BytewiseComparator v (NewCompaction 2097152 0 (Some v) []) [[x60]; [x61]; [x62]] = [true; false; true] ∧
  ∃ b, base_queries BytewiseComparator v (NewCompaction 2097152 0 (Some v) []) [[x60]; [x61]; [x62]] !! 1%nat = Some b ∧
    (b = true ↔ ¬ deeper BytewiseComparator v 0 [x61]).
Proof.
  intros v. split; [by vm_compute|].
  apply (base_level_exact BytewiseComparator v (NewCompaction 2097152 0 (Some v) []) [[x60]; [x61]; [x62]]) with (i := 1%nat); [|done| |done].
  - intros lvl Hl. pose proof (vo_sorted _ _ _ _ Example.example_ok 1%nat ltac:(lia)) as H1.
    pose proof (vo_sorted _ _ _ _ Example.example_ok 2%nat ltac:(lia)) as H2.
    destruct lvl as [|[|[|[|[|[|[|lvl]]]]]]]; [lia|exact H2|exact H1|exact H2|exact H2|exact H2|exact H2|exact H2].
  - intros [|[|[|i]]] [|[|[|j]]] a b Hij Ha Hb; cbn in Ha, Hb; try done; try lia; injection Ha as <-; injection Hb as <-; vm_compute; done.
Defined.
