(* ===== verification/DbCompaction.v ===== *)
(** * Doing a compaction (src/db/db_impl.cc: DBImpl::DoCompactionWork and the
      functions it calls)

    The loop reads the merged input, decides which entries are obsolete and writes
    the others to table files.  What the loop reads from outside is an argument: the
    entries of the input iterator and its status, the statuses and sizes of the
    files it writes ([OutputIO]), the file numbers that the version set hands out,
    and the load of [shutting_down_] from which on the flag is set.  [compact_entry] is
    what the loop does with one entry; [compact_loop] is the loop on its own, without
    what happens to the database while the mutex is released.  The loop with the
    flushes of memtables that it does between two entries, and with the other threads,
    is [DbImpl.work_loop]; it does the same with each entry.

    [tables] holds the files that were finished; the pointers [outfile] and
    [builder] of the source are set together and are one field here. *)

From Stdlib Require Import String.
From stdpp Require Import gmap.
From Stdlib Require Import SpecFloat Sorted.
From S2P Require Import Prelude Coding Status Comparator DbFormat VersionEdit Arena Random SkipList MemTable Version Compaction.

Notation entry := (bytes * bytes)%type (only parsing).

(** ** State *)

Record Output := MkOutput { out_number : Z; out_file_size : Z; out_smallest : bytes; out_largest : bytes }.

Record CompactionState := MkCompactionState {
  compaction : Compaction;
  smallest_snapshot : Z;
  outputs : list Output;
  builder : option (list entry);
  total_bytes : Z;
}.

Definition NewCompactionState (c : Compaction) : CompactionState := MkCompactionState c 0 [] None 0.

(** The compaction, the files that must not be deleted, the files written. *)
Record Job := MkJob {
  compact : CompactionState;
  pending_outputs_ : gset Z;
  tables : list (Z * list entry);
}.

(** Statuses of the operations on the file with a number, and the size of a table
    file while it is built and when it is finished. *)
Record OutputIO := MkOutputIO {
  io_open : Z → Status;
  io_finish : Z → Status;
  io_sync : Z → Status;
  io_close : Z → Status;
  io_verify : Z → Status;
  io_size : list entry → Z;
  io_final_size : list entry → Z;
}.

(** The variables of the loop that describe the entry before. *)
Record KeyState := MkKeyState {
  current_user_key : bytes;
  has_current_user_key : bool;
  last_sequence_for_key : Z;
}.

Definition NewKeyState : KeyState := MkKeyState [] false kMaxSequenceNumber.

(** ** Updates *)

Definition with_compaction (j : Job) (c : Compaction) : Job :=
  let st := compact j in
  MkJob (MkCompactionState c (smallest_snapshot st) (outputs st) (builder st) (total_bytes st)) (pending_outputs_ j) (tables j).

(** [*current_output()] is the last one. *)
Definition on_current (f : Output → Output) (l : list Output) : list Output := alter f (length l - 1)%nat l.

Definition current_output (st : CompactionState) : option Output := last (outputs st).

Section Work.
  Context (C : Comparator) (max_file_size : Z) (io : OutputIO) (new_file_number : nat → Z).
  Context (input_status : list entry → Status) (shutdown_at : option nat).

(** The flag as the [n]th load sees it; it is never reset. *)
Definition shutting_down (n : nat) : bool := match shutdown_at with Some k => (k <=? n)%nat | None => false end.

(** ** Output files *)

Definition OpenCompactionOutputFile (j : Job) : Status * Job :=
  let st := compact j in
  let file_number := new_file_number (length (outputs st)) in
  let s := io_open io file_number in
  (s, MkJob (MkCompactionState (compaction st) (smallest_snapshot st) (outputs st ++ [MkOutput file_number 0 [] []])
               (if ok s then Some [] else None) (total_bytes st))
            ({[file_number]} ∪ pending_outputs_ j) (tables j)).

(** [rest] are the entries that the input has left. *)
Definition FinishCompactionOutputFile (rest : list entry) (j : Job) : Status * Job :=
  let st := compact j in
  let entries := default [] (builder st) in
  let output_number := from_option out_number 0 (current_output st) in
  let s := input_status rest in
  let '(finished, s, current_bytes) :=
    if ok s then (ok (io_finish io output_number), io_finish io output_number, io_final_size io entries)
    else (false, s, io_size io entries) in
  let s := if ok s then io_sync io output_number else s in
  let s := if ok s then io_close io output_number else s in
  let s := if ok s && negb (bool_decide (entries = [])) then io_verify io output_number else s in
  (s, MkJob (MkCompactionState (compaction st) (smallest_snapshot st)
               (on_current (λ o, MkOutput (out_number o) current_bytes (out_smallest o) (out_largest o)) (outputs st))
               None (u64 (total_bytes st + current_bytes)))
            (pending_outputs_ j)
            (if finished then tables j ++ [(output_number, entries)] else tables j)).

(** ** One entry *)

(** Whether the entry is obsolete. *)
Definition drop_entry (v : Version) (snapshot : Z) (ks : KeyState) (c : Compaction) (key : bytes) : bool * KeyState * Compaction :=
  match ParseInternalKey key with
  | None => (false, NewKeyState, c)
  | Some k =>
      let ks :=
        if negb (has_current_user_key ks) || negb (@Compare C (user_key k) (current_user_key ks) =? 0)
        then MkKeyState (user_key k) true kMaxSequenceNumber else ks in
      let '(drop, c) :=
        if last_sequence_for_key ks <=? snapshot then (true, c)
        else if bool_decide (type k = kTypeDeletion) && (sequence k <=? snapshot) then IsBaseLevelForKey C v c (user_key k)
        else (false, c) in
      (drop, MkKeyState (current_user_key ks) (has_current_user_key ks) (sequence k), c)
  end.

(** The entry goes to the open output file, which is opened first if there is none
    and closed if it is big enough. *)
Definition write_entry (rest : list entry) (key value : bytes) (j : Job) : Status * Job :=
  let '(s, j) := match builder (compact j) with Some _ => (Status_OK, j) | None => OpenCompactionOutputFile j end in
  if ok s then
    let st := compact j in
    let entries := default [] (builder st) in
    let first := bool_decide (entries = []) in
    let j := MkJob (MkCompactionState (compaction st) (smallest_snapshot st)
                      (on_current (λ o, MkOutput (out_number o) (out_file_size o) (if first then key else out_smallest o) key) (outputs st))
                      (Some (entries ++ [(key, value)])) (total_bytes st))
                   (pending_outputs_ j) (tables j) in
    if io_size io (entries ++ [(key, value)]) >=? max_output_file_size_ (compaction st)
    then FinishCompactionOutputFile rest j
    else (Status_OK, j)
  else (s, j).

(** What the loop does with an entry; [input] are the entries from it on. *)
Definition compact_entry (v : Version) (ks : KeyState) (j : Job) (key value : bytes) (input : list entry) : Status * KeyState * Job :=
  let '(stop, c) := ShouldStopBefore C max_file_size (compaction (compact j)) key in
  let j := with_compaction j c in
  let '(s, j) :=
    if stop && bool_decide (is_Some (builder (compact j))) then FinishCompactionOutputFile input j else (Status_OK, j) in
  if ok s then
    let '(drop, ks, c) := drop_entry v (smallest_snapshot (compact j)) ks (compaction (compact j)) key in
    let j := with_compaction j c in
    let '(s, j) := if drop then (Status_OK, j) else write_entry input key value j in
    (s, ks, j)
  else (s, ks, j).

(** ** The loop *)

(** [n] loads of [shutting_down_] have been done; the result has the status, the
    number of loads and the entries left. *)
Fixpoint compact_loop (v : Version) (n : nat) (ks : KeyState) (j : Job) (input : list entry) : Status * Job * nat * list entry :=
  match input with
  | [] => (Status_OK, j, n, [])
  | (key, value) :: rest =>
      if shutting_down n then (Status_OK, j, S n, input)
      else
        let '(s, ks, j) := compact_entry v ks j key value input in
        if ok s then compact_loop v (S n) ks j rest else (s, j, S n, input)
  end.

(** ** DoCompactionWork *)

Record CompactionStats := MkCompactionStats { cs_micros : Z; cs_bytes_read : Z; cs_bytes_written : Z }.

Definition NewCompactionStats : CompactionStats := MkCompactionStats 0 0 0.

Definition AddStats (a b : CompactionStats) : CompactionStats :=
  MkCompactionStats (i64 (cs_micros a + cs_micros b)) (i64 (cs_bytes_read a + cs_bytes_read b)) (i64 (cs_bytes_written a + cs_bytes_written b)).

(** [micros] is the time that the clock measured. *)
Definition work_stats (micros : Z) (st : CompactionState) : CompactionStats :=
  MkCompactionStats micros
    (foldl (λ sum f, i64 (sum + file_size f)) 0 (inputs_0 (compaction st) ++ inputs_1 (compaction st)))
    (foldl (λ sum o, i64 (sum + out_file_size o)) 0 (outputs st)).

Definition choose_snapshot (snapshots : list Z) (last_sequence : Z) : Z := default last_sequence (head snapshots).

(** The job before the first entry. *)
Definition start_job (snapshots : list Z) (last_sequence : Z) (j : Job) : Job :=
  let st := compact j in
  MkJob (MkCompactionState (compaction st) (choose_snapshot snapshots last_sequence) (outputs st) (builder st) (total_bytes st))
    (pending_outputs_ j) (tables j).

(** What follows the loop: [down] is the last load of [shutting_down_]. *)
Definition finish_job (down : bool) (s : Status) (j : Job) (rest : list entry) : Status * Job :=
  let s := if ok s && down then IOError (bs "Deleting DB during compaction") [] else s in
  let '(s, j) := if ok s && bool_decide (is_Some (builder (compact j))) then FinishCompactionOutputFile rest j else (s, j) in
  let s := if ok s then input_status rest else s in
  (s, j).

(** The work up to the installation of the results. *)
Definition CompactInput (v : Version) (snapshots : list Z) (last_sequence : Z) (j : Job) (input : list entry) : Status * Job :=
  let '(s, j, n, rest) := compact_loop v 0 NewKeyState (start_job snapshots last_sequence j) input in
  finish_job (shutting_down n) s j rest.

(** ** Installing the results *)

(** What other components are told about an output file. *)
Record OutputCalls := MkOutputCalls {
  oc_set_access_time : option Z;   (* MultiQueue::SetAccessTime *)
  oc_add_sstable : Z * Z;          (* SSTableWorth::AddSSTable: level, access time *)
}.

(** The edit that is logged and applied, and the calls per output.  [access_time] is
    the multi-queue, if there is one; [current] is the current version. *)
Definition InstallCompactionResults (access_time : option (Z → Z)) (current : Version) (store : Store) (j : Job)
    : Compaction * list OutputCalls :=
  let c := compaction (compact j) in
  let c := match access_time with Some t => GetInputTableAccessTime t c | None => c end in
  let level := level_ c in
  let edit := AddInputDeletions c (edit_ c) in
  let edit := foldl (λ e o, AddFile (Z.of_nat (level + 1)) (out_number o) (out_file_size o) (out_smallest o) (out_largest o) e)
                edit (outputs (compact j)) in
  let calls := (λ o, MkOutputCalls
      (if access_time is Some _ then Some (GetNewTableAccessTime C c (out_smallest o) (out_largest o)) else None)
      (Z.of_nat (level + 1), GetAccessTimeFromNewSSTable current store (level + 1))) <$> outputs (compact j) in
  (MkCompaction (level_ c) (max_output_file_size_ c) (input_version_ c) edit (inputs_0 c) (inputs_1 c)
     (access_times_0 c) (access_times_1 c) (grandparents_ c) (grandparent_index_ c) (seen_key_ c) (overlapped_bytes_ c) (level_ptrs_ c),
   calls).

(** The numbers are free for deletion again. *)
Definition CleanupCompaction (j : Job) : gset Z :=
  foldl (λ s o, s ∖ {[out_number o]}) (pending_outputs_ j) (outputs (compact j)).

End Work.

(** ** What is kept *)

Section kept.
  Context (C : Comparator) {L : ComparatorLaws C}.
  Context (v : Version) (level : nat) (snapshot : Z).

(** The entry [w] is hidden from every snapshot by the entry before it. *)
Definition hidden (prev : option Write) (w : Write) : Prop :=
  ∃ p, prev = Some p ∧ @Compare C (wkey p) (wkey w) = 0 ∧ wseq p <= snapshot.

(** The entry is a deletion that all snapshots see, and nothing below needs it. *)
Definition obsolete (w : Write) : Prop :=
  wtype w = kTypeDeletion ∧ wseq w <= snapshot ∧ ¬ deeper C v level (wkey w).

(** [keeps prev ws ks]: of the entries [ws] behind [prev] the entries [ks] are kept. *)
Inductive keeps : option Write → list Write → list Write → Prop :=
  | keeps_nil prev : keeps prev [] []
  | keeps_hidden prev w ws ks : hidden prev w → keeps (Some w) ws ks → keeps prev (w :: ws) ks
  | keeps_obsolete prev w ws ks : ¬ hidden prev w → obsolete w → keeps (Some w) ws ks → keeps prev (w :: ws) ks
  | keeps_keep prev w ws ks : ¬ hidden prev w → ¬ obsolete w → keeps (Some w) ws ks → keeps prev (w :: ws) (w :: ks).

Definition before (w1 w2 : Write) : Prop := InternalKeyCompare C (ikey_of w1) (ikey_of w2) < 0.

Lemma keeps_sub prev ws ks w : keeps prev ws ks → w ∈ ks → w ∈ ws.
Proof. induction 1 as [| | |]; rewrite ?elem_of_cons; naive_solver. Qed.

Lemma keeps_sorted prev ws ks : keeps prev ws ks → StronglySorted before ws → StronglySorted before ks.
Proof.
  induction 1 as [|????? _ IH|?????? _ IH|prev w ws ks ?? Hk IH]; intros Hs; apply StronglySorted_inv in Hs as [Hs Hall] || constructor; auto.
  constructor; [auto|]. apply Forall_forall. intros x Hx. apply (proj1 (Forall_forall _ _) Hall). by eapply keeps_sub.
Qed.

(** Behind an entry that all snapshots see, nothing of its user key is kept. *)
Lemma keeps_shadow prev ws ks p : keeps prev ws ks → prev = Some p → StronglySorted before (p :: ws) → Forall write_ok (p :: ws) →
  wseq p <= snapshot → ∀ w, w ∈ ks → @Compare C (wkey p) (wkey w) ≠ 0.
Proof using L.
  intros Hk. revert p. induction Hk as [prev|prev w ws ks Hh Hk IH|prev w ws ks Hh Ho Hk IH|prev w ws ks Hh Ho Hk IH];
    intros p -> Hs Hok Hp x Hx; [by apply not_elem_of_nil in Hx|..]; apply StronglySorted_inv in Hs as [Hs Hall];
    apply Forall_cons in Hok as [Hpok Hok]; pose proof Hok as [Hwok _]%Forall_cons.
  1,2: pose proof Hs as [Hs' Hall']%StronglySorted_inv; pose proof (keeps_sub _ _ _ _ Hk Hx) as Hxw;
    pose proof (proj1 (Forall_forall _ _) Hall w ltac:(left)) as Hpw; pose proof (proj1 (Forall_forall _ _) Hall' x Hxw) as Hwx;
    apply (ikey_of_lt C) in Hpw, Hwx; rewrite !tag_of in Hpw, Hwx by (apply Hpok || apply Hwok || (apply (proj1 (Forall_forall _ _) Hok); by right));
    destruct Hpw as [Hpw|[Hpw Ht]];
    [destruct Hwx as [Hwx|[Hwx _]]; [pose proof (Compare_lt_le_trans (wkey p) (wkey w) (wkey x))|pose proof (Compare_lt_le_trans (wkey p) (wkey w) (wkey x))]; lia|];
    (assert (wseq w <= snapshot) as Hw by (destruct (wtype p), (wtype w); simpl in Ht; lia));
    pose proof (IH w eq_refl Hs Hok Hw x Hx); pose proof (Compare_eq_l _ _ (wkey x) Hpw); lia.
  assert (@Compare C (wkey p) (wkey w) ≠ 0) as Hne by (intros E; apply Hh; exists p; done).
  pose proof (proj1 (Forall_forall _ _) Hall w ltac:(left)) as Hpw. apply (ikey_of_lt C) in Hpw as [Hpw|[Hpw _]]; [|done].
  apply elem_of_cons in Hx as [->|Hx]; [done|]. pose proof Hs as [Hs' Hall']%StronglySorted_inv.
  pose proof (proj1 (Forall_forall _ _) Hall' x (keeps_sub _ _ _ _ Hk Hx)) as Hwx.
  apply (ikey_of_lt C) in Hwx. pose proof (Compare_lt_le_trans (wkey p) (wkey w) (wkey x)). lia.
Qed.

(** The entry that a snapshot reads is kept, or is an obsolete deletion behind which
    the snapshot reads nothing. *)
Lemma keeps_reads prev ws ks u s w : keeps prev ws ks → StronglySorted before ws → Forall write_ok ws → snapshot <= s →
  w ∈ ws → visible C u s w = true → (∀ x, x ∈ ws → visible C u s x = true → ExtractTag (ikey_of x) <= ExtractTag (ikey_of w)) →
  ¬ hidden prev w → w ∈ ks ∨ obsolete w ∧ ∀ x, x ∈ ks → visible C u s x = false.
Proof using L.
  intros Hk. induction Hk as [prev|prev h ws ks Hh Hk IH|prev h ws ks Hh Ho Hk IH|prev h ws ks Hh Ho Hk IH];
    intros Hs Hok Hsn Hw Hv Hmax Hnh; [by apply not_elem_of_nil in Hw|..].
  all: pose proof Hs as [Hs' Hall]%StronglySorted_inv; pose proof Hok as [Hhok Hok']%Forall_cons.
  all: assert (w ∈ ws → visible C u s h = false ∧ ¬ hidden (Some h) w) as Htail.
  1,3,5: intros Hin; pose proof (proj1 (Forall_forall _ _) Hall w Hin) as Hlt; apply (ikey_of_lt C) in Hlt;
    (assert (visible C u s h = false) as Hvh by (destruct (visible C u s h) eqn:E; [|done]; pose proof (Hmax h ltac:(left) E);
       pose proof (visible_same C _ _ _ _ E Hv); lia)); split; [done|]; intros (p & [= <-] & He & Hseq);
    unfold visible in Hv, Hvh; apply andb_true_iff in Hv as [Hu%Z.eqb_eq _]; pose proof (Compare_eq_l _ _ (wkey h) Hu);
    pose proof (Compare_antisym (wkey h) (wkey w)); apply andb_false_iff in Hvh as [Hvh%Z.eqb_neq|Hvh%Z.leb_gt]; lia.
  all: assert (w ∈ ws → w ∈ ks ∨ obsolete w ∧ ∀ x, x ∈ ks → visible C u s x = false) as Hrec
    by (intros Hin; apply IH; try done; [intros x Hx; apply Hmax; by right|by apply Htail]).
  - apply elem_of_cons in Hw as [->|Hw]; [done|by apply Hrec].
  - apply elem_of_cons in Hw as [->|Hw]; [|by apply Hrec]. right. split; [done|]. intros x Hx.
    pose proof (keeps_shadow _ _ _ h Hk eq_refl Hs Hok ltac:(apply Ho) x Hx) as Hne. unfold visible in Hv |- *.
    apply andb_true_iff in Hv as [Hu%Z.eqb_eq _]. apply andb_false_iff. left. apply Z.eqb_neq. pose proof (Compare_eq_l _ _ (wkey x) Hu). lia.
  - apply elem_of_cons in Hw as [->|Hw]; [left; left|]. destruct (Hrec Hw) as [Hin|[Hob Hnone]]; [left; by right|]. right. split; [done|].
    intros x [->|Hx]%elem_of_cons; [by apply Htail|by apply Hnone].
Qed.

(** What a read answers. *)
Definition answer (o : option Write) : option bytes :=
  match o with Some w => match wtype w with kTypeValue => Some (wvalue w) | kTypeDeletion => None end | None => None end.

(** Reads at a snapshot that is kept do not change when the kept entries replace
    the input between newer entries and entries of the levels below. *)
Lemma keeps_answer above ws ks below u s o : keeps None ws ks → StronglySorted before ws → Forall write_ok ws → snapshot <= s →
  newer C above ws → (∀ w, w ∈ below → deeper C v level (wkey w)) →
  is_newest C (above ++ ws ++ below) u s o → ∃ o', is_newest C (above ++ ks ++ below) u s o' ∧ answer o' = answer o.
Proof using L.
  intros Hk Hs Hok Hsn Habove Hbelow Ho.
  assert (∀ x, x ∈ above ++ ks ++ below → x ∈ above ++ ws ++ below) as Hsub.
  { intros x. rewrite !elem_of_app. intros [?|[?|?]]; [by left|right; left; by eapply keeps_sub|by right; right]. }
  destruct o as [w|]; [|exists None; split; [intros x Hx; by apply Ho, Hsub|done]]. destruct Ho as (Hw & Hv & Hmax).
  assert (w ∈ above ++ ks ++ below → is_newest C (above ++ ks ++ below) u s (Some w)) as Hstay.
  { intros Hin. split; [done|]. split; [done|]. intros x Hx. apply Hmax. by apply Hsub. }
  rewrite !elem_of_app in Hw. destruct Hw as [Hw|[Hw|Hw]].
  1,3: exists (Some w); split; [apply Hstay; rewrite !elem_of_app; naive_solver|done].
  destruct (keeps_reads None ws ks u s w Hk Hs Hok Hsn Hw Hv) as [Hin|[Hob Hnone]].
  - intros x Hx. apply Hmax. rewrite !elem_of_app. by right; left.
  - by intros (? & ? & _).
  - exists (Some w). split; [apply Hstay; rewrite !elem_of_app; naive_solver|done].
  - exists None. destruct Hob as (Hdel & _ & Hno). split; [|cbn; by rewrite Hdel]. intros x. rewrite !elem_of_app.
    destruct (visible C u s x) eqn:Hvx; [|done]. pose proof (visible_same C _ _ _ _ Hvx Hv) as Hsame.
    intros [Hx|[Hx|Hx]]; exfalso.
    + pose proof (Habove x w Hx Hw Hsame). pose proof (Hmax x ltac:(rewrite elem_of_app; by left) Hvx). lia.
    + rewrite (Hnone x Hx) in Hvx. done.
    + apply Hno. destruct (Hbelow x Hx) as (lvl & f & Hl & Hf & H1 & H2). exists lvl, f. split; [done|]. split; [done|].
      pose proof (Compare_eq_l _ _ (file_limit f) Hsame). pose proof (Compare_eq_l _ _ (file_start f) Hsame).
      pose proof (Compare_antisym (wkey x) (file_start f)). pose proof (Compare_antisym (wkey w) (file_start f)). split; lia.
Qed.

End kept.

(** ** The files that are written *)

Section files.
  Context (io : OutputIO) (new_file_number : nat → Z) (input_status : list entry → Status).

(** No operation fails. *)
Record io_fine : Prop := {
  if_open n : io_open io n = Status_OK;
  if_finish n : io_finish io n = Status_OK;
  if_sync n : io_sync io n = Status_OK;
  if_close n : io_close io n = Status_OK;
  if_verify n : io_verify io n = Status_OK;
  if_input rest : input_status rest = Status_OK;
}.

(** An output describes a table: its number and its first and last keys. *)
Definition describes (o : Output) (t : Z * list entry) : Prop :=
  out_number o = t.1 ∧ fst <$> head t.2 = Some (out_smallest o) ∧ fst <$> last t.2 = Some (out_largest o).

(** The table that is being written. *)
Definition open_table (st : CompactionState) : list (Z * list entry) :=
  match builder st with Some es => [(from_option out_number 0 (current_output st), es)] | None => [] end.

(** The entries written so far are [added], in order. *)
Record job_ok (j : Job) (added : list entry) : Prop := {
  jo_files : Forall2 describes (outputs (compact j)) (tables j ++ open_table (compact j));
  jo_added : concat ((tables j ++ open_table (compact j)).*2) = added;
  jo_sizes i o t : outputs (compact j) !! i = Some o → tables j !! i = Some t → out_file_size o = io_final_size io t.2;
}.

(** Two jobs for the same compaction. *)
Definition same_compaction (j j' : Job) : Prop :=
  compaction (compact j') = compaction (compact j) ∧ smallest_snapshot (compact j') = smallest_snapshot (compact j).

Lemma on_current_snoc f l o : on_current f (l ++ [o]) = l ++ [f o].
Proof.
  unfold on_current. rewrite length_app. cbn. replace (length l + 1 - 1)%nat with (length l) by lia. induction l as [|x l IH]; [done|].
  cbn. f_equal. exact IH.
Qed.

Lemma job_ok_open j added es : job_ok j added → builder (compact j) = Some es → ∃ outs o, outputs (compact j) = outs ++ [o] ∧
  Forall2 describes outs (tables j) ∧ describes o (out_number o, es) ∧ added = concat (tables j).*2 ++ es ∧ current_output (compact j) = Some o.
Proof.
  intros [Hf Ha _] Hb. unfold open_table in *. rewrite Hb in Hf, Ha. apply Forall2_app_inv_r in Hf as (outs & l & H1 & H2 & E).
  apply Forall2_cons_inv_r in H2 as (o & l' & Ho & ->%Forall2_nil_inv_r & ->).
  assert (current_output (compact j) = Some o) as Hc by (unfold current_output; by rewrite E, last_snoc).
  rewrite Hc in Ho, Ha. cbn in Ho, Ha. exists outs, o. split; [done|]. split; [done|]. split; [done|]. split; [|done].
  rewrite fmap_app, concat_app in Ha. cbn in Ha. rewrite app_nil_r in Ha. done.
Qed.

Lemma numbers_current f outs o : (∀ o, out_number (f o) = out_number o) →
  out_number <$> on_current f (outs ++ [o]) = out_number <$> (outs ++ [o]).
Proof. intros Hf. rewrite on_current_snoc, !fmap_app. cbn. by rewrite Hf. Qed.

(** The numbers of the outputs after a step: none or one is added, which is pending. *)
Definition numbers_after (j j' : Job) : Prop :=
  (out_number <$> outputs (compact j') = out_number <$> outputs (compact j) ∧ pending_outputs_ j' = pending_outputs_ j) ∨
  (out_number <$> outputs (compact j') = (out_number <$> outputs (compact j)) ++ [new_file_number (length (outputs (compact j)))] ∧
   pending_outputs_ j' = {[new_file_number (length (outputs (compact j)))]} ∪ pending_outputs_ j).

Lemma numbers_on_current f l : (∀ o, out_number (f o) = out_number o) → out_number <$> on_current f l = out_number <$> l.
Proof.
  intros Hf. destruct (last l) as [o|] eqn:E; [|by apply last_None in E as ->]. apply last_Some in E as [outs ->]. by apply numbers_current.
Qed.

Lemma finish_numbers rest j : let j' := (FinishCompactionOutputFile io input_status rest j).2 in
  out_number <$> outputs (compact j') = out_number <$> outputs (compact j) ∧ pending_outputs_ j' = pending_outputs_ j.
Proof.
  unfold FinishCompactionOutputFile. destruct (if ok (input_status rest) then _ else _) as [[finished s] bytes]. cbn [snd compact outputs pending_outputs_].
  split; [|done]. by apply numbers_on_current.
Qed.

Lemma write_numbers rest key value j : numbers_after j (write_entry io new_file_number input_status rest key value j).2.
Proof.
  unfold write_entry. set (r := match builder (compact j) with Some _ => _ | None => _ end).
  assert (numbers_after j r.2) as Hr by (subst r; destruct (builder (compact j)); [by left|right; cbn; by rewrite fmap_app]).
  destruct r as [s j1]. cbn [snd] in Hr. destruct (ok s); [|done]. set (j2 := MkJob _ _ _).
  assert (out_number <$> outputs (compact j2) = out_number <$> outputs (compact j1)) as E2 by by apply numbers_on_current.
  assert (numbers_after j j2) as H2 by (unfold numbers_after in *; by rewrite E2).
  destruct (_ >=? _); [|done]. destruct (finish_numbers rest j2) as [E3 E4]. unfold numbers_after in *. by rewrite E3, E4.
Qed.

(** Without a failure the file is finished; a file that is finished is complete. *)
Lemma finish_output rest j added : job_ok j added → is_Some (builder (compact j)) →
  ∃ s j', FinishCompactionOutputFile io input_status rest j = (s, j') ∧ (io_fine → s = Status_OK) ∧
    (ok s = true → job_ok j' added ∧ same_compaction j j' ∧ builder (compact j') = None).
Proof.
  intros Hj [es Hb]. destruct (job_ok_open _ _ _ Hj Hb) as (outs & o & Eo & Hf & Ho & Ha & Hc).
  unfold FinishCompactionOutputFile. rewrite Hc, Hb. cbn [default from_option]. unfold id.
  destruct (ok (input_status rest)) eqn:E1.
  2: { repeat (rewrite E1; cbn [andb]). eexists _, _. split; [done|]. split; [|by rewrite E1]. intros [_ _ _ _ _ Hi]. by rewrite Hi in E1. }
  destruct (ok (io_finish io (out_number o))) eqn:E2.
  2: { repeat (rewrite E2; cbn [andb]). eexists _, _. split; [done|]. split; [|by rewrite E2]. intros [_ Hi _ _ _ _]. by rewrite Hi in E2. }
  eexists _, _. split; [done|]. split.
  { intros []. rewrite if_sync0. change (ok Status_OK) with true. cbv iota. rewrite if_close0. change (ok Status_OK) with true. cbn [andb]. rewrite if_verify0. by destruct (negb _). }
  intros _. split; [|done]. split; unfold open_table; cbn [compact tables builder outputs]; rewrite ?app_nil_r.
  - rewrite Eo, on_current_snoc. apply Forall2_app; [done|]. constructor; [done|constructor].
  - rewrite fmap_app, concat_app, Ha. cbn. by rewrite app_nil_r.
  - rewrite Eo, on_current_snoc. intros i x t Hx Ht. pose proof (Forall2_length _ _ _ Hf) as El. pose proof (jo_sizes _ _ Hj i) as Hsz. rewrite Eo in Hsz.
    destruct (Nat.lt_ge_cases i (length outs)) as [Hi|Hi].
    + rewrite lookup_app_l in Hx by lia. rewrite lookup_app_l in Ht by lia. apply Hsz; [by rewrite lookup_app_l|done].
    + apply lookup_snoc_Some in Hx as [[? _]|[-> <-]]; [lia|]. apply lookup_snoc_Some in Ht as [[? _]|[_ <-]]; [lia|]. done.
Qed.

Lemma head_snoc {A} (l : list A) x : head (l ++ [x]) = Some (default x (head l)).
Proof. by destruct l. Qed.

Lemma write_output rest key value j added : job_ok j added →
  ∃ s j', write_entry io new_file_number input_status rest key value j = (s, j') ∧ (io_fine → s = Status_OK) ∧
    (ok s = true → job_ok j' (added ++ [(key, value)]) ∧ same_compaction j j').
Proof.
  intros Hj. unfold write_entry.
  set (add := λ (j : Job) (es : list entry) first, MkJob (MkCompactionState (compaction (compact j)) (smallest_snapshot (compact j))
     (on_current (λ o, MkOutput (out_number o) (out_file_size o) (if first : bool then key else out_smallest o) key) (outputs (compact j)))
     (Some (es ++ [(key, value)])) (total_bytes (compact j))) (pending_outputs_ j) (tables j)).
  assert (∃ s1 j1 es, match builder (compact j) with Some _ => (Status_OK, j) | None => OpenCompactionOutputFile io new_file_number j end = (s1, j1) ∧ (io_fine → s1 = Status_OK) ∧
    (ok s1 = true → builder (compact j1) = Some es ∧ same_compaction j j1 ∧ job_ok (add j1 es (bool_decide (es = []))) (added ++ [(key, value)]))) as (s1 & j1 & es & -> & Hf1 & Hok1).
  { destruct (builder (compact j)) as [es|] eqn:Hb.
    - exists Status_OK, j, es. split; [done|]. split; [done|]. intros _. split; [done|]. split; [done|].
      destruct (job_ok_open _ _ _ Hj Hb) as (outs & o & Eo & Hf & (Hn & Hh & Hl) & Ha & Hc).
      unfold add. split; unfold open_table, current_output; cbn [compact tables builder outputs]; rewrite Eo, on_current_snoc, ?last_snoc; cbn [from_option out_number].
      + apply Forall2_app; [done|]. constructor; [|constructor]. split; [done|]. cbn [snd fst out_smallest out_largest] in *. rewrite head_snoc, last_snoc. split; [|done].
        destruct es; [done|]. cbn in *. by injection Hh as ->.
      + rewrite fmap_app, concat_app, Ha. cbn. by rewrite app_nil_r, app_assoc.
      + intros i x t Hx Ht. pose proof (Forall2_length _ _ _ Hf) as El. apply lookup_lt_Some in Ht as Hi. rewrite lookup_app_l in Hx by lia.
        apply (jo_sizes _ _ Hj i); [rewrite Eo, lookup_app_l by lia; done|done].
    - unfold OpenCompactionOutputFile. eexists _, _, []. split; [done|]. split; [intros Hio; apply Hio|]. intros ->. split; [done|]. split; [done|].
      destruct Hj as [Hf Ha Hsz]. unfold open_table in Hf, Ha. rewrite Hb, app_nil_r in Hf, Ha. unfold add. cbn [compact outputs tables pending_outputs_].
      split; unfold open_table, current_output; cbn [compact builder outputs tables pending_outputs_]; rewrite on_current_snoc, ?last_snoc; cbn [from_option out_number app].
      + apply Forall2_app; [done|]. constructor; [done|constructor].
      + rewrite fmap_app, concat_app, Ha. done.
      + intros i x t Hx Ht. pose proof (Forall2_length _ _ _ Hf) as El. apply lookup_lt_Some in Ht as Hi. rewrite lookup_app_l in Hx by lia. by apply (Hsz i). }
  destruct (ok s1) eqn:Es1; [|exists s1, j1; split; [done|]; split; [done|]; by rewrite Es1].
  destruct (Hok1 eq_refl) as (-> & Hs & Hadd). cbn [default from_option]. unfold id. fold (add j1 es (bool_decide (es = []))).
  destruct (io_size io (es ++ [(key, value)]) >=? max_output_file_size_ (compaction (compact j1))).
  - destruct (finish_output rest _ _ Hadd) as (s2 & j2 & -> & Hf2 & Hok2); [done|]. exists s2, j2. split; [done|]. split; [done|].
    intros E2. destruct (Hok2 E2) as (Hj2 & [Hs1 Hs2] & _). split; [done|]. destruct Hs as [Hs3 Hs4]. split; [by rewrite Hs1|by rewrite Hs2].
  - eexists _, _. split; [done|]. split; [done|]. done.
Qed.

End files.

(** ** The loop *)

Section loop.
  Context (C : Comparator) {L : ComparatorLaws C}.
  Context (max_file_size : Z) (io : OutputIO) (new_file_number : nat → Z) (input_status : list entry → Status).
  Context (shutdown_at : option nat).
  Context (v : Version) (Hv : ∀ lvl, (0 < lvl)%nat → level_sorted C (level_files v lvl)).

Definition entry_of_write (w : Write) : entry := (ikey_of w, wvalue w).

(** The key variables describe the entry before. *)
Definition describes_prev (prev : option Write) (ks : KeyState) : Prop :=
  match prev with
  | None => has_current_user_key ks = false
  | Some p => has_current_user_key ks = true ∧ @Compare C (current_user_key ks) (wkey p) = 0 ∧ last_sequence_for_key ks = wseq p
  end.

Lemma set_level_ptrs_same c : set_level_ptrs c (level_ptrs_ c) = c.
Proof. by destruct c. Qed.

Lemma IsBaseLevelForKey_spec c u : ptrs_ok C v u (level_ptrs_ c) →
  ∃ b ptrs, IsBaseLevelForKey C v c u = (b, set_level_ptrs c ptrs) ∧ ptrs_ok C v u ptrs ∧ (b = true ↔ ¬ deeper C v (level_ c) u).
Proof using L Hv.
  intros Hp. unfold IsBaseLevelForKey.
  pose proof (base_level_loop_spec C v u (seq (level_ c + 2) (num_levels - (level_ c + 2))) Hv
    ltac:(apply Forall_forall; intros l Hl%elem_of_seq; lia) _ Hp) as Hs.
  destruct (base_level_loop C v u (level_ptrs_ c) _) as [b ptrs]. destruct Hs as [Hp' Hb]. exists b, ptrs. split; [done|]. split; [done|].
  rewrite Hb. unfold deeper. setoid_rewrite elem_of_seq. split; intros Hn (l & f & Hl & H); apply Hn; exists l, f; (split; [lia|done]).
Qed.

Lemma drop_entry_spec snapshot prev ks c w : describes_prev prev ks → write_ok w → snapshot < kMaxSequenceNumber → ptrs_ok C v (wkey w) (level_ptrs_ c) →
  ∃ drop ks' ptrs, drop_entry C v snapshot ks c (ikey_of w) = (drop, ks', set_level_ptrs c ptrs) ∧ describes_prev (Some w) ks' ∧ ptrs_ok C v (wkey w) ptrs ∧
    (hidden C snapshot prev w ∧ drop = true ∨ ¬ hidden C snapshot prev w ∧ (drop = true ↔ obsolete C v (level_ c) snapshot w)).
Proof using L Hv.
  intros Hprev Hw Hsn Hp. unfold drop_entry, ikey_of. rewrite ParseInternalKey_ikey by apply Hw. cbn [user_key sequence type].
  set (ks1 := if _ || _ then _ else ks).
  assert (has_current_user_key ks1 = true ∧ @Compare C (current_user_key ks1) (wkey w) = 0 ∧
    (last_sequence_for_key ks1 <= snapshot ↔ hidden C snapshot prev w)) as (H1 & H2 & H3).
  { unfold ks1. destruct prev as [p|]; cbn in Hprev; [destruct Hprev as (Hh & Hc & Hl)|rename Hprev into Hh]; rewrite Hh; cbn [negb orb].
    - destruct (Z.eqb_spec (@Compare C (wkey w) (current_user_key ks)) 0) as [E|E]; cbn [negb has_current_user_key current_user_key last_sequence_for_key];
        pose proof (Compare_eq_l _ _ (wkey w) Hc) as Hpw; pose proof (Compare_antisym (wkey w) (current_user_key ks)) as Ha;
        (split; [done|]); [split; [lia|]|split; [apply Compare_refl|]]; (split; [intros Hle|intros (p' & [= <-] & He & Hs)]); [|lia|lia|lia].
      exists p. split; [done|]. split; lia.
    - cbn [has_current_user_key current_user_key last_sequence_for_key]. split; [done|]. split; [apply Compare_refl|]. split; [lia|by intros (? & ? & _)]. }
  clearbody ks1. destruct (Z.leb_spec (last_sequence_for_key ks1) snapshot) as [Hle|Hgt].
  - eexists _, _, (level_ptrs_ c). rewrite set_level_ptrs_same. split; [done|]. split; [done|]. split; [done|]. left. split; [by apply H3|done].
  - assert (¬ hidden C snapshot prev w) as Hnh by (rewrite <-H3; lia).
    assert (bool_decide (wtype w = kTypeDeletion) && (wseq w <=? snapshot) = true ↔ wtype w = kTypeDeletion ∧ wseq w <= snapshot) as Hcond
      by (rewrite andb_true_iff, bool_decide_eq_true, Z.leb_le; done).
    destruct (bool_decide (wtype w = kTypeDeletion) && (wseq w <=? snapshot)).
    + destruct (IsBaseLevelForKey_spec c (wkey w) Hp) as (b & ptrs & -> & Hp' & Hb). eexists _, _, ptrs. split; [done|]. split; [done|]. split; [done|].
      right. split; [done|]. rewrite Hb. unfold obsolete. destruct (proj1 Hcond eq_refl). tauto.
    + eexists _, _, (level_ptrs_ c). rewrite set_level_ptrs_same. split; [done|]. split; [done|]. split; [done|]. right. split; [done|].
      split; [done|]. intros (Ht & Hs & _). apply Hcond. done.
Qed.

Lemma with_compaction_ok j c added : job_ok io j added → job_ok io (with_compaction j c) added.
Proof. intros [H1 H2 H3]. by split. Qed.

(** What the loop does not change of a compaction. *)
Record same_plan (c c' : Compaction) : Prop := {
  sp_level : level_ c' = level_ c;
  sp_inputs0 : inputs_0 c' = inputs_0 c;
  sp_inputs1 : inputs_1 c' = inputs_1 c;
  sp_edit : edit_ c' = edit_ c;
}.

Lemma same_plan_trans c1 c2 c3 : same_plan c1 c2 → same_plan c2 c3 → same_plan c1 c3.
Proof. intros [] []. split; congruence. Qed.

Lemma ptrs_ok_mono u u' ptrs : @Compare C u u' <= 0 → ptrs_ok C v u ptrs → ptrs_ok C v u' ptrs.
Proof using L. intros Hle [Hl Hp]. split; [done|]. intros lvl ptr Hptr. eapply (passed_mono C u); [done|by apply Hp]. Qed.

(** The numbers of the outputs are protected from deletion. *)
Definition pending_ok (j : Job) : Prop := Forall (λ n, n ∈ pending_outputs_ j) (out_number <$> outputs (compact j)).

Lemma pending_after nums j j' : numbers_after nums j j' → pending_ok j → pending_ok j'.
Proof.
  unfold pending_ok. intros [[-> ->]|[-> ->]] H; [done|]. apply Forall_app. split; [|apply Forall_singleton; set_solver].
  eapply Forall_impl; [exact H|]. cbv beta. set_solver.
Qed.

(** What the decision on an entry means for the entries kept. *)
Lemma keeps_step level snapshot prev w ws kept (drop : bool) :
  hidden C snapshot prev w ∧ drop = true ∨ ¬ hidden C snapshot prev w ∧ (drop = true ↔ obsolete C v level snapshot w) →
  keeps C v level snapshot (Some w) ws kept → keeps C v level snapshot prev (w :: ws) (if drop then kept else w :: kept).
Proof using.
  intros [[Hh ->]|[Hh Ho]] Hk; [by apply keeps_hidden|]. destruct drop; [apply keeps_obsolete|apply keeps_keep]; try done.
  - by apply Ho.
  - intros H. by apply Ho in H.
Qed.

(** One entry: without a failure it is handled; if it is handled, it is written unless
    it is obsolete. *)
Lemma compact_entry_spec w rest prev ks j added : job_ok io j added → describes_prev prev ks → write_ok w → smallest_snapshot (compact j) < kMaxSequenceNumber →
  ptrs_ok C v (wkey w) (level_ptrs_ (compaction (compact j))) →
  ∃ s ks' j', compact_entry C max_file_size io new_file_number input_status v ks j (ikey_of w) (wvalue w) rest = (s, ks', j') ∧
    (io_fine io input_status → s = Status_OK) ∧ numbers_after new_file_number j j' ∧
    (ok s = true → ∃ drop : bool, describes_prev (Some w) ks' ∧ job_ok io j' (added ++ (if drop then [] else [entry_of_write w])) ∧
      smallest_snapshot (compact j') = smallest_snapshot (compact j) ∧ ptrs_ok C v (wkey w) (level_ptrs_ (compaction (compact j'))) ∧
      same_plan (compaction (compact j)) (compaction (compact j')) ∧
      (hidden C (smallest_snapshot (compact j)) prev w ∧ drop = true ∨
       ¬ hidden C (smallest_snapshot (compact j)) prev w ∧ (drop = true ↔ obsolete C v (level_ (compaction (compact j))) (smallest_snapshot (compact j)) w))).
Proof using L Hv.
  intros Hj Hprev Hw Hsn Hptr. unfold compact_entry.
  unfold ShouldStopBefore. destruct (grandparent_scan C _ _ _ _ _) as [index bytes]. set (c1 := MkCompaction _ _ _ _ _ _ _ _ _ _ _ _ _).
  set (j1 := with_compaction j c1). assert (job_ok io j1 added) as Hj1 by (by apply with_compaction_ok).
  assert (∃ s2 j2, (if (bytes >? MaxGrandParentOverlapBytes max_file_size) && bool_decide (is_Some (builder (compact j1)))
                 then FinishCompactionOutputFile io input_status rest j1 else (Status_OK, j1)) = (s2, j2) ∧ (io_fine io input_status → s2 = Status_OK) ∧
    (out_number <$> outputs (compact j2) = out_number <$> outputs (compact j) ∧ pending_outputs_ j2 = pending_outputs_ j) ∧
    (ok s2 = true → job_ok io j2 added ∧ same_compaction j1 j2)) as (s2 & j2 & -> & Hf2 & Hn2 & Hok2).
  { destruct (_ >? _); [|by exists Status_OK, j1]. case_bool_decide as Hb; [|by exists Status_OK, j1]. cbn [andb]. pose proof (finish_numbers io input_status rest j1) as Hn.
    destruct (finish_output io input_status rest j1 added Hj1 Hb) as (s2 & j2 & E & H1 & H2). rewrite E in Hn |- *. exists s2, j2. split_and!; [done|done|apply Hn|apply Hn|]. intros E'. destruct (H2 E') as (? & ? & _). done. }
  destruct (ok s2) eqn:Es2; [|eexists _, _, _; split; [done|]; split; [by auto|]; split; [by left|by rewrite Es2]].
  destruct (Hok2 eq_refl) as (Hj2 & Hc2 & Hs2). rewrite Hs2, Hc2. change (smallest_snapshot (compact j1)) with (smallest_snapshot (compact j)). change (compaction (compact j1)) with c1.
  destruct (drop_entry_spec (smallest_snapshot (compact j)) prev ks c1 w Hprev Hw Hsn Hptr) as (drop & ks' & ptrs & -> & Hprev' & Hp' & Hcase).
  set (j3 := with_compaction j2 (set_level_ptrs c1 ptrs)). assert (job_ok io j3 added) as Hj3 by (by apply with_compaction_ok).
  assert (∃ s4 j4, (if drop then (Status_OK, j3) else write_entry io new_file_number input_status rest (ikey_of w) (wvalue w) j3) = (s4, j4) ∧ (io_fine io input_status → s4 = Status_OK) ∧
    numbers_after new_file_number j3 j4 ∧
    (ok s4 = true → job_ok io j4 (added ++ (if drop then [] else [entry_of_write w])) ∧ same_compaction j3 j4)) as (s4 & j4 & -> & Hf4 & Hn4 & Hok4).
  { destruct drop; [exists Status_OK, j3; rewrite app_nil_r; split_and!; try done; by left|]. pose proof (write_numbers io new_file_number input_status rest (ikey_of w) (wvalue w) j3) as Hn.
    destruct (write_output io new_file_number input_status rest (ikey_of w) (wvalue w) j3 added Hj3) as (s4 & j4 & E & H1 & H2). rewrite E in Hn |- *. by exists s4, j4. }
  do 3 eexists. split; [done|]. split; [done|]. split.
  { assert (length (outputs (compact j3)) = length (outputs (compact j))) as El by (rewrite <-!(length_fmap out_number); f_equal; apply Hn2).
    unfold numbers_after in *. destruct Hn2 as [E1 E2]. change (outputs (compact j3)) with (outputs (compact j2)) in *. change (pending_outputs_ j3) with (pending_outputs_ j2) in *. rewrite <-E1, <-E2, <-El. done. }
  intros Es4. destruct (Hok4 Es4) as (Hj4 & Hc4 & Hs4). exists drop. split_and!; try done.
  - rewrite Hs4. exact Hs2.
  - by rewrite Hc4.
  - rewrite Hc4. by split.
Qed.

(** Without a failure or a shutdown the loop ends with OK; if it ends with OK and the
    flag is not set, it has worked on the whole input.  The numbers of the outputs are
    pending. *)
Lemma compact_loop_spec ws : ∀ n prev ks j added, job_ok io j added → describes_prev prev ks → Forall write_ok ws →
  StronglySorted (before C) ws → smallest_snapshot (compact j) < kMaxSequenceNumber →
  (∀ w, w ∈ ws → ptrs_ok C v (wkey w) (level_ptrs_ (compaction (compact j)))) → pending_ok j →
  ∃ s j' n' rest, compact_loop C max_file_size io new_file_number input_status shutdown_at v n ks j (entry_of_write <$> ws) = (s, j', n', rest) ∧
    (io_fine io input_status → shutdown_at = None → s = Status_OK) ∧ pending_ok j' ∧
    (ok s = true → shutting_down shutdown_at n' = false → rest = [] ∧ ∃ kept,
      keeps C v (level_ (compaction (compact j))) (smallest_snapshot (compact j)) prev ws kept ∧
      job_ok io j' (added ++ (entry_of_write <$> kept)) ∧ same_plan (compaction (compact j)) (compaction (compact j'))).
Proof using L Hv.
  induction ws as [|w ws IH]; intros n prev ks j added Hj Hprev Hok Hs Hsn Hptrs Hpend.
  { exists Status_OK, j, n, []. split; [done|]. split; [done|]. split; [done|]. intros _ _. split; [done|]. exists []. split; [constructor|]. cbn. rewrite app_nil_r. split; [done|by split]. }
  apply Forall_cons in Hok as [Hw Hok]. apply StronglySorted_inv in Hs as [Hs Hall].
  change (entry_of_write <$> w :: ws) with ((ikey_of w, wvalue w) :: (entry_of_write <$> ws)). cbn [compact_loop].
  destruct (shutting_down shutdown_at n) eqn:Esh.
  { eexists _, _, _, _. split; [done|]. split; [done|]. split; [done|]. intros _ H. exfalso. unfold shutting_down in *. destruct shutdown_at as [k|]; [|done].
    apply Nat.leb_le in Esh. apply Nat.leb_gt in H. lia. }
  destruct (compact_entry_spec w ((ikey_of w, wvalue w) :: (entry_of_write <$> ws)) prev ks j added Hj Hprev Hw Hsn (Hptrs w ltac:(left))) as (s1 & ks1 & j1 & -> & Hf1 & Hn1 & Hok1).
  pose proof (pending_after _ _ _ Hn1 Hpend) as Hpend1.
  destruct (ok s1) eqn:Es1; [|eexists _, _, _, _; split; [done|]; split; [by auto|]; split; [done|by rewrite Es1]].
  destruct (Hok1 eq_refl) as (drop & Hprev1 & Hj1 & Esn & Hp1 & Hplan1 & Hcase).
  destruct (IH (S n) (Some w) ks1 j1 _ Hj1 Hprev1 Hok Hs) as (s & j' & n' & rest' & -> & Hfine & Hpend' & Hdone).
  - by rewrite Esn.
  - intros x Hx. apply (ptrs_ok_mono (wkey w)); [|done]. pose proof (proj1 (Forall_forall _ _) Hall x Hx) as Hlt. apply (ikey_of_lt C) in Hlt. lia.
  - done.
  - exists s, j', n', rest'. split; [done|]. split; [done|]. split; [done|]. intros E1 E2. destruct (Hdone E1 E2) as (-> & kept & Hk & Hj' & Hplan). split; [done|].
    rewrite Esn, (sp_level _ _ Hplan1) in Hk. exists (if drop then kept else w :: kept). split; [|split].
    + by eapply keeps_step.
    + rewrite <-app_assoc in Hj'. by destruct drop.
    + by eapply same_plan_trans.
Qed.

End loop.

(** ** Properties *)

(** What follows the loop. *)
Lemma finish_job_spec io input_status down s j rest : ∃ s' j', finish_job io input_status down s j rest = (s', j') ∧
  (io_fine io input_status → s = Status_OK → down = false → s' = Status_OK) ∧
  (ok s' = true → ok s = true ∧ down = false ∧ ∀ added, job_ok io j added → job_ok io j' added ∧ builder (compact j') = None ∧ same_compaction j j' ∧
    out_number <$> outputs (compact j') = out_number <$> outputs (compact j) ∧ pending_outputs_ j' = pending_outputs_ j).
Proof.
  unfold finish_job. set (s2 := if ok s && down then _ else s). destruct (ok s2) eqn:E2.
  2: { cbn [andb]. rewrite E2. eexists _, _. split; [done|]. split; [|by rewrite E2]. intros _ -> ->. by subst s2. }
  assert (s2 = s ∧ ok s = true ∧ down = false) as (-> & E1 & En) by (subst s2; destruct (ok s) eqn:E1, down; cbn [andb] in *; [done|done|congruence..]).
  cbn [andb]. case_bool_decide as Hb.
  - pose proof (finish_numbers io input_status rest j) as Hn. destruct (FinishCompactionOutputFile io input_status rest j) as [s3 j3] eqn:E. cbn [snd] in Hn.
    eexists _, _. split; [done|]. split.
    + intros Hio _ _. assert (s3 = Status_OK) as ->; [|apply Hio]. unfold FinishCompactionOutputFile in E. destruct Hio as [H1 H2 H3 H4 H5 H6].
      rewrite H6 in E. change (ok Status_OK) with true in E. cbv iota in E. rewrite H2 in E. change (ok Status_OK) with true in E. cbv iota in E.
      rewrite H3 in E. change (ok Status_OK) with true in E. cbv iota in E. rewrite H4 in E. change (ok Status_OK) with true in E. cbn [andb] in E. rewrite H5 in E. injection E as <- _. by destruct (negb _).
    + intros E'. destruct (ok s3) eqn:E3; [|congruence]. split; [done|]. split; [done|]. intros added Hj.
      destruct (finish_output io input_status rest j added Hj Hb) as (s4 & j4 & E4 & _ & H4). rewrite E in E4. injection E4 as <- <-. destruct (H4 E3) as (? & ? & ?). destruct Hn. done.
  - rewrite E1. eexists _, _. split; [done|]. split; [intros Hio _ _; apply Hio|]. intros _. split; [done|]. split; [done|]. intros added Hj.
    split; [done|]. split; [|done]. destruct (builder (compact j)); [|done]. by destruct Hb.
Qed.

Section properties.
  Context (C : Comparator) {L : ComparatorLaws C}.

Lemma CompactInput_spec max_file_size io new_file_number input_status shutdown_at v snapshots last_sequence c pending ws :
  (∀ lvl, (0 < lvl)%nat → level_sorted C (level_files v lvl)) → level_ptrs_ c = replicate num_levels 0%nat →
  choose_snapshot snapshots last_sequence < kMaxSequenceNumber → Forall write_ok ws → StronglySorted (before C) ws →
  ∃ s j', CompactInput C max_file_size io new_file_number input_status shutdown_at v snapshots last_sequence
      (MkJob (NewCompactionState c) pending []) (entry_of_write <$> ws) = (s, j') ∧ (io_fine io input_status → shutdown_at = None → s = Status_OK) ∧
    (ok s = true → ∃ kept, keeps C v (level_ c) (choose_snapshot snapshots last_sequence) None ws kept ∧
      builder (compact j') = None ∧ job_ok io j' (entry_of_write <$> kept) ∧ pending_ok j' ∧ same_plan c (compaction (compact j'))).
Proof using L.
  intros Hv Hptrs Hsn Hok Hs. unfold CompactInput. set (j0 := start_job _ _ _).
  assert (job_ok io j0 []) as Hj0 by (split; [constructor|done|by intros i o t ?]).
  destruct (compact_loop_spec C max_file_size io new_file_number input_status shutdown_at v Hv ws 0 None NewKeyState j0 [] Hj0) as (s1 & j1 & n & rest & -> & Hfine & Hpend & Hdone); try done.
  { intros w _. cbn. rewrite Hptrs. split; [by rewrite length_replicate|]. intros lvl ptr [-> _]%lookup_replicate. intros i f Hi. lia. }
  { constructor. }
  destruct (finish_job_spec io input_status (shutting_down shutdown_at n) s1 j1 rest) as (s & j' & -> & Hf & Hd). exists s, j'. split; [done|]. split.
  { intros Hio Hn. apply Hf; [done|by apply Hfine|by rewrite Hn]. }
  intros E. destruct (Hd E) as (E1 & En & Hj'). destruct (Hdone E1 En) as (-> & kept & Hk & Hj1 & Hp1). destruct (Hj' _ Hj1) as (Hj2 & Hb & [Hc _] & Hnum & Hpnd).
  exists kept. split_and!; try done; [unfold pending_ok; by rewrite Hnum, Hpnd|by rewrite Hc].
Qed.

(** C16: A compaction changes no answer.  When no operation on files fails, the loop
    of [DoCompactionWork] ends with OK for every sorted input; the table files it
    leaves hold, in order, some of the input entries, and each output record has the
    number and the first and last key of its file.  For every user key and every
    snapshot that may still be read (not older than the smallest live one), a read
    over the new files together with any newer entries and any entries of the levels
    below the output answers what it answered over the input: hidden versions are
    dropped only behind a version that all snapshots see, and a deletion marker only
    if no level below could hold the key. *)
Theorem compaction_preserves_reads max_file_size io new_file_number input_status v snapshots last_sequence c pending ws :
  io_fine io input_status → (∀ lvl, (0 < lvl)%nat → level_sorted C (level_files v lvl)) → level_ptrs_ c = replicate num_levels 0%nat →
  choose_snapshot snapshots last_sequence < kMaxSequenceNumber → Forall write_ok ws → StronglySorted (before C) ws →
  ∃ j' kept, CompactInput C max_file_size io new_file_number input_status None v snapshots last_sequence
      (MkJob (NewCompactionState c) pending []) (entry_of_write <$> ws) = (Status_OK, j') ∧
    concat (tables j').*2 = entry_of_write <$> kept ∧
    Forall2 describes (outputs (compact j')) (tables j') ∧
    Forall (λ n, n ∈ pending_outputs_ j') (tables j').*1 ∧
    ∀ above below u s o, choose_snapshot snapshots last_sequence <= s → newer C above ws →
      (∀ w, w ∈ below → deeper C v (level_ c) (wkey w)) → is_newest C (above ++ ws ++ below) u s o →
      ∃ o', is_newest C (above ++ kept ++ below) u s o' ∧ answer o' = answer o.
Proof using L.
  intros Hio Hv Hptrs Hsn Hok Hs.
  destruct (CompactInput_spec max_file_size io new_file_number input_status None v snapshots last_sequence c pending ws Hv Hptrs Hsn Hok Hs) as (st & j' & E & Hfine & Hdone).
  rewrite (Hfine Hio eq_refl) in *. destruct (Hdone eq_refl) as (kept & Hk & Hb & Hj & H4 & _).
  exists j', kept. split; [done|]. destruct Hj as [H1 H2 _]. unfold open_table in H1, H2. rewrite Hb, app_nil_r in H1, H2.
  split; [done|]. split; [done|]. split.
  - replace (tables j').*1 with (out_number <$> outputs (compact j')); [done|]. clear -H1. induction H1 as [|o t ?? (Hn & _) _ IH]; [done|]. cbn. by f_equal.
  - intros above below u s o Hle Ha Hbel Ho. by apply (keeps_answer C v (level_ c) (choose_snapshot snapshots last_sequence) above ws kept below u s o).
Qed.

End properties.

Module CompactExample.
Definition io : OutputIO :=
  MkOutputIO (λ _, Status_OK) (λ _, Status_OK) (λ _, Status_OK) (λ _, Status_OK) (λ _, Status_OK) (λ es, 40 * size es) (λ es, 40 * size es).
(** Deleted below every snapshot; two versions around the snapshot; a deletion of
    a key that the level below may hold. *)
Definition input : list Write :=
  [MkWrite 5 kTypeDeletion [x60] []; MkWrite 4 kTypeValue [x60] [x30];
   MkWrite 6 kTypeDeletion [x61] [];
   MkWrite 9 kTypeValue [x62] [x32]; MkWrite 3 kTypeValue [x62] [x31]; MkWrite 2 kTypeValue [x62] [x30]].
Definition version : Version := MkVersion 1 [[]; []; [Example.f1]; []; []; []; []] None (-1) minus_one (-1).
Definition c : Compaction := NewCompaction 80 0 (Some version) [].

Lemma io_ok : io_fine io (λ _, Status_OK).
Proof. by split. Qed.

Lemma version_sorted lvl : (0 < lvl)%nat → level_sorted BytewiseComparator (level_files version lvl).
Proof.
  intros Hl. pose proof (vo_sorted _ _ _ _ Example.example_ok 1%nat ltac:(lia)) as H1.
  pose proof (vo_sorted _ _ _ _ Example.example_ok 2%nat ltac:(lia)) as H2.
  destruct lvl as [|[|[|[|[|[|[|lvl]]]]]]]; [lia|exact H2|exact H1|exact H2|exact H2|exact H2|exact H2|exact H2].
Qed.

Lemma input_ok : Forall write_ok input ∧ StronglySorted (before BytewiseComparator) input.
Proof. split; repeat constructor; by vm_compute. Qed.
End CompactExample.

Lemma compaction_preserves_reads_witness :
  ∃ j', CompactInput BytewiseComparator 80 CompactExample.io (λ k, 20 + Z.of_nat k) (λ _, Status_OK) None CompactExample.version [7] 12
      (MkJob (NewCompactionState CompactExample.c) ∅ []) (entry_of_write <$> CompactExample.input) = (Status_OK, j') ∧
    tables j' = [(20, entry_of_write <$> [MkWrite 6 kTypeDeletion [x61] []; MkWrite 9 kTypeValue [x62] [x32]]);
                 (21, entry_of_write <$> [MkWrite 3 kTypeValue [x62] [x31]])] ∧
    Forall2 describes (outputs (compact j')) (tables j').
Proof.
  destruct (compaction_preserves_reads BytewiseComparator 80 CompactExample.io (λ k, 20 + Z.of_nat k) (λ _, Status_OK) CompactExample.version [7] 12
    CompactExample.c ∅ CompactExample.input CompactExample.io_ok CompactExample.version_sorted eq_refl ltac:(by vm_compute)
    (proj1 CompactExample.input_ok) (proj2 CompactExample.input_ok)) as (j' & kept & E & _ & Hf & _).
  exists j'. split; [exact E|]. split; [|exact Hf]. vm_compute in E. injection E as <-. by vm_compute.
Defined.
