(* ===== verification/VersionSet.v ===== *)
(** * The set of versions (src/db/version_set.cc: class VersionSet)

    The linked list of live versions is a list of numbered versions, the oldest
    first; the current one is the last.  The descriptor log carries its file.  What
    the environment answers is an argument ([ManifestIO]): the new descriptor file,
    the status of a sync, the status of installing CURRENT. *)

From Stdlib Require Import String.
From stdpp Require Import gmap.
From Stdlib Require Import SpecFloat Sorted.
From S2P Require Import Prelude Coding Status Env Comparator Filename Log DbFormat VersionEdit Arena Random SkipList MemTable Version VersionBuilder Compaction.

Section VersionSet.
  Context (C : Comparator) {W : WritableFile} {F : SequentialFile}.

(** ** State *)

Record VersionSet := MkVersionSet {
  vs_next_file_number : Z;
  vs_manifest_file_number : Z;
  vs_last_sequence : Z;
  vs_log_number : Z;
  vs_prev_log_number : Z;
  descriptor_log_ : option Log.Writer;
  vs_versions : list (nat * Version);
  vs_next_id : nat;
  vs_compact_pointer : list bytes;
  vs_store : Store;
}.

Definition current (vs : VersionSet) : Version := from_option snd NewVersion (last (vs_versions vs)).

Definition with_numbers (vs : VersionSet) (next manifest last_seq log prev : Z) : VersionSet :=
  MkVersionSet next manifest last_seq log prev (descriptor_log_ vs) (vs_versions vs) (vs_next_id vs) (vs_compact_pointer vs) (vs_store vs).

Definition with_versions (vs : VersionSet) (versions : list (nat * Version)) (next_id : nat) (store : Store) : VersionSet :=
  MkVersionSet (vs_next_file_number vs) (vs_manifest_file_number vs) (vs_last_sequence vs) (vs_log_number vs) (vs_prev_log_number vs)
    (descriptor_log_ vs) versions next_id (vs_compact_pointer vs) store.

Definition with_pointers (vs : VersionSet) (cp : list bytes) (store : Store) : VersionSet :=
  MkVersionSet (vs_next_file_number vs) (vs_manifest_file_number vs) (vs_last_sequence vs) (vs_log_number vs) (vs_prev_log_number vs)
    (descriptor_log_ vs) (vs_versions vs) (vs_next_id vs) cp store.

Definition with_descriptor (vs : VersionSet) (w : option Log.Writer) : VersionSet :=
  MkVersionSet (vs_next_file_number vs) (vs_manifest_file_number vs) (vs_last_sequence vs) (vs_log_number vs) (vs_prev_log_number vs)
    w (vs_versions vs) (vs_next_id vs) (vs_compact_pointer vs) (vs_store vs).

(** ** References to versions *)

Definition add_refs (n : Z) (v : Version) : Version :=
  MkVersion (v_refs_ v + n) (files_ v) (file_to_compact_ v) (file_to_compact_level_ v) (compaction_score_ v) (compaction_level_ v).

Definition RefVersion (id : nat) (vs : VersionSet) : VersionSet :=
  with_versions vs ((λ p, if decide (p.1 = id) then (p.1, add_refs 1 p.2) else p) <$> vs_versions vs) (vs_next_id vs) (vs_store vs).

(** The version leaves the list and drops its files when nothing refers to it. *)
Fixpoint unref_in (id : nat) (l : list (nat * Version)) (store : Store) : list (nat * Version) * Store :=
  match l with
  | [] => ([], store)
  | p :: l =>
      if decide (p.1 = id) then
        if v_refs_ p.2 - 1 =? 0 then (l, DestroyVersion p.2 store) else ((p.1, add_refs (-1) p.2) :: l, store)
      else let '(l, store) := unref_in id l store in (p :: l, store)
  end.

Definition UnrefVersion (id : nat) (vs : VersionSet) : VersionSet :=
  let '(l, store) := unref_in id (vs_versions vs) (vs_store vs) in with_versions vs l (vs_next_id vs) store.

Definition AppendVersion (v : Version) (vs : VersionSet) : VersionSet :=
  let vs := match last (vs_versions vs) with Some p => UnrefVersion p.1 vs | None => vs end in
  with_versions vs (vs_versions vs ++ [(vs_next_id vs, add_refs 1 v)]) (S (vs_next_id vs)) (vs_store vs).

Definition NewVersionSet : VersionSet :=
  AppendVersion NewVersion (MkVersionSet 2 0 0 0 0 None [] 0 (replicate num_levels []) ∅).

(** ** Numbers *)

Definition NewFileNumber (vs : VersionSet) : Z * VersionSet :=
  (vs_next_file_number vs,
   with_numbers vs (u64 (vs_next_file_number vs + 1)) (vs_manifest_file_number vs) (vs_last_sequence vs) (vs_log_number vs) (vs_prev_log_number vs)).

Definition ReuseFileNumber (file_number : Z) (vs : VersionSet) : VersionSet :=
  if vs_next_file_number vs =? u64 (file_number + 1)
  then with_numbers vs file_number (vs_manifest_file_number vs) (vs_last_sequence vs) (vs_log_number vs) (vs_prev_log_number vs)
  else vs.

Definition SetLastSequence (s : Z) (vs : VersionSet) : VersionSet :=
  with_numbers vs (vs_next_file_number vs) (vs_manifest_file_number vs) s (vs_log_number vs) (vs_prev_log_number vs).

Definition MarkFileNumberUsed (number : Z) (vs : VersionSet) : VersionSet :=
  if vs_next_file_number vs <=? number
  then with_numbers vs (u64 (number + 1)) (vs_manifest_file_number vs) (vs_last_sequence vs) (vs_log_number vs) (vs_prev_log_number vs)
  else vs.

(** ** Writing the descriptor *)

Definition add_files (level : nat) (e : VersionEdit) (files : list FileMetaData) : VersionEdit :=
  foldl (λ e f, AddFile (Z.of_nat level) (number f) (file_size f) (smallest f) (largest f) e) e files.

(** The edit that describes the current version. *)
Definition snapshot_edit (vs : VersionSet) : VersionEdit :=
  let edit := SetComparatorName (@Name C) Clear in
  let edit := foldl (λ e level, let key := default [] (vs_compact_pointer vs !! level) in
                                if decide (key = []) then e else SetCompactPointer (Z.of_nat level) key e) edit (seq 0 num_levels) in
  foldl (λ e level, add_files level e (level_files (current vs) level)) edit (seq 0 num_levels).

Definition WriteSnapshot (log : Log.Writer) (vs : VersionSet) : option (Status * Log.Writer) :=
  AddRecord log (EncodeTo (snapshot_edit vs) []).

Record ManifestIO := MkManifestIO {
  mi_new : Z → Status * wfile;      (* NewWritableFile(DescriptorFileName(dbname_, number)) *)
  mi_sync : wfile → Status;         (* descriptor_file_->Sync() *)
  mi_set_current : Z → Status;      (* SetCurrentFile(env_, dbname_, number) *)
}.

(** The fields that the version set fills in. *)
Definition fill_edit (vs : VersionSet) (edit : VersionEdit) : VersionEdit :=
  let edit := if has_log_number_ edit then edit else SetLogNumber (vs_log_number vs) edit in
  let edit := if has_prev_log_number_ edit then edit else SetPrevLogNumber (vs_prev_log_number vs) edit in
  VersionEdit.SetLastSequence (vs_last_sequence vs) (SetNextFile (vs_next_file_number vs) edit).

(** The new descriptor, if there is none yet, and whether it was created. *)
Definition open_descriptor (io : ManifestIO) (vs : VersionSet) : option (Status * option Log.Writer * bool) :=
  match descriptor_log_ vs with
  | Some w => Some (Status_OK, Some w, false)
  | None =>
      let '(s, f) := mi_new io (vs_manifest_file_number vs) in
      if ok s then '(s, w) ← WriteSnapshot (NewWriter f) vs; Some (s, Some w, true) else Some (s, None, true)
  end.

(** The record is added and synced, and a new descriptor is installed. *)
Definition write_edit (io : ManifestIO) (manifest : Z) (created : bool) (edit : VersionEdit) (s : Status) (w : option Log.Writer)
    : option (Status * option Log.Writer) :=
  '(s, w) ← match w with
            | Some log => if ok s then
                '(s, log) ← AddRecord log (EncodeTo edit []);
                Some (if ok s then mi_sync io (dest_ log) else s, Some log)
              else Some (s, w)
            | None => Some (s, w)
            end;
  Some (if ok s && created then mi_set_current io manifest else s, w).

(** The edit is filled in, logged and applied; the status and the new state. *)
Definition LogAndApply (io : ManifestIO) (edit : VersionEdit) (vs : VersionSet) : option (Status * VersionEdit * VersionSet) :=
  let edit := fill_edit vs edit in
  let b := Apply C (NewBuilder (current vs) (vs_compact_pointer vs) (vs_store vs)) edit in
  let '(v, store) := SaveTo C b in
  let store := DestroyBuilder b store in
  let vs := with_pointers vs (b_compact_pointer b) store in
  let v := Finalize v in
  '(s, w, created) ← open_descriptor io vs;
  '(s, w) ← write_edit io (vs_manifest_file_number vs) created edit s w;
  Some (s, edit,
    if ok s then
      let vs := AppendVersion v (with_descriptor vs w) in
      with_numbers vs (vs_next_file_number vs) (vs_manifest_file_number vs) (vs_last_sequence vs) (log_number_ edit) (prev_log_number_ edit)
    else with_descriptor (with_pointers vs (vs_compact_pointer vs) (DestroyVersion v (vs_store vs)))
           (if created : bool then None else w)).

(** ** Recovery *)

(** What the records set. *)
Record Recovered := MkRecovered {
  rc_builder : Builder;
  rc_log_number : option Z;
  rc_prev_log_number : option Z;
  rc_next_file : option Z;
  rc_last_sequence : option Z;
}.

Definition set_if (b : bool) (x : Z) (o : option Z) : option Z := if b then Some x else o.

Definition recover_edit (r : Recovered) (edit : VersionEdit) (apply : bool) : Recovered :=
  MkRecovered (if apply then Apply C (rc_builder r) edit else rc_builder r)
    (set_if (has_log_number_ edit) (log_number_ edit) (rc_log_number r))
    (set_if (has_prev_log_number_ edit) (prev_log_number_ edit) (rc_prev_log_number r))
    (set_if (has_next_file_number_ edit) (next_file_number_ edit) (rc_next_file r))
    (set_if (has_last_sequence_ edit) (last_sequence_ edit) (rc_last_sequence r)).

(** [LogReporter]: the first report since [old] sets an OK status. *)
Definition report_status (s : Status) (old new : list (Z * Status)) : Status :=
  if ok s then match drop (length old) new with [] => s | (_, s') :: _ => s' end else s.

Definition check_comparator (edit : VersionEdit) : Status :=
  if has_comparator_ edit && negb (Slice.eqb (comparator_ edit) (@Name C))
  then InvalidArgument (comparator_ edit ++ bs " does not match existing comparator ") (@Name C)
  else Status_OK.

(** The [while] loop over the records. *)
Fixpoint recover_loop (n fuel : nat) (reader : Reader) (s : Status) (r : Recovered) : option (Status * Recovered) :=
  match n with
  | O => None
  | S n =>
      '(o, reader') ← ReadRecord fuel reader;
      let s := report_status s (reports reader) (reports reader') in
      match o with
      | Some record =>
          if ok s then
            '(s, edit) ← DecodeFrom record;
            let s := if ok s then check_comparator edit else s in
            recover_loop n fuel reader' s (recover_edit r edit (ok s))
          else Some (s, r)
      | None => Some (s, r)
      end
  end.

Definition check_recovered (r : Recovered) : Status :=
  match rc_next_file r, rc_log_number r, rc_last_sequence r with
  | None, _, _ => Corruption (bs "no meta-nextfile entry in descriptor") []
  | _, None, _ => Corruption (bs "no meta-lognumber entry in descriptor") []
  | _, _, None => Corruption (bs "no last-sequence-number entry in descriptor") []
  | _, _, _ => Status_OK
  end.

(** What recovery finds in the directory, and the options it reads. *)
Record RecoverIO := MkRecoverIO {
  ri_current : result bytes;              (* ReadFileToString(CurrentFileName(dbname_)) *)
  ri_open : bytes → result sfile;         (* NewSequentialFile(dbname_/name) *)
  ri_file_size : bytes → result Z;        (* GetFileSize *)
  ri_append : bytes → result wfile;       (* NewAppendableFile *)
  ri_reuse_logs : bool;
  ri_max_file_size : Z;
}.

Definition ReuseManifest (io : RecoverIO) (dscbase : bytes) (vs : VersionSet) : bool * VersionSet :=
  if negb (ri_reuse_logs io) then (false, vs)
  else
    match ParseFileName dscbase, ri_file_size io dscbase with
    | Some (manifest_number, kDescriptorFile), Ok manifest_size =>
        if manifest_size >=? TargetFileSize (ri_max_file_size io) then (false, vs)
        else
          match ri_append io dscbase with
          | Ok f =>
              let vs := with_descriptor vs (Some (NewWriterAt f manifest_size)) in
              (true, with_numbers vs (vs_next_file_number vs) manifest_number (vs_last_sequence vs) (vs_log_number vs) (vs_prev_log_number vs))
          | Fail _ => (false, vs)
          end
    | _, _ => (false, vs)
    end.

Definition ends_with_newline (l : bytes) : bool := bool_decide (last l = Some x0a).

(** The status, whether the manifest must be saved, and the new state. *)
Definition Recover (n fuel : nat) (io : RecoverIO) (vs : VersionSet) : option (Status * bool * VersionSet) :=
  match ri_current io with
  | Fail s => Some (s, false, vs)
  | Ok current_line =>
      if negb (ends_with_newline current_line)
      then Some (Corruption (bs "CURRENT file does not end with newline") [], false, vs)
      else
        let name := resize (size current_line - 1) current_line in
        match ri_open io name with
        | Fail s =>
            Some (if IsNotFound s then Corruption (bs "CURRENT points to a non-existent file") (ToString s) else s, false, vs)
        | Ok file =>
            let builder := NewBuilder (current vs) (vs_compact_pointer vs) (vs_store vs) in
            '(s, r) ← recover_loop n fuel (NewReader file true true 0) Status_OK (MkRecovered builder None None None None);
            let vs := with_pointers vs (b_compact_pointer (rc_builder r)) (b_store (rc_builder r)) in
            let vs := if ok s then MarkFileNumberUsed (default 0 (rc_log_number r)) (MarkFileNumberUsed (default 0 (rc_prev_log_number r)) vs) else vs in
            let s := if ok s then check_recovered r else s in
            if ok s then
              let '(v, store) := SaveTo C (rc_builder r) in
              let vs := AppendVersion (Finalize v) (with_pointers vs (vs_compact_pointer vs) store) in
              let next_file := default 0 (rc_next_file r) in
              let vs := with_numbers vs (u64 (next_file + 1)) next_file (default 0 (rc_last_sequence r))
                          (default 0 (rc_log_number r)) (default 0 (rc_prev_log_number r)) in
              let '(reuse, vs) := ReuseManifest io name vs in
              Some (s, negb reuse, with_pointers vs (vs_compact_pointer vs) (DestroyBuilder (rc_builder r) (vs_store vs)))
            else Some (s, false, with_pointers vs (vs_compact_pointer vs) (DestroyBuilder (rc_builder r) (vs_store vs)))
        end
  end.

(** ** Queries *)

Definition NumLevelFiles (vs : VersionSet) (level : nat) : Z := i32 (size (level_files (current vs) level)).

Definition NumLevelBytes (vs : VersionSet) (level : nat) : Z := TotalFileSize (level_files (current vs) level).

Definition AddLiveFiles (vs : VersionSet) (live : gset Z) : gset Z :=
  foldl (λ live p, foldl (λ live files, foldl (λ live f, {[number f]} ∪ live) live files) live (files_ p.2)) live (vs_versions vs).

Definition MaxNextLevelOverlappingBytes (vs : VersionSet) : option Z :=
  foldl (λ r level, foldl (λ r f, r ← r;
      overlaps ← GetOverlappingInputs C (current vs) (level + 1) (Some (smallest f)) (Some (largest f));
      Some (let sum := TotalFileSize overlaps in if sum >? r then sum else r)) r (level_files (current vs) level))
    (Some 0) (seq 1 (num_levels - 2)).

(** The files of one level; [offset_in] is [Table::ApproximateOffsetOf], if the table
    can be opened. *)
Fixpoint offset_in_level (offset_in : FileMetaData → option Z) (level0 : bool) (ikey : bytes) (result : Z) (files : list FileMetaData) : Z :=
  match files with
  | [] => result
  | f :: files =>
      if InternalKeyCompare C (largest f) ikey <=? 0 then offset_in_level offset_in level0 ikey (u64 (result + file_size f)) files
      else if InternalKeyCompare C (smallest f) ikey >? 0 then
        if level0 then offset_in_level offset_in level0 ikey result files else result
      else offset_in_level offset_in level0 ikey (u64 (result + default 0 (offset_in f))) files
  end.

Definition ApproximateOffsetOf (offset_in : nat → FileMetaData → option Z) (v : Version) (ikey : bytes) : Z :=
  foldl (λ r level, offset_in_level (offset_in level) (level =? 0)%nat ikey r (level_files v level)) 0 (seq 0 num_levels).

End VersionSet.

(** ** What the descriptor log holds *)

Section manifest.
  Context (C : Comparator) {L : ComparatorLaws C} {W : WritableFile} {LW : WritableFileLaws W} {F : SequentialFile} {LF : SequentialFileLaws F}.

Definition record_of (e : VersionEdit) : bytes := EncodeTo e [].

(** The log holds the edits [es]; the next record goes behind them. *)
Definition log_holds (w : Log.Writer) (es : list VersionEdit) : Prop :=
  ∃ c fss, writer_at w c ∧ logged c (record_of <$> es) fss ∧ block_offset_ w = layout_end 0 (concat fss) ∧ 0 <= block_offset_ w <= Log.kBlockSize.

Lemma log_holds_new f : wvalid f → wcontents f = [] → log_holds (NewWriter f) [].
Proof. intros Hv Hc. exists [], []. split; [done|]. split; [split; [constructor|done]|]. split; [done|]. cbn. unfold Log.kBlockSize. lia. Qed.

Lemma log_holds_add w es e : log_holds w es → ∃ w', AddRecord w (record_of e) = Some (Status_OK, w') ∧ log_holds w' (es ++ [e]).
Proof.
  intros (c & fss & Hw & (Hf & Hok & ->) & Hb & Hr). destruct (AddRecord_spec w _ (record_of e) Hw Hr) as (fs & w' & E & Hw' & Hb' & Hok' & Hrf & Hle).
  exists w'. split; [done|]. exists (layout 0 (concat (fss ++ [fs]))), (fss ++ [fs]).
  assert (concat (fss ++ [fs]) = concat fss ++ fs) as E' by (rewrite concat_app; cbn; by rewrite app_nil_r). rewrite E', layout_app, <-Hb. split; [done|]. split.
  - split; [rewrite fmap_app; apply Forall2_app; [done|by repeat constructor]|]. rewrite E', layout_app, <-Hb, fragments_ok_app, <-Hb. done.
  - rewrite layout_end_app, <-Hb. split; [done|]. split; [rewrite Hb'; by apply layout_end_nonneg|done].
Qed.

(** ** Files and states that can be written *)

(** A file as the builder makes it from a description. *)
Definition canonical (f : FileMetaData) : Prop :=
  f = new_file (NewFileMetaData (number f) (file_size f) (smallest f) (largest f)).

Definition file_encodable (f : FileMetaData) : Prop :=
  is_u64 (number f) ∧ is_u64 (file_size f) ∧ VersionEdit.key_ok (smallest f) ∧ VersionEdit.key_ok (largest f).

Context (U : FileMetaData → Prop) (HU : ∀ f g, U f → U g → number f = number g → f = g).

(** The state can be written: numbers fit, keys are not empty, the files of a level
    are in order, and numbers tell files. *)
Record vs_ok (vs : VersionSet) : Prop := {
  vo_next : is_u64 (vs_next_file_number vs);
  vo_last : is_u64 (vs_last_sequence vs);
  vo_log : is_u64 (vs_log_number vs);
  vo_prev : is_u64 (vs_prev_log_number vs);
  vo_pointers i k : vs_compact_pointer vs !! i = Some k → k = [] ∨ VersionEdit.key_ok k;
  vo_files level f : (level < num_levels)%nat → f ∈ level_files (current vs) level → file_encodable f ∧ canonical f ∧ U f;
  vo_order level : (level < num_levels)%nat → in_order C (level_files (current vs) level);
}.

(** An edit that can be written, of this comparator, whose files have their own
    numbers. *)
Definition edit_fine (e : VersionEdit) : Prop :=
  edit_ok e ∧ (∀ p, p ∈ new_files_ e → U (new_file p.2)) ∧ (has_comparator_ e = true → comparator_ e = @Name C).

Context (Hname : is_u32 (size (@Name C))).

(** What a change to an edit keeps: it can be written, and only files are added. *)
Record extends_edit (e e' : VersionEdit) (new : list (Z * FileMetaData)) : Prop := {
  xe_ok : edit_ok e';
  xe_new : new_files_ e' = new_files_ e ++ new;
  xe_deleted : deleted_files_ e' = deleted_files_ e;
  xe_flags : has_log_number_ e' = has_log_number_ e ∧ has_prev_log_number_ e' = has_prev_log_number_ e ∧
    has_next_file_number_ e' = has_next_file_number_ e ∧ has_last_sequence_ e' = has_last_sequence_ e ∧ comparator_ e' = comparator_ e;
}.

Lemma extends_refl e : edit_ok e → extends_edit e e [].
Proof. intros He. split; [done|by rewrite app_nil_r|done|done]. Qed.

Lemma extends_trans e1 e2 e3 n1 n2 : extends_edit e1 e2 n1 → extends_edit e2 e3 n2 → extends_edit e1 e3 (n1 ++ n2).
Proof.
  intros [A1 A2 A3 (A4 & A5 & A6 & A7 & A8)] [B1 B2 B3 (B4 & B5 & B6 & B7 & B8)].
  split; [done|by rewrite B2, A2, app_assoc|congruence|]. repeat split; congruence.
Qed.

(** A file as the snapshot describes it. *)
Definition described (level : nat) (f : FileMetaData) : Z * FileMetaData :=
  (Z.of_nat level, NewFileMetaData (number f) (file_size f) (smallest f) (largest f)).

Lemma add_files_extends level files : ∀ e, level_ok (Z.of_nat level) → Forall file_encodable files → edit_ok e →
  extends_edit e (add_files level e files) (described level <$> files).
Proof.
  induction files as [|f files IH]; intros e Hl Hf He; [by apply extends_refl|]. apply Forall_cons in Hf as [(H1 & H2 & H3 & H4) Hf].
  change (described level <$> f :: files) with ([described level f] ++ (described level <$> files)).
  eapply extends_trans; [|apply IH; [done|done|]].
  - split; [|done..]. by apply (apply_field_ok e (FNewFile (Z.of_nat level) (number f) (file_size f) (smallest f) (largest f))).
  - by apply (apply_field_ok e (FNewFile (Z.of_nat level) (number f) (file_size f) (smallest f) (largest f))).
Qed.

Lemma level_ok_nat level : (level < num_levels)%nat → level_ok (Z.of_nat level).
Proof. unfold num_levels, level_ok. change kNumLevels with 7. lia. Qed.

Lemma snapshot_extends vs : vs_ok vs → extends_edit (SetComparatorName (@Name C) Clear) (snapshot_edit C vs)
  (concat ((λ level, described level <$> level_files (current vs) level) <$> seq 0 num_levels)).
Proof using Hname.
  intros Hv. unfold snapshot_edit. set (e0 := SetComparatorName (@Name C) Clear).
  assert (edit_ok e0) as He0 by (apply (apply_field_ok Clear (FComparator (@Name C))); [apply Clear_ok|done]).
  assert (∀ levels e, Forall (λ l, (l < num_levels)%nat) levels → edit_ok e → extends_edit e (foldl (λ e level, let key := default [] (vs_compact_pointer vs !! level) in
    if decide (key = []) then e else SetCompactPointer (Z.of_nat level) key e) e levels) []) as Hp.
  { induction levels as [|l levels IH]; intros e Hl He; [by apply extends_refl|]. apply Forall_cons in Hl as [Hl Hls]. cbn [foldl].
    change (@nil (Z * FileMetaData)) with (@nil (Z * FileMetaData) ++ []). cbv zeta. destruct (decide _) as [|Hne]; [eapply extends_trans; [by apply extends_refl|by apply IH]|].
    assert (edit_ok (SetCompactPointer (Z.of_nat l) (default [] (vs_compact_pointer vs !! l)) e)) as He'.
    { apply (apply_field_ok e (FCompactPointer (Z.of_nat l) (default [] (vs_compact_pointer vs !! l)))); [done|]. split; [by apply level_ok_nat|].
      destruct (vs_compact_pointer vs !! l) as [k|] eqn:Ek; [|done]. destruct (vo_pointers vs Hv l k Ek); done. }
    eapply extends_trans; [|by apply IH]. split; [done|cbn; by rewrite app_nil_r|done|done]. }
  assert (∀ levels e, Forall (λ l, (l < num_levels)%nat) levels → edit_ok e → extends_edit e
    (foldl (λ e level, add_files level e (level_files (current vs) level)) e levels)
    (concat ((λ level, described level <$> level_files (current vs) level) <$> levels))) as Hf.
  { induction levels as [|l levels IH]; intros e Hl He; [by apply extends_refl|]. apply Forall_cons in Hl as [Hl Hls]. cbn [foldl fmap list_fmap concat].
    assert (extends_edit e (add_files l e (level_files (current vs) l)) (described l <$> level_files (current vs) l)) as Hx.
    { apply add_files_extends; [by apply level_ok_nat| |done]. apply Forall_forall. intros f Hf. by apply (vo_files vs Hv l f Hl Hf). }
    eapply extends_trans; [exact Hx|]. apply IH; [done|apply Hx]. }
  assert (Forall (λ l, (l < num_levels)%nat) (seq 0 num_levels)) as Hseq by (apply Forall_forall; intros l ?%elem_of_seq; lia).
  pose proof (Hp _ e0 Hseq He0) as H1. eapply (extends_trans _ _ _ []); [exact H1|]. apply Hf; [done|apply H1].
Qed.

(** What an edit with the same files means. *)
Lemma after_edit_same level live e e' f : deleted_files_ e' = deleted_files_ e → new_files_ e' = new_files_ e →
  after_edit level live e' f ↔ after_edit level live e f.
Proof. intros E1 E2. unfold after_edit. by rewrite E1, E2. Qed.

Lemma snapshot_live vs level f : vs_ok vs → (level < num_levels)%nat →
  after_edit level (λ _, False) (snapshot_edit C vs) f ↔ f ∈ level_files (current vs) level.
Proof using Hname.
  intros Hv Hl. pose proof (snapshot_extends vs Hv) as Hx. unfold after_edit. rewrite (xe_new _ _ _ Hx). cbn [SetComparatorName new_files_ Clear app]. split.
  - intros [[[] _]|(f0 & Hf0 & ->)]. apply list_elem_of_In, in_concat in Hf0 as (fs & Hfs%list_elem_of_In & Hin%list_elem_of_In).
    apply list_elem_of_fmap in Hfs as (l & -> & Hls%elem_of_seq). apply list_elem_of_fmap in Hin as (g & E & Hg). injection E as El ->.
    assert (l = level) as -> by lia. destruct (vo_files vs Hv level g Hl Hg) as (_ & Hc & _). by rewrite <-Hc.
  - intros Hf. right. destruct (vo_files vs Hv level f Hl Hf) as (_ & Hc & _). eexists. split; [|exact Hc].
    apply list_elem_of_In, in_concat. exists (described level <$> level_files (current vs) level).
    split; apply list_elem_of_In; apply list_elem_of_fmap; [exists level; split; [done|apply elem_of_seq; lia]|by exists f].
Qed.

Lemma snapshot_fine vs : vs_ok vs → edit_fine (snapshot_edit C vs).
Proof using Hname.
  intros Hv. pose proof (snapshot_extends vs Hv) as Hx. split; [apply Hx|]. split; [|intros _; apply (xe_flags _ _ _ Hx)]. intros p. rewrite (xe_new _ _ _ Hx). cbn [SetComparatorName new_files_ Clear app].
  intros Hp. apply list_elem_of_In, in_concat in Hp as (fs & Hfs%list_elem_of_In & Hin%list_elem_of_In).
  apply list_elem_of_fmap in Hfs as (l & -> & Hls%elem_of_seq). apply list_elem_of_fmap in Hin as (g & -> & Hg).
  destruct (vo_files vs Hv l g ltac:(lia) Hg) as (_ & Hc & Hu). cbn [described snd]. by rewrite <-Hc.
Qed.

(** *** Filling in an edit *)

Lemma fill_edit_fine vs e : vs_ok vs → edit_fine e → edit_fine (fill_edit vs e).
Proof.
  intros Hv (He & Hn & Hc). unfold fill_edit. split; [|split].
  - apply (apply_field_ok _ (FLastSequence (vs_last_sequence vs))); [|apply Hv]. apply (apply_field_ok _ (FNextFile (vs_next_file_number vs))); [|apply Hv].
    assert (edit_ok (if has_log_number_ e then e else SetLogNumber (vs_log_number vs) e)) as H1
      by (destruct (has_log_number_ e); [done|]; apply (apply_field_ok e (FLogNumber (vs_log_number vs))); [done|apply Hv]).
    destruct (has_prev_log_number_ _); [done|]. apply (apply_field_ok _ (FPrevLogNumber (vs_prev_log_number vs))); [done|apply Hv].
  - intros p Hp. apply Hn. destruct (has_log_number_ e), (has_prev_log_number_ e) eqn:E; cbn in *; try rewrite E in Hp; done.
  - destruct (has_log_number_ e), (has_prev_log_number_ e) eqn:E; cbn; rewrite ?E; done.
Qed.

Lemma fill_edit_fields vs e : let e' := fill_edit vs e in
  deleted_files_ e' = deleted_files_ e ∧ new_files_ e' = new_files_ e ∧ compact_pointers_ e' = compact_pointers_ e ∧ has_comparator_ e' = has_comparator_ e ∧ comparator_ e' = comparator_ e ∧
  has_log_number_ e' = true ∧ has_prev_log_number_ e' = true ∧ has_next_file_number_ e' = true ∧ has_last_sequence_ e' = true ∧
  next_file_number_ e' = vs_next_file_number vs ∧ last_sequence_ e' = vs_last_sequence vs.
Proof.
  unfold fill_edit. destruct (has_log_number_ e) eqn:E1; [destruct (has_prev_log_number_ e) eqn:E2|cbn [SetLogNumber has_prev_log_number_]; destruct (has_prev_log_number_ e) eqn:E2];
    cbn; rewrite ?E1, ?E2; done.
Qed.

(** ** Applying an edit *)

Lemma edit_fine_levels e : edit_fine e → edit_levels_ok e.
Proof.
  intros [He _]. pose proof (proj1 (fields_ok_iff e) (eo_fields e He)) as (_ & _ & _ & _ & _ & _ & Hd & Hn).
  split; apply Forall_forall; intros [l x] Hp; [by apply Hd in Hp as [? _]|by apply Hn in Hp as [? _]].
Qed.

Lemma saved_files base cp store es level : (level < num_levels)%nat → (∀ f, f ∈ level_files base level → U f) → in_order C (level_files base level) → Forall edit_fine es →
  let files := level_files (SaveTo C (foldl (Apply C) (NewBuilder base cp store) es)).1 level in
  (∀ f, f ∈ files ↔ foldl (after_edit level) (λ f, f ∈ level_files base level) es f) ∧ in_order C files.
Proof using L HU.
  intros Hl Hb Ho Hes. destruct (builder_replay C base cp store es level U Hl HU Hb) as (H1 & H2 & _).
  - eapply Forall_impl; [exact Hes|]. apply edit_fine_levels.
  - eapply Forall_impl; [exact Hes|]. intros e He f Hf. by apply (proj1 (proj2 He) _ Hf).
  - done.
  - done.
Qed.

Lemma Apply_pointers b e i k : b_compact_pointer (Apply C b e) !! i = Some k →
  b_compact_pointer b !! i = Some k ∨ ∃ l, (l, k) ∈ compact_pointers_ e.
Proof.
  unfold Apply. assert (∀ ps b, b_compact_pointer (foldl (add_file C) b ps) = b_compact_pointer b) as -> by (induction ps as [|p ps IH]; intros b0; [done|]; cbn [foldl]; by rewrite IH).
  assert (∀ ps b, b_compact_pointer (foldl delete_file b ps) = b_compact_pointer b) as -> by (induction ps as [|p ps IH]; intros b0; [done|]; cbn [foldl]; by rewrite IH).
  generalize (compact_pointers_ e) as ps. intros ps. revert b. induction ps as [|[l x] ps IH]; intros b; cbn [foldl]; [by left|].
  intros [H|(l' & H)]%IH; [|right; exists l'; by right]. cbn in H. destruct (decide (i = Z.to_nat l)) as [->|Hne].
  - apply list_lookup_insert_Some in H as [(_ & -> & _)|(? & _)]; [right; exists l; left|congruence].
  - rewrite list_lookup_insert_ne in H by done. by left.
Qed.

(** After an edit the files are as the builder makes them. *)
Lemma after_edit_canonical level live e f : edit_fine e → (∀ f, live f → file_encodable f ∧ canonical f ∧ U f) →
  after_edit level live e f → file_encodable f ∧ canonical f ∧ U f.
Proof.
  intros (He & Hn & _) Hlive [[Hf _]|(f0 & Hf0 & ->)]; [by apply Hlive|]. split; [|split; [|by apply (Hn _ Hf0)]].
  - pose proof (proj1 (fields_ok_iff e) (eo_fields e He)) as (_ & _ & _ & _ & _ & _ & _ & Hnew). by destruct (Hnew _ _ Hf0) as (_ & ? & ? & ? & ?).
  - pose proof (proj1 (Forall_forall _ _) (eo_new e He) _ Hf0) as Hp. unfold plain_file in Hp. cbn [snd] in Hp. unfold canonical. rewrite Hp at 1. done.
Qed.

Lemma current_append v vs : current (AppendVersion v vs) = add_refs 1 v.
Proof. unfold current, AppendVersion. cbn [vs_versions with_versions]. by rewrite last_snoc. Qed.

Lemma append_last v vs : last (vs_versions (AppendVersion v vs)) = Some (vs_next_id vs, add_refs 1 v).
Proof.
  unfold AppendVersion. cbn [vs_versions with_versions]. rewrite last_snoc. destruct (last (vs_versions vs)) as [p|]; [|done].
  unfold UnrefVersion. by destruct (unref_in _ _ _).
Qed.

Lemma append_other v vs : let vs' := AppendVersion v vs in
  vs_next_file_number vs' = vs_next_file_number vs ∧ vs_manifest_file_number vs' = vs_manifest_file_number vs ∧ vs_last_sequence vs' = vs_last_sequence vs ∧
  descriptor_log_ vs' = descriptor_log_ vs ∧ vs_compact_pointer vs' = vs_compact_pointer vs ∧ vs_next_id vs' = S (vs_next_id vs).
Proof. unfold AppendVersion. destruct (last _) as [p|]; [|done]. unfold UnrefVersion. by destruct (unref_in _ _ _). Qed.

(** *** Any environment *)

(** The descriptor log is at a position in a block. *)
Definition descriptor_ok (vs : VersionSet (W := W)) : Prop :=
  match descriptor_log_ vs with Some w => 0 <= block_offset_ w <= Log.kBlockSize | None => True end.

Definition writer_ok (w : option Log.Writer) : Prop := match w with Some w => 0 <= block_offset_ w <= Log.kBlockSize | None => True end.

Lemma open_descriptor_total io vs : descriptor_ok vs → ∃ s w created, open_descriptor C io vs = Some (s, w, created) ∧ writer_ok w.
Proof.
  unfold descriptor_ok, open_descriptor. destruct (descriptor_log_ vs) as [w|]; [intros H; by exists Status_OK, (Some w), false|]. intros _.
  destruct (mi_new io _) as [s f]. destruct (ok s); [|by exists s, None, true]. unfold WriteSnapshot.
  destruct (AddRecord_total (NewWriter f) (EncodeTo (snapshot_edit C vs) [])) as (s' & w & E & Hw); [cbn; unfold Log.kBlockSize; lia|].
  rewrite E. cbn [mbind option_bind]. by exists s', (Some w), true.
Qed.

Lemma write_edit_total io m created e s w : writer_ok w → ∃ s' w', write_edit io m created e s w = Some (s', w') ∧ writer_ok w'.
Proof.
  intros Hw. unfold write_edit. destruct w as [w|]; [|cbn [mbind option_bind]; eauto]. destruct (ok s); [|cbn [mbind option_bind]; eauto].
  destruct (AddRecord_total w (EncodeTo e []) Hw) as (s' & w' & E & Hw'). rewrite E. cbn [mbind option_bind]. eexists _, _. by split.
Qed.

(** The call returns whatever the environment answers; the new version is installed
    if and only if the status is OK. *)
Lemma LogAndApply_cases io e vs : descriptor_ok vs → ∃ s vs', LogAndApply C io e vs = Some (s, fill_edit vs e, vs') ∧ descriptor_ok vs' ∧
  vs_next_file_number vs' = vs_next_file_number vs ∧ vs_last_sequence vs' = vs_last_sequence vs ∧ vs_manifest_file_number vs' = vs_manifest_file_number vs ∧
  if ok s then vs_next_id vs' = S (vs_next_id vs) ∧ ∃ v, last (vs_versions vs') = Some (vs_next_id vs, v) ∧ v_refs_ v = 1 ∧
    files_ v = files_ (SaveTo C (Apply C (NewBuilder (current vs) (vs_compact_pointer vs) (vs_store vs)) (fill_edit vs e))).1
  else vs_versions vs' = vs_versions vs ∧ vs_next_id vs' = vs_next_id vs.
Proof.
  intros Hd. unfold LogAndApply. set (b := Apply C _ _). assert (v_refs_ (SaveTo C b).1 = 0) as Hr by (unfold SaveTo; by destruct (save_levels _ _ _ _)).
  destruct (SaveTo C b) as [v store]. cbn [fst] in *. set (vs1 := with_pointers vs _ _).
  destruct (open_descriptor_total io vs1 Hd) as (s & w & created & -> & Hw). cbn [mbind option_bind].
  destruct (write_edit_total io (vs_manifest_file_number vs1) created (fill_edit vs e) s w Hw) as (s' & w' & -> & Hw'). cbn [mbind option_bind].
  exists s'. eexists. split; [done|]. destruct (ok s').
  - set (vs2 := with_descriptor vs1 w'). destruct (append_other (Finalize v) vs2) as (E1 & E2 & E3 & E4 & _ & E5). unfold descriptor_ok.
    cbn [descriptor_log_ with_numbers vs_next_file_number vs_last_sequence vs_manifest_file_number vs_next_id vs_versions]. rewrite E1, E2, E3, E4, E5. split_and!; [by destruct w'|done..|].
    exists (add_refs 1 (Finalize v)). rewrite append_last. unfold Finalize. destruct (best_score v). cbn. split_and!; [done|lia|done].
  - split_and!; [|done..]. unfold descriptor_ok. cbn. destruct created; [done|]. by destruct w'.
Qed.

(** *** The environment works *)

Record manifest_fine (io : ManifestIO) : Prop := {
  mf_new n : ∃ f, mi_new io n = (Status_OK, f) ∧ wvalid f ∧ wcontents f = [];
  mf_sync f : mi_sync io f = Status_OK;
  mf_current n : mi_set_current io n = Status_OK;
}.

(** The files of the current version are those that replaying the edits gives. *)
Definition replays (vs : VersionSet) (es : list VersionEdit) : Prop :=
  ∀ level f, (level < num_levels)%nat → f ∈ level_files (current vs) level ↔ foldl (after_edit level) (λ _, False) es f.

(** The descriptor log holds these edits, if there is one. *)
Definition tracked (vs : VersionSet) (es : list VersionEdit) : Prop :=
  Forall edit_fine es ∧ (∀ e, head es = Some e → has_next_file_number_ e = false) ∧
  match descriptor_log_ vs with
  | Some w => log_holds w es ∧ es ≠ [] ∧ replays vs es
  | None => es = []
  end.

(** The edit carries the numbers of the state. *)
Definition numbers_of (vs : VersionSet) (e : VersionEdit) : Prop :=
  has_log_number_ e = true ∧ has_prev_log_number_ e = true ∧ has_next_file_number_ e = true ∧ has_last_sequence_ e = true ∧
  log_number_ e = vs_log_number vs ∧ prev_log_number_ e = vs_prev_log_number vs ∧
  next_file_number_ e = vs_next_file_number vs ∧ last_sequence_ e = vs_last_sequence vs.

(** The number of records before the next edit. *)
Definition base_records (es : list VersionEdit) : nat := match es with [] => 1 | _ => length es end.

Lemma open_descriptor_spec io vs es : manifest_fine io → vs_ok vs → tracked vs es →
  ∃ w created pre, open_descriptor C io vs = Some (Status_OK, Some w, created) ∧ log_holds w pre ∧ length pre = base_records es ∧ Forall edit_fine pre ∧ replays vs pre ∧ (es ≠ [] → pre = es) ∧
    ∀ e, head pre = Some e → has_next_file_number_ e = false.
Proof using Hname.
  intros Hio Hv (Hes & Hhd & Ht). unfold open_descriptor. destruct (descriptor_log_ vs) as [w|].
  - destruct Ht as (H1 & H2 & H3). exists w, false, es. split; [done|]. split; [done|]. split; [by destruct es|]. done.
  - subst es. destruct (mf_new io Hio (vs_manifest_file_number vs)) as (f & -> & Hf & Hc). cbn [ok Status_OK]. unfold WriteSnapshot.
    destruct (log_holds_add (NewWriter f) [] (snapshot_edit C vs) (log_holds_new f Hf Hc)) as (w & E & Hw). change (EncodeTo (snapshot_edit C vs) []) with (record_of (snapshot_edit C vs)).
    rewrite E. cbn [mbind option_bind]. exists w, true, [snapshot_edit C vs]. split; [done|]. split; [done|]. split; [done|].
    split; [by apply Forall_singleton, snapshot_fine|]. split; [|split; [done|]].
    + intros level g Hl. cbn [foldl]. by rewrite snapshot_live.
    + intros e [= <-]. by destruct (xe_flags _ _ _ (snapshot_extends vs Hv)) as (_ & _ & -> & _).
Qed.

Lemma foldl_after_edit_ext level es : ∀ (p q : FileMetaData → Prop), (∀ f, p f ↔ q f) → ∀ f, foldl (after_edit level) p es f ↔ foldl (after_edit level) q es f.
Proof. induction es as [|e es IH]; intros p q Hpq f; [apply Hpq|]. cbn [foldl]. apply IH. intros g. unfold after_edit. by rewrite Hpq. Qed.

Lemma LogAndApply_step io vs e es : manifest_fine io → vs_ok vs → edit_fine e → tracked vs es →
  ∃ pre vs', LogAndApply C io e vs = Some (Status_OK, fill_edit vs e, vs') ∧ vs_ok vs' ∧ tracked vs' (pre ++ [fill_edit vs e]) ∧
    length pre = base_records es ∧ (es ≠ [] → pre = es) ∧ numbers_of vs' (fill_edit vs e) ∧
    (∀ level f, (level < num_levels)%nat → f ∈ level_files (current vs') level → after_edit level (λ f, f ∈ level_files (current vs) level) e f).
Proof using L HU Hname.
  intros Hio Hv He Ht. unfold LogAndApply. set (e' := fill_edit vs e). assert (edit_fine e') as He' by (by apply fill_edit_fine).
  set (b := Apply C _ e'). destruct (SaveTo C b) as [v store] eqn:Es.
  set (vs1 := with_pointers vs (b_compact_pointer b) (DestroyBuilder b store)).
  assert (∀ level, (level < num_levels)%nat → (∀ f, f ∈ level_files v level ↔ after_edit level (λ f, f ∈ level_files (current vs) level) e' f) ∧ in_order C (level_files v level)) as Hsave.
  { intros level Hl. pose proof (saved_files (current vs) (vs_compact_pointer vs) (vs_store vs) [e'] level Hl) as H. cbn [foldl] in H. fold b in H. rewrite Es in H. apply H.
    - intros f Hf. by apply (vo_files vs Hv level f Hl).
    - by apply (vo_order vs Hv).
    - by apply Forall_singleton. }
  assert (∀ i k, b_compact_pointer b !! i = Some k → k = [] ∨ VersionEdit.key_ok k) as Hptr.
  { intros i k [H|(l & H)]%Apply_pointers; [by apply (vo_pointers vs Hv i k)|]. right.
    pose proof (proj1 (fields_ok_iff e') (eo_fields e' (proj1 He'))) as (_ & _ & _ & _ & _ & Hp & _). by apply Hp in H as [_ ?]. }
  assert (vs_ok vs1) as Hv1 by (destruct Hv; by split). assert (tracked vs1 es) as Ht1 by done.
  destruct (open_descriptor_spec io vs1 es Hio Hv1 Ht1) as (w & created & pre & -> & Hw & Hne & Hpre & Hrep & Hes & Hhd). cbn [mbind option_bind].
  unfold write_edit. cbn [ok Status_OK]. change (EncodeTo e' []) with (record_of e'). destruct (log_holds_add w pre e' Hw) as (w' & -> & Hw'). cbn [mbind option_bind ok Status_OK].
  rewrite (mf_sync io Hio). cbn [ok Status_OK andb]. rewrite (mf_current io Hio). replace (if created then Status_OK else Status_OK) with Status_OK by (by destruct created).
  cbn [ok Status_OK]. exists pre. eexists. split; [done|]. set (vs2 := AppendVersion (Finalize v) (with_descriptor vs1 (Some w'))).
  destruct (append_other (Finalize v) (with_descriptor vs1 (Some w'))) as (N1 & N2 & N3 & N4 & N5 & _). fold vs2 in N1, N2, N3, N4, N5.
  destruct (fill_edit_fields vs e) as (_ & _ & _ & _ & _ & F1 & F2 & F3 & F4 & F5 & F6). fold e' in F1, F2, F3, F4, F5, F6.
  assert (∀ level, level_files (current (with_numbers vs2 (vs_next_file_number vs2) (vs_manifest_file_number vs2) (vs_last_sequence vs2) (log_number_ e') (prev_log_number_ e'))) level = level_files v level) as Hcur.
  { intros level. change (level_files (current vs2) level = level_files v level). unfold vs2. rewrite current_append. unfold Finalize. by destruct (best_score v). }
  pose proof (proj1 (fields_ok_iff e') (eo_fields e' (proj1 He'))) as (_ & G1 & G2 & _).
  split; [|split; [|split; [done|split; [done|split]]]].
  - split; cbn [with_numbers vs_next_file_number vs_last_sequence vs_log_number vs_prev_log_number vs_compact_pointer].
    + rewrite N1. apply Hv.
    + rewrite N3. apply Hv.
    + by apply G1.
    + by apply G2.
    + rewrite N5. exact Hptr.
    + intros level f Hl. rewrite Hcur. intros Hf%(Hsave level Hl). eapply after_edit_canonical; [exact He'| |exact Hf]. intros g Hg. by apply (vo_files vs Hv level g Hl).
    + intros level Hl. rewrite Hcur. by apply Hsave.
  - split; [apply Forall_app; split; [done|by apply Forall_singleton]|]. split; [destruct pre as [|e0 pre]; [by destruct es|]; exact Hhd|]. cbn [with_numbers descriptor_log_]. rewrite N4. cbn [with_descriptor descriptor_log_].
    split; [done|]. split; [by destruct pre|]. intros level f Hl. rewrite Hcur, foldl_app. cbn [foldl]. rewrite (proj1 (Hsave level Hl)).
    unfold after_edit. pose proof (Hrep level f Hl) as Hr. change (current vs1) with (current vs) in Hr. by rewrite Hr.
  - unfold numbers_of. cbn [with_numbers vs_next_file_number vs_last_sequence vs_log_number vs_prev_log_number]. rewrite N1, N3. done.
  - intros level f Hl. rewrite Hcur. intros Hf%(Hsave level Hl). destruct (fill_edit_fields vs e) as (D1 & D2 & _). by apply (after_edit_same level _ e e' f D1 D2).
Qed.

(** ** Sequences of operations *)

Inductive Op := OpNewFileNumber | OpReuseFileNumber (n : Z) | OpSetLastSequence (s : Z) | OpApply (e : VersionEdit).

(** The states behind the successful [LogAndApply] calls and the last state. *)
Fixpoint run (io : ManifestIO) (ops : list Op) (vs : VersionSet) : option (list VersionSet * VersionSet) :=
  match ops with
  | [] => Some ([], vs)
  | OpNewFileNumber :: ops => run io ops (NewFileNumber vs).2
  | OpReuseFileNumber n :: ops => run io ops (ReuseFileNumber n vs)
  | OpSetLastSequence s :: ops => run io ops (SetLastSequence s vs)
  | OpApply e :: ops =>
      '(s, _, vs) ← LogAndApply C io e vs;
      if ok s then '(states, vs') ← run io ops vs; Some (vs :: states, vs') else None
  end.

Definition op_fine (op : Op) : Prop :=
  match op with
  | OpNewFileNumber => True
  | OpReuseFileNumber n => is_u64 n
  | OpSetLastSequence s => is_u64 s
  | OpApply e => edit_fine e
  end.

(** The edits lead to the state. *)
Definition leads_to (es : list VersionEdit) (vs : VersionSet) : Prop := replays vs es ∧ ∃ e, last es = Some e ∧ numbers_of vs e.

(** *** File numbers

    The numbers of the tables and logs of a state. *)
Definition in_use (vs : VersionSet) (n : Z) : Prop :=
  n = vs_log_number vs ∨ n = vs_prev_log_number vs ∨
  ∃ level f, (level < num_levels)%nat ∧ f ∈ level_files (current vs) level ∧ number f = n.

Definition edit_numbers (e : VersionEdit) : list Z :=
  ((λ p, number p.2) <$> new_files_ e) ++ (if has_log_number_ e then [log_number_ e] else []) ++
  (if has_prev_log_number_ e then [prev_log_number_ e] else []).

(** Every number that an edit brings into use has been allocated before, and a number
    is only given back when nothing uses it; the counter stays below 2^64. *)
Fixpoint allocated_first (next : Z) (used : list Z) (ops : list Op) : bool :=
  match ops with
  | [] => true
  | OpNewFileNumber :: ops => (next + 2 <? 2 ^ 64) && allocated_first (next + 1) used ops
  | OpReuseFileNumber n :: ops =>
      if next =? n + 1 then forallb (λ m, m <? n) used && allocated_first n used ops else allocated_first next used ops
  | OpSetLastSequence _ :: ops => allocated_first next used ops
  | OpApply e :: ops => forallb (λ m, m <? next) (edit_numbers e) && allocated_first next (edit_numbers e ++ used) ops
  end.

(** The counter is above the numbers [used], which include all that the state uses. *)
Record numbered (vs : VersionSet) (used : list Z) : Prop := {
  nd_used n : in_use vs n → n ∈ used;
  nd_below : Forall (λ n, n < vs_next_file_number vs) used;
  nd_width : 0 < vs_next_file_number vs ∧ vs_next_file_number vs + 1 < 2 ^ 64;
}.

Lemma numbered_in_use vs used n : numbered vs used → in_use vs n → n < vs_next_file_number vs.
Proof. intros [Hu Hb _] Hn. by apply (proj1 (Forall_forall _ _) Hb), Hu. Qed.

Lemma forallb_below used (m : Z) : forallb (λ n, n <? m) used = true ↔ Forall (λ n, n < m) used.
Proof. rewrite forallb_forall, Forall_forall. setoid_rewrite Z.ltb_lt. by setoid_rewrite list_elem_of_In. Qed.

Lemma fill_edit_logs vs e :
  log_number_ (fill_edit vs e) = (if has_log_number_ e then log_number_ e else vs_log_number vs) ∧
  prev_log_number_ (fill_edit vs e) = (if has_prev_log_number_ e then prev_log_number_ e else vs_prev_log_number vs).
Proof.
  unfold fill_edit. destruct (has_log_number_ e) eqn:E1; cbn [SetLogNumber has_prev_log_number_]; destruct (has_prev_log_number_ e); cbn; done.
Qed.

Lemma numbered_apply vs vs' e used : numbered vs used → numbers_of vs' (fill_edit vs e) →
  (∀ level f, (level < num_levels)%nat → f ∈ level_files (current vs') level → after_edit level (λ f, f ∈ level_files (current vs) level) e f) →
  Forall (λ n, n < vs_next_file_number vs) (edit_numbers e) → numbered vs' (edit_numbers e ++ used).
Proof.
  intros [Hu Hb Hw] (_ & _ & _ & _ & Nl & Np & Nn & _) Hfiles He.
  destruct (fill_edit_fields vs e) as (_ & _ & _ & _ & _ & _ & _ & _ & _ & Fn & _). rewrite Fn in Nn.
  split; [|rewrite <-Nn; by apply Forall_app|by rewrite <-Nn].
  intros n Hn. rewrite elem_of_app. unfold edit_numbers. rewrite !elem_of_app, list_elem_of_fmap. destruct Hn as [->|[->|(level & f & Hl & Hf & <-)]].
  - rewrite <-Nl, (proj1 (fill_edit_logs vs e)). destruct (has_log_number_ e); [left; right; left; by apply list_elem_of_singleton|right; apply Hu; by left].
  - rewrite <-Np, (proj2 (fill_edit_logs vs e)). destruct (has_prev_log_number_ e); [left; right; right; by apply list_elem_of_singleton|right; apply Hu; right; by left].
  - destruct (Hfiles level f Hl Hf) as [[Hin _]|(f0 & Hin & ->)]; [right; apply Hu; right; right; eauto|].
    left. left. by exists (Z.of_nat level, f0).
Qed.

Lemma with_numbers_ok vs a b c d e : vs_ok vs → is_u64 a → is_u64 c → is_u64 d → is_u64 e → vs_ok (with_numbers vs a b c d e).
Proof. intros [] ????. by split. Qed.

Lemma reuse_number_eqb next n : is_u64 n → 0 < next ∧ next + 1 < 2 ^ 64 → (next =? u64 (n + 1)) = (next =? n + 1).
Proof.
  intros Hn Hw. destruct (Z.eq_dec n (2 ^ 64 - 1)) as [->|]; [|rewrite u64_small; [done|split; destruct Hn; lia]].
  change (u64 (2 ^ 64 - 1 + 1)) with 0. transitivity false; [apply Z.eqb_neq|symmetry; apply Z.eqb_neq]; lia.
Qed.

Lemma run_spec io ops : manifest_fine io → Forall op_fine ops → ∀ vs es used, vs_ok vs → tracked vs es →
  numbered vs used → allocated_first (vs_next_file_number vs) used ops = true →
  ∃ states vs' es', run io ops vs = Some (states, vs') ∧ tracked vs' es' ∧ (states = [] → es' = es) ∧ (es ≠ [] → es `prefix_of` es') ∧
    (states ≠ [] → length es' = (base_records es + length states)%nat) ∧
    (∀ i vsi, states !! i = Some vsi → leads_to (take (base_records es + i + 1) es') vsi) ∧
    Forall (λ vsi, ∃ used, numbered vsi used) states.
Proof using L HU Hname.
  intros Hio. induction ops as [|op ops IH]; intros Hops vs es used Hv Ht Hu Ha.
  { exists [], vs, es. split; [done|]. split; [done|]. split; [done|]. split; [done|]. split; [done|]. done. }
  apply Forall_cons in Hops as [Hop Hops]. destruct op as [|n|s|e]; cbn [run allocated_first] in *.
  - apply andb_true_iff in Ha as [Hw%Z.ltb_lt Ha]. destruct Hu as [H1 H2 H3].
    assert (u64 (vs_next_file_number vs + 1) = vs_next_file_number vs + 1) as E by (apply u64_small; split; lia).
    apply (IH Hops _ es used); [apply with_numbers_ok; [done|apply u64_range|apply Hv..]|done| |cbn; by rewrite E].
    split; [done|cbn; rewrite E; eapply Forall_impl; [exact H2|]; cbn; lia|cbn; rewrite E; lia].
  - unfold ReuseFileNumber. destruct Hu as [H1 H2 H3]. cbn [op_fine] in Hop.
    rewrite (reuse_number_eqb _ _ Hop H3).
    destruct (Z.eqb_spec (vs_next_file_number vs) (n + 1)) as [E|]; [|by eapply (IH Hops _ es used)].
    apply andb_true_iff in Ha as [Hb%forallb_below Ha].
    assert (0 < n) by (pose proof (proj1 (Forall_forall _ _) Hb _ (H1 _ (or_introl eq_refl))) as Hlog; destruct (vo_log vs Hv); cbn in Hlog; lia).
    apply (IH Hops _ es used); [apply with_numbers_ok; [done|done|apply Hv..]|done| |done].
    split; [done|done|cbn; lia].
  - eapply (IH Hops _ es used); [|done|by destruct Hu; split|done]. apply with_numbers_ok; [done|apply Hv|done|apply Hv|apply Hv].
  - destruct (LogAndApply_step io vs e es Hio Hv Hop Ht) as (pre & vs1 & -> & Hv1 & Ht1 & Hbase & Hes & Hnum & Hfiles). cbn [mbind option_bind ok Status_OK].
    apply andb_true_iff in Ha as [Hnb%forallb_below Ha]. pose proof (numbered_apply vs vs1 e used Hu Hnum Hfiles Hnb) as Hu1.
    assert (vs_next_file_number vs1 = vs_next_file_number vs) as Enext.
    { destruct Hnum as (_ & _ & _ & _ & _ & _ & <- & _). by destruct (fill_edit_fields vs e) as (_ & _ & _ & _ & _ & _ & _ & _ & _ & -> & _). }
    rewrite <-Enext in Ha.
    destruct (IH Hops vs1 _ _ Hv1 Ht1 Hu1 Ha) as (states & vs' & es' & -> & Ht' & Hnil & Hpre & Hlen & Hst & Hall). cbn [mbind option_bind].
    assert (base_records (pre ++ [fill_edit vs e]) = S (length pre)) as Hb by (destruct pre; [done|]; cbn; rewrite length_app; cbn; lia).
    assert (pre ++ [fill_edit vs e] `prefix_of` es') as Hpre' by (apply Hpre; by destruct pre).
    exists (vs1 :: states), vs', es'. split; [done|]. split; [done|]. split; [done|]. split.
    { intros Hne. rewrite (Hes Hne) in Hpre'. etrans; [|exact Hpre']. by apply prefix_app_r. }
    assert (length es' = (base_records es + length (vs1 :: states))%nat) as Hlen'.
    { destruct states as [|x states]; [rewrite (Hnil eq_refl), length_app, Hbase; done|]. rewrite (Hlen ltac:(done)), Hb, Hbase. cbn. lia. }
    split; [done|]. split; [|apply Forall_cons; eauto]. intros [|i] vsi; cbn [lookup list_lookup].
    + intros [= <-]. destruct Hpre' as [more ->]. rewrite Nat.add_0_r, <-Hbase. rewrite take_app_le by (rewrite length_app; cbn; lia).
      rewrite take_ge by (rewrite length_app; cbn; lia). split.
      * destruct Ht1 as (_ & _ & Ht1). destruct (descriptor_log_ vs1); [by destruct Ht1 as (_ & _ & ?)|]. by destruct pre.
      * exists (fill_edit vs e). by rewrite last_snoc.
    + intros Hi. specialize (Hst i vsi Hi). rewrite Hb in Hst. rewrite <-Hbase. by replace (length pre + S i + 1)%nat with (S (length pre) + i + 1)%nat by lia.
Qed.

(** ** Reading the descriptor *)

Definition recover_edits (r : Recovered) (es : list VersionEdit) : Recovered := foldl (λ r e, recover_edit C r e true) r es.

Lemma check_comparator_fine e : edit_fine e → check_comparator C e = Status_OK.
Proof.
  intros (_ & _ & Hc). unfold check_comparator. destruct (has_comparator_ e); [|done]. rewrite (Hc eq_refl). cbn [andb].
  by rewrite (proj2 (Slice.eqb_eq _ _) eq_refl).
Qed.

Lemma recover_loop_stream fuel es : ∀ fss, Forall2 (record_fragments true) (record_of <$> es) fss → Forall edit_fine es → ∀ n r o st rc,
  reading r o st [] → st `prefix_of` layout o (concat fss) → fragments_ok o (concat fss) →
  (∀ fs, fs ∈ fss → (length fs < fuel)%nat) → (0 < fuel)%nat → (length es < n)%nat →
  ∃ k, recover_loop C n fuel r Status_OK rc = Some (Status_OK, recover_edits rc (take k es)) ∧ (k <= length es)%nat ∧
    ((k < length es)%nat → size st < size (layout o (concat fss))).
Proof.
  induction es as [|e es IH]; intros fss Hf Hes n r o st rc Hr Hpre Hok Hfuel Hf0 Hn;
    (destruct n as [|n]; [simpl in Hn; lia|]); cbn [recover_loop].
  - apply Forall2_nil_inv_l in Hf as ->. destruct (ReadRecord_end fuel r o []) as (r' & E & Hrp); [|done|].
    { apply prefix_nil_inv in Hpre. by rewrite Hpre in Hr. }
    rewrite E. cbn [mbind option_bind]. rewrite (rd_reports _ _ _ _ Hr), Hrp. exists 0%nat. split; [done|]. split; [cbn; lia|]. cbn. lia.
  - apply Forall2_cons_inv_l in Hf as (fs & fss' & Hrf & Hf & ->). apply Forall_cons in Hes as [He Hes].
    rewrite (ReadRecord_start _ _ _ _ _ Hr). cbn [concat] in *.
    destruct (ReadRecord_loop_record _ _ _ Hrf fuel r o st [] (concat fss') [] 0 Hr Hpre Hok)
      as [(st' & r1 & -> & Hp' & E' & Hr')|(Hlt & r1 & E' & Hrp)]; [apply Hfuel; left|done| |];
      cbn [negb] in E'; rewrite E'; cbn [mbind option_bind]; rewrite (rd_reports _ _ _ _ Hr).
    + rewrite (rd_reports _ _ _ _ Hr'). cbn [report_status ok Status_OK drop app]. unfold record_of at 1. rewrite DecodeFrom_EncodeTo by apply He.
      cbn [mbind option_bind ok Status_OK]. rewrite (check_comparator_fine e He). cbn [ok Status_OK].
      apply fragments_ok_app in Hok as [_ Hok].
      destruct (IH fss' Hf Hes n r1 _ st' (recover_edit C rc e true) Hr' Hp' Hok) as (k & E2 & Hk & Hlt); [intros; apply Hfuel; by right|done|simpl in Hn; lia|].
      exists (S k). split; [exact E2|]. split; [cbn; lia|]. intros Hk'. rewrite layout_app, !size_app. cbn in Hk'. specialize (Hlt ltac:(lia)). lia.
    + rewrite Hrp. exists 0%nat. split; [done|]. split; [lia|]. intros _. rewrite layout_app, size_app. pose proof (size_nonneg (layout (layout_end o fs) (concat fss'))). lia.
Qed.

Lemma recover_builder rc es : rc_builder (recover_edits rc es) = foldl (Apply C) (rc_builder rc) es.
Proof. revert rc. induction es as [|e es IH]; intros rc; [done|]. cbn [foldl recover_edits]. unfold recover_edits in IH. by rewrite IH. Qed.

Lemma recover_numbers rc es e vs : last es = Some e → numbers_of vs e → let r := recover_edits rc es in
  rc_log_number r = Some (vs_log_number vs) ∧ rc_prev_log_number r = Some (vs_prev_log_number vs) ∧
  rc_next_file r = Some (vs_next_file_number vs) ∧ rc_last_sequence r = Some (vs_last_sequence vs).
Proof.
  intros Hl (H1 & H2 & H3 & H4 & H5 & H6 & H7 & H8). apply last_Some in Hl as [pre ->]. unfold recover_edits. rewrite foldl_app. cbn [foldl recover_edit rc_log_number rc_prev_log_number rc_next_file rc_last_sequence].
  unfold set_if. rewrite H1, H2, H3, H4. repeat split; congruence.
Qed.

(** The recovered state agrees with a state of the past. *)
Record same_state (recovered vs : VersionSet) : Prop := {
  ss_log : vs_log_number recovered = vs_log_number vs;
  ss_prev : vs_prev_log_number recovered = vs_prev_log_number vs;
  ss_last : vs_last_sequence recovered = vs_last_sequence vs;
  ss_next : vs_next_file_number recovered = u64 (vs_next_file_number vs + 1);
  ss_files level f : (level < num_levels)%nat → f ∈ level_files (current recovered) level ↔ f ∈ level_files (current vs) level;
}.

Lemma same_state_numbers vsr vs used : same_state vsr vs → numbered vs used → ∀ n, in_use vsr n → n < vs_next_file_number vsr.
Proof.
  intros [Hl Hp _ Hn Hf] Hu n Hi. pose proof (nd_width _ _ Hu) as Hw. rewrite Hn, u64_small by (split; lia).
  assert (in_use vs n) as Hi'; [|pose proof (numbered_in_use _ _ _ Hu Hi'); lia]. unfold in_use in *. rewrite Hl, Hp in Hi.
  destruct Hi as [->|[->|(level & f & Hlv & Hin & <-)]]; [by left|by right; left|]. right. right. exists level, f. by rewrite <-Hf.
Qed.

Lemma NewVersionSet_files level : level_files (current NewVersionSet) level = [].
Proof. by destruct level as [|[|[|[|[|[|[|level]]]]]]]. Qed.

Lemma NewVersionSet_numbered : numbered NewVersionSet [0].
Proof.
  split; [|by repeat constructor|cbn; lia].
  intros n [->|[->|(level & f & _ & Hf & _)]]; [by apply list_elem_of_singleton..|]. rewrite NewVersionSet_files in Hf. by apply not_elem_of_nil in Hf.
Qed.

Lemma NewVersionSet_ok : vs_ok NewVersionSet.
Proof.
  split; [change (is_u64 2); range_lia|change (is_u64 0); range_lia|change (is_u64 0); range_lia|change (is_u64 0); range_lia|..].
  - intros i k Hk. left. by apply lookup_replicate in Hk as [-> _].
  - intros level f _ Hf. rewrite NewVersionSet_files in Hf. by apply not_elem_of_nil in Hf.
  - intros level _. rewrite NewVersionSet_files. constructor.
Qed.

Lemma reuse_same rio name vs vs0 : same_state vs vs0 → same_state (ReuseManifest rio name vs).2 vs0.
Proof.
  intros Hs. unfold ReuseManifest. destruct (negb _); [done|]. destruct (ParseFileName name) as [[num []]|]; try done.
  destruct (ri_file_size rio name) as [sz|]; [|done]. destruct (_ >=? _); [done|]. destruct (ri_append rio name); [|done]. destruct Hs. by split.
Qed.

(** Recovery from the records that are complete. *)
Lemma Recover_edits rio name sf n fuel es w (m : Z) : ri_current rio = Ok (name ++ [x0a]) → ri_open rio name = Ok sf → svalid sf →
  log_holds w es → Forall edit_fine es → remaining sf = take_z m (wcontents (dest_ w)) → (length es < n)%nat → (length (wcontents (dest_ w)) < fuel)%nat →
  ∃ k, (k <= length es)%nat ∧ (size (wcontents (dest_ w)) <= m → k = length es) ∧
    ∀ rc, rc = recover_edits (MkRecovered (NewBuilder (current NewVersionSet) (vs_compact_pointer NewVersionSet) (vs_store NewVersionSet)) None None None None) (take k es) →
    ∃ s save vsr, Recover C n fuel rio NewVersionSet = Some (s, save, vsr) ∧ s = check_recovered rc ∧
      (ok s = true → ∀ vs, leads_to (take k es) vs → same_state vsr vs).
Proof using L HU.
  intros Hcur Hopen Hsv (c & fss & (_ & Hc & _) & (Hf & Hok & Hcl) & _) Hes Hrem Hn Hfuel.
  destruct (recover_loop_stream fuel es fss Hf Hes n (NewReader sf true true 0) Log.kBlockSize (remaining sf)
    (MkRecovered (NewBuilder (current NewVersionSet) (vs_compact_pointer NewVersionSet) (vs_store NewVersionSet)) None None None None)) as (k & E & Hk & Hlt).
  { by apply NewReader_reading. }
  { pose proof (layout_block (concat fss)) as (-> & _). rewrite <-Hcl, <-Hc, Hrem. apply prefix_take. }
  { by apply layout_block. }
  { intros fs Hin. apply list_elem_of_lookup_1 in Hin as [i Hi]. apply take_drop_middle in Hi. assert (length fs <= length (concat fss))%nat.
    { rewrite <-Hi, concat_app, concat_cons, !length_app. lia. }
    pose proof (length_fragments (concat fss) 0) as Hlen. rewrite <-Hcl, <-Hc in Hlen. unfold size in Hlen. lia. }
  { lia. }
  { done. }
  pose proof (layout_block (concat fss)) as (El & _). rewrite El, <-Hcl, <-Hc in Hlt. exists k. split; [done|]. split.
  { intros Hm. rewrite Hrem, take_z_ge in Hlt by done. destruct (Nat.lt_ge_cases k (length es)) as [Hlt'|]; [|lia]. specialize (Hlt Hlt'). lia. }
  intros rc Hrc. rewrite <-Hrc in E. unfold Recover. rewrite Hcur. unfold ends_with_newline. rewrite last_snoc. cbn [negb].
  assert (resize (size (name ++ [x0a]) - 1) (name ++ [x0a]) = name) as ->.
  { unfold resize. rewrite size_app. change (size [x0a]) with 1. rewrite take_z_app by lia. replace (Z.to_nat _) with 0%nat by lia. by rewrite app_nil_r. }
  rewrite bool_decide_eq_true_2 by done. cbn [negb]. rewrite Hopen, E. cbn [mbind option_bind ok Status_OK].
  destruct (ok (check_recovered rc)) eqn:Eok; [|eexists _, _, _; split; [done|]; split; [done|]; by rewrite Eok].
  destruct (SaveTo C (rc_builder rc)) as [v store] eqn:Es.
  match goal with |- context [ReuseManifest rio name ?x] => set (vs1 := x) end.
  destruct (ReuseManifest rio name vs1) as [reuse vs2] eqn:Er. eexists _, _, _. split; [done|]. split; [done|]. intros _ vs [Hrep (e & Hlast & Hnum)].
  assert (same_state vs1 vs) as Hs1.
  { destruct (recover_numbers (MkRecovered (NewBuilder (current NewVersionSet) (vs_compact_pointer NewVersionSet) (vs_store NewVersionSet)) None None None None) _ e vs Hlast Hnum) as (R1 & R2 & R3 & R4).
    rewrite <-Hrc in R1, R2, R3, R4. unfold vs1. rewrite R1, R2, R3, R4. split; try done. intros level f Hl.
    rewrite (Hrep level f Hl). match goal with |- context [current (with_numbers ?x _ _ _ _ _)] => change (current (with_numbers x _ _ _ _ _)) with (current x) end.
    rewrite current_append. replace (level_files (add_refs 1 (Finalize v)) level) with (level_files v level) by (unfold Finalize; by destruct (best_score v)).
    replace v with (SaveTo C (rc_builder rc)).1 by (by rewrite Es). rewrite Hrc, recover_builder. cbn [rc_builder].
    destruct (saved_files (current NewVersionSet) (vs_compact_pointer NewVersionSet) (vs_store NewVersionSet) (take k es) level Hl) as [Hsv' _].
    - intros g. rewrite NewVersionSet_files. by intros ?%not_elem_of_nil.
    - rewrite NewVersionSet_files. constructor.
    - by apply Forall_take.
    - rewrite Hsv'. apply foldl_after_edit_ext. intros g. rewrite NewVersionSet_files. split; [by intros ?%not_elem_of_nil|done]. }
  pose proof (reuse_same rio name vs1 vs Hs1) as Hs2. rewrite Er in Hs2. cbn [snd] in Hs2. destruct Hs2. by split.
Qed.

(** ** Properties *)

(** C17: The descriptor survives a crash at any byte.  Starting from a state without an
    open descriptor, any sequence of number allocations and edits (with a working
    environment) is applied and logged completely.  If the descriptor file is then
    cut off anywhere, recovery either reports corruption, or ends with OK in a state
    that agrees with the one right behind some [LogAndApply]: the same files in every
    level, the same log numbers and last sequence number, and a next file number that
    is one larger, so that it is above the number of every table and log of the
    recovered state.  If nothing is cut off, that is the last [LogAndApply].  The file
    numbers are used as the code uses them: an edit brings only allocated numbers into
    use, a number is given back only when nothing uses it, and the counter stays below
    2^64. *)
Theorem manifest_recovery (io : ManifestIO) (rio : RecoverIO) (ops : list Op) (vs0 : VersionSet) (used : list Z) :
  manifest_fine io → Forall op_fine ops → vs_ok vs0 → descriptor_log_ vs0 = None →
  numbered vs0 used → allocated_first (vs_next_file_number vs0) used ops = true →
  ∃ states vs', run io ops vs0 = Some (states, vs') ∧
    (states ≠ [] → ∃ w, descriptor_log_ vs' = Some w ∧
     ∀ m name sf n fuel, ri_current rio = Ok (name ++ [x0a]) → ri_open rio name = Ok sf → svalid sf →
       remaining sf = take_z m (wcontents (dest_ w)) → (S (length states) < n)%nat → (length (wcontents (dest_ w)) < fuel)%nat →
       ∃ s save vsr, Recover C n fuel rio NewVersionSet = Some (s, save, vsr) ∧
         (IsCorruption s = true ∧ m < size (wcontents (dest_ w)) ∨
          s = Status_OK ∧ ∃ i vsi, states !! i = Some vsi ∧ same_state vsr vsi ∧
            (∀ k, in_use vsr k → k < vs_next_file_number vsr) ∧ (size (wcontents (dest_ w)) <= m → S i = length states))).
Proof using L HU Hname.
  intros Hio Hops Hv Hd Hu Ha. assert (tracked vs0 []) as Ht by (split; [constructor|]; split; [done|]; by rewrite Hd).
  destruct (run_spec io ops Hio Hops vs0 [] used Hv Ht Hu Ha) as (states & vs' & es & E & (Hes & Hhd & Ht') & Hnil & _ & Hlen & Hst & Hall).
  exists states, vs'. split; [done|]. intros Hne. specialize (Hlen Hne). cbn [base_records] in *.
  destruct (descriptor_log_ vs') as [w|]; [|by subst es]. destruct Ht' as (Hw & Hes' & _). exists w. split; [done|].
  intros m name sf n fuel Hcur Hopen Hsv Hrem Hn Hfuel.
  destruct (Recover_edits rio name sf n fuel es w m Hcur Hopen Hsv Hw Hes Hrem ltac:(lia) Hfuel) as (k & Hk & Hfull & Hrec).
  destruct (Hrec _ eq_refl) as (s & save & vsr & Er & Hs & Hsame). exists s, save, vsr. split; [done|]. destruct es as [|e0 es]; [done|]. specialize (Hhd e0 eq_refl).
  destruct k as [|[|k]].
  1,2: left; (split; [|destruct (Z.lt_ge_cases m (size (wcontents (dest_ w)))) as [|Hm]; [done|]; specialize (Hfull Hm); cbn in Hlen, Hfull; destruct states; [done|]; cbn in *; lia]);
    rewrite Hs; unfold check_recovered; match goal with |- context [rc_next_file ?r] => replace (rc_next_file r) with (@None Z); [reflexivity|] end;
    symmetry; cbn; rewrite ?take_0; cbn; unfold set_if; by rewrite ?Hhd.
  right. cbn [length] in *. destruct (lookup_lt_is_Some_2 states k) as [vsi Hvsi]; [lia|]. specialize (Hst k vsi Hvsi).
  replace (1 + k + 1)%nat with (S (S k)) in Hst by lia. destruct Hst as [Hrep (e & Hl & Hnum)].
  destruct (recover_numbers (MkRecovered (NewBuilder (current NewVersionSet) (vs_compact_pointer NewVersionSet) (vs_store NewVersionSet)) None None None None) _ e vsi Hl Hnum) as (R1 & R2 & R3 & R4).
  assert (s = Status_OK) as -> by (rewrite Hs; unfold check_recovered; by rewrite R1, R3, R4).
  split; [done|]. exists k, vsi. assert (same_state vsr vsi) as Hss by (apply (Hsame eq_refl); split; eauto). split; [done|]. split; [done|].
  split; [|intros Hm]; [destruct (Forall_lookup_1 _ _ _ _ Hall Hvsi) as [us Hus]; by apply (same_state_numbers vsr vsi us)|]. specialize (Hfull Hm). lia.
Qed.

End manifest.

Module ManifestExample.
Definition io : ManifestIO (W := WritableFileImpl) := MkManifestIO (λ _, (Status_OK, FileState.NewFileState)) (λ _, Status_OK) (λ _, Status_OK).

Definition file (n : Z) (k : byte) : FileMetaData := NewFileMetaData n 1000 (ikey [k] 1 kTypeValue) (ikey [k] 1 kTypeValue).

Definition ops : list Op :=
  [OpNewFileNumber; OpNewFileNumber; OpNewFileNumber; OpApply (VersionEdit.SetLogNumber 3 (push_new_file 1 (file 4 x61) Clear));
   OpNewFileNumber; OpReuseFileNumber 5; OpNewFileNumber; OpNewFileNumber; OpSetLastSequence 77;
   OpApply (RemoveFile 1 4 (push_new_file 2 (file 6 x63) Clear))].

Definition U (f : FileMetaData) : Prop := f = new_file (file 4 x61) ∨ f = new_file (file 6 x63).

Definition line : bytes := bs "MANIFEST-000002".

Definition rio (f : FileState.FileState) : RecoverIO (W := WritableFileImpl) (F := SequentialFileImpl_file) :=
  MkRecoverIO (Ok (line ++ [x0a])) (λ _, Ok (NewSequentialFileImpl f)) (λ _, Ok 0) (λ _, Ok f) false 2097152.
Definition file_okb (f : FileState.FileState) : bool :=
  forallb (λ b, size b =? FileState.kBlockSize) (FileState.blocks_ f) && (0 <=? FileState.size_ f) &&
  (size (FileState.blocks_ f) =? (FileState.size_ f + (FileState.kBlockSize - 1)) / FileState.kBlockSize).

Lemma file_okb_ok f : file_okb f = true → FileState.file_ok f.
Proof.
  unfold file_okb, FileState.file_ok, FileState.blocks_ok. rewrite !andb_true_iff, Z.leb_le, Z.eqb_eq. intros [[H1 H2] H3].
  split; [|split; [exact H2|exact H3]]. apply Forall_forall. intros b Hb. apply Z.eqb_eq.
  exact (proj1 (forallb_forall _ _) H1 b (proj1 (list_elem_of_In _ _) Hb)).
Qed.

Lemma run_facts : match run BytewiseComparator io ops NewVersionSet with
  | Some (states, vs) => match descriptor_log_ vs with
      | Some w => Some (vs_next_file_number <$> states, length (FileState.contents (dest_ w)), file_okb (dest_ w)) | None => None end
  | None => None end = Some ([5; 7], 118%nat, true).
Proof. vm_compute. reflexivity. Qed.
End ManifestExample.

Lemma manifest_recovery_witness :
  ∃ states vs' w, run BytewiseComparator ManifestExample.io ManifestExample.ops NewVersionSet = Some (states, vs') ∧ descriptor_log_ vs' = Some w ∧
    ∃ s save vsr, Recover BytewiseComparator 10 500 (ManifestExample.rio (dest_ w)) NewVersionSet = Some (s, save, vsr) ∧
      ∃ vsi, last states = Some vsi ∧ same_state vsr vsi ∧ vs_next_file_number vsi = 7 ∧ (∀ k, in_use vsr k → k < vs_next_file_number vsr).
Proof.
  destruct (run BytewiseComparator ManifestExample.io ManifestExample.ops NewVersionSet) as [[states vs']|] eqn:ER.
  2: { pose proof ManifestExample.run_facts as Hf. rewrite ER in Hf. discriminate Hf. }
  assert (∃ w, descriptor_log_ vs' = Some w ∧ vs_next_file_number <$> states = [5; 7] ∧ (length (FileState.contents (dest_ w)) < 500)%nat ∧ FileState.file_ok (dest_ w)) as (w & Hw & Hnext & Hsz & Hok).
  { pose proof ManifestExample.run_facts as Hf. rewrite ER in Hf. destruct (descriptor_log_ vs') as [w|]; [|discriminate Hf]. exists w.
    injection Hf as H1 H2 H3. split; [reflexivity|]. split; [exact H1|]. split; [rewrite H2; lia|]. apply ManifestExample.file_okb_ok. exact H3. }
  assert (length states = 2%nat) as Hlen by (rewrite <-(length_fmap vs_next_file_number), Hnext; reflexivity).
  exists states, vs', w. split; [reflexivity|]. split; [exact Hw|].
  destruct (manifest_recovery BytewiseComparator (W := WritableFileImpl) (LW := WritableFileImpl_laws) (F := SequentialFileImpl_file) (LF := SequentialFileImpl_laws)
    ManifestExample.U ltac:(intros f g [->| ->] [->| ->] E; try reflexivity; vm_compute in E; discriminate E) ltac:(vm_compute; split; [discriminate|reflexivity])
    ManifestExample.io (ManifestExample.rio (dest_ w)) ManifestExample.ops NewVersionSet [0]) as (states2 & vs2 & E2 & H).
  - split; [intros n; exists FileState.NewFileState; split; [reflexivity|split; [exact NewFileState_ok|reflexivity]]|reflexivity|reflexivity].
  - repeat (apply Forall_cons; split; [|]); [..|apply Forall_nil; exact I]; cbn [op_fine]; try exact I.
    + split; [|split; [|done]].
      * apply (apply_field_ok _ (FLogNumber 3)); [|vm_compute; split; [discriminate|reflexivity]]. apply (apply_field_ok Clear (FNewFile 1 4 1000 (ikey [x61] 1 kTypeValue) (ikey [x61] 1 kTypeValue))); [apply Clear_ok|].
        vm_compute. repeat split; discriminate.
      * intros p Hp. apply list_elem_of_singleton in Hp as ->. by left.
    + range_lia.
    + range_lia.
    + split; [|split; [|done]].
      * apply (apply_field_ok _ (FDeletedFile 1 4)); [|vm_compute; repeat split; discriminate]. apply (apply_field_ok Clear (FNewFile 2 6 1000 (ikey [x63] 1 kTypeValue) (ikey [x63] 1 kTypeValue))); [apply Clear_ok|].
        vm_compute. repeat split; discriminate.
      * intros p Hp. apply list_elem_of_singleton in Hp as ->. by right.
  - exact (NewVersionSet_ok BytewiseComparator ManifestExample.U).
  - reflexivity.
  - exact NewVersionSet_numbered.
  - reflexivity.
  - rewrite ER in E2. injection E2 as <- <-. destruct H as (w2 & Hw2 & H); [intros ->; discriminate Hlen|]. rewrite Hw in Hw2. injection Hw2 as <-.
    destruct (H (size (FileState.contents (dest_ w))) ManifestExample.line (NewSequentialFileImpl (dest_ w)) 10%nat 500%nat eq_refl eq_refl) as (s & save & vsr & Er & Hcase).
    + split; [exact Hok|]. cbn. split; [lia|apply Hok].
    + cbn. change (drop_z 0 (FileState.contents (dest_ w))) with (FileState.contents (dest_ w)). symmetry. apply take_z_all.
    + rewrite Hlen. lia.
    + exact Hsz.
    + exists s, save, vsr. split; [exact Er|]. destruct Hcase as [[_ Hlt]|(_ & i & vsi & Hi & Hs & Hin & Hlast)]; [cbn in Hlt; lia|].
      specialize (Hlast ltac:(cbn; lia)). exists vsi. split; [rewrite last_lookup, <-Hlast; exact Hi|]. split; [exact Hs|]. split; [|exact Hin].
      apply (f_equal (fmap vs_next_file_number)) in Hi. rewrite <-list_lookup_fmap, Hnext in Hi. rewrite Hlen in Hlast. injection Hlast as ->. by injection Hi.
Defined.
