(* ===== verification/DbImpl.v ===== *)
(** * The database (src/db/db_impl.cc, src/db/db_impl.h, src/db/snapshot.h,
      src/db/builder.cc)

    The state of a [DBImpl] that [mutex_] protects, and one function per operation
    between two points where the mutex is released.  A writer that waits in
    [Write] is an element of [writers_]; the work of the writer at the front is
    [MakeRoom] (one pass of the loop of [MakeRoomForWrite]) and [CommitGroup].  What
    the environment answers is an argument ([DbIO]).  The calls that the database
    makes to [SSTableWorth] are recorded in [worth_]. *)

From Stdlib Require Import String.
From stdpp Require Import gmap.
From Stdlib Require Import SpecFloat Sorted.
From S2P Require Import Prelude Coding Status Env Comparator Filename Log DbFormat Arena Random SkipList MemTable WriteBatch VersionEdit Version VersionBuilder Compaction DbCompaction VersionSet.

(** ** Snapshots *)

(** The list, the oldest first; the objects are told apart by a number. *)
Record SnapshotList := MkSnapshots { snaps : list (nat * Z); next_snap : nat }.

Definition NewSnapshotList : SnapshotList := MkSnapshots [] 0.
Definition snapshots_empty (l : SnapshotList) : bool := bool_decide (snaps l = []).
Definition oldest (l : SnapshotList) : option (nat * Z) := head (snaps l).
Definition newest_snapshot (l : SnapshotList) : option (nat * Z) := last (snaps l).
Definition NewSnapshot (seq : Z) (l : SnapshotList) : nat * SnapshotList :=
  (next_snap l, MkSnapshots (snaps l ++ [(next_snap l, seq)]) (S (next_snap l))).
Definition DeleteSnapshot (id : nat) (l : SnapshotList) : SnapshotList :=
  MkSnapshots (filter (λ p, p.1 ≠ id) (snaps l)) (next_snap l).

(** ** Options *)

(** [ClipToRange]. *)
Definition ClipToRange (x minvalue maxvalue : Z) : Z :=
  let x := if x >? maxvalue then maxvalue else x in if x <? minvalue then minvalue else x.

Definition kNumNonTableCacheFiles : Z := 10.

(** The options that are clipped. *)
Record Options := MkOptions { max_open_files : Z; write_buffer_size : Z; max_file_size : Z; block_size : Z }.

Definition SanitizeOptions (src : Options) : Options :=
  MkOptions (ClipToRange (max_open_files src) (64 + kNumNonTableCacheFiles) 50000)
    (ClipToRange (write_buffer_size src) (64 * 1024) (2 ^ 30))
    (ClipToRange (max_file_size src) (2 ^ 20) (2 ^ 30))
    (ClipToRange (block_size src) (2 ^ 10) (4 * 2 ^ 20)).

Definition TableCacheSize (o : Options) : Z := max_open_files o - kNumNonTableCacheFiles.

Section DbImpl.
  Context (C : Comparator) (base : nat → Z) {W : WritableFile} {F : SequentialFile} (options : Options).

(** ** State *)

(** [DBImpl::Writer]. *)
Record DbWriter := MkDbWriter { wr_batch : option WriteBatch; wr_sync : bool }.

(** [begin] moves on as parts of the range are done ([tmp_storage]). *)
Record ManualCompaction := MkManual { mc_level : nat; mc_done : bool; mc_begin : option bytes; mc_end : option bytes }.

Record DBImpl := MkDB {
  mem_ : MemTable;
  imm_ : option MemTable;
  log_ : Log.Writer;
  logfile_number_ : Z;
  writers_ : list DbWriter;
  tmp_batch_ : WriteBatch;
  snapshots_ : SnapshotList;
  db_pending_outputs : gset Z;
  background_compaction_scheduled_ : bool;
  manual_compaction_ : option ManualCompaction;
  versions_ : VersionSet;
  bg_error_ : Status;
  shutting_down_ : bool;
  stats_ : list CompactionStats;
  db_number_ : Z;
  worth_ : list (Z * Z * Z);
}.

Definition with_mem (db : DBImpl) (mem : MemTable) (imm : option MemTable) : DBImpl :=
  MkDB mem imm (log_ db) (logfile_number_ db) (writers_ db) (tmp_batch_ db) (snapshots_ db) (db_pending_outputs db) (background_compaction_scheduled_ db)
    (manual_compaction_ db) (versions_ db) (bg_error_ db) (shutting_down_ db) (stats_ db) (db_number_ db) (worth_ db).

Definition with_log (db : DBImpl) (log : Log.Writer) (n : Z) : DBImpl :=
  MkDB (mem_ db) (imm_ db) log n (writers_ db) (tmp_batch_ db) (snapshots_ db) (db_pending_outputs db) (background_compaction_scheduled_ db)
    (manual_compaction_ db) (versions_ db) (bg_error_ db) (shutting_down_ db) (stats_ db) (db_number_ db) (worth_ db).

Definition with_writers (db : DBImpl) (ws : list DbWriter) (tmp : WriteBatch) : DBImpl :=
  MkDB (mem_ db) (imm_ db) (log_ db) (logfile_number_ db) ws tmp (snapshots_ db) (db_pending_outputs db) (background_compaction_scheduled_ db)
    (manual_compaction_ db) (versions_ db) (bg_error_ db) (shutting_down_ db) (stats_ db) (db_number_ db) (worth_ db).

Definition with_snapshots (db : DBImpl) (s : SnapshotList) : DBImpl :=
  MkDB (mem_ db) (imm_ db) (log_ db) (logfile_number_ db) (writers_ db) (tmp_batch_ db) s (db_pending_outputs db) (background_compaction_scheduled_ db)
    (manual_compaction_ db) (versions_ db) (bg_error_ db) (shutting_down_ db) (stats_ db) (db_number_ db) (worth_ db).

Definition with_pending (db : DBImpl) (p : gset Z) : DBImpl :=
  MkDB (mem_ db) (imm_ db) (log_ db) (logfile_number_ db) (writers_ db) (tmp_batch_ db) (snapshots_ db) p (background_compaction_scheduled_ db)
    (manual_compaction_ db) (versions_ db) (bg_error_ db) (shutting_down_ db) (stats_ db) (db_number_ db) (worth_ db).

Definition with_background (db : DBImpl) (scheduled : bool) (manual : option ManualCompaction) (e : Status) : DBImpl :=
  MkDB (mem_ db) (imm_ db) (log_ db) (logfile_number_ db) (writers_ db) (tmp_batch_ db) (snapshots_ db) (db_pending_outputs db) scheduled
    manual (versions_ db) e (shutting_down_ db) (stats_ db) (db_number_ db) (worth_ db).

Definition with_version_set (db : DBImpl) (vs : VersionSet) : DBImpl :=
  MkDB (mem_ db) (imm_ db) (log_ db) (logfile_number_ db) (writers_ db) (tmp_batch_ db) (snapshots_ db) (db_pending_outputs db) (background_compaction_scheduled_ db)
    (manual_compaction_ db) vs (bg_error_ db) (shutting_down_ db) (stats_ db) (db_number_ db) (worth_ db).

Definition with_counts (db : DBImpl) (stats : list CompactionStats) (n : Z) (worth : list (Z * Z * Z)) : DBImpl :=
  MkDB (mem_ db) (imm_ db) (log_ db) (logfile_number_ db) (writers_ db) (tmp_batch_ db) (snapshots_ db) (db_pending_outputs db) (background_compaction_scheduled_ db)
    (manual_compaction_ db) (versions_ db) (bg_error_ db) (shutting_down_ db) stats n worth.

(** The destructor asks the background work to stop. *)
Definition Shutdown (db : DBImpl) : DBImpl :=
  MkDB (mem_ db) (imm_ db) (log_ db) (logfile_number_ db) (writers_ db) (tmp_batch_ db) (snapshots_ db) (db_pending_outputs db) (background_compaction_scheduled_ db)
    (manual_compaction_ db) (versions_ db) (bg_error_ db) true (stats_ db) (db_number_ db) (worth_ db).

(** ** Background work *)

Definition RecordBackgroundError (s : Status) (db : DBImpl) : DBImpl :=
  if ok (bg_error_ db) then with_background db (background_compaction_scheduled_ db) (manual_compaction_ db) s else db.

(** There is something to do. *)
Definition has_work (db : DBImpl) : bool :=
  bool_decide (is_Some (imm_ db)) || bool_decide (is_Some (manual_compaction_ db)) || NeedsCompaction (current (versions_ db)).

Definition MaybeScheduleCompaction (db : DBImpl) : DBImpl :=
  if background_compaction_scheduled_ db then db
  else if shutting_down_ db then db
  else if negb (ok (bg_error_ db)) then db
  else if negb (has_work db) then db
  else with_background db true (manual_compaction_ db) (bg_error_ db).

(** ** Reading *)

(** The version that a read used may be replaced by then; its number tells it. *)
Definition update_version (id : nat) (v : Version) (store : Store) (vs : VersionSet) : VersionSet :=
  with_versions vs ((λ p, if decide (p.1 = id) then (id, v) else p) <$> vs_versions vs) (vs_next_id vs) store.

Definition current_id (vs : VersionSet) : nat := from_option fst 0%nat (last (vs_versions vs)).

Definition Get (cache_get : FileMetaData → nat → bytes → Status * option (bytes * bytes)) (db : DBImpl) (snapshot : option Z) (key value : bytes)
    : option (Status * bytes * DBImpl) :=
  let snapshot := default (vs_last_sequence (versions_ db)) snapshot in
  let vs := versions_ db in
  let lkey := NewLookupKey key snapshot in
  '(found, value, s) ← MemTable.Get C (mem_ db) lkey value Status_OK;
  if found : bool then Some (s, value, db)
  else
    '(found, value, s) ← match imm_ db with Some imm => MemTable.Get C imm lkey value s | None => Some (false, value, s) end;
    if found : bool then Some (s, value, db)
    else
      '(s, value, stats, store) ← Version.Get C cache_get (current vs) lkey value (vs_store vs);
      let '(v, store, compact) := UpdateStats (current vs) store stats in
      let db := with_version_set db (update_version (current_id vs) v store vs) in
      Some (s, value, if compact : bool then MaybeScheduleCompaction db else db).

Definition RecordReadSample (key : bytes) (db : DBImpl) : option DBImpl :=
  let vs := versions_ db in
  '(v, store, compact) ← Version.RecordReadSample C (current vs) (vs_store vs) key;
  let db := with_version_set db (update_version (current_id vs) v store vs) in
  Some (if compact : bool then MaybeScheduleCompaction db else db).

Definition GetSnapshot (db : DBImpl) : nat * DBImpl :=
  let '(id, l) := NewSnapshot (vs_last_sequence (versions_ db)) (snapshots_ db) in (id, with_snapshots db l).

Definition ReleaseSnapshot (id : nat) (db : DBImpl) : DBImpl := with_snapshots db (DeleteSnapshot id (snapshots_ db)).

(** ** Writing *)

Definition Enqueue (w : DbWriter) (db : DBImpl) : DBImpl := with_writers db (writers_ db ++ [w]) (tmp_batch_ db).

(** The loop over the writers behind the first one.  [result] is the batch so far,
    [is_tmp] says that it is [tmp_batch_]; the result has the number of writers that
    are in the group. *)
Fixpoint group_loop (first : DbWriter) (first_batch tmp : WriteBatch) (max_size size : Z) (result : WriteBatch) (is_tmp : bool) (n : nat)
    (ws : list DbWriter) : WriteBatch * bool * nat :=
  match ws with
  | [] => (result, is_tmp, n)
  | w :: ws =>
      if wr_sync w && negb (wr_sync first) then (result, is_tmp, n)
      else
        match wr_batch w with
        | Some b =>
            let size := u64 (size + ByteSize b) in
            if size >? max_size then (result, is_tmp, n)
            else
              let result := if is_tmp then result else Append tmp first_batch in
              group_loop first first_batch tmp max_size size (Append result b) true (S n) ws
        | None => group_loop first first_batch tmp max_size size result is_tmp (S n) ws
        end
  end.

(** The batch, whether it is [tmp_batch_], and the number of writers it is for. *)
Definition BuildBatchGroup (db : DBImpl) : option (WriteBatch * bool * nat) :=
  match writers_ db with
  | [] => None
  | first :: ws =>
      first_batch ← wr_batch first;
      let size := ByteSize first_batch in
      let max_size := if size <=? 128 * 1024 then size + 128 * 1024 else 2 ^ 20 in
      Some (group_loop first first_batch (tmp_batch_ db) max_size size first_batch false 1 ws)
  end.

Record DbIO := MkDbIO {
  dio_new_log : Z → Status * wfile;    (* NewWritableFile(LogFileName(dbname_, number)) *)
  dio_sync : wfile → Status;           (* logfile_->Sync() *)
  dio_close : wfile → Status;          (* logfile_->Close() *)
}.

(** The record is logged, synced and inserted: the status, whether the sync failed,
    the log and the memtable. *)
Definition log_and_insert (io : DbIO) (sync : bool) (b : WriteBatch) (log : Log.Writer) (mem : MemTable) : option (Status * bool * Log.Writer * MemTable) :=
  '(s, log) ← AddRecord log (Contents b);
  let synced := if ok s && sync then dio_sync io (dest_ log) else s in
  let sync_error := ok s && negb (ok synced) in
  if ok synced then
    '(st, s) ← InsertInto C base b mem;
    '(mem, _) ← st;
    Some (s, sync_error, log, mem)
  else Some (synced, sync_error, log, mem).

(** The writer at the front, behind [MakeRoomForWrite]: the status that the writers of
    the group get and how many they are.

    The source releases the mutex around the log append and the memtable insertion.
    The step is one here because only the writer at the front of [writers_] touches
    [log_], [mem_], [logfile_number_] and the last sequence number, and it stays at the
    front until it is done; the group is fixed before the mutex is released, so that a
    writer that enqueues meanwhile is behind it; a reader that starts meanwhile reads
    at the old last sequence number, below that of every entry being inserted; and a
    background call reads [imm_] but never [mem_].  (Readers beside the insertion:
    [skiplist_concurrent_search].) *)
Definition CommitGroup (io : DbIO) (room : Status) (db : DBImpl) : option (Status * nat * DBImpl) :=
  match writers_ db with
  | [] => None
  | w :: _ =>
      match ok room, wr_batch w with
      | true, Some _ =>
          '(b, is_tmp, n) ← BuildBatchGroup db;
          let last_sequence := vs_last_sequence (versions_ db) in
          let b := SetSequence b (u64 (last_sequence + 1)) in
          let last_sequence := u64 (last_sequence + Count b) in
          '(s, sync_error, log, mem) ← log_and_insert io (wr_sync w) b (log_ db) (mem_ db);
          let db := with_log (with_mem db mem (imm_ db)) log (logfile_number_ db) in
          let db := if sync_error : bool then RecordBackgroundError s db else db in
          let db := with_counts db (stats_ db) (u64 (db_number_ db + Count b)) (worth_ db) in
          let db := with_writers db (drop n (writers_ db)) (if is_tmp : bool then WriteBatch.Clear else tmp_batch_ db) in
          Some (s, n, with_version_set db (SetLastSequence last_sequence (versions_ db)))
      | _, _ => Some (room, 1%nat, with_writers db (drop 1 (writers_ db)) (tmp_batch_ db))
      end
  end.

(** One pass of the loop of [MakeRoomForWrite]. *)
Inductive RoomStep := RoomDone (s : Status) | RoomDelay | RoomWait | RoomSwitched.

Definition MakeRoom (io : DbIO) (force allow_delay : bool) (db : DBImpl) : RoomStep * bool * bool * DBImpl :=
  let level0 := NumLevelFiles (versions_ db) 0 in
  if negb (ok (bg_error_ db)) then (RoomDone (bg_error_ db), force, allow_delay, db)
  else if allow_delay && (level0 >=? kL0_SlowdownWritesTrigger) then (RoomDelay, force, false, db)
  else if negb force && (ApproximateMemoryUsage (mem_ db) <=? write_buffer_size options) then (RoomDone Status_OK, force, allow_delay, db)
  else if imm_ db is Some _ then (RoomWait, force, allow_delay, db)
  else if level0 >=? kL0_StopWritesTrigger then (RoomWait, force, allow_delay, db)
  else
    let '(new_log_number, vs) := NewFileNumber (versions_ db) in
    let '(s, lfile) := dio_new_log io new_log_number in
    if ok s then
      let s := dio_close io (dest_ (log_ db)) in
      let db := with_version_set db vs in
      let db := if ok s then db else RecordBackgroundError s db in
      let db := with_log db (NewWriter lfile) new_log_number in
      let db := with_mem db (Ref (NewMemTable base)) (Some (mem_ db)) in
      (RoomSwitched, false, allow_delay, MaybeScheduleCompaction db)
    else (RoomDone s, force, allow_delay, with_version_set db (ReuseFileNumber new_log_number vs)).

(** ** Writing a memtable to a table file *)

(** The entries of the memtable in order. *)
Fixpoint mem_entries_loop (fuel : nat) (m : MemTable) (it : Iterator) : option (list entry) :=
  match fuel with
  | O => None
  | S fuel =>
      if IterValid it then
        k ← MemIterKey m it; v ← MemIterValue m it; it ← MemIterNext m it;
        rest ← mem_entries_loop fuel m it; Some ((k, v) :: rest)
      else Some []
  end.

Definition mem_entries (m : MemTable) : option (list entry) :=
  it ← MemIterSeekToFirst m; mem_entries_loop (S (SkipList.fresh (table_ m))) m it.

(** The status, the size (0 if no file is kept) and the bounds. *)
Definition BuildTable (io : OutputIO) (iter_status : Status) (number : Z) (entries : list entry) : Status * Z * bytes * bytes :=
  match entries with
  | [] => (iter_status, 0, [], [])
  | (first_key, _) :: _ =>
      let s := io_open io number in
      if ok s then
        let smallest := first_key in
        let largest := from_option fst [] (last entries) in
        let s := io_finish io number in
        let file_size := if ok s then io_final_size io entries else 0 in
        let s := if ok s then io_sync io number else s in
        let s := if ok s then io_close io number else s in
        let s := if ok s then io_verify io number else s in
        let s := if ok iter_status then s else iter_status in
        (s, file_size, smallest, largest)
      else (s, 0, [], [])
  end.

(** The parts of the database that [WriteLevel0Table] changes. *)
Record TableState := MkTableState { ts_versions : VersionSet; ts_pending : gset Z; ts_stats : list CompactionStats; ts_worth : list (Z * Z * Z) }.

(** [micros] is the time measured; the new file is added to the edit. *)
Definition write_level0 (io : OutputIO) (micros : Z) (entries : list entry) (edit : VersionEdit) (with_base : option Version) (t : TableState)
    : option (Status * VersionEdit * TableState) :=
  let '(number, vs) := NewFileNumber (ts_versions t) in
  let '(s, file_size, smallest, largest) := BuildTable io Status_OK number entries in
  '(level, edit, worth) ←
    (if ok s && (file_size >? 0) then
       '(level, worth) ← match with_base with
         | Some v =>
             level ← PickLevelForMemTableOutput C (max_file_size options) v (ExtractUserKey smallest) (ExtractUserKey largest);
             Some (level, ts_worth t ++ [(number, Z.of_nat level, GetAccessTimeFromNewSSTable v (vs_store vs) level)])
         | None => Some (0%nat, ts_worth t)
         end;
       Some (level, AddFile (Z.of_nat level) number file_size smallest largest edit, worth)
     else Some (0%nat, edit, ts_worth t));
  let stats := alter (λ st, AddStats st (MkCompactionStats micros 0 file_size)) level (ts_stats t) in
  Some (s, edit, MkTableState vs (({[number]} ∪ ts_pending t) ∖ {[number]}) stats worth).

Definition WriteLevel0Table (io : OutputIO) (micros : Z) (entries : list entry) (edit : VersionEdit) (with_base : option Version) (db : DBImpl)
    : option (Status * VersionEdit * DBImpl) :=
  '(s, edit, t) ← write_level0 io micros entries edit with_base (MkTableState (versions_ db) (db_pending_outputs db) (stats_ db) (worth_ db));
  Some (s, edit, with_pending (with_counts (with_version_set db (ts_versions t)) (ts_stats t) (db_number_ db) (ts_worth t)) (ts_pending t)).

(** ** Removing files *)

Definition keep_file (vs : VersionSet) (live : gset Z) (number : Z) (type : FileType) : bool :=
  match type with
  | kLogFile => (number >=? vs_log_number vs) || (number =? vs_prev_log_number vs)
  | kDescriptorFile => number >=? vs_manifest_file_number vs
  | kTableFile | kTempFile => bool_decide (number ∈ live)
  | kCurrentFile | kDBLockFile | kInfoLogFile => true
  end.

Definition obsolete_file (vs : VersionSet) (live : gset Z) (filename : bytes) : bool :=
  match ParseFileName filename with
  | Some (number, type) => negb (keep_file vs live number type)
  | None => false
  end.

(** The names of the files that are removed; nothing is removed after an error.  The
    entries of removed tables are not subtracted from [number_]: the source looks up
    the size of a name that it has moved away. *)
Definition RemoveObsoleteFiles (filenames : list bytes) (db : DBImpl) : list bytes :=
  if ok (bg_error_ db)
  then List.filter (obsolete_file (versions_ db) (AddLiveFiles (versions_ db) (db_pending_outputs db))) filenames
  else [].

(** The tables for which the source calls [Evict] of the table cache and [Erase] of the
    multi-queue before it removes their files; both keep their own state ([TableCache],
    [MultiQueue]). *)
Definition evicted_tables (removed : list bytes) : list Z :=
  omap (λ name, match ParseFileName name with Some (number, kTableFile) => Some number | _ => None end) removed.

(** ** Flushing the immutable memtable *)

Definition CompactMemTable (io : OutputIO) (mio : ManifestIO) (micros : Z) (filenames : list bytes) (db : DBImpl) : option (DBImpl * list bytes) :=
  imm ← imm_ db;
  entries ← mem_entries imm;
  '(s, edit, db) ← WriteLevel0Table io micros entries Clear (Some (current (versions_ db))) db;
  let s := if ok s && shutting_down_ db then IOError (bs "Deleting DB during memtable compaction") [] else s in
  '(s, db) ← (if ok s then
      let edit := VersionEdit.SetLogNumber (logfile_number_ db) (SetPrevLogNumber 0 edit) in
      '(s, _, vs) ← LogAndApply C mio edit (versions_ db);
      Some (s, with_version_set db vs)
    else Some (s, db));
  if ok s then
    let db := with_mem db (mem_ db) None in
    Some (db, RemoveObsoleteFiles filenames db)
  else Some (RecordBackgroundError s db, []).

(** ** Compactions in the background *)

(** What the environment answers to a flush. *)
Record FlushIO := MkFlushIO { fl_output : OutputIO; fl_manifest : ManifestIO; fl_micros : Z; fl_filenames : list bytes }.

(** What the environment answers to a compaction.  The mutex is released between the
    points where the work looks at the state of the database; [cio_between k] is what
    the other threads do to the state before the [k]th of these points. *)
Record CompactionIO := MkCompactionIO {
  cio_output : OutputIO;
  cio_manifest : ManifestIO;
  cio_input : Compaction → list entry;          (* what MakeInputIterator yields *)
  cio_input_status : list entry → Status;
  cio_filenames : list bytes;
  cio_micros : Z;
  cio_access_time : option (Z → Z);             (* the multi-queue, if there is one *)
  cio_has_imm : nat → bool;                     (* the relaxed load of has_imm_ before an entry *)
  cio_flush : nat → FlushIO;                    (* for the memtable flushed there *)
  cio_between : nat → DBImpl → option DBImpl;
}.

(** Before an entry a memtable that is waiting is flushed. *)
Definition flush_waiting (io : CompactionIO) (n : nat) (db : DBImpl) : option (DBImpl * list bytes) :=
  if cio_has_imm io n then
    db ← cio_between io (3 * n + 1) db;
    match imm_ db with
    | Some _ => let f := cio_flush io n in CompactMemTable (fl_output f) (fl_manifest f) (fl_micros f) (fl_filenames f) db
    | None => Some (db, [])
    end
  else Some (db, []).

(** One entry: if it opens an output file, that takes the next file number, which is
    pending from then on. *)
Definition work_entry (io : CompactionIO) (v : Version) (ks : KeyState) (j : Job) (key value : bytes) (input : list entry) (db : DBImpl)
    : Status * KeyState * Job * DBImpl :=
  let vs := versions_ db in
  let j := MkJob (compact j) (db_pending_outputs db) (tables j) in
  let '(s, ks, j') := compact_entry C (max_file_size options) (cio_output io) (λ _, vs_next_file_number vs) (cio_input_status io) v ks j key value input in
  (s, ks, j', if (length (outputs (compact j)) <? length (outputs (compact j')))%nat
              then with_pending (with_version_set db (NewFileNumber vs).2) (pending_outputs_ j') else db).

(** The loop of [DoCompactionWork]; [n] entries are done and [v] is the input version.
    The result has the status, the job, the number of entries looked at, the entries
    left, the database and the files that flushes removed. *)
Fixpoint work_loop (io : CompactionIO) (v : Version) (n : nat) (ks : KeyState) (j : Job) (db : DBImpl) (input : list entry)
    : option (Status * Job * nat * list entry * DBImpl * list bytes) :=
  db ← cio_between io (3 * n) db;
  match input with
  | [] => Some (Status_OK, j, n, [], db, [])
  | (key, value) :: rest =>
      if shutting_down_ db then Some (Status_OK, j, S n, input, db, [])
      else
        '(db, removed) ← flush_waiting io n db;
        db ← cio_between io (3 * n + 2) db;
        let '(s, ks, j, db) := work_entry io v ks j key value input db in
        if ok s then
          '(s, j, n, rest, db, removed') ← work_loop io v (S n) ks j db rest;
          Some (s, j, n, rest, db, removed ++ removed')
        else Some (s, j, S n, input, db, removed)
  end.

(** [DoCompactionWork], with the files that were removed meanwhile. *)
Definition DoCompactionWork (io : CompactionIO) (c : Compaction) (db : DBImpl) : option (Status * Job * DBImpl * list bytes) :=
  let j := start_job (snd <$> snaps (snapshots_ db)) (vs_last_sequence (versions_ db)) (MkJob (NewCompactionState c) (db_pending_outputs db) []) in
  '(s, j, n, rest, db, removed) ← work_loop io (current (versions_ db)) 0 NewKeyState j db (cio_input io c);
  db ← cio_between io (3 * n + 1) db;
  let '(s, j) := finish_job (cio_output io) (cio_input_status io) (shutting_down_ db) s j rest in
  db ← cio_between io (3 * n + 2) db;
  let vs := versions_ db in
  let stats := alter (λ st, AddStats st (work_stats (cio_micros io) (compact j))) (S (level_ c)) (stats_ db) in
  if ok s then
    let '(c, calls) := InstallCompactionResults C (cio_access_time io) (current vs) (vs_store vs) j in
    let worth := worth_ db ++ zip_with (λ o call, (out_number o, (oc_add_sstable call).1, (oc_add_sstable call).2)) (outputs (compact j)) calls in
    '(s, _, vs) ← LogAndApply C (cio_manifest io) (edit_ c) vs;
    let db := with_counts (with_version_set db vs) stats (db_number_ db) worth in
    Some (s, j, if ok s then db else RecordBackgroundError s db, removed)
  else Some (s, j, RecordBackgroundError s (with_counts db stats (db_number_ db) (worth_ db)), removed).

(** The rest of [BackgroundCompaction] for a compaction that was chosen; the input
    version, with number [id], is released at the end. *)
Definition run_compaction (io : CompactionIO) (is_manual : bool) (id : nat) (c : Compaction) (db : DBImpl) : option (Status * DBImpl * list bytes) :=
  if negb is_manual && IsTrivialMove (max_file_size options) c then
    f ← head (inputs_0 c);
    let edit := AddFile (Z.of_nat (level_ c + 1)) (VersionEdit.number f) (file_size f) (smallest f) (largest f)
                  (RemoveFile (Z.of_nat (level_ c)) (VersionEdit.number f) (edit_ c)) in
    '(s, _, vs) ← LogAndApply C (cio_manifest io) edit (versions_ db);
    let db := with_version_set db vs in
    let db := if ok s then db else RecordBackgroundError s db in
    Some (s, with_version_set db (UnrefVersion id (versions_ db)), [])
  else
    '(s, j, db, removed) ← DoCompactionWork io c db;
    let db := if ok s then db else RecordBackgroundError s db in
    let db := with_pending db (CleanupCompaction (MkJob (compact j) (db_pending_outputs db) (tables j))) in
    let db := with_version_set db (UnrefVersion id (versions_ db)) in
    Some (s, db, removed ++ RemoveObsoleteFiles (cio_filenames io) db).

(** What the manual compaction becomes. *)
Definition finish_manual (m : ManualCompaction) (none : bool) (s : Status) (manual_end : bytes) : ManualCompaction :=
  let m := MkManual (mc_level m) (none || negb (ok s)) (mc_begin m) (mc_end m) in
  if mc_done m then m else MkManual (mc_level m) false (Some manual_end) (mc_end m).

Definition BackgroundCompaction (io : CompactionIO) (db : DBImpl) : option (DBImpl * option ManualCompaction * list bytes) :=
  if imm_ db is Some _ then
    '(db, removed) ← CompactMemTable (cio_output io) (cio_manifest io) (cio_micros io) (cio_filenames io) db;
    Some (db, None, removed)
  else
    let vs := versions_ db in
    match manual_compaction_ db with
    | Some m =>
        r ← Compaction.CompactRange C (max_file_size options) (current vs) (vs_compact_pointer vs) (mc_level m) (mc_begin m) (mc_end m);
        match r with
        | None => Some (with_background db (background_compaction_scheduled_ db) None (bg_error_ db), Some (finish_manual m true Status_OK []), [])
        | Some (c, cp) =>
            '(s, db, removed) ← run_compaction io true (current_id vs) c (with_version_set db (RefVersion (current_id vs) (with_pointers vs cp (vs_store vs))));
            Some (with_background db (background_compaction_scheduled_ db) None (bg_error_ db),
                  Some (finish_manual m false s (from_option largest [] (last (inputs_0 c)))), removed)
        end
    | None =>
        r ← PickCompaction C (max_file_size options) (current vs) (vs_compact_pointer vs);
        match r with
        | None => Some (db, None, [])
        | Some (c, cp) =>
            '(_, db, removed) ← run_compaction io false (current_id vs) c (with_version_set db (RefVersion (current_id vs) (with_pointers vs cp (vs_store vs))));
            Some (db, None, removed)
        end
    end.

Definition BackgroundCall (io : CompactionIO) (db : DBImpl) : option (DBImpl * option ManualCompaction * list bytes) :=
  '(db, m, removed) ←
    (if shutting_down_ db then Some (db, None, [])
     else if negb (ok (bg_error_ db)) then Some (db, None, [])
     else BackgroundCompaction io db);
  Some (MaybeScheduleCompaction (with_background db false (manual_compaction_ db) (bg_error_ db)), m, removed).

(** ** Manual compactions *)

(** The range of [TEST_CompactRange] as internal keys. *)
Definition manual_range (level : nat) (kbegin kend : option bytes) : ManualCompaction :=
  MkManual level false ((λ k, ikey k kMaxSequenceNumber kValueTypeForSeek) <$> kbegin) ((λ k, ikey k 0 kTypeDeletion) <$> kend).

(** One pass of its loop, when it is not waiting. *)
Definition StartManual (m : ManualCompaction) (db : DBImpl) : DBImpl :=
  match manual_compaction_ db with
  | None => MaybeScheduleCompaction (with_background db (background_compaction_scheduled_ db) (Some m) (bg_error_ db))
  | Some _ => db
  end.

(** The last level that [CompactRange] has to compact. *)
Definition max_level_with_files (kbegin kend : option bytes) (db : DBImpl) : option nat :=
  foldl (λ r level, r ← r; b ← OverlapInLevel C (current (versions_ db)) level kbegin kend; Some (if b : bool then level else r))
    (Some 1%nat) (seq 1 (num_levels - 1)).

(** ** Sizes *)

Definition GetApproximateSizes (offset_in : bytes → nat → FileMetaData → option Z) (ranges : list (bytes * bytes)) (db : DBImpl) : list Z :=
  (λ r, let k1 := ikey r.1 kMaxSequenceNumber kValueTypeForSeek in
        let k2 := ikey r.2 kMaxSequenceNumber kValueTypeForSeek in
        let start := ApproximateOffsetOf C (offset_in k1) (current (versions_ db)) k1 in
        let limit := ApproximateOffsetOf C (offset_in k2) (current (versions_ db)) k2 in
        if limit >=? start then limit - start else 0) <$> ranges.

End DbImpl.

(** ** Group commit *)

(** A request to write: the operations of its batch, if it has one, and whether it
    must be synced. *)
Record request := MkRequest { rq_ops : option (list WriteBatch.Op); rq_sync : bool }.

Definition writer_of (r : request) : DbWriter := MkDbWriter (build <$> rq_ops r) (rq_sync r).

Definition ops_of (rs : list request) : list WriteBatch.Op := concat (default [] ∘ rq_ops <$> rs).

(** The bytes of the batches. *)
Definition bytes_of (rs : list request) : Z := foldl (λ n r, n + from_option (λ ops, size (build ops)) 0 (rq_ops r)) 0 rs.

Lemma ops_of_app rs1 rs2 : ops_of (rs1 ++ rs2) = ops_of rs1 ++ ops_of rs2.
Proof. unfold ops_of. by rewrite fmap_app, concat_app. Qed.

Lemma Append_rep seq ops1 seq2 ops2 : Z.of_nat (length ops1 + length ops2) < 2 ^ 31 →
  Append (rep seq ops1) (rep seq2 ops2) = rep seq (ops1 ++ ops2).
Proof.
  intros Hl. unfold Append. rewrite !Count_rep by lia. rewrite SetCount_rep, drop_rep. unfold rep. rewrite records_app, length_app, <-!app_assoc.
  do 4 f_equal. lia.
Qed.

Lemma bytes_of_snoc rs r : bytes_of (rs ++ [r]) = bytes_of rs + from_option (λ ops, size (build ops)) 0 (rq_ops r).
Proof. unfold bytes_of. by rewrite foldl_app. Qed.

Lemma bytes_of_app rs1 rs2 : bytes_of rs1 <= bytes_of (rs1 ++ rs2).
Proof.
  induction rs2 as [|r rs2 IH] using rev_ind; [rewrite app_nil_r; lia|]. rewrite app_assoc, bytes_of_snoc.
  destruct (rq_ops r) as [ops|]; cbn; [pose proof (size_nonneg (build ops))|]; lia.
Qed.

Section group.
  Context (first : request) (ops0 : list WriteBatch.Op) (max_size : Z).

(** What holds for the requests that are in the group. *)
Record in_group (seen : list request) : Prop := {
  ig_sync : rq_sync first = false → Forall (λ r, rq_sync r = false) seen;
  ig_size : ops_of seen = ops0 ∨ bytes_of seen <= max_size;
}.

Lemma group_loop_spec rs : ∀ seen n result (is_tmp : bool), Z.of_nat (length (ops_of (seen ++ rs))) < 2 ^ 31 → Z.of_nat (length ops0) < 2 ^ 31 → bytes_of (seen ++ rs) < 2 ^ 64 →
  result = rep 0 (ops_of seen) → (is_tmp = false → ops_of seen = ops0) → in_group seen →
  ∃ b tmp k, group_loop (writer_of first) (build ops0) NewWriteBatch max_size (bytes_of seen) result is_tmp n (writer_of <$> rs) = (b, tmp, (n + k)%nat) ∧
    (k <= length rs)%nat ∧ b = rep 0 (ops_of (seen ++ take k rs)) ∧ in_group (seen ++ take k rs).
Proof.
  induction rs as [|r rs IH]; intros seen n result is_tmp Hl Hl0 Hb Hr Ht Hg.
  { exists result, is_tmp, 0%nat. rewrite Nat.add_0_r, app_nil_r. done. }
  assert (∃ b tmp k, (result, is_tmp, n) = (b, tmp, (n + k)%nat) ∧ (k <= length (r :: rs))%nat ∧ b = rep 0 (ops_of (seen ++ take k (r :: rs))) ∧ in_group (seen ++ take k (r :: rs))) as Hstop.
  { exists result, is_tmp, 0%nat. rewrite Nat.add_0_r, take_0, app_nil_r. split; [done|]. split; [lia|done]. }
  cbn [fmap list_fmap group_loop]. change (wr_sync (writer_of r)) with (rq_sync r). change (wr_sync (writer_of first)) with (rq_sync first).
  destruct (rq_sync r && negb (rq_sync first)) eqn:Esync; [exact Hstop|].
  assert (rq_sync first = false → Forall (λ r, rq_sync r = false) (seen ++ [r])) as Hsync.
  { intros Hf. apply Forall_app. split; [by apply (ig_sync _ Hg)|]. apply Forall_singleton. rewrite Hf, andb_true_r in Esync. done. }
  assert (∀ result' tmp', result' = rep 0 (ops_of (seen ++ [r])) → (tmp' = false → ops_of (seen ++ [r]) = ops0) → (ops_of (seen ++ [r]) = ops0 ∨ bytes_of (seen ++ [r]) <= max_size) →
    ∃ b tmp k, group_loop (writer_of first) (build ops0) NewWriteBatch max_size (bytes_of (seen ++ [r])) result' tmp' (S n) (writer_of <$> rs) = (b, tmp, (n + k)%nat) ∧
      (k <= length (r :: rs))%nat ∧ b = rep 0 (ops_of (seen ++ take k (r :: rs))) ∧ in_group (seen ++ take k (r :: rs))) as Hgo.
  { intros result' tmp' E1 E2 E3. destruct (IH (seen ++ [r]) (S n) result' tmp') as (b & tmp & k & E & Hk & Hb' & Hg'); [by rewrite <-app_assoc|done|by rewrite <-app_assoc|done|done|by split|].
    exists b, tmp, (S k). rewrite E. split; [f_equal; lia|]. cbn [length take]. rewrite <-app_assoc in Hb', Hg'. split; [lia|done]. }
  rewrite (bytes_of_snoc seen r), ops_of_app in Hgo. destruct (rq_ops r) as [ops|] eqn:Eops; cbn [writer_of wr_batch fmap option_fmap option_map from_option] in *.
  - assert (ops_of [r] = ops) as Er by (unfold ops_of; cbn; rewrite Eops; cbn; by rewrite app_nil_r). rewrite Er in Hgo.
    pose proof (bytes_of_app (seen ++ [r]) rs) as Hle. rewrite <-app_assoc in Hle. cbn [app] in Hle. rewrite bytes_of_snoc, Eops in Hle. cbn [from_option] in Hle.
    assert (0 <= bytes_of seen) as Hpos by (pose proof (bytes_of_app [] seen); done). pose proof (size_nonneg (build ops)).
    change (r :: rs) with ([r] ++ rs) in Hl. rewrite !ops_of_app, Er, !length_app in Hl.
    unfold ByteSize. rewrite Eops. cbn [fmap option_fmap option_map]. rewrite u64_small by range_lia. destruct (Z.gtb_spec (bytes_of seen + size (build ops)) max_size) as [|Hsz]; [exact Hstop|].
    apply Hgo; [|done|by right]. rewrite (build_rep ops) by lia. destruct is_tmp.
    + rewrite Hr, Append_rep by lia. done.
    + rewrite (Ht eq_refl) in *. rewrite build_rep, rep_nil, !Append_rep by (cbn; lia). done.
  - assert (ops_of [r] = []) as Er by (unfold ops_of; cbn; by rewrite Eops). rewrite Er, app_nil_r, Z.add_0_r in Hgo. rewrite Eops. cbn [fmap option_fmap option_map].
    apply Hgo; [done|done|apply Hg].
Qed.

End group.

Lemma BuildBatchGroup_spec {W : WritableFile} (db : DBImpl (W := W)) (first : request) (rs : list request) (ops0 : list WriteBatch.Op) :
  rq_ops first = Some ops0 → writers_ db = writer_of <$> first :: rs → tmp_batch_ db = NewWriteBatch →
  Z.of_nat (length (ops_of (first :: rs))) < 2 ^ 31 → bytes_of (first :: rs) < 2 ^ 64 →
  ∃ b tmp n, BuildBatchGroup db = Some (b, tmp, n) ∧ (1 <= n <= length (writers_ db))%nat ∧
    b = rep 0 (ops_of (take n (first :: rs))) ∧
    (rq_sync first = false → Forall (λ r, rq_sync r = false) (take n (first :: rs))) ∧
    (ops_of (take n (first :: rs)) = ops0 ∨
     bytes_of (take n (first :: rs)) <= if size (build ops0) <=? 128 * 1024 then size (build ops0) + 128 * 1024 else 2 ^ 20).
Proof.
  intros Hf Hw Ht Hl Hb. unfold BuildBatchGroup. rewrite Hw, Ht. change (writer_of <$> first :: rs) with (writer_of first :: (writer_of <$> rs)).
  assert (writer_of first = MkDbWriter (Some (build ops0)) (rq_sync first)) as Ew by (unfold writer_of; by rewrite Hf).
  rewrite Ew. cbn [wr_batch mbind option_bind].
  set (max_size := if _ <=? _ then _ else _).
  assert (ops_of [first] = ops0) as Eo by (unfold ops_of; cbn; rewrite Hf; cbn; by rewrite app_nil_r).
  assert (bytes_of [first] = size (build ops0)) as Eb by (unfold bytes_of; cbn; by rewrite Hf).
  assert (length ops0 <= length (ops_of (first :: rs)))%nat as Hl0 by (change (first :: rs) with ([first] ++ rs); rewrite ops_of_app, Eo, length_app; lia).
  destruct (group_loop_spec first ops0 max_size rs [first] 1 (build ops0) false) as (b & tmp & k & E & Hk & Hb' & [Hs Hsz]).
  - done.
  - lia.
  - done.
  - rewrite Eo. apply build_rep. lia.
  - done.
  - split; [intros; by apply Forall_singleton|by left].
  - rewrite Eb, Ew in E. exists b, tmp, (1 + k)%nat. split; [exact (f_equal Some E)|]. split; [cbn [length]; rewrite length_fmap; lia|]. done.
Qed.

(** C6: The group that the front writer commits.  [BuildBatchGroup] combines the batches
    of the first [n >= 1] waiting writers: its batch holds exactly their operations, in
    the order of the queue, so numbering it consecutively orders the writers as they
    came; no write that wants a sync is hidden in a group that will not be synced; and
    unless the group adds nothing to the first batch, its size is within the limit of
    1 MB (or 128 KB more than a small first batch). *)
Theorem group_commit {W : WritableFile} (db : DBImpl (W := W)) (first : request) (rs : list request) (ops0 : list WriteBatch.Op) :
  rq_ops first = Some ops0 → writers_ db = writer_of <$> first :: rs → tmp_batch_ db = NewWriteBatch →
  Z.of_nat (length (ops_of (first :: rs))) < 2 ^ 31 → bytes_of (first :: rs) < 2 ^ 64 →
  ∃ b tmp n, BuildBatchGroup db = Some (b, tmp, n) ∧ (1 <= n <= length (writers_ db))%nat ∧
    b = rep 0 (ops_of (take n (first :: rs))) ∧
    (rq_sync first = false → Forall (λ r, rq_sync r = false) (take n (first :: rs))) ∧
    (ops_of (take n (first :: rs)) = ops0 ∨
     bytes_of (take n (first :: rs)) <= if size (build ops0) <=? 128 * 1024 then size (build ops0) + 128 * 1024 else 2 ^ 20).
Proof. apply BuildBatchGroup_spec. Qed.

(** Three writers with their batches; the third wants a sync and the first does not. *)
Module GroupExample.
Definition base (i : nat) : Z := 4096 * Z.of_nat i.
Definition requests : list request :=
  [MkRequest (Some [OpPut [x61] [x31]]) false; MkRequest None false; MkRequest (Some [OpDelete [x61]; OpPut [x62] [x32]]) false;
   MkRequest (Some [OpDelete [x62]]) true].
Definition db : DBImpl (W := WritableFileImpl) :=
  MkDB (Ref (NewMemTable base)) None (NewWriter FileState.NewFileState) 3 (writer_of <$> requests) NewWriteBatch NewSnapshotList ∅ false None
    (NewVersionSet (W := WritableFileImpl)) Status_OK false [] 0 [].
End GroupExample.

Lemma group_commit_witness :
  ∃ tmp, BuildBatchGroup GroupExample.db = Some (rep 0 [OpPut [x61] [x31]; OpDelete [x61]; OpPut [x62] [x32]], tmp, 3%nat).
Proof.
  destruct (group_commit GroupExample.db (MkRequest (Some [OpPut [x61] [x31]]) false) (tail GroupExample.requests) [OpPut [x61] [x31]])
    as (b & tmp & n & E & _ & Hb & _); [done|done|done|by vm_compute|by vm_compute|].
  assert (n = 3%nat) as -> by (pose proof (f_equal (fmap snd) E) as En; vm_compute in En; congruence).
  exists tmp. rewrite E, Hb. done.
Defined.
