(* ===== verification/DbHistory.v ===== *)
(** * What the database answers

    The state of the database refines a history of writes: every read returns the
    newest write of its key that its snapshot sees.  The invariant [represents] ties
    the memtables and the files of the current version to the history; it holds
    after every operation of [DbImpl]. *)

From stdpp Require Import gmap.
From Stdlib Require Import Sorted.
From S2P Require Import Prelude Coding Status Env Comparator Log DbFormat Arena Random SkipList MemTable WriteBatch VersionEdit Version VersionBuilder Compaction DbCompaction VersionSet DbImpl.

Section history.
  Context (C : Comparator) {L : ComparatorLaws C} (base : nat → Z) {W : WritableFile} (options : Options).
  Context (cache_get : FileMetaData → nat → bytes → Status * option (bytes * bytes)) (contents : FileMetaData → list Write).

(** ** The invariant *)

(** The files of the current version. *)
Record files_ok (vs : VersionSet (W := W)) : Prop := {
  vf_version : version_ok C cache_get contents (current vs);
  vf_levels : length (files_ (current vs)) = num_levels;
  vf_canonical level f : f ∈ level_files (current vs) level → canonical f;
  vf_number level f : f ∈ level_files (current vs) level → 0 <= number f < vs_next_file_number vs;
  vf_unique l1 l2 f g : f ∈ level_files (current vs) l1 → g ∈ level_files (current vs) l2 → number f = number g → f = g ∧ l1 = l2;
  vf_order level : in_order C (level_files (current vs) level);
  vf_nodup level : NoDup (level_files (current vs) level);
  vf_next : 0 <= vs_next_file_number vs;
  vf_refs : 1 <= v_refs_ (current vs);
  vf_id : (current_id vs < vs_next_id vs)%nat;
}.

Definition imm_holds (imm : option MemTable) (ws : list Write) : Prop :=
  match imm with Some m => filled C m ws | None => ws = [] end.

Definition version_holds (vs : VersionSet (W := W)) : list Write := version_writes contents (current vs).

(** The writes in the three places a read looks at, newer ones first. *)
Record layered (db : DBImpl (W := W)) (wm wi : list Write) : Prop := {
  la_mem : filled C (mem_ db) wm;
  la_imm : imm_holds (imm_ db) wi;
  la_newer_mem : newer C wm (wi ++ version_holds (versions_ db));
  la_newer_imm : newer C wi (version_holds (versions_ db));
}.

(** A user key has at most one write per tag. *)
Definition distinct (h : list Write) : Prop :=
  ∀ w1 w2, w1 ∈ h → w2 ∈ h → @Compare C (wkey w1) (wkey w2) = 0 → ExtractTag (ikey_of w1) = ExtractTag (ikey_of w2) → w1 = w2.

Record represents (db : DBImpl (W := W)) (h : list Write) : Prop := {
  rp_layers : ∃ wm wi, layered db wm wi ∧ ∀ w, w ∈ h ↔ w ∈ wm ++ wi ++ version_holds (versions_ db);
  rp_ok : Forall write_ok h;
  rp_last : Forall (λ w, wseq w <= vs_last_sequence (versions_ db)) h;
  rp_seq : 0 <= vs_last_sequence (versions_ db) < kMaxSequenceNumber;
  rp_files : files_ok (versions_ db);
  rp_tmp : tmp_batch_ db = NewWriteBatch;
  rp_log : 0 <= block_offset_ (log_ db) <= Log.kBlockSize;
  rp_descriptor : descriptor_ok (versions_ db);
  rp_distinct : distinct h;
}.

(** ** Changes that keep the invariant *)

(** The parts of the version set that the invariant is about. *)
Record same_versions (vs vs' : VersionSet (W := W)) : Prop := {
  sv_files : files_ (current vs') = files_ (current vs);
  sv_last : vs_last_sequence vs' = vs_last_sequence vs;
  sv_next : vs_next_file_number vs <= vs_next_file_number vs';
  sv_descriptor : descriptor_ok vs → descriptor_ok vs';
  sv_refs : v_refs_ (current vs) <= v_refs_ (current vs');
  sv_id : current_id vs' = current_id vs ∧ vs_next_id vs' = vs_next_id vs;
}.

Lemma level_files_eq v v' level : files_ v' = files_ v → level_files v' level = level_files v level.
Proof. intros E. unfold level_files. by rewrite E. Qed.

Lemma version_writes_eq v v' : files_ v' = files_ v → version_writes contents v' = version_writes contents v.
Proof. intros E. unfold version_writes, level_files. by rewrite E. Qed.

Lemma version_ok_eq v v' : files_ v' = files_ v → version_ok C cache_get contents v → version_ok C cache_get contents v'.
Proof.
  intros E []. split; intros *; rewrite ?(level_files_eq v v' _ E); eauto.
Qed.

Lemma same_versions_refl vs : same_versions vs vs.
Proof. split; [done|done|lia|done|lia|done]. Qed.

Lemma same_versions_trans vs1 vs2 vs3 : same_versions vs1 vs2 → same_versions vs2 vs3 → same_versions vs1 vs3.
Proof. intros [A1 A2 A3 A4 A5 [A6 A7]] [B1 B2 B3 B4 B5 [B6 B7]]. split; [congruence|congruence|lia|auto|lia|split; congruence]. Qed.

Lemma same_versions_holds vs vs' : same_versions vs vs' → version_holds vs' = version_holds vs.
Proof. intros [E _ _ _ _ _]. by apply version_writes_eq. Qed.

(** A version set that can stand for another one. *)
Record alike (vs vs' : VersionSet (W := W)) : Prop := {
  al_files : files_ (current vs') = files_ (current vs);
  al_last : vs_last_sequence vs' = vs_last_sequence vs;
  al_next : vs_next_file_number vs <= vs_next_file_number vs';
  al_descriptor : descriptor_ok vs → descriptor_ok vs';
  al_refs : 1 <= v_refs_ (current vs');
  al_id : (current_id vs' < vs_next_id vs')%nat;
}.

Lemma same_versions_alike vs vs' : files_ok vs → same_versions vs vs' → alike vs vs'.
Proof. intros Hf [A1 A2 A3 A4 A5 [A6 A7]]. split; try done; [pose proof (vf_refs _ Hf); lia|]. rewrite A6, A7. apply Hf. Qed.

Lemma files_ok_alike vs vs' : alike vs vs' → files_ok vs → files_ok vs'.
Proof.
  intros [E _ Hn _ Hr Hi] Hf. pose proof (λ level, level_files_eq (current vs) (current vs') level E) as El. split.
  - eapply version_ok_eq; [exact E|apply Hf].
  - rewrite E. apply Hf.
  - intros level f. rewrite El. apply Hf.
  - intros level f. rewrite El. intros H%(vf_number _ Hf). lia.
  - intros l1 l2 f g. rewrite !El. apply Hf.
  - intros level. rewrite El. apply Hf.
  - intros level. rewrite El. apply Hf.
  - pose proof (vf_next _ Hf). lia.
  - done.
  - done.
Qed.

Lemma files_ok_same vs vs' : same_versions vs vs' → files_ok vs → files_ok vs'.
Proof. intros Hs Hf. apply (files_ok_alike vs); [by apply same_versions_alike|done]. Qed.

(** Only the version set changes, and not in what counts. *)
Lemma represents_alike db db' h : mem_ db' = mem_ db → imm_ db' = imm_ db → tmp_batch_ db' = tmp_batch_ db → log_ db' = log_ db →
  alike (versions_ db) (versions_ db') → represents db h → represents db' h.
Proof.
  intros E1 E2 E3 E4 Hs [(wm & wi & [A1 A2 A3 A4] & Hh) H2 H3 H4 H5 H6 H7 H8 H9].
  assert (version_holds (versions_ db') = version_holds (versions_ db)) as Ev by (apply version_writes_eq, Hs). split.
  - exists wm, wi. rewrite Ev. split; [|done]. split; rewrite ?E1, ?E2, ?Ev; done.
  - done.
  - by rewrite (al_last _ _ Hs).
  - by rewrite (al_last _ _ Hs).
  - by eapply files_ok_alike.
  - by rewrite E3.
  - by rewrite E4.
  - by apply (al_descriptor _ _ Hs).
  - done.
Qed.

Lemma represents_same db db' h : mem_ db' = mem_ db → imm_ db' = imm_ db → tmp_batch_ db' = tmp_batch_ db → log_ db' = log_ db →
  same_versions (versions_ db) (versions_ db') → represents db h → represents db' h.
Proof. intros E1 E2 E3 E4 Hs Hr. apply (represents_alike db); try done. apply same_versions_alike; [apply Hr|done]. Qed.

Lemma MaybeSchedule_fields db : let db' := MaybeScheduleCompaction db in
  mem_ db' = mem_ db ∧ imm_ db' = imm_ db ∧ tmp_batch_ db' = tmp_batch_ db ∧ versions_ db' = versions_ db ∧ writers_ db' = writers_ db ∧ snapshots_ db' = snapshots_ db ∧ log_ db' = log_ db.
Proof. unfold MaybeScheduleCompaction. by repeat case_match. Qed.

Lemma RecordBackgroundError_fields s db : let db' := RecordBackgroundError s db in
  mem_ db' = mem_ db ∧ imm_ db' = imm_ db ∧ tmp_batch_ db' = tmp_batch_ db ∧ versions_ db' = versions_ db ∧ writers_ db' = writers_ db ∧ snapshots_ db' = snapshots_ db ∧ log_ db' = log_ db.
Proof. unfold RecordBackgroundError. by case_match. Qed.

(** ** Reading *)

Lemma UpdateStats_files v store stats v' store' b : UpdateStats v store stats = (v', store', b) → files_ v' = files_ v ∧ v_refs_ v' = v_refs_ v.
Proof. unfold UpdateStats. destruct (seek_file stats) as [f|]; [destruct (_ && _)|]; by intros [= <- <- <-]. Qed.

Lemma update_version_same v store vs : files_ v = files_ (current vs) ∧ v_refs_ v = v_refs_ (current vs) → same_versions vs (update_version (current_id vs) v store vs).
Proof.
  intros [E Er]. split; [|done|cbn; lia|done|..]; unfold current, update_version, current_id in *; cbn [vs_versions with_versions vs_next_id]; rewrite fmap_last;
    (destruct (last (vs_versions vs)) as [[id v0]|]; [|done]); cbn [fmap option_fmap option_map from_option fst snd] in *; rewrite decide_True by done; cbn; [done|lia|done].
Qed.

(** What a read reports for the newest write. *)
Definition read_result (o : option Write) (value : bytes) : Status * bytes :=
  match o with
  | Some w => match wtype w with kTypeValue => (Status_OK, wvalue w) | kTypeDeletion => (NotFound [] [], value) end
  | None => (NotFound [] [], value)
  end.

(** Only the statistics of a read change. *)
Record same_contents (db db' : DBImpl (W := W)) : Prop := {
  sc_mem : mem_ db' = mem_ db;
  sc_imm : imm_ db' = imm_ db;
  sc_tmp : tmp_batch_ db' = tmp_batch_ db;
  sc_writers : writers_ db' = writers_ db;
  sc_snapshots : snapshots_ db' = snapshots_ db;
  sc_log : log_ db' = log_ db;
  sc_versions : same_versions (versions_ db) (versions_ db');
}.

Lemma same_contents_represents db db' h : same_contents db db' → represents db h → represents db' h.
Proof. intros []. by apply represents_same. Qed.

Lemma same_contents_refl db : same_contents db db.
Proof. split; auto using same_versions_refl. Qed.

Lemma MaybeSchedule_same db : same_contents db (MaybeScheduleCompaction db).
Proof. destruct (MaybeSchedule_fields db) as (? & ? & ? & E & ? & ? & ?). split; auto. rewrite E. apply same_versions_refl. Qed.

Lemma stats_same db v store (b : bool) : files_ v = files_ (current (versions_ db)) ∧ v_refs_ v = v_refs_ (current (versions_ db)) →
  let db' := with_version_set db (update_version (current_id (versions_ db)) v store (versions_ db)) in
  same_contents db (if b then MaybeScheduleCompaction db' else db').
Proof.
  intros E db'. assert (same_contents db db') as H by (split; [done..|by apply update_version_same]).
  destruct b; [|done]. destruct (MaybeSchedule_same db') as [M1 M2 M3 M4 M5 M6 M7], H as [A1 A2 A3 A4 A5 A6 A7].
  split; try congruence. by eapply same_versions_trans.
Qed.

(** Three layers, each newer than those below. *)
Lemma is_newest_layers wm wi wv u s : newer C wm (wi ++ wv) → newer C wi wv → ∀ ov, is_newest C wv u s ov →
  is_newest C (wm ++ wi ++ wv) u s (match newest C wm u s with Some w => Some w | None => match newest C wi u s with Some w => Some w | None => ov end end).
Proof using L.
  intros Hm Hi ov Hov. pose proof (newest_spec C wm u s) as N1. pose proof (newest_spec C wi u s) as N2.
  destruct (newest C wm u s) as [w|]; [by apply is_newest_Some|]. apply is_newest_None; [done|].
  destruct (newest C wi u s) as [w|]; [by apply is_newest_Some|]. by apply is_newest_None.
Qed.

Lemma db_Get db h snapshot u value : represents db h → valid_seq (default (vs_last_sequence (versions_ db)) snapshot) → is_u32 (size u + 8) →
  ∃ o db', Get C cache_get db snapshot u value = Some (read_result o value, db') ∧
    is_newest C h u (default (vs_last_sequence (versions_ db)) snapshot) o ∧ same_contents db db'.
Proof using L.
  intros Hr Hs Hu. set (s := default _ snapshot) in *. destruct (rp_layers _ _ Hr) as (wm & wi & [A1 A2 A3 A4] & Hh).
  pose proof (rp_ok _ _ Hr) as Hok. rewrite Forall_forall in Hok.
  assert (Forall write_ok wm ∧ Forall write_ok wi) as [Hm Hi]
    by (split; apply Forall_forall; intros w Hw; apply Hok, Hh; set_solver).
  destruct (Version.Get_spec C cache_get contents (current (versions_ db)) u s value (vs_store (versions_ db)) (vf_version _ (rp_files _ _ Hr)) Hs)
    as (ov & stats & store & Hov & EG).
  pose proof (is_newest_layers wm wi _ u s A3 A4 ov Hov) as Hn.
  assert (∀ o, is_newest C (wm ++ wi ++ version_holds (versions_ db)) u s o → is_newest C h u s o) as Hext
    by (intros o; apply is_newest_ext; intros w _; by rewrite Hh).
  apply Hext in Hn. unfold Get. fold s. rewrite (Get_newest C (mem_ db) wm u s value Status_OK (filled_contains C _ _ A1) Hm Hs Hu). cbn [mbind option_bind].
  destruct (newest C wm u s) as [w|].
  { exists (Some w), db. unfold report, read_result. destruct (wtype w); auto using same_contents_refl. }
  cbn [report].
  assert (match imm_ db with Some imm => MemTable.Get C imm (NewLookupKey u s) value Status_OK | None => Some (false, value, Status_OK) end =
    Some (report (newest C wi u s) value Status_OK)) as ->.
  { unfold imm_holds in A2. destruct (imm_ db) as [m|]; [|by subst wi]. by apply (Get_newest C m wi u s value Status_OK (filled_contains C _ _ A2)). }
  cbn [mbind option_bind]. destruct (newest C wi u s) as [w|].
  { exists (Some w), db. unfold report, read_result. destruct (wtype w); auto using same_contents_refl. }
  cbn [report]. rewrite EG. cbn [mbind option_bind]. destruct (UpdateStats _ store stats) as [[v store'] b] eqn:EU.
  exists ov. eexists. split; [|split; [exact Hn|apply stats_same; by eapply UpdateStats_files]].
  unfold read_result. destruct ov as [w|]; [destruct (wtype w)|]; done.
Qed.

(** ** Writing *)

Lemma tag_lt w1 w2 : write_ok w1 → write_ok w2 → wseq w2 < wseq w1 → ExtractTag (ikey_of w2) < ExtractTag (ikey_of w1).
Proof. intros H1 H2 Hlt. rewrite !tag_of by (apply H1 || apply H2). destruct (wtype w1), (wtype w2); simpl; lia. Qed.

Lemma newer_seq n ws1 ws2 : Forall write_ok ws1 → Forall write_ok ws2 → Forall (λ w, n < wseq w) ws1 → Forall (λ w, wseq w <= n) ws2 → newer C ws1 ws2.
Proof.
  rewrite !Forall_forall. intros O1 O2 H1 H2 w1 w2 Hw1 Hw2 _. apply tag_lt; [by apply O1|by apply O2|].
  specialize (H1 w1 Hw1). specialize (H2 w2 Hw2). cbn in *. lia.
Qed.

Lemma newer_app_l ws1 ws1' ws2 : newer C ws1 ws2 → newer C ws1' ws2 → newer C (ws1 ++ ws1') ws2.
Proof. intros H1 H2 w1 w2 [Hw|Hw]%elem_of_app; [by apply H1|by apply H2]. Qed.

Lemma number_seqs seq ops : Forall (λ w, seq <= wseq w < seq + Z.of_nat (length ops)) (WriteBatch.number seq ops).
Proof.
  apply Forall_lookup. intros i w Hi. destruct (number_lookup _ _ _ _ Hi) as (op & Hop & ->). apply lookup_lt_Some in Hop.
  rewrite wseq_write_of. lia.
Qed.

Lemma tag_seq w1 w2 : write_ok w1 → write_ok w2 → ExtractTag (ikey_of w1) = ExtractTag (ikey_of w2) → wseq w1 = wseq w2.
Proof. intros H1 H2. rewrite !tag_of by (apply H1 || apply H2). destruct (wtype w1), (wtype w2); simpl; lia. Qed.

Lemma number_distinct seq ops : Forall write_ok (WriteBatch.number seq ops) → distinct (WriteBatch.number seq ops).
Proof.
  intros Hok w1 w2 H1 H2 _ Et. pose proof Hok as Hok'. rewrite Forall_forall in Hok'. pose proof (tag_seq _ _ (Hok' _ H1) (Hok' _ H2) Et) as Es.
  apply list_elem_of_lookup_1 in H1 as [i Hi], H2 as [j Hj]. destruct (number_lookup _ _ _ _ Hi) as (op1 & Ho1 & E1), (number_lookup _ _ _ _ Hj) as (op2 & Ho2 & E2).
  rewrite E1, E2, !wseq_write_of in Es. assert (i = j) as -> by lia. congruence.
Qed.

(** New writes with larger sequence numbers enter the memtable. *)
Lemma represents_insert db db' h mem new : represents db h → (∃ wm wi, layered db wm wi ∧ (∀ w, w ∈ h ↔ w ∈ wm ++ wi ++ version_holds (versions_ db)) ∧ filled C mem (wm ++ new)) →
  Forall write_ok new → Forall (λ w, vs_last_sequence (versions_ db) < wseq w <= vs_last_sequence (versions_ db')) new → distinct new →
  mem_ db' = mem → imm_ db' = imm_ db → tmp_batch_ db' = NewWriteBatch → 0 <= block_offset_ (log_ db') <= Log.kBlockSize →
  vs_next_file_number (versions_ db') = vs_next_file_number (versions_ db) →
  vs_last_sequence (versions_ db) <= vs_last_sequence (versions_ db') < kMaxSequenceNumber → descriptor_ok (versions_ db') → vs_versions (versions_ db') = vs_versions (versions_ db) → vs_next_id (versions_ db') = vs_next_id (versions_ db) → represents db' (h ++ new).
Proof.
  intros Hr (wm & wi & [A1 A2 A3 A4] & Hh & Hmem) Hok Hseq Hdn E1 E2 E3 Hlog E5 Hlast Hdesc Evs Eid.
  assert (current (versions_ db') = current (versions_ db)) as Ecur by (unfold current; by rewrite Evs). assert (files_ (current (versions_ db')) = files_ (current (versions_ db))) as E4 by (by rewrite Ecur).
  destruct Hr as [_ H2 H3 H4 H5 H6 H7 H8 H9].
  assert (version_holds (versions_ db') = version_holds (versions_ db)) as Ev by by apply version_writes_eq.
  assert (newer C new h) as Hnew.
  { apply (newer_seq (vs_last_sequence (versions_ db))); [done|done| |done]. eapply Forall_impl; [exact Hseq|]. cbn. lia. }
  split.
  - exists (wm ++ new), wi. rewrite Ev. split; [|intros w; rewrite !elem_of_app, Hh, !elem_of_app; tauto].
    split; rewrite ?E1, ?E2, ?Ev; try done. apply newer_app_l; [done|]. intros w1 w2 Hw1 Hw2. apply Hnew; [done|]. apply Hh, elem_of_app. by right.
  - apply Forall_app. done.
  - apply Forall_app. split; (eapply Forall_impl; [done|]; cbn; lia).
  - lia.
  - destruct H5 as [F1 F2 F3 F4 F5 F6 F7 F8 F9 F10]. unfold current_id in F10 |- *. split; intros *; unfold current_id; rewrite ?Evs, ?Ecur, ?E5, ?Eid; eauto.
  - done.
  - done.
  - done.
  - intros w1 w2 [W1|W1]%elem_of_app [W2|W2]%elem_of_app E Et; [by apply H9| | |by apply Hdn]; exfalso.
    + apply Compare_eq_sym in E. pose proof (Hnew w2 w1 W2 W1 E). lia.
    + pose proof (Hnew w1 w2 W1 W2 E). lia.
Qed.

(** Logging and inserting a numbered group. *)
Lemma log_and_insert_spec io sync mem old log seq ops : filled C mem old → Forall write_ok old → Forall (λ w, wseq w < seq) old → Forall op_ok ops →
  0 <= seq → Z.of_nat (length ops) < 2 ^ 31 → seq + Z.of_nat (length ops) <= kMaxSequenceNumber → 0 <= block_offset_ log <= Log.kBlockSize →
  ∃ s e log' mem', log_and_insert C base (W := W) io sync (rep seq ops) log mem = Some (s, e, log', mem') ∧ 0 <= block_offset_ log' <= Log.kBlockSize ∧
    if ok s then filled C mem' (old ++ WriteBatch.number seq ops) else mem' = mem.
Proof using L.
  intros Hm Hold Hlt Hok Hs Hl Hmax Hlog. unfold log_and_insert.
  destruct (AddRecord_total log (rep seq ops) Hlog) as (s & log' & E & Hlog'). unfold Contents. rewrite E. cbn [mbind option_bind].
  set (synced := if ok s && sync then _ else s). destruct (ok synced) eqn:Eo.
  - destruct (InsertInto_rep C base mem old seq ops Hm Hold Hlt Hok Hs Hl Hmax) as (m' & Ei & Hm'). rewrite Ei. cbn [mbind option_bind].
    do 4 eexists. split; [done|]. by split.
  - do 4 eexists. split; [done|]. split; [done|]. by rewrite Eo.
Qed.

(** What a commit leaves. *)
Record committed (db db' : DBImpl (W := W)) (requests : list request) (n : nat) (h : list Write) (s : Status) : Prop := {
  cm_count : (1 <= n <= length requests)%nat;
  cm_writers : writers_ db' = writer_of <$> drop n requests;
  cm_snapshots : snapshots_ db' = snapshots_ db;
  cm_versions : vs_versions (versions_ db') = vs_versions (versions_ db) ∧ vs_next_id (versions_ db') = vs_next_id (versions_ db) ∧
    vs_next_file_number (versions_ db') = vs_next_file_number (versions_ db);
  cm_last : vs_last_sequence (versions_ db) <= vs_last_sequence (versions_ db');
  cm_history : represents db' (if ok s then h ++ WriteBatch.number (vs_last_sequence (versions_ db) + 1) (ops_of (take n requests)) else h);
}.

Lemma db_Commit_skip io room db h first rs : represents db h → writers_ db = writer_of <$> first :: rs → ok room = false ∨ rq_ops first = None →
  ∃ db', CommitGroup C base io room db = Some (room, 1%nat, db') ∧ committed db db' (first :: rs) 1 h room.
Proof.
  intros Hr Hw Hskip. unfold CommitGroup. rewrite Hw. change (writer_of <$> first :: rs) with (writer_of first :: (writer_of <$> rs)). cbv iota.
  set (db' := with_writers db (drop 1 (writer_of first :: (writer_of <$> rs))) (tmp_batch_ db)). exists db'. split.
  - destruct Hskip as [->|E]; [done|]. unfold writer_of at 1. rewrite E. cbn. by destruct (ok room).
  - assert (represents db' h) as H by (apply (represents_same db); [done..|apply same_versions_refl|done]).
    split; [cbn; lia|done|done|done|cbn; lia|]. destruct Hskip as [->|E]; [done|]. destruct (ok room); [|done].
    unfold ops_of. cbn [take fmap list_fmap concat compose]. cbn. rewrite E. cbn. by rewrite app_nil_r.
Qed.

Lemma ops_of_take n rs : (length (ops_of (take n rs)) <= length (ops_of rs))%nat.
Proof. rewrite <-(take_drop n rs) at 2. rewrite ops_of_app, length_app. lia. Qed.

Lemma db_Commit_group io room db h first rs ops0 : represents db h → writers_ db = writer_of <$> first :: rs → ok room = true → rq_ops first = Some ops0 →
  Forall op_ok (ops_of (first :: rs)) → Z.of_nat (length (ops_of (first :: rs))) < 2 ^ 31 → bytes_of (first :: rs) < 2 ^ 64 →
  vs_last_sequence (versions_ db) + Z.of_nat (length (ops_of (first :: rs))) < kMaxSequenceNumber →
  ∃ s n db', CommitGroup C base io room db = Some (s, n, db') ∧ committed db db' (first :: rs) n h s.
Proof using L.
  intros Hr Hw Hroom Hf Hok Hl Hb Hmax. destruct (BuildBatchGroup_spec db first rs ops0 Hf Hw (rp_tmp _ _ Hr) Hl Hb) as (b & tmp & n & Eg & Hn & Hb' & _).
  unfold CommitGroup. rewrite Hw in Hn |- *. change (writer_of <$> first :: rs) with (writer_of first :: (writer_of <$> rs)) at 1. cbv iota. rewrite Hroom.
  unfold writer_of at 1. rewrite Hf. cbn [wr_batch fmap option_fmap option_map]. rewrite Eg. cbn [mbind option_bind]. rewrite Hb', SetSequence_rep.
  set (ops := ops_of (take n (first :: rs))). set (last := vs_last_sequence (versions_ db)) in *. pose proof (rp_seq _ _ Hr) as Hlast. fold last in Hlast.
  assert (Z.of_nat (length ops) <= Z.of_nat (length (ops_of (first :: rs)))) as Hlen by (unfold ops; pose proof (ops_of_take n (first :: rs)); lia).
  assert (Forall op_ok ops) as Hops.
  { unfold ops. rewrite <-(take_drop n (first :: rs)), ops_of_app in Hok. by apply Forall_app in Hok as [? _]. }
  rewrite Count_rep by lia. assert (kMaxSequenceNumber = 2 ^ 56 - 1) as Emax by done.
  rewrite (u64_small (last + 1)), (u64_small (last + Z.of_nat (length ops))) by range_lia.
  destruct (rp_layers _ _ Hr) as (wm & wi & Hlay & Hh).
  assert (Forall write_ok wm ∧ Forall (λ w, wseq w < last + 1) wm) as [Hm Hms].
  { pose proof (rp_ok _ _ Hr) as H1. pose proof (rp_last _ _ Hr) as H2. rewrite Forall_forall in H1, H2.
    split; apply Forall_forall; intros w Hw'; [apply H1|assert (wseq w <= last) by (apply H2, Hh; set_solver); lia]; apply Hh; set_solver. }
  destruct (log_and_insert_spec io (wr_sync (writer_of first)) (mem_ db) wm (log_ db) (last + 1) ops (la_mem _ _ _ Hlay) Hm Hms Hops)
    as (s & e & log' & mem' & El & Hlog & Hmem); [lia|lia|lia|apply Hr|].
  replace (log_and_insert _ _ _ _ _ _ _) with (Some (s, e, log', mem')). cbn [mbind option_bind].
  eexists s, n, _. split; [done|]. set (db1 := with_log _ _ _). set (db2 := if e then _ else db1).
  assert (imm_ db2 = imm_ db ∧ mem_ db2 = mem' ∧ log_ db2 = log' ∧ snapshots_ db2 = snapshots_ db ∧ writers_ db2 = writer_of <$> first :: rs ∧ versions_ db2 = versions_ db ∧ tmp_batch_ db2 = tmp_batch_ db) as (B1 & B2 & B3 & B4 & B5 & B6 & B7).
  { subst db2. unfold RecordBackgroundError. destruct e; [destruct (ok (bg_error_ db1))|]; (split_and!; [done..|exact Hw|done|done]). }
  clearbody db2. split; try done.
  - rewrite length_fmap in Hn. exact Hn.
  - cbn. rewrite B5. symmetry. apply fmap_drop.
  - cbn. by rewrite B6.
  - cbn. lia.
  - set (db3 := with_version_set _ _). assert (tmp_batch_ db3 = NewWriteBatch) as Et by (unfold db3; cbn; destruct tmp; [done|]; rewrite B7; apply Hr).
    destruct (ok s) eqn:Es.
    + apply (represents_insert db db3 h mem' (WriteBatch.number (last + 1) ops)); try done.
      * exists wm, wi. by split.
      * apply number_ok; [done|lia|lia].
      * eapply Forall_impl; [apply number_seqs|]. intros w Hw'. cbn beta in *. change (vs_last_sequence (versions_ db3)) with (last + Z.of_nat (length ops)). fold last. lia.
      * apply number_distinct, number_ok; [done|lia|lia].
      * cbn. by rewrite B3.
      * cbn. by rewrite B6.
      * change (vs_last_sequence (versions_ db3)) with (last + Z.of_nat (length ops)). fold last. lia.
      * cbn. rewrite B6. apply Hr.
      * cbn. by rewrite B6.
      * cbn. by rewrite B6.
    + rewrite <-(app_nil_r h). apply (represents_insert db db3 h mem' []); try done.
      * exists wm, wi. rewrite app_nil_r. subst mem'. destruct Hlay. by split.
      * by intros w1 w2 ?%not_elem_of_nil.
      * cbn. by rewrite B3.
      * cbn. by rewrite B6.
      * change (vs_last_sequence (versions_ db3)) with (last + Z.of_nat (length ops)). fold last. lia.
      * cbn. rewrite B6. apply Hr.
      * cbn. by rewrite B6.
      * cbn. by rewrite B6.
Qed.

(** The front writer commits. *)
Lemma db_Commit io room db h first rs : represents db h → writers_ db = writer_of <$> first :: rs →
  Forall op_ok (ops_of (first :: rs)) → Z.of_nat (length (ops_of (first :: rs))) < 2 ^ 31 → bytes_of (first :: rs) < 2 ^ 64 →
  vs_last_sequence (versions_ db) + Z.of_nat (length (ops_of (first :: rs))) < kMaxSequenceNumber →
  ∃ s n db', CommitGroup C base io room db = Some (s, n, db') ∧ committed db db' (first :: rs) n h s.
Proof using L.
  intros Hr Hw Hok Hl Hb Hmax. destruct (ok room) eqn:Er; [destruct (rq_ops first) as [ops0|] eqn:Eo|].
  - by eapply db_Commit_group.
  - exists room, 1%nat. apply db_Commit_skip; auto.
  - exists room, 1%nat. apply db_Commit_skip; auto.
Qed.

(** ** Making room *)

Lemma NewFileNumber_same vs n vs' : NewFileNumber vs = (n, vs') → is_u64 (vs_next_file_number vs) → is_u64 (vs_next_file_number vs + 1) →
  n = vs_next_file_number vs ∧ same_versions vs vs' ∧ vs_next_file_number vs' = n + 1.
Proof.
  intros [= <- <-] H1 H2. split; [done|]. assert (u64 (vs_next_file_number vs + 1) = vs_next_file_number vs + 1) as E by by apply u64_small.
  split; [split; [done|done| |done|apply Z.le_refl|done]|]; cbn; rewrite E; lia.
Qed.

Lemma filled_Ref m ws : filled C m ws → filled C (Ref m) ws.
Proof. done. Qed.

(** The states that differ in nothing that a read sees. *)
Record same_view (db db' : DBImpl (W := W)) : Prop := {
  sw_writers : writers_ db' = writers_ db;
  sw_snapshots : snapshots_ db' = snapshots_ db;
  sw_versions : same_versions (versions_ db) (versions_ db');
}.

Lemma same_view_refl db : same_view db db.
Proof. split; auto using same_versions_refl. Qed.

Lemma represents_switch db db' h : represents db h → imm_ db = None → imm_ db' = Some (mem_ db) → filled C (mem_ db') [] → tmp_batch_ db' = tmp_batch_ db →
  0 <= block_offset_ (log_ db') <= Log.kBlockSize → same_versions (versions_ db) (versions_ db') → represents db' h.
Proof.
  intros [(wm & wi & [A1 A2 A3 A4] & Hh) H2 H3 H4 H5 H6 H7 H8 H9] Ei Ei' Hm Et Hlog Hs. unfold imm_holds in A2. rewrite Ei in A2. subst wi.
  pose proof (same_versions_holds _ _ Hs) as Ev. split.
  - exists [], wm. rewrite Ev. split; [|done]. split; rewrite ?Ei', ?Ev; try done. by intros w1 w2 ?%not_elem_of_nil.
  - done.
  - by rewrite (sv_last _ _ Hs).
  - by rewrite (sv_last _ _ Hs).
  - by eapply files_ok_same.
  - by rewrite Et.
  - done.
  - by apply (sv_descriptor _ _ Hs).
  - done.
Qed.

Lemma db_MakeRoom io force allow_delay db h : represents db h → is_u64 (vs_next_file_number (versions_ db) + 1) →
  let db' := (MakeRoom base options io force allow_delay db).2 in represents db' h ∧ same_view db db'.
Proof.
  intros Hr Hn db'. subst db'. unfold MakeRoom. pose proof (vf_next _ (rp_files _ _ Hr)) as Hn0.
  destruct (negb _); [auto using same_view_refl|]. destruct (_ && _); [auto using same_view_refl|]. destruct (_ && _); [auto using same_view_refl|].
  destruct (imm_ db) eqn:Ei; [auto using same_view_refl|]. destruct (_ >=? _); [auto using same_view_refl|].
  destruct (NewFileNumber (versions_ db)) as [n vs] eqn:En. destruct (NewFileNumber_same _ _ _ En) as (-> & Hs & Hnext); [range_lia|done|].
  destruct (dio_new_log io _) as [s lfile]. destruct (ok s).
  - cbn [snd]. set (close := if ok _ then _ else _). set (db1 := with_mem _ _ _).
    destruct (MaybeSchedule_same db1) as [M1 M2 M3 M4 M5 M6 M7].
    assert (versions_ close = vs ∧ tmp_batch_ close = tmp_batch_ db ∧ writers_ close = writers_ db ∧ snapshots_ close = snapshots_ db ∧ mem_ close = mem_ db) as (B1 & B2 & B3 & B4 & B5)
      by (subst close; unfold RecordBackgroundError; repeat case_match; done).
    assert (represents db1 h) as H1.
    { apply (represents_switch db); try done.
      - cbn. by rewrite B5.
      - by apply filled_Ref, NewMemTable_filled.
      - change (versions_ db1) with (versions_ close). by rewrite B1. }
    split; [by apply (same_contents_represents db1); [apply MaybeSchedule_same|]|]. split.
    + rewrite M4. exact B3.
    + rewrite M5. exact B4.
    + eapply same_versions_trans; [exact Hs|]. rewrite <-B1. exact M7.
  - cbn [snd]. unfold ReuseFileNumber. rewrite u64_small, Hnext, Z.eqb_refl by done.
    set (db1 := with_version_set _ _).
    assert (same_versions (versions_ db) (versions_ db1)) as Hs1 by (destruct Hs; split; [done|done|cbn; lia|done|done|done]).
    split; [apply (represents_same db); done|]. by split.
Qed.

(** ** Snapshots and the queue *)

Lemma db_Enqueue w db h : represents db h → represents (Enqueue w db) h.
Proof. intros Hr. apply (represents_same db); [done..|apply same_versions_refl|done]. Qed.

Lemma db_with_snapshots l db h : represents db h → represents (with_snapshots db l) h.
Proof. intros Hr. apply (represents_same db); [done..|apply same_versions_refl|done]. Qed.

End history.
