(* ===== verification/DbFlush.v ===== *)
(** * New versions of the database

    Installing an edit keeps the invariant of the database: what a memtable's flush
    and a compaction must ensure of the files they add and remove, and the flush of
    the immutable memtable ([CompactMemTable], [WriteLevel0Table], [BuildTable]). *)

From stdpp Require Import gmap sorting.
From S2P Require Import Prelude Coding Status Env Comparator Log DbFormat Arena Random SkipList MemTable WriteBatch VersionEdit Version VersionBuilder Compaction DbCompaction VersionSet DbImpl DbHistory.

Section flush.
  Context (C : Comparator) {L : ComparatorLaws C} {W : WritableFile}.
  Context (cache_get : FileMetaData → nat → bytes → Status * option (bytes * bytes)) (contents : FileMetaData → list Write).

(** ** Installing an edit *)

(** The files of a level after the edit. *)
Definition live (v : Version) (e : VersionEdit) (level : nat) : FileMetaData → Prop := after_edit level (λ f, f ∈ level_files v level) e.

(** What must hold of the files then. *)
Record live_ok (live : nat → FileMetaData → Prop) (next : Z) : Prop := {
  lo_file level f : live level f → file_ok C f ∧ bounded C contents f ∧ TableReads C cache_get contents f ∧ canonical f ∧ 0 <= number f < next;
  lo_unique l1 l2 f g : live l1 f → live l2 g → number f = number g → f = g ∧ l1 = l2;
  lo_apart level f g : (0 < level)%nat → live level f → live level g → f ≠ g → ranges_apart C f g;
  lo_newer0 f g : live 0%nat f → live 0%nat g → number g < number f → newer C (contents f) (contents g);
  lo_newer i j f g : (i < j)%nat → live i f → live j g → newer C (contents f) (contents g);
}.

(** The files that an edit is about. *)
Definition involved (v : Version) (e : VersionEdit) (f : FileMetaData) : Prop :=
  (∃ level, f ∈ level_files v level) ∨ ∃ level f0, (Z.of_nat level, f0) ∈ new_files_ e ∧ f = new_file f0.

Lemma level_files_beyond v level : (length (files_ v) <= level)%nat → level_files v level = [].
Proof. intros H. unfold level_files. by rewrite lookup_ge_None_2. Qed.

(** Different numbers below the next one. *)
Lemma numbers_bound (l : list FileMetaData) next : NoDup (number <$> l) → 0 <= next → Forall (λ f, 0 <= number f < next) l → size l <= next.
Proof.
  intros Hd Hn Hf. assert (length (Z.to_nat <$> (number <$> l)) <= length (seq 0 (Z.to_nat next)))%nat as Hl.
  { apply submseteq_length, NoDup_submseteq.
    - apply NoDup_fmap_2_strong; [|done]. intros x y Hx Hy E. rewrite Forall_forall in Hf.
      apply list_elem_of_fmap in Hx as (f & -> & Hfx), Hy as (g & -> & Hgy). pose proof (Hf f Hfx). pose proof (Hf g Hgy). cbn in *. lia.
    - intros x (y & -> & (f & -> & Hfx)%list_elem_of_fmap)%list_elem_of_fmap. rewrite Forall_forall in Hf. pose proof (Hf f Hfx).
      cbn in *. apply elem_of_seq. lia. }
  rewrite !length_fmap, length_seq in Hl. unfold size. lia.
Qed.

Lemma NoDup_numbers (l : list FileMetaData) : NoDup l → (∀ f g, f ∈ l → g ∈ l → number f = number g → f = g) → NoDup (number <$> l).
Proof. intros Hd Hu. apply NoDup_fmap_2_strong; [|done]. intros f g Hf Hg E. by apply Hu. Qed.

Lemma elem_version_writes v w : w ∈ version_writes contents v ↔ ∃ level f, (level < num_levels)%nat ∧ f ∈ level_files v level ∧ w ∈ contents f.
Proof.
  unfold version_writes. rewrite list_elem_of_In, in_concat. split.
  - intros (l & Hl%list_elem_of_In & Hw%list_elem_of_In). apply list_elem_of_fmap in Hl as (fs & -> & Hfs). apply list_elem_of_fmap in Hfs as (level & -> & Hlev).
    apply elem_of_seq in Hlev. apply elem_writes_of in Hw as (f & Hf & Hw). exists level, f. split; [lia|done].
  - intros (level & f & Hlev & Hf & Hw). exists (writes_of contents (level_files v level)). split.
    + apply list_elem_of_In, list_elem_of_fmap. eexists. split; [done|]. apply list_elem_of_fmap. exists level. split; [done|]. apply elem_of_seq. lia.
    + apply list_elem_of_In, elem_writes_of. eauto.
Qed.

Section install.
  Context (vs vs' : VersionSet (W := W)) (e : VersionEdit) (cp : list bytes) (store : Store).
  Hypothesis Hf : files_ok C cache_get contents vs.
  Hypothesis He : edit_levels_ok e.
  Hypothesis HU : ∀ f g, involved (current vs) e f → involved (current vs) e g → number f = number g → f = g.
  Hypothesis Hfresh : ∀ level f0, (Z.of_nat level, f0) ∈ new_files_ e → new_file f0 ∉ level_files (current vs) level.
  Hypothesis Hfiles : files_ (current vs') = files_ (SaveTo C (Apply C (NewBuilder (current vs) cp store) e)).1.
  Hypothesis Hnext : 0 <= vs_next_file_number vs' < 2 ^ 31.
  Hypothesis Hlive : live_ok (live (current vs) e) (vs_next_file_number vs').
  Hypothesis Hrefs : 1 <= v_refs_ (current vs') ∧ (current_id vs' < vs_next_id vs')%nat.

Lemma installed_level level : (level < num_levels)%nat → let files := level_files (current vs') level in
  (∀ f, f ∈ files ↔ live (current vs) e level f) ∧ in_order C files ∧ NoDup files ∧ ((0 < level)%nat → level_sorted C files).
Proof using All.
  intros Hl files. assert (files = level_files (SaveTo C (Apply C (NewBuilder (current vs) cp store) e)).1 level) as Ef
    by (unfold files, level_files; by rewrite Hfiles).
  destruct (builder_replay C (current vs) cp store [e] level (involved (current vs) e) Hl HU) as (H1 & H2 & H3).
  - intros f Hf'. left. eauto.
  - by apply Forall_singleton.
  - constructor; [|constructor]. intros f Hf'. right. eauto.
  - apply Hf.
  - cbn [foldl] in *. rewrite <-Ef in *. destruct H3 as [H3 H4]; [apply Hf|constructor; [|constructor]; by apply Hfresh|].
    split_and!; [done|done|done|]. intros Hpos. apply H4.
    + apply Forall_forall. intros f Hf'%H1. by apply (lo_file _ _ Hlive level f).
    + intros f g Hlf Hlg Hne. by apply (lo_apart _ _ Hlive level f g).
Qed.

Lemma installed_levels : length (files_ (current vs')) = num_levels.
Proof using Hfiles.
  rewrite Hfiles. unfold SaveTo. set (b := Apply C _ _).
  assert (∀ ls bases store, length (save_levels C ls bases store).1 = length ls) as Hs.
  { induction ls as [|l ls IH]; intros bases st; [done|]. cbn [save_levels]. destruct (save_level _ _ _) as [fs st1]. specialize (IH (tail bases) st1).
    destruct (save_levels C ls (tail bases) st1). cbn in *. by rewrite IH. }
  specialize (Hs (levels_ b) (files_ (base_ b)) (b_store b)). destruct (save_levels _ _ _ _) as [files st]. cbn [fst files_] in *. rewrite Hs.
  unfold b, Apply. rewrite <-(length_replicate num_levels (MkLevelState ∅ [])). change (replicate num_levels (MkLevelState ∅ [])) with (levels_ (NewBuilder (current vs) cp store)).
  assert (∀ ps b, length (levels_ (foldl (add_file C) b ps)) = length (levels_ b)) as ->
    by (induction ps as [|p ps IH]; intros b0; [done|]; cbn [foldl]; rewrite IH; cbn; by rewrite ?length_alter).
  assert (∀ ps b, length (levels_ (foldl delete_file b ps)) = length (levels_ b)) as ->
    by (induction ps as [|p ps IH]; intros b0; [done|]; cbn [foldl]; rewrite IH; cbn; by rewrite ?length_alter).
  generalize (compact_pointers_ e). intros ps. generalize (NewBuilder (current vs) cp store). induction ps as [|p ps IH]; intros b0; [done|]. cbn [foldl]. by rewrite IH.
Qed.

Lemma installed_elem level f : f ∈ level_files (current vs') level → (level < num_levels)%nat ∧ live (current vs) e level f.
Proof using All.
  intros Hin. destruct (Nat.lt_ge_cases level num_levels) as [Hlt|Hge].
  - split; [done|]. by apply (installed_level level Hlt).
  - rewrite level_files_beyond in Hin by (by rewrite installed_levels). by apply not_elem_of_nil in Hin.
Qed.

Lemma files_ok_install : files_ok C cache_get contents vs'.
Proof using All.
  assert (∀ level, NoDup (level_files (current vs') level) ∧ in_order C (level_files (current vs') level) ∧ ((0 < level)%nat → level_sorted C (level_files (current vs') level))) as Hall.
  { intros level. destruct (Nat.lt_ge_cases level num_levels) as [Hlt|Hge].
    - by destruct (installed_level level Hlt) as (_ & H1 & H2 & H3).
    - rewrite level_files_beyond by (by rewrite installed_levels). split_and!; [constructor|constructor|]. intros _. split; [constructor|]. by intros. }
  assert (∀ level, NoDup (number <$> level_files (current vs') level)) as Hnums.
  { intros level. apply NoDup_numbers; [apply Hall|]. intros f g [_ Hlf]%installed_elem [_ Hlg]%installed_elem E. by apply (lo_unique _ _ Hlive level level). }
  split; [split|..].
  - intros level f [_ Hlf]%installed_elem. by destruct (lo_file _ _ Hlive level f Hlf) as (? & ? & ? & _).
  - intros level. eapply Z.le_lt_trans; [|apply Hnext]. apply numbers_bound; [done|lia|]. apply Forall_forall. intros f [_ Hlf]%installed_elem.
    by apply (lo_file _ _ Hlive level f).
  - intros level. apply Hall.
  - apply Hnums.
  - intros f g [_ Hlf]%installed_elem [_ Hlg]%installed_elem. by apply Hlive.
  - intros i j f g Hij [_ Hlf]%installed_elem [_ Hlg]%installed_elem. by apply (lo_newer _ _ Hlive i j).
  - apply installed_levels.
  - intros level f [_ Hlf]%installed_elem. by apply (lo_file _ _ Hlive level f).
  - intros level f [_ Hlf]%installed_elem. by apply (lo_file _ _ Hlive level f).
  - intros l1 l2 f g [_ Hlf]%installed_elem [_ Hlg]%installed_elem. by apply Hlive.
  - intros level. apply Hall.
  - intros level. apply Hall.
  - lia.
  - apply Hrefs.
  - apply Hrefs.
Qed.

Lemma installed_writes w : w ∈ version_holds contents vs' ↔ ∃ level f, (level < num_levels)%nat ∧ live (current vs) e level f ∧ w ∈ contents f.
Proof using All.
  unfold version_holds. rewrite elem_version_writes. split; intros (level & f & Hl & Hin & Hw); exists level, f; (split_and!; [done| |done]); by apply (installed_level level Hl).
Qed.

End install.

(** ** The entries of a memtable *)

Lemma sorted_at {A} (R : A → A → Prop) (l : list A) i j x y : StronglySorted R l → (i < j)%nat → l !! i = Some x → l !! j = Some y → R x y.
Proof.
  intros H. revert i j. induction H as [|z l Hl IH Hz]; intros [|i] [|j] Hij Hi Hj; simpl in *; try done; try lia.
  - injection Hi as ->. by apply (Forall_lookup_1 _ _ _ _ Hz Hj).
  - apply (IH i j); [lia|done|done].
Qed.

Lemma lookup_sorted {A} (R : A → A → Prop) (l : list A) : (∀ i j x y, (i < j)%nat → l !! i = Some x → l !! j = Some y → R x y) → StronglySorted R l.
Proof.
  induction l as [|a l IH]; intros H; constructor.
  - apply IH. intros i j x y Hij Hx Hy. apply (H (S i) (S j) x y); [lia|done|done].
  - apply Forall_lookup. intros i x Hx. apply (H 0%nat (S i) a x); [lia|done|done].
Qed.

Lemma mem_entries_spec m ws : filled C m ws → Forall write_ok ws →
  ∃ sorted, sorted ≡ₚ ws ∧ StronglySorted (before C) sorted ∧ mem_entries m = Some (entry_of_write <$> sorted).
Proof using L.
  intros (sorted & L' & Hp & Hh) Hok. exists sorted. split; [done|].
  pose proof (holds_sorted _ _ _ Hh) as Hsort. pose proof (holds_iterates _ _ _ Hh) as It.
  assert (∀ i w, sorted !! i = Some w → write_ok w) as Hoks.
  { intros i w Hi. rewrite Forall_forall in Hok. apply Hok. rewrite <-Hp. by eapply list_elem_of_lookup_2. }
  split.
  - apply lookup_sorted. intros i j w1 w2 Hij H1 H2. unfold before. rewrite <-!EntrySlice_entry by eauto.
    apply (Hsort i j); [done| |]; by rewrite list_lookup_fmap, ?H1, ?H2.
  - assert (length sorted < S (SkipList.fresh (table_ m)))%nat as Hlen.
    { destruct Hh as [(hl & I & _) HF]. pose proof (Forall2_length _ _ _ HF) as E. rewrite length_fmap in E. pose proof (si_count _ _ _ I). lia. }
    assert (∀ fuel i, (length sorted - i < fuel)%nat → mem_entries_loop fuel m (L' !! i) = Some (entry_of_write <$> drop i sorted)) as Hloop.
    { induction fuel as [|fuel IH]; intros i Hi; [lia|]. cbn [mem_entries_loop].
      pose proof (it_valid _ _ _ It i) as Ev. cbn beta in Ev. rewrite length_fmap in Ev. rewrite Ev. case_bool_decide as Hlt.
      - destruct (lookup_lt_is_Some_2 sorted i Hlt) as [w Hw]. pose proof (it_key _ _ _ It i) as Ek. cbn beta in Ek. rewrite list_lookup_fmap, Hw in Ek.
        pose proof (it_next _ _ _ It i) as En. cbn beta in En. rewrite length_fmap in En. specialize (En Hlt).
        cbn [fmap option_fmap option_map] in Ek. unfold MemIterKey, MemIterValue, MemIterNext. rewrite Ek. cbn [mbind option_bind].
        rewrite entry_split by eauto. cbn [mbind option_bind]. rewrite EntrySlice_entry, entry_value by eauto. rewrite En. cbn [mbind option_bind].
        rewrite IH by lia. cbn [mbind option_bind]. by rewrite (drop_S _ _ _ Hw).
      - by rewrite drop_ge by lia. }
    unfold mem_entries, MemIterSeekToFirst. pose proof (it_first _ _ _ It) as E1. cbn beta in E1. rewrite E1. cbn [mbind option_bind]. rewrite Hloop by lia. done.
Qed.

(** The version that [LogAndApply] installs, or leaves. *)
Lemma installed_current (vs vs' : VersionSet (W := W)) files : vs_next_id vs' = S (vs_next_id vs) ∧
    (∃ v, last (vs_versions vs') = Some (vs_next_id vs, v) ∧ v_refs_ v = 1 ∧ files_ v = files) →
  files_ (current vs') = files ∧ 1 <= v_refs_ (current vs') ∧ (current_id vs' < vs_next_id vs')%nat.
Proof using. intros (E & v & El & Er & <-). unfold current, current_id. rewrite El, E. cbn. rewrite Er. split; [done|]. split; [done|lia]. Qed.

Lemma unchanged_versions (vs vs' : VersionSet (W := W)) : vs_versions vs' = vs_versions vs ∧ vs_next_id vs' = vs_next_id vs → vs_next_file_number vs' = vs_next_file_number vs →
  vs_last_sequence vs' = vs_last_sequence vs → descriptor_ok vs' → same_versions vs vs'.
Proof using. intros [E Ei] En El Hd. split; unfold current, current_id; rewrite ?E; [done|done|lia|done|done|done]. Qed.

(** ** Adding a file *)

Lemma elem_level v level f : length (files_ v) = num_levels → f ∈ level_files v level → (level < num_levels)%nat.
Proof.
  intros El Hf. destruct (Nat.lt_ge_cases level num_levels) as [|Hge]; [done|]. rewrite level_files_beyond in Hf by lia. by apply not_elem_of_nil in Hf.
Qed.

Lemma files_live_ok vs next : files_ok C cache_get contents vs → vs_next_file_number vs <= next → live_ok (λ level f, f ∈ level_files (current vs) level) next.
Proof.
  intros Hf Hn. destruct (vf_version _ _ _ _ Hf) as [V1 V2 V3 V4 V5 V6]. split; [| | |done|done].
  - intros level f Hin. destruct (V1 level f Hin) as (? & ? & ?). pose proof (vf_number _ _ _ _ Hf level f Hin). split_and!; try done; [by eapply vf_canonical|lia|lia].
  - intros l1 l2 f g. by apply Hf.
  - intros level f g Hpos Hlf Hlg Hne. apply list_elem_of_lookup_1 in Hlf as [i Hi]. apply list_elem_of_lookup_1 in Hlg as [j Hj].
    destruct (Nat.lt_trichotomy i j) as [Hij|[->|Hij]]; [left|congruence|right]; by eapply lv_disjoint; [apply V3| | |].
Qed.

Lemma live_ok_ext live1 live2 next : (∀ level f, live2 level f ↔ live1 level f) → live_ok live1 next → live_ok live2 next.
Proof.
  intros H [L1 L2 L3 L4 L5]. split.
  - intros level f Hf%H. by eapply L1.
  - intros l1 l2 f g Hf%H Hg%H. by apply L2.
  - intros level f g Hp Hf%H Hg%H. by eapply L3.
  - intros f g Hf%H Hg%H. by apply L4.
  - intros i j f g Hij Hf%H Hg%H. by eapply L5.
Qed.

(** Files whose user keys do not meet. *)
Definition keys_apart (f g : FileMetaData) : Prop := @Compare C (file_limit f) (file_start g) < 0 ∨ @Compare C (file_limit g) (file_start f) < 0.

Lemma not_overlaps_apart f g : ¬ overlaps C (Some (file_start f)) (Some (file_limit f)) g → keys_apart f g.
Proof using L.
  intros Hc. unfold keys_apart. destruct (decide (@Compare C (file_limit f) (file_start g) < 0)) as [H1|H1]; [by left|].
  destruct (decide (@Compare C (file_limit g) (file_start f) < 0)) as [H2|H2]; [by right|]. exfalso. apply Hc.
  pose proof (Compare_antisym (file_limit g) (file_start f)). split; intros k [= <-]; lia.
Qed.

Lemma keys_apart_sym f g : keys_apart f g → keys_apart g f.
Proof using. unfold keys_apart. intros [H|H]; [by right|by left]. Qed.

Lemma keys_apart_ranges f g : keys_apart f g → ranges_apart C f g.
Proof using L. intros [H|H]; [left|right]; apply InternalKeyCompare_lt; by left. Qed.

(** The user keys of the entries lie in the range. *)
Lemma bounded_keys f w : bounded C contents f → w ∈ contents f → @Compare C (file_start f) (wkey w) <= 0 ∧ @Compare C (wkey w) (file_limit f) <= 0.
Proof using L.
  intros [Hb _] Hw. destruct (Hb w Hw) as (_ & H1%InternalKeyCompare_user & H2%InternalKeyCompare_user). unfold ikey_of in H1, H2. rewrite ExtractUserKey_ikey in H1, H2. done.
Qed.

Lemma keys_apart_newer f g : bounded C contents f → bounded C contents g → keys_apart f g → newer C (contents f) (contents g).
Proof using L.
  intros Hf Hg Hk w1 w2 H1 H2 E. exfalso. destruct (bounded_keys f w1 Hf H1) as [A1 A2], (bounded_keys g w2 Hg H2) as [B1 B2].
  pose proof (Compare_eq_l _ _ (file_limit f) E) as E1. pose proof (Compare_eq_l _ _ (file_start f) E) as E2.
  destruct Hk as [Hk|Hk].
  - pose proof (Compare_trans (file_start g) (wkey w2) (file_limit f)). pose proof (Compare_antisym (file_limit f) (file_start g)). lia.
  - pose proof (Compare_antisym (file_start f) (wkey w1)). pose proof (Compare_antisym (file_start f) (wkey w2)).
    pose proof (Compare_trans (file_start f) (wkey w2) (file_limit g)). pose proof (Compare_antisym (file_limit g) (file_start f)). lia.
Qed.

(** A file with the newest entries and a new number is added. *)
Lemma live_ok_add vs F l : files_ok C cache_get contents vs → file_ok C F → bounded C contents F → TableReads C cache_get contents F → canonical F →
  number F = vs_next_file_number vs → newer C (contents F) (version_holds contents vs) →
  (l = 0%nat ∨ ∀ k, (k <= l)%nat → clear_of C (current vs) (file_start F) (file_limit F) k) →
  live_ok (λ level f, f ∈ level_files (current vs) level ∨ level = l ∧ f = F) (vs_next_file_number vs + 1).
Proof using L.
  intros Hf Ho Hb Ht Hc Hn Hnew Hl. pose proof (vf_next _ _ _ _ Hf) as Hpos.
  destruct (files_live_ok vs (vs_next_file_number vs + 1) Hf ltac:(lia)) as [L1 L2 L3 L4 L5].
  assert (∀ level f, f ∈ level_files (current vs) level → number f < number F) as Hlt by (intros level f Hin; pose proof (vf_number _ _ _ _ Hf level f Hin); lia).
  assert (∀ level f, f ∈ level_files (current vs) level → newer C (contents F) (contents f)) as Hnewf.
  { intros level f Hin w1 w2 H1 H2. apply Hnew; [done|]. apply elem_version_writes. exists level, f. split_and!; [|done|done]. by apply (elem_level (current vs) level f); [apply Hf|]. }
  assert (∀ k f, (0 < l)%nat → (k <= l)%nat → f ∈ level_files (current vs) k → keys_apart F f) as Hap.
  { intros k f H1 H2 Hin. apply not_overlaps_apart. destruct Hl as [->|Hl]; [lia|]. by apply (Hl k H2). }
  split.
  - intros level f [Hin|[-> ->]]; [by eapply L1|]. split_and!; try done; lia.
  - intros l1 l2 f g [H1|[-> ->]] [H2|[-> ->]] E; [by apply L2|pose proof (Hlt l1 f H1); lia|pose proof (Hlt l2 g H2); lia|done].
  - intros level f g Hlev [H1|[E ->]] [H2|[E' ->]] Hne; [by eapply L3| | |done]; apply keys_apart_ranges; subst level; [apply keys_apart_sym|]; by eapply (Hap l).
  - intros f g [H1|[E ->]] [H2|[E' ->]] Hlt'; [by apply L4|pose proof (Hlt 0%nat f H1); lia|by eapply Hnewf|lia].
  - intros i j f g Hij [H1|[E ->]] [H2|[E' ->]]; [by eapply L5| |by eapply Hnewf|lia]. subst j.
    apply keys_apart_newer; [by apply (L1 i f)|done|]. apply keys_apart_sym. eapply (Hap i); [lia|lia|done].
Qed.

(** ** Writing the memtable *)

Section write.
  Context (options : Options).

(** What the table builder and the environment promise: the file written under the
    number holds these entries, and the table cache reads them. *)
Definition table_written (io : OutputIO) (n : Z) (ws : list Write) : Prop :=
  0 < io_final_size io (entry_of_write <$> ws) ∧
  ∀ f, number f = n → file_size f = io_final_size io (entry_of_write <$> ws) → contents f = ws ∧ TableReads C cache_get contents f.

(** The description of the file. *)
Definition table_file (io : OutputIO) (n : Z) (ws : list Write) (w0 wl : Write) : FileMetaData :=
  NewFileMetaData n (io_final_size io (entry_of_write <$> ws)) (ikey_of w0) (ikey_of wl).

Lemma BuildTable_spec io n ws : let '(s, sz, small, large) := BuildTable io Status_OK n (entry_of_write <$> ws) in
  ok s = true → match ws with
                | [] => sz = 0
                | w0 :: _ => ∃ wl, last ws = Some wl ∧ sz = io_final_size io (entry_of_write <$> ws) ∧ small = ikey_of w0 ∧ large = ikey_of wl
                end.
Proof.
  destruct ws as [|w0 ws]; [done|]. assert (from_option fst [] (last (entry_of_write <$> w0 :: ws)) = from_option ikey_of [] (last (w0 :: ws))) as El
    by (rewrite fmap_last; by destruct (last (w0 :: ws))).
  destruct (last (w0 :: ws)) as [wl|] eqn:Ew; [|by apply last_None in Ew]. cbn [from_option] in El. unfold BuildTable.
  destruct (entry_of_write <$> w0 :: ws) as [|[k v] es] eqn:Ees; [done|]. injection Ees as -> _ _. rewrite El.
  destruct (ok (io_open io n)) eqn:E0; [|by rewrite E0]. change (ok Status_OK) with true. cbv iota.
  destruct (ok (io_finish io n)) eqn:E1; [|by rewrite ?E1]. eauto 10.
Qed.

(** A sorted list of writes and a file that holds it. *)
Lemma table_file_ok io n ws w0 wl : Forall write_ok ws → StronglySorted (before C) ws → head ws = Some w0 → last ws = Some wl → table_written io n ws →
  let F := new_file (table_file io n ws w0 wl) in
  file_ok C F ∧ bounded C contents F ∧ TableReads C cache_get contents F ∧ canonical F ∧ number F = n ∧ contents F = ws.
Proof using L.
  intros Hok Hs Hh Hl [_ Hw] F. destruct (Hw F eq_refl eq_refl) as [Ec Ht].
  assert (∀ w, w ∈ ws → InternalKeyCompare C (ikey_of w0) (ikey_of w) <= 0 ∧ InternalKeyCompare C (ikey_of w) (ikey_of wl) <= 0) as Hrange.
  { apply last_Some in Hl as [pre ->]. intros w Hin. split.
    - destruct (pre ++ [wl]) as [|w0' ws'] eqn:E; [done|]. injection Hh as ->. apply StronglySorted_inv in Hs as [_ Hs].
      apply elem_of_cons in Hin as [->|Hin]; [rewrite icmp_refl; [lia|done]|]. rewrite Forall_forall in Hs. apply Z.lt_le_incl. by apply Hs.
    - apply elem_of_app in Hin as [Hin| ->%list_elem_of_singleton]; [|rewrite icmp_refl; [lia|done]]. apply Z.lt_le_incl.
      eapply (StronglySorted_app_1_elem_of _ _ _ _ _ Hs); [done|left]. }
  rewrite Forall_forall in Hok. assert (w0 ∈ ws ∧ wl ∈ ws) as [H0 H1] by (split; [by apply head_Some_elem_of|by apply last_Some_elem_of]).
  split_and!; try done.
  - split; [exists (wkey w0), (wseq w0), (wtype w0); split; [done|by apply Hok]|exists (wkey wl), (wseq wl), (wtype wl); split; [done|by apply Hok]|].
    by apply Hrange.
  - split; rewrite Ec; [|by exists wl]. intros w Hin. destruct (Hrange w Hin). split_and!; [by apply Hok|done|done].
Qed.

Lemma version_searchable v : version_ok C cache_get contents v → searchable C v.
Proof. intros Hv level. split_and!; [|apply Hv|by apply Hv]. apply Forall_forall. intros f Hf. by apply (vo_file _ _ _ _ Hv level f). Qed.

(** The edit of a flush adds at most one file. *)
Definition flush_edit (io : OutputIO) (v : Version) (n : Z) (ws : list Write) (edit : VersionEdit) : Prop :=
  deleted_files_ edit = [] ∧
  match ws with
  | [] => new_files_ edit = []
  | w0 :: _ => ∃ l wl, last ws = Some wl ∧ (l < num_levels)%nat ∧ new_files_ edit = [(Z.of_nat l, table_file io n ws w0 wl)] ∧
      (l = 0%nat ∨ ∀ k, (k <= l)%nat → clear_of C v (wkey w0) (wkey wl) k)
  end.

(** The fields that a flush does not touch. *)
Record flush_frame (db db' : DBImpl (W := W)) : Prop := {
  fr_mem : mem_ db' = mem_ db;
  fr_log : log_ db' = log_ db;
  fr_tmp : tmp_batch_ db' = tmp_batch_ db;
  fr_writers : writers_ db' = writers_ db;
  fr_snapshots : snapshots_ db' = snapshots_ db;
}.

Lemma WriteLevel0Table_spec io micros db ws : version_ok C cache_get contents (current (versions_ db)) → (ws ≠ [] → table_written io (vs_next_file_number (versions_ db)) ws) →
  ∃ s edit db1, WriteLevel0Table C options io micros (entry_of_write <$> ws) Clear (Some (current (versions_ db))) db = Some (s, edit, db1) ∧
    flush_frame db db1 ∧ imm_ db1 = imm_ db ∧ bg_error_ db1 = bg_error_ db ∧ versions_ db1 = (NewFileNumber (versions_ db)).2 ∧
    (ok s = true → flush_edit io (current (versions_ db)) (vs_next_file_number (versions_ db)) ws edit).
Proof using L.
  intros Hv Hw. unfold WriteLevel0Table, write_level0. cbn [NewFileNumber ts_versions]. set (n := vs_next_file_number (versions_ db)) in *.
  pose proof (BuildTable_spec io n ws) as Hb. destruct (BuildTable io Status_OK n (entry_of_write <$> ws)) as [[[s sz] small] large].
  destruct (ok s) eqn:Es; [specialize (Hb eq_refl)|]; [|cbn [andb mbind option_bind]; do 3 eexists; split; [done|]; split; [by split|]; by rewrite Es].
  destruct ws as [|w0 ws].
  { subst sz. cbn [andb mbind option_bind Z.gtb Z.compare]. do 3 eexists. split; [done|]. split; [by split|]. done. }
  destruct Hb as (wl & Hl & -> & -> & ->). destruct (Hw ltac:(done)) as [Hsz _]. rewrite (proj2 (Z.gtb_lt _ _) Hsz). cbn [andb].
  assert (∀ w, ExtractUserKey (ikey_of w) = wkey w) as Eu by (intros w; apply ExtractUserKey_ikey). rewrite !Eu. destruct (PickLevel_spec C (max_file_size options) _ (wkey w0) (wkey wl) (version_searchable _ Hv)) as (l & -> & Hl2 & Hc).
  cbn [mbind option_bind]. do 3 eexists. split; [done|]. split; [by split|]. split_and!; [done|done|done|]. intros _. split; [done|].
  exists l, wl. split_and!; [done| |done|done]. unfold num_levels. change kMaxMemCompactLevel with 2 in Hl2. change (Z.to_nat kNumLevels) with 7%nat. lia.
Qed.

Lemma flush_live io v n ws e edit level f : flush_edit io v n ws edit → deleted_files_ e = deleted_files_ edit → new_files_ e = new_files_ edit →
  live v e level f ↔ f ∈ level_files v level ∨
    match ws with [] => False | w0 :: _ => ∃ l wl, new_files_ edit = [(Z.of_nat l, table_file io n ws w0 wl)] ∧ level = l ∧ f = new_file (table_file io n ws w0 wl) end.
Proof.
  intros [Hd Hn] Ed En. unfold live, after_edit. rewrite Ed, En, Hd. destruct ws as [|w0 ws].
  - rewrite Hn. split; [|intros [?|[]]; left; by split; [|apply not_elem_of_nil]]. intros [[? _]|(f0 & ?%not_elem_of_nil & _)]; [by left|done].
  - destruct Hn as (l & wl & _ & _ & -> & _). split.
    + intros [[? _]|(f0 & [= E ->]%list_elem_of_singleton & ->)]; [by left|]. right. exists l, wl. split_and!; [done|lia|done].
    + intros [Hf|(l' & wl' & [= E1 E2] & -> & ->)]; [left; split; [done|apply not_elem_of_nil]|]. right. eexists. split; [|done].
      apply list_elem_of_singleton. f_equal; [lia|]. unfold table_file in *. congruence.
Qed.

Section flush_install.
  Context (io : OutputIO) (vs vs' : VersionSet (W := W)) (ws : list Write) (edit e : VersionEdit) (cp : list bytes) (store : Store).
  Hypothesis Hf : files_ok C cache_get contents vs.
  Hypothesis Hok : Forall write_ok ws.
  Hypothesis Hs : StronglySorted (before C) ws.
  Hypothesis Hw : ws ≠ [] → table_written io (vs_next_file_number vs) ws.
  Hypothesis Hnew : newer C ws (version_holds contents vs).
  Hypothesis Hed : flush_edit io (current vs) (vs_next_file_number vs) ws edit.
  Hypothesis Ed : deleted_files_ e = deleted_files_ edit.
  Hypothesis En : new_files_ e = new_files_ edit.

Lemma flush_levels_ok : edit_levels_ok e.
Proof using All.
  destruct Hed as [Hd Hn]. split; [rewrite Ed, Hd; constructor|]. rewrite En. destruct ws as [|w0 ws']; [rewrite Hn; constructor|].
  destruct Hn as (l & wl & _ & Hl & -> & _). apply Forall_singleton. unfold num_levels in Hl. change kNumLevels with 7 in *. cbn [fst]. lia.
Qed.

(** The new file has the new number. *)
Lemma flush_number level f0 : (Z.of_nat level, f0) ∈ new_files_ e →
  number (new_file f0) = vs_next_file_number vs ∧ (∀ level' g, g ∈ level_files (current vs) level' → number g < vs_next_file_number vs) ∧
  ∀ level' g0, (Z.of_nat level', g0) ∈ new_files_ e → g0 = f0.
Proof using All.
  rewrite En. destruct Hed as [_ Hn]. intros Hin. assert (∃ f1 x, new_files_ edit = [x] ∧ x.2 = f1 ∧ number (new_file f1) = vs_next_file_number vs) as (f1 & x & E & <- & E1).
  { destruct ws as [|w0 ws']; [rewrite Hn in Hin; by apply not_elem_of_nil in Hin|]. destruct Hn as (l & wl & _ & _ & -> & _). do 2 eexists. split_and!; done. }
  rewrite E in Hin |- *. apply list_elem_of_singleton in Hin as Ex. subst x. cbn [snd] in *. split; [done|]. split; [intros level' g Hg; by apply (vf_number _ _ _ _ Hf level' g)|].
  intros level' g0 E2%list_elem_of_singleton. congruence.
Qed.

Lemma flush_live_ok : live_ok (live (current vs) e) (vs_next_file_number vs + 1).
Proof using All.
  set (n := vs_next_file_number vs) in *. eapply live_ok_ext; [intros level f; exact (flush_live io (current vs) n ws e edit level f Hed Ed En)|]. destruct ws as [|w0 ws'].
  - eapply live_ok_ext; [|apply (files_live_ok vs); [done|unfold n; lia]]. tauto.
  - destruct Hed as (_ & l & wl & Hl & _ & E & Hc).
    destruct (table_file_ok io n (w0 :: ws') w0 wl Hok Hs eq_refl Hl (Hw ltac:(done))) as (T1 & T2 & T3 & T4 & T5 & T6).
    eapply live_ok_ext; [|apply (live_ok_add vs (new_file (table_file io n (w0 :: ws') w0 wl)) l); try done].
    + intros level f. split; (intros [H|H]; [by left|right]).
      * destruct H as (l' & wl' & E' & -> & ->). rewrite E in E'. injection E' as E1 E2. assert (l' = l) as -> by lia. split; [done|]. unfold table_file. by rewrite E2.
      * destruct H as [-> ->]. by exists l, wl.
    + by rewrite T6.
    + unfold file_start, file_limit. cbn [smallest largest new_file table_file NewFileMetaData]. unfold ikey_of. by rewrite !ExtractUserKey_ikey.
Qed.

Lemma flush_installed : files_ (current vs') = files_ (SaveTo C (Apply C (NewBuilder (current vs) cp store) e)).1 →
  vs_next_file_number vs' = vs_next_file_number vs + 1 → vs_next_file_number vs' < 2 ^ 31 → 1 <= v_refs_ (current vs') ∧ (current_id vs' < vs_next_id vs')%nat →
  files_ok C cache_get contents vs' ∧ (∀ w, w ∈ version_holds contents vs' ↔ w ∈ ws ++ version_holds contents vs) ∧
  ∀ level f, f ∈ level_files (current vs') level ↔ live (current vs) e level f.
Proof using All.
  intros Hfiles Hnext Hmax Hrefs. pose proof (vf_next _ _ _ _ Hf) as Hn0.
  assert (∀ f g, involved (current vs) e f → involved (current vs) e g → number f = number g → f = g) as HU.
  { intros f g [[l1 H1]|(l1 & f0 & H1 & ->)] [[l2 H2]|(l2 & g0 & H2 & ->)] E.
    - by apply (vf_unique _ _ _ _ Hf l1 l2 f g).
    - destruct (flush_number _ _ H2) as (E2 & Hlt & _). specialize (Hlt _ _ H1). lia.
    - destruct (flush_number _ _ H1) as (E1 & Hlt & _). specialize (Hlt _ _ H2). lia.
    - destruct (flush_number _ _ H1) as (_ & _ & Hu). by rewrite (Hu _ _ H2). }
  assert (∀ level f0, (Z.of_nat level, f0) ∈ new_files_ e → new_file f0 ∉ level_files (current vs) level) as Hfresh.
  { intros level f0 Hin Hin'. destruct (flush_number _ _ Hin) as (E & Hlt & _). specialize (Hlt _ _ Hin'). lia. }
  pose proof flush_live_ok as Hlo. rewrite <-Hnext in Hlo. pose proof flush_levels_ok as Hlev.
  split; [apply (files_ok_install vs vs' e cp store); (done || lia)|].
  pose proof (λ level f, flush_live io (current vs) _ ws e edit level f Hed Ed En) as Hlive. split.
  2: { intros level f. split; [intros Hin; by apply (installed_elem vs vs' e cp store Hf Hlev HU Hfresh Hfiles ltac:(lia) Hlo Hrefs)|].
    intros Hin. apply (installed_level vs vs' e cp store Hf Hlev HU Hfresh Hfiles ltac:(lia) Hlo Hrefs level); [|done].
    apply Hlive in Hin as [Hin|Hin]; [by eapply elem_level; [apply Hf|]|]. destruct ws as [|w0 ws']; [done|]. destruct Hed as (_ & l & wl & _ & Hl & E & _).
    destruct Hin as (l' & wl' & E' & -> & _). rewrite E in E'. injection E' as E1 _. lia. }
  intros w. rewrite (installed_writes vs vs' e cp store Hf Hlev HU Hfresh Hfiles) by (done || lia). rewrite elem_of_app. unfold version_holds. rewrite elem_version_writes.
  split.
  - intros (level & f & Hl & Hf'%Hlive & Hwf). destruct Hf' as [Hf'|Hf']; [right; eauto|]. left. destruct ws as [|w0 ws']; [done|].
    destruct Hf' as (l & wl & _ & _ & ->). destruct (Hw ltac:(done)) as [_ Hc]. by destruct (Hc (new_file (table_file io (vs_next_file_number vs) (w0 :: ws') w0 wl)) eq_refl eq_refl) as [<- _].
  - intros [Hin|(level & f & Hl & Hf' & Hwf)]; [|exists level, f; split_and!; [done|apply Hlive; by left|done]]. destruct ws as [|w0 ws']; [by apply not_elem_of_nil in Hin|].
    destruct Hed as (_ & l & wl & _ & Hl & E & _). exists l, (new_file (table_file io (vs_next_file_number vs) (w0 :: ws') w0 wl)). split_and!; [done|apply Hlive; right; eauto|].
    destruct (Hw ltac:(done)) as [_ Hc]. by destruct (Hc (new_file (table_file io (vs_next_file_number vs) (w0 :: ws') w0 wl)) eq_refl eq_refl) as [-> _].
Qed.

End flush_install.

(** A file with the entries of the memtable was added to level [l]. *)
Record file_added (imm : MemTable) (vs vs' : VersionSet (W := W)) (l : nat) (F : FileMetaData) : Prop := {
  fa_level level f : f ∈ level_files (current vs') level ↔ f ∈ level_files (current vs) level ∨ level = l ∧ f = F;
  fa_number : number F = vs_next_file_number vs;
  fa_file : file_ok C F;
  fa_newer : newer C (contents F) (version_holds contents vs);
  fa_place : l = 0%nat ∨ ∀ k, (k <= l)%nat → clear_of C (current vs) (file_start F) (file_limit F) k;
  fa_entries : ∃ ws w0 wl, Forall write_ok ws ∧ mem_entries imm = Some (entry_of_write <$> ws) ∧ head ws = Some w0 ∧ last ws = Some wl ∧
    file_start F = wkey w0 ∧ file_limit F = wkey wl;
}.

(** What a flush does to the versions: nothing, or it installs one with at most one more
    file. *)
Definition flush_effect (imm : MemTable) (vs vs' : VersionSet (W := W)) : Prop :=
  same_versions vs vs' ∨
  (current_id vs < current_id vs')%nat ∧ vs_next_file_number vs < vs_next_file_number vs' ∧
    ((∀ level f, f ∈ level_files (current vs') level ↔ f ∈ level_files (current vs) level) ∨ ∃ l F, file_added imm vs vs' l F).

Lemma flush_effect_installed io imm vs vs' ws edit e : Forall write_ok ws → StronglySorted (before C) ws → mem_entries imm = Some (entry_of_write <$> ws) →
  (ws ≠ [] → table_written io (vs_next_file_number vs) ws) → newer C ws (version_holds contents vs) → flush_edit io (current vs) (vs_next_file_number vs) ws edit →
  deleted_files_ e = deleted_files_ edit → new_files_ e = new_files_ edit → (∀ level f, f ∈ level_files (current vs') level ↔ live (current vs) e level f) →
  (∀ level f, f ∈ level_files (current vs') level ↔ f ∈ level_files (current vs) level) ∨ ∃ l F, file_added imm vs vs' l F.
Proof using L.
  intros Hok Hs Em Hw Hnew Hed Ed En Hin. pose proof (λ level f, flush_live io (current vs) _ ws e edit level f Hed Ed En) as Hlive. destruct ws as [|w0 ws'].
  { left. intros level f. rewrite Hin, Hlive. tauto. }
  right. destruct Hed as (_ & l & wl & Hl & _ & E & Hc). set (n := vs_next_file_number vs) in *.
  destruct (table_file_ok io n (w0 :: ws') w0 wl Hok Hs eq_refl Hl (Hw ltac:(done))) as (T1 & T2 & T3 & T4 & T5 & T6). set (F := new_file (table_file io n (w0 :: ws') w0 wl)) in *.
  assert (file_start F = wkey w0 ∧ file_limit F = wkey wl) as [Es El] by (unfold file_start, file_limit; cbn [F smallest largest new_file table_file NewFileMetaData]; unfold ikey_of; by rewrite !ExtractUserKey_ikey).
  exists l, F. split; [|done|done|by rewrite T6|by rewrite Es, El|exists (w0 :: ws'), w0, wl; done].
  intros level f. rewrite Hin, Hlive, E. split; (intros [H|H]; [by left|right]).
  - destruct H as (l' & wl' & E' & -> & ->). injection E' as E1 E2. assert (l' = l) as -> by lia. split; [done|]. unfold F, table_file. by rewrite E2.
  - destruct H as [-> ->]. by exists l, wl.
Qed.

(** ** The flush *)

(** The immutable memtable became a file. *)
Lemma represents_flushed db db' h imm wi : represents C cache_get contents db h → (∃ wm, layered C contents db wm wi ∧ ∀ w, w ∈ h ↔ w ∈ wm ++ wi ++ version_holds contents (versions_ db)) →
  imm_ db = Some imm → imm_ db' = None → flush_frame db db' → files_ok C cache_get contents (versions_ db') → descriptor_ok (versions_ db') →
  vs_last_sequence (versions_ db') = vs_last_sequence (versions_ db) →
  (∀ w, w ∈ version_holds contents (versions_ db') ↔ w ∈ wi ++ version_holds contents (versions_ db)) → represents C cache_get contents db' h.
Proof.
  intros [_ H2 H3 H4 H5 H6 H7 H8 H9] (wm & [A1 A2 A3 A4] & Hh) Ei Ei' [F1 F2 F3 F4 F5] Hf Hd El Hw. split.
  - exists wm, []. split.
    + split; [by rewrite F1|by rewrite Ei'| |by intros w1 w2 ?%not_elem_of_nil]. intros w1 w2 Hw1 Hw2. apply A3; [done|]. apply Hw. done.
    + intros w. rewrite Hh, !elem_of_app, Hw, !elem_of_app. set_solver.
  - done.
  - by rewrite El.
  - by rewrite El.
  - done.
  - by rewrite F3.
  - by rewrite F2.
  - done.
  - done.
Qed.

Lemma RecordBackgroundError_set s db : ok s = false → ok (bg_error_ (RecordBackgroundError (W := W) s db)) = false.
Proof. intros Hs. unfold RecordBackgroundError. destruct (ok (bg_error_ db)) eqn:E; done. Qed.

Lemma RecordBackgroundError_frame s db : flush_frame db (RecordBackgroundError s db).
Proof. destruct (RecordBackgroundError_fields s db) as (? & ? & ? & ? & ? & ? & ?). by split. Qed.

Lemma flush_frame_trans db1 db2 db3 : flush_frame db1 db2 → flush_frame db2 db3 → flush_frame db1 db3.
Proof. intros [] []. split; congruence. Qed.

(** A flush that failed. *)
Lemma flush_failed s db db' h : represents C cache_get contents db h → flush_frame db db' → imm_ db' = imm_ db → same_versions (versions_ db) (versions_ db') → ok s = false →
  let db'' := RecordBackgroundError s db' in
  represents C cache_get contents db'' h ∧ flush_frame db db'' ∧ vs_last_sequence (versions_ db'') = vs_last_sequence (versions_ db) ∧
  (imm_ db'' = None ∨ ok (bg_error_ db'') = false) ∧ same_versions (versions_ db) (versions_ db'').
Proof.
  intros Hr Hfr Hi Hs Hok db''. destruct (RecordBackgroundError_fields s db') as (R1 & R2 & R3 & R4 & R5 & R6 & R7).
  split_and!; [|eapply flush_frame_trans; [done|apply RecordBackgroundError_frame]| |right; by apply RecordBackgroundError_set|subst db''; by rewrite R4].
  - destruct Hfr. apply (represents_same C cache_get contents db); subst db''; try congruence.
  - subst db''. rewrite R4. apply Hs.
Qed.

Lemma db_Flush io mio micros filenames db h imm : represents C cache_get contents db h → imm_ db = Some imm → vs_next_file_number (versions_ db) + 1 < 2 ^ 31 →
  (∀ ws, Forall write_ok ws → mem_entries imm = Some (entry_of_write <$> ws) → ws ≠ [] → table_written io (vs_next_file_number (versions_ db)) ws) →
  ∃ db' removed, CompactMemTable C options io mio micros filenames db = Some (db', removed) ∧
    represents C cache_get contents db' h ∧ flush_frame db db' ∧ vs_last_sequence (versions_ db') = vs_last_sequence (versions_ db) ∧
    (imm_ db' = None ∨ ok (bg_error_ db') = false) ∧ flush_effect imm (versions_ db) (versions_ db').
Proof using L.
  intros Hr Hi Hmax Hw. destruct (rp_layers _ _ _ _ _ Hr) as (wm & wi & [A1 A2 A3 A4] & Hh). pose proof A2 as A2'. unfold imm_holds in A2'. rewrite Hi in A2'.
  assert (Forall write_ok wi) as Hok by (pose proof (rp_ok _ _ _ _ _ Hr) as Hok; rewrite Forall_forall in Hok |- *; intros w Hwi; apply Hok, Hh; set_solver).
  destruct (mem_entries_spec imm wi A2' Hok) as (sorted & Hp & Hs & Em). pose proof (rp_files _ _ _ _ _ Hr) as Hf. pose proof (vf_next _ _ _ _ Hf) as Hn0.
  unfold CompactMemTable. rewrite Hi. cbn [mbind option_bind]. rewrite Em. cbn [mbind option_bind].
  assert (Forall write_ok sorted) as Hok' by (by rewrite Hp). specialize (Hw sorted Hok' Em).
  destruct (WriteLevel0Table_spec io micros db sorted (vf_version _ _ _ _ Hf) Hw) as (s & edit & db1 & -> & Hfr & Hi1 & Hbg & Ev & Hedit). cbn [mbind option_bind].
  destruct (NewFileNumber (versions_ db)) as [n vs1] eqn:En. destruct (NewFileNumber_same _ _ _ En) as (-> & Hsv & Hnext); [range_lia|range_lia|]. cbn [snd] in Ev.
  set (s1 := if ok s && shutting_down_ db1 then _ else s). destruct (ok s1) eqn:Es1.
  2: { cbn [mbind option_bind]. rewrite Es1. do 2 eexists. split; [done|]. unfold flush_effect. edestruct flush_failed as (? & ? & ? & ? & ?); [..|split_and!; [done|done|done|done|left; done]]; try done. by rewrite Ev. }
  assert (ok s = true) as Es by (unfold s1 in Es1; destruct (ok s) eqn:E; [done|]; cbn [andb] in Es1; congruence). specialize (Hedit Es).
  set (edit1 := VersionEdit.SetLogNumber _ _). rewrite Ev. destruct (LogAndApply_cases C mio edit1 vs1 (sv_descriptor _ _ Hsv (rp_descriptor _ _ _ _ _ Hr)))
    as (s2 & vs2 & -> & Hd2 & N1 & N2 & _ & Hcase). cbn [mbind option_bind]. destruct (ok s2) eqn:Es2.
  - do 2 eexists. split; [done|]. destruct (installed_current vs1 vs2 _ Hcase) as [Hfiles Hrefs].
    assert (current_id vs2 = vs_next_id (versions_ db)) as Hid by (destruct Hcase as (_ & v2 & Hlast & _); unfold current_id; rewrite Hlast; by injection En as <-). clear Hcase. destruct (fill_edit_fields vs1 edit1) as (D1 & D2 & _).
    assert (current vs1 = current (versions_ db)) as Ecur by (by injection En as <-). rewrite Ecur in Hfiles.
    destruct (flush_installed io (versions_ db) vs2 sorted edit (fill_edit vs1 edit1) (vs_compact_pointer vs1) (vs_store vs1)) as (Hf2 & Hw2 & Hl2); try done.
    + intros w1 w2 H1 H2. apply A4; [by rewrite <-Hp|done].
    + by rewrite N1.
    + by rewrite N1, Hnext.
    + assert (flush_frame db (with_mem (with_version_set db1 vs2) (mem_ (with_version_set db1 vs2)) None)) as Hfr' by (destruct Hfr; by split).
      split_and!; [|done|cbn; by rewrite N2, (sv_last _ _ Hsv)|by left|].
      2: { right. cbn. split; [rewrite Hid; pose proof (vf_id _ _ _ _ Hf); lia|]. split; [rewrite N1; lia|]. eapply (flush_effect_installed io imm (versions_ db) vs2 sorted edit (fill_edit vs1 edit1)); try done.
        intros w1 w2 H1 H2. apply A4; [by rewrite <-Hp|done]. }
      apply (represents_flushed db _ h imm wi); try done; [by exists wm|cbn; by rewrite N2, (sv_last _ _ Hsv)|]. intros w. cbn. by rewrite Hw2, !elem_of_app, Hp.
  - do 2 eexists. split; [done|]. unfold flush_effect. edestruct flush_failed as (? & ? & ? & ? & ?); [..|split_and!; [done|done|done|done|left; done]]; try done; [by destruct Hfr|].
    cbn. eapply same_versions_trans; [exact Hsv|]. by apply (unchanged_versions vs1 vs2).
Qed.

End write.

End flush.
