(* ===== verification/DbRefinement.v ===== *)
(** * The database refines a history of writes

    A compaction replaces its input files by its outputs without changing what the
    snapshots that are still in use can read; together with [DbHistory] and [DbFlush]
    this gives the refinement theorem of the database. *)

From stdpp Require Import gmap sorting.
From S2P Require Import Prelude Coding Status Env Comparator Log DbFormat Arena Random SkipList MemTable WriteBatch VersionEdit Version VersionBuilder Compaction DbCompaction VersionSet DbImpl DbHistory DbFlush.

Section refinement.
  Context (C : Comparator) {L : ComparatorLaws C} {W : WritableFile}.
  Context (cache_get : FileMetaData → nat → bytes → Status * option (bytes * bytes)) (contents : FileMetaData → list Write).

(** ** Files next to the inputs *)

Lemma file_lt_newer f g : bounded C contents f → bounded C contents g → file_lt C f g → newer C (contents f) (contents g).
Proof using L.
  intros [Hf _] [Hg _] Hlt w1 w2 H1 H2 E. destruct (Hf w1 H1) as (_ & _ & B1), (Hg w2 H2) as (_ & B2 & _). unfold file_lt in Hlt.
  pose proof (icmp_le_lt_trans C _ _ _ B1 Hlt) as H. pose proof (icmp_lt_le_trans C _ _ _ H B2) as H'. apply (ikey_of_lt C) in H'. lia.
Qed.

(** Behind files without a boundary, no user key continues. *)
Lemma behind_newer lf files f g : no_boundary C lf files → f ∈ files → g ∈ lf → (∀ h, h ∈ files → file_lt C h g) →
  bounded C contents f → bounded C contents g → newer C (contents g) (contents f).
Proof using L.
  intros Hnb Hf Hg Hlt [Bf _] [Bg _] w1 w2 H1 H2 E. exfalso. destruct (FindLargestKey C files) as [k|] eqn:Ek; [|by destruct files; [apply not_elem_of_nil in Hf|]].
  destruct (FindLargestKey_max C files k Ek) as [(p & Hp & Ep) Hmax]. specialize (Hnb k Ek g Hg). pose proof (Hlt p Hp) as Hpg. unfold file_lt in Hpg. rewrite Ep in Hpg.
  destruct (Bf w2 H2) as (_ & _ & B2), (Bg w1 H1) as (_ & B1 & _). pose proof (icmp_trans C _ _ _ B2 (Hmax f Hf)) as Hw2.
  apply not_true_iff_false in Hnb. apply Hnb. apply andb_true_iff. split.
  - rewrite Z.gtb_ltb. apply Z.ltb_lt. pose proof (icmp_antisym C k (smallest g)). lia.
  - apply Z.eqb_eq. apply InternalKeyCompare_user in Hw2, B1. assert (@Compare C (ExtractUserKey k) (file_start g) <= 0) as Hk by (apply InternalKeyCompare_user; lia).
    unfold ikey_of in Hw2, B1. rewrite ExtractUserKey_ikey in Hw2, B1. fold (file_start g) in B1.
    pose proof (Compare_trans (file_start g) (wkey w1) (wkey w2) B1 ltac:(lia)) as G2. pose proof (Compare_trans _ _ _ G2 Hw2). pose proof (Compare_antisym (file_start g) (ExtractUserKey k)). lia.
Qed.

(** Files of two levels that outputs in the second level can replace: what else the
    levels hold is newer, and no file of the second level lies between them. *)
Record replaceable (vs : VersionSet (W := W)) (lvl : nat) (I0 I1 : list FileMetaData) : Prop := {
  rx_sub0 f : f ∈ I0 → f ∈ level_files (current vs) lvl;
  rx_sub1 f : f ∈ I1 → f ∈ level_files (current vs) (lvl + 1);
  rx_rest0 g f : g ∈ level_files (current vs) lvl → g ∉ I0 → f ∈ I0 → newer C (contents g) (contents f);
  rx_rest1 g f : g ∈ level_files (current vs) (lvl + 1) → g ∉ I1 → f ∈ I0 ++ I1 → newer C (contents g) (contents f);
  rx_convex : convex C (level_files (current vs) (lvl + 1)) I0 I1;
}.

Lemma level_bounded vs l f : files_ok C cache_get contents vs → f ∈ level_files (current vs) l → bounded C contents f.
Proof. intros Hf Hin. by destruct (vo_file _ _ _ _ (vf_version _ _ _ _ Hf) l f Hin) as (_ & ? & _). Qed.

Lemma input_file vs lvl I0 I1 f : files_ok C cache_get contents vs → replaceable vs lvl I0 I1 → f ∈ I0 ++ I1 →
  (∃ l, (lvl <= l <= lvl + 1)%nat ∧ f ∈ level_files (current vs) l) ∧ bounded C contents f ∧ file_ok C f.
Proof.
  intros Hf Hrx Hin. assert (∃ l, (lvl <= l <= lvl + 1)%nat ∧ f ∈ level_files (current vs) l) as (l & Hl & Hfl).
  { apply elem_of_app in Hin as [Hin|Hin]; [exists lvl; split; [lia|by apply Hrx]|exists (lvl + 1)%nat; split; [lia|by apply Hrx]]. }
  destruct (vo_file _ _ _ _ (vf_version _ _ _ _ Hf) l f Hfl) as (? & ? & _). eauto.
Qed.

(** The inputs that were chosen can be replaced. *)
Section chosen.
  Context (vs : VersionSet (W := W)) (lvl : nat) (start I0 I1 : list FileMetaData).
  Hypothesis Hf : files_ok C cache_get contents vs.
  Hypothesis Hio : inputs_ok C (current vs) lvl start I0 I1.
  Hypothesis Hclosed : lvl = 0%nat → closed_in C (level_files (current vs) lvl) start.
  Hypothesis Hsplits : (0 < lvl)%nat → splits C (level_files (current vs) lvl) start.

Lemma chosen_file f : f ∈ I0 ++ I1 → bounded C contents f ∧ file_ok C f.
Proof using Hf Hio.
  intros Hin. assert (∃ l, f ∈ level_files (current vs) l) as (l & Hfl) by (apply elem_of_app in Hin as [Hin|Hin]; eexists; [by eapply io_sub0|by eapply io_sub1]).
  by destruct (vo_file _ _ _ _ (vf_version _ _ _ _ Hf) l f Hfl) as (? & ? & _).
Qed.

(** The files of the level that are not inputs are newer. *)
Lemma rest0_newer g f : g ∈ level_files (current vs) lvl → g ∉ I0 → f ∈ I0 → newer C (contents g) (contents f).
Proof using All.
  intros Hg Hnot Hin. pose proof (level_bounded _ _ _ Hf Hg) as Bg. destruct (chosen_file f) as (Bf & _); [apply elem_of_app; by left|].
  destruct (decide (lvl = 0%nat)) as [E|Hne].
  - pose proof (io_closed _ _ _ _ _ _ Hio E (Hclosed E)) as Hc. apply (keys_apart_newer C contents); [done|done|]. apply keys_apart_sym.
    unfold keys_apart. destruct (decide (@Compare C (file_limit f) (file_start g) < 0)); [by left|]. destruct (decide (@Compare C (file_limit g) (file_start f) < 0)); [by right|].
    exfalso. apply Hnot, (Hc f g Hin Hg). pose proof (Compare_antisym (file_limit f) (file_start g)). pose proof (Compare_antisym (file_limit g) (file_start f)). split; lia.
  - destruct (io_splits _ _ _ _ _ _ Hio ltac:(lia) (Hsplits ltac:(lia)) g Hg Hnot) as [Hl|Hr].
    + apply file_lt_newer; [done|done|by apply Hl].
    + by eapply behind_newer; [apply Hio| | | | |].
Qed.

Lemma rest1_newer g f : g ∈ level_files (current vs) (lvl + 1) → g ∉ I1 → f ∈ I0 ++ I1 → newer C (contents g) (contents f).
Proof using All.
  intros Hg Hnot Hin. pose proof (level_bounded _ _ _ Hf Hg) as Bg. destruct (chosen_file f Hin) as (Bf & Of).
  destruct (io_convex _ _ _ _ _ _ Hio g Hg Hnot) as [Hl|Hr]; [apply file_lt_newer; [done|done|by apply Hl]|].
  pose proof Hin as Hin'. apply elem_of_app in Hin as [Hin|Hin].
  - apply (keys_apart_newer C contents); [done|done|]. apply keys_apart_sym. left.
    assert (¬ in_range C I0 g) as Hno by (intros H; by apply Hnot, Hio). unfold in_range in Hno.
    destruct (GetRange_covers C I0 f Hin) as [Hc1 Hc2]. apply InternalKeyCompare_user in Hc1, Hc2.
    destruct (not_overlaps_side C _ _ _ Hno) as [Hs|Hs]; [|exact (Compare_le_lt_trans (file_limit f) _ (file_start g) Hc2 Hs)]. exfalso.
    pose proof (Hr f Hin') as Hlt%file_lt_user; [|done]. destruct (vo_file _ _ _ _ (vf_version _ _ _ _ Hf) _ g Hg) as (Og & _).
    pose proof (file_ok_user C g Og) as Ug. pose proof (file_ok_user C f Of) as Uf. pose proof (Compare_lt_le_trans (file_limit g) _ (file_start f) Hs Hc1) as H1.
    pose proof (Compare_trans _ _ _ (Compare_trans _ _ _ Uf Hlt) Ug). pose proof (Compare_antisym (file_limit g) (file_start f)). lia.
  - eapply (behind_newer (level_files (current vs) (lvl + 1)) I1); try done; [apply Hio|]. intros h Hh. apply Hr. apply elem_of_app. by right.
Qed.

Lemma chosen_replaceable : replaceable vs lvl I0 I1.
Proof using All. split; [apply Hio|apply Hio|exact rest0_newer|exact rest1_newer|apply Hio]. Qed.

End chosen.

(** ** What reads see of a compaction *)

Section replace.
  Context (vs : VersionSet (W := W)) (lvl : nat) (I0 I1 : list FileMetaData).
  Hypothesis Hf : files_ok C cache_get contents vs.
  Hypothesis Hrx : replaceable vs lvl I0 I1.

(** Not an input. *)
Definition remains (level : nat) (f : FileMetaData) : Prop := ¬ (level = lvl ∧ f ∈ I0) ∧ ¬ (level = (lvl + 1)%nat ∧ f ∈ I1).

#[local] Instance remains_dec level f : Decision (remains level f).
Proof. unfold remains. apply _. Defined.

Definition rest_writes (levels : list nat) : list Write :=
  concat ((λ level, writes_of contents (filter (remains level) (level_files (current vs) level))) <$> levels).

Lemma elem_rest_writes levels w : w ∈ rest_writes levels ↔ ∃ level f, level ∈ levels ∧ f ∈ level_files (current vs) level ∧ remains level f ∧ w ∈ contents f.
Proof using.
  unfold rest_writes. rewrite list_elem_of_In, in_concat. split.
  - intros (l & Hl%list_elem_of_In & Hw%list_elem_of_In). apply list_elem_of_fmap in Hl as (level & -> & Hlev). apply elem_writes_of in Hw as (f & Hf' & Hw).
    apply list_elem_of_filter in Hf' as [? ?]. eauto 10.
  - intros (level & f & Hlev & Hin & Hr & Hw). eexists. split; [apply list_elem_of_In, list_elem_of_fmap; by exists level|]. apply list_elem_of_In, elem_writes_of.
    exists f. split; [by apply list_elem_of_filter|done].
Qed.

(** Snapshots from the floor on read the same. *)
Definition reads_as (floor : Z) (h h' : list Write) : Prop :=
  ∀ u s o, floor <= s → is_newest C h u s o → ∃ o', is_newest C h' u s o' ∧ DbCompaction.answer o' = DbCompaction.answer o.

  Context (ws kept wm wi : list Write) (snapshot : Z).
  Hypothesis Hlvl : (lvl + 1 < num_levels)%nat.
  Hypothesis Hws : ∀ w, w ∈ ws ↔ ∃ f, f ∈ I0 ++ I1 ∧ w ∈ contents f.
  Hypothesis Hok : Forall write_ok ws.
  Hypothesis Hs : StronglySorted (before C) ws.
  Hypothesis Hk : keeps C (current vs) lvl snapshot None ws kept.
  Hypothesis Hm : newer C wm (wi ++ version_holds contents vs).
  Hypothesis Hi : newer C wi (version_holds contents vs).

(** What the compaction leaves. *)
Definition compacted_writes : list Write := (wm ++ wi ++ rest_writes (seq 0 (lvl + 2))) ++ kept ++ rest_writes (seq (lvl + 2) (num_levels - (lvl + 2))).

Lemma inputs_stored w : w ∈ ws → w ∈ version_holds contents vs.
Proof using All.
  intros (f & Hin & Hw)%Hws. apply elem_version_writes. destruct (input_file vs lvl I0 I1 f Hf Hrx Hin) as ((l & Hl & Hfl) & _). exists l, f. split_and!; [lia|done|done].
Qed.

Lemma rest_newer : newer C (wm ++ wi ++ rest_writes (seq 0 (lvl + 2))) ws.
Proof using All.
  apply newer_app_l; [intros w1 w2 H1 H2; apply Hm; [done|apply elem_of_app; right; by apply inputs_stored]|].
  apply newer_app_l; [intros w1 w2 H1 H2; apply Hi; [done|by apply inputs_stored]|].
  intros w1 w2 (i & g & Hlev%elem_of_seq & Hg & [R0 R1] & Hw1)%elem_rest_writes (f & Hin & Hw2)%Hws.
  assert (newer C (contents g) (contents f)) as Hn; [|by apply Hn].
  destruct (decide (i = (lvl + 1)%nat)) as [->|Hne]; [eapply rx_rest1; [done|done|tauto|done]|].
  destruct (input_file vs lvl I0 I1 f Hf Hrx Hin) as ((l & Hl & Hfl) & _). destruct (decide (i = lvl)) as [->|Hne'].
  - apply elem_of_app in Hin as [Hin|Hin]; [eapply rx_rest0; [done|done|tauto|done]|].
    apply (vo_newer _ _ _ _ (vf_version _ _ _ _ Hf) lvl (lvl + 1)%nat); [lia|done|by apply Hrx].
  - apply (vo_newer _ _ _ _ (vf_version _ _ _ _ Hf) i l); [lia|done|done].
Qed.

Lemma compacted_reads h : (∀ w, w ∈ h ↔ w ∈ wm ++ wi ++ version_holds contents vs) → reads_as snapshot h compacted_writes.
Proof using All.
  intros Hh u s o Hle Ho. unfold compacted_writes. eapply (keeps_answer C (current vs) lvl snapshot _ ws); [done|done|done|done|exact rest_newer| |].
  - intros w (i & g & Hlev%elem_of_seq & Hg & _ & Hw)%elem_rest_writes. exists i, g. split; [lia|]. split; [done|].
    destruct (bounded_keys C contents g w (level_bounded _ _ _ Hf Hg) Hw) as [B1 B2]. pose proof (Compare_antisym (file_start g) (wkey w)). split; lia.
  - eapply is_newest_ext; [|exact Ho]. intros w _. rewrite Hh, !elem_of_app, !elem_rest_writes. unfold version_holds. rewrite elem_version_writes. split.
    + intros [?|[?|(l & f & Hl & Hin & Hw)]]; [tauto|tauto|]. destruct (decide (remains l f)) as [Hr|Hr].
      * destruct (decide (l < lvl + 2)%nat); [left; right; right|right; right]; exists l, f; (split_and!; [apply elem_of_seq; lia|done|done|done]).
      * right. left. apply Hws. exists f. split; [|done]. unfold remains in Hr. apply elem_of_app.
        destruct (decide (l = lvl ∧ f ∈ I0)); [tauto|]. destruct (decide (l = (lvl + 1)%nat ∧ f ∈ I1)); tauto.
    + intros [[?|[?|(l & f & Hl%elem_of_seq & Hin & _ & Hw)]]|[Hw|(l & f & Hl%elem_of_seq & Hin & _ & Hw)]]; [tauto|tauto| | |].
      * right. right. exists l, f. split_and!; [lia|done|done].
      * right. right. apply elem_version_writes. by apply inputs_stored.
      * right. right. exists l, f. split_and!; [lia|done|done].
Qed.

Lemma elem_compacted w : w ∈ compacted_writes ↔ w ∈ wm ++ wi ∨ (∃ level f, (level < num_levels)%nat ∧ f ∈ level_files (current vs) level ∧ remains level f ∧ w ∈ contents f) ∨ w ∈ kept.
Proof using All.
  unfold compacted_writes. rewrite !elem_of_app, !elem_rest_writes. split.
  - intros [[?|[?|(l & f & Hl%elem_of_seq & ?)]]|[?|(l & f & Hl%elem_of_seq & ?)]]; [tauto|tauto| |tauto|]; right; left; exists l, f; (split; [lia|done]).
  - intros [[?|?]|[(l & f & Hl & Hr)|?]]; [tauto|tauto| |tauto]. destruct (decide (l < lvl + 2)%nat); [left; right; right|right; right]; exists l, f; (split; [apply elem_of_seq; lia|done]).
Qed.

End replace.

Section install.
  Context (vs : VersionSet (W := W)) (lvl : nat) (I0 I1 : list FileMetaData).
  Hypothesis Hf : files_ok C cache_get contents vs.
  Hypothesis Hrx : replaceable vs lvl I0 I1.

(** ** The files after a compaction *)

  Context (outs : list FileMetaData) (next : Z).

Definition replaced (level : nat) (f : FileMetaData) : Prop :=
  (f ∈ level_files (current vs) level ∧ remains lvl I0 I1 level f) ∨ level = (lvl + 1)%nat ∧ f ∈ outs.

  Hypothesis Hnext : vs_next_file_number vs <= next.
  Hypothesis Ho_file : ∀ o, o ∈ outs → file_ok C o ∧ bounded C contents o ∧ TableReads C cache_get contents o ∧ canonical o ∧ 0 <= number o < next.
  Hypothesis Ho_hull : ∀ o, o ∈ outs → (∃ f, f ∈ I0 ++ I1 ∧ InternalKeyCompare C (smallest f) (smallest o) <= 0) ∧ (∃ f, f ∈ I0 ++ I1 ∧ InternalKeyCompare C (largest o) (largest f) <= 0).
  Hypothesis Ho_sub : ∀ o w, o ∈ outs → w ∈ contents o → ∃ f, f ∈ I0 ++ I1 ∧ w ∈ contents f.
  Hypothesis Ho_apart : ∀ o o', o ∈ outs → o' ∈ outs → o ≠ o' → ranges_apart C o o'.
  Hypothesis Ho_number : ∀ o o', o ∈ outs → o' ∈ outs → number o = number o' → o = o'.
  Hypothesis Ho_fresh : ∀ o level g, o ∈ outs → g ∈ level_files (current vs) level → ¬ (level = lvl ∧ g ∈ I0) → ¬ (level = (lvl + 1)%nat ∧ g ∈ I1) → number g ≠ number o.

(** A file of the output level that stays lies beside every output. *)
Lemma rest1_apart g o : g ∈ level_files (current vs) (lvl + 1) → g ∉ I1 → o ∈ outs → ranges_apart C g o.
Proof using All.
  intros Hg Hnot Ho. destruct (Ho_hull o Ho) as [(f1 & H1 & E1) (f2 & H2 & E2)].
  destruct (rx_convex _ _ _ _ Hrx g Hg Hnot) as [Hl|Hr]; [left|right].
  - exact (icmp_lt_le_trans C _ _ _ (Hl f1 H1) E1).
  - exact (icmp_le_lt_trans C _ _ _ E2 (Hr f2 H2)).
Qed.

(** What is newer than the inputs is newer than the outputs. *)
Lemma newer_outputs g o : o ∈ outs → (∀ f, f ∈ I0 ++ I1 → newer C (contents g) (contents f)) → newer C (contents g) (contents o).
Proof using All. intros Ho H w1 w2 H1 H2. destruct (Ho_sub o w2 Ho H2) as (f & Hfin & Hw). by apply (H f Hfin). Qed.

Lemma older_outputs g o : o ∈ outs → (∀ f, f ∈ I0 ++ I1 → newer C (contents f) (contents g)) → newer C (contents o) (contents g).
Proof using All. intros Ho H w1 w2 H1 H2. destruct (Ho_sub o w1 Ho H1) as (f & Hfin & Hw). by apply (H f Hfin). Qed.

Lemma replaced_live_ok : live_ok C cache_get contents replaced next.
Proof using All.
  destruct (files_live_ok C cache_get contents vs next Hf Hnext) as [L1 L2 L3 L4 L5]. split.
  - intros level f [(Hin & _ & _)|[-> Ho]]; [by eapply L1|by apply Ho_file].
  - intros l1 l2 f g [(H1 & A1 & B1)|[-> H1]] [(H2 & A2 & B2)|[-> H2]] E.
    + by apply L2.
    + by destruct (Ho_fresh g l1 f H2 H1 A1 B1).
    + by destruct (Ho_fresh f l2 g H1 H2 A2 B2).
    + by split; [apply Ho_number|].
  - intros level f g Hl [(H1 & A1 & B1)|[E1 H1]] [(H2 & A2 & B2)|[E2 H2]] Hne; [by eapply L3|subst level..|].
    + apply rest1_apart; [done|tauto|done].
    + apply or_comm. apply rest1_apart; [done|tauto|done].
    + by apply Ho_apart.
  - intros f g [(H1 & _)|[E1 _]] [(H2 & _)|[E2 _]] Hlt; [by apply L4|lia..].
  - intros i j f g Hij [(H1 & A1 & B1)|[E1 H1]] [(H2 & A2 & B2)|[E2 H2]]; [by eapply L5| | |lia].
    + apply newer_outputs; [done|]. intros h Hh. subst j. destruct (decide (i = lvl)) as [->|Hne].
      * apply elem_of_app in Hh as [Hh|Hh]; [eapply rx_rest0; [done|done|unfold remains in *; tauto|done]|]. eapply (L5 lvl (lvl + 1)%nat); [lia|done|by apply Hrx].
      * destruct (input_file vs lvl I0 I1 h Hf Hrx Hh) as ((l & Hl & Hhl) & _). eapply (L5 i l); [lia|done|done].
    + subst i. apply older_outputs; [done|]. intros h Hh. destruct (input_file vs lvl I0 I1 h Hf Hrx Hh) as ((l & Hl & Hhl) & _). eapply (L5 l j); [lia|done|done].
Qed.

(** ** Installing the outputs *)

(** The edit deletes the inputs and adds files to the output level. *)
Record compaction_edit (added : list FileMetaData) (e : VersionEdit) : Prop := {
  ce_deleted l n : (l, n) ∈ deleted_files_ e ↔ (l = Z.of_nat lvl ∧ ∃ f, f ∈ I0 ∧ n = number f) ∨ (l = Z.of_nat (lvl + 1) ∧ ∃ f, f ∈ I1 ∧ n = number f);
  ce_new : new_files_ e = (λ f, (Z.of_nat (lvl + 1), f)) <$> added;
}.

  Context (added : list FileMetaData) (e : VersionEdit) (vs' : VersionSet (W := W)) (cp : list bytes) (store : Store).
  Hypothesis Houts : outs = new_file <$> added.
  Hypothesis He : compaction_edit added e.
  Hypothesis Hlvl : (lvl + 1 < num_levels)%nat.
  Hypothesis Hsame : ∀ o level g, o ∈ outs → g ∈ level_files (current vs) level → number g = number o → g = o.
  Hypothesis Hnotin : ∀ o, o ∈ outs → o ∉ level_files (current vs) (lvl + 1).
  Hypothesis Hfiles : files_ (current vs') = files_ (SaveTo C (Apply C (NewBuilder (current vs) cp store) e)).1.
  Hypothesis Hnext' : vs_next_file_number vs' = next.
  Hypothesis Hbound : next < 2 ^ 31.
  Hypothesis Hrefs : 1 <= v_refs_ (current vs') ∧ (current_id vs' < vs_next_id vs')%nat.

Lemma edit_live level f : live (current vs) e level f ↔ replaced level f.
Proof using All.
  unfold live, after_edit, replaced. rewrite (ce_new _ _ He). split.
  - intros [[Hin Hd]|(f0 & Hin & ->)].
    + left. split; [done|]. rewrite (ce_deleted _ _ He) in Hd. split; intros [-> H]; apply Hd; [left|right]; eauto.
    + right. apply list_elem_of_fmap in Hin as (g & [= E ->] & Hg). split; [lia|]. rewrite Houts. apply list_elem_of_fmap. eauto.
  - intros [(Hin & H1 & H2)|[-> Hin]].
    + left. split; [done|]. rewrite (ce_deleted _ _ He). intros [[E (g & Hg & En)]|[E (g & Hg & En)]].
      * assert (level = lvl) as -> by lia. destruct (vf_unique _ _ _ _ Hf lvl lvl f g Hin (rx_sub0 _ _ _ _ Hrx g Hg) En) as [-> _]. by apply H1.
      * assert (level = lvl + 1)%nat as -> by lia. destruct (vf_unique _ _ _ _ Hf _ _ f g Hin (rx_sub1 _ _ _ _ Hrx g Hg) En) as [-> _]. by apply H2.
    + right. rewrite Houts in Hin. apply list_elem_of_fmap in Hin as (f0 & -> & Hin). exists f0. split; [|done]. apply list_elem_of_fmap. eauto.
Qed.

Lemma added_elem level f0 : (Z.of_nat level, f0) ∈ new_files_ e → level = (lvl + 1)%nat ∧ new_file f0 ∈ outs.
Proof using All.
  rewrite (ce_new _ _ He). intros (g & [= E ->] & Hg)%list_elem_of_fmap. split; [lia|]. rewrite Houts. apply list_elem_of_fmap. eauto.
Qed.

Lemma compaction_installed : files_ok C cache_get contents vs' ∧
  ∀ w, w ∈ version_holds contents vs' ↔ ∃ level f, (level < num_levels)%nat ∧ replaced level f ∧ w ∈ contents f.
Proof using All.
  assert (live_ok C cache_get contents (live (current vs) e) (vs_next_file_number vs')) as Hlo.
  { rewrite Hnext'. eapply live_ok_ext; [exact edit_live|exact replaced_live_ok]. }
  assert (∀ f g, involved (current vs) e f → involved (current vs) e g → number f = number g → f = g) as HU.
  { intros f g [[l1 H1]|(l1 & f0 & H1 & ->)] [[l2 H2]|(l2 & g0 & H2 & ->)] E.
    - by apply (vf_unique _ _ _ _ Hf l1 l2 f g).
    - apply added_elem in H2 as [_ H2]. by eapply Hsame.
    - apply added_elem in H1 as [_ H1]. symmetry. by eapply Hsame.
    - apply added_elem in H1 as [_ H1], H2 as [_ H2]. by apply Ho_number. }
  assert (edit_levels_ok e) as Hlev.
  { split; apply Forall_forall.
    - intros [l n] Hin. apply (ce_deleted _ _ He) in Hin. unfold num_levels in Hlvl. change kNumLevels with 7 in *. cbn [fst]. lia.
    - intros p Hin. rewrite (ce_new _ _ He) in Hin. apply list_elem_of_fmap in Hin as (f & -> & _). unfold num_levels in Hlvl. change kNumLevels with 7 in *. cbn [fst]. lia. }
  assert (∀ level f0, (Z.of_nat level, f0) ∈ new_files_ e → new_file f0 ∉ level_files (current vs) level) as Hfresh
    by (intros level f0 [-> Hin]%added_elem; by apply Hnotin).
  pose proof (vf_next _ _ _ _ Hf). assert (0 <= vs_next_file_number vs' < 2 ^ 31) as Hn by lia.
  split; [exact (files_ok_install C cache_get contents vs vs' e cp store Hf Hlev HU Hfresh Hfiles Hn Hlo Hrefs)|].
  intros w. rewrite (installed_writes C cache_get contents vs vs' e cp store Hf Hlev HU Hfresh Hfiles Hn Hlo Hrefs).
  split; intros (level & f & Hl & Hlf & Hw); exists level, f; (split_and!; [done|by apply edit_live|done]).
Qed.

End install.

(** ** The output files *)

Lemma concat_entries_split (ess : list (list entry)) : ∀ ks, concat ess = fmap (M := list) entry_of_write ks →
  ∃ kss, ess = fmap (M := list) (fmap (M := list) entry_of_write) kss ∧ concat kss = ks.
Proof.
  induction ess as [|es ess IH]; intros ks E; cbn in E.
  - exists []. split; [done|]. by destruct ks.
  - symmetry in E. apply fmap_app_inv in E as (k1 & k2 & -> & E & ->). destruct (IH k2 E) as (kss & -> & <-). by exists (k1 :: kss).
Qed.

(** An output as the edit describes it. *)
Definition output_file (o : Output) : FileMetaData := new_file (NewFileMetaData (out_number o) (out_file_size o) (out_smallest o) (out_largest o)).

Section outputs.
  Context (io : OutputIO) (j : Job) (kept : list Write).
  Hypothesis Hj : job_ok io j (entry_of_write <$> kept).
  Hypothesis Hb : builder (compact j) = None.
  Hypothesis Hok : Forall write_ok kept.
  Hypothesis Hs : StronglySorted (before C) kept.
  Hypothesis Hnums : NoDup (out_number <$> outputs (compact j)).

(** The tables that were written hold what they are given. *)
Definition tables_written : Prop := ∀ n es ws, Forall write_ok ws → (n, es) ∈ tables j → es = entry_of_write <$> ws → table_written C cache_get contents io n ws.

  Hypothesis Hw : tables_written.

Lemma segment_sub (segs : list (list Write)) i ks w : segs !! i = Some ks → w ∈ ks → w ∈ concat segs.
Proof. intros Hi Hin. apply list_elem_of_In, in_concat. exists ks. split; [apply list_elem_of_In; by eapply list_elem_of_lookup_2|by apply list_elem_of_In]. Qed.

(** Each output is the file of a segment of the entries. *)
Lemma output_segments : ∃ segs, concat segs = kept ∧ length segs = length (outputs (compact j)) ∧
  ∀ i o, outputs (compact j) !! i = Some o → ∃ ks w0 wl, segs !! i = Some ks ∧ head ks = Some w0 ∧ last ks = Some wl ∧
    table_written C cache_get contents io (out_number o) ks ∧ output_file o = new_file (table_file io (out_number o) ks w0 wl).
Proof using All.
  destruct Hj as [H1 H2 H5]. unfold open_table in H1, H2. rewrite Hb, app_nil_r in H1, H2.
  destruct (concat_entries_split _ kept H2) as (segs & E & Ec). exists segs. split; [done|].
  assert (length segs = length (outputs (compact j))) as El by (rewrite (Forall2_length _ _ _ H1), <-(length_fmap snd), E; by rewrite length_fmap).
  split; [done|]. intros i o Ho. destruct (Forall2_lookup_l _ _ _ _ _ H1 Ho) as ([n es] & Ht & Hn & Hh & Hl). cbn [fst snd] in *.
  assert (tables j !! i = Some (n, es)) as Ht' by done. apply (f_equal (fmap snd)) in Ht. rewrite <-list_lookup_fmap, E, list_lookup_fmap in Ht.
  destruct (segs !! i) as [ks|] eqn:Ek; [|done]. cbn in Ht. injection Ht as <-. rewrite fmap_last in Hl.
  destruct (head ks) as [w0|] eqn:Eh; [|by destruct ks]. destruct (last ks) as [wl|] eqn:Ew; [|done]. change (Some (ikey_of wl) = Some (out_largest o)) in Hl. assert (ikey_of wl = out_largest o) as El' by congruence.
  assert (out_smallest o = ikey_of w0) as Es by (destruct ks as [|k ks]; [done|]; injection Eh as ->; change (Some (ikey_of w0) = Some (out_smallest o)) in Hh; congruence).
  pose proof (H5 i o _ Ho Ht') as Hsz. cbn [snd] in Hsz.
  exists ks, w0, wl. split_and!; try done.
  - rewrite Hn. eapply (Hw n); [|by eapply list_elem_of_lookup_2|done]. rewrite Forall_forall in Hok |- *. intros w Hin. apply Hok. rewrite <-Ec. by eapply segment_sub.
  - unfold output_file, table_file. by rewrite Hsz, Es, <-El'.
Qed.

Lemma segment_sorted (segs : list (list Write)) i ks : StronglySorted (before C) (concat segs) → segs !! i = Some ks → StronglySorted (before C) ks.
Proof.
  revert i. induction segs as [|s segs IH]; intros i Hs' Hi; [done|]. cbn in Hs'. destruct i as [|i]; [injection Hi as ->; by eapply StronglySorted_app_1_l|].
  eapply IH; [by eapply StronglySorted_app_1_r|done].
Qed.

Lemma segments_before (segs : list (list Write)) i k ks ks' w w' : StronglySorted (before C) (concat segs) → (i < k)%nat → segs !! i = Some ks → segs !! k = Some ks' →
  w ∈ ks → w' ∈ ks' → before C w w'.
Proof.
  revert i k. induction segs as [|s segs IH]; intros i k Hs' Hik Hi Hk Hin Hin'; [done|]. destruct k as [|k]; [lia|]. cbn in Hs', Hk. destruct i as [|i].
  - injection Hi as ->. eapply StronglySorted_app_1_elem_of; [done|done|]. by eapply segment_sub.
  - eapply (IH i k); [by eapply StronglySorted_app_1_r|lia|done..].
Qed.

(** What holds of the outputs. *)
Record outputs_ok (outs : list FileMetaData) : Prop := {
  oo_file o : o ∈ outs → file_ok C o ∧ bounded C contents o ∧ TableReads C cache_get contents o ∧ canonical o;
  oo_number o : o ∈ outs → number o ∈ out_number <$> outputs (compact j);
  oo_small o : o ∈ outs → ∃ w, w ∈ kept ∧ smallest o = ikey_of w;
  oo_large o : o ∈ outs → ∃ w, w ∈ kept ∧ largest o = ikey_of w;
  oo_apart o o' : o ∈ outs → o' ∈ outs → o ≠ o' → ranges_apart C o o';
  oo_unique o o' : o ∈ outs → o' ∈ outs → number o = number o' → o = o';
  oo_writes w : w ∈ kept ↔ ∃ o, o ∈ outs ∧ w ∈ contents o;
}.

Lemma job_outputs_ok : outputs_ok (output_file <$> outputs (compact j)).
Proof using All.
  destruct output_segments as (segs & Ec & El & Hseg).
  assert (∀ i o ks w0 wl, outputs (compact j) !! i = Some o → segs !! i = Some ks → head ks = Some w0 → last ks = Some wl → table_written C cache_get contents io (out_number o) ks →
    output_file o = new_file (table_file io (out_number o) ks w0 wl) →
    file_ok C (output_file o) ∧ bounded C contents (output_file o) ∧ TableReads C cache_get contents (output_file o) ∧ canonical (output_file o) ∧ contents (output_file o) = ks) as Hfile.
  { intros i o ks w0 wl Ho Hk Hh Hl Htw E. rewrite E.
    destruct (table_file_ok C cache_get contents io (out_number o) ks w0 wl) as (T1 & T2 & T3 & T4 & _ & T6); try done.
    - apply Forall_forall. intros w Hin. rewrite Forall_forall in Hok. apply Hok. rewrite <-Ec. by eapply segment_sub.
    - eapply (segment_sorted segs i); [by rewrite Ec|done]. }
  split.
  - intros f (o & -> & [i Ho]%list_elem_of_lookup_1)%list_elem_of_fmap. destruct (Hseg i o Ho) as (ks & w0 & wl & Hk & Hh & Hl & Htw & E). destruct (Hfile i o ks w0 wl) as (? & ? & ? & ? & _); done.
  - intros f (o & -> & Ho)%list_elem_of_fmap. apply list_elem_of_fmap. by exists o.
  - intros f (o & -> & [i Ho]%list_elem_of_lookup_1)%list_elem_of_fmap. destruct (Hseg i o Ho) as (ks & w0 & wl & Hk & Hh & Hl & _ & E).
    exists w0. split; [rewrite <-Ec; eapply segment_sub; [done|by apply head_Some_elem_of]|by rewrite E].
  - intros f (o & -> & [i Ho]%list_elem_of_lookup_1)%list_elem_of_fmap. destruct (Hseg i o Ho) as (ks & w0 & wl & Hk & Hh & Hl & _ & E).
    exists wl. split; [rewrite <-Ec; eapply segment_sub; [done|by apply last_Some_elem_of]|by rewrite E].
  - intros f f' (o & -> & [i Ho]%list_elem_of_lookup_1)%list_elem_of_fmap (o' & -> & [k Ho']%list_elem_of_lookup_1)%list_elem_of_fmap Hne.
    destruct (Hseg i o Ho) as (ks & w0 & wl & Hk & Hh & Hl & _ & E), (Hseg k o' Ho') as (ks' & w0' & wl' & Hk' & Hh' & Hl' & _ & E'). rewrite E, E'.
    rewrite <-Ec in Hs. destruct (Nat.lt_trichotomy i k) as [Hik|[->|Hik]]; [left|congruence|right].
    + exact (segments_before segs i k ks ks' wl w0' Hs Hik Hk Hk' (last_Some_elem_of _ _ Hl) (head_Some_elem_of _ _ Hh')).
    + exact (segments_before segs k i ks' ks wl' w0 Hs Hik Hk' Hk (last_Some_elem_of _ _ Hl') (head_Some_elem_of _ _ Hh)).
  - intros f f' (o & -> & [i Ho]%list_elem_of_lookup_1)%list_elem_of_fmap (o' & -> & [k Ho']%list_elem_of_lookup_1)%list_elem_of_fmap E.
    cbn in E. assert (i = k) as ->; [|congruence]. apply (NoDup_lookup _ _ _ (out_number o) Hnums); rewrite list_lookup_fmap, ?Ho, ?Ho'; [done|]. cbn. by rewrite E.
  - intros w. rewrite <-Ec. split.
    + intros (ks & Hks%list_elem_of_In & Hin%list_elem_of_In)%list_elem_of_In%in_concat. apply list_elem_of_lookup_1 in Hks as [i Hi].
      destruct (lookup_lt_is_Some_2 (outputs (compact j)) i) as [o Ho]; [rewrite <-El; by eapply lookup_lt_Some|].
      destruct (Hseg i o Ho) as (ks' & w0 & wl & Hk & Hh & Hl & Htw & E). assert (ks' = ks) as -> by congruence. exists (output_file o). split; [apply list_elem_of_fmap; eexists; split; [done|by eapply list_elem_of_lookup_2]|].
      by destruct (Hfile i o ks w0 wl) as (_ & _ & _ & _ & ->).
    + intros (f & (o & -> & [i Ho]%list_elem_of_lookup_1)%list_elem_of_fmap & Hin). destruct (Hseg i o Ho) as (ks & w0 & wl & Hk & Hh & Hl & Htw & E).
      destruct (Hfile i o ks w0 wl) as (_ & _ & _ & _ & Ef); try done. rewrite Ef in Hin. by eapply segment_sub.
Qed.

End outputs.

End refinement.
