(* ===== verification/DbSteps.v ===== *)
(** * Runs of the database

    The foreground operations of [DbImpl] as steps between states, each with the history
    of the writes that were acknowledged ([quiet]), and the invariant [refines]: a read
    returns the newest write that its snapshot sees.  These steps may happen while a
    compaction has released the mutex ([DbWork]); [DbRuns] adds the background thread. *)

From stdpp Require Import gmap sorting relations.
From S2P Require Import Prelude Coding Status Env Comparator Log DbFormat Arena Random SkipList MemTable WriteBatch VersionEdit Version VersionBuilder Compaction DbCompaction VersionSet DbImpl DbHistory DbFlush DbRefinement.

Section steps.
  Context (C : Comparator) {L : ComparatorLaws C} (base : nat → Z) {W : WritableFile} (options : Options).
  Context (cache_get : FileMetaData → nat → bytes → Status * option (bytes * bytes)) (contents : FileMetaData → list Write).

(** ** Reads of a history *)

Lemma newest_unique h u s o1 o2 : distinct C h → is_newest C h u s o1 → is_newest C h u s o2 → o1 = o2.
Proof using L.
  intros Hd H1 H2. destruct o1 as [w1|], o2 as [w2|]; [|exfalso..|done].
  - destruct H1 as (A1 & V1 & M1), H2 as (A2 & V2 & M2). f_equal. apply Hd; [done|done|by eapply visible_same|]. pose proof (M1 w2 A2 V2). pose proof (M2 w1 A1 V1). lia.
  - destruct H1 as (A1 & V1 & _). by rewrite (H2 w1 A1) in V1.
  - destruct H2 as (A2 & V2 & _). by rewrite (H1 w2 A2) in V2.
Qed.

Lemma read_result_answer o value : read_result o value = match DbCompaction.answer o with Some v => (Status_OK, v) | None => (NotFound [] [], value) end.
Proof. destruct o as [w|]; [|done]. unfold read_result, DbCompaction.answer. by destruct (wtype w). Qed.

Lemma reads_as_refl fl h : reads_as C fl h h.
Proof. intros u s o _ Ho. eauto. Qed.

Lemma reads_as_trans fl h1 h2 h3 : reads_as C fl h1 h2 → reads_as C fl h2 h3 → reads_as C fl h1 h3.
Proof.
  intros H1 H2 u s o Hle Ho. destruct (H1 u s o Hle Ho) as (o2 & Ho2 & E2). destruct (H2 u s o2 Hle Ho2) as (o3 & Ho3 & E3). exists o3. split; [done|congruence].
Qed.

Lemma reads_as_mono fl fl' h h' : fl <= fl' → reads_as C fl h h' → reads_as C fl' h h'.
Proof. intros Hle H u s o Hs. apply H. lia. Qed.

Lemma reads_as_app fl h h' new : newer C new h → newer C new h' → reads_as C fl h h' → reads_as C fl (h ++ new) (h' ++ new).
Proof using L.
  intros Hn Hn' H u s o Hle Ho.
  assert (∀ o', is_newest C h' u s o' → (∀ w, w ∈ new → visible C u s w = false) → is_newest C (h' ++ new) u s o') as Hold.
  { intros o' Ho' Hno. eapply is_newest_ext; [|exact Ho']. intros w Hv. rewrite elem_of_app. split; [by left|]. intros [?|Hw]; [done|]. by rewrite Hno in Hv. }
  destruct o as [w|].
  - destruct Ho as (Hw & Hv & Hm). apply elem_of_app in Hw as [Hw|Hw].
    + assert (∀ x, x ∈ new → visible C u s x = false) as Hno.
      { intros x Hx. destruct (visible C u s x) eqn:Ex; [|done]. exfalso. pose proof (Hn x w Hx Hw (visible_same C _ _ _ _ Ex Hv)). pose proof (Hm x ltac:(set_solver) Ex). lia. }
      destruct (H u s (Some w) Hle) as (o' & Ho' & E); [split; [done|]; split; [done|]; intros x Hx; apply Hm; set_solver|]. exists o'. eauto.
    + exists (Some w). split; [|done]. split; [set_solver|]. split; [done|]. intros x [Hx|Hx]%elem_of_app Ex; [|apply Hm; set_solver].
      pose proof (Hn' w x Hw Hx (visible_same C _ _ _ _ Hv Ex)). lia.
  - destruct (H u s None Hle) as (o' & Ho' & E); [intros x Hx; apply Ho; set_solver|]. exists o'. split; [|done]. apply Hold; [done|]. intros x Hx. apply Ho. set_solver.
Qed.

(** ** The invariant *)

(** The oldest snapshot that can be read. *)
Definition floor (db : DBImpl (W := W)) : Z := choose_snapshot (snd <$> snaps (snapshots_ db)) (vs_last_sequence (versions_ db)).

Record snapshots_ok (db : DBImpl (W := W)) : Prop := {
  so_sorted : StronglySorted Z.le (snd <$> snaps (snapshots_ db));
  so_range : Forall (λ s, 0 <= s <= vs_last_sequence (versions_ db)) (snd <$> snaps (snapshots_ db));
}.

(** The state answers as the history does. *)
Record refines (db : DBImpl (W := W)) (h : list Write) : Prop := {
  rf_state : ∃ h', represents C cache_get contents db h' ∧ reads_as C (floor db) h h';
  rf_snapshots : snapshots_ok db;
  rf_ok : Forall write_ok h;
  rf_last : Forall (λ w, wseq w <= vs_last_sequence (versions_ db)) h;
}.

Lemma floor_le db s : snapshots_ok db → s ∈ vs_last_sequence (versions_ db) :: (snd <$> snaps (snapshots_ db)) → floor db <= s.
Proof.
  intros [Hs Hr] Hin. unfold floor, choose_snapshot. destruct (snd <$> snaps (snapshots_ db)) as [|x l]; cbn [head default from_option id].
  - apply list_elem_of_singleton in Hin as ->. lia.
  - apply StronglySorted_inv in Hs as [_ Hs]. apply Forall_cons in Hr as [Hx Hr]. rewrite Forall_forall in Hs. apply elem_of_cons in Hin as [->|[->|Hin]%elem_of_cons]; [unfold id; lia|unfold id; lia|]. by apply Hs.
Qed.

(** ** Snapshots *)

Lemma snapshots_ok_mono db db' : snapshots_ db' = snapshots_ db → vs_last_sequence (versions_ db) <= vs_last_sequence (versions_ db') → snapshots_ok db → snapshots_ok db'.
Proof. intros E Hle [H1 H2]. split; rewrite E; [done|]. eapply Forall_impl; [exact H2|]. cbn. lia. Qed.

Lemma floor_mono db db' : snapshots_ db' = snapshots_ db → vs_last_sequence (versions_ db) <= vs_last_sequence (versions_ db') → floor db <= floor db'.
Proof. intros E Hle. unfold floor, choose_snapshot. rewrite E. destruct (head _); cbn; unfold id; lia. Qed.

(** Nothing that counts changes. *)
Lemma refines_same db db' h : (∀ h', represents C cache_get contents db h' → represents C cache_get contents db' h') → snapshots_ db' = snapshots_ db →
  vs_last_sequence (versions_ db') = vs_last_sequence (versions_ db) → refines db h → refines db' h.
Proof.
  intros Hrep Es El [(h' & H1 & H2) H3 H4 H5]. split; [|eapply snapshots_ok_mono; [done|lia|done]|done|by rewrite El].
  exists h'. split; [by apply Hrep|]. unfold floor. by rewrite Es, El.
Qed.

Lemma refines_contents db db' h : same_contents db db' → refines db h → refines db' h.
Proof. intros Hs. apply refines_same; [intros h'; by apply same_contents_represents|apply Hs|apply Hs]. Qed.

(** ** Steps between which a compaction may wait *)

(** The foreground operations.  A commit of a group adds the writes of its requests to
    the history, numbered behind the last sequence number; the others add nothing. *)
Inductive quiet : DBImpl (W := W) * list Write → DBImpl (W := W) * list Write → Prop :=
  | quiet_enqueue db h r : quiet (db, h) (Enqueue (writer_of r) db, h)
  | quiet_commit db h io room requests s n db' :
      writers_ db = writer_of <$> requests → Forall op_ok (ops_of requests) → Z.of_nat (length (ops_of requests)) < 2 ^ 31 → bytes_of requests < 2 ^ 64 →
      vs_last_sequence (versions_ db) + Z.of_nat (length (ops_of requests)) < kMaxSequenceNumber →
      CommitGroup C base io room db = Some (s, n, db') →
      quiet (db, h) (db', if ok s then h ++ WriteBatch.number (vs_last_sequence (versions_ db) + 1) (ops_of (take n requests)) else h)
  | quiet_room db h io force allow_delay : vs_next_file_number (versions_ db) + 1 < 2 ^ 31 →
      quiet (db, h) ((MakeRoom base options io force allow_delay db).2, h)
  | quiet_get db h snapshot key value r db' : valid_seq (default (vs_last_sequence (versions_ db)) snapshot) → is_u32 (size key + 8) →
      Get C cache_get db snapshot key value = Some (r, db') → quiet (db, h) (db', h)
  | quiet_sample db h key db' : RecordReadSample C key db = Some db' → quiet (db, h) (db', h)
  | quiet_snapshot db h : quiet (db, h) ((GetSnapshot db).2, h)
  | quiet_release db h id : quiet (db, h) (ReleaseSnapshot id db, h)
  | quiet_manual db h m : (mc_level m + 1 < num_levels)%nat → quiet (db, h) (StartManual m db, h)
  | quiet_shutdown db h : quiet (db, h) (Shutdown db, h).

(** What these steps leave alone. *)
Record undisturbed (db db' : DBImpl (W := W)) : Prop := {
  un_files : files_ (current (versions_ db')) = files_ (current (versions_ db));
  un_refs : v_refs_ (current (versions_ db)) <= v_refs_ (current (versions_ db'));
  un_id : current_id (versions_ db') = current_id (versions_ db) ∧ vs_next_id (versions_ db') = vs_next_id (versions_ db);
  un_next : vs_next_file_number (versions_ db) <= vs_next_file_number (versions_ db');
  un_floor : floor db <= floor db';
}.

Lemma undisturbed_refl db : undisturbed db db.
Proof. by split. Qed.

Lemma undisturbed_trans db1 db2 db3 : undisturbed db1 db2 → undisturbed db2 db3 → undisturbed db1 db3.
Proof. intros [A1 A2 [A3 A3'] A4 A5] [B1 B2 [B3 B3'] B4 B5]. split; [congruence|lia|split; congruence|lia|lia]. Qed.

Lemma same_versions_undisturbed db db' : same_versions (versions_ db) (versions_ db') → snapshots_ db' = snapshots_ db → undisturbed db db'.
Proof. intros [] Es. split; try done. apply floor_mono; [done|lia]. Qed.

Lemma same_contents_step db db' h : same_contents db db' → refines db h → refines db' h ∧ undisturbed db db'.
Proof. intros Hs Hr. split; [by eapply refines_contents|]. apply same_versions_undisturbed; apply Hs. Qed.

Lemma Sample_same db key db' : RecordReadSample C key db = Some db' → same_contents db db'.
Proof.
  unfold RecordReadSample. destruct (Version.RecordReadSample C _ _ key) as [[[v store] b]|] eqn:E; [|done]. cbn [mbind option_bind]. intros [= <-].
  apply stats_same. unfold Version.RecordReadSample in E. destruct (ParseInternalKey key) as [k|]; [|by injection E as <- <- <-].
  destruct (ForEachOverlapping _ _ _ _ _ _) as [[stats n]|]; [|done]. cbn [mbind option_bind] in E. destruct (n >=? 2); [|by injection E as <- <- <-].
  injection E as E. by eapply UpdateStats_files.
Qed.

(** A change of the snapshots that keeps them in order. *)
Lemma snapshots_step db l h : refines db h → snapshots_ok (with_snapshots db l) → floor db <= floor (with_snapshots db l) →
  refines (with_snapshots db l) h ∧ undisturbed db (with_snapshots db l).
Proof.
  intros [(h' & H1 & H2) H3 H4 H5] Hok Hfl. split; [|split; [done|apply Z.le_refl|done|apply Z.le_refl|done]]. split; [|done|done|done].
  exists h'. split; [by apply db_with_snapshots|]. by eapply reads_as_mono.
Qed.

Lemma snapshot_step db h : refines db h → let db' := (GetSnapshot db).2 in refines db' h ∧ undisturbed db db'.
Proof.
  intros Hr. unfold GetSnapshot. cbn [NewSnapshot snd]. pose proof (rf_snapshots _ _ Hr) as [H1 H2]. destruct (rf_state _ _ Hr) as (h' & Hrep & _). pose proof (rp_seq _ _ _ _ _ Hrep) as Hl.
  apply snapshots_step; [done| |].
  - split; cbn [snapshots_ with_snapshots snaps versions_]; rewrite fmap_app.
    + apply StronglySorted_app; split_and!; [|done|repeat constructor]. intros x y Hx Hy. cbn in Hy. apply list_elem_of_singleton in Hy as ->. rewrite Forall_forall in H2. by apply (H2 x).
    + apply Forall_app. split; [done|]. apply Forall_singleton. cbn. lia.
  - unfold floor, choose_snapshot. cbn [snapshots_ with_snapshots snaps versions_]. rewrite fmap_app. by destruct (snaps (snapshots_ db)).
Qed.

Lemma StronglySorted_snaps_filter (l : list (nat * Z)) id : StronglySorted Z.le (snd <$> l) → StronglySorted Z.le (snd <$> filter (λ p, p.1 ≠ id) l).
Proof.
  induction l as [|p l IH]; [done|]. intros [Hs Hall]%StronglySorted_inv. rewrite filter_cons. destruct (decide _); [|by apply IH]. cbn. constructor; [by apply IH|].
  rewrite Forall_forall in Hall |- *. intros x (q & -> & [_ Hq]%list_elem_of_filter)%list_elem_of_fmap. apply Hall. apply list_elem_of_fmap. eauto.
Qed.

Lemma release_step id db h : refines db h → refines (ReleaseSnapshot id db) h ∧ undisturbed db (ReleaseSnapshot id db).
Proof.
  intros Hr. pose proof (rf_snapshots _ _ Hr) as Hso. unfold ReleaseSnapshot, DeleteSnapshot.
  assert (∀ x, x ∈ snd <$> filter (λ p : nat * Z, p.1 ≠ id) (snaps (snapshots_ db)) → x ∈ snd <$> snaps (snapshots_ db)) as Hsub.
  { intros x (q & -> & [_ Hq]%list_elem_of_filter)%list_elem_of_fmap. apply list_elem_of_fmap. eauto. }
  apply snapshots_step; [done| |].
  - destruct Hso as [H1 H2]. split; cbn [snapshots_ with_snapshots snaps versions_]; [by apply StronglySorted_snaps_filter|]. rewrite Forall_forall in H2 |- *. intros x Hx. by apply H2, Hsub.
  - apply (floor_le db); [done|]. unfold floor, choose_snapshot. cbn [snapshots_ with_snapshots snaps versions_].
    set (l := snd <$> filter _ _). change (∀ x, x ∈ l → x ∈ snd <$> snaps (snapshots_ db)) in Hsub. clearbody l. destruct l as [|x l]; cbn; [left|]. right. apply Hsub. left.
Qed.

Lemma commit_step db h io room requests s n db' : writers_ db = writer_of <$> requests → Forall op_ok (ops_of requests) → Z.of_nat (length (ops_of requests)) < 2 ^ 31 →
  bytes_of requests < 2 ^ 64 → vs_last_sequence (versions_ db) + Z.of_nat (length (ops_of requests)) < kMaxSequenceNumber → CommitGroup C base io room db = Some (s, n, db') →
  refines db h → refines db' (if ok s then h ++ WriteBatch.number (vs_last_sequence (versions_ db) + 1) (ops_of (take n requests)) else h) ∧ undisturbed db db'.
Proof using L.
  intros Hw Hok Hl Hb Hmax E Hr. destruct (rf_state _ _ Hr) as (h' & Hrep & Hreads).
  destruct requests as [|first rs]; [unfold CommitGroup in E; by rewrite Hw in E|].
  destruct (db_Commit C base cache_get contents io room db h' first rs Hrep Hw Hok Hl Hb Hmax) as (s' & n' & db2 & E' & [C1 C2 C3 (C4 & C4' & C4'') C5 C6]).
  rewrite E in E'. injection E' as <- <- <-. pose proof (floor_mono db db' C3 C5) as Hfl.
  assert (undisturbed db db') as Hu by (split; unfold current, current_id in *; rewrite ?C4, ?C4', ?C4''; (done || apply Z.le_refl)). split; [|done].
  set (new := WriteBatch.number _ _) in *. destruct (ok s).
  - destruct Hr as [_ R2 R3 R4]. pose proof (rp_seq _ _ _ _ _ Hrep) as Hls. pose proof (ops_of_take n (first :: rs)) as Hlen.
    assert (Forall write_ok new) as Hnew by (pose proof (rp_ok _ _ _ _ _ C6) as [_ ?]%Forall_app; done).
    assert (Forall (λ w, vs_last_sequence (versions_ db) < wseq w) new) as Hlt by (eapply Forall_impl; [apply number_seqs|]; cbn; lia).
    assert (Forall (λ w, wseq w <= vs_last_sequence (versions_ db')) new) as Hle by (pose proof (rp_last _ _ _ _ _ C6) as [_ ?]%Forall_app; done).
    split.
    + exists (h' ++ new). split; [done|]. apply (reads_as_mono (floor db)); [done|]. apply reads_as_app; [by eapply newer_seq| |done].
      eapply newer_seq; [done|apply Hrep|done|apply Hrep].
    + by eapply snapshots_ok_mono.
    + by apply Forall_app.
    + apply Forall_app. split; [|done]. eapply Forall_impl; [exact R4|]. cbn. lia.
  - destruct Hr as [_ R2 R3 R4]. split; [|by eapply snapshots_ok_mono|done|eapply Forall_impl; [exact R4|]; cbn; lia].
    exists h'. split; [done|]. by apply (reads_as_mono (floor db)).
Qed.

Lemma quiet_step c c' : quiet c c' → refines c.1 c.2 → refines c'.1 c'.2 ∧ undisturbed c.1 c'.1.
Proof using L.
  intros [db h r|db h io room requests s n db' Hw Hok Hl Hb Hmax E|db h io force allow_delay Hn|db h snapshot key value r db' Hs Hk E|db h key db' E|db h|db h id|db h m Hm|db h] Hr; cbn [fst snd] in *.
  - split; [|apply same_versions_undisturbed; [apply same_versions_refl|done]]. apply (refines_same db); [|done|done|exact Hr]. intros h'. apply db_Enqueue.
  - by eapply commit_step.
  - assert (∀ h', represents C cache_get contents db h' → _) as Hroom by (intros h' Hrep; exact (db_MakeRoom C base options cache_get contents io force allow_delay db h' Hrep ltac:(pose proof (vf_next _ _ _ _ (rp_files _ _ _ _ _ Hrep)); range_lia))).
    destruct (rf_state _ _ Hr) as (h0 & H0 & _). destruct (Hroom h0 H0) as [_ [_ Es Ev]]. cbn zeta in *.
    split; [|by apply same_versions_undisturbed]. apply (refines_same db); [|exact Es|apply Ev|exact Hr]. intros h' Hrep. by apply Hroom.
  - apply same_contents_step; [|done]. destruct (rf_state _ _ Hr) as (h' & Hrep & _).
    destruct (db_Get C cache_get contents db h' snapshot key value Hrep Hs Hk) as (o & db2 & E' & _ & Hsame). rewrite E in E'. by injection E' as _ <-.
  - apply same_contents_step; [|done]. by eapply Sample_same.
  - by apply snapshot_step.
  - by apply release_step.
  - apply same_contents_step; [|done]. unfold StartManual. destruct (manual_compaction_ db); [apply same_contents_refl|].
    set (db' := with_background _ _ _ _). destruct (MaybeSchedule_same db') as [M1 M2 M3 M4 M5 M6 M7]. by split.
  - apply same_contents_step; [|done]. split; (done || apply same_versions_refl).
Qed.

Lemma quiet_steps c c' : rtc quiet c c' → refines c.1 c.2 → refines c'.1 c'.2 ∧ undisturbed c.1 c'.1.
Proof using L.
  induction 1 as [c|c1 c2 c3 Hq _ IH]; intros Hr; [by split; [|apply undisturbed_refl]|].
  destruct (quiet_step _ _ Hq Hr) as [H1 H2]. destruct (IH H1) as [H3 H4]. split; [done|]. by eapply undisturbed_trans.
Qed.

End steps.
