(* ===== verification/DbBackground.v ===== *)
(** * Compactions of the database

    What a compaction of the database has to ensure: plans, the edit of
    [InstallCompactionResults], and that its outputs can replace its inputs in the
    version that is current when they are installed, which may have more files than the
    one they were chosen from.  [DbWork] runs the work itself. *)

From stdpp Require Import gmap sorting relations.
From S2P Require Import Prelude Coding Status Env Comparator Log DbFormat Arena Random SkipList MemTable WriteBatch VersionEdit Version VersionBuilder Compaction DbCompaction VersionSet DbImpl DbHistory DbFlush DbRefinement DbSteps.

Section background.
  Context (C : Comparator) {L : ComparatorLaws C} {W : WritableFile}.
  Context (cache_get : FileMetaData → nat → bytes → Status * option (bytes * bytes)) (contents : FileMetaData → list Write).

(** ** References *)

Lemma RefVersion_current (vs : VersionSet (W := W)) cp store : 1 <= v_refs_ (current vs) → let vs' := RefVersion (current_id vs) (with_pointers vs cp store) in
  same_versions vs vs' ∧ v_refs_ (current vs') = v_refs_ (current vs) + 1.
Proof.
  intros Hr. cbn zeta. assert (∃ id v, last (vs_versions vs) = Some (id, v)) as (id & v & El).
  { unfold current in Hr. destruct (last (vs_versions vs)) as [[id v]|]; [eauto|]. cbn in Hr. lia. }
  assert (last (vs_versions (RefVersion (current_id vs) (with_pointers vs cp store))) = Some (id, add_refs 1 v)) as El'.
  { unfold RefVersion, current_id. cbn [vs_versions with_versions with_pointers]. rewrite fmap_last, El. cbn. by rewrite decide_True. }
  unfold current, current_id in *. rewrite El in *. cbn [from_option fst snd] in *.
  split; [|rewrite El'; cbn; lia]. split; unfold current, current_id; rewrite ?El', ?El; cbn [from_option fst snd add_refs files_ v_refs_]; (done || lia).
Qed.

Lemma unref_in_last id l store : match last l with
  | Some p => (p.1 = id → 2 <= v_refs_ p.2) → ∃ v, last (unref_in id l store).1 = Some (p.1, v) ∧ (v = p.2 ∨ p.1 = id ∧ v = add_refs (-1) p.2)
  | None => True end.
Proof.
  induction l as [|p l IH]; [done|]. rewrite last_cons. cbn [unref_in]. destruct (last l) as [q|] eqn:El.
  - intros Hq. destruct (decide (p.1 = id)).
    + exists q.2. destruct (_ =? 0); cbn [fst]; rewrite ?last_cons, El; (split; [by destruct q|by left]).
    + destruct (IH Hq) as (v & H1 & H2). destruct (unref_in id l store) as [l' store']. cbn [fst] in *. exists v. rewrite last_cons, H1. done.
  - apply last_None in El as ->. intros Hq. destruct (decide (p.1 = id)) as [E|E].
    + specialize (Hq E). rewrite (proj2 (Z.eqb_neq _ _)) by lia. exists (add_refs (-1) p.2). split; [done|]. by right.
    + exists p.2. split; [by destruct p|by left].
Qed.

Lemma UnrefVersion_current id (vs : VersionSet (W := W)) : 1 <= v_refs_ (current vs) → (current_id vs = id → 2 <= v_refs_ (current vs)) →
  let vs' := UnrefVersion id vs in current_id vs' = current_id vs ∧ (current vs' = current vs ∨ current_id vs = id ∧ current vs' = add_refs (-1) (current vs)).
Proof.
  intros Hr H2. pose proof (unref_in_last id (vs_versions vs) (vs_store vs)) as Hu. cbn zeta. unfold current, current_id in *.
  destruct (last (vs_versions vs)) as [p|] eqn:El; [|cbn in Hr; lia]. cbn [from_option] in *. destruct (Hu H2) as (v & E1 & E2).
  unfold UnrefVersion. destruct (unref_in id (vs_versions vs) (vs_store vs)) as [l store]. cbn [fst] in E1. cbn [vs_versions with_versions]. rewrite E1. done.
Qed.

Lemma UnrefVersion_alike id (vs : VersionSet (W := W)) : 1 <= v_refs_ (current vs) → (current_id vs < vs_next_id vs)%nat → (current_id vs = id → 2 <= v_refs_ (current vs)) →
  alike vs (UnrefVersion id vs).
Proof.
  intros Hr Hi H2. destruct (UnrefVersion_current id vs Hr H2) as [E1 E2].
  assert (vs_next_id (UnrefVersion id vs) = vs_next_id vs ∧ vs_last_sequence (UnrefVersion id vs) = vs_last_sequence vs ∧ vs_next_file_number (UnrefVersion id vs) = vs_next_file_number vs ∧
    descriptor_log_ (UnrefVersion id vs) = descriptor_log_ vs) as (N1 & N2 & N3 & N4) by (unfold UnrefVersion; by destruct (unref_in _ _ _)).
  split; rewrite ?E1, ?N1, ?N2, ?N3; try done; [destruct E2 as [->|[_ ->]]; done|unfold descriptor_ok; by rewrite N4|].
  destruct E2 as [->|[E ->]]; [done|]. specialize (H2 E). cbn. lia.
Qed.

(** ** Plans *)

(** A compaction whose inputs were chosen from the version. *)
Record planned (v : Version) (c : Compaction) : Prop := {
  pl_level : (level_ c + 1 < num_levels)%nat;
  pl_ptrs : level_ptrs_ c = replicate num_levels 0%nat;
  pl_edit : deleted_files_ (edit_ c) = [] ∧ new_files_ (edit_ c) = [];
  pl_inputs : ∃ start, inputs_ok C v (level_ c) start (inputs_0 c) (inputs_1 c) ∧
    (level_ c = 0%nat → closed_in C (level_files v (level_ c)) start) ∧ ((0 < level_ c)%nat → splits C (level_files v (level_ c)) start);
}.

(** The inputs hang together: what holds of one file and of every file of the two levels
    that meets the range of such files holds of all of them. *)
Definition connected (v : Version) (c : Compaction) : Prop :=
  ∃ seed, seed ∈ inputs_0 c ∧ ∀ P, grown C v (level_ c) P → P seed → ∀ g, g ∈ inputs_0 c ++ inputs_1 c → P g.

Lemma planned_replaceable vs c : files_ok C cache_get contents vs → planned (current vs) c → replaceable C contents vs (level_ c) (inputs_0 c) (inputs_1 c).
Proof using L. intros Hf [_ _ _ (start & Hio & Hcl & Hsp)]. by eapply chosen_replaceable. Qed.

Lemma grown_mono v v' level P : (∀ l f, f ∈ level_files v l → f ∈ level_files v' l) → grown C v' level P → grown C v level P.
Proof. intros Hsub HP p q f Hf. apply HP. destruct Hf; [left|right]; by apply Hsub. Qed.

Lemma connected_mono v v' c : (∀ l f, f ∈ level_files v l → f ∈ level_files v' l) → connected v c → connected v' c.
Proof. intros Hsub (seed & Hin & Hall). exists seed. split; [done|]. intros P HP. apply Hall. by eapply grown_mono. Qed.

Lemma planned_eq v v' c : files_ v' = files_ v → planned v c → planned v' c.
Proof.
  intros E [H1 H2 H3 (start & [] & H5 & H6)]. pose proof (λ level, level_files_eq v v' level E) as El.
  split; [done|done|done|]. exists start. rewrite !El. split; [|done]. split; rewrite ?El; try done. intros P HP. apply io_grown. eapply grown_mono; [|done]. intros l f. by rewrite El.
Qed.

(** Only which keys of the entries lie deeper matters for what is kept. *)
Lemma keeps_deeper v v' level snapshot prev ws ks : (∀ w, w ∈ ws → deeper C v' level (wkey w) ↔ deeper C v level (wkey w)) →
  keeps C v level snapshot prev ws ks → keeps C v' level snapshot prev ws ks.
Proof.
  intros Hd Hk. induction Hk as [|prev w ws ks Hh Hk IH|prev w ws ks Hh Ho Hk IH|prev w ws ks Hh Ho Hk IH]; [constructor|apply keeps_hidden|apply keeps_obsolete|apply keeps_keep]; try done;
    try (apply IH; intros x Hx; apply Hd; by right); unfold obsolete in *; rewrite Hd by left; done.
Qed.

(** ** Edits *)

Lemma remove_files level fs : ∀ e, let e' := foldl (λ e f, RemoveFile level (number f) e) e fs in
  new_files_ e' = new_files_ e ∧ ∀ p, p ∈ deleted_files_ e' ↔ p ∈ deleted_files_ e ∨ ∃ f, f ∈ fs ∧ p = (level, number f).
Proof.
  induction fs as [|f fs IH]; intros e; cbn zeta; cbn [foldl].
  - split; [done|]. intros p. split; [by left|]. intros [?|(f & ?%not_elem_of_nil & _)]; done.
  - destruct (IH (RemoveFile level (number f) e)) as [H1 H2]. split; [done|]. intros p. rewrite H2. cbn [RemoveFile deleted_files_]. rewrite elem_set_insert.
    setoid_rewrite elem_of_cons. split; [intros [[->|?]|(g & ? & ->)]|intros [?|(g & [->|?] & ->)]]; eauto 6.
Qed.

Lemma add_outputs level os : ∀ e, let e' := foldl (λ e o, AddFile level (out_number o) (out_file_size o) (out_smallest o) (out_largest o) e) e os in
  deleted_files_ e' = deleted_files_ e ∧
  new_files_ e' = new_files_ e ++ ((λ f, (level, f)) <$> ((λ o, NewFileMetaData (out_number o) (out_file_size o) (out_smallest o) (out_largest o)) <$> os)).
Proof.
  induction os as [|o os IH]; intros e; cbn zeta; cbn [foldl]; [by rewrite app_nil_r|]. destruct (IH (AddFile level (out_number o) (out_file_size o) (out_smallest o) (out_largest o) e)) as [-> ->].
  split; [done|]. cbn. by rewrite <-app_assoc.
Qed.

(** The edit of [InstallCompactionResults]. *)
Lemma install_edit access_time v v0 store j c : planned v0 c → same_plan c (compaction (compact j)) →
  compaction_edit (level_ c) (inputs_0 c) (inputs_1 c) ((λ o, NewFileMetaData (out_number o) (out_file_size o) (out_smallest o) (out_largest o)) <$> outputs (compact j))
    (edit_ (InstallCompactionResults C access_time v store j).1).
Proof.
  intros [_ _ [Hd Hn] _] [P1 P2 P3 P4]. unfold InstallCompactionResults. set (c' := match access_time with Some t => _ | None => _ end).
  assert (level_ c' = level_ c ∧ inputs_0 c' = inputs_0 c ∧ inputs_1 c' = inputs_1 c ∧ edit_ c' = edit_ c) as (E1 & E2 & E3 & E4) by (subst c'; destruct access_time; done).
  clearbody c'. cbn [fst edit_]. destruct (add_outputs (Z.of_nat (level_ c' + 1)) (outputs (compact j)) (AddInputDeletions c' (edit_ c'))) as [A1 A2].
  unfold AddInputDeletions in *. destruct (remove_files (Z.of_nat (level_ c')) (inputs_0 c') (edit_ c')) as [B1 B2].
  set (e1 := foldl _ (edit_ c') (inputs_0 c')) in *. destruct (remove_files (Z.of_nat (level_ c' + 1)) (inputs_1 c') e1) as [D1 D2].
  split.
  - intros l n. rewrite A1, D2, B2, E1, E2, E3, E4, Hd. rewrite elem_of_nil. split.
    + intros [[[]|(f & Hf & [= -> ->])]|(f & Hf & [= -> ->])]; [left|right]; eauto.
    + intros [[-> (f & Hf & ->)]|[-> (f & Hf & ->)]]; [left; right|right]; eauto.
  - rewrite A2, D1, B1, E1, E4, Hn. done.
Qed.

(** ** The outputs replace the inputs *)

(** The merged input: the entries of the input files in order. *)
Definition merged (c : Compaction) (input : list entry) (ws : list Write) : Prop :=
  input = entry_of_write <$> ws ∧ StronglySorted (before C) ws ∧ ∀ w, w ∈ ws ↔ ∃ f, f ∈ inputs_0 c ++ inputs_1 c ∧ w ∈ contents f.

Abbreviation can_replace vs c := (replaceable C contents vs (level_ c) (inputs_0 c) (inputs_1 c)).

Lemma input_bounded vs c f : files_ok C cache_get contents vs → can_replace vs c → f ∈ inputs_0 c ++ inputs_1 c → bounded C contents f.
Proof. intros Hf Hrx Hin. by destruct (input_file C cache_get contents vs _ _ _ f Hf Hrx Hin) as (_ & ? & _). Qed.

Lemma merged_ok vs c input ws : files_ok C cache_get contents vs → can_replace vs c → merged c input ws → Forall write_ok ws.
Proof.
  intros Hf Hrx (_ & _ & Hws). apply Forall_forall. intros w (f & Hin & Hw)%Hws. destruct (input_bounded vs c f Hf Hrx Hin) as [Hb _]. by apply Hb.
Qed.

Section outputs.
  Context (vs vs' : VersionSet (W := W)) (c : Compaction) (input : list entry) (ws kept : list Write) (io : OutputIO) (j : Job) (snapshot : Z).
  Hypothesis Hf : files_ok C cache_get contents vs.
  Hypothesis Hlvl : (level_ c + 1 < num_levels)%nat.
  Hypothesis Hrx : can_replace vs c.
  Hypothesis Hm : merged c input ws.
  Hypothesis Hk : keeps C (current vs) (level_ c) snapshot None ws kept.
  Hypothesis Hj : job_ok io j (entry_of_write <$> kept).
  Hypothesis Hb : builder (compact j) = None.
  Hypothesis Hw : tables_written C cache_get contents io j.
  Hypothesis Hnums : NoDup (out_number <$> outputs (compact j)).
  Hypothesis Hfresh : ∀ n, n ∈ out_number <$> outputs (compact j) → 0 <= n < vs_next_file_number vs ∧ ∀ level f, f ∈ level_files (current vs) level → number f ≠ n.
  Hypothesis Hnext : vs_next_file_number vs < 2 ^ 31.

Let outs : list FileMetaData := output_file <$> outputs (compact j).

Lemma work_outputs_ok : outputs_ok C cache_get contents j kept outs.
Proof using All.
  destruct Hm as (_ & Hs & _). pose proof (merged_ok vs c input ws Hf Hrx Hm) as Hok. rewrite Forall_forall in Hok.
  apply (job_outputs_ok C cache_get contents io j kept); try done; [|by eapply keeps_sorted].
  apply Forall_forall. intros w Hin. apply Hok. by eapply keeps_sub.
Qed.

Lemma kept_input w : w ∈ kept → ∃ f, f ∈ inputs_0 c ++ inputs_1 c ∧ w ∈ contents f.
Proof using Hm Hk. intros Hin%(keeps_sub C _ _ _ _ _ _ _ Hk). by apply Hm. Qed.

Lemma output_hull w : w ∈ kept → (∃ f, f ∈ inputs_0 c ++ inputs_1 c ∧ InternalKeyCompare C (smallest f) (ikey_of w) <= 0) ∧
  (∃ f, f ∈ inputs_0 c ++ inputs_1 c ∧ InternalKeyCompare C (ikey_of w) (largest f) <= 0).
Proof using All.
  intros (f & Hin & Hwf)%kept_input. destruct (input_bounded vs c f Hf Hrx Hin) as [Hbd _]. destruct (Hbd w Hwf) as (_ & ? & ?). split; exists f; done.
Qed.

Lemma work_installed e cp store : compaction_edit (level_ c) (inputs_0 c) (inputs_1 c)
    ((λ o, NewFileMetaData (out_number o) (out_file_size o) (out_smallest o) (out_largest o)) <$> outputs (compact j)) e →
  files_ (current vs') = files_ (SaveTo C (Apply C (NewBuilder (current vs) cp store) e)).1 → vs_next_file_number vs' = vs_next_file_number vs →
  1 <= v_refs_ (current vs') ∧ (current_id vs' < vs_next_id vs')%nat →
  files_ok C cache_get contents vs' ∧ ∀ w, w ∈ version_holds contents vs' ↔
    (∃ level f, (level < num_levels)%nat ∧ f ∈ level_files (current vs) level ∧ remains (level_ c) (inputs_0 c) (inputs_1 c) level f ∧ w ∈ contents f) ∨ w ∈ kept.
Proof using All.
  intros He Hfiles Hn Hrefs. destruct work_outputs_ok as [O1 O2 O3 O4 O5 O6 O7].
  assert (length outs = length (outputs (compact j))) as Elen by apply length_fmap.
  assert (∀ o level g, o ∈ outs → g ∈ level_files (current vs) level → number g ≠ number o) as Hfr by (intros o level g Ho Hg; by eapply Hfresh; [apply O2|]).
  destruct (compaction_installed C cache_get contents vs (level_ c) (inputs_0 c) (inputs_1 c) Hf Hrx outs (vs_next_file_number vs)) with
    (added := (λ o, NewFileMetaData (out_number o) (out_file_size o) (out_smallest o) (out_largest o)) <$> outputs (compact j)) (e := e) (vs' := vs') (cp := cp) (store := store)
    as [Hf' Hw']; try done.
  - intros o Ho. destruct (O1 o Ho) as (? & ? & ? & ?). destruct (Hfresh _ (O2 o Ho)) as [? _]. split_and!; (done || lia).
  - intros o Ho. destruct (O3 o Ho) as (w1 & K1 & ->), (O4 o Ho) as (w2 & K2 & ->). split; [by apply (output_hull w1)|by apply (output_hull w2)].
  - intros o w Ho Hwo. apply kept_input. apply O7. eauto.
  - eauto.
  - unfold outs, output_file. by rewrite <-list_fmap_compose.
  - intros o level g Ho Hg E. by destruct (Hfr o level g).
  - intros o Ho Hin. by apply (Hfr o _ o Ho Hin).
  - split; [done|]. intros w. rewrite Hw'. unfold replaced. split.
    + intros (level & f & Hl & [[Hin Hr]|[-> Hin]] & Hwf); [left; eauto 10|right]. apply O7. eauto.
    + intros [(level & f & Hl & Hin & Hr & Hwf)|(o & Ho & Hwo)%O7]; [exists level, f; eauto 10|]. exists (level_ c + 1)%nat, o. eauto 10.
Qed.

End outputs.

(** Files were replaced: the history that is left. *)
Lemma represents_replaced db db' h' h'' wm wi : represents C cache_get contents db h' → layered C contents db wm wi → (∀ w, w ∈ h' ↔ w ∈ wm ++ wi ++ version_holds contents (versions_ db)) →
  mem_ db' = mem_ db → imm_ db' = imm_ db → tmp_batch_ db' = tmp_batch_ db → log_ db' = log_ db → files_ok C cache_get contents (versions_ db') →
  vs_last_sequence (versions_ db') = vs_last_sequence (versions_ db) → descriptor_ok (versions_ db') →
  (∀ w, w ∈ version_holds contents (versions_ db') → w ∈ version_holds contents (versions_ db)) →
  (∀ w, w ∈ h'' ↔ w ∈ wm ++ wi ++ version_holds contents (versions_ db')) → represents C cache_get contents db' h''.
Proof.
  intros [_ H2 H3 H4 H5 H6 H7 H8 H9] [A1 A2 A3 A4] Hh E1 E2 E3 E4 Hf El Hd Hsub Hh''.
  assert (∀ w, w ∈ h'' → w ∈ h') as Hs by (intros w; rewrite Hh'', Hh, !elem_of_app; naive_solver). rewrite Forall_forall in H2, H3. split.
  - exists wm, wi. split; [|done]. split; rewrite ?E1, ?E2; try done.
    + intros w1 w2 Hw1 Hw2. apply A3; [done|]. apply elem_of_app in Hw2 as [?|?]; apply elem_of_app; auto.
    + intros w1 w2 Hw1 Hw2. apply A4; auto.
  - apply Forall_forall. auto.
  - apply Forall_forall. intros w Hw. rewrite El. by apply H3, Hs.
  - by rewrite El.
  - done.
  - by rewrite E3.
  - by rewrite E4.
  - done.
  - intros w1 w2 Hw1 Hw2. apply H9; auto.
Qed.

(** Fields that the invariant does not see. *)
Lemma refines_record s db h : refines C cache_get contents db h → refines C cache_get contents (RecordBackgroundError s db) h.
Proof.
  intros Hr. destruct (RecordBackgroundError_fields s db) as (E1 & E2 & E3 & E4 & _ & E6 & E7). eapply (refines_same C cache_get contents db); [|done|by rewrite E4|done].
  intros h'. apply represents_same; try done. rewrite E4. apply same_versions_refl.
Qed.

(** The new version set after a compaction that was installed. *)
Lemma refines_installed db db' h h' snapshot vs c input ws kept wm wi : refines C cache_get contents db h → represents C cache_get contents db h' → reads_as C (floor db) h h' →
  versions_ db = vs → (level_ c + 1 < num_levels)%nat → can_replace vs c → merged c input ws → keeps C (current vs) (level_ c) snapshot None ws kept → snapshot <= floor db →
  layered C contents db wm wi → (∀ w, w ∈ h' ↔ w ∈ wm ++ wi ++ version_holds contents vs) →
  mem_ db' = mem_ db → imm_ db' = imm_ db → tmp_batch_ db' = tmp_batch_ db → log_ db' = log_ db → snapshots_ db' = snapshots_ db → files_ok C cache_get contents (versions_ db') →
  vs_last_sequence (versions_ db') = vs_last_sequence vs → descriptor_ok (versions_ db') →
  (∀ w, w ∈ version_holds contents (versions_ db') ↔
    (∃ level f, (level < num_levels)%nat ∧ f ∈ level_files (current vs) level ∧ remains (level_ c) (inputs_0 c) (inputs_1 c) level f ∧ w ∈ contents f) ∨ w ∈ kept) →
  refines C cache_get contents db' h.
Proof using L.
  intros Hr Hrep Hreads <- Hlvl Hrx Hm Hk Hle Hlay Hh E1 E2 E3 E4 E5 Hf El Hd Hw. set (vs := versions_ db) in *. pose proof (rp_files _ _ _ _ _ Hrep) as Hf0. fold vs in Hf0.
  pose proof (merged_ok vs c input ws Hf0 Hrx Hm) as Hok. destruct Hm as (_ & Hs & Hws).
  pose proof (elem_compacted C cache_get contents vs (level_ c) (inputs_0 c) (inputs_1 c) Hf0 Hrx ws kept wm wi snapshot Hlvl Hws Hok Hs Hk (la_newer_mem _ _ _ _ _ Hlay) (la_newer_imm _ _ _ _ _ Hlay)) as Hel.
  pose proof (compacted_reads C cache_get contents vs (level_ c) (inputs_0 c) (inputs_1 c) Hf0 Hrx ws kept wm wi snapshot Hlvl Hws Hok Hs Hk (la_newer_mem _ _ _ _ _ Hlay) (la_newer_imm _ _ _ _ _ Hlay) h' Hh) as Hcr.
  assert (floor db' = floor db) as Efl by (unfold floor; by rewrite E5, El).
  destruct Hr as [_ R2 R3 R4]. split; [|eapply snapshots_ok_mono; [done|fold vs; lia|done]|done|by rewrite El]. eexists. split; [|rewrite Efl; eapply reads_as_trans; [done|]; by eapply reads_as_mono].
  eapply (represents_replaced db); try done.
  - intros w [(level & f & Hl & Hin & _ & Hwf)|Hin]%Hw; [apply elem_version_writes; eauto|]. apply (keeps_sub C _ _ _ _ _ _ _ Hk) in Hin. apply Hws in Hin as (f & Hin & Hwf).
      apply elem_version_writes. apply elem_of_app in Hin as [Hin|Hin]; [exists (level_ c), f|exists (level_ c + 1)%nat, f]; (split_and!; [lia|by apply Hrx|done]).
  - intros w. rewrite Hel, app_assoc, (elem_of_app (wm ++ wi)), Hw. done.
Qed.

End background.
