(* ===== verification/DbWork.v ===== *)
(** * The work of a compaction

    [DoCompactionWork] on the state of the database.  While it runs the mutex is
    released: foreground operations happen, and the work itself flushes an immutable
    memtable that is waiting.  None of this takes away what the installation of the
    results needs, so the compaction keeps every read. *)

From stdpp Require Import gmap sorting relations.
From S2P Require Import Prelude Coding Status Env Comparator Log DbFormat Arena Random SkipList MemTable WriteBatch VersionEdit Version VersionBuilder Compaction DbCompaction VersionSet DbImpl DbHistory DbFlush DbRefinement DbSteps DbBackground.

Section work.
  Context (C : Comparator) {L : ComparatorLaws C} (base : nat → Z) {W : WritableFile} (options : Options).
  Context (cache_get : FileMetaData → nat → bytes → Status * option (bytes * bytes)) (contents : FileMetaData → list Write).

(** ** What the installation needs *)

(** The keys of the memtable lie between two input files. *)
Definition in_gap (c : Compaction) (imm : MemTable) : Prop :=
  ∃ ws w0 wl f g, Forall write_ok ws ∧ mem_entries imm = Some (entry_of_write <$> ws) ∧ head ws = Some w0 ∧ last ws = Some wl ∧
    f ∈ inputs_0 c ++ inputs_1 c ∧ g ∈ inputs_0 c ++ inputs_1 c ∧ @Compare C (file_limit f) (wkey w0) < 0 ∧ @Compare C (wkey wl) (file_start g) < 0.

(** [v] is the input version, and the outputs have the numbers [nums]. *)
Record work_ok (manual : bool) (c : Compaction) (v : Version) (nums : list Z) (vs : VersionSet (W := W)) : Prop := {
  wo_replace : replaceable C contents vs (level_ c) (inputs_0 c) (inputs_1 c);
  wo_deeper u f : f ∈ inputs_0 c ++ inputs_1 c → in_file C u f → deeper C (current vs) (level_ c) u ↔ deeper C v (level_ c) u;
  wo_connected : manual = false → connected C (current vs) c;
  wo_fresh n : n ∈ nums → 0 <= n < vs_next_file_number vs ∧ ∀ level f, f ∈ level_files (current vs) level → number f ≠ n;
}.

Lemma work_ok_start manual c vs : files_ok C cache_get contents vs → planned C (current vs) c → (manual = false → connected C (current vs) c) → work_ok manual c (current vs) [] vs.
Proof using L. intros Hf Hp Hc. split; [by eapply planned_replaceable|done|done|by intros n ?%not_elem_of_nil]. Qed.

(** The same files. *)
Lemma work_ok_same manual c v nums vs vs' : (∀ level f, f ∈ level_files (current vs') level ↔ f ∈ level_files (current vs) level) →
  vs_next_file_number vs <= vs_next_file_number vs' → work_ok manual c v nums vs → work_ok manual c v nums vs'.
Proof.
  intros E Hn [[R1 R2 R3 R4 R5] H2 H3 H4]. split.
  - split; [intros f Hf; apply E; auto|intros f Hf; apply E; auto|intros g f Hg%E; auto|intros g f Hg%E; auto|]. intros g Hg%E. by apply R5.
  - intros u f Hf Hu. rewrite <-(H2 u f Hf Hu). unfold deeper. by setoid_rewrite E.
  - intros Hm. eapply connected_mono; [|by apply H3]. intros l f. apply E.
  - intros n Hin. destruct (H4 n Hin) as [? Hne]. split; [lia|]. intros level f Hf%E. by eapply Hne.
Qed.

(** One more output. *)
Lemma work_ok_number manual c v nums vs n : 0 <= n < vs_next_file_number vs → (∀ level f, f ∈ level_files (current vs) level → number f ≠ n) →
  work_ok manual c v nums vs → work_ok manual c v (nums ++ [n]) vs.
Proof. intros Hn Hf [H1 H2 H3 H4]. split; try done. intros m [Hm| ->%list_elem_of_singleton]%elem_of_app; [by apply H4|done]. Qed.

(** *** A file is added *)

Section added.
  Context (manual : bool) (c : Compaction) (v : Version) (nums : list Z) (vs vs' : VersionSet (W := W)) (imm : MemTable) (l : nat) (F : FileMetaData).
  Hypothesis Hf : files_ok C cache_get contents vs.
  Hypothesis Hlvl : (level_ c + 1 < num_levels)%nat.
  Hypothesis Hwork : work_ok manual c v nums vs.
  Hypothesis Hadd : file_added C contents imm vs vs' l F.
  Hypothesis Hgap : manual = true → ¬ in_gap c imm.
  Hypothesis Hnext : vs_next_file_number vs < vs_next_file_number vs'.

Let inputs : list FileMetaData := inputs_0 c ++ inputs_1 c.

Lemma added_newer f : f ∈ inputs → newer C (contents F) (contents f).
Proof using L Hf Hlvl Hwork Hadd Hgap Hnext.
  intros Hin w1 w2 H1 H2. apply (fa_newer _ _ _ _ _ _ _ Hadd); [done|]. apply elem_version_writes.
  destruct (input_file C cache_get contents vs _ _ _ f Hf (wo_replace _ _ _ _ _ Hwork) Hin) as ((k & Hk & Hfk) & _). exists k, f. split; [lia|done].
Qed.

(** The new file does not meet the levels down to its own. *)
Lemma added_apart k f : (0 < l)%nat → (k <= l)%nat → f ∈ level_files (current vs) k → keys_apart C F f.
Proof using L Hf Hlvl Hwork Hadd Hgap Hnext. intros Hl Hk Hin. apply (not_overlaps_apart C). destruct (fa_place _ _ _ _ _ _ _ Hadd) as [->|Hc]; [lia|]. by apply (Hc k Hk). Qed.

Lemma input_apart f : (level_ c + 1 <= l)%nat → f ∈ inputs → keys_apart C F f.
Proof using L Hf Hlvl Hwork Hadd Hgap Hnext.
  intros Hl Hin. destruct (input_file C cache_get contents vs _ _ _ f Hf (wo_replace _ _ _ _ _ Hwork) Hin) as ((k & Hk & Hfk) & _). apply (added_apart k f); [lia|lia|done].
Qed.

(** A file cannot be on both sides of it. *)
Lemma one_side f : file_ok C f → @Compare C (file_limit f) (file_start F) < 0 → @Compare C (file_limit F) (file_start f) < 0 → False.
Proof using L Hf Hlvl Hwork Hadd Hgap Hnext.
  intros Hof%(file_ok_user C) H1 H2. pose proof (file_ok_user C F (fa_file _ _ _ _ _ _ _ Hadd)).
  pose proof (Compare_lt_le_trans (file_limit F) (file_start f) (file_limit f) H2 Hof) as H3. pose proof (Compare_le_lt_trans (file_start F) _ _ ltac:(done) H3) as H4.
  pose proof (Compare_antisym (file_start F) (file_limit f)). lia.
Qed.

(** No two inputs are on different sides. *)
Lemma no_gap f g : (level_ c + 1 <= l)%nat → f ∈ inputs → g ∈ inputs → @Compare C (file_limit f) (file_start F) < 0 → @Compare C (file_limit F) (file_start g) < 0 → False.
Proof using L Hf Hlvl Hwork Hadd Hgap Hnext.
  intros Hl Hfi Hgi H1 H2. destruct (decide (manual = true)) as [Em|Em%not_true_is_false].
  { destruct (fa_entries _ _ _ _ _ _ _ Hadd) as (ws & w0 & wl & Hok & E & Eh & El & Es & Eli). rewrite Es, Eli in *. apply (Hgap Em). exists ws, w0, wl, f, g. done. }
  destruct (wo_connected _ _ _ _ _ Hwork Em) as (seed & Hseed & Hall). pose proof (file_ok_user C F (fa_file _ _ _ _ _ _ _ Hadd)) as HF.
  assert (∀ x, x ∈ inputs → file_ok C x) as Hoks by (intros x Hx; by destruct (input_file C cache_get contents vs _ _ _ x Hf (wo_replace _ _ _ _ _ Hwork) Hx) as (_ & _ & ?)).
  assert (∀ x, x ∈ level_files (current vs) (level_ c) ∨ x ∈ level_files (current vs) (level_ c + 1) → keys_apart C F x) as Hap
    by (intros x [Hx|Hx]; [apply (added_apart (level_ c)); [lia|lia|done]|apply (added_apart (level_ c + 1)); [lia|lia|done]]).
  destruct (input_apart seed Hl) as [Hs|Hs]; [apply elem_of_app; by left| |].
  - apply (one_side f); [by apply Hoks|done|]. apply (Hall (λ x, @Compare C (file_limit F) (file_start x) < 0)); [|done|done].
    intros p q x Hx Hp Hq Hxp Hqx. destruct (Hap x Hx) as [?|Hlt]; [done|exfalso]. pose proof (Compare_le_lt_trans (file_start q) _ _ Hqx Hlt) as H3.
    pose proof (Compare_lt_le_trans _ _ _ H3 HF). pose proof (Compare_antisym (file_limit F) (file_start q)). lia.
  - apply (one_side g); [by apply Hoks| |done]. apply (Hall (λ x, @Compare C (file_limit x) (file_start F) < 0)); [|done|done].
    intros p q x Hx Hp Hq Hxp Hqx. destruct (Hap x Hx) as [Hlt|?]; [exfalso|done]. pose proof (Compare_lt_le_trans _ _ _ Hlt Hxp) as H3.
    pose proof (Compare_lt_trans _ _ _ H3 Hp). pose proof (Compare_antisym (file_limit F) (file_start F)). lia.
Qed.

Lemma added_beside : (level_ c + 1 <= l)%nat → (∀ f, f ∈ inputs → file_lt C F f) ∨ (∀ f, f ∈ inputs → file_lt C f F).
Proof using L Hf Hlvl Hwork Hadd Hgap Hnext.
  intros Hl. assert (∀ f g, @Compare C (file_limit f) (file_start g) < 0 → file_lt C f g) as Hlt by (intros f g H; apply InternalKeyCompare_lt; by left).
  destruct (decide (Forall (λ f, @Compare C (file_limit F) (file_start f) < 0) inputs)) as [Hall|Hex].
  - left. intros f Hin. rewrite Forall_forall in Hall. apply Hlt. by apply Hall.
  - right. apply not_Forall_Exists in Hex; [|apply _]. apply Exists_exists in Hex as (f0 & Hf0 & Hno). intros f Hin. apply Hlt. destruct (input_apart f Hl Hin) as [Hs|Hs]; [exfalso|done].
    destruct (input_apart f0 Hl Hf0) as [?|Hs0]; [done|]. by apply (no_gap f0 f Hl).
Qed.

Lemma work_ok_added : work_ok manual c v nums vs'.
Proof using L Hf Hlvl Hwork Hadd Hgap Hnext.
  pose proof (fa_level _ _ _ _ _ _ _ Hadd) as E. destruct Hwork as [[R1 R2 R3 R4 R5] H2 H3 H4]. split.
  - split; [intros f Hfi; apply E; left; auto|intros f Hfi; apply E; left; auto| | |].
    + intros g f [Hg|[_ ->]]%E Hnot Hfi; [by apply R3|]. apply added_newer, elem_of_app. by left.
    + intros g f [Hg|[_ ->]]%E Hnot Hfi; [by apply R4|by apply added_newer].
    + intros g [Hg|[El ->]]%E Hnot; [by apply R5|]. apply added_beside. lia.
  - intros u f Hfi Hu. rewrite <-(H2 u f Hfi Hu). unfold deeper. split.
    + intros (k & g & Hk & [Hg|[-> ->]]%E & Hug); [eauto|]. exfalso. destruct (input_apart f ltac:(lia) Hfi) as [Hs|Hs], Hu as [U1 U2], Hug as [G1 G2].
      * pose proof (Compare_antisym u (file_limit F)). pose proof (Compare_antisym (file_start f) u). pose proof (Compare_lt_le_trans (file_limit F) (file_start f) u). lia.
      * pose proof (Compare_antisym u (file_limit f)). pose proof (Compare_antisym (file_start F) u). pose proof (Compare_lt_le_trans (file_limit f) (file_start F) u). lia.
    + intros (k & g & Hk & Hg & Hug). exists k, g. split; [done|]. split; [apply E; by left|done].
  - intros Hm. eapply connected_mono; [|by apply H3]. intros k f Hfk. apply E. by left.
  - intros n Hn. destruct (H4 n Hn) as [? Hne]. split; [lia|]. intros level f [Hfl|[_ ->]]%E; [by eapply Hne|]. rewrite (fa_number _ _ _ _ _ _ _ Hadd). lia.
Qed.

End added.

(** ** Steps inside a compaction *)

(** The table of a flush will hold the entries of the memtable, and its number is
    small. *)
Definition flushable (io : OutputIO) (db : DBImpl (W := W)) (imm : MemTable) : Prop :=
  vs_next_file_number (versions_ db) + 1 < 2 ^ 31 ∧
  ∀ ws, Forall write_ok ws → mem_entries imm = Some (entry_of_write <$> ws) → ws ≠ [] → table_written C cache_get contents io (vs_next_file_number (versions_ db)) ws.

(** A foreground operation, a flush, or an output file that takes its number.  Only in a
    manual compaction the memtable must not lie in a gap of the inputs. *)
Inductive inside (manual : bool) (c : Compaction) : DBImpl (W := W) * list Write → DBImpl (W := W) * list Write → Prop :=
  | inside_quiet x x' : quiet C base options cache_get x x' → inside manual c x x'
  | inside_flush db h imm f db' removed : imm_ db = Some imm → flushable (fl_output f) db imm → (manual = true → ¬ in_gap c imm) →
      CompactMemTable C options (fl_output f) (fl_manifest f) (fl_micros f) (fl_filenames f) db = Some (db', removed) → inside manual c (db, h) (db', h)
  | inside_open db h pending : vs_next_file_number (versions_ db) + 1 < 2 ^ 31 →
      inside manual c (db, h) (with_pending (with_version_set db (NewFileNumber (versions_ db)).2) pending, h).

(** The current version stays, or a new one takes its place. *)
Record advances (db db' : DBImpl (W := W)) : Prop := {
  av_id : (current_id (versions_ db) < current_id (versions_ db'))%nat ∨
    current_id (versions_ db') = current_id (versions_ db) ∧ v_refs_ (current (versions_ db)) <= v_refs_ (current (versions_ db'));
  av_floor : floor db <= floor db';
}.

Lemma advances_refl db : advances db db.
Proof. split; [by right|lia]. Qed.

Lemma advances_trans db1 db2 db3 : advances db1 db2 → advances db2 db3 → advances db1 db3.
Proof. intros [A1 A2] [B1 B2]. split; lia. Qed.

Lemma undisturbed_advances db db' : undisturbed db db' → advances db db'.
Proof. intros [_ H2 [H3 _] _ H5]. split; [by right|done]. Qed.

Lemma undisturbed_work manual c v nums db db' : undisturbed db db' → work_ok manual c v nums (versions_ db) → work_ok manual c v nums (versions_ db').
Proof. intros [H1 _ _ H4 _]. apply work_ok_same; [|done]. intros level f. by rewrite (level_files_eq _ _ level H1). Qed.

(** A flush of the database. *)
Lemma flush_refines io mio micros filenames db h imm : refines C cache_get contents db h → imm_ db = Some imm → flushable io db imm →
  ∃ db' removed, CompactMemTable C options io mio micros filenames db = Some (db', removed) ∧ refines C cache_get contents db' h ∧
    (imm_ db' = None ∨ ok (bg_error_ db') = false) ∧ flush_effect C contents imm (versions_ db) (versions_ db') ∧ floor db' = floor db.
Proof using L.
  intros Hr Hi [Hmax Hw]. pose proof Hr as [(h' & Hrep & Hreads) R2 R3 R4].
  destruct (db_Flush C cache_get contents options io mio micros filenames db h' imm Hrep Hi Hmax Hw) as (db' & removed & E & Hrep' & Hfr & El & Hd & Hef).
  exists db', removed. pose proof (fr_snapshots _ _ Hfr) as Es. assert (floor db' = floor db) as Ef by (unfold floor; by rewrite Es, El).
  split_and!; try done. split; [|apply (snapshots_ok_mono db); [done|lia|done]|done|by rewrite El]. exists h'. by rewrite Ef.
Qed.

Section inside.
  Context (manual : bool) (c : Compaction) (v : Version).
  Hypothesis Hlvl : (level_ c + 1 < num_levels)%nat.

(** What holds while the work goes on. *)
Record working (nums : list Z) (db0 db : DBImpl (W := W)) (h : list Write) : Prop := {
  wk_refines : refines C cache_get contents db h;
  wk_work : work_ok manual c v nums (versions_ db);
  wk_advances : advances db0 db;
}.

Lemma flush_effect_work nums imm db db' : files_ok C cache_get contents (versions_ db) → (manual = true → ¬ in_gap c imm) →
  flush_effect C contents imm (versions_ db) (versions_ db') → floor db' = floor db → work_ok manual c v nums (versions_ db) →
  work_ok manual c v nums (versions_ db') ∧ advances db db'.
Proof using L Hlvl.
  intros Hf Hgap [Hsv|(Hid & Hn & Hef)] Efl Hw.
  - split; [|split; [right; split; apply Hsv|lia]]. eapply work_ok_same; [|apply Hsv|done]. intros level f. by rewrite (level_files_eq _ _ level (sv_files _ _ Hsv)).
  - split; [|split; [by left|lia]]. destruct Hef as [E|(l & F & Ha)]; [apply (work_ok_same manual c v nums (versions_ db)); [done|lia|done]|by eapply work_ok_added].
Qed.

Lemma inside_step nums db0 x x' : inside manual c x x' → working nums db0 x.1 x.2 → working nums db0 x'.1 x'.2.
Proof using L Hlvl.
  intros Hin [Hr Hw Ha]. destruct Hin as [x x' Hq|db h imm f db' removed Hi Hfl Hgap E|db h pending Hn]; cbn [fst snd] in *.
  - destruct (quiet_step C base options cache_get contents _ _ Hq Hr) as [Hr' Hu]. split; [done|by eapply undisturbed_work|eapply advances_trans; [done|by apply undisturbed_advances]].
  - destruct (flush_refines (fl_output f) (fl_manifest f) (fl_micros f) (fl_filenames f) db h imm Hr Hi Hfl) as (db2 & removed2 & E2 & Hr' & _ & Hef & Efl). rewrite E in E2. injection E2 as <- <-.
    destruct (rf_state _ _ _ _ _ Hr) as (h' & Hrep & _). destruct (flush_effect_work nums imm db db' (rp_files _ _ _ _ _ Hrep) Hgap Hef Efl Hw) as [Hw' Ha'].
    split; [done|done|by eapply advances_trans].
  - destruct (rf_state _ _ _ _ _ Hr) as (h' & Hrep & _). pose proof (vf_next _ _ _ _ (rp_files _ _ _ _ _ Hrep)) as Hn0.
    destruct (NewFileNumber (versions_ db)) as [n vs1] eqn:En. destruct (NewFileNumber_same _ _ _ En) as (-> & Hsv & Hnext); [range_lia|range_lia|]. cbn [snd].
    assert (undisturbed db (with_pending (with_version_set db vs1) pending)) as Hu by (by apply same_versions_undisturbed).
    split; [|by eapply undisturbed_work|eapply advances_trans; [done|by apply undisturbed_advances]].
    apply (refines_same C cache_get contents db); [|done|apply Hsv|done]. intros h1. by apply represents_same.
Qed.

Lemma inside_steps nums db0 x x' : rtc (inside manual c) x x' → working nums db0 x.1 x.2 → working nums db0 x'.1 x'.2.
Proof using L Hlvl. induction 1 as [|x1 x2 x3 Hs _ IH]; [done|]. intros Hw. by eapply IH, inside_step. Qed.

Lemma quiets_inside x x' : rtc (quiet C base options cache_get) x x' → rtc (inside manual c) x x'.
Proof using. induction 1 as [|x1 x2 x3 Hs _ IH]; [done|]. eapply rtc_l; [by apply inside_quiet|done]. Qed.

End inside.

(** ** The loop *)

(** What the other threads do up to a point leads to a state in which [K] holds. *)
Definition between_to (io : CompactionIO (W := W)) (k : nat) (db : DBImpl (W := W)) (h : list Write) (K : DBImpl (W := W) → list Write → Prop) : Prop :=
  ∃ db' h', cio_between io k db = Some db' ∧ rtc (quiet C base options cache_get) (db, h) (db', h') ∧ K db' h'.

(** The flush before an entry, if there is one. *)
Definition flush_to (io : CompactionIO (W := W)) (manual : bool) (c : Compaction) (n : nat) (db : DBImpl (W := W)) (h : list Write) (K : DBImpl (W := W) → list Write → Prop) : Prop :=
  if cio_has_imm io n then
    between_to io (3 * n + 1) db h (λ db h,
      match imm_ db with
      | Some imm =>
          let f := cio_flush io n in
          flushable (fl_output f) db imm ∧ (manual = true → ¬ in_gap c imm) ∧
          ∀ db' removed, CompactMemTable C options (fl_output f) (fl_manifest f) (fl_micros f) (fl_filenames f) db = Some (db', removed) → K db' h
      | None => K db h
      end)
  else K db h.

Fixpoint loop_to (io : CompactionIO (W := W)) (manual : bool) (c : Compaction) (v : Version) (n : nat) (ks : KeyState) (j : Job) (db : DBImpl (W := W)) (h : list Write)
    (input : list entry) (K : Status → Job → nat → list entry → DBImpl (W := W) → list Write → Prop) : Prop :=
  between_to io (3 * n) db h (λ db h,
    match input with
    | [] => K Status_OK j n [] db h
    | (key, value) :: rest =>
        if shutting_down_ db then K Status_OK j (S n) input db h
        else flush_to io manual c n db h (λ db h, between_to io (3 * n + 2) db h (λ db h,
          vs_next_file_number (versions_ db) + 1 < 2 ^ 31 ∧
          let '(s, ks, j, db) := work_entry C options io v ks j key value input db in
          if ok s then loop_to io manual c v (S n) ks j db h rest K else K s j (S n) input db h))
    end).

Section loop.
  Context (io : CompactionIO (W := W)) (manual : bool) (c : Compaction) (v : Version) (db0 : DBImpl (W := W)).
  Hypothesis Hlvl : (level_ c + 1 < num_levels)%nat.
  Hypothesis Hv : ∀ lvl, (0 < lvl)%nat → level_sorted C (level_files v lvl).

Let numbers (j : Job) : list Z := out_number <$> outputs (compact j).

Lemma between_step nums k db h K : working manual c v nums db0 db h → between_to io k db h K →
  ∃ db' h', cio_between io k db = Some db' ∧ K db' h' ∧ rtc (inside manual c) (db, h) (db', h') ∧ working manual c v nums db0 db' h'.
Proof using L Hlvl.
  intros Hw (db' & h' & E & Hq & HK). pose proof (quiets_inside manual c _ _ Hq) as Hin. exists db', h'. split_and!; try done. exact (inside_steps manual c v Hlvl nums db0 _ _ Hin Hw).
Qed.

Lemma flush_waiting_step nums n db h K : working manual c v nums db0 db h → flush_to io manual c n db h K →
  ∃ db' h' removed, flush_waiting C options io n db = Some (db', removed) ∧ K db' h' ∧ rtc (inside manual c) (db, h) (db', h') ∧ working manual c v nums db0 db' h'.
Proof using L Hlvl.
  intros Hw Hto. unfold flush_waiting, flush_to in *. destruct (cio_has_imm io n); [|by exists db, h, []].
  destruct (between_step nums _ db h _ Hw Hto) as (db1 & h1 & -> & HK & Hin & Hw1). cbn [mbind option_bind]. destruct (imm_ db1) as [imm|] eqn:Ei; [|by exists db1, h1, []].
  destruct HK as (Hfl & Hgap & HK). set (f := cio_flush io n) in *.
  destruct (flush_refines (fl_output f) (fl_manifest f) (fl_micros f) (fl_filenames f) db1 h1 imm (wk_refines _ _ _ _ _ _ _ Hw1) Ei Hfl) as (db2 & removed & E & _).
  exists db2, h1, removed. pose proof (inside_flush manual c db1 h1 imm f db2 removed Ei Hfl Hgap E) as Hs. split_and!; [done|by eapply HK| |exact (inside_step manual c v Hlvl nums db0 _ _ Hs Hw1)].
  eapply rtc_r; [exact Hin|done].
Qed.

(** One entry. *)
Lemma work_entry_step w rest prev ks j db h added : job_ok (cio_output io) j added → describes_prev C prev ks → write_ok w → smallest_snapshot (compact j) < kMaxSequenceNumber →
  ptrs_ok C v (wkey w) (level_ptrs_ (compaction (compact j))) → NoDup (numbers j) → working manual c v (numbers j) db0 db h → vs_next_file_number (versions_ db) + 1 < 2 ^ 31 →
  ∃ s ks' j' db', work_entry C options io v ks j (ikey_of w) (wvalue w) rest db = (s, ks', j', db') ∧ rtc (inside manual c) (db, h) (db', h) ∧
    working manual c v (numbers j') db0 db' h ∧ NoDup (numbers j') ∧
    (ok s = true → ∃ drop : bool, describes_prev C (Some w) ks' ∧ job_ok (cio_output io) j' (added ++ (if drop then [] else [entry_of_write w])) ∧
      smallest_snapshot (compact j') = smallest_snapshot (compact j) ∧ ptrs_ok C v (wkey w) (level_ptrs_ (compaction (compact j'))) ∧
      same_plan (compaction (compact j)) (compaction (compact j')) ∧
      (hidden C (smallest_snapshot (compact j)) prev w ∧ drop = true ∨
       ¬ hidden C (smallest_snapshot (compact j)) prev w ∧ (drop = true ↔ obsolete C v (level_ (compaction (compact j))) (smallest_snapshot (compact j)) w))).
Proof using L Hlvl Hv.
  intros Hj Hprev Hw Hsn Hptr Hnd Hwk Hn. unfold work_entry. set (j1 := MkJob (compact j) (db_pending_outputs db) (tables j)).
  assert (job_ok (cio_output io) j1 added) as Hj1 by by destruct Hj.
  destruct (compact_entry_spec C (max_file_size options) (cio_output io) (λ _, vs_next_file_number (versions_ db)) (cio_input_status io) v Hv w rest prev ks j1 added Hj1 Hprev Hw Hsn Hptr)
    as (s & ks' & j' & -> & _ & Hnum & Hok). change (outputs (compact j1)) with (outputs (compact j)) in *.
  assert (length (outputs (compact j')) = length (numbers j')) as El by (unfold numbers; by rewrite length_fmap). assert (length (outputs (compact j)) = length (numbers j)) as El0 by (unfold numbers; by rewrite length_fmap).
  do 4 eexists. split; [done|]. rewrite El, El0. change (compact j) with (compact j1) in Hnum. destruct Hnum as [[E _]|[E _]]; change (numbers j' = numbers j) in E || change (numbers j' = numbers j ++ [vs_next_file_number (versions_ db)]) in E; rewrite E.
  - rewrite Nat.ltb_irrefl. split_and!; try done.
  - rewrite length_app, (proj2 (Nat.ltb_lt _ _)) by (cbn; lia). pose proof (inside_open manual c db h (pending_outputs_ j') Hn) as Hs.
    destruct (rf_state _ _ _ _ _ (wk_refines _ _ _ _ _ _ _ Hwk)) as (h' & Hrep & _). pose proof (rp_files _ _ _ _ _ Hrep) as Hf. pose proof (vf_next _ _ _ _ Hf) as Hn0.
    destruct (inside_step manual c v Hlvl (numbers j) db0 _ _ Hs Hwk) as [W1 W2 W3]. cbn [fst snd] in *. split; [by apply rtc_once|]. split; [split; [done| |done]|split; [|done]].
    + apply work_ok_number; [|intros level f Hfl; pose proof (vf_number _ _ _ _ Hf level f Hfl); lia|done]. cbn. rewrite u64_small by range_lia. lia.
    + apply NoDup_app. split; [done|]. split; [|apply NoDup_singleton]. intros n Hin ->%list_elem_of_singleton. destruct (wo_fresh _ _ _ _ _ (wk_work _ _ _ _ _ _ _ Hwk) _ Hin) as [? _]. lia.
Qed.

(** The loop ends; unless the database is shut down it has worked on all entries. *)
Lemma work_loop_step K ws : ∀ n prev ks j db h added, job_ok (cio_output io) j added → describes_prev C prev ks → Forall write_ok ws → StronglySorted (before C) ws →
  smallest_snapshot (compact j) < kMaxSequenceNumber → (∀ w, w ∈ ws → ptrs_ok C v (wkey w) (level_ptrs_ (compaction (compact j)))) →
  NoDup (numbers j) → working manual c v (numbers j) db0 db h → loop_to io manual c v n ks j db h (entry_of_write <$> ws) K →
  ∃ s j' n' rest db' removed h', work_loop C options io v n ks j db (entry_of_write <$> ws) = Some (s, j', n', rest, db', removed) ∧ K s j' n' rest db' h' ∧
    rtc (inside manual c) (db, h) (db', h') ∧ working manual c v (numbers j') db0 db' h' ∧ NoDup (numbers j') ∧
    (ok s = true → shutting_down_ db' = true ∨ ∃ kept, keeps C v (level_ (compaction (compact j))) (smallest_snapshot (compact j)) prev ws kept ∧
      job_ok (cio_output io) j' (added ++ (entry_of_write <$> kept)) ∧ same_plan (compaction (compact j)) (compaction (compact j'))).
Proof using L Hlvl Hv.
  induction ws as [|w ws IH]; intros n prev ks j db h added Hj Hprev Hok Hs Hsn Hptrs Hnd Hwk Hto.
  { cbn [fmap list_fmap loop_to work_loop] in *. destruct (between_step _ _ db h _ Hwk Hto) as (db1 & h1 & -> & HK & Hin & Hw1). cbn [mbind option_bind]. do 7 eexists. split; [done|].
    split_and!; try done. intros _. right. exists []. split; [constructor|]. cbn. rewrite app_nil_r. split; [done|by split]. }
  apply Forall_cons in Hok as [Hw Hok]. apply StronglySorted_inv in Hs as [Hs Hall].
  change (entry_of_write <$> w :: ws) with ((ikey_of w, wvalue w) :: (entry_of_write <$> ws)) in *. cbn [loop_to work_loop] in *.
  destruct (between_step _ _ db h _ Hwk Hto) as (db1 & h1 & -> & HK1 & Hin1 & Hw1). cbn [mbind option_bind]. destruct (shutting_down_ db1) eqn:Esh.
  { do 7 eexists. split; [done|]. split_and!; try done. intros _. by left. }
  destruct (flush_waiting_step _ n db1 h1 _ Hw1 HK1) as (db2 & h2 & removed & -> & HK2 & Hin2 & Hw2). cbn [mbind option_bind].
  destruct (between_step _ _ db2 h2 _ Hw2 HK2) as (db3 & h3 & -> & [Hn HK3] & Hin3 & Hw3). cbn [mbind option_bind].
  destruct (work_entry_step w ((ikey_of w, wvalue w) :: (entry_of_write <$> ws)) prev ks j db3 h3 added Hj Hprev Hw Hsn (Hptrs w ltac:(left)) Hnd Hw3 Hn)
    as (s1 & ks1 & j1 & db4 & E & Hin4 & Hw4 & Hnd4 & Hok4). rewrite E in HK3 |- *.
  assert (rtc (inside manual c) (db, h) (db4, h3)) as Hin by (etrans; [exact Hin1|]; etrans; [exact Hin2|]; by etrans). clear Hin1 Hin2 Hin3 Hin4.
  destruct (ok s1) eqn:Es1; [|do 7 eexists; split; [done|]; split_and!; try done; by rewrite Es1].
  destruct (Hok4 eq_refl) as (drop & Hprev1 & Hj1 & Esn & Hp1 & Hplan1 & Hcase).
  destruct (IH (S n) (Some w) ks1 j1 db4 h3 _ Hj1 Hprev1 Hok Hs) as (s & j' & n' & rest' & db' & removed' & h' & -> & HK' & Hin' & Hw' & Hnd' & Hdone); try done.
  - by rewrite Esn.
  - intros x Hx. apply (ptrs_ok_mono C v (wkey w)); [|done]. pose proof (proj1 (Forall_forall _ _) Hall x Hx) as Hlt. apply (ikey_of_lt C) in Hlt. lia.
  - cbn [mbind option_bind]. do 7 eexists. split; [done|]. split; [done|]. split; [by etrans|]. split; [done|]. split; [done|]. intros Es. destruct (Hdone Es) as [?|(kept & Hk & Hj' & Hplan)]; [by left|right].
    rewrite Esn, (sp_level _ _ Hplan1) in Hk. exists (if drop then kept else w :: kept). split; [by eapply keeps_step|]. split; [|by eapply same_plan_trans].
    rewrite <-app_assoc in Hj'. by destruct drop.
Qed.

End loop.

(** ** The whole work *)

Lemma quiet_down x x' : quiet C base options cache_get x x' → shutting_down_ x.1 = true → shutting_down_ x'.1 = true.
Proof.
  assert (∀ db, shutting_down_ (W := W) (MaybeScheduleCompaction db) = shutting_down_ db) as Hms by (intros db; unfold MaybeScheduleCompaction; by repeat case_match).
  assert (∀ s db, shutting_down_ (W := W) (RecordBackgroundError s db) = shutting_down_ db) as Hrb by (intros s db; unfold RecordBackgroundError; by case_match).
  intros [db h r|db h io room requests s n db' _ _ _ _ _ E|db h io force allow_delay _|db h snapshot key value r db' _ _ E|db h key db' E|db h|db h id|db h m Hm|db h]; cbn [fst snd]; try done.
  - unfold CommitGroup in E. destruct (writers_ db) as [|w ws]; [done|]. destruct (ok room); [destruct (wr_batch w)|]; [|by injection E as _ _ <-..].
    destruct (BuildBatchGroup db) as [[[b is_tmp] m]|]; [|done]. cbn [mbind option_bind] in E. destruct (log_and_insert _ _ _ _ _ _ _) as [[[[s1 e] log] mem]|]; [|done]. cbn [mbind option_bind] in E.
    injection E as _ _ <-. destruct e; cbn; rewrite ?Hrb; done.
  - unfold MakeRoom. destruct (negb _); [done|]. destruct (_ && _); [done|]. destruct (_ && _); [done|]. destruct (imm_ db); [done|]. destruct (_ >=? _); [done|].
    cbn [NewFileNumber]. destruct (dio_new_log io _) as [s lfile]. destruct (ok s); cbn [snd]; [|done]. rewrite Hms. cbn. destruct (ok _); [done|]. by rewrite Hrb.
  - unfold Get in E. destruct (MemTable.Get C (mem_ db) _ _ _) as [[[[|] v1] s1]|]; [by injection E as _ <-| |done]. cbn [mbind option_bind] in E.
    destruct (match imm_ db with Some imm => _ | None => _ end) as [[[[|] v2] s2]|]; [by injection E as _ <-| |done]. cbn [mbind option_bind] in E.
    destruct (Version.Get _ _ _ _ _ _) as [[[[s3 v3] stats] store]|]; [|done]. cbn [mbind option_bind] in E. destruct (UpdateStats _ store stats) as [[v store'] b]. injection E as _ <-. destruct b; cbn; rewrite ?Hms; done.
  - unfold RecordReadSample in E. destruct (Version.RecordReadSample C _ _ key) as [[[v store] b]|]; [|done]. cbn [mbind option_bind] in E. injection E as <-. destruct b; cbn; rewrite ?Hms; done.
  - unfold StartManual. destruct (manual_compaction_ db); [done|]. by rewrite Hms.
Qed.

Lemma quiets_down x x' : rtc (quiet C base options cache_get) x x' → shutting_down_ x.1 = true → shutting_down_ x'.1 = true.
Proof. induction 1 as [|x1 x2 x3 Hq _ IH]; [done|]. intros H. by eapply IH, quiet_down. Qed.

(** What is known of the surroundings of a compaction: the input iterator yields the
    entries of the input files in order; what happens around the loop leads to the
    history [h2]; if the work is done, the tables that were finished hold what was added;
    file numbers stay below [2^31]. *)
Definition work_to (io : CompactionIO (W := W)) (manual : bool) (c : Compaction) (db : DBImpl (W := W)) (h h2 : list Write) : Prop :=
  (∃ ws, merged C contents c (cio_input io c) ws) ∧
  loop_to io manual c (current (versions_ db)) 0 NewKeyState
    (start_job (snd <$> snaps (snapshots_ db)) (vs_last_sequence (versions_ db)) (MkJob (NewCompactionState c) (db_pending_outputs db) [])) db h (cio_input io c) (λ s j n rest db h,
    between_to io (3 * n + 1) db h (λ db h,
      let '(s, j) := finish_job (cio_output io) (cio_input_status io) (shutting_down_ db) s j rest in
      (ok s = true → tables_written C cache_get contents (cio_output io) j) ∧
      between_to io (3 * n + 2) db h (λ db h, vs_next_file_number (versions_ db) < 2 ^ 31 ∧ h = h2))).

(** The state before the results are installed. *)
Lemma work_done io manual c db h h2 : refines C cache_get contents db h → planned C (current (versions_ db)) c → (manual = false → connected C (current (versions_ db)) c) →
  work_to io manual c db h h2 →
  ∃ s0 j0 n rest db1 removed db2 s j db3,
    work_loop C options io (current (versions_ db)) 0 NewKeyState
      (start_job (snd <$> snaps (snapshots_ db)) (vs_last_sequence (versions_ db)) (MkJob (NewCompactionState c) (db_pending_outputs db) [])) db (cio_input io c) = Some (s0, j0, n, rest, db1, removed) ∧
    cio_between io (3 * n + 1) db1 = Some db2 ∧ finish_job (cio_output io) (cio_input_status io) (shutting_down_ db2) s0 j0 rest = (s, j) ∧ cio_between io (3 * n + 2) db2 = Some db3 ∧
    rtc (inside manual c) (db, h) (db3, h2) ∧ vs_next_file_number (versions_ db3) < 2 ^ 31 ∧
    (∃ nums, working manual c (current (versions_ db)) nums db db3 h2 ∧
      (ok s = true → nums = out_number <$> outputs (compact j) ∧ NoDup nums ∧ tables_written C cache_get contents (cio_output io) j ∧
        ∃ ws kept, merged C contents c (cio_input io c) ws ∧ keeps C (current (versions_ db)) (level_ c) (floor db) None ws kept ∧ builder (compact j) = None ∧
          job_ok (cio_output io) j (entry_of_write <$> kept) ∧ same_plan c (compaction (compact j)))).
Proof using L.
  intros Hr Hp Hc [(ws & Hm) Hto]. destruct (rf_state _ _ _ _ _ Hr) as (h' & Hrep & _). pose proof (rp_files _ _ _ _ _ Hrep) as Hf.
  pose proof (pl_level _ _ _ Hp) as Hlvl. pose proof (work_ok_start manual c (versions_ db) Hf Hp Hc) as Hwk0. pose proof (merged_ok C cache_get contents _ _ _ _ Hf (planned_replaceable C cache_get contents _ _ Hf Hp) Hm) as Hok.
  pose proof (floor_le db _ (rf_snapshots _ _ _ _ _ Hr) ltac:(left)) as Hfl. pose proof (rp_seq _ _ _ _ _ Hrep) as Hseq. pose proof Hm as (Ein & Hs & _). rewrite Ein in Hto |- *.
  set (j0 := start_job _ _ _) in *. set (v := current (versions_ db)) in *.
  assert (job_ok (cio_output io) j0 []) as Hj0 by (split; [constructor|done|by intros i o t ?]).
  assert (∀ lvl, (0 < lvl)%nat → level_sorted C (level_files v lvl)) as Hv by (intros lvl Hl; by apply (vo_sorted _ _ _ _ (vf_version _ _ _ _ Hf))).
  set (K := λ (s : Status) (j : Job) (n : nat) (rest : list entry) db h, _) in Hto.
  destruct (work_loop_step io manual c v db Hlvl Hv K ws 0 None NewKeyState j0 db h [] Hj0) as (s1 & j1 & n & rest & db1 & removed & h1 & E1 & HK1 & Hin1 & Hw1 & Hnd1 & Hdone); try done.
  { change (smallest_snapshot (compact j0)) with (floor db). lia. }
  { intros w _. cbn. rewrite (pl_ptrs _ _ _ Hp). split; [by rewrite length_replicate|]. intros lvl ptr [-> _]%lookup_replicate. intros i f Hi. lia. }
  { constructor. }
  { split; [done|done|apply advances_refl]. }
  pose proof HK1 as (db2 & h2' & E2 & Hq2 & HK2). destruct (finish_job_spec (cio_output io) (cio_input_status io) (shutting_down_ db2) s1 j1 rest) as (s & j & Ej & _ & Hfin). rewrite Ej in HK2.
  destruct HK2 as (Htab & db3 & h3 & E3 & Hq3 & Hbnd & ->).
  assert (rtc (inside manual c) (db1, h1) (db3, h2)) as Hin3 by (etrans; apply quiets_inside; [exact Hq2|exact Hq3]).
  pose proof (inside_steps manual c v Hlvl _ db _ _ Hin3 Hw1) as Hw3. cbn [fst snd] in Hw3.
  exists s1, j1, n, rest, db1, removed, db2, s, j, db3. split_and!; try done; [by etrans|]. eexists. split; [exact Hw3|]. intros Es. destruct (Hfin Es) as (Es1 & Edn & Hj).
  destruct (Hdone Es1) as [Hd|(kept & Hk & Hj1 & Hpl1)]; [pose proof (quiets_down _ _ Hq2 Hd); cbn in *; congruence|].
  destruct (Hj _ Hj1) as (Hj' & Hb & [Hc' _] & Hnum & _). split; [done|]. split; [done|]. split; [by apply Htab|]. exists ws, kept. split_and!; try done; [by rewrite <-Ein|by rewrite Hc'].
Qed.

(** A compaction ends, keeps the reads, and reports its failures. *)
Lemma DoCompactionWork_step io manual c db h h2 : refines C cache_get contents db h → planned C (current (versions_ db)) c → (manual = false → connected C (current (versions_ db)) c) →
  work_to io manual c db h h2 →
  ∃ s j db' removed, DoCompactionWork C options io c db = Some (s, j, db', removed) ∧ refines C cache_get contents db' h2 ∧
    (2 <= v_refs_ (current (versions_ db)) → current_id (versions_ db') = current_id (versions_ db) → 2 <= v_refs_ (current (versions_ db'))) ∧
    (ok s = false → ok (bg_error_ db') = false) ∧
    ∃ db1, rtc (inside manual c) (db, h) (db1, h2) ∧ manual_compaction_ db' = manual_compaction_ db1 ∧
      (versions_ db' = versions_ db1 ∨ ∃ e s' e', LogAndApply C (cio_manifest io) e (versions_ db1) = Some (s', e', versions_ db')).
Proof using L.
  intros Hr Hp Hc Hto. destruct (work_done io manual c db h h2 Hr Hp Hc Hto) as (s0 & j0 & n & rest & db1 & removed & db2 & s & j & db3 & E1 & E2 & Ej & E3 & Hin & Hbnd & nums & [Hr3 Hw3 Ha3] & Hdone).
  unfold DoCompactionWork. rewrite E1. cbn [mbind option_bind]. rewrite E2. cbn [mbind option_bind]. rewrite Ej, E3. cbn [mbind option_bind].
  assert (∀ st k worth, refines C cache_get contents (with_counts db3 st k worth) h2) as Hcounts.
  { intros st k worth. apply (refines_same C cache_get contents db3); [|done|done|done]. intros h'. apply represents_same; (done || apply same_versions_refl). }
  assert (∀ s' db4, manual_compaction_ (RecordBackgroundError (W := W) s' db4) = manual_compaction_ db4) as Hman by (intros s' db4; unfold RecordBackgroundError; by case_match).
  destruct (ok s) eqn:Es.
  2: { do 4 eexists. split; [done|]. set (db4 := with_counts _ _ _ _). destruct (RecordBackgroundError_fields s db4) as (_ & _ & _ & Ev & _).
    split_and!; [apply refines_record, Hcounts| |intros _; by apply RecordBackgroundError_set|exists db3; split_and!; [done|by rewrite Hman|left; by rewrite Ev]].
    rewrite Ev. intros H2 Hid. destruct Ha3 as [[Hlt|[_ Hrf]] _]; cbn in *; lia. }
  destruct (Hdone eq_refl) as (-> & Hnd & Htab & ws & kept & Hm & Hk & Hb & Hj & Hpl). destruct (InstallCompactionResults C _ _ _ j) as [c' calls] eqn:Ei.
  destruct (rf_state _ _ _ _ _ Hr3) as (h' & Hrep & Hreads). pose proof (pl_level _ _ _ Hp) as Hlvl. pose proof (rp_files _ _ _ _ _ Hrep) as Hf3. pose proof (wo_replace _ _ _ _ _ Hw3) as Hrx.
  destruct (LogAndApply_cases C (cio_manifest io) (edit_ c') (versions_ db3) (rp_descriptor _ _ _ _ _ Hrep)) as (s3 & vs3 & El & Hd3 & N1 & N2 & _ & Hcase). rewrite El. cbn [mbind option_bind].
  do 4 eexists. split; [done|]. destruct (ok s3) eqn:Es3.
  - destruct (installed_current _ _ _ Hcase) as [Hfiles Hrefs]. destruct Hcase as (Hid & v3 & Hlast & _). destruct (rp_layers _ _ _ _ _ Hrep) as (wm & wi & Hlay & Hh).
    pose proof (install_edit C (cio_access_time io) (current (versions_ db3)) _ (vs_store (versions_ db3)) j c Hp Hpl) as He. rewrite Ei in He. cbn [fst] in He.
    assert (keeps C (current (versions_ db3)) (level_ c) (floor db) None ws kept) as Hk3.
    { eapply keeps_deeper; [|exact Hk]. intros w (f & Hfi & Hwf)%(proj2 (proj2 Hm)). apply (wo_deeper _ _ _ _ _ Hw3 (wkey w) f); [done|]. by apply (bounded_keys C contents); [eapply input_bounded|]. }
    destruct (work_installed C cache_get contents (versions_ db3) vs3 c (cio_input io c) ws kept (cio_output io) j (floor db) Hf3 Hlvl Hrx Hm Hk3 Hj Hb Htab Hnd (wo_fresh _ _ _ _ _ Hw3) Hbnd)
      with (e := fill_edit (versions_ db3) (edit_ c')) (cp := vs_compact_pointer (versions_ db3)) (store := vs_store (versions_ db3)) as [Hf4 Hw4]; try done.
    { destruct He as [D1 D2], (fill_edit_fields (versions_ db3) (edit_ c')) as (F1 & F2 & _). split; [by rewrite F1|by rewrite F2]. }
    split_and!; [|intros _ Hsame|done|exists db3; split_and!; [done|done|right; eauto]].
    + eapply (refines_installed C cache_get contents db3); try done. apply Ha3.
    + exfalso. cbn in Hsame. unfold current_id in Hsame at 1. rewrite Hlast in Hsame. cbn in Hsame. pose proof (vf_id _ _ _ _ Hf3). destruct Ha3 as [Hlt _]. lia.
  - destruct Hcase as [Ev Eid]. assert (same_versions (versions_ db3) vs3) as Hsv by by apply unchanged_versions. set (db4 := with_counts _ _ _ _). destruct (RecordBackgroundError_fields s3 db4) as (_ & _ & _ & Ev4 & _).
    split_and!; [|rewrite Ev4|intros _; by apply RecordBackgroundError_set|exists db3; split_and!; [done|by rewrite Hman|right; rewrite Ev4; eauto]].
    + apply refines_record. apply (refines_same C cache_get contents db3); [|done|apply Hsv|done]. intros h1. by apply represents_same.
    + intros H2 Hsame. destruct (sv_id _ _ Hsv) as [Hid _]. pose proof (sv_refs _ _ Hsv). destruct Ha3 as [[Hlt|[_ Hrf]] _]; cbn in *; lia.
Qed.

End work.
