(* ===== verification/DbPlan.v ===== *)
(** * Choosing compactions of the database

    The two ways to choose a compaction, by score or seeks ([PickCompaction]) and by
    range ([CompactRange]), always give a plan that [DbBackground] can run.  What a
    version records for the choice (its best level, the file with too many seeks)
    stays valid: [Finalize] and the reads that charge files for seeks keep it. *)

From stdpp Require Import gmap sorting relations.
From Stdlib Require Import SpecFloat.
From S2P Require Import Prelude Coding Status Env Comparator Log DbFormat Arena Random SkipList MemTable WriteBatch VersionEdit Version VersionBuilder Compaction DbCompaction VersionSet DbImpl DbHistory DbFlush DbRefinement DbSteps DbBackground.

Lemma elem_of_take_sub {A} n (l : list A) x : x ∈ take n l → x ∈ l.
Proof. intros Hx. rewrite <-(take_drop n l). apply elem_of_app. by left. Qed.

Lemma seven_levels : num_levels = 7%nat.
Proof. done. Qed.

Section plan.
  Context (C : Comparator) {L : ComparatorLaws C} (max_file_size : Z).

(** ** Starting points *)

Lemma level_strongly_sorted lf : level_sorted C lf → StronglySorted (file_lt C) lf.
Proof. intros Hs. apply lookup_sorted. intros i j f g. apply (lv_disjoint C lf Hs). Qed.

Lemma splits_single lf f : level_sorted C lf → f ∈ lf → splits C lf [f].
Proof.
  intros Hs Hf g Hg Hne. rewrite list_elem_of_singleton in Hne.
  destruct (sorted_file_lt C lf g f Hs Hg Hf Hne); [left|right]; intros h ->%list_elem_of_singleton; done.
Qed.

Lemma limit_inputs_take limit inputs : ∀ total, ∃ n, limit_inputs limit total inputs = take n inputs ∧ (inputs ≠ [] → limit_inputs limit total inputs ≠ []).
Proof.
  induction inputs as [|f inputs IH]; intros total; [by exists 0%nat|]. cbn [limit_inputs]. destruct (_ >=? _); [by exists 1%nat|].
  destruct (IH (u64 (total + file_size f))) as (n & -> & _). by exists (S n).
Qed.

(** The first files that meet a range leave no gap. *)
Lemma splits_range lf lo hi n : level_sorted C lf → splits C lf (take n (filter (λ f, overlapsb C lo hi f) lf)).
Proof using L.
  intros Hs g Hg Hnot. set (inputs := filter _ lf) in *.
  assert (∀ h, h ∈ take n inputs → h ∈ lf ∧ overlaps C lo hi h) as Hin.
  { intros h Hh%(elem_of_take_sub n). apply list_elem_of_filter in Hh as [Ho Hh]. split; [done|]. by apply overlaps_negb, Is_true_true. }
  destruct (overlapsb C lo hi g) eqn:Eg.
  - right. intros h Hh. assert (g ∈ drop n inputs) as Hgd.
    { assert (g ∈ inputs) as Hgi by (apply list_elem_of_filter; by rewrite Eg). rewrite <-(take_drop n inputs) in Hgi. by apply elem_of_app in Hgi as [?|?]. }
    pose proof (StronglySorted_filter (file_lt C) (overlapsb C lo hi) lf (level_strongly_sorted lf Hs)) as Hss. fold inputs in Hss. rewrite <-(take_drop n inputs) in Hss.
    by eapply StronglySorted_app_1_elem_of.
  - apply negb_false_iff, orb_true_iff in Eg as [Ea|Eb]; [left|right]; intros h [Hh [O1 O2]]%Hin.
    + unfold AfterFile in Ea. destruct lo as [k|]; [|done]. rewrite Z.gtb_ltb in Ea. apply Z.ltb_lt in Ea. specialize (O1 k eq_refl). pose proof (Compare_antisym k (file_limit g)).
      apply (side_of C lf k (file_start h) g h Hs Hg Hh); [|lia]. split; intros x [= <-]; [done|]. rewrite Compare_refl. lia.
    + unfold BeforeFile in Eb. destruct hi as [k|]; [|done]. apply Z.ltb_lt in Eb. specialize (O2 k eq_refl).
      apply (side_of C lf (file_limit h) k g h Hs Hg Hh); [|lia]. split; intros x [= <-]; [rewrite Compare_refl; lia|done].
Qed.

(** ** Plans *)

Lemma setup_planned v cp level inputs : searchable C v → (level + 1 < num_levels)%nat → inputs ≠ [] → (∀ f, f ∈ inputs → f ∈ level_files v level) →
  (level = 0%nat → closed_in C (level_files v level) inputs) → ((0 < level)%nat → splits C (level_files v level) inputs) →
  ∃ c cp', SetupOtherInputs C max_file_size v cp (NewCompaction max_file_size level (Some v) inputs) = Some (c, cp') ∧ planned C v c ∧
    (∀ seed, seed ∈ inputs → (∀ P, grown C v level P → P seed → ∀ f, f ∈ inputs → P f) → connected C v c).
Proof using L.
  intros Hv Hl Hne Hsub Hcl Hsp. destruct (SetupOtherInputs_spec C max_file_size v cp (NewCompaction max_file_size level (Some v) inputs) Hv Hne Hsub)
    as (c & cp' & E & H1 & H2 & H3 & H4 & H5 & _). exists c, cp'. split; [done|]. cbn in H1, H2, H3, H4, H5. split.
  - split; [by rewrite H1|done|done|]. exists inputs. by rewrite H1.
  - intros seed Hin Hall. exists seed. split; [by eapply io_keep|]. rewrite H1. intros P HP Hseed. eapply io_grown; [done|done|]. by apply Hall.
Qed.

Lemma overlapping_start v level kbegin kend : searchable C v → ∃ inputs, GetOverlappingInputs C v level kbegin kend = Some inputs ∧
  (∀ f, f ∈ inputs → f ∈ level_files v level) ∧ (level = 0%nat → closed_in C (level_files v level) inputs) ∧
  ((0 < level)%nat → inputs = filter (λ f, overlapsb C (ExtractUserKey <$> kbegin) (ExtractUserKey <$> kend) f) (level_files v level)) ∧
  (∀ f, f ∈ level_files v level → overlaps C (ExtractUserKey <$> kbegin) (ExtractUserKey <$> kend) f → f ∈ inputs).
Proof using L.
  intros Hv. destruct (Hv level) as (Hok & _). pose proof (slack_bound C (ExtractUserKey <$> kbegin) (ExtractUserKey <$> kend) (level_files v level)).
  destruct (overlapping_loop_spec C (level =? 0)%nat (level_files v level) Hok (S (2 * length (level_files v level))) (ExtractUserKey <$> kbegin) (ExtractUserKey <$> kend) ltac:(lia))
    as (inputs & E & H1 & H2 & H3 & _ & H5). exists inputs. split_and!; try done; [|intros Hl; apply H5, Nat.eqb_neq; lia].
  intros ->. intros f g. by apply H3.
Qed.

(** A manual compaction has a plan, or nothing to do. *)
Lemma CompactRange_planned v cp level kbegin kend : searchable C v → (level + 1 < num_levels)%nat →
  ∃ r, Compaction.CompactRange C max_file_size v cp level kbegin kend = Some r ∧ match r with Some (c, _) => planned C v c | None => True end.
Proof using L.
  intros Hv Hl. unfold Compaction.CompactRange. destruct (overlapping_start v level kbegin kend Hv) as (inputs & -> & Hsub & Hcl & Hf & _). cbn [mbind option_bind].
  destruct (decide (inputs = [])) as [|Hne]; [by exists None|]. destruct (limit_inputs_take (MaxFileSizeForLevel max_file_size) inputs 0) as (n & En & Hn).
  destruct (Nat.ltb_spec 0 level) as [Hlev|Hlev].
  - destruct (setup_planned v cp level (limit_inputs (MaxFileSizeForLevel max_file_size) 0 inputs) Hv Hl) as (c & cp' & -> & Hp & _); [by apply Hn| |lia| |by exists (Some (c, cp'))].
    + intros f. rewrite En. intros Hin. by eapply Hsub, elem_of_take_sub.
    + intros _. rewrite En, Hf by done. apply splits_range. by apply Hv.
  - destruct (setup_planned v cp level inputs Hv Hl Hne Hsub Hcl) as (c & cp' & -> & Hp & _); [lia|by exists (Some (c, cp'))].
Qed.

(** What a version records for the choice can be chosen. *)
Record pickable (v : Version) : Prop := {
  pk_score : double_ge (compaction_score_ v) (double_of_Z 1) = true → (Z.to_nat (compaction_level_ v) + 1 < num_levels)%nat ∧ level_files v (Z.to_nat (compaction_level_ v)) ≠ [];
  pk_seek f : file_to_compact_ v = Some f → (Z.to_nat (file_to_compact_level_ v) + 1 < num_levels)%nat ∧ f ∈ level_files v (Z.to_nat (file_to_compact_level_ v));
}.

Lemma pick_planned v cp level f : searchable C v → (level + 1 < num_levels)%nat → f ∈ level_files v level →
  ∃ r, (inputs0 ← (if (level =? 0)%nat then let range := GetRange C [f] in GetOverlappingInputs C v 0 (Some range.1) (Some range.2) else Some [f]);
        r ← SetupOtherInputs C max_file_size v cp (NewCompaction max_file_size level (Some v) inputs0); Some (Some r)) = Some r ∧
    match r with Some (c, _) => planned C v c ∧ connected C v c | None => True end.
Proof using L.
  intros Hv Hl Hf. destruct (Nat.eqb_spec level 0) as [->|Hne].
  - destruct (overlapping_start v 0 (Some (smallest f)) (Some (largest f)) Hv) as (inputs & E & Hsub & Hcl & _ & Hin). cbn zeta. change (GetRange C [f]) with (smallest f, largest f). cbn [fst snd].
    rewrite E. cbn [mbind option_bind]. assert (f ∈ inputs) as Hfi.
    2: { destruct (setup_planned v cp 0 inputs Hv Hl) as (c & cp' & -> & Hp & Hc); [by intros ->; apply not_elem_of_nil in Hfi|done|done|lia|]. exists (Some (c, cp')). split; [done|]. split; [done|].
      apply (Hc f Hfi). intros P HP Hseed. apply (GetOverlappingInputs_grown C v 0 0 P Hv ltac:(by left) HP [f]); [done| |done]. by intros g ->%list_elem_of_singleton. }
    apply Hin; [done|]. destruct (Hv 0%nat) as (Hok & _). rewrite Forall_forall in Hok.
    pose proof (file_ok_user C f (Hok f Hf)). pose proof (Compare_antisym (file_start f) (file_limit f)). split; intros k [= <-]; unfold file_start, file_limit in *; lia.
  - cbn [mbind option_bind]. destruct (setup_planned v cp level [f] Hv Hl) as (c & cp' & -> & Hp & Hc); [done| |lia| |exists (Some (c, cp')); split; [done|]; split; [done|]; apply (Hc f); [left|]; by intros P _ Hseed g ->%list_elem_of_singleton].
    + by intros g ->%list_elem_of_singleton.
    + intros Hpos. apply splits_single; [by apply Hv|done].
Qed.

Lemma next_to_compact_in v k level : level_files v level ≠ [] → ∃ f, next_to_compact C v k level = Some f ∧ f ∈ level_files v level.
Proof.
  intros Hne. unfold next_to_compact. destruct (List.find _ _) as [f|] eqn:E; [apply List.find_some in E as [Hin _]; exists f; split; [done|by apply list_elem_of_In]|].
  destruct (level_files v level) as [|f l]; [done|]. exists f. split; [done|left].
Qed.

Lemma PickCompaction_planned v cp : searchable C v → pickable v →
  ∃ r, PickCompaction C max_file_size v cp = Some r ∧ match r with Some (c, _) => planned C v c ∧ connected C v c | None => True end.
Proof using L.
  intros Hv [H1 H2]. unfold PickCompaction. destruct (double_ge _ _).
  - destruct (H1 eq_refl) as [Hl Hne]. destruct (next_to_compact_in v (default [] (cp !! Z.to_nat (compaction_level_ v))) _ Hne) as (f & -> & Hf). cbn [mbind option_bind]. by apply pick_planned.
  - destruct (file_to_compact_ v) as [f|]; [|by exists None]. destruct (H2 f eq_refl) as [Hl Hf]. by apply pick_planned.
Qed.

End plan.

(** ** Scores *)

Lemma best_score_level v : best_score v = (-1, minus_one) ∨ ∃ level, (level + 1 < num_levels)%nat ∧ best_score v = (Z.of_nat level, level_score v level).
Proof.
  unfold best_score. set (step := λ best level, _). assert (∀ levels best, Forall (λ l, l + 1 < num_levels)%nat levels →
    (best = (-1, minus_one) ∨ ∃ level, (level + 1 < num_levels)%nat ∧ best = (Z.of_nat level, level_score v level)) →
    foldl step best levels = (-1, minus_one) ∨ ∃ level, (level + 1 < num_levels)%nat ∧ foldl step best levels = (Z.of_nat level, level_score v level)) as H.
  { induction levels as [|l levels IH]; intros best Hl Hb; [done|]. apply Forall_cons in Hl as [Hl Hls]. cbn [foldl]. apply IH; [done|]. unfold step. cbv zeta.
    destruct (double_gt _ _); [right; eauto|done]. }
  apply H; [|by left]. apply Forall_forall. intros l Hl%elem_of_seq. lia.
Qed.

Lemma empty_level_score v level : (level + 1 < num_levels)%nat → level_files v level = [] → double_ge (level_score v level) (double_of_Z 1) = false.
Proof.
  intros Hl E. unfold level_score. rewrite E. rewrite seven_levels in Hl.
  destruct level as [|[|[|[|[|[|level]]]]]]; [by vm_compute..|lia].
Qed.

Lemma Finalize_pickable v : file_to_compact_ v = None → pickable (Finalize v).
Proof.
  intros Hn. unfold Finalize. destruct (best_score_level v) as [E|(level & Hl & E)]; rewrite E; (split; cbn [compaction_score_ compaction_level_ file_to_compact_]; [|by rewrite Hn]).
  - intros H. by vm_compute in H.
  - intros H. rewrite Nat2Z.id. split; [done|]. intros Hemp. pose proof (empty_level_score v level Hl Hemp). congruence.
Qed.

(** ** Seeks *)

Section seeks.
  Context (C : Comparator) (v : Version).

(** The file that is charged lies in its level, which is not the last one. *)
Definition chargeable (stats : GetStats) : Prop :=
  ∀ f, seek_file stats = Some f → (Z.to_nat (seek_file_level stats) + 1 < num_levels)%nat ∧ f ∈ level_files v (Z.to_nat (seek_file_level stats)).

(** An invariant of the states of a search that has come to a level.  Level 0 is the
    only one of which several files are visited. *)
Section for_each.
  Context {S : Type} (func : S → nat → FileMetaData → S * bool) (Inv : nat → S → Prop).
  Hypothesis Hfunc : ∀ n st f, (n < num_levels)%nat → f ∈ level_files v n → Inv n st → Inv (n + 1) (func st n f).1.
  Hypothesis Hzero : ∀ st, Inv 1 st → Inv 0 st.
  Hypothesis Hmono : ∀ n st, Inv n st → Inv (n + 1) st.

Lemma visit_zero files : (∀ f, f ∈ files → f ∈ level_files v 0) → ∀ st, Inv 0 st → Inv 1 (visit func st 0 files).1.
Proof using Hfunc Hzero Hmono.
  induction files as [|f files IH]; intros Hsub st Hst; cbn [visit]; [by apply (Hmono 0)|].
  assert (Inv 1 (func st 0%nat f).1) as H1 by (apply (Hfunc 0); [rewrite seven_levels; lia|apply Hsub; left|done]).
  destruct (func st 0%nat f) as [st' [|]]; [|done]. apply IH; [intros g Hg; apply Hsub; by right|by apply Hzero].
Qed.

Lemma visit_at_most_one n files : (n < num_levels)%nat → (∀ f, f ∈ files → f ∈ level_files v n) → (length files <= 1)%nat → ∀ st, Inv n st → Inv (n + 1) (visit func st n files).1.
Proof using Hfunc Hmono.
  intros Hn Hsub Hl st Hst. destruct files as [|f [|g files]]; cbn [visit length] in *; [by apply Hmono| |lia].
  pose proof (Hfunc n st f Hn (Hsub f ltac:(left)) Hst). by destruct (func st n f) as [st' [|]].
Qed.

Lemma candidate_one u k n files : candidate C v u k n = Some files → (∀ f, f ∈ files → f ∈ level_files v n) ∧ (length files <= 1)%nat.
Proof.
  unfold candidate. destruct (_ =? 0); [intros [= <-]; split; [by intros f ?%not_elem_of_nil|cbn; lia]|].
  destruct (FindFile C _ k) as [i|]; [|done]. cbn [mbind option_bind]. destruct (i <? _); [|intros [= <-]; split; [by intros f ?%not_elem_of_nil|cbn; lia]].
  destruct (nth_z _ i) as [f|] eqn:E; [|done]. cbn [mbind option_bind]. destruct (_ <? 0); intros [= <-]; (split; [|cbn; lia]); [by intros g ?%not_elem_of_nil|].
  intros g ->%list_elem_of_singleton. unfold nth_z in E. destruct (i <? 0); [done|]. by eapply list_elem_of_lookup_2.
Qed.

Lemma visit_levels_inv u k m : ∀ n st r, (n + m <= num_levels)%nat → Inv n st → visit_levels C func v u k st (seq n m) = Some r → ∃ n', Inv n' r.
Proof using Hfunc Hmono.
  induction m as [|m IH]; intros n st r Hn Hst; cbn [seq visit_levels]; [intros [= <-]; eauto|].
  destruct (candidate C v u k n) as [files|] eqn:E; [|done]. cbn [mbind option_bind]. destruct (candidate_one u k n files E) as [H1 H2].
  pose proof (visit_at_most_one n files ltac:(lia) H1 H2 st Hst) as Hv. destruct (visit func st n files) as [st' [|]]; [|intros [= <-]; eauto].
  apply IH; [lia|]. by rewrite Nat.add_1_r in Hv.
Qed.

Lemma ForEach_inv u k st r : Inv 0 st → ForEachOverlapping C func v u k st = Some r → ∃ n, Inv n r.
Proof using Hfunc Hzero Hmono.
  intros Hst. unfold ForEachOverlapping. pose proof (visit_zero (level0_candidates C v u)) as Hv. specialize (Hv ltac:(intros f; unfold level0_candidates; rewrite sort_newest_perm; by intros [_ ?]%list_elem_of_filter) st Hst).
  destruct (visit func st 0 _) as [st' [|]]; [|intros [= <-]; eauto]. apply visit_levels_inv; [rewrite seven_levels; lia|done].
Qed.

End for_each.

(** A file of a level above the current one, or of level 0. *)
Definition seen (n : nat) (level : Z) (f : FileMetaData) : Prop := ∃ l, level = Z.of_nat l ∧ f ∈ level_files v l ∧ (l < n ∨ l = 0)%nat.

Lemma seen_chargeable n level f : (n < num_levels)%nat → seen n level f → chargeable (MkGetStats (Some f) level).
Proof. intros Hn (l & -> & Hf & Hl) g [= <-]. cbn [seek_file_level]. rewrite Nat2Z.id. split; [|done]. rewrite seven_levels in *. lia. Qed.

Lemma seen_zero level f : seen 1 level f → seen 0 level f.
Proof. intros (l & E & Hf & Hl). exists l. split_and!; [done|done|right; lia]. Qed.

Lemma seen_mono n level f : seen n level f → seen (n + 1) level f.
Proof. intros (l & E & Hf & Hl). exists l. split_and!; [done|done|lia]. Qed.

Lemma seen_here n f : f ∈ level_files v n → seen (n + 1) (Z.of_nat n) f.
Proof. intros Hf. exists n. split_and!; [done|done|lia]. Qed.

Definition get_inv (n : nat) (st : GetState) : Prop :=
  chargeable (g_stats st) ∧ ∀ f, g_last_file_read st = Some f → seen n (g_last_file_read_level st) f.

Lemma Get_chargeable cache_get k value store s val stats store' : Version.Get C cache_get v k value store = Some (s, val, stats, store') → chargeable stats.
Proof.
  unfold Version.Get. destruct (ForEachOverlapping _ _ _ _ _ _) as [r|] eqn:E; [|done]. cbn [mbind option_bind]. intros [= _ _ <- _].
  eapply (ForEach_inv _ get_inv) in E as (n & H & _); [done|..].
  - intros n st f Hn Hf [H1 H2]. unfold Match. set (stats' := match seek_file _ with Some _ => _ | None => _ end).
    assert (chargeable stats') as Hc.
    { unfold stats'. destruct (seek_file (g_stats st)) eqn:Es; [done|]. destruct (g_last_file_read st) as [g|]; [|done]. by apply (seen_chargeable n), H2. }
    clearbody stats'. destruct (cache_get f n _) as [st0 call]. assert (∀ f0, Some f = Some f0 → seen (n + 1) (Z.of_nat n) f0) as Hs by (intros f0 [= <-]; by apply seen_here).
    destruct (negb _); [by split|]. by destruct (sv_state _).
  - intros st [H1 H2]. split; [done|]. intros f Hf. by apply seen_zero, H2.
  - intros n st [H1 H2]. split; [done|]. intros f Hf. by apply seen_mono, H2.
  - by split.
Qed.

Definition sample_inv (n : nat) (st : GetStats * Z) : Prop :=
  st.2 = 0 ∨ (1 <= st.2 ∧ (∃ f level, st.1 = MkGetStats (Some f) level ∧ seen n level f) ∧ (2 <= st.2 → chargeable st.1)).

Lemma Sample_chargeable u k stats matches : ForEachOverlapping C SampleMatch v u k (MkGetStats None (-1), 0) = Some (stats, matches) → 2 <= matches → chargeable stats.
Proof.
  intros E Hm. eapply (ForEach_inv _ sample_inv) in E as (n & [H|(_ & _ & H)]); [cbn in H; lia|by apply H|..].
  - intros n [st m] f Hn Hf [H|(H1 & (g & level & H2 & H3) & H4)]; cbn [fst snd] in *.
    + subst m. right. cbn. split; [lia|]. split; [|lia]. exists f, (Z.of_nat n). split; [done|by apply seen_here].
    + right. cbn [SampleMatch fst snd]. rewrite (proj2 (Z.eqb_neq (m + 1) 1)) by lia. cbn [fst snd]. split; [lia|]. split; [exists g, level; split; [done|by apply seen_mono]|].
      intros _. rewrite H2. by apply (seen_chargeable n).
  - intros [st m] [H|(H1 & (g & level & H2 & H3) & H4)]; [by left|right]. split; [done|]. split; [|done]. exists g, level. split; [done|by apply seen_zero].
  - intros n [st m] [H|(H1 & (g & level & H2 & H3) & H4)]; [by left|right]. split; [done|]. split; [|done]. exists g, level. split; [done|by apply seen_mono].
  - by left.
Qed.

End seeks.

Lemma UpdateStats_pickable v store stats : pickable v → chargeable v stats → pickable (UpdateStats v store stats).1.1.
Proof.
  intros Hp Hc. unfold UpdateStats. destruct (seek_file stats) as [f|] eqn:Ef; [|done]. destruct (_ && _); [|done]. cbn [fst].
  split; [apply Hp|]. cbn [file_to_compact_ file_to_compact_level_]. intros g [= <-]. destruct (Hc f Ef) as [H1 H2]. done.
Qed.
