(* ===== verification/DbRuns.v ===== *)
(** * Runs of the whole database

    All operations of the database as one step relation.  The invariant [sound] holds
    along every run, and a read returns the newest write of the history that its
    snapshot sees. *)

From stdpp Require Import gmap sorting relations.
From S2P Require Import Prelude Coding Status Env Comparator Log DbFormat Arena Random SkipList MemTable WriteBatch VersionEdit Version VersionBuilder Compaction DbCompaction VersionSet DbImpl DbHistory DbFlush DbRefinement DbSteps DbBackground DbWork DbPlan.

Section runs.
  Context (C : Comparator) {L : ComparatorLaws C} (base : nat → Z) {W : WritableFile} (options : Options).
  Context (cache_get : FileMetaData → nat → bytes → Status * option (bytes * bytes)) (contents : FileMetaData → list Write).

(** ** What stays for the next choice *)

(** The recorded choices and the manual compaction are within the levels. *)
Record choices_ok (db : DBImpl (W := W)) : Prop := {
  co_version : pickable (current (versions_ db));
  co_manual m : manual_compaction_ db = Some m → (mc_level m + 1 < num_levels)%nat;
}.

Lemma choices_same db db' : current (versions_ db') = current (versions_ db) → manual_compaction_ db' = manual_compaction_ db → choices_ok db → choices_ok db'.
Proof. intros E1 E2 [H1 H2]. split; [by rewrite E1|by rewrite E2]. Qed.

Lemma pickable_eq v v' : files_ v' = files_ v → file_to_compact_ v' = file_to_compact_ v → file_to_compact_level_ v' = file_to_compact_level_ v →
  compaction_score_ v' = compaction_score_ v → compaction_level_ v' = compaction_level_ v → pickable v → pickable v'.
Proof. intros E1 E2 E3 E4 E5 [H1 H2]. split; rewrite ?E2, ?E3, ?E4, ?E5; intros *; rewrite (level_files_eq v v' _ E1); auto. Qed.

Lemma MaybeSchedule_manual db : manual_compaction_ (W := W) (MaybeScheduleCompaction db) = manual_compaction_ db.
Proof. unfold MaybeScheduleCompaction. by repeat case_match. Qed.

Lemma RecordBackgroundError_manual s db : manual_compaction_ (W := W) (RecordBackgroundError s db) = manual_compaction_ db.
Proof. unfold RecordBackgroundError. by case_match. Qed.

Lemma choices_schedule db : choices_ok db → choices_ok (MaybeScheduleCompaction db).
Proof. destruct (MaybeSchedule_fields db) as (_ & _ & _ & E & _). apply choices_same; [by rewrite E|apply MaybeSchedule_manual]. Qed.

Lemma choices_record s db : choices_ok db → choices_ok (RecordBackgroundError s db).
Proof. destruct (RecordBackgroundError_fields s db) as (_ & _ & _ & E & _). apply choices_same; [by rewrite E|apply RecordBackgroundError_manual]. Qed.

(** A version set with another current version. *)
Lemma choices_versions db vs : pickable (current vs) → choices_ok db → choices_ok (with_version_set db vs).
Proof. intros H [_ H2]. by split. Qed.

Lemma choices_stats db v store (b : bool) : pickable v → choices_ok db →
  let db' := with_version_set db (update_version (current_id (versions_ db)) v store (versions_ db)) in choices_ok (if b then MaybeScheduleCompaction db' else db').
Proof.
  intros Hv Hc db'. assert (choices_ok db'); [|destruct b; [by apply choices_schedule|done]]. apply choices_versions; [|done].
  destruct Hc as [Hp _]. unfold current, update_version, current_id in *. cbn [vs_versions with_versions]. rewrite fmap_last.
  destruct (last (vs_versions (versions_ db))) as [[id v0]|]; [|done]. cbn. by rewrite decide_True.
Qed.

Lemma choices_Get db snapshot key value r db' : Get C cache_get db snapshot key value = Some (r, db') → choices_ok db → choices_ok db'.
Proof.
  intros E Hc. unfold Get in E. destruct (MemTable.Get C (mem_ db) _ _ _) as [[[[|] v1] s1]|]; [by injection E as _ <-| |done]. cbn [mbind option_bind] in E.
  destruct (match imm_ db with Some imm => _ | None => _ end) as [[[[|] v2] s2]|]; [by injection E as _ <-| |done]. cbn [mbind option_bind] in E.
  destruct (Version.Get _ _ _ _ _ _) as [[[[s3 v3] stats] store]|] eqn:Eg; [|done]. cbn [mbind option_bind] in E. apply Get_chargeable in Eg.
  pose proof (UpdateStats_pickable _ store stats (co_version _ Hc) Eg) as Hu. destruct (UpdateStats _ store stats) as [[v store'] b]. cbn [fst] in Hu. injection E as _ <-. by apply choices_stats.
Qed.

Lemma choices_Sample db key db' : RecordReadSample C key db = Some db' → choices_ok db → choices_ok db'.
Proof.
  intros E Hc. unfold RecordReadSample, Version.RecordReadSample in E.
  destruct (ParseInternalKey key) as [k|]; [|injection E as <-; apply (choices_stats db _ _ false); [apply Hc|done]].
  destruct (ForEachOverlapping _ _ _ _ _ _) as [[stats matches]|] eqn:Ef; [|done]. cbn [mbind option_bind] in E. destruct (Z.geb_spec matches 2) as [Hm|Hm].
  - apply Sample_chargeable in Ef; [|done]. pose proof (UpdateStats_pickable _ (vs_store (versions_ db)) stats (co_version _ Hc) Ef) as Hu.
    destruct (UpdateStats _ _ stats) as [[v store] b]. injection E as <-. by apply choices_stats.
  - injection E as <-. apply (choices_stats db _ _ false); [apply Hc|done].
Qed.

Lemma choices_Commit io room db s n db' : CommitGroup C base io room db = Some (s, n, db') → choices_ok db → choices_ok db'.
Proof.
  unfold CommitGroup. intros E Hc. destruct (writers_ db) as [|w ws]; [done|].
  assert (∀ (b : bool) s log mem, choices_ok (let db1 := with_log (with_mem db mem (imm_ db)) log (logfile_number_ db) in if b then RecordBackgroundError s db1 else db1)) as Hd.
  { intros b st log mem. cbn zeta. destruct b; [apply choices_record|]; by apply (choices_same db). }
  destruct (ok room); [destruct (wr_batch w)|]; [|injection E as _ _ <-; by apply (choices_same db)..].
  destruct (BuildBatchGroup db) as [[[b is_tmp] m]|]; [|done]. cbn [mbind option_bind] in E.
  destruct (log_and_insert _ _ _ _ _ _ _) as [[[[s1 e] log] mem]|]; [|done]. cbn [mbind option_bind] in E. injection E as _ _ <-.
  by eapply choices_same; [| |exact (Hd e s1 log mem)].
Qed.

Lemma choices_Room io force allow_delay db : choices_ok db → choices_ok (MakeRoom base options io force allow_delay db).2.
Proof.
  intros Hc. unfold MakeRoom. destruct (negb _); [done|]. destruct (_ && _); [done|]. destruct (_ && _); [done|]. destruct (imm_ db); [done|]. destruct (_ >=? _); [done|].
  cbn [NewFileNumber]. destruct (dio_new_log io _) as [s lfile]. destruct (ok s); cbn [snd].
  - apply choices_schedule. set (db1 := if ok _ then _ else _). assert (choices_ok db1) as H1; [|by apply (choices_same db1)].
    subst db1. set (db2 := with_version_set _ _). assert (choices_ok db2) by (by apply (choices_same db)). destruct (ok _); [done|by apply choices_record].
  - unfold ReuseFileNumber. destruct (_ =? _); by apply (choices_same db).
Qed.

Lemma choices_quiet c c' : quiet C base options cache_get c c' → choices_ok c.1 → choices_ok c'.1.
Proof.
  intros [db h r|db h io room requests s n db' _ _ _ _ _ E|db h io force allow_delay _|db h snapshot key value r db' _ _ E|db h key db' E|db h|db h id|db h m Hm|db h] Hc; cbn [fst snd] in *.
  - by apply (choices_same db).
  - by eapply choices_Commit.
  - by apply choices_Room.
  - by eapply choices_Get.
  - by eapply choices_Sample.
  - by apply (choices_same db).
  - by apply (choices_same db).
  - unfold StartManual. destruct (manual_compaction_ db) eqn:Em; [done|]. apply choices_schedule. split; [apply Hc|]. cbn. by intros m' [= <-].
  - by apply (choices_same db).
Qed.

Lemma choices_quiets c c' : rtc (quiet C base options cache_get) c c' → choices_ok c.1 → choices_ok c'.1.
Proof. induction 1 as [|c1 c2 c3 Hq _ IH]; [done|]. intros Hc. by eapply IH, choices_quiet. Qed.

Lemma LogAndApply_pickable io e (vs : VersionSet (W := W)) s e' vs' : LogAndApply C io e vs = Some (s, e', vs') → pickable (current vs) → pickable (current vs').
Proof.
  intros E Hp. unfold LogAndApply in E. set (b := Apply C _ _) in *. assert (file_to_compact_ (SaveTo C b).1 = None) as Hn by (unfold SaveTo; by destruct (save_levels _ _ _ _)).
  destruct (SaveTo C b) as [v store]. cbn [fst] in Hn. set (vs1 := with_pointers vs _ _) in *.
  destruct (open_descriptor C io vs1) as [[[s1 w] created]|]; [|done]. cbn [mbind option_bind] in E. destruct (write_edit _ _ _ _ _ _) as [[s2 w2]|]; [|done]. cbn [mbind option_bind] in E.
  injection E as _ _ <-. destruct (ok s2); [|done]. unfold current. cbn [vs_versions with_numbers]. rewrite append_last. cbn [from_option snd].
  eapply pickable_eq; [..|exact (Finalize_pickable v Hn)]; done.
Qed.

Lemma RefVersion_pickable id (vs : VersionSet (W := W)) : pickable (current vs) → pickable (current (RefVersion id vs)).
Proof.
  unfold current, RefVersion. cbn [vs_versions with_versions]. rewrite fmap_last. destruct (last (vs_versions vs)) as [[i v]|]; [|done]. cbn. destruct (decide _); [|done].
  by apply pickable_eq.
Qed.

Lemma UnrefVersion_pickable id (vs : VersionSet (W := W)) : 1 <= v_refs_ (current vs) → (current_id vs = id → 2 <= v_refs_ (current vs)) →
  pickable (current vs) → pickable (current (UnrefVersion id vs)).
Proof. intros Hr H2 Hp. destruct (UnrefVersion_current id vs Hr H2) as [_ [->|[_ ->]]]; [done|]. by apply (pickable_eq (current vs)). Qed.

Lemma choices_Flush io mio micros filenames db db' removed : CompactMemTable C options io mio micros filenames db = Some (db', removed) → choices_ok db → choices_ok db'.
Proof.
  intros E Hc. unfold CompactMemTable in E. destruct (imm_ db) as [imm|]; [|done]. cbn [mbind option_bind] in E. destruct (mem_entries imm) as [es|]; [|done]. cbn [mbind option_bind] in E.
  destruct (WriteLevel0Table _ _ _ _ _ _ _ _) as [[[s edit] db1]|] eqn:Ew; [|done]. cbn [mbind option_bind] in E.
  assert (choices_ok db1) as H1.
  { unfold WriteLevel0Table, write_level0 in Ew. cbn [NewFileNumber ts_versions] in Ew. destruct (BuildTable _ _ _ _) as [[[s0 sz] sm] la].
    destruct (if ok s0 && (sz >? 0) then _ else _) as [[[level edit'] worth]|]; [|done]. cbn [mbind option_bind] in Ew. injection Ew as _ _ <-. by apply (choices_same db). }
  destruct (ok (if ok s && shutting_down_ db1 then _ else s)).
  - destruct (LogAndApply _ _ _ _) as [[[s2 e2] vs2]|] eqn:El; [|done]. cbn [mbind option_bind] in E. apply LogAndApply_pickable in El; [|apply H1].
    pose proof (choices_versions db1 vs2 El H1) as H2. destruct (ok s2); injection E as <- _; [by apply (choices_same (with_version_set db1 vs2))|by apply choices_record].
  - cbn [mbind option_bind] in E. destruct (ok _); injection E as <- _; [by apply (choices_same db1)|by apply choices_record].
Qed.

Lemma choices_inside manual c x x' : rtc (inside C base options cache_get contents manual c) x x' → choices_ok x.1 → choices_ok x'.1.
Proof.
  induction 1 as [|x1 x2 x3 Hs _ IH]; [done|]. intros Hc. apply IH. destruct Hs as [x x' Hq|db h imm f db' removed _ _ _ E|db h pending _]; cbn [fst] in *; [by eapply choices_quiet|by eapply choices_Flush|].
  by apply (choices_same db).
Qed.

(** ** The invariant of the database *)

Record sound (db : DBImpl (W := W)) (h : list Write) : Prop := {
  sd_refines : refines C cache_get contents db h;
  sd_choices : choices_ok db;
}.

Lemma sound_files db h : sound db h → files_ok C cache_get contents (versions_ db).
Proof. intros [Hr _]. destruct (rf_state _ _ _ _ _ Hr) as (h' & Hrep & _). apply Hrep. Qed.

(** *** Moving a file *)

Lemma move_edit v c f : planned C v c → inputs_0 c = [f] → inputs_1 c = [] →
  compaction_edit (level_ c) [f] [] [NewFileMetaData (number f) (file_size f) (smallest f) (largest f)]
    (AddFile (Z.of_nat (level_ c + 1)) (number f) (file_size f) (smallest f) (largest f) (RemoveFile (Z.of_nat (level_ c)) (number f) (edit_ c))).
Proof.
  intros [_ _ [Hd Hn] _] E0 E1. split; [|cbn; by rewrite Hn]. intros l n. cbn [AddFile push_new_file RemoveFile deleted_files_]. rewrite elem_set_insert, Hd, elem_of_nil. split.
  - intros [[= -> ->]|[]]. left. split; [done|]. exists f. split; [left|done].
  - intros [[-> (g & ->%list_elem_of_singleton & ->)]|[_ (g & ?%not_elem_of_nil & _)]]; [by left|done].
Qed.

Lemma move_installed vs vs' c f e cp store : files_ok C cache_get contents vs → planned C (current vs) c → inputs_0 c = [f] → inputs_1 c = [] →
  compaction_edit (level_ c) [f] [] [NewFileMetaData (number f) (file_size f) (smallest f) (largest f)] e →
  files_ (current vs') = files_ (SaveTo C (Apply C (NewBuilder (current vs) cp store) e)).1 → vs_next_file_number vs' = vs_next_file_number vs → vs_next_file_number vs < 2 ^ 31 →
  1 <= v_refs_ (current vs') ∧ (current_id vs' < vs_next_id vs')%nat →
  files_ok C cache_get contents vs' ∧ ∀ w, w ∈ version_holds contents vs' ↔ w ∈ version_holds contents vs.
Proof using L.
  intros Hf Hp E0 E1 He Hfiles Hn Hmax Hrefs. pose proof (planned_replaceable C cache_get contents vs c Hf Hp) as Hrx. pose proof (pl_level _ _ _ Hp) as Hlvl. rewrite E0, E1 in Hrx.
  assert (f ∈ level_files (current vs) (level_ c)) as Hin by (apply Hrx; left). pose proof (files_live_ok C cache_get contents vs (vs_next_file_number vs) Hf ltac:(lia)) as [L1 _ _ _ _].
  destruct (L1 _ _ Hin) as (F1 & F2 & F3 & F4 & F5).
  destruct (compaction_installed C cache_get contents vs (level_ c) [f] [] Hf Hrx [f] (vs_next_file_number vs)) with
    (added := [NewFileMetaData (number f) (file_size f) (smallest f) (largest f)]) (e := e) (vs' := vs') (cp := cp) (store := store) as [Hf' Hw']; try done.
  - by intros o ->%list_elem_of_singleton.
  - intros o ->%list_elem_of_singleton. split; exists f; (split; [left|]); rewrite (icmp_refl C); lia.
  - intros o w ->%list_elem_of_singleton Hw. exists f. split; [left|done].
  - intros o o' ->%list_elem_of_singleton ->%list_elem_of_singleton. done.
  - by intros o o' ->%list_elem_of_singleton ->%list_elem_of_singleton.
  - intros o level g ->%list_elem_of_singleton Hg H1 H2 E. destruct (vf_unique _ _ _ _ Hf level (level_ c) g f Hg Hin E) as [-> ->]. apply H1. split; [done|left].
  - cbn. by rewrite <-F4.
  - intros o level g ->%list_elem_of_singleton Hg E. by apply (vf_unique _ _ _ _ Hf level (level_ c) g f).
  - intros o ->%list_elem_of_singleton Ho. destruct (vf_unique _ _ _ _ Hf _ _ f f Ho Hin eq_refl). lia.
  - split; [done|]. intros w. rewrite Hw'. unfold version_holds. rewrite elem_version_writes. unfold replaced, remains. split.
    + intros (level & g & Hl & [[Hg _]|[-> ->%list_elem_of_singleton]] & Hw); [eauto|]. exists (level_ c), f. split_and!; [lia|done|done].
    + intros (level & g & Hl & Hg & Hw). destruct (decide (level = level_ c ∧ g ∈ [f])) as [[-> ->%list_elem_of_singleton]|Hno].
      * exists (level_ c + 1)%nat, f. split_and!; [lia|right; split; [done|left]|done].
      * exists level, g. split_and!; [done| |done]. left. split_and!; [done|done|]. intros [_ ?%not_elem_of_nil]. done.
Qed.

(** *** Running a compaction *)

(** What the surroundings of a compaction lead to: a trivial move happens at once. *)
Definition runs_to (io : CompactionIO (W := W)) (is_manual : bool) (c : Compaction) (db : DBImpl (W := W)) (h h2 : list Write) : Prop :=
  if negb is_manual && IsTrivialMove (max_file_size options) c then h2 = h ∧ vs_next_file_number (versions_ db) < 2 ^ 31
  else work_to C base options cache_get contents io is_manual c db h h2.

(** The input version is released. *)
Lemma release_input id db h : sound db h → (current_id (versions_ db) = id → 2 <= v_refs_ (current (versions_ db))) → sound (with_version_set db (UnrefVersion id (versions_ db))) h.
Proof.
  intros Hs H2. pose proof (sound_files _ _ Hs) as Hf. destruct Hs as [Hr Hc]. pose proof (UnrefVersion_alike id (versions_ db) (vf_refs _ _ _ _ Hf) (vf_id _ _ _ _ Hf) H2) as Ha. split.
  - apply (refines_same C cache_get contents db); [|done|apply Ha|done]. intros h'. by apply represents_alike.
  - apply choices_versions; [|done]. apply UnrefVersion_pickable; [apply Hf|done|apply Hc].
Qed.

Lemma sound_record s db h : sound db h → sound (RecordBackgroundError s db) h.
Proof. intros [H1 H2]. split; [by apply refines_record|by apply choices_record]. Qed.

Lemma sound_pending p db h : sound db h → sound (with_pending db p) h.
Proof.
  intros [H1 H2]. split; [|by apply (choices_same db)]. apply (refines_same C cache_get contents db); [|done|done|done]. intros h'. apply represents_same; (done || apply same_versions_refl).
Qed.

Lemma sound_background b m e db h : sound db h → (∀ m', m = Some m' → (mc_level m' + 1 < num_levels)%nat) → sound (with_background db b m e) h.
Proof.
  intros [H1 [H2 _]] Hm. split; [|by split]. apply (refines_same C cache_get contents db); [|done|done|done]. intros h'. apply represents_same; (done || apply same_versions_refl).
Qed.

(** A move keeps every read. *)
Lemma move_step io c f db h : sound db h → planned C (current (versions_ db)) c → inputs_0 c = [f] → inputs_1 c = [] → vs_next_file_number (versions_ db) < 2 ^ 31 →
  2 <= v_refs_ (current (versions_ db)) →
  ∃ s e vs, LogAndApply C (cio_manifest io) (AddFile (Z.of_nat (level_ c + 1)) (number f) (file_size f) (smallest f) (largest f)
      (RemoveFile (Z.of_nat (level_ c)) (number f) (edit_ c))) (versions_ db) = Some (s, e, vs) ∧ sound (with_version_set db vs) h ∧
    (current_id vs = current_id (versions_ db) → 2 <= v_refs_ (current vs)).
Proof using L.
  intros Hs Hp E0 E1 Hmax H2. destruct Hs as [Hr Hc]. pose proof (move_edit _ _ _ Hp E0 E1) as He. set (edit := AddFile _ _ _ _ _ _) in *.
  destruct (rf_state _ _ _ _ _ Hr) as (h' & Hrep & Hreads). pose proof (rp_files _ _ _ _ _ Hrep) as Hf.
  destruct (LogAndApply_cases C (cio_manifest io) edit (versions_ db) (rp_descriptor _ _ _ _ _ Hrep)) as (s & vs & E & Hd & N1 & N2 & _ & Hcase).
  exists s, (fill_edit (versions_ db) edit), vs. split; [done|]. pose proof (LogAndApply_pickable _ _ _ _ _ _ E (co_version _ Hc)) as Hpk.
  assert (choices_ok (with_version_set db vs)) as Hc' by by apply choices_versions. destruct (ok s).
  - destruct (installed_current _ _ _ Hcase) as [Hfiles Hrefs]. destruct Hcase as (_ & v & Hlast & _).
    destruct (move_installed (versions_ db) vs c f (fill_edit (versions_ db) edit) (vs_compact_pointer (versions_ db)) (vs_store (versions_ db)) Hf Hp E0 E1) as [Hf' Hw]; [|done|done|done|done|].
    { destruct He as [D1 D2], (fill_edit_fields (versions_ db) edit) as (F1 & F2 & _). split; [by rewrite F1|by rewrite F2]. }
    split; [split; [|done]|].
    + destruct (rp_layers _ _ _ _ _ Hrep) as (wm & wi & Hlay & Hh). pose proof Hr as [_ R2 R3 R4].
      split; [|apply (snapshots_ok_mono db); [done|cbn; lia|done]|done|cbn; by rewrite N2]. exists h'. split; [|unfold floor; cbn; by rewrite N2].
      apply (represents_replaced C cache_get contents db _ h' h' wm wi); try done; [intros w; by rewrite Hw|]. intros w. rewrite Hh, !elem_of_app. cbn. by rewrite Hw.
    + intros Hid. exfalso. unfold current_id in Hid at 1. rewrite Hlast in Hid. cbn in Hid. pose proof (vf_id _ _ _ _ Hf). lia.
  - destruct Hcase as [Ev Eid]. assert (same_versions (versions_ db) vs) as Hsv by by apply unchanged_versions. split; [split; [|done]|].
    + apply (refines_same C cache_get contents db); [|done|apply Hsv|done]. intros h1. by apply represents_same.
    + intros _. pose proof (sv_refs _ _ Hsv). lia.
Qed.

Lemma run_step io is_manual id c db h h2 : sound db h → planned C (current (versions_ db)) c → (is_manual = false → connected C (current (versions_ db)) c) → id = current_id (versions_ db) → 2 <= v_refs_ (current (versions_ db)) → runs_to io is_manual c db h h2 →
  ∃ s db' removed, run_compaction C options io is_manual id c db = Some (s, db', removed) ∧ sound db' h2 ∧ (ok s = false → ok (bg_error_ db') = false).
Proof using L.
  intros Hs Hp Hcn -> H2 Hrun. unfold run_compaction, runs_to in *. destruct (negb is_manual && IsTrivialMove (max_file_size options) c) eqn:Et.
  - destruct Hrun as [-> Hmax]. apply andb_true_iff in Et as [_ Et]. unfold IsTrivialMove in Et. apply andb_true_iff in Et as [[H0%Nat.eqb_eq H1%Nat.eqb_eq]%andb_true_iff _].
    destruct (inputs_0 c) as [|f [|]] eqn:E0; [done| |done]. destruct (inputs_1 c) eqn:E1; [|done]. cbn [head mbind option_bind].
    destruct (move_step io c f db h Hs Hp E0 E1 Hmax H2) as (s & e & vs & -> & Hs' & Hid). cbn [mbind option_bind]. do 3 eexists. split; [done|]. set (db1 := if ok s then _ else _).
    assert (sound db1 h ∧ versions_ db1 = vs ∧ (ok s = false → ok (bg_error_ db1) = false)) as (A1 & A2 & A3).
    { subst db1. destruct (ok s) eqn:Es; [done|]. split; [by apply sound_record|]. split; [|intros _; by apply RecordBackgroundError_set].
      by destruct (RecordBackgroundError_fields s (with_version_set db vs)) as (_ & _ & _ & -> & _). }
    split; [|done]. apply release_input; [done|]. rewrite A2. done.
  - destruct (DoCompactionWork_step C base options cache_get contents io is_manual c db h h2 (sd_refines _ _ Hs) Hp Hcn Hrun) as (s & j & db' & removed & E & Hr & Hid & Hbg & db1 & Hin & Hman & Hvs).
    rewrite E. cbn [mbind option_bind]. do 3 eexists. split; [done|]. set (db3 := if ok s then _ else _).
    assert (sound db3 h2 ∧ versions_ db3 = versions_ db' ∧ (ok s = false → ok (bg_error_ db3) = false)) as (A1 & A2 & A3).
    { assert (choices_ok db1) as Hc1 by exact (choices_inside _ _ _ _ Hin (sd_choices _ _ Hs)).
      assert (sound db' h2) as Hs'.
      { split; [done|]. split; [|rewrite Hman; apply Hc1]. destruct Hvs as [->|(e & s' & e' & El)]; [apply Hc1|]. eapply LogAndApply_pickable; [done|apply Hc1]. }
      subst db3. destruct (ok s) eqn:Es; [done|].
      split; [by apply sound_record|]. split; [|intros _; by apply RecordBackgroundError_set]. by destruct (RecordBackgroundError_fields s db') as (_ & _ & _ & -> & _). }
    split; [|done]. apply release_input; [by apply sound_pending|]. cbn. rewrite A2. by apply Hid.
Qed.

(** *** The background work *)

Lemma flush_step io mio micros filenames db h imm : sound db h → imm_ db = Some imm → flushable C cache_get contents io db imm →
  ∃ db' removed, CompactMemTable C options io mio micros filenames db = Some (db', removed) ∧ sound db' h ∧ (imm_ db' = None ∨ ok (bg_error_ db') = false).
Proof using L.
  intros [Hr Hc] Hi Hfl. destruct (flush_refines C options cache_get contents io mio micros filenames db h imm Hr Hi Hfl) as (db' & removed & E & Hr' & Hd & _).
  exists db', removed. split; [done|]. split; [|done]. split; [done|by eapply choices_Flush].
Qed.

(** The compaction that the background thread chooses. *)
Definition chosen (db : DBImpl (W := W)) : option (option (Compaction * list bytes)) :=
  let vs := versions_ db in
  match manual_compaction_ db with
  | Some m => Compaction.CompactRange C (max_file_size options) (current vs) (vs_compact_pointer vs) (mc_level m) (mc_begin m) (mc_end m)
  | None => PickCompaction C (max_file_size options) (current vs) (vs_compact_pointer vs)
  end.

(** The state in which it runs. *)
Definition with_input (db : DBImpl (W := W)) (cp : list bytes) : DBImpl (W := W) :=
  with_version_set db (RefVersion (current_id (versions_ db)) (with_pointers (versions_ db) cp (vs_store (versions_ db)))).

(** What the surroundings of the background thread lead to. *)
Definition background_to (io : CompactionIO (W := W)) (db : DBImpl (W := W)) (h h2 : list Write) : Prop :=
  match imm_ db with
  | Some imm => h2 = h ∧ flushable C cache_get contents (cio_output io) db imm
  | None =>
      match chosen db with
      | Some (Some (c, cp)) => runs_to io (bool_decide (is_Some (manual_compaction_ db))) c (with_input db cp) h h2
      | _ => h2 = h
      end
  end.

Lemma with_input_sound db cp h : sound db h → sound (with_input db cp) h ∧ files_ (current (versions_ (with_input db cp))) = files_ (current (versions_ db)) ∧
  current_id (versions_ (with_input db cp)) = current_id (versions_ db) ∧ 2 <= v_refs_ (current (versions_ (with_input db cp))).
Proof.
  intros Hs. pose proof (sound_files _ _ Hs) as Hf. destruct (RefVersion_current (versions_ db) cp (vs_store (versions_ db)) (vf_refs _ _ _ _ Hf)) as [Hsv Hr2]. destruct Hs as [Hr Hc].
  pose proof (vf_refs _ _ _ _ Hf). split_and!; [|apply Hsv|apply Hsv|cbn; lia]. split.
  - apply (refines_same C cache_get contents db); [|done|apply Hsv|done]. intros h'. by apply represents_same.
  - apply choices_versions; [|done]. apply RefVersion_pickable. apply Hc.
Qed.

Lemma chosen_planned db h : sound db h → ∃ r, chosen db = Some r ∧ match r with
    | Some (c, _) => planned C (current (versions_ db)) c ∧ (manual_compaction_ db = None → connected C (current (versions_ db)) c)
    | None => True
    end.
Proof using L.
  intros Hs. assert (searchable C (current (versions_ db))) as Hv by (eapply version_searchable, vf_version, sound_files, Hs). destruct Hs as [_ [H1 H2]]. unfold chosen.
  destruct (manual_compaction_ db) as [m|].
  - destruct (CompactRange_planned C (max_file_size options) (current (versions_ db)) (vs_compact_pointer (versions_ db)) (mc_level m) (mc_begin m) (mc_end m) Hv (H2 m eq_refl)) as (r & -> & Hp).
    exists r. split; [done|]. by destruct r as [[c cp]|].
  - destruct (PickCompaction_planned C (max_file_size options) (current (versions_ db)) (vs_compact_pointer (versions_ db)) Hv H1) as (r & -> & Hp). exists r. split; [done|]. destruct r as [[c cp]|]; [|done]. naive_solver.
Qed.

Lemma BackgroundCompaction_step io db h h2 : sound db h → background_to io db h h2 →
  ∃ db' m removed, BackgroundCompaction C options io db = Some (db', m, removed) ∧ sound db' h2 ∧ (imm_ db' = None ∨ ok (bg_error_ db') = false ∨ imm_ db = None).
Proof using L.
  intros Hs Hto. unfold BackgroundCompaction, background_to in *. destruct (imm_ db) as [imm|] eqn:Ei.
  { destruct Hto as (-> & Hfl). destruct (flush_step (cio_output io) (cio_manifest io) (cio_micros io) (cio_filenames io) db h imm Hs Ei Hfl) as (db' & removed & -> & Hs' & Hd).
    cbn [mbind option_bind]. do 3 eexists. split; [done|]. split; [done|]. tauto. }
  destruct (chosen_planned db h Hs) as (r & Er & Hp). rewrite Er in Hto. unfold chosen in Er. cbv zeta in Er.
  assert (∀ c cp (is_manual : bool), r = Some (c, cp) → (is_manual = false → manual_compaction_ db = None) → runs_to io is_manual c (with_input db cp) h h2 →
    ∃ s db' removed, run_compaction C options io is_manual (current_id (versions_ db)) c (with_input db cp) = Some (s, db', removed) ∧ sound db' h2) as Hrun.
  { intros c cp is_manual -> Hman Hr. destruct Hp as [Hp Hcn]. destruct (with_input_sound db cp h Hs) as (Hs1 & Ef & Eid & H2).
    destruct (run_step io is_manual (current_id (versions_ db)) c (with_input db cp) h h2 Hs1) as (s & db' & removed & E & Hs' & _); [by eapply planned_eq| |done|done|done|eauto].
    intros Hf. eapply connected_mono; [|by apply Hcn, Hman]. intros l f. by rewrite (level_files_eq _ _ l Ef). }
  destruct (manual_compaction_ db) as [m|]; rewrite Er; cbn [mbind option_bind]; destruct r as [[c cp]|].
  - destruct (Hrun c cp true eq_refl ltac:(done) Hto) as (s & db' & removed & E & Hs'). unfold with_input in E. rewrite E. cbn [mbind option_bind]. do 3 eexists. split; [done|]. split; [|tauto]. by apply sound_background.
  - subst h2. do 3 eexists. split; [done|]. split; [|tauto]. by apply sound_background.
  - destruct (Hrun c cp false eq_refl ltac:(done) Hto) as (s & db' & removed & E & Hs'). unfold with_input in E. rewrite E. cbn [mbind option_bind]. do 3 eexists. split; [done|]. split; [done|tauto].
  - subst h2. do 3 eexists. split; [done|]. split; [done|tauto].
Qed.

Definition call_to (io : CompactionIO (W := W)) (db : DBImpl (W := W)) (h h2 : list Write) : Prop :=
  if shutting_down_ db || negb (ok (bg_error_ db)) then h2 = h else background_to io db h h2.

Lemma sound_schedule db h : sound db h → sound (MaybeScheduleCompaction db) h.
Proof. intros [H1 H2]. split; [|by apply choices_schedule]. eapply refines_contents; [apply MaybeSchedule_same|done]. Qed.

Lemma BackgroundCall_step io db h h2 : sound db h → call_to io db h h2 → ∃ db' m removed, BackgroundCall C options io db = Some (db', m, removed) ∧ sound db' h2.
Proof using L.
  intros Hs Hto. unfold BackgroundCall, call_to in *.
  assert (∃ db' m removed, (if shutting_down_ db then Some (db, None, []) else if negb (ok (bg_error_ db)) then Some (db, None, []) else BackgroundCompaction C options io db) = Some (db', m, removed) ∧ sound db' h2)
    as (db' & m & removed & -> & Hs').
  { destruct (shutting_down_ db); cbn [orb] in Hto; [subst h2; eauto 10|]. destruct (negb _); [subst h2; eauto 10|].
    destruct (BackgroundCompaction_step io db h h2 Hs Hto) as (db' & m & removed & E & Hs' & _). eauto 10. }
  cbn [mbind option_bind]. do 3 eexists. split; [done|]. apply sound_schedule, sound_background; [done|]. apply Hs'.
Qed.

(** ** Runs *)

(** A state and the history of the writes that were acknowledged. *)
Inductive step : DBImpl (W := W) * list Write → DBImpl (W := W) * list Write → Prop :=
  | step_quiet c c' : quiet C base options cache_get c c' → step c c'
  | step_background db h io h2 db' m removed : call_to io db h h2 → BackgroundCall C options io db = Some (db', m, removed) → step (db, h) (db', h2).

Lemma step_sound c c' : step c c' → sound c.1 c.2 → sound c'.1 c'.2.
Proof using L.
  intros [c1 c2 Hq|db h io h2 db' m removed Hto E] Hs; cbn [fst snd] in *.
  - destruct Hs as [Hr Hc]. split; [by apply (quiet_step C base options cache_get contents _ _ Hq)|by eapply choices_quiet].
  - destruct (BackgroundCall_step io db h h2 Hs Hto) as (db2 & m2 & removed2 & E2 & Hs'). rewrite E in E2. by injection E2 as <- _ _.
Qed.

Lemma steps_sound c c' : rtc step c c' → sound c.1 c.2 → sound c'.1 c'.2.
Proof using L. induction 1 as [|c1 c2 c3 H _ IH]; [done|]. intros Hs. by eapply IH, step_sound. Qed.

(** Reads of a sound state. *)
Lemma sound_reads db h snapshot key value : sound db h → is_u32 (size key + 8) → (∀ s, snapshot = Some s → s ∈ snd <$> snaps (snapshots_ db)) →
  ∃ db', Get C cache_get db snapshot key value = Some (read_result (newest C h key (default (vs_last_sequence (versions_ db)) snapshot)) value, db') ∧ sound db' h.
Proof using L.
  intros [Hr Hc] Hk Hsn. pose proof Hr as [(h' & Hrep & Hreads) R2 R3 R4]. set (s := default _ snapshot). pose proof (rp_seq _ _ _ _ _ Hrep) as Hseq.
  assert (s ∈ vs_last_sequence (versions_ db) :: (snd <$> snaps (snapshots_ db))) as Hs by (subst s; destruct snapshot as [s0|]; [right; by apply Hsn|left]).
  assert (0 <= s <= vs_last_sequence (versions_ db)) as Hrange.
  { apply elem_of_cons in Hs as [->|Hs]; [lia|]. pose proof (so_range _ R2) as H. rewrite Forall_forall in H. by apply H. }
  destruct (db_Get C cache_get contents db h' snapshot key value Hrep) as (o & db' & E & Hn & Hsame); [fold s; unfold valid_seq; lia|done|]. fold s in Hn.
  destruct (Hreads key s _ (floor_le db s R2 Hs) (newest_spec C h key s)) as (o' & Hn' & Ea).
  pose proof (newest_unique C h' key s o o' (rp_distinct _ _ _ _ _ Hrep) Hn Hn') as ->. exists db'. rewrite E. split.
  - f_equal. f_equal. rewrite !read_result_answer. by rewrite Ea.
  - split; [by eapply refines_contents|by eapply choices_Get].
Qed.

(** ** Scheduling *)

(** Work that can be done is scheduled. *)
Definition scheduled_ok (db : DBImpl (W := W)) : Prop :=
  has_work db = true → shutting_down_ db = false → ok (bg_error_ db) = true → background_compaction_scheduled_ db = true.

Lemma scheduled_schedule db : scheduled_ok (MaybeScheduleCompaction db).
Proof.
  unfold scheduled_ok, MaybeScheduleCompaction. destruct (background_compaction_scheduled_ db) eqn:E1; [done|]. destruct (shutting_down_ db) eqn:E2; [by rewrite E2|].
  destruct (ok (bg_error_ db)) eqn:E3; cbn [negb]; [|by rewrite E3]. destruct (has_work db) eqn:E4; cbn [negb]; [done|by rewrite E4].
Qed.

(** What the schedule depends on. *)
Lemma scheduled_same db db' : imm_ db' = imm_ db → manual_compaction_ db' = manual_compaction_ db → current (versions_ db') = current (versions_ db) →
  shutting_down_ db' = shutting_down_ db → background_compaction_scheduled_ db' = background_compaction_scheduled_ db →
  bg_error_ db' = bg_error_ db ∨ ok (bg_error_ db') = false → scheduled_ok db → scheduled_ok db'.
Proof.
  intros E1 E2 E3 E4 E5 E6 Hs. unfold scheduled_ok, has_work in *. rewrite E1, E2, E3, E4, E5. destruct E6 as [->|E6]; [done|]. rewrite E6. done.
Qed.

Lemma scheduled_stats db v store (b : bool) : (b = false → v = current (versions_ db)) → scheduled_ok db →
  let db' := with_version_set db (update_version (current_id (versions_ db)) v store (versions_ db)) in scheduled_ok (if b then MaybeScheduleCompaction db' else db').
Proof.
  intros Hv Hs db'. destruct b; [apply scheduled_schedule|]. specialize (Hv eq_refl). subst v. apply (scheduled_same db); try done; [|by left].
  unfold db', current, update_version, current_id. cbn [versions_ with_version_set vs_versions with_versions]. rewrite fmap_last. destruct (last (vs_versions (versions_ db))) as [[i v0]|]; [|done].
  cbn. by rewrite decide_True.
Qed.

Lemma UpdateStats_idle v store stats : (UpdateStats v store stats).2 = false → (UpdateStats v store stats).1.1 = v.
Proof. unfold UpdateStats. destruct (seek_file stats); [|done]. by destruct (_ && _). Qed.

Lemma scheduled_Get db snapshot key value r db' : Get C cache_get db snapshot key value = Some (r, db') → scheduled_ok db → scheduled_ok db'.
Proof.
  intros E Hs. unfold Get in E. destruct (MemTable.Get C (mem_ db) _ _ _) as [[[[|] v1] s1]|]; [by injection E as _ <-| |done]. cbn [mbind option_bind] in E.
  destruct (match imm_ db with Some imm => _ | None => _ end) as [[[[|] v2] s2]|]; [by injection E as _ <-| |done]. cbn [mbind option_bind] in E.
  destruct (Version.Get _ _ _ _ _ _) as [[[[s3 v3] stats] store]|]; [|done]. cbn [mbind option_bind] in E.
  pose proof (UpdateStats_idle (current (versions_ db)) store stats) as Hu. destruct (UpdateStats _ store stats) as [[v store'] b]. injection E as _ <-. by apply scheduled_stats.
Qed.

Lemma scheduled_Sample db key db' : RecordReadSample C key db = Some db' → scheduled_ok db → scheduled_ok db'.
Proof.
  intros E Hs. unfold RecordReadSample, Version.RecordReadSample in E.
  destruct (ParseInternalKey key) as [k|]; [|injection E as <-; by apply (scheduled_stats db _ _ false)].
  destruct (ForEachOverlapping _ _ _ _ _ _) as [[stats matches]|]; [|done]. cbn [mbind option_bind] in E. destruct (matches >=? 2); [|injection E as <-; by apply (scheduled_stats db _ _ false)].
  pose proof (UpdateStats_idle (current (versions_ db)) (vs_store (versions_ db)) stats) as Hu. destruct (UpdateStats _ _ stats) as [[v store] b]. injection E as <-. by apply scheduled_stats.
Qed.

Lemma scheduled_Commit io room db s n db' : CommitGroup C base io room db = Some (s, n, db') → scheduled_ok db → scheduled_ok db'.
Proof.
  unfold CommitGroup. intros E Hs. destruct (writers_ db) as [|w ws]; [done|].
  destruct (ok room); [destruct (wr_batch w)|]; [|injection E as _ _ <-; apply (scheduled_same db); (done || by left)..].
  destruct (BuildBatchGroup db) as [[[b is_tmp] m]|]; [|done]. cbn [mbind option_bind] in E.
  destruct (log_and_insert _ _ _ _ _ _ _) as [[[[s1 e] log] mem]|] eqn:El; [|done]. cbn [mbind option_bind] in E. injection E as _ _ <-.
  destruct e; [|apply (scheduled_same db); (done || by left)]. unfold RecordBackgroundError. destruct (ok (bg_error_ _)) eqn:Eb; [|apply (scheduled_same db); (done || by left)].
  apply (scheduled_same db); try done. right. cbn. unfold log_and_insert in El. destruct (AddRecord _ _) as [[s2 log2]|]; [|done]. cbn [mbind option_bind] in El.
  destruct (ok (if ok s2 && wr_sync w then _ else s2)) eqn:Ey; [|injection El as <- _ _ _; done].
  destruct (InsertInto C base _ _) as [[st s3]|]; [|done]. cbn [mbind option_bind] in El. destruct st as [[mm x]|]; [|done]. cbn [mbind option_bind] in El. injection El as _ He _ _.
  by rewrite andb_false_r in He.
Qed.

Lemma scheduled_quiet c c' : quiet C base options cache_get c c' → scheduled_ok c.1 → scheduled_ok c'.1.
Proof.
  intros [db h r|db h io room requests s n db' _ _ _ _ _ E|db h io force allow_delay _|db h snapshot key value r db' _ _ E|db h key db' E|db h|db h id|db h m Hm|db h] Hs; cbn [fst snd] in *.
  - apply (scheduled_same db); (done || by left).
  - by eapply scheduled_Commit.
  - unfold MakeRoom. destruct (negb _); [done|]. destruct (_ && _); [done|]. destruct (_ && _); [done|]. destruct (imm_ db); [done|]. destruct (_ >=? _); [done|].
    cbn [NewFileNumber]. destruct (dio_new_log io _) as [s lfile]. destruct (ok s); cbn [snd]; [apply scheduled_schedule|].
    unfold ReuseFileNumber. destruct (_ =? _); apply (scheduled_same db); (done || by left).
  - by eapply scheduled_Get.
  - by eapply scheduled_Sample.
  - apply (scheduled_same db); (done || by left).
  - apply (scheduled_same db); (done || by left).
  - unfold StartManual. destruct (manual_compaction_ db); [done|]. apply scheduled_schedule.
  - by unfold scheduled_ok.
Qed.

Lemma steps_scheduled c c' : rtc step c c' → scheduled_ok c.1 → scheduled_ok c'.1.
Proof.
  induction 1 as [|c1 c2 c3 H _ IH]; [done|]. intros Hs. apply IH. destruct H as [c c2 Hq|db h io h2 db' m removed _ E]; [by eapply scheduled_quiet|]. cbn [fst].
  unfold BackgroundCall in E. destruct (if shutting_down_ db then _ else _) as [[[db1 m1] r1]|]; [|done]. cbn [mbind option_bind] in E. injection E as <- _ _. apply scheduled_schedule.
Qed.

End runs.
