(* ===== verification/Database.v ===== *)
(** * Properties of the database

    What the operations of [DbImpl] promise together: reads return the newest
    acknowledged write that their snapshot sees, work that is needed is scheduled and
    done, and no file that is needed is removed. *)

From stdpp Require Import gmap sorting relations.
From S2P Require Import Prelude Coding Status Env Comparator Filename Log DbFormat Arena Random SkipList MemTable WriteBatch VersionEdit Version VersionBuilder Compaction DbCompaction VersionSet DbImpl DbHistory DbFlush DbRefinement DbSteps DbBackground DbWork DbPlan DbRuns.

Section fresh.
  Context (C : Comparator) {L : ComparatorLaws C} (base : nat → Z) {W : WritableFile} (options : Options).
  Context (cache_get : FileMetaData → nat → bytes → Status * option (bytes * bytes)) (contents : FileMetaData → list Write).

(** A database without files; its log is [lfile]. *)
Definition fresh_db (lfile : wfile) : DBImpl (W := W) :=
  let '(number, vs) := NewFileNumber NewVersionSet in
  MkDB (Ref (NewMemTable base)) None (NewWriter lfile) number [] NewWriteBatch NewSnapshotList ∅ false None vs Status_OK false
    (replicate num_levels NewCompactionStats) 0 [].

Lemma fresh_files level : level_files (current (NewFileNumber (NewVersionSet (W := W))).2) level = [].
Proof. unfold level_files. cbn. by destruct level as [|[|[|[|[|[|[|level]]]]]]]. Qed.

Lemma fresh_files_ok : files_ok C cache_get contents (NewFileNumber (NewVersionSet (W := W))).2.
Proof.
  split; [split|..]; try (intros *; rewrite ?fresh_files; by intros ?%not_elem_of_nil).
  - intros level. by rewrite fresh_files.
  - intros level _. rewrite fresh_files. split; [constructor|done].
  - rewrite fresh_files. constructor.
  - intros i j f g _. rewrite fresh_files. by intros ?%not_elem_of_nil.
  - done.
  - intros level. rewrite fresh_files. constructor.
  - intros level. rewrite fresh_files. constructor.
  - by vm_compute.
  - by vm_compute.
  - cbn. lia.
Qed.

Lemma fresh_sound lfile : sound C cache_get contents (fresh_db lfile) [].
Proof.
  assert (version_holds contents (NewFileNumber (NewVersionSet (W := W))).2 = []) as Eh by (unfold version_holds, version_writes; cbn; done).
  split; [split|split].
  - exists []. split; [|intros u s o _ Ho; eauto]. split; try done.
    + exists [], []. cbn [fresh_db NewFileNumber versions_]. change (with_numbers NewVersionSet _ _ _ _ _) with (NewFileNumber (NewVersionSet (W := W))).2. rewrite Eh. split; [|done]. split; try done; [apply NewMemTable_filled|..]; by intros w1 w2 ?%not_elem_of_nil.
    + exact fresh_files_ok.
    + by intros w1 w2 ?%not_elem_of_nil.
  - split; constructor.
  - constructor.
  - constructor.
  - split; [intros H; by vm_compute in H|done].
  - done.
Qed.

Lemma fresh_scheduled lfile : scheduled_ok (fresh_db lfile).
Proof. intros H. by vm_compute in H. Qed.

End fresh.

(** ** Files that are kept *)




(** ** Properties *)

Section properties.
  Context (C : Comparator) {L : ComparatorLaws C} (base : nat → Z) {W : WritableFile} (options : Options).
  Context (cache_get : FileMetaData → nat → bytes → Status * option (bytes * bytes)) (contents : FileMetaData → list Write).

(** C1: The database refines a history of writes.  Take any run ([step]) from a fresh
    database of writers that enqueue, groups that commit or fail, switches of the
    memtable, reads, snapshots, manual compactions and calls of the background thread:
    flushes, moves and compactions that succeed or fail, foreground operations and
    flushes of a waiting memtable happening between any two entries of a compaction.
    Let [h] be the writes of the groups that were acknowledged, numbered consecutively.
    Then a read, at the last sequence number or at a snapshot that has not been
    released, returns what the newest write of its key that the snapshot sees says: its
    value, or not found after a deletion or when there is none.  The run relation asks
    of the surroundings that the input iterator of a compaction yields all entries of
    the input files in order, that a table that is kept reads back as what was added to
    it, that file and sequence numbers do not run out (files below [2^31]) and that
    batches keep to the sizes of their format.  It leaves out one case, in which the code
    loses writes ([manual_compaction_hides_write]): that a manual compaction flushes a
    memtable whose keys all lie between two of its input files. *)
Theorem database_refines_history (lfile : wfile) (db : DBImpl (W := W)) (h : list Write) :
  rtc (step C base options cache_get contents) (fresh_db base lfile, []) (db, h) →
  ∀ snapshot key value, is_u32 (size key + 8) → (∀ s, snapshot = Some s → s ∈ snd <$> snaps (snapshots_ db)) →
  ∃ db', Get C cache_get db snapshot key value = Some (read_result (newest C h key (default (vs_last_sequence (versions_ db)) snapshot)) value, db').
Proof using L.
  intros Hrun snapshot key value Hk Hsn. pose proof (steps_sound C base options cache_get contents _ _ Hrun (fresh_sound C base cache_get contents lfile)) as Hs.
  destruct (sound_reads C cache_get contents db h snapshot key value Hs Hk Hsn) as (db' & E & _). eauto.
Qed.

(** C4: Background work is neither lost nor stuck.  In every state that a run reaches
    (as in [database_refines_history]), an immutable memtable, a manual compaction or a
    level or file that needs a compaction is scheduled, unless the database shuts down or
    has recorded an error.  A call of the background thread then returns, whichever
    operations on files fail, if its surroundings are as in a run ([call_to]: the input
    of a compaction is complete and in order, tables that are kept read back, file
    numbers stay below [2^31], other threads do foreground operations only, and a manual
    compaction flushes no memtable that lies between two of its inputs).  If there was an
    immutable memtable and nothing kept the thread from working, it is written out
    afterwards, or the error is recorded, so that writers waiting in [MakeRoomForWrite]
    either get room or fail. *)
Theorem background_work_progresses (lfile : wfile) (db : DBImpl (W := W)) (h : list Write) :
  rtc (step C base options cache_get contents) (fresh_db base lfile, []) (db, h) →
  (has_work db = true → shutting_down_ db = false → ok (bg_error_ db) = true → background_compaction_scheduled_ db = true) ∧
  ∀ io h2, call_to C base options cache_get contents io db h h2 →
  ∃ db' m removed, BackgroundCall C options io db = Some (db', m, removed) ∧
    (is_Some (imm_ db) → shutting_down_ db = false → ok (bg_error_ db) = true → imm_ db' = None ∨ ok (bg_error_ db') = false).
Proof using L.
  intros Hrun. split; [exact (steps_scheduled C base options cache_get contents _ _ Hrun (fresh_scheduled base lfile))|]. intros io h2 Hto.
  pose proof (steps_sound C base options cache_get contents _ _ Hrun (fresh_sound C base cache_get contents lfile)) as Hs. cbn [fst snd] in Hs.
  destruct (BackgroundCall_step C base options cache_get contents io db h h2 Hs Hto) as (db' & m & removed & E & _). exists db', m, removed. split; [done|].
  intros Hi Hsh Hbg. unfold BackgroundCall in E. unfold call_to in Hto. rewrite Hsh, Hbg in *. cbn [negb orb] in *.
  destruct (BackgroundCompaction_step C base options cache_get contents io db h h2 Hs Hto) as (db1 & m1 & r1 & E1 & _ & Hd). rewrite E1 in E. cbn [mbind option_bind] in E. injection E as <- _ _.
  set (db2 := with_background _ _ _ _). destruct (MaybeSchedule_fields db2) as (_ & E2 & _). assert (bg_error_ (MaybeScheduleCompaction db2) = bg_error_ db1) as E3 by (unfold MaybeScheduleCompaction; by repeat case_match).
  rewrite E2, E3. destruct Hd as [?|[?|Hn]]; [by left|by right|]. rewrite Hn in Hi. by destruct Hi.
Qed.

(** What the table cache and the multi-queue forget is in no version and not pending. *)
Lemma evicted_tables_unused filenames (db : DBImpl (W := W)) n :
  n ∈ evicted_tables (RemoveObsoleteFiles filenames db) → n ∉ AddLiveFiles (versions_ db) (db_pending_outputs db).
Proof.
  unfold evicted_tables, RemoveObsoleteFiles. rewrite list_elem_of_omap. intros (name & Hname & E).
  destruct (ok (bg_error_ db)); [|by apply not_elem_of_nil in Hname].
  rewrite list_elem_of_In, filter_In in Hname. destruct Hname as [_ Hobs]. unfold obsolete_file in Hobs.
  destruct (ParseFileName name) as [[m t]|]; [|done]. destruct t; try done. injection E as <-.
  cbn [keep_file] in Hobs. by rewrite negb_true_iff, bool_decide_eq_false in Hobs.
Qed.


End properties.

(** Two writes of one key; the memtable is flushed to level 2, and a manual compaction
    of that level drops the older write.  During a second compaction the key is written
    again and the loop of the compaction flushes the memtable. *)
Module RunExample.
Definition base (i : nat) : Z := 4096 * Z.of_nat i.
Definition options : Options := MkOptions 1000 4194304 2097152 4096.
Definition w1 : Write := MkWrite 1 kTypeValue [x61] [x31].
Definition w2 : Write := MkWrite 2 kTypeValue [x61] [x32].
Definition w3 : Write := MkWrite 3 kTypeValue [x61] [x33].
Definition contents (f : FileMetaData) : list Write :=
  if number f =? 4 then [w2; w1] else if number f =? 5 then [w2]
  else if number f =? 7 then [w3] else if number f =? 8 then [w2] else [].
Definition cache_get : FileMetaData → nat → bytes → Status * option (bytes * bytes) := scan_get BytewiseComparator contents.
Definition requests : list request := [MkRequest (Some [OpPut [x61] [x31]; OpPut [x61] [x32]]) true].
Definition dio : DbIO (W := WritableFileImpl) := MkDbIO (λ _, (Status_OK, FileState.NewFileState)) (λ _, Status_OK) (λ _, Status_OK).
Definition mio : ManifestIO (W := WritableFileImpl) := MkManifestIO (λ _, (Status_OK, FileState.NewFileState)) (λ _, Status_OK) (λ _, Status_OK).
Definition io : CompactionIO (W := WritableFileImpl) :=
  MkCompactionIO CompactExample.io mio (λ _, entry_of_write <$> [w2; w1]) (λ _, Status_OK) [] 0 None (λ _, false) (λ _, MkFlushIO CompactExample.io mio 0 []) (λ _, Some).
Definition m : ManualCompaction := manual_range 2 None None.

Definition db0 : DBImpl := fresh_db base FileState.NewFileState.
Definition db1 : DBImpl := foldl (λ db r, Enqueue (writer_of r) db) db0 requests.
Definition db2 : DBImpl := from_option snd db1 (CommitGroup BytewiseComparator base dio Status_OK db1).
Definition db3 : DBImpl := (MakeRoom base options dio true true db2).2.
Definition db4 : DBImpl := from_option (λ r, r.1.1) db3 (BackgroundCall BytewiseComparator options io db3).
Definition db5 : DBImpl := StartManual m db4.
Definition db6 : DBImpl := from_option (λ r, r.1.1) db5 (BackgroundCall BytewiseComparator options io db5).

(** The foreground operations during the second compaction. *)
Definition requests2 : list request := [MkRequest (Some [OpPut [x61] [x33]]) true].
Definition enqueued (db : DBImpl) : DBImpl := foldl (λ db r, Enqueue (writer_of r) db) db requests2.
Definition committed (db : DBImpl) : DBImpl := from_option snd db (CommitGroup BytewiseComparator base dio Status_OK (enqueued db)).
Definition switched (db : DBImpl) : DBImpl := (MakeRoom base options dio true true (committed db)).2.
Definition io2 : CompactionIO (W := WritableFileImpl) :=
  MkCompactionIO CompactExample.io mio (λ _, entry_of_write <$> [w2]) (λ _, Status_OK) [] 0 None (Nat.eqb 0) (λ _, MkFlushIO CompactExample.io mio 0 [])
    (λ k db, Some (if (k =? 0)%nat then switched db else db)).
Definition m2 : ManualCompaction := manual_range 3 None None.
Definition db7 : DBImpl := StartManual m2 db6.
Definition db8 : DBImpl := from_option (λ r, r.1.1) db7 (BackgroundCall BytewiseComparator options io2 db7).

(** The call returns. *)
Lemma returns {A} (x : option A) : match x with Some _ => true | None => false end = true → ∃ r, x = Some r.
Proof. destruct x as [r|]; [by exists r|done]. Qed.

Lemma entries_inj ws ws' : Forall write_ok ws → Forall write_ok ws' → entry_of_write <$> ws = entry_of_write <$> ws' → ws = ws'.
Proof.
  intros Hok. revert ws'. induction Hok as [|w ws Hw _ IH]; intros [|w' ws'] Hok' E; try done. apply Forall_cons in Hok' as [Hw' Hok']. injection E as E1 E2 E3.
  f_equal; [|by apply IH]. apply (f_equal ParseInternalKey) in E1. unfold ikey_of in E1. rewrite !ParseInternalKey_ikey in E1 by (apply Hw || apply Hw'). destruct w, w'. cbn in *. congruence.
Qed.

Lemma writes_ok : Forall write_ok [w2; w1].
Proof. repeat constructor; by vm_compute. Qed.

Lemma written n ws : Forall write_ok ws → StronglySorted (before BytewiseComparator) ws → ws ≠ [] → (∀ f, number f = n → contents f = ws) →
  table_written BytewiseComparator cache_get contents CompactExample.io n ws.
Proof.
  intros Hok Hs Hne Hc. split; [destruct ws; [done|]; cbn; unfold size; cbn; lia|]. intros f Hf _. pose proof (Hc f Hf) as E. split; [done|].
  apply (scan_get_reads BytewiseComparator contents f); rewrite E; [done|]. clear -Hs. induction Hs as [|w ws _ IH Hall]; constructor; [done|]. eapply Forall_impl; [exact Hall|]. unfold before. intros x. lia.
Qed.

Lemma written_4 : table_written BytewiseComparator cache_get contents CompactExample.io 4 [w2; w1].
Proof. apply written; [apply writes_ok|repeat constructor; by vm_compute|done|]. intros f E. unfold contents. by rewrite E. Qed.

Lemma written_5 : table_written BytewiseComparator cache_get contents CompactExample.io 5 [w2].
Proof. apply written; [repeat constructor; by vm_compute|repeat constructor|done|]. intros f E. unfold contents. by rewrite E. Qed.

Abbreviation step := (step BytewiseComparator base options cache_get contents).

Lemma foreground : rtc step (db0, []) (db3, [w1; w2]).
Proof.
  eapply rtc_l; [apply step_quiet, (quiet_enqueue _ _ _ _ db0 [] (MkRequest (Some [OpPut [x61] [x31]; OpPut [x61] [x32]]) true))|].
  destruct (returns (CommitGroup BytewiseComparator base dio Status_OK db1)) as [[[s n] db'] E]; [by vm_compute|].
  assert (db' = db2) as -> by (unfold db2; by rewrite E).
  assert (s = Status_OK ∧ n = 1%nat) as [-> ->] by (pose proof (f_equal (fmap fst) E) as E'; clear E; vm_compute in E'; by injection E' as <- <-).
  eapply rtc_l; [apply step_quiet, (quiet_commit _ _ _ _ db1 [] dio Status_OK requests Status_OK 1 db2)|].
  - done.
  - repeat constructor; by vm_compute.
  - by vm_compute.
  - by vm_compute.
  - by vm_compute.
  - exact E.
  - change (rtc step (db2, [w1; w2]) (db3, [w1; w2])). apply rtc_once, step_quiet. apply (quiet_room _ _ _ _ db2 _ dio true true). by vm_compute.
Qed.

Lemma written_7 : table_written BytewiseComparator cache_get contents CompactExample.io 7 [w3].
Proof. apply written; [repeat constructor; by vm_compute|repeat constructor|done|]. intros f E. unfold contents. by rewrite E. Qed.

Lemma written_8 : table_written BytewiseComparator cache_get contents CompactExample.io 8 [w2].
Proof. apply written; [repeat constructor; by vm_compute|repeat constructor|done|]. intros f E. unfold contents. by rewrite E. Qed.

(** A memtable with known entries, whose table is written. *)
Lemma flushable_at (db : DBImpl (W := WritableFileImpl)) imm ws n : Forall write_ok ws → mem_entries imm = Some (entry_of_write <$> ws) → vs_next_file_number (versions_ db) = n → n + 1 < 2 ^ 31 →
  table_written BytewiseComparator cache_get contents CompactExample.io n ws → flushable BytewiseComparator cache_get contents CompactExample.io db imm.
Proof.
  intros Hok Em <- Hn Hw. split; [done|]. intros ws' Hok' Em' _. rewrite Em in Em'. injection Em' as E. by apply (entries_inj ws ws' Hok Hok') in E as <-.
Qed.

Lemma flush_call : call_to BytewiseComparator base options cache_get contents io db3 [w1; w2] [w1; w2].
Proof.
  assert (∃ imm, imm_ db3 = Some imm ∧ mem_entries imm = Some (entry_of_write <$> [w2; w1])) as (imm & Ei & Em).
  { exists (default (NewMemTable base) (imm_ db3)). split; by vm_compute. }
  unfold call_to. replace (shutting_down_ db3 || negb (ok (bg_error_ db3))) with false by (by vm_compute).
  unfold background_to. rewrite Ei. split; [done|]. apply (flushable_at db3 imm [w2; w1] 4 writes_ok Em); [by vm_compute|lia|exact written_4].
Qed.

Lemma flush : step (db3, [w1; w2]) (db4, [w1; w2]).
Proof.
  destruct (returns (BackgroundCall BytewiseComparator options io db3)) as [[[db' mm] removed] E]; [by vm_compute|].
  assert (db' = db4) as -> by (unfold db4; rewrite E; done). by eapply (step_background _ _ _ _ _ db3 _ io); [exact flush_call|].
Qed.

(** The input of a compaction of one file. *)
Lemma merged_one (c : Compaction) n ws : StronglySorted (before BytewiseComparator) ws → (number <$> inputs_0 c ++ inputs_1 c) = [n] → (∀ f, number f = n → contents f = ws) →
  merged BytewiseComparator contents c (entry_of_write <$> ws) ws.
Proof.
  intros Hs En Hc. split; [done|]. split; [done|]. intros w. destruct (inputs_0 c ++ inputs_1 c) as [|f [|]]; try done. injection En as En.
  split; [intros Hw; exists f; rewrite (Hc f En); split; [left|done]|]. intros (g & ->%list_elem_of_singleton & Hw). by rewrite (Hc f En) in Hw.
Qed.

Lemma tables_one (j : Job) n ws : tables j = [(n, entry_of_write <$> ws)] → Forall write_ok ws → table_written BytewiseComparator cache_get contents CompactExample.io n ws →
  tables_written BytewiseComparator cache_get contents CompactExample.io j.
Proof.
  intros Et Hok Hw n' es ws' Hok' Hin Hes. rewrite Et in Hin. apply list_elem_of_singleton in Hin as [= -> ->]. by apply (entries_inj ws ws') in Hes as <-.
Qed.

Definition chosen_at (db : DBImpl) : Compaction * list bytes :=
  match chosen BytewiseComparator options db with Some (Some r) => r | _ => (NewCompaction 0 0 None [], []) end.

Lemma entry_then {A B D E} (r : A * B * D * E) (P : A → B → D → E → Prop) : P r.1.1.1 r.1.1.2 r.1.2 r.2 → let '(a, b, d, e) := r in P a b d e.
Proof. by destruct r as [[[a b] d] e]. Qed.

Lemma pair_then {A B} (r : A * B) (P : A → B → Prop) : P r.1 r.2 → let '(a, b) := r in P a b.
Proof. by destruct r. Qed.

(** Nothing happens up to the point. *)
Ltac stay := eexists _, _; split; [reflexivity|]; split; [apply rtc_refl|]; cbv beta.

Lemma compaction_call : call_to BytewiseComparator base options cache_get contents io db5 [w1; w2] [w1; w2].
Proof.
  unfold call_to. replace (shutting_down_ db5 || negb (ok (bg_error_ db5))) with false by (by vm_compute).
  unfold background_to. replace (imm_ db5) with (@None MemTable) by (by vm_compute).
  assert (chosen BytewiseComparator options db5 = Some (Some (chosen_at db5))) as -> by (by vm_compute). rewrite (surjective_pairing (chosen_at db5)). cbv beta iota. unfold runs_to.
  replace (bool_decide (is_Some (manual_compaction_ db5))) with true by (by vm_compute). cbn [negb andb]. split.
  { exists [w2; w1]. apply (merged_one _ 4); [repeat constructor; by vm_compute|by vm_compute|]. intros f E. unfold contents. by rewrite E. }
  set (dbi := with_input db5 (chosen_at db5).2). set (j0 := start_job _ _ _). set (v := current _).
  change (cio_input io _) with [(ikey_of w2, wvalue w2); (ikey_of w1, wvalue w1)]. cbn [loop_to].
  stay. replace (shutting_down_ dbi) with false by (by vm_compute). unfold flush_to at 1. change (cio_has_imm io 0) with false. cbv iota. stay. split; [by vm_compute|].
  apply entry_then. set (e1 := work_entry _ _ _ _ _ _ _ _ _ _). replace (ok e1.1.1.1) with true by (by vm_compute).
  stay. replace (shutting_down_ e1.2) with false by (by vm_compute). unfold flush_to at 1. change (cio_has_imm io 1) with false. cbv iota. stay. split; [by vm_compute|].
  apply entry_then. set (e2 := work_entry _ _ _ _ _ _ _ _ _ _). replace (ok e2.1.1.1) with true by (by vm_compute).
  stay. stay. apply pair_then. split.
  - intros _. apply (tables_one _ 5 [w2]); [by vm_compute|repeat constructor; by vm_compute|exact written_5].
  - stay. split; [by vm_compute|done].
Qed.

Lemma compacted : step (db5, [w1; w2]) (db6, [w1; w2]).
Proof.
  destruct (returns (BackgroundCall BytewiseComparator options io db5)) as [[[db' mm] removed] E]; [by vm_compute|].
  assert (db' = db6) as -> by (unfold db6; rewrite E; done). by eapply (step_background _ _ _ _ _ db5 _ io); [exact compaction_call|].
Qed.

Lemma run : rtc step (db0, []) (db6, [w1; w2]).
Proof.
  etrans; [exact foreground|]. eapply rtc_l; [exact flush|]. eapply rtc_l; [apply step_quiet; apply (quiet_manual _ _ _ _ db4 _ m); rewrite seven_levels; cbn; lia|].
  apply rtc_once. exact compacted.
Qed.

(** The state in which the second compaction runs. *)
Definition dbi : DBImpl := with_input db7 (chosen_at db7).2.

Lemma written_meanwhile : rtc (quiet BytewiseComparator base options cache_get) (dbi, [w1; w2]) (switched dbi, [w1; w2; w3]).
Proof.
  eapply rtc_l; [apply (quiet_enqueue _ _ _ _ dbi [w1; w2] (MkRequest (Some [OpPut [x61] [x33]]) true))|].
  destruct (returns (CommitGroup BytewiseComparator base dio Status_OK (enqueued dbi))) as [[[s n] db'] E]; [by vm_compute|].
  assert (s = Status_OK ∧ n = 1%nat) as [-> ->] by (pose proof (f_equal (fmap fst) E) as E'; clear E; vm_compute in E'; by injection E' as <- <-).
  assert (db' = committed dbi) as -> by (unfold committed; rewrite E; reflexivity).
  assert (vs_last_sequence (versions_ (enqueued dbi)) = 2) as El by (by vm_compute).
  eapply rtc_l; [apply (quiet_commit _ _ _ _ (enqueued dbi) [w1; w2] dio Status_OK requests2 Status_OK 1 (committed dbi))|].
  - by vm_compute.
  - repeat constructor; by vm_compute.
  - by vm_compute.
  - by vm_compute.
  - rewrite El. by vm_compute.
  - exact E.
  - rewrite El. change (if ok Status_OK then [w1; w2] ++ WriteBatch.number (2 + 1) (ops_of (take 1 requests2)) else [w1; w2]) with [w1; w2; w3].
    assert (vs_next_file_number (versions_ (committed dbi)) + 1 < 2 ^ 31) as Hn by (by vm_compute). unfold switched. revert Hn. generalize (committed dbi). intros db Hn.
    apply rtc_once. by apply (quiet_room _ _ _ _ db _ dio true true).
Qed.

Lemma second_call : call_to BytewiseComparator base options cache_get contents io2 db7 [w1; w2] [w1; w2; w3].
Proof.
  unfold call_to. replace (shutting_down_ db7 || negb (ok (bg_error_ db7))) with false by (by vm_compute).
  unfold background_to. replace (imm_ db7) with (@None MemTable) by (by vm_compute).
  assert (chosen BytewiseComparator options db7 = Some (Some (chosen_at db7))) as -> by (by vm_compute). rewrite (surjective_pairing (chosen_at db7)). cbv beta iota. unfold runs_to.
  replace (bool_decide (is_Some (manual_compaction_ db7))) with true by (by vm_compute). cbn [negb andb]. fold dbi. split.
  { exists [w2]. apply (merged_one _ 5); [repeat constructor|by vm_compute|]. intros f E. unfold contents. by rewrite E. }
  set (c := (chosen_at db7).1). set (j0 := start_job _ _ _). set (v := current _). change (cio_input io2 _) with [(ikey_of w2, wvalue w2)]. cbn [loop_to].
  exists (switched dbi), [w1; w2; w3]. split; [reflexivity|]. split; [exact written_meanwhile|].
  replace (shutting_down_ (switched dbi)) with false by (by vm_compute). unfold flush_to at 1. change (cio_has_imm io2 0) with true. cbv iota.
  exists (switched dbi), [w1; w2; w3]. split; [reflexivity|]. split; [apply rtc_refl|].
  assert (∃ imm, imm_ (switched dbi) = Some imm ∧ mem_entries imm = Some (entry_of_write <$> [w3])) as (imm & Ei & Em).
  { exists (default (NewMemTable base) (imm_ (switched dbi))). split; by vm_compute. }
  rewrite Ei. split; [|split].
  { apply (flushable_at (switched dbi) imm [w3] 7); [repeat constructor; by vm_compute|done|by vm_compute|lia|exact written_7]. }
  { intros _ (ws & w0 & wl & f & g & Hok & Em' & Eh & El & Hf & Hg & H1 & H2). rewrite Em in Em'. injection Em' as E. apply (entries_inj [w3] ws) in E as <-; [|repeat constructor; by vm_compute|done].
    injection Eh as <-. injection El as <-. assert (forallb (λ f, @Compare BytewiseComparator (file_limit f) [x61] =? 0) (inputs_0 c ++ inputs_1 c) = true) as Hall by (by vm_compute).
    rewrite forallb_forall in Hall. apply list_elem_of_In in Hf. specialize (Hall f Hf). apply Z.eqb_eq in Hall. change (wkey w3) with [x61] in H1. lia. }
  intros db' removed E. set (d1 := from_option fst dbi (CompactMemTable BytewiseComparator options CompactExample.io mio 0 [] (switched dbi))).
  assert (db' = d1) as -> by (unfold d1; unfold io2 in E; cbn [cio_flush fl_output fl_manifest fl_micros fl_filenames] in E; rewrite E; reflexivity). clear E.
  stay. split; [by vm_compute|]. apply entry_then. set (e1 := work_entry _ _ _ _ _ _ _ _ _ _). replace (ok e1.1.1.1) with true by (by vm_compute).
  stay. stay. apply pair_then. split.
  - intros _. apply (tables_one _ 8 [w2]); [by vm_compute|repeat constructor; by vm_compute|exact written_8].
  - stay. split; [by vm_compute|done].
Qed.

Lemma long_run : rtc step (db0, []) (db8, [w1; w2; w3]).
Proof.
  etrans; [exact run|]. eapply rtc_l; [apply step_quiet; apply (quiet_manual _ _ _ _ db6 _ m2); rewrite seven_levels; cbn; lia|].
  destruct (returns (BackgroundCall BytewiseComparator options io2 db7)) as [[[db' mm] removed] E]; [by vm_compute|].
  assert (db' = db8) as -> by (unfold db8; rewrite E; reflexivity). apply rtc_once. by eapply (step_background _ _ _ _ _ db7 _ io2); [exact second_call|].
Qed.

End RunExample.

(** The loop flushed the last write to level 2, and the compaction wrote the other to
    level 4; the newer one is read. *)
Lemma database_refines_history_witness :
  map (map VersionEdit.number) (files_ (current (versions_ RunExample.db8))) = [[]; []; [7]; []; [8]; []; []] ∧
  ∃ db', Get BytewiseComparator RunExample.cache_get RunExample.db8 None [x61] [] = Some ((Status_OK, [x33]), db').
Proof.
  split; [by vm_compute|].
  exact (database_refines_history BytewiseComparator RunExample.base RunExample.options RunExample.cache_get RunExample.contents FileState.NewFileState
    RunExample.db8 [RunExample.w1; RunExample.w2; RunExample.w3] RunExample.long_run None [x61] [] ltac:(by vm_compute) ltac:(done)).
Defined.

(** The immutable memtable of the run is scheduled to be written, and it is written. *)
Lemma background_work_progresses_witness :
  bool_decide (is_Some (imm_ RunExample.db3)) = true ∧ background_compaction_scheduled_ RunExample.db3 = true ∧
  ∃ db' m removed, BackgroundCall BytewiseComparator RunExample.options RunExample.io RunExample.db3 = Some (db', m, removed) ∧ (imm_ db' = None ∨ ok (bg_error_ db') = false).
Proof.
  destruct (background_work_progresses (W := WritableFileImpl) BytewiseComparator RunExample.base RunExample.options RunExample.cache_get RunExample.contents FileState.NewFileState
    RunExample.db3 [RunExample.w1; RunExample.w2] RunExample.foreground) as [Hs Hc].
  split; [by vm_compute|]. split; [apply Hs; by vm_compute|].
  destruct (Hc RunExample.io [RunExample.w1; RunExample.w2] RunExample.flush_call) as (db' & m & removed & E & Hd). exists db', m, removed. split; [exact E|].
  apply Hd; [|by vm_compute|by vm_compute]. apply (bool_decide_eq_true_1 (is_Some (imm_ RunExample.db3))). by vm_compute.
Defined.

(** ** A flush during a manual compaction *)

Module OverlapExample.
Definition base : nat → Z := RunExample.base.
Definition options : Options := RunExample.options.
Definition dio : DbIO (W := WritableFileImpl) := RunExample.dio.
Definition flush_io : CompactionIO (W := WritableFileImpl) :=
  MkCompactionIO CompactExample.io RunExample.mio (λ _, []) (λ _, Status_OK) [] 0 None (λ _, false) (λ _, MkFlushIO CompactExample.io RunExample.mio 0 []) (λ _, Some).

(** A write that is acknowledged, and the memtable is made immutable. *)
Definition write (k v : bytes) (db : DBImpl) : DBImpl :=
  let db := Enqueue (writer_of (MkRequest (Some [OpPut k v]) false)) db in
  let db := from_option snd db (CommitGroup BytewiseComparator base dio Status_OK db) in
  (MakeRoom base options dio true true db).2.
Definition background (io : CompactionIO (W := WritableFileImpl)) (db : DBImpl) : DBImpl :=
  from_option (λ r, r.1.1) db (BackgroundCall BytewiseComparator options io db).
Definition put (k v : bytes) (db : DBImpl) : DBImpl := background flush_io (write k v db).

(** [a] and [z] in levels 1 and 2. *)
Definition before : DBImpl :=
  put [x7a] [x32] (put [x7a] [x31] (put [x61] [x32] (put [x61] [x31] (fresh_db base FileState.NewFileState)))).
Definition a w : Write := MkWrite w kTypeValue [x61] [if w =? 1 then x31 else x32].
Definition z w : Write := MkWrite w kTypeValue [x7a] [if w =? 3 then x31 else x32].
Definition m : Write := MkWrite 5 kTypeValue [x6d] [x33].
(** During the compaction [m] is written; the loop flushes its memtable. *)
Definition io : CompactionIO (W := WritableFileImpl) :=
  MkCompactionIO CompactExample.io RunExample.mio (λ _, entry_of_write <$> [a 2; a 1; z 4; z 3]) (λ _, Status_OK) [] 0 None
    (Nat.eqb 0) (λ _, MkFlushIO CompactExample.io RunExample.mio 0 []) (λ k db, Some (if (k =? 0)%nat then write [x6d] [x33] db else db)).
Definition started : DBImpl := StartManual (manual_range 1 None None) before.
Definition after : DBImpl := background io started.
Definition files (db : DBImpl) (level : nat) : list (Z * bytes * bytes) :=
  (λ f, (VersionEdit.number f, file_start f, file_limit f)) <$> level_files (current (versions_ db)) level.
Definition contents (f : FileMetaData) : list Write :=
  if VersionEdit.number f =? 4 then [a 1] else if VersionEdit.number f =? 6 then [a 2] else if VersionEdit.number f =? 8 then [z 3]
  else if VersionEdit.number f =? 10 then [z 4] else if VersionEdit.number f =? 12 then [m] else if VersionEdit.number f =? 13 then [a 2; z 4] else [].
Definition get (db : DBImpl) (k : bytes) : option (Status * bytes) :=
  fst <$> Get BytewiseComparator (scan_get BytewiseComparator contents) db None k [].
(** The compaction, and the state in which [m] was written. *)
Definition c : Compaction := (RunExample.chosen_at started).1.
Definition during : DBImpl := write [x6d] [x33] (with_input started (RunExample.chosen_at started).2).
End OverlapExample.

(** A flush during a manual compaction can hide a write.  [DoCompactionWork] flushes an
    immutable memtable between two entries, and [PickLevelForMemTableOutput] looks for
    overlaps with the files of the current version only, not with the outputs of the
    compaction that is running.  A manual compaction of level 1 whose inputs hold [a]
    and [z] writes one file from [a] to [z]; when [m] is written and flushed meanwhile,
    its file goes to level 2 as well.  No error is recorded, but the files of level 2
    overlap then, and a read of [m], which was answered before the compaction ended,
    reports that the key is not found.  (A build with assertions stops in [MaybeAddFile]
    or [SaveTo] instead.)  This is the case that [step] leaves out: the memtable lies in
    a gap of the inputs. *)
Lemma manual_compaction_hides_write :
  OverlapExample.files OverlapExample.before 1 = [(6, [x61], [x61]); (10, [x7a], [x7a])] ∧
  OverlapExample.files OverlapExample.before 2 = [(4, [x61], [x61]); (8, [x7a], [x7a])] ∧
  (∃ imm, imm_ OverlapExample.during = Some imm ∧ in_gap BytewiseComparator OverlapExample.c imm) ∧
  OverlapExample.get OverlapExample.during [x6d] = Some (Status_OK, [x33]) ∧
  bg_error_ OverlapExample.after = Status_OK ∧
  OverlapExample.files OverlapExample.after 2 = [(13, [x61], [x7a]); (12, [x6d], [x6d])] ∧
  OverlapExample.get OverlapExample.after [x6d] = Some (NotFound [] [], []).
Proof.
  split_and!; [by vm_compute|by vm_compute| |by vm_compute..].
  exists (default (NewMemTable OverlapExample.base) (imm_ OverlapExample.during)). split; [by vm_compute|].
  assert (map (λ f, (file_start f, file_limit f)) (inputs_0 OverlapExample.c) = [([x61], [x61]); ([x7a], [x7a])]) as E by (by vm_compute).
  unfold in_gap. destruct (inputs_0 OverlapExample.c) as [|f [|g [|]]]; try discriminate E. injection E as E1 E2 E3 E4.
  exists [OverlapExample.m], OverlapExample.m, OverlapExample.m, f, g. rewrite E2, E3.
  split; [repeat constructor; by vm_compute|]. split; [by vm_compute|]. split; [done|]. split; [done|]. split; [left|]. split; [right; left|]. split; by vm_compute.
Qed.
