(* ===== verification/DbScan.v ===== *)
(** * Iterators over the database (src/db/db_impl.cc, src/db/version_set.cc, src/db/memtable.cc)

    [NewIterator] merges the iterators of the memtables, of the tables of level 0 and
    of each other level, and shows the result as a snapshot (DbIter.v).  Tables are
    iterated through the table cache, an interface here ([TableIterates]); TableRead.v
    shows that the iterator of a table fulfils it. *)

From stdpp Require Import gmap sorting relations.
From Stdlib Require Import String.
From S2P Require Import Prelude Coding Status Env Comparator Block Iterators Merger TwoLevel Log DbFormat Arena Random SkipList MemTable DbIter WriteBatch VersionEdit Version VersionBuilder Compaction DbCompaction VersionSet DbImpl DbHistory DbFlush DbRefinement DbSteps DbBackground DbPlan DbRuns Database.
Import Coding.

Section Scan.
  Context (C : Comparator).

(** ** Memtables *)

(** [MemTableIterator]; the node is that of the skip list. *)
Record MemTableIterator := MkMemIterator { mt_table : MemTable; mt_iter : Iterator }.

Definition MemTableNewIterator (m : MemTable) : MemTableIterator := MkMemIterator m None.

Definition mem_move (it : MemTableIterator) (node : option Iterator) : option MemTableIterator := MkMemIterator (mt_table it) <$> node.

#[local] Instance MemTable_ops : IteratorOps MemTableIterator := {|
  iValid it := IterValid (mt_iter it);
  iKey it := MemIterKey (mt_table it) (mt_iter it);
  iValue it := MemIterValue (mt_table it) (mt_iter it);
  iStatus _ := Status_OK;
  iSeekToFirst it := mem_move it (MemIterSeekToFirst (mt_table it));
  iSeekToLast it := mem_move it (MemIterSeekToLast (mt_table it));
  iSeek it k := mem_move it (MemIterSeek C (mt_table it) k);
  iNext it := guarded (IterValid (mt_iter it)) (mem_move it (MemIterNext (mt_table it) (mt_iter it)));
  iPrev it := guarded (IterValid (mt_iter it)) (mem_move it (MemIterPrev C (mt_table it) (mt_iter it)));
|}.

(** ** The files of a level *)

Record LevelFileNumIterator := MkLevelFileNum { flist_ : list FileMetaData; index_ : Z; lf_level : nat }.

Definition NewLevelFileNumIterator (flist : list FileMetaData) (level : nat) : LevelFileNumIterator :=
  MkLevelFileNum flist (u32 (size flist)) level.

Definition lf_Valid (it : LevelFileNumIterator) : bool := index_ it <? size (flist_ it).

Definition lf_move (it : LevelFileNumIterator) (index : Z) : LevelFileNumIterator := MkLevelFileNum (flist_ it) index (lf_level it).

(** [value_buf_]. *)
Definition file_value (f : FileMetaData) (level : nat) : bytes :=
  EncodeFixed64 (number f) ++ EncodeFixed64 (file_size f) ++ EncodeFixed64 (Z.of_nat level).

#[local] Instance LevelFileNum_ops : IteratorOps LevelFileNumIterator := {|
  iValid := lf_Valid;
  iKey it := guarded (lf_Valid it) (largest <$> nth_z (flist_ it) (index_ it));
  iValue it := guarded (lf_Valid it) (f ← nth_z (flist_ it) (index_ it); Some (file_value f (lf_level it)));
  iStatus _ := Status_OK;
  iSeekToFirst it := Some (lf_move it 0);
  iSeekToLast it := Some (lf_move it (if decide (flist_ it = []) then 0 else u32 (size (flist_ it) - 1)));
  iSeek it target := lf_move it <$> FindFile C (flist_ it) target;
  iNext it := guarded (lf_Valid it) (Some (lf_move it (u32 (index_ it + 1))));
  iPrev it := guarded (lf_Valid it) (Some (lf_move it (if index_ it =? 0 then u32 (size (flist_ it)) else index_ it - 1)));
|}.

(** ** Tables *)

(** [TableCache::NewIterator] for a file number, a size and a level. *)
Context {J : Type} {JO : IteratorOps J} (table_iterator : Z → Z → Z → J).

Definition value64_at (v : bytes) (i : Z) : Z := default 0 (DecodeFixed64 (drop_z i v)).

Definition GetFileIterator (v : bytes) : Empty + J :=
  if negb (size v =? 24) then inl (NewErrorIterator (Corruption (bs "FileReader invoked with unexpected value") []))
  else inr (table_iterator (value64_at v 0) (value64_at v 8) (value64_at v 16)).

Abbreviation LevelIterator := (TwoLevelIterator LevelFileNumIterator (Empty + J)).
Abbreviation ChildIterator := (MemTableIterator + (J + LevelIterator))%type.
Abbreviation InternalIterator := (Empty + (ChildIterator + MergingIterator ChildIterator))%type.

Definition Level_ops (fuel : nat) : IteratorOps LevelIterator := TwoLevel_ops (λ v, Some (GetFileIterator v)) fuel.

#[local] Instance Child_ops (fuel : nat) : IteratorOps ChildIterator := @sum_ops _ _ MemTable_ops (@sum_ops _ _ JO (Level_ops fuel)).

Definition NewConcatenatingIterator (v : Version) (level : nat) : option LevelIterator :=
  NewTwoLevelIterator (NewLevelFileNumIterator (level_files v level) level).

(** The loop of [AddIterators] over the levels above 0. *)
Fixpoint add_levels (v : Version) (levels : list nat) : option (list ChildIterator) :=
  match levels with
  | [] => Some []
  | level :: levels =>
      rest ← add_levels v levels;
      if decide (level_files v level = []) then Some rest
      else it ← NewConcatenatingIterator v level; Some (inr (inr it) :: rest)
  end.

Definition AddIterators (v : Version) (iters : list ChildIterator) : option (list ChildIterator) :=
  let level0 := (λ f, inr (inl (table_iterator (number f) (file_size f) 0))) <$> level_files v 0 in
  levels ← add_levels v (seq 1 (num_levels - 1));
  Some (iters ++ level0 ++ levels).

(** ** The database *)

Context {W : WritableFile}.

(** [NewInternalIterator]: the iterator, the last sequence number, the new [seed_] and
    the database with the references the iterator holds. *)
Definition NewInternalIterator (fuel : nat) (seed : Z) (db : DBImpl (W := W)) : option (InternalIterator * Z * Z * DBImpl (W := W)) :=
  let vs := versions_ db in
  let list := inl (MemTableNewIterator (mem_ db)) :: match imm_ db with Some imm => [inl (MemTableNewIterator imm)] | None => [] end in
  let db := with_mem db (Ref (mem_ db)) (Ref <$> imm_ db) in
  list ← AddIterators (current vs) list;
  internal_iter ← @NewMergingIterator _ (Child_ops fuel) list;
  let db := with_version_set db (RefVersion (current_id vs) vs) in
  Some (internal_iter, vs_last_sequence vs, u32 (seed + 1), db).

(** [CleanupIteratorState] on the objects the iterator refers to; [None] for a
    memtable that is deleted. *)
Definition CleanupIteratorState (mem : MemTable) (imm : option MemTable) (version : nat) (vs : VersionSet (W := W))
    : option MemTable * option MemTable * VersionSet (W := W) :=
  (Unref mem, imm ≫= Unref, UnrefVersion version vs).

(** Samples of reads go to the database. *)
#[local] Instance DB_sampler : Sampler (DBImpl (W := W)) := {| sample := RecordReadSample C |}.

Definition Internal_ops (fuel : nat) : IteratorOps InternalIterator := @Merged_ops _ (Child_ops fuel) (InternalKeyComparator C).

Definition NewIterator (fuel : nat) (seed : Z) (snapshot : option Z) (db : DBImpl (W := W))
    : option (DBImpl (W := W) * DBIter InternalIterator * Z) :=
  '(iter, latest_snapshot, seed, db) ← NewInternalIterator fuel seed db;
  Some (db, NewDBIterator iter (default latest_snapshot snapshot) seed, seed).

(** The operations of the iterator, with the bound [scan] of a move. *)
Definition Iterator_ops (fuel scan : nat) : IteratorOps (DBImpl (W := W) * DBIter InternalIterator) :=
  @DbIter_ops _ _ DB_sampler (Internal_ops fuel) C scan.

End Scan.

(** ** What the child iterators show *)

Section Children.
  Context (C : Comparator) {L : ComparatorLaws C} (B : Z) (HB : B <= 2 ^ 32).

Abbreviation icmp := (InternalKeyComparator C).
Abbreviation entries ws := (entry_kv <$> ws).

(** *** Memtables *)

Lemma EntrySlice_EncodeKey k : size k < 2 ^ 32 → EntrySlice (EncodeKey k) = k.
Proof.
  intros Hk. unfold EncodeKey, PutVarint32. cbn [app]. rewrite <-(app_nil_r k) at 2. apply EntrySlice_Encode. pose proof (size_nonneg k). range_lia.
Qed.

Section Mem.
  Context (m : MemTable) (ws : list Write) (node : nat → Iterator) (Hok : Forall write_ok ws).
  Context (Hit : iterates (compare_ := KeyComparator C) (table_ m) (entry_of <$> ws) node).

Definition mem_at (it : MemTableIterator) (c : option nat) : Prop :=
  mt_table it = m ∧ match c with Some i => (i < length ws)%nat ∧ mt_iter it = node i | None => mt_iter it = None end.

Lemma node_None i : (length ws <= i)%nat → node i = None.
Proof using Hit.
  intros Hi. pose proof (it_valid _ _ _ Hit i) as H. rewrite length_fmap, bool_decide_eq_false_2 in H by lia. by destruct (node i).
Qed.

Lemma mem_at_cursor i : mem_at (MkMemIterator m (node i)) (cursor (entries ws) i).
Proof using Hit.
  split; [done|]. destruct (Nat.lt_ge_cases i (length ws)) as [Hi|Hi].
  - rewrite cursor_Some by (by rewrite length_fmap). done.
  - rewrite cursor_None by (by rewrite length_fmap). cbn. by apply node_None.
Qed.

Lemma mem_entry i : (i < length ws)%nat → ∃ w, ws !! i = Some w ∧ write_ok w ∧ IterKey (table_ m) (node i) = Some (entry_of w) ∧ IterValid (node i) = true.
Proof using Hok Hit.
  intros Hi. apply lookup_lt_is_Some_2 in Hi as [w Hw]. exists w. split_and!; [done|by eapply Forall_lookup_1| |].
  - rewrite (it_key _ _ _ Hit), list_lookup_fmap, Hw. done.
  - rewrite (it_valid _ _ _ Hit), bool_decide_eq_true_2; [done|]. rewrite length_fmap. by eapply lookup_lt_Some.
Qed.

Lemma mem_cursor : @cursor_over _ (MemTable_ops C) B icmp (entries ws) mem_at.
Proof using HB Hok Hit.
  split; cbn [MemTable_ops iValid iKey iValue iStatus iSeekToFirst iSeekToLast iSeek iNext iPrev].
  - intros it [i|] [_ Hc]; [|by rewrite Hc]. destruct Hc as [Hi ->]. destruct (mem_entry i Hi) as (w & _ & _ & _ & ->). by rewrite bool_decide_eq_true_2.
  - done.
  - intros it i (E & Hi & ->). rewrite E. destruct (mem_entry i Hi) as (w & Hw & Hwok & Ek & _). exists (entry_kv w). rewrite list_lookup_fmap, Hw. split; [done|].
    unfold MemIterKey, MemIterValue. rewrite Ek. cbn [mbind option_bind]. rewrite EntrySlice_entry by done. rewrite entry_split by done. cbn [mbind option_bind].
    split; [done|]. f_equal. by apply entry_value.
  - intros it c [E _]. rewrite E. unfold MemIterSeekToFirst. rewrite (it_first _ _ _ Hit). eexists. split; [done|]. unfold mem_move. cbn. rewrite E. apply mem_at_cursor.
  - intros it c [E _]. rewrite E. unfold MemIterSeekToLast. rewrite (it_last _ _ _ Hit), length_fmap. eexists. split; [done|]. unfold mem_move. cbn. rewrite E.
    rewrite length_fmap. destruct (length ws) as [|n] eqn:El; cbn [last_pos pred]; [split; [done|apply node_None; lia]|]. split; [done|]. split; [lia|done].
  - intros it i (E & Hi & En). rewrite E, En. destruct (mem_entry i Hi) as (w & _ & _ & _ & ->). unfold MemIterNext. rewrite (it_next _ _ _ Hit) by (by rewrite length_fmap).
    eexists. split; [done|]. unfold mem_move. cbn. rewrite E. apply mem_at_cursor.
  - intros it i (E & Hi & En). rewrite E, En. destruct (mem_entry i Hi) as (w & _ & _ & _ & ->). unfold MemIterPrev. rewrite (it_prev _ _ _ Hit) by (by rewrite length_fmap).
    eexists. split; [done|]. unfold mem_move. cbn. rewrite E. destruct i as [|i]; cbn [last_pos]; split; try done. split; [lia|done].
  - intros it c t Ht [E _]. rewrite E. unfold MemIterSeek. destruct (it_seek _ _ _ Hit (EncodeKey t)) as (n & (Hn & Hlt & Hge) & ->).
    exists (MkMemIterator m (node n)), n. unfold mem_move. cbn. rewrite E. split; [done|]. split; [|apply mem_at_cursor]. rewrite length_fmap in Hn.
    assert (∀ i w, ws !! i = Some w → KeyComparator C (entry_of w) (EncodeKey t) = InternalKeyCompare C (ikey_of w) t) as Hcmp.
    { intros i w Hw. unfold KeyComparator. rewrite EntrySlice_EncodeKey by lia. by rewrite EntrySlice_entry by (by eapply Forall_lookup_1). }
    split; [by rewrite length_fmap|]. split; intros i kv Hi; rewrite list_lookup_fmap in Hi; destruct (ws !! i) as [w|] eqn:Hw; try done; injection Hi as <-;
      cbn [entry_kv fst]; change (@Compare icmp ?a ?b) with (InternalKeyCompare C a b); rewrite <-(Hcmp i w Hw).
    + apply Hlt. by rewrite list_lookup_fmap, Hw.
    + apply Hge. by rewrite list_lookup_fmap, Hw.
Qed.

End Mem.

(** A filled memtable shows its writes in order. *)
Lemma mem_reads m ws : filled C m ws → Forall write_ok ws → ∃ sorted, sorted ≡ₚ ws ∧ Block.keys_sorted (C := icmp) (entries sorted) ∧
  @reads _ (MemTable_ops C) B icmp (entries sorted) (MemTableNewIterator m) None.
Proof using L HB.
  intros Hf Hok. destruct (filled_contains C m ws Hf) as (sorted & node & Hp & Hs & Hit). rewrite <-Hp in Hok. exists sorted. split; [done|]. split.
  - intros i j kv kv' Hij Hi Hj. rewrite list_lookup_fmap in Hi, Hj. destruct (sorted !! i) as [w|] eqn:Hw; [|done]. destruct (sorted !! j) as [w'|] eqn:Hw'; [|done].
    injection Hi as <-. injection Hj as <-. cbn. pose proof (Hs i j (entry_of w) (entry_of w') Hij) as Hlt. rewrite !list_lookup_fmap, Hw, Hw' in Hlt.
    specialize (Hlt eq_refl eq_refl). unfold KeyComparator in Hlt. rewrite !EntrySlice_entry in Hlt by (by eapply Forall_lookup_1). done.
  - exists (mem_at m sorted node). split; [by apply mem_cursor|]. done.
Qed.

(** *** The files of a level *)

Definition level_index (files : list FileMetaData) (level : nat) : list (bytes * bytes) := (λ f, (largest f, file_value f level)) <$> files.

Section Level.
  Context (files : list FileMetaData) (level : nat) (Hn : size files < 2 ^ 31) (Hs : largest_sorted C files).

Definition lf_at (it : LevelFileNumIterator) (c : option nat) : Prop :=
  flist_ it = files ∧ lf_level it = level ∧ match c with Some i => (i < length files)%nat ∧ index_ it = Z.of_nat i | None => index_ it = size files end.

Lemma lf_at_cursor it i : flist_ it = files → lf_level it = level → (i <= length files)%nat →
  lf_at (lf_move it (Z.of_nat i)) (cursor (level_index files level) i).
Proof.
  intros E1 E2 Hi. split; [done|]. split; [done|]. unfold level_index. destruct (decide (i < length files)%nat).
  - rewrite cursor_Some by (by rewrite length_fmap). done.
  - rewrite cursor_None by (rewrite length_fmap; lia). cbn. unfold size. lia.
Qed.

Lemma lf_cursor : @cursor_over _ (LevelFileNum_ops C) B icmp (level_index files level) lf_at.
Proof using L Hn Hs.
  assert (∀ it i, lf_at it (Some i) → ∃ f, files !! i = Some f ∧ lf_Valid it = true ∧ nth_z (flist_ it) (index_ it) = Some f) as Hat.
  { intros it i (E1 & E2 & Hi & E3). pose proof Hi as [f Hf]%lookup_lt_is_Some_2. exists f. split; [done|]. unfold lf_Valid. rewrite E1, E3. split.
    - apply Z.ltb_lt. unfold size. lia.
    - unfold nth_z. destruct (Z.ltb_spec (Z.of_nat i) 0); [lia|]. by rewrite Nat2Z.id. }
  split; cbn [LevelFileNum_ops iValid iKey iValue iStatus iSeekToFirst iSeekToLast iSeek iNext iPrev].
  - intros it [i|] Hc; [by destruct (Hat it i Hc) as (f & _ & -> & _)|]. destruct Hc as (E1 & _ & E3). unfold lf_Valid. rewrite E1, E3, Z.ltb_irrefl. done.
  - done.
  - intros it i Hc. destruct (Hat it i Hc) as (f & Hf & -> & ->). exists (largest f, file_value f level). unfold level_index. rewrite list_lookup_fmap, Hf.
    destruct Hc as (_ & -> & _). done.
  - intros it c (E1 & E2 & _). eexists. split; [done|]. apply (lf_at_cursor it 0 E1 E2). lia.
  - intros it c (E1 & E2 & _). eexists. split; [done|]. rewrite E1. unfold level_index. rewrite length_fmap. destruct (decide (files = [])) as [Ee|Hne].
    + rewrite Ee. cbn [length last_pos]. split; [done|]. split; [done|]. by rewrite Ee.
    + assert (0 < length files)%nat as Hpos by (destruct (length files) eqn:El; [by apply nil_length_inv in El|lia]).
      destruct (length files) as [|n] eqn:El; [lia|]. cbn [last_pos]. split; [done|]. split; [done|]. cbn [lf_move index_]. unfold size in *. rewrite El in *. rewrite u32_small by range_lia. lia.
  - intros it i Hc. destruct (Hat it i Hc) as (f & Hf & -> & _). eexists. split; [done|]. destruct Hc as (E1 & E2 & Hi & ->). unfold size in Hn.
    rewrite u32_small by range_lia. replace (Z.of_nat i + 1) with (Z.of_nat (S i)) by lia. apply lf_at_cursor; [done..|lia].
  - intros it i Hc. destruct (Hat it i Hc) as (f & Hf & -> & _). eexists. split; [done|]. destruct Hc as (E1 & E2 & Hi & E3). rewrite E3. split; [done|]. split; [done|].
    destruct i as [|i]; cbn [last_pos].
    + cbn. rewrite E1, u32_small; [done|]. pose proof (size_nonneg files). range_lia.
    + destruct (Z.eqb_spec (Z.of_nat (S i)) 0); [lia|]. cbn [lf_move index_]. split; lia.
  - intros it c t _ (E1 & E2 & _). rewrite E1. destruct (FindFile_spec C files t Hs Hn) as (i & -> & Hi & Hlt & Hge). exists (lf_move it (Z.of_nat i)), i.
    split; [done|]. split; [|by apply lf_at_cursor]. unfold level_index. split; [by rewrite length_fmap|].
    split; intros j kv Hj Hji; rewrite list_lookup_fmap in Hj; destruct (files !! j) as [f|] eqn:Hf; try done; injection Hj as <-; cbn; by eauto.
Qed.

Lemma lf_reads : @reads _ (LevelFileNum_ops C) B icmp (level_index files level) (NewLevelFileNumIterator files level) None.
Proof using L Hn Hs.
  exists lf_at. split; [apply lf_cursor|]. split; [done|]. split; [done|]. cbn. pose proof (size_nonneg files). rewrite u32_small; [done|range_lia].
Qed.

End Level.

(** *** Tables *)

Context {J : Type} {JO : IteratorOps J} (table_iterator : Z → Z → Z → J) (contents : FileMetaData → list Write).

(** What the table cache promises for the iterator of a file: it shows the writes of
    the file in order. *)
Class TableIterates (f : FileMetaData) : Prop := {
  ti_number : is_u64 (number f);
  ti_size : is_u64 (file_size f);
  ti_sorted : Block.keys_sorted (C := icmp) (entries (contents f));
  ti_reads (level : nat) : ∃ c, reads B icmp (entries (contents f)) (table_iterator (number f) (file_size f) (Z.of_nat level)) c;
}.

Lemma file_value_fields f level : is_u64 (number f) → is_u64 (file_size f) → (level < num_levels)%nat →
  size (file_value f level) = 24 ∧ value64_at (file_value f level) 0 = number f ∧ value64_at (file_value f level) 8 = file_size f ∧
  value64_at (file_value f level) 16 = Z.of_nat level.
Proof.
  intros Hn Hs Hl. unfold file_value, value64_at. assert (is_u64 (Z.of_nat level)) as Hlv by (change num_levels with 7%nat in Hl; range_lia).
  split_and!.
  - rewrite !size_app, !size_EncodeFixed64. done.
  - change (drop_z 0 ?l) with l. by rewrite DecodeFixed64_Encode.
  - rewrite drop_z_app by (by rewrite size_EncodeFixed64). by rewrite DecodeFixed64_Encode.
  - rewrite app_assoc, drop_z_app by (rewrite size_app, !size_EncodeFixed64; done). rewrite <-(app_nil_r (EncodeFixed64 (Z.of_nat level))). by rewrite DecodeFixed64_Encode.
Qed.

Section Concat.
  Context (files : list FileMetaData) (level : nat) (Hlevel : (level < num_levels)%nat) (Hn : size files < 2 ^ 31).
  Context (Hsort : level_sorted C files) (Ht : Forall TableIterates files) (Hb : Forall (bounded C contents) files).
  Context (Hu : ∀ f g, f ∈ files → g ∈ files → number f = number g → f = g).

(** The writes of the file that an index value names. *)
Definition value_entries (v : bytes) : list (bytes * bytes) :=
  match list_find (λ f, file_value f level = v) files with Some (_, f) => entries (contents f) | None => [] end.

Lemma value_entries_file f : f ∈ files → value_entries (file_value f level) = entries (contents f).
Proof using Hlevel Ht Hu.
  intros Hf. unfold value_entries. destruct (list_find _ files) as [[i g]|] eqn:E.
  - apply list_find_Some in E as (Hg & Ev & _). apply list_elem_of_lookup_2 in Hg. rewrite Forall_forall in Ht.
    destruct (file_value_fields f level) as (_ & Ef & _); [apply Ht, Hf|apply Ht, Hf|done|].
    destruct (file_value_fields g level) as (_ & Eg & _); [apply Ht, Hg|apply Ht, Hg|done|]. rewrite Ev in Eg. rewrite (Hu g f) by (done || congruence). done.
  - exfalso. apply list_find_None in E. rewrite Forall_forall in E. by apply (E f Hf).
Qed.

Lemma level_blocks : blocks_of (level_index files level) value_entries = (λ f, entries (contents f)) <$> files.
Proof using Hlevel Ht Hu.
  unfold blocks_of, level_index. rewrite <-list_fmap_compose. apply list_fmap_ext. intros i f Hf. cbn. apply value_entries_file. by eapply list_elem_of_lookup_2.
Qed.

Lemma level_separates : separates icmp (level_index files level) (blocks_of (level_index files level) value_entries).
Proof using L Hlevel Hsort Ht Hb Hu.
  rewrite level_blocks. intros i sep h block Hi Hbl. unfold level_index in Hi. apply list_lookup_fmap_Some_1 in Hi as (f & [= -> ->] & Hf).
  apply list_lookup_fmap_Some_1 in Hbl as (f' & -> & Hf'). simplify_eq. rewrite Forall_lookup in Hb. split.
  - intros kv (w & -> & Hw)%list_elem_of_fmap. apply (proj1 (Hb i f Hf) w Hw).
  - intros j block' kv Hij Hj Hkv. apply list_lookup_fmap_Some_1 in Hj as (g & -> & Hg).
    apply list_elem_of_fmap in Hkv as (w & -> & Hw). pose proof (lv_disjoint _ _ Hsort i j f g Hij Hf Hg) as Hlt.
    apply (Compare_lt_le_trans (C := icmp) _ (smallest g)); [exact Hlt|]. apply (proj1 (Hb j g Hg) w Hw).
Qed.

Lemma level_iterates fuel : (length files <= fuel)%nat → ∃ t, @NewTwoLevelIterator _ (Empty + J) (LevelFileNum_ops C) (NewLevelFileNumIterator files level) = Some t ∧
  @reads _ (Level_ops C table_iterator fuel) B icmp (entries (concat (contents <$> files))) t None.
Proof using L Hlevel Hn Hsort Ht Hb Hu.
  intros Hfuel. assert (entries (concat (contents <$> files)) = concat (blocks_of (level_index files level) value_entries)) as ->.
  { rewrite level_blocks. clear. induction files as [|f fs IH]; [done|]. cbn. rewrite fmap_app. f_equal. exact IH. }
  apply (two_level_reads (H := LevelFileNum_ops C) B icmp (λ v, Some (GetFileIterator table_iterator v)) (level_index files level) value_entries) with (c := None).
  - intros sep h (f & [= -> ->] & Hf)%list_elem_of_fmap. pose proof (proj1 (Forall_forall _ _) Ht f Hf) as [T1 T2 T3 T4].
    destruct (file_value_fields f level T1 T2 Hlevel) as (E1 & E2 & E3 & E4). destruct (T4 level) as [c Hc]. eexists _, c. split; [done|].
    unfold GetFileIterator. rewrite E1, E2, E3, E4. cbn [Z.eqb Pos.eqb negb]. rewrite value_entries_file by done. by apply reads_inr.
  - apply level_separates.
  - unfold level_index. by rewrite length_fmap.
  - apply lf_reads; [done|]. by apply level_largest_sorted.
Qed.

End Concat.

End Children.

(** ** The merged entries *)

Section Merged.
  Context (C : Comparator) {L : ComparatorLaws C}.

Abbreviation icmp := (InternalKeyComparator C).
Abbreviation entries ws := (entry_kv <$> ws).

Lemma writes_NoDup (ws : list Write) : Block.keys_sorted (C := icmp) (entries ws) → NoDup ws.
Proof using L.
  intros Hs. apply NoDup_alt. intros i j w Hi Hj. destruct (Nat.lt_trichotomy i j) as [H|[H|H]]; [exfalso|done|exfalso].
  - pose proof (Hs i j (entry_kv w) (entry_kv w) H) as Hlt. rewrite !list_lookup_fmap, Hi, Hj in Hlt. specialize (Hlt eq_refl eq_refl). rewrite Compare_refl in Hlt. lia.
  - pose proof (Hs j i (entry_kv w) (entry_kv w) H) as Hlt. rewrite !list_lookup_fmap, Hi, Hj in Hlt. specialize (Hlt eq_refl eq_refl). rewrite Compare_refl in Hlt. lia.
Qed.

Lemma NoDup_concat {A} (ls : list (list A)) : Forall NoDup ls →
  (∀ i j l l' x, (i < j)%nat → ls !! i = Some l → ls !! j = Some l' → x ∈ l → x ∉ l') → NoDup (concat ls).
Proof.
  induction ls as [|l ls IH]; intros Hn Hd; [constructor|]. apply Forall_cons in Hn as [Hl Hn]. cbn. apply NoDup_app. split_and!; [done| |].
  - intros x Hx (l' & Hx' & [j Hj]%list_elem_of_lookup_1)%elem_of_concat. by eapply (Hd 0%nat (S j)); [lia| | | |].
  - apply IH; [done|]. intros i j l1 l2 x Hij Hi Hj. apply (Hd (S i) (S j)); [lia|done|done].
Qed.

Lemma newer_disjoint ws1 ws2 w : newer C ws1 ws2 → w ∈ ws1 → w ∉ ws2.
Proof using L. intros Hn H1 H2. pose proof (Hn w w H1 H2 (Compare_refl _)). lia. Qed.

(** Writes that differ in key or tag can be put in order. *)
Lemma sort_exists ws : NoDup ws → distinct C ws → ∃ m, m ≡ₚ ws ∧ Block.keys_sorted (C := icmp) (entries m).
Proof using L.
  intros Hn Hd. set (R := λ w1 w2, InternalKeyCompare C (ikey_of w1) (ikey_of w2) <= 0).
  assert (∀ w1 w2, Decision (R w1 w2)) as HR by (intros; unfold R; apply _).
  assert (Transitive R) by (intros w1 w2 w3; unfold R; apply icmp_trans; apply _).
  assert (Total R) by (intros w1 w2; unfold R; pose proof (icmp_antisym C (ikey_of w1) (ikey_of w2)); lia).
  pose proof (StronglySorted_merge_sort R ws) as Hs. pose proof (merge_sort_Permutation R ws) as Hp. set (m := merge_sort R ws) in *.
  exists m. split; [done|]. assert (NoDup m) as Hnm by (by rewrite Hp). assert (distinct C m) as Hdm by (intros w1 w2; rewrite !Hp; apply Hd).
  clearbody m. clear Hn Hd Hp ws. intros i j kv kv' Hij Hi Hj.
  apply list_lookup_fmap_Some_1 in Hi as (w1 & -> & H1). apply list_lookup_fmap_Some_1 in Hj as (w2 & -> & H2). cbn [entry_kv fst].
  assert (R w1 w2) as Hle by (by eapply (sorted_at R m i j)). change (InternalKeyCompare C (ikey_of w1) (ikey_of w2) < 0).
  apply ikey_of_lt. apply (ikey_of_le C) in Hle as [?|[E Ht]]; [by left|right]. split; [done|].
  destruct (decide (ExtractTag (ikey_of w2) = ExtractTag (ikey_of w1))) as [Et|]; [|lia]. exfalso.
  assert (w1 = w2) as -> by (apply Hdm; [by eapply list_elem_of_lookup_2|by eapply list_elem_of_lookup_2|done|done]).
  pose proof (proj1 (NoDup_alt m) Hnm i j w2 H1 H2). lia.
Qed.

Lemma keys_sorted_app (D : Comparator) l1 l2 : Block.keys_sorted (C := D) l1 → Block.keys_sorted (C := D) l2 →
  (∀ kv kv', kv ∈ l1 → kv' ∈ l2 → @Compare D kv.1 kv'.1 < 0) → Block.keys_sorted (C := D) (l1 ++ l2).
Proof.
  intros H1 H2 H i j kv kv' Hij Hi Hj. apply lookup_app_Some in Hi as [Hi|[Hli Hi]], Hj as [Hj|[Hlj Hj]].
  - by eapply H1.
  - eapply H; by eapply list_elem_of_lookup_2.
  - apply lookup_lt_Some in Hj. lia.
  - eapply (H2 (i - length l1)%nat (j - length l1)%nat); [lia|done|done].
Qed.

(** *** The files of a version *)

  Context (cache_get : FileMetaData → nat → bytes → Status * option (bytes * bytes)) (contents : FileMetaData → list Write).

Lemma files_NoDup files : Forall (λ f, Block.keys_sorted (C := icmp) (entries (contents f))) files →
  (∀ i j f g, (i < j)%nat → files !! i = Some f → files !! j = Some g → newer C (contents f) (contents g) ∨ newer C (contents g) (contents f)) →
  NoDup (writes_of contents files).
Proof using L.
  intros Hs Hn. apply NoDup_concat.
  - apply Forall_fmap. eapply Forall_impl; [exact Hs|]. intros f. apply writes_NoDup.
  - intros i j l l' w Hij Hi Hj. apply list_lookup_fmap_Some_1 in Hi as (f & -> & Hf). apply list_lookup_fmap_Some_1 in Hj as (g & -> & Hg).
    intros H1 H2. destruct (Hn i j f g Hij Hf Hg) as [H|H]; [by eapply newer_disjoint|by eapply (newer_disjoint _ _ _ H)].
Qed.

Lemma version_NoDup v : version_ok C cache_get contents v → (∀ level f, f ∈ level_files v level → Block.keys_sorted (C := icmp) (entries (contents f))) →
  NoDup (version_writes contents v).
Proof using L.
  intros Hv Ht. unfold version_writes. apply NoDup_concat.
  - apply Forall_fmap, Forall_fmap, Forall_forall. intros level _. cbn. apply files_NoDup; [apply Forall_forall; by apply Ht|]. intros i j f g Hij Hf Hg.
    pose proof (list_elem_of_lookup_2 _ _ _ Hf) as Ef. pose proof (list_elem_of_lookup_2 _ _ _ Hg) as Eg. destruct level as [|level].
    + destruct (Z.lt_trichotomy (number f) (number g)) as [H|[H|H]]; [right; by apply Hv| |left; by apply Hv]. exfalso.
      pose proof (proj1 (NoDup_alt _) (vo_numbers _ _ _ _ Hv) i j (number f)) as E. rewrite !list_lookup_fmap, Hf, Hg in E. cbn in E. specialize (E eq_refl ltac:(congruence)). lia.
    + left. apply file_lt_newer; [apply _|by eapply Hv|by eapply Hv|]. by eapply (lv_disjoint _ _ (vo_sorted _ _ _ _ Hv (S level) ltac:(lia)) i j).
  - intros i j l l' w Hij Hi Hj. apply list_lookup_fmap_Some_1 in Hi as (fs & -> & Hi). apply list_lookup_fmap_Some_1 in Hj as (gs & -> & Hj).
    apply list_lookup_fmap_Some_1 in Hi as (a & -> & [-> _]%lookup_seq). apply list_lookup_fmap_Some_1 in Hj as (b & -> & [-> _]%lookup_seq).
    intros (f & Hf & Hw)%elem_writes_of (g & Hg & Hw')%elem_writes_of. by apply (newer_disjoint _ _ w (vo_newer _ _ _ _ Hv _ _ f g Hij Hf Hg)).
Qed.

(** The files of a level above 0 are one sorted run. *)
Lemma level_run files : level_sorted C files → Forall (bounded C contents) files →
  Forall (λ f, Block.keys_sorted (C := icmp) (entries (contents f))) files → Block.keys_sorted (C := icmp) (entries (writes_of contents files)).
Proof using L.
  intros [_ Hd]. induction files as [|f files IH]; intros Hb Hs; [by intros i j kv kv' _ H|]. apply Forall_cons in Hb as [[Hf _] Hb], Hs as [Hsf Hs].
  unfold writes_of. cbn. rewrite fmap_app. apply keys_sorted_app; [done|apply IH; [|done|done]; intros i j g g' Hij; by apply (Hd (S i) (S j)); lia|].
  intros kv kv' (w & -> & Hw)%list_elem_of_fmap (w' & -> & (g & [j Hg]%list_elem_of_lookup_1 & Hw')%elem_writes_of)%list_elem_of_fmap.
  rewrite Forall_lookup in Hb. destruct (Hb j g Hg) as [Hb' _]. destruct (Hf w Hw) as (_ & _ & H1), (Hb' w' Hw') as (_ & H2 & _). cbn [entry_kv fst].
  apply (icmp_lt_le_trans C _ (smallest g)); [|done]. apply (icmp_le_lt_trans C _ (largest f)); [done|]. by apply (Hd 0%nat (S j) f g); [lia| |].
Qed.

Lemma layered_NoDup {W : WritableFile} (db : DBImpl (W := W)) wm wi : layered C contents db wm wi → NoDup wm → NoDup wi →
  NoDup (version_holds contents (versions_ db)) → NoDup (wm ++ wi ++ version_holds contents (versions_ db)).
Proof using L.
  intros [_ _ Hm Hi] H1 H2 H3. apply NoDup_app. split_and!; [done|intros w; by apply newer_disjoint|]. apply NoDup_app. split_and!; [done|intros w; by apply newer_disjoint|done].
Qed.

End Merged.

(** ** The iterator over all entries *)

Section Whole.
  Context (C : Comparator) {L : ComparatorLaws C} {J : Type} {JO : IteratorOps J} (table_iterator : Z → Z → Z → J).
  Context (cache_get : FileMetaData → nat → bytes → Status * option (bytes * bytes)) (contents : FileMetaData → list Write).

Abbreviation icmp := (InternalKeyComparator C).
Abbreviation entries ws := (entry_kv <$> ws).
Abbreviation B := (2 ^ 32).

(** All tables of the version can be iterated. *)
Definition iterable (v : Version) : Prop := ∀ level f, f ∈ level_files v level → TableIterates C B table_iterator contents f.

(** Iterators over sorted lists. *)
Definition children (fuel : nat) (its : list (MemTableIterator + (J + TwoLevelIterator LevelFileNumIterator (Empty + J)))) (ls : list (list (bytes * bytes))) : Prop :=
  Forall2 (λ it l, (∃ c, @reads _ (Child_ops C table_iterator fuel) B icmp l it c) ∧ Block.keys_sorted (C := icmp) l) its ls.

Lemma children_app fuel its its' ls ls' : children fuel its ls → children fuel its' ls' → children fuel (its ++ its') (ls ++ ls').
Proof. apply Forall2_app. Qed.

  Context (v : Version) (Hv : version_ok C cache_get contents v) (Ht : iterable v).
  Context (fuel : nat) (Hfuel : ∀ level, (length (level_files v level) <= fuel)%nat).
  Context (Hu : ∀ level f g, f ∈ level_files v level → g ∈ level_files v level → number f = number g → f = g).

Lemma files_entries_sorted level : Forall (λ f, Block.keys_sorted (C := icmp) (entries (contents f))) (level_files v level).
Proof using Ht. apply Forall_forall. intros f Hf. by apply (Ht level f Hf). Qed.

Lemma files_bounded level : Forall (bounded C contents) (level_files v level).
Proof using Hv. apply Forall_forall. intros f Hf. by apply (vo_file _ _ _ _ Hv level f Hf). Qed.

Lemma level0_children : children fuel ((λ f, inr (inl (table_iterator (number f) (file_size f) 0))) <$> level_files v 0)
  ((λ f, entries (contents f)) <$> level_files v 0).
Proof using Ht.
  apply Forall2_fmap, Forall_Forall2_diag, Forall_forall. intros f Hf. destruct (Ht 0%nat f Hf) as [_ _ Hs Hr]. split; [|done].
  destruct (Hr 0%nat) as [c Hc]. exists c. apply (@reads_inr _ _ (MemTable_ops C) (@sum_ops _ _ JO (Level_ops C table_iterator fuel))). by apply (@reads_inl _ _ JO (Level_ops C table_iterator fuel)).
Qed.

Lemma add_levels_children levels : Forall (λ level, (0 < level < num_levels)%nat) levels →
  ∃ its ls, add_levels C v levels = Some its ∧ children fuel its ls ∧ concat ls = entries (concat (writes_of contents <$> (level_files v <$> levels))).
Proof using L Hv Ht Hfuel Hu.
  induction levels as [|level levels IH]; intros Hl; [by exists [], []; split_and!; [|constructor|]|].
  apply Forall_cons in Hl as [Hlevel Hl]. destruct (IH Hl) as (its & ls & E & Hc & El). cbn [add_levels]. rewrite E. cbn [mbind option_bind].
  cbn [fmap list_fmap concat]. rewrite fmap_app, <-El. destruct (decide (level_files v level = [])) as [En|En].
  - exists its, ls. split_and!; [done|done|]. by rewrite En.
  - destruct (level_iterates C B table_iterator contents (level_files v level) level) with (fuel := fuel) as (t & Et & Hr).
    + lia.
    + apply (vo_size _ _ _ _ Hv).
    + apply (vo_sorted _ _ _ _ Hv). lia.
    + apply Forall_forall. intros f Hf. by apply (Ht level f Hf).
    + apply files_bounded.
    + apply Hu.
    + apply Hfuel.
    + unfold NewConcatenatingIterator. rewrite Et. cbn [mbind option_bind]. eexists _, (_ :: ls). split_and!; [done| |done].
      constructor; [|done]. split; [|apply level_run; [apply _|apply (vo_sorted _ _ _ _ Hv); lia|apply files_bounded|apply files_entries_sorted]].
      exists None. apply (@reads_inr _ _ (MemTable_ops C) (@sum_ops _ _ JO (Level_ops C table_iterator fuel))). by apply (@reads_inr _ _ JO (Level_ops C table_iterator fuel)).
Qed.

Lemma AddIterators_children iters ls0 : children fuel iters ls0 → ∃ its ls, AddIterators C table_iterator v iters = Some its ∧
  children fuel its ls ∧ concat ls = concat ls0 ++ entries (version_writes contents v).
Proof using L Hv Ht Hfuel Hu.
  intros H0. destruct (add_levels_children (seq 1 (num_levels - 1))) as (its & ls & E & Hc & El).
  { apply Forall_seq. intros j Hj. lia. }
  unfold AddIterators. rewrite E. cbn [mbind option_bind]. eexists _, (ls0 ++ ((λ f, entries (contents f)) <$> level_files v 0) ++ ls). split; [done|]. split.
  - apply children_app; [done|]. apply children_app; [apply level0_children|done].
  - rewrite !concat_app, El. f_equal. unfold version_writes. change (seq 0 num_levels) with (0%nat :: seq 1 (num_levels - 1)). cbn [fmap list_fmap concat].
    rewrite fmap_app. f_equal. unfold writes_of. induction (level_files v 0) as [|f fs IH]; [done|]. cbn. rewrite fmap_app. f_equal. exact IH.
Qed.

End Whole.

(** ** The database *)

Section Database.
  Context (C : Comparator) {L : ComparatorLaws C} {W : WritableFile} {J : Type} {JO : IteratorOps J} (table_iterator : Z → Z → Z → J).
  Context (cache_get : FileMetaData → nat → bytes → Status * option (bytes * bytes)) (contents : FileMetaData → list Write).

Abbreviation icmp := (InternalKeyComparator C).
Abbreviation entries ws := (entry_kv <$> ws).
Abbreviation B := (2 ^ 32).

(** *** Samples *)

Lemma candidate_total v u k level : version_ok C cache_get contents v → (0 < level)%nat → ∃ fs, candidate C v u k level = Some fs.
Proof using L.
  intros Hv Hl. unfold candidate. destruct (size (level_files v level) =? 0); [by eexists|].
  destruct (FindFile_spec C (level_files v level) k) as (i & -> & Hi & _); [by apply level_largest_sorted, (vo_sorted _ _ _ _ Hv)|apply (vo_size _ _ _ _ Hv)|].
  cbn [mbind option_bind]. destruct (Z.ltb_spec (Z.of_nat i) (size (level_files v level))) as [Hlt|]; [|by eexists]. unfold nth_z.
  destruct (Z.ltb_spec (Z.of_nat i) 0); [lia|]. rewrite Nat2Z.id. unfold size in Hlt. destruct (lookup_lt_is_Some_2 (level_files v level) i ltac:(lia)) as [f ->]. by eexists.
Qed.

Lemma ForEach_total {S} (func : S → nat → FileMetaData → S * bool) v u k st : version_ok C cache_get contents v →
  ∃ st', ForEachOverlapping C func v u k st = Some st'.
Proof using L.
  intros Hv. unfold ForEachOverlapping. destruct (visit func st 0 _) as [st1 []]; [|by eexists].
  assert (Forall (λ level, (0 < level)%nat) (seq 1 (num_levels - 1))) as Hl by (apply Forall_seq; lia). revert st1.
  induction (seq 1 (num_levels - 1)) as [|level levels IH]; intros st1; cbn [visit_levels]; [by eexists|]. apply Forall_cons in Hl as [H0 Hl].
  destruct (candidate_total v u k level Hv H0) as [fs ->]. cbn [mbind option_bind]. destruct (visit func st1 level fs) as [st2 []]; [by apply IH|by eexists].
Qed.

(** Samples never fail and keep the files of the current version. *)
Lemma DB_sampler_laws : @SamplerLaws _ (DB_sampler C) (λ db : DBImpl (W := W), files_ok C cache_get contents (versions_ db)).
Proof using L.
  split. intros k db Hf. cbn. assert (∃ db', RecordReadSample C k db = Some db') as [db' E].
  { unfold RecordReadSample, Version.RecordReadSample. destruct (ParseInternalKey k) as [ik|]; [|by eexists].
    destruct (ForEach_total SampleMatch (current (versions_ db)) (user_key ik) k (MkGetStats None (-1), 0) (vf_version _ _ _ _ Hf)) as [[stats n] ->].
    cbn [mbind option_bind]. destruct (if n >=? 2 then _ else _) as [[v store] b]. by eexists. }
  exists db'. split; [done|]. eapply files_ok_same; [|done]. apply (Sample_same C _ _ _ E).
Qed.

(** *** The entries of the database *)

Lemma mem_children fuel wm wi (db : DBImpl (W := W)) : layered C contents db wm wi → Forall write_ok wm → Forall write_ok wi →
  ∃ ls, children C table_iterator fuel (inl (MemTableNewIterator (mem_ db)) :: match imm_ db with Some imm => [inl (MemTableNewIterator imm)] | None => [] end) ls ∧
    concat ls ≡ₚ entries (wm ++ wi) ∧ NoDup wm ∧ NoDup wi.
Proof using L.
  intros [Hm Hi _ _] Okm Oki. destruct (mem_reads C B ltac:(lia) (mem_ db) wm Hm Okm) as (sm & Hpm & Hsm & Hrm).
  assert (NoDup wm) as Nm by (rewrite <-Hpm; by apply (writes_NoDup C)). destruct (imm_ db) as [imm|].
  - destruct (mem_reads C B ltac:(lia) imm wi Hi Oki) as (si & Hpi & Hsi & Hri). exists [entries sm; entries si]. split_and!.
    + repeat constructor; try done; exists None; by apply (@reads_inl _ _ (MemTable_ops C) (@sum_ops _ _ JO (Level_ops C table_iterator fuel))).
    + cbn. rewrite app_nil_r, <-fmap_app, Hpm, Hpi. done.
    + done.
    + rewrite <-Hpi. by apply (writes_NoDup C).
  - cbn in Hi. subst wi. exists [entries sm]. split_and!; [|cbn; rewrite !app_nil_r, Hpm; done|done|constructor].
    repeat constructor; try done; exists None; by apply (@reads_inl _ _ (MemTable_ops C) (@sum_ops _ _ JO (Level_ops C table_iterator fuel))).
Qed.

(** The entries the database holds, in order. *)
Definition holds_sorted_as (db : DBImpl (W := W)) (h m : list Write) : Prop :=
  (∀ w, w ∈ m ↔ w ∈ h) ∧ NoDup m ∧ Block.keys_sorted (C := icmp) (entries m).

Lemma places_NoDup (db : DBImpl (W := W)) wm wi : layered C contents db wm wi → files_ok C cache_get contents (versions_ db) →
  iterable C table_iterator contents (current (versions_ db)) → Forall write_ok (wm ++ wi) → NoDup (wm ++ wi ++ version_holds contents (versions_ db)).
Proof using L.
  intros Hl Hf Ht [Okm Oki]%Forall_app. destruct (mem_children 0 wm wi db Hl Okm Oki) as (_ & _ & _ & Nm & Ni).
  eapply (layered_NoDup C contents db); [done|done|done|]. eapply (version_NoDup C cache_get); [apply Hf|]. intros level f Hin. by apply (Ht level f Hin).
Qed.

Lemma entries_sorted (db : DBImpl (W := W)) h : represents C cache_get contents db h → iterable C table_iterator contents (current (versions_ db)) →
  ∃ m, holds_sorted_as db h m.
Proof using L.
  intros Hr Ht. pose proof (rp_layers _ _ _ _ _ Hr) as (wm & wi & Hl & Hh). pose proof (rp_ok _ _ _ _ _ Hr) as Hok. rewrite Forall_forall in Hok.
  assert (NoDup (wm ++ wi ++ version_holds contents (versions_ db))) as Hn.
  { apply places_NoDup; [done|apply Hr|done|]. apply Forall_forall. intros w Hw. apply Hok, Hh. rewrite app_assoc. apply elem_of_app. by left. }
  destruct (sort_exists C (wm ++ wi ++ version_holds contents (versions_ db)) Hn) as (m & Hp & Hs).
  { intros w1 w2 H1 H2. apply (rp_distinct _ _ _ _ _ Hr); by apply Hh. }
  exists m. split_and!; [intros w; rewrite Hp; symmetry; apply Hh|by rewrite Hp|done].
Qed.

(** The internal iterator shows them. *)
Lemma internal_reads fuel seed (db : DBImpl (W := W)) h m : represents C cache_get contents db h → holds_sorted_as db h m →
  iterable C table_iterator contents (current (versions_ db)) → (∀ level, (length (level_files (current (versions_ db)) level) <= fuel)%nat) →
  ∃ it c db', NewInternalIterator C table_iterator fuel seed db = Some (it, vs_last_sequence (versions_ db), u32 (seed + 1), db') ∧
    files_ok C cache_get contents (versions_ db') ∧ @reads _ (Internal_ops C table_iterator fuel) B icmp (entries m) it c.
Proof using L.
  intros Hr (Hm & Nd & Hs) Ht Hfuel. pose proof (rp_layers _ _ _ _ _ Hr) as (wm & wi & Hl & Hh). pose proof (rp_files _ _ _ _ _ Hr) as Hf. pose proof (rp_ok _ _ _ _ _ Hr) as Hok.
  rewrite Forall_forall in Hok. assert (Forall write_ok wm ∧ Forall write_ok wi) as [Okm Oki] by (split; apply Forall_forall; intros w Hw; apply Hok, Hh; rewrite !elem_of_app; tauto).
  destruct (mem_children fuel wm wi db Hl Okm Oki) as (ls0 & Hc0 & El0 & _ & _).
  assert (m ≡ₚ wm ++ wi ++ version_holds contents (versions_ db)) as Hp.
  { apply NoDup_Permutation; [done|apply places_NoDup; [done|done|done|by apply Forall_app]|]. intros w. by rewrite Hm. }
  set (vs := versions_ db) in *.
  destruct (AddIterators_children C table_iterator cache_get contents (current vs) (vf_version _ _ _ _ Hf) Ht fuel Hfuel) with (2 := Hc0) as (its & ls & E & Hc & El).
  { intros level f g H1 H2 En. by destruct (vf_unique _ _ _ _ Hf level level f g H1 H2 En). }
  assert (merge_of icmp ls (entries m)) as HM.
  { split_and!; [|done|].
    - rewrite El, El0, Hp, <-fmap_app, app_assoc. done.
    - clear -Hc. induction Hc as [|it l its ls [_ H] _ IH]; by constructor. }
  destruct (@merged_reads _ (Child_ops C table_iterator fuel) B icmp _ its ls (entries m) HM) as (it & c & Em & Hrd).
  { apply Forall_fmap, Forall_forall. intros w Hw. destruct (Hok w (proj1 (Hm w) Hw)) as (_ & Hk & _). cbn [compose entry_kv fst]. unfold ikey_of. rewrite size_ikey. range_lia. }
  { clear -Hc. induction Hc as [|it l its ls [H _] _ IH]; by constructor. }
  exists it, c. eexists. unfold NewInternalIterator. fold vs. rewrite E. cbn [mbind option_bind]. rewrite Em. cbn [mbind option_bind].
  split; [done|]. split; [|done]. cbn [versions_ with_version_set]. eapply files_ok_same; [|exact Hf].
  pose proof (RefVersion_current vs (vs_compact_pointer vs) (vs_store vs) (vf_refs _ _ _ _ Hf)) as [Hsv _]. by destruct vs.
Qed.

(** *** What a snapshot shows *)

Lemma is_newest_key ws u u' s o : @Compare C u u' = 0 → is_newest C ws u s o → is_newest C ws u' s o.
Proof using L.
  intros E. assert (∀ w, visible C u' s w = visible C u s w) as Hv.
  { intros w. unfold visible. pose proof (Compare_eq_l _ _ (wkey w) E) as H. f_equal. destruct (Z.eqb_spec (@Compare C u' (wkey w)) 0), (Z.eqb_spec (@Compare C u (wkey w)) 0); (done || lia). }
  destruct o as [w|]; cbn; setoid_rewrite Hv; done.
Qed.

Lemma view_answers s h h' m floor : distinct C h' → reads_as C floor h h' → floor <= s → (∀ w, w ∈ m ↔ w ∈ h') → Block.keys_sorted (C := icmp) (entries m) →
  ∀ u v, (∃ k, @Compare C k u = 0 ∧ (k, v) ∈ snapshot_view C s m) ↔ answer (newest C h u s) = Some v.
Proof using L.
  intros Hd Hreads Hfl Hm Hs u v. destruct (Hreads u s _ Hfl (newest_spec C h u s)) as (o & Ho & <-).
  assert (∀ u o, is_newest C m u s o ↔ is_newest C h' u s o) as Hmh by (intros; split; apply is_newest_ext; intros w _; [apply Hm|symmetry; apply Hm]). split.
  - intros (k & Ek & Hin). apply (view_newest C s m Hs) in Hin as (w & [= -> ->] & Hty & Hn). apply (is_newest_key m _ u) in Hn; [|done].
    rewrite (newest_unique C h' u s o (Some w) Hd Ho) by (by apply Hmh). cbn. by rewrite Hty.
  - intros Ha. destruct o as [w|]; [|done]. cbn in Ha. destruct (wtype w) eqn:Ety; try done. injection Ha as <-. pose proof Ho as (_ & [Ek%Z.eqb_eq _]%andb_true_iff & _).
    exists (wkey w). split; [by apply Compare_eq_sym|]. apply (view_newest C s m Hs). exists w. split_and!; [done|done|]. apply (is_newest_key m u); [done|]. by apply Hmh.
Qed.

(** The iterator of a sound state. *)
Lemma sound_scan (db : DBImpl (W := W)) h seed snapshot : sound C cache_get contents db h → iterable C table_iterator contents (current (versions_ db)) →
  (∀ s, snapshot = Some s → s ∈ snd <$> snaps (snapshots_ db)) →
  ∃ view n, Block.keys_sorted (C := C) view ∧
    (∀ u v, (∃ k, @Compare C k u = 0 ∧ (k, v) ∈ view) ↔ answer (newest C h u (default (vs_last_sequence (versions_ db)) snapshot)) = Some v) ∧
    ∀ fuel scan, (n <= fuel)%nat → (n <= scan)%nat → ∃ db' it seed', NewIterator C table_iterator fuel seed snapshot db = Some (db', it, seed') ∧
      @reads _ (Iterator_ops C table_iterator fuel scan) (2 ^ 32 - 8) C view (db', it) None.
Proof using L.
  intros [Hr _] Ht Hsn. pose proof Hr as [(h' & Hrep & Hreads) R2 R3 R4]. set (s := default _ snapshot). pose proof (rp_seq _ _ _ _ _ Hrep) as Hseq.
  assert (s ∈ vs_last_sequence (versions_ db) :: (snd <$> snaps (snapshots_ db))) as Hs by (subst s; destruct snapshot as [s0|]; [right; by apply Hsn|left]).
  assert (0 <= s <= vs_last_sequence (versions_ db)) as Hrange.
  { apply elem_of_cons in Hs as [->|Hs]; [lia|]. pose proof (so_range _ R2) as H. rewrite Forall_forall in H. by apply H. }
  destruct (entries_sorted db h' Hrep Ht) as (m & Hm). pose proof Hm as (Hmem & _ & Hsort). exists (snapshot_view C s m), (length m + length (concat (files_ (current (versions_ db)))))%nat.
  assert (Forall write_ok m) as Hok by (pose proof (rp_ok _ _ _ _ _ Hrep) as Ho; rewrite Forall_forall in Ho |- *; intros w Hw; by apply Ho, Hmem).
  split; [by apply (view_sorted C s m)|]. split; [by apply (view_answers s h h' m (floor db) (rp_distinct _ _ _ _ _ Hrep) Hreads (floor_le db s R2 Hs))|].
  intros fuel scan Hfuel Hscan.
  destruct (internal_reads fuel seed db h' m Hrep Hm Ht) as (it & c & db' & E & Hf & Hrd).
  { intros level. unfold level_files. destruct (files_ (current (versions_ db)) !! level) as [fs|] eqn:El; [|cbn; lia]. cbn. apply list_elem_of_lookup_2, list_elem_of_split in El as (l1 & l2 & El).
    rewrite El, concat_app, length_app in Hfuel. cbn in Hfuel. rewrite length_app in Hfuel. lia. }
  unfold NewIterator. rewrite E. cbn [mbind option_bind]. eexists _, _, _. split; [done|]. fold s.
  exists (@dbiter_at _ _ (Internal_ops C table_iterator fuel) (2 ^ 32 - 8) C (λ db, files_ok C cache_get contents (versions_ db)) s m). split.
  - apply (@dbiter_cursor _ _ (DB_sampler C) (Internal_ops C table_iterator fuel) _ C L _ DB_sampler_laws); [done|done|lia|unfold valid_seq; lia].
  - eapply NewDBIterator_at; [done|]. exact Hrd.
Qed.

End Database.

(** ** Properties *)

(** C2: Scans show the history.  Take any run from a fresh database, as in
    [database_refines_history] and with the same conditions on its surroundings
    (complete input of compactions, tables that read back, numbers that do not run out,
    no flush between two inputs of a manual compaction), and an iterator made at the last sequence number or at
    a snapshot that has not been released, the tables of the current version being
    iterated through a cache that shows their writes.  The iterator is a cursor over a
    strictly increasing list that holds a key with a value exactly when a read of that
    key at that snapshot returns the value: every live key once, no deleted or later
    one.  It is made without failing, and every move (first, last, next, previous,
    seek, turning around) ends and succeeds, while samples of reads go to the
    database, for bounds that depend on the state only. *)
Theorem database_iterator_shows_history (C : Comparator) (L : ComparatorLaws C) (base : nat → Z) (W : WritableFile) (options : Options)
    (cache_get : FileMetaData → nat → bytes → Status * option (bytes * bytes)) (contents : FileMetaData → list Write)
    (J : Type) (JO : IteratorOps J) (table_iterator : Z → Z → Z → J) (lfile : wfile) (db : DBImpl (W := W)) (h : list Write) (seed : Z) (snapshot : option Z) :
  rtc (step C base options cache_get contents) (fresh_db base lfile, []) (db, h) →
  iterable C table_iterator contents (current (versions_ db)) →
  (∀ s, snapshot = Some s → s ∈ snd <$> snaps (snapshots_ db)) →
  ∃ view n, Block.keys_sorted (C := C) view ∧
    (∀ u v, (∃ k, @Compare C k u = 0 ∧ (k, v) ∈ view) ↔ answer (newest C h u (default (vs_last_sequence (versions_ db)) snapshot)) = Some v) ∧
    ∀ fuel scan, (n <= fuel)%nat → (n <= scan)%nat → ∃ db' it seed', NewIterator C table_iterator fuel seed snapshot db = Some (db', it, seed') ∧
      @reads _ (Iterator_ops C table_iterator fuel scan) (2 ^ 32 - 8) C view (db', it) None.
Proof.
  intros Hrun. pose proof (steps_sound C base options cache_get contents _ _ Hrun (fresh_sound C base cache_get contents lfile)) as Hs. by apply (sound_scan C table_iterator cache_get).
Qed.

Lemma level_file_elem v level f : f ∈ level_files v level → f ∈ concat (files_ v).
Proof.
  unfold level_files. destruct (files_ v !! level) as [fs|] eqn:E; [|by intros ?%not_elem_of_nil]. intros Hf. apply elem_of_concat. exists fs. split; [done|]. by eapply list_elem_of_lookup_2.
Qed.

(** Tables that consist of one block. *)
Module ScanExample.
Definition writes (n : Z) : list Write := RunExample.contents (NewFileMetaData n 0 [] []).

Definition table_iterator (n file_size level : Z) : Empty + Iter :=
  match Block.NewIterator (NewBlock (build_block 2 (entry_kv <$> writes n))) with
  | BlockIter it => inr it
  | _ => inl NewEmptyIterator
  end.

#[local] Instance table_ops : IteratorOps (Empty + Iter) := @sum_ops _ _ Empty_ops (BlockIter_ops (InternalKeyComparator BytewiseComparator)).

Lemma tables : iterable BytewiseComparator table_iterator RunExample.contents (current (versions_ RunExample.db6)).
Proof.
  intros level f Hf. assert (forallb (λ f, (number f =? 5) && (0 <=? file_size f) && (file_size f <? 2 ^ 64)) (concat (files_ (current (versions_ RunExample.db6)))) = true) as Hall by (by vm_compute).
  rewrite forallb_forall in Hall. pose proof (level_file_elem _ _ _ Hf) as Hin.
  apply list_elem_of_In, Hall in Hin. rewrite !andb_true_iff, Z.eqb_eq, Z.leb_le, Z.ltb_lt in Hin. destruct Hin as [[En Hs1] Hs2].
  assert (RunExample.contents f = [RunExample.w2]) as Ec by (unfold RunExample.contents; by rewrite En).
  assert (Block.keys_sorted (C := InternalKeyComparator BytewiseComparator) (entry_kv <$> [RunExample.w2])) as Hsort by (apply sortedb_sorted; by vm_compute).
  split; [rewrite En; by vm_compute|range_lia|by rewrite Ec|]. intros lv. exists None. rewrite Ec, En.
  destruct (build_block_reads (2 ^ 32) (InternalKeyComparator BytewiseComparator) 2 (entry_kv <$> [RunExample.w2])) as (it & E & Hr); [lia|done| |by vm_compute|].
  { intros kv ->%list_elem_of_singleton. split; by vm_compute. }
  unfold table_iterator. change (writes 5) with [RunExample.w2]. rewrite E. by apply (@reads_inr _ _ Empty_ops).
Qed.

End ScanExample.

(** The run that leaves one file: the scan shows the newest value. *)
Lemma database_iterator_shows_history_witness : ∃ view n, (∃ k, @Compare BytewiseComparator k [x61] = 0 ∧ (k, [x32]) ∈ view) ∧
  ∀ fuel scan, (n <= fuel)%nat → (n <= scan)%nat → ∃ db' it seed',
    NewIterator (JO := ScanExample.table_ops) BytewiseComparator ScanExample.table_iterator fuel 0 None RunExample.db6 = Some (db', it, seed') ∧
    @reads _ (Iterator_ops (JO := ScanExample.table_ops) BytewiseComparator ScanExample.table_iterator fuel scan) (2 ^ 32 - 8) BytewiseComparator view (db', it) None.
Proof.
  destruct (database_iterator_shows_history BytewiseComparator _ RunExample.base WritableFileImpl RunExample.options RunExample.cache_get RunExample.contents
    (Empty + Iter) ScanExample.table_ops ScanExample.table_iterator FileState.NewFileState RunExample.db6 [RunExample.w1; RunExample.w2] 0 None
    RunExample.run ScanExample.tables ltac:(done)) as (view & n & _ & Hview & Hit).
  exists view, n. split; [|exact Hit]. apply Hview. by vm_compute.
Defined.
