(* ===== verification/DbOpen.v ===== *)
(** * Opening a database (src/db/db_impl.cc)

    [Open] recovers the version set from its descriptor, replays the logs that are
    not covered by tables, saves what it recovered in the descriptor and starts with
    an empty (or a reused) log.  What the file system answers is an argument
    ([OpenIO]).  The tables that are written on the way are recorded in
    [ry_written], as their contents decide what the database holds afterwards. *)

From stdpp Require Import gmap sorting relations.
From Stdlib Require Import String.
From S2P Require Import Prelude Coding Status Env Comparator Filename Log DbFormat Arena Random SkipList MemTable WriteBatch VersionEdit Version VersionBuilder Compaction DbCompaction VersionSet DbImpl.

(** The options that decide how a database is opened. *)
Record OpenOptions := MkOpenOptions { create_if_missing : bool; error_if_exists : bool; paranoid_checks : bool; reuse_logs : bool }.

Section Open.
  Context (C : Comparator) (base : nat → Z) {W : WritableFile} {F : SequentialFile} (options : Options) (oo : OpenOptions) (dbname : bytes).

Record OpenIO := MkOpenIO {
  oi_lock : Status;                         (* LockFile *)
  oi_current_exists : bool;                 (* FileExists(CurrentFileName(dbname_)) *)
  oi_new_manifest : Status * wfile;         (* NewDB: the descriptor file 1 *)
  oi_manifest_sync : wfile → Status;
  oi_manifest_close : wfile → Status;
  oi_set_current : Status;                  (* NewDB: SetCurrentFile *)
  oi_recover : option wfile → RecoverIO;    (* what is found after NewDB wrote a descriptor, or without it *)
  oi_children : result (list bytes);        (* GetChildren *)
  oi_log_open : Z → result sfile;
  oi_log_size : Z → result Z;
  oi_log_append : Z → result wfile;
  oi_tables : OutputIO;
  oi_micros : Z;
  oi_new_log : Z → Status * wfile;
  oi_manifest : ManifestIO;
  oi_filenames : list bytes;                (* GetChildren in RemoveObsoleteFiles *)
}.

(** ** A new database *)

Definition new_db_edit : VersionEdit :=
  VersionEdit.SetLastSequence 0 (SetNextFile 2 (VersionEdit.SetLogNumber 0 (SetComparatorName (@Name C) VersionEdit.Clear))).

(** The status and the descriptor file, if one was made. *)
Definition NewDB (io : OpenIO) : option (Status * option wfile) :=
  let '(s, file) := oi_new_manifest io in
  if ok s then
    '(s, log) ← AddRecord (NewWriter file) (EncodeTo new_db_edit []);
    let s := if ok s then oi_manifest_sync io (dest_ log) else s in
    let s := if ok s then oi_manifest_close io (dest_ log) else s in
    Some (if ok s then (oi_set_current io, Some (dest_ log)) else (s, None))
  else Some (s, None).

Definition MaybeIgnoreError (s : Status) : Status := if ok s || paranoid_checks oo then s else Status_OK.

(** ** Logs *)

(** What [Recover] changes: the parts of the database that writing a table touches,
    [*edit], [*save_manifest], [*max_sequence], [mem_], [log_] and [logfile_number_]. *)
Record Recovery := MkRecovery {
  ry_state : TableState;
  ry_edit : VersionEdit;
  ry_save_manifest : bool;
  ry_max_sequence : Z;
  ry_mem : option MemTable;
  ry_log : option Log.Writer;
  ry_logfile_number : Z;
  ry_written : list (Z * list entry);
}.

Definition ry_versions (r : Recovery) : VersionSet := ts_versions (ry_state r).

Definition with_ry_versions (r : Recovery) (vs : VersionSet) : Recovery :=
  let t := ry_state r in
  MkRecovery (MkTableState vs (ts_pending t) (ts_stats t) (ts_worth t)) (ry_edit r) (ry_save_manifest r) (ry_max_sequence r) (ry_mem r) (ry_log r) (ry_logfile_number r) (ry_written r).

Definition with_max_sequence (r : Recovery) (n : Z) : Recovery :=
  MkRecovery (ry_state r) (ry_edit r) (ry_save_manifest r) n (ry_mem r) (ry_log r) (ry_logfile_number r) (ry_written r).

Definition with_ry_log (r : Recovery) (edit : VersionEdit) (mem : MemTable) (log : Log.Writer) (number : Z) : Recovery :=
  MkRecovery (ry_state r) edit (ry_save_manifest r) (ry_max_sequence r) (Some mem) (Some log) number (ry_written r).

(** [*save_manifest = true; status = WriteLevel0Table(mem, edit, nullptr)]. *)
Definition recover_table (io : OpenIO) (mem : MemTable) (r : Recovery) : option (Status * Recovery) :=
  entries ← mem_entries mem;
  '(s, edit, t) ← write_level0 C options (oi_tables io) (oi_micros io) entries (ry_edit r) None (ry_state r);
  Some (s, MkRecovery t edit true (ry_max_sequence r) (ry_mem r) (ry_log r) (ry_logfile_number r) (ry_written r ++ [(vs_next_file_number (ry_versions r), entries)])).

(** [LogReporter]: without paranoid checks the reports change no status. *)
Definition recover_report (s : Status) (old new : list (Z * Status)) : Status := if paranoid_checks oo then report_status s old new else s.

(** The loop over the records: the status, the memtable and the number of tables
    written. *)
Fixpoint recover_records (n fuel : nat) (io : OpenIO) (reader : Reader) (status : Status) (mem : option MemTable) (compactions : Z) (r : Recovery)
    : option (Status * option MemTable * Z * Recovery) :=
  match n with
  | O => None
  | S n =>
      '(o, reader') ← ReadRecord fuel reader;
      let status := recover_report status (reports reader) (reports reader') in
      match o with
      | Some record =>
          if ok status then
            if size record <? 12 then
              recover_records n fuel io reader' (if paranoid_checks oo then Corruption (bs "log record too small") [] else status) mem compactions r
            else
              let batch := SetContents NewWriteBatch record in
              let mem := default (Ref (NewMemTable base)) mem in
              '(st, status) ← InsertInto C base batch mem;
              '(mem, _) ← st;
              let status := MaybeIgnoreError status in
              if ok status then
                let last_seq := u64 (Sequence batch + Count batch - 1) in
                let r := if last_seq >? ry_max_sequence r then with_max_sequence r last_seq else r in
                if ApproximateMemoryUsage mem >? write_buffer_size options then
                  '(status, r) ← recover_table io mem r;
                  if ok status then recover_records n fuel io reader' status None (compactions + 1) r
                  else Some (status, None, compactions + 1, r)
                else recover_records n fuel io reader' status (Some mem) compactions r
              else Some (status, Some mem, compactions, r)
          else Some (status, mem, compactions, r)
      | None => Some (status, mem, compactions, r)
      end
  end.

Definition RecoverLogFile (n fuel : nat) (io : OpenIO) (log_number : Z) (last_log : bool) (r : Recovery) : option (Status * Recovery) :=
  match oi_log_open io log_number with
  | Fail s => Some (MaybeIgnoreError s, r)
  | Ok file =>
      '(status, mem, compactions, r) ← recover_records n fuel io (NewReader file true true 0) Status_OK None 0 r;
      let '(mem, r) :=
        if ok status && reuse_logs oo && last_log && (compactions =? 0) then
          match oi_log_size io log_number, oi_log_append io log_number with
          | Ok lfile_size, Ok logfile =>
              (None, with_ry_log r (ry_edit r) (default (Ref (NewMemTable base)) mem) (NewWriterAt logfile lfile_size) log_number)
          | _, _ => (mem, r)
          end
        else (mem, r) in
      match mem with
      | Some m => if ok status then recover_table io m r else Some (status, r)
      | None => Some (status, r)
      end
  end.

(** ** Recovery *)

(** [expected] after the names were looked at. *)
Definition missing_files (vs : VersionSet) (filenames : list bytes) : gset Z :=
  foldl (λ expected name, match ParseFileName name with Some (number, _) => expected ∖ {[number]} | None => expected end) (AddLiveFiles vs ∅) filenames.

(** The logs to replay, in the order in which they were made. *)
Definition log_numbers (vs : VersionSet) (filenames : list bytes) : list Z :=
  merge_sort Z.le (omap (λ name, match ParseFileName name with
    | Some (number, kLogFile) => if (number >=? vs_log_number vs) || (number =? vs_prev_log_number vs) then Some number else None
    | _ => None
    end) filenames).

Definition missing_status (expected : gset Z) : Status :=
  Corruption (NumberToString (size (elements expected)) ++ bs " missing files; e.g.") (TableFileName dbname (default 0 (head (merge_sort Z.le (elements expected))))).

Fixpoint recover_logs (n fuel : nat) (io : OpenIO) (logs : list Z) (r : Recovery) : option (Status * Recovery) :=
  match logs with
  | [] => Some (Status_OK, r)
  | log :: logs =>
      '(s, r) ← RecoverLogFile n fuel io log (bool_decide (logs = [])) r;
      if ok s then recover_logs n fuel io logs (with_ry_versions r (MarkFileNumberUsed log (ry_versions r))) else Some (s, r)
  end.

(** The status, and whether and which descriptor file [NewDB] made, before the
    version set is read. *)
Definition prepare (io : OpenIO) : option (Status * option wfile) :=
  if negb (ok (oi_lock io)) then Some (oi_lock io, None)
  else if oi_current_exists io then
    Some (if error_if_exists oo then InvalidArgument dbname (bs "exists (error_if_exists is true)") else Status_OK, None)
  else if create_if_missing oo then NewDB io
  else Some (InvalidArgument dbname (bs "does not exist (create_if_missing is false)"), None).

Definition DbRecover (n fuel : nat) (io : OpenIO) (r : Recovery) : option (Status * Recovery) :=
  '(s, manifest) ← prepare io;
  if ok s then
    '(s, save_manifest, vs) ← Recover C n fuel (oi_recover io manifest) (ry_versions r);
    let r := with_ry_versions r vs in
    let r := MkRecovery (ry_state r) (ry_edit r) save_manifest (ry_max_sequence r) (ry_mem r) (ry_log r) (ry_logfile_number r) (ry_written r) in
    if ok s then
      match oi_children io with
      | Fail s => Some (s, r)
      | Ok filenames =>
          let expected := missing_files vs filenames in
          if decide (expected = ∅) then
            '(s, r) ← recover_logs n fuel io (log_numbers vs filenames) r;
            Some (s, if ok s && (vs_last_sequence (ry_versions r) <? ry_max_sequence r)
                     then with_ry_versions r (SetLastSequence (ry_max_sequence r) (ry_versions r)) else r)
          else Some (missing_status expected, r)
      end
    else Some (s, r)
  else Some (s, r).

(** ** Opening *)

(** The members behind the constructor. *)
Definition NewRecovery : Recovery :=
  MkRecovery (MkTableState NewVersionSet ∅ (replicate num_levels NewCompactionStats) []) VersionEdit.Clear false 0 None None 0 [].

(** A new log and a memtable, unless the last log goes on. *)
Definition open_log (io : OpenIO) (r : Recovery) : Status * Recovery :=
  match ry_mem r with
  | Some _ => (Status_OK, r)
  | None =>
      let '(new_log_number, vs) := NewFileNumber (ry_versions r) in
      let r := with_ry_versions r vs in
      let '(s, lfile) := oi_new_log io new_log_number in
      (s, if ok s then with_ry_log r (VersionEdit.SetLogNumber new_log_number (ry_edit r)) (Ref (NewMemTable base)) (NewWriter lfile) new_log_number else r)
  end.

Definition save_recovered (io : OpenIO) (r : Recovery) : option (Status * Recovery) :=
  if ry_save_manifest r then
    let edit := VersionEdit.SetLogNumber (ry_logfile_number r) (SetPrevLogNumber 0 (ry_edit r)) in
    '(s, _, vs) ← LogAndApply C (oi_manifest io) edit (ry_versions r);
    Some (s, with_ry_versions r vs)
  else Some (Status_OK, r).

(** The database that a finished recovery makes; the pointers are not null then. *)
Definition recovered_db (r : Recovery) : option DBImpl :=
  mem ← ry_mem r; log ← ry_log r;
  let t := ry_state r in
  Some (MkDB mem None log (ry_logfile_number r) [] NewWriteBatch NewSnapshotList (ts_pending t) false None (ts_versions t) Status_OK false (ts_stats t) 0 (ts_worth t)).

(** The status, the database, the files that are removed and the tables that were
    written. *)
Definition Open (n fuel : nat) (io : OpenIO) : option (Status * option DBImpl * list bytes * list (Z * list entry)) :=
  '(s, r) ← DbRecover n fuel io NewRecovery;
  let '(s, r) := if ok s then open_log io r else (s, r) in
  '(s, r) ← (if ok s then save_recovered io r else Some (s, r));
  if ok s then
    db ← recovered_db r;
    Some (s, Some (MaybeScheduleCompaction db), RemoveObsoleteFiles (oi_filenames io) db, ry_written r)
  else Some (s, None, [], ry_written r).

(** ** Destroying a database *)

(** [DestroyDB]: the status and the names for which removal is tried. *)
Definition DestroyDB (children : result (list bytes)) (lock : Status) (remove : bytes → Status) : Status * list bytes :=
  match children with
  | Fail _ => (Status_OK, [])
  | Ok filenames =>
      if ok lock then
        let removed := List.filter (λ name, match ParseFileName name with Some (_, type) => negb (bool_decide (type = kDBLockFile)) | None => false end) filenames in
        (foldl (λ result name, if ok result && negb (ok (remove name)) then remove name else result) lock removed, removed ++ [LockFileName dbname])
      else (lock, [])
  end.

End Open.
