(* ===== verification/DbReplay.v ===== *)
(** * What opening a database recovers

    The logs hold the batches that were acknowledged after the last flush, in order;
    a crash may have cut each of them off at any byte.  [Open] replays the complete
    batches, so that the opened database represents the tables of the recovered
    version together with those batches. *)

From stdpp Require Import gmap sorting relations.
From Stdlib Require Import String.
From S2P Require Import Prelude Coding Status Env Comparator Block Iterators Filename Log DbFormat Arena Random SkipList MemTable WriteBatch VersionEdit Version VersionBuilder Compaction DbCompaction VersionSet DbImpl DbHistory DbFlush DbRefinement DbSteps DbBackground DbPlan DbRuns Database DbOpen.

(** ** Reading a log record by record *)

Section Stream.
  Context {F : SequentialFile} {LF : SequentialFileLaws F}.

(** The reader stands before these records, of which the file may hold only a part;
    it holds all of them if [whole]. *)
Definition streams (fuel : nat) (reader : Reader) (records : list bytes) (whole : Prop) : Prop :=
  ∃ o st fss, Forall2 (record_fragments true) records fss ∧ reading reader o st [] ∧ st `prefix_of` layout o (concat fss) ∧ fragments_ok o (concat fss) ∧
    (∀ fs, fs ∈ fss → (length fs < fuel)%nat) ∧ (0 < fuel)%nat ∧ (whole → st = layout o (concat fss)).

Lemma streams_reports fuel reader records whole : streams fuel reader records whole → reports reader = [].
Proof. intros (o & st & fss & _ & Hr & _). apply (rd_reports _ _ _ _ Hr). Qed.

Lemma streams_nil fuel reader whole : streams fuel reader [] whole → ∃ reader', ReadRecord fuel reader = Some (None, reader') ∧ reports reader' = [].
Proof using LF.
  intros (o & st & fss & Hf & Hr & Hpre & _ & _ & Hf0 & _). apply Forall2_nil_inv_l in Hf as ->. apply prefix_nil_inv in Hpre as ->. by apply (ReadRecord_end _ _ o).
Qed.

Lemma streams_cons fuel reader record records whole : streams fuel reader (record :: records) whole →
  (∃ reader', ReadRecord fuel reader = Some (Some record, reader') ∧ streams fuel reader' records whole) ∨
  (¬ whole ∧ ∃ reader', ReadRecord fuel reader = Some (None, reader') ∧ reports reader' = []).
Proof using LF.
  intros (o & st & fss & Hf & Hr & Hpre & Hok & Hfuel & Hf0 & Hw). apply Forall2_cons_inv_l in Hf as (fs & fss' & Hrf & Hf & ->). cbn [concat] in *.
  rewrite (ReadRecord_start _ _ _ _ _ Hr).
  destruct (ReadRecord_loop_record _ _ _ Hrf fuel reader o st [] (concat fss') [] 0 Hr Hpre Hok) as [(st' & r1 & -> & Hp' & E & Hr')|(Hlt & r1 & E & Hrp)];
    [apply Hfuel; left|done| |]; cbn [negb] in E; rewrite E.
  - left. exists r1. split; [done|]. exists (layout_end o fs), st', fss'. apply fragments_ok_app in Hok as [_ Hok]. split_and!; try done.
    + intros gs Hg. apply Hfuel. by right.
    + intros H. specialize (Hw H). rewrite layout_app in Hw. by apply app_inv_head in Hw.
  - right. split; [|by exists r1]. intros H. rewrite (Hw H), layout_app, size_app in Hlt. pose proof (size_nonneg (layout (layout_end o fs) (concat fss'))). lia.
Qed.

End Stream.

(** ** Batches *)

Definition batch : Type := Z * list WriteBatch.Op.
Definition batch_record (b : batch) : bytes := rep b.1 b.2.
Definition batch_writes (b : batch) : list Write := WriteBatch.number b.1 b.2.
Definition writes_of_batches (bs : list batch) : list Write := concat (batch_writes <$> bs).

Record batch_ok (b : batch) : Prop := {
  bk_ops : Forall op_ok b.2;
  bk_seq : 1 <= b.1;
  bk_count : Z.of_nat (length b.2) < 2 ^ 31;
  bk_max : b.1 + Z.of_nat (length b.2) <= kMaxSequenceNumber;
}.

(** The batches were numbered one after the other. *)
Definition in_sequence (bs : list batch) : Prop := StronglySorted (λ b b', b.1 + Z.of_nat (length b.2) <= b'.1) bs.

(** Later writes have larger sequence numbers. *)
Definition ascending (ws : list Write) : Prop := StronglySorted (λ w w', wseq w < wseq w') ws.

Lemma writes_of_app bs bs' : writes_of_batches (bs ++ bs') = writes_of_batches bs ++ writes_of_batches bs'.
Proof. unfold writes_of_batches. by rewrite fmap_app, concat_app. Qed.

Lemma writes_of_one b : writes_of_batches [b] = batch_writes b.
Proof. apply app_nil_r. Qed.

Lemma batch_writes_ok b : batch_ok b → Forall write_ok (batch_writes b).
Proof. intros [H1 H2 H3 H4]. apply number_ok; [done|lia|done]. Qed.

Lemma batches_writes_ok bs : Forall batch_ok bs → Forall write_ok (writes_of_batches bs).
Proof. induction 1 as [|b bs Hb _ IH]; [constructor|]. cbn. apply Forall_app. split; [by apply batch_writes_ok|done]. Qed.

Lemma batch_record_size b : 12 <= size (batch_record b).
Proof. unfold batch_record, rep. rewrite !size_app, Coding.size_EncodeFixed64, Coding.size_EncodeFixed32. pose proof (size_nonneg (WriteBatch.records b.2)). lia. Qed.

Lemma batch_seqs b w : w ∈ batch_writes b → b.1 <= wseq w < b.1 + Z.of_nat (length b.2).
Proof. intros Hw. pose proof (number_seqs b.1 b.2) as H. rewrite Forall_forall in H. by apply H. Qed.

Lemma elem_writes_of_batches bs w : w ∈ writes_of_batches bs ↔ ∃ b, b ∈ bs ∧ w ∈ batch_writes b.
Proof.
  unfold writes_of_batches. rewrite elem_of_concat. split.
  - intros (l & Hw & (b & -> & Hb)%list_elem_of_fmap). eauto.
  - intros (b & Hb & Hw). exists (batch_writes b). split; [done|]. apply list_elem_of_fmap. eauto.
Qed.

(** Writes of the batches so far are older than the next batch. *)
Lemma in_sequence_next bs b : in_sequence (bs ++ [b]) → Forall (λ w, wseq w < b.1) (writes_of_batches bs).
Proof.
  intros Hs. apply Forall_forall. intros w (b' & Hb & Hw)%elem_writes_of_batches. pose proof (batch_seqs _ _ Hw).
  pose proof (StronglySorted_app_1_elem_of _ _ _ _ _ Hs Hb (list_elem_of_here _ _)). cbn beta in *. lia.
Qed.

Lemma number_ascending ops : ∀ seq, ascending (WriteBatch.number seq ops).
Proof.
  induction ops as [|op ops IH]; intros seq; cbn [WriteBatch.number]; constructor; [apply IH|]. pose proof (number_seqs (seq + 1) ops) as H.
  eapply Forall_impl; [exact H|]. intros w Hw. cbn beta in *. rewrite wseq_write_of. lia.
Qed.

Lemma in_sequence_ascending bs : in_sequence bs → ascending (writes_of_batches bs).
Proof.
  induction bs as [|b bs IH]; intros Hs; [constructor|]. apply StronglySorted_cons in Hs as [Hb Hs]. cbn. apply StronglySorted_app_2; [|apply number_ascending|by apply IH].
  intros w w' Hw (b' & Hb' & Hw')%elem_writes_of_batches. rewrite Forall_forall in Hb. specialize (Hb b' Hb'). cbn beta in Hb. pose proof (batch_seqs _ _ Hw). pose proof (batch_seqs _ _ Hw'). lia.
Qed.

Lemma in_sequence_prefix bs bs' : in_sequence (bs ++ bs') → in_sequence bs.
Proof. apply StronglySorted_app_1_l. Qed.

(** ** The invariant of the replay *)

Section Replay.
  Context (C : Comparator) {L : ComparatorLaws C} (base : nat → Z) {W : WritableFile} {F : SequentialFile} {LF : SequentialFileLaws F}.
  Context (options : Options) (oo : OpenOptions) (io : OpenIO (W := W) (F := F)).

(** A table file is not empty. *)
Context (Hsize : ∀ es, es ≠ [] → 0 < io_final_size (oi_tables io) es).

Abbreviation ti := (oi_tables io).

(** A table that was written: its number and its writes in order. *)
Definition table_of (t : Z * list Write) : option FileMetaData :=
  match t.2 with
  | [] => None
  | w0 :: ws => Some (table_file ti t.1 t.2 w0 (default w0 (last t.2)))
  end.

Definition written_of (t : Z * list Write) : Z * list entry := (t.1, entry_of_write <$> t.2).

(** The batches [bs] are replayed: those of [gs] went into the tables [ts], the
    others are in the memtable.  [top] bounds the file numbers in use before. *)
Record replaying (vs0 : VersionSet (W := W)) (top : Z) (bs : list batch) (ts : list (Z * list Write)) (gs : list (list Write)) (wm : list Write)
    (mem : option MemTable) (r : Recovery (W := W)) : Prop := {
  rg_versions : vs_versions (ry_versions r) = vs_versions vs0;
  rg_same : same_versions vs0 (ry_versions r);
  rg_writes : concat gs ++ wm = writes_of_batches bs;
  rg_tables : Forall2 (λ t g, t.2 ≡ₚ g ∧ StronglySorted (before C) t.2) ts gs;
  rg_mem : match mem with Some m => filled C m wm | None => wm = [] end;
  rg_written : ry_written r = written_of <$> ts;
  rg_deleted : deleted_files_ (ry_edit r) = [];
  rg_new : new_files_ (ry_edit r) = (λ f, (0, f)) <$> omap table_of ts;
  rg_order : StronglySorted (λ t t', t.1 < t'.1) ts;
  rg_numbers : Forall (λ t, vs_next_file_number vs0 <= t.1 < vs_next_file_number (ry_versions r)) ts;
  rg_count : (length ts + match mem with Some _ => 1 | None => 0 end <= length bs)%nat;
  rg_top : 0 <= vs_next_file_number (ry_versions r) <= top + Z.of_nat (length ts);
  rg_save : ts ≠ [] → ry_save_manifest r = true;
  rg_max : Forall (λ w, wseq w <= ry_max_sequence r) (writes_of_batches bs);
  rg_max_range : 0 <= ry_max_sequence r < kMaxSequenceNumber;
}.

(** The environment writes tables without errors. *)
Record tables_fine : Prop := {
  tf_open n : ok (io_open ti n) = true;
  tf_finish n : ok (io_finish ti n) = true;
  tf_sync n : ok (io_sync ti n) = true;
  tf_close n : ok (io_close ti n) = true;
  tf_verify n : ok (io_verify ti n) = true;
}.

Lemma BuildTable_fine n es : tables_fine → ok (BuildTable ti Status_OK n es).1.1.1 = true.
Proof.
  intros [H1 H2 H3 H4 H5]. unfold BuildTable. destruct es as [|[k v] es]; [done|]. rewrite H1, H2, H3, H4. change (ok Status_OK) with true. cbv iota. apply H5.
Qed.

(** One batch goes into the memtable. *)
Lemma replay_batch vs0 top bs ts gs wm mem r b : replaying vs0 top bs ts gs wm mem r → Forall batch_ok (bs ++ [b]) → in_sequence (bs ++ [b]) →
  ∃ m', InsertInto C base (batch_record b) (default (Ref (NewMemTable base)) mem) = Some (Some (m', b.1 + Z.of_nat (length b.2)), Status_OK) ∧
    let last_seq := u64 (Sequence (batch_record b) + Count (batch_record b) - 1) in
    replaying vs0 top (bs ++ [b]) ts gs (wm ++ batch_writes b) (Some m') (if last_seq >? ry_max_sequence r then with_max_sequence r last_seq else r).
Proof using L.
  intros [R1 R2 R3 R4 R5 R6 R7 R8 R9 R10 R11 R12 R13 R14 R15] Hok Hseq. apply Forall_app in Hok as [Hok [[B1 B2 B3 B4] _]%Forall_cons].
  pose proof (in_sequence_next _ _ Hseq) as Hlt. pose proof (batches_writes_ok _ Hok) as Hwok. rewrite <-R3 in Hlt, Hwok. apply Forall_app in Hlt as [_ Hlt], Hwok as [_ Hwok].
  assert (filled C (default (Ref (NewMemTable base)) mem) wm) as Hm by (destruct mem as [m|]; [done|]; subst wm; apply filled_Ref, NewMemTable_filled).
  destruct (InsertInto_rep C base _ wm b.1 b.2 Hm Hwok Hlt B1 ltac:(lia) B3 B4) as (m' & E & Hm'). exists m'. split; [exact E|]. cbn zeta.
  unfold kMaxSequenceNumber in *. change (Z.shiftl 1 56) with (2 ^ 56) in *.
  assert (Sequence (batch_record b) + Count (batch_record b) - 1 = b.1 + Z.of_nat (length b.2) - 1) as El by (unfold batch_record; rewrite Sequence_rep, Count_rep by (done || range_lia); lia).
  rewrite El, u64_small by range_lia. set (last_seq := b.1 + Z.of_nat (length b.2) - 1). set (r' := if last_seq >? ry_max_sequence r then _ else r).
  assert (ry_state r' = ry_state r ∧ ry_edit r' = ry_edit r ∧ ry_save_manifest r' = ry_save_manifest r ∧ ry_written r' = ry_written r ∧
    ry_max_sequence r' = Z.max last_seq (ry_max_sequence r)) as (S1 & S2 & S3 & S4 & S5).
  { unfold r'. rewrite Z.gtb_ltb. destruct (Z.ltb_spec (ry_max_sequence r) last_seq); cbn; split_and!; (done || lia). }
  assert (ry_versions r' = ry_versions r) as S1' by (unfold ry_versions; by rewrite S1).
  split; rewrite ?S1', ?S2, ?S3, ?S4, ?S5; try done.
  - by rewrite app_assoc, R3, writes_of_app, writes_of_one.
  - rewrite length_app. cbn [length]. destruct mem; lia.
  - rewrite writes_of_app, writes_of_one. apply Forall_app. split.
    + eapply Forall_impl; [exact R14|]. cbn beta. intros w Hw. lia.
    + apply Forall_forall. intros w Hw. pose proof (batch_seqs _ _ Hw). unfold last_seq. lia.
  - unfold last_seq, kMaxSequenceNumber. change (Z.shiftl 1 56) with (2 ^ 56). lia.
Qed.

Lemma NewFileNumber_versions (vs : VersionSet (W := W)) : vs_versions (NewFileNumber vs).2 = vs_versions vs.
Proof. done. Qed.

(** The memtable becomes a table of level 0. *)
Lemma recover_table_spec vs0 top bs ts gs wm m r : replaying vs0 top bs ts gs wm (Some m) r → Forall batch_ok bs → top + Z.of_nat (length bs) < 2 ^ 31 →
  ∃ s r', recover_table C options io m r = Some (s, r') ∧ ry_mem r' = ry_mem r ∧ ry_log r' = ry_log r ∧ (tables_fine → ok s = true) ∧
    (ok s = true → ∃ t, replaying vs0 top bs (ts ++ [t]) (gs ++ [wm]) [] None r').
Proof using L Hsize.
  intros [R1 R2 R3 R4 R5 R6 R7 R8 R9 R10 R11 R12 R13 R14 R15] Hok Htop. pose proof (batches_writes_ok _ Hok) as Hwok. rewrite <-R3 in Hwok. apply Forall_app in Hwok as [_ Hwok].
  destruct (mem_entries_spec C m wm R5 Hwok) as (sorted & Hp & Hs & Em). unfold recover_table. rewrite Em. cbn [mbind option_bind]. unfold write_level0.
  set (vs := ry_versions r) in *. change (ts_versions (ry_state r)) with vs. destruct (NewFileNumber vs) as [n vs1] eqn:En.
  destruct (NewFileNumber_same vs n vs1 En) as (-> & Hsv & Hnext); [range_lia|range_lia|].
  assert (vs_versions vs1 = vs_versions vs) as Ev by (by injection En as <-). set (n := vs_next_file_number vs) in *.
  pose proof (BuildTable_spec ti n sorted) as Hb. pose proof (BuildTable_fine n (entry_of_write <$> sorted)) as Hfine.
  destruct (BuildTable ti Status_OK n (entry_of_write <$> sorted)) as [[[s sz] small] large]. cbn [fst] in Hfine.
  set (edit' := if ok s && (sz >? 0) then AddFile 0 n sz small large (ry_edit r) else ry_edit r).
  assert ((if ok s && (sz >? 0) then Some (0%nat, AddFile (Z.of_nat 0) n sz small large (ry_edit r), ts_worth (ry_state r)) else Some (0%nat, ry_edit r, ts_worth (ry_state r)))
    = Some (0%nat, edit', ts_worth (ry_state r))) as Ee by (unfold edit'; by destruct (ok s && (sz >? 0))).
  cbn [mbind option_bind]. rewrite Ee. cbn [mbind option_bind]. eexists s, _. split; [done|]. split_and!; [done|done|done|]. intros Es.
  specialize (Hb Es). exists (n, sorted).
  assert (deleted_files_ edit' = [] ∧ new_files_ edit' = (λ f, (0, f)) <$> omap table_of (ts ++ [(n, sorted)])) as [Hd Hn].
  { unfold edit'. rewrite Es, omap_app. cbn [andb omap list_omap]. unfold table_of at 2. cbn [fst snd]. destruct sorted as [|w0 ws].
    - subst sz. cbn. by rewrite app_nil_r.
    - destruct Hb as (wl & Hl & -> & -> & ->). assert (entry_of_write <$> w0 :: ws ≠ []) as H0 by done.
      rewrite (proj2 (Z.gtb_lt _ _) (Hsize _ H0)), Hl. split; [exact R7|]. cbn [default from_option]. rewrite fmap_app, <-R8. done. }
  split; cbn [ry_versions ry_state ts_versions ry_written ry_edit ry_save_manifest ry_max_sequence]; try done.
  - by rewrite Ev.
  - by eapply same_versions_trans.
  - rewrite concat_app. cbn. by rewrite !app_nil_r.
  - apply Forall2_app; [done|]. by repeat constructor.
  - change (ry_versions r) with vs. rewrite R6, fmap_app. done.
  - apply StronglySorted_app_2; [|done|repeat constructor]. intros t t' Ht ->%list_elem_of_singleton. rewrite Forall_forall in R10. specialize (R10 t Ht). cbn. lia.
  - apply Forall_app. split; [eapply Forall_impl; [exact R10|]; cbn; lia|]. repeat constructor; cbn; [apply (sv_next _ _ R2)|lia].
  - rewrite length_app. cbn. lia.
  - rewrite length_app. cbn. lia.
Qed.

Lemma ok_status s : ok s = true → s = Status_OK.
Proof. unfold ok. destruct s as [[]|]; done. Qed.

Lemma no_reports : recover_report oo Status_OK [] [] = Status_OK.
Proof. unfold recover_report. by destruct (paranoid_checks oo). Qed.

Lemma not_ignored : MaybeIgnoreError oo Status_OK = Status_OK.
Proof. done. Qed.

(** The loop over the records of a log. *)
Lemma recover_records_spec vs0 top fuel batches : ∀ n reader bs ts gs wm mem comps r whole,
  streams fuel reader (batch_record <$> batches) whole → (length batches < n)%nat → replaying vs0 top bs ts gs wm mem r →
  Forall batch_ok (bs ++ batches) → in_sequence (bs ++ batches) → top + Z.of_nat (length (bs ++ batches)) < 2 ^ 31 →
  ∃ s mem' comps' r', recover_records C base options oo n fuel io reader Status_OK mem comps r = Some (s, mem', comps', r') ∧
    ry_mem r' = ry_mem r ∧ ry_log r' = ry_log r ∧ (tables_fine → ok s = true) ∧
    (ok s = true → ∃ k ts' gs' wm', (k <= length batches)%nat ∧ (whole → k = length batches) ∧ replaying vs0 top (bs ++ take k batches) ts' gs' wm' mem' r' ∧
      ∃ reader', ReadRecords n fuel reader = Some (batch_record <$> take k batches, reader')).
Proof using L LF Hsize.
  induction batches as [|b batches IH]; intros n reader bs ts gs wm mem comps r whole Hst Hn Hr Hok Hseq Htop; (destruct n as [|n]; [cbn in Hn; lia|]);
    cbn [recover_records ReadRecords]; pose proof (streams_reports _ _ _ _ Hst) as Hrp.
  { destruct (streams_nil _ _ _ Hst) as (reader' & -> & Hrp'). cbn [mbind option_bind]. rewrite Hrp, Hrp', no_reports. eexists _, _, _, _. split; [done|]. split_and!; try done.
    intros _. exists 0%nat, ts, gs, wm. split_and!; [done|done|by rewrite app_nil_r|by eexists]. }
  cbn [fmap list_fmap] in Hst. destruct (streams_cons _ _ _ _ _ Hst) as [(reader' & -> & Hst')|(Hcut & reader' & -> & Hrp')]; cbn [mbind option_bind]; rewrite Hrp.
  2: { rewrite Hrp', no_reports. eexists _, _, _, _. split; [done|]. split_and!; try done. intros _. exists 0%nat, ts, gs, wm. split_and!; [lia|done|by rewrite app_nil_r|by eexists]. }
  rewrite (streams_reports _ _ _ _ Hst'), no_reports. change (ok Status_OK) with true. cbv iota. pose proof (batch_record_size b) as Hsz. rewrite (proj2 (Z.ltb_ge _ _)) by lia.
  rewrite cons_middle, app_assoc in Hok, Hseq, Htop. pose proof (proj1 (proj1 (Forall_app _ _ _) Hok)) as Hok1. pose proof (in_sequence_prefix _ _ Hseq) as Hseq1.
  destruct (replay_batch _ _ _ _ _ _ _ _ b Hr Hok1 Hseq1) as (m' & E & Hr'). change (SetContents NewWriteBatch (batch_record b)) with (batch_record b). rewrite E. cbn [mbind option_bind].
  rewrite not_ignored. change (ok Status_OK) with true. cbv iota. cbn zeta in Hr'. set (last_seq := u64 _) in *. set (r1 := if last_seq >? ry_max_sequence r then _ else r) in *.
  assert (ry_mem r1 = ry_mem r ∧ ry_log r1 = ry_log r) as [M1 M2] by (unfold r1; by destruct (last_seq >? ry_max_sequence r)).
  assert (∀ k, bs ++ take (S k) (b :: batches) = (bs ++ [b]) ++ take k batches) as Ek by (intros k; cbn; by rewrite <-app_assoc).
  destruct (ApproximateMemoryUsage m' >? write_buffer_size options).
  - destruct (recover_table_spec _ _ _ _ _ _ _ _ Hr' Hok1) as (s & r2 & -> & T1 & T2 & Tf & Tr); [rewrite length_app in Htop; lia|]. cbn [mbind option_bind].
    destruct (ok s) eqn:Es.
    + destruct (Tr eq_refl) as (t & Hr2). rewrite (ok_status s Es). destruct (IH n reader' _ _ _ _ _ (comps + 1) _ _ Hst' ltac:(cbn in Hn; lia) Hr2 Hok Hseq Htop) as (s3 & mem3 & c3 & r3 & -> & A1 & A2 & Af & Ar).
      eexists _, _, _, _. split; [done|]. split_and!; [congruence|congruence|done|]. intros Es3. destruct (Ar Es3) as (k & ts' & gs' & wm' & Hk & Hw & Hr3 & rd & Erd).
      exists (S k), ts', gs', wm'. rewrite Ek, Erd. split_and!; [cbn; lia|intros H; cbn; f_equal; by apply Hw|done|by exists rd].
    + eexists _, _, _, _. split; [done|]. split_and!; [congruence|congruence|intros Hf; by specialize (Tf Hf)|by rewrite Es].
  - destruct (IH n reader' _ _ _ _ _ comps _ _ Hst' ltac:(cbn in Hn; lia) Hr' Hok Hseq Htop) as (s3 & mem3 & c3 & r3 & -> & A1 & A2 & Af & Ar).
    eexists _, _, _, _. split; [done|]. split_and!; [congruence|congruence|done|]. intros Es3. destruct (Ar Es3) as (k & ts' & gs' & wm' & Hk & Hw & Hr3 & rd & Erd).
    exists (S k), ts', gs', wm'. rewrite Ek, Erd. split_and!; [cbn; lia|intros H; cbn; f_equal; by apply Hw|done|by exists rd].
Qed.

(** *** A log *)

(** Only these fields count. *)
Lemma replaying_ext vs0 top bs ts gs wm mem r r' : ry_state r' = ry_state r → ry_edit r' = ry_edit r → ry_save_manifest r' = ry_save_manifest r →
  ry_max_sequence r' = ry_max_sequence r → ry_written r' = ry_written r → replaying vs0 top bs ts gs wm mem r → replaying vs0 top bs ts gs wm mem r'.
Proof. intros E1 E2 E3 E4 E5 []. split; unfold ry_versions in *; rewrite ?E1, ?E2, ?E3, ?E4, ?E5; done. Qed.

(** Where the last log goes on, its memtable does; otherwise all writes are in tables. *)
Definition settled (r : Recovery (W := W)) (wm : list Write) : Prop :=
  match ry_mem r with
  | Some m => filled C m wm ∧ ∃ w, ry_log r = Some w ∧ 0 <= block_offset_ w <= Log.kBlockSize
  | None => wm = []
  end.

Lemma NewWriterAt_offset f n : 0 <= block_offset_ (NewWriterAt (W := W) f n) <= Log.kBlockSize.
Proof. cbn. pose proof (Z.mod_pos_bound n Log.kBlockSize eq_refl). lia. Qed.

Lemma RecoverLogFile_spec vs0 top n fuel number last batches sf bs ts gs r whole :
  oi_log_open io number = Ok sf → streams fuel (NewReader sf true true 0) (batch_record <$> batches) whole → (length batches < n)%nat →
  replaying vs0 top bs ts gs [] None r → ry_mem r = None → Forall batch_ok (bs ++ batches) → in_sequence (bs ++ batches) → top + Z.of_nat (length (bs ++ batches)) < 2 ^ 31 →
  ∃ s r', RecoverLogFile C base options oo n fuel io number last r = Some (s, r') ∧ (tables_fine → ok s = true) ∧
    (ok s = true → ∃ k ts' gs' wm' mem', (k <= length batches)%nat ∧ (whole → k = length batches) ∧ replaying vs0 top (bs ++ take k batches) ts' gs' wm' mem' r' ∧
      settled r' wm' ∧ (ry_mem r' = None → mem' = None) ∧ (last = false → ry_mem r' = None) ∧
      ∃ reader', ReadRecords n fuel (NewReader sf true true 0) = Some (batch_record <$> take k batches, reader')).
Proof using L LF Hsize.
  intros Ho Hst Hn Hr Hm0 Hok Hseq Htop. unfold RecoverLogFile. rewrite Ho.
  destruct (recover_records_spec _ _ _ _ _ _ _ _ _ _ _ 0 _ _ Hst Hn Hr Hok Hseq Htop) as (s & mem & c & r1 & -> & M1 & M2 & Hf & Hres). cbn [mbind option_bind].
  destruct (ok s) eqn:Es; cbn [andb].
  2: { exists s, r1. split; [by destruct mem|]. split; [intros H; by specialize (Hf H)|by rewrite Es]. }
  destruct (Hres eq_refl) as (k & ts' & gs' & wm' & Hk & Hw & Hr1 & Hrd). clear Hres.
  assert (Forall batch_ok (bs ++ take k batches)) as Hok' by (apply Forall_app in Hok as [? ?]; apply Forall_app; split; [done|by apply Forall_take]).
  assert (top + Z.of_nat (length (bs ++ take k batches)) < 2 ^ 31) as Htop' by (rewrite length_app in *; rewrite length_take; lia).
  assert (∃ s2 r2, (match mem with Some m => recover_table C options io m r1 | None => Some (s, r1) end) = Some (s2, r2) ∧ (tables_fine → ok s2 = true) ∧
    (ok s2 = true → ∃ ts2 gs2, replaying vs0 top (bs ++ take k batches) ts2 gs2 [] None r2 ∧ ry_mem r2 = None)) as (s2 & r2 & E2 & Hf2 & Hr2).
  { destruct mem as [m|].
    - destruct (recover_table_spec _ _ _ _ _ _ _ _ Hr1 Hok' Htop') as (s2 & r2 & E2 & T1 & T2 & Tf & Tr). exists s2, r2. split_and!; [done|done|].
      intros Es'. destruct (Tr Es') as (t & Hr2). eexists _, _. split; [exact Hr2|congruence].
    - exists s, r1. split_and!; [done|done|]. intros _. pose proof (rg_mem _ _ _ _ _ _ _ _ Hr1) as ->. exists ts', gs'. split; [done|congruence]. }
  assert (∃ s' r', (match mem with Some m => recover_table C options io m r1 | None => Some (s, r1) end) = Some (s', r') ∧ (tables_fine → ok s' = true) ∧
    (ok s' = true → ∃ k ts' gs' wm' mem', (k <= length batches)%nat ∧ (whole → k = length batches) ∧ replaying vs0 top (bs ++ take k batches) ts' gs' wm' mem' r' ∧
      settled r' wm' ∧ (ry_mem r' = None → mem' = None) ∧ (last = false → ry_mem r' = None) ∧
      ∃ reader', ReadRecords n fuel (NewReader sf true true 0) = Some (batch_record <$> take k batches, reader'))) as Hgo.
  { exists s2, r2. split_and!; [done|done|]. intros Es2. destruct (Hr2 Es2) as (ts2 & gs2 & Hr3 & Hm2). exists k, ts2, gs2, [], None. split_and!; try done. unfold settled. by rewrite Hm2. }
  destruct (reuse_logs oo && last && (c =? 0)) eqn:Er; [|exact Hgo].
  destruct (oi_log_size io number) as [sz|]; [|exact Hgo]. destruct (oi_log_append io number) as [f|]; [|exact Hgo]. clear Hgo.
  eexists _, _. split; [done|]. split; [done|]. intros _. exists k, ts', gs', wm', mem. apply andb_true_iff in Er as [[_ Hl]%andb_true_iff _]. split_and!; try done.
  - by eapply replaying_ext; [..|exact Hr1].
  - cbn. split; [|eexists; split; [done|apply NewWriterAt_offset]]. pose proof (rg_mem _ _ _ _ _ _ _ _ Hr1) as H. destruct mem as [m|]; [done|]. subst wm'. apply filled_Ref, NewMemTable_filled.
  - by rewrite Hl.
Qed.

(** *** All logs *)

  Context (log_batches : Z → list batch) (whole : Z → Prop) (n fuel : nat).

(** The file of the log holds its batches, or a part of them. *)
Definition log_file (number : Z) : Prop :=
  ∃ sf, oi_log_open io number = Ok sf ∧ streams fuel (NewReader sf true true 0) (batch_record <$> log_batches number) (whole number) ∧ (length (log_batches number) < n)%nat.

(** What is recovered of a log: its first batches, those that the reader returns. *)
Definition part_of (number : Z) (part : list batch) : Prop :=
  part `prefix_of` log_batches number ∧ (whole number → part = log_batches number) ∧
  ∃ sf reader, oi_log_open io number = Ok sf ∧ ReadRecords n fuel (NewReader sf true true 0) = Some (batch_record <$> part, reader).

Lemma replaying_mark vs0 top bs ts gs wm mem r number : 0 <= number < top → top < 2 ^ 31 → replaying vs0 top bs ts gs wm mem r →
  replaying vs0 top bs ts gs wm mem (with_ry_versions r (MarkFileNumberUsed number (ry_versions r))).
Proof.
  intros Hn Ht [R1 R2 R3 R4 R5 R6 R7 R8 R9 R10 R11 R12 R13 R14 R15]. set (vs := ry_versions r) in *.
  assert (same_versions vs (MarkFileNumberUsed number vs) ∧ vs_versions (MarkFileNumberUsed number vs) = vs_versions vs ∧
    vs_next_file_number vs <= vs_next_file_number (MarkFileNumberUsed number vs) <= top + Z.of_nat (length ts)) as (H1 & H2 & H3).
  { unfold MarkFileNumberUsed. destruct (Z.leb_spec (vs_next_file_number vs) number); [|split_and!; [apply same_versions_refl|done|lia|lia]].
    split_and!; [split; try done; cbn; rewrite u64_small by range_lia; lia|done|cbn; rewrite u64_small by range_lia; lia..]. }
  split; cbn [ry_versions with_ry_versions ry_state ts_versions ry_written ry_edit ry_save_manifest ry_max_sequence]; try done.
  - by rewrite H2.
  - by eapply same_versions_trans.
  - eapply Forall_impl; [exact R10|]. cbn beta. lia.
  - lia.
Qed.

Lemma in_sequence_cut bs part bs1 bs2 : part `prefix_of` bs1 → in_sequence (bs ++ bs1 ++ bs2) → in_sequence ((bs ++ part) ++ bs2).
Proof.
  intros [rest ->]. unfold in_sequence. rewrite !StronglySorted_app. intros (H1 & H2 & H3 & (H4 & H5 & H6) & H7). split_and!; try done.
  - intros b b' [Hb|Hb]%elem_of_app Hb'; [apply H1|apply H3]; set_solver.
  - intros b b' Hb Hb'. apply H1; set_solver.
Qed.

Lemma Forall_cut {A} (P : A → Prop) bs part bs1 bs2 : part `prefix_of` bs1 → Forall P (bs ++ bs1 ++ bs2) → Forall P ((bs ++ part) ++ bs2).
Proof. intros [rest ->]. rewrite !Forall_app. tauto. Qed.

Lemma recover_logs_spec vs0 top numbers : top < 2 ^ 31 → ∀ bs ts gs r, replaying vs0 top bs ts gs [] None r → ry_mem r = None →
  Forall log_file numbers → Forall (λ x, 0 <= x < top) numbers →
  Forall batch_ok (bs ++ concat (log_batches <$> numbers)) → in_sequence (bs ++ concat (log_batches <$> numbers)) → top + Z.of_nat (length (bs ++ concat (log_batches <$> numbers))) < 2 ^ 31 →
  ∃ s r', recover_logs C base options oo n fuel io numbers r = Some (s, r') ∧ (tables_fine → ok s = true) ∧
    (ok s = true → ∃ parts ts' gs' wm' mem', Forall2 part_of numbers parts ∧ replaying vs0 top (bs ++ concat parts) ts' gs' wm' mem' r' ∧ settled r' wm').
Proof using L LF Hsize.
  intros Ht. induction numbers as [|number numbers IH]; intros bs ts gs r Hr Hm Hlogs Htops Hok Hseq Hmax; cbn [recover_logs].
  { eexists _, _. split; [done|]. split; [done|]. intros _. exists [], ts, gs, [], None. split_and!; [constructor|by rewrite app_nil_r|]. unfold settled. by rewrite Hm. }
  apply Forall_cons in Hlogs as [(sf & Ho & Hst & Hn) Hlogs], Htops as [Htop Htops]. cbn [fmap list_fmap concat] in Hok, Hseq, Hmax.
  destruct (RecoverLogFile_spec vs0 top n fuel number (bool_decide (numbers = [])) (log_batches number) sf bs ts gs r (whole number)) as (s & r1 & -> & Hf & Hres); try done.
  { rewrite app_assoc in Hok. by apply Forall_app in Hok as [? _]. }
  { rewrite app_assoc in Hseq. by eapply in_sequence_prefix. }
  { rewrite !length_app in *. lia. }
  cbn [mbind option_bind]. destruct (ok s) eqn:Es; [|eexists _, _; split; [done|]; split; [intros H; by specialize (Hf H)|by rewrite Es]].
  destruct (Hres eq_refl) as (k & ts' & gs' & wm' & mem' & Hk & Hw & Hr1 & Hset & Hmem & Hlast & rd & Hrd). set (part := take k (log_batches number)) in *.
  assert (part_of number part) as Hpart by (split; [exists (drop k (log_batches number)); unfold part; by rewrite take_drop|split; [intros H; unfold part; rewrite (Hw H); apply firstn_all|by exists sf, rd]]).
  pose proof (replaying_mark _ _ _ _ _ _ _ _ number Htop Ht Hr1) as Hr2. set (r2 := with_ry_versions r1 _) in *.
  destruct (decide (numbers = [])) as [->|Hne].
  - cbn [recover_logs]. eexists _, _. split; [done|]. split; [done|]. intros _. exists [part], ts', gs', wm', mem'. split_and!; [by constructor|cbn; by rewrite app_nil_r|exact Hset].
  - rewrite bool_decide_eq_false_2 in Hlast by done. specialize (Hlast eq_refl). specialize (Hmem Hlast). subst mem'. unfold settled in Hset. rewrite Hlast in Hset. subst wm'.
    destruct (IH (bs ++ part) ts' gs' r2 Hr2 Hlast Hlogs Htops) as (s3 & r3 & -> & Hf3 & Hres3).
    + eapply Forall_cut; [apply Hpart|done].
    + eapply in_sequence_cut; [apply Hpart|done].
    + destruct Hpart as [[rest Erest] _]. rewrite Erest, !length_app in Hmax. rewrite !length_app. lia.
    + exists s3, r3. split_and!; [done|done|]. intros Es3. destruct (Hres3 Es3) as (parts & ts3 & gs3 & wm3 & mem3 & Hparts & Hr3 & Hset3).
      exists (part :: parts), ts3, gs3, wm3, mem3. split_and!; [by constructor|cbn; by rewrite app_assoc|done].
Qed.

End Replay.

(** ** The recovered tables *)

Section Recovered.
  Context (C : Comparator) {L : ComparatorLaws C} {W : WritableFile} {F : SequentialFile} (io : OpenIO (W := W) (F := F)).
  Context (cache_get : FileMetaData → nat → bytes → Status * option (bytes * bytes)) (contents : FileMetaData → list Write).

Abbreviation ti := (oi_tables io).

  Context (vs0 : VersionSet (W := W)) (top : Z) (bs : list batch) (ts : list (Z * list Write)) (gs : list (list Write)) (wm : list Write)
    (mem : option MemTable) (r : Recovery (W := W)).
  Hypothesis Hr : replaying C io vs0 top bs ts gs wm mem r.
  Hypothesis Hf0 : files_ok C cache_get contents vs0.
  Hypothesis Hok : Forall batch_ok bs.
  Hypothesis Hseq : in_sequence bs.
  Hypothesis Hold : ∀ w b, w ∈ version_holds contents vs0 → b ∈ bs → wseq w < b.1.
  Hypothesis Hwritten : ∀ t, t ∈ ts → t.2 ≠ [] → table_written C cache_get contents ti t.1 t.2.

Lemma replay_split : ascending (concat gs ++ wm) ∧ Forall write_ok (concat gs ++ wm).
Proof using Hr Hok Hseq. rewrite (rg_writes _ _ _ _ _ _ _ _ _ _ Hr). split; [by apply in_sequence_ascending|by apply batches_writes_ok]. Qed.

Lemma tables_writes w : (∃ t, t ∈ ts ∧ w ∈ t.2) ↔ w ∈ concat gs.
Proof using Hr.
  rewrite elem_of_concat. pose proof (rg_tables _ _ _ _ _ _ _ _ _ _ Hr) as H2. split.
  - intros (t & [i Hi]%list_elem_of_lookup_1 & Hw). destruct (Forall2_lookup_l _ _ _ _ _ H2 Hi) as (g & Hg & Hp & _). exists g. split; [by rewrite <-Hp|by eapply list_elem_of_lookup_2].
  - intros (g & Hw & [i Hi]%list_elem_of_lookup_1). destruct (Forall2_lookup_r _ _ _ _ _ H2 Hi) as (t & Ht & Hp & _). exists t. split; [by eapply list_elem_of_lookup_2|by rewrite Hp].
Qed.

Lemma table_write_ok t w : t ∈ ts → w ∈ t.2 → write_ok w ∧ w ∈ writes_of_batches bs.
Proof using Hr Hok.
  intros Ht Hw. assert (w ∈ writes_of_batches bs) as Hin by (rewrite <-(rg_writes _ _ _ _ _ _ _ _ _ _ Hr), elem_of_app; left; apply tables_writes; eauto).
  split; [|done]. pose proof (batches_writes_ok _ Hok) as H. rewrite Forall_forall in H. by apply H.
Qed.

Lemma written_sorted t : t ∈ ts → StronglySorted (before C) t.2.
Proof using Hr.
  intros [i Hi]%list_elem_of_lookup_1. by destruct (Forall2_lookup_l _ _ _ _ _ (rg_tables _ _ _ _ _ _ _ _ _ _ Hr) Hi) as (g & _ & _ & ?).
Qed.

(** A table as a file of level 0. *)
Lemma new_table t f0 : t ∈ ts → table_of io t = Some f0 → let f := new_file f0 in
  file_ok C f ∧ bounded C contents f ∧ TableReads C cache_get contents f ∧ canonical f ∧ number f = t.1 ∧ contents f = t.2.
Proof using L Hr Hok Hwritten.
  intros Ht E. unfold table_of in E. destruct t as [n ws]. cbn [fst snd] in *. destruct ws as [|w0 ws]; [done|]. injection E as <-.
  destruct (last (w0 :: ws)) as [wl|] eqn:El; [|by apply last_None in El]. cbn [default from_option]. apply table_file_ok; try done.
  - apply Forall_forall. intros w Hw. by apply (table_write_ok (n, w0 :: ws)).
  - by apply (written_sorted (n, w0 :: ws)).
  - by apply (Hwritten (n, w0 :: ws)).
Qed.

Lemma seq_newer ws1 ws2 : Forall write_ok ws1 → Forall write_ok ws2 → (∀ w1 w2, w1 ∈ ws1 → w2 ∈ ws2 → wseq w2 < wseq w1) → newer C ws1 ws2.
Proof. intros H1 H2 H w1 w2 Hw1 Hw2 _. rewrite Forall_forall in H1, H2. apply tag_lt; auto. Qed.

Lemma table_writes_ok t : t ∈ ts → Forall write_ok t.2.
Proof using Hr Hok. intros Ht. apply Forall_forall. intros w Hw. by apply (table_write_ok t). Qed.

(** Later tables are newer. *)
Lemma tables_newer i j t t' : (i < j)%nat → ts !! i = Some t → ts !! j = Some t' → newer C t'.2 t.2.
Proof using Hr Hok Hseq.
  intros Hij Hi Hj. apply seq_newer; [apply table_writes_ok; by eapply list_elem_of_lookup_2..|]. intros w' w Hw' Hw.
  pose proof (rg_tables _ _ _ _ _ _ _ _ _ _ Hr) as H2. destruct (Forall2_lookup_l _ _ _ _ _ H2 Hi) as (g & Hg & Hp & _), (Forall2_lookup_l _ _ _ _ _ H2 Hj) as (g' & Hg' & Hp' & _).
  destruct replay_split as [Ha _]. apply StronglySorted_app_1_l in Ha. rewrite Hp in Hw. rewrite Hp' in Hw'.
  rewrite <-(take_drop j gs), concat_app in Ha. eapply (StronglySorted_app_1_elem_of _ _ _ _ _ Ha).
  - apply elem_of_concat. exists g. split; [done|]. apply (list_elem_of_lookup_2 _ i). by rewrite lookup_take_lt.
  - apply elem_of_concat. exists g'. split; [done|]. apply (list_elem_of_lookup_2 _ 0). by rewrite lookup_drop, Nat.add_0_r.
Qed.

Lemma replay_newer ws : Forall write_ok ws → (∀ w, w ∈ ws → w ∈ writes_of_batches bs) → newer C ws (version_holds contents vs0).
Proof using Hf0 Hold.
  intros Hws Hin. apply seq_newer; [done| |].
  - apply Forall_forall. intros w (level & f & _ & Hfl & Hw)%elem_version_writes. destruct (vo_file _ _ _ _ (vf_version _ _ _ _ Hf0) level f Hfl) as (_ & [Hb _] & _). by apply Hb.
  - intros w1 w2 H1 H2. apply Hin in H1 as (b & Hb & Hw)%elem_writes_of_batches. pose proof (batch_seqs _ _ Hw). pose proof (Hold w2 b H2 Hb). lia.
Qed.

(** *** Installing the tables *)

  Context (vs1 : VersionSet (W := W)) (e : VersionEdit).
  Hypothesis Hsame : files_ (current vs1) = files_ (current vs0).
  Hypothesis Hf1 : files_ok C cache_get contents vs1.
  Hypothesis Hnext : vs_next_file_number (ry_versions r) <= vs_next_file_number vs1 < 2 ^ 31.
  Hypothesis Hdel : deleted_files_ e = deleted_files_ (ry_edit r).
  Hypothesis Hnew : new_files_ e = new_files_ (ry_edit r).

Lemma new_elem level f0 : (Z.of_nat level, f0) ∈ new_files_ e ↔ level = 0%nat ∧ ∃ i t, ts !! i = Some t ∧ table_of io t = Some f0.
Proof using Hr Hnew.
  rewrite Hnew, (rg_new _ _ _ _ _ _ _ _ _ _ Hr), list_elem_of_fmap. split.
  - intros (g & [= E ->] & (t & [i Hi]%list_elem_of_lookup_1 & Ht)%list_elem_of_omap). split; [lia|eauto].
  - intros [-> (i & t & Hi & Ht)]. exists f0. split; [done|]. apply list_elem_of_omap. exists t. split; [by eapply list_elem_of_lookup_2|done].
Qed.

Lemma replayed_live level f : live (current vs1) e level f ↔
  f ∈ level_files (current vs1) level ∨ level = 0%nat ∧ ∃ i t f0, ts !! i = Some t ∧ table_of io t = Some f0 ∧ f = new_file f0.
Proof using Hr Hdel Hnew.
  unfold live, after_edit. rewrite Hdel, (rg_deleted _ _ _ _ _ _ _ _ _ _ Hr). setoid_rewrite new_elem. split.
  - intros [[H _]|(f0 & [-> (i & t & H1 & H2)] & ->)]; [by left|right; eauto 8].
  - intros [H|[-> (i & t & f0 & H1 & H2 & ->)]]; [left; split; [done|apply not_elem_of_nil]|right; eauto 8].
Qed.

Lemma old_number level f : f ∈ level_files (current vs1) level → number f < vs_next_file_number vs0.
Proof using Hf0 Hsame. rewrite (level_files_eq (current vs0) (current vs1) level Hsame). intros H. by apply (vf_number _ _ _ _ Hf0 level f). Qed.

Lemma new_number i t : ts !! i = Some t → vs_next_file_number vs0 <= t.1 < vs_next_file_number vs1.
Proof using Hr Hnext. intros H. pose proof (rg_numbers _ _ _ _ _ _ _ _ _ _ Hr) as Hn. pose proof (Forall_lookup_1 _ _ _ _ Hn H). cbn beta in *. lia. Qed.

Lemma number_index i j t t' : ts !! i = Some t → ts !! j = Some t' → t.1 < t'.1 → (i < j)%nat.
Proof using Hr.
  intros Hi Hj Hlt. destruct (Nat.lt_trichotomy i j) as [?|[->|Hgt]]; [done|exfalso..]; [rewrite Hi in Hj; injection Hj as ->; lia|].
  pose proof (sorted_at _ _ _ _ _ _ (rg_order _ _ _ _ _ _ _ _ _ _ Hr) Hgt Hj Hi) as H. cbn beta in H. lia.
Qed.

Lemma replayed_live_ok : live_ok C cache_get contents (live (current vs1) e) (vs_next_file_number vs1).
Proof using L Hr Hf0 Hf1 Hok Hseq Hold Hwritten Hsame Hnext Hdel Hnew.
  eapply live_ok_ext; [exact replayed_live|]. pose proof (vf_next _ _ _ _ Hf0) as Hn0. destruct (files_live_ok C cache_get contents vs1 (vs_next_file_number vs1) Hf1 ltac:(lia)) as [L1 L2 L3 L4 L5].
  assert (∀ i t level f, ts !! i = Some t → f ∈ level_files (current vs1) level → newer C t.2 (contents f)) as Hnewer.
  { intros i t level f Hi Hin w1 w2 H1 H2. eapply replay_newer; [apply (table_writes_ok t); by eapply list_elem_of_lookup_2| |done| ].
    - intros w Hw. by eapply (table_write_ok t); [eapply list_elem_of_lookup_2|].
    - unfold version_holds. rewrite <-(version_writes_eq contents _ _ Hsame). apply elem_version_writes. exists level, f. split_and!; [|done|done]. by apply (elem_level (current vs1) level f); [apply Hf1|]. }
  split.
  - intros level f [H|[-> (i & t & f0 & Hi & Ht & ->)]]; [by eapply L1|]. destruct (new_table t f0) as (T1 & T2 & T3 & T4 & T5 & T6); [by eapply list_elem_of_lookup_2|done|].
    rewrite T5. pose proof (new_number i t Hi). split_and!; try done; lia.
  - intros l1 l2 f g [H1|[-> (i & t & f0 & Hi & Ht & ->)]] [H2|[-> (j & t' & g0 & Hj & Ht' & ->)]] E; [by apply L2|exfalso|exfalso|].
    + destruct (new_table t' g0) as (_ & _ & _ & _ & T5 & _); [by eapply list_elem_of_lookup_2|done|]. pose proof (new_number j t' Hj). pose proof (old_number _ _ H1). lia.
    + destruct (new_table t f0) as (_ & _ & _ & _ & T5 & _); [by eapply list_elem_of_lookup_2|done|]. pose proof (new_number i t Hi). pose proof (old_number _ _ H2). lia.
    + destruct (new_table t f0) as (_ & _ & _ & _ & T5 & _); [by eapply list_elem_of_lookup_2|done|]. destruct (new_table t' g0) as (_ & _ & _ & _ & T5' & _); [by eapply list_elem_of_lookup_2|done|].
      rewrite T5, T5' in E. destruct (Nat.lt_trichotomy i j) as [Hlt|[->|Hlt]]; [|rewrite Hi in Hj; injection Hj as ->; rewrite Ht in Ht'; by injection Ht' as ->|];
        [pose proof (sorted_at _ _ _ _ _ _ (rg_order _ _ _ _ _ _ _ _ _ _ Hr) Hlt Hi Hj) as H|pose proof (sorted_at _ _ _ _ _ _ (rg_order _ _ _ _ _ _ _ _ _ _ Hr) Hlt Hj Hi) as H]; cbn beta in H; lia.
  - intros level f g Hl [H1|[E1 _]] [H2|[E2 _]] Hne; [by eapply L3|lia..].
  - intros f g [H1|[_ (i & t & f0 & Hi & Ht & ->)]] [H2|[_ (j & t' & g0 & Hj & Ht' & ->)]] Hlt; [by apply L4| | |].
    + destruct (new_table t' g0) as (_ & _ & _ & _ & T5 & _); [by eapply list_elem_of_lookup_2|done|]. pose proof (new_number j t' Hj). pose proof (old_number _ _ H1). lia.
    + destruct (new_table t f0) as (_ & _ & _ & _ & _ & ->); [by eapply list_elem_of_lookup_2|done|]. by eapply Hnewer.
    + destruct (new_table t f0) as (_ & _ & _ & _ & T5 & ->); [by eapply list_elem_of_lookup_2|done|]. destruct (new_table t' g0) as (_ & _ & _ & _ & T5' & ->); [by eapply list_elem_of_lookup_2|done|].
      rewrite T5, T5' in Hlt. eapply (tables_newer j i); [by eapply number_index|done|done].
  - intros i j f g Hij [H1|[E1 (k & t & f0 & Hk & Ht & ->)]] [H2|[E2 _]]; [by eapply L5|lia| |lia].
    destruct (new_table t f0) as (_ & _ & _ & _ & _ & ->); [by eapply list_elem_of_lookup_2|done|]. by eapply Hnewer.
Qed.

Lemma recovered_installed vs' cp store : files_ (current vs') = files_ (SaveTo C (Apply C (NewBuilder (current vs1) cp store) e)).1 →
  vs_next_file_number vs' = vs_next_file_number vs1 → 1 <= v_refs_ (current vs') ∧ (current_id vs' < vs_next_id vs')%nat →
  files_ok C cache_get contents vs' ∧ ∀ w, w ∈ version_holds contents vs' ↔ w ∈ concat gs ++ version_holds contents vs0.
Proof using L Hr Hf0 Hf1 Hok Hseq Hold Hwritten Hsame Hnext Hdel Hnew.
  intros Hfiles En Hrefs. pose proof (vf_next _ _ _ _ Hf0) as Hn0. pose proof (sv_next _ _ (rg_same _ _ _ _ _ _ _ _ _ _ Hr)) as Hn1. pose proof replayed_live_ok as Hlive.
  assert (∀ level f0, (Z.of_nat level, f0) ∈ new_files_ e → ∃ i t, ts !! i = Some t ∧ number (new_file f0) = t.1 ∧ table_of io t = Some f0) as Hnum.
  { intros level f0 [_ (i & t & Hi & Ht)]%new_elem. exists i, t. destruct (new_table t f0) as (_ & _ & _ & _ & T5 & _); [by eapply list_elem_of_lookup_2|done|]. done. }
  assert (edit_levels_ok e) as Hlev.
  { split; [rewrite Hdel, (rg_deleted _ _ _ _ _ _ _ _ _ _ Hr); constructor|]. rewrite Hnew, (rg_new _ _ _ _ _ _ _ _ _ _ Hr). apply Forall_fmap, Forall_forall. intros f _. cbn. done. }
  assert (∀ f g, involved (current vs1) e f → involved (current vs1) e g → number f = number g → f = g) as HU.
  { assert (∀ f, involved (current vs1) e f → ∃ level, live (current vs1) e level f) as Hinv.
    { intros f [[level H]|(level & f0 & H & ->)]; exists level; apply replayed_live; [by left|right]. apply new_elem in H as [-> (i & t & H1 & H2)]. split; [done|]. eauto 8. }
    intros f g [l1 H1]%Hinv [l2 H2]%Hinv E. by apply (lo_unique _ _ _ _ _ Hlive l1 l2). }
  assert (∀ level f0, (Z.of_nat level, f0) ∈ new_files_ e → new_file f0 ∉ level_files (current vs1) level) as Hfresh.
  { intros level f0 (i & t & Hi & E & _)%Hnum Hin. pose proof (new_number i t Hi). pose proof (old_number _ _ Hin). lia. }
  rewrite <-En in Hlive. split; [apply (files_ok_install C cache_get contents vs1 vs' e cp store); (done || lia)|]. intros w.
  rewrite (installed_writes C cache_get contents vs1 vs' e cp store) by (done || lia). rewrite elem_of_app, <-tables_writes. unfold version_holds. rewrite <-(version_writes_eq contents _ _ Hsame).
  rewrite elem_version_writes. setoid_rewrite replayed_live. split.
  - intros (level & f & Hl & [Hf|[-> (i & t & f0 & Hi & Ht & ->)]] & Hw); [right; eauto|left]. destruct (new_table t f0) as (_ & _ & _ & _ & _ & T6); [by eapply list_elem_of_lookup_2|done|].
    rewrite T6 in Hw. exists t. split; [by eapply list_elem_of_lookup_2|done].
  - intros [(t & [i Hi]%list_elem_of_lookup_1 & Hw)|(level & f & Hl & Hf & Hw)]; [|exists level, f; tauto]. destruct (table_of io t) as [f0|] eqn:Ht; [|unfold table_of in Ht; destruct (t.2); [by apply not_elem_of_nil in Hw|done]].
    exists 0%nat, (new_file f0). split; [rewrite seven_levels; lia|]. split; [right; split; [done|]; eauto 8|]. destruct (new_table t f0) as (_ & _ & _ & _ & _ & ->); [by eapply list_elem_of_lookup_2|done|]. done.
Qed.

(** *** The history of the opened database *)

Definition recovered_history : list Write := version_holds contents vs0 ++ writes_of_batches bs.

Lemma version_write_ok w : w ∈ version_holds contents vs0 → write_ok w.
Proof using Hf0. intros (level & f & _ & Hfl & Hw)%elem_version_writes. destruct (vo_file _ _ _ _ (vf_version _ _ _ _ Hf0) level f Hfl) as (_ & [Hb _] & _). by apply Hb. Qed.

Lemma recovered_distinct : distinct C (version_holds contents vs0) → distinct C recovered_history.
Proof using Hf0 Hok Hseq Hold.
  intros Hd w1 w2 H1 H2 Ek Et. pose proof (batches_writes_ok _ Hok) as Hbok. rewrite Forall_forall in Hbok. unfold recovered_history in *.
  assert (∀ w w', w ∈ version_holds contents vs0 → w' ∈ writes_of_batches bs → wseq w < wseq w') as Hlt.
  { intros w w' Hw (b & Hb & Hw')%elem_writes_of_batches. pose proof (batch_seqs _ _ Hw'). pose proof (Hold w b Hw Hb). lia. }
  apply elem_of_app in H1 as [H1|H1], H2 as [H2|H2]; [by apply Hd|exfalso|exfalso|].
  - pose proof (tag_seq w1 w2 (version_write_ok _ H1) (Hbok _ H2) Et). pose proof (Hlt _ _ H1 H2). lia.
  - pose proof (tag_seq w1 w2 (Hbok _ H1) (version_write_ok _ H2) Et). pose proof (Hlt _ _ H2 H1). lia.
  - pose proof (tag_seq w1 w2 (Hbok _ H1) (Hbok _ H2) Et) as Es. pose proof (in_sequence_ascending _ Hseq) as Ha.
    apply list_elem_of_lookup_1 in H1 as [i Hi], H2 as [j Hj]. destruct (Nat.lt_trichotomy i j) as [Hij|[->|Hij]]; [|congruence|].
    + pose proof (sorted_at _ _ _ _ _ _ Ha Hij Hi Hj). cbn beta in *. lia.
    + pose proof (sorted_at _ _ _ _ _ _ Ha Hij Hj Hi). cbn beta in *. lia.
Qed.

Lemma recovered_represents (db : DBImpl (W := W)) : distinct C (version_holds contents vs0) → Forall (λ w, wseq w <= vs_last_sequence (versions_ db)) (version_holds contents vs0) →
  ry_max_sequence r <= vs_last_sequence (versions_ db) < kMaxSequenceNumber → files_ok C cache_get contents (versions_ db) → descriptor_ok (versions_ db) →
  (∀ w, w ∈ version_holds contents (versions_ db) ↔ w ∈ concat gs ++ version_holds contents vs0) →
  filled C (mem_ db) wm → imm_ db = None → tmp_batch_ db = NewWriteBatch → 0 <= block_offset_ (log_ db) <= Log.kBlockSize →
  represents C cache_get contents db recovered_history.
Proof using L Hr Hf0 Hok Hseq Hold.
  clear Hnext. intros Hd Hlast Hmax Hf Hdesc Hholds Hm Hi Ht Hlog. destruct replay_split as [Ha Hwok]. apply Forall_app in Hwok as [Hgok Hmok]. rewrite Forall_forall in Hgok.
  pose proof (rg_writes _ _ _ _ _ _ _ _ _ _ Hr) as Hw. pose proof (rg_max_range _ _ _ _ _ _ _ _ _ _ Hr). split; try done.
  - exists wm, []. split.
    + split; [done|by rewrite Hi| |by intros w1 w2 ?%not_elem_of_nil]. cbn [app]. intros w1 w2 H1 [H2|H2]%Hholds%elem_of_app E.
      * rewrite Forall_forall in Hmok. apply tag_lt; [by apply Hmok|by apply Hgok|]. by apply (StronglySorted_app_1_elem_of _ _ _ _ _ Ha).
      * apply (replay_newer wm Hmok); [|done|done|done]. intros w Hwm. rewrite <-Hw. apply elem_of_app. by right.
    + intros w. unfold recovered_history. rewrite <-Hw, !elem_of_app, Hholds, !elem_of_app. pose proof (not_elem_of_nil w). tauto.
  - apply Forall_app. split; [apply Forall_forall; intros w; apply version_write_ok|by apply batches_writes_ok].
  - apply Forall_app. split; [done|]. eapply Forall_impl; [exact (rg_max _ _ _ _ _ _ _ _ _ _ Hr)|]. cbn beta. lia.
  - lia.
  - by apply recovered_distinct.
Qed.

End Recovered.

(** ** Opening *)

Section Opened.
  Context (C : Comparator) {L : ComparatorLaws C} (base : nat → Z) {W : WritableFile} {LW : WritableFileLaws W} {F : SequentialFile} {LF : SequentialFileLaws F}.
  Context (options : Options) (oo : OpenOptions) (dbname : bytes) (io : OpenIO (W := W) (F := F)) (n fuel : nat).
  Context (cache_get : FileMetaData → nat → bytes → Status * option (bytes * bytes)) (contents : FileMetaData → list Write).
  Context (log_batches : Z → list batch) (whole : Z → bool).

(** The log was written in one or more sessions; a crash may have cut it off. *)
Definition log_holds (number : Z) : Prop :=
  ∃ f sessions f' sf, wvalid f ∧ wcontents f = [] ∧ write_sessions f sessions = Some f' ∧ concat sessions = batch_record <$> log_batches number ∧
    oi_log_open io number = Ok sf ∧ svalid sf ∧ remaining sf `prefix_of` wcontents f' ∧ (whole number = true → remaining sf = wcontents f') ∧
    (length (log_batches number) < n)%nat ∧ (length (wcontents f') < fuel)%nat.

Lemma log_holds_file number : log_holds number → log_file io log_batches (λ number, whole number = true) n fuel number.
Proof using LW.
  intros (f & sessions & f' & sf & Hv & Hc & E & Es & Ho & Hsv & Hpre & Hw & Hn & Hfuel). destruct (write_sessions_spec sessions f [] [] [] Hv Hc) as (f2 & fss & E2 & _ & Hf & Hok & Hl).
  { split; [constructor|done]. }
  rewrite E in E2. injection E2 as <-. cbn [app] in Hf. rewrite Es in Hf. exists sf. split; [done|]. split; [|done].
  exists Log.kBlockSize, (remaining sf), fss. pose proof (layout_block (concat fss)) as (El & _ & Ef & _). rewrite El. split_and!; try done.
  - by rewrite <-Hl.
  - by apply Ef.
  - intros fs Hin. apply list_elem_of_lookup_1 in Hin as [i Hi]. apply take_drop_middle in Hi. assert (length fs <= length (concat fss))%nat.
    { rewrite <-Hi, concat_app, concat_cons, !length_app. lia. }
    pose proof (length_fragments (concat fss) 0) as Hlen. rewrite <-Hl in Hlen. unfold size in Hlen. lia.
  - lia.
  - intros H. rewrite (Hw H). exact Hl.
Qed.

(** What the descriptor and the directory hold when the database is opened. *)
Record openable (vs : VersionSet (W := W)) (save : bool) (filenames : list bytes) (top : Z) : Prop := {
  oa_lock : oi_lock io = Status_OK;
  oa_current : oi_current_exists io = true ∧ error_if_exists oo = false;
  oa_recover : Recover C n fuel (oi_recover io None) NewVersionSet = Some (Status_OK, save, vs);
  oa_children : oi_children io = Ok filenames;
  oa_present : missing_files vs filenames = ∅;
  oa_files : files_ok C cache_get contents vs;
  oa_distinct : distinct C (version_holds contents vs);
  oa_last : Forall (λ w, wseq w <= vs_last_sequence vs) (version_holds contents vs);
  oa_last_range : 0 <= vs_last_sequence vs < kMaxSequenceNumber;
  oa_logs : Forall log_holds (log_numbers vs filenames);
  oa_batches : Forall batch_ok (concat (log_batches <$> log_numbers vs filenames));
  oa_sequence : in_sequence (concat (log_batches <$> log_numbers vs filenames));
  oa_older w b : w ∈ version_holds contents vs → b ∈ concat (log_batches <$> log_numbers vs filenames) → wseq w < b.1;
  oa_numbers : Forall (λ x, 0 <= x < top) (log_numbers vs filenames);
  oa_next : vs_next_file_number vs <= top;
  oa_top : top + Z.of_nat (length (concat (log_batches <$> log_numbers vs filenames))) + 1 < 2 ^ 31;
  oa_size es : es ≠ [] → 0 < io_final_size (oi_tables io) es;
}.

(** An environment without errors. *)
Record open_fine : Prop := {
  of_tables : tables_fine io;
  of_new_log number : ok (oi_new_log io number).1 = true;
  of_save e vs : descriptor_ok vs → ∃ e' vs', LogAndApply C (oi_manifest io) e vs = Some (Status_OK, e', vs');
}.

(** The version that is recovered. *)
Lemma Recover_version rio save (vs : VersionSet (W := W)) : Recover C n fuel rio NewVersionSet = Some (Status_OK, save, vs) → pickable (current vs) ∧ descriptor_ok vs.
Proof.
  assert (pickable (current (NewVersionSet (W := W))) ∧ descriptor_ok (NewVersionSet (W := W))) as H0 by (split; [split; [intros H; by vm_compute in H|done]|done]).
  unfold Recover. destruct (ri_current rio) as [line|s]; [|by intros [= _ _ <-]]. destruct (ends_with_newline line); [|done]. cbn [negb].
  destruct (ri_open rio _) as [file|s]; [|by intros [= _ _ <-]]. destruct (recover_loop _ _ _ _ _ _) as [[s rc]|]; [|done]. cbn [mbind option_bind].
  destruct (ok (if ok s then _ else s)) eqn:Es; [|intros [= E _ _]; rewrite E in Es; by destruct (ok s)].
  assert (file_to_compact_ (SaveTo C (rc_builder rc)).1 = None) as Hn by (unfold SaveTo; by destruct (save_levels _ _ _ _)). destruct (SaveTo C (rc_builder rc)) as [v store]. cbn [fst] in Hn.
  set (vs1 := AppendVersion (Finalize v) _). assert (pickable (current vs1) ∧ descriptor_ok vs1) as [Hp Hd].
  { split; [unfold current, vs1; rewrite append_last; cbn [from_option snd]; eapply pickable_eq; [..|exact (Finalize_pickable v Hn)]; done|].
    unfold descriptor_ok, vs1. destruct (ok s); [|done]. unfold MarkFileNumberUsed. by repeat case_match. }
  set (vs2 := with_numbers vs1 _ _ _ _ _). assert (pickable (current vs2) ∧ descriptor_ok vs2) as [Hp2 Hd2] by done. clearbody vs2.
  assert (pickable (current (ReuseManifest rio (resize (size line - 1) line) vs2).2) ∧ descriptor_ok (ReuseManifest rio (resize (size line - 1) line) vs2).2) as [Hp3 Hd3].
  { unfold ReuseManifest. repeat case_match; try done; (split; [done|]); unfold descriptor_ok; cbn [snd descriptor_log_ with_numbers with_descriptor]; apply NewWriterAt_offset. }
  destruct (ReuseManifest rio _ vs2) as [reuse vs3]. cbn [snd] in *. intros [= _ _ <-]. done.
Qed.

(** *** Version sets with the recovered version *)

Record extends (vs vs' : VersionSet (W := W)) : Prop := {
  ex_versions : vs_versions vs' = vs_versions vs;
  ex_next : vs_next_file_number vs <= vs_next_file_number vs';
  ex_id : vs_next_id vs' = vs_next_id vs;
  ex_descriptor : descriptor_ok vs → descriptor_ok vs';
}.

Lemma extends_current vs vs' : extends vs vs' → current vs' = current vs.
Proof. intros [E _ _ _]. unfold current. by rewrite E. Qed.

Lemma extends_files_ok vs vs' : extends vs vs' → files_ok C cache_get contents vs → files_ok C cache_get contents vs'.
Proof.
  intros [E1 E2 E3 E4] [V1 V2 V3 V4 V5 V6 V7 V8 V9 V10]. assert (current vs' = current vs ∧ current_id vs' = current_id vs) as [Ec Ei] by (unfold current, current_id; by rewrite E1).
  split; rewrite ?Ec, ?Ei, ?E3; try done; [|lia]. intros level f Hf. specialize (V4 level f Hf). lia.
Qed.

Lemma same_extends vs vs' : vs_versions vs' = vs_versions vs → same_versions vs vs' → extends vs vs'.
Proof. intros E [_ _ H1 H2 _ [_ H3]]. by split. Qed.

Lemma extends_last vs vs' s : extends vs vs' → extends vs (SetLastSequence s vs').
Proof. intros []. by split. Qed.

Lemma extends_number vs vs' : extends vs vs' → 0 <= vs_next_file_number vs' < 2 ^ 31 → extends vs (NewFileNumber vs').2.
Proof.
  intros [E1 E2 E3 E4] Hn. destruct (NewFileNumber vs') as [k vs2] eqn:E. destruct (NewFileNumber_same vs' k vs2 E) as (_ & Hs & Hnext); [range_lia|range_lia|].
  assert (vs_versions vs2 = vs_versions vs') as Ev by (by injection E as _ <-). destruct Hs as [_ _ S1 S2 _ [_ S3]]. split; cbn [snd]; [congruence|lia|congruence|auto].
Qed.

(** *** Saving what was recovered *)

Section Finish.
  Context (vs0 : VersionSet (W := W)) (top : Z) (bs : list batch) (ts : list (Z * list Write)) (gs : list (list Write)) (wm : list Write)
    (mem : option MemTable) (r r3 : Recovery (W := W)) (m : MemTable) (log : Log.Writer).
  Hypothesis Hr : replaying C io vs0 top bs ts gs wm mem r.
  Hypothesis Hf0 : files_ok C cache_get contents vs0.
  Hypothesis Hp0 : pickable (current vs0) ∧ descriptor_ok vs0.
  Hypothesis Hd0 : distinct C (version_holds contents vs0).
  Hypothesis Hok : Forall batch_ok bs.
  Hypothesis Hseq : in_sequence bs.
  Hypothesis Hold : ∀ w b, w ∈ version_holds contents vs0 → b ∈ bs → wseq w < b.1.
  Hypothesis Hlast : Forall (λ w, wseq w <= vs_last_sequence (ry_versions r3)) (version_holds contents vs0).
  Hypothesis Hmax : ry_max_sequence r <= vs_last_sequence (ry_versions r3) < kMaxSequenceNumber.
  Hypothesis Hex : extends vs0 (ry_versions r3).
  Hypothesis Hnext : vs_next_file_number (ry_versions r) <= vs_next_file_number (ry_versions r3) < 2 ^ 31.
  Hypothesis Hm : ry_mem r3 = Some m ∧ filled C m wm.
  Hypothesis Hlog : ry_log r3 = Some log ∧ 0 <= block_offset_ log <= Log.kBlockSize.
  Hypothesis Hedit : deleted_files_ (ry_edit r3) = deleted_files_ (ry_edit r) ∧ new_files_ (ry_edit r3) = new_files_ (ry_edit r).
  Hypothesis Hsave : ry_save_manifest r3 = ry_save_manifest r ∧ ry_written r3 = ry_written r.

(** The tables that were written can be read. *)
Definition tables_readable (written : list (Z * list entry)) : Prop :=
  ∀ number ws, Forall write_ok ws → ws ≠ [] → (number, entry_of_write <$> ws) ∈ written → table_written C cache_get contents (oi_tables io) number ws.

Lemma replay_readable t : tables_readable (ry_written r3) → t ∈ ts → t.2 ≠ [] → table_written C cache_get contents (oi_tables io) t.1 t.2.
Proof using Hr Hok Hsave.
  intros Ht Hin Hne. apply Ht; [by eapply table_writes_ok|done|]. destruct Hsave as [_ ->]. rewrite (rg_written _ _ _ _ _ _ _ _ _ _ Hr). apply list_elem_of_fmap. by exists t.
Qed.

Lemma save_spec : ∃ s r4, save_recovered C io r3 = Some (s, r4) ∧ ry_written r4 = ry_written r3 ∧ (open_fine → ok s = true) ∧
  (ok s = true → tables_readable (ry_written r3) → ∃ db, recovered_db r4 = Some db ∧ sound C cache_get contents db (recovered_history contents vs0 bs)).
Proof using L Hr Hf0 Hp0 Hd0 Hok Hseq Hold Hlast Hmax Hex Hnext Hm Hlog Hedit Hsave.
  set (vs3 := ry_versions r3) in *. destruct Hm as [Em Hm'], Hlog as [El Hl']. pose proof (extends_files_ok _ _ Hex Hf0) as Hf3. pose proof (ex_descriptor _ _ Hex (proj2 Hp0)) as Hdesc.
  assert (∀ vs' t, ts_versions t = vs' → pickable (current vs') → files_ok C cache_get contents vs' → descriptor_ok vs' → vs_last_sequence vs' = vs_last_sequence vs3 →
    (∀ w, w ∈ version_holds contents vs' ↔ w ∈ concat gs ++ version_holds contents vs0) →
    let db := MkDB m None log (ry_logfile_number r3) [] NewWriteBatch NewSnapshotList (ts_pending t) false None (ts_versions t) Status_OK false (ts_stats t) 0 (ts_worth t) in
    sound C cache_get contents db (recovered_history contents vs0 bs)) as Hsound.
  { intros vs' t <- Hp Hf Hd Hls Hh db. assert (represents C cache_get contents db (recovered_history contents vs0 bs)) as Hrep.
    { eapply recovered_represents; try done; subst db; cbn [versions_]; by rewrite Hls. }
    split; [split|split; [done|by subst db]].
    - eexists. split; [exact Hrep|apply reads_as_refl].
    - split; constructor.
    - apply Hrep.
    - apply Hrep. }
  pose proof replay_readable as Hread. unfold save_recovered. destruct (ry_save_manifest r3) eqn:Esave.
  - set (edit := VersionEdit.SetLogNumber _ _). fold vs3. destruct (LogAndApply_cases C (oi_manifest io) edit vs3 Hdesc) as (s & vs4 & E & Hd4 & N1 & N2 & _ & Hcase). rewrite E. cbn [mbind option_bind].
    eexists s, _. split; [done|]. split; [done|]. split. { intros Hfine. destruct (of_save Hfine edit vs3 Hdesc) as (e' & vs' & E'). rewrite E in E'. by injection E' as -> _ _. }
    intros Es Htr. rewrite Es in Hcase. destruct (installed_current vs3 vs4 _ Hcase) as [Hfiles Hrefs]. destruct (fill_edit_fields vs3 edit) as (D1 & D2 & _).
    assert (files_ (current vs3) = files_ (current vs0)) as Hcur by (by rewrite (extends_current _ _ Hex)).
    destruct (recovered_installed C io cache_get contents vs0 top bs ts gs wm mem r Hr Hf0 Hok Hseq Hold (λ t, Hread t Htr) vs3 (fill_edit vs3 edit) Hcur Hf3 Hnext) with (3 := Hfiles) as [Hf4 Hw4].
    + rewrite D1. apply Hedit.
    + rewrite D2. apply Hedit.
    + done.
    + done.
    + unfold recovered_db. cbn [ry_mem ry_log with_ry_versions]. rewrite Em, El. cbn [mbind option_bind]. eexists. split; [done|]. apply (Hsound vs4); try done.
      eapply LogAndApply_pickable; [exact E|]. rewrite (extends_current _ _ Hex). apply Hp0.
  - eexists _, _. split; [done|]. split; [done|]. split; [done|]. intros _ _. assert (ts = []) as Ets.
    { destruct ts; [done|]. pose proof (rg_save _ _ _ _ _ _ _ _ _ _ Hr ltac:(done)) as H. destruct Hsave as [E _]. congruence. }
    assert (gs = []) as Egs by (pose proof (rg_tables _ _ _ _ _ _ _ _ _ _ Hr) as H; rewrite Ets in H; by apply Forall2_nil_inv_l in H).
    unfold recovered_db. rewrite Em, El. cbn [mbind option_bind]. eexists. split; [done|]. apply (Hsound vs3); try done.
    + rewrite (extends_current _ _ Hex). apply Hp0.
    + intros w. rewrite Egs. cbn [concat app]. unfold version_holds. by rewrite (extends_current _ _ Hex).
Qed.

End Finish.

(** *** The whole *)

(** The state before the logs are read. *)
Definition start_recovery (save : bool) (vs : VersionSet (W := W)) : Recovery (W := W) :=
  MkRecovery (MkTableState vs ∅ (replicate num_levels NewCompactionStats) []) VersionEdit.Clear save 0 None None 0 [].

Lemma start_replaying save vs top : 0 <= vs_next_file_number vs <= top → replaying C io vs top [] [] [] [] None (start_recovery save vs).
Proof. intros H. split; try done; try (apply same_versions_refl); try (by constructor); cbn; lia. Qed.

Lemma recover_spec vs0 save filenames top : openable vs0 save filenames top → ∃ s r, DbRecover C base options oo dbname n fuel io NewRecovery = Some (s, r) ∧
  (tables_fine io → ok s = true) ∧
  (ok s = true → ∃ parts ts gs wm mem r1, Forall2 (part_of io log_batches (λ number, whole number = true) n fuel) (log_numbers vs0 filenames) parts ∧
     replaying C io vs0 top (concat parts) ts gs wm mem r1 ∧ settled C r wm ∧
     r = (if vs_last_sequence (ry_versions r1) <? ry_max_sequence r1 then with_ry_versions r1 (SetLastSequence (ry_max_sequence r1) (ry_versions r1)) else r1)).
Proof using L LW LF.
  intros [O1 [O2 O2'] O3 O4 O5 O6 O7 O8 O9 O10 O11 O12 O13 O14 O15 O16 O17]. unfold DbRecover, prepare. rewrite O1. change (ok Status_OK) with true. cbn [negb]. rewrite O2, O2'. cbn [mbind option_bind].
  change (ok Status_OK) with true. cbv iota. change (ry_versions NewRecovery) with (NewVersionSet (W := W)). rewrite O3. cbn [mbind option_bind]. change (ok Status_OK) with true. cbv iota. rewrite O4, decide_True by done.
  change (MkRecovery _ _ save _ _ _ _ _) with (start_recovery save vs0). pose proof (vf_next _ _ _ _ O6) as Hn0.
  destruct (recover_logs_spec C base options oo io O17 log_batches (λ number, whole number = true) n fuel vs0 top (log_numbers vs0 filenames) ltac:(lia) [] [] [] (start_recovery save vs0))
    as (s & r1 & E & Hf & Hres); try done.
  - apply start_replaying. lia.
  - eapply Forall_impl; [exact O10|]. intros number. apply log_holds_file.
  - cbn [app]. lia.
  - rewrite E. cbn [mbind option_bind]. eexists s, _. split; [done|]. split; [done|]. intros Es. rewrite Es. cbn [andb].
    destruct (Hres Es) as (parts & ts & gs & wm & mem & Hparts & Hr & Hset). exists parts, ts, gs, wm, mem, r1. split_and!; try done. unfold settled in *. by destruct (_ <? _).
Qed.

Lemma parts_cut numbers parts : Forall2 (part_of io log_batches (λ number, whole number = true) n fuel) numbers parts →
  (∀ b, b ∈ concat parts → b ∈ concat (log_batches <$> numbers)) ∧ (in_sequence (concat (log_batches <$> numbers)) → in_sequence (concat parts)) ∧
  (length (concat parts) <= length (concat (log_batches <$> numbers)))%nat.
Proof.
  induction 1 as [|number part numbers parts [[rest Erest] _] _ (IH1 & IH2 & IH3)]; [by split_and!|]. cbn. rewrite Erest. split_and!.
  - intros b. rewrite !elem_of_app. intros [?|?]; [by left; left|right; by apply IH1].
  - unfold in_sequence in *. rewrite !StronglySorted_app. intros (H1 & (H2 & H3 & H4) & H5). split_and!; [|done|by apply IH2]. intros b b' Hb Hb'. apply H1; [apply elem_of_app; by left|by apply IH1].
  - rewrite !length_app. lia.
Qed.

Lemma open_spec vs0 save filenames top : openable vs0 save filenames top → ∃ s odb removed written,
  Open C base options oo dbname n fuel io = Some (s, odb, removed, written) ∧ (open_fine → ok s = true) ∧
  (ok s = true → tables_readable written → ∃ db parts, odb = Some db ∧ Forall2 (part_of io log_batches (λ number, whole number = true) n fuel) (log_numbers vs0 filenames) parts ∧
     sound C cache_get contents db (recovered_history contents vs0 (concat parts))).
Proof using L LW LF.
  intros Ho. destruct (recover_spec _ _ _ _ Ho) as (s & r & E & Hf & Hres). unfold Open. rewrite E. cbn [mbind option_bind]. destruct (ok s) eqn:Es.
  2: { cbv iota. rewrite Es. cbn [mbind option_bind]. rewrite Es. eexists _, _, _, _. split; [done|]. split; [intros Hfine; by specialize (Hf (of_tables Hfine))|by rewrite Es]. }
  destruct (Hres eq_refl) as (parts & ts & gs & wm & mem & r1 & Hparts & Hr & Hset & Er). clear Hres Hf.
  destruct Ho as [O1 O2 O3 O4 O5 O6 O7 O8 O9 O10 O11 O12 O13 O14 O15 O16 O17]. destruct (parts_cut _ _ Hparts) as (P1 & P2 & P3). specialize (P2 O12).
  assert (Forall batch_ok (concat parts)) as Hbok by (rewrite Forall_forall in O11 |- *; intros b Hb; by apply O11, P1).
  pose proof (rg_top _ _ _ _ _ _ _ _ _ _ Hr) as Htop. pose proof (rg_count _ _ _ _ _ _ _ _ _ _ Hr) as Hcount. pose proof (rg_max_range _ _ _ _ _ _ _ _ _ _ Hr) as Hmr.
  pose proof (sv_last _ _ (rg_same _ _ _ _ _ _ _ _ _ _ Hr)) as Els.
  assert (vs_next_file_number (ry_versions r1) + 1 < 2 ^ 31) as Hnx by lia.
  assert (extends vs0 (ry_versions r) ∧ vs_next_file_number (ry_versions r) = vs_next_file_number (ry_versions r1) ∧
    vs_last_sequence (ry_versions r) = Z.max (vs_last_sequence vs0) (ry_max_sequence r1) ∧ ry_edit r = ry_edit r1 ∧ ry_save_manifest r = ry_save_manifest r1 ∧ ry_written r = ry_written r1)
    as (X1 & X2 & X3 & X4 & X5 & X6).
  { pose proof (same_extends _ _ (rg_versions _ _ _ _ _ _ _ _ _ _ Hr) (rg_same _ _ _ _ _ _ _ _ _ _ Hr)) as Hx. rewrite Er. destruct (Z.ltb_spec (vs_last_sequence (ry_versions r1)) (ry_max_sequence r1)) as [Hl|Hl].
    - split_and!; try done; [by apply extends_last|cbn; lia].
    - split_and!; try done. lia. }
  assert (∀ r3 m log, ry_mem r3 = Some m ∧ filled C m wm → ry_log r3 = Some log ∧ 0 <= block_offset_ log <= Log.kBlockSize → extends vs0 (ry_versions r3) →
    vs_next_file_number (ry_versions r1) <= vs_next_file_number (ry_versions r3) < 2 ^ 31 → vs_last_sequence (ry_versions r3) = vs_last_sequence (ry_versions r) →
    deleted_files_ (ry_edit r3) = deleted_files_ (ry_edit r1) ∧ new_files_ (ry_edit r3) = new_files_ (ry_edit r1) → ry_save_manifest r3 = ry_save_manifest r1 ∧ ry_written r3 = ry_written r1 →
    ∃ s r4, save_recovered C io r3 = Some (s, r4) ∧ ry_written r4 = ry_written r3 ∧ (open_fine → ok s = true) ∧
      (ok s = true → tables_readable (ry_written r3) → ∃ db, recovered_db r4 = Some db ∧ sound C cache_get contents db (recovered_history contents vs0 (concat parts)))) as Hfin.
  { intros r3 m log F1 F2 F3 F4 F5 F6 F7. apply (save_spec vs0 top (concat parts) ts gs wm mem r1 r3 m log); try done.
    - by apply (Recover_version (oi_recover io None) save).
    - intros w b Hw Hb. by apply O13, P1.
    - eapply Forall_impl; [exact O8|]. cbn beta. intros w Hw. rewrite F5, X3. lia.
    - rewrite F5, X3. lia. }
  assert (open_fine → ok (open_log base io r).1 = true) as Hopen.
  { intros Hfine. unfold open_log. destruct (ry_mem r); [done|]. destruct (NewFileNumber (ry_versions r)) as [k vs]. pose proof (of_new_log Hfine k) as H. by destruct (oi_new_log io k). }
  destruct (open_log base io r) as [s2 r3] eqn:Eo. cbn [fst] in Hopen. destruct (ok s2) eqn:Es2.
  2: { cbn [mbind option_bind]. rewrite ?Es2. eexists _, _, _, _. split; [done|]. split; [intros H; by specialize (Hopen H)|by rewrite Es2]. }
  assert (∃ m log, (ry_mem r3 = Some m ∧ filled C m wm) ∧ (ry_log r3 = Some log ∧ 0 <= block_offset_ log <= Log.kBlockSize) ∧ extends vs0 (ry_versions r3) ∧
    (vs_next_file_number (ry_versions r1) <= vs_next_file_number (ry_versions r3) < 2 ^ 31) ∧ vs_last_sequence (ry_versions r3) = vs_last_sequence (ry_versions r) ∧
    (deleted_files_ (ry_edit r3) = deleted_files_ (ry_edit r1) ∧ new_files_ (ry_edit r3) = new_files_ (ry_edit r1)) ∧ (ry_save_manifest r3 = ry_save_manifest r1 ∧ ry_written r3 = ry_written r1))
    as (m & log & F1 & F2 & F3 & F4 & F5 & F6 & F7).
  { unfold open_log in Eo. unfold settled in Hset. destruct (ry_mem r) as [m|] eqn:Em.
    - injection Eo as <- <-. destruct Hset as [Hm (log & Hlog)]. exists m, log. rewrite X2, X4. split_and!; try done; (lia || apply Hlog).
    - subst wm. destruct (NewFileNumber (ry_versions r)) as [k vs] eqn:En. destruct (NewFileNumber_same _ _ _ En) as (Ek & Hs & Hnext); [range_lia|range_lia|].
      pose proof (extends_number _ _ X1 ltac:(lia)) as X1'. rewrite En in X1'. cbn [snd] in X1'. destruct (oi_new_log io k) as [sl lfile]. injection Eo as <- <-. rewrite Es2.
      eexists _, _. split; [split; [done|apply filled_Ref, NewMemTable_filled]|]. split; [split; [done|cbn; unfold Log.kBlockSize; lia]|]. cbn. rewrite X4. split_and!; try done; try lia. apply (sv_last _ _ Hs). }
  destruct (Hfin r3 m log F1 F2 F3 F4 F5 F6 F7) as (s4 & r4 & E4 & W4 & Hf4 & Hres4). rewrite E4. cbn [mbind option_bind]. destruct (ok s4) eqn:Es4.
  - destruct (recovered_db r4) as [db|] eqn:Edb.
    + cbn [mbind option_bind]. eexists _, _, _, _. split; [done|]. split; [done|]. intros _ Htr. rewrite W4 in Htr. destruct (Hres4 eq_refl Htr) as (db' & [= <-] & Hsound). exists (MaybeScheduleCompaction db), parts.
      split_and!; [done|done|]. by apply sound_schedule.
    + exfalso. unfold save_recovered in E4. destruct F1 as [F1 _], F2 as [F2 _]. unfold recovered_db in Edb. destruct (ry_save_manifest r3).
      * destruct (LogAndApply _ _ _ _) as [[[s5 e5] vs5]|]; [|done]. cbn [mbind option_bind] in E4. injection E4 as <- <-. cbn in Edb. by rewrite F1, F2 in Edb.
      * injection E4 as <- <-. by rewrite F1, F2 in Edb.
  - eexists _, _, _, _. split; [done|]. split; [intros H; by specialize (Hf4 H)|by rewrite Es4].
Qed.

End Opened.

(** ** Properties *)

(** C3: Opening a database recovers the acknowledged batches.  Let the descriptor
    describe a version whose tables can be read, let the logs that it does not cover
    hold batches numbered in sequence behind the writes of that version, each log
    written in one or more sessions and possibly cut off at any byte, and let no table
    be missing.  Then opening the database returns; in an environment without errors
    its status is OK; and when the status is OK and the tables written on the way can
    be read, the opened database is in a sound state (the invariant of all later
    operations) for the writes of the version followed by the batches that the log
    reader returns for each log, which are a prefix of those of the log, all of them
    if it was not cut off.  Every read returns what the newest of these writes says. *)
Theorem open_recovers_batches (C : Comparator) (L : ComparatorLaws C) (base : nat → Z) (W : WritableFile) (LW : WritableFileLaws W) (F : SequentialFile) (LF : SequentialFileLaws F)
    (options : Options) (oo : OpenOptions) (dbname : bytes) (io : OpenIO (W := W) (F := F)) (n fuel : nat)
    (cache_get : FileMetaData → nat → bytes → Status * option (bytes * bytes)) (contents : FileMetaData → list Write)
    (log_batches : Z → list batch) (whole : Z → bool) (vs : VersionSet (W := W)) (save : bool) (filenames : list bytes) (top : Z) :
  openable C oo io n fuel cache_get contents log_batches whole vs save filenames top →
  ∃ s odb removed written, Open C base options oo dbname n fuel io = Some (s, odb, removed, written) ∧ (open_fine C io → ok s = true) ∧
    (ok s = true → tables_readable C io cache_get contents written → ∃ db parts, odb = Some db ∧
       Forall2 (part_of io log_batches (λ number, whole number = true) n fuel) (log_numbers vs filenames) parts ∧
       sound C cache_get contents db (recovered_history contents vs (concat parts)) ∧
       ∀ key value, is_u32 (size key + 8) → ∃ db', Get C cache_get db None key value =
         Some (read_result (newest C (recovered_history contents vs (concat parts)) key (vs_last_sequence (versions_ db))) value, db')).
Proof.
  intros Ho. destruct (open_spec C base options oo dbname io n fuel cache_get contents log_batches whole vs save filenames top Ho) as (s & odb & removed & written & E & Hf & Hres).
  exists s, odb, removed, written. split_and!; [done|done|]. intros Es Ht. destruct (Hres Es Ht) as (db & parts & -> & Hparts & Hs). exists db, parts. split_and!; [done|done|done|].
  intros key value Hk. destruct (sound_reads C cache_get contents db _ None key value Hs Hk ltac:(done)) as (db' & Eg & _). eauto.
Qed.

(** A database that was created, written to and cut off within its second batch. *)
Module OpenExample.
Definition base (i : nat) : Z := 4096 * Z.of_nat i.
Definition options : Options := MkOptions 1000 4194304 2097152 4096.
Definition oo : OpenOptions := MkOpenOptions false false true false.
Definition w1 : Write := MkWrite 1 kTypeValue [x61] [x31].
Definition batches (number : Z) : list batch := if number =? 3 then [(1, [OpPut [x61] [x31]]); (2, [OpPut [x61] [x32]])] else [].
Definition contents (f : FileMetaData) : list Write := [w1].
Definition cache_get : FileMetaData → nat → bytes → Status * option (bytes * bytes) := scan_get BytewiseComparator contents.

(** What the first [Open] saved: the log 3 is in use. *)
Definition saved_edit : VersionEdit := VersionEdit.SetLogNumber 3 (SetNextFile 4 (new_db_edit BytewiseComparator)).
Definition manifest : FileState.FileState :=
  from_option (λ p, dest_ p.2) FileState.NewFileState (AddRecord (W := WritableFileImpl) (NewWriter FileState.NewFileState) (EncodeTo saved_edit [])).
Definition log : FileState.FileState := default FileState.NewFileState (write_sessions (W := WritableFileImpl) (LW := WritableFileImpl_laws) FileState.NewFileState [batch_record <$> batches 3]).
Definition cut : FileState.FileState := (@Env.Append WritableFileImpl (take_z 40 (FileState.contents log)) FileState.NewFileState).2.

Definition rio : RecoverIO (W := WritableFileImpl) (F := SequentialFileImpl_file) :=
  MkRecoverIO (Ok (bs "MANIFEST-000002" ++ [x0a])) (λ _, Ok (NewSequentialFileImpl manifest)) (λ _, Ok 0) (λ _, Ok manifest) false 2097152.
Definition io : OpenIO (W := WritableFileImpl) (F := SequentialFileImpl_file) :=
  MkOpenIO Status_OK true (Status_OK, FileState.NewFileState) (λ _, Status_OK) (λ _, Status_OK) Status_OK (λ _, rio)
    (Ok [bs "CURRENT"; bs "MANIFEST-000002"; bs "000003.log"]) (λ _, Ok (NewSequentialFileImpl cut)) (λ _, Ok 40) (λ _, Ok cut)
    CompactExample.io 0 (λ _, (Status_OK, FileState.NewFileState)) ManifestExample.io [bs "CURRENT"].
Definition names : list bytes := [bs "CURRENT"; bs "MANIFEST-000002"; bs "000003.log"].
Definition vs : VersionSet := from_option snd NewVersionSet (Recover BytewiseComparator 10 200 rio NewVersionSet).
Notation opened := (Open BytewiseComparator base options oo (bs "db") 10 200 io).

Lemma recovered_as {A} (x : option (Status * bool * A)) d : fmap fst x = Some (Status_OK, true) → x = Some (Status_OK, true, from_option snd d x).
Proof. destruct x as [[[s b] a]|]; [|done]. by intros [= -> ->]. Qed.

Lemma recovered : Recover BytewiseComparator 10 200 rio NewVersionSet = Some (Status_OK, true, vs).
Proof. apply recovered_as. by vm_compute. Qed.

Lemma vs_files level : level_files (current vs) level = [].
Proof. unfold level_files. replace (files_ (current vs)) with (replicate 7 ([] : list FileMetaData)) by (by vm_compute). by destruct level as [|[|[|[|[|[|[|level]]]]]]]. Qed.

Lemma vs_holds : version_holds contents vs = [].
Proof. unfold version_holds, version_writes. cbn [seq num_levels]. change (seq 0 num_levels) with (seq 0 7). cbn [seq fmap list_fmap]. by rewrite !vs_files. Qed.

Lemma vs_files_ok : files_ok BytewiseComparator cache_get contents vs.
Proof.
  split; [split|..]; try (intros *; rewrite ?vs_files; by intros ?%not_elem_of_nil).
  - intros level. by rewrite vs_files.
  - intros level _. rewrite vs_files. split; [constructor|done].
  - rewrite vs_files. constructor.
  - intros i j f g _. rewrite vs_files. by intros ?%not_elem_of_nil.
  - by vm_compute.
  - intros level. rewrite vs_files. constructor.
  - intros level. rewrite vs_files. constructor.
  - by vm_compute.
  - by vm_compute.
  - by apply Nat.ltb_lt; vm_compute.
Qed.

Lemma numbers : log_numbers vs names = [3].
Proof. by vm_compute. Qed.

Lemma log_written : log_holds (LW := WritableFileImpl_laws) (LF := SequentialFileImpl_laws) io 10 200 batches (λ _, false) 3.
Proof.
  destruct (write_sessions_spec (W := WritableFileImpl) (LW := WritableFileImpl_laws) [batch_record <$> batches 3] FileState.NewFileState [] [] [] NewFileState_ok eq_refl) as (f' & fss & E & Hv & _); [split; [constructor|done]|].
  assert (log = f') as El by (unfold log; by rewrite E).
  assert (FileState.file_ok cut) as Hcut by (apply ManifestExample.file_okb_ok; by vm_compute).
  exists FileState.NewFileState, [batch_record <$> batches 3], f', (NewSequentialFileImpl cut). split_and!; try done.
  - rewrite <-El. exists (drop_z 40 (FileState.contents log)). by vm_compute.
  - by apply Nat.ltb_lt; vm_compute.
  - rewrite <-El. by apply Nat.ltb_lt; vm_compute.
Qed.

Lemma can_open : openable (LW := WritableFileImpl_laws) (LF := SequentialFileImpl_laws) BytewiseComparator oo io 10 200 cache_get contents batches (λ _, false) vs true names 8.
Proof.
  split; rewrite ?numbers, ?vs_holds.
  - reflexivity.
  - split; reflexivity.
  - apply recovered.
  - reflexivity.
  - vm_compute. reflexivity.
  - apply vs_files_ok.
  - by intros ? ? ?%not_elem_of_nil.
  - constructor.
  - vm_compute. split; congruence.
  - constructor; [apply log_written|constructor].
  - repeat constructor; vm_compute; congruence.
  - repeat constructor; vm_compute; congruence.
  - by intros w b ?%not_elem_of_nil.
  - repeat constructor; lia.
  - vm_compute. congruence.
  - vm_compute. congruence.
  - intros es Hne. cbn. destruct es; [done|]. unfold size. cbn. lia.
Qed.

(** What the run of [Open] shows. *)
Definition summary (x : option (Status * option (DBImpl (W := WritableFileImpl)) * list bytes * list (Z * list entry))) : option (bool * option Z * list (Z * list entry)) :=
  match x with
  | Some (s, Some db, _, written) => Some (ok s, Some (vs_last_sequence (versions_ db)), written)
  | Some (s, None, _, written) => Some (ok s, None, written)
  | None => None
  end.

Lemma opened_summary : summary opened = Some (true, Some 1, [(5, entry_of_write <$> [w1])]).
Proof. vm_compute. reflexivity. Qed.

Lemma w1_ok : Forall write_ok [w1].
Proof. repeat constructor; vm_compute; congruence. Qed.

Lemma readable : tables_readable BytewiseComparator io cache_get contents [(5, entry_of_write <$> [w1])].
Proof.
  intros number ws Hok Hne [= -> E]%list_elem_of_singleton. apply (RunExample.entries_inj ws [w1] Hok w1_ok) in E as ->. split; [by vm_compute|]. intros f _ _. split; [done|].
  apply (scan_get_reads BytewiseComparator contents f); [apply w1_ok|]. repeat constructor.
Qed.

Lemma records_read : fmap (λ x, length x.1) (ReadRecords 10 200 (NewReader (NewSequentialFileImpl cut) true true 0)) = Some 1%nat.
Proof. by vm_compute. Qed.

Lemma replayed parts : Forall2 (part_of io batches (λ _, false = true) 10 200) [3] parts → concat parts = [(1, [OpPut [x61] [x31]])].
Proof.
  intros (p & ps & (Hpre & _ & sf & reader & Esf & E) & Hnil & ->)%Forall2_cons_inv_l. apply Forall2_nil_inv_l in Hnil as ->. cbn [concat]. rewrite app_nil_r.
  cbn [oi_log_open io] in Esf. injection Esf as <-. pose proof records_read as Hr. rewrite E in Hr. cbn [fmap option_fmap option_map fst] in Hr. rewrite length_fmap in Hr.
  injection Hr as El. clear E. destruct Hpre as [rest Hb]. apply (f_equal (take 1)) in Hb. rewrite (take_app_le p), (take_ge p) in Hb by lia. rewrite <-Hb. reflexivity.
Qed.

Lemma key_ok : is_u32 (size [x61] + 8).
Proof. by vm_compute. Qed.

Lemma first_read : read_result (newest BytewiseComparator (recovered_history contents vs [(1, [OpPut [x61] [x31]])]) [x61] 1) [] = (Status_OK, [x31]).
Proof. unfold recovered_history. rewrite vs_holds. by vm_compute. Qed.

End OpenExample.

(** The first batch is recovered and read; the second one was cut off. *)
Lemma open_recovers_batches_witness : ∃ s db removed written, OpenExample.opened = Some (s, Some db, removed, written) ∧ ok s = true ∧
  ∃ db', Get BytewiseComparator OpenExample.cache_get db None [x61] [] = Some ((Status_OK, [x31]), db').
Proof.
  destruct (open_recovers_batches BytewiseComparator _ OpenExample.base _ _ _ _ OpenExample.options OpenExample.oo (bs "db") OpenExample.io 10 200 OpenExample.cache_get OpenExample.contents
    OpenExample.batches (λ _, false) OpenExample.vs true OpenExample.names 8 OpenExample.can_open) as (s & odb & removed & written & E & _ & Hres).
  pose proof OpenExample.opened_summary as Hsum. rewrite E in Hsum. destruct odb as [db0|]; cbn [OpenExample.summary] in Hsum; [|discriminate]. injection Hsum as Es Elast Ew.
  rewrite Ew in Hres. destruct (Hres Es OpenExample.readable) as (db & parts & Edb & Hparts & _ & Hget). injection Edb as ->. rewrite OpenExample.numbers in Hparts. rewrite (OpenExample.replayed _ Hparts) in Hget.
  rewrite Elast in Hget. exists s, db, removed, written. split; [exact E|]. split; [exact Es|]. clear E Es Hres Hparts Elast Ew.
  destruct (Hget [x61] [] OpenExample.key_ok) as (db' & Eg). exists db'. rewrite Eg. exact (f_equal (λ r, Some (r, db')) OpenExample.first_read).
Defined.
