(* ===== verification/Bloom.v ===== *)
(** * Hashing and Bloom filters
    (src/util/hash.cc, src/util/bloom.cc, src/include/leveldb/filter_policy.h,
     the filter policy wrapper of src/db/dbformat.cc)

    A table's filter consists of several Bloom filter units over the same keys;
    unit [index] perturbs the hash.  The file models the 32-bit hash, the
    [FilterPolicy] interface with its contract, the Bloom policy and the wrapper
    that strips internal keys, and proves that no unit has false negatives. *)

From Stdlib Require Import SpecFloat.
From S2P Require Import Prelude Coding Comparator DbFormat.
Import Coding.

(** ** Hash *)

Module Hash.

Definition m : Z := 0xc6a4a793.
Definition r : Z := 24.

(** The loop that consumes four bytes at a time; returns the hash and the
    bytes left over ([limit - data] of them). *)
Fixpoint Hash_loop (data : bytes) (h : Z) : Z * bytes :=
  match data with
  | b0 :: b1 :: b2 :: b3 :: data' =>
      let w := default 0 (DecodeFixed32 [b0; b1; b2; b3]) in
      let h := u32 (h + w) in
      let h := u32 (h * m) in
      let h := Z.lxor h (Z.shiftr h 16) in
      Hash_loop data' h
  | _ => (h, data)
  end.

(** The fall-through [switch (limit - data)]. *)
Definition Hash_tail (h : Z) (data : bytes) : Z :=
  let finish h (d0 : byte) :=
    let h := u32 (h + b2z d0) in
    let h := u32 (h * m) in
    Z.lxor h (Z.shiftr h r) in
  match data with
  | [d0; d1; d2] =>
      let h := u32 (h + Z.shiftl (b2z d2) 16) in
      let h := u32 (h + Z.shiftl (b2z d1) 8) in
      finish h d0
  | [d0; d1] =>
      let h := u32 (h + Z.shiftl (b2z d1) 8) in
      finish h d0
  | [d0] => finish h d0
  | _ => h
  end.

(** [seed ^ (n * m)]: the product is computed in [size_t], then narrowed. *)
Definition Hash (data : bytes) (seed : Z) : Z :=
  let h := u32 (Z.lxor seed (u64 (size data * m))) in
  let '(h, rest) := Hash_loop data h in
  Hash_tail h rest.

Lemma Hash_loop_range data : ∀ h,
  is_u32 h → is_u32 (Hash_loop data h).1 ∧ (length (Hash_loop data h).2 < 4)%nat.
Proof.
  assert (∀ n data h, (length data <= n)%nat → is_u32 h →
    is_u32 (Hash_loop data h).1 ∧ (length (Hash_loop data h).2 < 4)%nat) as H.
  { clear data. induction n as [|n IH]; intros data h Hn Hh.
    - destruct data; simpl in *; [split; [done|lia]|lia].
    - destruct data as [|b0 [|b1 [|b2 [|b3 data]]]]; try (simpl; split; [done|lia]).
      cbn [Hash_loop]. apply IH; [simpl in Hn; lia|].
      apply (lxor_range _ _ 32); [lia|apply u32_range|apply shiftr_range; [lia|apply u32_range]]. }
  intros h. by apply (H (length data)).
Qed.

Lemma Hash_range data seed : is_u32 (Hash data seed).
Proof.
  unfold Hash. destruct (Hash_loop _ _) as [h rest] eqn:E.
  pose proof (Hash_loop_range data (u32 (Z.lxor seed (u64 (size data * m)))) (u32_range _)) as [H _].
  rewrite E in H. simpl in H.
  destruct rest as [|d0 [|d1 [|d2 [|d3 rest]]]]; simpl; try done;
    (apply (lxor_range _ _ 32); [lia|apply u32_range|apply shiftr_range; [unfold r; lia|apply u32_range]]).
Qed.

(** The values the repository's hash test expects. *)
Example Hash_vectors :
  Hash [] 0xbc9f1d34 = 0xbc9f1d34 ∧ Hash [x62] 0xbc9f1d34 = 0xef1345c4 ∧
  Hash [xc3; x97] 0xbc9f1d34 = 0x5b663814 ∧ Hash [xe2; x99; xa5] 0xbc9f1d34 = 0x323c078f ∧
  Hash [xe1; x80; xb9; x32] 0xbc9f1d34 = 0xed21633a.
Proof. vm_compute. done. Qed.

End Hash.

(** ** The filter policy interface

    [CreateFilter keys dst index] returns the key array after the call (an
    implementation may rewrite its entries, see [InternalFilterPolicy]) and the
    string with the new filter appended. *)

Class FilterPolicy := {
  CreateFilter : list bytes → bytes → Z → list bytes * bytes;
  KeyMayMatch : bytes → bytes → Z → bool;
}.

(** The calls a filter block builder makes: units [idx], [idx + 1], ... over one
    key array, each into an empty string. *)
Fixpoint create_units (P : FilterPolicy) (keys : list bytes) (idx : Z) (n : nat) : list bytes :=
  match n with
  | O => []
  | S n' =>
      let '(keys', f) := @CreateFilter P keys [] idx in
      f :: create_units P keys' (idx + 1) n'
  end.

(** The contract of filter_policy.h: a filter is appended without touching what
    was there, and a key of the list matches every unit built from it.  The
    filter block relies on the units over one key list having the same size.
    The key count is an [int] in the source. *)
Class FilterPolicyLaws (P : FilterPolicy) : Prop := {
  create_append keys dst idx :
    @CreateFilter P keys dst idx =
      ((@CreateFilter P keys [] idx).1, dst ++ (@CreateFilter P keys [] idx).2);
  no_false_negative keys n i f k :
    size keys < 2 ^ 31 → create_units P keys 0 n !! i = Some f → k ∈ keys →
    @KeyMayMatch P k f (Z.of_nat i) = true;
  same_unit_size keys n i j f g :
    size keys < 2 ^ 31 → create_units P keys 0 n !! i = Some f →
    create_units P keys 0 n !! j = Some g → size f = size g;
}.

(** ** The Bloom policy *)

Module Bloom.

Definition BloomHash (key : bytes) (index : Z) : Z :=
  let h := Hash.Hash key 0xbc9f2d21 in
  let delta := Z.lor (Z.shiftr h 17) (u32 (Z.shiftl h 15)) in
  u32 (h + u32 (delta * u32 index)).

(** [static_cast<size_t>(bits_per_key * 0.69)] in binary64 arithmetic: the
    literal is 6214967485771284 * 2^-53. *)
Definition double_069 : spec_float := S754_finite false 6214967485771284 (-53).

Definition truncate (f : spec_float) : Z :=
  match f with
  | S754_finite false m e => Z.shiftl (Zpos m) e
  | S754_finite true m e => - Z.shiftl (Zpos m) e
  | _ => 0
  end.

Definition probes (bits_per_key : Z) : Z :=
  let k := u64 (truncate (SFmul 53 1024 (binary_normalize 53 1024 bits_per_key 0 false) double_069)) in
  let k := if k <? 1 then 1 else k in
  if k >? 30 then 30 else k.

Record BloomFilterPolicy := { bits_per_key_ : Z; k_ : Z }.

Definition NewBloomFilterPolicy (bits_per_key : Z) : BloomFilterPolicy :=
  {| bits_per_key_ := u64 bits_per_key; k_ := probes bits_per_key |}.

Definition BitsPerKey (p : BloomFilterPolicy) : Z := bits_per_key_ p.

(** [array[bitpos / 8] |= (1 << (bitpos % 8))]. *)
Definition set_bit (array : bytes) (bitpos : Z) : bytes :=
  alter (λ c, z2b (Z.lor (b2z c) (Z.shiftl 1 (bitpos mod 8)))) (Z.to_nat (bitpos / 8)) array.

Definition test_bit (array : bytes) (bitpos : Z) : bool :=
  match nth_z array (bitpos / 8) with
  | Some c => negb (Z.land (b2z c) (Z.shiftl 1 (bitpos mod 8)) =? 0)
  | None => false
  end.

Fixpoint set_probes (j : nat) (h delta bits : Z) (array : bytes) : bytes :=
  match j with
  | O => array
  | S j' =>
      let bitpos := u32 (h mod bits) in
      set_probes j' (u32 (h + delta)) delta bits (set_bit array bitpos)
  end.

Definition rotate (h : Z) : Z := Z.lor (Z.shiftr h 17) (u32 (Z.shiftl h 15)).

(** One iteration of the loop over the keys. *)
Definition add_key (p : BloomFilterPolicy) (index bits : Z) (array key : bytes) : bytes :=
  let h := BloomHash key index in
  set_probes (Z.to_nat (k_ p)) h (rotate h) bits array.

Definition BloomCreateFilter (p : BloomFilterPolicy) (keys : list bytes) (dst : bytes) (index : Z)
    : bytes :=
  let bits := u64 (size keys * bits_per_key_ p) in
  let bits := if bits <? 64 then 64 else bits in
  let nbytes := u64 (bits + 7) / 8 in
  let bits := u64 (nbytes * 8) in
  let array := replicate (Z.to_nat nbytes) x00 ++ [z2b (k_ p)] in
  dst ++ foldl (add_key p index bits) array keys.

Fixpoint test_probes (j : nat) (h delta bits : Z) (array : bytes) : bool :=
  match j with
  | O => true
  | S j' =>
      let bitpos := u32 (h mod bits) in
      if negb (test_bit array bitpos) then false
      else test_probes j' (u32 (h + delta)) delta bits array
  end.

(** [const size_t k = array[len - 1]] sign-extends the [char]. *)
Definition BloomKeyMayMatch (key bloom_filter : bytes) (index : Z) : bool :=
  let len := size bloom_filter in
  if len <? 2 then false
  else
    let array := bloom_filter in
    let bits := (len - 1) * 8 in
    let k := u64 (default 0 (b2sz <$> nth_z array (len - 1))) in
    if k >? 30 then true
    else
      let h := BloomHash key index in
      test_probes (Z.to_nat k) h (rotate h) bits array.

Definition BloomPolicy (p : BloomFilterPolicy) : FilterPolicy := {|
  CreateFilter keys dst index := (keys, BloomCreateFilter p keys dst index);
  KeyMayMatch := BloomKeyMayMatch;
|}.

(** *** Lemmas *)

Lemma probes_range b : 1 <= probes b <= 30.
Proof. unfold probes. rewrite Z.gtb_ltb. zcases; lia. Qed.

Lemma length_set_bit array pos : length (set_bit array pos) = length array.
Proof. apply length_alter. Qed.

Lemma length_set_probes j : ∀ h delta bits array,
  length (set_probes j h delta bits array) = length array.
Proof. induction j as [|j IH]; intros; simpl; [done|]. rewrite IH. apply length_set_bit. Qed.

Lemma land_pow2 x i : 0 <= i → (Z.land x (Z.shiftl 1 i) =? 0) = negb (Z.testbit x i).
Proof.
  intros Hi. rewrite Z.shiftl_1_l. destruct (Z.testbit x i) eqn:E; simpl.
  - apply Z.eqb_neq. intros E0.
    assert (Z.testbit (Z.land x (2 ^ i)) i = false) as Hb by (rewrite E0; apply Z.bits_0).
    rewrite Z.land_spec, E, Z.pow2_bits_true in Hb by done. done.
  - apply Z.eqb_eq, Z.bits_inj'. intros n Hn.
    rewrite Z.land_spec, Z.bits_0, Z.pow2_bits_eqb by done.
    destruct (Z.eqb_spec i n) as [->|]; [by rewrite E|apply andb_false_r].
Qed.

Lemma testbit_b2z_z2b x i : 0 <= i < 8 → Z.testbit (b2z (z2b x)) i = Z.testbit x i.
Proof.
  intros Hi. rewrite b2z_z2b. change 256 with (2 ^ 8).
  rewrite <-Z.land_ones, Z.land_spec, Z.ones_spec_low by lia. apply andb_true_r.
Qed.

Lemma test_bit_spec array pos :
  0 <= pos → test_bit array pos = default false
    ((λ c, Z.testbit (b2z c) (pos mod 8)) <$> array !! Z.to_nat (pos / 8)).
Proof.
  intros Hp. unfold test_bit, nth_z.
  assert (0 <= pos / 8) by (apply Z.div_pos; lia). destruct (Z.ltb_spec (pos / 8) 0); [lia|].
  destruct (array !! _); simpl; [|done].
  rewrite land_pow2, negb_involutive by (apply Z.mod_pos_bound; lia). done.
Qed.

(** Setting a bit keeps the bits that are set, and sets its own. *)
Lemma set_bit_mono array pos q :
  0 <= pos → 0 <= q → test_bit array q = true → test_bit (set_bit array pos) q = true.
Proof.
  intros Hp Hq. rewrite !test_bit_spec by done. unfold set_bit. rewrite list_lookup_alter.
  case_decide as E; [|done]. rewrite E. destruct (array !! _); simpl; [|done].
  intros Hb. rewrite testbit_b2z_z2b, Z.lor_spec, Hb by (apply Z.mod_pos_bound; lia). done.
Qed.

Lemma set_bit_same array pos :
  0 <= pos < 8 * size array → test_bit (set_bit array pos) pos = true.
Proof.
  intros Hp. rewrite test_bit_spec by lia. unfold set_bit. rewrite list_lookup_alter, decide_True by done.
  assert (0 <= pos / 8 < size array) as Hd.
  { split; [apply Z.div_pos; lia|apply Z.div_lt_upper_bound; lia]. }
  destruct (lookup_lt_is_Some_2 array (Z.to_nat (pos / 8))) as [c Ec]; [unfold size in Hd; lia|].
  rewrite Ec. simpl. pose proof (Z.mod_pos_bound pos 8 ltac:(lia)).
  rewrite testbit_b2z_z2b, Z.lor_spec, Z.shiftl_1_l, Z.pow2_bits_true by lia. apply orb_true_r.
Qed.

Lemma u32_mod_bits h bits : is_u32 h → 0 < bits → u32 (h mod bits) = h mod bits ∧ 0 <= h mod bits < bits.
Proof.
  intros Hh Hb. pose proof (Z.mod_pos_bound h bits Hb). split; [|done].
  apply u32_small. unfold is_u32 in *. pose proof (Z.mod_le h bits ltac:(lia) Hb). lia.
Qed.

Lemma set_probes_mono j : ∀ h delta bits array q,
  is_u32 h → 0 < bits → 0 <= q → test_bit array q = true →
  test_bit (set_probes j h delta bits array) q = true.
Proof.
  induction j as [|j IH]; intros h delta bits array q Hh Hb Hq Ht; simpl; [done|].
  apply IH; [apply u32_range|done..|]. pose proof (u32_mod_bits h bits Hh Hb) as [-> ?].
  apply set_bit_mono; [lia|done..].
Qed.

Lemma test_set_probes j : ∀ h delta bits array,
  is_u32 h → 0 < bits → bits <= 8 * size array →
  test_probes j h delta bits (set_probes j h delta bits array) = true.
Proof.
  induction j as [|j IH]; intros h delta bits array Hh Hb Hs; simpl; [done|].
  pose proof (u32_mod_bits h bits Hh Hb) as [-> Hp].
  rewrite set_probes_mono; [|apply u32_range|done|lia|apply set_bit_same; lia]. cbn [negb].
  apply IH; [apply u32_range|done|]. unfold size in *. rewrite length_set_bit. done.
Qed.

Lemma test_probes_mono j : ∀ h delta bits array array',
  (∀ q, 0 <= q → test_bit array q = true → test_bit array' q = true) → is_u32 h → 0 < bits →
  test_probes j h delta bits array = true → test_probes j h delta bits array' = true.
Proof.
  induction j as [|j IH]; intros h delta bits array array' Hm Hh Hb; simpl; [done|].
  pose proof (u32_mod_bits h bits Hh Hb) as [-> Hp].
  destruct (test_bit array (h mod bits)) eqn:E; [cbn [negb]|done].
  rewrite (Hm _ (proj1 Hp) E). cbn [negb]. apply IH; [done|apply u32_range|done].
Qed.

Lemma BloomHash_range key index : is_u32 (BloomHash key index).
Proof. apply u32_range. Qed.

Lemma add_keys_length p index bits keys array :
  length (foldl (add_key p index bits) array keys) = length array.
Proof.
  revert array. induction keys as [|k keys IH]; intros array; simpl; [done|].
  rewrite IH. apply length_set_probes.
Qed.

Lemma add_keys_mono p index bits keys array q :
  0 < bits → 0 <= q → test_bit array q = true →
  test_bit (foldl (add_key p index bits) array keys) q = true.
Proof.
  intros Hb Hq. revert array. induction keys as [|k keys IH]; intros array Ht; simpl; [done|].
  apply IH, set_probes_mono; [apply BloomHash_range|done..].
Qed.

(** Every key that was added passes all its probes. *)
Lemma add_keys_match p index bits keys array k :
  0 < bits → bits <= 8 * size array → k ∈ keys →
  test_probes (Z.to_nat (k_ p)) (BloomHash k index) (rotate (BloomHash k index)) bits
    (foldl (add_key p index bits) array keys) = true.
Proof.
  intros Hb. revert array. induction keys as [|k' keys IH]; intros array Hs Hk; [by apply not_elem_of_nil in Hk|].
  simpl. apply elem_of_cons in Hk as [->|Hk].
  - eapply test_probes_mono; [|apply BloomHash_range|done|].
    + intros q Hq. by apply add_keys_mono.
    + apply test_set_probes; [apply BloomHash_range|done..].
  - apply IH; [|done]. unfold add_key, size in *. rewrite length_set_probes. done.
Qed.

Lemma set_bit_last array pos z :
  0 <= pos < 8 * size array → set_bit (array ++ [z]) pos = set_bit array pos ++ [z].
Proof.
  intros Hp. unfold set_bit. rewrite alter_app_l; [done|].
  assert (pos / 8 < size array) by (apply Z.div_lt_upper_bound; lia).
  assert (0 <= pos / 8) by (apply Z.div_pos; lia). unfold size in *. lia.
Qed.

Lemma set_probes_last j z : ∀ h delta bits array,
  is_u32 h → 0 < bits → bits <= 8 * size array →
  set_probes j h delta bits (array ++ [z]) = set_probes j h delta bits array ++ [z].
Proof.
  induction j as [|j IH]; intros h delta bits array Hh Hb Hs; simpl; [done|].
  pose proof (u32_mod_bits h bits Hh Hb) as [-> Hp].
  rewrite set_bit_last by lia. apply IH; [apply u32_range|done|].
  unfold size in *. rewrite length_set_bit. done.
Qed.

(** The probe count stored behind the bit array is never overwritten. *)
Lemma add_keys_last p index bits keys array z :
  0 < bits → bits <= 8 * size array →
  foldl (add_key p index bits) (array ++ [z]) keys = foldl (add_key p index bits) array keys ++ [z].
Proof.
  intros Hb. revert array. induction keys as [|k keys IH]; intros array Hs; simpl; [done|].
  unfold add_key at 2. rewrite set_probes_last by (done || apply BloomHash_range).
  apply IH. unfold add_key, size in *. rewrite length_set_probes. done.
Qed.

(** Layout of a filter: the bit array and the probe count. *)
Lemma BloomCreateFilter_layout p keys dst index :
  0 <= bits_per_key_ p < 2 ^ 31 → size keys < 2 ^ 31 →
  ∃ nbytes, 8 <= nbytes < 2 ^ 60 ∧ size keys * bits_per_key_ p <= 8 * nbytes ∧
    BloomCreateFilter p keys dst index =
      dst ++ foldl (add_key p index (8 * nbytes)) (replicate (Z.to_nat nbytes) x00) keys ++ [z2b (k_ p)].
Proof.
  intros Hb Hk. unfold BloomCreateFilter. pose proof (size_nonneg keys).
  rewrite (u64_small (size keys * bits_per_key_ p)) by (unfold is_u64; nia).
  set (bits := if size keys * bits_per_key_ p <? 64 then 64 else size keys * bits_per_key_ p).
  assert (64 <= bits <= 2 ^ 62 ∧ size keys * bits_per_key_ p <= bits) as [Hbits Hle].
  { subst bits. zcases; nia. }
  clearbody bits. rewrite (u64_small (bits + 7)) by (unfold is_u64; lia).
  set (nbytes := (bits + 7) / 8).
  assert (8 <= nbytes < 2 ^ 60 ∧ bits <= 8 * nbytes) as [Hn Hnb].
  { pose proof (Z.div_mod (bits + 7) 8 ltac:(lia)). pose proof (Z.mod_pos_bound (bits + 7) 8 ltac:(lia)).
    subst nbytes. lia. }
  clearbody nbytes. rewrite (u64_small (nbytes * 8)) by (unfold is_u64; lia).
  exists nbytes. split_and!; [lia..|]. f_equal. rewrite (Z.mul_comm nbytes 8).
  apply add_keys_last; [lia|]. unfold size. rewrite length_replicate. lia.
Qed.

Lemma size_BloomCreateFilter p keys index :
  0 <= bits_per_key_ p < 2 ^ 31 → size keys < 2 ^ 31 →
  9 <= size (BloomCreateFilter p keys [] index).
Proof.
  intros Hb Hk. destruct (BloomCreateFilter_layout p keys [] index Hb Hk) as (n & Hn & _ & ->).
  cbn [app]. rewrite size_app, size_cons, size_nil. unfold size.
  rewrite add_keys_length, length_replicate. lia.
Qed.

Lemma size_BloomCreateFilter_eq p keys i j :
  size (BloomCreateFilter p keys [] i) = size (BloomCreateFilter p keys [] j).
Proof.
  unfold BloomCreateFilter, size. cbn [app]. by rewrite !add_keys_length.
Qed.

Lemma Bloom_no_false_negative p keys index k :
  0 <= bits_per_key_ p < 2 ^ 31 → 0 <= k_ p <= 30 → size keys < 2 ^ 31 → k ∈ keys →
  BloomKeyMayMatch k (BloomCreateFilter p keys [] index) index = true.
Proof.
  intros Hb Hp Hk Hin. destruct (BloomCreateFilter_layout p keys [] index Hb Hk) as (n & Hn & _ & ->).
  cbn [app]. set (arr := foldl _ _ _).
  assert (size arr = n) as Ha.
  { unfold arr, size. rewrite add_keys_length, length_replicate. lia. }
  unfold BloomKeyMayMatch. rewrite size_app, size_cons, size_nil, Ha.
  destruct (Z.ltb_spec (n + (1 + 0)) 2); [lia|].
  replace (n + (1 + 0) - 1) with n by lia.
  assert (nth_z (arr ++ [z2b (k_ p)]) n = Some (z2b (k_ p))) as ->.
  { unfold nth_z. destruct (Z.ltb_spec n 0); [lia|].
    apply list_lookup_middle. unfold size in Ha. lia. }
  simpl. assert (b2sz (z2b (k_ p)) = k_ p) as ->.
  { unfold b2sz. rewrite b2z_z2b_small by lia. zcases; lia. }
  rewrite u64_small by (unfold is_u64; lia). destruct (Z.gtb_spec (k_ p) 30); [done|].
  apply (test_probes_mono _ _ _ _ arr); [|apply BloomHash_range|lia|].
  - intros q Hq. rewrite !test_bit_spec by done.
    destruct (arr !! Z.to_nat (q / 8)) as [c|] eqn:E; [|done].
    rewrite lookup_app_l by (by eapply lookup_lt_Some). rewrite E. done.
  - rewrite (Z.mul_comm n 8). apply add_keys_match; [lia| |done].
    unfold size. rewrite length_replicate. lia.
Qed.

Lemma create_units_Bloom p keys n : ∀ idx i,
  (i < n)%nat → create_units (BloomPolicy p) keys idx n !! i =
    Some (BloomCreateFilter p keys [] (idx + Z.of_nat i)).
Proof.
  induction n as [|n IH]; intros idx i Hi; [lia|]. cbn.
  destruct i as [|i]; cbn [lookup list_lookup]; [by rewrite Z.add_0_r|].
  change (create_units (BloomPolicy p) keys (idx + 1) n !! i =
    Some (BloomCreateFilter p keys [] (idx + Z.of_nat (S i)))).
  rewrite IH by lia. do 2 f_equal. lia.
Qed.

Lemma length_create_units (P : FilterPolicy) n : ∀ keys idx, length (create_units P keys idx n) = n.
Proof.
  induction n as [|n IH]; intros keys idx; simpl; [done|].
  destruct (CreateFilter keys [] idx). simpl. by rewrite IH.
Qed.

Lemma BloomPolicy_laws p :
  0 <= bits_per_key_ p < 2 ^ 31 → 0 <= k_ p <= 30 → FilterPolicyLaws (BloomPolicy p).
Proof.
  intros Hb Hk.
  assert (∀ keys n i f, create_units (BloomPolicy p) keys 0 n !! i = Some f →
    f = BloomCreateFilter p keys [] (Z.of_nat i)) as Hu.
  { intros keys n i f Hl. pose proof (lookup_lt_Some _ _ _ Hl) as Hi.
    rewrite length_create_units in Hi. rewrite create_units_Bloom in Hl by done. by injection Hl as <-. }
  split; [done| |].
  - intros keys n i f k Hs ->%Hu Hin. by apply Bloom_no_false_negative.
  - intros keys n i j f g Hs ->%Hu ->%Hu. by apply size_BloomCreateFilter_eq.
Qed.

Lemma NewBloomFilterPolicy_laws b :
  0 <= b < 2 ^ 31 → FilterPolicyLaws (BloomPolicy (NewBloomFilterPolicy b)).
Proof.
  intros Hb. apply BloomPolicy_laws; simpl.
  - rewrite u64_small by (unfold is_u64; lia). lia.
  - pose proof (probes_range b). lia.
Qed.

End Bloom.

(** ** InternalFilterPolicy

    Strips the tags of the keys before handing them to the user policy.  The
    key array is rewritten in place, and only by the call for unit 0: the calls
    for the other units find user keys already. *)

Section InternalFilterPolicy.
  Context (P : FilterPolicy).

Definition InternalCreateFilter (keys : list bytes) (dst : bytes) (index : Z) : list bytes * bytes :=
  let keys := if index =? 0 then ExtractUserKey <$> keys else keys in
  @CreateFilter P keys dst index.

Definition InternalKeyMayMatch (key f : bytes) (index : Z) : bool :=
  @KeyMayMatch P (ExtractUserKey key) f index.

Definition InternalFilterPolicy : FilterPolicy := {|
  CreateFilter := InternalCreateFilter;
  KeyMayMatch := InternalKeyMayMatch;
|}.

Lemma create_units_internal_pos n : ∀ keys idx,
  0 < idx → create_units InternalFilterPolicy keys idx n = create_units P keys idx n.
Proof.
  induction n as [|n IH]; intros keys idx Hi; [done|].
  cbn [create_units CreateFilter InternalFilterPolicy]. unfold InternalCreateFilter.
  destruct (Z.eqb_spec idx 0); [lia|]. destruct (@CreateFilter P keys [] idx). rewrite IH by lia. done.
Qed.

Lemma create_units_internal keys n :
  create_units InternalFilterPolicy keys 0 n = create_units P (ExtractUserKey <$> keys) 0 n.
Proof.
  destruct n as [|n]; [done|].
  cbn [create_units CreateFilter InternalFilterPolicy]. unfold InternalCreateFilter. cbn [Z.eqb].
  destruct (@CreateFilter P (ExtractUserKey <$> keys) [] 0).
  rewrite create_units_internal_pos by lia. done.
Qed.

#[export] Instance InternalFilterPolicy_laws :
  FilterPolicyLaws P → FilterPolicyLaws InternalFilterPolicy.
Proof.
  intros L. split.
  - intros keys dst idx. apply (create_append (P := P)).
  - intros keys n i f k Hs Hl Hin. rewrite create_units_internal in Hl.
    change (@KeyMayMatch P (ExtractUserKey k) f (Z.of_nat i) = true).
    apply (no_false_negative (P := P) (ExtractUserKey <$> keys) n i f); [|done|].
    + unfold size in *. rewrite length_fmap. done.
    + by apply list_elem_of_fmap_2.
  - intros keys n i j f g Hs. rewrite create_units_internal.
    apply (same_unit_size (P := P)). unfold size in *. rewrite length_fmap. done.
Qed.

End InternalFilterPolicy.

(** ** Properties *)

(** C31: no Bloom filter unit has a false negative: whatever the unit index and
    the bits per key, every key handed to [CreateFilter] passes [KeyMayMatch] on
    the filter created, which holds the bit array and the probe count byte. *)
Theorem bloom_no_false_negative (b index : Z) (keys : list bytes) (k : bytes) :
  0 <= b < 2 ^ 31 → size keys < 2 ^ 31 → k ∈ keys →
  let p := Bloom.NewBloomFilterPolicy b in
  let f := Bloom.BloomCreateFilter p keys [] index in
  Bloom.BloomKeyMayMatch k f index = true ∧ 9 <= size f ∧ 1 <= Bloom.k_ p <= 30.
Proof.
  intros Hb Hs Hk p f. pose proof (Bloom.probes_range b).
  assert (0 <= Bloom.bits_per_key_ p < 2 ^ 31).
  { simpl. rewrite u64_small by (unfold is_u64; lia). lia. }
  split_and!; [|by apply Bloom.size_BloomCreateFilter|simpl; lia..].
  apply Bloom.Bloom_no_false_negative; simpl; auto with lia.
Qed.

Lemma bloom_no_false_negative_witness :
  let f := Bloom.BloomCreateFilter (Bloom.NewBloomFilterPolicy 10) [[x61]; [x62; x63]] [] 3 in
  Bloom.BloomKeyMayMatch [x62; x63] f 3 = true ∧ Bloom.BloomKeyMayMatch [x7a] f 3 = false.
Proof.
  split; [|vm_compute; done].
  apply (bloom_no_false_negative 10 3 [[x61]; [x62; x63]] [x62; x63]);
    [lia|vm_compute; done|right; left].
Defined.

(** over any lawful user policy, the wrapper that strips internal keys and
    rewrites the shared key array in the call for unit 0 yields units without
    false negatives on internal keys, and answers alike for all versions of a
    user key. *)
Theorem internal_filter_policy_contract
    (P : FilterPolicy) (keys : list bytes) (n i : nat) (f k k' : bytes) :
  FilterPolicyLaws P → size keys < 2 ^ 31 →
  create_units (InternalFilterPolicy P) keys 0 n !! i = Some f → k ∈ keys →
  ExtractUserKey k' = ExtractUserKey k →
  InternalKeyMayMatch P k' f (Z.of_nat i) = true.
Proof.
  intros L Hs Hl Hin Hk. unfold InternalKeyMayMatch. rewrite Hk.
  by apply (no_false_negative (P := InternalFilterPolicy P) keys n i f k).
Qed.

Lemma internal_filter_policy_contract_witness :
  let P := Bloom.BloomPolicy (Bloom.NewBloomFilterPolicy 10) in
  let keys := [ikey [x61] 5 kTypeValue; ikey [x62] 6 kTypeDeletion] in
  InternalKeyMayMatch P (ikey [x62] 99 kTypeValue)
    (default [] (create_units (InternalFilterPolicy P) keys 0 6 !! 4%nat)) 4 = true.
Proof.
  apply (internal_filter_policy_contract
    (Bloom.BloomPolicy (Bloom.NewBloomFilterPolicy 10))
    [ikey [x61] 5 kTypeValue; ikey [x62] 6 kTypeDeletion] 6 4 _ (ikey [x62] 6 kTypeDeletion)).
  - apply Bloom.NewBloomFilterPolicy_laws. lia.
  - vm_compute. done.
  - vm_compute. done.
  - right. left.
  - vm_compute. done.
Defined.
