(* ===== verification/FilterBlock.v ===== *)
(** * Filter blocks with several units
    (src/table/filter_block.h, src/table/filter_block.cc)

    The builder collects keys per 2 KB window of file offsets and appends one
    filter per window to each of six filter units.  The units go to the file as
    consecutive raw blocks; the meta data (window offsets and the location of
    the units) goes to the meta index block.  The reader keeps a prefix of the
    units in memory and loads or evicts units at its end.

    Calls that wait for the background loading thread return [None] while
    [init_done] is false. *)

From Stdlib Require Import String.
From S2P Require Import Prelude Coding Status Comparator DbFormat Crc32c Format Bloom.
Import Coding.

Definition kLoadFilterUnitsNumber : Z := 2.
Definition kAllFilterUnitsNumber : Z := 6.
Definition kLifeTime : Z := 10000.
Definition kFilterBaseLg : Z := 11.
Definition kFilterBase : Z := Z.shiftl 1 kFilterBaseLg.

(** ** FilterBlockBuilder *)

Module Builder.

Record FilterBlockBuilder := {
  keys_ : bytes;                 (* flattened key contents *)
  start_ : list Z;               (* starting index in keys_ of each key *)
  result_ : bytes;               (* meta data computed so far *)
  filter_offsets_ : list Z;
  filter_units_ : list bytes;
}.

Section Builder.
  Context {policy_ : FilterPolicy}.

Definition NewFilterBlockBuilder : FilterBlockBuilder :=
  {| keys_ := []; start_ := []; result_ := []; filter_offsets_ := [];
     filter_units_ := replicate (Z.to_nat kAllFilterUnitsNumber) [] |}.

(** [filter_units_[0].size()], stored in a [uint32_t]. *)
Definition unit0_size (b : FilterBlockBuilder) : Z := u32 (size (nth 0 (filter_units_ b) [])).

(** [tmp_keys_[i] = Slice(keys_ + start_[i], start_[i + 1] - start_[i])], with
    the end of [keys_] pushed behind the last start. *)
Fixpoint slice_keys (keys : bytes) (starts : list Z) (limit : Z) : list bytes :=
  match starts with
  | [] => []
  | s :: rest =>
      let next := match rest with [] => limit | s' :: _ => s' end in
      sub_z s (next - s) keys :: slice_keys keys rest limit
  end.

(** The loop over the units: every call sees the key array the previous calls
    left behind. *)
Fixpoint create_in_units (tmp_keys : list bytes) (i : Z) (units : list bytes) : list bytes :=
  match units with
  | [] => []
  | u :: units' =>
      let '(tmp_keys, u') := @CreateFilter policy_ tmp_keys u i in
      u' :: create_in_units tmp_keys (i + 1) units'
  end.

Definition GenerateFilter (b : FilterBlockBuilder) : FilterBlockBuilder :=
  match start_ b with
  | [] =>
      {| keys_ := keys_ b; start_ := start_ b; result_ := result_ b;
         filter_offsets_ := filter_offsets_ b ++ [unit0_size b]; filter_units_ := filter_units_ b |}
  | _ =>
      let tmp_keys := slice_keys (keys_ b) (start_ b) (size (keys_ b)) in
      {| keys_ := []; start_ := []; result_ := result_ b;
         filter_offsets_ := filter_offsets_ b ++ [unit0_size b];
         filter_units_ := create_in_units tmp_keys 0 (filter_units_ b) |}
  end.

(** [while (filter_index > filter_offsets_.size()) GenerateFilter()]: every
    round adds one offset, so the distance is the number of rounds. *)
Fixpoint StartBlock_loop (rounds : nat) (filter_index : Z) (b : FilterBlockBuilder) : FilterBlockBuilder :=
  match rounds with
  | O => b
  | S rounds' =>
      if filter_index >? size (filter_offsets_ b)
      then StartBlock_loop rounds' filter_index (GenerateFilter b) else b
  end.

(** The source asserts [filter_index >= filter_offsets_.size()] first; a smaller offset
    leaves the builder as it is.  A table builder passes increasing offsets
    ([start_block_assertion]). *)
Definition StartBlock (block_offset : Z) (b : FilterBlockBuilder) : FilterBlockBuilder :=
  let filter_index := block_offset / kFilterBase in
  StartBlock_loop (Z.to_nat (filter_index - size (filter_offsets_ b))) filter_index b.

Definition AddKey (key : bytes) (b : FilterBlockBuilder) : FilterBlockBuilder :=
  {| keys_ := keys_ b ++ key; start_ := start_ b ++ [size (keys_ b)]; result_ := result_ b;
     filter_offsets_ := filter_offsets_ b; filter_units_ := filter_units_ b |}.

Definition ReturnFilters (b : FilterBlockBuilder) : FilterBlockBuilder * list bytes :=
  let b := match start_ b with [] => b | _ => GenerateFilter b end in
  (b, filter_units_ b).

Definition Finish (handle : BlockHandle) (b : FilterBlockBuilder) : FilterBlockBuilder * bytes :=
  let r := foldl PutFixed32 (result_ b) (filter_offsets_ b) in
  let r := PutFixed32 r (unit0_size b) in
  let r := PutFixed64 r (bh_offset handle) in
  let r := PutFixed32 r (u32 (bh_size handle)) in
  let r := PutFixed32 r kLoadFilterUnitsNumber in
  let r := PutFixed32 r kAllFilterUnitsNumber in
  let r := r ++ [z2b kFilterBaseLg] in
  ({| keys_ := keys_ b; start_ := start_ b; result_ := r;
      filter_offsets_ := filter_offsets_ b; filter_units_ := filter_units_ b |}, r).

End Builder.
End Builder.

(** ** FilterBlockReader *)

Module Reader.

Record FilterBlockReader := MkReader {
  offset_ : bytes;               (* the meta data block *)
  disk_offset_ : Z;
  disk_size_ : Z;
  init_units_number_ : Z;
  all_units_number_ : Z;
  base_lg_ : Z;
  num_ : Z;
  reload_units_number_ : Z;
  access_time_ : Z;
  sequence_ : Z;
  file_ : RandomAccessFile;
  filter_units : list bytes;
  reader_buffers_ : list bool;   (* one per unit: whether it owns memory *)
  init_done : bool;
}.

(** Functional updates of the fields the operations assign. *)
Definition set_units (r : FilterBlockReader) (us : list bytes) (bufs : list bool) : FilterBlockReader :=
  MkReader (offset_ r) (disk_offset_ r) (disk_size_ r) (init_units_number_ r) (all_units_number_ r)
    (base_lg_ r) (num_ r) (reload_units_number_ r) (access_time_ r) (sequence_ r) (file_ r) us bufs (init_done r).
Definition set_reload (r : FilterBlockReader) (n : Z) : FilterBlockReader :=
  MkReader (offset_ r) (disk_offset_ r) (disk_size_ r) (init_units_number_ r) (all_units_number_ r)
    (base_lg_ r) (num_ r) n (access_time_ r) (sequence_ r) (file_ r) (filter_units r) (reader_buffers_ r) (init_done r).
Definition set_file (r : FilterBlockReader) (f : RandomAccessFile) : FilterBlockReader :=
  MkReader (offset_ r) (disk_offset_ r) (disk_size_ r) (init_units_number_ r) (all_units_number_ r)
    (base_lg_ r) (num_ r) (reload_units_number_ r) (access_time_ r) (sequence_ r) f (filter_units r) (reader_buffers_ r) (init_done r).
Definition set_hotness (r : FilterBlockReader) (t s : Z) : FilterBlockReader :=
  MkReader (offset_ r) (disk_offset_ r) (disk_size_ r) (init_units_number_ r) (all_units_number_ r)
    (base_lg_ r) (num_ r) (reload_units_number_ r) t s (file_ r) (filter_units r) (reader_buffers_ r) (init_done r).
Definition set_init_done (r : FilterBlockReader) : FilterBlockReader :=
  MkReader (offset_ r) (disk_offset_ r) (disk_size_ r) (init_units_number_ r) (all_units_number_ r)
    (base_lg_ r) (num_ r) (reload_units_number_ r) (access_time_ r) (sequence_ r) (file_ r) (filter_units r) (reader_buffers_ r) true.

(** [DecodeFixed32(data_ + i)] inside the meta data. *)
Definition fixed32_at (contents : bytes) (i : Z) : Z := default 0 (DecodeFixed32 (drop_z i contents)).
Definition fixed64_at (contents : bytes) (i : Z) : Z := default 0 (DecodeFixed64 (drop_z i contents)).

(** The constructor.  On a block shorter than 25 bytes it returns early and
    leaves the members without an initializer indeterminate: [junk]. *)
Definition NewFilterBlockReader (junk : Z) (contents : bytes) (file : RandomAccessFile) : FilterBlockReader :=
  let n := size contents in
  if n <? 25 then
    MkReader [] junk junk junk junk 0 0 junk 0 0 file [] [] false
  else
    let base_lg := u64 (default 0 (b2sz <$> nth_z contents (n - 1))) in
    let all_units := fixed32_at contents (n - 5) in
    let init_units := fixed32_at contents (n - 9) in
    MkReader contents (fixed64_at contents (n - 21)) (fixed32_at contents (n - 13))
      init_units all_units base_lg ((n - 25) / 4) init_units 0 0 file [] [] false.

(** Atomic updates without the lock. *)
Definition UpdateState (sn : Z) (r : FilterBlockReader) : FilterBlockReader :=
  set_hotness r (u64 (access_time_ r + 1)) sn.

Definition AccessTime (r : FilterBlockReader) : Z := access_time_ r.

(** Debug builds assert [access_time_ == 0] first: the function is for a reader that was
    not accessed yet.  The assignment itself has no condition. *)
Definition SetAccessTime (t : Z) (r : FilterBlockReader) : FilterBlockReader := set_hotness r t (sequence_ r).

Definition IsCold (now : Z) (r : FilterBlockReader) : bool := now >=? u64 (sequence_ r + kLifeTime).

Definition OneUnitSize (r : FilterBlockReader) : Z := disk_size_ r.

Definition LoadFilterNumber (r : FilterBlockReader) : Z := init_units_number_ r.

(** [WaitForLoading] and then the number of units in memory. *)
Definition FilterUnitsNumberInternal (r : FilterBlockReader) : option Z :=
  if init_done r then Some (size (filter_units r)) else None.

Definition FilterUnitsNumber (r : FilterBlockReader) : option Z := FilterUnitsNumberInternal r.

Definition CanBeLoaded (r : FilterBlockReader) : option bool :=
  n ← FilterUnitsNumberInternal r; Some (n <? all_units_number_ r).

Definition CanBeEvict (r : FilterBlockReader) : option bool :=
  n ← FilterUnitsNumberInternal r; Some (n >? 0).

Definition Size (r : FilterBlockReader) : option Z :=
  n ← FilterUnitsNumberInternal r; Some (u64 (n * disk_size_ r)).

Section Reader.
  Context {policy_ : FilterPolicy} {P : Port}.

(** The loop over the loaded units. *)
Fixpoint match_units (i : Z) (units : list bytes) (start limit : Z) (key : bytes) : bool :=
  match units with
  | [] => true
  | u :: units' =>
      let filter := sub_z start (limit - start) u in
      if negb (@KeyMayMatch policy_ key filter i) then false
      else match_units (i + 1) units' start limit key
  end.

Definition ReaderKeyMayMatch (block_offset : Z) (key : bytes) (r : FilterBlockReader) : option bool :=
  let index := Z.shiftr block_offset (base_lg_ r) in
  if index <? num_ r then
    let start := fixed32_at (offset_ r) (index * 4) in
    let limit := fixed32_at (offset_ r) (index * 4 + 4) in
    if (start <=? limit) && (limit <=? disk_size_ r) then
      _ ← FilterUnitsNumberInternal r;
      Some (match_units 0 (filter_units r) start limit key)
    else if start =? limit then Some false
    else Some true
  else Some true.

Definition LoadFilterInternal (r : FilterBlockReader) : Status * FilterBlockReader :=
  let kFilterSize := u64 (disk_size_ r + kBlockTrailerSize) in
  let units_index := size (filter_units r) in
  if units_index >=? all_units_number_ r
  then (Corruption (bs "all filter units were loaded") [], r)
  else
    let offset := u64 (disk_offset_ r + u64 (kFilterSize * units_index)) in
    match ReadBlock (file_ r) true (MkHandle offset (disk_size_ r)) with
    | Fail s => (s, r)
    | Ok contents =>
        (Status_OK, set_units r (filter_units r ++ [data contents]) (reader_buffers_ r ++ [cachale contents]))
    end.

(** [pop_back] of both vectors; the buffer of the last unit is freed. *)
Definition EvictFilterInternal (r : FilterBlockReader) : Status * FilterBlockReader :=
  match filter_units r with
  | [] => (Corruption (bs "there is no filter can be  evicted") [], r)
  | _ => (Status_OK, set_units r (removelast (filter_units r)) (removelast (reader_buffers_ r)))
  end.

Definition LoadFilter (r : FilterBlockReader) : Status * FilterBlockReader := LoadFilterInternal r.
Definition EvictFilter (r : FilterBlockReader) : Status * FilterBlockReader := EvictFilterInternal r.

(** [while (filter_units.size() < target) LoadFilterInternal()], leaving the
    loop on the first error; a successful load adds a unit. *)
Fixpoint load_until (rounds : nat) (target : Z) (s : Status) (r : FilterBlockReader)
    : Status * FilterBlockReader :=
  match rounds with
  | O => (s, r)
  | S rounds' =>
      if size (filter_units r) <? target then
        let '(s, r) := LoadFilterInternal r in
        if ok s then load_until rounds' target s r else (s, r)
      else (s, r)
  end.

Definition load_rounds (target : Z) (r : FilterBlockReader) : nat :=
  Z.to_nat (target - size (filter_units r)).

(** [while (filter_units.size() > target) EvictFilterInternal()]. *)
Fixpoint evict_until (rounds : nat) (target : Z) (s : Status) (r : FilterBlockReader)
    : Status * FilterBlockReader :=
  match rounds with
  | O => (s, r)
  | S rounds' =>
      if size (filter_units r) >? target then
        let '(s, r) := EvictFilterInternal r in
        if ok s then evict_until rounds' target s r else (s, r)
      else (s, r)
  end.

Definition evict_rounds (target : Z) (r : FilterBlockReader) : nat :=
  Z.to_nat (size (filter_units r) - target).

(** The guard object sets [init_done] and signals when the call returns,
    whether or not loading succeeded. *)
Definition InitLoadFilter (r : FilterBlockReader) : Status * FilterBlockReader :=
  let '(s, r) := load_until (load_rounds (init_units_number_ r) r) (init_units_number_ r) Status_OK r in
  (s, set_init_done r).

Definition CleanFilterInternal (r : FilterBlockReader) : Status * FilterBlockReader :=
  let r := set_reload r (u32 (size (reader_buffers_ r))) in
  evict_until (evict_rounds 0 r) 0 Status_OK r.

Definition CleanFilter (r : FilterBlockReader) : Status * FilterBlockReader := CleanFilterInternal r.

Definition UpdateFile (file : option RandomAccessFile) (r : FilterBlockReader) : FilterBlockReader :=
  match file with Some f => set_file r f | None => r end.

(** The [reload_units_number_ < 0] test is on an unsigned value. *)
Definition GoBackToInitFilter (file : option RandomAccessFile) (r : FilterBlockReader)
    : option (Status * FilterBlockReader) :=
  let r := UpdateFile file r in
  if reload_units_number_ r >? kAllFilterUnitsNumber
  then Some (Corruption (bs "init units number is too much") [], r)
  else
    _ ← FilterUnitsNumberInternal r;
    let target := reload_units_number_ r in
    let '(s, r) := load_until (load_rounds target r) target Status_OK r in
    if negb (ok s) then Some (s, r)
    else Some (evict_until (evict_rounds target r) target s r).

End Reader.
End Reader.

(** ** Builder correctness *)

Module BuilderFacts.
Import Builder.

Section facts.
  Context {policy_ : FilterPolicy} {L : FilterPolicyLaws policy_}.

(** What one window contributes to the six units: nothing without keys. *)
Definition group_units (g : list bytes) : list bytes :=
  match g with
  | [] => replicate 6 []
  | _ => create_units policy_ g 0 6
  end.

(** The units after the windows [gs]. *)
Definition units_of (gs : list (list bytes)) : list bytes :=
  foldl (zip_with app) (replicate 6 []) (group_units <$> gs).

(** The offset recorded for each window: the size of unit 0 when it is closed. *)
Definition offsets_of (gs : list (list bytes)) : list Z :=
  (λ i, u32 (size (nth 0 (units_of (take i gs)) []))) <$> seq 0 (length gs).

Fixpoint starts (ks : list bytes) (off : Z) : list Z :=
  match ks with
  | [] => []
  | k :: ks' => off :: starts ks' (off + size k)
  end.

(** Abstraction of a builder: the closed windows and the pending keys. *)
Definition represents (b : FilterBlockBuilder) (gs : list (list bytes)) (ks : list bytes) : Prop :=
  keys_ b = concat ks ∧ start_ b = starts ks 0 ∧ result_ b = [] ∧
  filter_offsets_ b = offsets_of gs ∧ filter_units_ b = units_of gs.

Lemma length_group_units g : length (group_units g) = 6%nat.
Proof. destruct g; [done|]. unfold group_units. by rewrite Bloom.length_create_units. Qed.

Lemma units_of_snoc gs g : units_of (gs ++ [g]) = zip_with app (units_of gs) (group_units g).
Proof. unfold units_of. rewrite fmap_app, foldl_app. done. Qed.

Lemma length_units_of gs : length (units_of gs) = 6%nat.
Proof.
  induction gs as [|g gs IH] using rev_ind; [done|].
  rewrite units_of_snoc, length_zip_with, IH, length_group_units. done.
Qed.

Lemma nth_repeat_nil i n : nth i (replicate n (@nil byte)) [] = [].
Proof. revert i. induction n as [|n IH]; intros [|i]; simpl; [done..|]. apply IH. Qed.

Lemma zip_with_app_nil (us : list bytes) n : length us = n → zip_with app us (replicate n []) = us.
Proof.
  revert n. induction us as [|u us IH]; intros [|n] Hn; simpl in *; try done.
  rewrite app_nil_r, IH by lia. done.
Qed.

Lemma offsets_of_snoc gs g :
  offsets_of (gs ++ [g]) = offsets_of gs ++ [u32 (size (nth 0 (units_of gs) []))].
Proof.
  unfold offsets_of. rewrite length_app, Nat.add_1_r, seq_S, fmap_app. f_equal.
  - apply list_fmap_ext. intros i j Hi. apply lookup_seq in Hi as [-> Hi].
    rewrite take_app_le by lia. done.
  - simpl. rewrite take_app_length. done.
Qed.

Lemma length_offsets_of gs : length (offsets_of gs) = length gs.
Proof. unfold offsets_of. by rewrite length_fmap, length_seq. Qed.

Lemma starts_nil ks off : starts ks off = [] ↔ ks = [].
Proof. by destruct ks. Qed.

Lemma starts_snoc ks k : ∀ off, starts (ks ++ [k]) off = starts ks off ++ [off + size (concat ks)].
Proof.
  induction ks as [|k' ks IH]; intros off; simpl.
  - by rewrite size_nil, Z.add_0_r.
  - rewrite IH, size_app, Z.add_assoc. done.
Qed.

(** Cutting the flattened keys at the recorded starts gives the keys back. *)
Lemma slice_keys_concat ks : ∀ pre,
  slice_keys (pre ++ concat ks) (starts ks (size pre)) (size (pre ++ concat ks)) = ks.
Proof.
  induction ks as [|k ks IH]; intros pre; [done|]. cbn [starts slice_keys concat]. f_equal.
  - assert (match starts ks (size pre + size k) with
            | [] => size (pre ++ k ++ concat ks) | s' :: _ => s' end = size pre + size k) as ->.
    { destruct ks as [|k' ks]; [|done]. simpl. rewrite app_nil_r, size_app. done. }
    unfold sub_z. rewrite drop_z_app by done. apply take_z_app. lia.
  - specialize (IH (pre ++ k)). rewrite <-app_assoc, size_app in IH. done.
Qed.

Lemma create_in_units_zip units : ∀ keys i,
  create_in_units keys i units = zip_with app units (create_units policy_ keys i (length units)).
Proof.
  induction units as [|u units IH]; intros keys i; [done|].
  cbn [create_in_units length create_units].
  rewrite (create_append keys u i). destruct (@CreateFilter policy_ keys [] i) as [keys' f]. simpl.
  by rewrite IH.
Qed.

Lemma represents_new : represents NewFilterBlockBuilder [] [].
Proof. done. Qed.

Lemma represents_AddKey b gs ks k :
  represents b gs ks → represents (AddKey k b) gs (ks ++ [k]).
Proof.
  intros (Hk & Hs & Hr & Ho & Hu). unfold represents, AddKey; simpl.
  rewrite Hk, Hs, starts_snoc, concat_app. simpl. rewrite app_nil_r. done.
Qed.

Lemma represents_AddKeys b gs ks new :
  represents b gs ks → represents (foldl (flip AddKey) b new) gs (ks ++ new).
Proof.
  revert b ks. induction new as [|k new IH]; intros b ks Hb; simpl; [by rewrite app_nil_r|].
  rewrite cons_middle, app_assoc. by apply IH, represents_AddKey.
Qed.

Lemma represents_GenerateFilter b gs ks :
  represents b gs ks → represents (GenerateFilter b) (gs ++ [ks]) [].
Proof.
  intros (Hk & Hs & Hr & Ho & Hu). unfold represents, GenerateFilter.
  rewrite Hs. destruct ks as [|k ks].
  - simpl in *. rewrite Hr, Ho, Hu, Hk, offsets_of_snoc, units_of_snoc. unfold unit0_size. rewrite Hu.
    split_and!; try done. symmetry. apply zip_with_app_nil, length_units_of.
  - change (starts (k :: ks) 0) with (0 :: starts ks (size k)) at 1. simpl.
    rewrite Hr, Ho, Hu, offsets_of_snoc, units_of_snoc. unfold unit0_size. rewrite Hu.
    split_and!; try done. rewrite create_in_units_zip, length_units_of. f_equal.
    pose proof (slice_keys_concat (k :: ks) []) as E. cbn [app] in E.
    unfold group_units. f_equal. rewrite Hk. exact E.
Qed.

(** [k] is recorded in window [i]. *)
Definition recorded (gs : list (list bytes)) (ks : list bytes) (i : Z) (k : bytes) : Prop :=
  0 <= i ∧ ∃ g, (gs ++ [ks]) !! Z.to_nat i = Some g ∧ k ∈ g.

Lemma recorded_close gs ks i k : recorded gs ks i k → recorded (gs ++ [ks]) [] i k.
Proof.
  intros (Hi & g & Hg & Hk). split; [done|]. exists g. split; [|done].
  rewrite lookup_app_l; [done|]. by eapply lookup_lt_Some.
Qed.

Lemma recorded_add gs ks new i k : recorded gs ks i k → recorded gs (ks ++ new) i k.
Proof.
  intros (Hi & g & Hg & Hk). split; [done|].
  apply lookup_app_Some in Hg as [Hg|[Hl Hg]].
  - exists g. split; [|done]. by apply lookup_app_l_Some.
  - exists (ks ++ new). apply list_lookup_singleton_Some in Hg as [Hz <-].
    rewrite lookup_app_r, Hz by done. split; [done|]. apply elem_of_app. by left.
Qed.

Lemma StartBlock_loop_spec n : ∀ b gs ks idx,
  represents b gs ks → n = Z.to_nat (idx - size gs) → size gs <= idx →
  ∃ gs' ks', represents (StartBlock_loop n idx b) gs' ks' ∧ size gs' = idx ∧
    concat gs' ++ ks' = concat gs ++ ks ∧ ∀ i k, recorded gs ks i k → recorded gs' ks' i k.
Proof.
  induction n as [|n IH]; intros b gs ks idx Hb Hn Hle.
  - exists gs, ks. split_and!; try done. lia.
  - simpl. pose proof Hb as (_ & _ & _ & Ho & _).
    assert (size (filter_offsets_ b) = size gs) as Hsz
      by (unfold size; rewrite Ho, length_offsets_of; done).
    rewrite Hsz, Z.gtb_ltb. destruct (Z.ltb_spec (size gs) idx); [|lia].
    assert (size (gs ++ [ks]) = size gs + 1) as Hs1 by (rewrite size_app; done).
    destruct (IH (GenerateFilter b) (gs ++ [ks]) [] idx) as (gs' & ks' & H1 & H2 & H3 & H4);
      [by apply represents_GenerateFilter|lia..|].
    exists gs', ks'. split_and!; [done..| |].
    + rewrite H3, concat_app. simpl. rewrite !app_nil_r. done.
    + intros i k Hr. by apply H4, recorded_close.
Qed.

(** The calls of a table builder: [StartBlock] at the offset of a data block,
    then [AddKey] for the block's keys. *)
Definition build_block (b : FilterBlockBuilder) (blk : Z * list bytes) : FilterBlockBuilder :=
  foldl (flip AddKey) (StartBlock blk.1 b) blk.2.

Definition build (blocks : list (Z * list bytes)) : FilterBlockBuilder :=
  foldl build_block NewFilterBlockBuilder blocks.

(** Block offsets start at or above [lo] and never decrease. *)
Fixpoint offsets_from (lo : Z) (blocks : list (Z * list bytes)) : Prop :=
  match blocks with
  | [] => True
  | (o, _) :: rest => lo <= o ∧ offsets_from o rest
  end.

Lemma kFilterBase_pos : 0 < kFilterBase.
Proof. done. Qed.

Lemma build_block_spec b gs ks o new :
  represents b gs ks → size gs <= o / kFilterBase →
  ∃ gs' ks', represents (build_block b (o, new)) gs' ks' ∧ size gs' = o / kFilterBase ∧
    concat gs' ++ ks' = concat gs ++ ks ++ new ∧
    (∀ i k, recorded gs ks i k → recorded gs' ks' i k) ∧
    (∀ k, k ∈ new → recorded gs' ks' (o / kFilterBase) k).
Proof.
  intros Hb Hle. pose proof Hb as (_ & _ & _ & Ho & _).
  destruct (StartBlock_loop_spec (Z.to_nat (o / kFilterBase - size gs)) b gs ks (o / kFilterBase))
    as (gs' & ks' & H1 & H2 & H3 & H4); [done..|].
  exists gs', (ks' ++ new). split_and!.
  - unfold build_block, StartBlock. cbn [fst snd]. rewrite Ho.
    replace (size (offsets_of gs)) with (size gs) by (unfold size; by rewrite length_offsets_of).
    by apply represents_AddKeys.
  - done.
  - rewrite (app_assoc (concat gs')), H3, <-app_assoc. done.
  - intros i k Hr. by apply recorded_add, H4.
  - intros k Hk. split; [rewrite <-H2; apply size_nonneg|].
    exists (ks' ++ new). rewrite <-H2. unfold size. rewrite Nat2Z.id, list_lookup_middle by done.
    split; [done|]. apply elem_of_app. by right.
Qed.

Lemma build_spec blocks : ∀ b gs ks lo,
  represents b gs ks → size gs <= lo / kFilterBase → offsets_from lo blocks →
  ∃ gs' ks', represents (foldl build_block b blocks) gs' ks' ∧
    concat gs' ++ ks' = concat gs ++ ks ++ concat (snd <$> blocks) ∧
    (∀ i k, recorded gs ks i k → recorded gs' ks' i k) ∧
    (∀ o new k, (o, new) ∈ blocks → k ∈ new → recorded gs' ks' (o / kFilterBase) k).
Proof.
  induction blocks as [|[o new] blocks IH]; intros b gs ks lo Hb Hle Ho.
  - exists gs, ks. split_and!; try done; [by rewrite app_nil_r|].
    intros o new k Hin. by apply not_elem_of_nil in Hin.
  - destruct Ho as [Hlo Ho].
    assert (size gs <= o / kFilterBase) as Hle'.
    { transitivity (lo / kFilterBase); [done|]. by apply Z.div_le_mono. }
    destruct (build_block_spec b gs ks o new Hb Hle') as (gs1 & ks1 & H1 & H2 & H3 & H4 & H5).
    destruct (IH _ gs1 ks1 o H1 ltac:(lia) Ho) as (gs2 & ks2 & G1 & G2 & G3 & G4).
    exists gs2, ks2. split_and!; [done| | |].
    + rewrite G2. simpl. rewrite (app_assoc (concat gs1)), H3, <-!app_assoc. done.
    + intros i k Hr. by apply G3, H4.
    + intros o' new' k Hin Hk. apply elem_of_cons in Hin as [[= -> ->]|Hin]; [|by eapply G4].
      apply G3. by apply H5.
Qed.

(** The assertion of [StartBlock] holds for block offsets that never decrease. *)
Lemma start_block_assertion blocks : ∀ b gs ks lo o new rest,
  represents b gs ks → size gs <= lo / kFilterBase → offsets_from lo (blocks ++ (o, new) :: rest) →
  size (filter_offsets_ (foldl build_block b blocks)) <= o / kFilterBase.
Proof.
  induction blocks as [|[o1 new1] blocks IH]; intros b gs ks lo o new rest Hb Hle Ho; destruct Ho as [Hlo Ho].
  - destruct Hb as (_ & _ & _ & Hoff & _). cbn [foldl]. unfold size in *. rewrite Hoff, length_offsets_of.
    etrans; [exact Hle|]. by apply Z.div_le_mono.
  - assert (size gs <= o1 / kFilterBase) as Hle' by (etrans; [exact Hle|]; by apply Z.div_le_mono).
    destruct (build_block_spec b gs ks o1 new1 Hb Hle') as (gs1 & ks1 & H1 & H2 & _).
    apply (IH _ gs1 ks1 o1 o new rest H1); [lia|done].
Qed.

(** After [ReturnFilters] all keys are in closed windows. *)
Lemma ReturnFilters_spec b gs ks :
  represents b gs ks →
  ∃ gs', represents (ReturnFilters b).1 gs' [] ∧ (ReturnFilters b).2 = units_of gs' ∧
    concat gs' = concat gs ++ ks ∧
    ∀ i k, recorded gs ks i k → 0 <= i < size gs' ∧ ∃ g, gs' !! Z.to_nat i = Some g ∧ k ∈ g.
Proof.
  intros Hb. pose proof Hb as (Hk & Hs & Hr & Ho & Hu). unfold ReturnFilters. rewrite Hs.
  destruct ks as [|k0 ks].
  - exists gs. split_and!; [done..|by rewrite app_nil_r|].
    intros i k (Hi & g & Hg & Hin). apply lookup_app_Some in Hg as [Hg|[Hl Hg]].
    + pose proof (lookup_lt_Some _ _ _ Hg). unfold size. split; [lia|]. by exists g.
    + apply list_lookup_singleton_Some in Hg as [_ <-]. by apply not_elem_of_nil in Hin.
  - pose proof (represents_GenerateFilter b gs (k0 :: ks) Hb) as Hg.
    exists (gs ++ [k0 :: ks]). simpl. split_and!; [done|by destruct Hg as (_ & _ & _ & _ & ->)| |].
    + rewrite concat_app. simpl. rewrite app_nil_r. done.
    + intros i k (Hi & g & Hl & Hin). pose proof (lookup_lt_Some _ _ _ Hl). unfold size.
      split; [lia|]. by exists g.
Qed.

(** *** The slices of a unit *)

Lemma units_of_lookup gs j u :
  units_of gs !! j = Some u → u = concat ((λ g, nth j (group_units g) []) <$> gs).
Proof.
  revert u. induction gs as [|g gs IH] using rev_ind; intros u Hu.
  - unfold units_of in Hu. simpl in Hu. apply (lookup_replicate_1 6 []) in Hu as [-> _]. done.
  - rewrite units_of_snoc in Hu. apply lookup_zip_with_Some in Hu as (u1 & u2 & -> & H1 & H2).
    rewrite fmap_app, concat_app. simpl. rewrite app_nil_r. f_equal; [by apply IH|].
    by apply nth_lookup_Some with (d := []) in H2.
Qed.

(** All units of one window have the same size. *)
Lemma group_units_size g i j :
  size g < 2 ^ 31 → (i < 6)%nat → (j < 6)%nat →
  size (nth i (group_units g) []) = size (nth j (group_units g) []).
Proof.
  intros Hg Hi Hj. destruct g as [|k g].
  { unfold group_units. by rewrite !nth_repeat_nil. }
  destruct (lookup_lt_is_Some_2 (group_units (k :: g)) i) as [f Hf]; [by rewrite length_group_units|].
  destruct (lookup_lt_is_Some_2 (group_units (k :: g)) j) as [f' Hf']; [by rewrite length_group_units|].
  rewrite (nth_lookup_Some _ _ _ _ Hf), (nth_lookup_Some _ _ _ _ Hf').
  by eapply (same_unit_size (P := policy_)).
Qed.

Lemma concat_units_size gs i j :
  Forall (λ g, size g < 2 ^ 31) gs → (i < 6)%nat → (j < 6)%nat →
  size (concat ((λ g, nth i (group_units g) []) <$> gs)) =
  size (concat ((λ g, nth j (group_units g) []) <$> gs)).
Proof.
  intros Hg Hi Hj. induction Hg as [|g gs Hg Hgs IH]; [done|].
  rewrite !fmap_cons. cbn [concat]. rewrite !size_app, IH. f_equal. by apply group_units_size.
Qed.

Lemma unit_nth gs j : (j < 6)%nat → nth j (units_of gs) [] = concat ((λ g, nth j (group_units g) []) <$> gs).
Proof.
  intros Hj. destruct (lookup_lt_is_Some_2 (units_of gs) j) as [u Hu]; [by rewrite length_units_of|].
  rewrite (nth_lookup_Some _ _ _ _ Hu). by apply units_of_lookup.
Qed.

(** The bytes of unit [j] between the sizes before and after window [i] are
    the filter of that window. *)
Lemma unit_slice gs i g j :
  Forall (λ g, size g < 2 ^ 31) gs → gs !! i = Some g → (j < 6)%nat →
  let start := size (nth 0 (units_of (take i gs)) []) in
  let limit := size (nth 0 (units_of (take (S i) gs)) []) in
  start <= limit ∧ limit <= size (nth 0 (units_of gs) []) ∧
  sub_z start (limit - start) (nth j (units_of gs) []) = nth j (group_units g) [].
Proof.
  intros Hf Hi Hj start limit. subst start limit. rewrite !unit_nth by lia.
  apply list_elem_of_split_length in Hi as (gs1 & gs2 & -> & ->).
  apply Forall_app in Hf as [Hf1 Hf2]. apply Forall_cons_1 in Hf2 as [Hg Hf2].
  rewrite take_app_length.
  replace (take (S (length gs1)) (gs1 ++ g :: gs2)) with (gs1 ++ [g]).
  2: { rewrite (cons_middle g gs1 gs2), (app_assoc gs1 [g] gs2), take_app_length'; [done|].
       rewrite length_app. simpl. lia. }
  rewrite !fmap_app, !concat_app, !fmap_cons, fmap_nil. cbn [concat]. rewrite app_nil_r, !size_app.
  rewrite (concat_units_size gs1 0 j), (group_units_size g 0 j) by (done || lia).
  pose proof (size_nonneg (nth j (group_units g) [])).
  pose proof (size_nonneg (concat ((λ g0, nth 0 (group_units g0) []) <$> gs2))).
  split_and!; [lia|lia|]. unfold sub_z. rewrite drop_z_app by done. apply take_z_app. lia.
Qed.

End facts.
End BuilderFacts.

(** ** Reader correctness *)

Module ReaderFacts.
Import Reader.

(** *** Matching *)

Lemma match_units_true {policy_ : FilterPolicy} us start limit key : ∀ i,
  (∀ j u, us !! j = Some u →
     @KeyMayMatch policy_ key (sub_z start (limit - start) u) (i + Z.of_nat j) = true) →
  match_units i us start limit key = true.
Proof.
  induction us as [|u us IH]; intros i H; [done|]. cbn [match_units].
  pose proof (H 0%nat u eq_refl) as H0. rewrite Z.add_0_r in H0. rewrite H0. cbn [negb].
  apply IH. intros j u' Hj. specialize (H (S j) u' Hj).
  replace (i + 1 + Z.of_nat j) with (i + Z.of_nat (S j)) by lia. done.
Qed.

(** Loading and evicting do not touch [init_done]. *)
Section init_done.
  Context {P : Port}.

Lemma init_done_load r : init_done (LoadFilterInternal r).2 = init_done r.
Proof. unfold LoadFilterInternal. destruct (_ >=? _); [done|]. by destruct (ReadBlock _ _ _). Qed.

Lemma init_done_evict r : init_done (EvictFilterInternal r).2 = init_done r.
Proof. unfold EvictFilterInternal. by destruct (filter_units r). Qed.

Lemma init_done_load_until n : ∀ target s r, init_done (load_until n target s r).2 = init_done r.
Proof.
  induction n as [|n IH]; intros target s r; simpl; [done|]. destruct (_ <? _); [|done].
  pose proof (init_done_load r) as E. destruct (LoadFilterInternal r) as [s' r']. simpl in E.
  destruct (ok s'); [by rewrite IH|done].
Qed.

Lemma init_done_evict_until n : ∀ target s r, init_done (evict_until n target s r).2 = init_done r.
Proof.
  induction n as [|n IH]; intros target s r; simpl; [done|]. destruct (_ >? _); [|done].
  pose proof (init_done_evict r) as E. destruct (EvictFilterInternal r) as [s' r']. simpl in E.
  destruct (ok s'); [by rewrite IH|done].
Qed.

End init_done.

Section reader.
  Context {policy_ : FilterPolicy} {P : Port}.
  (** The six units, and where the builder said they are. *)
  Context (units : list bytes) (meta : bytes) (disk_off unit_size num : Z) (file : RandomAccessFile).
  Hypothesis units_len : length units = 6%nat.
  (** Every unit is readable at its place in the file. *)
  Hypothesis units_on_disk : ∀ i u, units !! i = Some u →
    ReadBlock file true (MkHandle (u64 (disk_off + u64 (u64 (unit_size + kBlockTrailerSize) * Z.of_nat i)))
      unit_size) = Ok {| data := u; cachale := true |}.

(** The reader holds a prefix of the units; everything else is fixed. *)
Definition reader_inv (r : FilterBlockReader) : Prop :=
  offset_ r = meta ∧ disk_offset_ r = disk_off ∧ disk_size_ r = unit_size ∧
  init_units_number_ r = 2 ∧ all_units_number_ r = 6 ∧ base_lg_ r = 11 ∧ num_ r = num ∧
  file_ r = file ∧ 0 <= reload_units_number_ r <= 6 ∧
  ∃ m, (m <= 6)%nat ∧ filter_units r = take m units ∧ length (reader_buffers_ r) = m.

(** Number of loaded units. *)
Definition loaded (r : FilterBlockReader) : Z := size (filter_units r).

(** [r'] is [r] with [m] units loaded. *)
Definition with_loaded (r r' : FilterBlockReader) (m : nat) : Prop :=
  reader_inv r' ∧ filter_units r' = take m units ∧
  reload_units_number_ r' = reload_units_number_ r ∧ init_done r' = init_done r ∧
  access_time_ r' = access_time_ r ∧ sequence_ r' = sequence_ r.

Lemma loaded_take m : (m <= 6)%nat → size (take m units) = Z.of_nat m.
Proof. intros Hm. unfold size. rewrite length_take. lia. Qed.

Lemma inv_loaded r : reader_inv r → ∃ m, (m <= 6)%nat ∧ filter_units r = take m units ∧ loaded r = Z.of_nat m.
Proof.
  intros (_ & _ & _ & _ & _ & _ & _ & _ & _ & m & Hm & Hu & _). exists m. split_and!; [done..|].
  unfold loaded. rewrite Hu. by apply loaded_take.
Qed.

Lemma LoadFilterInternal_spec r :
  reader_inv r →
  if loaded r <? 6
  then ∃ r', LoadFilterInternal r = (Status_OK, r') ∧ with_loaded r r' (S (Z.to_nat (loaded r)))
  else LoadFilterInternal r = (Corruption (bs "all filter units were loaded") [], r).
Proof.
  intros (Ho & Hd & Hs & Hi & Ha & Hb & Hn & Hf & Hr & m & Hm & Hu & Hl).
  unfold LoadFilterInternal, loaded. rewrite Ha, Hu, loaded_take, Z.geb_leb by done.
  destruct (Z.ltb_spec (Z.of_nat m) 6); destruct (Z.leb_spec 6 (Z.of_nat m)); try lia; [|done].
  destruct (lookup_lt_is_Some_2 units m) as [u Hlu]; [lia|].
  rewrite Hd, Hs, Hf, (units_on_disk m u Hlu). cbn [data cachale].
  eexists. split; [done|]. rewrite Nat2Z.id. rewrite <-(take_S_r _ _ _ Hlu).
  unfold with_loaded, reader_inv, set_units; simpl. split_and!; try (done || lia).
  exists (S m). split_and!; [lia|done|]. rewrite length_app. simpl. lia.
Qed.

Lemma EvictFilterInternal_spec r :
  reader_inv r →
  if loaded r >? 0
  then ∃ r', EvictFilterInternal r = (Status_OK, r') ∧ with_loaded r r' (pred (Z.to_nat (loaded r)))
  else EvictFilterInternal r = (Corruption (bs "there is no filter can be  evicted") [], r).
Proof.
  intros (Ho & Hd & Hs & Hi & Ha & Hb & Hn & Hf & Hr & m & Hm & Hu & Hl).
  unfold EvictFilterInternal, loaded. rewrite Hu, loaded_take, Z.gtb_ltb by done.
  destruct m as [|m]; [done|]. destruct (Z.ltb_spec 0 (Z.of_nat (S m))); [|lia].
  destruct (take (S m) units) as [|u us] eqn:E.
  { apply (f_equal length) in E. rewrite length_take, length_nil in E. lia. }
  rewrite <-E. eexists. split; [done|]. rewrite Nat2Z.id. simpl pred.
  rewrite removelast_firstn by lia.
  unfold with_loaded, reader_inv, set_units; simpl. split_and!; try (done || lia).
  exists m. split_and!; [lia|done|]. destruct (reader_buffers_ r) as [|b bs'] using rev_ind; [done|].
  rewrite removelast_last. rewrite length_app in Hl. simpl in Hl. lia.
Qed.

Lemma with_loaded_refl r : reader_inv r → with_loaded r r (Z.to_nat (loaded r)).
Proof.
  intros Hi. destruct (inv_loaded r Hi) as (m & Hm & Hu & ->). rewrite Nat2Z.id. done.
Qed.

Lemma with_loaded_trans r r' r'' m m' : with_loaded r r' m → with_loaded r' r'' m' → with_loaded r r'' m'.
Proof.
  intros (_ & _ & H1 & H2 & H3 & H4) (I & U & G1 & G2 & G3 & G4). unfold with_loaded.
  split_and!; [done..|congruence|congruence|congruence|congruence].
Qed.

Lemma with_loaded_count r r' m : with_loaded r r' m → (m <= 6)%nat → loaded r' = Z.of_nat m.
Proof. intros (_ & Hu & _) Hm. unfold loaded. rewrite Hu. by apply loaded_take. Qed.

(** Loading up to a target of at most six units succeeds. *)
Lemma load_until_spec n : ∀ target r s,
  reader_inv r → 0 <= target <= 6 → n = load_rounds target r →
  ∃ r' s', load_until n target s r = (s', r') ∧ (s = Status_OK → s' = Status_OK) ∧
    with_loaded r r' (Z.to_nat (Z.max target (loaded r))).
Proof.
  induction n as [|n IH]; intros target r s Hi Ht Hn; simpl; unfold load_rounds in Hn; fold (loaded r) in *.
  - exists r, s. split_and!; [done..|]. replace (Z.max target (loaded r)) with (loaded r) by lia.
    by apply with_loaded_refl.
  - destruct (Z.ltb_spec (loaded r) target); [|lia].
    pose proof (LoadFilterInternal_spec r Hi) as Hl. destruct (Z.ltb_spec (loaded r) 6); [|lia].
    destruct Hl as (r1 & -> & W). cbn [ok Status_OK].
    pose proof (size_nonneg (filter_units r)) as H0'. fold (loaded r) in H0'.
    pose proof (with_loaded_count _ _ _ W ltac:(lia)) as C.
    destruct (IH target r1 Status_OK) as (r2 & s2 & E & Hs & W2);
      [apply W|done|unfold load_rounds; fold (loaded r1); lia|].
    exists r2, s2. split_and!; [done|by intros _; apply Hs|].
    eapply with_loaded_trans; [exact W|]. replace (Z.max target (loaded r)) with (Z.max target (loaded r1)) by lia.
    done.
Qed.

Lemma evict_until_spec n : ∀ target r s,
  reader_inv r → 0 <= target → n = evict_rounds target r →
  ∃ r' s', evict_until n target s r = (s', r') ∧ (s = Status_OK → s' = Status_OK) ∧
    with_loaded r r' (Z.to_nat (Z.min target (loaded r))).
Proof.
  induction n as [|n IH]; intros target r s Hi Ht Hn; simpl; unfold evict_rounds in Hn; fold (loaded r) in *.
  - exists r, s. split_and!; [done..|]. replace (Z.min target (loaded r)) with (loaded r) by lia.
    by apply with_loaded_refl.
  - rewrite Z.gtb_ltb. destruct (Z.ltb_spec target (loaded r)); [|lia].
    pose proof (EvictFilterInternal_spec r Hi) as He. rewrite Z.gtb_ltb in He.
    destruct (Z.ltb_spec 0 (loaded r)); [|lia].
    destruct He as (r1 & -> & W). cbn [ok Status_OK].
    destruct (inv_loaded r Hi) as (m & Hm & _ & Em).
    pose proof (with_loaded_count _ _ _ W ltac:(lia)) as C.
    destruct (IH target r1 Status_OK) as (r2 & s2 & E & Hs & W2);
      [apply W|done|unfold evict_rounds; fold (loaded r1); lia|].
    exists r2, s2. split_and!; [done|by intros _; apply Hs|].
    eapply with_loaded_trans; [exact W|]. replace (Z.min target (loaded r)) with (Z.min target (loaded r1)) by lia.
    done.
Qed.

Lemma InitLoadFilter_spec r :
  reader_inv r → ∃ r', InitLoadFilter r = (Status_OK, r') ∧ reader_inv r' ∧ init_done r' = true ∧
    loaded r' = Z.max 2 (loaded r).
Proof.
  intros Hi. pose proof Hi as (_ & _ & _ & Hin & _). destruct (inv_loaded r Hi) as (m & Hm & _ & Em).
  unfold InitLoadFilter. rewrite Hin.
  destruct (load_until_spec _ 2 r Status_OK Hi ltac:(lia) eq_refl) as (r' & s' & -> & Hs & W).
  rewrite Hs by done. exists (set_init_done r'). split; [done|].
  pose proof (with_loaded_count _ _ _ W ltac:(lia)) as C.
  destruct W as (I & _). split_and!; [exact I|done|]. change (loaded (set_init_done r')) with (loaded r'). lia.
Qed.

Lemma buffers_loaded r : reader_inv r → size (reader_buffers_ r) = loaded r.
Proof.
  intros (_ & _ & _ & _ & _ & _ & _ & _ & _ & m & Hm & Hu & Hl). unfold loaded. rewrite Hu, loaded_take by done.
  unfold size. by rewrite Hl.
Qed.

Lemma reader_inv_set_reload r n : reader_inv r → 0 <= n <= 6 → reader_inv (set_reload r n).
Proof.
  intros (Ho & Hd & Hs & Hi & Ha & Hb & Hn & Hf & Hr & Hm) Hz. unfold reader_inv, set_reload; simpl.
  split_and!; done || lia.
Qed.

(** [CleanFilter] drops every unit and remembers how many there were. *)
Lemma CleanFilter_spec r :
  reader_inv r → ∃ r', CleanFilter r = (Status_OK, r') ∧ reader_inv r' ∧ loaded r' = 0 ∧
    reload_units_number_ r' = loaded r ∧ init_done r' = init_done r.
Proof.
  intros Hi. destruct (inv_loaded r Hi) as (m & Hm & _ & Em). unfold CleanFilter, CleanFilterInternal.
  rewrite buffers_loaded by done. rewrite u32_small by (unfold is_u32; lia).
  pose proof (reader_inv_set_reload r (loaded r) Hi ltac:(lia)) as Hi'.
  destruct (evict_until_spec _ 0 _ Status_OK Hi' ltac:(lia) eq_refl) as (r' & s' & -> & Hs & W).
  rewrite Hs by done. exists r'. split; [done|].
  change (loaded (set_reload r (loaded r))) with (loaded r) in W.
  pose proof (with_loaded_count _ _ _ W ltac:(lia)) as C.
  destruct W as (I & _ & Er & Ed & _). split_and!; [done|lia|done|done].
Qed.

(** [GoBackToInitFilter] reaches exactly the remembered number of units. *)
Lemma GoBackToInitFilter_spec r f :
  reader_inv r → init_done r = true → f = None ∨ f = Some file →
  ∃ r', GoBackToInitFilter f r = Some (Status_OK, r') ∧ reader_inv r' ∧
    loaded r' = reload_units_number_ r ∧ init_done r' = true.
Proof.
  intros Hi Hd Hf. assert (UpdateFile f r = r) as Eu.
  { destruct Hf as [-> | ->]; [done|]. simpl. pose proof Hi as (_ & _ & _ & _ & _ & _ & _ & <- & _). by destruct r. }
  unfold GoBackToInitFilter. rewrite Eu. pose proof Hi as (_ & _ & _ & _ & _ & _ & _ & _ & Hr & _).
  unfold kAllFilterUnitsNumber, FilterUnitsNumberInternal. rewrite Z.gtb_ltb, Hd.
  destruct (Z.ltb_spec 6 (reload_units_number_ r)); [lia|]. cbn [mbind option_bind].
  destruct (load_until_spec _ (reload_units_number_ r) r Status_OK Hi Hr eq_refl) as (r1 & s1 & -> & Hs & W).
  rewrite Hs by done. cbn [ok Status_OK negb].
  destruct (inv_loaded r Hi) as (m & Hm & _ & Em).
  pose proof (with_loaded_count _ _ _ W ltac:(lia)) as C.
  destruct (evict_until_spec _ (reload_units_number_ r) r1 Status_OK (proj1 W) ltac:(lia) eq_refl)
    as (r2 & s2 & -> & Hs2 & W2).
  rewrite Hs2 by done. exists r2. pose proof (with_loaded_count _ _ _ W2 ltac:(lia)) as C2.
  destruct W as (_ & _ & _ & Ed & _). destruct W2 as (I2 & _ & _ & Ed2 & _).
  split_and!; [done..|lia|congruence].
Qed.

(** *** All operations keep the invariant *)

Inductive reader_step : FilterBlockReader → FilterBlockReader → Prop :=
  | step_load r : reader_step r (LoadFilter r).2
  | step_evict r : reader_step r (EvictFilter r).2
  | step_init r : reader_step r (InitLoadFilter r).2
  | step_clean r : reader_step r (CleanFilter r).2
  | step_goback r s r' f :
      f = None ∨ f = Some file → GoBackToInitFilter f r = Some (s, r') → reader_step r r'
  | step_access r sn : reader_step r (UpdateState sn r)
  | step_set_access r t : reader_step r (SetAccessTime t r).

(** Once a reader is initialised it stays so. *)
Lemma reader_step_init_done r r' : reader_step r r' → init_done r = true → init_done r' = true.
Proof.
  intros Hs Hd. destruct Hs as [r|r|r|r|r s r' f Hf E|r sn|r t]; try done.
  - by rewrite init_done_load.
  - by rewrite init_done_evict.
  - unfold InitLoadFilter. by destruct (load_until _ _ _ _).
  - unfold CleanFilter, CleanFilterInternal. by rewrite init_done_evict_until.
  - unfold GoBackToInitFilter in E. set (r0 := UpdateFile f r) in E.
    assert (init_done r0 = true) as Hd0 by (by destruct f). clearbody r0.
    destruct (_ >? _); [by injection E as _ <-|]. unfold FilterUnitsNumberInternal in E.
    rewrite Hd0 in E. simpl in E.
    pose proof (init_done_load_until (load_rounds (reload_units_number_ r0) r0) (reload_units_number_ r0) Status_OK r0) as E1.
    destruct (load_until _ _ _ _) as [s1 r1]. simpl in E1. destruct (negb (ok s1)).
    + injection E as _ <-. congruence.
    + injection E as E.
      pose proof (init_done_evict_until (evict_rounds (reload_units_number_ r0) r1) (reload_units_number_ r0) s1 r1) as E2.
      rewrite E in E2. simpl in E2. congruence.
Qed.

Lemma reader_steps_init_done r r' : rtc reader_step r r' → init_done r = true → init_done r' = true.
Proof. induction 1; eauto using reader_step_init_done. Qed.

Lemma GoBackToInitFilter_blocked r f :
  init_done r = false → reader_inv r → GoBackToInitFilter f r = None.
Proof.
  intros Hd (_ & _ & _ & _ & _ & _ & _ & _ & Hr & _). unfold GoBackToInitFilter, kAllFilterUnitsNumber.
  assert (init_done (UpdateFile f r) = false ∧ reload_units_number_ (UpdateFile f r) = reload_units_number_ r)
    as [Hd' ->] by (by destruct f).
  rewrite Z.gtb_ltb. destruct (Z.ltb_spec 6 (reload_units_number_ r)); [lia|].
  unfold FilterUnitsNumberInternal. rewrite Hd'. done.
Qed.

Lemma reader_step_inv r r' : reader_step r r' → reader_inv r → reader_inv r'.
Proof.
  intros Hs Hi. destruct Hs as [r|r|r|r|r s r' f Hf E|r sn|r t].
  - pose proof (LoadFilterInternal_spec r Hi) as H. unfold LoadFilter.
    destruct (loaded r <? 6); [destruct H as (r' & -> & W); apply W|by rewrite H].
  - pose proof (EvictFilterInternal_spec r Hi) as H. unfold EvictFilter.
    destruct (loaded r >? 0); [destruct H as (r' & -> & W); apply W|by rewrite H].
  - destruct (InitLoadFilter_spec r Hi) as (r' & -> & I & _). done.
  - destruct (CleanFilter_spec r Hi) as (r' & -> & I & _). done.
  - destruct (init_done r) eqn:Hd.
    + destruct (GoBackToInitFilter_spec r f Hi Hd Hf) as (r2 & E2 & I & _). rewrite E2 in E. by injection E as _ <-.
    + by rewrite GoBackToInitFilter_blocked in E.
  - exact Hi.
  - exact Hi.
Qed.

Lemma reader_steps_inv r r' : rtc reader_step r r' → reader_inv r → reader_inv r'.
Proof. induction 1; eauto using reader_step_inv. Qed.

End reader.
End ReaderFacts.

(** ** From builder to reader *)

Module EndToEnd.
Import Builder BuilderFacts Reader ReaderFacts.

(** The window offsets as consecutive fixed32 values. *)
Lemma fixed32_at_app a v rest n : is_u32 v → n = size a → fixed32_at (a ++ EncodeFixed32 v ++ rest) n = v.
Proof.
  intros Hv ->. unfold fixed32_at. rewrite drop_z_app, DecodeFixed32_Encode by done. done.
Qed.

Lemma fixed64_at_app a v rest n : is_u64 v → n = size a → fixed64_at (a ++ EncodeFixed64 v ++ rest) n = v.
Proof.
  intros Hv ->. unfold fixed64_at. rewrite drop_z_app, DecodeFixed64_Encode by done. done.
Qed.

Lemma fixed32_at_array l i v rest n :
  l !! i = Some v → is_u32 v → n = 4 * Z.of_nat i →
  fixed32_at (concat (EncodeFixed32 <$> l) ++ rest) n = v.
Proof.
  intros Hl Hv ->. apply list_elem_of_split_length in Hl as (l1 & l2 & -> & ->).
  rewrite fmap_app, fmap_cons, concat_app. cbn [concat]. rewrite <-!app_assoc.
  apply fixed32_at_app; [done|]. rewrite size_fixed32s. unfold size. lia.
Qed.

Section layout.
  Context {policy_ : FilterPolicy} {L : FilterPolicyLaws policy_}.

(** The offsets and the limit of the last window. *)
Definition window_limits (gs : list (list bytes)) : list Z :=
  offsets_of gs ++ [u32 (size (nth 0 (units_of gs) []))].

(** The fixed part behind the offsets: 21 bytes. *)
Definition meta_tail (h : BlockHandle) : bytes :=
  EncodeFixed64 (bh_offset h) ++ EncodeFixed32 (u32 (bh_size h)) ++
  EncodeFixed32 kLoadFilterUnitsNumber ++ EncodeFixed32 kAllFilterUnitsNumber ++ [z2b kFilterBaseLg].

Lemma Finish_layout b gs h :
  represents b gs [] →
  (Finish h b).2 = concat (EncodeFixed32 <$> window_limits gs) ++ meta_tail h.
Proof.
  intros (_ & _ & Hr & Ho & Hu). unfold Finish, unit0_size. cbn [snd].
  rewrite Hr, Ho, Hu, foldl_PutFixed32. unfold PutFixed32, PutFixed64, window_limits, meta_tail.
  rewrite fmap_app, concat_app. cbn [concat fmap list_fmap]. rewrite app_nil_r, <-!app_assoc. done.
Qed.

Lemma window_limits_lookup gs i :
  (i <= length gs)%nat →
  window_limits gs !! i = Some (u32 (size (nth 0 (units_of (take i gs)) []))).
Proof.
  intros Hi. unfold window_limits. destruct (decide (i = length gs)) as [->|Hne].
  - rewrite list_lookup_middle by (by rewrite length_offsets_of). by rewrite take_ge.
  - rewrite lookup_app_l by (rewrite length_offsets_of; lia).
    unfold offsets_of. rewrite list_lookup_fmap, lookup_seq_lt by lia. done.
Qed.

Lemma size_window_limits gs : size (window_limits gs) = size gs + 1.
Proof. unfold window_limits. rewrite size_app. unfold size at 1. rewrite length_offsets_of. done. Qed.

(** The reader decodes what the builder wrote. *)
Lemma NewFilterBlockReader_meta junk gs h file :
  is_u64 (bh_offset h) →
  let meta := concat (EncodeFixed32 <$> window_limits gs) ++ meta_tail h in
  NewFilterBlockReader junk meta file =
    MkReader meta (bh_offset h) (u32 (bh_size h)) 2 6 11 (size gs) 2 0 0 file [] [] false.
Proof.
  intros Ho meta. set (A := concat (EncodeFixed32 <$> window_limits gs)) in *.
  assert (size A = 4 * (size gs + 1)) as HA by (unfold A; rewrite size_fixed32s, size_window_limits; done).
  assert (size meta = size A + 21) as Hm by (unfold meta; rewrite size_app; done).
  pose proof (size_nonneg gs).
  assert (fixed64_at meta (size meta - 21) = bh_offset h) as E1.
  { rewrite Hm. unfold meta, meta_tail. apply fixed64_at_app; [done|]. lia. }
  assert (fixed32_at meta (size meta - 13) = u32 (bh_size h)) as E2.
  { rewrite Hm. unfold meta, meta_tail at 1. rewrite (app_assoc A). apply fixed32_at_app; [apply u32_range|].
    rewrite size_app, size_EncodeFixed64. lia. }
  assert (fixed32_at meta (size meta - 9) = 2) as E3.
  { rewrite Hm. unfold meta, meta_tail at 1. rewrite (app_assoc A), (app_assoc (A ++ _)).
    apply fixed32_at_app; [vm_compute; by split|].
    rewrite !size_app, size_EncodeFixed64, size_EncodeFixed32. lia. }
  assert (fixed32_at meta (size meta - 5) = 6) as E4.
  { rewrite Hm. unfold meta, meta_tail at 1. rewrite (app_assoc A), (app_assoc (A ++ _)), (app_assoc ((A ++ _) ++ _)).
    apply fixed32_at_app; [vm_compute; by split|].
    rewrite !size_app, size_EncodeFixed64, !size_EncodeFixed32. lia. }
  assert (nth_z meta (size meta - 1) = Some (z2b kFilterBaseLg)) as E5.
  { rewrite Hm. unfold nth_z. destruct (Z.ltb_spec (size A + 21 - 1) 0); [lia|].
    unfold meta, meta_tail. rewrite !app_assoc. apply list_lookup_middle.
    rewrite !length_app. simpl. unfold size. lia. }
  unfold NewFilterBlockReader. destruct (Z.ltb_spec (size meta) 25); [lia|].
  rewrite E1, E2, E3, E4, E5.
  replace ((size meta - 25) / 4) with (size gs); [done|].
  rewrite Hm, HA. apply (Z.div_unique _ _ _ 0); lia.
Qed.

End layout.

(** The raw blocks of the units, as written to the table file. *)
Definition raw_units (units : list bytes) : bytes :=
  concat ((λ u, raw_block u kNoCompression) <$> units).

Lemma raw_units_size units n :
  Forall (λ u, size u = n) units → size (raw_units units) = size units * (n + kBlockTrailerSize).
Proof.
  unfold raw_units. induction 1 as [|u us Hu Hus IH]; [done|].
  rewrite fmap_cons. cbn [concat]. rewrite size_app, size_raw_block, IH, size_cons, Hu. lia.
Qed.

(** Each unit is readable at its computed offset. *)
Lemma units_on_disk_file {P : Port} pre post units n i u :
  Forall (λ u, size u = n) units → units !! i = Some u →
  size (pre ++ raw_units units ++ post) < 2 ^ 64 →
  ReadBlock (StringSource (pre ++ raw_units units ++ post)) true
    (MkHandle (u64 (size pre + u64 (u64 (n + kBlockTrailerSize) * Z.of_nat i))) n)
  = Ok {| data := u; cachale := true |}.
Proof.
  intros Hn Hi Hs. apply list_elem_of_split_length in Hi as (us1 & us2 & -> & ->).
  apply Forall_app in Hn as [Hn1 Hn2]. apply Forall_cons_1 in Hn2 as [Hu Hn2].
  unfold raw_units in *. rewrite fmap_app, fmap_cons, concat_app in *. cbn [concat] in *.
  fold (raw_units us1) in *. fold (raw_units us2) in *.
  replace (pre ++ (raw_units us1 ++ raw_block u kNoCompression ++ raw_units us2) ++ post)
    with ((pre ++ raw_units us1) ++ raw_block u kNoCompression ++ raw_units us2 ++ post) in *
    by (by rewrite <-!app_assoc).
  pose proof (raw_units_size us1 n Hn1) as E. fold (size us1).
  change (Z.of_nat (length us1)) with (size us1).
  assert (size (pre ++ raw_units us1) = size pre + (n + kBlockTrailerSize) * size us1) as Ep
    by (rewrite size_app, E; lia).
  pose proof (size_nonneg u). pose proof (size_nonneg pre). pose proof (size_nonneg us1).
  pose proof (size_nonneg (raw_units us2)). pose proof (size_nonneg post).
  assert (size pre + (n + kBlockTrailerSize) * size us1 + (n + kBlockTrailerSize) < 2 ^ 64) as Hb.
  { rewrite !size_app, size_raw_block, E in Hs. lia. }
  unfold kBlockTrailerSize in *.
  rewrite (u64_small (n + 5)) by (unfold is_u64; nia).
  rewrite (u64_small ((n + 5) * size us1)) by (unfold is_u64; nia).
  rewrite u64_small by (unfold is_u64; nia). rewrite <-Ep, <-Hu.
  rewrite (ReadBlock_contents _ true _ u kNoCompression true); [done| |done| |].
  - simpl. unfold kBlockTrailerSize.
    replace (size u + 5) with (size (raw_block u kNoCompression)) by apply size_raw_block.
    apply StringSource_Read_inside; [done|]. rewrite size_raw_block. unfold kBlockTrailerSize. lia.
  - unfold kBlockTrailerSize. lia.
  - unfold kNoCompression. lia.
Qed.

Section end_to_end.
  Context {policy_ : FilterPolicy} {L : FilterPolicyLaws policy_} {P : Port}.

(** A filter block over [blocks], its units between [pre] and [post] in a file,
    and the reader opened on the result. *)
Definition open_reader (junk : Z) (blocks : list (Z * list bytes)) (pre post : bytes) : FilterBlockReader :=
  let '(b, units) := ReturnFilters (build blocks) in
  let handle := MkHandle (size pre) (size (nth 0 units [])) in
  let '(_, meta) := Finish handle b in
  NewFilterBlockReader junk meta (StringSource (pre ++ raw_units units ++ post)).

(** The file of [open_reader]. *)
Definition units_file (blocks : list (Z * list bytes)) (pre post : bytes) : RandomAccessFile :=
  StringSource (pre ++ raw_units (ReturnFilters (build blocks)).2 ++ post).

Definition sizes_ok (blocks : list (Z * list bytes)) (pre post : bytes) : Prop :=
  size (concat (snd <$> blocks)) < 2 ^ 31 ∧
  size (nth 0 (ReturnFilters (build blocks)).2 []) < 2 ^ 32 ∧
  size (pre ++ raw_units (ReturnFilters (build blocks)).2 ++ post) < 2 ^ 64.

Lemma elem_concat_size (g : list bytes) gs : g ∈ gs → size g <= size (concat gs).
Proof.
  intros (l1 & l2 & ->)%list_elem_of_split. rewrite concat_app. cbn [concat]. rewrite !size_app.
  pose proof (size_nonneg (concat l1)). pose proof (size_nonneg (concat l2)). lia.
Qed.

(** The closed windows behind a reader, and the reader's initial state. *)
Lemma open_reader_inv junk blocks pre post :
  offsets_from 0 blocks → sizes_ok blocks pre post →
  ∃ gs, Forall (λ g, size g < 2 ^ 31) gs ∧
    (ReturnFilters (build blocks)).2 = units_of gs ∧
    (∀ o ks k, (o, ks) ∈ blocks → k ∈ ks →
       0 <= o / kFilterBase < size gs ∧ ∃ g, gs !! Z.to_nat (o / kFilterBase) = Some g ∧ k ∈ g) ∧
    let meta := concat (EncodeFixed32 <$> window_limits gs) ++
                meta_tail (MkHandle (size pre) (size (nth 0 (units_of gs) []))) in
    reader_inv (units_of gs) meta (size pre) (size (nth 0 (units_of gs) [])) (size gs)
      (units_file blocks pre post) (open_reader junk blocks pre post).
Proof.
  intros Ho (Hk & Hu & Hf).
  destruct (build_spec blocks NewFilterBlockBuilder [] [] 0 represents_new ltac:(done) Ho)
    as (gs0 & ks0 & H1 & H2 & _ & H4).
  destruct (ReturnFilters_spec _ gs0 ks0 H1) as (gs & G1 & G2 & G3 & G4).
  unfold open_reader, units_file in *. unfold build in *.
  destruct (ReturnFilters (foldl build_block NewFilterBlockBuilder blocks)) as [b units]. cbn [fst snd] in *.
  subst units. exists gs. split; [|split; [|split]].
  - apply Forall_forall. intros g Hg. apply Z.le_lt_trans with (size (concat gs)).
    + by apply elem_concat_size.
    + rewrite G3, H2. done.
  - done.
  - intros o ks k Hin Hks. by apply G4, (H4 o ks).
  - pose proof (Finish_layout b gs (MkHandle (size pre) (size (nth 0 (units_of gs) []))) G1) as E.
    destruct (Finish _ b) as [b' meta']. cbn [snd] in E. rewrite E.
    rewrite NewFilterBlockReader_meta.
    2: { unfold is_u64. simpl. rewrite !size_app in Hf. pose proof (size_nonneg pre).
         pose proof (size_nonneg post). pose proof (size_nonneg (raw_units (units_of gs))). lia. }
    unfold reader_inv. simpl. rewrite u32_small by (unfold is_u32; pose proof (size_nonneg (nth 0 (units_of gs) [])); lia).
    split_and!; try (done || lia). exists 0%nat. split_and!; [lia|done..].
Qed.

(** All units have the size of unit 0. *)
Lemma units_of_sizes gs :
  Forall (λ g, size g < 2 ^ 31) gs →
  Forall (λ u, size u = size (nth 0 (units_of gs) [])) (units_of gs).
Proof.
  intros Hg. apply Forall_lookup. intros j u Hu.
  assert (j < 6)%nat as Hj by (apply lookup_lt_Some in Hu; by rewrite length_units_of in Hu).
  rewrite (units_of_lookup gs j u Hu), unit_nth by lia. by apply concat_units_size; [|lia..].
Qed.

(** A reader in any reachable state matches every key of the block. *)
Lemma reader_matches gs meta_h file disk_off r o g k :
  Forall (λ g, size g < 2 ^ 31) gs → size (nth 0 (units_of gs) []) < 2 ^ 32 →
  0 <= o / kFilterBase < size gs → gs !! Z.to_nat (o / kFilterBase) = Some g → k ∈ g →
  reader_inv (units_of gs) (concat (EncodeFixed32 <$> window_limits gs) ++ meta_tail meta_h)
    disk_off (size (nth 0 (units_of gs) [])) (size gs) file r →
  init_done r = true →
  ReaderKeyMayMatch o k r = Some true.
Proof.
  intros Hg Hu Hi Hl Hk (Ho & _ & Hs & _ & _ & Hb & Hn & _ & _ & m & Hm & Hfu & _) Hd.
  unfold ReaderKeyMayMatch. rewrite Hb, Hn, Hs, Ho.
  rewrite Z.shiftr_div_pow2 by lia. change (2 ^ 11) with kFilterBase.
  set (i := Z.to_nat (o / kFilterBase)) in *. assert (Z.of_nat i = o / kFilterBase) as Ei by lia.
  rewrite <-Ei. destruct (Z.ltb_spec (Z.of_nat i) (size gs)); [|lia].
  destruct (unit_slice gs i g 0 Hg Hl ltac:(lia)) as (Hle & Hlim & _).
  assert ((i < length gs)%nat) as Hlt by (unfold size in Hi; lia).
  pose proof (size_nonneg (nth 0 (units_of (take i gs)) [])) as Hp.
  pose proof (window_limits_lookup gs i ltac:(lia)) as W1.
  pose proof (window_limits_lookup gs (S i) ltac:(lia)) as W2.
  rewrite u32_small in W1 by (unfold is_u32; lia). rewrite u32_small in W2 by (unfold is_u32; lia).
  rewrite (fixed32_at_array _ i _ _ (Z.of_nat i * 4) W1) by (unfold is_u32; lia).
  rewrite (fixed32_at_array _ (S i) _ _ (Z.of_nat i * 4 + 4) W2) by (unfold is_u32; lia).
  set (start := size (nth 0 (units_of (take i gs)) [])) in *.
  set (limit := size (nth 0 (units_of (take (S i) gs)) [])) in *.
  destruct (Z.leb_spec start limit); [|lia]. destruct (Z.leb_spec limit (size (nth 0 (units_of gs) []))); [|lia].
  cbn [andb]. unfold FilterUnitsNumberInternal. rewrite Hd. cbn [mbind option_bind]. f_equal.
  apply match_units_true. intros j u Hj. rewrite Hfu in Hj.
  apply lookup_take_Some in Hj as [Hj Hjm].
  destruct (unit_slice gs i g j Hg Hl ltac:(lia)) as (_ & _ & Hsl). fold start limit in Hsl.
  rewrite (nth_lookup_Some _ _ [] _ Hj) in Hsl. rewrite Hsl, Z.add_0_l.
  destruct g as [|k0 g]; [by apply not_elem_of_nil in Hk|].
  destruct (lookup_lt_is_Some_2 (group_units (k0 :: g)) j) as [f Hf]; [rewrite length_group_units; lia|].
  rewrite (nth_lookup_Some _ _ _ _ Hf).
  apply (no_false_negative (P := policy_) (k0 :: g) 6 j f k); [|exact Hf|done].
  rewrite Forall_forall in Hg. apply Hg. apply list_elem_of_lookup. by exists i.
Qed.

End end_to_end.
End EndToEnd.

(** ** Properties *)

Import Builder BuilderFacts Reader ReaderFacts EndToEnd.

Section reachable.
  Context {policy_ : FilterPolicy} {L : FilterPolicyLaws policy_} {P : Port}.

(** The windows behind a reader that was opened on a built block and has since
    loaded, evicted, cleaned and reloaded units in any order. *)
Lemma reachable_reader junk blocks pre post r :
  offsets_from 0 blocks → sizes_ok blocks pre post →
  rtc (reader_step (units_file blocks pre post)) (open_reader junk blocks pre post) r →
  ∃ gs, Forall (λ g, size g < 2 ^ 31) gs ∧ (ReturnFilters (build blocks)).2 = units_of gs ∧
    size (nth 0 (units_of gs) []) < 2 ^ 32 ∧
    (∀ i u, units_of gs !! i = Some u →
      ReadBlock (units_file blocks pre post) true
        (MkHandle (u64 (size pre + u64 (u64 (size (nth 0 (units_of gs) []) + kBlockTrailerSize) * Z.of_nat i)))
          (size (nth 0 (units_of gs) []))) = Ok {| data := u; cachale := true |}) ∧
    (∀ o ks k, (o, ks) ∈ blocks → k ∈ ks →
       0 <= o / kFilterBase < size gs ∧ ∃ g, gs !! Z.to_nat (o / kFilterBase) = Some g ∧ k ∈ g) ∧
    reader_inv (units_of gs) (concat (EncodeFixed32 <$> window_limits gs) ++
        meta_tail (MkHandle (size pre) (size (nth 0 (units_of gs) []))))
      (size pre) (size (nth 0 (units_of gs) [])) (size gs) (units_file blocks pre post) r.
Proof.
  intros Ho Hs Hr. destruct (open_reader_inv junk blocks pre post Ho Hs) as (gs & Hg & Hu & Hk & Hi).
  destruct Hs as (_ & Hs2 & Hs3). rewrite Hu in Hs2.
  assert (∀ i u, units_of gs !! i = Some u →
      ReadBlock (units_file blocks pre post) true
        (MkHandle (u64 (size pre + u64 (u64 (size (nth 0 (units_of gs) []) + kBlockTrailerSize) * Z.of_nat i)))
          (size (nth 0 (units_of gs) []))) = Ok {| data := u; cachale := true |}) as Hd.
  { intros i u Hl. unfold units_file. rewrite Hu in *.
    by apply units_on_disk_file; [apply units_of_sizes|..]. }
  exists gs. split; [done|]. split; [done|]. split; [done|]. split; [done|]. split; [done|].
  eapply reader_steps_inv; [apply length_units_of|exact Hd|exact Hr|exact Hi].
Qed.

End reachable.

(** C22: end to end there are no false negatives: a key added to the filter block
    after [StartBlock] at its data block's offset is matched at that offset by a
    reader opened on the written meta data and units, in every state reachable
    by initial loading, loading, evicting, cleaning and reloading units. *)
Theorem filter_block_no_false_negative (policy_ : FilterPolicy) (P : Port)
    (blocks : list (Z * list bytes)) (pre post : bytes) (junk o : Z) (ks : list bytes) (k : bytes)
    (r : FilterBlockReader) :
  FilterPolicyLaws policy_ → offsets_from 0 blocks → sizes_ok blocks pre post →
  (o, ks) ∈ blocks → k ∈ ks →
  rtc (reader_step (units_file blocks pre post)) (open_reader junk blocks pre post) r →
  init_done r = true →
  ReaderKeyMayMatch o k r = Some true.
Proof.
  intros L Ho Hs Hin Hk Hr Hd.
  destruct (reachable_reader junk blocks pre post r Ho Hs Hr) as (gs & Hg & _ & Hsz & _ & Hw & Hi).
  destruct (Hw o ks k Hin Hk) as (Hb & g & Hg' & Hkg).
  by eapply reader_matches.
Qed.

Lemma filter_block_no_false_negative_witness :
  let pol := Bloom.BloomPolicy (Bloom.NewBloomFilterPolicy 10) in
  let blocks := [(0, [[x61]; [x62]]); (5000, [[x63]])] in
  let r0 := @open_reader pol 0 blocks [x01] [] in
  ReaderKeyMayMatch (policy_ := pol) 5000 [x63] (InitLoadFilter (P := PortNone) r0).2 = Some true.
Proof.
  apply (filter_block_no_false_negative (Bloom.BloomPolicy (Bloom.NewBloomFilterPolicy 10)) PortNone
    [(0, [[x61]; [x62]]); (5000, [[x63]])] [x01] [] 0 5000 [[x63]]).
  - apply Bloom.NewBloomFilterPolicy_laws. lia.
  - simpl. lia.
  - vm_compute. done.
  - right. left.
  - left.
  - apply rtc_once, step_init.
  - vm_compute. done.
Defined.

(** unit management of a reachable reader: loading succeeds exactly while
    fewer than six units are in memory and adds the next unit; evicting drops
    the last one and fails on none; cleaning drops all and going back reloads
    exactly the units that were in memory. *)
Theorem filter_reader_units (policy_ : FilterPolicy) (P : Port)
    (blocks : list (Z * list bytes)) (pre post : bytes) (junk : Z) (r : FilterBlockReader) :
  FilterPolicyLaws policy_ → offsets_from 0 blocks → sizes_ok blocks pre post →
  let file := units_file blocks pre post in
  let units := (ReturnFilters (build blocks)).2 in
  rtc (reader_step file) (open_reader junk blocks pre post) r →
  (∃ m, (m <= 6)%nat ∧ filter_units r = take m units ∧ loaded r = Z.of_nat m) ∧
  (if loaded r <? 6
   then ∃ r', LoadFilter r = (Status_OK, r') ∧ filter_units r' = take (S (Z.to_nat (loaded r))) units
   else IsCorruption (LoadFilter r).1 = true ∧ (LoadFilter r).2 = r) ∧
  (if loaded r >? 0
   then ∃ r', EvictFilter r = (Status_OK, r') ∧ filter_units r' = take (pred (Z.to_nat (loaded r))) units
   else IsCorruption (EvictFilter r).1 = true ∧ (EvictFilter r).2 = r) ∧
  (init_done r = true → ∃ r1 r2,
     CleanFilter r = (Status_OK, r1) ∧ filter_units r1 = [] ∧
     GoBackToInitFilter (Some file) r1 = Some (Status_OK, r2) ∧ filter_units r2 = filter_units r).
Proof.
  intros L Ho Hs file units Hr.
  destruct (reachable_reader junk blocks pre post r Ho Hs Hr) as (gs & Hg & Hu & Hsz & Hd & _ & Hi).
  subst file units. rewrite Hu. pose proof (length_units_of gs) as Hlen.
  split; [by eapply inv_loaded|]. split; [|split].
  - pose proof (LoadFilterInternal_spec _ _ _ _ _ _ Hlen Hd r Hi) as H. unfold LoadFilter.
    destruct (loaded r <? 6); [|by rewrite H].
    destruct H as (r' & E & _ & Hf & _). exists r'. by rewrite <-Hf.
  - pose proof (EvictFilterInternal_spec _ _ _ _ _ _ Hlen r Hi) as H. unfold EvictFilter.
    destruct (loaded r >? 0); [|by rewrite H].
    destruct H as (r' & E & _ & Hf & _). exists r'. by rewrite <-Hf.
  - intros Hin. destruct (CleanFilter_spec _ _ _ _ _ _ Hlen r Hi) as (r1 & E1 & I1 & L1 & R1 & D1).
    destruct (GoBackToInitFilter_spec _ _ _ _ _ _ Hlen Hd r1 (Some (units_file blocks pre post)) I1)
      as (r2 & E2 & I2 & L2 & _); [congruence|by right|].
    exists r1, r2. split; [done|]. split.
    { unfold loaded, size in L1. destruct (filter_units r1); [done|simpl in L1; lia]. }
    split; [done|]. destruct (inv_loaded _ _ _ _ _ _ Hlen r Hi) as (m & Hm & Em & Lm).
    destruct (inv_loaded _ _ _ _ _ _ Hlen r2 I2) as (m2 & Hm2 & Em2 & Lm2). rewrite Em, Em2. f_equal. lia.
Qed.

Lemma filter_reader_units_witness :
  let pol := Bloom.BloomPolicy (Bloom.NewBloomFilterPolicy 10) in
  let blocks := [(0, [[x61]; [x62]])] in
  let r := @open_reader pol 0 blocks [x01] [] in
  ∃ m, (m <= 6)%nat ∧ filter_units r = take m (ReturnFilters (@build pol blocks)).2 ∧ loaded r = Z.of_nat m.
Proof.
  refine (proj1 (filter_reader_units (Bloom.BloomPolicy (Bloom.NewBloomFilterPolicy 10)) PortNone
    [(0, [[x61]; [x62]])] [x01] [] 0 _ _ _ _ _)).
  - apply Bloom.NewBloomFilterPolicy_laws. lia.
  - simpl. lia.
  - vm_compute. done.
  - apply rtc_refl.
Defined.
