(* ===== verification/TableBuilder.v ===== *)
(** * Building tables (src/table/table_builder.cc, src/include/leveldb/table_builder.h)

    [TableBuilder] writes sorted entries to a file as data blocks, then the filter
    units, the meta index block, the index block and the footer.  The file models
    every call that writes, with the status that stops it, and proves what a
    finished file holds. *)

From Stdlib Require Import String.
From S2P Require Import Prelude Coding Status Env Crc32c Comparator Format DbFormat Block Iterators Bloom FilterBlock.
Import Coding.

(** The options a table uses; a filter policy comes with its name. *)
Record TableOptions := MkTableOptions {
  t_comparator : Comparator;
  t_paranoid_checks : bool;
  t_block_size : Z;
  t_block_restart_interval : Z;
  t_compression : Z;
  t_zstd_level : Z;
  t_filter_policy : option (bytes * FilterPolicy);
}.

Section TableBuilder.
  Context {W : WritableFile} {P : Port}.

(** [TableBuilder::Rep]; [index_block_options] only differ in the restart interval. *)
Record TableBuilder := MkTB {
  tb_options : TableOptions;
  tb_file : wfile;
  tb_offset : Z;
  tb_status : Status;
  tb_data_block : BlockBuilder;
  tb_index_block : BlockBuilder;
  tb_last_key : bytes;
  tb_num_entries : Z;
  tb_closed : bool;
  tb_filter_block : option Builder.FilterBlockBuilder;
  tb_pending_index_entry : bool;
  tb_pending_handle : BlockHandle;
}.

Definition tb_set_io (r : TableBuilder) (file : wfile) (offset : Z) (status : Status) : TableBuilder :=
  MkTB (tb_options r) file offset status (tb_data_block r) (tb_index_block r) (tb_last_key r) (tb_num_entries r)
    (tb_closed r) (tb_filter_block r) (tb_pending_index_entry r) (tb_pending_handle r).

Definition tb_set_data (r : TableBuilder) (data_block : BlockBuilder) (last_key : bytes) (num_entries : Z) : TableBuilder :=
  MkTB (tb_options r) (tb_file r) (tb_offset r) (tb_status r) data_block (tb_index_block r) last_key num_entries
    (tb_closed r) (tb_filter_block r) (tb_pending_index_entry r) (tb_pending_handle r).

Definition tb_set_index (r : TableBuilder) (index_block : BlockBuilder) (last_key : bytes) (pending : bool) (handle : BlockHandle) : TableBuilder :=
  MkTB (tb_options r) (tb_file r) (tb_offset r) (tb_status r) (tb_data_block r) index_block last_key (tb_num_entries r)
    (tb_closed r) (tb_filter_block r) pending handle.

Definition tb_set_filter (r : TableBuilder) (filter_block : option Builder.FilterBlockBuilder) : TableBuilder :=
  MkTB (tb_options r) (tb_file r) (tb_offset r) (tb_status r) (tb_data_block r) (tb_index_block r) (tb_last_key r) (tb_num_entries r)
    (tb_closed r) filter_block (tb_pending_index_entry r) (tb_pending_handle r).

Definition tb_close (r : TableBuilder) : TableBuilder :=
  MkTB (tb_options r) (tb_file r) (tb_offset r) (tb_status r) (tb_data_block r) (tb_index_block r) (tb_last_key r) (tb_num_entries r)
    true (tb_filter_block r) (tb_pending_index_entry r) (tb_pending_handle r).

(** The policy's builder calls, on the filter block if there is one. *)
Definition on_filter (f : FilterPolicy → Builder.FilterBlockBuilder → Builder.FilterBlockBuilder) (r : TableBuilder) : TableBuilder :=
  match tb_filter_block r, t_filter_policy (tb_options r) with
  | Some b, Some (_, policy) => tb_set_filter r (Some (f policy b))
  | _, _ => r
  end.

Definition NewTableBuilder (options : TableOptions) (file : wfile) : TableBuilder :=
  let filter_block := match t_filter_policy options with
                      | Some (_, policy) =>
                          if kAllFilterUnitsNumber <=? 0 then None
                          else Some (@Builder.StartBlock policy 0 Builder.NewFilterBlockBuilder)
                      | None => None
                      end in
  MkTB options file 0 Status_OK NewBlockBuilder NewBlockBuilder [] 0 false filter_block false BlockHandle_default.

(** Comparators are compared by address: [same_comparator] is the outcome. *)
Definition ChangeOptions (options : TableOptions) (same_comparator : bool) (r : TableBuilder) : Status * TableBuilder :=
  if negb same_comparator
  then (InvalidArgument (bs "changing comparator while building table") [], r)
  else (Status_OK, MkTB options (tb_file r) (tb_offset r) (tb_status r) (tb_data_block r) (tb_index_block r) (tb_last_key r)
          (tb_num_entries r) (tb_closed r) (tb_filter_block r) (tb_pending_index_entry r) (tb_pending_handle r)).

Definition tb_ok (r : TableBuilder) : bool := ok (tb_status r).

(** ** Writing blocks: the builder and the handle of the block *)

Definition WriteRawBlock (block_contents : bytes) (type : Z) (r : TableBuilder) : TableBuilder * BlockHandle :=
  let handle := MkHandle (tb_offset r) (size block_contents) in
  let '(s, file) := Append block_contents (tb_file r) in
  if ok s then
    let '(s, file) := Append (block_trailer block_contents type) file in
    (tb_set_io r file (if ok s then u64 (tb_offset r + (size block_contents + kBlockTrailerSize)) else tb_offset r) s, handle)
  else (tb_set_io r file (tb_offset r) s, handle).

(** The [switch] on the compression type: what is written, and as which type. *)
Definition compress_block (type level : Z) (raw : bytes) : bytes * Z :=
  let smaller c := size c <? size raw - size raw / 8 in
  if type =? kNoCompression then (raw, type)
  else if type =? kSnappyCompression then
    match Snappy_Compress raw with
    | Some c => if smaller c then (c, type) else (raw, kNoCompression)
    | None => (raw, kNoCompression)
    end
  else if type =? kZstdCompression then
    match Zstd_Compress level raw with
    | Some c => if smaller c then (c, type) else (raw, kNoCompression)
    | None => (raw, kNoCompression)
    end
  else ([], type).

(** [WriteBlock]; the caller resets the block it passed. *)
Definition WriteBlock (block : BlockBuilder) (r : TableBuilder) : TableBuilder * BlockHandle :=
  let raw := (Block.Finish block).1 in
  let '(block_contents, type) := compress_block (t_compression (tb_options r)) (t_zstd_level (tb_options r)) raw in
  WriteRawBlock block_contents type r.

Definition tb_Flush (r : TableBuilder) : option TableBuilder :=
  if tb_closed r then None
  else if negb (tb_ok r) then Some r
  else if empty (tb_data_block r) then Some r
  else if tb_pending_index_entry r then None
  else
    let '(r, handle) := WriteBlock (tb_data_block r) r in
    let r := tb_set_data r (Reset (tb_data_block r)) (tb_last_key r) (tb_num_entries r) in
    let r := tb_set_index r (tb_index_block r) (tb_last_key r) (tb_pending_index_entry r) handle in
    let r := if tb_ok r then
               let r := tb_set_index r (tb_index_block r) (tb_last_key r) true (tb_pending_handle r) in
               let '(s, file) := Env.Flush (tb_file r) in
               tb_set_io r file (tb_offset r) s
             else r in
    Some (on_filter (λ policy, @Builder.StartBlock policy (tb_offset r)) r).

(** The index entry of the block that was written last. *)
Definition add_index_entry (key : bytes) (r : TableBuilder) : TableBuilder :=
  let index := Block.Add 1 key (BlockHandle_EncodeTo (tb_pending_handle r) []) (tb_index_block r) in
  tb_set_index r index key false (tb_pending_handle r).

(** [Add]; [None] where the source asserts. *)
Definition tb_Add (key value : bytes) (r : TableBuilder) : option TableBuilder :=
  let C := t_comparator (tb_options r) in
  if tb_closed r then None
  else if negb (tb_ok r) then Some r
  else if (tb_num_entries r >? 0) && negb (@Compare C key (tb_last_key r) >? 0) then None
  else if tb_pending_index_entry r && negb (empty (tb_data_block r)) then None
  else
    let r := if tb_pending_index_entry r then add_index_entry (@FindShortestSeparator C (tb_last_key r) key) r else r in
    let r := on_filter (λ policy, Builder.AddKey key) r in
    let r := tb_set_data r (Block.Add (t_block_restart_interval (tb_options r)) key value (tb_data_block r)) key
               (i64 (tb_num_entries r + 1)) in
    if t_block_size (tb_options r) <=? CurrentSizeEstimate (tb_data_block r) then tb_Flush r else Some r.

(** The loop of [WriteRawFilters]; a unit after a failed one is still written, and
    its status replaces the failure. *)
Fixpoint WriteRawFilters_loop (filters : list bytes) (type : Z) (r : TableBuilder) : TableBuilder :=
  match filters with
  | [] => r
  | filter :: filters' => WriteRawFilters_loop filters' type (WriteRawBlock filter type r).1
  end.

(** [assert(!filters.empty())]. *)
Definition WriteRawFilters (filters : list bytes) (type : Z) (r : TableBuilder) : option (TableBuilder * BlockHandle) :=
  f0 ← head filters;
  Some (WriteRawFilters_loop filters type r, MkHandle (tb_offset r) (size f0)).

Definition kv_number_key : bytes := bs "leveldb.kv.number".
Definition filter_key (name : bytes) : bytes := bs "filter." ++ name.

(** The entries of the meta index block, in the order of the table's comparator. *)
Definition meta_entries (options : TableOptions) (filter_meta : option bytes) (num_entries : Z) : list (bytes * bytes) :=
  let number := (kv_number_key, decimal num_entries) in
  match filter_meta, t_filter_policy options with
  | Some meta, Some (name, _) =>
      if @Compare (t_comparator options) (filter_key name) kv_number_key <? 0
      then [(filter_key name, meta); number] else [number; (filter_key name, meta)]
  | _, _ => [number]
  end.

Definition tb_add_all (interval : Z) (kvs : list (bytes * bytes)) (b : BlockBuilder) : BlockBuilder :=
  foldl (λ b kv, Block.Add interval kv.1 kv.2 b) b kvs.

(** The filter part of [Finish]: the units, then the meta data. *)
Definition finish_filter (r : TableBuilder) : option (TableBuilder * option bytes) :=
  if tb_ok r then
    match tb_filter_block r, t_filter_policy (tb_options r) with
    | Some b, Some (_, policy) =>
        let '(b, filters) := @Builder.ReturnFilters policy b in
        '(r, handle) ← WriteRawFilters filters kNoCompression r;
        let '(b, meta) := Builder.Finish handle b in
        Some (tb_set_filter r (Some b), Some meta)
    | _, _ => Some (r, None)
    end
  else Some (r, None).

Definition tb_Finish (r : TableBuilder) : option (TableBuilder * Status) :=
  r ← tb_Flush r;
  let r := tb_close r in
  '(r, filter_meta) ← finish_filter r;
  let meta := match tb_filter_block r with Some _ => Some (default [] filter_meta) | None => None end in
  let '(r, metaindex_handle) :=
    if tb_ok r then
      WriteBlock (tb_add_all (t_block_restart_interval (tb_options r)) (meta_entries (tb_options r) meta (tb_num_entries r)) NewBlockBuilder) r
    else (r, BlockHandle_default) in
  let '(r, index_handle) :=
    if tb_ok r then
      let r := if tb_pending_index_entry r
               then add_index_entry (@FindShortSuccessor (t_comparator (tb_options r)) (tb_last_key r)) r else r in
      let '(r, handle) := WriteBlock (tb_index_block r) r in
      (tb_set_index r (Reset (tb_index_block r)) (tb_last_key r) (tb_pending_index_entry r) (tb_pending_handle r), handle)
    else (r, BlockHandle_default) in
  let r := if tb_ok r then
             let footer_encoding := Footer_EncodeTo (MkFooter metaindex_handle index_handle) [] in
             let '(s, file) := Append footer_encoding (tb_file r) in
             tb_set_io r file (if ok s then u64 (tb_offset r + size footer_encoding) else tb_offset r) s
           else r in
  Some (r, tb_status r).

Definition tb_Abandon (r : TableBuilder) : option TableBuilder :=
  if tb_closed r then None else Some (tb_close r).

Definition tb_NumEntries (r : TableBuilder) : Z := u64 (tb_num_entries r).
Definition tb_FileSize (r : TableBuilder) : Z := tb_offset r.

(** The calls that build a table. *)
Fixpoint tb_Adds (kvs : list (bytes * bytes)) (r : TableBuilder) : option TableBuilder :=
  match kvs with
  | [] => Some r
  | kv :: kvs' => r ← tb_Add kv.1 kv.2 r; tb_Adds kvs' r
  end.

End TableBuilder.

(** ** Compression libraries: what they document *)

Class PortLaws (P : Port) : Prop := {
  snappy_roundtrip raw c : Snappy_Compress raw = Some c →
    Snappy_GetUncompressedLength c = Some (size raw) ∧ Snappy_Uncompress c (size raw) = Some raw;
  zstd_roundtrip level raw c : Zstd_Compress level raw = Some c →
    Zstd_GetUncompressedLength c = Some (size raw) ∧ Zstd_Uncompress c (size raw) = Some raw;
}.

#[export] Instance PortNone_laws : PortLaws PortNone.
Proof. split; by intros. Qed.

(** ** What a block takes on disk *)

Definition known_compression (type : Z) : Prop := type = kNoCompression ∨ type = kSnappyCompression ∨ type = kZstdCompression.

Section OnDisk.
  Context {P : Port} {PL : PortLaws P} (o : TableOptions) (Ho : known_compression (t_compression o)).

Definition stored (raw : bytes) : bytes * Z := compress_block (t_compression o) (t_zstd_level o) raw.
Definition on_disk (raw : bytes) : bytes := raw_block (stored raw).1 (stored raw).2.

(** A stored block is not larger than the block, and decodes to it. *)
Lemma stored_spec raw owned : size (stored raw).1 <= size raw ∧ 0 <= (stored raw).2 < 128 ∧
  ∃ c, decode_block_type (stored raw).2 (stored raw).1 owned = Ok c ∧ data c = raw.
Proof using PL Ho.
  assert (size raw <= size raw ∧ 0 <= kNoCompression < 128 ∧
    ∃ c, decode_block_type kNoCompression raw owned = Ok c ∧ data c = raw) as Hraw.
  { split_and!; try done. by eexists. }
  pose proof (size_nonneg raw). pose proof (Z.div_pos (size raw) 8 ltac:(done) ltac:(lia)).
  unfold stored, compress_block. destruct Ho as [-> |[-> | ->]]; cbn [Z.eqb kNoCompression kSnappyCompression kZstdCompression Pos.eqb].
  - done.
  - destruct (Snappy_Compress raw) as [c|] eqn:E; [|done]. destruct (Z.ltb_spec (size c) (size raw - size raw / 8)); [|done].
    destruct (snappy_roundtrip raw c E) as [E1 E2]. cbn [fst snd]. split_and!; try done; [lia|].
    unfold decode_block_type. cbn. rewrite E1, E2. by eexists.
  - destruct (Zstd_Compress _ raw) as [c|] eqn:E; [|done]. destruct (Z.ltb_spec (size c) (size raw - size raw / 8)); [|done].
    destruct (zstd_roundtrip _ raw c E) as [E1 E2]. cbn [fst snd]. split_and!; try done; [lia|].
    unfold decode_block_type. cbn. rewrite E1, E2. by eexists.
Qed.

Lemma size_on_disk raw : size (on_disk raw) <= size raw + kBlockTrailerSize.
Proof using PL Ho. unfold on_disk. rewrite size_raw_block. destruct (stored_spec raw true) as [Hle _]. lia. Qed.

(** A block on disk reads back, at its handle, in any file that holds it. *)
Lemma ReadBlock_on_disk pre raw post v : size (pre ++ on_disk raw ++ post) < 2 ^ 63 →
  ∃ c, ReadBlock (StringSource (pre ++ on_disk raw ++ post)) v (MkHandle (size pre) (size (stored raw).1)) = Ok c ∧ data c = raw.
Proof using PL Ho.
  intros Hs. destruct (stored_spec raw true) as (Hle & Ht & c & E & Hc). exists c. split; [|done]. rewrite <-E.
  pose proof (size_nonneg pre). pose proof (size_nonneg post). pose proof (size_nonneg (stored raw).1).
  unfold on_disk in *. rewrite !size_app, size_raw_block in Hs. unfold kBlockTrailerSize in *.
  apply ReadBlock_contents; [|done|simpl; unfold kBlockTrailerSize; lia|done]. simpl. unfold kBlockTrailerSize.
  replace (size (stored raw).1 + 5) with (size (raw_block (stored raw).1 (stored raw).2)) by apply size_raw_block.
  apply StringSource_Read_inside; rewrite ?size_app, size_raw_block; unfold kBlockTrailerSize; lia.
Qed.

End OnDisk.

(** ** Sizes of blocks *)

(** A bound of what entries take in a table. *)
Definition weight (kvs : list (bytes * bytes)) : Z := foldr (λ kv n, size kv.1 + size kv.2 + 64 + n) 0 kvs.

Lemma weight_app l k : weight (l ++ k) = weight l + weight k.
Proof. induction l as [|kv l IH]; simpl; [done|]. rewrite IH. lia. Qed.

Lemma weight_nonneg l : 0 <= weight l.
Proof. induction l as [|kv l IH]; simpl; [done|]. pose proof (size_nonneg kv.1). pose proof (size_nonneg kv.2). lia. Qed.

Lemma weight_elem kv l : kv ∈ l → size kv.1 + size kv.2 + 64 <= weight l.
Proof.
  intros (l1 & l2 & ->)%list_elem_of_split. rewrite weight_app. simpl. pose proof (weight_nonneg l1). pose proof (weight_nonneg l2). lia.
Qed.

Lemma size_Finish b : size (Block.Finish b).1 = CurrentSizeEstimate b.
Proof.
  unfold Block.Finish, CurrentSizeEstimate. cbn [fst]. unfold PutFixed32. rewrite size_app, size_EncodeFixed32. fold PutFixed32.
  rewrite foldl_PutFixed32, size_app, size_fixed32s. lia.
Qed.

Lemma Add_estimate interval k v b : CurrentSizeEstimate (Block.Add interval k v b) <= CurrentSizeEstimate b + size k + size v + 19.
Proof.
  unfold Block.Add, CurrentSizeEstimate. destruct (counter_ b <? interval);
    cbn [buffer_ restarts_]; unfold PutVarint32; rewrite !size_app.
  - set (s := shared_bytes _ _). pose proof (size_EncodeVarint32 (u32 s) (u32_range _)). pose proof (size_EncodeVarint32 (u32 (size k - s)) (u32_range _)).
    pose proof (size_EncodeVarint32 (u32 (size v)) (u32_range _)). unfold take_z, drop_z, size in *. rewrite length_take, length_drop. lia.
  - pose proof (size_EncodeVarint32 (u32 0) (u32_range _)). pose proof (size_EncodeVarint32 (u32 (size k - 0)) (u32_range _)).
    pose proof (size_EncodeVarint32 (u32 (size v)) (u32_range _)). change (size [u32 (size (buffer_ b))]) with 1.
    unfold take_z, drop_z, size in *. rewrite length_take, length_drop. lia.
Qed.

Definition entries_size (kvs : list (bytes * bytes)) : Z := foldr (λ kv n, size kv.1 + size kv.2 + 19 + n) 0 kvs.

Lemma size_build_block interval kvs : size (build_block interval kvs) <= 8 + entries_size kvs.
Proof.
  unfold build_block. rewrite size_Finish.
  assert (∀ b, CurrentSizeEstimate (foldl (λ b kv, Block.Add interval kv.1 kv.2 b) b kvs) <= CurrentSizeEstimate b + entries_size kvs) as H.
  { induction kvs as [|kv kvs IH]; intros b; simpl; [lia|]. specialize (IH (Block.Add interval kv.1 kv.2 b)).
    pose proof (Add_estimate interval kv.1 kv.2 b). lia. }
  specialize (H NewBlockBuilder). change (CurrentSizeEstimate NewBlockBuilder) with 8 in H. lia.
Qed.

Lemma entries_weight kvs : entries_size kvs + 45 * size kvs <= weight kvs.
Proof. induction kvs as [|kv kvs IH]; simpl; [done|]. rewrite size_cons. lia. Qed.
