(* ===== verification/TableFile.v ===== *)
(** * The layout of a table file

    What [TableBuilder] (TableBuilder.v) writes for a sorted list of entries: the
    data blocks in order, the filter units, the meta index block, the index block
    whose keys separate the data blocks, and the footer. *)

From Stdlib Require Import String.
From S2P Require Import Prelude Coding Status Env Crc32c Comparator Format DbFormat Block Iterators TwoLevel Bloom FilterBlock TableBuilder.
Import Coding.

(** Comparators whose shortened keys are not longer than the key. *)
Class ShorteningLaws (C : Comparator) : Prop := {
  separator_size start limit : size (@FindShortestSeparator C start limit) <= size start;
  successor_size key : size (@FindShortSuccessor C key) <= size key;
}.

#[export] Instance Bytewise_shortening : ShorteningLaws BytewiseComparator.
Proof. split; [apply FindShortestSeparator_size|apply FindShortSuccessor_size]. Qed.

#[export] Instance Internal_shortening C : ShorteningLaws (InternalKeyComparator C).
Proof.
  split; intros; cbn [FindShortestSeparator FindShortSuccessor InternalKeyComparator].
  - unfold InternalFindShortestSeparator. destruct (_ && _) eqn:E; [|done]. apply andb_true_iff in E as [E%Z.ltb_lt _].
    unfold PutFixed64. rewrite size_app, size_EncodeFixed64. unfold ExtractUserKey in *.
    destruct (Z.lt_ge_cases (size start) 8).
    + replace (size (take_z (size start - 8) start)) with 0 in E; [|unfold take_z, size in *; rewrite length_take; lia].
      pose proof (size_nonneg (@FindShortestSeparator C (take_z (size start - 8) start) (take_z (size limit - 8) limit))). lia.
    + rewrite (size_take_z start) in E by lia. lia.
  - unfold InternalFindShortSuccessor. destruct (_ && _) eqn:E; [|done]. apply andb_true_iff in E as [E%Z.ltb_lt _].
    unfold PutFixed64. rewrite size_app, size_EncodeFixed64. unfold ExtractUserKey in *.
    destruct (Z.lt_ge_cases (size key) 8).
    + replace (size (take_z (size key - 8) key)) with 0 in E; [|unfold take_z, size in *; rewrite length_take; lia].
      pose proof (size_nonneg (@FindShortSuccessor C (take_z (size key - 8) key))). lia.
    + rewrite (size_take_z key) in E by lia. lia.
Qed.

Section Layout.
  Context {P : Port} {PL : PortLaws P} (o : TableOptions) (Ho : known_compression (t_compression o)).

Abbreviation C := (t_comparator o).
Abbreviation interval := (t_block_restart_interval o).

Definition block_disk (b : list (bytes * bytes)) : bytes := on_disk o (build_block interval b).

(** The data blocks of a table. *)
Definition data_blocks (blocks : list (list (bytes * bytes))) : bytes := concat (block_disk <$> blocks).

(** The handle of each data block. *)
Fixpoint handles (off : Z) (blocks : list (list (bytes * bytes))) : list BlockHandle :=
  match blocks with
  | [] => []
  | b :: bs => MkHandle off (size (stored o (build_block interval b)).1) :: handles (off + size (block_disk b)) bs
  end.

(** The blocks the filter block was told of: their offsets and keys. *)
Fixpoint filter_blocks (off : Z) (blocks : list (list (bytes * bytes))) : list (Z * list bytes) :=
  match blocks with
  | [] => []
  | b :: bs => (off, b.*1) :: filter_blocks (off + size (block_disk b)) bs
  end.

Lemma size_data_blocks_cons b blocks : size (data_blocks (b :: blocks)) = size (block_disk b) + size (data_blocks blocks).
Proof. unfold data_blocks. rewrite fmap_cons, concat_cons, size_app. done. Qed.

Lemma data_blocks_snoc blocks b : data_blocks (blocks ++ [b]) = data_blocks blocks ++ block_disk b.
Proof. unfold data_blocks. rewrite fmap_app, concat_app. simpl. by rewrite app_nil_r. Qed.

Lemma handles_snoc blocks b : ∀ off, handles off (blocks ++ [b]) =
  handles off blocks ++ [MkHandle (off + size (data_blocks blocks)) (size (stored o (build_block interval b)).1)].
Proof.
  induction blocks as [|b' blocks IH]; intros off; simpl; [by rewrite Z.add_0_r|]. rewrite IH. rewrite size_data_blocks_cons. by rewrite Z.add_assoc.
Qed.

Lemma filter_blocks_snoc blocks b : ∀ off, filter_blocks off (blocks ++ [b]) = filter_blocks off blocks ++ [(off + size (data_blocks blocks), b.*1)].
Proof.
  induction blocks as [|b' blocks IH]; intros off; simpl; [by rewrite Z.add_0_r|]. rewrite IH. rewrite size_data_blocks_cons. by rewrite Z.add_assoc.
Qed.

Lemma length_handles blocks : ∀ off, length (handles off blocks) = length blocks.
Proof. induction blocks as [|b blocks IH]; intros off; simpl; [done|]. by rewrite IH. Qed.

Lemma handles_at blocks i b : ∀ off, blocks !! i = Some b → handles off blocks !! i =
  Some (MkHandle (off + size (data_blocks (take i blocks))) (size (stored o (build_block interval b)).1)).
Proof.
  revert i. induction blocks as [|b' blocks IH]; intros i off Hi; [done|]. destruct i as [|i]; simpl in *.
  - injection Hi as ->. by rewrite Z.add_0_r.
  - rewrite (IH i _ Hi). rewrite size_data_blocks_cons. by rewrite Z.add_assoc.
Qed.

Lemma filter_blocks_at blocks i b : ∀ off, blocks !! i = Some b →
  (off + size (data_blocks (take i blocks)), b.*1) ∈ filter_blocks off blocks.
Proof.
  revert i. induction blocks as [|b' blocks IH]; intros i off Hi; [done|]. destruct i as [|i]; simpl in *.
  - injection Hi as ->. rewrite Z.add_0_r. left.
  - right. replace (off + size (data_blocks (b' :: take i blocks))) with (off + size (block_disk b') + size (data_blocks (take i blocks)))
      by (rewrite size_data_blocks_cons; lia). by apply IH.
Qed.

Lemma filter_blocks_offsets blocks : ∀ off, BuilderFacts.offsets_from off (filter_blocks off blocks).
Proof.
  assert (∀ blocks off lo, lo <= off → BuilderFacts.offsets_from lo (filter_blocks off blocks)) as H; [|intros; by apply H].
  clear blocks. induction blocks as [|b blocks IH]; intros off lo Hlo; simpl; [done|]. split; [done|]. apply IH. pose proof (size_nonneg (block_disk b)). lia.
Qed.

Lemma filter_blocks_keys blocks : ∀ off, concat (snd <$> filter_blocks off blocks) = (concat blocks).*1.
Proof. induction blocks as [|b blocks IH]; intros off; [done|]. simpl. rewrite IH. by rewrite fmap_app. Qed.

(** The data blocks stay within the weight of the entries. *)
Lemma size_data_blocks blocks : Forall (λ b, b ≠ []) blocks → size (data_blocks blocks) <= weight (concat blocks).
Proof using PL Ho.
  induction 1 as [|b blocks Hb _ IH]; [done|]. rewrite size_data_blocks_cons. simpl. rewrite weight_app.
  pose proof (size_on_disk o Ho (build_block interval b)) as H1. pose proof (size_build_block interval b). pose proof (entries_weight b).
  assert (1 <= size b) by (destruct b; [done|rewrite size_cons; pose proof (size_nonneg b); lia]).
  unfold block_disk, kBlockTrailerSize in *. lia.
Qed.

(** ** The index *)

(** The entries after block [i]. *)
Definition after (blocks : list (list (bytes * bytes))) (i : nat) (cur : list (bytes * bytes)) : list (bytes * bytes) :=
  concat (drop (S i) blocks) ++ cur.

(** The index entries cover the first blocks; their keys separate the entries. *)
Definition indexed (blocks : list (list (bytes * bytes))) (cur : list (bytes * bytes)) (idx : list (bytes * bytes)) : Prop :=
  (length idx <= length blocks)%nat ∧
  ∀ i sep h, idx !! i = Some (sep, h) → ∃ b, blocks !! i = Some b ∧
    (∃ bh, handles 0 blocks !! i = Some bh ∧ h = BlockHandle_EncodeTo bh []) ∧
    (∃ kv, kv ∈ b ∧ size sep <= size kv.1) ∧
    (∀ kv, kv ∈ b → @Compare C kv.1 sep <= 0) ∧
    (∀ j b' kv, (i < j)%nat → blocks !! j = Some b' → kv ∈ b' → @Compare C sep kv.1 < 0) ∧
    (∀ kv, kv ∈ cur → @Compare C sep kv.1 < 0) ∧
    (∀ kv n, last b = Some kv → head (after blocks i cur) = Some n → sep = @FindShortestSeparator C kv.1 n.1).

(** ** The builder's invariant *)

Context {W : WritableFile} {WL : WritableFileLaws W}.

Definition filter_state (r : TableBuilder) (blocks : list (Z * list bytes)) : Prop :=
  tb_filter_block r = match t_filter_policy o with Some (_, policy) => Some (@BuilderFacts.build policy blocks) | None => None end.

(** The builder has written [blocks], collects [cur], and the index block holds
    [idx]. *)
Record building (r : TableBuilder) (blocks : list (list (bytes * bytes))) (cur idx : list (bytes * bytes)) : Prop := {
  bd_options : tb_options r = o;
  bd_status : tb_status r = Status_OK;
  bd_closed : tb_closed r = false;
  bd_valid : wvalid (tb_file r);
  bd_contents : wcontents (tb_file r) = data_blocks blocks;
  bd_offset : tb_offset r = size (data_blocks blocks);
  bd_data : tb_data_block r = tb_add_all interval cur NewBlockBuilder;
  bd_nonempty : Forall (λ b, b ≠ []) blocks;
  bd_last : ∀ kv, last (concat blocks ++ cur) = Some kv → tb_last_key r = kv.1;
  bd_count : tb_num_entries r = size (concat blocks ++ cur);
  bd_filter : filter_state r (filter_blocks 0 blocks ++ [(size (data_blocks blocks), cur.*1)]);
  bd_index : tb_index_block r = tb_add_all 1 idx NewBlockBuilder;
  bd_entries : indexed blocks cur idx;
  bd_pending : if tb_pending_index_entry r
    then cur = [] ∧ length blocks = S (length idx) ∧ last (handles 0 blocks) = Some (tb_pending_handle r)
    else length blocks = length idx ∧ (idx = [] ∨ cur ≠ []);
}.

Lemma NewTableBuilder_building f : wvalid f → wcontents f = [] → building (NewTableBuilder o f) [] [] [].
Proof.
  intros Hv Hc. split; try done.
  split; [done|by left].
Qed.

Lemma tb_add_all_app i l k b : tb_add_all i (l ++ k) b = tb_add_all i k (tb_add_all i l b).
Proof. unfold tb_add_all. apply foldl_app. Qed.

Lemma Add_buffer i k v b : 3 <= size (buffer_ (Block.Add i k v b)) ∧ size (buffer_ b) <= size (buffer_ (Block.Add i k v b)).
Proof.
  unfold Block.Add. destruct (counter_ b <? i); cbn [buffer_]; unfold PutVarint32; rewrite !size_app;
    repeat match goal with |- context[EncodeVarint32 (u32 ?x)] => pose proof (size_EncodeVarint32 (u32 x) (u32_range _)); generalize dependent (EncodeVarint32 (u32 x)); intros end;
    repeat match goal with |- context[size ?l] => pose proof (size_nonneg l); generalize dependent (size l); intros end; lia.
Qed.

Lemma empty_add_all i l : empty (tb_add_all i l NewBlockBuilder) = bool_decide (l = []).
Proof.
  destruct l as [|kv l _] using rev_ind; [done|]. rewrite bool_decide_eq_false_2 by (by destruct l). rewrite tb_add_all_app. cbn.
  unfold empty. destruct (Add_buffer i kv.1 kv.2 (tb_add_all i l NewBlockBuilder)) as [H _]. apply Z.eqb_neq. lia.
Qed.

(** Writing a block appends it, with its trailer. *)
Lemma WriteRawBlock_spec c t (r : TableBuilder) : tb_status r = Status_OK → wvalid (tb_file r) →
  ∃ f, WriteRawBlock c t r = (tb_set_io r f (u64 (tb_offset r + (size c + kBlockTrailerSize))) Status_OK, MkHandle (tb_offset r) (size c)) ∧
    wvalid f ∧ wcontents f = wcontents (tb_file r) ++ raw_block c t.
Proof.
  intros Hs Hv. unfold WriteRawBlock. destruct (Append_law c (tb_file r) Hv) as (f1 & -> & Hv1 & E1). cbn [ok Status_OK].
  destruct (Append_law (block_trailer c t) f1 Hv1) as (f2 & -> & Hv2 & E2). cbn [ok Status_OK]. exists f2. split_and!; try done.
  unfold raw_block. by rewrite E2, E1, app_assoc.
Qed.

Lemma WriteBlock_spec (b : BlockBuilder) (r : TableBuilder) : tb_options r = o → tb_status r = Status_OK → wvalid (tb_file r) →
  0 <= tb_offset r → tb_offset r + size (Block.Finish b).1 + kBlockTrailerSize < 2 ^ 64 →
  ∃ f, WriteBlock b r = (tb_set_io r f (tb_offset r + size (on_disk o (Block.Finish b).1)) Status_OK,
                        MkHandle (tb_offset r) (size (stored o (Block.Finish b).1).1)) ∧
    wvalid f ∧ wcontents f = wcontents (tb_file r) ++ on_disk o (Block.Finish b).1.
Proof using PL Ho.
  intros Eo Hs Hv Hoff Hsz. unfold WriteBlock. rewrite Eo. unfold on_disk. fold (stored o (Block.Finish b).1).
  destruct (stored_spec o Ho (Block.Finish b).1 true) as (Hle & _ & _). destruct (stored o (Block.Finish b).1) as [c t]. cbn [fst snd] in *.
  destruct (WriteRawBlock_spec c t r Hs Hv) as (f & -> & Hv' & E'). exists f. split_and!; try done.
  rewrite size_raw_block, u64_small; [done|]. pose proof (size_nonneg c). unfold kBlockTrailerSize in *. range_lia.
Qed.

Lemma handles_app blocks b : handles 0 (blocks ++ [b]) =
  handles 0 blocks ++ [MkHandle (size (data_blocks blocks)) (size (stored o (build_block interval b)).1)].
Proof. by rewrite handles_snoc. Qed.

(** The index keeps separating when the collected entries become a block. *)
Lemma indexed_flush blocks cur idx : indexed blocks cur idx → (length idx <= length blocks)%nat → indexed (blocks ++ [cur]) [] idx.
Proof.
  intros [Hl Hi] Hle. split; [rewrite length_app; simpl; lia|]. intros i sep h Hx.
  destruct (Hi i sep h Hx) as (b & Hb & (bh & Hh & ->) & Hsz & Hge & Hlt & Hcur & Hfss). exists b.
  split; [by apply lookup_app_l_Some|]. split. { exists bh. split; [|done]. rewrite handles_app. by apply lookup_app_l_Some. }
  split_and!; try done; [|by intros kv ?%not_elem_of_nil|].
  2: { apply lookup_lt_Some in Hx. unfold after in *. rewrite drop_app_le, concat_app by lia. simpl. by rewrite !app_nil_r. }
  intros j b' kv Hij Hb' Hkv.
  apply lookup_app_Some in Hb' as [Hb'|[_ Hb']]; [by eapply Hlt|]. apply list_lookup_singleton_Some in Hb' as [_ <-]. by apply Hcur.
Qed.

Lemma tb_Flush_spec r blocks cur idx : building r blocks cur idx → cur ≠ [] → tb_pending_index_entry r = false →
  weight (concat blocks ++ cur) < 2 ^ 31 →
  ∃ r', tb_Flush r = Some r' ∧ building r' (blocks ++ [cur]) [] idx ∧ tb_pending_index_entry r' = true.
Proof using PL Ho.
  intros [B1 B2 B3 B4 B5 B6 B7 B8 B9 B10 B11 B12 B13 B14] Hne Hp Hw. unfold tb_Flush, tb_ok. rewrite B3, B2, Hp, B7. cbn [negb ok Status_OK].
  rewrite empty_add_all, bool_decide_eq_false_2 by done. rewrite weight_app in Hw.
  pose proof (size_data_blocks blocks B8). pose proof (size_nonneg (data_blocks blocks)).
  pose proof (size_build_block interval cur). pose proof (entries_weight cur). pose proof (size_nonneg cur).
  destruct (WriteBlock_spec (tb_add_all interval cur NewBlockBuilder) r B1 B2 B4) as (f & -> & Hv & Hc).
  { lia. }
  { change (Block.Finish (tb_add_all interval cur NewBlockBuilder)).1 with (build_block interval cur). unfold kBlockTrailerSize. lia. }
  change (Block.Finish (tb_add_all interval cur NewBlockBuilder)).1 with (build_block interval cur) in *. fold (block_disk cur) in *.
  cbn [tb_set_io tb_set_data tb_set_index tb_status tb_file tb_offset ok Status_OK tb_last_key tb_num_entries tb_index_block tb_pending_index_entry tb_pending_handle
       tb_options tb_data_block tb_closed tb_filter_block].
  destruct (Flush_law f Hv) as (f' & -> & Hv' & Hc'). eexists. split; [done|]. rewrite B5 in Hc. rewrite ?B1, ?B6, ?B10.
  unfold on_filter, tb_set_io, tb_set_index, tb_set_data. cbn [tb_set_filter tb_options tb_status tb_closed tb_file tb_offset tb_data_block tb_last_key
    tb_num_entries tb_filter_block tb_index_block tb_pending_index_entry tb_pending_handle]. unfold filter_state in B11. rewrite B11, ?B1. pose proof (data_blocks_snoc blocks cur) as Ed.
  assert (size (data_blocks (blocks ++ [cur])) = size (data_blocks blocks) + size (block_disk cur)) as Es by (rewrite Ed; apply size_app).
  split; [|by destruct (t_filter_policy o) as [[]|]].
  destruct (t_filter_policy o) as [[name policy]|] eqn:Epol; split; cbn [tb_set_filter tb_options tb_status tb_closed tb_file tb_offset tb_data_block tb_last_key
    tb_num_entries tb_filter_block tb_index_block tb_pending_index_entry tb_pending_handle]; try done; try congruence;
    try (apply Forall_app; split; [done|by constructor]);
    try (rewrite concat_app; simpl; rewrite !app_nil_r; done);
    try (by apply indexed_flush, B13);
    try (rewrite Hp in B14; split_and!; [done|rewrite length_app; simpl; lia|rewrite handles_app, last_snoc; done]).
  - unfold filter_state. cbn [tb_filter_block]. rewrite Epol. f_equal. rewrite filter_blocks_snoc, Es. unfold BuilderFacts.build. rewrite !foldl_app. cbn. done.
  - unfold filter_state. cbn [tb_filter_block]. by rewrite Epol.
Qed.

Lemma tb_Flush_empty r blocks idx : building r blocks [] idx → tb_Flush r = Some r.
Proof. intros [B1 B2 B3 B4 B5 B6 B7 _ _ _ _ _ _ _]. unfold tb_Flush, tb_ok. by rewrite B3, B2, B7. Qed.

Context {L : ComparatorLaws C} {SH : ShorteningLaws C}.

Lemma sorted_le_last (l : list (bytes * bytes)) kv kv' : keys_sorted (C := C) l → last l = Some kv' → kv ∈ l → @Compare C kv.1 kv'.1 <= 0.
Proof using L.
  intros Hs Hl [i Hi]%list_elem_of_lookup_1. rewrite last_lookup in Hl. destruct (decide (i = pred (length l))) as [->|].
  - assert (kv = kv') as -> by congruence. by rewrite Compare_refl.
  - apply Z.lt_le_incl, (Hs i (pred (length l))); try done. apply lookup_lt_Some in Hi. lia.
Qed.

Lemma last_concat_snoc {A} (bs : list (list A)) b : b ≠ [] → last (concat (bs ++ [b])) = last b.
Proof.
  intros Hb. rewrite concat_app. simpl. rewrite app_nil_r. destruct (last b) as [x|] eqn:E; [|by apply last_None in E].
  rewrite last_app, E. done.
Qed.

(** The index entry for the last block, added on the next key. *)
Lemma indexed_next blocks b idx next sep : indexed (blocks ++ [b]) [] idx → length idx = length blocks → b ≠ [] →
  keys_sorted (C := C) (concat (blocks ++ [b])) → Forall (λ b, b ≠ []) (blocks ++ [b]) →
  (∀ n kv, n ∈ next → kv ∈ concat (blocks ++ [b]) → @Compare C kv.1 n.1 < 0) →
  (∀ kvl, last b = Some kvl → size sep <= size kvl.1 ∧ @Compare C kvl.1 sep <= 0 ∧
    ∀ n, head next = Some n → sep = @FindShortestSeparator C kvl.1 n.1) → (∀ n, n ∈ next → @Compare C sep n.1 < 0) →
  ∀ bh, last (handles 0 (blocks ++ [b])) = Some bh → indexed (blocks ++ [b]) next (idx ++ [(sep, BlockHandle_EncodeTo bh [])]).
Proof using L.
  intros [Hl Hi] Hlen Hb Hs Hne Hgt Hsep Hlt bh Hbh. split; [rewrite !length_app; simpl; lia|]. intros i sep' h Hx.
  assert (∀ i b', (blocks ++ [b]) !! i = Some b' → ∀ kv, kv ∈ b' → kv ∈ concat (blocks ++ [b])) as Hsub.
  { intros i' b' Hb' kv Hkv. apply elem_of_concat. exists b'. split; [done|by eapply list_elem_of_lookup_2]. }
  apply lookup_app_Some in Hx as [Hx|[Hge Hx]].
  - destruct (Hi i sep' h Hx) as (b' & Hb' & Hh & Hsz & Hge' & Hlt' & _ & Hfss). exists b'. split_and!; try done.
    2: { apply lookup_lt_Some in Hx. unfold after in *. rewrite drop_app_le, concat_app in Hfss |- * by lia. simpl in *. rewrite app_nil_r in *.
         destruct b; [done|]. rewrite <-app_assoc. by destruct (concat (drop (S i) blocks)). }
    intros n Hn. destruct b as [|kv0 b]; [done|].
    assert ((blocks ++ [kv0 :: b]) !! length blocks = Some (kv0 :: b)) as Hlb by (by rewrite list_lookup_middle).
    apply (Compare_lt_trans _ kv0.1); [|apply (Hgt n kv0 Hn); by eapply Hsub; [exact Hlb|left]].
    apply (Hlt' (length blocks) (kv0 :: b)); [apply lookup_lt_Some in Hx; lia|done|left].
  - apply list_lookup_singleton_Some in Hx as [Hx [= <- <-]]. assert (i = length blocks) as -> by lia. exists b.
    destruct (last b) as [kvl|] eqn:El; [|by apply last_None in El]. destruct (Hsep kvl eq_refl) as (Hsz & Hle & Hfss).
    assert ((blocks ++ [b]) !! length blocks = Some b) as Hlb by (by rewrite list_lookup_middle).
    assert (kvl ∈ b) as Hin by (apply last_Some_elem_of; done).
    split_and!; try done.
    + exists bh. split; [|done]. rewrite last_lookup, length_handles, length_app in Hbh. simpl in Hbh. by rewrite Nat.add_1_r in Hbh.
    + exists kvl. done.
    + intros kv Hkv. apply (Compare_trans _ kvl.1); [|done]. apply (sorted_le_last (concat (blocks ++ [b]))); [done|by rewrite last_concat_snoc|by eapply Hsub].
    + intros j b' kv Hij Hb'. apply lookup_lt_Some in Hb'. rewrite length_app in Hb'. simpl in Hb'. lia.
    + intros kv n [= <-]. unfold after. rewrite drop_ge by (rewrite length_app; simpl; lia). apply Hfss.
Qed.

(** Without a pending entry, the separators are below the next key already. *)
Lemma indexed_add blocks cur idx key value : indexed blocks cur idx → idx = [] ∨ cur ≠ [] →
  (∀ kv, kv ∈ cur → @Compare C kv.1 key < 0) → indexed blocks (cur ++ [(key, value)]) idx.
Proof using L.
  intros [Hl Hi] Hne Hgt. split; [done|]. intros i sep h Hx. destruct (Hi i sep h Hx) as (b & Hb & Hh & Hsz & Hge & Hlt & Hcur & Hfss).
  exists b. split_and!; try done.
  2: { destruct Hne as [->|Hne]; [done|]. destruct cur as [|kv0 cur]; [done|]. unfold after in *. rewrite app_assoc.
       by destruct (concat (drop (S i) blocks)). }
  intros kv [Hkv| ->%list_elem_of_singleton]%elem_of_app; [by apply Hcur|]. cbn [fst].
  destruct Hne as [->|Hne]; [done|]. destruct cur as [|kv0 cur]; [done|].
  apply (Compare_lt_trans _ kv0.1); [apply Hcur; left|apply Hgt; left].
Qed.

Lemma building_index r blocks cur idx key value : building r blocks cur idx → keys_sorted (C := C) (concat blocks ++ cur) →
  (∀ kv, kv ∈ concat blocks ++ cur → @Compare C kv.1 key < 0) →
  ∃ idx' lk bh, (if tb_pending_index_entry r then add_index_entry (@FindShortestSeparator C (tb_last_key r) key) r else r) =
    tb_set_index r (tb_add_all 1 idx' NewBlockBuilder) lk false bh ∧ indexed blocks (cur ++ [(key, value)]) idx' ∧ length blocks = length idx'.
Proof using L SH.
  intros [B1 B2 B3 B4 B5 B6 B7 B8 B9 B10 B11 B12 B13 B14] Hs Hgt. destruct (tb_pending_index_entry r) eqn:Ep.
  - destruct B14 as (-> & Hlen & Hlast). rewrite app_nil_r in *. destruct blocks as [|b blocks _] using rev_ind; [done|].
    rewrite length_app in Hlen. simpl in Hlen. assert (b ≠ []) as Hb by (apply Forall_app in B8 as [_ B8]; by inversion B8).
    destruct (last b) as [kvl|] eqn:El; [|by apply last_None in El].
    assert (tb_last_key r = kvl.1) as Elk by (apply B9; by rewrite last_concat_snoc).
    assert (@Compare C kvl.1 key < 0) as Hkl.
    { apply Hgt, elem_of_concat. exists b. split; [by apply last_Some_elem_of|apply elem_of_app; right; left]. }
    exists (idx ++ [(@FindShortestSeparator C (tb_last_key r) key, BlockHandle_EncodeTo (tb_pending_handle r) [])]), (@FindShortestSeparator C (tb_last_key r) key), (tb_pending_handle r).
    split; [|split]; [| |rewrite !length_app; simpl; lia].
    + unfold add_index_entry, tb_set_index. rewrite B12, tb_add_all_app. done.
    + apply indexed_next; try done; [lia|by intros n kv ->%list_elem_of_singleton; apply Hgt| |].
      * intros kvl' El'. rewrite El in El'. injection El' as <-. rewrite Elk. split_and!; [apply separator_size|apply separator_ge; lia|by intros n [= <-]].
      * intros n ->%list_elem_of_singleton. rewrite Elk. by apply separator_lt.
  - destruct B14 as (Hlen & Hne). exists idx, (tb_last_key r), (tb_pending_handle r). split_and!; [|apply indexed_add; try done|done].
    + destruct r. unfold tb_set_index. simpl in *. by rewrite <-B12, <-Ep.
    + intros kv Hkv. apply Hgt, elem_of_app. by right.
Qed.

Lemma size_weight kvs : size kvs <= weight kvs.
Proof. pose proof (entries_weight kvs). pose proof (size_nonneg kvs). assert (0 <= entries_size kvs); [|lia].
  clear. induction kvs as [|kv kvs IH]; simpl; [done|]. pose proof (size_nonneg kv.1). pose proof (size_nonneg kv.2). lia. Qed.

(** Adding a key that is larger than all before. *)
Lemma tb_Add_spec r blocks cur idx key value : building r blocks cur idx → keys_sorted (C := C) (concat blocks ++ cur) →
  (∀ kv, kv ∈ concat blocks ++ cur → @Compare C kv.1 key < 0) → weight (concat blocks ++ cur ++ [(key, value)]) < 2 ^ 31 →
  ∃ r' blocks' cur' idx', tb_Add key value r = Some r' ∧ building r' blocks' cur' idx' ∧ concat blocks' ++ cur' = concat blocks ++ cur ++ [(key, value)].
Proof using PL Ho L SH.
  intros Hb Hs Hgt Hw. destruct (building_index r blocks cur idx key value Hb Hs Hgt) as (idx' & lk & bh & Eidx & Hidx & Hlen).
  pose proof (size_weight (concat blocks ++ cur ++ [(key, value)])) as Hsz.
  assert (size (concat blocks ++ cur ++ [(key, value)]) = size (concat blocks ++ cur) + 1) as Ecnt by (rewrite !size_app; change (size [(key, value)]) with 1; lia).
  pose proof (size_nonneg (concat blocks ++ cur)) as Hnn. destruct Hb as [B1 B2 B3 B4 B5 B6 B7 B8 B9 B10 B11 B12 B13 B14].
  unfold tb_Add, tb_ok. rewrite B1, B3, B2. cbn [negb ok Status_OK]. cbv zeta.
  assert ((tb_num_entries r >? 0) && negb (@Compare C key (tb_last_key r) >? 0) = false) as ->.
  { rewrite B10, Z.gtb_ltb. destruct (Z.ltb_spec 0 (size (concat blocks ++ cur))) as [Hpos|]; [cbn [andb]|done]. apply negb_false_iff.
    destruct (last (concat blocks ++ cur)) as [kvl|] eqn:El.
    - rewrite (B9 kvl eq_refl), Z.gtb_ltb. apply Z.ltb_lt. apply Compare_lt_gt, Hgt. by apply last_Some_elem_of.
    - apply last_None in El. rewrite El in Hpos. done. }
  assert (tb_pending_index_entry r && negb (empty (tb_data_block r)) = false) as ->.
  { destruct (tb_pending_index_entry r); [|done]. destruct B14 as (-> & _). rewrite B7. done. }
  rewrite Eidx. set (r1 := tb_set_index r _ lk false bh). set (r2 := on_filter _ r1).
  assert (r2 = MkTB o (tb_file r) (tb_offset r) Status_OK (tb_data_block r) (tb_add_all 1 idx' NewBlockBuilder) lk (tb_num_entries r) false
    (match t_filter_policy o with Some (_, policy) => Some (@BuilderFacts.build policy (filter_blocks 0 blocks ++ [(size (data_blocks blocks), (cur ++ [(key, value)]).*1)])) | None => None end) false bh) as E2.
  { unfold r2, r1, on_filter, tb_set_index, tb_set_filter. cbn [tb_filter_block tb_options tb_file tb_offset tb_status tb_data_block tb_index_block tb_last_key tb_num_entries tb_closed tb_pending_index_entry tb_pending_handle].
    unfold filter_state in B11. rewrite B11, B1, B2, B3. destruct (t_filter_policy o) as [[name policy]|]; [|done]. f_equal. f_equal.
    unfold BuilderFacts.build. rewrite !foldl_app. cbn [foldl]. unfold BuilderFacts.build_block at 1 3. cbn [fst snd]. by rewrite fmap_app, foldl_app. }
  rewrite E2. cbn [tb_options]. unfold tb_set_data. cbn [tb_filter_block tb_options tb_file tb_offset tb_status tb_data_block tb_index_block tb_last_key tb_num_entries tb_closed tb_pending_index_entry tb_pending_handle].
  set (r3 := MkTB o _ _ _ _ _ _ _ _ _ _ _).
  assert (building r3 blocks (cur ++ [(key, value)]) idx') as Hb3.
  { unfold r3. split; cbn [tb_filter_block tb_options tb_file tb_offset tb_status tb_data_block tb_index_block tb_last_key tb_num_entries tb_closed tb_pending_index_entry tb_pending_handle]; try done.
    - by rewrite B7, tb_add_all_app.
    - intros kv. rewrite app_assoc, last_snoc. by intros [= <-].
    - rewrite B10, Ecnt. unfold i64, signed. rewrite Z.mod_small by lia. zcases; lia.
    - split; [done|right]. by destruct cur. }
  destruct (_ <=? _).
  - destruct (tb_Flush_spec r3 blocks (cur ++ [(key, value)]) idx' Hb3) as (r4 & E4 & Hb4 & _); [by destruct cur|done|done|].
    exists r4, (blocks ++ [cur ++ [(key, value)]]), [], idx'. split_and!; try done. rewrite concat_app. simpl. by rewrite !app_nil_r.
  - exists r3, blocks, (cur ++ [(key, value)]), idx'. by split_and!.
Qed.

(** Adding sorted entries one by one. *)
Lemma tb_Adds_spec kvs : ∀ r blocks cur idx, building r blocks cur idx → keys_sorted (C := C) (concat blocks ++ cur ++ kvs) →
  weight (concat blocks ++ cur ++ kvs) < 2 ^ 31 →
  ∃ r' blocks' cur' idx', tb_Adds kvs r = Some r' ∧ building r' blocks' cur' idx' ∧ concat blocks' ++ cur' = concat blocks ++ cur ++ kvs.
Proof using PL Ho L SH.
  induction kvs as [|[k v] kvs IH]; intros r blocks cur idx Hb Hs Hw; simpl.
  { exists r, blocks, cur, idx. by rewrite app_nil_r. }
  assert (concat blocks ++ cur ++ (k, v) :: kvs = (concat blocks ++ cur ++ [(k, v)]) ++ kvs) as E by (by rewrite <-!app_assoc). rewrite E in *.
  assert (∀ i kv, (concat blocks ++ cur) !! i = Some kv → ((concat blocks ++ cur ++ [(k, v)]) ++ kvs) !! i = Some kv) as Hpre.
  { intros i kv Hi. rewrite app_assoc. apply lookup_app_l_Some, lookup_app_l_Some. done. }
  destruct (tb_Add_spec r blocks cur idx k v Hb) as (r1 & blocks1 & cur1 & idx1 & -> & Hb1 & E1).
  - intros i j kv kv' Hij Hi Hj. by apply (Hs i j); [|apply Hpre|apply Hpre].
  - intros kv [i Hi]%list_elem_of_lookup_1. apply (Hs i (length (concat blocks ++ cur)) kv (k, v)); [by eapply lookup_lt_Some|by apply Hpre|].
    apply lookup_app_l_Some. rewrite app_assoc. by rewrite list_lookup_middle.
  - rewrite weight_app in Hw. pose proof (weight_nonneg kvs). lia.
  - cbn [mbind option_bind]. destruct (IH r1 blocks1 cur1 idx1 Hb1) as (r2 & blocks2 & cur2 & idx2 & E2 & Hb2 & Ec2); [by rewrite app_assoc, E1..|].
    exists r2, blocks2, cur2, idx2. split_and!; try done. by rewrite Ec2, app_assoc, E1.
Qed.

(** ** The finished file *)

Definition finished_blocks (blocks : list (list (bytes * bytes))) : list (Z * list bytes) :=
  filter_blocks 0 blocks ++ [(size (data_blocks blocks), [])].

(** Their offsets do not decrease. *)
Lemma finished_offsets blocks : BuilderFacts.offsets_from 0 (finished_blocks blocks) ∧ ∀ x, x ∈ finished_blocks blocks → x.1 <= size (data_blocks blocks).
Proof.
  assert (∀ bs off x, x ∈ filter_blocks off bs → x.1 <= off + size (data_blocks bs)) as Hle.
  { induction bs as [|b bs IH]; intros off x Hx; simpl in Hx; [by apply not_elem_of_nil in Hx|]. rewrite size_data_blocks_cons.
    pose proof (size_nonneg (block_disk b)). pose proof (size_nonneg (data_blocks bs)).
    apply elem_of_cons in Hx as [->|Hx]; [simpl; lia|]. apply IH in Hx. lia. }
  split; [|intros x [Hx| ->%list_elem_of_singleton]%elem_of_app; [by apply Hle in Hx|done]].
  assert (∀ bs o' lo, BuilderFacts.offsets_from lo bs → (∀ x, x ∈ bs → x.1 <= o') → lo <= o' → BuilderFacts.offsets_from lo (bs ++ [(o', [])])) as Happ.
  { induction bs as [|[a ks] bs IH]; intros o' lo H1 H2 H3; simpl in *; [done|]. destruct H1 as [H1 H1']. split; [done|].
    apply IH; [done|intros; apply H2; by right|]. apply (H2 (a, ks)). left. }
  apply Happ; [apply filter_blocks_offsets|intros x Hx; by apply Hle in Hx|apply size_nonneg].
Qed.

(** The filter units in the file, and the meta data that locates them. *)
Definition filter_bytes (blocks : list (list (bytes * bytes))) : bytes :=
  match t_filter_policy o with
  | Some (_, policy) => EndToEnd.raw_units (@Builder.ReturnFilters policy (@BuilderFacts.build policy (finished_blocks blocks))).2
  | None => []
  end.

Definition filter_meta (blocks : list (list (bytes * bytes))) : option bytes :=
  match t_filter_policy o with
  | Some (_, policy) =>
      let '(b, units) := @Builder.ReturnFilters policy (@BuilderFacts.build policy (finished_blocks blocks)) in
      Some (Builder.Finish (MkHandle (size (data_blocks blocks)) (size (nth 0 units []))) b).2
  | None => None
  end.

Definition meta_kvs (blocks : list (list (bytes * bytes))) : list (bytes * bytes) :=
  meta_entries o (filter_meta blocks) (size (concat blocks)).

Definition meta_raw (blocks : list (list (bytes * bytes))) : bytes := build_block interval (meta_kvs blocks).

Definition meta_offset (blocks : list (list (bytes * bytes))) : Z := size (data_blocks blocks ++ filter_bytes blocks).

Definition index_offset (blocks : list (list (bytes * bytes))) : Z :=
  size (data_blocks blocks ++ filter_bytes blocks ++ on_disk o (meta_raw blocks)).

Definition footer_of (blocks : list (list (bytes * bytes))) (idx : list (bytes * bytes)) : Footer :=
  MkFooter (MkHandle (u64 (meta_offset blocks)) (size (stored o (meta_raw blocks)).1))
           (MkHandle (u64 (index_offset blocks)) (size (stored o (build_block 1 idx)).1)).

Definition table_file (blocks : list (list (bytes * bytes))) (idx : list (bytes * bytes)) : bytes :=
  data_blocks blocks ++ filter_bytes blocks ++ on_disk o (meta_raw blocks) ++ on_disk o (build_block 1 idx) ++
  Footer_EncodeTo (footer_of blocks idx) [].

(** The blocks hold the entries in order, and the index covers and separates them. *)
Definition table_blocks (kvs : list (bytes * bytes)) (blocks : list (list (bytes * bytes))) (idx : list (bytes * bytes)) : Prop :=
  concat blocks = kvs ∧ Forall (λ b, b ≠ []) blocks ∧ indexed blocks [] idx ∧ length idx = length blocks.

Definition io_ok (r : TableBuilder) : Prop :=
  tb_options r = o ∧ tb_status r = Status_OK ∧ wvalid (tb_file r) ∧ tb_offset r = u64 (size (wcontents (tb_file r))).

(** [r'] is [r] after more bytes were written. *)
Definition wrote (r r' : TableBuilder) (d : bytes) : Prop :=
  ∃ f, r' = tb_set_io r f (u64 (size (wcontents f))) Status_OK ∧ wvalid f ∧ wcontents f = wcontents (tb_file r) ++ d.

Lemma wrote_io_ok r r' d : io_ok r → wrote r r' d → io_ok r'.
Proof. intros (Eo & Hs & Hv & Hoff) (f & -> & Hv' & Hc). by split_and!. Qed.

Lemma write_raw c t r : io_ok r → ∃ r', WriteRawBlock c t r = (r', MkHandle (tb_offset r) (size c)) ∧ wrote r r' (raw_block c t).
Proof.
  intros (Eo & Hs & Hv & Hoff). destruct (WriteRawBlock_spec c t r Hs Hv) as (f & -> & Hv' & Hc). eexists. split; [done|]. exists f. split_and!; try done.
  f_equal. rewrite Hc, size_app, size_raw_block, Hoff. unfold u64. by rewrite Zplus_mod_idemp_l.
Qed.

Lemma write_block b r : io_ok r →
  ∃ r', WriteBlock b r = (r', MkHandle (tb_offset r) (size (stored o (Block.Finish b).1).1)) ∧ wrote r r' (on_disk o (Block.Finish b).1).
Proof.
  intros Hio. unfold WriteBlock. destruct Hio as (Eo & Hio). rewrite Eo. fold (stored o (Block.Finish b).1). unfold on_disk.
  destruct (stored o (Block.Finish b).1) as [c t]. by apply write_raw.
Qed.

Lemma wrote_trans r r' r'' d d' : wrote r r' d → wrote r' r'' d' → wrote r r'' (d ++ d').
Proof. intros (f & -> & Hv & Hc) (f' & -> & Hv' & Hc'). exists f'. split_and!; try done. cbn in Hc'. by rewrite Hc', Hc, app_assoc. Qed.

Lemma write_filters filters r : io_ok r → ∃ r', WriteRawFilters_loop filters kNoCompression r = r' ∧
  (filters = [] ∧ r' = r ∨ wrote r r' (EndToEnd.raw_units filters)).
Proof.
  revert r. induction filters as [|f filters IH]; intros r Hio; simpl; [exists r; auto|].
  destruct (write_raw f kNoCompression r Hio) as (r1 & -> & Hw1). cbn [fst].
  destruct (IH r1 (wrote_io_ok _ _ _ Hio Hw1)) as (r2 & E & Hr2). exists r2. split; [done|]. right.
  unfold EndToEnd.raw_units. rewrite fmap_cons, concat_cons. destruct Hr2 as [[-> ->]|Hw2]; [by rewrite app_nil_r|]. by eapply wrote_trans.
Qed.

(** The policy, if there is one, keeps its contract. *)
Context (HP : ∀ name policy, t_filter_policy o = Some (name, policy) → FilterPolicyLaws policy).

(** The fields that writing blocks leaves alone. *)
Definition same_index (r r' : TableBuilder) : Prop :=
  tb_num_entries r' = tb_num_entries r ∧ tb_index_block r' = tb_index_block r ∧ tb_last_key r' = tb_last_key r ∧
  tb_pending_index_entry r' = tb_pending_index_entry r ∧ tb_pending_handle r' = tb_pending_handle r.

Definition appended (r r' : TableBuilder) (d : bytes) : Prop := io_ok r' ∧ wcontents (tb_file r') = wcontents (tb_file r) ++ d.

Lemma wrote_appended r r' d : io_ok r → wrote r r' d → appended r r' d ∧ same_index r r' ∧ tb_filter_block r' = tb_filter_block r.
Proof. intros Hio Hw. split; [split; [by eapply wrote_io_ok|by destruct Hw as (f & -> & _ & Hc)]|]. by destruct Hw as (f & -> & _). Qed.

Lemma finish_filter_spec r blocks : io_ok r → wcontents (tb_file r) = data_blocks blocks → size (data_blocks blocks) < 2 ^ 64 →
  filter_state r (finished_blocks blocks) →
  ∃ r', finish_filter r = Some (r', filter_meta blocks) ∧ appended r r' (filter_bytes blocks) ∧ same_index r r' ∧
    (is_Some (tb_filter_block r') ↔ is_Some (t_filter_policy o)).
Proof using HP.
  intros Hio Hc Hsz Hf. unfold finish_filter, tb_ok. pose proof Hio as (Eo & Hs & Hv & Hoff). rewrite Hs, Eo. cbn [ok Status_OK].
  unfold filter_state in Hf. rewrite Hf. unfold filter_meta, filter_bytes. destruct (t_filter_policy o) as [[name policy]|] eqn:Ep.
  2: { exists r. rewrite Hf. split; [done|]. split; [split; [done|by rewrite app_nil_r]|]. split; [done|]. split; by intros []. }
  pose proof (HP name policy eq_refl) as PLaws.
  destruct (BuilderFacts.build_spec (finished_blocks blocks) Builder.NewFilterBlockBuilder [] [] 0 BuilderFacts.represents_new ltac:(done)) as (gs0 & ks0 & H1 & _).
  { apply finished_offsets. }
  destruct (BuilderFacts.ReturnFilters_spec _ gs0 ks0 H1) as (gs & _ & G2 & _).
  fold (@BuilderFacts.build policy (finished_blocks blocks)) in G2.
  destruct (Builder.ReturnFilters (BuilderFacts.build (finished_blocks blocks))) as [b units]. cbn [snd] in *.
  assert (length units = 6%nat) as Hlen by (rewrite G2; apply BuilderFacts.length_units_of).
  unfold WriteRawFilters. destruct units as [|u units]; [done|]. cbn [head mbind option_bind nth].
  destruct (write_filters (u :: units) r Hio) as (r1 & -> & [[? _]|Hw]); [done|].
  destruct (wrote_appended _ _ _ Hio Hw) as (Ha & Hsame & _).
  assert (tb_offset r = size (data_blocks blocks)) as Eoff by (rewrite Hoff, Hc, u64_small; [done|pose proof (size_nonneg (data_blocks blocks)); range_lia]).
  rewrite Eoff. destruct (Builder.Finish (MkHandle (size (data_blocks blocks)) (size u)) b) as [b' meta].
  eexists. split; [done|]. split_and!; try done; try apply Ha; try apply Hsame.
Qed.

(** The last index entry. *)
Lemma building_last r blocks idx : building r blocks [] idx → keys_sorted (C := C) (concat blocks) →
  ∃ idx' lk bh, (if tb_pending_index_entry r then add_index_entry (@FindShortSuccessor C (tb_last_key r)) r else r) =
    tb_set_index r (tb_add_all 1 idx' NewBlockBuilder) lk false bh ∧ indexed blocks [] idx' ∧ length blocks = length idx'.
Proof using L SH.
  intros [B1 B2 B3 B4 B5 B6 B7 B8 B9 B10 B11 B12 B13 B14] Hs. rewrite app_nil_r in *. destruct (tb_pending_index_entry r) eqn:Ep.
  - destruct B14 as (_ & Hlen & Hlast). destruct blocks as [|b blocks _] using rev_ind; [done|].
    rewrite length_app in Hlen. simpl in Hlen. assert (b ≠ []) as Hb by (apply Forall_app in B8 as [_ B8]; by inversion B8).
    destruct (last b) as [kvl|] eqn:El; [|by apply last_None in El].
    assert (tb_last_key r = kvl.1) as Elk by (apply B9; by rewrite last_concat_snoc).
    exists (idx ++ [(@FindShortSuccessor C (tb_last_key r), BlockHandle_EncodeTo (tb_pending_handle r) [])]), (@FindShortSuccessor C (tb_last_key r)), (tb_pending_handle r).
    split; [|split]; [| |rewrite !length_app; simpl; lia].
    + unfold add_index_entry, tb_set_index. rewrite B12, tb_add_all_app. done.
    + apply indexed_next; try done; [lia|by intros n kv ?%not_elem_of_nil| |by intros n ?%not_elem_of_nil].
      intros kvl' El'. rewrite El in El'. injection El' as <-. rewrite Elk. split_and!; [apply successor_size|apply successor_ge|done].
  - destruct B14 as (Hlen & Hne). exists idx, (tb_last_key r), (tb_pending_handle r). split_and!; try done.
    destruct r. unfold tb_set_index. simpl in *. by rewrite <-B12, <-Ep.
Qed.

Lemma tb_Finish_spec r blocks0 cur idx0 : building r blocks0 cur idx0 → keys_sorted (C := C) (concat blocks0 ++ cur) →
  weight (concat blocks0 ++ cur) < 2 ^ 31 →
  ∃ r' blocks idx, tb_Finish r = Some (r', Status_OK) ∧ table_blocks (concat blocks0 ++ cur) blocks idx ∧
    wvalid (tb_file r') ∧ wcontents (tb_file r') = table_file blocks idx ∧ tb_FileSize r' = u64 (size (table_file blocks idx)).
Proof using PL Ho L SH HP.
  intros Hb0 Hs Hw. assert (∃ r1 blocks idx1, tb_Flush r = Some r1 ∧ building r1 blocks [] idx1 ∧ concat blocks = concat blocks0 ++ cur) as (r1 & blocks & idx1 & EF & Hb & Ec).
  { destruct (decide (cur = [])) as [->|Hne].
    - exists r, blocks0, idx0. split_and!; [by eapply tb_Flush_empty|done|by rewrite app_nil_r].
    - assert (tb_pending_index_entry r = false) as Hp by (destruct Hb0; destruct (tb_pending_index_entry r); [by destruct bd_pending0|done]).
      destruct (tb_Flush_spec r blocks0 cur idx0 Hb0 Hne Hp Hw) as (r1 & ? & ? & _). exists r1, (blocks0 ++ [cur]), idx0. split_and!; try done.
      rewrite concat_app. simpl. by rewrite app_nil_r. }
  rewrite <-Ec in *. unfold tb_Finish. rewrite EF. cbn [mbind option_bind].
  destruct (building_last r1 blocks idx1 Hb Hs) as (idx & lk & bh & Eidx & Hidx & Hlen).
  destruct Hb as [B1 B2 B3 B4 B5 B6 B7 B8 B9 B10 B11 B12 B13 B14]. pose proof (size_data_blocks blocks B8). pose proof (size_nonneg (data_blocks blocks)).
  assert (io_ok (tb_close r1)) as Hio by (split_and!; try done; cbn; rewrite B6, B5, u64_small; [done|range_lia]).
  destruct (finish_filter_spec (tb_close r1) blocks Hio B5 ltac:(lia)) as (r3 & -> & [Hio3 Hc3] & (S1 & S2 & S3 & S4 & S5) & Hfb).
  { unfold filter_state in *. cbn. rewrite B11. done. }
  cbn [mbind option_bind tb_close tb_num_entries tb_index_block tb_last_key tb_pending_index_entry tb_pending_handle tb_file] in *.
  assert (match tb_filter_block r3 with Some _ => Some (default [] (filter_meta blocks)) | None => None end = filter_meta blocks) as ->.
  { unfold filter_meta in *. destruct (t_filter_policy o) as [[name policy]|].
    - destruct (proj2 Hfb ltac:(done)) as [fb ->]. by destruct (Builder.ReturnFilters _).
    - destruct (tb_filter_block r3) as [fb|]; [|done]. by destruct (proj1 Hfb ltac:(done)). }
  pose proof Hio3 as (Eo3 & Es3 & Hv3 & Hoff3). unfold tb_ok. rewrite Es3, Eo3, S1, B10, app_nil_r. cbn [ok Status_OK].
  destruct (write_block (tb_add_all interval (meta_entries o (filter_meta blocks) (size (concat blocks))) NewBlockBuilder) r3 Hio3) as (r4 & -> & Hw4).
  change (Block.Finish (tb_add_all interval (meta_entries o (filter_meta blocks) (size (concat blocks))) NewBlockBuilder)).1 with (meta_raw blocks) in *.
  destruct (wrote_appended _ _ _ Hio3 Hw4) as ([Hio4 Hc4] & (T1 & T2 & T3 & T4 & T5) & _).
  pose proof Hio4 as (Eo4 & Es4 & Hv4 & Hoff4). rewrite Es4, Eo4. cbn [ok Status_OK].
  assert ((if tb_pending_index_entry r4 then add_index_entry (@FindShortSuccessor C (tb_last_key r4)) r4 else r4) =
    tb_set_index r4 (tb_add_all 1 idx NewBlockBuilder) lk false bh) as ->.
  { rewrite T4, S4, T3, S3. pose proof Eidx as Eidx'. destruct (tb_pending_index_entry r1) eqn:Ep1; unfold add_index_entry, tb_set_index in *.
    - injection Eidx' as <- <- <-. by rewrite T5, S5, T2, S2.
    - pose proof (f_equal tb_index_block Eidx) as X1. pose proof (f_equal tb_last_key Eidx) as X2. pose proof (f_equal tb_pending_handle Eidx) as X3.
      destruct r4. simpl in *. congruence. }
  set (r5 := tb_set_index r4 _ lk false bh). assert (io_ok r5) as Hio5 by done.
  destruct (write_block (tb_index_block r5) r5 Hio5) as (r6 & -> & Hw6).
  change (Block.Finish (tb_index_block r5)).1 with (build_block 1 idx) in *.
  destruct (wrote_appended _ _ _ Hio5 Hw6) as ([Hio6 Hc6] & _ & _). pose proof Hio6 as (Eo6 & Es6 & Hv6 & Hoff6).
  set (r7 := tb_set_index r6 _ _ _ _). change (tb_status r7) with (tb_status r6). rewrite Es6. cbn [ok Status_OK].
  change (tb_offset r5) with (tb_offset r4). rewrite Hoff3, Hoff4, Hc4, Hc3. cbn [tb_close tb_file] in *. rewrite B5, <-!app_assoc.
  fold (meta_offset blocks). fold (index_offset blocks). fold (footer_of blocks idx). change (tb_file r7) with (tb_file r6).
  destruct (Append_law (Footer_EncodeTo (footer_of blocks idx) []) (tb_file r6) Hv6) as (f7 & -> & Hv7 & Hc7). cbn [ok Status_OK].
  assert (wcontents f7 = table_file blocks idx) as Ef.
  { rewrite Hc7, Hc6. change (tb_file r5) with (tb_file r4). rewrite Hc4, Hc3, B5. unfold table_file. by rewrite <-!app_assoc. }
  eexists _, blocks, idx. split; [done|]. split; [by split_and!|]. split; [done|]. split; [done|]. unfold tb_FileSize. cbn.
  change (tb_offset r7) with (tb_offset r6). rewrite Hoff6, <-Ef, Hc7, size_app. unfold u64. by rewrite Zplus_mod_idemp_l.
Qed.

End Layout.
