(* ===== verification/MultiQueue.v ===== *)
(** * The multi-queue of filter block readers
    (src/include/leveldb/multi_queue.h, src/util/multi_queue.cc; the scheduled
    loading work of src/util/mq_schedule.cc)

    Seven recency lists hold the handles of the filter block readers; list [i]
    is meant for readers with [i] units in memory.  An access moves a handle to
    the front of its list and may move memory to it: cold handles give up a unit
    so that the hot one can load one.

    A handle is an address in a heap of nodes; a list is the sequence of its
    nodes from the most to the least recently used one.  Unlinking a node works
    through the node's own pointers, hence on whichever list holds it.  A call
    returns [None] when it waits for the background loading of a reader (or is
    given a handle that was freed, which the source does not define). *)

From Stdlib Require Import String.
From stdpp Require Import gmap.
From S2P Require Import Prelude Coding Status Comparator DbFormat Crc32c Format Bloom FilterBlock.
Import Coding Reader.

(** The expected reads of a reader, [pow(fpr, units) * access_time] in double
    arithmetic through libm: a parameter with its addition and comparison. *)
Class IoCost := {
  double : Type;
  dzero : double;
  dadd : double → double → double;
  dlt : double → double → bool;
  cost : Z → Z → double;   (* access time, units *)
}.

Record QueueHandle := MkHandleNode { h_key : bytes; h_reader : FilterBlockReader }.

Record MultiQueue := MkMQ {
  heap : gmap nat QueueHandle;
  queues_ : list (list nat);
  map_ : gmap bytes nat;
  usage_ : Z;
  adjustment_time_ : Z;
  scheduled : list nat;     (* readers whose LoadFilterBGWork is queued *)
  next_address : nat;
}.

Definition NewMultiQueue : MultiQueue :=
  MkMQ ∅ (replicate (Z.to_nat (kAllFilterUnitsNumber + 1)) []) ∅ 0 0 [] 0.

(** Functional updates. *)
Definition set_heap (s : MultiQueue) (h : gmap nat QueueHandle) : MultiQueue :=
  MkMQ h (queues_ s) (map_ s) (usage_ s) (adjustment_time_ s) (scheduled s) (next_address s).
Definition set_queues (s : MultiQueue) (q : list (list nat)) : MultiQueue :=
  MkMQ (heap s) q (map_ s) (usage_ s) (adjustment_time_ s) (scheduled s) (next_address s).
Definition set_usage (s : MultiQueue) (u : Z) : MultiQueue :=
  MkMQ (heap s) (queues_ s) (map_ s) u (adjustment_time_ s) (scheduled s) (next_address s).
Definition set_adjustment_time (s : MultiQueue) (t : Z) : MultiQueue :=
  MkMQ (heap s) (queues_ s) (map_ s) (usage_ s) t (scheduled s) (next_address s).

(** [handle->reader] and its update in place. *)
Definition Value (s : MultiQueue) (h : nat) : option FilterBlockReader := h_reader <$> heap s !! h.

Definition set_reader (s : MultiQueue) (h : nat) (r : FilterBlockReader) : MultiQueue :=
  set_heap s (alter (λ q, MkHandleNode (h_key q) r) h (heap s)).

(** ** SingleQueue *)

Definition Queue_Remove (h : nat) (qs : list (list nat)) : list (list nat) :=
  filter (λ h', h' ≠ h) <$> qs.

Definition Queue_Append (n : Z) (h : nat) (qs : list (list nat)) : list (list nat) :=
  alter (cons h) (Z.to_nat n) qs.

Definition MoveToMRU (n : Z) (h : nat) (qs : list (list nat)) : list (list nat) :=
  Queue_Append n h (Queue_Remove h qs).

Section MultiQueue.
  Context {policy_ : FilterPolicy} {P : Port} {D : IoCost}.

(** The [do ... while (memory > 0)] over one list, from its LRU end: [rest] are
    the nodes not yet visited.  [memory] is unsigned. *)
Fixpoint FindColdFilter_queue (s : MultiQueue) (rest : list nat) (memory sn : Z) (filters : list nat)
    : Z * list nat :=
  match rest with
  | [] => (memory, filters)
  | e :: rest' =>
      match Value s e with
      | None => (memory, filters)
      | Some reader =>
          if IsCold sn reader then
            let '(memory, filters) :=
              if negb (AccessTime reader =? 0)
              then (u64 (memory - OneUnitSize reader), filters ++ [e])
              else (memory, filters) in
            if memory >? 0 then FindColdFilter_queue s rest' memory sn filters else (memory, filters)
          else (memory, filters)
      end
  end.

(** [for (i = kAllFilterUnitsNumber; i >= 1 && memory > 0; i--)]. *)
Fixpoint FindColdFilter_loop (s : MultiQueue) (i : nat) (memory sn : Z) (filters : list nat) : Z * list nat :=
  match i with
  | O => (memory, filters)
  | S i' =>
      if memory >? 0 then
        let '(memory, filters) :=
          FindColdFilter_queue s (reverse (nth i (queues_ s) [])) memory sn filters in
        FindColdFilter_loop s i' memory sn filters
      else (memory, filters)
  end.

Definition FindColdFilter (s : MultiQueue) (memory sn : Z) : list nat :=
  let '(memory, filters) := FindColdFilter_loop s (Z.to_nat kAllFilterUnitsNumber) memory sn [] in
  if memory >? 0 then [] else filters.

(** [IOs], [EvictIOs] and [LoadIOs] of a reader. *)
Definition reader_ios (d : Z) (r : FilterBlockReader) : option double :=
  n ← FilterUnitsNumberInternal r; Some (cost (AccessTime r) (n + d)).

(** The first loop of [CanBeAdjusted]: [Some None] is the early [return false]. *)
Fixpoint original_ios (s : MultiQueue) (colds : list nat) (acc : double) : option (option double) :=
  match colds with
  | [] => Some (Some acc)
  | h :: colds' =>
      r ← Value s h;
      b ← CanBeEvict r;
      if negb b then Some None
      else io ← reader_ios 0 r; original_ios s colds' (dadd acc io)
  end.

Fixpoint adjusted_ios (s : MultiQueue) (colds : list nat) (acc : double) : option double :=
  match colds with
  | [] => Some acc
  | h :: colds' =>
      r ← Value s h;
      io ← reader_ios (-1) r;
      adjusted_ios s colds' (dadd acc io)
  end.

Definition CanBeAdjusted (s : MultiQueue) (colds : list nat) (hot : nat) : option (bool * MultiQueue) :=
  o ← original_ios s colds dzero;
  match o with
  | None => Some (false, s)
  | Some original =>
      hr ← Value s hot;
      hio ← reader_ios 0 hr;
      let original := dadd original hio in
      adjusted ← adjusted_ios s colds dzero;
      lio ← reader_ios 1 hr;
      let adjusted := dadd adjusted lio in
      if dlt adjusted original
      then Some (true, set_adjustment_time s (u64 (adjustment_time_ s + 1)))
      else Some (false, s)
  end.

Definition LoadHandle (s : MultiQueue) (h : nat) : option (Status * MultiQueue) :=
  r ← Value s h;
  number ← FilterUnitsNumber r;
  if number <? kAllFilterUnitsNumber then
    let s := set_queues s (Queue_Append (number + 1) h (Queue_Remove h (queues_ s))) in
    let '(st, r') := LoadFilter r in
    Some (st, set_reader s h r')
  else Some (Corruption (bs "There is a full reader!") [], s).

Definition EvictHandle (s : MultiQueue) (h : nat) : option (Status * MultiQueue) :=
  r ← Value s h;
  number ← FilterUnitsNumber r;
  if number >=? 1 then
    let s := set_queues s (Queue_Append (number - 1) h (Queue_Remove h (queues_ s))) in
    let '(st, r') := EvictFilter r in
    Some (st, set_reader s h r')
  else Some (Corruption (bs "There is not filter units to evict!") [], s).

(** The eviction loop; the flag says whether every eviction succeeded. *)
Fixpoint evict_all (s : MultiQueue) (colds : list nat) : option (bool * MultiQueue) :=
  match colds with
  | [] => Some (true, s)
  | cold :: colds' =>
      '(st, s) ← EvictHandle s cold;
      if negb (ok st) then Some (false, set_adjustment_time s (u64 (adjustment_time_ s - 1)))
      else evict_all s colds'
  end.

Definition ApplyAdjustment (s : MultiQueue) (colds : list nat) (hot : nat) : option MultiQueue :=
  '(b, s) ← evict_all s colds;
  if negb b then Some s
  else
    '(st, s) ← LoadHandle s hot;
    if negb (ok st) then Some (set_adjustment_time s (u64 (adjustment_time_ s - 1))) else Some s.

Definition Adjustment (s : MultiQueue) (hot : nat) (sn : Z) : option MultiQueue :=
  r ← Value s hot;
  can ← CanBeLoaded r;
  if (can : bool) then
    let memory := OneUnitSize r in
    let cold := FindColdFilter s memory sn in
    match cold with
    | [] => Some s
    | _ =>
        '(b, s) ← CanBeAdjusted s cold hot;
        if (b : bool) then ApplyAdjustment s cold hot else Some s
    end
  else Some s.

Definition DoAdjustment (s : MultiQueue) (h : nat) (sn : Z) : option MultiQueue :=
  r ← Value s h;
  number ← FilterUnitsNumber r;
  let s := set_queues s (MoveToMRU number h (queues_ s)) in
  Adjustment s h sn.

(** [Insert]: [emplace] does not replace an existing entry of the table. *)
Definition Insert (s : MultiQueue) (key : bytes) (reader : FilterBlockReader) : nat * MultiQueue :=
  let number := LoadFilterNumber reader in
  let h := next_address s in
  (h, MkMQ (<[h := MkHandleNode key reader]> (heap s))
           (Queue_Append number h (queues_ s))
           (match map_ s !! key with Some _ => map_ s | None => <[key := h]> (map_ s) end)
           (u64 (usage_ s + u64 (LoadFilterNumber reader * OneUnitSize reader)))
           (adjustment_time_ s) (scheduled s ++ [h]) (S h)).

(** The scheduler thread takes the oldest work item and runs it. *)
Definition RunBackground (s : MultiQueue) : MultiQueue :=
  match scheduled s with
  | [] => s
  | h :: rest =>
      let s := MkMQ (heap s) (queues_ s) (map_ s) (usage_ s) (adjustment_time_ s) rest (next_address s) in
      match Value s h with
      | Some r => set_reader s h (InitLoadFilter r).2
      | None => s
      end
  end.

Definition ParseKey (key : bytes) : option Z :=
  let n := size key in
  if n <? 8 then None
  else
    let num := ExtractTag key in
    if Z.land num 255 <=? ValueType_to_Z kTypeValue then Some (Z.shiftr num 8) else None.

Definition UpdateHandle (s : MultiQueue) (h : nat) (block_offset : Z) (key : bytes)
    : option (bool * MultiQueue) :=
  match ParseKey key with
  | Some sn =>
      r ← Value s h;
      let s := set_reader s h (UpdateState sn r) in
      s ← DoAdjustment s h sn;
      r ← Value s h;
      b ← ReaderKeyMayMatch block_offset key r;
      Some (b, s)
  | None => Some (true, s)
  end.

Definition Lookup (s : MultiQueue) (key : bytes) : option nat := map_ s !! key.

Definition MQGoBackToInitFilter (s : MultiQueue) (h : nat) (file : option RandomAccessFile)
    : option MultiQueue :=
  reader ← Value s h;
  filter_number ← FilterUnitsNumber reader;
  let init_filter_number := LoadFilterNumber reader in
  let s := set_queues s (Queue_Append init_filter_number h (Queue_Remove h (queues_ s))) in
  '(_, reader') ← GoBackToInitFilter file reader;
  let s := set_reader s h reader' in
  Some (set_usage s (u64 (usage_ s + u64 (u64 (init_filter_number - filter_number) * OneUnitSize reader)))).

Definition Release (s : MultiQueue) (h : nat) : option MultiQueue :=
  reader ← Value s h;
  sz ← Size reader;
  let s := set_usage s (u64 (usage_ s - sz)) in
  Some (set_reader s h (CleanFilter reader).2).

(** [FindQueue] waits for the reader; unlinking frees node and reader. *)
Definition Erase (s : MultiQueue) (key : bytes) : option MultiQueue :=
  match map_ s !! key with
  | None => Some s
  | Some h =>
      reader ← Value s h;
      sz ← Size reader;
      Some (MkMQ (delete h (heap s)) (Queue_Remove h (queues_ s)) (delete key (map_ s))
                 (u64 (usage_ s - sz)) (adjustment_time_ s) (scheduled s) (next_address s))
  end.

Definition TotalCharge (s : MultiQueue) : Z := usage_ s.

(** A missing key fails the assertion ([None]). *)
Definition MQSetAccessTime (s : MultiQueue) (key : bytes) (t : Z) : option MultiQueue :=
  h ← map_ s !! key;
  r ← Value s h;
  Some (set_reader s h (SetAccessTime t r)).

(** A missing key fails the assertion ([None]). *)
Definition GetAccessTime (s : MultiQueue) (key : bytes) : option Z :=
  h ← map_ s !! key;
  r ← Value s h;
  Some (AccessTime r).

End MultiQueue.

(** ** Readers the queue may hold *)

Section good.
  Context {P : Port}.

(** A reader over units that are readable on disk; before its background
    loading ran it holds no unit. *)
Definition good (r : FilterBlockReader) : Prop :=
  ∃ units meta off sz num file,
    length units = 6%nat ∧ is_u32 sz ∧
    (∀ i u, units !! i = Some u →
      ReadBlock file true (MkHandle (u64 (off + u64 (u64 (sz + kBlockTrailerSize) * Z.of_nat i))) sz)
        = Ok {| data := u; cachale := true |}) ∧
    ReaderFacts.reader_inv units meta off sz num file r ∧
    (init_done r = false → ReaderFacts.loaded r = 0).

Definition loaded (r : FilterBlockReader) : Z := ReaderFacts.loaded r.

(** [r'] has [n] units loaded and otherwise the accounting data of [r]. *)
Definition resized (r r' : FilterBlockReader) (n : Z) : Prop :=
  good r' ∧ loaded r' = n ∧ disk_size_ r' = disk_size_ r ∧
  init_done r' = init_done r ∧ init_units_number_ r' = init_units_number_ r.

Lemma good_facts r :
  good r → init_units_number_ r = 2 ∧ all_units_number_ r = 6 ∧ is_u32 (disk_size_ r) ∧
    0 <= loaded r <= 6 ∧ (init_done r = false → loaded r = 0).
Proof.
  intros (units & meta & off & sz & num & file & Hl & Hsz & Hd & Hi & Hn).
  pose proof (ReaderFacts.inv_loaded _ _ _ _ _ _ Hl r Hi) as (m & Hm & _ & Em).
  destruct Hi as (_ & _ & -> & -> & -> & _). unfold loaded in *. split_and!; [done..| | |done]; lia.
Qed.

Lemma with_loaded_resized units meta off sz num file r r' m :
  length units = 6%nat → is_u32 sz →
  (∀ i u, units !! i = Some u →
      ReadBlock file true (MkHandle (u64 (off + u64 (u64 (sz + kBlockTrailerSize) * Z.of_nat i))) sz)
        = Ok {| data := u; cachale := true |}) →
  ReaderFacts.reader_inv units meta off sz num file r → (m <= 6)%nat →
  ReaderFacts.with_loaded units meta off sz num file r r' m →
  (init_done r = false → m = 0%nat) → resized r r' (Z.of_nat m).
Proof.
  intros Hl Hsz Hd Hi Hm W Hz.
  pose proof (ReaderFacts.with_loaded_count _ _ _ _ _ _ Hl _ _ _ W Hm) as C.
  destruct W as (I & _ & _ & D & _). unfold resized, loaded.
  split; [|split; [done|]].
  - exists units, meta, off, sz, num, file. split_and!; try done; [apply Hsz..|].
    intros Hf. rewrite D in Hf. rewrite C, (Hz Hf). done.
  - destruct Hi as (_ & _ & -> & -> & _). destruct I as (_ & _ & -> & -> & _). done.
Qed.

Lemma good_load r :
  good r → init_done r = true → loaded r < 6 →
  ∃ r', LoadFilter r = (Status_OK, r') ∧ resized r r' (loaded r + 1).
Proof.
  intros Hg Hd Hlt. pose proof (good_facts r Hg) as (_ & _ & _ & Hr & _).
  destruct Hg as (units & meta & off & sz & num & file & Hl & Hsz & Hdk & Hi & _).
  pose proof (ReaderFacts.LoadFilterInternal_spec _ _ _ _ _ _ Hl Hdk r Hi) as H.
  unfold loaded in *. destruct (Z.ltb_spec (ReaderFacts.loaded r) 6); [|lia].
  destruct H as (r' & E & W). exists r'. split; [done|].
  replace (ReaderFacts.loaded r + 1) with (Z.of_nat (S (Z.to_nat (ReaderFacts.loaded r)))) by lia.
  eapply with_loaded_resized; [done|done|exact Hdk|exact Hi|lia|exact W|congruence].
Qed.

Lemma good_evict r :
  good r → init_done r = true → 0 < loaded r →
  ∃ r', EvictFilter r = (Status_OK, r') ∧ resized r r' (loaded r - 1).
Proof.
  intros Hg Hd Hlt. pose proof (good_facts r Hg) as (_ & _ & _ & Hr & _).
  destruct Hg as (units & meta & off & sz & num & file & Hl & Hsz & Hdk & Hi & _).
  pose proof (ReaderFacts.EvictFilterInternal_spec _ _ _ _ _ _ Hl r Hi) as H.
  unfold loaded in *. rewrite Z.gtb_ltb in H. destruct (Z.ltb_spec 0 (ReaderFacts.loaded r)); [|lia].
  destruct H as (r' & E & W). exists r'. split; [done|].
  replace (ReaderFacts.loaded r - 1) with (Z.of_nat (pred (Z.to_nat (ReaderFacts.loaded r)))) by lia.
  eapply with_loaded_resized; [done|done|exact Hdk|exact Hi|lia|exact W|congruence].
Qed.

Lemma good_init r :
  good r → ∃ r', InitLoadFilter r = (Status_OK, r') ∧ good r' ∧ init_done r' = true ∧
    loaded r' = Z.max 2 (loaded r) ∧ disk_size_ r' = disk_size_ r.
Proof.
  intros (units & meta & off & sz & num & file & Hl & Hsz & Hdk & Hi & _).
  destruct (ReaderFacts.InitLoadFilter_spec _ _ _ _ _ _ Hl Hdk r Hi) as (r' & E & I & D & C).
  exists r'. split; [done|]. split.
  { exists units, meta, off, sz, num, file. split_and!; try done; [apply Hsz..|congruence]. }
  split_and!; [done..|]. destruct Hi as (_ & _ & -> & _). by destruct I as (_ & _ & -> & _).
Qed.

Lemma good_clean r :
  good r → ∃ r', CleanFilter r = (Status_OK, r') ∧ resized r r' 0 ∧ reload_units_number_ r' = loaded r.
Proof.
  intros Hg. pose proof (good_facts r Hg) as (_ & _ & _ & Hr & _).
  destruct Hg as (units & meta & off & sz & num & file & Hl & Hsz & Hdk & Hi & Hn).
  destruct (ReaderFacts.CleanFilter_spec _ _ _ _ _ _ Hl r Hi) as (r' & E & I & C & R & D).
  exists r'. split; [done|]. split; [|done]. unfold resized. split; [|split; [done|]].
  - exists units, meta, off, sz, num, file. split_and!; try done; apply Hsz.
  - destruct Hi as (_ & _ & -> & -> & _). by destruct I as (_ & _ & -> & -> & _).
Qed.

Lemma good_hotness r t sn : good r → good (set_hotness r t sn).
Proof.
  intros (units & meta & off & sz & num & file & Hl & Hsz & Hdk & Hi & Hn).
  exists units, meta, off, sz, num, file. split_and!; try done; apply Hsz.
Qed.

(** Memory the queue accounts for a reader: its units, or the units its pending
    background work is going to load. *)
Definition bytes_of (r : FilterBlockReader) : Z :=
  (if init_done r then loaded r else init_units_number_ r) * disk_size_ r.

Definition real_usage (m : gmap nat QueueHandle) : Z :=
  map_fold (λ _ q acc, bytes_of (h_reader q) + acc) 0 m.

Lemma real_usage_insert m h q :
  m !! h = None → real_usage (<[h := q]> m) = bytes_of (h_reader q) + real_usage m.
Proof.
  intros Hm. unfold real_usage. apply (map_fold_insert_L (λ _ q acc, bytes_of (h_reader q) + acc)); [|done].
  intros. lia.
Qed.

Lemma real_usage_delete m h q :
  m !! h = Some q → real_usage (delete h m) = real_usage m - bytes_of (h_reader q).
Proof.
  intros Hm. rewrite <-(insert_delete_id m h q Hm) at 2.
  rewrite real_usage_insert by apply lookup_delete_eq. lia.
Qed.

Lemma real_usage_alter m h q r' :
  m !! h = Some q →
  real_usage (alter (λ q, MkHandleNode (h_key q) r') h m) =
    real_usage m - bytes_of (h_reader q) + bytes_of r'.
Proof.
  intros Hm. pose proof (real_usage_delete m h q Hm) as E.
  replace (alter _ h m) with (<[h := MkHandleNode (h_key q) r']> (delete h m)).
  - rewrite real_usage_insert by apply lookup_delete_eq. simpl. lia.
  - rewrite insert_delete_eq. apply map_eq. intros i. destruct (decide (i = h)) as [->|Hne].
    + by rewrite lookup_insert_eq, lookup_alter_eq, Hm.
    + by rewrite lookup_insert_ne, lookup_alter_ne by done.
Qed.

(** ** The queue lists *)

Lemma concat_Queue_Remove h qs : concat (Queue_Remove h qs) = filter (λ h', h' ≠ h) (concat qs).
Proof.
  induction qs as [|q qs IH]; [done|]. unfold Queue_Remove in *. rewrite fmap_cons. cbn [concat].
  by rewrite IH, filter_app.
Qed.

Lemma concat_Queue_Append n h qs :
  0 <= n < size qs → concat (Queue_Append n h qs) ≡ₚ h :: concat qs.
Proof.
  unfold Queue_Append, size. intros Hn. assert (Z.to_nat n < length qs)%nat as Hlt by lia.
  clear Hn. revert Hlt. generalize (Z.to_nat n). induction qs as [|q qs IH]; intros i Hi; cbn [length] in Hi; [lia|].
  destruct i as [|i]; [done|].
  change (alter (cons h) (S i) (q :: qs)) with (q :: alter (cons h) i qs). cbn [concat].
  rewrite IH by lia. by rewrite Permutation_middle.
Qed.

Lemma length_Queue_Append n h qs : length (Queue_Append n h qs) = length qs.
Proof. apply length_alter. Qed.

Lemma length_Queue_Remove h qs : length (Queue_Remove h qs) = length qs.
Proof. apply length_fmap. Qed.

(** The lists as a whole hold each live handle exactly once. *)
Definition queues_ok (qs : list (list nat)) (live : nat → Prop) : Prop :=
  length qs = 7%nat ∧ NoDup (concat qs) ∧ ∀ h, h ∈ concat qs ↔ live h.

Lemma queues_ok_relocate qs live n h :
  queues_ok qs live → live h → 0 <= n <= 6 → queues_ok (Queue_Append n h (Queue_Remove h qs)) live.
Proof.
  intros (Hl & Hnd & Hm) Hh Hn.
  assert (concat (Queue_Append n h (Queue_Remove h qs)) ≡ₚ h :: filter (λ h', h' ≠ h) (concat qs)) as E.
  { rewrite concat_Queue_Append, concat_Queue_Remove; [done|]. unfold size. rewrite length_Queue_Remove. lia. }
  split; [by rewrite length_Queue_Append, length_Queue_Remove|]. split.
  - rewrite E. apply NoDup_cons. split; [|by apply NoDup_filter].
    rewrite list_elem_of_filter. tauto.
  - intros h'. rewrite E, elem_of_cons, list_elem_of_filter, Hm.
    destruct (decide (h' = h)) as [->|]; tauto.
Qed.

Lemma queues_ok_remove qs live h :
  queues_ok qs live → queues_ok (Queue_Remove h qs) (λ h', live h' ∧ h' ≠ h).
Proof.
  intros (Hl & Hnd & Hm). split; [by rewrite length_Queue_Remove|]. rewrite concat_Queue_Remove.
  split; [by apply NoDup_filter|]. intros h'. rewrite list_elem_of_filter, Hm. tauto.
Qed.

Lemma queues_ok_append qs live n h :
  queues_ok qs live → ¬ live h → 0 <= n <= 6 → queues_ok (Queue_Append n h qs) (λ h', live h' ∨ h' = h).
Proof.
  intros (Hl & Hnd & Hm) Hh Hn.
  assert (concat (Queue_Append n h qs) ≡ₚ h :: concat qs) as E
    by (apply concat_Queue_Append; unfold size; lia).
  split; [by rewrite length_Queue_Append|]. split.
  - rewrite E. apply NoDup_cons. split; [by rewrite Hm|done].
  - intros h'. rewrite E, elem_of_cons, Hm. tauto.
Qed.

Lemma queues_ok_iff qs live live' :
  queues_ok qs live → (∀ h, live h ↔ live' h) → queues_ok qs live'.
Proof. intros (Hl & Hnd & Hm) H. split_and!; [done..|]. intros h. by rewrite Hm. Qed.

(** ** The invariant

    [d] is the amount by which the accounted usage is ahead of the memory in
    use in the middle of an adjustment; it is 0 between operations. *)
Record mq_inv (d : Z) (s : MultiQueue) : Prop := {
  inv_good h q : heap s !! h = Some q → good (h_reader q);
  inv_usage : usage_ s = u64 (real_usage (heap s) + d);
  inv_queues : queues_ok (queues_ s) (λ h, is_Some (heap s !! h));
  inv_map k h : map_ s !! k = Some h ↔ ∃ q, heap s !! h = Some q ∧ h_key q = k;
  inv_fresh h q : heap s !! h = Some q → (h < next_address s)%nat;
  inv_scheduled h q : heap s !! h = Some q → (init_done (h_reader q) = false ↔ h ∈ scheduled s);
  inv_sched_nodup : NoDup (scheduled s);
  inv_sched_fresh h : h ∈ scheduled s → (h < next_address s)%nat;
}.

Lemma Value_Some s h r : Value s h = Some r ↔ ∃ q, heap s !! h = Some q ∧ h_reader q = r.
Proof.
  unfold Value. rewrite fmap_Some. split; intros (q & Hq & E); exists q; split; congruence.
Qed.

Lemma Value_lookup s h q : heap s !! h = Some q → Value s h = Some (h_reader q).
Proof. intros H. unfold Value. by rewrite H. Qed.

Lemma heap_set_reader s h r h' :
  heap (set_reader s h r) !! h' =
    if decide (h' = h) then (λ q, MkHandleNode (h_key q) r) <$> heap s !! h else heap s !! h'.
Proof.
  unfold set_reader, set_heap; simpl. case_decide as E; [subst; apply lookup_alter_eq|].
  by apply lookup_alter_ne.
Qed.

(** Replacing the reader of a live handle shifts the balance by its size change. *)
Lemma inv_set_reader d s h q r' :
  mq_inv d s → heap s !! h = Some q → good r' →
  init_done r' = init_done (h_reader q) →
  mq_inv (d + bytes_of (h_reader q) - bytes_of r') (set_reader s h r').
Proof.
  intros [Hg Hu Hq Hm Hf Hs Hsn Hsf] Hh Hr Hd.
  assert (∀ h', is_Some (heap (set_reader s h r') !! h') ↔ is_Some (heap s !! h')) as Hlive.
  { intros h'. rewrite heap_set_reader. case_decide as E; [subst; rewrite Hh; by split; eexists|done]. }
  split.
  - intros h' q'. rewrite heap_set_reader. case_decide; [|apply Hg].
    rewrite Hh. simpl. intros [= <-]. done.
  - simpl. rewrite (real_usage_alter _ _ q) by done. rewrite Hu. f_equal. lia.
  - eapply queues_ok_iff; [exact Hq|]. intros h'. symmetry. apply Hlive.
  - intros k h'. change (map_ (set_reader s h r')) with (map_ s). rewrite Hm, heap_set_reader.
    case_decide as E; [subst h'|done]. rewrite Hh. simpl.
    split; intros (q' & [= <-] & Ek); by eexists.
  - intros h' q' Hq'. change (next_address (set_reader s h r')) with (next_address s).
    assert (is_Some (heap s !! h')) as [q0 H0] by (apply Hlive; by eexists). by eapply Hf.
  - intros h' q'. change (scheduled (set_reader s h r')) with (scheduled s). rewrite heap_set_reader.
    case_decide as E; [subst h'|apply Hs]. rewrite Hh. simpl. intros [= <-]. simpl. rewrite Hd. by apply Hs.
  - done.
  - done.
Qed.

Lemma inv_set_queues d s qs :
  mq_inv d s → queues_ok qs (λ h, is_Some (heap s !! h)) → mq_inv d (set_queues s qs).
Proof. intros [Hg Hu Hq Hm Hf Hs Hsn Hsf] H. by split. Qed.

Lemma inv_set_adjustment_time d s t : mq_inv d s → mq_inv d (set_adjustment_time s t).
Proof. intros [Hg Hu Hq Hm Hf Hs Hsn Hsf]. by split. Qed.

Lemma inv_shift d d' s : mq_inv d s → u64 d = u64 d' → mq_inv d' s.
Proof.
  intros [Hg Hu Hq Hm Hf Hs Hsn Hsf] E. split; try done. rewrite Hu. unfold u64 in *.
  rewrite <-Z.add_mod_idemp_r, E, Z.add_mod_idemp_r by lia. done.
Qed.

End good.

(** ** Searching for cold handles *)

Section cold.
  Context {P : Port}.

(** Sum of the unit sizes of some handles. *)
Definition unit_bytes (s : MultiQueue) (hs : list nat) : Z :=
  foldr (λ h acc, default 0 (OneUnitSize <$> Value s h) + acc) 0 hs.

Lemma unit_bytes_app s hs hs' : unit_bytes s (hs ++ hs') = unit_bytes s hs + unit_bytes s hs'.
Proof. induction hs as [|h hs IH]; simpl; [done|]. rewrite IH. lia. Qed.

(** A handle the search may pick at time [sn]. *)
Definition is_cold (s : MultiQueue) (sn : Z) (h : nat) : Prop :=
  ∃ r, Value s h = Some r ∧ IsCold sn r = true ∧ AccessTime r ≠ 0.

Lemma FindColdFilter_queue_spec s sn rest : ∀ memory fs memory' fs',
  is_u64 memory → FindColdFilter_queue s rest memory sn fs = (memory', fs') →
  ∃ new, fs' = fs ++ new ∧ new `sublist_of` rest ∧ Forall (is_cold s sn) new ∧
    memory' = u64 (memory - unit_bytes s new).
Proof.
  induction rest as [|e rest IH]; intros memory fs memory' fs' Hm; simpl.
  { intros [= <- <-]. exists []. rewrite app_nil_r. simpl. rewrite Z.sub_0_r, u64_small by done. done. }
  destruct (Value s e) as [r|] eqn:Er.
  2: { intros [= <- <-]. exists []. rewrite app_nil_r. simpl. rewrite Z.sub_0_r, u64_small by done.
       split_and!; [done| |done|done]. apply sublist_nil_l. }
  destruct (IsCold sn r) eqn:Ec.
  2: { intros [= <- <-]. exists []. rewrite app_nil_r. simpl. rewrite Z.sub_0_r, u64_small by done.
       split_and!; [done| |done|done]. apply sublist_nil_l. }
  destruct (Z.eqb_spec (AccessTime r) 0) as [Ea|Ea]; cbn [negb].
  - destruct (memory >? 0).
    + intros H. destruct (IH memory fs memory' fs' Hm H) as (new & -> & Hs & Hc & ->).
      exists new. split_and!; [done|by constructor|done|done].
    + intros [= <- <-]. exists []. rewrite app_nil_r. simpl. rewrite Z.sub_0_r, u64_small by done.
      split_and!; [done| |done|done]. apply sublist_nil_l.
  - assert (is_cold s sn e) as Hcold by (exists r; done).
    destruct (u64 (memory - OneUnitSize r) >? 0).
    + intros H. destruct (IH _ _ memory' fs' (u64_range _) H) as (new & -> & Hs & Hc & ->).
      exists (e :: new). rewrite <-app_assoc. split_and!; [done|by constructor|by constructor|].
      simpl. rewrite Er. simpl. unfold u64. rewrite Zminus_mod_idemp_l. f_equal. lia.
    + intros [= <- <-]. exists [e]. split_and!; [done| |by constructor|].
      * constructor. apply sublist_nil_l.
      * simpl. rewrite Er. simpl. f_equal. lia.
Qed.

(** The nodes in the order the search visits them. *)
Fixpoint visit_order (i : nat) (qs : list (list nat)) : list nat :=
  match i with
  | O => []
  | S i' => reverse (nth i qs []) ++ visit_order i' qs
  end.

Lemma FindColdFilter_loop_spec s sn i : ∀ memory fs memory' fs',
  is_u64 memory → FindColdFilter_loop s i memory sn fs = (memory', fs') →
  ∃ new, fs' = fs ++ new ∧ new `sublist_of` visit_order i (queues_ s) ∧ Forall (is_cold s sn) new ∧
    memory' = u64 (memory - unit_bytes s new).
Proof.
  induction i as [|i IH]; intros memory fs memory' fs' Hm; simpl.
  { intros [= <- <-]. exists []. rewrite app_nil_r. simpl. rewrite Z.sub_0_r, u64_small by done. done. }
  destruct (memory >? 0).
  2: { intros [= <- <-]. exists []. rewrite app_nil_r. simpl. rewrite Z.sub_0_r, u64_small by done.
       split_and!; [done| |done|done]. apply sublist_nil_l. }
  destruct (FindColdFilter_queue _ _ _ _ _) as [m1 fs1] eqn:E1. intros E2.
  apply FindColdFilter_queue_spec in E1 as (new1 & -> & S1 & C1 & ->); [|done].
  apply IH in E2 as (new2 & -> & S2 & C2 & ->); [|apply u64_range].
  exists (new1 ++ new2). rewrite app_assoc. split_and!; [done|by apply sublist_app|by apply Forall_app|].
  rewrite unit_bytes_app. unfold u64. rewrite Zminus_mod_idemp_l. f_equal. lia.
Qed.

(** The search either gives up or frees the requested memory to the byte. *)
Lemma FindColdFilter_exact s memory sn :
  is_u64 memory → let cold := FindColdFilter s memory sn in
  cold = [] ∨ (u64 (memory - unit_bytes s cold) = 0 ∧ Forall (is_cold s sn) cold ∧
               cold `sublist_of` visit_order 6 (queues_ s)).
Proof.
  intros Hm cold. subst cold. unfold FindColdFilter.
  destruct (FindColdFilter_loop _ _ _ _ _) as [m' fs'] eqn:E.
  apply FindColdFilter_loop_spec in E as (new & -> & Hs & Hc & ->); [|done].
  rewrite Z.gtb_ltb. pose proof (u64_range (memory - unit_bytes s new)) as Hr. unfold is_u64 in Hr.
  destruct (Z.ltb_spec 0 (u64 (memory - unit_bytes s new))); [by left|right].
  split_and!; [simpl; lia|done..].
Qed.

Lemma concat_Permutation (xs ys : list (list nat)) : xs ≡ₚ ys → concat xs ≡ₚ concat ys.
Proof.
  induction 1 as [|x xs ys _ IH|x y xs|xs ys zs _ IH1 _ IH2]; simpl; [done| | |by etrans].
  - by rewrite IH.
  - by rewrite !app_assoc, (Permutation_app_comm x y).
Qed.

Lemma visit_order_NoDup qs : length qs = 7%nat → NoDup (concat qs) → NoDup (visit_order 6 qs).
Proof.
  intros Hl Hn. destruct qs as [|q0 [|q1 [|q2 [|q3 [|q4 [|q5 [|q6 [|? qs]]]]]]]]; try done.
  cbn [concat app] in Hn. apply NoDup_app in Hn as (_ & _ & Hn).
  simpl. rewrite !app_nil_r in *. rewrite !reverse_Permutation.
  replace (q6 ++ q5 ++ q4 ++ q3 ++ q2 ++ q1) with (concat [q6; q5; q4; q3; q2; q1])
    by (simpl; by rewrite app_nil_r).
  revert Hn. replace (q1 ++ q2 ++ q3 ++ q4 ++ q5 ++ q6) with (concat [q1; q2; q3; q4; q5; q6])
    by (simpl; by rewrite app_nil_r).
  intros Hn. change [q6; q5; q4; q3; q2; q1] with (reverse [q1; q2; q3; q4; q5; q6]).
  by rewrite (concat_Permutation _ _ (reverse_Permutation _)).
Qed.

End cold.

(** ** Operations *)

Section operations.
  Context {policy_ : FilterPolicy} {P : Port} {D : IoCost}.

(** Every reader is still there and took reader operations only. *)
Definition stepped (s s' : MultiQueue) : Prop :=
  ∀ h q, heap s !! h = Some q → ∃ r', heap s' !! h = Some (MkHandleNode (h_key q) r') ∧
    ∀ file, rtc (ReaderFacts.reader_step file) (h_reader q) r'.

Lemma stepped_refl s s' : heap s' = heap s → stepped s s'.
Proof. intros E h [k r] Hh. exists r. rewrite E. split; [done|]. intros. apply rtc_refl. Qed.

Lemma stepped_trans s1 s2 s3 : stepped s1 s2 → stepped s2 s3 → stepped s1 s3.
Proof.
  intros H1 H2 h q Hh. destruct (H1 h q Hh) as (r2 & E2 & R2). destruct (H2 h _ E2) as (r3 & E3 & R3).
  exists r3. split; [done|]. intros file. etrans; [apply R2|apply R3].
Qed.

Lemma stepped_set_reader s h q r' :
  heap s !! h = Some q → (∀ file, ReaderFacts.reader_step file (h_reader q) r') →
  stepped s (set_reader s h r').
Proof.
  intros Hh Hs h' q' Hq'. rewrite heap_set_reader. case_decide as E.
  - subst h'. rewrite Hh in Hq' |- *. injection Hq' as <-. exists r'. split; [done|].
    intros file. apply rtc_once, Hs.
  - exists (h_reader q'). rewrite Hq'. split; [by destruct q'|]. intros. apply rtc_refl.
Qed.

(** All background loading has run. *)
Definition ready (s : MultiQueue) : Prop :=
  ∀ h q, heap s !! h = Some q → init_done (h_reader q) = true.

Lemma bytes_of_resized r r' n :
  resized r r' n → init_done r = true → bytes_of r' = n * disk_size_ r.
Proof. intros (_ & L & Ds & Id & _) Hd. unfold bytes_of. by rewrite Id, Hd, L, Ds. Qed.

Lemma bytes_of_done r : init_done r = true → bytes_of r = loaded r * disk_size_ r.
Proof. intros Hd. unfold bytes_of. by rewrite Hd. Qed.

Lemma units_number r : init_done r = true → FilterUnitsNumber r = Some (loaded r).
Proof. intros Hd. unfold FilterUnitsNumber, FilterUnitsNumberInternal. by rewrite Hd. Qed.

Lemma EvictHandle_spec d s h q :
  mq_inv d s → heap s !! h = Some q → init_done (h_reader q) = true → 0 < loaded (h_reader q) →
  ∃ r' s', EvictHandle s h = Some (Status_OK, s') ∧ mq_inv (d + disk_size_ (h_reader q)) s' ∧
    resized (h_reader q) r' (loaded (h_reader q) - 1) ∧ stepped s s' ∧
    heap s' = alter (λ q, MkHandleNode (h_key q) r') h (heap s).
Proof.
  intros Hi Hh Hd Hl. pose proof (inv_good _ _ Hi _ _ Hh) as Hg.
  destruct (good_evict _ Hg Hd Hl) as (r' & Ev & Hr). pose proof (good_facts _ Hg) as (_ & _ & _ & Hrange & _).
  unfold EvictHandle, Value. rewrite Hh. cbn [fmap option_fmap option_map mbind option_bind].
  rewrite units_number by done. cbn [mbind option_bind]. rewrite Z.geb_leb.
  destruct (Z.leb_spec 1 (loaded (h_reader q))); [|lia]. rewrite Ev.
  eexists r', _. split; [done|].
  assert (mq_inv d (set_queues s (Queue_Append (loaded (h_reader q) - 1) h (Queue_Remove h (queues_ s))))) as Hi2.
  { apply inv_set_queues; [done|]. apply queues_ok_relocate; [apply Hi|by eexists|lia]. }
  split_and!.
  - eapply inv_shift; [apply (inv_set_reader _ _ h q r' Hi2 Hh); [apply Hr|]|].
    + destruct Hr as (_ & _ & _ & -> & _). done.
    + rewrite (bytes_of_resized _ _ _ Hr Hd), bytes_of_done by done. f_equal. lia.
  - done.
  - intros h' q' Hq'. destruct (stepped_set_reader s h q r' Hh) with (h := h') (q := q') as (r2 & E2 & R2); [|done|].
    + intros file. pose proof (ReaderFacts.step_evict file (h_reader q)) as St. by rewrite Ev in St.
    + exists r2. split; [exact E2|exact R2].
  - done.
Qed.

Lemma LoadHandle_spec d s h q :
  mq_inv d s → heap s !! h = Some q → init_done (h_reader q) = true → loaded (h_reader q) < 6 →
  ∃ r' s', LoadHandle s h = Some (Status_OK, s') ∧ mq_inv (d - disk_size_ (h_reader q)) s' ∧
    resized (h_reader q) r' (loaded (h_reader q) + 1) ∧ stepped s s' ∧
    heap s' = alter (λ q, MkHandleNode (h_key q) r') h (heap s).
Proof.
  intros Hi Hh Hd Hl. pose proof (inv_good _ _ Hi _ _ Hh) as Hg.
  destruct (good_load _ Hg Hd Hl) as (r' & Ev & Hr). pose proof (good_facts _ Hg) as (_ & _ & _ & Hrange & _).
  unfold LoadHandle, Value. rewrite Hh. cbn [fmap option_fmap option_map mbind option_bind].
  rewrite units_number by done. cbn [mbind option_bind]. unfold kAllFilterUnitsNumber.
  destruct (Z.ltb_spec (loaded (h_reader q)) 6); [|lia]. rewrite Ev.
  eexists r', _. split; [done|].
  assert (mq_inv d (set_queues s (Queue_Append (loaded (h_reader q) + 1) h (Queue_Remove h (queues_ s))))) as Hi2.
  { apply inv_set_queues; [done|]. apply queues_ok_relocate; [apply Hi|by eexists|lia]. }
  split_and!.
  - eapply inv_shift; [apply (inv_set_reader _ _ h q r' Hi2 Hh); [apply Hr|]|].
    + destruct Hr as (_ & _ & _ & -> & _). done.
    + rewrite (bytes_of_resized _ _ _ Hr Hd), bytes_of_done by done. f_equal. lia.
  - done.
  - intros h' q' Hq'. destruct (stepped_set_reader s h q r' Hh) with (h := h') (q := q') as (r2 & E2 & R2); [|done|].
    + intros file. pose proof (ReaderFacts.step_load file (h_reader q)) as St. by rewrite Ev in St.
    + exists r2. split; [exact E2|exact R2].
  - done.
Qed.

(** A handle that can give up a unit. *)
Definition evictable (s : MultiQueue) (h : nat) : Prop :=
  ∃ q, heap s !! h = Some q ∧ init_done (h_reader q) = true ∧ 0 < loaded (h_reader q).

Lemma unit_bytes_ext s s' hs :
  (∀ h, h ∈ hs → heap s' !! h = heap s !! h) → unit_bytes s' hs = unit_bytes s hs.
Proof.
  induction hs as [|h hs IH]; intros H; [done|]. cbn [unit_bytes foldr]. fold (unit_bytes s hs) (unit_bytes s' hs).
  rewrite IH by (intros h' Hin; apply H; by right). unfold Value. rewrite (H h) by left. done.
Qed.

Lemma evict_all_spec colds : ∀ d s,
  mq_inv d s → NoDup colds → Forall (evictable s) colds →
  ∃ s', evict_all s colds = Some (true, s') ∧ mq_inv (d + unit_bytes s colds) s' ∧ stepped s s' ∧
    ∀ h, h ∉ colds → heap s' !! h = heap s !! h.
Proof.
  induction colds as [|c colds IH]; intros d s Hi Hn Hf.
  { exists s. split_and!; [done| |by apply stepped_refl|done]. simpl. by rewrite Z.add_0_r. }
  apply NoDup_cons in Hn as [Hc Hn]. apply Forall_cons_1 in Hf as [(q & Hh & Hd & Hl) Hf].
  destruct (EvictHandle_spec d s c q Hi Hh Hd Hl) as (r' & s1 & E1 & I1 & R1 & St1 & Hp1).
  assert (∀ h, h ≠ c → heap s1 !! h = heap s !! h) as Hne.
  { intros h Hne. rewrite Hp1. by apply lookup_alter_ne. }
  destruct (IH _ s1 I1 Hn) as (s2 & E2 & I2 & St2 & Hp2).
  { apply Forall_forall. intros h Hin. rewrite Forall_forall in Hf. destruct (Hf h Hin) as (q' & Hq' & H').
    exists q'. rewrite Hne by (intros ->; done). done. }
  exists s2. cbn [evict_all]. rewrite E1. cbn [mbind option_bind]. cbn [ok Status_OK negb].
  split_and!; [done| |by eapply stepped_trans|].
  - replace (d + unit_bytes s (c :: colds)) with (d + disk_size_ (h_reader q) + unit_bytes s1 colds); [done|].
    rewrite (unit_bytes_ext s s1) by (intros h Hin; apply Hne; by intros ->).
    cbn [unit_bytes foldr]. fold (unit_bytes s colds). unfold Value, OneUnitSize. rewrite Hh. simpl. lia.
  - intros h Hin. apply not_elem_of_cons in Hin as [Hhc Hin]. rewrite Hp2, Hne by done. done.
Qed.

(** The first loop of [CanBeAdjusted] passes only if all colds can be evicted. *)
Lemma original_ios_evictable s colds : ∀ acc o,
  original_ios s colds acc = Some (Some o) → Forall (evictable s) colds.
Proof.
  induction colds as [|c colds IH]; intros acc o; simpl; [done|].
  destruct (Value s c) as [r|] eqn:Ev; [simpl|done]. unfold CanBeEvict, FilterUnitsNumberInternal.
  destruct (init_done r) eqn:Hd; [simpl|done].
  rewrite Z.gtb_ltb. destruct (Z.ltb_spec 0 (size (filter_units r))) as [Hl|]; cbn [negb]; [|done].
  unfold reader_ios, FilterUnitsNumberInternal. rewrite Hd. simpl. intros H.
  constructor; [|by eapply IH]. apply Value_Some in Ev as (q & Hq & <-). by exists q.
Qed.

Lemma original_ios_total s colds : ∀ acc,
  ready s → Forall (λ h, is_Some (heap s !! h)) colds → is_Some (original_ios s colds acc).
Proof.
  induction colds as [|c colds IH]; intros acc Hr Hf; simpl; [done|].
  apply Forall_cons_1 in Hf as [[q Hq] Hf]. unfold Value. rewrite Hq. simpl.
  unfold CanBeEvict, reader_ios, FilterUnitsNumberInternal. rewrite (Hr _ _ Hq). simpl.
  destruct (negb _); [done|]. by apply IH.
Qed.

Lemma adjusted_ios_total s colds : ∀ acc,
  ready s → Forall (λ h, is_Some (heap s !! h)) colds → is_Some (adjusted_ios s colds acc).
Proof.
  induction colds as [|c colds IH]; intros acc Hr Hf; simpl; [done|].
  apply Forall_cons_1 in Hf as [[q Hq] Hf]. unfold Value. rewrite Hq. simpl.
  unfold reader_ios, FilterUnitsNumberInternal. rewrite (Hr _ _ Hq). simpl. by apply IH.
Qed.

Lemma CanBeAdjusted_total s colds hot q :
  ready s → Forall (λ h, is_Some (heap s !! h)) colds → heap s !! hot = Some q →
  is_Some (CanBeAdjusted s colds hot).
Proof.
  intros Hr Hf Hq. unfold CanBeAdjusted.
  destruct (original_ios_total s colds dzero Hr Hf) as [[o|] Eo]; rewrite Eo; simpl; [|done].
  rewrite (Value_lookup s hot q Hq). simpl. unfold reader_ios, FilterUnitsNumberInternal. rewrite (Hr _ _ Hq). simpl.
  destruct (adjusted_ios_total s colds dzero Hr Hf) as [a Ea]. rewrite Ea. simpl. by destruct (dlt _ _).
Qed.

Lemma CanBeAdjusted_inv s colds hot b s' :
  CanBeAdjusted s colds hot = Some (b, s') →
  heap s' = heap s ∧ (∀ d, mq_inv d s → mq_inv d s') ∧ (b = true → Forall (evictable s) colds).
Proof.
  unfold CanBeAdjusted. destruct (original_ios s colds dzero) as [[o|]|] eqn:Eo; simpl; [|by intros [= <- <-]|done].
  destruct (Value s hot) as [r|]; simpl; [|done]. destruct (reader_ios 0 r); simpl; [|done].
  destruct (adjusted_ios s colds dzero); simpl; [|done]. destruct (reader_ios 1 r); simpl; [|done].
  destruct (dlt _ _); intros [= <- <-]; split_and!; try done.
  - intros db Hi. by apply inv_set_adjustment_time.
  - intros _. by eapply original_ios_evictable.
Qed.

(** Evicting exactly the memory one load needs, then loading, keeps the books. *)
Lemma ApplyAdjustment_spec {d} s colds hot q :
  mq_inv d s → NoDup colds → Forall (evictable s) colds → hot ∉ colds →
  heap s !! hot = Some q → init_done (h_reader q) = true → loaded (h_reader q) < 6 →
  u64 (OneUnitSize (h_reader q) - unit_bytes s colds) = 0 →
  ∃ s', ApplyAdjustment s colds hot = Some s' ∧ mq_inv d s' ∧ stepped s s'.
Proof.
  intros Hi Hnd Hev Hnin Hq Hd Hlt Hex. unfold ApplyAdjustment.
  destruct (evict_all_spec colds d s Hi Hnd Hev) as (s2 & E2 & I2 & St2 & Hp2).
  rewrite E2. simpl. assert (heap s2 !! hot = Some q) as Hq2 by (by rewrite Hp2).
  destruct (LoadHandle_spec _ s2 hot q I2 Hq2 Hd Hlt) as (r' & s3 & E3 & I3 & _ & St3 & _).
  rewrite E3. simpl. exists s3. split; [done|]. split; [|by eapply stepped_trans].
  eapply inv_shift; [exact I3|]. unfold OneUnitSize in Hex. unfold u64 in *.
  replace (d + unit_bytes s colds - disk_size_ (h_reader q)) with (d - (disk_size_ (h_reader q) - unit_bytes s colds)) by lia.
  rewrite Zminus_mod, Hex, Z.sub_0_r. by apply Z.mod_mod.
Qed.

(** An adjustment for a handle that is not itself cold keeps the books; it
    answers when no reader is still loading. *)
Lemma Adjustment_spec {d} s hot sn q :
  mq_inv d s → heap s !! hot = Some q → IsCold sn (h_reader q) = false →
  (∀ s', Adjustment s hot sn = Some s' → mq_inv d s' ∧ stepped s s') ∧
  (ready s → is_Some (Adjustment s hot sn)).
Proof.
  intros Hi Hq Hhot. pose proof (inv_good _ _ Hi _ _ Hq) as Hg.
  pose proof (good_facts _ Hg) as (_ & Hall & Hsz & _ & _).
  unfold Adjustment. rewrite (Value_lookup s hot q Hq). cbn [mbind option_bind].
  unfold CanBeLoaded, FilterUnitsNumberInternal.
  destruct (init_done (h_reader q)) eqn:Hd; cbn [mbind option_bind].
  2: { split; [done|]. intros Hr. pose proof (Hr _ _ Hq). congruence. }
  rewrite Hall. destruct (Z.ltb_spec (size (filter_units (h_reader q))) 6) as [Hlt|].
  2: { split; [|done]. intros s' [= <-]. auto using stepped_refl. }
  pose proof (FindColdFilter_exact s (OneUnitSize (h_reader q)) sn) as Hc.
  set (colds := FindColdFilter s (OneUnitSize (h_reader q)) sn) in *. clearbody colds.
  assert (∀ X, match colds with [] => Some s | _ => X end = if decide (colds = []) then Some s else X) as ->
    by (by destruct colds).
  case_decide as Hnil; [split; [intros s' [= <-]; auto using stepped_refl|done]|].
  destruct Hc as [Hc|(Hex & Hcold & Hsub)]; [unfold OneUnitSize; range_lia|done|].
  destruct (inv_queues _ _ Hi) as (Hql & Hqn & Hqm).
  assert (NoDup colds) as Hnd by (eapply sublist_NoDup; [by apply visit_order_NoDup|done]).
  assert (Forall (λ h, is_Some (heap s !! h)) colds) as Hlive.
  { eapply Forall_impl; [exact Hcold|]. intros h (r & Hv & _). apply Value_Some in Hv as (q' & Hq' & _). by eexists. }
  assert (hot ∉ colds) as Hnin.
  { intros Hin. destruct (proj1 (Forall_forall (is_cold s sn) colds) Hcold _ Hin) as (r & Hv & Hcr & _).
    apply Value_Some in Hv as (q' & Hq' & <-). rewrite Hq in Hq'. injection Hq' as <-. congruence. }
  assert (∀ b s1, CanBeAdjusted s colds hot = Some (b, s1) →
    ∃ s', (if b then ApplyAdjustment s1 colds hot else Some s1) = Some s' ∧ mq_inv d s' ∧ stepped s s') as Hgo.
  { intros b s1 E1. destruct (CanBeAdjusted_inv s colds hot b s1 E1) as (Hh1 & Hi1 & Hev).
    destruct b; [|exists s1; split_and!; [done|by apply Hi1|by apply stepped_refl]].
    destruct (ApplyAdjustment_spec (d := d) s1 colds hot q) as (s' & E' & I' & St'); try done.
    - by apply Hi1.
    - eapply Forall_impl; [by apply Hev|]. intros h (q' & Hq' & H'). exists q'. by rewrite Hh1.
    - by rewrite Hh1.
    - by rewrite (unit_bytes_ext s s1) by (by rewrite Hh1).
    - exists s'. split_and!; [done..|]. eapply stepped_trans; [by apply (stepped_refl s s1)|done]. }
  split.
  - intros s'. destruct (CanBeAdjusted s colds hot) as [[b s1]|] eqn:E1; cbn [mbind option_bind]; [|done].
    destruct (Hgo b s1 eq_refl) as (s2 & -> & H2). by intros [= <-].
  - intros Hr. destruct (CanBeAdjusted_total s colds hot q Hr Hlive Hq) as [[b s1] E1]. rewrite E1.
    cbn [mbind option_bind]. destruct (Hgo b s1 E1) as (s2 & -> & _). done.
Qed.

Lemma IsCold_now r sn : is_u64 (sn + kLifeTime) → sequence_ r = sn → IsCold sn r = false.
Proof.
  intros Hs E. unfold IsCold. rewrite E, u64_small by done. rewrite Z.geb_leb. unfold kLifeTime. zcases; [lia|done].
Qed.

Lemma ParseKey_seq key sn : ParseKey key = Some sn → 0 <= sn < 2 ^ 56.
Proof.
  unfold ParseKey. destruct (size key <? 8); [done|]. destruct (_ <=? _); [|done]. intros [= <-].
  assert (is_u64 (ExtractTag key)) as Hu.
  { unfold ExtractTag. destruct (drop_z _ key) as [|b0 [|b1 [|b2 [|b3 [|b4 [|b5 [|b6 [|b7 l]]]]]]]];
      try (simpl; unfold is_u64; lia).
    rewrite DecodeFixed64_value. unfold from_option, id, is_u64.
    pose proof (b2z_range b0). pose proof (b2z_range b1). pose proof (b2z_range b2). pose proof (b2z_range b3).
    pose proof (b2z_range b4). pose proof (b2z_range b5). pose proof (b2z_range b6). pose proof (b2z_range b7).
    lia. }
  unfold is_u64 in Hu. rewrite Z.shiftr_div_pow2 by lia.
  split; [apply Z.div_pos; lia|apply Z.div_lt_upper_bound; lia].
Qed.

Lemma ReaderKeyMayMatch_total off key r : init_done r = true → is_Some (ReaderKeyMayMatch off key r).
Proof.
  intros Hd. unfold ReaderKeyMayMatch, FilterUnitsNumberInternal. rewrite Hd.
  destruct (_ <? _); [|done]. destruct (_ && _); [done|]. by destruct (_ =? _).
Qed.

(** [UpdateHandle] keeps the books and only lets readers take reader steps; its
    answer is that of the reader after the adjustment. *)
Lemma UpdateHandle_spec {d} s h q off key :
  mq_inv d s → heap s !! h = Some q →
  (∀ b s', UpdateHandle s h off key = Some (b, s') →
     mq_inv d s' ∧ stepped s s' ∧
     (b = true ∨ ∃ q', heap s' !! h = Some q' ∧ init_done (h_reader q') = true ∧
        ReaderKeyMayMatch off key (h_reader q') = Some b)) ∧
  (ready s → is_Some (UpdateHandle s h off key)).
Proof.
  intros Hi Hq. unfold UpdateHandle. destruct (ParseKey key) as [sn|] eqn:Ep.
  2: { split; [|done]. intros b s' [= <- <-]. split_and!; [done|by apply stepped_refl|by left]. }
  rewrite (Value_lookup s h q Hq). cbn [mbind option_bind].
  set (s1 := set_reader s h (UpdateState sn (h_reader q))).
  pose proof (inv_good _ _ Hi _ _ Hq) as Hg. pose proof (good_facts _ Hg) as (_ & _ & _ & Hrange & _).
  assert (mq_inv d s1) as Hi1.
  { eapply inv_shift; [apply (inv_set_reader d s h q); [done|done|by apply good_hotness|done]|].
    change (bytes_of (UpdateState sn (h_reader q))) with (bytes_of (h_reader q)). f_equal. lia. }
  assert (heap s1 !! h = Some (MkHandleNode (h_key q) (UpdateState sn (h_reader q)))) as Hq1.
  { unfold s1. rewrite heap_set_reader, decide_True, Hq by done. done. }
  assert (stepped s s1) as St1.
  { apply (stepped_set_reader s h q); [done|]. intros file. apply ReaderFacts.step_access. }
  unfold DoAdjustment. rewrite (Value_lookup s1 h _ Hq1). cbn [mbind option_bind h_reader].
  destruct (init_done (h_reader q)) eqn:Hd.
  2: { unfold FilterUnitsNumber, FilterUnitsNumberInternal, UpdateState, set_hotness. simpl. rewrite Hd.
       split; [done|]. intros Hr. pose proof (Hr _ _ Hq). congruence. }
  rewrite units_number by done. cbn [mbind option_bind]. set (s2 := set_queues s1 _).
  assert (mq_inv d s2) as Hi2.
  { apply inv_set_queues; [done|]. apply queues_ok_relocate; [apply Hi1|by eexists|].
    unfold loaded, UpdateState, set_hotness in *; simpl. unfold loaded in Hrange. exact Hrange. }
  destruct (Adjustment_spec s2 h sn _ Hi2 Hq1) as [Hadj Htot].
  { apply IsCold_now; [|done]. pose proof (ParseKey_seq _ _ Ep). unfold is_u64, kLifeTime. lia. }
  assert (∀ s3, Adjustment s2 h sn = Some s3 → ∃ r' b, mq_inv d s3 ∧ stepped s s3 ∧
    heap s3 !! h = Some (MkHandleNode (h_key q) r') ∧ init_done r' = true ∧
    ReaderKeyMayMatch off key r' = Some b) as Hfin.
  { intros s3 E3. destruct (Hadj s3 E3) as [I3 St3].
    assert (stepped s s3) as St by (eapply stepped_trans; [exact St1|exact St3]).
    destruct (St h q Hq) as (r' & Hq3 & R3).
    assert (init_done r' = true) as Hd3
      by (eapply (ReaderFacts.reader_steps_init_done (StringSource [])); [apply R3|done]).
    destruct (ReaderKeyMayMatch_total off key r' Hd3) as [b Eb]. by exists r', b. }
  split.
  - intros b s'. destruct (Adjustment s2 h sn) as [s3|] eqn:E3; cbn [mbind option_bind]; [|done].
    destruct (Hfin s3 eq_refl) as (r' & b' & I3 & St3 & Hq3 & Hd3 & Eb).
    rewrite (Value_lookup s3 h _ Hq3). cbn [mbind option_bind h_reader]. rewrite Eb. intros [= <- <-].
    split_and!; [done..|]. right. by eexists.
  - intros Hr. assert (ready s2) as Hr2.
    { intros h' q'. change (heap s2) with (heap s1). unfold s1. rewrite heap_set_reader.
      case_decide; [|apply Hr]. rewrite Hq. simpl. by intros [= <-]. }
    destruct (Htot Hr2) as [s3 E3]. rewrite E3. cbn [mbind option_bind].
    destruct (Hfin s3 E3) as (r' & b' & _ & _ & Hq3 & _ & Eb).
    rewrite (Value_lookup s3 h _ Hq3). cbn [mbind option_bind h_reader]. by rewrite Eb.
Qed.

(** *** The remaining operations *)

Lemma Insert_inv {d} s key r :
  mq_inv d s → good r → init_done r = false → map_ s !! key = None → mq_inv d (Insert s key r).2.
Proof.
  intros [Hg Hu Hq Hm Hf Hs Hsn Hsf] Hr Hd Hk. pose proof (good_facts _ Hr) as (Hi & _ & Hsz & _).
  unfold Insert. rewrite Hk. simpl. set (a := next_address s).
  assert (heap s !! a = None) as Hfresh.
  { destruct (heap s !! a) as [q|] eqn:E; [|done]. apply Hf in E. unfold a in E. lia. }
  split; simpl.
  - intros h q. rewrite lookup_insert. case_decide; [|apply Hg]. by intros [= <-].
  - rewrite real_usage_insert by done. simpl. unfold bytes_of, LoadFilterNumber, OneUnitSize.
    rewrite Hd, Hu. unfold u64. rewrite Z.add_mod_idemp_l, Z.add_mod_idemp_r by lia. f_equal. lia.
  - eapply queues_ok_iff; [apply (queues_ok_append _ _ (LoadFilterNumber r) a Hq)|].
    + simpl. rewrite Hfresh. intros [? ?]. done.
    + unfold LoadFilterNumber. lia.
    + intros h. simpl. rewrite lookup_insert. case_decide as E; [subst; split; [intros _; by eexists|by right]|].
      split; [intros [?|?]; [done|congruence]|by left].
  - intros k h. destruct (decide (k = key)) as [->|Hk']; destruct (decide (h = a)) as [->|Ha].
    + rewrite !lookup_insert_eq. split; [intros _; by eexists|done].
    + rewrite lookup_insert_eq, lookup_insert_ne by done. split; [congruence|].
      intros (q & Hq' & Ek). assert (map_ s !! key = Some h) as H by (apply Hm; by exists q). congruence.
    + rewrite lookup_insert_ne, lookup_insert_eq by done. split.
      * intros (q & Hq' & _)%Hm. congruence.
      * intros (q & [= <-] & Ek). simpl in Ek. congruence.
    + rewrite !lookup_insert_ne by done. apply Hm.
  - intros h q. rewrite lookup_insert. case_decide; [intros _; lia|]. intros Hlt%Hf. lia.
  - intros h q. rewrite lookup_insert, elem_of_app, list_elem_of_singleton.
    case_decide as E; [subst; intros [= <-]; simpl; tauto|].
    intros H1. rewrite (Hs _ _ H1). split; [by left|intros [?|?]; [done|congruence]].
  - apply NoDup_app. split_and!; [done| |apply NoDup_singleton].
    intros h Hin Hh%list_elem_of_singleton. apply Hsf in Hin. unfold a in Hh. lia.
  - intros h. rewrite elem_of_app, list_elem_of_singleton. intros [H%Hsf| ->]; unfold a; lia.
Qed.

Lemma RunBackground_inv {d} s :
  mq_inv d s → mq_inv d (RunBackground s) ∧ scheduled (RunBackground s) = tail (scheduled s).
Proof.
  intros Hi. unfold RunBackground. destruct (scheduled s) as [|h rest] eqn:Es; [by rewrite Es|].
  set (s1 := MkMQ _ _ _ _ _ rest _). destruct Hi as [Hg Hu Hq Hm Hf Hs Hsn Hsf]. rewrite Es in *.
  apply NoDup_cons in Hsn as [Hnin Hsn].
  assert (∀ h', h' ∈ rest → (h' < next_address s)%nat) as Hsf' by (intros h' Hin; apply Hsf; by right).
  destruct (heap s !! h) as [q|] eqn:Hh.
  2: { assert (Value s1 h = None) as -> by (unfold Value; simpl; by rewrite Hh). split; [|done]. split; try done.
       intros h' q' Hq'. change (heap s !! h' = Some q') in Hq'. rewrite (Hs _ _ Hq'), elem_of_cons.
       split; [|by right]. intros [->|?]; [congruence|done]. }
  rewrite (Value_lookup s1 h q Hh). pose proof (Hg _ _ Hh) as Hgq.
  pose proof (good_facts _ Hgq) as (Hi2 & _ & _ & _ & Hz).
  assert (init_done (h_reader q) = false) as Hd by (apply (Hs _ _ Hh); left).
  destruct (good_init _ Hgq) as (r' & -> & Hg' & Hd' & Hl' & Hs'). cbn [snd].
  assert (bytes_of r' = bytes_of (h_reader q)) as Eb.
  { unfold bytes_of. rewrite Hd, Hd', Hl', Hs', Hz, Hi2 by done. done. }
  assert (∀ h', is_Some (heap (set_reader s1 h r') !! h') ↔ is_Some (heap s !! h')) as Hlive.
  { intros h'. rewrite heap_set_reader. change (heap s1) with (heap s).
    case_decide as E; [subst; rewrite Hh; by split; eexists|done]. }
  split; [|done]. split.
  - intros h' q'. rewrite heap_set_reader. case_decide; [|apply Hg]. change (heap s1) with (heap s). rewrite Hh.
    simpl. by intros [= <-].
  - simpl. rewrite (real_usage_alter _ _ q) by done. rewrite Hu. f_equal. lia.
  - eapply queues_ok_iff; [exact Hq|]. intros h'. symmetry. apply Hlive.
  - intros k h'. change (map_ (set_reader s1 h r')) with (map_ s). rewrite Hm, heap_set_reader.
    change (heap s1) with (heap s). case_decide as E; [subst h'|done]. rewrite Hh. simpl.
    split; [intros (q' & [= <-] & Ek); by eexists|intros (q' & [= <-] & Ek); by eexists].
  - intros h' q' Hq'. assert (is_Some (heap s !! h')) as [q0 H0] by (apply Hlive; by eexists). by eapply Hf.
  - intros h' q'. change (scheduled (set_reader s1 h r')) with rest. rewrite heap_set_reader.
    change (heap s1) with (heap s). case_decide as E.
    + subst h'. rewrite Hh. simpl. intros [= <-]. simpl. rewrite Hd'. split; [done|]. intros. done.
    + intros Hq'. rewrite (Hs _ _ Hq'), elem_of_cons. split; [intros [?|?]; done|by right].
  - done.
  - done.
Qed.

(** Running the scheduled work leaves every reader loaded. *)
Lemma RunBackground_ready {d} n : ∀ s,
  mq_inv d s → n = length (scheduled s) → ready (Nat.iter n RunBackground s).
Proof.
  induction n as [|n IH]; intros s Hi Hn.
  - intros h q Hq. simpl in Hq. destruct (init_done (h_reader q)) eqn:Hd; [done|].
    apply (inv_scheduled _ _ Hi _ _ Hq) in Hd. destruct (scheduled s); [by apply not_elem_of_nil in Hd|done].
  - rewrite Nat.iter_succ_r. destruct (RunBackground_inv s Hi) as [Hi' Es]. apply IH; [done|].
    rewrite Es. destruct (scheduled s); simpl in *; lia.
Qed.

Lemma Size_done r : good r → init_done r = true → Size r = Some (bytes_of r).
Proof.
  intros Hg Hd. pose proof (good_facts _ Hg) as (_ & _ & Hsz & Hl & _). unfold Size, FilterUnitsNumberInternal.
  rewrite Hd. simpl. rewrite u64_small; [by rewrite bytes_of_done|].
  unfold loaded, ReaderFacts.loaded in Hl. unfold is_u32, is_u64 in *. nia.
Qed.

(** [Release] takes the reader's memory off the books and out of memory. *)
Lemma Release_spec {d} s h q :
  mq_inv d s → heap s !! h = Some q → init_done (h_reader q) = true →
  ∃ s' r', Release s h = Some s' ∧ mq_inv d s' ∧ heap s' !! h = Some (MkHandleNode (h_key q) r') ∧
    resized (h_reader q) r' 0 ∧ reload_units_number_ r' = loaded (h_reader q) ∧ queues_ s' = queues_ s.
Proof.
  intros Hi Hq Hd. pose proof (inv_good _ _ Hi _ _ Hq) as Hg.
  destruct (good_clean _ Hg) as (r' & Ec & Hr & Hl).
  unfold Release. rewrite (Value_lookup s h q Hq). cbn [mbind option_bind].
  rewrite Size_done by done. cbn [mbind option_bind]. rewrite Ec. cbn [snd].
  eexists _, r'. split; [done|].
  assert (bytes_of r' = 0) as Eb by (rewrite (bytes_of_resized _ _ _ Hr Hd); lia).
  assert (mq_inv (d - bytes_of (h_reader q)) (set_usage s (u64 (usage_ s - bytes_of (h_reader q))))) as Hi1.
  { destruct Hi as [Hg' Hu Hq' Hm Hf Hs Hsn Hsf]. split; try done. simpl. rewrite Hu. unfold u64.
    rewrite Zminus_mod_idemp_l. f_equal. lia. }
  split; [|split; [|done]].
  - eapply inv_shift; [apply (inv_set_reader _ _ h q r' Hi1 Hq); [apply Hr|by destruct Hr as (_ & _ & _ & -> & _)]|].
    rewrite Eb. f_equal. lia.
  - rewrite heap_set_reader, decide_True by done. simpl. by rewrite Hq.
Qed.

Lemma UpdateFile_fields file r : let r' := UpdateFile file r in
  init_done r' = init_done r ∧ reload_units_number_ r' = reload_units_number_ r ∧ disk_size_ r' = disk_size_ r.
Proof. by destruct file. Qed.

Lemma good_goback file r : good (UpdateFile file r) → init_done r = true →
  ∃ r', GoBackToInitFilter file r = Some (Status_OK, r') ∧ good r' ∧
    loaded r' = reload_units_number_ r ∧ init_done r' = true ∧ disk_size_ r' = disk_size_ r.
Proof.
  intros Hg Hd. destruct (UpdateFile_fields file r) as (Ed & Er & Es).
  change (GoBackToInitFilter file r) with (GoBackToInitFilter None (UpdateFile file r)).
  destruct Hg as (units & meta & off & sz & num & f & Hl & Hsz & Hdk & Hi & Hn).
  destruct (ReaderFacts.GoBackToInitFilter_spec _ _ _ _ _ _ Hl Hdk (UpdateFile file r) None Hi ltac:(congruence))
    as (r' & E & I & C & D'); [by left|]. exists r'. split_and!; [done| |by rewrite <-Er|done|].
  - exists units, meta, off, sz, num, f. split_and!; try done; [apply Hsz..|congruence].
  - rewrite <-Es. destruct Hi as (_ & _ & -> & _). by destruct I as (_ & _ & -> & _).
Qed.

(** Going back books [init] units, but the reader reloads the remembered number.  The
    new file object reads the units of the table as the old one did. *)
Lemma MQGoBackToInitFilter_spec {d} s h q file :
  mq_inv d s → heap s !! h = Some q → init_done (h_reader q) = true → good (UpdateFile file (h_reader q)) →
  ∃ s' r', MQGoBackToInitFilter s h file = Some s' ∧
    heap s' !! h = Some (MkHandleNode (h_key q) r') ∧ loaded r' = reload_units_number_ (h_reader q) ∧
    mq_inv (d + (2 - reload_units_number_ (h_reader q)) * disk_size_ (h_reader q)) s' ∧
    queues_ s' = Queue_Append 2 h (Queue_Remove h (queues_ s)).
Proof.
  intros Hi Hq Hd Hf. pose proof (inv_good _ _ Hi _ _ Hq) as Hg. pose proof (good_facts _ Hg) as (Hin & _ & Hsz & Hr & _).
  unfold MQGoBackToInitFilter. rewrite (Value_lookup s h q Hq). cbn [mbind option_bind].
  rewrite units_number by done. cbn [mbind option_bind].
  destruct (good_goback file (h_reader q) Hf Hd) as (r' & Eg & Hg' & Hl' & Hd' & Hs').
  rewrite Eg. cbn [mbind option_bind].
  eexists _, r'. split; [done|].
  split. { simpl. rewrite lookup_alter_eq, Hq. done. }
  split; [done|]. split; [|unfold LoadFilterNumber; rewrite Hin; done].
  set (n2 := LoadFilterNumber (h_reader q)). assert (n2 = 2) as En by done.
  assert (mq_inv d (set_queues s (Queue_Append n2 h (Queue_Remove h (queues_ s))))) as Hi1.
  { apply inv_set_queues; [done|]. apply queues_ok_relocate; [apply Hi|by eexists|lia]. }
  pose proof (inv_set_reader d _ h q r' Hi1 Hq Hg') as Hi2.
  specialize (Hi2 ltac:(congruence)).
  rewrite bytes_of_done, (bytes_of_done r'), Hl', Hs' in Hi2 by done.
  destruct Hi2 as [Hg2 Hu2 Hq2 Hm2 Hf2 Hs2 Hsn2 Hsf2]. split; try done.
  change (usage_ (set_usage ?x ?y)) with y. rewrite Hu2. unfold OneUnitSize, u64. rewrite En.
  change (heap (set_usage ?x ?y)) with (heap x).
  rewrite Z.mul_mod_idemp_l, Z.add_mod_idemp_l, Z.add_mod_idemp_r by lia. f_equal. lia.
Qed.

Lemma Erase_inv {d} s key s' : mq_inv d s → Erase s key = Some s' → mq_inv d s' ∧ Lookup s' key = None.
Proof.
  intros Hi. unfold Erase, Lookup. destruct (map_ s !! key) as [h|] eqn:Ek; [|by intros [= <-]].
  pose proof (proj1 (inv_map _ _ Hi key h) Ek) as (q & Hq & Hk).
  rewrite (Value_lookup s h q Hq). cbn [mbind option_bind]. pose proof (inv_good _ _ Hi _ _ Hq) as Hg.
  destruct (init_done (h_reader q)) eqn:Hd.
  2: { unfold Size, FilterUnitsNumberInternal. by rewrite Hd. }
  rewrite Size_done by done. cbn [mbind option_bind]. intros [= <-]. simpl. split; [|apply lookup_delete_eq].
  destruct Hi as [Hg' Hu Hq' Hm Hf Hs Hsn Hsf].
  assert (∀ h' q', delete h (heap s) !! h' = Some q' → h' ≠ h ∧ heap s !! h' = Some q') as Hdel.
  { intros h' q' [??]%lookup_delete_Some. done. }
  split; simpl.
  - intros h' q' [_ H]%Hdel. by eapply Hg'.
  - rewrite (real_usage_delete _ _ q) by done. rewrite Hu. unfold u64. rewrite Zminus_mod_idemp_l. f_equal. lia.
  - eapply queues_ok_iff; [apply queues_ok_remove, Hq'|]. intros h'. simpl. rewrite lookup_delete.
    case_decide; [subst; split; [naive_solver|by intros [? ?]]|naive_solver].
  - intros k h'. rewrite lookup_delete_Some, Hm. split.
    + intros [Hne (q' & H1 & H2)]. exists q'. split; [|done]. rewrite lookup_delete_ne; [done|].
      intros ->. rewrite Hq in H1. injection H1 as <-. congruence.
    + intros (q' & [Hne H1]%Hdel & H2). split; [|by exists q'].
      intros <-. apply Hne. assert (map_ s !! key = Some h') as E by (apply Hm; by exists q'). congruence.
  - intros h' q' [_ H]%Hdel. by eapply Hf.
  - intros h' q' [_ H]%Hdel. by apply Hs.
  - done.
  - done.
Qed.

Lemma MQSetAccessTime_inv {d} s key t s' : mq_inv d s → MQSetAccessTime s key t = Some s' → mq_inv d s'.
Proof.
  intros Hi. unfold MQSetAccessTime. destruct (map_ s !! key) as [h|] eqn:Ek; [cbn [mbind option_bind]|done].
  pose proof (proj1 (inv_map _ _ Hi key h) Ek) as (q & Hq & Hk).
  rewrite (Value_lookup s h q Hq). cbn [mbind option_bind]. intros [= <-].
  eapply inv_shift; [apply (inv_set_reader d s h q); [done|done| |done]|].
  - by apply good_hotness, (inv_good _ _ Hi _ _ Hq).
  - change (bytes_of (SetAccessTime t (h_reader q))) with (bytes_of (h_reader q)). f_equal. lia.
Qed.

End operations.

(** ** Reachable states *)

Section reachable.
  Context {policy_ : FilterPolicy} {P : Port} {D : IoCost}.

Lemma NewMultiQueue_inv : mq_inv 0 NewMultiQueue.
Proof.
  split; simpl; try done.
  - split_and!; [done|apply NoDup_nil_2|]. intros h. rewrite lookup_empty. split; [|by intros [? ?]].
    intros Hin. by apply not_elem_of_nil in Hin.
  - intros k h. rewrite lookup_empty. split; [done|]. intros (q & H & _). by rewrite lookup_empty in H.
  - apply NoDup_nil_2.
  - intros h Hin. by apply not_elem_of_nil in Hin.
Qed.

(** The operations of the table cache on the queue, with the drift each one causes: the
    amount by which it books more than it brings into memory.  Only going back has
    one, when the reader remembers another number than the initial two units. *)
Inductive mq_step (s : MultiQueue) : Z → MultiQueue → Prop :=
  | mq_insert key r :
      good r → init_done r = false → map_ s !! key = None → mq_step s 0 (Insert s key r).2
  | mq_background : mq_step s 0 (RunBackground s)
  | mq_update h off key b s' :
      is_Some (heap s !! h) → UpdateHandle s h off key = Some (b, s') → mq_step s 0 s'
  | mq_release h q s' :
      heap s !! h = Some q → Release s h = Some s' → mq_step s 0 s'
  | mq_erase key s' : Erase s key = Some s' → mq_step s 0 s'
  | mq_set_access key t s' : MQSetAccessTime s key t = Some s' → mq_step s 0 s'
  | mq_goback h q file s' :
      heap s !! h = Some q → good (UpdateFile file (h_reader q)) →
      MQGoBackToInitFilter s h file = Some s' →
      mq_step s ((2 - reload_units_number_ (h_reader q)) * disk_size_ (h_reader q)) s'.

(** Any number of operations, with the sum of their drifts. *)
Inductive mq_steps : MultiQueue → Z → MultiQueue → Prop :=
  | mq_steps_refl s : mq_steps s 0 s
  | mq_steps_r s1 d s2 e s3 : mq_steps s1 d s2 → mq_step s2 e s3 → mq_steps s1 (d + e) s3.

Lemma Release_blocked s h q :
  heap s !! h = Some q → init_done (h_reader q) = false → Release s h = None.
Proof.
  intros Hq Hd. unfold Release, Size, FilterUnitsNumberInternal.
  rewrite (Value_lookup s h q Hq). cbn [mbind option_bind]. by rewrite Hd.
Qed.

Lemma MQGoBackToInitFilter_blocked s h q file :
  heap s !! h = Some q → init_done (h_reader q) = false → MQGoBackToInitFilter s h file = None.
Proof.
  intros Hq Hd. unfold MQGoBackToInitFilter, FilterUnitsNumber, FilterUnitsNumberInternal.
  rewrite (Value_lookup s h q Hq). cbn [mbind option_bind]. by rewrite Hd.
Qed.

Lemma mq_step_inv d s e s' : mq_step s e s' → mq_inv d s → mq_inv (d + e) s'.
Proof.
  intros Hs Hi. destruct Hs as [key r Hr Hd Hk| |h off key b s' [q Hq] E|h q s' Hq E|key s' E|key t s' E|h q file s' Hq Hf E];
    rewrite ?Z.add_0_r.
  - by apply Insert_inv.
  - by apply RunBackground_inv.
  - by apply (proj1 (UpdateHandle_spec s h q off key Hi Hq)) in E as [? _].
  - destruct (init_done (h_reader q)) eqn:Hd; [|by rewrite (Release_blocked s h q) in E].
    destruct (Release_spec s h q Hi Hq Hd) as (s2 & r' & E2 & I2 & _). congruence.
  - by apply (Erase_inv s key).
  - by eapply MQSetAccessTime_inv.
  - destruct (init_done (h_reader q)) eqn:Hd; [|by rewrite (MQGoBackToInitFilter_blocked s h q file) in E].
    destruct (MQGoBackToInitFilter_spec s h q file Hi Hq Hd Hf) as (s2 & r' & E2 & _ & _ & I2 & _). congruence.
Qed.

Lemma mq_steps_inv s d s' : mq_steps s d s' → mq_inv 0 s → mq_inv d s'.
Proof. induction 1; eauto using mq_step_inv. Qed.

End reachable.

(** A reader freshly opened on a built filter block may be inserted. *)
Lemma good_open_reader {policy_ : FilterPolicy} {L : FilterPolicyLaws policy_} {P : Port} junk blocks pre post :
  BuilderFacts.offsets_from 0 blocks → EndToEnd.sizes_ok blocks pre post →
  good (EndToEnd.open_reader junk blocks pre post) ∧
  init_done (EndToEnd.open_reader junk blocks pre post) = false.
Proof.
  intros Ho Hs. pose proof (reachable_reader junk blocks pre post _ Ho Hs (rtc_refl _ _)) as
    (gs & Hg & Hu & Hsz & Hd & _ & Hi).
  assert (init_done (EndToEnd.open_reader junk blocks pre post) = false ∧
    filter_units (EndToEnd.open_reader junk blocks pre post) = []) as [Hdn Hfu].
  { unfold EndToEnd.open_reader. destruct (Builder.ReturnFilters _) as [b us]. destruct (Builder.Finish _ b) as [b' meta].
    unfold NewFilterBlockReader. by destruct (_ <? _). }
  split; [|done]. eexists _, _, _, _, _, _.
  split; [apply BuilderFacts.length_units_of|]. split; [|split; [exact Hd|split; [exact Hi|]]].
  - unfold is_u32. pose proof (size_nonneg (nth 0 (BuilderFacts.units_of gs) [])). lia.
  - intros _. unfold ReaderFacts.loaded. by rewrite Hfu.
Qed.

(** ** Properties *)

(** C23: In every state that the queue reaches from the empty one by inserting readers,
    background loading, accesses with adjustments, releasing, erasing, setting access
    times and going back (with a new file object or none), the accounted usage is the
    memory of the readers' units, those still being loaded included, plus the drift:
    the sum over all calls that went back of (2 - the units the reader remembers) times
    its unit size, because the code books two units there and reloads the remembered
    number.  So the usage is exact as long as readers go back only to two units.  Each
    handle is in exactly one recency list, the key table finds exactly the live
    handles, and running the scheduled loading work leaves no call blocked.  Every
    unit is readable on disk, also through the file object passed when going back: the
    accounting of a failed read is not covered. *)
Theorem multi_queue_accounting (policy_ : FilterPolicy) (P : Port) (D : IoCost) (drift : Z) (s : MultiQueue) :
  mq_steps NewMultiQueue drift s →
  TotalCharge s = u64 (real_usage (heap s) + drift) ∧
  queues_ok (queues_ s) (λ h, is_Some (heap s !! h)) ∧
  (∀ k h, Lookup s k = Some h ↔ ∃ q, heap s !! h = Some q ∧ h_key q = k) ∧
  ready (Nat.iter (length (scheduled s)) RunBackground s).
Proof.
  intros Hs. pose proof (mq_steps_inv _ _ _ Hs NewMultiQueue_inv) as Hi.
  split; [|split; [apply (inv_queues _ _ Hi)|split; [apply (inv_map _ _ Hi)|by eapply RunBackground_ready]]].
  apply (inv_usage _ _ Hi).
Qed.

(** The instances the examples use. *)
Definition example_policy : FilterPolicy := Bloom.BloomPolicy (Bloom.NewBloomFilterPolicy 10).
Definition example_cost : IoCost := {|
  double := Z; dzero := 0; dadd := Z.add; dlt := Z.ltb; cost t n := t * 2 ^ (10 - n) |}.
Definition example_blocks : list (Z * list bytes) := [(0, [ikey [x61] 7 kTypeValue])].
Definition example_reader : FilterBlockReader :=
  EndToEnd.open_reader (policy_ := InternalFilterPolicy example_policy) 0 example_blocks [] [].

#[local] Instance example_laws : FilterPolicyLaws (InternalFilterPolicy example_policy).
Proof. apply InternalFilterPolicy_laws, Bloom.NewBloomFilterPolicy_laws. lia. Qed.

Lemma example_reader_good : good (P := PortNone) example_reader ∧ init_done example_reader = false.
Proof. apply good_open_reader; [simpl; lia|vm_compute; done]. Qed.

(** C24: an access through the queue has no false negatives: whatever memory the
    access moves between readers, for a key that was added to the filter block at
    this offset the answer is true; the books stay balanced, and the call answers
    when no reader is still loading. *)
Theorem multi_queue_access (policy_ : FilterPolicy) (P : Port) (D : IoCost)
    (s : MultiQueue) (h : nat) (q : QueueHandle) (key : bytes)
    (blocks : list (Z * list bytes)) (pre post : bytes) (junk o : Z) (ks : list bytes) :
  FilterPolicyLaws policy_ → mq_inv 0 s → heap s !! h = Some q →
  BuilderFacts.offsets_from 0 blocks → EndToEnd.sizes_ok blocks pre post →
  (o, ks) ∈ blocks → key ∈ ks →
  rtc (ReaderFacts.reader_step (EndToEnd.units_file blocks pre post))
    (EndToEnd.open_reader junk blocks pre post) (h_reader q) →
  (∀ b s', UpdateHandle s h o key = Some (b, s') → b = true ∧ mq_inv 0 s') ∧
  (ready s → is_Some (UpdateHandle s h o key)).
Proof.
  intros L Hi Hq Ho Hs Hin Hk Hr. destruct (UpdateHandle_spec s h q o key Hi Hq) as [H1 H2]. split; [|done].
  intros b s' E. destruct (H1 b s' E) as (I & St & Hb). split; [|done].
  destruct Hb as [->|(q' & Hq' & Hd & Em)]; [done|].
  destruct (St h q Hq) as (r' & Hr' & R'). rewrite Hq' in Hr'. injection Hr' as ->. cbn [h_reader] in *.
  assert (rtc (ReaderFacts.reader_step (EndToEnd.units_file blocks pre post))
    (EndToEnd.open_reader junk blocks pre post) r') as R by (etrans; [exact Hr|apply R']).
  destruct (reachable_reader junk blocks pre post r' Ho Hs R) as (gs & Hg & _ & Hsz & _ & Hw & Hri).
  destruct (Hw o ks key Hin Hk) as (Hbd & g & Hgg & Hkg).
  rewrite (EndToEnd.reader_matches gs _ _ _ r' o g key Hg Hsz Hbd Hgg Hkg Hri Hd) in Em. congruence.
Qed.

(** One inserted and loaded table. *)
Definition example_queue : MultiQueue :=
  RunBackground (P := PortNone) (Insert NewMultiQueue [x31] example_reader).2.

Lemma example_queue_inv : mq_inv (P := PortNone) 0 example_queue.
Proof.
  apply RunBackground_inv, Insert_inv; [apply NewMultiQueue_inv|apply example_reader_good..|vm_compute; done].
Qed.

Lemma multi_queue_access_witness :
  match UpdateHandle (policy_ := InternalFilterPolicy example_policy) (P := PortNone) (D := example_cost)
          example_queue 0 0 (ikey [x61] 7 kTypeValue) with
  | Some (b, s') => b = true ∧ mq_inv (P := PortNone) 0 s'
  | None => False
  end.
Proof.
  assert ((λ _, ()) <$> UpdateHandle (policy_ := InternalFilterPolicy example_policy) (P := PortNone)
    (D := example_cost) example_queue 0 0 (ikey [x61] 7 kTypeValue) = Some ()) as Hsome by (vm_compute; done).
  destruct (UpdateHandle _ _ _ _) as [[b s']|] eqn:E; [clear Hsome|discriminate Hsome]. revert b s' E.
  refine (proj1 (multi_queue_access (InternalFilterPolicy example_policy) PortNone example_cost example_queue 0
    (MkHandleNode [x31] (InitLoadFilter (P := PortNone) example_reader).2) (ikey [x61] 7 kTypeValue)
    example_blocks [] [] 0 0 [ikey [x61] 7 kTypeValue] _ _ _ _ _ _ _ _)).
  - apply example_queue_inv.
  - reflexivity.
  - simpl. lia.
  - vm_compute. done.
  - left.
  - left.
  - apply rtc_once, ReaderFacts.step_init.
Defined.

(** the search for cold memory succeeds only on an exact fit: the unit sizes
    of the cold handles it returns add up to the requested memory to the byte
    (modulo the width of the unsigned counter), so a cold set that frees more
    than one hot unit needs is never used. *)
Theorem cold_search_exact_fit (s : MultiQueue) (memory sn : Z) :
  is_u64 memory → FindColdFilter s memory sn ≠ [] →
  unit_bytes s (FindColdFilter s memory sn) < 2 ^ 64 →
  0 <= unit_bytes s (FindColdFilter s memory sn) →
  unit_bytes s (FindColdFilter s memory sn) = memory.
Proof.
  intros Hm Hne Hlt H0. destruct (FindColdFilter_exact s memory sn Hm) as [E|(E & _)]; [done|].
  unfold is_u64, u64 in *. apply Z.mod_divide in E; [|lia]. destruct E as [z Ez].
  assert (z = 0) by nia. lia.
Qed.

(** A cold table with a unit larger than the hot one's, next in line. *)
Definition cold_queue : MultiQueue :=
  set_reader (set_reader example_queue 0
    (SetAccessTime 5 (default example_reader (Value example_queue 0)))) 0
    (SetAccessTime 5 (default example_reader (Value example_queue 0))).

Lemma cold_search_exact_fit_witness :
  FindColdFilter cold_queue 9 20000 = [0%nat] ∧ FindColdFilter cold_queue 8 20000 = [] ∧
  unit_bytes cold_queue (FindColdFilter cold_queue 9 20000) = 9.
Proof.
  split; [vm_compute; done|]. split; [vm_compute; done|].
  apply (cold_search_exact_fit cold_queue 9 20000); [vm_compute; by split|vm_compute; done|vm_compute; done|vm_compute; done].
Defined.

(** releasing a table and going back books two units whatever was in memory,
    while the reader reloads what it had: the accounted usage is then off by the
    difference, and the handle is filed under two units. *)
Theorem goback_miscounts (P : Port) (s : MultiQueue) (h : nat) (q : QueueHandle) :
  mq_inv 0 s → heap s !! h = Some q → init_done (h_reader q) = true →
  ∃ s1 s2 r, Release s h = Some s1 ∧ MQGoBackToInitFilter s1 h None = Some s2 ∧
    Value s2 h = Some r ∧ loaded r = loaded (h_reader q) ∧
    TotalCharge s2 = u64 (real_usage (heap s2) + (2 - loaded r) * disk_size_ (h_reader q)) ∧
    h ∈ nth 2 (queues_ s2) [].
Proof.
  intros Hi Hq Hd.
  destruct (Release_spec s h q Hi Hq Hd) as (s1 & r1 & E1 & I1 & H1 & (G1 & L1 & Ds1 & Id1 & _) & Rl & Hqs).
  destruct (MQGoBackToInitFilter_spec s1 h _ None I1 H1) as (s2 & r2 & E2 & H2 & L2 & I2 & Q2); [cbn [h_reader]; congruence|done|].
  cbn [h_reader] in *. exists s1, s2, r2. rewrite (Value_lookup s2 h _ H2).
  split_and!; [done..|congruence| |].
  - unfold TotalCharge. rewrite (inv_usage _ _ I2), L2, Ds1. done.
  - rewrite Q2. destruct (inv_queues _ _ I1) as (Hl & _).
    pose proof (length_Queue_Remove h (queues_ s1)) as Hl2. unfold Queue_Append.
    destruct (Queue_Remove h (queues_ s1)) as [|q0 [|q1 [|q2 qs]]]; simpl in *; try lia. left.
Qed.

(** A second, cold table of the same unit size: the third access to the first
    table takes a unit from it. *)
Definition access (s : MultiQueue) : MultiQueue :=
  default s (snd <$> UpdateHandle (policy_ := InternalFilterPolicy example_policy) (P := PortNone)
    (D := example_cost) s 0 0 (ikey [x61] 20000 kTypeValue)).
Definition adjusted_queue : MultiQueue :=
  let s := RunBackground (P := PortNone) (Insert example_queue [x32] example_reader).2 in
  access (access (access (default s (MQSetAccessTime s [x32] 1)))).

Lemma adjusted_queue_loaded : loaded <$> Value adjusted_queue 0 = Some 3 ∧ loaded <$> Value adjusted_queue 1 = Some 1.
Proof. split; vm_compute; done. Qed.

Lemma access_inv s : mq_inv (P := PortNone) 0 s → is_Some (heap s !! 0%nat) →
  mq_inv (P := PortNone) 0 (access s) ∧ is_Some (heap (access s) !! 0%nat).
Proof.
  intros Hi [q Hq]. unfold access.
  destruct (UpdateHandle _ _ _ _) as [[b s']|] eqn:E; [|by simpl; eauto]. simpl.
  destruct (UpdateHandle_spec (policy_ := InternalFilterPolicy example_policy) (D := example_cost)
    s 0 q 0 (ikey [x61] 20000 kTypeValue) Hi Hq) as [H _].
  destruct (H b s' E) as (I & St & _). split; [exact I|]. destruct (St 0%nat q Hq) as (r' & Hr' & _). eauto.
Qed.

Lemma adjusted_queue_inv : mq_inv (P := PortNone) 0 adjusted_queue ∧ is_Some (heap adjusted_queue !! 0%nat).
Proof.
  unfold adjusted_queue. set (s := RunBackground _).
  assert (mq_inv (P := PortNone) 0 s) as Hi.
  { apply RunBackground_inv, Insert_inv; [apply example_queue_inv|apply example_reader_good..|vm_compute; done]. }
  assert (mq_inv (P := PortNone) 0 (default s (MQSetAccessTime s [x32] 1)) ∧
    is_Some (heap (default s (MQSetAccessTime s [x32] 1)) !! 0%nat)) as H1.
  { split; [|apply (fmap_is_Some (λ _, ())); exists (); vm_compute; done].
    destruct (MQSetAccessTime s [x32] 1) as [s'|] eqn:E; [by eapply MQSetAccessTime_inv|done]. }
  do 3 (destruct H1 as [Hi1 Hh1]; pose proof (access_inv _ Hi1 Hh1) as H1; clear Hi1 Hh1). exact H1.
Qed.

Lemma goback_miscounts_witness :
  ∃ s1 s2, Release adjusted_queue 0 = Some s1 ∧ MQGoBackToInitFilter (P := PortNone) s1 0 None = Some s2 ∧
    TotalCharge s2 = u64 (real_usage (heap s2) - 9).
Proof.
  destruct adjusted_queue_inv as [Hi [q Hq]].
  assert (loaded (h_reader q) = 3 ∧ disk_size_ (h_reader q) = 9 ∧ init_done (h_reader q) = true) as (Hl & Hs & Hd).
  { assert ((λ q, (loaded (h_reader q), disk_size_ (h_reader q), init_done (h_reader q))) <$>
      heap adjusted_queue !! 0%nat = Some (3, 9, true)) as E by (vm_compute; done).
    rewrite Hq in E. injection E as E1 E2 E3. exact (conj E1 (conj E2 E3)). }
  destruct (goback_miscounts PortNone adjusted_queue 0 q Hi Hq Hd) as (s1 & s2 & r & H1 & H2 & _ & Hr & Ht & _).
  exists s1, s2. split; [exact H1|]. split; [exact H2|]. rewrite Ht, Hr, Hl, Hs. f_equal.
Defined.

(** The same calls as a sequence of steps: two tables are inserted and loaded, an
    adjustment gives the first one a third unit, its table is closed and opened again
    with the same file. *)
Definition reopened_queue : MultiQueue :=
  default adjusted_queue (s ← Release adjusted_queue 0; r ← Value s 0; MQGoBackToInitFilter (P := PortNone) s 0 (Some (file_ r))).

Definition steps := mq_steps (policy_ := InternalFilterPolicy example_policy) (P := PortNone) (D := example_cost).

Lemma steps_next s1 d s2 s3 : steps s1 d s2 → mq_step (policy_ := InternalFilterPolicy example_policy) (P := PortNone) (D := example_cost) s2 0 s3 → steps s1 d s3.
Proof. intros H1 H2. rewrite <-(Z.add_0_r d). by eapply mq_steps_r. Qed.

Lemma access_step s1 d s : steps s1 d s → is_Some (heap s !! 0%nat) → steps s1 d (access s).
Proof.
  intros H1 H. unfold access. destruct (UpdateHandle _ _ _ _) as [[b s']|] eqn:E; [|done].
  eapply steps_next; [exact H1|]. by eapply mq_update.
Qed.

Lemma adjusted_queue_steps : steps NewMultiQueue 0 adjusted_queue.
Proof.
  unfold adjusted_queue. set (s := RunBackground _).
  assert (steps NewMultiQueue 0 s) as Hs.
  { do 2 (eapply steps_next; [|apply mq_background]; eapply steps_next; [|apply mq_insert; [apply example_reader_good..|vm_compute; done]]).
    apply mq_steps_refl. }
  assert (mq_inv (P := PortNone) 0 s) as Hi by (by apply (mq_steps_inv _ _ _ Hs), NewMultiQueue_inv).
  assert ((λ s1, (λ _, ()) <$> heap s1 !! 0%nat) <$> MQSetAccessTime s [x32] 1 = Some (Some ())) as E0 by (vm_compute; done).
  clearbody s. destruct (MQSetAccessTime s [x32] 1) as [s1|] eqn:E; [|discriminate E0]. cbn [default from_option id].
  assert (steps NewMultiQueue 0 s1) as Hs1 by (eapply steps_next; [exact Hs|by eapply mq_set_access]).
  assert (mq_inv (P := PortNone) 0 s1) as Hi1 by (by apply (mq_steps_inv _ _ _ Hs1), NewMultiQueue_inv).
  assert (is_Some (heap s1 !! 0%nat)) as Hh1.
  { cbn in E0. destruct (heap s1 !! 0%nat); [done|discriminate E0]. }
  destruct (access_inv s1 Hi1 Hh1) as [Hi2 Hh2]. destruct (access_inv _ Hi2 Hh2) as [Hi3 Hh3].
  by do 3 (apply access_step; [|done]).
Qed.

Lemma multi_queue_accounting_witness :
  steps NewMultiQueue (-9) reopened_queue ∧ TotalCharge reopened_queue = 27 ∧ real_usage (heap reopened_queue) = 36 ∧
  TotalCharge reopened_queue = u64 (real_usage (heap reopened_queue) + (-9)).
Proof.
  assert (steps NewMultiQueue (-9) reopened_queue) as Hs.
  { destruct adjusted_queue_inv as [Hi [q Hq]].
    assert (loaded (h_reader q) = 3 ∧ disk_size_ (h_reader q) = 9 ∧ init_done (h_reader q) = true) as (Hl & Hs & Hd).
    { assert ((λ q, (loaded (h_reader q), disk_size_ (h_reader q), init_done (h_reader q))) <$>
        heap adjusted_queue !! 0%nat = Some (3, 9, true)) as E by (vm_compute; done).
      rewrite Hq in E. injection E as E1 E2 E3. exact (conj E1 (conj E2 E3)). }
    destruct (Release_spec adjusted_queue 0 q Hi Hq Hd) as (s1 & r1 & E1 & I1 & H1 & (G1 & L1 & Ds1 & Id1 & _) & Rl & _).
    assert (UpdateFile (Some (file_ r1)) r1 = r1) as Ef by (by destruct r1).
    destruct (MQGoBackToInitFilter_spec s1 0 _ (Some (file_ r1)) I1 H1) as (s2 & r2 & E2 & _); [cbn [h_reader]; congruence|cbn [h_reader]; by rewrite Ef|].
    assert (reopened_queue = s2) as ->.
    { unfold reopened_queue. rewrite E1. cbn [mbind option_bind]. rewrite (Value_lookup s1 0 _ H1). cbn [mbind option_bind h_reader]. by rewrite E2. }
    replace (-9) with (0 + (2 - reload_units_number_ r1) * disk_size_ r1) by (rewrite Rl, Hl, Ds1, Hs; reflexivity).
    eapply mq_steps_r; [eapply steps_next; [exact adjusted_queue_steps|eapply mq_release; [exact Hq|exact E1]]|].
    apply (mq_goback s1 0 _ (Some (file_ r1)) s2 H1); [cbn [h_reader]; by rewrite Ef|exact E2]. }
  split; [exact Hs|]. split; [vm_compute; reflexivity|]. split; [vm_compute; reflexivity|].
  exact (proj1 (multi_queue_accounting (InternalFilterPolicy example_policy) PortNone example_cost (-9) reopened_queue Hs)).
Defined.
