(* ===== verification/Links.v ===== *)
(** * Doubly linked lists

    The [next] and [prev] members of the nodes of a heap, as two maps, and the
    pointer operations with which src/util/cache.cc, src/util/table_cache_lru.cc and
    src/util/container.cc link nodes in and out.  A list is a path between two
    nodes; a circular list is a path from its head back to it. *)

From stdpp Require Import gmap list.
From S2P Require Import Prelude.

Record Links := MkLinks { next_ : gmap nat nat; prev_ : gmap nat nat }.

Definition set_next (a b : nat) (L : Links) : Links := MkLinks (<[a:=b]> (next_ L)) (prev_ L).
Definition set_prev (a b : nat) (L : Links) : Links := MkLinks (next_ L) (<[a:=b]> (prev_ L)).

(** [e->next->prev = e->prev; e->prev->next = e->next]; [None] is a pointer that was
    never set. *)
Definition LRU_Remove (e : nat) (L : Links) : option Links :=
  n ← next_ L !! e; p ← prev_ L !! e; let L := set_prev n p L in
  p ← prev_ L !! e; n ← next_ L !! e; Some (set_next p n L).

(** [e] becomes the newest node, just before [list]. *)
Definition LRU_Append (list e : nat) (L : Links) : option Links :=
  let L := set_next e list L in
  p ← prev_ L !! list; let L := set_prev e p L in
  p ← prev_ L !! e; let L := set_next p e L in
  n ← next_ L !! e; Some (set_prev n e L).

(** [handle] becomes the first node behind [head]. *)
Definition AddToHead (head handle : nat) (L : Links) : option Links :=
  n ← next_ L !! head; let L := set_prev handle head (set_next handle n L) in
  n ← next_ L !! head; Some (set_next head handle (set_prev n handle L)).

(** ** Paths *)

Definition link (L : Links) (a b : nat) : Prop := next_ L !! a = Some b ∧ prev_ L !! b = Some a.

Fixpoint path (L : Links) (a : nat) (xs : list nat) (z : nat) : Prop :=
  match xs with
  | [] => link L a z
  | b :: xs => link L a b ∧ path L b xs z
  end.

(** The links between other nodes. *)
Definition same_links (P : nat → Prop) (L L' : Links) : Prop :=
  ∀ p, ¬ P p → next_ L' !! p = next_ L !! p ∧ prev_ L' !! p = prev_ L !! p.

Lemma path_app L a xs b ys z : path L a (xs ++ b :: ys) z ↔ path L a xs b ∧ path L b ys z.
Proof. revert a. induction xs as [|c xs IH]; intros a; cbn; [done|]. rewrite IH. tauto. Qed.

Lemma path_frame L L' a xs z : (∀ p, p ∈ a :: xs → next_ L' !! p = next_ L !! p) → (∀ p, p ∈ z :: xs → prev_ L' !! p = prev_ L !! p) →
  path L a xs z → path L' a xs z.
Proof.
  revert a. induction xs as [|b xs IH]; intros a Hn Hp; cbn; unfold link.
  - rewrite Hn, Hp by set_solver. done.
  - intros [[Ha Hb] Hpath]. rewrite Hn, Hp by set_solver. split; [done|]. apply IH; [intros p Hin; apply Hn; set_solver|intros p Hin; apply Hp; set_solver|done].
Qed.

Lemma path_same P L L' a xs z : same_links P L L' → (∀ p, p ∈ a :: z :: xs → ¬ P p) → path L a xs z → path L' a xs z.
Proof. intros Hs Hn. apply path_frame; intros p Hp; apply Hs, Hn; set_solver. Qed.

Lemma path_first L a xs z : path L a xs z → link L a (default z (head xs)).
Proof. destruct xs; cbn; tauto. Qed.

Lemma path_last L a xs z : path L a xs z → link L (default a (last xs)) z.
Proof.
  destruct xs as [|b xs _] using rev_ind; [done|]. rewrite last_snoc, path_app. by intros [_ ?].
Qed.

(** A path whose last link was moved to [q]. *)
Lemma path_relast L L' a xs z q : path L a xs z → NoDup (a :: xs) → (∀ p, p ∈ a :: xs → p ≠ default a (last xs) → next_ L' !! p = next_ L !! p) →
  (∀ p, p ∈ xs → prev_ L' !! p = prev_ L !! p) → link L' (default a (last xs)) q → path L' a xs q.
Proof.
  destruct xs as [|b xs _] using rev_ind; [done|]. rewrite last_snoc. cbn [default from_option]. rewrite !path_app. intros [H1 _] Hnd Hn Hp Hl. split; [|done].
  assert (b ∉ a :: xs) as Hb by (intros Hb; rewrite app_comm_cons in Hnd; apply NoDup_app in Hnd as (_ & Hd & _); apply (Hd b Hb); set_solver).
  eapply path_frame, H1; [|set_solver]. intros p Hin. apply Hn; set_solver.
Qed.

(** A path whose first link comes from [q] instead. *)
Lemma path_refirst L L' a xs z q : path L a xs z → NoDup (xs ++ [z]) → (∀ p, p ∈ xs → next_ L' !! p = next_ L !! p) →
  (∀ p, p ∈ z :: xs → p ≠ default z (head xs) → prev_ L' !! p = prev_ L !! p) → link L' q (default z (head xs)) → path L' q xs z.
Proof.
  destruct xs as [|b xs]; [done|]. cbn [head default from_option]. cbn [path]. intros [_ H1] Hnd Hn Hp Hl. split; [done|]. cbn in Hnd. apply NoDup_cons in Hnd as [Hb _].
  eapply path_frame, H1; [set_solver|]. intros p Hin. apply Hp; set_solver.
Qed.

Lemma default_last_in (a : nat) xs : default a (last xs) ∈ a :: xs.
Proof. destruct xs as [|b xs _] using rev_ind; [set_solver|]. rewrite last_snoc. set_solver. Qed.

Lemma default_head_in (z : nat) xs : default z (head xs) ∈ z :: xs.
Proof. destruct xs; set_solver. Qed.

(** ** Operations on a list *)

Section Operations.
  Context (L : Links) (a : nat) (z : nat).

(** The inner nodes of a list: distinct, and other than its ends. *)
Definition inner (xs : list nat) : Prop := NoDup xs ∧ a ∉ xs ∧ z ∉ xs.

Lemma LRU_Remove_path xs e ys : path L a (xs ++ e :: ys) z → inner (xs ++ e :: ys) →
  ∃ L', LRU_Remove e L = Some L' ∧ path L' a (xs ++ ys) z ∧ same_links (λ p, p ∈ a :: z :: xs ++ ys) L L'.
Proof.
  intros Hpath (Hnd & Ha & Hz). apply path_app in Hpath as [H1 H2]. pose proof (path_last _ _ _ _ H1) as [Hpn Hpp]. pose proof (path_first _ _ _ _ H2) as [Hnn Hnp].
  pose proof (default_last_in a xs) as Hpin. pose proof (default_head_in z ys) as Hnin. pose proof (λ L', path_relast L L' a xs e) as Hre.
  remember (default a (last xs)) as p eqn:Ep. remember (default z (head ys)) as n eqn:En.
  apply NoDup_app in Hnd as (Hnx & Hxy & Hnd). apply NoDup_cons in Hnd as [He Hny]. apply not_elem_of_app in Ha as [Hax [Hae Hay]%not_elem_of_cons], Hz as [Hzx [Hze Hzy]%not_elem_of_cons].
  assert (He' : e ∉ xs) by (intros Hin; by destruct (Hxy e Hin); left). assert (Hxy' : ∀ x, x ∈ xs → x ∈ ys → False) by (intros x Hin Hin'; by destruct (Hxy x Hin); right).
  apply elem_of_cons in Hpin, Hnin. assert (n ≠ e ∧ n ∉ xs) as [Hne Hnxs] by (destruct Hnin as [->|Hin]; split; [done|done|by intros ->|intros Hx; by eapply Hxy']). assert (p ≠ e ∧ p ∉ ys) as [Hpe Hpys] by (destruct Hpin as [->|Hin]; split; [done|done|by intros ->|intros Hx; by eapply Hxy']).
  exists (set_next p n (set_prev n p L)). split; [|split].
  - unfold LRU_Remove. rewrite Hnn. cbn. rewrite Hpp. cbn. rewrite lookup_insert_ne by done. rewrite Hpp. cbn. by rewrite Hnn.
  - assert (Hx : path (set_next p n (set_prev n p L)) a xs n).
    { apply Hre; [done|by constructor|intros q Hq Hqp; cbn; by rewrite lookup_insert_ne|intros q Hq; cbn; rewrite lookup_insert_ne; [done|by intros <-]|split; apply lookup_insert_eq]. }
    destruct ys as [|y ys]; cbn in En; subst n; [by rewrite app_nil_r|]. apply path_app. split; [done|]. destruct H2 as [_ H2]. apply NoDup_cons in Hny as [Hy _]. apply not_elem_of_cons in Hzy as [Hzy _].
    eapply path_frame, H2; intros q Hq; cbn; rewrite lookup_insert_ne; try done.
    + by intros <-.
    + intros <-. by apply elem_of_cons in Hq as [|].
  - intros q Hq. rewrite !not_elem_of_cons, not_elem_of_app in Hq. destruct Hq as (Hq1 & Hq2 & Hq3 & Hq4). cbn. by rewrite !lookup_insert_ne by (intros ->; tauto).
Qed.

Lemma LRU_Append_path xs e : path L a xs z → inner xs → e ∉ a :: z :: xs →
  ∃ L', LRU_Append z e L = Some L' ∧ path L' a (xs ++ [e]) z ∧ same_links (λ p, p ∈ a :: z :: e :: xs) L L'.
Proof.
  intros Hpath (Hnd & Ha & Hz) [Hae [Hze He]%not_elem_of_cons]%not_elem_of_cons. pose proof (path_last _ _ _ _ Hpath) as [Hpn Hpp]. pose proof (default_last_in a xs) as Hpin.
  pose proof (λ L', path_relast L L' a xs z) as Hre. remember (default a (last xs)) as p eqn:Ep. apply elem_of_cons in Hpin. assert (Hpe : p ≠ e) by (intros ->; tauto).
  exists (set_prev z e (set_next p e (set_prev e p (set_next e z L)))). split; [|split].
  - unfold LRU_Append. cbn. rewrite Hpp. cbn. rewrite lookup_insert_eq. cbn. rewrite lookup_insert_ne, lookup_insert_eq by done. done.
  - apply path_app. cbn [path]. split.
    + apply Hre; [done|by constructor|intros q Hq Hqp; apply elem_of_cons in Hq; cbn; rewrite !lookup_insert_ne; try done; intros ->; tauto|intros q Hq; cbn; rewrite !lookup_insert_ne; try done; intros ->; tauto|].
      split; cbn; [apply lookup_insert_eq|]. rewrite lookup_insert_ne by done. apply lookup_insert_eq.
    + split; cbn; [|apply lookup_insert_eq]. rewrite lookup_insert_ne by done. apply lookup_insert_eq.
  - intros q Hq. rewrite !not_elem_of_cons in Hq. destruct Hq as (Hq1 & Hq2 & Hq3 & Hq4). cbn. by rewrite !lookup_insert_ne by (intros ->; tauto).
Qed.

Lemma AddToHead_path xs e : path L a xs z → inner xs → e ∉ a :: z :: xs →
  ∃ L', AddToHead a e L = Some L' ∧ path L' a (e :: xs) z ∧ same_links (λ p, p ∈ a :: z :: e :: xs) L L'.
Proof.
  intros Hpath (Hnd & Ha & Hz) [Hae [Hze He]%not_elem_of_cons]%not_elem_of_cons. pose proof (path_first _ _ _ _ Hpath) as [Hnn Hnp]. pose proof (default_head_in z xs) as Hnin.
  pose proof (λ L', path_refirst L L' a xs z) as Hre. remember (default z (head xs)) as n eqn:En. apply elem_of_cons in Hnin. assert (Hne : n ≠ e) by (intros ->; tauto).
  exists (set_next a e (set_prev n e (set_prev e a (set_next e n L)))). split; [|split].
  - unfold AddToHead. rewrite Hnn. cbn. rewrite lookup_insert_ne by done. rewrite Hnn. done.
  - cbn [path]. split; [split; cbn; [apply lookup_insert_eq|rewrite lookup_insert_ne by done; apply lookup_insert_eq]|].
    apply Hre; [done|apply NoDup_app; split_and!; [done|by intros x Hx ->%list_elem_of_singleton|apply NoDup_singleton]|intros q Hq; cbn; rewrite !lookup_insert_ne; try done; intros ->; tauto| |].
    + intros q Hq Hqn. apply elem_of_cons in Hq. cbn. rewrite !lookup_insert_ne; try done; intros ->; tauto.
    + split; cbn; [|apply lookup_insert_eq]. rewrite lookup_insert_ne by done. apply lookup_insert_eq.
  - intros q Hq. rewrite !not_elem_of_cons in Hq. destruct Hq as (Hq1 & Hq2 & Hq3 & Hq4). cbn. by rewrite !lookup_insert_ne by (intros ->; tauto).
Qed.

End Operations.
