(* ===== verification/LruCache.v ===== *)
(** * The LRU cache (src/util/cache.cc)

    A shard keeps its handles in a heap; the members of a handle that link it to
    others are maps of their own ([links] for [next] and [prev], [next_hash]), the
    addresses [lru_] and [in_use_] are the dummy heads of the two circular lists.
    [free] takes the address out of all maps, so that an access to a freed handle, a
    null pointer or a failing assertion is [None].  A call of a deleter is recorded
    in [deleted].

    src/util/table_cache_lru.cc repeats this code for open tables, without a deleter. *)

From stdpp Require Import gmap list.
From S2P Require Import Prelude Coding Bloom Links.

Section Cache.
  Context {V : Type}.

(** The entry without its links: [next_hash], [next] and [prev] are the maps of the heap
    below.  [key()] of the source asserts [next != this], which tells an entry from the
    dummy head of an empty list; the heads have no [LRUHandle] here, so that no key of
    theirs can be asked for. *)
Record LRUHandle := MkLRUHandle { value : V; charge : Z; key : bytes; in_cache : bool; refs : Z; hash : Z }.

(** ** The hash table *)

Record HandleTable := MkHandleTable { length_ : Z; elems_ : Z; list_ : list (option nat) }.

(** The pointers of type [LRUHandle**]. *)
Inductive Slot := BucketSlot (i : nat) | NextSlot (p : nat).

Definition read_slot (nh : gmap nat (option nat)) (t : HandleTable) (ptr : Slot) : option (option nat) :=
  match ptr with BucketSlot i => list_ t !! i | NextSlot p => nh !! p end.

Definition write_slot (ptr : Slot) (v : option nat) (nh : gmap nat (option nat)) (t : HandleTable) : gmap nat (option nat) * HandleTable :=
  match ptr with
  | BucketSlot i => (nh, MkHandleTable (length_ t) (elems_ t) (<[i:=v]> (list_ t)))
  | NextSlot p => (<[p:=v]> nh, t)
  end.

Definition matches (k : bytes) (hs : Z) (h : LRUHandle) : bool := (hash h =? hs) && bool_decide (k = key h).

Fixpoint find_loop (fuel : nat) (handles : gmap nat LRUHandle) (nh : gmap nat (option nat)) (t : HandleTable) (k : bytes) (hs : Z) (ptr : Slot) : option Slot :=
  match fuel with
  | O => None
  | S fuel =>
      o ← read_slot nh t ptr;
      match o with
      | None => Some ptr
      | Some p => h ← handles !! p; if matches k hs h then Some ptr else find_loop fuel handles nh t k hs (NextSlot p)
      end
  end.

Definition bucket_of (hs length : Z) : nat := Z.to_nat (Z.land hs (length - 1)).

Definition FindPointer (handles : gmap nat LRUHandle) (nh : gmap nat (option nat)) (t : HandleTable) (k : bytes) (hs : Z) : option Slot :=
  find_loop (S (base.size handles)) handles nh t k hs (BucketSlot (bucket_of hs (length_ t))).

Definition table_Lookup (handles : gmap nat LRUHandle) (nh : gmap nat (option nat)) (t : HandleTable) (k : bytes) (hs : Z) : option (option nat) :=
  ptr ← FindPointer handles nh t k hs; read_slot nh t ptr.

(** [while (new_length < elems_) new_length *= 2]. *)
Fixpoint grow (fuel : nat) (new_length elems : Z) : option Z :=
  match fuel with
  | O => None
  | S fuel => if new_length <? elems then grow fuel (u32 (new_length * 2)) elems else Some new_length
  end.

(** The nodes of one old bucket go to the front of their new ones. *)
Fixpoint move_chain (fuel : nat) (handles : gmap nat LRUHandle) (new_length : Z) (h : option nat) (nh : gmap nat (option nat)) (new_list : list (option nat)) (count : Z)
    : option (gmap nat (option nat) * list (option nat) * Z) :=
  match fuel with
  | O => None
  | S fuel =>
      match h with
      | None => Some (nh, new_list, count)
      | Some p =>
          next ← nh !! p; e ← handles !! p;
          let i := bucket_of (hash e) new_length in
          old ← new_list !! i;
          move_chain fuel handles new_length next (<[p:=old]> nh) (<[i:=Some p]> new_list) (u32 (count + 1))
      end
  end.

Fixpoint move_buckets (handles : gmap nat LRUHandle) (new_length : Z) (old_list : list (option nat)) (nh : gmap nat (option nat)) (new_list : list (option nat)) (count : Z)
    : option (gmap nat (option nat) * list (option nat) * Z) :=
  match old_list with
  | [] => Some (nh, new_list, count)
  | h :: old_list =>
      '(nh, new_list, count) ← move_chain (S (base.size handles)) handles new_length h nh new_list count;
      move_buckets handles new_length old_list nh new_list count
  end.

Definition Resize (handles : gmap nat LRUHandle) (nh : gmap nat (option nat)) (t : HandleTable) : option (gmap nat (option nat) * HandleTable) :=
  new_length ← grow 32 4 (elems_ t);
  '(nh, new_list, count) ← move_buckets handles new_length (list_ t) nh (replicate (Z.to_nat new_length) None) 0;
  if elems_ t =? count then Some (nh, MkHandleTable new_length (elems_ t) new_list) else None.

Definition NewHandleTable : option HandleTable := snd <$> Resize ∅ ∅ (MkHandleTable 0 0 []).

Definition table_Insert (handles : gmap nat LRUHandle) (h : nat) (nh : gmap nat (option nat)) (t : HandleTable) : option (option nat * gmap nat (option nat) * HandleTable) :=
  e ← handles !! h; ptr ← FindPointer handles nh t (key e) (hash e);
  old ← read_slot nh t ptr;
  behind ← match old with Some o => nh !! o | None => Some None end;
  let '(nh, t) := write_slot ptr (Some h) (<[h:=behind]> nh) t in
  match old with
  | Some _ => Some (old, nh, t)
  | None =>
      let t := MkHandleTable (length_ t) (u32 (elems_ t + 1)) (list_ t) in
      if elems_ t >? length_ t then '(nh, t) ← Resize handles nh t; Some (None, nh, t) else Some (None, nh, t)
  end.

Definition table_Remove (handles : gmap nat LRUHandle) (k : bytes) (hs : Z) (nh : gmap nat (option nat)) (t : HandleTable) : option (option nat * gmap nat (option nat) * HandleTable) :=
  ptr ← FindPointer handles nh t k hs;
  result ← read_slot nh t ptr;
  match result with
  | None => Some (None, nh, t)
  | Some p =>
      behind ← nh !! p;
      let '(nh, t) := write_slot ptr behind nh t in
      Some (result, nh, MkHandleTable (length_ t) (u32 (elems_ t - 1)) (list_ t))
  end.

(** ** A shard *)

Definition lru_ : nat := 0.
Definition in_use_ : nat := 1.

Record LRUCache := MkLRU {
  capacity_ : Z;
  usage_ : Z;
  handles : gmap nat LRUHandle;
  links : Links;
  next_hash : gmap nat (option nat);
  table_ : HandleTable;
  next_address : nat;
  deleted : list (bytes * V);
}.

Definition NewLRUCache : option LRUCache :=
  t ← NewHandleTable; Some (MkLRU 0 0 ∅ (MkLinks {[lru_ := lru_; in_use_ := in_use_]} {[lru_ := lru_; in_use_ := in_use_]}) ∅ t 2 []).

Definition SetCapacity (capacity : Z) (s : LRUCache) : LRUCache :=
  MkLRU capacity (usage_ s) (handles s) (links s) (next_hash s) (table_ s) (next_address s) (deleted s).

Definition TotalCharge (s : LRUCache) : Z := usage_ s.

Definition with_links (s : LRUCache) (l : Links) : LRUCache :=
  MkLRU (capacity_ s) (usage_ s) (handles s) l (next_hash s) (table_ s) (next_address s) (deleted s).
Definition with_table (s : LRUCache) (nh : gmap nat (option nat)) (t : HandleTable) : LRUCache :=
  MkLRU (capacity_ s) (usage_ s) (handles s) (links s) nh t (next_address s) (deleted s).
Definition with_handle (s : LRUCache) (e : nat) (h : LRUHandle) : LRUCache :=
  MkLRU (capacity_ s) (usage_ s) (<[e:=h]> (handles s)) (links s) (next_hash s) (table_ s) (next_address s) (deleted s).
Definition with_usage (s : LRUCache) (u : Z) : LRUCache :=
  MkLRU (capacity_ s) u (handles s) (links s) (next_hash s) (table_ s) (next_address s) (deleted s).

Definition with_refs (h : LRUHandle) (n : Z) : LRUHandle := MkLRUHandle (value h) (charge h) (key h) (in_cache h) n (hash h).
Definition out_of_cache (h : LRUHandle) : LRUHandle := MkLRUHandle (value h) (charge h) (key h) false (refs h) (hash h).

(** The deleter runs and the memory is given back. *)
Definition free_handle (e : nat) (h : LRUHandle) (s : LRUCache) : LRUCache :=
  MkLRU (capacity_ s) (usage_ s) (delete e (handles s)) (MkLinks (delete e (next_ (links s))) (delete e (prev_ (links s)))) (delete e (next_hash s)) (table_ s) (next_address s)
    (deleted s ++ [(key h, value h)]).

(** [LRU_Remove(e); LRU_Append(list, e)]. *)
Definition move_to (list e : nat) (s : LRUCache) : option LRUCache :=
  l ← LRU_Remove e (links s); l ← LRU_Append list e l; Some (with_links s l).

Definition Ref (e : nat) (s : LRUCache) : option LRUCache :=
  h ← handles s !! e;
  s ← (if (refs h =? 1) && in_cache h then move_to in_use_ e s else Some s);
  Some (with_handle s e (with_refs h (u32 (refs h + 1)))).

Definition Unref (e : nat) (s : LRUCache) : option LRUCache :=
  h ← handles s !! e;
  if refs h >? 0 then
    let h := with_refs h (refs h - 1) in
    let s := with_handle s e h in
    if refs h =? 0 then if in_cache h then None else Some (free_handle e h s)
    else if in_cache h && (refs h =? 1) then move_to lru_ e s
    else Some s
  else None.

(** The handle, which is null when the key is not in the cache. *)
Definition Lookup (k : bytes) (hs : Z) (s : LRUCache) : option (option nat * LRUCache) :=
  o ← table_Lookup (handles s) (next_hash s) (table_ s) k hs;
  match o with
  | Some e => s ← Ref e s; Some (Some e, s)
  | None => Some (None, s)
  end.

Definition Release (handle : nat) (s : LRUCache) : option LRUCache := Unref handle s.

Definition FinishErase (o : option nat) (s : LRUCache) : option (bool * LRUCache) :=
  match o with
  | None => Some (false, s)
  | Some e =>
      h ← handles s !! e;
      if in_cache h then
        l ← LRU_Remove e (links s);
        s ← Unref e (with_usage (with_handle (with_links s l) e (out_of_cache h)) (u64 (usage_ s - charge h)));
        Some (true, s)
      else None
  end.

Definition Erase (k : bytes) (hs : Z) (s : LRUCache) : option (bool * LRUCache) :=
  '(o, nh, t) ← table_Remove (handles s) k hs (next_hash s) (table_ s);
  FinishErase o (with_table s nh t).

(** The oldest handle that no client uses goes. *)
Definition evict_oldest (old : nat) (s : LRUCache) : option LRUCache :=
  h ← handles s !! old;
  if refs h =? 1 then
    '(erased, s) ← Erase (key h) (hash h) s;
    if (erased : bool) then Some s else None
  else None.

Fixpoint evict_loop (fuel : nat) (s : LRUCache) : option LRUCache :=
  match fuel with
  | O => None
  | S fuel =>
      old ← next_ (links s) !! lru_;
      if (usage_ s >? capacity_ s) && negb (old =? lru_)%nat then s ← evict_oldest old s; evict_loop fuel s else Some s
  end.

(** [Insert] up to its loop. *)
Definition add_handle (k : bytes) (hs : Z) (v : V) (ch : Z) (s : LRUCache) : option LRUCache :=
  let e := next_address s in
  let s := MkLRU (capacity_ s) (usage_ s) (handles s) (links s) (next_hash s) (table_ s) (S e) (deleted s) in
  if capacity_ s >? 0 then
    let s := with_handle s e (MkLRUHandle v ch k true 2 hs) in
    l ← LRU_Append in_use_ e (links s);
    let s := with_usage (with_links s l) (u64 (usage_ s + ch)) in
    '(old, nh, t) ← table_Insert (handles s) e (next_hash s) (table_ s);
    '(_, s) ← FinishErase old (with_table s nh t);
    Some s
  else Some (with_handle s e (MkLRUHandle v ch k false 1 hs)).

Definition Insert (k : bytes) (hs : Z) (v : V) (ch : Z) (s : LRUCache) : option (nat * LRUCache) :=
  let e := next_address s in
  s ← add_handle k hs v ch s;
  s ← evict_loop (S (base.size (handles s))) s;
  Some (e, s).

Fixpoint prune_loop (fuel : nat) (s : LRUCache) : option LRUCache :=
  match fuel with
  | O => None
  | S fuel =>
      e ← next_ (links s) !! lru_;
      if negb (e =? lru_)%nat then s ← evict_oldest e s; prune_loop fuel s else Some s
  end.

Definition Prune (s : LRUCache) : option LRUCache := prune_loop (S (base.size (handles s))) s.

(** The destructor of a shard; the assertions are the client's duties. *)
Fixpoint destroy_loop (fuel : nat) (e : nat) (s : LRUCache) : option LRUCache :=
  match fuel with
  | O => None
  | S fuel =>
      if (e =? lru_)%nat then Some s
      else
        next ← next_ (links s) !! e; h ← handles s !! e;
        if in_cache h && (refs h =? 1) then s ← Unref e (with_handle s e (out_of_cache h)); destroy_loop fuel next s else None
  end.

Definition DestroyLRUCache (s : LRUCache) : option LRUCache :=
  used ← next_ (links s) !! in_use_;
  if (used =? in_use_)%nat then e ← next_ (links s) !! lru_; destroy_loop (S (base.size (handles s))) e s else None.

End Cache.

Arguments LRUHandle : clear implicits.
Arguments LRUCache : clear implicits.
