(* ===== verification/LruTable.v ===== *)
(** * The hash table of the LRU cache

    A table represents buckets, the lists of its chains: every operation of
    [HandleTable] in terms of the handles it holds. *)

From stdpp Require Import gmap list.
From S2P Require Import Prelude Links LruCache.

Section Chains.

Fixpoint chain (nh : gmap nat (option nat)) (o : option nat) (l : list nat) : Prop :=
  match l with
  | [] => o = None
  | p :: l => o = Some p ∧ ∃ q, nh !! p = Some q ∧ chain nh q l
  end.

Lemma chain_head nh o l : chain nh o l → o = head l.
Proof. destruct l; [done|]. by intros [-> _]. Qed.

Lemma chain_frame nh nh' o l : (∀ p, p ∈ l → nh' !! p = nh !! p) → chain nh o l → chain nh' o l.
Proof.
  revert o. induction l as [|p l IH]; intros o Hs; cbn; [done|]. intros [-> (q & Hq & Hc)]. split; [done|]. exists q. rewrite Hs by set_solver. split; [done|].
  apply IH; [|done]. intros p' Hp'. apply Hs. set_solver.
Qed.

Lemma chain_insert nh h v o l : h ∉ l → chain nh o l → chain (<[h:=v]> nh) o l.
Proof. intros Hh. apply chain_frame. intros p Hp. apply lookup_insert_ne. by intros ->. Qed.

(** Where a chain goes on behind [l1]. *)
Lemma chain_suffix nh o l1 l2 : chain nh o (l1 ++ l2) → ∃ q, chain nh q l2 ∧ match last l1 with Some p => nh !! p = Some q | None => o = q end.
Proof.
  revert o. induction l1 as [|p l1 IH]; intros o; [by exists o|]. cbn [app chain]. intros [-> (q & Hq & Hc)]. destruct (IH q Hc) as (q' & Hc' & Hl). exists q'. split; [done|].
  rewrite last_cons. destruct (last l1) as [x|] eqn:E; [done|]. congruence.
Qed.

Lemma chain_redirect nh o l1 l2 v l' : chain nh o (l1 ++ l2) → NoDup l1 → (∀ p, p ∈ l1 → p ∉ l') → chain nh v l' →
  match last l1 with Some p => chain (<[p:=v]> nh) o (l1 ++ l') | None => chain nh v (l1 ++ l') end.
Proof.
  revert o. induction l1 as [|p l1 IH]; intros o; [done|]. cbn [app chain]. intros [-> (q & Hq & Hc)] [Hp Hnd]%NoDup_cons Hd Hv. specialize (IH q Hc Hnd (λ x Hx, Hd x (list_elem_of_further _ _ _ Hx)) Hv).
  rewrite last_cons. destruct (last l1) as [x|] eqn:E.
  - split; [done|]. exists q. split; [|exact IH]. rewrite lookup_insert_ne; [done|]. intros ->. by apply last_Some_elem_of in E.
  - apply last_None in E as ->. split; [done|]. exists v. rewrite lookup_insert_eq. split; [done|]. apply chain_insert; [apply Hd; set_solver|done].
Qed.

End Chains.

(** ** Lists of lists *)

Lemma concat_perm {A} (bs : list (list A)) i l l' : bs !! i = Some l → ∃ rest, concat bs ≡ₚ l ++ rest ∧ concat (<[i:=l']> bs) ≡ₚ l' ++ rest ∧
  (∀ j lj, j ≠ i → bs !! j = Some lj → ∀ x, x ∈ lj → x ∈ rest).
Proof.
  intros Hi. pose proof (lookup_lt_Some _ _ _ Hi) as Hlt. exists (concat (take i bs ++ drop (S i) bs)).
  split; [|split].
  - rewrite <-(take_drop_middle bs i l Hi) at 1. rewrite !concat_app. cbn. rewrite !(assoc_L (++)). by rewrite (Permutation_app_comm (concat (take i bs)) l).
  - rewrite insert_take_drop by done. rewrite !concat_app. cbn. rewrite !(assoc_L (++)). by rewrite (Permutation_app_comm (concat (take i bs)) l').
  - intros j lj Hj Hlj x Hx. apply list_elem_of_In, in_concat. exists lj. split; [|by apply list_elem_of_In]. apply list_elem_of_In.
    rewrite <-delete_take_drop. apply list_elem_of_lookup. destruct (decide (j < i)%nat).
    + exists j. by rewrite list_lookup_delete_lt.
    + exists (pred j). rewrite list_lookup_delete_ge by lia. replace (S (pred j)) with j by lia. done.
Qed.

Lemma bucket_elem {A} (bs : list (list A)) x : x ∈ concat bs ↔ ∃ i l, bs !! i = Some l ∧ x ∈ l.
Proof.
  rewrite list_elem_of_In, in_concat. split.
  - intros (l & Hl & Hx). rewrite <-!list_elem_of_In in *. apply list_elem_of_lookup in Hl as (i & Hi). eauto.
  - intros (i & l & Hi & Hx). exists l. rewrite <-!list_elem_of_In. split; [by eapply list_elem_of_lookup_2|done].
Qed.

Section Table.
  Context {V : Type} (hs : gmap nat (LRUHandle V)).

(** The chains of the buckets, and where a handle belongs. *)
Record buckets_ok (len : Z) (nh : gmap nat (option nat)) (heads : list (option nat)) (bs : list (list nat)) : Prop := {
  bo_chains : Forall2 (chain nh) heads bs;
  bo_len : size heads = len;
  bo_power : ∃ k, 0 <= k ∧ len = 2 ^ k;
  bo_nodup : NoDup (concat bs);
  bo_place : ∀ i l p, bs !! i = Some l → p ∈ l → ∃ h, hs !! p = Some h ∧ bucket_of (hash h) len = i;
}.

Definition distinct_keys (D : list nat) : Prop :=
  ∀ p q hp hq, p ∈ D → q ∈ D → hs !! p = Some hp → hs !! q = Some hq → key hp = key hq → hash hp = hash hq → p = q.

Record table_ok (nh : gmap nat (option nat)) (t : HandleTable) (bs : list (list nat)) : Prop := {
  to_buckets : buckets_ok (length_ t) nh (list_ t) bs;
  to_elems : elems_ t = size (concat bs);
  to_load : elems_ t <= length_ t;
  to_max : elems_ t <= 2 ^ 31;
  to_keys : distinct_keys (concat bs);
}.

Lemma bucket_lt len h : (∃ k, 0 <= k ∧ len = 2 ^ k) → (bucket_of h len < Z.to_nat len)%nat.
Proof.
  intros (k & Hk & ->). unfold bucket_of. replace (2 ^ k - 1) with (Z.ones k) by (rewrite Z.ones_equiv; lia). rewrite Z.land_ones by done.
  pose proof (Z.mod_pos_bound h (2 ^ k) ltac:(apply Z.pow_pos_nonneg; lia)). lia.
Qed.

Section Buckets.
  Context {len : Z} {nh : gmap nat (option nat)} {heads : list (option nat)} {bs : list (list nat)} (B : buckets_ok len nh heads bs).

Lemma bucket_is i : (i < Z.to_nat len)%nat → ∃ o l, heads !! i = Some o ∧ bs !! i = Some l ∧ chain nh o l.
Proof.
  intros Hi. destruct (lookup_lt_is_Some_2 heads i) as [o Ho]; [pose proof (bo_len _ _ _ _ B); unfold size in *; lia|].
  destruct (Forall2_lookup_l _ _ _ _ _ (bo_chains _ _ _ _ B) Ho) as (l & Hl & Hc). eauto.
Qed.

Lemma in_bucket p : p ∈ concat bs → ∃ h l, hs !! p = Some h ∧ bs !! bucket_of (hash h) len = Some l ∧ p ∈ l.
Proof. intros (i & l & Hi & Hp)%bucket_elem. destruct (bo_place _ _ _ _ B _ _ _ Hi Hp) as (h & Hh & <-). eauto. Qed.

Lemma in_heap p : p ∈ concat bs → is_Some (hs !! p).
Proof. intros (h & l & Hh & _)%in_bucket. by exists h. Qed.

Lemma bucket_apart i j li lj p : bs !! i = Some li → bs !! j = Some lj → p ∈ li → p ∈ lj → i = j.
Proof. intros Hi Hj Hp Hq. destruct (bo_place _ _ _ _ B _ _ _ Hi Hp) as (h & Hh & <-). destruct (bo_place _ _ _ _ B _ _ _ Hj Hq) as (h' & Hh' & <-). congruence. Qed.

(** Another chain of handles that belong there takes the place of bucket [i]. *)
Lemma buckets_replace i l o' l' nh' heads' : bs !! i = Some l → heads' = <[i:=o']> heads → (∀ j lj p, j ≠ i → bs !! j = Some lj → p ∈ lj → nh' !! p = nh !! p) → chain nh' o' l' →
  NoDup (concat (<[i:=l']> bs)) → (∀ p, p ∈ l' → ∃ h, hs !! p = Some h ∧ bucket_of (hash h) len = i) → buckets_ok len nh' heads' (<[i:=l']> bs).
Proof.
  intros Hi -> Hs Hc Hnd Hp. destruct B as [B1 B2 B3 B4 B5]. pose proof (lookup_lt_Some _ _ _ Hi) as Hlt. split; try done.
  - apply Forall2_same_length_lookup in B1 as [Hlen Hch]. apply Forall2_same_length_lookup. split; [by rewrite !length_insert|]. intros j o lj Ho Hl.
    destruct (decide (i = j)) as [<-|Hij].
    + rewrite list_lookup_insert_eq in Ho by lia. rewrite list_lookup_insert_eq in Hl by lia. congruence.
    + rewrite list_lookup_insert_ne in Ho by done. rewrite list_lookup_insert_ne in Hl by done. eapply chain_frame; [|by eapply Hch]. intros p Hin. by eapply (Hs j).
  - unfold size in *. by rewrite length_insert.
  - intros j lj p Hj Hin. destruct (decide (i = j)) as [<-|Hij].
    + rewrite list_lookup_insert_eq in Hj by done. injection Hj as <-. by apply Hp.
    + rewrite list_lookup_insert_ne in Hj by done. by eapply B5.
Qed.

End Buckets.

(** ** Searching *)

Definition slot_after (i : nat) (l : list nat) : Slot := match last l with Some p => NextSlot p | None => BucketSlot i end.

Definition mismatch (k : bytes) (hv : Z) (p : nat) : Prop := ∀ h, hs !! p = Some h → matches k hv h = false.
Definition match_at (k : bytes) (hv : Z) (p : nat) : Prop := ∃ h, hs !! p = Some h ∧ matches k hv h = true.

Lemma nodup_size (l : list nat) : NoDup l → (∀ p, p ∈ l → is_Some (hs !! p)) → (length l <= base.size hs)%nat.
Proof.
  intros Hnd Hin. rewrite <-(size_dom (D := gset nat)), <-(size_list_to_set (C := gset nat) l) by done. apply subseteq_size. intros p Hp%elem_of_list_to_set. by apply elem_of_dom, Hin.
Qed.

Lemma matches_true k hv (h : LRUHandle V) : matches k hv h = true ↔ key h = k ∧ hash h = hv.
Proof. unfold matches. rewrite andb_true_iff, Z.eqb_eq, bool_decide_eq_true. naive_solver. Qed.

Lemma find_loop_spec nh t k hv i o : list_ t !! i = Some o → ∀ l2 l1 fuel, chain nh o (l1 ++ l2) → (∀ p, p ∈ l1 ++ l2 → is_Some (hs !! p)) → (length l2 < fuel)%nat → Forall (mismatch k hv) l1 →
  ∃ m1 m2, l1 ++ l2 = m1 ++ m2 ∧ Forall (mismatch k hv) m1 ∧ (∀ p, head m2 = Some p → match_at k hv p) ∧
    find_loop fuel hs nh t k hv (slot_after i l1) = Some (slot_after i m1) ∧ read_slot nh t (slot_after i m1) = Some (head m2).
Proof.
  intros Ho. induction l2 as [|p l2 IH]; intros l1 fuel Hc Hin Hf Hm; (destruct fuel as [|fuel]; [cbn in Hf; lia|]).
  all: assert (Hr : ∀ m, chain nh o (l1 ++ m) → read_slot nh t (slot_after i l1) = Some (head m)) by
    (intros m (q & Hq & Hl)%chain_suffix; apply chain_head in Hq as ->; unfold slot_after; destruct (last l1); cbn; congruence).
  all: specialize (Hr _ Hc); cbn [head] in Hr; cbn [find_loop]; rewrite Hr; cbn [mbind option_bind].
  - by exists l1, [].
  - destruct (Hin p ltac:(set_solver)) as [h Hh]. rewrite Hh. cbn [mbind option_bind]. destruct (matches k hv h) eqn:E.
    + exists l1, (p :: l2). split_and!; try done. cbn. intros p' [= <-]. by exists h.
    + destruct (IH (l1 ++ [p]) fuel) as (m1 & m2 & E' & ?); [by rewrite <-(assoc_L (++))|by rewrite <-(assoc_L (++))|cbn in Hf; lia| |].
      { apply Forall_app. split; [done|]. constructor; [|constructor]. intros h'. rewrite Hh. by intros [= <-]. }
      exists m1, m2. rewrite <-(assoc_L (++)) in E'. split; [done|]. unfold slot_after at 1 in H. rewrite last_snoc in H. done.
Qed.

Section Find.
  Context {nh : gmap nat (option nat)} {t : HandleTable} {bs : list (list nat)} (B : buckets_ok (length_ t) nh (list_ t) bs).

Lemma FindPointer_spec k hv : ∃ m1 m2, let i := bucket_of hv (length_ t) in
  bs !! i = Some (m1 ++ m2) ∧ Forall (mismatch k hv) m1 ∧ (∀ p, head m2 = Some p → match_at k hv p) ∧
  FindPointer hs nh t k hv = Some (slot_after i m1) ∧ read_slot nh t (slot_after i m1) = Some (head m2).
Proof.
  destruct (bucket_is B (bucket_of hv (length_ t))) as (o & l & Ho & Hl & Hc); [apply bucket_lt, (bo_power _ _ _ _ B)|].
  assert (Hin : ∀ p, p ∈ l → is_Some (hs !! p)) by (intros p Hp; apply (in_heap B), bucket_elem; eauto).
  assert (Hnd : NoDup l) by (destruct (concat_perm bs _ l l Hl) as (r & Hp & _); pose proof (bo_nodup _ _ _ _ B) as Hn; rewrite Hp in Hn; by apply NoDup_app in Hn as [? _]).
  destruct (find_loop_spec nh t k hv _ o Ho l [] (S (base.size hs)) Hc Hin) as (m1 & m2 & E & ?); [pose proof (nodup_size l Hnd Hin); lia|constructor|].
  cbn in E. subst l. by exists m1, m2.
Qed.

(** When the bucket holds no match, no handle of the table is one. *)
Lemma bucket_mismatch k hv l p : bs !! bucket_of hv (length_ t) = Some l → Forall (mismatch k hv) l → p ∈ concat bs → mismatch k hv p.
Proof.
  intros Hl Hm (h & l' & Hh & Hl' & Hp)%(in_bucket B). intros h' Hh'. rewrite Hh in Hh'. injection Hh' as <-. destruct (matches k hv h) eqn:E; [|done].
  pose proof E as [_ <-]%matches_true. rewrite Hl in Hl'. injection Hl' as <-. rewrite Forall_forall in Hm. by rewrite (Hm p Hp h Hh) in E.
Qed.

Lemma table_Lookup_spec k hv : ∃ o, table_Lookup hs nh t k hv = Some o ∧
  match o with Some p => p ∈ concat bs ∧ match_at k hv p | None => ∀ p, p ∈ concat bs → mismatch k hv p end.
Proof.
  destruct (FindPointer_spec k hv) as (m1 & m2 & Hb & Hm & Hh & E & Er). exists (head m2). unfold table_Lookup. rewrite E. cbn. rewrite Er. split; [done|].
  destruct m2 as [|p m2]; cbn in *.
  - rewrite app_nil_r in Hb. intros p Hp. by eapply bucket_mismatch.
  - split; [|by apply Hh]. apply bucket_elem. eexists _, _. split; [done|]. set_solver.
Qed.

Lemma write_slot_spec i m1 m2 v l' nh1 : bs !! i = Some (m1 ++ m2) → (∀ p, p ∈ concat bs → nh1 !! p = nh !! p) → chain nh1 v l' → NoDup (concat (<[i:=m1 ++ l']> bs)) →
  (∀ p, p ∈ l' → ∃ h, hs !! p = Some h ∧ bucket_of (hash h) (length_ t) = i) → ∃ nh' heads',
  write_slot (slot_after i m1) v nh1 t = (nh', MkHandleTable (length_ t) (elems_ t) heads') ∧ buckets_ok (length_ t) nh' heads' (<[i:=m1 ++ l']> bs).
Proof.
  intros Hb Hs Hc Hnd Hp. destruct (concat_perm bs i _ (m1 ++ l') Hb) as (rest & Ep & Ep' & Hrest). pose proof Hnd as Hnd'. rewrite Ep', <-(assoc_L (++)) in Hnd'.
  apply NoDup_app in Hnd' as (Hn1 & Hd & _).
  assert (Hpl : ∀ p, p ∈ m1 ++ l' → ∃ h, hs !! p = Some h ∧ bucket_of (hash h) (length_ t) = i).
  { intros p [Hin|Hin]%elem_of_app; [|by apply Hp]. eapply (bo_place _ _ _ _ B); [done|]. set_solver. }
  destruct (Forall2_lookup_r _ _ _ _ _ (bo_chains _ _ _ _ B) Hb) as (o & Ho & Hco).
  apply (chain_frame nh nh1) in Hco; [|intros p Hin; apply Hs; rewrite Ep; set_solver].
  pose proof (chain_redirect nh1 o m1 m2 v l' Hco Hn1 ltac:(set_solver) Hc) as Hr. unfold slot_after. destruct (last m1) as [p|] eqn:El; cbn.
  - exists (<[p:=v]> nh1), (list_ t). destruct t as [tl te th]. cbn in *. split; [done|]. eapply (buckets_replace B); [done| | |exact Hr|done|done].
    + by rewrite list_insert_id.
    + intros j lj q Hj Hlj Hq. rewrite lookup_insert_ne; [apply Hs; rewrite Ep; set_solver|]. intros ->. apply last_Some_elem_of in El. apply Hj. eapply (bucket_apart B); [exact Hlj|exact Hb|done|set_solver].
  - exists nh1, (<[i:=v]> (list_ t)). split; [done|]. apply last_None in El as ->. eapply (buckets_replace B); [done|done| |exact Hr|done|done].
    intros j lj q Hj Hlj Hq. apply Hs. rewrite Ep. set_solver.
Qed.

End Find.

(** ** Resizing *)

Lemma grow_spec elems : elems <= 2 ^ 31 → ∀ fuel k, 0 <= k <= 31 → 31 - k < Z.of_nat fuel → ∃ k', k <= k' <= 31 ∧ grow fuel (2 ^ k) elems = Some (2 ^ k') ∧ elems <= 2 ^ k'.
Proof.
  intros He. induction fuel as [|fuel IH]; intros k Hk Hf; [lia|]. cbn [grow]. destruct (Z.ltb_spec (2 ^ k) elems).
  - assert (k < 31) by (destruct (decide (k = 31)) as [->|]; lia). assert (0 < 2 ^ k) by (apply Z.pow_pos_nonneg; lia). assert (2 ^ (k + 1) <= 2 ^ 31) by (apply Z.pow_le_mono_r; lia).
    replace (u32 (2 ^ k * 2)) with (2 ^ (k + 1)) by (rewrite Z.pow_add_r in * by lia; unfold u32; rewrite Z.mod_small; lia).
    destruct (IH (k + 1)) as (k' & ? & ? & ?); [lia|lia|]. exists k'. split; [lia|done].
  - exists k. split; [lia|done].
Qed.

Section Resize.
  Context {len : Z} (Hlen : ∃ k, 0 <= k ∧ len = 2 ^ k).

Lemma move_chain_spec l : ∀ fuel o nh heads bs count, chain nh o l → (length l < fuel)%nat → buckets_ok len nh heads bs → NoDup (l ++ concat bs) → (∀ p, p ∈ l → is_Some (hs !! p)) →
  0 <= count → count + size l < 2 ^ 32 → ∃ nh' heads' bs', move_chain fuel hs len o nh heads count = Some (nh', heads', count + size l) ∧
    buckets_ok len nh' heads' bs' ∧ concat bs' ≡ₚ l ++ concat bs ∧ (∀ p, p ∉ l → nh' !! p = nh !! p).
Proof.
  induction l as [|p l IH]; intros fuel o nh heads bs count Hc Hf B Hnd Hin Hcount Hmax; (destruct fuel as [|fuel]; [cbn in Hf; lia|]); cbn [move_chain].
  - cbn in Hc. subst o. exists nh, heads, bs. rewrite size_nil, Z.add_0_r. done.
  - destruct Hc as [-> (q & Hq & Hc)]. destruct (Hin p ltac:(set_solver)) as [e He]. rewrite Hq. cbn [mbind option_bind]. rewrite He. cbn [mbind option_bind].
    destruct (bucket_is B (bucket_of (hash e) len)) as (old & li & Hold & Hli & Hci); [by apply bucket_lt|]. rewrite Hold. cbn [mbind option_bind].
    destruct (concat_perm bs _ li (p :: li) Hli) as (rest & Ep & Ep' & _). cbn [app] in Hnd. apply NoDup_cons in Hnd as [Hp Hnd]. apply not_elem_of_app in Hp as [Hpl Hpb].
    assert (Hpli : p ∉ li) by (intros Hx; apply Hpb, bucket_elem; eauto).
    assert (Hnd' : NoDup (l ++ concat (<[bucket_of (hash e) len:=p :: li]> bs))).
    { rewrite Ep', <-app_comm_cons, <-Permutation_middle, <-Ep. constructor; [|done]. by apply not_elem_of_app. }
    rewrite size_cons in *. pose proof (size_nonneg l). rewrite (u32_small (count + 1)) by (unfold is_u32; lia).
    destruct (IH fuel q (<[p:=old]> nh) (<[bucket_of (hash e) len:=Some p]> heads) (<[bucket_of (hash e) len:=p :: li]> bs) (count + 1)) as (nh' & heads' & bs' & E & B' & Hperm & Hs).
    + by apply chain_insert.
    + cbn in Hf. lia.
    + eapply (buckets_replace B); [done|done| | |by apply NoDup_app in Hnd' as (_ & _ & ?)|].
      * intros j lj x Hj Hlj Hx. apply lookup_insert_ne. intros ->. apply Hpb, bucket_elem. eauto.
      * cbn. split; [done|]. exists old. rewrite lookup_insert_eq. split; [done|]. by apply chain_insert.
      * intros x [->|Hx]%elem_of_cons; [by exists e|]. by eapply (bo_place _ _ _ _ B).
    + done.
    + intros x Hx. apply Hin. set_solver.
    + lia.
    + lia.
    + exists nh', heads', bs'. rewrite E, Z.add_assoc. split_and!; [done|done| |].
      * rewrite Hperm, Ep', Ep. symmetry. apply Permutation_middle.
      * intros x Hx. rewrite Hs by set_solver. apply lookup_insert_ne. set_solver.
Qed.

Lemma move_buckets_spec obs : ∀ old nh heads bs count, Forall2 (chain nh) old obs → buckets_ok len nh heads bs → NoDup (concat obs ++ concat bs) → (∀ p, p ∈ concat obs → is_Some (hs !! p)) →
  0 <= count → count + size (concat obs) < 2 ^ 32 → ∃ nh' heads' bs', move_buckets hs len old nh heads count = Some (nh', heads', count + size (concat obs)) ∧
    buckets_ok len nh' heads' bs' ∧ concat bs' ≡ₚ concat obs ++ concat bs.
Proof.
  induction obs as [|l obs IH]; intros old nh heads bs count Hold B Hnd Hin Hc Hmax.
  - apply Forall2_nil_inv_r in Hold as ->. exists nh, heads, bs. cbn. by rewrite size_nil, Z.add_0_r.
  - apply Forall2_cons_inv_r in Hold as (o & old' & Hcl & Hold & ->). cbn [move_buckets]. cbn [concat] in *. rewrite size_app in *. pose proof (size_nonneg (concat obs)). pose proof (size_nonneg l).
    assert (Hnd1 : NoDup (l ++ concat bs)) by (rewrite <-(assoc_L (++)) in Hnd; apply NoDup_app in Hnd as (? & Hd & (? & Hd' & ?)%NoDup_app); apply NoDup_app; set_solver).
    pose proof Hnd as (Hnl & Hd & Hnr)%NoDup_app. pose proof Hnl as (Hl1 & Hd1 & _)%NoDup_app.
    destruct (move_chain_spec l (S (base.size hs)) o nh heads bs count Hcl) as (nh1 & heads1 & bs1 & E & B1 & Hp1 & Hs1); [|done|done|set_solver|lia|lia|].
    { pose proof (nodup_size l Hl1 ltac:(set_solver)). lia. }
    rewrite E. cbn [mbind option_bind]. destruct (IH old' nh1 heads1 bs1 (count + size l)) as (nh' & heads' & bs' & E' & B' & Hp').
    + apply Forall2_same_length_lookup in Hold as [Hl2 Hold]. apply Forall2_same_length_lookup. split; [done|]. intros i x y Hx Hy. eapply chain_frame; [|by eapply Hold]. intros p Hp. apply Hs1. intros Hl. apply (Hd1 p Hl), bucket_elem. eauto.
    + done.
    + assert (concat obs ++ concat bs1 ≡ₚ (l ++ concat obs) ++ concat bs) as -> by (rewrite Hp1, (assoc_L (++)); apply Permutation_app_tail, Permutation_app_comm). done.
    + set_solver.
    + lia.
    + lia.
    + exists nh', heads', bs'. rewrite E', Z.add_assoc. split_and!; [done|done|]. rewrite Hp', Hp1, (assoc_L (++)). apply Permutation_app_tail, Permutation_app_comm.
Qed.

End Resize.

Lemma empty_buckets nh k : 0 <= k → buckets_ok (2 ^ k) nh (replicate (Z.to_nat (2 ^ k)) None) (replicate (Z.to_nat (2 ^ k)) []).
Proof.
  intros Hk. assert (0 < 2 ^ k) by (apply Z.pow_pos_nonneg; lia). assert (concat (replicate (Z.to_nat (2 ^ k)) ([] : list nat)) = []) as E by (induction (Z.to_nat (2 ^ k)); done).
  split.
  - apply Forall2_replicate. done.
  - unfold size. rewrite length_replicate. lia.
  - by exists k.
  - rewrite E. constructor.
  - intros i l p [-> _]%lookup_replicate. by intros ?%not_elem_of_nil.
Qed.

Lemma concat_replicate_nil {A} n : concat (replicate n ([] : list A)) = [].
Proof. by induction n. Qed.

Lemma Resize_spec nh t bs : Forall2 (chain nh) (list_ t) bs → NoDup (concat bs) → (∀ p, p ∈ concat bs → is_Some (hs !! p)) → elems_ t = size (concat bs) → elems_ t <= 2 ^ 31 →
  ∃ nh' t' bs', Resize hs nh t = Some (nh', t') ∧ buckets_ok (length_ t') nh' (list_ t') bs' ∧ concat bs' ≡ₚ concat bs ∧ elems_ t' = elems_ t ∧ elems_ t' <= length_ t'.
Proof.
  intros Hc Hnd Hin He Hmax. destruct (grow_spec (elems_ t) Hmax 32 2) as (k & Hk & Eg & Hle); [lia|lia|]. change (2 ^ 2) with 4 in Eg.
  assert (Hpow : ∃ j, 0 <= j ∧ 2 ^ k = 2 ^ j) by (exists k; split; [lia|done]).
  destruct (move_buckets_spec (len := 2 ^ k) Hpow bs (list_ t) nh _ _ 0 Hc (empty_buckets nh k ltac:(lia))) as (nh' & heads' & bs' & E & B & Hp).
  - by rewrite concat_replicate_nil, app_nil_r.
  - done.
  - lia.
  - lia.
  - rewrite concat_replicate_nil, app_nil_r in Hp. exists nh', (MkHandleTable (2 ^ k) (elems_ t) heads'), bs'. unfold Resize. rewrite Eg. cbn [mbind option_bind]. rewrite E. cbn [mbind option_bind].
    rewrite He at 1. rewrite Z.add_0_l, Z.eqb_refl. done.
Qed.

(** ** Insertion and removal *)

Section Update.
  Context {nh : gmap nat (option nat)} {t : HandleTable} {bs : list (list nat)} (T : table_ok nh t bs).

(** A table with the handles [ps], which are among the ones with distinct keys. *)
Lemma table_ok_of nh' t' bs' (D : list nat) : buckets_ok (length_ t') nh' (list_ t') bs' → elems_ t' = size (concat bs') → elems_ t' <= length_ t' → elems_ t' <= 2 ^ 31 →
  (∀ p, p ∈ concat bs' → p ∈ D) → distinct_keys D → table_ok nh' t' bs'.
Proof. intros B E Hl Hm Hin Hk. split; try done. intros p q hp hq Hp Hq. apply Hk; auto. Qed.

Lemma distinct_add e h D : hs !! e = Some h → distinct_keys D → (∀ p, p ∈ D → mismatch (key h) (hash h) p) → distinct_keys (e :: D).
Proof.
  intros Hh HD Hm. assert (Hno : ∀ p hp, p ∈ D → hs !! p = Some hp → key hp = key h → hash hp = hash h → False).
  { intros p hp Hp Hhp Ek Ev. pose proof (Hm p Hp hp Hhp) as Hf. by rewrite (proj2 (matches_true (key h) (hash h) hp)) in Hf. }
  intros p q hp hq [->|Hp]%elem_of_cons [->|Hq]%elem_of_cons Hhp Hhq Ek Ev; [done|..].
  - rewrite Hh in Hhp. injection Hhp as <-. by destruct (Hno q hq).
  - rewrite Hh in Hhq. injection Hhq as <-. by destruct (Hno p hp).
  - by apply (HD p q hp hq).
Qed.

Lemma chain_of i l : bs !! i = Some l → ∃ o, chain nh o l.
Proof. intros Hl. destruct (Forall2_lookup_r _ _ _ _ _ (bo_chains _ _ _ _ (to_buckets _ _ _ T)) Hl) as (o & _ & Hc). eauto. Qed.

Lemma table_Remove_spec k hv : ∃ o nh' t' bs', table_Remove hs k hv nh t = Some (o, nh', t') ∧ table_ok nh' t' bs' ∧
  match o with Some p => match_at k hv p ∧ concat bs ≡ₚ p :: concat bs' | None => (∀ p, p ∈ concat bs → mismatch k hv p) ∧ bs' = bs end.
Proof.
  pose proof (to_buckets _ _ _ T) as B. destruct (FindPointer_spec B k hv) as (m1 & m2 & Hb & Hm & Hh & E & Er). unfold table_Remove. rewrite E. cbn [mbind option_bind]. rewrite Er. cbn [mbind option_bind].
  destruct m2 as [|p m2]; cbn [head].
  - exists None, nh, t, bs. split_and!; try done. rewrite app_nil_r in Hb. intros p Hp. by eapply (bucket_mismatch B).
  - destruct (chain_of _ _ Hb) as (o & Hc). apply chain_suffix in Hc as (q & [-> (behind & Hbe & Hc)] & _). rewrite Hbe. cbn [mbind option_bind].
    destruct (concat_perm bs _ _ (m1 ++ m2) Hb) as (rest & Ep & Ep' & _).
    assert (Hperm : concat bs ≡ₚ p :: concat (<[bucket_of hv (length_ t):=m1 ++ m2]> bs)) by (rewrite Ep, Ep', <-Permutation_middle; done).
    pose proof (bo_nodup _ _ _ _ B) as Hnd. rewrite Hperm in Hnd. apply NoDup_cons in Hnd as [Hpn Hnd].
    destruct (write_slot_spec B _ m1 (p :: m2) behind m2 nh Hb ltac:(done) Hc Hnd) as (nh' & heads' & Ew & B').
    { intros x Hx. eapply (bo_place _ _ _ _ B); [done|]. set_solver. }
    rewrite Ew. eexists (Some p), nh', _, _. split; [done|]. assert (size (concat bs) = 1 + size (concat (<[bucket_of hv (length_ t):=m1 ++ m2]> bs))) as Es by (unfold size; rewrite Hperm; cbn; lia).
    pose proof (to_elems _ _ _ T) as He. pose proof (to_load _ _ _ T). pose proof (to_max _ _ _ T). pose proof (size_nonneg (concat (<[bucket_of hv (length_ t):=m1 ++ m2]> bs))).
    split; [|split; [by apply Hh|done]]. apply (table_ok_of _ _ _ (concat bs)); cbn [length_ elems_ list_]; [done| | | |intros x Hx; rewrite Hperm; by right|apply (to_keys _ _ _ T)].
    all: rewrite u32_small; unfold is_u32; lia.
Qed.

Lemma table_Insert_spec e h : hs !! e = Some h → e ∉ concat bs → elems_ t < 2 ^ 31 → ∃ old nh' t' bs', table_Insert hs e nh t = Some (old, nh', t') ∧ table_ok nh' t' bs' ∧
  match old with Some p => match_at (key h) (hash h) p ∧ ∃ rest, concat bs ≡ₚ p :: rest ∧ concat bs' ≡ₚ e :: rest
               | None => (∀ p, p ∈ concat bs → mismatch (key h) (hash h) p) ∧ concat bs' ≡ₚ e :: concat bs end.
Proof.
  intros Hh He Hmax. pose proof (to_buckets _ _ _ T) as B. pose proof (to_elems _ _ _ T) as Eel. pose proof (to_load _ _ _ T) as Hload. pose proof (size_nonneg (concat bs)).
  destruct (FindPointer_spec B (key h) (hash h)) as (m1 & m2 & Hb & Hm & Hhd & E & Er).
  unfold table_Insert. rewrite Hh. cbn [mbind option_bind]. rewrite E. cbn [mbind option_bind]. rewrite Er. cbn [mbind option_bind].
  set (i := bucket_of (hash h) (length_ t)) in *. set (tail2 := tail m2).
  assert (∃ behind, match head m2 with Some o => nh !! o | None => Some None end = Some behind ∧ chain nh behind tail2) as (behind & -> & Hc).
  { destruct m2 as [|p m2]; cbn; [by exists None|]. destruct (chain_of _ _ Hb) as (o & Hc). apply chain_suffix in Hc as (q & [-> (behind & Hbe & Hc)] & _). eauto. }
  cbn [mbind option_bind]. destruct (concat_perm bs i _ (m1 ++ e :: tail2) Hb) as (rest & Ep & Ep' & _).
  assert (Hsub : ∀ x, x ∈ tail2 → x ∈ m2) by (unfold tail2; destruct m2; [done|]; intros x Hx; by right).
  assert (Hperm : concat (<[i:=m1 ++ e :: tail2]> bs) ≡ₚ e :: (m1 ++ tail2) ++ rest) by (rewrite Ep', <-Permutation_middle; done).
  assert (Hnd : NoDup (concat (<[i:=m1 ++ e :: tail2]> bs))).
  { pose proof (bo_nodup _ _ _ _ B) as Hnd. rewrite Hperm. rewrite Ep in Hnd, He. constructor; [set_solver|]. unfold tail2. destruct m2 as [|p m2]; [done|]. cbn. rewrite <-Permutation_middle in Hnd.
    cbn in Hnd. by apply NoDup_cons in Hnd as [_ ?]. }
  assert (Het : e ∉ tail2) by (intros Hx; apply He; rewrite Ep; set_solver).
  destruct (write_slot_spec B i m1 m2 (Some e) (e :: tail2) (<[e:=behind]> nh) Hb) as (nh' & heads' & -> & B').
  { intros p Hp. apply lookup_insert_ne. by intros ->. }
  { split; [done|]. exists behind. rewrite lookup_insert_eq. split; [done|]. by apply chain_insert. }
  { done. }
  { intros p [->|Hp]%elem_of_cons; [by exists h|]. eapply (bo_place _ _ _ _ B); [done|]. set_solver. }
  destruct m2 as [|p m2]; cbn [head] in *; cbn in tail2; subst tail2.
  - rewrite app_nil_r in Hb. assert (Hmis : ∀ p, p ∈ concat bs → mismatch (key h) (hash h) p) by (intros p Hp; by eapply (bucket_mismatch B)). rewrite app_nil_r in Ep, Hperm. rewrite <-Ep in Hperm.
    pose proof (distinct_add e h (concat bs) Hh (to_keys _ _ _ T) Hmis) as Hkeys.
    cbn [length_ elems_ list_]. rewrite (u32_small (elems_ t + 1)) by (unfold is_u32; lia).
    assert (Es : size (concat (<[i:=m1 ++ [e]]> bs)) = elems_ t + 1) by (unfold size; rewrite Hperm; cbn; unfold size in Eel; lia).
    destruct (Z.gtb_spec (elems_ t + 1) (length_ t)) as [Hg|Hg].
    + destruct (Resize_spec nh' (MkHandleTable (length_ t) (elems_ t + 1) heads') (<[i:=m1 ++ [e]]> bs)) as (nh2 & t2 & bs2 & ER & B2 & Hp2 & He2 & Hl2); [apply (bo_chains _ _ _ _ B')|done|apply (in_heap B')|cbn; lia|cbn; lia|].
      rewrite ER. cbn [mbind option_bind]. eexists None, nh2, t2, bs2. split; [done|]. cbn in He2. assert (Hp3 : concat bs2 ≡ₚ e :: concat bs) by by rewrite Hp2.
      split; [|done]. apply (table_ok_of _ _ _ (e :: concat bs)); [done| |done|lia|intros p Hp; by rewrite Hp3 in Hp|done].
      unfold size. rewrite Hp2. unfold size in Es. lia.
    + eexists None, nh', _, _. split; [done|]. split; [|done]. apply (table_ok_of _ _ _ (e :: concat bs)); cbn; [done|lia|lia|lia|intros p Hp; by rewrite Hperm in Hp|done].
  - eexists (Some p), nh', _, _. split; [done|]. pose proof (Hhd p eq_refl) as Hat. assert (Ep2 : concat bs ≡ₚ p :: (m1 ++ m2) ++ rest) by (rewrite Ep, <-Permutation_middle; done).
    assert (Es : size (concat (<[i:=m1 ++ e :: m2]> bs)) = size (concat bs)) by (unfold size; rewrite Hperm, Ep2; done).
    split; [|split; [done|eauto]]. apply (table_ok_of _ _ _ (e :: (m1 ++ m2) ++ rest)); cbn [length_ elems_ list_]; [done|lia|done|lia|intros x Hx; by rewrite Hperm in Hx|].
    destruct Hat as (hp0 & Hp0 & [Ek0 Ev0]%matches_true).
    apply (distinct_add e h); [done|intros x y hx hy Hx Hy; apply (to_keys _ _ _ T); rewrite Ep2; by right|]. intros q Hq hq Hhq. destruct (matches (key h) (hash h) hq) eqn:Eq; [|done]. apply matches_true in Eq as [Ek Ev].
    assert (q = p) as -> by (apply (to_keys _ _ _ T q p hq hp0); [rewrite Ep2; by right|rewrite Ep2; by left|done|done|congruence|congruence]).
    pose proof (bo_nodup _ _ _ _ B) as Hn. rewrite Ep2 in Hn. by apply NoDup_cons in Hn as [? _].
Qed.

End Update.

End Table.

(** ** Other changes of the heap *)

(** The handles [ps] keep their keys and hashes. *)
Definition names_kept {V} (ps : list nat) (hs hs' : gmap nat (LRUHandle V)) : Prop :=
  ∀ p h, p ∈ ps → hs !! p = Some h → ∃ h', hs' !! p = Some h' ∧ key h' = key h ∧ hash h' = hash h.

Lemma table_frame {V} (hs hs' : gmap nat (LRUHandle V)) nh nh' t bs : table_ok hs nh t bs → (∀ p, p ∈ concat bs → nh' !! p = nh !! p) → names_kept (concat bs) hs hs' → table_ok hs' nh' t bs.
Proof.
  intros [[B1 B2 B3 B4 B5] T2 T3 T4 T5] Hnh Hk. split; try done; [split; try done|].
  - apply Forall2_same_length_lookup in B1 as [Hl Hc]. apply Forall2_same_length_lookup. split; [done|]. intros i o l Ho Hi. eapply chain_frame; [|by eapply Hc]. intros p Hp. apply Hnh, bucket_elem. eauto.
  - intros i l p Hi Hp. destruct (B5 i l p Hi Hp) as (h & Hh & <-). destruct (Hk p h) as (h' & Hh' & _ & Eh); [apply bucket_elem; eauto|done|]. exists h'. by rewrite Eh.
  - assert (Hs : ∀ p, p ∈ concat bs → ∃ h, hs !! p = Some h) by (intros p (i & l & Hi & Hp)%bucket_elem; destruct (B5 i l p Hi Hp) as (h & Hh & _); eauto).
    intros p q hp hq Hp Hq Hhp Hhq Ek Ev. destruct (Hs p Hp) as (h1 & H1), (Hs q Hq) as (h2 & H2). destruct (Hk p h1 Hp H1) as (h1' & E1 & K1 & V1), (Hk q h2 Hq H2) as (h2' & E2 & K2 & V2).
    rewrite Hhp in E1. rewrite Hhq in E2. injection E1 as <-. injection E2 as <-. apply (T5 p q h1 h2); congruence.
Qed.
