(* ===== verification/LruSpec.v ===== *)
(** * What the LRU cache promises

    The specification keeps the entries as lists: the ones that only the cache
    refers to, oldest first, the cached ones that clients use, and the ones that
    clients still hold after they left the cache.  The shards of [LruCache] refine
    it: linked lists, reference counts, hash chains and memory follow the lists. *)

From stdpp Require Import gmap list.
From S2P Require Import Prelude Coding Bloom Links LruCache LruTable.

Section Spec.
  Context {V : Type}.

(** [ce_refs] counts the references of clients. *)
Record CacheEntry := MkCacheEntry { ce_id : nat; ce_key : bytes; ce_hash : Z; ce_value : V; ce_charge : Z; ce_refs : Z }.

Record CacheSpec := MkCacheSpec {
  cs_capacity : Z;
  cs_lru : list CacheEntry;
  cs_used : list CacheEntry;
  cs_held : list CacheEntry;
  cs_next : nat;
  cs_deleted : list (bytes * V);
}.

Definition NewCacheSpec (capacity : Z) : CacheSpec := MkCacheSpec capacity [] [] [] 2 [].

Definition set_refs (e : CacheEntry) (n : Z) : CacheEntry := MkCacheEntry (ce_id e) (ce_key e) (ce_hash e) (ce_value e) (ce_charge e) n.
Definition is_key (k : bytes) (hv : Z) (e : CacheEntry) : bool := (ce_hash e =? hv) && bool_decide (k = ce_key e).
Definition is_id (p : nat) (e : CacheEntry) : bool := (ce_id e =? p)%nat.
Definition item (e : CacheEntry) : bytes * V := (ce_key e, ce_value e).
Definition total (l : list CacheEntry) : Z := u64 (foldr Z.add 0 (ce_charge <$> l)).

(** The first entry that satisfies [P], and the others. *)
Fixpoint pick (P : CacheEntry → bool) (l : list CacheEntry) : option (CacheEntry * list CacheEntry) :=
  match l with
  | [] => None
  | e :: l => if P e then Some (e, l) else '(x, r) ← pick P l; Some (x, e :: r)
  end.

Fixpoint update (P : CacheEntry → bool) (f : CacheEntry → CacheEntry) (l : list CacheEntry) : list CacheEntry :=
  match l with
  | [] => []
  | e :: l => if P e then f e :: l else e :: update P f l
  end.

Definition spec_Lookup (k : bytes) (hv : Z) (sp : CacheSpec) : option nat * CacheSpec :=
  match pick (is_key k hv) (cs_lru sp) with
  | Some (e, rest) => (Some (ce_id e), MkCacheSpec (cs_capacity sp) rest (cs_used sp ++ [set_refs e 1]) (cs_held sp) (cs_next sp) (cs_deleted sp))
  | None =>
      match pick (is_key k hv) (cs_used sp) with
      | Some (e, _) => (Some (ce_id e), MkCacheSpec (cs_capacity sp) (cs_lru sp) (update (is_key k hv) (λ e, set_refs e (ce_refs e + 1)) (cs_used sp)) (cs_held sp) (cs_next sp) (cs_deleted sp))
      | None => (None, sp)
      end
  end.

(** [None]: the client holds no such handle. *)
Definition spec_Release (p : nat) (sp : CacheSpec) : option CacheSpec :=
  match pick (is_id p) (cs_used sp) with
  | Some (e, rest) => Some (
      if ce_refs e =? 1 then MkCacheSpec (cs_capacity sp) (cs_lru sp ++ [set_refs e 0]) rest (cs_held sp) (cs_next sp) (cs_deleted sp)
      else MkCacheSpec (cs_capacity sp) (cs_lru sp) (update (is_id p) (λ e, set_refs e (ce_refs e - 1)) (cs_used sp)) (cs_held sp) (cs_next sp) (cs_deleted sp))
  | None =>
      match pick (is_id p) (cs_held sp) with
      | Some (e, rest) => Some (
          if ce_refs e =? 1 then MkCacheSpec (cs_capacity sp) (cs_lru sp) (cs_used sp) rest (cs_next sp) (cs_deleted sp ++ [item e])
          else MkCacheSpec (cs_capacity sp) (cs_lru sp) (cs_used sp) (update (is_id p) (λ e, set_refs e (ce_refs e - 1)) (cs_held sp)) (cs_next sp) (cs_deleted sp))
      | None => None
      end
  end.

Definition spec_Erase (k : bytes) (hv : Z) (sp : CacheSpec) : bool * CacheSpec :=
  match pick (is_key k hv) (cs_lru sp) with
  | Some (e, rest) => (true, MkCacheSpec (cs_capacity sp) rest (cs_used sp) (cs_held sp) (cs_next sp) (cs_deleted sp ++ [item e]))
  | None =>
      match pick (is_key k hv) (cs_used sp) with
      | Some (e, rest) => (true, MkCacheSpec (cs_capacity sp) (cs_lru sp) rest (cs_held sp ++ [e]) (cs_next sp) (cs_deleted sp))
      | None => (false, sp)
      end
  end.

(** The oldest unused entries leave until the rest fits. *)
Fixpoint spec_evict (capacity : Z) (lru used : list CacheEntry) : list CacheEntry * list CacheEntry :=
  match lru with
  | [] => ([], [])
  | e :: lru' => if total (lru ++ used) >? capacity then let '(gone, rest) := spec_evict capacity lru' used in (e :: gone, rest) else ([], lru)
  end.

Definition evicted (sp : CacheSpec) : CacheSpec :=
  let '(gone, rest) := spec_evict (cs_capacity sp) (cs_lru sp) (cs_used sp) in
  MkCacheSpec (cs_capacity sp) rest (cs_used sp) (cs_held sp) (cs_next sp) (cs_deleted sp ++ (item <$> gone)).

Definition spec_add (e : CacheEntry) (sp : CacheSpec) : CacheSpec :=
  if cs_capacity sp >? 0 then let sp := (spec_Erase (ce_key e) (ce_hash e) sp).2 in MkCacheSpec (cs_capacity sp) (cs_lru sp) (cs_used sp ++ [e]) (cs_held sp) (S (ce_id e)) (cs_deleted sp)
  else MkCacheSpec (cs_capacity sp) (cs_lru sp) (cs_used sp) (cs_held sp ++ [e]) (S (ce_id e)) (cs_deleted sp).

Definition spec_Insert (k : bytes) (hv : Z) (v : V) (ch : Z) (sp : CacheSpec) : nat * CacheSpec :=
  (cs_next sp, evicted (spec_add (MkCacheEntry (cs_next sp) k hv v ch 1) sp)).

Definition spec_Prune (sp : CacheSpec) : CacheSpec :=
  MkCacheSpec (cs_capacity sp) [] (cs_used sp) (cs_held sp) (cs_next sp) (cs_deleted sp ++ (item <$> cs_lru sp)).

(** ** Lists *)

Lemma pick_Some P l e r : pick P l = Some (e, r) → P e = true ∧ ∃ l1 l2, l = l1 ++ e :: l2 ∧ r = l1 ++ l2 ∧ ∀ f, update P f l = l1 ++ f e :: l2.
Proof.
  revert r. induction l as [|x l IH]; intros r; cbn; [done|]. destruct (P x) eqn:Ex.
  - intros [= -> ->]. split; [done|]. by exists [], r.
  - destruct (pick P l) as [[y r']|] eqn:E; cbn; [|done]. intros [= -> <-]. destruct (IH r' eq_refl) as (Hp & l1 & l2 & -> & -> & Hu). split; [done|]. exists (x :: l1), l2. split_and!; [done|done|].
    intros f. cbn. by rewrite Hu.
Qed.

Lemma pick_None P l : pick P l = None → ∀ e, e ∈ l → P e = false.
Proof.
  induction l as [|x l IH]; cbn; [by intros _ e ?%not_elem_of_nil|]. destruct (P x) eqn:Ex; [done|]. destruct (pick P l) as [[y r']|] eqn:E; cbn; [done|]. intros _ e [->|He]%elem_of_cons; [done|]. by apply IH.
Qed.

Lemma total_perm l l' : l ≡ₚ l' → total l = total l'.
Proof.
  intros Hp. unfold total. f_equal. induction Hp; cbn; lia.
Qed.

Lemma total_cons e l : total (e :: l) = u64 (ce_charge e + total l).
Proof. unfold total, u64. cbn. by rewrite Zplus_mod_idemp_r. Qed.

Lemma total_remove e l l' : l ≡ₚ e :: l' → u64 (total l - ce_charge e) = total l'.
Proof.
  intros Hp. rewrite (total_perm _ _ Hp), total_cons. unfold u64, total, u64. rewrite Zminus_mod_idemp_l. replace (ce_charge e + foldr Z.add 0 (ce_charge <$> l') mod 2 ^ 64 - ce_charge e) with (foldr Z.add 0 (ce_charge <$> l') mod 2 ^ 64) by lia.
  by rewrite Zmod_mod.
Qed.

(** ** The heap *)

Definition handle_of (b : bool) (e : CacheEntry) : LRUHandle V :=
  MkLRUHandle (ce_value e) (ce_charge e) (ce_key e) b (ce_refs e + if b then 1 else 0) (ce_hash e).

Definition tid (x : bool * CacheEntry) : nat := ce_id x.2.
Definition heap_of (l : list (bool * CacheEntry)) : gmap nat (LRUHandle V) := list_to_map ((λ x, (tid x, handle_of x.1 x.2)) <$> l).

Record heap_ok (h : gmap nat (LRUHandle V)) (l : list (bool * CacheEntry)) : Prop := {
  ho_nodup : NoDup (tid <$> l);
  ho_heap : h = heap_of l;
  ho_heads : ∀ x, x ∈ l → (2 <= tid x)%nat;
}.

Lemma heap_keys (l : list (bool * CacheEntry)) : ((λ x, (tid x, handle_of x.1 x.2)) <$> l).*1 = tid <$> l.
Proof. rewrite <-list_fmap_compose. by apply list_fmap_ext. Qed.

Lemma heap_ok_perm h l l' : l ≡ₚ l' → heap_ok h l → heap_ok h l'.
Proof.
  intros Hp [H1 -> H3]. split; [by rewrite <-Hp| |intros x Hx; apply H3; by rewrite Hp]. unfold heap_of. apply list_to_map_proper; [by rewrite heap_keys|by rewrite Hp].
Qed.

Lemma heap_lookup h l b e : heap_ok h l → (b, e) ∈ l → h !! ce_id e = Some (handle_of b e).
Proof.
  intros [H1 -> _] Hin. apply elem_of_list_to_map_1; [by rewrite heap_keys|]. apply list_elem_of_fmap. by exists (b, e).
Qed.

Lemma heap_size h l : heap_ok h l → base.size h = length l.
Proof. intros [H1 -> _]. unfold heap_of. rewrite map_size_list_to_map by (by rewrite heap_keys). by rewrite length_fmap. Qed.

Lemma heap_fresh h l p : heap_ok h l → (∀ x, x ∈ l → tid x ≠ p) → h !! p = None.
Proof. intros [H1 -> _] Hp. apply not_elem_of_list_to_map_1. rewrite heap_keys. intros (x & -> & Hx)%list_elem_of_fmap. by apply (Hp x). Qed.

Lemma heap_insert h l b e : heap_ok h l → (2 <= ce_id e)%nat → (∀ x, x ∈ l → tid x ≠ ce_id e) → heap_ok (<[ce_id e := handle_of b e]> h) ((b, e) :: l).
Proof.
  intros [H1 -> H3] He Hf. split; [|done|by intros x [->|Hx]%elem_of_cons; [|apply H3]]. cbn. constructor; [|done]. intros (x & Ex & Hx)%list_elem_of_fmap. by apply (Hf x Hx).
Qed.

Lemma heap_update h l b e b' e' : heap_ok h ((b, e) :: l) → ce_id e' = ce_id e → heap_ok (<[ce_id e := handle_of b' e']> h) ((b', e') :: l).
Proof.
  intros [H1 -> H3] Ei. split.
  - cbn in *. unfold tid at 1 in H1. unfold tid at 1. cbn in *. by rewrite Ei.
  - unfold heap_of. cbn. unfold tid at 1 3. cbn. by rewrite insert_insert_eq, Ei.
  - intros x [->|Hx]%elem_of_cons; [|apply H3; by right]. unfold tid. cbn. rewrite Ei. apply (H3 (b, e)). by left.
Qed.

Lemma heap_free h l b e : heap_ok h ((b, e) :: l) → heap_ok (delete (ce_id e) h) l.
Proof.
  intros [H1 -> H3]. cbn in H1. apply NoDup_cons in H1 as [Hn H1]. split; [done| |intros x Hx; apply H3; by right]. unfold heap_of. cbn. unfold tid at 1. cbn. rewrite delete_insert_id; [done|].
  apply not_elem_of_list_to_map_1. by rewrite heap_keys.
Qed.

End Spec.

Arguments CacheEntry : clear implicits.
Arguments CacheSpec : clear implicits.
