(* ===== verification/LruRefines.v ===== *)
(** * The shards refine the specification of the cache *)

From stdpp Require Import gmap list.
From S2P Require Import Prelude Coding Bloom Links LruCache LruTable LruSpec.

(** ** Two circular lists *)

Record cycles (a b : nat) (L : Links) (xs ys : list nat) : Prop := {
  cy_first : path L a xs a;
  cy_second : path L b ys b;
  cy_nodup : NoDup (a :: b :: xs ++ ys);
}.

Lemma cycles_swap a b L xs ys : cycles a b L xs ys → cycles b a L ys xs.
Proof. intros [H1 H2 H3]. split; [done|done|]. by rewrite Permutation_swap, (Permutation_app_comm ys xs). Qed.

Lemma cycles_apart a b L xs ys : cycles a b L xs ys → inner a a xs ∧ inner b b ys ∧ (∀ p, p ∈ b :: b :: ys → p ∉ a :: a :: xs) ∧ (∀ p, p ∈ a :: a :: xs → p ∉ b :: b :: ys).
Proof.
  intros [_ _ [Ha [Hb Hn]%NoDup_cons]%NoDup_cons]. apply NoDup_app in Hn as (Hx & Hd & Hy). rewrite not_elem_of_cons, not_elem_of_app in Ha. rewrite not_elem_of_app in Hb.
  destruct Ha as (Hab & Hax & Hay), Hb as [Hbx Hby]. split; [done|split; [done|]].
  assert (Hboth : ∀ p, p ∈ a :: a :: xs → p ∈ b :: b :: ys → False).
  { intros p. rewrite !elem_of_cons. intros [->|[->|Hp]] [Hq|[Hq|Hq]]; subst; try done. by apply (Hd p). }
  split; intros p Hp Hq; by apply (Hboth p).
Qed.

Lemma cycles_remove a b L xs e ys zs : cycles a b L (xs ++ e :: ys) zs → ∃ L', LRU_Remove e L = Some L' ∧ cycles a b L' (xs ++ ys) zs.
Proof.
  intros Hc. pose proof (cycles_apart _ _ _ _ _ Hc) as (Hi & _ & Hd & _). destruct Hc as [H1 H2 H3]. destruct (LRU_Remove_path L a a xs e ys H1 Hi) as (L' & E & Hp & Hs). exists L'. split; [done|]. split; [done| |].
  - eapply path_same; [exact Hs| |done]. intros p Hp' Hq. apply (Hd p Hp'). rewrite !elem_of_cons, elem_of_app in *. rewrite elem_of_cons. tauto.
  - rewrite <-(assoc_L (++)), <-app_comm_cons in H3. rewrite <-Permutation_middle in H3. apply NoDup_cons in H3 as [Ha [Hb [_ Hn]%NoDup_cons]%NoDup_cons]. rewrite <-(assoc_L (++)).
    constructor; [|constructor; [|done]]; set_solver.
Qed.

Lemma cycles_append a b L xs e zs : cycles a b L xs zs → e ∉ a :: b :: xs ++ zs → ∃ L', LRU_Append a e L = Some L' ∧ cycles a b L' (xs ++ [e]) zs.
Proof.
  intros Hc He. pose proof (cycles_apart _ _ _ _ _ Hc) as (Hi & _ & Hd & _). destruct Hc as [H1 H2 H3]. rewrite !not_elem_of_cons, not_elem_of_app in He. destruct He as (Ha & Hb & Hx & Hz).
  destruct (LRU_Append_path L a a xs e H1 Hi) as (L' & E & Hp & Hs); [by rewrite !not_elem_of_cons|]. exists L'. split; [done|]. split; [done| |].
  - eapply path_same; [exact Hs| |done]. intros p Hp' Hq. pose proof (Hd p Hp') as Hn. rewrite !elem_of_cons in *. destruct Hq as [|[|[->|]]]; [tauto|tauto| |tauto]. destruct Hp' as [|[|]]; congruence.
  - rewrite <-(assoc_L (++)). cbn [app]. rewrite <-Permutation_middle. rewrite (Permutation_swap e b), (Permutation_swap e a). constructor; [|done]. rewrite !not_elem_of_cons, not_elem_of_app. done.
Qed.

Lemma cycles_move a b L xs e ys zs : cycles a b L (xs ++ e :: ys) zs → ∃ L1 L2, LRU_Remove e L = Some L1 ∧ LRU_Append b e L1 = Some L2 ∧ cycles a b L2 (xs ++ ys) (zs ++ [e]).
Proof.
  intros Hc. assert (He : e ∉ b :: a :: zs ++ xs ++ ys).
  { destruct Hc as [_ _ Hn]. rewrite <-(assoc_L (++)), <-app_comm_cons, <-Permutation_middle, (Permutation_swap e b), (Permutation_swap e a) in Hn. apply NoDup_cons in Hn as [He _]. set_solver. }
  destruct (cycles_remove _ _ _ _ _ _ _ Hc) as (L1 & E1 & Hc1). apply cycles_swap in Hc1. destruct (cycles_append _ _ _ _ e _ Hc1 He) as (L2 & E2 & Hc2). exists L1, L2. split_and!; [done|done|]. by apply cycles_swap.
Qed.

Lemma cycles_free a b L xs ys e : cycles a b L xs ys → e ∉ a :: b :: xs ++ ys → cycles a b (MkLinks (delete e (next_ L)) (delete e (prev_ L))) xs ys.
Proof.
  intros [H1 H2 H3] He. assert (Hs : same_links (λ p, p = e) L (MkLinks (delete e (next_ L)) (delete e (prev_ L)))) by (intros p Hp; cbn; by rewrite !lookup_delete_ne).
  split; [eapply path_same; [exact Hs| |done]|eapply path_same; [exact Hs| |done]|done]; intros p Hp ->; apply He; rewrite !elem_of_cons, elem_of_app in *; tauto.
Qed.

Section Refines.
  Context {V : Type}.
  Implicit Types (e : CacheEntry V) (s : LRUCache V) (lru used held : list (CacheEntry V)).

(** ** Lists and memory *)

Definition tagged lru used held : list (bool * CacheEntry V) := ((true,.) <$> lru ++ used) ++ ((false,.) <$> held).
Definition ids (l : list (CacheEntry V)) : list nat := ce_id <$> l.

Record lists_ok s lru used held : Prop := {
  lo_cycles : cycles lru_ in_use_ (links s) (ids lru) (ids used);
  lo_heap : heap_ok (handles s) (tagged lru used held);
  lo_next : ∀ x, x ∈ tagged lru used held → (tid x < next_address s)%nat;
  lo_min : (2 <= next_address s)%nat;
  lo_idle : ∀ e, e ∈ lru → ce_refs e = 0;
  lo_busy : ∀ e, e ∈ used ++ held → 0 < ce_refs e;
}.

Lemma tagged_lru l1 e l2 used held : tagged (l1 ++ e :: l2) used held ≡ₚ (true, e) :: tagged (l1 ++ l2) used held.
Proof. unfold tagged. rewrite <-!(assoc_L (++)). cbn. by rewrite <-!Permutation_middle, !(assoc_L (++)). Qed.

Lemma tagged_used lru l1 e l2 held : tagged lru (l1 ++ e :: l2) held ≡ₚ (true, e) :: tagged lru (l1 ++ l2) held.
Proof. unfold tagged. rewrite <-!Permutation_middle. done. Qed.

Lemma tagged_held lru used l1 e l2 : tagged lru used (l1 ++ e :: l2) ≡ₚ (false, e) :: tagged lru used (l1 ++ l2).
Proof. unfold tagged. rewrite (fmap_app _ l1 (e :: l2)), fmap_cons, <-!Permutation_middle, <-fmap_app. done. Qed.

Lemma tagged_used_end lru used e held : tagged lru (used ++ [e]) held ≡ₚ (true, e) :: tagged lru used held.
Proof. by rewrite tagged_used, app_nil_r. Qed.

Lemma tagged_lru_end lru used e held : tagged (lru ++ [e]) used held ≡ₚ (true, e) :: tagged lru used held.
Proof. by rewrite tagged_lru, app_nil_r. Qed.

Lemma tagged_held_end lru used e held : tagged lru used (held ++ [e]) ≡ₚ (false, e) :: tagged lru used held.
Proof. by rewrite tagged_held, app_nil_r. Qed.

Lemma in_tagged b e lru used held : (b, e) ∈ tagged lru used held ↔ (b = true ∧ e ∈ lru ++ used) ∨ (b = false ∧ e ∈ held).
Proof. unfold tagged. rewrite elem_of_app, !list_elem_of_fmap. naive_solver. Qed.

(** The rest of the state and the names of handles. *)
Record kept (ps : list nat) s s' : Prop := {
  kp_capacity : capacity_ s' = capacity_ s;
  kp_table : table_ s' = table_ s;
  kp_next : next_address s' = next_address s;
  kp_hash : ∀ p, p ∈ ps → next_hash s' !! p = next_hash s !! p;
  kp_names : names_kept ps (handles s) (handles s');
}.

Lemma names_update (ps : list nat) (h : gmap nat (LRUHandle V)) p e b b' e' : h !! p = Some (handle_of b e) → ce_key e' = ce_key e → ce_hash e' = ce_hash e → names_kept ps h (<[p := handle_of b' e']> h).
Proof.
  intros Hp Ek Ev q hq Hq Hh. destruct (decide (p = q)) as [<-|Hne].
  - rewrite lookup_insert_eq. eexists. split; [done|]. rewrite Hp in Hh. injection Hh as <-. done.
  - rewrite lookup_insert_ne by done. eauto.
Qed.

Lemma lo_entry s lru used held b e : lists_ok s lru used held → (b, e) ∈ tagged lru used held → handles s !! ce_id e = Some (handle_of b e).
Proof. intros H. apply heap_lookup, (lo_heap _ _ _ _ H). Qed.

(** An entry changes, moves, or goes. *)
Lemma lists_step s s' lru used held lru' used' held' b e b' e' R : lists_ok s lru used held → tagged lru used held ≡ₚ (b, e) :: R → tagged lru' used' held' ≡ₚ (b', e') :: R →
  ce_id e' = ce_id e → handles s' = <[ce_id e := handle_of b' e']> (handles s) → next_address s' = next_address s → cycles lru_ in_use_ (links s') (ids lru') (ids used') →
  (∀ x, x ∈ lru' → ce_refs x = 0) → (∀ x, x ∈ used' ++ held' → 0 < ce_refs x) → lists_ok s' lru' used' held'.
Proof.
  intros [_ Hh Hn Hmin _ _] Hp Hp' Ei Eh En Hc Hi Hb. split; [done| | |by rewrite En|done|done].
  - rewrite Eh. eapply heap_ok_perm; [symmetry; exact Hp'|]. eapply heap_update; [by eapply heap_ok_perm|done].
  - intros x. rewrite Hp', En. intros [->|Hx]%elem_of_cons; [unfold tid; cbn; rewrite Ei; apply (Hn (b, e)); rewrite Hp; by left|apply Hn; rewrite Hp; by right].
Qed.

Lemma lists_free s s' lru used held lru' used' held' b e : lists_ok s lru used held → tagged lru used held ≡ₚ (b, e) :: tagged lru' used' held' → handles s' = delete (ce_id e) (handles s) →
  next_address s' = next_address s → cycles lru_ in_use_ (links s') (ids lru') (ids used') → (∀ x, x ∈ lru' → ce_refs x = 0) → (∀ x, x ∈ used' ++ held' → 0 < ce_refs x) → lists_ok s' lru' used' held'.
Proof.
  intros [_ Hh Hn Hmin _ _] Hp Eh En Hc Hi Hb. split; [done| | |by rewrite En|done|done].
  - rewrite Eh. eapply heap_free, heap_ok_perm; [exact Hp|done].
  - intros x Hx. rewrite En. apply Hn. rewrite Hp. by right.
Qed.

Lemma entry_apart s lru used held b e R p : lists_ok s lru used held → tagged lru used held ≡ₚ (b, e) :: R → p ∈ tid <$> R → p ≠ ce_id e ∧ (2 <= ce_id e)%nat.
Proof.
  intros [_ [Hnd _ H2] _ _ _ _] Hp Hin. split; [|apply (H2 (b, e)); rewrite Hp; by left]. intros ->. rewrite Hp in Hnd. cbn in Hnd. by apply NoDup_cons in Hnd as [? _].
Qed.

Lemma id_fresh s lru used held lru' used' held' b e : lists_ok s lru used held → tagged lru used held ≡ₚ (b, e) :: tagged lru' used' held' → ce_id e ∉ lru_ :: in_use_ :: ids lru' ++ ids used'.
Proof.
  intros [_ [Hnd _ H2] _ _ _ _] Hp. assert (2 <= ce_id e)%nat by (apply (H2 (b, e)); rewrite Hp; by left). rewrite Hp in Hnd. cbn in Hnd. apply NoDup_cons in Hnd as [Hn _].
  rewrite !not_elem_of_cons. split_and!; [unfold lru_; lia|unfold in_use_; lia|]. unfold ids. rewrite <-fmap_app. intros (x & Ex & Hx)%list_elem_of_fmap. apply Hn, list_elem_of_fmap.
  exists (true, x). split; [done|]. apply in_tagged. by left.
Qed.

(** A reference to an unused entry. *)
Lemma Ref_lru ps s l1 e l2 used held : lists_ok s (l1 ++ e :: l2) used held →
  ∃ s', Ref (ce_id e) s = Some s' ∧ lists_ok s' (l1 ++ l2) (used ++ [set_refs e 1]) held ∧ kept ps s s' ∧ usage_ s' = usage_ s ∧ deleted s' = deleted s.
Proof.
  intros H. pose proof H as [Hc Hh Hn _ Hi Hb]. pose proof (tagged_lru l1 e l2 used held) as Hp.
  assert (Hr : ce_refs e = 0) by (apply Hi; set_solver). assert (Hl : handles s !! ce_id e = Some (handle_of true e)) by (apply (lo_entry _ _ _ _ _ _ H); rewrite Hp; by left).
  unfold ids in Hc. rewrite fmap_app, fmap_cons in Hc. destruct (cycles_move _ _ _ _ _ _ _ Hc) as (L1 & L2 & E1 & E2 & Hc').
  unfold Ref. rewrite Hl. cbn [mbind option_bind]. cbn [handle_of refs in_cache]. rewrite Hr. cbn [Z.add Z.eqb andb Pos.eqb]. unfold move_to. rewrite E1. cbn [mbind option_bind]. rewrite E2. cbn [mbind option_bind].
  eexists. split; [done|]. change (with_refs (handle_of true e) (u32 (0 + 1 + 1))) with (handle_of true (set_refs e 1)). split; [|split; [split; [done|done|done|done|by eapply names_update]|done]].
  eapply (lists_step _ _ _ _ _ _ _ _ _ _ true (set_refs e 1) _ H Hp (tagged_used_end _ _ _ _)); try done.
  - unfold ids. cbn. by rewrite !fmap_app.
  - intros x Hx. apply Hi. set_solver.
  - intros x Hx. rewrite <-(assoc_L (++)) in Hx. apply elem_of_app in Hx as [Hx|[->|Hx]%elem_of_cons]; [apply Hb; set_solver|done|apply Hb; set_solver].
Qed.

(** Another reference to an entry in use. *)
Lemma Ref_used ps s lru l1 e l2 held : lists_ok s lru (l1 ++ e :: l2) held → ce_refs e + 2 < 2 ^ 32 →
  ∃ s', Ref (ce_id e) s = Some s' ∧ lists_ok s' lru (l1 ++ set_refs e (ce_refs e + 1) :: l2) held ∧ kept ps s s' ∧ usage_ s' = usage_ s ∧ deleted s' = deleted s.
Proof.
  intros H Hm. pose proof H as [Hc Hh Hn _ Hi Hb]. pose proof (tagged_used lru l1 e l2 held) as Hp.
  assert (Hr : 0 < ce_refs e) by (apply Hb; set_solver). assert (Hl : handles s !! ce_id e = Some (handle_of true e)) by (apply (lo_entry _ _ _ _ _ _ H); rewrite Hp; by left).
  unfold Ref. rewrite Hl. cbn [mbind option_bind]. cbn [handle_of refs in_cache]. rewrite (proj2 (Z.eqb_neq _ _)) by lia. cbn [andb].
  eexists. split; [done|]. assert (with_refs (handle_of true e) (u32 (ce_refs e + 1 + 1)) = handle_of true (set_refs e (ce_refs e + 1))) as -> by (unfold with_refs, handle_of; cbn; rewrite u32_small; [done|unfold is_u32; lia]).
  split; [|split; [split; [done|done|done|done|by eapply names_update]|done]]. eapply (lists_step _ _ _ _ _ _ _ _ _ _ true (set_refs e (ce_refs e + 1)) _ H Hp (tagged_used _ _ _ _ _)); try done.
  - unfold ids in *. cbn. by rewrite !fmap_app, !fmap_cons in *.
  - intros x Hx. apply elem_of_app in Hx as [[Hx|[->|Hx]%elem_of_cons]%elem_of_app|Hx]; [apply Hb; set_solver|cbn; lia|apply Hb; set_solver|apply Hb; set_solver].
Qed.

(** The last reference of a client to a cached entry goes. *)
Lemma Unref_last ps s lru l1 e l2 held : lists_ok s lru (l1 ++ e :: l2) held → ce_refs e = 1 →
  ∃ s', Unref (ce_id e) s = Some s' ∧ lists_ok s' (lru ++ [set_refs e 0]) (l1 ++ l2) held ∧ kept ps s s' ∧ usage_ s' = usage_ s ∧ deleted s' = deleted s.
Proof.
  intros H Hr. pose proof H as [Hc Hh Hn _ Hi Hb]. pose proof (tagged_used lru l1 e l2 held) as Hp.
  assert (Hl : handles s !! ce_id e = Some (handle_of true e)) by (apply (lo_entry _ _ _ _ _ _ H); rewrite Hp; by left).
  apply cycles_swap in Hc. unfold ids in Hc. rewrite fmap_app, fmap_cons in Hc. destruct (cycles_move _ _ _ _ _ _ _ Hc) as (L1 & L2 & E1 & E2 & Hc'). apply cycles_swap in Hc'.
  unfold Unref. rewrite Hl. cbn [mbind option_bind]. cbn [handle_of refs in_cache with_refs]. rewrite Hr. cbn [Z.add Z.sub Z.opp Z.eqb Z.gtb Z.compare Pos.compare andb Pos.eqb Pos.add Z.pos_sub Pos.compare_cont].
  unfold move_to. cbn [links with_handle]. rewrite E1. cbn [mbind option_bind]. rewrite E2. cbn [mbind option_bind].
  eexists. split; [done|]. change (with_refs (handle_of true e) (1 + 1 - 1)) with (handle_of true (set_refs e 0)).
  split; [|split; [split; [done|done|done|done|by eapply names_update]|done]].
  eapply (lists_step _ _ _ _ _ _ _ _ _ _ true (set_refs e 0) _ H Hp (tagged_lru_end _ _ _ _)); try done.
  - unfold ids. cbn. by rewrite !fmap_app.
  - intros x [Hx| ->%list_elem_of_singleton]%elem_of_app; [by apply Hi|done].
  - intros x Hx. apply Hb. set_solver.
Qed.

Lemma Unref_used ps s lru l1 e l2 held : lists_ok s lru (l1 ++ e :: l2) held → ce_refs e ≠ 1 →
  ∃ s', Unref (ce_id e) s = Some s' ∧ lists_ok s' lru (l1 ++ set_refs e (ce_refs e - 1) :: l2) held ∧ kept ps s s' ∧ usage_ s' = usage_ s ∧ deleted s' = deleted s.
Proof.
  intros H Hr. pose proof H as [Hc Hh Hn _ Hi Hb]. pose proof (tagged_used lru l1 e l2 held) as Hp. assert (Hpos : 0 < ce_refs e) by (apply Hb; set_solver).
  assert (Hl : handles s !! ce_id e = Some (handle_of true e)) by (apply (lo_entry _ _ _ _ _ _ H); rewrite Hp; by left).
  unfold Unref. rewrite Hl. cbn [mbind option_bind]. cbn [handle_of refs in_cache with_refs]. rewrite (proj2 (Z.gtb_lt _ _)) by lia. rewrite !(proj2 (Z.eqb_neq _ _)) by lia. cbn [andb].
  eexists. split; [done|]. assert (with_refs (handle_of true e) (ce_refs e + 1 - 1) = handle_of true (set_refs e (ce_refs e - 1))) as E by (unfold with_refs, handle_of; cbn; f_equal; lia).
  rewrite E. split; [|split; [split; [done|done|done|done|by eapply names_update]|done]].
  eapply (lists_step _ _ _ _ _ _ _ _ _ _ true (set_refs e (ce_refs e - 1)) _ H Hp (tagged_used _ _ _ _ _)); try done.
  - unfold ids in *. cbn. by rewrite !fmap_app, !fmap_cons in *.
  - intros x Hx. apply elem_of_app in Hx as [[Hx|[->|Hx]%elem_of_cons]%elem_of_app|Hx]; [apply Hb; set_solver|cbn; lia|apply Hb; set_solver|apply Hb; set_solver].
Qed.

Lemma Unref_held ps s lru used l1 e l2 : lists_ok s lru used (l1 ++ e :: l2) → ce_refs e ≠ 1 →
  ∃ s', Unref (ce_id e) s = Some s' ∧ lists_ok s' lru used (l1 ++ set_refs e (ce_refs e - 1) :: l2) ∧ kept ps s s' ∧ usage_ s' = usage_ s ∧ deleted s' = deleted s.
Proof.
  intros H Hr. pose proof H as [Hc Hh Hn _ Hi Hb]. pose proof (tagged_held lru used l1 e l2) as Hp. assert (Hpos : 0 < ce_refs e) by (apply Hb; set_solver).
  assert (Hl : handles s !! ce_id e = Some (handle_of false e)) by (apply (lo_entry _ _ _ _ _ _ H); rewrite Hp; by left).
  unfold Unref. rewrite Hl. cbn [mbind option_bind]. cbn [handle_of refs in_cache with_refs]. rewrite (proj2 (Z.gtb_lt _ _)) by lia. rewrite (proj2 (Z.eqb_neq _ _)) by lia. cbn [andb].
  eexists. split; [done|]. assert (with_refs (handle_of false e) (ce_refs e + 0 - 1) = handle_of false (set_refs e (ce_refs e - 1))) as E by (unfold with_refs, handle_of; cbn; f_equal; lia).
  rewrite E. split; [|split; [split; [done|done|done|done|by eapply names_update]|done]].
  eapply (lists_step _ _ _ _ _ _ _ _ _ _ false (set_refs e (ce_refs e - 1)) _ H Hp (tagged_held _ _ _ _ _)); try done.
  intros x Hx. apply elem_of_app in Hx as [Hx|[Hx|[->|Hx]%elem_of_cons]%elem_of_app]; [apply Hb; set_solver|apply Hb; set_solver|cbn; lia|apply Hb; set_solver].
Qed.

(** The last reference at all: the value is handed to the deleter and the handle is freed. *)
Lemma kept_free ps s s' h e b : handles s !! ce_id e = Some (handle_of b e) → ce_id e ∉ ps → s' = free_handle (ce_id e) h (with_handle s (ce_id e) h) → kept ps s s'.
Proof.
  intros Hl He ->. split; try done; cbn.
  - intros p Hp. apply lookup_delete_ne. by intros <-.
  - intros p hp Hp Hhp. exists hp. split; [|done]. rewrite lookup_delete_ne, lookup_insert_ne by (by intros <-). done.
Qed.

Lemma Unref_free ps s lru used l1 e l2 : lists_ok s lru used (l1 ++ e :: l2) → ce_refs e = 1 → ce_id e ∉ ps →
  ∃ s', Unref (ce_id e) s = Some s' ∧ lists_ok s' lru used (l1 ++ l2) ∧ kept ps s s' ∧ usage_ s' = usage_ s ∧ deleted s' = deleted s ++ [item e].
Proof.
  intros H Hr He. pose proof H as [Hc Hh Hn _ Hi Hb]. pose proof (tagged_held lru used l1 e l2) as Hp.
  assert (Hl : handles s !! ce_id e = Some (handle_of false e)) by (apply (lo_entry _ _ _ _ _ _ H); rewrite Hp; by left).
  unfold Unref. rewrite Hl. cbn [mbind option_bind]. cbn [handle_of refs in_cache with_refs]. rewrite Hr. cbn [Z.add Z.sub Z.opp Z.eqb Z.gtb Z.compare Z.pos_sub].
  eexists. split; [done|]. split; [|split; [by eapply kept_free|done]]. eapply (lists_free _ _ _ _ _ _ _ _ _ _ H Hp); try done.
  - cbn. apply delete_insert_eq.
  - cbn. apply cycles_free; [done|]. by eapply id_fresh.
  - intros x Hx. apply Hb. set_solver.
Qed.

(** ** Leaving the cache *)

Lemma kept_trans ps s s1 s' : kept ps s s1 → kept ps s1 s' → kept ps s s'.
Proof.
  intros [A1 A2 A3 A4 A5] [B1 B2 B3 B4 B5]. split; try congruence.
  - intros p Hp. rewrite B4, A4 by done. done.
  - intros p h Hp Hh. destruct (A5 p h Hp Hh) as (h1 & H1 & ? & ?). destruct (B5 p h1 Hp H1) as (h2 & H2 & ? & ?). exists h2. split_and!; congruence.
Qed.

Lemma set_refs_back e : set_refs (set_refs e (ce_refs e + 1)) (ce_refs (set_refs e (ce_refs e + 1)) - 1) = e.
Proof. destruct e. unfold set_refs. cbn. f_equal. lia. Qed.

(** [FinishErase] up to [Unref]: the reference of the cache is now like one of a client. *)
Lemma detach ps s lru used held lru' used' e : lists_ok s lru used held → tagged lru used held ≡ₚ (true, e) :: tagged lru' used' held → 0 <= ce_refs e →
  (∀ L', LRU_Remove (ce_id e) (links s) = Some L' → cycles lru_ in_use_ L' (ids lru') (ids used')) → (∀ x, x ∈ lru' → x ∈ lru) → (∀ x, x ∈ used' → x ∈ used) →
  is_Some (LRU_Remove (ce_id e) (links s)) → ∃ s1, lists_ok s1 lru' used' (held ++ [set_refs e (ce_refs e + 1)]) ∧ kept ps s s1 ∧ usage_ s1 = u64 (usage_ s - ce_charge e) ∧ deleted s1 = deleted s ∧
    FinishErase (Some (ce_id e)) s = (s' ← Unref (ce_id e) s1; Some (true, s')).
Proof.
  intros H Hp Hr Hc Hs1 Hs2 [L' E]. specialize (Hc L' E). pose proof H as [_ Hh Hn _ Hi Hb].
  assert (Hl : handles s !! ce_id e = Some (handle_of true e)) by (apply (lo_entry _ _ _ _ _ _ H); rewrite Hp; by left).
  assert (Eh : out_of_cache (handle_of true e) = handle_of false (set_refs e (ce_refs e + 1))) by (unfold out_of_cache, handle_of; cbn; f_equal; lia).
  exists (with_usage (with_handle (with_links s L') (ce_id e) (handle_of false (set_refs e (ce_refs e + 1)))) (u64 (usage_ s - ce_charge e))). split_and!; [| |done|done|].
  - eapply (lists_step _ _ _ _ _ _ _ _ _ _ false (set_refs e (ce_refs e + 1)) _ H Hp (tagged_held_end _ _ _ _)); try done.
    + intros x Hx. auto.
    + intros x [Hx|[Hx| ->%list_elem_of_singleton]%elem_of_app]%elem_of_app; [apply Hb; set_solver|apply Hb; set_solver|cbn; lia].
  - split; [done|done|done|done|by eapply names_update].
  - unfold FinishErase. rewrite Hl. cbn [mbind option_bind]. cbn [in_cache handle_of]. rewrite E. cbn [mbind option_bind]. by rewrite Eh.
Qed.

Lemma FinishErase_lru ps s l1 e l2 used held : lists_ok s (l1 ++ e :: l2) used held → ce_id e ∉ ps → ∃ s', FinishErase (Some (ce_id e)) s = Some (true, s') ∧
  lists_ok s' (l1 ++ l2) used held ∧ kept ps s s' ∧ usage_ s' = u64 (usage_ s - ce_charge e) ∧ deleted s' = deleted s ++ [item e].
Proof.
  intros H He. pose proof H as [Hc _ _ _ Hi _]. assert (Hr : ce_refs e = 0) by (apply Hi; set_solver). unfold ids in Hc. rewrite fmap_app, fmap_cons in Hc. destruct (cycles_remove _ _ _ _ _ _ _ Hc) as (L' & E & Hc').
  destruct (detach ps s _ _ _ (l1 ++ l2) used e H (tagged_lru _ _ _ _ _)) as (s1 & H1 & K1 & U1 & D1 & EF); [lia| |set_solver|done|by exists L'|].
  { intros L. rewrite E. intros [= <-]. unfold ids. by rewrite fmap_app. }
  destruct (Unref_free ps s1 _ _ held (set_refs e (ce_refs e + 1)) [] H1) as (s' & E' & H' & K' & U' & D'); [cbn; lia|done|].
  rewrite app_nil_r in H'. change (ce_id (set_refs e (ce_refs e + 1))) with (ce_id e) in E'. rewrite EF, E'. exists s'. split_and!; [done|done|by eapply kept_trans|congruence|by rewrite D', D1].
Qed.

Lemma FinishErase_used ps s lru l1 e l2 held : lists_ok s lru (l1 ++ e :: l2) held → ∃ s', FinishErase (Some (ce_id e)) s = Some (true, s') ∧
  lists_ok s' lru (l1 ++ l2) (held ++ [e]) ∧ kept ps s s' ∧ usage_ s' = u64 (usage_ s - ce_charge e) ∧ deleted s' = deleted s.
Proof.
  intros H. pose proof H as [Hc _ _ _ _ Hb]. assert (Hr : 0 < ce_refs e) by (apply Hb; set_solver). apply cycles_swap in Hc. unfold ids in Hc. rewrite fmap_app, fmap_cons in Hc.
  destruct (cycles_remove _ _ _ _ _ _ _ Hc) as (L' & E & Hc'). apply cycles_swap in Hc'.
  destruct (detach ps s _ _ _ lru (l1 ++ l2) e H (tagged_used _ _ _ _ _)) as (s1 & H1 & K1 & U1 & D1 & EF); [lia| |done|set_solver|by exists L'|].
  { intros L. rewrite E. intros [= <-]. unfold ids. by rewrite fmap_app. }
  destruct (Unref_held ps s1 _ _ held (set_refs e (ce_refs e + 1)) [] H1) as (s' & E' & H' & K' & U' & D'); [cbn; lia|].
  rewrite set_refs_back in H'. change (ce_id (set_refs e (ce_refs e + 1))) with (ce_id e) in E'. rewrite EF, E'. exists s'. split_and!; [done|done|by eapply kept_trans|congruence|by rewrite D', D1].
Qed.

(** ** New entries *)

Lemma new_apart s lru used held : lists_ok s lru used held → next_address s ∉ in_use_ :: lru_ :: ids used ++ ids lru ∧ (∀ x, x ∈ tagged lru used held → tid x ≠ next_address s).
Proof.
  intros [_ _ Hn Hmin _ _]. assert (Hf : ∀ x, x ∈ tagged lru used held → tid x ≠ next_address s) by (intros x Hx ?; pose proof (Hn x Hx); lia). split; [|done].
  rewrite !not_elem_of_cons. split_and!; [unfold in_use_; lia|unfold lru_; lia|]. unfold ids. rewrite <-fmap_app. intros (x & Ex & Hx)%list_elem_of_fmap. apply (Hf (true, x)); [|done]. apply in_tagged. left. set_solver.
Qed.

Lemma lists_add s s' lru used held lru' used' held' b e : lists_ok s lru used held → tagged lru' used' held' ≡ₚ (b, e) :: tagged lru used held → ce_id e = next_address s → 0 < ce_refs e →
  handles s' = <[ce_id e := handle_of b e]> (handles s) → next_address s' = S (ce_id e) → cycles lru_ in_use_ (links s') (ids lru') (ids used') → lru' = lru →
  (∀ x, x ∈ used' ++ held' → x = e ∨ x ∈ used ++ held) → lists_ok s' lru' used' held'.
Proof.
  intros H Hp Ei Hr Eh En Hc -> Hin. pose proof (new_apart _ _ _ _ H) as [_ Hf]. destruct H as [_ Hh Hn Hmin Hi Hb]. split; [done| | |lia|done|].
  - rewrite Eh. eapply heap_ok_perm; [symmetry; exact Hp|]. apply heap_insert; [done|lia|by rewrite Ei].
  - intros x. rewrite Hp, En. intros [->|Hx]%elem_of_cons; [unfold tid; cbn; lia|]. specialize (Hn x Hx). lia.
  - intros x [->|Hx]%Hin; [done|by apply Hb].
Qed.

(** ** Shards *)

Record represents s (sp : CacheSpec V) : Prop := {
  rp_lists : lists_ok s (cs_lru sp) (cs_used sp) (cs_held sp);
  rp_capacity : capacity_ s = cs_capacity sp;
  rp_next : next_address s = cs_next sp;
  rp_usage : usage_ s = total (cs_lru sp ++ cs_used sp);
  rp_deleted : deleted s = cs_deleted sp;
  rp_table : ∃ bs, table_ok (handles s) (next_hash s) (table_ s) bs ∧ concat bs ≡ₚ ids (cs_lru sp ++ cs_used sp);
}.

Lemma is_key_true k hv e : is_key k hv e = true ↔ ce_key e = k ∧ ce_hash e = hv.
Proof. unfold is_key. rewrite andb_true_iff, Z.eqb_eq, bool_decide_eq_true. naive_solver. Qed.

Lemma matches_entry k hv b e : matches k hv (handle_of b e) = is_key k hv e.
Proof. done. Qed.

Section Keys.
  Context {s : LRUCache V} {lru used held : list (CacheEntry V)} (H : lists_ok s lru used held).
  Context {nh : gmap nat (option nat)} {t : HandleTable} {bs : list (list nat)} (T : table_ok (handles s) nh t bs) (Hp : concat bs ≡ₚ ids (lru ++ used)).

Lemma cached_entry e : e ∈ lru ++ used → handles s !! ce_id e = Some (handle_of true e) ∧ ce_id e ∈ concat bs.
Proof.
  intros He. split; [apply (lo_entry _ _ _ _ _ _ H), in_tagged; by left|]. rewrite Hp. apply list_elem_of_fmap. by exists e.
Qed.

Lemma key_found k hv p e : p ∈ concat bs → match_at (handles s) k hv p → e ∈ lru ++ used → is_key k hv e = true → p = ce_id e.
Proof.
  intros Hin (h & Hh & [Ek Ev]%matches_true) He [Ek' Ev']%is_key_true. destruct (cached_entry e He) as [Hl Hin']. apply (to_keys _ _ _ _ T p (ce_id e) h (handle_of true e)); cbn; congruence.
Qed.

Lemma key_missing k hv p : (∀ e, e ∈ lru ++ used → is_key k hv e = false) → p ∈ concat bs → match_at (handles s) k hv p → False.
Proof.
  intros Hno Hin (h & Hh & Hm). rewrite Hp in Hin. apply list_elem_of_fmap in Hin as (e & -> & He). destruct (cached_entry e He) as [Hl _]. rewrite Hl in Hh. injection Hh as <-. rewrite matches_entry, Hno in Hm; done.
Qed.

Lemma mismatch_not k hv e : e ∈ lru ++ used → mismatch (handles s) k hv (ce_id e) → is_key k hv e = false.
Proof. intros He Hm. destruct (cached_entry e He) as [Hl _]. by rewrite <-(matches_entry k hv true), (Hm _ Hl). Qed.

End Keys.

(** What the table and the usage depend on. *)
Definition brief e : nat * Z := (ce_id e, ce_charge e).

Lemma brief_ids l l' : brief <$> l ≡ₚ brief <$> l' → ids l ≡ₚ ids l'.
Proof. intros Hp. apply (fmap_Permutation fst) in Hp. by rewrite <-!list_fmap_compose in Hp. Qed.

Lemma brief_total l l' : brief <$> l ≡ₚ brief <$> l' → total l = total l'.
Proof.
  intros Hp. apply (fmap_Permutation snd) in Hp. rewrite <-!list_fmap_compose in Hp. change (ce_charge <$> l ≡ₚ ce_charge <$> l') in Hp. unfold total. f_equal. induction Hp; cbn; lia.
Qed.

(** The same entries are in the cache. *)
Lemma represents_kept s sp s' sp' : represents s sp → (∀ ps, (∀ p, p ∈ ps → p ∈ ids (cs_lru sp ++ cs_used sp)) → kept ps s s') → lists_ok s' (cs_lru sp') (cs_used sp') (cs_held sp') → usage_ s' = usage_ s →
  deleted s' = cs_deleted sp' → cs_capacity sp' = cs_capacity sp → cs_next sp' = cs_next sp → brief <$> (cs_lru sp' ++ cs_used sp') ≡ₚ brief <$> (cs_lru sp ++ cs_used sp) → represents s' sp'.
Proof.
  intros [H R1 R2 R3 R4 (bs & T & Hp)] Hk H' U D C N Hb. destruct (Hk (concat bs)) as [K1 K2 K3 K4 K5]; [by intros p; rewrite Hp|]. split; [done|congruence|congruence| |done|].
  - rewrite U, R3. symmetry. by apply brief_total.
  - exists bs. rewrite K2. split; [by eapply table_frame|]. by rewrite (brief_ids _ _ Hb).
Qed.

Lemma Lookup_refines s sp k hv : represents s sp → (∀ e, e ∈ cs_used sp → ce_refs e + 2 < 2 ^ 32) →
  ∃ s', Lookup k hv s = Some ((spec_Lookup k hv sp).1, s') ∧ represents s' (spec_Lookup k hv sp).2.
Proof.
  intros R Hm. pose proof R as [H R1 R2 R3 R4 (bs & T & Hp)]. destruct (table_Lookup_spec (handles s) (to_buckets _ _ _ _ T) k hv) as (o & E & Ho). unfold Lookup, spec_Lookup. rewrite E. cbn [mbind option_bind].
  assert (Hfound : ∀ e, e ∈ cs_lru sp ++ cs_used sp → is_key k hv e = true → o = Some (ce_id e)).
  { intros e He Ek. destruct o as [p|]; [|by rewrite (mismatch_not H Hp k hv e He) in Ek; [|apply Ho, (cached_entry H Hp)]]. destruct Ho as [Hin Hat]. by rewrite (key_found H T Hp k hv p e Hin Hat He Ek). }
  destruct (pick (is_key k hv) (cs_lru sp)) as [[e rest]|] eqn:E1; [|destruct (pick (is_key k hv) (cs_used sp)) as [[e rest]|] eqn:E2].
  - apply pick_Some in E1 as (Ek & l1 & l2 & El & -> & _). rewrite (Hfound e) by (done || (rewrite El; set_solver)). rewrite El in H. destruct (Ref_lru [] s l1 e l2 _ _ H) as (s' & E' & H' & _ & U & D).
    rewrite E'. cbn [mbind option_bind fst snd]. exists s'. split; [done|]. eapply represents_kept; [exact R| |done|done|cbn; congruence|done|done|].
    + intros ps _. destruct (Ref_lru ps s l1 e l2 _ _ H) as (s2 & E2 & _ & K & _). congruence.
    + cbn. rewrite El, <-!(assoc_L (++)), !fmap_app, !fmap_cons. cbn. by rewrite <-!Permutation_middle, app_nil_r.
  - apply pick_Some in E2 as (Ek & l1 & l2 & El & -> & Hu). rewrite (Hfound e) by (done || (rewrite El; set_solver)). rewrite El in H. rewrite Hu.
    assert (ce_refs e + 2 < 2 ^ 32) as He by (apply Hm; rewrite El; set_solver). destruct (Ref_used [] s _ l1 e l2 _ H He) as (s' & E' & H' & _ & U & D).
    rewrite E'. cbn [mbind option_bind fst snd]. exists s'. split; [done|]. eapply represents_kept; [exact R| |done|done|cbn; congruence|done|done|].
    + intros ps _. destruct (Ref_used ps s _ l1 e l2 _ H He) as (s2 & E2 & _ & K & _). congruence.
    + cbn. rewrite El, !fmap_app, !fmap_cons. done.
  - destruct o as [p|].
    + destruct Ho as [Hin Hat]. exfalso. eapply (key_missing H Hp); [|done|done]. intros e [He|He]%elem_of_app; [by apply (pick_None _ _ E1)|by apply (pick_None _ _ E2)].
    + exists s. cbn. split; [done|]. done.
Qed.

Lemma Release_refines s sp p sp' : represents s sp → spec_Release p sp = Some sp' → ∃ s', Release p s = Some s' ∧ represents s' sp'.
Proof.
  intros R Es. pose proof R as [H R1 R2 R3 R4 _]. unfold Release, spec_Release in *. destruct (pick (is_id p) (cs_used sp)) as [[e rest]|] eqn:E1; [|destruct (pick (is_id p) (cs_held sp)) as [[e rest]|] eqn:E2; [|done]].
  - apply pick_Some in E1 as (Ei & l1 & l2 & El & -> & Hu). apply Nat.eqb_eq in Ei. subst p. rewrite El in H. injection Es as <-. destruct (Z.eqb_spec (ce_refs e) 1) as [Er|Er].
    + destruct (Unref_last [] s _ l1 e l2 _ H Er) as (s' & E' & H' & _ & U & D). exists s'. split; [done|]. eapply represents_kept; [exact R| |done|done|cbn; congruence|done|done|].
      * intros ps _. destruct (Unref_last ps s _ l1 e l2 _ H Er) as (s2 & E2 & _ & K & _). congruence.
      * cbn. rewrite El, <-!(assoc_L (++)), !fmap_app, !fmap_cons. cbn. by rewrite <-!Permutation_middle.
    + destruct (Unref_used [] s _ l1 e l2 _ H Er) as (s' & E' & H' & _ & U & D). exists s'. split; [done|]. rewrite Hu. eapply represents_kept; [exact R| |done|done|cbn; congruence|done|done|].
      * intros ps _. destruct (Unref_used ps s _ l1 e l2 _ H Er) as (s2 & E2 & _ & K & _). congruence.
      * cbn. rewrite El, !fmap_app, !fmap_cons. done.
  - apply pick_Some in E2 as (Ei & l1 & l2 & El & -> & Hu). apply Nat.eqb_eq in Ei. subst p. rewrite El in H. injection Es as <-. destruct (Z.eqb_spec (ce_refs e) 1) as [Er|Er].
    + pose proof (id_fresh _ _ _ _ _ _ _ _ _ H (tagged_held _ _ _ _ _)) as Hf.
      assert (Hps : ∀ ps : list nat, (∀ p, p ∈ ps → p ∈ ids (cs_lru sp ++ cs_used sp)) → ce_id e ∉ ps) by (intros ps Hs Hin; apply Hf; do 2 right; unfold ids in *; rewrite <-fmap_app; auto).
      destruct (Unref_free [] s _ _ l1 e l2 H Er) as (s' & E' & H' & _ & U & D); [by apply not_elem_of_nil|]. exists s'. split; [done|]. eapply represents_kept; [exact R| |done|done|cbn; congruence|done|done|done].
      intros ps Hs. destruct (Unref_free ps s _ _ l1 e l2 H Er (Hps ps Hs)) as (s2 & E2 & _ & K & _). congruence.
    + destruct (Unref_held [] s _ _ l1 e l2 H Er) as (s' & E' & H' & _ & U & D). exists s'. split; [done|]. rewrite Hu. eapply represents_kept; [exact R| |done|done|cbn; congruence|done|done|done].
      intros ps _. destruct (Unref_held ps s _ _ l1 e l2 H Er) as (s2 & E2 & _ & K & _). congruence.
Qed.

(** ** Removal *)

Lemma finish_lru s l1 e l2 used held bs : lists_ok s (l1 ++ e :: l2) used held → table_ok (handles s) (next_hash s) (table_ s) bs → ids ((l1 ++ e :: l2) ++ used) ≡ₚ ce_id e :: concat bs →
  usage_ s = total ((l1 ++ e :: l2) ++ used) → ∃ s', FinishErase (Some (ce_id e)) s = Some (true, s') ∧ represents s' (MkCacheSpec (capacity_ s) (l1 ++ l2) used held (next_address s) (deleted s ++ [item e])).
Proof.
  intros H T Hp Hu. assert (Hperm : (l1 ++ e :: l2) ++ used ≡ₚ e :: (l1 ++ l2) ++ used) by by rewrite <-Permutation_middle.
  assert (Hn : ce_id e :: ids ((l1 ++ l2) ++ used) ≡ₚ ce_id e :: concat bs) by (rewrite <-Hp; unfold ids; by rewrite Hperm). apply Permutation_cons_inv in Hn.
  assert (He : ce_id e ∉ concat bs) by (rewrite <-Hn; intros Hin; apply (id_fresh _ _ _ _ _ _ _ _ _ H (tagged_lru _ _ _ _ _)); do 2 right; unfold ids in *; by rewrite <-fmap_app).
  destruct (FinishErase_lru (concat bs) s l1 e l2 used held H He) as (s' & E & H' & [K1 K2 K3 K4 K5] & U & D). exists s'. split; [done|]. split; cbn; try done.
  - rewrite U, Hu. by apply total_remove.
  - exists bs. rewrite K2. split; [by eapply table_frame|done].
Qed.

Lemma finish_used s lru l1 e l2 held bs : lists_ok s lru (l1 ++ e :: l2) held → table_ok (handles s) (next_hash s) (table_ s) bs → ids (lru ++ l1 ++ e :: l2) ≡ₚ ce_id e :: concat bs →
  usage_ s = total (lru ++ l1 ++ e :: l2) → ∃ s', FinishErase (Some (ce_id e)) s = Some (true, s') ∧ represents s' (MkCacheSpec (capacity_ s) lru (l1 ++ l2) (held ++ [e]) (next_address s) (deleted s)).
Proof.
  intros H T Hp Hu. assert (Hperm : lru ++ l1 ++ e :: l2 ≡ₚ e :: lru ++ l1 ++ l2) by by rewrite <-!Permutation_middle.
  assert (Hn : ce_id e :: ids (lru ++ l1 ++ l2) ≡ₚ ce_id e :: concat bs) by (rewrite <-Hp; unfold ids; by rewrite Hperm). apply Permutation_cons_inv in Hn.
  destruct (FinishErase_used (concat bs) s lru l1 e l2 held H) as (s' & E & H' & [K1 K2 K3 K4 K5] & U & D). exists s'. split; [done|]. split; cbn; try done.
  - rewrite U, Hu. by apply total_remove.
  - exists bs. rewrite K2. split; [by eapply table_frame|done].
Qed.

Lemma lists_with_table s nh t lru used held : lists_ok s lru used held → lists_ok (with_table s nh t) lru used held.
Proof. by intros []. Qed.

Lemma Erase_refines s sp k hv : represents s sp → ∃ s', Erase k hv s = Some ((spec_Erase k hv sp).1, s') ∧ represents s' (spec_Erase k hv sp).2.
Proof.
  intros R. pose proof R as [H R1 R2 R3 R4 (bs & T & Hp)]. destruct (table_Remove_spec (handles s) T k hv) as (o & nh & t & bs' & E & T' & Ho). unfold Erase, spec_Erase. rewrite E. cbn [mbind option_bind].
  assert (Hfound : ∀ e, e ∈ cs_lru sp ++ cs_used sp → is_key k hv e = true → o = Some (ce_id e) ∧ ids (cs_lru sp ++ cs_used sp) ≡ₚ ce_id e :: concat bs').
  { intros e He Ek. destruct o as [p|].
    - destruct Ho as [Hat Hperm]. assert (p = ce_id e) as -> by (apply (key_found H T Hp k hv p e); [rewrite Hperm; by left|done|done|done]). split; [done|]. by rewrite <-Hp.
    - destruct Ho as [Ho _]. by rewrite (mismatch_not H Hp k hv e He (Ho _ (proj2 (cached_entry H Hp e He)))) in Ek. }
  apply (lists_with_table _ nh t) in H. destruct (pick (is_key k hv) (cs_lru sp)) as [[e rest]|] eqn:E1; [|destruct (pick (is_key k hv) (cs_used sp)) as [[e rest]|] eqn:E2].
  - apply pick_Some in E1 as (Ek & l1 & l2 & El & -> & _). destruct (Hfound e) as [-> Hids]; [rewrite El; set_solver|done|]. rewrite El in H, Hids, R3.
    destruct (finish_lru _ _ _ _ _ _ bs' H T' Hids R3) as (s' & -> & R'). exists s'. split; [done|]. cbn in R'. by rewrite R1, R2, R4 in R'.
  - apply pick_Some in E2 as (Ek & l1 & l2 & El & -> & _). destruct (Hfound e) as [-> Hids]; [rewrite El; set_solver|done|]. rewrite El in H, Hids, R3.
    destruct (finish_used _ _ _ _ _ _ bs' H T' Hids R3) as (s' & -> & R'). exists s'. split; [done|]. cbn in R'. by rewrite R1, R2, R4 in R'.
  - destruct o as [p|].
    + destruct Ho as [Hat Hperm]. exfalso. eapply (key_missing (lists_with_table s (next_hash s) (table_ s) _ _ _ (rp_lists _ _ R)) Hp k hv p); [|rewrite Hperm; by left|exact Hat].
      intros e [He|He]%elem_of_app; [by apply (pick_None _ _ E1)|by apply (pick_None _ _ E2)].
    + destruct Ho as [_ ->]. cbn. eexists. split; [done|]. split; try done. by exists bs.
Qed.

(** ** Eviction *)

Lemma oldest s sp : represents s sp → next_ (links s) !! lru_ = Some (default lru_ (head (ids (cs_lru sp)))).
Proof. intros [[[Hc _ _] _ _ _ _ _] _ _ _ _ _]. by apply path_first in Hc as [? _]. Qed.

Lemma oldest_id s sp e l : represents s sp → cs_lru sp = e :: l → ce_id e ≠ lru_.
Proof.
  intros [[_ [_ _ H2] _ _ _ _] _ _ _ _ _] El. assert (2 <= ce_id e)%nat by (apply (H2 (true, e)), in_tagged; left; rewrite El; set_solver). unfold lru_. lia.
Qed.

Lemma evict_oldest_refines s sp e l : represents s sp → cs_lru sp = e :: l →
  ∃ s', evict_oldest (ce_id e) s = Some s' ∧ represents s' (MkCacheSpec (cs_capacity sp) l (cs_used sp) (cs_held sp) (cs_next sp) (cs_deleted sp ++ [item e])).
Proof.
  intros R El. pose proof R as [H _ _ _ _ _]. assert (Hr : ce_refs e = 0) by (apply (lo_idle _ _ _ _ H); rewrite El; by left).
  assert (Hl : handles s !! ce_id e = Some (handle_of true e)) by (apply (lo_entry _ _ _ _ _ _ H), in_tagged; left; rewrite El; set_solver).
  unfold evict_oldest. rewrite Hl. cbn [mbind option_bind]. cbn [handle_of refs key hash]. rewrite Hr. cbn [Z.add Z.eqb Pos.eqb]. destruct (Erase_refines s sp (ce_key e) (ce_hash e) R) as (s' & E & R').
  assert (spec_Erase (ce_key e) (ce_hash e) sp = (true, MkCacheSpec (cs_capacity sp) l (cs_used sp) (cs_held sp) (cs_next sp) (cs_deleted sp ++ [item e]))) as Es.
  { unfold spec_Erase. rewrite El. cbn. by rewrite (proj2 (is_key_true _ _ _)). }
  rewrite Es in E, R'. rewrite E. by exists s'.
Qed.

Lemma evict_loop_refines fuel : ∀ s sp, represents s sp → (length (cs_lru sp) < fuel)%nat → ∃ s', evict_loop fuel s = Some s' ∧ represents s' (evicted sp).
Proof.
  induction fuel as [|fuel IH]; intros s sp R Hf; [lia|]. pose proof R as [H R1 R2 R3 R4 _]. cbn [evict_loop]. rewrite (oldest s sp R). cbn [mbind option_bind]. rewrite R1, R3. unfold evicted.
  destruct (cs_lru sp) as [|e l] eqn:El; cbn [ids fmap list_fmap head default from_option Datatypes.id].
  - rewrite Nat.eqb_refl, andb_false_r. exists s. split; [done|]. cbn. rewrite app_nil_r. destruct sp. cbn in *. by subst.
  - rewrite (proj2 (Nat.eqb_neq _ _)) by (by eapply oldest_id). rewrite andb_true_r. cbn [spec_evict app]. destruct (total (e :: l ++ cs_used sp) >? cs_capacity sp) eqn:Eg.
    + destruct (evict_oldest_refines s sp e l R El) as (s1 & -> & R'). cbn [mbind option_bind]. destruct (IH s1 _ R') as (s' & E & R''); [cbn in *; lia|]. exists s'. split; [done|]. unfold evicted in R''. cbn in R''.
      destruct (spec_evict (cs_capacity sp) l (cs_used sp)) as [gone rest]. cbn. by rewrite <-(assoc_L (++)) in R''.
    + exists s. split; [done|]. cbn. rewrite app_nil_r. destruct sp. cbn in *. by subst.
Qed.

Lemma prune_loop_refines fuel : ∀ s sp, represents s sp → (length (cs_lru sp) < fuel)%nat → ∃ s', prune_loop fuel s = Some s' ∧ represents s' (spec_Prune sp).
Proof.
  induction fuel as [|fuel IH]; intros s sp R Hf; [lia|]. pose proof R as [H _ _ _ _ _]. cbn [prune_loop]. rewrite (oldest s sp R). cbn [mbind option_bind]. unfold spec_Prune.
  destruct (cs_lru sp) as [|e l] eqn:El; cbn [ids fmap list_fmap head default from_option Datatypes.id].
  - rewrite Nat.eqb_refl. exists s. split; [done|]. cbn. rewrite app_nil_r. destruct sp. cbn in *. by subst.
  - rewrite (proj2 (Nat.eqb_neq _ _)) by (by eapply oldest_id). cbn [negb]. destruct (evict_oldest_refines s sp e l R El) as (s1 & -> & R'). cbn [mbind option_bind]. destruct (IH s1 _ R') as (s' & E & R''); [cbn in *; lia|].
    exists s'. split; [done|]. unfold spec_Prune in R''. cbn in R''. by rewrite <-(assoc_L (++)) in R''.
Qed.

(** ** Insertion *)

Lemma heap_enough s sp : represents s sp → (length (cs_lru sp) < S (base.size (handles s)))%nat.
Proof. intros [[_ Hh _ _ _ _] _ _ _ _ _]. rewrite (heap_size _ _ Hh). unfold tagged. rewrite length_app, !length_fmap, length_app. lia. Qed.

Lemma add_uncached s sp e : represents s sp → ce_id e = cs_next sp → ce_refs e = 1 →
  represents (with_handle (MkLRU (capacity_ s) (usage_ s) (handles s) (links s) (next_hash s) (table_ s) (S (ce_id e)) (deleted s)) (ce_id e) (handle_of false e))
    (MkCacheSpec (cs_capacity sp) (cs_lru sp) (cs_used sp) (cs_held sp ++ [e]) (S (ce_id e)) (cs_deleted sp)).
Proof.
  intros [H R1 R2 R3 R4 (bs & T & Hp)] Ei Er. split; try done; cbn.
  - eapply (lists_add s); [exact H|apply tagged_held_end|congruence|lia|done|done|apply (lo_cycles _ _ _ _ H)|done|set_solver].
  - exists bs. split; [|done]. eapply table_frame; [exact T|done|]. intros p h Hin Hh. exists h. split; [|done]. rewrite lookup_insert_ne; [done|]. intros <-. rewrite Ei, <-R2 in Hh.
    by rewrite (heap_fresh _ _ _ (lo_heap _ _ _ _ H) (proj2 (new_apart _ _ _ _ H))) in Hh.
Qed.

(** The state in which the table takes the new handle. *)
Lemma add_cached s sp e : represents s sp → ce_id e = cs_next sp → ce_refs e = 1 → ∃ L', LRU_Append in_use_ (ce_id e) (links s) = Some L' ∧
  ∀ s1, handles s1 = <[ce_id e := handle_of true e]> (handles s) → links s1 = L' → next_address s1 = S (ce_id e) → next_hash s1 = next_hash s → table_ s1 = table_ s →
    lists_ok s1 (cs_lru sp) (cs_used sp ++ [e]) (cs_held sp) ∧ ∃ bs, table_ok (handles s1) (next_hash s1) (table_ s1) bs ∧ concat bs ≡ₚ ids (cs_lru sp ++ cs_used sp) ∧ ce_id e ∉ concat bs.
Proof.
  intros [H R1 R2 R3 R4 (bs & T & Hp)] Ei Er. pose proof (new_apart _ _ _ _ H) as [Hf Hf']. rewrite R2, <-Ei in Hf. destruct (cycles_append _ _ _ _ (ce_id e) _ (cycles_swap _ _ _ _ _ (lo_cycles _ _ _ _ H)) Hf) as (L' & E & Hc).
  exists L'. split; [done|]. intros s1 E1 E2 E3 E4 E5. split.
  - eapply (lists_add s); [exact H|apply tagged_used_end|congruence|lia|done|done|rewrite E2; apply cycles_swap; unfold ids; by rewrite fmap_app|done|set_solver].
  - exists bs. split; [|split; [done|]].
    + rewrite E1, E4, E5. eapply table_frame; [exact T|done|]. intros p h Hin Hh. exists h. split; [|done]. rewrite lookup_insert_ne; [done|]. intros <-. rewrite Ei, <-R2 in Hh.
      by rewrite (heap_fresh _ _ _ (lo_heap _ _ _ _ H) Hf') in Hh.
    + rewrite Hp. intros Hin. apply Hf. do 2 right. unfold ids in *. rewrite fmap_app, elem_of_app in *. tauto.
Qed.

Lemma add_handle_refines s sp k hv v ch : represents s sp → size (cs_lru sp ++ cs_used sp) < 2 ^ 31 →
  ∃ s', add_handle k hv v ch s = Some s' ∧ represents s' (spec_add (MkCacheEntry (cs_next sp) k hv v ch 1) sp).
Proof.
  intros R Hsize. set (e := MkCacheEntry (cs_next sp) k hv v ch 1). pose proof R as [H R1 R2 R3 R4 _]. unfold add_handle, spec_add. cbn [capacity_]. rewrite R1, R2. destruct (cs_capacity sp >? 0); [|].
  2: { eexists. split; [done|]. pose proof (add_uncached s sp e R eq_refl eq_refl) as R'. by rewrite R1 in R'. }
  destruct (add_cached s sp e R eq_refl eq_refl) as (L' & E & Hadd). cbn [links with_handle]. change (LRU_Append in_use_ (cs_next sp) (links s) = Some L') in E. rewrite E. cbn [mbind option_bind].
  change (MkLRUHandle v ch k true 2 hv) with (handle_of true e). change (cs_next sp) with (ce_id e).
  set (s1 := with_usage _ _). destruct (Hadd s1 eq_refl eq_refl eq_refl eq_refl eq_refl) as (H1 & bs & T & Hp & He). clear Hadd.
  assert (Hl : handles s1 !! ce_id e = Some (handle_of true e)) by apply lookup_insert_eq.
  destruct (table_Insert_spec (handles s1) T (ce_id e) _ Hl He) as (old & nh & t & bs' & Et & T' & Ho). { rewrite (to_elems _ _ _ _ T). unfold size in *. rewrite Hp. unfold ids. by rewrite length_fmap. }
  rewrite Et. cbn [mbind option_bind]. assert (Hu : usage_ s1 = total (cs_lru sp ++ cs_used sp ++ [e])).
  { cbn. rewrite R3, (assoc_L (++)), (total_perm ((cs_lru sp ++ cs_used sp) ++ [e]) (e :: cs_lru sp ++ cs_used sp)) by (by rewrite <-Permutation_cons_append). rewrite total_cons. cbn. f_equal. lia. }
  assert (Hids : ids (cs_lru sp ++ cs_used sp ++ [e]) ≡ₚ ce_id e :: concat bs) by (unfold ids; rewrite (assoc_L (++)), fmap_app, Hp; cbn; by rewrite <-Permutation_cons_append).
  assert (Hfound : ∀ x, x ∈ cs_lru sp ++ cs_used sp → is_key k hv x = true → old = Some (ce_id x) ∧ ids (cs_lru sp ++ cs_used sp ++ [e]) ≡ₚ ce_id x :: concat bs').
  { intros x Hx Ek. assert (Hlx : handles s1 !! ce_id x = Some (handle_of true x)) by (apply (lo_entry _ _ _ _ _ _ H1), in_tagged; left; set_solver).
    assert (Hinx : ce_id x ∈ concat bs) by (rewrite Hp; apply list_elem_of_fmap; by exists x). destruct old as [p|].
    - destruct Ho as [(h & Hh & [Ek1 Ev1]%matches_true) (rest & Hr & Hr')]. apply is_key_true in Ek as [Ek Ev]. assert (p = ce_id x) as ->.
      { apply (to_keys _ _ _ _ T p (ce_id x) h (handle_of true x)); [rewrite Hr; by left|done|done|done|cbn in *; congruence|cbn in *; congruence]. }
      split; [done|]. rewrite Hids, Hr, Hr'. apply Permutation_swap.
    - destruct Ho as [Ho _]. specialize (Ho _ Hinx _ Hlx). cbn in Ho. rewrite matches_entry in Ho. congruence. }
  apply (lists_with_table _ nh t) in H1. unfold spec_Erase. change (ce_key e) with k. change (ce_hash e) with hv. destruct (pick (is_key k hv) (cs_lru sp)) as [[x rest]|] eqn:E1; [|destruct (pick (is_key k hv) (cs_used sp)) as [[x rest]|] eqn:E2].
  - apply pick_Some in E1 as (Ek & l1 & l2 & El & -> & _). destruct (Hfound x) as [-> Hx]; [rewrite El; set_solver|done|]. rewrite El in H1, Hx, Hu.
    destruct (finish_lru _ _ _ _ _ _ bs' H1 T' Hx Hu) as (s' & -> & R'). exists s'. split; [done|]. cbn in R' |- *. by rewrite R4 in R'.
  - apply pick_Some in E2 as (Ek & l1 & l2 & El & -> & _). destruct (Hfound x) as [-> Hx]; [rewrite El; set_solver|done|]. rewrite El, <-(assoc_L (++)) in H1, Hx, Hu.
    destruct (finish_used _ _ _ _ _ _ bs' H1 T' Hx Hu) as (s' & -> & R'). exists s'. split; [done|]. cbn in R' |- *. rewrite R4 in R'. by rewrite <-(assoc_L (++)).
  - destruct old as [p|].
    + exfalso. destruct Ho as [Hat (rest & Hr & _)]. assert (Hin : p ∈ ids (cs_lru sp ++ cs_used sp)) by (rewrite <-Hp, Hr; by left). apply list_elem_of_fmap in Hin as (x & -> & Hx).
      destruct Hat as (h & Hh & Hm). assert (handles s1 !! ce_id x = Some (handle_of true x)) as Hx' by (apply (lo_entry _ _ _ _ true x H1), in_tagged; left; set_solver). rewrite Hx' in Hh. injection Hh as <-. rewrite matches_entry in Hm. cbn in Hm.
      apply elem_of_app in Hx as [Hx|Hx]; [by rewrite (pick_None _ _ E1) in Hm|by rewrite (pick_None _ _ E2) in Hm].
    + cbn. eexists. split; [done|]. split; cbn; try done. exists bs'. split; [done|]. destruct Ho as [_ Ho]. by rewrite Ho, Hids.
Qed.

Lemma Insert_refines s sp k hv v ch : represents s sp → size (cs_lru sp ++ cs_used sp) < 2 ^ 31 →
  ∃ s', Insert k hv v ch s = Some ((spec_Insert k hv v ch sp).1, s') ∧ represents s' (spec_Insert k hv v ch sp).2.
Proof.
  intros R Hsize. destruct (add_handle_refines s sp k hv v ch R Hsize) as (s1 & E1 & R1). destruct (evict_loop_refines (S (base.size (handles s1))) s1 _ R1 (heap_enough _ _ R1)) as (s2 & E2 & R2).
  unfold Insert. rewrite E1. cbn [mbind option_bind]. rewrite E2. cbn [mbind option_bind]. exists s2. by rewrite (rp_next _ _ R).
Qed.

Lemma Prune_refines s sp : represents s sp → ∃ s', Prune s = Some s' ∧ represents s' (spec_Prune sp).
Proof. intros R. apply prune_loop_refines; [done|]. by apply heap_enough. Qed.

Lemma New_represents : ∃ s, NewLRUCache = Some s ∧ ∀ capacity, represents (SetCapacity capacity s) (NewCacheSpec capacity).
Proof.
  destruct (Resize_spec (∅ : gmap nat (LRUHandle V)) ∅ (MkHandleTable 0 0 []) []) as (nh & t & bs & E & B & Hp & He & Hl); [constructor|constructor|by intros p ?%not_elem_of_nil|done|cbn; lia|].
  unfold NewLRUCache, NewHandleTable. rewrite E. cbn. eexists. split; [done|]. intros capacity. split; try done; cbn.
  - split; cbn; [|split; [constructor|done|by intros x ?%not_elem_of_nil]|by intros x ?%not_elem_of_nil|done|by intros x ?%not_elem_of_nil|by intros x ?%not_elem_of_nil].
    split; [done|done|]. cbn. apply NoDup_cons. split; [by intros ?%list_elem_of_singleton|apply NoDup_singleton].
  - cbn in Hp, He. assert (Ec : concat bs = []) by by apply Permutation_nil_r. exists bs. rewrite Ec. split; [|done]. split; [|rewrite Ec; done|lia|lia|rewrite Ec; by intros p q hp hq ?%not_elem_of_nil].
    destruct B as [B1 B2 B3 B4 B5]. split; try done.
    + apply Forall2_same_length_lookup in B1 as [Hlen Hc]. apply Forall2_same_length_lookup. split; [done|]. intros i o l Ho Hli. eapply chain_frame; [|by eapply Hc]. intros p Hin. exfalso.
      assert (p ∈ concat bs) as Hx by (apply bucket_elem; eauto). rewrite Ec in Hx. by apply not_elem_of_nil in Hx.
Qed.

(** ** Destruction *)

Lemma destroy_loop_spec held : ∀ lru fuel s, (length lru < fuel)%nat → heap_ok (handles s) (tagged lru [] held) → (∀ e, e ∈ lru → ce_refs e = 0) →
  match lru with [] => True | e :: l => path (links s) (ce_id e) (ids l) lru_ end →
  ∃ s', destroy_loop fuel (default lru_ (head (ids lru))) s = Some s' ∧ heap_ok (handles s') (tagged [] [] held) ∧ deleted s' = deleted s ++ (item <$> lru).
Proof.
  induction lru as [|e l IH]; intros fuel s Hf Hh Hr Hp; (destruct fuel as [|fuel]; [cbn in Hf; lia|]); cbn [destroy_loop ids fmap list_fmap head default from_option Datatypes.id].
  - rewrite Nat.eqb_refl. exists s. cbn. by rewrite app_nil_r.
  - assert (Hl : handles s !! ce_id e = Some (handle_of true e)) by (eapply heap_lookup; [done|by left]). assert (H2 : (2 <= ce_id e)%nat) by (apply (ho_heads _ _ Hh (true, e)); by left).
    rewrite (proj2 (Nat.eqb_neq _ _)) by (unfold lru_; lia). rewrite (proj1 (path_first _ _ _ _ Hp)). cbn [mbind option_bind]. rewrite Hl. cbn [mbind option_bind]. cbn [handle_of in_cache refs].
    rewrite (Hr e) by (by left). cbn [Z.add Z.eqb Pos.eqb andb]. unfold Unref. cbn [handles with_handle]. rewrite lookup_insert_eq. cbn [mbind option_bind]. cbn [out_of_cache with_refs refs in_cache handle_of].
    rewrite (Hr e) by (by left). change (0 + 1 - 1) with 0. change (0 + 1) with 1. change (1 =? 1) with true. change (1 >? 0) with true. change (0 =? 0) with true. cbn [mbind option_bind].
    match goal with |- context [destroy_loop fuel _ ?x] => set (s1 := x) end. destruct (IH fuel s1) as (s' & E & Hh' & D).
    + cbn in Hf. lia.
    + unfold s1. cbn. rewrite insert_insert_eq, delete_insert_eq. apply (heap_free _ _ true e). exact Hh.
    + intros x Hx. apply Hr. by right.
    + destruct l as [|e' l]; [done|]. destruct Hp as [_ Hp]. unfold s1. cbn. pose proof (ho_nodup _ _ Hh) as Hnd. cbn in Hnd. apply NoDup_cons in Hnd as [Hn _].
      eapply (path_same (λ p, p = ce_id e)); [|intros p Hin ->|exact Hp].
      * intros p Hpe. cbn. by rewrite !lookup_delete_ne.
      * apply elem_of_cons in Hin as [Hin|[Hin|Hin]%elem_of_cons].
        -- apply Hn. apply elem_of_cons. by left.
        -- unfold lru_ in Hin. lia.
        -- apply Hn. right. apply list_elem_of_fmap in Hin as (x & Ex & Hx). apply list_elem_of_fmap. exists (true, x). split; [done|]. rewrite elem_of_app. left. apply list_elem_of_fmap. exists x. split; [done|]. set_solver.
    + exists s'. split; [exact E|]. split; [done|]. rewrite D. unfold s1. cbn. by rewrite <-(assoc_L (++)).
Qed.

Lemma Destroy_refines s sp : represents s sp → cs_used sp = [] → ∃ s', DestroyLRUCache s = Some s' ∧ heap_ok (handles s') (tagged [] [] (cs_held sp)) ∧ deleted s' = cs_deleted sp ++ (item <$> cs_lru sp).
Proof.
  intros R Eu. pose proof (heap_enough _ _ R) as Hf. pose proof (oldest _ _ R) as Ho. destruct R as [[Hc Hh _ _ Hi _] _ _ _ R4 _]. rewrite Eu in Hc, Hh. unfold DestroyLRUCache. destruct Hc as [Hc1 Hc2 _]. destruct Hc2 as [Hc2 _].
  rewrite Hc2. cbn [mbind option_bind]. rewrite Nat.eqb_refl, Ho. cbn [mbind option_bind]. rewrite <-R4. apply destroy_loop_spec; try done. destruct (cs_lru sp) as [|e l]; [done|]. by destruct Hc1 as [_ ?].
Qed.

End Refines.
