(* ===== verification/ShardedCache.v ===== *)
(** * The sharded cache (src/util/cache.cc, class ShardedLRUCache)

    The hash of a key chooses one of sixteen shards.  The heap of a shard is its own
    part of the memory, so that a handle is the number of the part and an address.
    The theorems are about sequences of calls of a client. *)

From stdpp Require Import gmap list.
From S2P Require Import Prelude Coding Bloom Links LruCache LruTable LruSpec LruRefines.

Definition kNumShardBits : Z := 4.
Definition kNumShards : Z := Z.shiftl 1 kNumShardBits.

Definition HashSlice (s : bytes) : Z := Hash.Hash s 0.
Definition Shard (hash : Z) : nat := Z.to_nat (Z.shiftr hash (32 - kNumShardBits)).
Definition per_shard (capacity : Z) : Z := u64 (capacity + (kNumShards - 1)) / kNumShards.

Section Sharded.
  Context {V : Type}.

Record ShardedLRUCache := MkSharded { shard_ : list (LRUCache V); last_id_ : Z }.

Definition CacheHandle : Type := nat * nat.

Definition NewShardedLRUCache (capacity : Z) : option ShardedLRUCache :=
  s ← NewLRUCache; Some (MkSharded (replicate (Z.to_nat kNumShards) (SetCapacity (per_shard capacity) s)) 0).

(** A call of a method of [shard_[i]]. *)
Definition on_shard {A} (i : nat) (f : LRUCache V → option (A * LRUCache V)) (c : ShardedLRUCache) : option (A * ShardedLRUCache) :=
  s ← shard_ c !! i; '(r, s) ← f s; Some (r, MkSharded (<[i:=s]> (shard_ c)) (last_id_ c)).

Definition CacheInsert (key : bytes) (value : V) (charge : Z) (c : ShardedLRUCache) : option (CacheHandle * ShardedLRUCache) :=
  let hash := HashSlice key in
  '(p, c) ← on_shard (Shard hash) (Insert key hash value charge) c; Some ((Shard hash, p), c).

Definition CacheLookup (key : bytes) (c : ShardedLRUCache) : option (option CacheHandle * ShardedLRUCache) :=
  let hash := HashSlice key in
  '(o, c) ← on_shard (Shard hash) (Lookup key hash) c; Some (option_map (pair (Shard hash)) o, c).

(** The shard of a handle is found through the hash that is stored in it. *)
Definition CacheRelease (handle : CacheHandle) (c : ShardedLRUCache) : option ShardedLRUCache :=
  s ← shard_ c !! handle.1; h ← handles s !! handle.2;
  snd <$> on_shard (Shard (hash h)) (λ s, s ← Release handle.2 s; Some (tt, s)) c.

Definition CacheErase (key : bytes) (c : ShardedLRUCache) : option ShardedLRUCache :=
  let hash := HashSlice key in snd <$> on_shard (Shard hash) (Erase key hash) c.

Definition CacheValue (handle : CacheHandle) (c : ShardedLRUCache) : option V :=
  s ← shard_ c !! handle.1; value <$> handles s !! handle.2.

Definition NewId (c : ShardedLRUCache) : Z * ShardedLRUCache :=
  let id := u64 (last_id_ c + 1) in (id, MkSharded (shard_ c) id).

Definition CachePrune (c : ShardedLRUCache) : option ShardedLRUCache :=
  shards ← mapM Prune (shard_ c); Some (MkSharded shards (last_id_ c)).

Definition CacheTotalCharge (c : ShardedLRUCache) : Z :=
  foldl (λ total s, u64 (total + TotalCharge s)) 0 (shard_ c).

(** The destructor: what the deleters were called for, shard by shard. *)
Definition DestroyCache (c : ShardedLRUCache) : option (list (bytes * V)) :=
  shards ← mapM DestroyLRUCache (shard_ c); Some (concat (deleted <$> shards)).

(** ** Clients *)

Inductive CacheOp :=
  | OpInsert (key : bytes) (value : V) (charge : Z)
  | OpLookup (key : bytes)
  | OpRelease (handle : CacheHandle)
  | OpErase (key : bytes)
  | OpPrune
  | OpNewId.

Inductive CacheResult := GotHandle (handle : option CacheHandle) | GotId (id : Z) | GotNothing.

Definition cache_op (op : CacheOp) (c : ShardedLRUCache) : option (CacheResult * ShardedLRUCache) :=
  match op with
  | OpInsert k v ch => '(h, c) ← CacheInsert k v ch c; Some (GotHandle (Some h), c)
  | OpLookup k => '(o, c) ← CacheLookup k c; Some (GotHandle o, c)
  | OpRelease h => c ← CacheRelease h c; Some (GotNothing, c)
  | OpErase k => c ← CacheErase k c; Some (GotNothing, c)
  | OpPrune => c ← CachePrune c; Some (GotNothing, c)
  | OpNewId => let '(id, c) := NewId c in Some (GotId id, c)
  end.

Fixpoint cache_run (ops : list CacheOp) (c : ShardedLRUCache) : option (list CacheResult * ShardedLRUCache) :=
  match ops with
  | [] => Some ([], c)
  | op :: ops => '(r, c) ← cache_op op c; '(rs, c) ← cache_run ops c; Some (r :: rs, c)
  end.

(** ** The specification of the whole cache *)

Record ShardedSpec := MkShardedSpec { ss_shards : list (CacheSpec V); ss_id : Z }.

Definition NewShardedSpec (capacity : Z) : ShardedSpec := MkShardedSpec (replicate (Z.to_nat kNumShards) (NewCacheSpec (per_shard capacity))) 0.

Definition shard_spec (i : nat) (sp : CacheSpec V) (c : ShardedSpec) : ShardedSpec := MkShardedSpec (<[i:=sp]> (ss_shards c)) (ss_id c).

(** [None]: the client releases what it does not hold. *)
Definition spec_op (op : CacheOp) (c : ShardedSpec) : option (CacheResult * ShardedSpec) :=
  match op with
  | OpInsert k v ch => let i := Shard (HashSlice k) in sp ← ss_shards c !! i; let '(p, sp) := spec_Insert k (HashSlice k) v ch sp in Some (GotHandle (Some (i, p)), shard_spec i sp c)
  | OpLookup k => let i := Shard (HashSlice k) in sp ← ss_shards c !! i; let '(o, sp) := spec_Lookup k (HashSlice k) sp in Some (GotHandle (option_map (pair i) o), shard_spec i sp c)
  | OpRelease h => sp ← ss_shards c !! h.1; sp ← spec_Release h.2 sp; Some (GotNothing, shard_spec h.1 sp c)
  | OpErase k => let i := Shard (HashSlice k) in sp ← ss_shards c !! i; Some (GotNothing, shard_spec i (spec_Erase k (HashSlice k) sp).2 c)
  | OpPrune => Some (GotNothing, MkShardedSpec (spec_Prune <$> ss_shards c) (ss_id c))
  | OpNewId => Some (GotId (u64 (ss_id c + 1)), MkShardedSpec (ss_shards c) (u64 (ss_id c + 1)))
  end.

Fixpoint spec_run (ops : list CacheOp) (c : ShardedSpec) : option (list CacheResult * ShardedSpec) :=
  match ops with
  | [] => Some ([], c)
  | op :: ops => '(r, c) ← spec_op op c; '(rs, c) ← spec_run ops c; Some (r :: rs, c)
  end.

(** ** The specification keeps what the implementation needs *)

Definition entries (sp : CacheSpec V) : list (CacheEntry V) := cs_lru sp ++ cs_used sp ++ cs_held sp.

(** [n] bounds references and entries; the entries of shard [i] belong there. *)
Definition fits (n : Z) (i : nat) (e : CacheEntry V) : Prop := ce_refs e <= n ∧ Shard (ce_hash e) = i.

Definition within (n : Z) (i : nat) (sp : CacheSpec V) : Prop :=
  0 <= n ∧ (Forall (fits n i) (cs_lru sp) ∧ Forall (fits n i) (cs_used sp) ∧ Forall (fits n i) (cs_held sp)) ∧ size (cs_lru sp) + size (cs_used sp) <= n.

Lemma fits_mono n i l : Forall (fits n i) l → Forall (fits (n + 1) i) l.
Proof. intros H. eapply Forall_impl; [exact H|]. intros e [? ?]. split; [lia|done]. Qed.

Lemma within_next n i sp : within n i sp → within (n + 1) i sp.
Proof. intros (H0 & (H1 & H2 & H3) & H4). split_and!; [lia|by apply fits_mono..|lia]. Qed.

Lemma fits_update n i P f (l : list (CacheEntry V)) : (∀ e, fits n i e → fits n i (f e)) → Forall (fits n i) l → Forall (fits n i) (update P f l).
Proof. intros Hf. induction 1 as [|e l He Hl IH]; cbn; [constructor|]. destruct (P e); constructor; auto. Qed.

Lemma length_update P f (l : list (CacheEntry V)) : length (update P f l) = length l.
Proof. induction l as [|x l IH]; cbn; [done|]. destruct (P x); cbn; congruence. Qed.

Lemma within_Lookup n i k hv sp : within n i sp → within (n + 1) i (spec_Lookup k hv sp).2.
Proof.
  intros (H0 & (H1 & H2 & H3) & H4). unfold spec_Lookup. destruct (pick (is_key k hv) (cs_lru sp)) as [[e rest]|] eqn:E1; [|destruct (pick (is_key k hv) (cs_used sp)) as [[e rest]|] eqn:E2]; cbn [snd].
  - apply pick_Some in E1 as (_ & l1 & l2 & El & -> & _). rewrite El, !size_app, !size_cons in *. apply Forall_app in H1 as [Ha [[He Hs] Hb]%Forall_cons].
    split_and!; cbn; [lia|apply fits_mono; by apply Forall_app|apply Forall_app; split; [by apply fits_mono|]|by apply fits_mono|rewrite !size_app, size_cons, size_nil; lia].
    constructor; [|constructor]. split; [cbn; lia|done].
  - split_and!; cbn; [lia|by apply fits_mono| |by apply fits_mono|unfold size in *; rewrite length_update; lia]. clear -H2. induction H2 as [|x l [Hx Hs] Hl IH]; cbn; [constructor|].
    destruct (is_key k hv x); constructor; try done; [split; cbn; [lia|done]|by apply fits_mono|split; [lia|done]].
  - by apply within_next.
Qed.

Lemma within_Release n i p sp sp' : within n i sp → spec_Release p sp = Some sp' → within n i sp'.
Proof.
  intros (H0 & (H1 & H2 & H3) & H4). unfold spec_Release. assert (Hdec : ∀ e, fits n i e → fits n i (set_refs e (ce_refs e - 1))) by (intros e [? ?]; split; [cbn; lia|done]).
  destruct (pick (is_id p) (cs_used sp)) as [[e rest]|] eqn:E1; [|destruct (pick (is_id p) (cs_held sp)) as [[e rest]|] eqn:E2; [|done]]; intros [= <-]; destruct (ce_refs e =? 1).
  - apply pick_Some in E1 as (_ & l1 & l2 & El & -> & _). rewrite El, !size_app, !size_cons in *. apply Forall_app in H2 as [Ha [[He Hs] Hb]%Forall_cons].
    split_and!; cbn; [done|apply Forall_app; split; [done|]|by apply Forall_app|done|rewrite !size_app, size_cons, size_nil; lia]. constructor; [|constructor]. by split.
  - split_and!; cbn; [done|done|by apply fits_update|done|unfold size in *; by rewrite length_update].
  - apply pick_Some in E2 as (_ & l1 & l2 & El & -> & _). rewrite El in *. apply Forall_app in H3 as [Ha [_ Hb]%Forall_cons]. split_and!; cbn; try done. by apply Forall_app.
  - split_and!; cbn; try done. by apply fits_update.
Qed.

Lemma within_Erase n i k hv sp : within n i sp → within n i (spec_Erase k hv sp).2.
Proof.
  intros (H0 & (H1 & H2 & H3) & H4). unfold spec_Erase. destruct (pick (is_key k hv) (cs_lru sp)) as [[e rest]|] eqn:E1; [|destruct (pick (is_key k hv) (cs_used sp)) as [[e rest]|] eqn:E2]; cbn [snd].
  - apply pick_Some in E1 as (_ & l1 & l2 & El & -> & _). rewrite El, !size_app, !size_cons in *. apply Forall_app in H1 as [Ha [_ Hb]%Forall_cons]. split_and!; cbn; try done; [by apply Forall_app|rewrite size_app; lia].
  - apply pick_Some in E2 as (_ & l1 & l2 & El & -> & _). rewrite El, !size_app, !size_cons in *. apply Forall_app in H2 as [Ha [He Hb]%Forall_cons].
    split_and!; cbn; try done; [by apply Forall_app|apply Forall_app; split; [done|by constructor]|rewrite size_app; lia].
  - done.
Qed.

Lemma spec_evict_split capacity (used lru : list (CacheEntry V)) : lru = (spec_evict capacity lru used).1 ++ (spec_evict capacity lru used).2.
Proof.
  induction lru as [|e l IH]; cbn [spec_evict]; [done|]. destruct (total ((e :: l) ++ used) >? capacity); [|done]. destruct (spec_evict capacity l used) as [gone rest]. cbn in *. by rewrite IH at 1.
Qed.

Lemma within_Insert n i k v ch sp : within n i sp → Shard (HashSlice k) = i → within (n + 1) i (spec_Insert k (HashSlice k) v ch sp).2.
Proof.
  intros W Hi. cbn [spec_Insert snd]. set (e := MkCacheEntry _ _ _ _ _ _). assert (within (n + 1) i (spec_add e sp)) as (H0 & (H1 & H2 & H3) & H4).
  { assert (fits (n + 1) i e) by (split; [cbn; destruct W; lia|done]). unfold spec_add. destruct (cs_capacity sp >? 0).
    - pose proof (within_Erase n i (ce_key e) (ce_hash e) sp W) as W1. revert W1. generalize (spec_Erase (ce_key e) (ce_hash e) sp).2. intros sp1 (H0 & (H1 & H2 & H3) & H4).
      split_and!; cbn; [lia|by apply fits_mono|apply Forall_app; split; [by apply fits_mono|by constructor]|by apply fits_mono|rewrite size_app, size_cons, size_nil; lia].
    - destruct W as (H0 & (H1 & H2 & H3) & H4). split_and!; cbn; [lia|by apply fits_mono|by apply fits_mono|apply Forall_app; split; [by apply fits_mono|by constructor]|lia]. }
  unfold evicted. pose proof (spec_evict_split (cs_capacity (spec_add e sp)) (cs_used (spec_add e sp)) (cs_lru (spec_add e sp))) as El. destruct (spec_evict _ _ _) as [gone rest]. cbn in El. rewrite El, size_app in *.
  apply Forall_app in H1 as [_ H1]. pose proof (size_nonneg gone). split_and!; cbn; try done. lia.
Qed.

Lemma within_Prune n i sp : within n i sp → within n i (spec_Prune sp).
Proof. intros (H0 & (H1 & H2 & H3) & H4). pose proof (size_nonneg (cs_lru sp)). split_and!; cbn; try done. rewrite size_nil. lia. Qed.

(** ** Refinement *)

Record cache_represents (n : Z) (c : ShardedLRUCache) (sc : ShardedSpec) : Prop := {
  cr_shards : Forall2 represents (shard_ c) (ss_shards sc);
  cr_id : last_id_ c = ss_id sc;
  cr_within : ∀ i sp, ss_shards sc !! i = Some sp → within n i sp;
}.

Lemma New_cache_represents capacity : ∃ c, NewShardedLRUCache capacity = Some c ∧ cache_represents 0 c (NewShardedSpec capacity).
Proof.
  destruct (New_represents (V := V)) as (s & E & R). unfold NewShardedLRUCache. rewrite E. cbn. eexists. split; [done|]. split; [by apply Forall2_replicate|done|]. intros i sp [-> _]%lookup_replicate. split_and!; try constructor; done.
Qed.

(** A call of one shard. *)
Lemma on_shard_refines {A} n c sc i (f : LRUCache V → option (A * LRUCache V)) sp r sp' : cache_represents n c sc → ss_shards sc !! i = Some sp →
  (∀ s, represents s sp → within n i sp → ∃ s', f s = Some (r, s') ∧ represents s' sp') → within (n + 1) i sp' →
  ∃ c', on_shard i f c = Some (r, c') ∧ cache_represents (n + 1) c' (shard_spec i sp' sc).
Proof.
  intros [H1 H2 H3] Hi Hf Hw. destruct (Forall2_lookup_r _ _ _ _ _ H1 Hi) as (s & Hs & R). destruct (Hf s R (H3 i sp Hi)) as (s' & E & R'). unfold on_shard. rewrite Hs. cbn [mbind option_bind]. rewrite E. cbn [mbind option_bind].
  eexists. split; [done|]. split; [by apply Forall2_insert|done|]. cbn. intros j spj Hj. destruct (decide (i = j)) as [<-|Hne].
  - rewrite list_lookup_insert_eq in Hj by (by eapply lookup_lt_Some). by injection Hj as <-.
  - rewrite list_lookup_insert_ne in Hj by done. apply within_next. by apply H3.
Qed.

Lemma cache_value_of n c sc i sp e : cache_represents n c sc → ss_shards sc !! i = Some sp → e ∈ entries sp → CacheValue (i, ce_id e) c = Some (ce_value e).
Proof.
  intros [R1 _ _] Hi He. destruct (Forall2_lookup_r _ _ _ _ _ R1 Hi) as (s & Hs & R). unfold CacheValue. cbn. rewrite Hs. cbn.
  assert (∃ b, (b, e) ∈ tagged (cs_lru sp) (cs_used sp) (cs_held sp)) as [b Hin] by (unfold entries in He; rewrite (assoc_L (++)) in He; apply elem_of_app in He as [He|He]; [exists true|exists false]; apply in_tagged; auto).
  by rewrite (lo_entry _ _ _ _ _ _ (rp_lists _ _ R) Hin).
Qed.

Lemma within_room n i sp : within n i sp → n + 2 < 2 ^ 31 → size (cs_lru sp ++ cs_used sp) < 2 ^ 31 ∧ ∀ e, e ∈ cs_used sp → ce_refs e + 2 < 2 ^ 32.
Proof. intros (H0 & (_ & H2 & _) & H4) Hn. rewrite size_app. split; [lia|]. rewrite Forall_forall in H2. intros e He. destruct (H2 e He). lia. Qed.

Lemma cache_op_refines n c sc op r sc' : cache_represents n c sc → n + 2 < 2 ^ 31 → spec_op op sc = Some (r, sc') → ∃ c', cache_op op c = Some (r, c') ∧ cache_represents (n + 1) c' sc'.
Proof.
  intros R Hn. destruct op as [k v ch|k|h|k| |]; cbn [spec_op cache_op].
  - destruct (ss_shards sc !! Shard (HashSlice k)) as [sp|] eqn:Hi; cbn; [|done]. intros [= <- <-]. pose proof (cr_within _ _ _ R _ _ Hi) as W. destruct (within_room _ _ _ W Hn) as [Hs _].
    destruct (on_shard_refines n c sc _ (Insert k (HashSlice k) v ch) sp _ _ R Hi (λ s R _, Insert_refines s sp k (HashSlice k) v ch R Hs) (within_Insert _ _ _ _ _ _ W eq_refl)) as (c' & E & R').
    unfold CacheInsert. rewrite E. cbn. by exists c'.
  - destruct (ss_shards sc !! Shard (HashSlice k)) as [sp|] eqn:Hi; cbn [mbind option_bind]; [|done]. pose proof (cr_within _ _ _ R _ _ Hi) as W. destruct (within_room _ _ _ W Hn) as [_ Hs].
    destruct (on_shard_refines n c sc _ (Lookup k (HashSlice k)) sp _ _ R Hi (λ s R _, Lookup_refines s sp k (HashSlice k) R Hs) (within_Lookup _ _ k (HashSlice k) _ W)) as (c' & E & R').
    unfold CacheLookup. rewrite E. cbn [mbind option_bind]. destruct (spec_Lookup k (HashSlice k) sp) as [o sp'] eqn:Es. intros [= <- <-]. by exists c'.
  - destruct (ss_shards sc !! h.1) as [sp|] eqn:Hi; cbn [mbind option_bind]; [|done]. destruct (spec_Release h.2 sp) as [sp'|] eqn:Es; cbn [mbind option_bind]; [|done]. intros [= <- <-]. pose proof (cr_within _ _ _ R _ _ Hi) as W.
    destruct (on_shard_refines n c sc h.1 (λ s, s ← Release h.2 s; Some (tt, s)) sp tt sp' R Hi) as (c' & E & R').
    { intros s Rs _. destruct (Release_refines s sp h.2 sp' Rs Es) as (s' & E' & R'). rewrite E'. by exists s'. }
    { apply within_next. by eapply within_Release. }
    destruct (Forall2_lookup_r _ _ _ _ _ (cr_shards _ _ _ R) Hi) as (s & Hs & Rs). unfold CacheRelease. rewrite Hs. cbn [mbind option_bind].
    assert (∃ e b, (b, e) ∈ tagged (cs_lru sp) (cs_used sp) (cs_held sp) ∧ ce_id e = h.2 ∧ Shard (ce_hash e) = h.1) as (e & b & Hin & Eid & Esh).
    { destruct W as (_ & (_ & H2 & H3) & _). rewrite Forall_forall in H2, H3. unfold spec_Release in Es. destruct (pick (is_id h.2) (cs_used sp)) as [[e rest]|] eqn:E1; [|destruct (pick (is_id h.2) (cs_held sp)) as [[e rest]|] eqn:E2; [|done]].
      - apply pick_Some in E1 as (Ei%Nat.eqb_eq & l1 & l2 & El & _ & _). assert (Hu : e ∈ cs_used sp) by (rewrite El; set_solver). exists e, true. split_and!; [apply in_tagged; left; set_solver|done|by apply (H2 e)].
      - apply pick_Some in E2 as (Ei%Nat.eqb_eq & l1 & l2 & El & _ & _). assert (Hu : e ∈ cs_held sp) by (rewrite El; set_solver). exists e, false. split_and!; [apply in_tagged; by right|done|by apply (H3 e)]. }
    rewrite <-Eid, (lo_entry _ _ _ _ _ _ (rp_lists _ _ Rs) Hin). cbn [mbind option_bind]. cbn [hash handle_of]. rewrite Esh, Eid, E. cbn. by exists c'.
  - destruct (ss_shards sc !! Shard (HashSlice k)) as [sp|] eqn:Hi; cbn [mbind option_bind]; [|done]. intros [= <- <-]. pose proof (cr_within _ _ _ R _ _ Hi) as W.
    destruct (on_shard_refines n c sc _ (Erase k (HashSlice k)) sp _ _ R Hi (λ s R _, Erase_refines s sp k (HashSlice k) R)) as (c' & E & R'); [apply within_next; by apply within_Erase|].
    unfold CacheErase. rewrite E. cbn. by exists c'.
  - intros [= <- <-]. destruct R as [H1 H2 H3]. assert (∃ shards, mapM Prune (shard_ c) = Some shards ∧ Forall2 represents shards (spec_Prune <$> ss_shards sc)) as (shards & E & H1').
    { clear -H1. induction H1 as [|s sp ss sps Rs _ (shards & E & IH)]; [by exists []|]. destruct (Prune_refines s sp Rs) as (s' & E' & R'). exists (s' :: shards).
      split; [|by constructor]. apply mapM_Some. constructor; [done|]. by apply mapM_Some. }
    unfold CachePrune. rewrite E. cbn. eexists. split; [done|]. split; [done|done|]. cbn. intros i sp. rewrite list_lookup_fmap. intros (sp0 & Hi & ->)%fmap_Some. apply within_next, within_Prune. by apply H3.
  - intros [= <- <-]. destruct R as [H1 H2 H3]. rewrite <-H2. eexists. split; [done|]. split; [done|done|]. cbn. intros i sp Hi. apply within_next. by apply H3.
Qed.

Lemma cache_run_refines ops : ∀ n c sc rs sc', cache_represents n c sc → n + size ops + 1 < 2 ^ 31 → spec_run ops sc = Some (rs, sc') →
  ∃ c', cache_run ops c = Some (rs, c') ∧ cache_represents (n + size ops) c' sc'.
Proof.
  induction ops as [|op ops IH]; intros n c sc rs sc' R Hn; cbn [spec_run cache_run].
  - intros [= <- <-]. exists c. by rewrite size_nil, Z.add_0_r.
  - rewrite size_cons in *. pose proof (size_nonneg ops). destruct (spec_op op sc) as [[r sc1]|] eqn:E; cbn [mbind option_bind]; [|done]. destruct (cache_op_refines n c sc op r sc1 R ltac:(lia) E) as (c1 & -> & R1). cbn [mbind option_bind].
    destruct (spec_run ops sc1) as [[rs1 sc2]|] eqn:E2; cbn [mbind option_bind]; [|done]. intros [= <- <-]. destruct (IH (n + 1) c1 sc1 rs1 sc2 R1 ltac:(lia) E2) as (c' & -> & R'). cbn. exists c'.
    split; [done|]. by rewrite Z.add_assoc.
Qed.

(** ** What happens to the values *)

(** Every value is with the deleter or in memory. *)
Definition account (sp : CacheSpec V) : list (bytes * V) := cs_deleted sp ++ (item <$> entries sp).

Lemma item_update P n (l : list (CacheEntry V)) : item <$> update P (λ e, set_refs e (n e)) l = item <$> l.
Proof. induction l as [|e l IH]; cbn; [done|]. destruct (P e); cbn; by f_equal. Qed.

Lemma account_Lookup k hv sp : account (spec_Lookup k hv sp).2 ≡ₚ account sp.
Proof.
  unfold spec_Lookup. destruct (pick (is_key k hv) (cs_lru sp)) as [[e rest]|] eqn:E1; [|destruct (pick (is_key k hv) (cs_used sp)) as [[e rest]|] eqn:E2]; cbn [snd]; unfold account, entries; cbn.
  - apply pick_Some in E1 as (_ & l1 & l2 & El & -> & _). rewrite El, <-!(assoc_L (++)), !fmap_app. cbn. by rewrite <-!Permutation_middle.
  - by rewrite !fmap_app, item_update.
  - done.
Qed.

Lemma account_Release p sp sp' : spec_Release p sp = Some sp' → account sp' ≡ₚ account sp.
Proof.
  unfold spec_Release. destruct (pick (is_id p) (cs_used sp)) as [[e rest]|] eqn:E1; [|destruct (pick (is_id p) (cs_held sp)) as [[e rest]|] eqn:E2; [|done]]; intros [= <-]; destruct (ce_refs e =? 1); unfold account, entries; cbn.
  - apply pick_Some in E1 as (_ & l1 & l2 & El & -> & _). rewrite El, <-!(assoc_L (++)), !fmap_app. cbn. by rewrite <-!Permutation_middle.
  - by rewrite !fmap_app, item_update.
  - apply pick_Some in E2 as (_ & l1 & l2 & El & -> & _). rewrite El, <-!(assoc_L (++)), !fmap_app. cbn. by rewrite <-!Permutation_middle.
  - by rewrite !fmap_app, item_update.
Qed.

Lemma account_Erase k hv sp : account (spec_Erase k hv sp).2 ≡ₚ account sp.
Proof.
  unfold spec_Erase. destruct (pick (is_key k hv) (cs_lru sp)) as [[e rest]|] eqn:E1; [|destruct (pick (is_key k hv) (cs_used sp)) as [[e rest]|] eqn:E2]; cbn [snd]; unfold account, entries; cbn.
  - apply pick_Some in E1 as (_ & l1 & l2 & El & -> & _). rewrite El, <-!(assoc_L (++)), !fmap_app. cbn. by rewrite <-!Permutation_middle.
  - apply pick_Some in E2 as (_ & l1 & l2 & El & -> & _). rewrite El, <-!(assoc_L (++)), !fmap_app. cbn. by rewrite <-!Permutation_middle, app_nil_r.
  - done.
Qed.

Lemma account_evicted sp : account (evicted sp) ≡ₚ account sp.
Proof.
  unfold evicted. pose proof (spec_evict_split (cs_capacity sp) (cs_used sp) (cs_lru sp)) as El. destruct (spec_evict _ _ _) as [gone rest]. cbn in El. unfold account, entries. cbn. rewrite El, <-!(assoc_L (++)), !fmap_app. done.
Qed.

Lemma account_Insert k hv v ch sp : account (spec_Insert k hv v ch sp).2 ≡ₚ (k, v) :: account sp.
Proof.
  cbn [spec_Insert snd]. rewrite account_evicted. set (e := MkCacheEntry _ _ _ _ _ _). change (k, v) with (item e). unfold spec_add. destruct (cs_capacity sp >? 0).
  - rewrite <-(account_Erase (ce_key e) (ce_hash e) sp). generalize (spec_Erase (ce_key e) (ce_hash e) sp).2. intros sp1. unfold account, entries. cbn [cs_deleted cs_lru cs_used cs_held]. rewrite <-!(assoc_L (++)), !fmap_app. cbn [fmap list_fmap app].
    by rewrite <-!Permutation_middle.
  - unfold account, entries. cbn [cs_deleted cs_lru cs_used cs_held]. rewrite !fmap_app. cbn [fmap list_fmap app]. by rewrite <-!Permutation_middle, app_nil_r.
Qed.

Lemma account_Prune sp : account (spec_Prune sp) ≡ₚ account sp.
Proof. unfold account, entries. cbn. by rewrite <-(assoc_L (++)), !fmap_app. Qed.

(** The values that a client inserted. *)
Definition inserted (ops : list CacheOp) : list (bytes * V) := omap (λ op, match op with OpInsert k v _ => Some (k, v) | _ => None end) ops.

Definition accounts (sc : ShardedSpec) : list (bytes * V) := concat (account <$> ss_shards sc).

Lemma accounts_shard i sp sp' sc d : ss_shards sc !! i = Some sp → account sp' ≡ₚ d ++ account sp → accounts (shard_spec i sp' sc) ≡ₚ d ++ accounts sc.
Proof.
  intros Hi Hp. unfold accounts, shard_spec. cbn. rewrite list_fmap_insert. destruct (concat_perm (account <$> ss_shards sc) i (account sp) (account sp')) as (rest & E1 & E2 & _); [by rewrite list_lookup_fmap, Hi|].
  by rewrite E1, E2, Hp, (assoc_L (++)).
Qed.

Lemma accounts_op op sc r sc' : spec_op op sc = Some (r, sc') → accounts sc' ≡ₚ inserted [op] ++ accounts sc.
Proof.
  destruct op as [k v ch|k|h|k| |]; cbn [spec_op inserted omap list_omap].
  - destruct (ss_shards sc !! _) as [sp|] eqn:Hi; cbn [mbind option_bind]; [|done]. intros E. injection E as <- <-. apply (accounts_shard _ sp _ sc [(k, v)] Hi), account_Insert.
  - destruct (ss_shards sc !! _) as [sp|] eqn:Hi; cbn [mbind option_bind]; [|done]. destruct (spec_Lookup k (HashSlice k) sp) as [o sp'] eqn:Es. intros [= <- <-]. apply (accounts_shard _ sp _ sc [] Hi). cbn. pose proof (account_Lookup k (HashSlice k) sp) as Ha. by rewrite Es in Ha.
  - destruct (ss_shards sc !! _) as [sp|] eqn:Hi; cbn [mbind option_bind]; [|done]. destruct (spec_Release h.2 sp) as [sp'|] eqn:Es; cbn [mbind option_bind]; [|done]. intros [= <- <-]. apply (accounts_shard _ sp _ sc [] Hi). cbn. by eapply account_Release.
  - destruct (ss_shards sc !! _) as [sp|] eqn:Hi; cbn [mbind option_bind]; [|done]. intros [= <- <-]. apply (accounts_shard _ sp _ sc [] Hi), account_Erase.
  - intros [= <- <-]. unfold accounts. cbn. clear. induction (ss_shards sc) as [|sp l IH]; cbn [fmap list_fmap concat]; [done|]. by rewrite account_Prune, IH.
  - by intros [= <- <-].
Qed.

Lemma accounts_run ops : ∀ sc rs sc', spec_run ops sc = Some (rs, sc') → accounts sc' ≡ₚ inserted ops ++ accounts sc.
Proof.
  induction ops as [|op ops IH]; intros sc rs sc'; cbn [spec_run].
  - by intros [= <- <-].
  - destruct (spec_op op sc) as [[r sc1]|] eqn:E; cbn [mbind option_bind]; [|done]. destruct (spec_run ops sc1) as [[rs1 sc2]|] eqn:E2; cbn [mbind option_bind]; [|done]. intros [= <- <-]. rewrite (IH _ _ _ E2), (accounts_op _ _ _ _ E).
    rewrite (assoc_L (++)), (Permutation_app_comm (inserted ops)). unfold inserted. change (op :: ops) with ([op] ++ ops). by rewrite omap_app.
Qed.

(** ** Charges *)

Definition charges (sc : ShardedSpec) : Z := u64 (foldr Z.add 0 ((λ sp, total (cs_lru sp ++ cs_used sp)) <$> ss_shards sc)).

Lemma charges_foldl ss (sps : list (CacheSpec V)) a : Forall2 represents ss sps →
  foldl (λ t s, u64 (t + TotalCharge s)) (u64 a) ss = u64 (a + foldr Z.add 0 ((λ sp, total (cs_lru sp ++ cs_used sp)) <$> sps)).
Proof.
  intros H. revert a. induction H as [|s sp ss sps R _ IH]; intros a; cbn; [by rewrite Z.add_0_r|]. unfold TotalCharge at 2. rewrite (rp_usage _ _ R). unfold u64 at 2 3. rewrite Zplus_mod_idemp_l. fold (u64 (a + total (cs_lru sp ++ cs_used sp))). rewrite IH. f_equal. lia.
Qed.

Lemma spec_evict_fits capacity (used lru : list (CacheEntry V)) : total ((spec_evict capacity lru used).2 ++ used) <= capacity ∨ (spec_evict capacity lru used).2 = [].
Proof.
  induction lru as [|e l IH]; cbn [spec_evict]; [by right|]. destruct (Z.gtb_spec (total ((e :: l) ++ used)) capacity) as [H|H]; [|by left]. by destruct (spec_evict capacity l used).
Qed.

Lemma capacity_evicted (sp : CacheSpec V) : cs_capacity (evicted sp) = cs_capacity sp.
Proof. unfold evicted. by destruct (spec_evict _ _ _). Qed.

Lemma capacity_Erase k hv (sp : CacheSpec V) : cs_capacity (spec_Erase k hv sp).2 = cs_capacity sp.
Proof. unfold spec_Erase. by repeat case_match. Qed.

Lemma capacity_Insert k hv v ch (sp : CacheSpec V) : cs_capacity (spec_Insert k hv v ch sp).2 = cs_capacity sp.
Proof. cbn [spec_Insert snd]. rewrite capacity_evicted. unfold spec_add. destruct (cs_capacity sp >? 0); [|done]. cbn [cs_capacity]. apply capacity_Erase. Qed.

Lemma capacity_op cap op sc r sc' : spec_op op sc = Some (r, sc') → Forall (λ sp, cs_capacity sp = cap) (ss_shards sc) → Forall (λ sp, cs_capacity sp = cap) (ss_shards sc').
Proof.
  assert (Hset : ∀ i sp sp', ss_shards sc !! i = Some sp → cs_capacity sp' = cs_capacity sp → Forall (λ sp, cs_capacity sp = cap) (ss_shards sc) → Forall (λ sp, cs_capacity sp = cap) (ss_shards (shard_spec i sp' sc))).
  { intros i sp sp' Hi Ec Hf. apply Forall_insert; [done|]. rewrite Ec. by apply (Forall_lookup_1 _ _ _ _ Hf Hi). }
  destruct op as [k v ch|k|h|k| |]; cbn [spec_op].
  - destruct (ss_shards sc !! _) as [sp|] eqn:Hi; cbn [mbind option_bind]; [|done]. intros E. injection E as <- <-. eapply Hset; [done|]. apply capacity_Insert.
  - destruct (ss_shards sc !! _) as [sp|] eqn:Hi; cbn [mbind option_bind]; [|done]. destruct (spec_Lookup k (HashSlice k) sp) as [o sp'] eqn:Es. intros [= <- <-]. eapply Hset; [done|]. unfold spec_Lookup in Es. repeat case_match; by simplify_eq.
  - destruct (ss_shards sc !! _) as [sp|] eqn:Hi; cbn [mbind option_bind]; [|done]. destruct (spec_Release h.2 sp) as [sp'|] eqn:Es; cbn [mbind option_bind]; [|done]. intros [= <- <-]. eapply Hset; [done|]. unfold spec_Release in Es. repeat case_match; by simplify_eq.
  - destruct (ss_shards sc !! _) as [sp|] eqn:Hi; cbn [mbind option_bind]; [|done]. intros [= <- <-]. eapply Hset; [done|]. apply capacity_Erase.
  - intros [= <- <-] Hf. cbn. by apply Forall_fmap.
  - by intros [= <- <-].
Qed.

Lemma capacity_run cap ops : ∀ sc rs sc', spec_run ops sc = Some (rs, sc') → Forall (λ sp, cs_capacity sp = cap) (ss_shards sc) → Forall (λ sp, cs_capacity sp = cap) (ss_shards sc').
Proof.
  induction ops as [|op ops IH]; intros sc rs sc'; cbn [spec_run]; [by intros [= <- <-]|]. destruct (spec_op op sc) as [[r sc1]|] eqn:E; cbn [mbind option_bind]; [|done]. destruct (spec_run ops sc1) as [[rs1 sc2]|] eqn:E2; cbn [mbind option_bind]; [|done].
  intros [= <- <-] Hf. eapply IH; [done|]. by eapply capacity_op.
Qed.

Lemma cache_run_app ops1 ops2 c : cache_run (ops1 ++ ops2) c = ('(rs1, c) ← cache_run ops1 c; '(rs2, c) ← cache_run ops2 c; Some (rs1 ++ rs2, c)).
Proof.
  revert c. induction ops1 as [|op ops1 IH]; intros c; cbn [app cache_run mbind option_bind]; [by destruct (cache_run ops2 c) as [[rs c']|]|]. destruct (cache_op op c) as [[r c1]|]; cbn [mbind option_bind]; [|done]. rewrite IH.
  destruct (cache_run ops1 c1) as [[rs1 c2]|]; cbn [mbind option_bind]; [|done]. by destruct (cache_run ops2 c2) as [[rs2 c3]|].
Qed.

Lemma shard_lt k : (Shard (HashSlice k) < Z.to_nat kNumShards)%nat.
Proof. pose proof (Hash.Hash_range k 0) as H. unfold Shard, HashSlice, kNumShardBits. rewrite Z.shiftr_div_pow2 by lia. change (Z.to_nat kNumShards) with (Z.to_nat 16). apply Z2Nat.inj_lt; [apply Z.div_pos; destruct H; lia|lia|]. apply Z.div_lt_upper_bound; [lia|]. destruct H. lia. Qed.

Lemma shards_op op sc r sc' : spec_op op sc = Some (r, sc') → length (ss_shards sc') = length (ss_shards sc).
Proof.
  assert (Hset : ∀ i sp, length (ss_shards (shard_spec i sp sc)) = length (ss_shards sc)) by (intros i sp; apply length_insert). destruct op as [k v ch|k|h|k| |]; cbn [spec_op].
  - destruct (ss_shards sc !! _) as [sp|]; cbn [mbind option_bind]; [|done]. intros E. injection E as <- <-. apply Hset.
  - destruct (ss_shards sc !! _) as [sp|]; cbn [mbind option_bind]; [|done]. destruct (spec_Lookup k (HashSlice k) sp) as [o sp']. intros [= <- <-]. apply Hset.
  - destruct (ss_shards sc !! _) as [sp|]; cbn [mbind option_bind]; [|done]. destruct (spec_Release h.2 sp) as [sp'|]; cbn [mbind option_bind]; [|done]. intros [= <- <-]. apply Hset.
  - destruct (ss_shards sc !! _) as [sp|]; cbn [mbind option_bind]; [|done]. intros [= <- <-]. apply Hset.
  - intros [= <- <-]. apply length_fmap.
  - by intros [= <- <-].
Qed.

Lemma shards_run ops : ∀ sc rs sc', spec_run ops sc = Some (rs, sc') → length (ss_shards sc') = length (ss_shards sc).
Proof.
  induction ops as [|op ops IH]; intros sc rs sc'; cbn [spec_run]; [by intros [= <- <-]|]. destruct (spec_op op sc) as [[r sc1]|] eqn:E; cbn [mbind option_bind]; [|done]. destruct (spec_run ops sc1) as [[rs1 sc2]|] eqn:E2; cbn [mbind option_bind]; [|done].
  intros [= <- <-]. rewrite (IH _ _ _ E2). by eapply shards_op.
Qed.

End Sharded.

Arguments ShardedLRUCache : clear implicits.
Arguments ShardedSpec : clear implicits.
Arguments CacheOp : clear implicits.

(** C11: A client of the cache sees an LRU cache: for every sequence of calls that only releases handles it holds, the sixteen shards with their linked lists, hash tables and reference counts return the same handles and ids as the specification with lists, without touching freed memory or failing an assertion; the values behind the handles, the total charge and the calls of deleters are the specified ones. *)
Theorem cache_refines_spec (V : Type) (capacity : Z) (ops : list (CacheOp V)) (rs : list CacheResult) (sc : ShardedSpec V) :
  size ops < 2 ^ 31 - 1 → spec_run ops (NewShardedSpec capacity) = Some (rs, sc) →
  ∃ c0 c, NewShardedLRUCache capacity = Some c0 ∧ cache_run ops c0 = Some (rs, c) ∧ CacheTotalCharge c = charges sc ∧
    (∀ i sp e, ss_shards sc !! i = Some sp → e ∈ entries sp → CacheValue (i, ce_id e) c = Some (ce_value e)) ∧
    (∀ i sp s, ss_shards sc !! i = Some sp → shard_ c !! i = Some s → deleted s = cs_deleted sp).
Proof.
  intros Hn Es. destruct (New_cache_represents (V := V) capacity) as (c0 & E0 & R0). destruct (cache_run_refines ops 0 c0 _ rs sc R0 ltac:(lia) Es) as (c & E & R). pose proof R as [R1 R2 R3]. exists c0, c. split_and!; [done|done| | |].
  - unfold CacheTotalCharge. change 0 with (u64 0) at 1. by rewrite (charges_foldl _ _ 0 R1).
  - intros i sp e Hi He. by eapply cache_value_of.
  - intros i sp s Hi Hs. apply (rp_deleted _ _ (Forall2_lookup_lr _ _ _ _ _ _ R1 Hs Hi)).
Qed.

(** C13: Every value that was inserted is passed to its deleter exactly once: when a client gave back all its handles and the cache is destroyed, the calls of deleters are the inserted keys with their values, in some order. *)
Theorem cache_deletes_once (V : Type) (capacity : Z) (ops : list (CacheOp V)) (rs : list CacheResult) (sc : ShardedSpec V) :
  size ops < 2 ^ 31 - 1 → spec_run ops (NewShardedSpec capacity) = Some (rs, sc) → Forall (λ sp, cs_used sp = [] ∧ cs_held sp = []) (ss_shards sc) →
  ∃ c0 c log, NewShardedLRUCache capacity = Some c0 ∧ cache_run ops c0 = Some (rs, c) ∧ DestroyCache c = Some log ∧ log ≡ₚ inserted ops.
Proof.
  intros Hn Es Hfree. destruct (New_cache_represents (V := V) capacity) as (c0 & E0 & R0). destruct (cache_run_refines ops 0 c0 _ rs sc R0 ltac:(lia) Es) as (c & E & [R1 _ _]). exists c0, c.
  assert (∃ shards, mapM DestroyLRUCache (shard_ c) = Some shards ∧ concat (deleted <$> shards) = accounts sc) as (shards & Em & Ed).
  { unfold accounts. clear -R1 Hfree. induction R1 as [|s sp ss sps R _ IH]; [by exists []|]. apply Forall_cons in Hfree as [[Eu Eh] Hfree]. destruct (IH Hfree) as (shards & Em & Ed). destruct (Destroy_refines s sp R Eu) as (s' & E' & _ & D).
    exists (s' :: shards). split; [apply mapM_Some; constructor; [done|]; by apply mapM_Some|]. cbn [fmap list_fmap concat]. rewrite Ed, D. unfold account, entries. by rewrite Eu, Eh, !app_nil_r. }
  exists (accounts sc). split_and!; [done|done|unfold DestroyCache; rewrite Em; cbn; by rewrite Ed|]. rewrite (accounts_run _ _ _ _ Es). unfold accounts, NewShardedSpec. cbn [ss_shards]. rewrite fmap_replicate. change (account (NewCacheSpec (per_shard capacity))) with ([] : list (bytes * V)). by rewrite concat_replicate_nil, app_nil_r.
Qed.

(** C12: An insertion keeps the shard within its capacity: afterwards the charges of the shard that the key belongs to are at most the capacity per shard, or every entry that is left in it is in use by a client. *)
Theorem cache_insert_bounded (V : Type) (capacity : Z) (ops : list (CacheOp V)) (rs : list CacheResult) (sc : ShardedSpec V) (k : bytes) (v : V) (ch : Z) :
  size ops < 2 ^ 31 - 2 → spec_run ops (NewShardedSpec capacity) = Some (rs, sc) →
  ∃ c0 c h s, NewShardedLRUCache capacity = Some c0 ∧ cache_run (ops ++ [OpInsert k v ch]) c0 = Some (rs ++ [GotHandle (Some h)], c) ∧
    shard_ c !! Shard (HashSlice k) = Some s ∧ (TotalCharge s <= per_shard capacity ∨ next_ (links s) !! lru_ = Some lru_).
Proof.
  intros Hn Es. destruct (New_cache_represents (V := V) capacity) as (c0 & E0 & R0). destruct (cache_run_refines ops 0 c0 _ rs sc R0 ltac:(lia) Es) as (c & E & R). rewrite Z.add_0_l in R.
  assert (Hcap : Forall (λ sp, cs_capacity sp = per_shard capacity) (ss_shards sc)) by (eapply capacity_run; [exact Es|]; apply Forall_replicate; done).
  destruct (lookup_lt_is_Some_2 (ss_shards sc) (Shard (HashSlice k))) as [sp Hi]. { rewrite (shards_run _ _ _ _ Es). cbn [NewShardedSpec ss_shards]. rewrite length_replicate. apply shard_lt. }
  destruct (cache_op_refines (size ops) c sc (OpInsert k v ch) _ _ R ltac:(lia) ltac:(cbn [spec_op]; rewrite Hi; reflexivity)) as (c' & E' & [R1 _ _]).
  set (sp' := (spec_Insert k (HashSlice k) v ch sp).2). assert (Hi' : ss_shards (shard_spec (Shard (HashSlice k)) sp' sc) !! Shard (HashSlice k) = Some sp') by (cbn; by rewrite list_lookup_insert_eq by (by eapply lookup_lt_Some)).
  destruct (Forall2_lookup_r _ _ _ _ _ R1 Hi') as (s & Hs & Rs). exists c0, c', (Shard (HashSlice k), cs_next sp), s. split_and!; [done| |done|].
  - rewrite cache_run_app, E. cbn [mbind option_bind cache_run]. rewrite E'. done.
  - unfold TotalCharge. rewrite (rp_usage _ _ Rs), (oldest _ _ Rs). assert (Ec : cs_capacity (spec_add (MkCacheEntry (cs_next sp) k (HashSlice k) v ch 1) sp) = per_shard capacity).
    { rewrite <-(Forall_lookup_1 _ _ _ _ Hcap Hi), <-(capacity_Insert k (HashSlice k) v ch sp). cbn [spec_Insert snd]. by rewrite capacity_evicted. }
    unfold sp'. cbn [spec_Insert snd]. unfold evicted. rewrite Ec. pose proof (spec_evict_fits (per_shard capacity) (cs_used (spec_add (MkCacheEntry (cs_next sp) k (HashSlice k) v ch 1) sp)) (cs_lru (spec_add (MkCacheEntry (cs_next sp) k (HashSlice k) v ch 1) sp))) as Hf.
    destruct (spec_evict _ _ _) as [gone rest]. cbn in *. destruct Hf as [Hf| ->]; [by left|by right].
Qed.

(** A client that inserts, finds, replaces and releases. *)
Module CacheExample.
Definition a : bytes := [Byte.x61].
Definition shard : nat := Shard (HashSlice a).
Definition ops : list (CacheOp Z) :=
  [OpInsert a 10 1; OpLookup a; OpRelease (shard, 2%nat); OpInsert a 11 1; OpRelease (shard, 2%nat); OpLookup [Byte.x62]; OpRelease (shard, 3%nat); OpLookup a; OpRelease (shard, 3%nat); OpNewId].
Definition results : list CacheResult :=
  [GotHandle (Some (shard, 2%nat)); GotHandle (Some (shard, 2%nat)); GotNothing; GotHandle (Some (shard, 3%nat)); GotNothing; GotHandle None; GotNothing; GotHandle (Some (shard, 3%nat)); GotNothing; GotId 1].
Definition final : ShardedSpec Z := default (NewShardedSpec 16) (snd <$> spec_run ops (NewShardedSpec 16)).

Lemma runs : spec_run ops (NewShardedSpec 16) = Some (results, final).
Proof. vm_compute. reflexivity. Qed.

Lemma final_free : Forall (λ sp, cs_used sp = [] ∧ cs_held sp = []) (ss_shards final).
Proof. vm_compute. repeat constructor. Qed.
End CacheExample.

(** The lookup after the replacement returns the new handle. *)
Lemma cache_refines_spec_witness : ∃ c0 c, NewShardedLRUCache 16 = Some c0 ∧ cache_run CacheExample.ops c0 = Some (CacheExample.results, c) ∧ CacheTotalCharge c = 1 ∧ CacheValue (CacheExample.shard, 3%nat) c = Some 11.
Proof.
  destruct (cache_refines_spec Z 16 CacheExample.ops CacheExample.results CacheExample.final ltac:(by vm_compute) CacheExample.runs) as (c0 & c & E0 & E & Ht & Hv & _).
  exists c0, c. split; [exact E0|]. split; [exact E|]. split; [rewrite Ht; vm_compute; reflexivity|]. eapply (Hv CacheExample.shard _ (MkCacheEntry 3 CacheExample.a (HashSlice CacheExample.a) 11 1 0)).
  - vm_compute. reflexivity.
  - left.
Defined.

(** Both values of the key are deleted. *)
Lemma cache_deletes_once_witness : ∃ c0 c log, NewShardedLRUCache 16 = Some c0 ∧ cache_run CacheExample.ops c0 = Some (CacheExample.results, c) ∧ DestroyCache c = Some log ∧ log ≡ₚ [(CacheExample.a, 10); (CacheExample.a, 11)].
Proof. exact (cache_deletes_once Z 16 CacheExample.ops CacheExample.results CacheExample.final ltac:(by vm_compute) CacheExample.runs CacheExample.final_free). Defined.

(** A second entry of the shard pushes the first one out. *)
Lemma cache_insert_bounded_witness : ∃ c0 c h s, NewShardedLRUCache 16 = Some c0 ∧ cache_run (CacheExample.ops ++ [OpInsert CacheExample.a 12 1]) c0 = Some (CacheExample.results ++ [GotHandle (Some h)], c) ∧
  shard_ c !! CacheExample.shard = Some s ∧ (TotalCharge s <= 1 ∨ next_ (links s) !! lru_ = Some lru_).
Proof. exact (cache_insert_bounded Z 16 CacheExample.ops CacheExample.results CacheExample.final CacheExample.a 12 1 ltac:(by vm_compute) CacheExample.runs). Defined.
