(* ===== verification/CachePins.v ===== *)
(** * The handles that clients hold, and the values that are in memory

    Facts about the specification of the sharded cache that its clients rely on: a
    handle that was given out and not yet released keeps its entry, and a value is
    deleted only when its entry is gone. *)

From stdpp Require Import gmap list.
From S2P Require Import Prelude Coding Bloom Links LruCache LruTable LruSpec LruRefines ShardedCache.

Section Pins.
  Context {V : Type}.
  Implicit Types (sp : CacheSpec V) (sc : ShardedSpec V) (e : CacheEntry V).

(** ** References of clients *)

Definition name e : nat * (bytes * V) := (ce_id e, item e).

(** One occurrence for every reference. *)
Definition pin e : list (nat * (bytes * V)) := replicate (Z.to_nat (ce_refs e)) (name e).
Definition pins sp : list (nat * (bytes * V)) := concat (pin <$> (cs_used sp ++ cs_held sp)).

Definition busy sp : Prop := ∀ e, e ∈ cs_used sp ++ cs_held sp → 0 < ce_refs e.

Lemma pin_more e n : 0 <= n → pin (set_refs e (n + 1)) = name e :: pin (set_refs e n).
Proof. intros Hn. unfold pin. cbn [set_refs ce_refs]. by replace (Z.to_nat (n + 1)) with (S (Z.to_nat n)) by lia. Qed.

Lemma pin_less e : 0 < ce_refs e → pin e = name e :: pin (set_refs e (ce_refs e - 1)).
Proof. intros Hr. rewrite <-pin_more by lia. unfold pin. cbn [set_refs ce_refs]. by rewrite Z.sub_add. Qed.

Lemma pins_mid (l1 l2 : list (CacheEntry V)) e : concat (pin <$> (l1 ++ e :: l2)) ≡ₚ pin e ++ concat (pin <$> (l1 ++ l2)).
Proof. rewrite !fmap_app, !concat_app, fmap_cons. cbn [concat]. by rewrite Permutation_app_swap_app. Qed.

Lemma pins_split sp : pins sp = concat (pin <$> cs_used sp) ++ concat (pin <$> cs_held sp).
Proof. unfold pins. by rewrite fmap_app, concat_app. Qed.

Lemma pinned sp x : x ∈ pins sp → ∃ e, e ∈ entries sp ∧ name e = x.
Proof.
  unfold pins. intros (i & l & Hi & Hx)%bucket_elem. rewrite list_lookup_fmap in Hi. apply fmap_Some in Hi as (e & He & ->). apply elem_of_replicate in Hx as [-> _]. exists e. split; [|done].
  unfold entries. apply elem_of_app. right. by eapply list_elem_of_lookup_2.
Qed.

(** A lookup pins the entry that it finds, under the key. *)
Lemma pins_Lookup k hv sp : busy sp →
  match (spec_Lookup k hv sp).1 with
  | Some p => ∃ v, pins (spec_Lookup k hv sp).2 ≡ₚ (p, (k, v)) :: pins sp
  | None => pins (spec_Lookup k hv sp).2 = pins sp
  end.
Proof.
  intros B. unfold spec_Lookup. destruct (pick (is_key k hv) (cs_lru sp)) as [[e rest]|] eqn:E1; [|destruct (pick (is_key k hv) (cs_used sp)) as [[e rest]|] eqn:E2]; cbn [fst snd]; [| |done]; exists (ce_value e).
  - apply pick_Some in E1 as ([Hk _]%is_key_true & _). rewrite !pins_split. cbn [cs_used cs_held]. rewrite fmap_app, concat_app, <-(assoc_L (++)). cbn [fmap list_fmap concat]. change 1 with (0 + 1). rewrite pin_more by lia. unfold name, item. rewrite Hk. cbn. by rewrite <-Permutation_middle.
  - apply pick_Some in E2 as ([Hk _]%is_key_true & l1 & l2 & El & _ & Hu). rewrite Hu, !pins_split. cbn [cs_used cs_held]. rewrite El, !pins_mid, pin_more by (pose proof (B e ltac:(rewrite El; set_solver)); lia).
    unfold name, item. rewrite Hk. cbn [app]. f_equiv. f_equiv. f_equiv. unfold pin. by cbn.
Qed.

(** A release gives back one reference. *)
Lemma pins_Release p sp sp' : busy sp → spec_Release p sp = Some sp' → ∃ v, pins sp ≡ₚ (p, v) :: pins sp'.
Proof.
  intros B. unfold spec_Release. destruct (pick (is_id p) (cs_used sp)) as [[e rest]|] eqn:E1; [|destruct (pick (is_id p) (cs_held sp)) as [[e rest]|] eqn:E2; [|done]]; intros Es; injection Es as <-; exists (item e).
  - apply pick_Some in E1 as (Hp%Nat.eqb_eq & l1 & l2 & El & -> & Hu). assert (Hr : 0 < ce_refs e) by (apply B; rewrite El; set_solver). subst p. fold (name e).
    destruct (Z.eqb_spec (ce_refs e) 1) as [H1|H1]; rewrite !pins_split; cbn [cs_used cs_held]; rewrite ?Hu, El, !pins_mid, (pin_less e Hr); [|done]. rewrite H1. done.
  - apply pick_Some in E2 as (Hp%Nat.eqb_eq & l1 & l2 & El & -> & Hu). assert (Hr : 0 < ce_refs e) by (apply B; rewrite El; set_solver). subst p. fold (name e).
    destruct (Z.eqb_spec (ce_refs e) 1) as [H1|H1]; rewrite !pins_split; cbn [cs_used cs_held]; rewrite ?Hu, El, !pins_mid, (pin_less e Hr); [rewrite H1|]; cbn [app]; by rewrite <-Permutation_middle.
Qed.

Lemma can_Release p v sp : (p, v) ∈ pins sp → is_Some (spec_Release p sp).
Proof.
  unfold pins. intros (i & l & Hi & Hx)%bucket_elem. rewrite list_lookup_fmap in Hi. apply fmap_Some in Hi as (e & He%list_elem_of_lookup_2 & ->). apply elem_of_replicate in Hx as [[= -> _] _].
  unfold spec_Release. destruct (pick (is_id (ce_id e)) (cs_used sp)) as [[? ?]|] eqn:E1; [by eexists|]. destruct (pick (is_id (ce_id e)) (cs_held sp)) as [[? ?]|] eqn:E2; [by eexists|].
  apply elem_of_app in He as [He|He]; [pose proof (pick_None _ _ E1 e He) as Hn|pose proof (pick_None _ _ E2 e He) as Hn]; unfold is_id in Hn; by rewrite Nat.eqb_refl in Hn.
Qed.

Lemma pins_Erase k hv sp : pins (spec_Erase k hv sp).2 ≡ₚ pins sp.
Proof.
  unfold spec_Erase. destruct (pick (is_key k hv) (cs_lru sp)) as [[e rest]|] eqn:E1; [done|destruct (pick (is_key k hv) (cs_used sp)) as [[e rest]|] eqn:E2]; cbn [snd]; [|done].
  apply pick_Some in E2 as (_ & l1 & l2 & El & -> & _). rewrite !pins_split. cbn [cs_used cs_held]. rewrite El, !pins_mid, app_nil_r, Permutation_app_swap_app, (assoc_L (++)). done.
Qed.

Lemma pins_evicted sp : pins (evicted sp) = pins sp.
Proof. unfold evicted. by destruct (spec_evict _ _ _). Qed.

(** The client of an insertion has the first reference. *)
Lemma pins_Insert k hv v ch sp : pins (spec_Insert k hv v ch sp).2 ≡ₚ (cs_next sp, (k, v)) :: pins sp.
Proof.
  cbn [spec_Insert snd]. rewrite pins_evicted. set (e := MkCacheEntry _ _ _ _ _ _). change (cs_next sp, (k, v)) with (name e). unfold spec_add. destruct (cs_capacity sp >? 0).
  - rewrite <-(pins_Erase (ce_key e) (ce_hash e) sp). generalize (spec_Erase (ce_key e) (ce_hash e) sp).2. intros sp1. rewrite !pins_split. cbn [cs_used cs_held]. by rewrite pins_mid, app_nil_r.
  - rewrite !pins_split. cbn [cs_used cs_held]. rewrite pins_mid, app_nil_r. change (pin e) with [name e]. cbn [app]. by rewrite <-Permutation_middle.
Qed.

(** ** Values in memory *)

Definition live sc : list (bytes * V) := concat ((λ sp, item <$> entries sp) <$> ss_shards sc).
Definition dead sc : list (bytes * V) := concat (cs_deleted <$> ss_shards sc).

Lemma accounts_split sc : accounts sc ≡ₚ dead sc ++ live sc.
Proof.
  unfold accounts, dead, live, account. induction (ss_shards sc) as [|sp l IH]; cbn [fmap list_fmap concat]; [done|]. rewrite IH, <-!(assoc_L (++)). f_equiv. by rewrite Permutation_app_swap_app.
Qed.

Lemma evicted_grows sp : cs_deleted sp `prefix_of` cs_deleted (evicted sp).
Proof. unfold evicted. destruct (spec_evict _ _ _). cbn. by apply prefix_app_r. Qed.

Lemma Erase_grows k hv sp : cs_deleted sp `prefix_of` cs_deleted (spec_Erase k hv sp).2.
Proof. unfold spec_Erase. repeat case_match; cbn; try done. by apply prefix_app_r. Qed.

(** Deletions are only added. *)
Lemma deleted_grows op sc r sc' : spec_op op sc = Some (r, sc') → ∀ i sp, ss_shards sc !! i = Some sp → ∃ sp', ss_shards sc' !! i = Some sp' ∧ cs_deleted sp `prefix_of` cs_deleted sp'.
Proof.
  assert (Hset : ∀ j spj spj', ss_shards sc !! j = Some spj → cs_deleted spj `prefix_of` cs_deleted spj' → ∀ i sp, ss_shards sc !! i = Some sp → ∃ sp', ss_shards (shard_spec j spj' sc) !! i = Some sp' ∧ cs_deleted sp `prefix_of` cs_deleted sp').
  { intros j spj spj' Hj Hd i sp Hi. cbn. destruct (decide (j = i)) as [->|Hne]; [rewrite Hj in Hi; injection Hi as <-; rewrite list_lookup_insert_eq by (by eapply lookup_lt_Some); eauto|rewrite list_lookup_insert_ne by done; eauto]. }
  destruct op as [k v ch|k|h|k| |]; cbn [spec_op].
  - destruct (ss_shards sc !! _) as [sp|] eqn:Hi; cbn [mbind option_bind]; [|done]. intros E. injection E as <- <-. eapply Hset; [done|]. etrans; [|apply evicted_grows]. unfold spec_add. destruct (cs_capacity sp >? 0); [|done]. cbn [cs_deleted]. apply Erase_grows.
  - destruct (ss_shards sc !! _) as [sp|] eqn:Hi; cbn [mbind option_bind]; [|done]. destruct (spec_Lookup k (HashSlice k) sp) as [o sp'] eqn:Es. intros [= <- <-]. eapply Hset; [done|]. unfold spec_Lookup in Es. repeat case_match; by simplify_eq.
  - destruct (ss_shards sc !! _) as [sp|] eqn:Hi; cbn [mbind option_bind]; [|done]. destruct (spec_Release h.2 sp) as [sp'|] eqn:Es; cbn [mbind option_bind]; [|done]. intros [= <- <-]. eapply Hset; [done|].
    unfold spec_Release in Es. repeat case_match; simplify_eq; cbn; try done. by apply prefix_app_r.
  - destruct (ss_shards sc !! _) as [sp|] eqn:Hi; cbn [mbind option_bind]; [|done]. intros [= <- <-]. eapply Hset; [done|]. apply Erase_grows.
  - intros [= <- <-] i sp Hi. exists (spec_Prune sp). cbn. rewrite list_lookup_fmap, Hi. split; [done|]. by apply prefix_app_r.
  - intros [= <- <-] i sp Hi. cbn. eauto.
Qed.

Lemma in_dead x sc : x ∈ dead sc ↔ ∃ i sp, ss_shards sc !! i = Some sp ∧ x ∈ cs_deleted sp.
Proof.
  unfold dead. rewrite bucket_elem. split.
  - intros (i & l & Hi & Hx). rewrite list_lookup_fmap in Hi. apply fmap_Some in Hi as (sp & Hi & ->). eauto.
  - intros (i & sp & Hi & Hx). exists i, (cs_deleted sp). by rewrite list_lookup_fmap, Hi.
Qed.

Lemma in_live i sp e sc : ss_shards sc !! i = Some sp → e ∈ entries sp → item e ∈ live sc.
Proof. intros Hi He. apply bucket_elem. exists i, (item <$> entries sp). rewrite list_lookup_fmap, Hi. split; [done|]. by apply list_elem_of_fmap_2. Qed.

(** The values in memory after a call were there before or are new. *)
Lemma live_op op sc r sc' : spec_op op sc = Some (r, sc') → NoDup (snd <$> accounts sc') → ∀ x, x ∈ live sc' → x ∈ inserted [op] ∨ x ∈ live sc.
Proof.
  intros E Hnd x Hx. assert (Ha : x ∈ accounts sc') by (rewrite accounts_split; set_solver). rewrite (accounts_op _ _ _ _ E) in Ha. apply elem_of_app in Ha as [Ha|Ha]; [by left|]. right. rewrite accounts_split in Ha. apply elem_of_app in Ha as [Ha|Ha]; [|done]. exfalso.
  apply in_dead in Ha as (i & sp & Hi & Hd). destruct (deleted_grows _ _ _ _ E i sp Hi) as (sp' & Hi' & Hp). rewrite accounts_split, fmap_app in Hnd. apply NoDup_app in Hnd as (_ & Hn & _).
  apply (Hn x.2); apply list_elem_of_fmap_2; [|done]. apply in_dead. exists i, sp'. split; [done|]. destruct Hp as [d ->]. set_solver.
Qed.

End Pins.

(** ** Handles and shards *)

Section Held.
  Context {V : Type}.
  Implicit Types (sc : ShardedSpec V) (gh : list (CacheHandle * (bytes * V))).

(** What a client holds of shard [i]: handles with the keys and values they were given for. *)
Definition mine (i : nat) gh : list (nat * (bytes * V)) := omap (λ x, if decide (x.1.1 = i) then Some (x.1.2, x.2) else None) gh.

Record held gh sc : Prop := {
  held_range : ∀ x, x ∈ gh → (x.1.1 < length (ss_shards sc))%nat;
  held_pins : ∀ i sp, ss_shards sc !! i = Some sp → pins sp ≡ₚ mine i gh;
}.

Lemma mine_cons i h x gh : mine i ((h, x) :: gh) = if decide (h.1 = i) then (h.2, x) :: mine i gh else mine i gh.
Proof. unfold mine. cbn. by destruct (decide (h.1 = i)). Qed.

Lemma held_perm gh gh' sc : gh ≡ₚ gh' → held gh sc → held gh' sc.
Proof. intros Hp [H1 H2]. split; [intros x; rewrite <-Hp; apply H1|]. intros i sp Hi. rewrite (H2 i sp Hi). unfold mine. by rewrite Hp. Qed.

Lemma held_pin h x gh sc : held gh sc → (h, x) ∈ gh → ∃ sp, ss_shards sc !! h.1 = Some sp ∧ (h.2, x) ∈ pins sp.
Proof.
  intros [H1 H2] Hin. destruct (lookup_lt_is_Some_2 _ _ (H1 _ Hin)) as [sp Hi]. exists sp. split; [done|]. rewrite (H2 _ _ Hi). unfold mine. apply list_elem_of_omap. exists (h, x). split; [done|]. cbn. by rewrite decide_True.
Qed.

(** A call of shard [j]. *)
Lemma held_shard j sp sp' gh gh' sc : held gh sc → ss_shards sc !! j = Some sp → pins sp' ≡ₚ mine j gh' → (∀ i, i ≠ j → mine i gh' ≡ₚ mine i gh) → (∀ x, x ∈ gh' → x.1.1 = j ∨ x ∈ gh) → held gh' (shard_spec j sp' sc).
Proof.
  intros [H1 H2] Hj Hp Hi Hx. split.
  - intros x Hin. cbn. rewrite length_insert. destruct (Hx x Hin) as [->|Hin']; [by eapply lookup_lt_Some|by apply H1].
  - intros i spi. cbn. destruct (decide (j = i)) as [<-|Hne].
    + rewrite list_lookup_insert_eq by (by eapply lookup_lt_Some). by intros [= <-].
    + rewrite list_lookup_insert_ne by done. intros E. rewrite (Hi i) by done. by apply H2.
Qed.

Lemma mine_other i h x gh : i ≠ h.1 → mine i ((h, x) :: gh) ≡ₚ mine i gh.
Proof. intros Hne. rewrite mine_cons, decide_False; done. Qed.

Section Represented.
  Context (n : Z) (c : ShardedLRUCache V) (sc : ShardedSpec V) (R : cache_represents n c sc).

Lemma shard_busy i sp : ss_shards sc !! i = Some sp → busy sp.
Proof. intros Hi. destruct (Forall2_lookup_r _ _ _ _ _ (cr_shards _ _ _ R) Hi) as (s & _ & Rs). intros e. apply (lo_busy _ _ _ _ (rp_lists _ _ Rs)). Qed.

(** An address belongs to one entry. *)
Lemma pin_unique i sp p v v' : ss_shards sc !! i = Some sp → (p, v) ∈ pins sp → (p, v') ∈ pins sp → v = v'.
Proof.
  intros Hi (e & He & Ee)%pinned (e' & He' & Ee')%pinned. unfold name in *. injection Ee as Hp <-. injection Ee' as Hp' <-.
  destruct (Forall2_lookup_r _ _ _ _ _ (cr_shards _ _ _ R) Hi) as (s & Hs & Rs).
  assert (Hk : ∀ x, x ∈ entries sp → (λ h, (key h, value h)) <$> handles s !! ce_id x = Some (item x)).
  { intros x Hx. assert (∃ b, (b, x) ∈ tagged (cs_lru sp) (cs_used sp) (cs_held sp)) as [b Hin] by (unfold entries in Hx; rewrite (assoc_L (++)) in Hx; apply elem_of_app in Hx as [Hx|Hx]; [exists true|exists false]; apply in_tagged; auto).
    by rewrite (lo_entry _ _ _ _ _ _ (rp_lists _ _ Rs) Hin). }
  pose proof (Hk e He) as K1. pose proof (Hk e' He') as K2. congruence.
Qed.

Lemma held_Lookup k gh : (Shard (HashSlice k) < length (ss_shards sc))%nat → held gh sc → ∃ o sc', spec_op (OpLookup k) sc = Some (GotHandle o, sc') ∧ match o with Some h => ∃ v, held ((h, (k, v)) :: gh) sc' | None => held gh sc' end.
Proof.
  intros Hlt H. destruct (lookup_lt_is_Some_2 _ _ Hlt) as [sp Hi]. cbn [spec_op]. rewrite Hi. cbn [mbind option_bind]. pose proof (pins_Lookup k (HashSlice k) sp (shard_busy _ _ Hi)) as Hp. destruct (spec_Lookup k (HashSlice k) sp) as [[p|] sp']; cbn [fst snd] in Hp; eexists _, _; (split; [done|]); cbn [option_map].
  - destruct Hp as [v Hp]. exists v. eapply held_shard; [done|done| |intros i Hne; by apply mine_other|intros x [->|Hx]%elem_of_cons; [by left|by right]]. rewrite mine_cons, decide_True by done. by rewrite Hp, (held_pins _ _ H _ _ Hi).
  - eapply held_shard; [done|done| |done|by right]. rewrite Hp. by apply H.
Qed.

Lemma held_Insert k v ch gh : (Shard (HashSlice k) < length (ss_shards sc))%nat → held gh sc → ∃ h sc', spec_op (OpInsert k v ch) sc = Some (GotHandle (Some h), sc') ∧ held ((h, (k, v)) :: gh) sc'.
Proof.
  intros Hlt H. destruct (lookup_lt_is_Some_2 _ _ Hlt) as [sp Hi]. cbn [spec_op]. rewrite Hi. cbn [mbind option_bind]. eexists _, _. split; [reflexivity|].
  eapply held_shard; [done|done| |intros i Hne; by apply mine_other|intros x [->|Hx]%elem_of_cons; [by left|by right]]. rewrite mine_cons, decide_True by done. etrans; [exact (pins_Insert k (HashSlice k) v ch sp)|]. by rewrite (held_pins _ _ H _ _ Hi).
Qed.

Lemma held_Release h x gh : held ((h, x) :: gh) sc → ∃ sc', spec_op (OpRelease h) sc = Some (GotNothing, sc') ∧ held gh sc'.
Proof.
  intros H. destruct (held_pin h x _ sc H ltac:(by left)) as (sp & Hi & Hin). cbn [spec_op]. rewrite Hi. cbn [mbind option_bind]. destruct (can_Release h.2 x sp Hin) as [sp' Es]. rewrite Es. cbn [mbind option_bind].
  eexists. split; [done|]. destruct (pins_Release h.2 sp sp' (shard_busy _ _ Hi) Es) as [v Hp]. assert (v = x) as -> by (eapply (pin_unique h.1 sp h.2); [done| |done]; rewrite Hp; by left).
  eapply held_shard; [exact H|done| |intros i Hne; by rewrite mine_other|intros y Hy; right; by right]. pose proof (held_pins _ _ H _ _ Hi) as Hm. rewrite mine_cons, decide_True, Hp in Hm by done. by apply Permutation_cons_inv in Hm.
Qed.

Lemma held_Erase k gh : (Shard (HashSlice k) < length (ss_shards sc))%nat → held gh sc → ∃ sc', spec_op (OpErase k) sc = Some (GotNothing, sc') ∧ held gh sc'.
Proof.
  intros Hlt H. destruct (lookup_lt_is_Some_2 _ _ Hlt) as [sp Hi]. cbn [spec_op]. rewrite Hi. cbn [mbind option_bind]. eexists. split; [done|]. eapply held_shard; [done|done| |done|by right]. rewrite pins_Erase. by apply H.
Qed.

End Represented.
End Held.
