(* ===== verification/MultiContainer.v ===== *)
(** * The containers of filter adjustment candidates
    (src/util/container.cc, src/util/multi_container.cc)

    The tables in the table cache are kept in linked lists, one for every number of
    filter units and level; planned adjustments walk over the lists and load or evict
    a unit per table.  All containers share one heap here: container [c] has the
    addresses [head_ c] and [tail_ c] for its dummy nodes.  Tables are reached
    through the addresses of their [TableObject]; a table that was freed, a null
    pointer or an index out of range is [None]. *)

From stdpp Require Import gmap list.
From S2P Require Import Prelude Coding DbFormat FilterBlock Links LruCache LruTable.

(** What the containers use of a table. *)
Class FilterTable (T : Type) := {
  ft_units : T → option Z;              (* BFNumer *)
  ft_charge : T → option Z;             (* BFChange *)
  ft_unit_size : T → Z;                 (* UnitSize *)
  ft_cold : T → Z → bool;               (* ISCold *)
  ft_id : T → Z;                        (* TableID *)
  ft_bits_per_key : T → Z;              (* BitsPerKey *)
  ft_load : T → option T;               (* LoadBloomFilter *)
  ft_evict : T → option T;              (* EvictBloomFilter *)
}.

(** Tables whose filters can be worked with. *)
Class FilterTableLaws (T : Type) {FT : FilterTable T} := {
  ft_ready : T → Prop;
  ft_size_range t : ft_ready t → 0 <= ft_unit_size t < 2 ^ 32;
  ft_units_range t : ft_ready t → ∃ n, ft_units t = Some n ∧ 0 <= n < 7;
  ft_charge_ok t : ft_ready t → is_Some (ft_charge t);
  ft_load_ok t : ft_ready t → ∃ t', ft_load t = Some t' ∧ ft_ready t';
  ft_evict_ok t : ft_ready t → ∃ t', ft_evict t = Some t' ∧ ft_ready t';
}.

Definition rows : nat := 7.     (* kAllFilterUnitsNumber + 1 *)
Definition columns : nat := 8.  (* config::kNumLevels + 1 *)

(** [multi_container_[i][j]]. *)
Definition container (i j : Z) : option nat :=
  if (0 <=? i) && (i <? Z.of_nat rows) && (0 <=? j) && (j <? Z.of_nat columns) then Some (Z.to_nat i * columns + Z.to_nat j)%nat else None.

Definition head_ (c : nat) : nat := 2 * c.
Definition tail_ (c : nat) : nat := 2 * c + 1.

Record ContainerHandle := MkContainerHandle { ch_value : nat; ch_level : Z; ch_bf_number : Z }.

Record MultiContainer := MkMultiContainer {
  mc_handles : gmap nat ContainerHandle;
  mc_links : Links;
  hash_tabale_ : gmap bytes nat;
  charger_ : Z;
  mc_next : nat;
}.

Definition containers : list nat := seq 0 (rows * columns).

Definition NewMultiContainer : MultiContainer :=
  MkMultiContainer ∅ (MkLinks (list_to_map ((λ c, (head_ c, tail_ c)) <$> containers)) (list_to_map ((λ c, (tail_ c, head_ c)) <$> containers))) ∅ 0 (2 * (rows * columns)).

Definition with_mc_links (s : MultiContainer) (l : Links) : MultiContainer := MkMultiContainer (mc_handles s) l (hash_tabale_ s) (charger_ s) (mc_next s).
Definition with_charger (s : MultiContainer) (n : Z) : MultiContainer := MkMultiContainer (mc_handles s) (mc_links s) (hash_tabale_ s) n (mc_next s).

(** The counters that are passed by pointer. *)
Record Counters := MkCounters { all_size : Z; memory : Z }.

Section Containers.
  Context {T : Type} {FT : FilterTable T}.

Definition mc_Insert (key : bytes) (level : Z) (object : nat) (tables : gmap nat T) (s : MultiContainer) : option (nat * MultiContainer) :=
  t ← tables !! object; bf_number ← ft_units t;
  c ← container bf_number level;
  let p := mc_next s in
  l ← AddToHead (head_ c) p (mc_links s);
  charge ← ft_charge t;
  Some (p, MkMultiContainer (<[p := MkContainerHandle object level bf_number]> (mc_handles s)) l (<[key := p]> (hash_tabale_ s)) (i64 (charger_ s + charge)) (S p)).

(** [Container::RemoveHandle] is the code of [LRU_Remove]. *)
Definition RemoveHandle (p : nat) (s : MultiContainer) : option MultiContainer := l ← LRU_Remove p (mc_links s); Some (with_mc_links s l).

Definition AddHandle (c p : nat) (s : MultiContainer) : option MultiContainer := l ← AddToHead (head_ c) p (mc_links s); Some (with_mc_links s l).

Definition MoveToHead (c p : nat) (s : MultiContainer) : option MultiContainer := s ← RemoveHandle p s; AddHandle c p s.

Definition mc_Lookup (key : bytes) (s : MultiContainer) : option (option nat * MultiContainer) :=
  match hash_tabale_ s !! key with
  | Some p =>
      h ← mc_handles s !! p; c ← container (ch_bf_number h) (ch_level h);
      s ← MoveToHead c p s; Some (Some p, s)
  | None => Some (None, s)
  end.

Definition mc_Erase (key : bytes) (s : MultiContainer) : option MultiContainer :=
  match hash_tabale_ s !! key with
  | Some p =>
      h ← mc_handles s !! p; c ← container (ch_bf_number h) (ch_level h);
      s ← RemoveHandle p s;
      let l := mc_links s in
      Some (MkMultiContainer (delete p (mc_handles s)) (MkLinks (delete p (next_ l)) (delete p (prev_ l))) (delete key (hash_tabale_ s)) (charger_ s) (mc_next s))
  | None => Some s
  end.

(** ** Planned adjustments *)

Section Adjust.
  Context (current_time : Z) (is_worth : Z → Z → Z → bool).   (* IsWorth(table id, next period, units, bits per key), if there is one *)

(** [Container::LoadBloomFilter]: the result, [*break_flag], the tables, the counters,
    [charger] and the handles whose table was worked on. *)
Fixpoint load_walk (fuel : nat) (handles : gmap nat ContainerHandle) (l : Links) (tail curr : nat) (tables : gmap nat T) (n : Counters) (charger : Z) (loaders : list nat)
    : option (bool * bool * gmap nat T * Counters * Z * list nat) :=
  match fuel with
  | O => None
  | S fuel =>
      if (curr =? tail)%nat then Some (memory n <=? 0, false, tables, n, charger, loaders)
      else
        h ← handles !! curr; t ← tables !! ch_value h;
        if ft_cold t current_time then Some (memory n <=? 0, false, tables, n, charger, loaders)
        else if negb (is_worth (ft_id t) (ch_bf_number h) (ft_bits_per_key t)) then Some (memory n <=? 0, true, tables, n, charger, loaders)
        else
          tmp ← next_ l !! curr;
          let size := ft_unit_size t in
          t ← ft_load t;
          let tables := <[ch_value h := t]> tables in
          let n := MkCounters (i64 (all_size n + size)) (i64 (memory n - size)) in
          let charger := i64 (charger + size) in
          let loaders := loaders ++ [curr] in
          if memory n <=? 0 then Some (true, false, tables, n, charger, loaders)
          else load_walk fuel handles l tail tmp tables n charger loaders
  end.

(** [Container::EvictBloomFilter], from the least recently used end. *)
Fixpoint evict_walk (fuel : nat) (handles : gmap nat ContainerHandle) (l : Links) (head curr : nat) (tables : gmap nat T) (n : Counters) (charger : Z) (evicters : list nat)
    : option (bool * bool * gmap nat T * Counters * Z * list nat) :=
  match fuel with
  | O => None
  | S fuel =>
      if (curr =? head)%nat then Some (memory n <=? 0, false, tables, n, charger, evicters)
      else
        tmp ← prev_ l !! curr;
        h ← handles !! curr; t ← tables !! ch_value h;
        if negb (ft_cold t current_time) then Some (memory n <=? 0, false, tables, n, charger, evicters)
        else
          let size := ft_unit_size t in
          t ← ft_evict t;
          let tables := <[ch_value h := t]> tables in
          let n := MkCounters (i64 (all_size n + size)) (i64 (memory n - size)) in
          let charger := i64 (charger - size) in
          let evicters := evicters ++ [curr] in
          if memory n <=? 0 then Some (true, false, tables, n, charger, evicters)
          else evict_walk fuel handles l head tmp tables n charger evicters
  end.

(** [multi_container_[level][bf_number]]: the indices are the other way round than
    in the other operations. *)
Fixpoint RemoveFromContainers (ps : list nat) (bf_number : Z) (s : MultiContainer) : option MultiContainer :=
  match ps with
  | [] => Some s
  | p :: ps => h ← mc_handles s !! p; _ ← container (ch_level h) bf_number; s ← RemoveHandle p s; RemoveFromContainers ps bf_number s
  end.

Fixpoint add_all (ps : list nat) (bf_number : Z) (s : MultiContainer) : option MultiContainer :=
  match ps with
  | [] => Some s
  | p :: ps => h ← mc_handles s !! p; c ← container (ch_level h) bf_number; s ← AddHandle c p s; add_all ps bf_number s
  end.

Definition AddToContainers (ps : list nat) (bf_number : Z) (s : MultiContainer) : option MultiContainer :=
  if (bf_number <? 0) || (bf_number >? kAllFilterUnitsNumber) then Some s else add_all ps bf_number s.

(** One container of a pass; [load] or not. *)
Definition adjust_container (load : bool) (bf_number level : Z) (tables : gmap nat T) (n : Counters) (s : MultiContainer)
    : option (bool * bool * gmap nat T * Counters * MultiContainer) :=
  c ← container bf_number level;
  let fuel := S (base.size (mc_handles s)) in
  '(ret, brk, tables, n, charger, ps) ←
    (if load then first ← next_ (mc_links s) !! head_ c; load_walk fuel (mc_handles s) (mc_links s) (tail_ c) first tables n (charger_ s) []
     else last ← prev_ (mc_links s) !! tail_ c; evict_walk fuel (mc_handles s) (mc_links s) (head_ c) last tables n (charger_ s) []);
  s ← RemoveFromContainers ps bf_number (with_charger s charger);
  s ← AddToContainers ps (if load then bf_number + 1 else bf_number - 1) s;
  Some (ret, brk, tables, n, s).

(** The loop over the levels of a row; whether the method returns. *)
Fixpoint adjust_levels (load : bool) (bf_number : Z) (levels : list Z) (tables : gmap nat T) (n : Counters) (s : MultiContainer)
    : option (bool * gmap nat T * Counters * MultiContainer) :=
  match levels with
  | [] => Some (false, tables, n, s)
  | level :: levels =>
      '(ret, brk, tables, n, s) ← adjust_container load bf_number level tables n s;
      if ret : bool then Some (true, tables, n, s) else if brk : bool then Some (false, tables, n, s) else adjust_levels load bf_number levels tables n s
  end.

Fixpoint adjust_rows (load : bool) (numbers levels : list Z) (tables : gmap nat T) (n : Counters) (s : MultiContainer)
    : option (bool * gmap nat T * Counters * MultiContainer) :=
  match numbers with
  | [] => Some (false, tables, n, s)
  | bf_number :: numbers =>
      '(ret, tables, n, s) ← adjust_levels load bf_number levels tables n s;
      if ret : bool then Some (true, tables, n, s) else adjust_rows load numbers levels tables n s
  end.

(** [do ... while (memory > 0 && all_size != 0)]. *)
Fixpoint adjust_passes (fuel : nat) (load : bool) (numbers levels : list Z) (tables : gmap nat T) (m : Z) (s : MultiContainer) : option (gmap nat T * MultiContainer) :=
  match fuel with
  | O => None
  | S fuel =>
      '(ret, tables, n, s) ← adjust_rows load numbers levels tables (MkCounters 0 m) s;
      if (ret : bool) || negb ((memory n >? 0) && negb (all_size n =? 0)) then Some (tables, s)
      else adjust_passes fuel load numbers levels tables (memory n) s
  end.

End Adjust.

(** Every pass that goes on uses up some of the memory. *)
Definition mc_LoadBloomFilter (current_time : Z) (is_worth : Z → Z → Z → bool) (m : Z) (tables : gmap nat T) (s : MultiContainer) : option (gmap nat T * MultiContainer) :=
  adjust_passes current_time is_worth (S (Z.to_nat m)) true [0; 1; 2; 3; 4; 5] [0; 1; 2; 3; 4; 5; 6; 7] tables m s.

Definition mc_EvictBloomFilter (current_time : Z) (m : Z) (tables : gmap nat T) (s : MultiContainer) : option (gmap nat T * MultiContainer) :=
  adjust_passes current_time (λ _ _ _, true) (S (Z.to_nat m)) false [6; 5; 4; 3; 2] [7; 6; 5; 4; 3; 2; 1] tables m s.

Definition mc_Value (handle : option nat) (s : MultiContainer) : option (option nat) :=
  match handle with Some p => h ← mc_handles s !! p; Some (Some (ch_value h)) | None => Some None end.

Definition mc_TotalCharge (s : MultiContainer) : Z := u64 (charger_ s).

End Containers.

(** ** The lists *)

Record linked (l : Links) (ls : list (list nat)) : Prop := {
  lk_len : length ls = (rows * columns)%nat;
  lk_paths : ∀ c xs, ls !! c = Some xs → path l (head_ c) xs (tail_ c);
  lk_nodup : NoDup (concat ls);
  lk_nodes : ∀ p, p ∈ concat ls → (2 * (rows * columns) <= p)%nat;
}.

Lemma container_lt i j c : container i j = Some c → (c < rows * columns)%nat.
Proof.
  unfold container, rows, columns. destruct (Z.leb_spec 0 i); cbn [andb]; [|done]. destruct (Z.ltb_spec i (Z.of_nat 7)); cbn [andb]; [|done].
  destruct (Z.leb_spec 0 j); cbn [andb]; [|done]. destruct (Z.ltb_spec j (Z.of_nat 8)); [|done]. intros Hc. injection Hc as <-. lia.
Qed.

Lemma container_some i j : 0 <= i < 7 → 0 <= j < 8 → is_Some (container i j).
Proof. intros Hi Hj. unfold container, rows, columns. rewrite !(proj2 (Z.leb_le _ _)), !(proj2 (Z.ltb_lt _ _)) by lia. by eexists. Qed.

Section Linked.
  Context {l : Links} {ls : list (list nat)} (K : linked l ls).

Lemma linked_inner c xs : ls !! c = Some xs → inner (head_ c) (tail_ c) xs.
Proof.
  intros Hc. pose proof (lookup_lt_Some _ _ _ Hc) as Hlt. rewrite (lk_len _ _ K) in Hlt. destruct (concat_perm ls c xs xs Hc) as (r & Hp & _ & _). pose proof (lk_nodup _ _ K) as Hnd. rewrite Hp in Hnd. apply NoDup_app in Hnd as (Hnd & _ & _).
  assert (Hx : ∀ p, p ∈ xs → (2 * (rows * columns) <= p)%nat) by (intros p Hin; apply (lk_nodes _ _ K), bucket_elem; eauto). unfold rows, columns in *.
  split_and!; [done| |]; intros Hin; specialize (Hx _ Hin); unfold head_, tail_ in *; lia.
Qed.

(** The nodes of another container. *)
Lemma linked_apart c xs c' xs' p : ls !! c = Some xs → ls !! c' = Some xs' → c' ≠ c → p ∈ head_ c' :: tail_ c' :: xs' → p ∉ head_ c :: tail_ c :: xs.
Proof.
  intros Hc Hc' Hne. destruct (concat_perm ls c xs xs Hc) as (r & Hp & _ & Hr). pose proof (lk_nodup _ _ K) as Hnd. rewrite Hp in Hnd. apply NoDup_app in Hnd as (_ & Hd & _).
  pose proof (lookup_lt_Some _ _ _ Hc) as Hlt. pose proof (lookup_lt_Some _ _ _ Hc') as Hlt'. rewrite (lk_len _ _ K) in Hlt, Hlt'.
  assert (Hx : ∀ p, p ∈ xs → (2 * (rows * columns) <= p)%nat) by (intros q Hin; apply (lk_nodes _ _ K), bucket_elem; eauto).
  assert (Hx' : ∀ p, p ∈ xs' → (2 * (rows * columns) <= p)%nat) by (intros q Hin; apply (lk_nodes _ _ K), bucket_elem; eauto).
  rewrite !elem_of_cons. intros H1 H2. unfold rows, columns, head_, tail_ in *. destruct H1 as [->|[->|H1]]; destruct H2 as [H2|[H2|H2]]; try lia; try (specialize (Hx _ H2)); try (specialize (Hx' _ H1)); try lia. apply (Hd p H2). by eapply (Hr c').
Qed.

Lemma linked_update c xs xs' l' : ls !! c = Some xs → path l' (head_ c) xs' (tail_ c) → same_links (λ p, p ∈ head_ c :: tail_ c :: xs ∨ p ∉ concat ls ∧ (2 * (rows * columns) <= p)%nat) l l' →
  NoDup (concat (<[c:=xs']> ls)) → (∀ p, p ∈ xs' → (2 * (rows * columns) <= p)%nat) → linked l' (<[c:=xs']> ls).
Proof.
  intros Hc Hp Hs Hnd Hx. pose proof (lookup_lt_Some _ _ _ Hc) as Hlt. split; [by rewrite length_insert, (lk_len _ _ K)| |done|].
  - intros c' ys Hc'. destruct (decide (c = c')) as [<-|Hne]; [rewrite list_lookup_insert_eq in Hc' by done; by injection Hc' as <-|]. rewrite list_lookup_insert_ne in Hc' by done.
    eapply path_same; [exact Hs| |by apply (lk_paths _ _ K)]. intros p Hin [Hin'|[Hn Hge]]; [by apply (linked_apart c xs c' ys p Hc Hc')|].
    pose proof (lookup_lt_Some _ _ _ Hc') as Hlt'. rewrite (lk_len _ _ K) in Hlt'. unfold rows, columns, head_, tail_ in *. rewrite !elem_of_cons in Hin. destruct Hin as [->|[->|Hin]]; [lia|lia|]. apply Hn, bucket_elem. eauto.
  - destruct (concat_perm ls c xs xs' Hc) as (r & Hp1 & Hp2 & _). intros p. rewrite Hp2. intros [Hin|Hin]%elem_of_app; [by apply Hx|]. apply (lk_nodes _ _ K). rewrite Hp1. set_solver.
Qed.

Lemma linked_remove p : p ∈ concat ls → ∃ l' ls', LRU_Remove p l = Some l' ∧ linked l' ls' ∧ concat ls ≡ₚ p :: concat ls'.
Proof.
  intros (c & xs & Hc & (xs1 & xs2 & ->)%list_elem_of_split)%bucket_elem. destruct (LRU_Remove_path l _ _ xs1 p xs2 (lk_paths _ _ K _ _ Hc) (linked_inner _ _ Hc)) as (l' & E & Hp & Hs).
  destruct (concat_perm ls c _ (xs1 ++ xs2) Hc) as (r & Hp1 & Hp2 & _). assert (Hperm : concat ls ≡ₚ p :: concat (<[c:=xs1 ++ xs2]> ls)) by (rewrite Hp1, Hp2, <-Permutation_middle; done).
  exists l', (<[c:=xs1 ++ xs2]> ls). split_and!; [done| |done]. eapply linked_update; [done|done| | |].
  - intros q Hq. apply Hs. intros Hin. apply Hq. left. set_solver.
  - pose proof (lk_nodup _ _ K) as Hnd. rewrite Hperm in Hnd. by apply NoDup_cons in Hnd as [_ ?].
  - intros q Hq. apply (lk_nodes _ _ K), bucket_elem. eexists _, _. split; [done|]. set_solver.
Qed.

Lemma linked_add c p : (c < rows * columns)%nat → p ∉ concat ls → (2 * (rows * columns) <= p)%nat → ∃ l' ls', AddToHead (head_ c) p l = Some l' ∧ linked l' ls' ∧ concat ls' ≡ₚ p :: concat ls.
Proof.
  intros Hc Hp Hge. rewrite <-(lk_len _ _ K) in Hc. destruct (lookup_lt_is_Some_2 ls c Hc) as [xs Hxs]. destruct (AddToHead_path l _ _ xs p (lk_paths _ _ K _ _ Hxs) (linked_inner _ _ Hxs)) as (l' & E & Hpath & Hs).
  { rewrite (lk_len _ _ K) in Hc. unfold rows, columns, head_, tail_ in *. rewrite !not_elem_of_cons. split_and!; [lia|lia|]. intros Hin. apply Hp, bucket_elem. eauto. }
  destruct (concat_perm ls c _ (p :: xs) Hxs) as (r & Hp1 & Hp2 & _). assert (Hperm : concat (<[c:=p :: xs]> ls) ≡ₚ p :: concat ls) by by rewrite Hp1, Hp2.
  exists l', (<[c:=p :: xs]> ls). split_and!; [done| |done]. eapply linked_update; [done|done| | |].
  - intros q Hq. apply Hs. intros Hin. apply Hq. rewrite !elem_of_cons in Hin. destruct Hin as [->|[->|[->|Hin]]]; [left; set_solver|left; set_solver|right; done|left; set_solver].
  - rewrite Hperm. constructor; [done|apply (lk_nodup _ _ K)].
  - intros q [->|Hq]%elem_of_cons; [done|]. apply (lk_nodes _ _ K), bucket_elem. eauto.
Qed.

End Linked.

(** ** Well-formed states *)

Definition placeable (h : ContainerHandle) : Prop := 0 <= ch_level h < 7 ∧ 0 <= ch_bf_number h < 7.

Record mc_ok (s : MultiContainer) (ls : list (list nat)) : Prop := {
  mo_linked : linked (mc_links s) ls;
  mo_handles : ∀ p, p ∈ concat ls ↔ is_Some (mc_handles s !! p);
  mo_place : ∀ p h, mc_handles s !! p = Some h → placeable h;
  mo_next : (2 * (rows * columns) <= mc_next s)%nat ∧ ∀ p, p ∈ concat ls → (p < mc_next s)%nat;
  mo_hash : ∀ k p, hash_tabale_ s !! k = Some p → p ∈ concat ls;
  mo_keys : ∀ k k' p, hash_tabale_ s !! k = Some p → hash_tabale_ s !! k' = Some p → k = k';
}.

(** The lists changed, the rest did not. *)
Definition relinked (s s' : MultiContainer) : Prop :=
  mc_handles s' = mc_handles s ∧ hash_tabale_ s' = hash_tabale_ s ∧ charger_ s' = charger_ s ∧ mc_next s' = mc_next s.

Lemma relinked_trans s1 s2 s3 : relinked s1 s2 → relinked s2 s3 → relinked s1 s3.
Proof. unfold relinked. naive_solver congruence. Qed.

Lemma mc_ok_relinked s s' ls ls' : mc_ok s ls → relinked s s' → linked (mc_links s') ls' → concat ls' ≡ₚ concat ls → mc_ok s' ls'.
Proof.
  intros [M1 M2 M3 [M4 M5] M6 M7] (E1 & E2 & E3 & E4) K Hp. split; rewrite ?E1, ?E2, ?E4; try done.
  - intros p. by rewrite Hp.
  - split; [done|]. intros p. rewrite Hp. apply M5.
  - intros k p. rewrite Hp. apply M6.
Qed.

Lemma RemoveHandle_ok s ls p : linked (mc_links s) ls → p ∈ concat ls → ∃ s' ls', RemoveHandle p s = Some s' ∧ relinked s s' ∧ linked (mc_links s') ls' ∧ concat ls ≡ₚ p :: concat ls'.
Proof. intros K Hp. destruct (linked_remove K p Hp) as (l' & ls' & E & K' & Hperm). unfold RemoveHandle. rewrite E. cbn. eexists _, ls'. done. Qed.

Lemma AddHandle_ok s ls c p : linked (mc_links s) ls → (c < rows * columns)%nat → p ∉ concat ls → (2 * (rows * columns) <= p)%nat →
  ∃ s' ls', AddHandle c p s = Some s' ∧ relinked s s' ∧ linked (mc_links s') ls' ∧ concat ls' ≡ₚ p :: concat ls.
Proof. intros K Hc Hp Hge. destruct (linked_add K c p Hc Hp Hge) as (l' & ls' & E & K' & Hperm). unfold AddHandle. rewrite E. cbn. eexists _, ls'. done. Qed.

Lemma RemoveFromContainers_ok ps bf : 0 <= bf < 8 → ∀ s ls, linked (mc_links s) ls → NoDup ps → (∀ p, p ∈ ps → p ∈ concat ls) → (∀ p, p ∈ ps → ∃ h, mc_handles s !! p = Some h ∧ placeable h) →
  ∃ s' ls', RemoveFromContainers ps bf s = Some s' ∧ relinked s s' ∧ linked (mc_links s') ls' ∧ concat ls ≡ₚ ps ++ concat ls'.
Proof.
  intros Hbf. induction ps as [|p ps IH]; intros s ls K Hnd Hin Hh; cbn [RemoveFromContainers]; [by exists s, ls|].
  apply NoDup_cons in Hnd as [Hp Hnd]. destruct (Hh p ltac:(by left)) as (h & Eh & [Hl _]). rewrite Eh. cbn [mbind option_bind]. destruct (container_some (ch_level h) bf Hl Hbf) as [c ->]. cbn [mbind option_bind].
  destruct (RemoveHandle_ok s ls p K ltac:(apply Hin; by left)) as (s1 & ls1 & -> & R1 & K1 & P1). cbn [mbind option_bind].
  destruct (IH s1 ls1 K1 Hnd) as (s' & ls' & E & R' & K' & P').
  - intros q Hq. specialize (Hin q ltac:(by right)). rewrite P1 in Hin. apply elem_of_cons in Hin as [->|?]; done.
  - intros q Hq. destruct R1 as (-> & _). apply Hh. by right.
  - exists s', ls'. split_and!; [done|by eapply relinked_trans|done|]. by rewrite P1, P'.
Qed.

Lemma add_all_ok ps bf : 0 <= bf < 8 → ∀ s ls, linked (mc_links s) ls → NoDup (ps ++ concat ls) → (∀ p, p ∈ ps → (2 * (rows * columns) <= p)%nat) → (∀ p, p ∈ ps → ∃ h, mc_handles s !! p = Some h ∧ placeable h) →
  ∃ s' ls', add_all ps bf s = Some s' ∧ relinked s s' ∧ linked (mc_links s') ls' ∧ concat ls' ≡ₚ ps ++ concat ls.
Proof.
  intros Hbf. induction ps as [|p ps IH]; intros s ls K Hnd Hge Hh; cbn [add_all]; [by exists s, ls|].
  cbn in Hnd. apply NoDup_cons in Hnd as [Hp Hnd]. apply not_elem_of_app in Hp as [Hp1 Hp2]. destruct (Hh p ltac:(by left)) as (h & Eh & [Hl _]). rewrite Eh. cbn [mbind option_bind]. destruct (container_some (ch_level h) bf Hl Hbf) as [c Ec]. rewrite Ec. cbn [mbind option_bind].
  destruct (AddHandle_ok s ls c p K (container_lt _ _ _ Ec) Hp2 ltac:(apply Hge; by left)) as (s1 & ls1 & -> & R1 & K1 & P1). cbn [mbind option_bind].
  destruct (IH s1 ls1 K1) as (s' & ls' & E & R' & K' & P').
  - rewrite P1, <-Permutation_middle. constructor; [by apply not_elem_of_app|done].
  - intros q Hq. apply Hge. by right.
  - intros q Hq. destruct R1 as (-> & _). apply Hh. by right.
  - exists s', ls'. split_and!; [done|by eapply relinked_trans|done|]. rewrite P', P1. cbn. by rewrite <-Permutation_middle.
Qed.

(** The handles [ps] of a container go elsewhere. *)
Lemma refile_ok s ls ps bf bf' : mc_ok s ls → NoDup ps → (∀ p, p ∈ ps → p ∈ concat ls) → 0 <= bf < 8 → 0 <= bf' <= 6 → ∃ s1 s' ls', RemoveFromContainers ps bf s = Some s1 ∧ AddToContainers ps bf' s1 = Some s' ∧
  relinked s s' ∧ mc_ok s' ls' ∧ concat ls' ≡ₚ concat ls.
Proof.
  intros M Hnd Hin Hbf Hbf'. pose proof M as [K M2 M3 _ _ _]. assert (Hh : ∀ p, p ∈ ps → ∃ h, mc_handles s !! p = Some h ∧ placeable h) by (intros p Hp; destruct (proj1 (M2 p) (Hin p Hp)) as [h Eh]; eauto).
  destruct (RemoveFromContainers_ok ps bf Hbf s ls K Hnd Hin Hh) as (s1 & ls1 & E1 & R1 & K1 & P1). destruct (add_all_ok ps bf' ltac:(lia) s1 ls1 K1) as (s' & ls' & E2 & R2 & K2 & P2).
  - rewrite <-P1. apply (lk_nodup _ _ K).
  - intros p Hp. apply (lk_nodes _ _ K). auto.
  - intros p Hp. destruct R1 as (-> & _). auto.
  - exists s1, s', ls'. assert (R : relinked s s') by by eapply relinked_trans. assert (P : concat ls' ≡ₚ concat ls) by by rewrite P2, P1. split_and!; [done| |done|by eapply mc_ok_relinked|done].
    unfold AddToContainers. rewrite (proj2 (Z.ltb_ge _ _)) by lia. unfold kAllFilterUnitsNumber. rewrite Z.gtb_ltb, (proj2 (Z.ltb_ge _ _)) by lia. done.
Qed.

Lemma New_ok : mc_ok NewMultiContainer (replicate (rows * columns) []).
Proof.
  assert (Ec : concat (replicate (rows * columns) ([] : list nat)) = []) by apply concat_replicate_nil. split; rewrite ?Ec; try done.
  - split; rewrite ?Ec; try done; [|constructor|by intros p ?%not_elem_of_nil]. intros c xs [-> Hc]%lookup_replicate. unfold rows, columns in Hc. cbn in Hc.
    do 56 (destruct c as [|c]; [split; vm_compute; reflexivity|]). lia.
  - intros p. split; [by intros ?%not_elem_of_nil|]. cbn. rewrite lookup_empty. by intros [? ?].
  - split; [done|]. by intros p ?%not_elem_of_nil.
Qed.

Section Operations.
  Context {T : Type} {FT : FilterTable T} {FL : FilterTableLaws T}.
  Implicit Types (tables : gmap nat T).

(** The tables that the handles name are in memory. *)
Definition alive tables (s : MultiContainer) : Prop := ∀ p h, mc_handles s !! p = Some h → ∃ t, tables !! ch_value h = Some t ∧ ft_ready t.

Lemma mc_Insert_ok key level object tables s ls : mc_ok s ls → 0 <= level < 7 → (∃ t, tables !! object = Some t ∧ ft_ready t) →
  ∃ s' ls', mc_Insert key level object tables s = Some (mc_next s, s') ∧ mc_ok s' ls' ∧ (alive tables s → alive tables s').
Proof.
  intros [K M2 M3 [M4 M5] M6 M7] Hl (t & Et & Ht). destruct (ft_units_range t Ht) as (n & En & Hn). destruct (ft_charge_ok t Ht) as [ch Ech]. unfold mc_Insert. rewrite Et. cbn [mbind option_bind]. rewrite En. cbn [mbind option_bind].
  destruct (container_some n level Hn ltac:(lia)) as [c Ec]. rewrite Ec. cbn [mbind option_bind]. assert (Hp : mc_next s ∉ concat ls) by (intros Hin; specialize (M5 _ Hin); lia).
  destruct (linked_add K c (mc_next s) (container_lt _ _ _ Ec) Hp M4) as (l' & ls' & -> & K' & P). cbn [mbind option_bind]. rewrite Ech. cbn [mbind option_bind]. eexists _, ls'. split; [done|].
  assert (Hnone : mc_handles s !! mc_next s = None) by (apply eq_None_not_Some; intros Hs; by apply Hp, M2). split; [split; cbn|].
  - done.
  - intros p. rewrite P, elem_of_cons. destruct (decide (p = mc_next s)) as [->|Hne]; [rewrite lookup_insert_eq; split; [by eexists|by left]|]. rewrite lookup_insert_ne by done. rewrite M2. naive_solver.
  - intros p h. destruct (decide (p = mc_next s)) as [->|Hne]; [rewrite lookup_insert_eq; intros [= <-]; split; cbn; lia|]. rewrite lookup_insert_ne by done. apply M3.
  - split; [by apply Nat.le_le_succ_r|]. intros p. rewrite P, elem_of_cons. intros [->|Hin]; [lia|]. specialize (M5 p Hin). lia.
  - intros k p. rewrite P, elem_of_cons. destruct (decide (k = key)) as [->|Hne]; [rewrite lookup_insert_eq; intros [= <-]; by left|]. rewrite lookup_insert_ne by done. intros Hk. right. by eapply M6.
  - assert (Hno : ∀ k, hash_tabale_ s !! k = Some (mc_next s) → False) by (intros k Hk; by apply Hp, (M6 k)). intros k k' p. destruct (decide (k = key)) as [->|H1]; destruct (decide (k' = key)) as [->|H2]; rewrite ?lookup_insert_eq, ?lookup_insert_ne by done; try done.
    + intros [= <-] Hk. by destruct (Hno k').
    + intros Hk [= <-]. by destruct (Hno k).
    + apply M7.
  - intros Ha p h. cbn. destruct (decide (p = mc_next s)) as [->|Hne]; [rewrite lookup_insert_eq; intros [= <-]; cbn; eauto|]. rewrite lookup_insert_ne by done. apply Ha.
Qed.

Lemma mc_Lookup_ok key s ls : mc_ok s ls → ∃ s' ls', mc_Lookup key s = Some (hash_tabale_ s !! key, s') ∧ mc_ok s' ls' ∧ ∀ tables, alive tables s → alive tables s'.
Proof.
  intros M. unfold mc_Lookup. destruct (hash_tabale_ s !! key) as [p|] eqn:Ek; [|by exists s, ls]. pose proof M as [K M2 M3 _ M6 _]. pose proof (M6 _ _ Ek) as Hp. destruct (proj1 (M2 p) Hp) as [h Eh]. rewrite Eh. cbn [mbind option_bind].
  destruct (M3 _ _ Eh) as [Hl Hb]. destruct (container_some (ch_bf_number h) (ch_level h) Hb ltac:(lia)) as [c Ec]. rewrite Ec. cbn [mbind option_bind]. unfold MoveToHead.
  destruct (RemoveHandle_ok s ls p K Hp) as (s1 & ls1 & -> & R1 & K1 & P1). cbn [mbind option_bind]. pose proof (lk_nodup _ _ K) as Hnd. rewrite P1 in Hnd. apply NoDup_cons in Hnd as [Hp1 _].
  destruct (AddHandle_ok s1 ls1 c p K1 (container_lt _ _ _ Ec) Hp1 (lk_nodes _ _ K p Hp)) as (s' & ls' & -> & R2 & K2 & P2). cbn. exists s', ls'. assert (R : relinked s s') by by eapply relinked_trans.
  split_and!; [done| |]; [eapply mc_ok_relinked; [exact M|done|done|by rewrite P2, P1]|]. destruct R as (E & _). intros tables Ha q hq. rewrite E. apply Ha.
Qed.

Lemma mc_Erase_ok key s ls : mc_ok s ls → ∃ s' ls', mc_Erase key s = Some s' ∧ mc_ok s' ls' ∧ ∀ tables, alive tables s → alive tables s'.
Proof.
  intros M. unfold mc_Erase. destruct (hash_tabale_ s !! key) as [p|] eqn:Ek; [|by exists s, ls]. pose proof M as [K M2 M3 [M4 M5] M6 M7]. pose proof (M6 _ _ Ek) as Hp. destruct (proj1 (M2 p) Hp) as [h Eh]. rewrite Eh. cbn [mbind option_bind].
  destruct (M3 _ _ Eh) as [Hl Hb]. destruct (container_some (ch_bf_number h) (ch_level h) Hb ltac:(lia)) as [c Ec]. rewrite Ec. cbn [mbind option_bind].
  destruct (RemoveHandle_ok s ls p K Hp) as (s1 & ls1 & -> & (E1 & E2 & E3 & E4) & K1 & P1). cbn [mbind option_bind]. pose proof (lk_nodup _ _ K) as Hnd. rewrite P1 in Hnd. apply NoDup_cons in Hnd as [Hp1 _].
  pose proof (lk_nodes _ _ K p Hp) as Hge. eexists _, ls1. split; [done|]. split; [split; cbn; rewrite ?E1, ?E2, ?E4|].
  - destruct K1 as [L1 L2 L3 L4]. split; try done. intros c' xs Hc'. eapply (path_same (λ q, q = p)); [|intros q Hq ->|by apply L2].
    + intros q Hq. cbn. by rewrite !lookup_delete_ne.
    + pose proof (lookup_lt_Some _ _ _ Hc') as Hlt. rewrite L1 in Hlt. unfold rows, columns, head_, tail_ in *. rewrite !elem_of_cons in Hq. destruct Hq as [Hq|[Hq|Hq]]; [lia|lia|]. apply Hp1, bucket_elem. eauto.
  - intros q. destruct (decide (q = p)) as [->|Hne]; [rewrite lookup_delete_eq; split; [done|by intros [? ?]]|]. rewrite lookup_delete_ne by done. rewrite <-M2, P1, elem_of_cons. naive_solver.
  - intros q hq [_ Hq]%lookup_delete_Some. by eapply M3.
  - split; [done|]. intros q Hq. apply M5. rewrite P1. by right.
  - intros k q [Hne Hk]%lookup_delete_Some. specialize (M6 _ _ Hk). rewrite P1 in M6. apply elem_of_cons in M6 as [->|?]; [|done]. exfalso. apply Hne. by eapply M7.
  - intros k k' q [_ Hk]%lookup_delete_Some [_ Hk']%lookup_delete_Some. by eapply M7.
  - intros tables Ha q hq. cbn. rewrite E1. intros [_ Hq]%lookup_delete_Some. by eapply Ha.
Qed.

(** ** Walks *)

Lemma i64_small z : - 2 ^ 63 <= z < 2 ^ 63 → i64 z = z.
Proof.
  intros Hz. unfold i64, signed. cbn zeta. destruct (Z.ltb_spec z 0).
  - replace (z mod 2 ^ 64) with (z + 2 ^ 64) by (apply Z.mod_unique with (-1); lia). rewrite (proj2 (Z.ltb_ge _ _)) by (change (64 - 1) with 63; lia). lia.
  - rewrite Z.mod_small by lia. rewrite (proj2 (Z.ltb_lt _ _)) by (change (64 - 1) with 63; lia). done.
Qed.

(** [m] is the memory at the start of a pass. *)
Definition counted (m : Z) (n : Counters) : Prop := all_size n + memory n = m ∧ 0 <= all_size n ∧ (0 < memory n ∨ all_size n = 0).

Lemma counted_step m n d : - 2 ^ 62 <= m <= 2 ^ 62 → counted m n → 0 <= d < 2 ^ 32 →
  let n' := MkCounters (i64 (all_size n + d)) (i64 (memory n - d)) in (memory n' <=? 0) = false → counted m n'.
Proof.
  intros Hm (H1 & H2 & H3) Hd. cbn. rewrite !i64_small by lia. intros Hn%Z.leb_gt. split_and!; cbn; [lia|lia|left; lia].
Qed.

Definition kept_ready tables tables' : Prop := ∀ v t, tables !! v = Some t → ft_ready t → ∃ t', tables' !! v = Some t' ∧ ft_ready t'.

Lemma kept_insert tables v t : ft_ready t → kept_ready tables (<[v:=t]> tables).
Proof. intros Ht w u Hw Hu. destruct (decide (v = w)) as [<-|Hne]; [rewrite lookup_insert_eq; eauto|]. rewrite lookup_insert_ne by done. eauto. Qed.

Lemma kept_ready_trans t1 t2 t3 : kept_ready t1 t2 → kept_ready t2 t3 → kept_ready t1 t3.
Proof. intros H1 H2 v t Hv Ht. destruct (H1 v t Hv Ht) as (t' & Hv' & Ht'). by apply (H2 v t'). Qed.

Definition live_node (handles : gmap nat ContainerHandle) tables (p : nat) : Prop := ∃ h t, handles !! p = Some h ∧ tables !! ch_value h = Some t ∧ ft_ready t.

Lemma live_kept handles tables tables' p : kept_ready tables tables' → live_node handles tables p → live_node handles tables' p.
Proof. intros Hk (h & t & Hh & Ht & Hr). destruct (Hk _ _ Ht Hr) as (t' & ? & ?). exists h, t'. done. Qed.

(** What a walk over [xs] that already worked on [before] returns. *)
Definition walked (m : Z) tables (xs before : list nat) (r : option (bool * bool * gmap nat T * Counters * Z * list nat)) : Prop :=
  ∃ ret brk tables' n' charger' ps rest, r = Some (ret, brk, tables', n', charger', before ++ ps) ∧ xs = ps ++ rest ∧ kept_ready tables tables' ∧ (ret = false → counted m n').

Lemma walked_end m tables xs before brk n charger : counted m n → walked m tables xs before (Some (memory n <=? 0, brk, tables, n, charger, before)).
Proof. intros Hn. exists (memory n <=? 0), brk, tables, n, charger, [], xs. rewrite app_nil_r. split_and!; try done. intros v t ? ?. eauto. Qed.

Section Walks.
  Context (now : Z) (is_worth : Z → Z → Z → bool) (handles : gmap nat ContainerHandle) (l : Links) (m : Z) (Hm : - 2 ^ 62 <= m <= 2 ^ 62).

Lemma load_walk_ok tail xs : ∀ fuel tables n charger loaders, tail ∉ xs → match xs with [] => True | x :: r => path l x r tail end → (∀ p, p ∈ xs → live_node handles tables p) → (length xs < fuel)%nat → counted m n →
  walked m tables xs loaders (load_walk now is_worth fuel handles l tail (default tail (head xs)) tables n charger loaders).
Proof.
  induction xs as [|x xs IH]; intros fuel tables n charger loaders Ht Hp Hl Hf Hn; (destruct fuel as [|fuel]; [cbn in Hf; lia|]); cbn [load_walk head default from_option Datatypes.id].
  - rewrite Nat.eqb_refl. by apply walked_end.
  - rewrite (proj2 (Nat.eqb_neq _ _)) by set_solver. destruct (Hl x ltac:(by left)) as (h & t & Hh & Et & Hr). rewrite Hh. cbn [mbind option_bind]. rewrite Et. cbn [mbind option_bind].
    destruct (ft_cold t now); [by apply walked_end|]. destruct (is_worth _ _ _); cbn [negb]; [|by apply walked_end]. rewrite (proj1 (path_first _ _ _ _ Hp)). cbn [mbind option_bind]. destruct (ft_load_ok t Hr) as (t' & -> & Hr'). cbn [mbind option_bind].
    pose proof (ft_size_range t Hr) as Hd. pose proof (counted_step m n _ Hm Hn Hd) as Hc. cbv zeta in Hc. set (n1 := MkCounters _ _) in *. destruct (memory n1 <=? 0).
    + eexists true, false, _, n1, _, [x], xs. split_and!; [done|done|by apply kept_insert|done].
    + destruct (IH fuel (<[ch_value h:=t']> tables) n1 (i64 (charger + ft_unit_size t)) (loaders ++ [x])) as (ret & brk & tables' & n' & charger' & ps & rest & E & -> & Hk & Hc').
      * set_solver.
      * destruct xs; [done|]. by destruct Hp.
      * intros p Hin. eapply live_kept; [by apply kept_insert|]. apply Hl. by right.
      * cbn in Hf. lia.
      * by apply Hc.
      * rewrite <-(assoc_L (++)) in E. exists ret, brk, tables', n', charger', (x :: ps), rest. split_and!; [done|done| |done]. eapply kept_ready_trans; [by apply kept_insert|done].
Qed.

Lemma evict_walk_ok head xs : ∀ fuel z tables n charger evicters, head ∉ xs → path l head xs z → (∀ p, p ∈ xs → live_node handles tables p) → (length xs < fuel)%nat → counted m n →
  walked m tables (reverse xs) evicters (evict_walk now fuel handles l head (default head (last xs)) tables n charger evicters).
Proof.
  induction xs as [|x xs IH] using rev_ind; intros fuel z tables n charger evicters Ht Hp Hl Hf Hn; (destruct fuel as [|fuel]; [cbn in Hf; lia|]); rewrite ?last_snoc; cbn [evict_walk last default from_option Datatypes.id].
  - rewrite Nat.eqb_refl. by apply walked_end.
  - rewrite reverse_app. cbn [reverse app].
    apply path_app in Hp as [Hp _]. rewrite (proj2 (Nat.eqb_neq _ _)) by set_solver. rewrite (proj2 (path_last _ _ _ _ Hp)). cbn [mbind option_bind].
    destruct (Hl x ltac:(set_solver)) as (h & t & Hh & Et & Hr). rewrite Hh. cbn [mbind option_bind]. rewrite Et. cbn [mbind option_bind].
    destruct (ft_cold t now); cbn [negb]; [|by apply walked_end]. destruct (ft_evict_ok t Hr) as (t' & -> & Hr'). cbn [mbind option_bind].
    pose proof (ft_size_range t Hr) as Hd. pose proof (counted_step m n _ Hm Hn Hd) as Hc. cbv zeta in Hc. set (n1 := MkCounters _ _) in *. destruct (memory n1 <=? 0).
    + eexists true, false, _, n1, _, [x], (reverse xs). split_and!; [done|done|by apply kept_insert|done].
    + destruct (IH fuel x (<[ch_value h:=t']> tables) n1 (i64 (charger - ft_unit_size t)) (evicters ++ [x])) as (ret & brk & tables' & n' & charger' & ps & rest & E & Er & Hk & Hc').
      * set_solver.
      * done.
      * intros p Hin. eapply live_kept; [by apply kept_insert|]. apply Hl. set_solver.
      * rewrite length_app in Hf. cbn in Hf. lia.
      * by apply Hc.
      * rewrite <-(assoc_L (++)) in E. exists ret, brk, tables', n', charger', (x :: ps), rest. split_and!; [done|by rewrite Er| |done]. eapply kept_ready_trans; [by apply kept_insert|done].
Qed.

End Walks.

(** ** Passes *)

Section Passes.
  Context (now : Z) (is_worth : Z → Z → Z → bool) (load : bool) (m : Z) (Hm : - 2 ^ 62 <= m <= 2 ^ 62).

(** The numbers of units for which the neighbouring row exists. *)
Definition can_adjust (bf : Z) : Prop := 0 <= bf <= 6 ∧ if load then bf < 6 else 0 < bf.

Lemma alive_kept tables tables' s s' : alive tables s → kept_ready tables tables' → mc_handles s' = mc_handles s → alive tables' s'.
Proof. intros Ha Hk E p h. rewrite E. intros Hh. destruct (Ha p h Hh) as (t & Ht & Hr). by apply (Hk _ t). Qed.

Lemma adjust_container_ok bf level tables n s ls : mc_ok s ls → alive tables s → can_adjust bf → 0 <= level < 8 → counted m n →
  ∃ ret brk tables' n' s' ls', adjust_container now is_worth load bf level tables n s = Some (ret, brk, tables', n', s') ∧ mc_ok s' ls' ∧ alive tables' s' ∧ kept_ready tables tables' ∧
    hash_tabale_ s' = hash_tabale_ s ∧ (ret = false → counted m n').
Proof.
  intros M Ha [Hbf Hadj] Hl Hn. pose proof M as [K M2 _ _ _ _]. unfold adjust_container. destruct (container_some bf level ltac:(lia) Hl) as [c Ec]. rewrite Ec. cbn [mbind option_bind].
  pose proof (container_lt _ _ _ Ec) as Hc. rewrite <-(lk_len _ _ K) in Hc. destruct (lookup_lt_is_Some_2 ls c Hc) as [xs Hxs]. pose proof (lk_paths _ _ K _ _ Hxs) as Hp. destruct (linked_inner K c xs Hxs) as (Hnd & Hh & Ht).
  assert (Hin : ∀ p, p ∈ xs → p ∈ concat ls) by (intros p Hin; apply bucket_elem; eauto).
  assert (Hlive : ∀ p, p ∈ xs → live_node (mc_handles s) tables p) by (intros p Hx; destruct (proj1 (M2 p) (Hin p Hx)) as [h Eh]; destruct (Ha p h Eh) as (t & Et & Hr); by exists h, t).
  assert (Hlen : (length xs < S (base.size (mc_handles s)))%nat).
  { assert (length xs <= base.size (mc_handles s))%nat; [|lia]. rewrite <-(size_dom (D := gset nat)), <-(size_list_to_set (C := gset nat) xs) by done. apply subseteq_size. intros p Hx%elem_of_list_to_set. apply elem_of_dom, M2. auto. }
  assert (∃ r ys, walked m tables ys [] r ∧ NoDup ys ∧ (∀ p, p ∈ ys → p ∈ xs) ∧
    (if load then first ← next_ (mc_links s) !! head_ c; load_walk now is_worth (S (base.size (mc_handles s))) (mc_handles s) (mc_links s) (tail_ c) first tables n (charger_ s) []
     else last ← prev_ (mc_links s) !! tail_ c; evict_walk now (S (base.size (mc_handles s))) (mc_handles s) (mc_links s) (head_ c) last tables n (charger_ s) []) = r) as (r & ys & W & Hny & Hys & ->).
  { destruct load.
    - rewrite (proj1 (path_first _ _ _ _ Hp)). cbn [mbind option_bind]. eexists _, xs. split_and!; [|done|done|done]. apply load_walk_ok; try done. destruct xs; [done|]. by destruct Hp.
    - rewrite (proj2 (path_last _ _ _ _ Hp)). cbn [mbind option_bind]. eexists _, (reverse xs). split_and!; [|by rewrite reverse_Permutation|intros p; by rewrite elem_of_reverse|done]. by eapply evict_walk_ok. }
  destruct W as (ret & brk & tables' & n' & charger' & ps & rest & -> & -> & Hk & Hc'). cbn [mbind option_bind app]. apply NoDup_app in Hny as (Hnps & _ & _).
  destruct (refile_ok (with_charger s charger') ls ps bf (if load then bf + 1 else bf - 1)) as (s1 & s' & ls' & -> & E2 & (E3 & E4 & _) & M' & _).
  - by destruct M.
  - done.
  - intros p Hx. apply Hin, Hys. set_solver.
  - lia.
  - destruct load; lia.
  - cbn [mbind option_bind]. rewrite E2. cbn [mbind option_bind]. exists ret, brk, tables', n', s', ls'. split_and!; try done. by eapply alive_kept.
Qed.

Lemma adjust_levels_ok bf levels : can_adjust bf → Forall (λ level, 0 <= level < 8) levels → ∀ tables n s ls, mc_ok s ls → alive tables s → counted m n →
  ∃ ret tables' n' s' ls', adjust_levels now is_worth load bf levels tables n s = Some (ret, tables', n', s') ∧ mc_ok s' ls' ∧ alive tables' s' ∧ kept_ready tables tables' ∧ hash_tabale_ s' = hash_tabale_ s ∧ (ret = false → counted m n').
Proof.
  intros Hbf. induction 1 as [|level levels Hl _ IH]; intros tables n s ls M Ha Hn; cbn [adjust_levels].
  - exists false, tables, n, s, ls. split_and!; try done. intros v t ? ?. eauto.
  - destruct (adjust_container_ok bf level tables n s ls M Ha Hbf Hl Hn) as (ret & brk & tables1 & n1 & s1 & ls1 & -> & M1 & A1 & K1 & H1 & C1). cbn [mbind option_bind]. destruct ret; [by exists true, tables1, n1, s1, ls1|].
    destruct brk; [by exists false, tables1, n1, s1, ls1|]. destruct (IH tables1 n1 s1 ls1 M1 A1 (C1 eq_refl)) as (ret & tables2 & n2 & s2 & ls2 & E & M2 & A2 & K2 & H2 & C2). exists ret, tables2, n2, s2, ls2.
    split_and!; try done; [by eapply kept_ready_trans|congruence].
Qed.

Lemma adjust_rows_ok numbers levels : Forall can_adjust numbers → Forall (λ level, 0 <= level < 8) levels → ∀ tables n s ls, mc_ok s ls → alive tables s → counted m n →
  ∃ ret tables' n' s' ls', adjust_rows now is_worth load numbers levels tables n s = Some (ret, tables', n', s') ∧ mc_ok s' ls' ∧ alive tables' s' ∧ kept_ready tables tables' ∧ hash_tabale_ s' = hash_tabale_ s ∧ (ret = false → counted m n').
Proof.
  intros Hns Hls. induction Hns as [|bf numbers Hbf _ IH]; intros tables n s ls M Ha Hn; cbn [adjust_rows].
  - exists false, tables, n, s, ls. split_and!; try done. intros v t ? ?. eauto.
  - destruct (adjust_levels_ok bf levels Hbf Hls tables n s ls M Ha Hn) as (ret & tables1 & n1 & s1 & ls1 & -> & M1 & A1 & K1 & H1 & C1). cbn [mbind option_bind]. destruct ret; [by exists true, tables1, n1, s1, ls1|].
    destruct (IH tables1 n1 s1 ls1 M1 A1 (C1 eq_refl)) as (ret & tables2 & n2 & s2 & ls2 & E & M2 & A2 & K2 & H2 & C2). exists ret, tables2, n2, s2, ls2. split_and!; try done; [by eapply kept_ready_trans|congruence].
Qed.

End Passes.

(** The passes come to an end, as each one that another follows uses up memory. *)
Lemma adjust_passes_ok now is_worth load numbers levels : Forall (can_adjust load) numbers → Forall (λ level, 0 <= level < 8) levels → ∀ fuel m tables s ls, (Z.to_nat m < fuel)%nat → - 2 ^ 62 <= m <= 2 ^ 62 → mc_ok s ls → alive tables s →
  ∃ tables' s' ls', adjust_passes now is_worth fuel load numbers levels tables m s = Some (tables', s') ∧ mc_ok s' ls' ∧ alive tables' s' ∧ kept_ready tables tables' ∧ hash_tabale_ s' = hash_tabale_ s.
Proof.
  intros Hns Hls. induction fuel as [|fuel IH]; intros m tables s ls Hf Hm M Ha; [lia|]. cbn [adjust_passes]. assert (Hc0 : counted m (MkCounters 0 m)) by (split_and!; cbn; [lia|lia|by right]).
  destruct (adjust_rows_ok now is_worth load m Hm numbers levels Hns Hls tables _ s ls M Ha Hc0) as (ret & tables1 & n1 & s1 & ls1 & -> & M1 & A1 & K1 & H1 & C1). cbn [mbind option_bind].
  destruct ret; cbn [orb]; [by exists tables1, s1, ls1|]. destruct (C1 eq_refl) as (C2 & C3 & C4). destruct (memory n1 >? 0) eqn:E1; cbn [andb negb]; [|by exists tables1, s1, ls1]. destruct (all_size n1 =? 0) eqn:E2; cbn [negb]; [by exists tables1, s1, ls1|].
  apply Z.gtb_lt in E1. apply Z.eqb_neq in E2. destruct (IH (memory n1) tables1 s1 ls1) as (tables2 & s2 & ls2 & E & M2 & A2 & K2 & H2); [lia|lia|done|done|]. exists tables2, s2, ls2. split_and!; try done; [by eapply kept_ready_trans|congruence].
Qed.

(** ** Clients *)

Inductive ContainerOp :=
  | McInsert (key : bytes) (level : Z) (object : nat)
  | McLookup (key : bytes)
  | McErase (key : bytes)
  | McLoad (now : Z) (is_worth : Z → Z → Z → bool) (m : Z)
  | McEvict (now m : Z).

Definition container_op (op : ContainerOp) (tables : gmap nat T) (s : MultiContainer) : option (gmap nat T * MultiContainer) :=
  match op with
  | McInsert key level object => '(_, s) ← mc_Insert key level object tables s; Some (tables, s)
  | McLookup key => '(_, s) ← mc_Lookup key s; Some (tables, s)
  | McErase key => s ← mc_Erase key s; Some (tables, s)
  | McLoad now is_worth m => mc_LoadBloomFilter now is_worth m tables s
  | McEvict now m => mc_EvictBloomFilter now m tables s
  end.

Fixpoint container_run (ops : list ContainerOp) (tables : gmap nat T) (s : MultiContainer) : option (gmap nat T * MultiContainer) :=
  match ops with
  | [] => Some (tables, s)
  | op :: ops => '(tables, s) ← container_op op tables s; container_run ops tables s
  end.

(** Levels are those of the database and inserted tables are in memory. *)
Definition legal tables (op : ContainerOp) : Prop :=
  match op with
  | McInsert _ level object => 0 <= level < 7 ∧ ∃ t, tables !! object = Some t ∧ ft_ready t
  | McLoad _ _ m | McEvict _ m => - 2 ^ 62 <= m <= 2 ^ 62
  | _ => True
  end.

Lemma container_op_ok op tables s ls : mc_ok s ls → alive tables s → legal tables op →
  ∃ tables' s' ls', container_op op tables s = Some (tables', s') ∧ mc_ok s' ls' ∧ alive tables' s' ∧ kept_ready tables tables'.
Proof.
  intros M Ha Hop. assert (Hrefl : kept_ready tables tables) by (intros v t ? ?; eauto). destruct op as [key level object|key|key|now is_worth m|now m]; cbn [container_op legal] in *.
  - destruct Hop as [Hl Ht]. destruct (mc_Insert_ok key level object tables s ls M Hl Ht) as (s' & ls' & -> & M' & A'). exists tables, s', ls'. auto.
  - destruct (mc_Lookup_ok key s ls M) as (s' & ls' & -> & M' & A'). exists tables, s', ls'. auto.
  - destruct (mc_Erase_ok key s ls M) as (s' & ls' & -> & M' & A'). exists tables, s', ls'. auto.
  - destruct (adjust_passes_ok now is_worth true [0; 1; 2; 3; 4; 5] [0; 1; 2; 3; 4; 5; 6; 7] ltac:(repeat constructor; lia) ltac:(repeat constructor; lia) (S (Z.to_nat m)) m tables s ls ltac:(lia) Hop M Ha)
      as (tables' & s' & ls' & E & M' & A' & K' & _). by exists tables', s', ls'.
  - destruct (adjust_passes_ok now (λ _ _ _, true) false [6; 5; 4; 3; 2] [7; 6; 5; 4; 3; 2; 1] ltac:(repeat constructor; lia) ltac:(repeat constructor; lia) (S (Z.to_nat m)) m tables s ls ltac:(lia) Hop M Ha)
      as (tables' & s' & ls' & E & M' & A' & K' & _). by exists tables', s', ls'.
Qed.

Lemma legal_kept tables tables' op : kept_ready tables tables' → legal tables op → legal tables' op.
Proof. intros Hk. destruct op; cbn; try done. intros [Hl (t & Ht & Hr)]. split; [done|]. by apply (Hk _ t). Qed.

Lemma container_run_ok ops : ∀ tables s ls, mc_ok s ls → alive tables s → Forall (legal tables) ops → ∃ tables' s' ls', container_run ops tables s = Some (tables', s') ∧ mc_ok s' ls' ∧ alive tables' s'.
Proof.
  induction ops as [|op ops IH]; intros tables s ls M Ha Hops; cbn [container_run]; [by exists tables, s, ls|]. apply Forall_cons in Hops as [Hop Hops].
  destruct (container_op_ok op tables s ls M Ha Hop) as (tables1 & s1 & ls1 & -> & M1 & A1 & K1). cbn [mbind option_bind]. apply (IH tables1 s1 ls1 M1 A1). eapply Forall_impl; [exact Hops|]. intros o. by apply legal_kept.
Qed.

End Operations.

(** C25: The containers of adjustment candidates stay well formed: for every sequence of insertions, lookups, removals and planned loads and evictions over tables in memory, all operations return (the passes of an adjustment come to an end, no index is out of range and no pointer is null), the linked list of every container is intact, and every handle is on exactly one list. *)
Theorem containers_stay_linked (T : Type) (FT : FilterTable T) (FL : FilterTableLaws T) (tables : gmap nat T) (ops : list ContainerOp) :
  Forall (legal tables) ops → ∃ tables' s ls, container_run ops tables NewMultiContainer = Some (tables', s) ∧ mc_ok s ls.
Proof.
  intros Hops. destruct (container_run_ok ops tables NewMultiContainer _ New_ok) as (tables' & s & ls & E & M & _); [|done|by exists tables', s, ls]. intros p h. cbn. by rewrite lookup_empty.
Qed.

(** Tables with units of 100 bytes, up to six, that are cold after time 50. *)
Module ContainerExample.
Record ExampleTable := MkExampleTable { units : Z; id : Z }.

#[global] Instance Example_FilterTable : FilterTable ExampleTable := {
  ft_units t := Some (units t);
  ft_charge t := Some (100 * units t);
  ft_unit_size _ := 100;
  ft_cold _ now := 50 <=? now;
  ft_id := id;
  ft_bits_per_key _ := 4;
  ft_load t := Some (MkExampleTable (Z.min 6 (units t + 1)) (id t));
  ft_evict t := Some (MkExampleTable (Z.max 0 (units t - 1)) (id t));
}.

#[global] Instance Example_laws : FilterTableLaws ExampleTable.
Proof.
  refine {| ft_ready t := 0 <= units t < 7 |}; cbn; [lia|by eexists|by eexists|eexists; split; [done|]; cbn; lia|eexists; split; [done|]; cbn; lia].
Defined.

Definition tables : gmap nat ExampleTable := {[0%nat := MkExampleTable 2 7; 1%nat := MkExampleTable 2 8]}.
Definition a : bytes := [Byte.x61].
Definition b : bytes := [Byte.x62].
Definition ops : list ContainerOp := [McInsert a 1 0; McInsert b 1 1; McLookup a; McLoad 0 (λ _ _ _, true) 250; McErase b; McLookup a; McEvict 60 100].

(** The nodes of a container, from its head. *)
Fixpoint walk (fuel : nat) (l : Links) (tail curr : nat) : list nat :=
  match fuel with
  | O => []
  | S fuel => if (curr =? tail)%nat then [] else curr :: match next_ l !! curr with Some n => walk fuel l tail n | None => [] end
  end.
Definition members (c : nat) (s : MultiContainer) : list nat :=
  match next_ (mc_links s) !! head_ c with Some n => walk 10 (mc_links s) (tail_ c) n | None => [] end.
End ContainerExample.

Lemma containers_stay_linked_witness : ∃ tables' s ls, container_run ContainerExample.ops ContainerExample.tables NewMultiContainer = Some (tables', s) ∧ mc_ok s ls.
Proof.
  apply (containers_stay_linked ContainerExample.ExampleTable ContainerExample.Example_FilterTable ContainerExample.Example_laws). repeat constructor; cbn; try lia.
  - exists (ContainerExample.MkExampleTable 2 7). split; [reflexivity|cbn; lia].
  - exists (ContainerExample.MkExampleTable 2 8). split; [reflexivity|cbn; lia].
Defined.

(** A table of level 1 whose filter grows from two to three units is filed under one
    unit and level 3: [AddToContainers] takes the indices the other way round. *)
Lemma load_files_under_swapped_indices : let run := container_run [McInsert ContainerExample.a 1 0; McLoad 0 (λ _ _ _, true) 100] ContainerExample.tables NewMultiContainer in
  (λ r, (ContainerExample.members 25 r.2, ContainerExample.members 11 r.2)) <$> run = Some ([], [112%nat]) ∧ container 3 1 = Some 25%nat ∧ container 1 3 = Some 11%nat ∧
  (λ r, ContainerExample.units <$> r.1 !! 0%nat) <$> run = Some (Some 3).
Proof. vm_compute. done. Qed.

(** A lookup files the table under the number of units it was inserted with. *)
Lemma lookup_files_under_old_units : let run := container_run [McInsert ContainerExample.a 3 0; McLoad 0 (λ _ _ _, true) 100; McLookup ContainerExample.a] ContainerExample.tables NewMultiContainer in
  (λ r, (ContainerExample.members 27 r.2, ContainerExample.members 19 r.2)) <$> run = Some ([], [112%nat]) ∧ container 3 3 = Some 27%nat ∧ container 2 3 = Some 19%nat ∧
  (λ r, ContainerExample.units <$> r.1 !! 0%nat) <$> run = Some (Some 3).
Proof. vm_compute. done. Qed.
