(* ===== verification/Table.v ===== *)
(** * Reading tables (src/table/table.cc, src/include/leveldb/table.h)

    [Table::Open] reads the footer and the index block, and the filter's meta data
    through the meta index block; a lookup searches the index, asks the filter and
    searches one data block; an iterator is a two-level iterator over the index.
    The filter reader belongs to the table or, with a multi-queue, to the queue.
    The block cache is what its [Lookup] finds for a key; the blocks a read puts into
    it are part of the result. *)

From Stdlib Require Import String.
From S2P Require Import Prelude Coding Status Env Crc32c Comparator Format DbFormat Block Iterators TwoLevel Bloom FilterBlock TableBuilder MultiQueue.
Import Coding.

(** ** Iterators over one block *)

(** [Block::NewIterator] through the iterator interface. *)
Definition block_iterator (b : Block) : Empty + Iter :=
  match NewIterator b with
  | ErrorIterator s => inl (NewErrorIterator s)
  | EmptyIterator => inl NewEmptyIterator
  | BlockIter it => inr it
  end.

Definition Data_ops (C : Comparator) : IteratorOps (Empty + Iter) := @sum_ops _ _ Empty_ops (BlockIter_ops C).

Section Table.
  Context {P : Port} {D : IoCost}.

(** [Table::Rep]; [tr_handle] is the handle in the multi-queue. *)
Record Table := MkTable {
  tr_options : TableOptions;
  tr_file : RandomAccessFile;
  tr_block_cache_id : Z;
  tr_table_id : Z;
  tr_footer : Footer;
  tr_index_block : Block;
  tr_handle : option nat;
  tr_reader : option Reader.FilterBlockReader;
  tr_multi_cache_key : bytes;
}.

Definition tr_metaindex_handle (t : Table) : BlockHandle := metaindex_handle (tr_footer t).

Definition tr_set_filter (t : Table) (handle : option nat) (reader : option Reader.FilterBlockReader) : Table :=
  MkTable (tr_options t) (tr_file t) (tr_block_cache_id t) (tr_table_id t) (tr_footer t) (tr_index_block t) handle reader (tr_multi_cache_key t).

(** [Table::ParseHandleKey]: the key of the filter in the multi-queue. *)
Definition ParseHandleKey (options : TableOptions) (file_id : Z) : option bytes :=
  '(name, _) ← t_filter_policy options;
  Some (filter_key name ++ EncodeFixed64 file_id).

Definition BFNumer (t : Table) : option Z :=
  match tr_reader t with Some r => Reader.FilterUnitsNumber r | None => Some 0 end.

Definition UnitSize (t : Table) : Z := match tr_reader t with Some r => Reader.OneUnitSize r | None => 0 end.

Definition BFChange (t : Table) : option Z :=
  match tr_reader t with Some r => n ← Reader.FilterUnitsNumber r; Some (u64 (n * Reader.OneUnitSize r)) | None => Some 0 end.

Definition ISCold (t : Table) (current_time : Z) : bool :=
  match tr_reader t with Some r => Reader.IsCold current_time r | None => true end.

Definition LoadBloomFilter (t : Table) : option (Z * Table) :=
  match tr_reader t with
  | None => Some (0, t)
  | Some r =>
      b ← Reader.CanBeLoaded r;
      if b : bool then Some (Reader.OneUnitSize r, tr_set_filter t (tr_handle t) (Some (Reader.LoadFilter r).2)) else Some (0, t)
  end.

(** The reader is used without a test for null. *)
Definition EvictBloomFilter (t : Table) : option (Z * Table) :=
  r ← tr_reader t;
  b ← Reader.CanBeEvict r;
  if b : bool then Some (Reader.OneUnitSize r, tr_set_filter t (tr_handle t) (Some (Reader.EvictFilter r).2)) else Some (0, t).

(** ** Opening *)

(** [ReadFilter]: [None] where the source asserts or leaves its data; the inner
    option is the pointer.  [junk] stands for the reader's members without an
    initializer. *)
Definition ReadFilter (junk : Z) (t : Table) : option (option Reader.FilterBlockReader) :=
  match t_filter_policy (tr_options t) with
  | None => Some None
  | Some (name, _) =>
      match ReadBlock (tr_file t) (t_paranoid_checks (tr_options t)) (metaindex_handle (tr_footer t)) with
      | Fail _ => Some None
      | Ok contents =>
          iter ← @iSeek _ (Data_ops BytewiseComparator) (block_iterator (NewBlock (data contents))) (filter_key name);
          if @iValid _ (Data_ops BytewiseComparator) iter then
            k ← @iKey _ (Data_ops BytewiseComparator) iter;
            if Slice.eqb k (filter_key name) then
              filter_meta ← @iValue _ (Data_ops BytewiseComparator) iter;
              if size filter_meta <? 21 then None
              else Some (Some (Reader.NewFilterBlockReader junk filter_meta (tr_file t)))
            else Some None
          else Some None
      end
  end.

(** [ReadMeta], with the multi-queue the options name. *)
Definition ReadMeta (junk : Z) (t : Table) (multi_queue : option MultiQueue) : option (Table * option MultiQueue) :=
  match t_filter_policy (tr_options t), tr_reader t, tr_handle t with
  | Some (_, policy), None, None =>
      match multi_queue with
      | None =>
          reader ← ReadFilter junk t;
          match reader with
          | Some r => Some (tr_set_filter t None (Some (Reader.InitLoadFilter r).2), None)
          | None => Some (t, None)
          end
      | Some mq =>
          match MultiQueue.Lookup mq (tr_multi_cache_key t) with
          | None =>
              reader ← ReadFilter junk t;
              match reader with
              | Some r =>
                  let '(h, mq) := MultiQueue.Insert mq (tr_multi_cache_key t) r in
                  Some (tr_set_filter t (Some h) None, Some mq)
              | None => Some (t, Some mq)
              end
          | Some h =>
              mq ← MQGoBackToInitFilter mq h (Some (tr_file t));
              Some (tr_set_filter t (Some h) None, Some mq)
          end
      end
  | _, _, _ => Some (t, multi_queue)
  end.

(** [Open]: the status, the table if one was made, and the multi-queue;
    [block_cache_id] is a new id of the block cache, 0 without one. *)
Definition Open (junk block_cache_id : Z) (options : TableOptions) (file : RandomAccessFile) (file_size table_id : Z) (multi_queue : option MultiQueue)
    : option (Status * option Table * option MultiQueue) :=
  if file_size <? kEncodedLength then Some (Corruption (bs "file is too short to be an sstable") [], None, multi_queue)
  else
    match Read file (file_size - kEncodedLength) kEncodedLength with
    | Fail s => Some (s, None, multi_queue)
    | Ok (footer_input, _) =>
        match Footer_DecodeFrom footer_input with
        | Fail s => Some (s, None, multi_queue)
        | Ok (footer, _) =>
            match ReadBlock file (t_paranoid_checks options) (index_handle footer) with
            | Fail s => Some (s, None, multi_queue)
            | Ok contents =>
                let key := default [] (ParseHandleKey options table_id) in
                let t := MkTable options file block_cache_id table_id footer (NewBlock (data contents)) None None key in
                '(t, mq) ← ReadMeta junk t multi_queue;
                Some (Status_OK, Some t, mq)
            end
        end
    end.

(** The destructor gives the filter units back to the multi-queue. *)
Definition Close (t : Table) (multi_queue : option MultiQueue) : option (option MultiQueue) :=
  match multi_queue, tr_handle t with
  | Some mq, Some h => mq ← MultiQueue.Release mq h; Some (Some mq)
  | _, _ => Some multi_queue
  end.

(** ** Reading *)

(** [Lookup] of the block cache, and the blocks given to [Insert]. *)
Definition BlockCache : Type := bytes → option Block.
Definition Inserted : Type := list (bytes * Block).

(** The options of a read that matter here. *)
Record ReadOptions := MkReadOptions { verify_checksums : bool; fill_cache : bool }.

Definition block_cache_key (t : Table) (handle : BlockHandle) : bytes :=
  EncodeFixed64 (tr_block_cache_id t) ++ EncodeFixed64 (bh_offset handle).

(** The block of a handle. *)
Definition read_block (t : Table) (options : ReadOptions) (block_cache : option BlockCache) (handle : BlockHandle) : result Block * Inserted :=
  let from_file := ReadBlock (tr_file t) (verify_checksums options) handle in
  match block_cache with
  | Some cache =>
      let key := block_cache_key t handle in
      match cache key with
      | Some block => (Ok block, [])
      | None =>
          match from_file with
          | Ok contents =>
              let block := NewBlock (data contents) in
              (Ok block, if cachale contents && fill_cache options then [(key, block)] else [])
          | Fail s => (Fail s, [])
          end
      end
  | None => (match from_file with Ok contents => Ok (NewBlock (data contents)) | Fail s => Fail s end, [])
  end.

(** [BlockReader]: the iterator for an index value. *)
Definition BlockReader (t : Table) (options : ReadOptions) (block_cache : option BlockCache) (index_value : bytes) : (Empty + Iter) * Inserted :=
  match BlockHandle_DecodeFrom index_value with
  | Fail s => (inl (NewErrorIterator s), [])
  | Ok (handle, _) =>
      let '(block, inserted) := read_block t options block_cache handle in
      (match block with Ok b => block_iterator b | Fail s => inl (NewErrorIterator s) end, inserted)
  end.

Definition TableNewIterator (t : Table) : option (TwoLevelIterator (Empty + Iter) (Empty + Iter)) :=
  @NewTwoLevelIterator _ _ (Data_ops (t_comparator (tr_options t))) (block_iterator (tr_index_block t)).

(** Its operations. *)
Definition Table_ops (t : Table) (options : ReadOptions) (block_cache : option BlockCache) (fuel : nat) : IteratorOps (TwoLevelIterator (Empty + Iter) (Empty + Iter)) :=
  @TwoLevel_ops _ _ (Data_ops (t_comparator (tr_options t))) (Data_ops (t_comparator (tr_options t)))
    (λ handle, Some (BlockReader t options block_cache handle).1) fuel.

Definition MultiQueueKeyMayMatch (t : Table) (block_offset : Z) (key : bytes) (multi_queue : option MultiQueue) : option (bool * option MultiQueue) :=
  match multi_queue, tr_handle t, t_filter_policy (tr_options t) with
  | Some mq, Some h, Some (_, policy) =>
      '(b, mq) ← @UpdateHandle policy P D mq h block_offset key;
      Some (b, Some mq)
  | _, _, _ => Some (true, multi_queue)
  end.

(** The two filter tests of [InternalGet]: whether the block must be read. *)
Definition filter_passes (t : Table) (index_value k : bytes) (multi_queue : option MultiQueue) : option (bool * option MultiQueue) :=
  match BlockHandle_DecodeFrom index_value with
  | Fail _ => Some (true, multi_queue)
  | Ok (handle, _) =>
      may ← match tr_reader t, t_filter_policy (tr_options t) with
            | Some r, Some (_, policy) => @Reader.ReaderKeyMayMatch policy (bh_offset handle) k r
            | _, _ => Some true
            end;
      if negb may then Some (false, multi_queue)
      else if bool_decide (is_Some (tr_handle t)) then MultiQueueKeyMayMatch t (bh_offset handle) k multi_queue
      else Some (true, multi_queue)
  end.

(** [InternalGet]: the status, the entry handed to [handle_result] if any, the
    multi-queue and what was put into the block cache. *)
Definition InternalGet (t : Table) (options : ReadOptions) (block_cache : option BlockCache) (k : bytes) (multi_queue : option MultiQueue)
    : option (Status * option (bytes * bytes) * option MultiQueue * Inserted) :=
  let ops := Data_ops (t_comparator (tr_options t)) in
  iiter ← iSeek (block_iterator (tr_index_block t)) k;
  '(s, found, mq, inserted) ←
    (if iValid iiter then
       index_value ← iValue iiter;
       '(pass, mq) ← filter_passes t index_value k multi_queue;
       if negb pass then Some (Status_OK, None, mq, [])
       else
         let '(block_iter, inserted) := BlockReader t options block_cache index_value in
         block_iter ← iSeek block_iter k;
         found ← (if iValid block_iter then fk ← iKey block_iter; fv ← iValue block_iter; Some (Some (fk, fv)) else Some None);
         Some (iStatus block_iter, found, mq, inserted)
     else Some (Status_OK, None, multi_queue, []));
  Some (if ok s then iStatus iiter else s, found, mq, inserted).

Definition ApproximateOffsetOf (t : Table) (key : bytes) : option Z :=
  let ops := Data_ops (t_comparator (tr_options t)) in
  index_iter ← iSeek (block_iterator (tr_index_block t)) key;
  if iValid index_iter then
    v ← iValue index_iter;
    Some (match BlockHandle_DecodeFrom v with
          | Ok (handle, _) => bh_offset handle
          | Fail _ => bh_offset (tr_metaindex_handle t)
          end)
  else Some (bh_offset (tr_metaindex_handle t)).

(** ** The number of entries in the meta index block *)

(** [std::stoi] on a string that begins with digits; [None] where it throws. *)
Fixpoint stoi_digits (v : bytes) (acc : option Z) : option Z :=
  match v with
  | c :: v' =>
      if (48 <=? b2z c) && (b2z c <=? 57) then stoi_digits v' (Some (default 0 acc * 10 + (b2z c - 48))) else acc
  | [] => acc
  end.

Definition stoi (v : bytes) : option Z :=
  n ← stoi_digits v None;
  if n <? 2 ^ 31 then Some n else None.

(** [return_sstable_kv_number]: [*kv_number] is unset on an early return, and an
    unreadable meta index block is used uninitialised ([None]). *)
Definition return_sstable_kv_number (options : TableOptions) (file : RandomAccessFile) (file_size : Z) : option (Status * option Z) :=
  if file_size <? kEncodedLength then Some (Corruption (bs "file is too short to be an sstable") [], None)
  else
    match Read file (file_size - kEncodedLength) kEncodedLength with
    | Fail s => Some (s, None)
    | Ok (footer_input, _) =>
        match Footer_DecodeFrom footer_input with
        | Fail s => Some (s, None)
        | Ok (footer, _) =>
            match ReadBlock file (t_paranoid_checks options) (metaindex_handle footer) with
            | Fail _ => None
            | Ok contents =>
                iter ← @iSeek _ (Data_ops BytewiseComparator) (block_iterator (NewBlock (data contents))) kv_number_key;
                if @iValid _ (Data_ops BytewiseComparator) iter then
                  v ← @iValue _ (Data_ops BytewiseComparator) iter;
                  n ← stoi v;
                  Some (Status_OK, Some n)
                else Some (Status_OK, Some (-1))
            end
        end
    end.

End Table.
