(* ===== verification/TableRead.v ===== *)
(** * What a finished table shows

    A file that [TableBuilder] finished (its layout is [table_file], TableFile.v)
    opens; its iterator shows the entries that were added, in order; a lookup hands
    over the first entry that is not below the key, and nothing when no entry of the
    user key is visible.  The latter is what a version relies on (Version.v). *)

From Stdlib Require Import String DecimalString DecimalFacts Decimal.
From S2P Require Import Prelude Coding Status Env Crc32c Comparator Format DbFormat Block Iterators TwoLevel WriteBatch MemTable VersionEdit Version Bloom FilterBlock TableBuilder TableFile MultiQueue Table.
Import Coding.

(** ** Sizes *)

Lemma nb_digits_double d : (nb_digits (Little.double d) <= S (nb_digits d) ∧ nb_digits (Little.succ_double d) <= S (nb_digits d))%nat.
Proof. induction d; simpl; lia. Qed.

Lemma nb_digits_pos p : (nb_digits (Pos.to_little_uint p) <= Pos.size_nat p)%nat.
Proof. induction p as [p IH|p IH|]; simpl; [..|done]; pose proof (nb_digits_double (Pos.to_little_uint p)); lia. Qed.

Lemma nb_digits_revapp d : ∀ e, nb_digits (revapp d e) = (nb_digits d + nb_digits e)%nat.
Proof. induction d; intros e; simpl; rewrite ?IHd; simpl; lia. Qed.

Lemma size_decimal z : 0 <= z < 2 ^ 31 → size (decimal z) <= 32.
Proof.
  intros Hz. assert (∀ d, length (bs (NilEmpty.string_of_uint d)) = nb_digits d) as Hl.
  { unfold bs, list_byte_of_string. intros d. rewrite length_map. induction d; simpl; [done|..]; by rewrite IHd. }
  assert (∀ d, (length (bs (NilZero.string_of_uint d)) <= S (nb_digits d))%nat) as Hl'.
  { intros d. destruct d; [done|..]; unfold NilZero.string_of_uint; rewrite Hl; lia. }
  unfold decimal, size. destruct z as [|p|p]; [done| |lia]. etransitivity; [apply inj_le, Hl'|]. cbn [Z.to_N N.to_uint].
  assert (nb_digits (Pos.to_uint p) <= 31)%nat; [|lia]. unfold Pos.to_uint, Decimal.rev. rewrite nb_digits_revapp. pose proof (nb_digits_pos p). cbn [nb_digits].
  pose proof (Pos.size_nat_monotone p (2 ^ 31 - 1) ) as Hm. change (Pos.size_nat (2 ^ 31 - 1)) with 31%nat in Hm.
  destruct (Pos.lt_total p (2 ^ 31 - 1)) as [|[->|]]; [specialize (Hm ltac:(done)); lia|simpl in *; lia|lia].
Qed.

Lemma entry_sizes (l : list (bytes * bytes)) n kv : entries_size l < n → kv ∈ l → size kv.1 < n ∧ size kv.2 < n.
Proof.
  intros Hl Hkv. assert (∀ l : list (bytes * bytes), 0 <= entries_size l) as Hpos.
  { induction l0 as [|e l0 IH]; simpl; [done|]. pose proof (size_nonneg e.1). pose proof (size_nonneg e.2). lia. }
  assert (size kv.1 + size kv.2 <= entries_size l) as Hle; [|pose proof (size_nonneg kv.1); pose proof (size_nonneg kv.2); lia].
  clear Hl. induction l as [|e l IH]; [by apply not_elem_of_nil in Hkv|]. simpl. pose proof (Hpos l). pose proof (size_nonneg e.1). pose proof (size_nonneg e.2).
  apply elem_of_cons in Hkv as [->|Hkv]; [lia|]. specialize (IH Hkv). lia.
Qed.

(** The windows of a filter block are those of the offsets. *)
Lemma build_windows {policy : FilterPolicy} {FL : FilterPolicyLaws policy} hi : ∀ blocks b gs ks lo,
  BuilderFacts.represents b gs ks → BuilderFacts.offsets_from lo blocks → size gs <= lo / kFilterBase → (∀ x, x ∈ blocks → x.1 <= hi) → lo <= hi →
  ∃ gs' ks', BuilderFacts.represents (foldl BuilderFacts.build_block b blocks) gs' ks' ∧ size gs' <= hi / kFilterBase.
Proof.
  induction blocks as [|[a new] blocks IH]; intros b gs ks lo Hb Hlo Hsz Hin Hle.
  - exists gs, ks. split; [done|]. etransitivity; [done|]. by apply Z.div_le_mono.
  - destruct Hlo as [Hlo Hrest]. assert (lo / kFilterBase <= a / kFilterBase) by (by apply Z.div_le_mono).
    destruct (BuilderFacts.build_block_spec b gs ks a new Hb ltac:(lia)) as (gs1 & ks1 & H1 & H2 & _).
    apply (IH _ gs1 ks1 a H1 Hrest); [lia|intros x Hx; apply Hin; by right|apply (Hin (a, new)); left].
Qed.

Lemma ReturnFilters_windows {policy : FilterPolicy} {FL : FilterPolicyLaws policy} b gs ks gs' : BuilderFacts.represents b gs ks →
  BuilderFacts.represents (Builder.ReturnFilters b).1 gs' [] → size gs' <= size gs + 1.
Proof.
  intros Hb H. assert (∀ gs gs', BuilderFacts.offsets_of gs = BuilderFacts.offsets_of gs' → size gs = size gs') as Hinj.
  { intros g g' E. unfold size. by rewrite <-BuilderFacts.length_offsets_of, E, BuilderFacts.length_offsets_of. }
  pose proof Hb as (_ & Hs & _ & Ho & _). destruct H as (_ & _ & _ & H & _). unfold Builder.ReturnFilters in H. rewrite Hs in H.
  destruct ks as [|k ks]; simpl in H.
  - rewrite Ho in H. apply Hinj in H. lia.
  - pose proof (BuilderFacts.represents_GenerateFilter b gs (k :: ks) Hb) as (_ & _ & _ & Ho' & _). rewrite Ho' in H. apply Hinj in H.
    rewrite size_app in H. change (size [k :: ks]) with 1 in H. lia.
Qed.

Section Opened.
  Context {P : Port} {PL : PortLaws P} {D : IoCost} (o : TableOptions) (Ho : known_compression (t_compression o)).
  Context {L : ComparatorLaws (t_comparator o)} (HI : 1 <= t_block_restart_interval o).
  Context (HP : ∀ name policy, t_filter_policy o = Some (name, policy) → FilterPolicyLaws policy).
  Context (kvs : list (bytes * bytes)) (blocks : list (list (bytes * bytes))) (idx : list (bytes * bytes)).
  Context (HT : table_blocks o kvs blocks idx) (HS : keys_sorted (C := t_comparator o) kvs) (HW : weight kvs < 2 ^ 31).

Abbreviation C := (t_comparator o).
Abbreviation interval := (t_block_restart_interval o).
Abbreviation file := (table_file o blocks idx).

Context (HF : size file < 2 ^ 32).

(** ** The index *)

Lemma block_of i e : idx !! i = Some e → ∃ b, blocks !! i = Some b.
Proof using HT.
  destruct HT as (_ & _ & _ & E). intros Hi%lookup_lt_Some. rewrite E in Hi. by apply lookup_lt_is_Some_2 in Hi.
Qed.

Lemma data_size i : size (data_blocks o (take i blocks)) < 2 ^ 31.
Proof using PL Ho HT HW.
  clear HS; destruct HT as (<- & Hne & _). pose proof (size_data_blocks o Ho (take i blocks) (Forall_take _ _ _ Hne)) as H.
  rewrite <-(take_drop i blocks) in HW at 1. rewrite concat_app, weight_app in HW. pose proof (weight_nonneg (concat (drop i blocks))). lia.
Qed.

Lemma block_weight i b : blocks !! i = Some b → weight b <= weight kvs.
Proof using HT.
  clear HS HW; destruct HT as (<- & _). intros Hi. rewrite <-(take_drop_middle _ _ _ Hi), concat_app, concat_cons, !weight_app.
  pose proof (weight_nonneg (concat (take i blocks))). pose proof (weight_nonneg (concat (drop (S i) blocks))). lia.
Qed.

Lemma stored_size i b : blocks !! i = Some b → 0 <= size (stored o (build_block interval b)).1 < 2 ^ 32.
Proof using PL Ho HT HW.
  intros Hi. pose proof (block_weight i b Hi). destruct (stored_spec o Ho (build_block interval b) true) as (Hle & _).
  pose proof (size_build_block interval b). pose proof (entries_weight b). pose proof (size_nonneg b).
  pose proof (size_nonneg (stored o (build_block interval b)).1). lia.
Qed.

Lemma handle_good i b bh : blocks !! i = Some b → handles o 0 blocks !! i = Some bh → handle_ok bh.
Proof using PL Ho HT HW.
  intros Hi Hh. rewrite (handles_at o blocks i b 0 Hi) in Hh. injection Hh as <-. pose proof (data_size i). pose proof (stored_size i b Hi).
  pose proof (size_nonneg (data_blocks o (take i blocks))). split; cbn [bh_offset bh_size]; range_lia.
Qed.

Lemma idx_entry i sep h : idx !! i = Some (sep, h) → ∃ b, blocks !! i = Some b ∧
  h = BlockHandle_EncodeTo (MkHandle (size (data_blocks o (take i blocks))) (size (stored o (build_block interval b)).1)) [] ∧
  BlockHandle_DecodeFrom h = Ok (MkHandle (size (data_blocks o (take i blocks))) (size (stored o (build_block interval b)).1), []).
Proof using PL Ho HT HW.
  intros Hi. pose proof HT as (_ & _ & [_ Hidx] & _). destruct (Hidx i sep h Hi) as (b & Hb & (bh & Hh & ->) & _). exists b. split; [done|].
  pose proof (handle_good i b bh Hb Hh) as Hok. rewrite (handles_at o blocks i b 0 Hb) in Hh. injection Hh as <-. split; [done|].
  rewrite <-(app_nil_r (BlockHandle_EncodeTo _ [])). by apply BlockHandle_Decode_Encode.
Qed.

Lemma idx_weight : Forall2 (λ e b, size e.1 + size e.2 + 19 <= weight b) idx blocks.
Proof using PL Ho HT HW.
  pose proof HT as (_ & _ & [_ Hidx] & El). apply Forall2_same_length_lookup_2; [done|]. intros i [sep h] b Hi Hb.
  destruct (Hidx i sep h Hi) as (b' & Hb' & (bh & Hh & ->) & (kv & Hkv & Hsz) & _). assert (b' = b) as -> by congruence.
  pose proof (weight_elem kv b Hkv). pose proof (size_BlockHandle_EncodeTo bh (handle_good i b bh Hb Hh)). pose proof (size_nonneg kv.2).
  unfold kMaxEncodedLength in *. cbn [fst snd]. lia.
Qed.

Lemma idx_entries_size : entries_size idx <= weight kvs.
Proof using PL Ho HT HW.
  pose proof idx_weight as H. clear HS; destruct HT as (<- & _). clear -H. induction H as [|e b l k He _ IH]; [done|]. simpl. rewrite weight_app. lia.
Qed.

Lemma separates_blocks : separates C idx blocks.
Proof using HT.
  pose proof HT as (_ & _ & [_ Hidx] & _). intros i sep h b Hi Hb. destruct (Hidx i sep h Hi) as (b' & Hb' & _ & _ & H1 & H2 & _).
  assert (b' = b) as -> by congruence. done.
Qed.

Lemma idx_sorted : keys_sorted (C := C) idx.
Proof using HT L.
  pose proof HT as (_ & Hne & _ & _). intros i j e e' Hij Hi Hj. destruct e as [s h], e' as [s' h'].
  destruct (block_of i _ Hi) as [b Hb]. destruct (block_of j _ Hj) as [b' Hb']. pose proof (proj1 (Forall_lookup _ _) Hne j b' Hb') as Hb'ne.
  destruct b' as [|kv b']; [done|]. destruct (separates_blocks i s h b Hi Hb) as [_ H1]. destruct (separates_blocks j s' h' _ Hj Hb') as [H2 _].
  cbn [fst]. apply (Compare_lt_le_trans _ kv.1); [eapply H1; [exact Hij|exact Hb'|left]|apply H2; left].
Qed.

(** ** Reading the blocks *)

Lemma ReadBlock_data i sep h b v : idx !! i = Some (sep, h) → blocks !! i = Some b →
  ∃ c, ReadBlock (StringSource file) v (MkHandle (size (data_blocks o (take i blocks))) (size (stored o (build_block interval b)).1)) = Ok c ∧
    data c = build_block interval b.
Proof using PL Ho HF.
  intros Hi Hb. assert (∃ post, file = data_blocks o (take i blocks) ++ on_disk o (build_block interval b) ++ post) as [post E].
  { eexists. unfold table_file, data_blocks. rewrite <-(take_drop_middle _ _ _ Hb) at 1. rewrite fmap_app, concat_app, fmap_cons, concat_cons.
    rewrite <-!app_assoc. f_equal. }
  rewrite E in HF |- *. apply (ReadBlock_on_disk o Ho). lia.
Qed.

Lemma block_sorted i b : blocks !! i = Some b → keys_sorted (C := C) b.
Proof using HT HS.
  intros Hb. pose proof HT as (E & _). intros m n kv kv' Hmn Hm Hn. pose proof (lookup_lt_Some _ _ _ Hm). pose proof (lookup_lt_Some _ _ _ Hn).
  apply (HS (offset blocks i + m)%nat (offset blocks i + n)%nat); [lia|..]; rewrite <-E, (offset_at _ _ _ _ Hb) by done; done.
Qed.

Lemma built_reads B (i : Z) (l : list (bytes * bytes)) : 1 <= i → keys_sorted (C := C) l → entries_size l <= weight kvs →
  ∃ it, block_iterator (NewBlock (build_block i l)) = it ∧ @reads _ (Data_ops C) B C l it None.
Proof using L HW.
  intros Hi Hs Hl. pose proof (size_build_block i l). destruct (build_block_reads B C i l Hi Hs) as (it & E & Hr).
  - intros kv. apply entry_sizes. lia.
  - lia.
  - eexists. split; [done|]. unfold block_iterator. rewrite E. by apply reads_inr.
Qed.

(** ** The open table *)

(** The reader's filter, if there is a policy, is loaded from the file. *)
Definition filter_post : bytes := on_disk o (meta_raw o blocks) ++ on_disk o (build_block 1 idx) ++ Footer_EncodeTo (footer_of o blocks idx) [].

Definition filter_open (r : option Reader.FilterBlockReader) : Prop :=
  match t_filter_policy o with
  | None => r = None
  | Some (_, policy) => ∃ junk r', r = Some r' ∧ Reader.init_done r' = true ∧
      rtc (ReaderFacts.reader_step (@EndToEnd.units_file policy (finished_blocks o blocks) (data_blocks o blocks) filter_post))
        (@EndToEnd.open_reader policy junk (finished_blocks o blocks) (data_blocks o blocks) filter_post) r'
  end.

Definition opened (t : Table) : Prop :=
  tr_options t = o ∧ tr_file t = StringSource file ∧ tr_index_block t = NewBlock (build_block 1 idx) ∧ tr_handle t = None ∧
  tr_footer t = footer_of o blocks idx ∧ filter_open (tr_reader t).

Lemma BlockReader_data t i sep h b v : opened t → idx !! i = Some (sep, h) → blocks !! i = Some b →
  (BlockReader t v None h).1 = block_iterator (NewBlock (build_block interval b)).
Proof using PL Ho HT HW HF.
  intros (_ & Ef & _) Hi Hb. destruct (idx_entry i sep h Hi) as (b' & Hb' & _ & Hd). assert (b' = b) as -> by congruence.
  unfold BlockReader, read_block. rewrite Hd, Ef. destruct (ReadBlock_data i sep h b (verify_checksums v) Hi Hb) as (c & -> & ->). done.
Qed.

Lemma BlockReader_inserted t v h : (BlockReader t v None h).2 = [].
Proof. unfold BlockReader. by destruct (BlockHandle_DecodeFrom h) as [[] |]. Qed.

(** With a block cache that holds, for this handle, the block of the file, if any,
    the iterator is the same; a miss caches the block of the file. *)
Lemma BlockReader_cached (t : Table) v cache h handle rest c : BlockHandle_DecodeFrom h = Ok (handle, rest) → ReadBlock (tr_file t) (verify_checksums v) handle = Ok c →
  cache (block_cache_key t handle) ∈ [None; Some (NewBlock (data c))] →
  (BlockReader t v (Some cache) h).1 = (BlockReader t v None h).1 ∧
  ∀ e, e ∈ (BlockReader t v (Some cache) h).2 → e = (block_cache_key t handle, NewBlock (data c)).
Proof.
  intros Hd Hr Hc. unfold BlockReader, read_block. rewrite Hd, Hr. apply elem_of_cons in Hc as [->|Hc]; [|apply list_elem_of_singleton in Hc as ->]; cbn [fst snd].
  - split; [done|]. intros e. case_match; [by intros ->%list_elem_of_singleton|by intros ?%not_elem_of_nil].
  - split; [done|]. by intros e ?%not_elem_of_nil.
Qed.

Lemma index_reads B t : opened t → @reads _ (Data_ops C) B C idx (block_iterator (tr_index_block t)) None.
Proof using PL Ho L HT HW.
  intros (_ & _ & -> & _). destruct (built_reads B 1 idx ltac:(lia) idx_sorted idx_entries_size) as (it & -> & Hr). done.
Qed.

Lemma data_reads B t i sep h b v : opened t → idx !! i = Some (sep, h) → blocks !! i = Some b →
  @reads _ (Data_ops C) B C b (BlockReader t v None h).1 None.
Proof using PL Ho L HI HT HS HW HF.
  intros Ht Hi Hb. rewrite (BlockReader_data t i sep h b v Ht Hi Hb). pose proof (block_weight i b Hb). pose proof (entries_weight b). pose proof (size_nonneg b).
  destruct (built_reads B interval b HI (block_sorted i b Hb) ltac:(lia)) as (it & -> & Hr). done.
Qed.

(** ** The iterator *)

(** The block of an index value. *)
Definition block_at (h : bytes) : list (bytes * bytes) :=
  match list_find (λ e : (bytes * bytes) * list (bytes * bytes), e.1.2 = h) (zip idx blocks) with Some (_, e) => e.2 | None => [] end.

Lemma size_block_disk b : 5 <= size (block_disk o b).
Proof. unfold block_disk, on_disk. rewrite size_raw_block. unfold kBlockTrailerSize. pose proof (size_nonneg (stored o (build_block interval b)).1). lia. Qed.

Lemma data_prefix_lt i j b : (i < j)%nat → blocks !! i = Some b → size (data_blocks o (take i blocks)) < size (data_blocks o (take j blocks)).
Proof.
  intros Hij Hb. rewrite <-(take_drop i (take j blocks)). rewrite take_take, Nat.min_l by lia. unfold data_blocks. rewrite fmap_app, concat_app, size_app.
  assert (drop i (take j blocks) = b :: drop (S i) (take j blocks)) as ->.
  { apply drop_S. rewrite lookup_take. by rewrite decide_True. }
  rewrite fmap_cons, concat_cons, size_app. pose proof (size_block_disk b). pose proof (size_nonneg (concat (block_disk o <$> drop (S i) (take j blocks)))). lia.
Qed.

Lemma block_at_idx i sep h b : idx !! i = Some (sep, h) → blocks !! i = Some b → block_at h = b.
Proof using PL Ho HT HW.
  intros Hi Hb. unfold block_at. destruct (list_find _ (zip idx blocks)) as [[j e]|] eqn:E.
  - apply list_find_Some in E as (Hj & He & _). destruct e as [[sep' h'] b']. cbn [fst snd] in *. subst h'.
    apply lookup_zip_with_Some in Hj as ([sep'' h''] & b'' & [= <- <- <-] & Hj & Hbj).
    destruct (idx_entry i sep h Hi) as (x & Hx & _ & Ei). destruct (idx_entry j _ h Hj) as (y & Hy & _ & Ej).
    rewrite Ei in Ej. injection Ej as Ej _. assert (i = j) as ->; [|congruence].
    destruct (lt_eq_lt_dec i j) as [[Hlt|]|Hlt]; [|done|]; exfalso.
    + pose proof (data_prefix_lt i j b Hlt Hb). lia.
    + pose proof (data_prefix_lt j i b' Hlt Hbj). lia.
  - exfalso. apply list_find_None in E. rewrite Forall_lookup in E. apply (E i ((sep, h), b)); [|done].
    apply lookup_zip_with_Some. by exists (sep, h), b.
Qed.

Lemma blocks_of_idx : blocks_of idx block_at = blocks.
Proof using PL Ho HT HW.
  apply list_eq. intros i. unfold blocks_of. rewrite list_lookup_fmap. destruct (idx !! i) as [[sep h]|] eqn:Hi; simpl.
  - destruct (block_of i _ Hi) as [b Hb]. rewrite (block_at_idx i sep h b Hi Hb). done.
  - symmetry. apply lookup_ge_None. destruct HT as (_ & _ & _ & <-). by apply lookup_ge_None.
Qed.

Lemma TableNewIterator_reads B t v fuel : opened t → (length idx <= fuel)%nat →
  ∃ it, TableNewIterator t = Some it ∧ @reads _ (Table_ops t v None fuel) B C kvs it None.
Proof using PL Ho L HI HT HS HW HF.
  intros Ht Hfuel. pose proof Ht as (Eo & _). unfold TableNewIterator, Table_ops. rewrite Eo.
  assert (kvs = concat (blocks_of idx block_at)) as Ek by (rewrite blocks_of_idx; by destruct HT as (-> & _)). rewrite Ek. eapply (two_level_reads (H := Data_ops C) (H0 := Data_ops C) B C (λ h, Some (BlockReader t v None h).1) idx block_at _ _ fuel Hfuel). by apply index_reads.
  Unshelve.
  - intros sep h [i Hi]%list_elem_of_lookup_1. destruct (block_of i _ Hi) as [b Hb]. eexists _, None. split; [done|].
    rewrite (block_at_idx i sep h b Hi Hb). by eapply data_reads.
  - rewrite blocks_of_idx. apply separates_blocks.
Qed.

(** ** Opening *)

Context (HN : ∀ name policy, t_filter_policy o = Some (name, policy) →
  size name < 2 ^ 31 ∧ @Compare C (filter_key name) kv_number_key < 0).

(** The meta data of the filter. *)
Lemma filter_meta_size meta : filter_meta o blocks = Some meta → 25 <= size meta < 2 ^ 30.
Proof using PL Ho HP HT HW.
  clear HN. unfold filter_meta. destruct (t_filter_policy o) as [[name policy]|] eqn:Ep; [|done]. pose proof (HP name policy eq_refl) as FL.
  destruct (finished_offsets o blocks) as [Hoff Hle]. pose proof (data_size (length blocks)) as Hd. rewrite take_ge in Hd by done.
  pose proof (size_nonneg (data_blocks o blocks)).
  destruct (build_windows (size (data_blocks o blocks)) (finished_blocks o blocks) Builder.NewFilterBlockBuilder [] [] 0 BuilderFacts.represents_new Hoff) as (gs & ks & Hg & Hsz); [done..|].
  fold (BuilderFacts.build (finished_blocks o blocks)) in Hg. destruct (BuilderFacts.ReturnFilters_spec _ gs ks Hg) as (gs' & Hg' & _).
  pose proof (ReturnFilters_windows _ gs ks gs' Hg Hg') as Hw. destruct (Builder.ReturnFilters _) as [b units]. cbn [fst] in *. intros Em. apply Some_inj in Em as <-.
  rewrite (EndToEnd.Finish_layout b gs' _ Hg'), size_app, size_fixed32s, EndToEnd.size_window_limits. pose proof (size_nonneg gs').
  assert (size (data_blocks o blocks) / kFilterBase <= 2 ^ 31 / kFilterBase) by (apply Z.div_le_mono; [done|lia]). change (2 ^ 31 / kFilterBase) with (2 ^ 20) in *.
  match goal with |- context[size (EndToEnd.meta_tail ?h)] => change (size (EndToEnd.meta_tail h)) with 21 end. lia.
Qed.

Lemma policy_meta name policy : t_filter_policy o = Some (name, policy) → ∃ meta, filter_meta o blocks = Some meta ∧
  meta_kvs o blocks = [(filter_key name, meta); (kv_number_key, decimal (size kvs))].
Proof using HT HN.
  intros Ep. destruct (HN name policy Ep) as [_ Hlt%Z.ltb_lt]. pose proof HT as (Ec & _). unfold meta_kvs, meta_entries. rewrite Ec. unfold filter_meta. rewrite Ep.
  destruct (Builder.ReturnFilters _). eexists. split; [done|]. by rewrite Hlt.
Qed.

Lemma no_policy_meta : t_filter_policy o = None → meta_kvs o blocks = [(kv_number_key, decimal (size kvs))].
Proof using HT. intros Ep. pose proof HT as (Ec & _). unfold meta_kvs, meta_entries, filter_meta. by rewrite Ec, Ep. Qed.

Lemma filter_key_lt name : @Compare BytewiseComparator (filter_key name) kv_number_key < 0.
Proof. cbn. unfold Bytewise.Compare. by rewrite Slice.compare_lex. Qed.

Lemma meta_sorted : keys_sorted (C := BytewiseComparator) (meta_kvs o blocks).
Proof using HT HN.
  destruct (t_filter_policy o) as [[name policy]|] eqn:Ep in |- *.
  - destruct (policy_meta name policy Ep) as (meta & _ & ->). apply sortedb_sorted. cbn [sortedb forallb fst]. pose proof (filter_key_lt name) as H%Z.ltb_lt. by rewrite H.
  - rewrite no_policy_meta by done. by apply sortedb_sorted.
Qed.

Lemma size_kvs : 0 <= size kvs < 2 ^ 31.
Proof using HW. pose proof (size_weight kvs). pose proof (size_nonneg kvs). lia. Qed.

Lemma meta_size : entries_size (meta_kvs o blocks) < 2 ^ 32 - 8.
Proof using PL Ho HP HT HW HN.
  pose proof (size_decimal (size kvs) size_kvs). destruct (t_filter_policy o) as [[name policy]|] eqn:Ep in |- *.
  - destruct (policy_meta name policy Ep) as (meta & Em & ->). pose proof (filter_meta_size meta Em). destruct (HN name policy Ep) as [Hn _].
    simpl. unfold filter_key. rewrite size_app. change (size (bs "filter.")) with 7. change (size kv_number_key) with 17. lia.
  - rewrite no_policy_meta by done. simpl. change (size kv_number_key) with 17. lia.
Qed.

Lemma meta_reads : @reads _ (Data_ops BytewiseComparator) (2 ^ 32) BytewiseComparator (meta_kvs o blocks) (block_iterator (NewBlock (meta_raw o blocks))) None.
Proof using PL Ho HP HI HT HW HN.
  pose proof meta_size as Hm. pose proof (size_build_block interval (meta_kvs o blocks)).
  destruct (build_block_reads (2 ^ 32) BytewiseComparator interval (meta_kvs o blocks) HI meta_sorted) as (it & E & Hr).
  - intros kv. apply entry_sizes. lia.
  - lia.
  - unfold meta_raw, block_iterator. rewrite E. by apply reads_inr.
Qed.

Lemma footer_good : handle_ok (metaindex_handle (footer_of o blocks idx)) ∧ handle_ok (index_handle (footer_of o blocks idx)).
Proof using PL Ho HF.
  pose proof HF as HF'. unfold table_file in HF'. rewrite !size_app in HF'. unfold on_disk in HF'. rewrite !size_raw_block in HF'. unfold kBlockTrailerSize in HF'.
  pose proof (size_nonneg (data_blocks o blocks)). pose proof (size_nonneg (filter_bytes o blocks)). pose proof (size_nonneg (stored o (meta_raw o blocks)).1).
  pose proof (size_nonneg (stored o (build_block 1 idx)).1). pose proof (size_nonneg (Footer_EncodeTo (footer_of o blocks idx) [])).
  split; split; cbn [footer_of metaindex_handle index_handle bh_offset bh_size]; try apply u64_range; range_lia.
Qed.

Lemma file_parts : file = (data_blocks o blocks ++ filter_bytes o blocks) ++ on_disk o (meta_raw o blocks) ++
    (on_disk o (build_block 1 idx) ++ Footer_EncodeTo (footer_of o blocks idx) []) ∧
  file = (data_blocks o blocks ++ filter_bytes o blocks ++ on_disk o (meta_raw o blocks)) ++ on_disk o (build_block 1 idx) ++ Footer_EncodeTo (footer_of o blocks idx) [] ∧
  file = (data_blocks o blocks ++ filter_bytes o blocks ++ on_disk o (meta_raw o blocks) ++ on_disk o (build_block 1 idx)) ++ Footer_EncodeTo (footer_of o blocks idx) [] ++ [].
Proof. unfold table_file. rewrite app_nil_r, <-!app_assoc. done. Qed.

Lemma ReadBlock_meta v : ∃ c, ReadBlock (StringSource file) v (metaindex_handle (footer_of o blocks idx)) = Ok c ∧ data c = meta_raw o blocks.
Proof using PL Ho HF.
  destruct file_parts as (E & _ & _). rewrite E. cbn [footer_of metaindex_handle]. rewrite u64_small.
  - apply (ReadBlock_on_disk o Ho). rewrite <-E. lia.
  - unfold meta_offset. pose proof HF as HF'. rewrite E, size_app in HF'. pose proof (size_nonneg (data_blocks o blocks ++ filter_bytes o blocks)).
    match type of HF' with context[_ + size ?l] => pose proof (size_nonneg l) end. range_lia.
Qed.

Lemma ReadBlock_index v : ∃ c, ReadBlock (StringSource file) v (index_handle (footer_of o blocks idx)) = Ok c ∧ data c = build_block 1 idx.
Proof using PL Ho HF.
  destruct file_parts as (_ & E & _). rewrite E. cbn [footer_of index_handle]. rewrite u64_small.
  - apply (ReadBlock_on_disk o Ho). rewrite <-E. lia.
  - unfold index_offset. pose proof HF as HF'. rewrite E, size_app in HF'. 
    match type of HF' with size ?k + size ?l < _ => pose proof (size_nonneg l); pose proof (size_nonneg k) end. range_lia.
Qed.

Lemma Read_footer : kEncodedLength <= size file ∧
  Read (StringSource file) (size file - kEncodedLength) kEncodedLength = Ok (Footer_EncodeTo (footer_of o blocks idx) [], true).
Proof using PL Ho HF.
  destruct footer_good as [Hm Hi]. destruct file_parts as (_ & _ & E). pose proof (size_Footer_EncodeTo _ Hm Hi) as Es.
  set (pre := data_blocks o blocks ++ _ ++ _ ++ _) in E. assert (size file = size pre + kEncodedLength) as Ez by (rewrite E, app_nil_r, size_app; lia).
  pose proof (size_nonneg pre). split; [lia|]. replace (size file - kEncodedLength) with (size pre) by lia. rewrite E, <-Es. cbn [Read StringSource].
  apply StringSource_Read_inside; [rewrite <-E; lia|rewrite Es; done].
Qed.

Lemma ReadFilter_spec junk t : tr_options t = o → tr_file t = StringSource file → tr_footer t = footer_of o blocks idx →
  match t_filter_policy o with
  | None => ReadFilter junk t = Some None
  | Some (_, policy) => ReadFilter junk t =
      Some (Some (@EndToEnd.open_reader policy junk (finished_blocks o blocks) (data_blocks o blocks) filter_post))
  end.
Proof using PL Ho HP HI HT HW HF HN.
  intros Eo Ef Et. unfold ReadFilter. rewrite Eo, Ef, Et. destruct (t_filter_policy o) as [[name policy]|] eqn:Ep in |- *; [|done].
  destruct (ReadBlock_meta (t_paranoid_checks o)) as (c & -> & ->). destruct (policy_meta name policy Ep) as (meta & Em & Ek).
  pose proof meta_reads as (R & HR & Hr). rewrite Ek in HR.
  assert (size (filter_key name) < 2 ^ 32) as Hfk by (destruct (HN name policy Ep) as [Hn _]; unfold filter_key; rewrite size_app; change (size (bs "filter.")) with 7; lia).
  destruct (co_seek _ _ _ _ HR _ _ (filter_key name) Hfk Hr) as (it & m & -> & Hm & Hit).
  cbn [mbind option_bind]. assert (m = 0%nat) as ->.
  { destruct m as [|m]; [done|]. destruct Hm as (_ & Hm & _). specialize (Hm 0%nat (filter_key name, meta) eq_refl ltac:(lia)). cbn [fst] in Hm. by rewrite Compare_refl in Hm. }
  cbn [cursor] in Hit. change (cursor _ 0) with (Some 0%nat) in Hit. rewrite (co_valid _ _ _ _ HR _ _ Hit), bool_decide_eq_true_2 by done.
  destruct (co_entry _ _ _ _ HR _ _ Hit) as (kv & [= <-] & -> & ->). cbn [mbind option_bind fst snd].
  rewrite (proj2 (Slice.eqb_eq _ _) eq_refl). destruct (Z.ltb_spec (size meta) 21); [pose proof (filter_meta_size meta Em); lia|].
  do 2 f_equal. unfold EndToEnd.open_reader. unfold filter_meta in Em. rewrite Ep in Em. unfold table_file, filter_bytes. rewrite Ep.
  fold (@BuilderFacts.build policy (finished_blocks o blocks)) in *. destruct (Builder.ReturnFilters _) as [b units] eqn:Er.
  apply Some_inj in Em. cbn [snd]. destruct (Builder.Finish _ b) as [b' meta'] eqn:Ef'. cbn [snd] in Em. subst meta'. done.
Qed.

Lemma filter_sizes name policy : t_filter_policy o = Some (name, policy) →
  @EndToEnd.sizes_ok policy (finished_blocks o blocks) (data_blocks o blocks) filter_post ∧
  @EndToEnd.units_file policy (finished_blocks o blocks) (data_blocks o blocks) filter_post = StringSource file.
Proof using HT HW HF.
  intros Ep. assert (data_blocks o blocks ++ EndToEnd.raw_units (@Builder.ReturnFilters policy (@BuilderFacts.build policy (finished_blocks o blocks))).2 ++ filter_post = file) as E.
  { unfold table_file, filter_bytes, filter_post. by rewrite Ep. }
  split; [|unfold EndToEnd.units_file; by rewrite E]. split_and!.
  - unfold finished_blocks. rewrite fmap_app, concat_app, size_app, filter_blocks_keys. pose proof HT as (-> & _). pose proof size_kvs as Hk. unfold size in *. rewrite length_fmap. simpl. lia.
  - pose proof HF as HF'. rewrite <-E, !size_app in HF'. destruct (Builder.ReturnFilters _).2 as [|u units]; [done|]. simpl.
    unfold EndToEnd.raw_units in HF'. rewrite fmap_cons, concat_cons, size_app, size_raw_block in HF'. unfold kBlockTrailerSize in *.
    pose proof (size_nonneg (data_blocks o blocks)). pose proof (size_nonneg filter_post).
    match type of HF' with context[size (concat ?l)] => pose proof (size_nonneg (concat l)) end. lia.
  - rewrite E. lia.
Qed.

Lemma Open_spec junk cache_id id : ∃ t, Open junk cache_id o (StringSource file) (size file) id None = Some (Status_OK, Some t, None) ∧ opened t.
Proof using PL Ho HP HI HT HW HF HN.
  unfold Open. destruct Read_footer as [Hk ->]. destruct (Z.ltb_spec (size file) kEncodedLength); [lia|].
  rewrite <-(app_nil_r (Footer_EncodeTo _ [])), Footer_Decode_Encode by apply footer_good. destruct (ReadBlock_index (t_paranoid_checks o)) as (c & -> & ->).
  set (t0 := MkTable _ _ _ _ _ _ _ _ _). pose proof (ReadFilter_spec junk t0 eq_refl eq_refl eq_refl) as HR. unfold ReadMeta.
  change (tr_options t0) with o. change (tr_reader t0) with (@None Reader.FilterBlockReader). change (tr_handle t0) with (@None nat).
  unfold opened, filter_open. destruct (t_filter_policy o) as [[name policy]|] eqn:Ep in HR |- *.
  - rewrite HR. cbn [mbind option_bind]. pose proof (HP name policy Ep) as FL. destruct (filter_sizes name policy Ep) as [Hsz Efile].
    destruct (reachable_reader junk _ _ _ _ (proj1 (finished_offsets o blocks)) Hsz (rtc_refl _ _)) as (gs & _ & Hu & _ & Hd & _ & Hi).
    destruct (ReaderFacts.InitLoadFilter_spec _ _ _ _ _ _ (BuilderFacts.length_units_of gs) Hd _ Hi) as (r' & E & _ & Hdone & _). rewrite E.
    eexists. split; [done|]. split_and!; try done. exists junk, r'. split_and!; try done. apply rtc_once.
    replace r' with (Reader.InitLoadFilter (@EndToEnd.open_reader policy junk (finished_blocks o blocks) (data_blocks o blocks) filter_post)).2 by (by rewrite E).
    constructor.
  - eexists. split; [done|]. by split_and!.
Qed.

(** ** Lookups *)

(** The filter passes a block that holds a key it takes for [k]. *)
Lemma filter_passes_key t i sep h b k : opened t → idx !! i = Some (sep, h) → blocks !! i = Some b →
  (∀ name policy, t_filter_policy o = Some (name, policy) → ∃ kv, kv ∈ b ∧
    ∀ r, @Reader.ReaderKeyMayMatch policy (size (data_blocks o (take i blocks))) kv.1 r = Some true →
         @Reader.ReaderKeyMayMatch policy (size (data_blocks o (take i blocks))) k r = Some true) →
  filter_passes t h k None = Some (true, None).
Proof using PL Ho HP HT HW HF.
  intros (Eo & Ef & _ & Eh & _ & Hr) Hi Hb Hk. destruct (idx_entry i sep h Hi) as (b' & Hb' & _ & Hd). assert (b' = b) as -> by congruence.
  unfold filter_passes. rewrite Hd, Eo, Eh. cbn [bh_offset]. rewrite bool_decide_eq_false_2 by (by intros []).
  unfold filter_open in Hr. destruct (t_filter_policy o) as [[name policy]|] eqn:Ep in Hr |- *; [|by rewrite Hr].
  destruct Hr as (junk & r & -> & Hdone & Hsteps). destruct (Hk name policy Ep) as (kv & Hkv & Hmatch). rewrite Hmatch; [done|].
  pose proof (HP name policy Ep) as FL. destruct (filter_sizes name policy Ep) as [Hsz _].
  destruct (reachable_reader junk _ _ _ _ (proj1 (finished_offsets o blocks)) Hsz Hsteps) as (gs & Hg & _ & Hu & _ & Hw & Hinv).
  destruct (Hw (size (data_blocks o (take i blocks))) b.*1 kv.1) as (Hbnd & g & Hg' & Hkg).
  { unfold finished_blocks. apply elem_of_app. left. rewrite <-(Z.add_0_l (size (data_blocks o (take i blocks)))). by apply filter_blocks_at. }
  { by apply list_elem_of_fmap_2. }
  by eapply EndToEnd.reader_matches.
Qed.

(** A failed filter test changes nothing but the answer; it always answers. *)
Lemma filter_passes_total t i sep h k : opened t → idx !! i = Some (sep, h) → ∃ pass, filter_passes t h k None = Some (pass, None).
Proof using PL Ho HP HT HW HF.
  intros (Eo & Ef & _ & Eh & _ & Hr) Hi. destruct (idx_entry i sep h Hi) as (b & Hb & _ & Hd). unfold filter_passes. rewrite Hd, Eo, Eh.
  rewrite (bool_decide_eq_false_2 (is_Some None)) by (by intros []). unfold filter_open in Hr.
  destruct (t_filter_policy o) as [[name policy]|] eqn:Ep in Hr |- *; [|rewrite Hr; by eexists].
  destruct Hr as (junk & r & -> & Hdone & Hsteps). cbn [bh_offset].
  assert (∃ m, @Reader.ReaderKeyMayMatch policy (size (data_blocks o (take i blocks))) k r = Some m) as [m ->].
  { unfold Reader.ReaderKeyMayMatch, Reader.FilterUnitsNumberInternal. rewrite Hdone. repeat case_match; eauto. }
  destruct m; cbn; eauto.
Qed.

(** The search stops at a block whose entries are all below the key, or that the
    filter rejects. *)
Definition stops_at (t : Table) (k : bytes) (i : nat) : Prop := ∃ sep h b, idx !! i = Some (sep, h) ∧ blocks !! i = Some b ∧
  0 <= @Compare C sep k ∧ (∀ j sep' h', (j < i)%nat → idx !! j = Some (sep', h') → @Compare C sep' k < 0) ∧
  ((∀ kv, kv ∈ b → @Compare C kv.1 k < 0) ∨ filter_passes t h k None = Some (false, None)).

Definition first_not_below (l : list (bytes * bytes)) (k : bytes) (kv : bytes * bytes) : Prop :=
  kv ∈ l ∧ 0 <= @Compare C kv.1 k ∧ ∀ kv', kv' ∈ l → 0 <= @Compare C kv'.1 k → @Compare C kv.1 kv'.1 <= 0.

Lemma in_blocks kv : kv ∈ kvs → ∃ i sep h b, idx !! i = Some (sep, h) ∧ blocks !! i = Some b ∧ kv ∈ b.
Proof using HT.
  pose proof HT as (E & _ & _ & El). rewrite <-E. intros (b & Hkv & [i Hb]%list_elem_of_lookup_1)%elem_of_concat.
  destruct (lookup_lt_is_Some_2 idx i) as [[sep h] Hi]; [rewrite El; by eapply lookup_lt_Some|]. by exists i, sep, h, b.
Qed.

Lemma block_in i b kv : blocks !! i = Some b → kv ∈ b → kv ∈ kvs.
Proof using HT.
  pose proof HT as (E & _). intros Hb Hkv. rewrite <-E. apply elem_of_concat. exists b. split; [done|]. by eapply list_elem_of_lookup_2.
Qed.

(** The first entry of a block not below the key is the first of the table. *)
Lemma first_of_block i b k n kv : blocks !! i = Some b → (∀ j sep h, (j < i)%nat → idx !! j = Some (sep, h) → @Compare C sep k < 0) →
  is_lower_bound (C := C) b k n → b !! n = Some kv → first_not_below kvs k kv.
Proof using L HT HS.
  intros Hb Hlt (_ & Hlow & Hhigh) Hn. assert (kv ∈ b) as Hin by (by eapply list_elem_of_lookup_2).
  split_and!; [by eapply block_in|by eapply Hhigh|]. intros kv' Hkv' Hge.
  destruct (in_blocks kv' Hkv') as (j & sep & h & b' & Hj & Hbj & Hin'). destruct (separates_blocks j sep h b' Hj Hbj) as [Hle _].
  destruct (lt_eq_lt_dec j i) as [[Hji|<-]|Hij].
  - exfalso. specialize (Hlt j sep h Hji Hj). pose proof (Compare_le_lt_trans kv'.1 sep k (Hle kv' Hin') Hlt). lia.
  - assert (b' = b) as -> by congruence. apply list_elem_of_lookup_1 in Hin' as [m Hm].
    destruct (lt_eq_lt_dec n m) as [[Hnm| <-]|Hmn].
    + apply Z.lt_le_incl. by apply (block_sorted j b Hb n m).
    + assert (kv' = kv) as -> by congruence. by rewrite Compare_refl.
    + specialize (Hlow m kv' Hm Hmn). lia.
  - destruct (lookup_lt_is_Some_2 idx i) as [[si hi] Hi]; [apply lookup_lt_Some in Hj; lia|].
    destruct (separates_blocks i si hi b Hi Hb) as [H1 H2]. apply Z.lt_le_incl, (Compare_le_lt_trans _ si); [by apply H1|by eapply H2].
Qed.

Lemma InternalGet_spec t v k : opened t → ∃ found, InternalGet t v None k None = Some (Status_OK, found, None, []) ∧
  match found with
  | Some kv => first_not_below kvs k kv
  | None => (∀ kv, kv ∈ kvs → @Compare C kv.1 k < 0) ∨ ∃ i, stops_at t k i
  end.
Proof using PL Ho L HI HP HT HS HW HF.
  intros Ht. pose proof Ht as (Eo & _). unfold InternalGet. rewrite Eo. destruct (index_reads (size k + 1) t Ht) as (R & HR & Hr).
  destruct (co_seek _ _ _ _ HR _ _ k ltac:(lia) Hr) as (iit & m & -> & (Hml & Hlow & Hhigh) & Hit). cbn [mbind option_bind].
  rewrite (co_valid _ _ _ _ HR _ _ Hit), (co_status _ _ _ _ HR _ _ Hit). destruct (decide (m < length idx)%nat) as [Hm|Hm].
  2: { rewrite cursor_None by lia. cbn. eexists. split; [done|]. left. intros kv Hkv.
       destruct (in_blocks kv Hkv) as (i & sep & h & b & Hi & Hb & Hin). destruct (separates_blocks i sep h b Hi Hb) as [H1 _].
       apply (Compare_le_lt_trans _ sep); [by apply H1|]. apply (Hlow i (sep, h) Hi). apply lookup_lt_Some in Hi. lia. }
  rewrite cursor_Some in Hit |- * by done. rewrite bool_decide_eq_true_2 by done.
  destruct (co_entry _ _ _ _ HR _ _ Hit) as ([sep h] & Hi & _ & ->). cbn [mbind option_bind snd]. destruct (block_of m _ Hi) as [b Hb].
  assert (∀ j sep' h', (j < m)%nat → idx !! j = Some (sep', h') → @Compare C sep' k < 0) as Hbefore by (intros j s' h' Hj Hx; by apply (Hlow j (s', h') Hx)).
  pose proof (Hhigh m (sep, h) Hi ltac:(lia)) as Hsep. cbn [fst] in Hsep.
  destruct (filter_passes_total t m sep h k Ht Hi) as [pass Hpass]. rewrite Hpass. cbn [mbind option_bind]. destruct pass; cbn [negb].
  2: { eexists. split; [done|]. right. exists m, sep, h, b. split_and!; try done. by right. }
  pose proof (BlockReader_inserted t v h) as Hins. destruct (data_reads (size k + 1) t m sep h b v Ht Hi Hb) as (R' & HR' & Hr').
  destruct (BlockReader t v None h) as [block_iter inserted]. cbn [fst snd] in *. subst inserted. destruct (co_seek _ _ _ _ HR' _ _ k ltac:(lia) Hr') as (bit & n & -> & Hlb & Hbit). cbn [mbind option_bind].
  rewrite (co_valid _ _ _ _ HR' _ _ Hbit), (co_status _ _ _ _ HR' _ _ Hbit). destruct (decide (n < length b)%nat) as [Hn|Hn].
  - rewrite cursor_Some in Hbit |- * by done. rewrite bool_decide_eq_true_2 by done. destruct (co_entry _ _ _ _ HR' _ _ Hbit) as ([fk fv] & Hkv & -> & ->).
    cbn [mbind option_bind fst snd]. eexists. split; [done|]. by eapply first_of_block.
  - rewrite cursor_None by lia. cbn. eexists. split; [done|]. right. exists m, sep, h, b. split_and!; try done. left.
    intros kv [x Hx]%list_elem_of_lookup_1. apply (proj1 (proj2 Hlb) x kv Hx). apply lookup_lt_Some in Hx. lia.
Qed.

(** The separator of a block, when there are later entries. *)
Lemma separator_of i sep h b j b' w : idx !! i = Some (sep, h) → blocks !! i = Some b → (i < j)%nat → blocks !! j = Some b' → w ∈ b' →
  ∃ kvl n : bytes * bytes, kvl ∈ b ∧ sep = @FindShortestSeparator C kvl.1 n.1 ∧ @Compare C kvl.1 n.1 < 0 ∧ @Compare C n.1 w.1 <= 0.
Proof using L HT HS.
  intros Hi Hb Hij Hb' Hw. pose proof HT as (E & Hne & [_ Hidx] & _). destruct (Hidx i sep h Hi) as (b0 & Hb0 & _ & _ & _ & _ & _ & Hfss).
  assert (b0 = b) as -> by congruence. pose proof (proj1 (Forall_lookup _ _) Hne i b Hb) as Hbne. destruct (last b) as [kvl|] eqn:El; [|by apply last_None in El].
  assert (kvl ∈ b) as Hkvl by (by apply last_Some_elem_of).
  assert (w ∈ concat (drop (S i) blocks)) as Hw'.
  { apply elem_of_concat. exists b'. split; [done|]. apply (list_elem_of_lookup_2 _ (j - S i)). rewrite lookup_drop. by replace (S i + (j - S i))%nat with j by lia. }
  unfold after in Hfss. destruct (concat (drop (S i) blocks)) as [|n rest] eqn:Ed; [by apply not_elem_of_nil in Hw'|]. exists kvl, n.
  assert (kvs = concat (take (S i) blocks) ++ n :: rest) as Ek by (by rewrite <-Ed, <-concat_app, take_drop).
  assert (∀ e, e ∈ rest → @Compare C n.1 e.1 < 0) as Hrest.
  { intros e [m Hm]%list_elem_of_lookup_1. pose proof HS as HS'. rewrite Ek in HS'.
    apply (HS' (length (concat (take (S i) blocks))) (length (concat (take (S i) blocks)) + S m)%nat); [lia|by rewrite list_lookup_middle|].
    rewrite lookup_app_r by lia. by replace (_ + S m - _)%nat with (S m) by lia. }
  split_and!; [done|by apply Hfss| |apply elem_of_cons in Hw' as [->|Hw']; [by rewrite Compare_refl|by apply Z.lt_le_incl, Hrest]].
  assert (kvl ∈ concat (take (S i) blocks)) as [m Hm]%list_elem_of_lookup_1.
  { apply elem_of_concat. exists b. split; [done|]. apply (list_elem_of_lookup_2 _ i). rewrite lookup_take. by rewrite decide_True by lia. }
  pose proof HS as HS'. rewrite Ek in HS'. apply (HS' m (length (concat (take (S i) blocks)))).
  - by eapply lookup_lt_Some.
  - by apply lookup_app_l_Some.
  - by rewrite list_lookup_middle.
Qed.

End Opened.

(** ** Tables of internal keys *)

Section Internal.
  Context {P : Port} {PL : PortLaws P} {D : IoCost} (o : TableOptions) (Ho : known_compression (t_compression o)).
  Context (U : Comparator) {L : ComparatorLaws U} (HC : t_comparator o = InternalKeyComparator U) (HI : 1 <= t_block_restart_interval o).
  Context (HP : ∀ name policy, t_filter_policy o = Some (name, policy) →
    (∃ user, policy = InternalFilterPolicy user ∧ FilterPolicyLaws user) ∧ ∀ a b, @Compare U a b = 0 → a = b).
  Context (ws : list Write) (Hok : Forall write_ok ws).

Definition entry (w : Write) : bytes * bytes := (ikey_of w, wvalue w).

Context (blocks : list (list (bytes * bytes))) (idx : list (bytes * bytes)).
Context (HT : table_blocks o (entry <$> ws) blocks idx) (HS : keys_sorted (C := InternalKeyComparator U) (entry <$> ws)) (HW : weight (entry <$> ws) < 2 ^ 31).
Context (HF : size (table_file o blocks idx) < 2 ^ 32).

Lemma policy_laws name policy : t_filter_policy o = Some (name, policy) → FilterPolicyLaws policy.
Proof using HP. intros Ep. destruct (HP name policy Ep) as [(user & -> & Hu) _]. by apply InternalFilterPolicy_laws. Qed.

Lemma table_comparator_laws : ComparatorLaws (t_comparator o).
Proof using L HC. rewrite HC. apply _. Qed.

Lemma table_sorted : keys_sorted (C := t_comparator o) (entry <$> ws).
Proof using HC HS. by rewrite HC. Qed.

Abbreviation lkey u s := (ikey u s kValueTypeForSeek).

(** The filter passes for a user key in the block. *)
Lemma filter_passes_user t i sep h b u s w : opened o blocks idx t → valid_seq s → idx !! i = Some (sep, h) → blocks !! i = Some b →
  entry w ∈ b → @Compare U u (wkey w) = 0 → filter_passes t h (lkey u s) None = Some (true, None).
Proof using PL Ho HP HT HW HF.
  intros Ht Hs Hi Hb Hw Hu. eapply (filter_passes_key o Ho policy_laws (entry <$> ws) blocks idx HT HW HF); try done. intros name policy Ep.
  destruct (HP name policy Ep) as [(user & -> & Hl) Heq]. exists (entry w). split; [done|]. intros r Hm. rewrite <-Hm. apply Heq in Hu as ->.
  assert (∀ us i st li, @Reader.match_units (InternalFilterPolicy user) i us st li (lkey (wkey w) s) =
    @Reader.match_units (InternalFilterPolicy user) i us st li (ikey_of w)) as Hus.
  { induction us as [|x us IH]; intros; simpl; [done|]. rewrite IH. unfold InternalKeyMayMatch, ikey_of. by rewrite !ExtractUserKey_ikey. }
  unfold Reader.ReaderKeyMayMatch. by rewrite Hus.
Qed.

(** A lookup that hands over nothing: no entry of the user key is visible. *)
Lemma stops_invisible t u s w : opened o blocks idx t → valid_seq s → w ∈ ws →
  (∀ kv, kv ∈ entry <$> ws → InternalKeyCompare U kv.1 (lkey u s) < 0) ∨ (∃ i, stops_at o blocks idx t (lkey u s) i) → visible U u s w = false.
Proof using PL Ho L HC HP Hok HT HS HW HF.
  intros Ht Hs Hw Hstop. destruct (visible U u s w) eqn:Hv; [|done]. exfalso. pose proof (proj1 (Forall_forall _ _) Hok w Hw) as Hwok.
  pose proof (proj2 (visible_le U u s w Hs Hwok) (or_intror Hv)) as Hle. pose proof Hv as [Hu%Z.eqb_eq _]%andb_true_iff.
  assert (entry w ∈ entry <$> ws) as Hin by (by apply list_elem_of_fmap_2).
  pose proof table_comparator_laws as TL. pose proof table_sorted as TS.
  assert (∀ a b, @Compare (t_comparator o) a b = InternalKeyCompare U a b) as EC by (intros; by rewrite HC).
  pose proof (Compare_antisym (C := InternalKeyComparator U) (lkey u s) (ikey_of w)) as Ha. cbn [Compare InternalKeyComparator] in Ha.
  destruct Hstop as [Hall|(i & sep & h & b & Hi & Hb & Hsep & Hbefore & Hcase)].
  { specialize (Hall _ Hin). cbn [entry fst] in Hall. lia. }
  rewrite EC in Hsep. destruct (in_blocks o _ blocks idx HT _ Hin) as (j & sj & hj & b' & Hj & Hbj & Hwb).
  destruct (separates_blocks o _ blocks idx HT j sj hj b' Hj Hbj) as [Hsj _]. specialize (Hsj _ Hwb). rewrite EC in Hsj. cbn [entry fst] in Hsj.
  destruct (lt_eq_lt_dec j i) as [[Hji| ->]|Hij].
  - specialize (Hbefore j sj hj Hji Hj). rewrite EC in Hbefore.
    pose proof (Compare_le_lt_trans (C := InternalKeyComparator U) _ _ _ Hsj Hbefore). cbn [Compare InternalKeyComparator] in *. lia.
  - assert (b' = b) as -> by congruence. destruct Hcase as [Hall|Hf].
    + specialize (Hall _ Hwb). rewrite EC in Hall. cbn [entry fst] in Hall. lia.
    + pose proof (filter_passes_user t i sep h b u s w Ht Hs Hi Hb Hwb Hu). congruence.
  - destruct (separator_of o _ blocks idx HT TS i sep h b j b' (entry w) Hi Hb Hij Hbj Hwb) as (kvl & n & Hkvl & Esep & Hln & Hnw).
    rewrite EC in Hln, Hnw. cbn [entry fst] in Hnw. rewrite HC in Esep. cbn [FindShortestSeparator InternalKeyComparator] in Esep.
    pose proof (Compare_antisym (C := InternalKeyComparator U) sep (lkey u s)) as Hka. cbn [Compare InternalKeyComparator] in Hka.
    assert (@Compare U u (ExtractUserKey sep) <= 0) as Hus.
    { assert (InternalKeyCompare U (lkey u s) sep <= 0) as Hks by lia. apply InternalKeyCompare_user in Hks. by rewrite ExtractUserKey_ikey in Hks. }
    assert (@Compare U (ExtractUserKey n.1) u <= 0) as Hnu.
    { apply InternalKeyCompare_user in Hnw. unfold ikey_of in Hnw. rewrite ExtractUserKey_ikey in Hnw. apply (Compare_trans _ (wkey w)); [done|].
      apply Compare_eq_sym in Hu. lia. }
    destruct (InternalFindShortestSeparator_cases U kvl.1 n.1) as [E|[E Hlt]]; rewrite <-Esep in E.
    + rewrite E in *. destruct Hcase as [Hall|Hf].
      { specialize (Hall _ Hkvl). rewrite EC in Hall. lia. }
      pose proof (block_in o _ blocks idx HT i b kvl Hb Hkvl) as Hkin. apply list_elem_of_fmap in Hkin as (wl & -> & Hwl). cbn [entry fst] in *.
      unfold ikey_of in Hus, Hln. rewrite ExtractUserKey_ikey in Hus. apply Z.lt_le_incl, InternalKeyCompare_user in Hln. rewrite ExtractUserKey_ikey in Hln.
      pose proof (Compare_trans _ _ _ Hln Hnu). pose proof (Compare_antisym u (wkey wl)).
      pose proof (filter_passes_user t i _ h b u s wl Ht Hs Hi Hb Hkvl ltac:(lia)). congruence.
    + assert (@Compare U (ExtractUserKey n.1) (ExtractUserKey sep) <= 0) as Hns by (by eapply Compare_trans).
      rewrite E in Hns. apply Z.lt_le_incl, InternalKeyCompare_user in Hln.
      destruct (Z.lt_ge_cases (@Compare U (ExtractUserKey kvl.1) (ExtractUserKey n.1)) 0) as [Hl|Hl].
      * pose proof (separator_lt _ _ Hl). apply Compare_le_ge in Hns. lia.
      * pose proof (separator_le _ _ Hln) as Hsl. pose proof (Compare_lt_le_trans _ _ _ Hlt Hsl). lia.
Qed.

(** [InternalGet] as the table cache calls it, for a table without multi-queue. *)
Definition table_get (t : Table) (options : ReadOptions) (k : bytes) : Status * option (bytes * bytes) :=
  match InternalGet t options None k None with Some (s, found, _, _) => (s, found) | None => (Corruption [] [], None) end.

Lemma table_reads t v f : opened o blocks idx t → TableReads U (λ _ _, table_get t v) (λ _, ws) f.
Proof using PL Ho L HC HI HP Hok HT HS HW HF.
  intros Ht. pose proof table_comparator_laws as TL. pose proof table_sorted as TS. unfold table_get.
  pose proof (λ k, InternalGet_spec o Ho HI policy_laws (entry <$> ws) blocks idx HT TS HW HF t v k Ht) as HG. split.
  - intros level u s _. by destruct (HG (lkey u s)) as (found & -> & _).
  - intros level u s k val Hs. destruct (HG (lkey u s)) as (found & -> & Hfound). cbn [snd]. intros ->.
    destruct Hfound as (Hin & Hge & Hmin). apply list_elem_of_fmap in Hin as (w & [= -> ->] & Hw). exists w.
    assert (∀ a b, @Compare (t_comparator o) a b = InternalKeyCompare U a b) as EC by (intros; by rewrite HC). rewrite EC in Hge. cbn [fst] in *.
    pose proof (Compare_le_ge (C := InternalKeyComparator U)) as Hsym. cbn [Compare InternalKeyComparator] in Hsym.
    split_and!; try done; [by apply Hsym|]. intros w' Hw' Hle. specialize (Hmin (entry w') ltac:(by apply list_elem_of_fmap_2)). rewrite !EC in Hmin. apply Hmin. by apply Hsym.
  - intros level u s Hs. destruct (HG (lkey u s)) as (found & -> & Hfound). cbn [snd]. intros -> w Hw.
    apply (stops_invisible t u s w Ht Hs Hw). destruct Hfound as [Hall|Hst]; [left|by right]. intros kv Hkv. specialize (Hall kv Hkv). by rewrite HC in Hall.
Qed.

End Internal.

(** ** Properties *)

(** What the builder is given. *)
Record build_ok (o : TableOptions) (kvs : list (bytes * bytes)) : Prop := {
  bo_compression : known_compression (t_compression o);
  bo_interval : 1 <= t_block_restart_interval o;
  bo_policy name policy : t_filter_policy o = Some (name, policy) →
    FilterPolicyLaws policy ∧ size name < 2 ^ 31 ∧ @Compare (t_comparator o) (filter_key name) kv_number_key < 0;
  bo_sorted : keys_sorted (C := t_comparator o) kvs;
  bo_weight : weight kvs < 2 ^ 31;
}.

(** Building a table: the calls succeed and the file has the layout. *)
Lemma table_built {P : Port} {PL : PortLaws P} {W : WritableFile} {WL : WritableFileLaws W} (o : TableOptions) (f : wfile) kvs
    {L : ComparatorLaws (t_comparator o)} {SH : ShorteningLaws (t_comparator o)} :
  build_ok o kvs → wvalid f → wcontents f = [] →
  ∃ r r' blocks idx, tb_Adds kvs (NewTableBuilder o f) = Some r ∧ tb_Finish r = Some (r', Status_OK) ∧ table_blocks o kvs blocks idx ∧
    wcontents (tb_file r') = table_file o blocks idx ∧ tb_FileSize r' = u64 (size (wcontents (tb_file r'))).
Proof.
  intros [Hc Hi Hp Hs Hw] Hv Hf. assert (∀ name policy, t_filter_policy o = Some (name, policy) → FilterPolicyLaws policy) as HP by (intros ?? E; by apply (Hp _ _ E)).
  destruct (tb_Adds_spec o Hc kvs (NewTableBuilder o f) [] [] []) as (r & blocks0 & cur & idx0 & E & Hb & Ec); [by apply NewTableBuilder_building|done..|].
  simpl in Ec. destruct (tb_Finish_spec o Hc HP r blocks0 cur idx0 Hb) as (r' & blocks & idx & E' & Ht & _ & Hfile & Hsz); [by rewrite Ec..|].
  rewrite Ec in Ht. exists r, r', blocks, idx. split_and!; try done. by rewrite Hfile.
Qed.

(** C9: a table round-trips: adding sorted entries to a table builder and finishing
    it succeeds; the file that was written, if it is smaller than 4 GiB, opens, and
    an iterator over the opened table is a cursor over exactly the added entries
    (seek to any target, first, last, next, previous), for every known compression type, block
    size, restart interval and filter policy. *)
Theorem table_roundtrip (P : Port) (PL : PortLaws P) (D : IoCost) (W : WritableFile) (WL : WritableFileLaws W) (o : TableOptions) (f : wfile)
    (kvs : list (bytes * bytes)) (L : ComparatorLaws (t_comparator o)) (SH : ShorteningLaws (t_comparator o)) (junk cache_id id B : Z) (options : ReadOptions) :
  build_ok o kvs → wvalid f → wcontents f = [] →
  ∃ r r', tb_Adds kvs (NewTableBuilder o f) = Some r ∧ tb_Finish r = Some (r', Status_OK) ∧
    (size (wcontents (tb_file r')) < 2 ^ 32 →
      ∃ t, Open junk cache_id o (StringSource (wcontents (tb_file r'))) (tb_FileSize r') id None = Some (Status_OK, Some t, None) ∧
        ∀ fuel, (length kvs <= fuel)%nat →
          ∃ it, TableNewIterator t = Some it ∧ @reads _ (Table_ops t options None fuel) B (t_comparator o) kvs it None).
Proof.
  intros Hok Hv Hf. destruct (table_built o f kvs Hok Hv Hf) as (r & r' & blocks & idx & E & E' & HT & Hfile & Hsz).
  exists r, r'. split_and!; try done. rewrite Hsz, Hfile. intros HF. destruct Hok as [Hc Hi Hp Hs Hw].
  pose proof (size_nonneg (table_file o blocks idx)). rewrite u64_small by range_lia.
  destruct (Open_spec o Hc Hi (λ _ _ E, proj1 (Hp _ _ E)) kvs blocks idx HT Hw HF (λ _ _ E, proj2 (Hp _ _ E)) junk cache_id id) as (t & -> & Ht).
  exists t. split; [done|]. intros fuel Hfuel. apply (TableNewIterator_reads o Hc Hi kvs blocks idx HT Hs Hw HF B t options fuel Ht).
  destruct HT as (<- & Hne & _ & ->). etransitivity; [|exact Hfuel]. clear -Hne. induction Hne as [|b bs Hb _ IH]; simpl; [done|].
  rewrite length_app. destruct b; simpl; [done|lia].
Qed.

(** The options of the examples. *)
Definition example_options (C : Comparator) (policy : FilterPolicy) : TableOptions :=
  MkTableOptions C true 40 2 kSnappyCompression 1 (Some (bs "leveldb.BuiltinBloomFilter2", policy)).

Definition example_kvs : list (bytes * bytes) := (λ n, (bs "key" ++ [z2b n], bs "value" ++ [z2b n])) <$> [1; 2; 3; 4; 5; 6; 7].

(** The number of bytes of the table that is built from [kvs]. *)
Definition built_size (o : TableOptions) (kvs : list (bytes * bytes)) : option Z :=
  r ← tb_Adds (P := PortNone) kvs (NewTableBuilder o FileState.NewFileState);
  r' ← tb_Finish (P := PortNone) r;
  Some (size (FileState.contents (tb_file r'.1))).

Lemma built_size_lt o kvs n r r' : built_size o kvs = Some n → n < 2 ^ 32 → tb_Adds (P := PortNone) kvs (NewTableBuilder o FileState.NewFileState) = Some r →
  tb_Finish (P := PortNone) r = Some (r', Status_OK) → size (wcontents (tb_file r')) < 2 ^ 32.
Proof. unfold built_size. intros E Hn Er Er'. rewrite Er in E. cbn [mbind option_bind] in E. rewrite Er' in E. cbn in E. injection E as <-. done. Qed.

Lemma table_roundtrip_witness :
  let o := example_options BytewiseComparator example_policy in
  ∃ r r' t it, tb_Adds (P := PortNone) example_kvs (NewTableBuilder o FileState.NewFileState) = Some r ∧ tb_Finish (P := PortNone) r = Some (r', Status_OK) ∧
    Open (P := PortNone) 0 0 o (StringSource (wcontents (tb_file r'))) (tb_FileSize r') 7 None = Some (Status_OK, Some t, None) ∧
    TableNewIterator t = Some it ∧ @reads _ (Table_ops (P := PortNone) t (MkReadOptions true true) None 7) 100 BytewiseComparator example_kvs it None.
Proof.
  destruct (table_roundtrip PortNone _ example_cost WritableFileImpl WritableFileImpl_laws (example_options BytewiseComparator example_policy) FileState.NewFileState example_kvs _ _ 0 0 7 100 (MkReadOptions true true))
    as (r & r' & E & E' & H).
  - split; [by right; left|done| |by apply sortedb_sorted; vm_compute|done]. intros name policy [= <- <-].
    split; [apply Bloom.NewBloomFilterPolicy_laws; lia|]. split; by vm_compute.
  - apply NewFileState_ok.
  - done.
  - assert (built_size (example_options BytewiseComparator example_policy) example_kvs = Some 415) as Es by (vm_compute; reflexivity).
    destruct (H (built_size_lt _ _ 415 _ _ Es eq_refl E E')) as (t & E1 & Ht).
    destruct (Ht 7%nat) as (it & E2 & Hit); [vm_compute; lia|]. exists r, r', t, it. exact (conj E (conj E' (conj E1 (conj E2 Hit)))).
Defined.

(** C8: lookups in a table serve the reads of a version: for a table built from the
    writes [ws] (sorted internal keys; the filter, if any, on user keys) and opened
    again, [InternalGet] never fails; it hands over the first entry that is not below
    the lookup key, and nothing only when [ws] has no entry of the user key that is
    visible in the snapshot, whichever blocks the index and the filter pass over. *)
Theorem table_lookup_serves_version (P : Port) (PL : PortLaws P) (D : IoCost) (W : WritableFile) (WL : WritableFileLaws W) (U : Comparator)
    (L : ComparatorLaws U) (o : TableOptions) (f : wfile) (ws : list Write) (junk cache_id id : Z) (options : ReadOptions) (meta : FileMetaData) :
  t_comparator o = InternalKeyComparator U → build_ok o (entry <$> ws) → Forall write_ok ws →
  (∀ name policy, t_filter_policy o = Some (name, policy) →
    (∃ user, policy = InternalFilterPolicy user ∧ FilterPolicyLaws user) ∧ ∀ a b, @Compare U a b = 0 → a = b) →
  wvalid f → wcontents f = [] →
  ∃ r r', tb_Adds (entry <$> ws) (NewTableBuilder o f) = Some r ∧ tb_Finish r = Some (r', Status_OK) ∧
    (size (wcontents (tb_file r')) < 2 ^ 32 →
      ∃ t, Open junk cache_id o (StringSource (wcontents (tb_file r'))) (tb_FileSize r') id None = Some (Status_OK, Some t, None) ∧
        TableReads U (λ _ _, table_get t options) (λ _, ws) meta).
Proof.
  intros HC Hok Hws HP Hv Hf. assert (ComparatorLaws (t_comparator o)) as TL by (rewrite HC; apply _).
  assert (ShorteningLaws (t_comparator o)) as TS by (rewrite HC; apply _).
  destruct (table_built o f (entry <$> ws) Hok Hv Hf) as (r & r' & blocks & idx & E & E' & HT & Hfile & Hsz).
  exists r, r'. split_and!; try done. rewrite Hsz, Hfile. intros HF. destruct Hok as [Hc Hi Hp Hs Hw].
  pose proof (size_nonneg (table_file o blocks idx)). rewrite u64_small by range_lia.
  destruct (Open_spec o Hc Hi (λ _ _ E, proj1 (Hp _ _ E)) _ blocks idx HT Hw HF (λ _ _ E, proj2 (Hp _ _ E)) junk cache_id id) as (t & -> & Ht).
  exists t. split; [done|]. rewrite HC in Hs. by apply (table_reads o Hc U HC Hi HP ws Hws blocks idx).
Qed.

Definition example_writes : list Write :=
  [MkWrite 9 kTypeValue [x61] [x01]; MkWrite 4 kTypeDeletion [x61] []; MkWrite 3 kTypeValue [x61] [x02]; MkWrite 7 kTypeValue [x62] [x03; x04]].

Definition internal_options : TableOptions := example_options (InternalKeyComparator BytewiseComparator) (InternalFilterPolicy example_policy).

Lemma table_lookup_serves_version_witness :
  ∃ r r', tb_Adds (P := PortNone) (entry <$> example_writes) (NewTableBuilder internal_options FileState.NewFileState) = Some r ∧
    tb_Finish (P := PortNone) r = Some (r', Status_OK) ∧
    ∃ t, Open (P := PortNone) 0 0 internal_options (StringSource (wcontents (tb_file r'))) (tb_FileSize r') 7 None = Some (Status_OK, Some t, None) ∧
      TableReads BytewiseComparator (λ _ _, table_get (P := PortNone) (D := example_cost) t (MkReadOptions true true)) (λ _, example_writes) (MkFile 1 0 0 0 [] 7 400 (ikey [x61] 9 kTypeValue) (ikey [x62] 7 kTypeValue)).
Proof.
  destruct (table_lookup_serves_version PortNone _ example_cost WritableFileImpl WritableFileImpl_laws BytewiseComparator _ internal_options FileState.NewFileState
    example_writes 0 0 7 (MkReadOptions true true) (MkFile 1 0 0 0 [] 7 400 (ikey [x61] 9 kTypeValue) (ikey [x62] 7 kTypeValue))) as (r & r' & E & E' & H).
  - done.
  - split; [by right; left|done| |by apply sortedb_sorted; vm_compute|done]. intros name policy [= <- <-].
    split; [apply InternalFilterPolicy_laws, Bloom.NewBloomFilterPolicy_laws; lia|]. split; by vm_compute.
  - by repeat (constructor; [by vm_compute|]).
  - intros name policy [= <- <-]. split; [exists example_policy; split; [done|apply Bloom.NewBloomFilterPolicy_laws; lia]|].
    intros a b. apply Bytewise_Compare_eq.
  - apply NewFileState_ok.
  - done.
  - assert (∃ n, built_size internal_options (entry <$> example_writes) = Some n ∧ n < 2 ^ 32) as (n & Es & Hn) by (eexists; split; [vm_compute; reflexivity|lia]).
    exists r, r'. exact (conj E (conj E' (H (built_size_lt _ _ n _ _ Es Hn E E')))).
Defined.
