(* ===== verification/TableCache.v ===== *)
(** * The cache of open tables (src/db/table_cache.cc, src/util/table_cache_lru.cc)

    [TableCacheLRU] is the cache of [ShardedCache] over open tables, together with the
    containers of adjustment candidates, which see every insertion, lookup and
    explicit removal.  The values of the cache are addresses of [TableObject]s; the
    objects whose last reference went are taken out of [tc_tables].  Opening a file
    and a table are arguments. *)

From stdpp Require Import gmap list.
From Stdlib Require Import String.
From S2P Require Import Prelude Coding Status Env Filename Crc32c Format DbFormat Bloom FilterBlock MultiQueue Links LruCache LruTable LruSpec LruRefines ShardedCache CachePins MultiContainer Block Iterators Table.
Import Coding.

(** ** Tables as the containers see them *)

Section Tables.
  Context {P : Port} {D : IoCost} (bits_per_key : Z).

#[global] Instance Table_FilterTable : FilterTable Table := {
  ft_units := Table.BFNumer;
  ft_charge := Table.BFChange;
  ft_unit_size := Table.UnitSize;
  ft_cold := Table.ISCold;
  ft_id := tr_table_id;
  ft_bits_per_key t := match tr_reader t with Some _ => bits_per_key | None => 0 end;
  ft_load t := snd <$> Table.LoadBloomFilter t;
  ft_evict t := snd <$> Table.EvictBloomFilter t;
}.

(** A table that owns a filter reader whose background loading is done. *)
Definition filter_ready (t : Table) : Prop :=
  ∃ r, tr_reader t = Some r ∧ Reader.init_done r = true ∧ 0 <= Reader.disk_size_ r < 2 ^ 32 ∧ size (Reader.filter_units r) <= 6 ∧ Reader.all_units_number_ r <= 6.

Lemma load_ready t : filter_ready t → ∃ t', snd <$> Table.LoadBloomFilter t = Some t' ∧ filter_ready t'.
Proof.
  intros (r & Er & Hi & Hd & Hs & Ha). unfold Table.LoadBloomFilter. rewrite Er. unfold Reader.CanBeLoaded, Reader.FilterUnitsNumberInternal. rewrite Hi. cbn [mbind option_bind]. destruct (Z.ltb_spec (size (Reader.filter_units r)) (Reader.all_units_number_ r)); cbn.
  - eexists. split; [done|]. eexists. split; [done|]. unfold Reader.LoadFilter, Reader.LoadFilterInternal. rewrite Z.geb_leb, (proj2 (Z.leb_gt _ _)) by done. destruct (ReadBlock _ _ _); cbn; [|split_and!; try done; lia].
    split_and!; try done; try lia. rewrite size_app, size_cons, size_nil. lia.
  - eexists. split; [done|]. exists r. split_and!; try done; lia.
Qed.

Lemma evict_ready t : filter_ready t → ∃ t', snd <$> Table.EvictBloomFilter t = Some t' ∧ filter_ready t'.
Proof.
  intros (r & Er & Hi & Hd & Hs & Ha). unfold Table.EvictBloomFilter. rewrite Er. cbn [mbind option_bind]. unfold Reader.CanBeEvict, Reader.FilterUnitsNumberInternal. rewrite Hi. cbn [mbind option_bind]. destruct (size (Reader.filter_units r) >? 0); cbn.
  - eexists. split; [done|]. eexists. split; [done|]. unfold Reader.EvictFilter, Reader.EvictFilterInternal. destruct (Reader.filter_units r) as [|u us] eqn:Eu; cbn [snd]; [rewrite Eu; split_and!; try done; lia|].
    cbn [Reader.set_units Reader.init_done Reader.disk_size_ Reader.filter_units Reader.all_units_number_]. split_and!; try done; try lia. rewrite <-Eu in *. etrans; [|exact Hs]. unfold size. apply inj_le. clear. induction (Reader.filter_units r) as [|x [|y l] IH]; cbn in *; lia.
  - eexists. split; [done|]. exists r. split_and!; try done; lia.
Qed.

#[global] Instance Table_FilterTableLaws : FilterTableLaws Table.
Proof.
  refine {| ft_ready := filter_ready |}.
  - intros t (r & Er & Hi & Hd & _). cbn. unfold Table.UnitSize. by rewrite Er.
  - intros t (r & Er & Hi & _ & Hs & _). cbn. unfold Table.BFNumer. rewrite Er. unfold Reader.FilterUnitsNumber, Reader.FilterUnitsNumberInternal. rewrite Hi. eexists. split; [done|]. pose proof (size_nonneg (Reader.filter_units r)). lia.
  - intros t (r & Er & Hi & _). cbn. unfold Table.BFChange. rewrite Er. unfold Reader.FilterUnitsNumber, Reader.FilterUnitsNumberInternal. rewrite Hi. by eexists.
  - apply load_ready.
  - apply evict_ready.
Defined.

End Tables.

(** ** The cache of open tables *)

Record TableCache (T : Type) := MkTableCache {
  tc_cache : ShardedLRUCache nat;
  tc_containers : MultiContainer;
  tc_tables : gmap nat T;
  tc_next : nat;
}.
Arguments MkTableCache {_} _ _ _ _.
Arguments tc_cache {_} _.
Arguments tc_containers {_} _.
Arguments tc_tables {_} _.
Arguments tc_next {_} _.

(** What was deleted between two states of the shards. *)
Definition destroyed (c c' : ShardedLRUCache nat) : list nat :=
  concat (zip_with (λ s s', snd <$> drop (length (deleted s)) (deleted s')) (shard_ c) (shard_ c')).

Section TableCache.
  Context {T : Type} {FT : FilterTable T}.

(** The destructor of a [TableObject] frees its table. *)
Definition with_cache (tc : TableCache T) (c : ShardedLRUCache nat) : TableCache T :=
  MkTableCache c (tc_containers tc) (foldr delete (tc_tables tc) (destroyed (tc_cache tc) c)) (tc_next tc).

Definition with_containers (tc : TableCache T) (s : MultiContainer) : TableCache T :=
  MkTableCache (tc_cache tc) s (tc_tables tc) (tc_next tc).

(** [new TableObject]. *)
Definition new_object (t : T) (tc : TableCache T) : nat * TableCache T :=
  (tc_next tc, MkTableCache (tc_cache tc) (tc_containers tc) (<[tc_next tc := t]> (tc_tables tc)) (S (tc_next tc))).

(** *** The methods of [TableCacheLRU] *)

Definition NewTableCacheLRU (capacity : Z) : option (TableCache T) :=
  c ← NewShardedLRUCache capacity; Some (MkTableCache c NewMultiContainer ∅ 0).

Definition tl_Insert (key : bytes) (object : nat) (level charge : Z) (tc : TableCache T) : option (CacheHandle * TableCache T) :=
  '(_, s) ← mc_Insert key level object (tc_tables tc) (tc_containers tc);
  let tc := with_containers tc s in
  t ← tc_tables tc !! object; _ ← ft_units t;
  '(h, c) ← CacheInsert key object charge (tc_cache tc); Some (h, with_cache tc c).

Definition tl_Lookup (key : bytes) (tc : TableCache T) : option (option CacheHandle * TableCache T) :=
  '(_, s) ← mc_Lookup key (tc_containers tc);
  '(o, c) ← CacheLookup key (tc_cache tc); Some (o, with_cache (with_containers tc s) c).

Definition tl_Release (handle : CacheHandle) (tc : TableCache T) : option (TableCache T) :=
  c ← CacheRelease handle (tc_cache tc); Some (with_cache tc c).

Definition tl_Erase (key : bytes) (tc : TableCache T) : option (TableCache T) :=
  s ← mc_Erase key (tc_containers tc);
  c ← CacheErase key (tc_cache tc); Some (with_cache (with_containers tc s) c).

(** The table that [Value] leads to; [None] when it was freed. *)
Definition tl_table (handle : CacheHandle) (tc : TableCache T) : option T :=
  object ← CacheValue handle (tc_cache tc); tc_tables tc !! object.

Definition tl_Prune (tc : TableCache T) : option (TableCache T) := c ← CachePrune (tc_cache tc); Some (with_cache tc c).

Definition tl_NewId (tc : TableCache T) : Z * TableCache T :=
  let '(id, c) := NewId (tc_cache tc) in (id, MkTableCache c (tc_containers tc) (tc_tables tc) (tc_next tc)).

Definition tl_TotalCharge (tc : TableCache T) : Z := CacheTotalCharge (tc_cache tc).

(** The destructor: the tables that are left in memory. *)
Definition tl_Destroy (tc : TableCache T) : option (gmap nat T) :=
  log ← DestroyCache (tc_cache tc); Some (foldr delete (tc_tables tc) (snd <$> log)).

Definition tl_adjusted (tc : TableCache T) (r : gmap nat T * MultiContainer) : TableCache T :=
  MkTableCache (tc_cache tc) r.2 r.1 (tc_next tc).

Definition AllBFCharger (tc : TableCache T) : Z := mc_TotalCharge (tc_containers tc).

(** *** The methods of [TableCache] *)

Section Files.
  Context (dbname : bytes) (using_direct_io : bool).
  (* NewRandomAccessFile, NewDirectIORandomAccessFile and Table::Open *)
  Context (NewRandomAccessFile NewDirectIORandomAccessFile : bytes → result RandomAccessFile) (table_Open : RandomAccessFile → Z → Z → result T).

Definition NewRandomAccessFileForTable (fname : bytes) : result RandomAccessFile :=
  if using_direct_io then NewDirectIORandomAccessFile fname else NewRandomAccessFile fname.

(** Opening in [FindTable]: the name of tables of old releases is tried second, and
    the status of the first attempt counts when both fail. *)
Definition open_table (file_number file_size : Z) : result T :=
  let opened :=
    match NewRandomAccessFileForTable (TableFileName dbname file_number) with
    | Ok file => Ok file
    | Fail s => match NewRandomAccessFileForTable (SSTTableFileName dbname file_number) with Ok file => Ok file | Fail _ => Fail s end
    end in
  file ← opened; table_Open file file_size file_number.

Definition FindTable (file_number file_size level : Z) (tc : TableCache T) : option (result CacheHandle * TableCache T) :=
  let key := EncodeFixed64 file_number in
  '(handle, tc) ← tl_Lookup key tc;
  match handle with
  | Some h => Some (Ok h, tc)
  | None =>
      match open_table file_number file_size with
      | Fail s => Some (Fail s, tc)
      | Ok t =>
          let '(object, tc) := new_object t tc in
          '(h, tc) ← tl_Insert key object level 1 tc; Some (Ok h, tc)
      end
  end.

(** [InternalGet] is what is done with the table. *)
Definition tc_Get {A} (file_number file_size level : Z) (InternalGet : T → A) (tc : TableCache T) : option (result A * TableCache T) :=
  '(r, tc) ← FindTable file_number file_size level tc;
  match r with
  | Fail s => Some (Fail s, tc)
  | Ok h => t ← tl_table h tc; let a := InternalGet t in tc ← tl_Release h tc; Some (Ok a, tc)
  end.

(** The iterator that is made from the table, with the handle that its cleanup
    releases, or the status of the error iterator. *)
Definition tc_NewIterator {A} (file_number file_size level : Z) (TableNewIterator : T → A) (tc : TableCache T) : option (result (A * CacheHandle) * TableCache T) :=
  '(r, tc) ← FindTable file_number file_size level tc;
  match r with
  | Fail s => Some (Fail s, tc)
  | Ok h => t ← tl_table h tc; Some (Ok (TableNewIterator t, h), tc)
  end.

Definition UnrefEntry (handle : CacheHandle) (tc : TableCache T) : option (TableCache T) := tl_Release handle tc.

Definition tc_Evict (file_number : Z) (tc : TableCache T) : option (TableCache T) := tl_Erase (EncodeFixed64 file_number) tc.

Definition tc_LoadBloomFilter (current_time : Z) (is_worth : Z → Z → Z → bool) (memory : Z) (tc : TableCache T) : option (TableCache T) :=
  tl_adjusted tc <$> mc_LoadBloomFilter current_time is_worth memory (tc_tables tc) (tc_containers tc).

Definition tc_EvictBloomFilter (current_time memory : Z) (tc : TableCache T) : option (TableCache T) :=
  tl_adjusted tc <$> mc_EvictBloomFilter current_time memory (tc_tables tc) (tc_containers tc).

End Files.
End TableCache.

(** ** Clients *)

Inductive TableOp (T A : Type) :=
  | TGet (file_number file_size level : Z) (get : T → A)
  | TNewIterator (file_number file_size level : Z)
  | TRead (i : nat) (read : T → A)   (* through the open iterator [i] *)
  | TClose (i : nat)
  | TEvict (file_number : Z).
Arguments TGet {_ _} _ _ _ _.
Arguments TNewIterator {_ _} _ _ _.
Arguments TRead {_ _} _ _.
Arguments TClose {_ _} _.
Arguments TEvict {_ _} _.

Inductive TableResult (A : Type) := TGot (r : result A) | TOpened (s : Status) | TNothing.
Arguments TGot {_} _.
Arguments TOpened {_} _.
Arguments TNothing {_}.

Section Clients.
  Context {T A : Type} {FT : FilterTable T}.
  Context (dbname : bytes) (using_direct_io : bool) (NewRandomAccessFile NewDirectIORandomAccessFile : bytes → result RandomAccessFile) (table_Open : RandomAccessFile → Z → Z → result T).
  Abbreviation open := (open_table dbname using_direct_io NewRandomAccessFile NewDirectIORandomAccessFile table_Open).
  Abbreviation Get := (tc_Get dbname using_direct_io NewRandomAccessFile NewDirectIORandomAccessFile table_Open).
  Abbreviation NewIterator := (tc_NewIterator dbname using_direct_io NewRandomAccessFile NewDirectIORandomAccessFile table_Open).
  Abbreviation Find := (FindTable dbname using_direct_io NewRandomAccessFile NewDirectIORandomAccessFile table_Open).

(** The handles of the open iterators are kept in the order in which they were made. *)
Definition table_op (op : TableOp T A) (its : list CacheHandle) (tc : TableCache T) : option (TableResult A * list CacheHandle * TableCache T) :=
  match op with
  | TGet n sz level get => '(r, tc) ← Get n sz level get tc; Some (TGot r, its, tc)
  | TNewIterator n sz level =>
      '(r, tc) ← NewIterator n sz level (λ t, t) tc;
      Some (match r with Ok (_, h) => (TOpened Status_OK, its ++ [h], tc) | Fail s => (TOpened s, its, tc) end)
  | TRead i read => match its !! i with Some h => t ← tl_table h tc; Some (TGot (Ok (read t)), its, tc) | None => Some (TNothing, its, tc) end
  | TClose i => match its !! i with Some h => tc ← UnrefEntry h tc; Some (TNothing, delete i its, tc) | None => Some (TNothing, its, tc) end
  | TEvict n => tc ← tc_Evict n tc; Some (TNothing, its, tc)
  end.

Fixpoint table_run (ops : list (TableOp T A)) (its : list CacheHandle) (tc : TableCache T) : option (list (TableResult A) * list CacheHandle * TableCache T) :=
  match ops with
  | [] => Some ([], its, tc)
  | op :: ops => '(r, its, tc) ← table_op op its tc; '(rs, its, tc) ← table_run ops its tc; Some (r :: rs, its, tc)
  end.

(** The same without a cache: every call opens the file; an iterator is the file it reads. *)
Definition direct_op (op : TableOp T A) (its : list (Z * Z)) : TableResult A * list (Z * Z) :=
  match op with
  | TGet n sz _ get => (TGot (t ← open n sz; Ok (get t)), its)
  | TNewIterator n sz _ => match open n sz with Ok _ => (TOpened Status_OK, its ++ [(n, sz)]) | Fail s => (TOpened s, its) end
  | TRead i read => (match its !! i with Some (n, sz) => TGot (t ← open n sz; Ok (read t)) | None => TNothing end, its)
  | TClose i => (TNothing, delete i its)
  | TEvict _ => (TNothing, its)
  end.

Fixpoint direct_run (ops : list (TableOp T A)) (its : list (Z * Z)) : list (TableResult A) :=
  match ops with
  | [] => []
  | op :: ops => let '(r, its) := direct_op op its in r :: direct_run ops its
  end.

(** ** The cache is transparent *)

Section Transparent.
  Context {FL : FilterTableLaws T} (sizes : Z → Z).
  Context (Hready : ∀ n t, open n (sizes n) = Ok t → ft_ready t).

(** An object holds the table of the file that its key names. *)
Definition stored (tables : gmap nat T) (x : bytes * nat) : Prop :=
  ∃ number t, is_u64 number ∧ x.1 = EncodeFixed64 number ∧ tables !! x.2 = Some t ∧ open number (sizes number) = Ok t.

Record tc_ok (n : Z) (tc : TableCache T) (gh : list (CacheHandle * (bytes * nat))) (sc : ShardedSpec nat) : Prop := {
  to_cache : cache_represents n (tc_cache tc) sc;
  to_shards : length (ss_shards sc) = Z.to_nat kNumShards;
  to_containers : ∃ ls, mc_ok (tc_containers tc) ls;
  to_once : NoDup (snd <$> accounts sc);
  to_next : ∀ x, x ∈ accounts sc → (x.2 < tc_next tc)%nat;
  to_stored : ∀ x, x ∈ live sc → stored (tc_tables tc) x;
  to_held : held gh sc;
}.

Lemma New_tc_ok capacity : ∃ tc, NewTableCacheLRU capacity = Some tc ∧ tc_ok 0 tc [] (NewShardedSpec capacity).
Proof.
  destruct (New_cache_represents (V := nat) capacity) as (c & E & R). unfold NewTableCacheLRU. rewrite E. cbn [mbind option_bind]. eexists. split; [done|].
  assert (Ea : accounts (NewShardedSpec (V := nat) capacity) = []) by (unfold accounts; cbn [ss_shards NewShardedSpec]; rewrite fmap_replicate; apply concat_replicate_nil).
  split; [done|by apply length_replicate|by eexists; apply New_ok|by rewrite Ea; constructor|rewrite Ea; by intros x ?%not_elem_of_nil| |].
  - intros x Hx. assert (x ∈ accounts (NewShardedSpec (V := nat) capacity)) as Hin by (rewrite accounts_split; set_solver). rewrite Ea in Hin. by apply not_elem_of_nil in Hin.
  - split; [by intros x ?%not_elem_of_nil|]. by intros i sp [-> _]%lookup_replicate.
Qed.

Lemma destroyed_dead n c c' sc v : cache_represents n c' sc → v ∈ destroyed c c' → v ∈ snd <$> dead sc.
Proof.
  intros R (i & l & Hi & Hv)%bucket_elem. apply lookup_zip_with_Some in Hi as (s & s' & -> & _ & Hs'). apply list_elem_of_fmap in Hv as (x & -> & Hx). destruct (Forall2_lookup_l _ _ _ _ _ (cr_shards _ _ _ R) Hs') as (sp & Hi & Rs).
  apply list_elem_of_fmap_2, in_dead. exists i, sp. split; [done|]. rewrite <-(rp_deleted _ _ Rs). rewrite <-(take_drop (length (deleted s)) (deleted s')). set_solver.
Qed.

(** A call of the cache keeps the tables of the entries that stay. *)
Lemma tc_cache_op n tc gh gh' sc op r sc' s ls : tc_ok n tc gh sc → n + 2 < 2 ^ 31 → mc_ok s ls → spec_op op sc = Some (r, sc') → held gh' sc' →
  (∀ x, x ∈ inserted [op] → stored (tc_tables tc) x ∧ (x.2 < tc_next tc)%nat ∧ x.2 ∉ snd <$> accounts sc) →
  ∃ c', cache_op op (tc_cache tc) = Some (r, c') ∧ tc_ok (n + 1) (with_cache (with_containers tc s) c') gh' sc'.
Proof.
  intros [R Hl _ Hn Hx Hs _] Hb M Es Hh Hi. destruct (cache_op_refines n _ sc op r sc' R Hb Es) as (c' & E & R'). exists c'. split; [done|]. pose proof (accounts_op _ _ _ _ Es) as Ha.
  assert (Hn' : NoDup (snd <$> accounts sc')).
  { rewrite Ha, fmap_app. apply NoDup_app. split_and!; [destruct op; cbn; repeat constructor; by intros ?%not_elem_of_nil|intros v (x & -> & Hin)%list_elem_of_fmap; by apply Hi|done]. }
  split; [done|by rewrite (shards_op _ _ _ _ Es)|by eexists|done| | |done].
  - intros x. rewrite Ha. intros [Hin|Hin]%elem_of_app; [by apply Hi|by apply Hx].
  - intros x Hin. assert (stored (tc_tables tc) x) as (number & t & H1 & H2 & H3 & H4) by (destruct (live_op _ _ _ _ Es Hn' x Hin); [by apply Hi|by apply Hs]). exists number, t. split_and!; try done.
    cbn [with_cache tc_tables with_containers]. rewrite lookup_foldr_delete_not_elem_of; [done|]. intros Hd%(destroyed_dead _ _ _ _ _ R'). rewrite accounts_split, fmap_app in Hn'. apply NoDup_app in Hn' as (_ & Hn' & _). by apply (Hn' x.2), list_elem_of_fmap_2.
Qed.

Lemma tc_ok_le n m tc gh sc : n <= m → tc_ok n tc gh sc → tc_ok m tc gh sc.
Proof.
  intros Hle [[R1 R2 R3] H1 H2 H3 H4 H5 H6]. split; try done. split; [done|done|]. intros i sp Hi. destruct (R3 i sp Hi) as (W1 & (W2 & W3 & W4) & W5). assert (Hf : ∀ l : list (CacheEntry nat), Forall (fits n i) l → Forall (fits m i) l) by (intros l Hl; eapply Forall_impl; [exact Hl|]; intros e [? ?]; split; [lia|done]).
  split_and!; [lia|auto..|lia].
Qed.

Lemma tc_ok_perm n tc gh gh' sc : gh ≡ₚ gh' → tc_ok n tc gh sc → tc_ok n tc gh' sc.
Proof. intros Hp [H1 H2 H3 H4 H5 H6 H7]. split; try done. by eapply held_perm. Qed.

Lemma shard_in n tc gh sc k : tc_ok n tc gh sc → (Shard (HashSlice k) < length (ss_shards sc))%nat.
Proof. intros H. rewrite (to_shards _ _ _ _ H). apply shard_lt. Qed.

Lemma number_of_key n1 n2 : is_u64 n1 → is_u64 n2 → EncodeFixed64 n1 = EncodeFixed64 n2 → n1 = n2.
Proof. intros H1 H2 E. pose proof (DecodeFixed64_Encode n1 [] H1) as D1. pose proof (DecodeFixed64_Encode n2 [] H2) as D2. rewrite E in D1. congruence. Qed.

Lemma tl_table_ok n tc gh sc h number v : tc_ok n tc gh sc → (h, (EncodeFixed64 number, v)) ∈ gh → is_u64 number → ∃ t, tl_table h tc = Some t ∧ open number (sizes number) = Ok t.
Proof.
  intros H Hin Hu. destruct (held_pin _ _ _ _ (to_held _ _ _ _ H) Hin) as (sp & Hi & (e & He & Ee)%pinned). injection Ee as Ep Ek Ev. pose proof (cache_value_of _ _ _ _ _ _ (to_cache _ _ _ _ H) Hi He) as Hv.
  rewrite Ep in Hv. replace (h.1, h.2) with h in Hv by (by destruct h). unfold tl_table. rewrite Hv. cbn [mbind option_bind]. destruct (to_stored _ _ _ _ H (item e) (in_live _ _ _ _ Hi He)) as (number' & t & Hu' & Ek' & Et & Eo).
  cbn in Ek', Et. rewrite Ek in Ek'. apply number_of_key in Ek' as <-; try done. eauto.
Qed.

Lemma tl_Lookup_ok n tc gh sc k : tc_ok n tc gh sc → n + 2 < 2 ^ 31 →
  ∃ o tc' sc', tl_Lookup k tc = Some (o, tc') ∧ match o with Some h => ∃ v, tc_ok (n + 1) tc' ((h, (k, v)) :: gh) sc' | None => tc_ok (n + 1) tc' gh sc' end.
Proof.
  intros H Hn. destruct (to_containers _ _ _ _ H) as [ls M]. destruct (mc_Lookup_ok k _ _ M) as (s' & ls' & E & M' & _). unfold tl_Lookup. rewrite E. cbn [mbind option_bind].
  destruct (held_Lookup n _ sc (to_cache _ _ _ _ H) k gh (shard_in _ _ _ _ _ H) (to_held _ _ _ _ H)) as (o & sc' & Es & Ho).
  assert (Hc : ∀ gh', held gh' sc' → ∃ tc', ('(o, c) ← CacheLookup k (tc_cache tc); Some (o, with_cache (with_containers tc s') c)) = Some (o, tc') ∧ tc_ok (n + 1) tc' gh' sc').
  { intros gh' Hh. destruct (tc_cache_op n tc gh gh' sc (OpLookup k) _ sc' s' ls' H Hn M' Es Hh ltac:(cbn; by intros x ?%not_elem_of_nil)) as (c' & Ec & H'). cbn [cache_op] in Ec.
    destruct (CacheLookup k (tc_cache tc)) as [[o' c1]|]; cbn [mbind option_bind] in *; [|done]. injection Ec as -> ->. by eexists. }
  destruct o as [h|]; [destruct Ho as [v Ho]|]; destruct (Hc _ Ho) as (tc' & Et & H'); eexists _, tc', sc'; (split; [exact Et|]); [by exists v|done].
Qed.

Lemma tl_Release_ok n tc gh sc h x : tc_ok n tc ((h, x) :: gh) sc → n + 2 < 2 ^ 31 → ∃ tc' sc', tl_Release h tc = Some tc' ∧ tc_ok (n + 1) tc' gh sc'.
Proof.
  intros H Hn. destruct (to_containers _ _ _ _ H) as [ls M]. destruct (held_Release n _ sc (to_cache _ _ _ _ H) h x gh (to_held _ _ _ _ H)) as (sc' & Es & Hh).
  destruct (tc_cache_op n tc _ gh sc (OpRelease h) _ sc' _ ls H Hn M Es Hh ltac:(cbn; by intros y ?%not_elem_of_nil)) as (c' & Ec & H'). cbn [cache_op] in Ec. unfold tl_Release. destruct (CacheRelease h (tc_cache tc)) as [c1|]; cbn [mbind option_bind] in Ec; [|done]. injection Ec as ->.
  eexists _, sc'. split; [done|]. by destruct tc.
Qed.

Lemma tl_Erase_ok n tc gh sc k : tc_ok n tc gh sc → n + 2 < 2 ^ 31 → ∃ tc' sc', tl_Erase k tc = Some tc' ∧ tc_ok (n + 1) tc' gh sc'.
Proof.
  intros H Hn. destruct (to_containers _ _ _ _ H) as [ls M]. destruct (mc_Erase_ok k _ _ M) as (s' & ls' & E & M' & _). destruct (held_Erase sc k gh (shard_in _ _ _ _ _ H) (to_held _ _ _ _ H)) as (sc' & Es & Hh).
  destruct (tc_cache_op n tc gh gh sc (OpErase k) _ sc' s' ls' H Hn M' Es Hh ltac:(cbn; by intros x ?%not_elem_of_nil)) as (c' & Ec & H'). cbn [cache_op] in Ec. unfold tl_Erase. rewrite E. cbn [mbind option_bind].
  destruct (CacheErase k (tc_cache tc)) as [c1|]; cbn [mbind option_bind] in *; [|done]. injection Ec as ->. by eexists _, sc'.
Qed.

(** [new TableObject] and [Insert]. *)
Lemma tl_Insert_ok n tc gh sc number t level : tc_ok n tc gh sc → n + 2 < 2 ^ 31 → is_u64 number → open number (sizes number) = Ok t → 0 <= level < 7 →
  ∃ h tc' sc', tl_Insert (EncodeFixed64 number) (tc_next tc) level 1 (new_object t tc).2 = Some (h, tc') ∧ tc_ok (n + 1) tc' ((h, (EncodeFixed64 number, tc_next tc)) :: gh) sc'.
Proof.
  intros H Hn Hu Eo Hl. set (k := EncodeFixed64 number). set (tc1 := (new_object t tc).2). set (v := tc_next tc). assert (Hv : tc_tables tc1 !! v = Some t) by apply lookup_insert_eq.
  assert (Hfresh : v ∉ snd <$> accounts sc) by (intros (x & Ex & Hx)%list_elem_of_fmap; pose proof (to_next _ _ _ _ H x Hx); unfold v in Ex; lia).
  assert (H1 : tc_ok n tc1 gh sc).
  { destruct H as [R Hs M Hnd Hx Hst Hh]. split; try done.
    - intros x Hin. specialize (Hx x Hin). cbn. lia.
    - intros x Hin. destruct (Hst x Hin) as (number' & t' & ? & ? & ? & ?). exists number', t'. split_and!; try done. cbn. rewrite lookup_insert_ne; [done|]. intros Ev. apply Hfresh. unfold v. rewrite Ev. apply list_elem_of_fmap_2. rewrite accounts_split. set_solver. }
  destruct (to_containers _ _ _ _ H1) as [ls M]. destruct (mc_Insert_ok k level v (tc_tables tc1) _ ls M Hl ltac:(exists t; split; [done|by eapply Hready])) as (s' & ls' & E & M' & _).
  unfold tl_Insert. rewrite E. cbn [mbind option_bind with_containers tc_tables]. rewrite Hv. cbn [mbind option_bind]. destruct (ft_units_range t ltac:(by eapply Hready)) as (u & -> & _). cbn [mbind option_bind tc_cache].
  destruct (held_Insert sc k v 1 gh (shard_in _ _ _ _ _ H) (to_held _ _ _ _ H)) as (h & sc' & Es & Hh).
  destruct (tc_cache_op n tc1 gh _ sc (OpInsert k v 1) _ sc' s' ls' H1 Hn M' Es Hh) as (c' & Ec & H').
  { cbn. intros x ->%list_elem_of_singleton. split_and!; [exists number, t; by split_and!|cbn; lia|done]. }
  cbn [cache_op] in Ec. change (tc_cache (with_containers tc1 s')) with (tc_cache tc1). destruct (CacheInsert k v 1 (tc_cache tc1)) as [[h' c1]|]; cbn [mbind option_bind] in Ec; [|done]. injection Ec as -> ->. cbn [mbind option_bind]. eexists h, _, sc'. split; [reflexivity|]. exact H'.
Qed.

Lemma FindTable_ok n tc gh sc number level : tc_ok n tc gh sc → n + 3 < 2 ^ 31 → is_u64 number → 0 <= level < 7 →
  ∃ r tc' sc', Find number (sizes number) level tc = Some (r, tc') ∧
    match r with
    | Ok h => (∃ t, open number (sizes number) = Ok t) ∧ ∃ v, tc_ok (n + 2) tc' ((h, (EncodeFixed64 number, v)) :: gh) sc'
    | Fail s => open number (sizes number) = Fail s ∧ tc_ok (n + 2) tc' gh sc'
    end.
Proof.
  intros H Hn Hu Hl. replace (n + 2) with (n + 1 + 1) by lia. destruct (tl_Lookup_ok n tc gh sc (EncodeFixed64 number) H ltac:(lia)) as (o & tc1 & sc1 & E & Ho). unfold FindTable. rewrite E. cbn [mbind option_bind]. destruct o as [h|].
  - destruct Ho as [v Ho]. exists (Ok h), tc1, sc1. split; [done|]. split; [|exists v; eapply tc_ok_le; [|exact Ho]; lia]. destruct (tl_table_ok _ _ _ _ h number v Ho ltac:(by left) Hu) as (t & _ & ?). by exists t.
  - destruct (open number (sizes number)) as [t|s] eqn:Eo.
    + destruct (tl_Insert_ok (n + 1) tc1 gh sc1 number t level Ho ltac:(lia) Hu Eo Hl) as (h & tc' & sc' & E' & H'). unfold new_object in *. cbn [snd] in E'. rewrite E'. cbn [mbind option_bind]. exists (Ok h), tc', sc'. split; [done|]. split; [by exists t|by eexists].
    + exists (Fail s), tc1, sc1. split; [done|]. split; [done|]. eapply tc_ok_le; [|exact Ho]. lia.
Qed.

(** ** Sequences of calls *)

Definition named (g : CacheHandle * (bytes * nat)) (file : Z * Z) : Prop := g.2.1 = EncodeFixed64 file.1 ∧ is_u64 file.1 ∧ file.2 = sizes file.1.

Lemma tc_Get_ok n tc gh sc number level (get : T → A) : tc_ok n tc gh sc → n + 4 < 2 ^ 31 → is_u64 number → 0 <= level < 7 →
  ∃ tc' sc', Get number (sizes number) level get tc = Some (t ← open number (sizes number); Ok (get t), tc') ∧ tc_ok (n + 3) tc' gh sc'.
Proof.
  intros H Hn Hu Hl. destruct (FindTable_ok n tc gh sc number level H ltac:(lia) Hu Hl) as (r & tc1 & sc1 & E & Hr). unfold tc_Get. rewrite E. cbn [mbind option_bind]. destruct r as [h|s].
  - destruct Hr as [_ [v H1]]. destruct (tl_table_ok _ _ _ _ h number v H1 ltac:(by left) Hu) as (t & -> & ->). destruct (tl_Release_ok _ _ _ _ _ _ H1 ltac:(lia)) as (tc' & sc' & Er & H'). cbn [mbind option_bind]. rewrite Er. cbn [mbind option_bind].
    exists tc', sc'. split; [done|]. eapply tc_ok_le; [|exact H']. lia.
  - destruct Hr as [-> H1]. exists tc1, sc1. split; [done|]. eapply tc_ok_le; [|exact H1]. lia.
Qed.

Lemma tc_NewIterator_ok n tc gh sc number level : tc_ok n tc gh sc → n + 4 < 2 ^ 31 → is_u64 number → 0 <= level < 7 →
  match open number (sizes number) with
  | Ok t => ∃ h v tc' sc', NewIterator number (sizes number) level (λ t, t) tc = Some (Ok (t, h), tc') ∧ tc_ok (n + 3) tc' ((h, (EncodeFixed64 number, v)) :: gh) sc'
  | Fail s => ∃ tc' sc', NewIterator number (sizes number) level (λ t, t) tc = Some (Fail s, tc') ∧ tc_ok (n + 3) tc' gh sc'
  end.
Proof.
  intros H Hn Hu Hl. destruct (FindTable_ok n tc gh sc number level H ltac:(lia) Hu Hl) as (r & tc1 & sc1 & E & Hr). unfold tc_NewIterator. rewrite E. cbn [mbind option_bind]. destruct r as [h|s].
  - destruct Hr as [_ [v H1]]. destruct (tl_table_ok _ _ _ _ h number v H1 ltac:(by left) Hu) as (t & -> & ->). cbn [mbind option_bind]. exists h, v, tc1, sc1. split; [done|]. eapply tc_ok_le; [|exact H1]. lia.
  - destruct Hr as [-> H1]. exists tc1, sc1. split; [done|]. eapply tc_ok_le; [|exact H1]. lia.
Qed.

(** Files have one size, and tables are in the levels of the database. *)
Definition legal_op (op : TableOp T A) : Prop :=
  match op with
  | TGet n sz level _ | TNewIterator n sz level => is_u64 n ∧ sz = sizes n ∧ 0 <= level < 7
  | _ => True
  end.

Lemma table_op_ok n tc gh sc files op : tc_ok n tc gh sc → Forall2 named gh files → n + 4 < 2 ^ 31 → legal_op op →
  ∃ gh' tc' sc', table_op op gh.*1 tc = Some ((direct_op op files).1, gh'.*1, tc') ∧ Forall2 named gh' (direct_op op files).2 ∧ tc_ok (n + 3) tc' gh' sc'.
Proof.
  intros H Hf Hn Hop. destruct op as [number sz level get|number sz level|i read|i|number]; cbn [table_op direct_op legal_op] in *.
  - destruct Hop as (Hu & -> & Hl). destruct (tc_Get_ok n tc gh sc number level get H Hn Hu Hl) as (tc' & sc' & -> & H'). by exists gh, tc', sc'.
  - destruct Hop as (Hu & -> & Hl). pose proof (tc_NewIterator_ok n tc gh sc number level H Hn Hu Hl) as Hi. destruct (open number (sizes number)) as [t|s].
    + destruct Hi as (h & v & tc' & sc' & -> & H'). exists (gh ++ [(h, (EncodeFixed64 number, v))]), tc', sc'. cbn. split_and!; [by rewrite fmap_app|apply Forall2_app; [done|constructor; [by split_and!|constructor]]|]. eapply tc_ok_perm; [|exact H']. by rewrite <-Permutation_cons_append.
    + destruct Hi as (tc' & sc' & -> & H'). by exists gh, tc', sc'.
  - exists gh, tc, sc. rewrite list_lookup_fmap. split_and!; [|done|eapply tc_ok_le; [|exact H]; lia]. destruct (gh !! i) as [[h [k v]]|] eqn:Eg; cbn [fmap option_fmap option_map fst].
    + destruct (Forall2_lookup_l _ _ _ _ _ Hf Eg) as ([number sz] & -> & (Ek & Hu & Es)). cbn in Ek, Hu, Es. subst k sz. destruct (tl_table_ok _ _ _ _ h number v H ltac:(by eapply list_elem_of_lookup_2) Hu) as (t & -> & ->). done.
    + apply lookup_ge_None in Eg. rewrite (Forall2_length _ _ _ Hf) in Eg. by rewrite (proj2 (lookup_ge_None _ _) Eg).
  - rewrite list_lookup_fmap. destruct (gh !! i) as [[h x]|] eqn:Eg; cbn [fmap option_fmap option_map fst].
    + assert (Hp : gh ≡ₚ (h, x) :: delete i gh) by by apply delete_Permutation. destruct (tl_Release_ok n tc (delete i gh) sc h x (tc_ok_perm _ _ _ _ _ Hp H) ltac:(lia)) as (tc' & sc' & E & H'). unfold UnrefEntry. rewrite E. cbn [mbind option_bind].
      exists (delete i gh), tc', sc'. split_and!; [by rewrite list_fmap_delete|by apply Forall2_delete|]. eapply tc_ok_le; [|exact H']. lia.
    + exists gh, tc, sc. split_and!; [done| |eapply tc_ok_le; [|exact H]; lia]. apply lookup_ge_None in Eg. rewrite (Forall2_length _ _ _ Hf) in Eg. by rewrite delete_take_drop, take_ge, drop_ge, app_nil_r by lia.
  - destruct (tl_Erase_ok n tc gh sc (EncodeFixed64 number) H ltac:(lia)) as (tc' & sc' & E & H'). unfold tc_Evict. rewrite E. cbn [mbind option_bind]. exists gh, tc', sc'. split_and!; [done|done|]. eapply tc_ok_le; [|exact H']. lia.
Qed.

Lemma table_run_ok ops : ∀ n tc gh sc files, tc_ok n tc gh sc → Forall2 named gh files → n + 3 * size ops + 1 < 2 ^ 31 → Forall legal_op ops →
  ∃ gh' tc' sc', table_run ops gh.*1 tc = Some (direct_run ops files, gh'.*1, tc') ∧ tc_ok (n + 3 * size ops) tc' gh' sc'.
Proof.
  induction ops as [|op ops IH]; intros n tc gh sc files H Hf Hn Hops; cbn [table_run direct_run]; [exists gh, tc, sc; split; [done|]; eapply tc_ok_le; [|exact H]; unfold size; cbn; lia|]. apply Forall_cons in Hops as [Hop Hops]. rewrite size_cons in *. pose proof (size_nonneg ops).
  destruct (table_op_ok n tc gh sc files op H Hf ltac:(lia) Hop) as (gh1 & tc1 & sc1 & -> & Hf1 & H1). destruct (direct_op op files) as [r files1]. cbn [fst snd mbind option_bind] in *.
  destruct (IH (n + 3) tc1 gh1 sc1 files1 H1 Hf1 ltac:(lia) Hops) as (gh2 & tc2 & sc2 & -> & H2). cbn [mbind option_bind]. exists gh2, tc2, sc2. split; [done|]. replace (n + 3 * (1 + size ops)) with (n + 3 + 3 * size ops) by lia. done.
Qed.

End Transparent.
End Clients.

(** C10: The cache of open tables is transparent: for every sequence of reads, iterators that are opened, read through and closed, and removals of files, all calls return, and their results are those of opening the file anew for each of them; entries that are evicted or removed while an iterator is open stay readable, no freed table or handle is touched, and errors of opening are reported and not cached. *)
Theorem table_cache_is_transparent (T A : Type) (FT : FilterTable T) (FL : FilterTableLaws T) (dbname : bytes) (using_direct_io : bool)
    (NewRandomAccessFile NewDirectIORandomAccessFile : bytes → result RandomAccessFile) (table_Open : RandomAccessFile → Z → Z → result T) (sizes : Z → Z) (entries : Z) (ops : list (TableOp T A)) :
  (∀ n t, open_table dbname using_direct_io NewRandomAccessFile NewDirectIORandomAccessFile table_Open n (sizes n) = Ok t → ft_ready t) →
  Forall (legal_op sizes) ops → 3 * size ops + 1 < 2 ^ 31 →
  ∃ tc0 its tc, NewTableCacheLRU entries = Some tc0 ∧
    table_run dbname using_direct_io NewRandomAccessFile NewDirectIORandomAccessFile table_Open ops [] tc0 =
      Some (direct_run dbname using_direct_io NewRandomAccessFile NewDirectIORandomAccessFile table_Open ops [], its, tc).
Proof.
  intros Hr Hops Hn. destruct (New_tc_ok dbname using_direct_io NewRandomAccessFile NewDirectIORandomAccessFile table_Open sizes entries) as (tc0 & E0 & H0).
  destruct (table_run_ok (A := A) dbname using_direct_io NewRandomAccessFile NewDirectIORandomAccessFile table_Open sizes Hr ops 0 tc0 [] _ [] H0 ltac:(constructor) ltac:(lia) Hops) as (gh & tc & sc & E & _). by exists tc0, gh.*1, tc.
Qed.

(** A directory with a table 5, a table 6 under its old name, and a table 8 that cannot be opened. *)
Module TableCacheExample.
Import ContainerExample.
Definition dbname : bytes := bs "db".
Definition missing : Status := IOError (bs "missing") [].
Definition broken : Status := Corruption (bs "broken") [].
Definition file : RandomAccessFile := {| Read := StringSource_Read [] |}.
Definition new_file (fname : bytes) : result RandomAccessFile :=
  if bool_decide (fname ∈ [TableFileName dbname 5; SSTTableFileName dbname 6; TableFileName dbname 8]) then Ok file else Fail missing.
Definition open (f : RandomAccessFile) (file_size number : Z) : result ExampleTable := if number =? 8 then Fail broken else Ok (MkExampleTable 2 number).
Definition ops : list (TableOp ExampleTable Z) :=
  [TGet 5 100 1 id; TNewIterator 5 100 1; TEvict 5; TRead 0 id; TGet 7 100 1 id; TGet 8 100 1 id; TGet 6 100 0 id; TNewIterator 6 100 0; TClose 0; TRead 0 id; TRead 1 id].
Definition results : list (TableResult Z) :=
  [TGot (Ok 5); TOpened Status_OK; TNothing; TGot (Ok 5); TGot (Fail missing); TGot (Fail broken); TGot (Ok 6); TOpened Status_OK; TNothing; TGot (Ok 6); TNothing].
End TableCacheExample.

(** The iterator on table 5 reads it after its removal from the cache. *)
Lemma table_cache_is_transparent_witness : ∃ tc0 its tc, NewTableCacheLRU 16 = Some tc0 ∧
  table_run TableCacheExample.dbname false TableCacheExample.new_file TableCacheExample.new_file TableCacheExample.open TableCacheExample.ops [] tc0 = Some (TableCacheExample.results, its, tc).
Proof.
  apply (table_cache_is_transparent ContainerExample.ExampleTable Z ContainerExample.Example_FilterTable ContainerExample.Example_laws TableCacheExample.dbname false TableCacheExample.new_file TableCacheExample.new_file TableCacheExample.open (λ _, 100) 16 TableCacheExample.ops).
  - intros n t. unfold open_table. destruct (NewRandomAccessFileForTable _ _ _ _); [|destruct (NewRandomAccessFileForTable _ _ _ _)]; cbn; unfold TableCacheExample.open; try done; destruct (n =? 8); try done; intros [= <-]; cbn; lia.
  - repeat constructor; cbn; lia.
  - vm_compute. reflexivity.
Defined.

(** An entry that leaves the cache for its capacity frees its table, but the containers
    keep a handle to it: tables 5 and 14 belong to one shard, and with room for one
    entry per shard an adjustment after reading both uses the freed one. *)
Lemma adjustment_uses_freed_table :
  let run entries := tc ← NewTableCacheLRU (T := ContainerExample.ExampleTable) entries;
    '(_, _, tc) ← table_run (A := Z) [] false (λ _, Ok TableCacheExample.file) (λ _, Ok TableCacheExample.file) TableCacheExample.open [TGet 5 100 1 ContainerExample.id; TGet 14 100 1 ContainerExample.id] [] tc;
    Some (map_to_list (ContainerExample.id <$> tc_tables tc), ContainerExample.members 17 (tc_containers tc), bool_decide (is_Some (tc_LoadBloomFilter 0 (λ _ _ _, true) 250 tc))) in
  run 16 = Some ([(1%nat, 14)], [113%nat; 112%nat], false) ∧ run 32 = Some ([(1%nat, 14); (0%nat, 5)], [113%nat; 112%nat], true).
Proof. vm_compute. done. Qed.
